(* ===== verification/_CoqProject ===== *)
-Q . S2P
Prelude.v
RingBytes.v
CStdlib.v
Strtod.v
EpicsString.v
EpicsStdlib.v
Calc.v
CalcPerform.v
CalcSafety.v
CalcParens.v
CalcRun.v
CalcCorrect.v
CalcUsage.v
DbEvent.v
DbEventQueue.v
DbEventInv.v
DbEventRun.v
FloatOrder.v
RecGbl.v
CompressRecord.v
CompressProof.v
LimitAlarm.v
SelRecord.v
HistogramRecord.v
CalcRecord.v
ListLib.v
EllLib.v
EllProof.v
EllRefine.v
EllSort.v
GpHash.v
ExtractArray.v
ArrFilter.v
EventFilters.v
MacLib.v
MacScope.v
MacSafe.v
MacApi.v
MacTemplate.v
MacExpand.v
MacCorrect.v
MacTest.v
DbLock.v
DbLockInv.v
DbLocker.v
DbLockSets.v
DbLockGraph.v
DbLockRun.v
DbLockMain.v
DbLockProg.v
DbLockConc.v
DbLockSteps.v
DbLockMoves.v
DbLockThreads.v
DbLockMany.v
DbLockHold.v
DbLockFlux.v
DbLockChange.v
DbLockApart.v
DbLockSplit.v
DbLockLinks.v
DbLockTasks.v
DbLockRetries.v
DbLockSystem.v
