(* ===== verification/Prelude.v ===== *)
(** * EPICS Base: a verification library

    A model of the C core of EPICS Base ([modules/libcom] and
    [modules/database] under [src/]) with the theorems that make it correct.  Functions and
    fields have the names of the source.

    ** How the code hangs together

    An IOC processes records.  A record type ([database/src/std/rec]) is a set of functions
    over a structure that begins with the fields of [dbCommon]; processing
    reads input links ([dbLink.c]), computes, raises alarms and applies deadbands
    ([recGbl.c]), posts changed fields to subscribers through an event queue per client
    ([dbEvent.c]) and processes the forward link.  Between the record and the queue a channel may have
    filters ([std/filters]), which change, hold back or delete an update.  The calc record computes with an
    expression language that [libcom/src/calc] compiles to byte code and evaluates; literals are
    parsed by [epicsStdlib.c], names compared by [epicsString.c].  Database files are read through the
    macro library ([macLib]); names are found in hash tables ([gpHash]) whose buckets are linked lists ([ellLib]).
    Records that database links connect share a lock set ([dbLock.c]), the mutex under which they are processed; a
    write to a link field ([dbPutFieldLink] in [dbAccess.c], [dbLink.c], [dbDbLink.c]) merges and splits lock sets.

    ** Files

    - [Prelude]: notations, tactics, hint databases, lists, sized integers, checked
      access to memory blocks ([rd], [wr]).
    - [RingBytes]: [ring/epicsRingBytes.c].  Its specification is a bounded queue.
    - [CStdlib], [Strtod]: the C library and the arithmetic of [double] the sources use
      ([strtol], [strtoul], [strtod], [ctype.h], conversions).
    - [EpicsString]: [misc/epicsString.c].  [EpicsStdlib]: [misc/epicsStdlib.c].
    - [Calc]: [calc/postfix.c], the compiler, with its tables.  [CalcPerform]:
      [calc/calcPerform.c], the evaluator and [calcArgUsage].  [CalcSafety], [CalcParens], [CalcRun],
      [CalcCorrect], [CalcUsage]: their theorems.
    - [DbEvent]: [ioc/db/dbEvent.c], one event queue as a transition system whose steps are
      the sections the threads run under [writelock].  [DbEventQueue]: the ring as the
      list of its entries.  [DbEventInv]: the invariant, operation by operation.
      [DbEventRun]: the theorems about runs.
    - [FloatOrder]: the order of [double] as an order of integers.
    - [RecGbl]: [ioc/db/recGbl.c], the two [dbGetLink] of [dbLink.c], [dbCommon].
    - [LimitAlarm]: the abstract limit alarm with hysteresis that record types implement.
    - [CompressRecord], [CompressProof]: [std/rec/compressRecord.c] and its theorems.
    - [SelRecord]: [std/rec/selRecord.c].  [HistogramRecord]: [std/rec/histogramRecord.c] and
      [std/dev/devHistogramSoft.c].  [CalcRecord]: [std/rec/calcRecord.c], on [Calc],
      [CalcPerform] and [LimitAlarm].
    - [ListLib]: what a list library promises, as a type class.
    - [EllLib]: [ellLib/ellLib.c] on a store of nodes and list headers.  [EllProof]: the
      sequences the lists hold and what each function does to them.  [EllRefine]: the library as
      operations on sequences, [ellVerify] and the instance of [ListLib].  [EllSort]: [ellLib/ellSort.c].
    - [GpHash]: [gpHash/gpHashLib.c], over any instance of [ListLib].
    - [ExtractArray]: [ioc/db/dbExtractArray.c].  [ArrFilter]: [std/filters/arr.c].  [EventFilters]:
      the chain of filters of [dbChannel.c], [std/filters/sync.c] and [dbnd.c].
    - [MacLib]: [macLib/macCore.c].  [MacScope]: the invariant of a handle and scopes.  [MacSafe]: translation
      stays in its buffers.  [MacApi]: sequences of calls, and handles as stacks of maps.  [MacTemplate]: the
      strings with references as syntax with a meaning.  [MacExpand]: translation computes the
      meaning.  [MacCorrect]: the values of macros and [macExpandString].  [MacTest]: the library's own tests.
    - [DbLock]: [ioc/db/dbLock.c], the functions of [dbDbLink.c] and [dbLink.c] that make and break links, and
      [dbPutFieldLink].  [DbLockInv]: the invariant of lock sets, references and mutexes.  [DbLocker]: lockers.
      [DbLockSets]: merging and moving records to a new set.  [DbLockGraph]: links as a graph and the search of
      [dbLockSetSplit].  [DbLockRun]: changes of links and initialisation.  [DbLockMain]: sequences of calls, the
      locking of one record, shutdown, and [ioc/db/test/dbLockTest.c] on the model.
    - [DbLockProg]: the functions of [dbLock.c] as programs of atomic steps, which run alone are those of [DbLock].
      [DbLockConc]: threads, what each holds, the invariant and the obligation of a program.  [DbLockSteps],
      [DbLockMoves]: the atomic steps.  [DbLockThreads], [DbLockMany], [DbLockHold]: the functions that lock records, alone
      or with a locker, among other threads.  [DbLockFlux]: links and flags that change, among other threads.
      [DbLockChange], [DbLockApart], [DbLockSplit]: merging, moving records to a new set, searching and
      splitting.  [DbLockLinks]: the functions that change links, to [dbPutFieldLink].  [DbLockTasks]: the
      tasks of a thread.  [DbLockRetries]: how often records can move.  [DbLockSystem]: systems of threads.

    ** Modelling conventions

    Structures are records, threaded through the operations; a block of memory is a list and
    an access outside of it, the use of a freed object, a failed [assert] or a
    trapping division is a value of a fault type of the component ([postfix_ub], [cp_fault], [ev_fault],
    [co_fault], [hi_fault], [ca_fault], [ell_fault], [gph_fault], [arr_fault], [mac_fault], [lk_fault]), so that a theorem about results also excludes faults.  Integers are [Z]
    with the wrap-around of their width written out; [double] is the kernel's IEEE 754
    binary64; the functions of [libm] are a parameter ([libm]).  What the clock, the links
    and device support deliver are parameters too ([time_env], [link], [histogramdset]).
    Calls that leave a record ([db_post_events], [dbScanFwdLink], [scanOnce], ...)
    are recorded in order in the [trace] of [dbCommon].

    Loops that are not structural have fuel, computed from the input: [postfix] takes one unit per
    character of the source and one for its end, [calcPerform] one per byte of code,
    [epicsStrGlobMatch] the product of the lengths ([glob_fuel]), the loops over the event queue
    one per entry and one more, the loops along a linked list one per node of the store and two more ([walk]; a bucket
    of a hash table is walked with the same), the
    passes of [ellSortStable] 64, for every pass doubles a 64-bit size, the search of [dbLockSetSplit] the number of
    records and one.  The retries of [dbScanLock] and [dbScanLockMany], which come after a change of sets by another thread, have
    a parameter; when the calls of the threads run one after the other one unit is enough, and among other threads
    one more than twice the number of records for every change of a link ([max_moves]) is ([threads_end]): no thread reaches
    [Stop], where it would have used them up.  Running out of fuel is an outcome of its own and every other
    theorem about these functions excludes it.  The exception is the macro library, which does not always return: the
    fuel of a translation is a parameter, theorems of safety admit that it runs out, and [converges] says that the result is the same
    for every fuel beyond a bound.

    ** Theorems

    - Calculation: the compiler and the evaluator together compute the meaning of every program of the
      language ([CalcCorrect]); on any string of at most 79 characters with its commas and closing parentheses inside of parentheses the compiler stays inside its
      buffers ([CalcSafety], [CalcParens]) and its code, apart from three features, inside the
      evaluator's ([CalcRun]); the argument masks are sound ([CalcUsage]).
    - Ring buffer: refinement of a queue.  Strings (of sizes that an [int] holds): round trip, sizes, glob match against a declarative
      definition.  Number parsing: the ranges of the sized parsers.
    - Event queue: safety of all interleavings, whose callbacks cancel no subscription but their own, with the invariant of the queue, the stream every
      subscriber sees, and that the event task drains the queue.
    - Records: one alarm cycle, deadband monitors; the compress buffer, its
      algorithms on arrays and on scalars and memory safety of processing; the selection
      algorithms and the alarms of sel; the counts of a histogram; what a calc record computes, its
      alarms and the monitors of its inputs.
    - Linked lists: refinement of sequences, exactness of [ellVerify] on corrupt lists, stable sorting.
    - Hash table: refinement of a finite map, proved against the interface [ListLib].
    - Filters: what the array filter selects from records and from updates with data and when its memory suffices;
      the streams behind the synchronise and the deadband filter; that a chain is the composition of its filters and, of those two kinds, neither
      loses nor releases twice an update.
    - Macro library: memory safety of all sequences of calls, refinement of a stack of scopes, the result of
      [macExpandString] for every template and buffer size, and a string on which it never returns.
    - Lock sets: after any changes of links the lock sets are the connected components of the records, with one reference
      for each record and all mutexes free, and shutdown frees all of them.  With any number of threads, step by
      step in any order: no failed [assert], mutual exclusion by lock set, no deadlock, a bound on the retries, an end with nothing held and the
      components as lock sets.

    Examples next to the definitions evaluate the inputs on which the code misbehaves
    ([calc_faults], [paren_unset], [dstlen_truncated], [overfull_fails], [cancel_two_fails], [cancel_leaks], [median_overruns],
    [limits_overrun], [histogram_nan_overrun], [histogram_rounding_overrun],
    [histogram_limits_alarm_lost], [filter_overrun], [arr_overflows], [arr_no_freelist], [arr_no_memory],
    [arr_cuts_strings], [arr_releases_twice], [sync_leaks], [dbnd_relative_negative], [escaped_default],
    [scoped_recursion]); the theorems name them as exceptions.

    ** Not modelled

    Functions that print or only free memory; the chain of queues of one client and
    start-up of [dbEvent.c]; display attributes of records (units, precision, limits); the
    static database, database access (but changes of links) and conversion, scanning; access security; the parsers of macro definitions in [macUtil.c]; the C++
    code: Channel Access, pvData and pvAccess; the operating system layer.  Threads change links with [dbPutFieldLink] and lock and unlock records; records and
    links are not created or deleted while they run, as in an IOC after [iocInit].  The search of [dbLockSetSplit] is one step of a thread: it reads and
    writes only records of a set whose mutex the thread has.
    Not modelled yet: access security rules, calcout, ai and ao records, [bucketLib]. *)

From stdpp Require Import base numbers list option strings gmap.
From Stdlib Require Import ZArith Lia Bool.

#[global] Open Scope Z_scope.

(** ** Notations *)

Declare Scope epics_scope.
Delimit Scope epics_scope with epics.
Abbreviation zlen l := (Z.of_nat (length l)).
#[global] Open Scope epics_scope.

(** ** Automation *)

(** [epics] holds the shared resolution and rewriting lemmas. *)
Create HintDb epics.
Create Rewrite HintDb epics.
Create Rewrite HintDb epics_len.

(** Case analysis on every boolean comparison of [Z] and on every [if] of the
    goal, keeping the information as (in)equalities. *)
Ltac zbool :=
  repeat match goal with
  | |- context [Z.leb ?a ?b] => destruct (Z.leb_spec a b)
  | |- context [Z.ltb ?a ?b] => destruct (Z.ltb_spec a b)
  | |- context [Z.eqb ?a ?b] => destruct (Z.eqb_spec a b)
  end.

Ltac zbool_in H :=
  repeat match type of H with
  | context [Z.leb ?a ?b] => destruct (Z.leb_spec a b)
  | context [Z.ltb ?a ?b] => destruct (Z.ltb_spec a b)
  | context [Z.eqb ?a ?b] => destruct (Z.eqb_spec a b)
  end.

(** List lengths, normalised for [lia]. *)
#[export] Hint Rewrite @length_app @length_take @length_drop @length_insert
  @length_replicate @length_map @length_reverse @length_rev @length_cons : epics_len.
Ltac lens := autorewrite with epics_len in *; simpl length in *.
Ltac llia := lens; lia.

(** Reduce an option bind in a hypothesis. *)
Ltac obind H x E :=
  match type of H with
  | (?o ≫= _) = Some _ => destruct o as [x|] eqn:E; [|discriminate H]; cbn in H
  end.

Lemma and_r3 (A B C : Prop) : A /\ B -> C -> A /\ B /\ C.
Proof. tauto. Qed.

(** ** Computations that may fail

    [E + A] is a result of type [A] or an error of type [E]. *)
Definition ebind {E A B} (m : E + A) (f : A -> E + B) : E + B :=
  match m with inl e => inl e | inr a => f a end.
Notation "'let*' x ':=' c 'in' k" := (ebind c (fun x => k))
  (at level 200, x name, c at level 100, k at level 200, right associativity) : epics_scope.
Notation "'let*' ' x ':=' c 'in' k" := (ebind c (fun x => k))
  (at level 200, x strict pattern, c at level 100, k at level 200, right associativity) : epics_scope.

Lemma ebind_inr {E A B} (m : E + A) (f : A -> E + B) b :
  ebind m f = inr b <-> exists a, m = inr a /\ f a = inr b.
Proof.
  destruct m; simpl; split; try done; [by intros (? & ? & ?)|eauto|].
  intros (? & [= ->] & ?). done.
Qed.

Lemma ebind_inl {E A B} (m : E + A) (f : A -> E + B) e :
  ebind m f = inl e <-> m = inl e \/ exists a, m = inr a /\ f a = inl e.
Proof.
  destruct m; simpl; split.
  - intros [= ->]. by left.
  - intros [[= ->]|(? & ? & ?)]; done.
  - eauto.
  - intros [?|(? & [= ->] & ?)]; done.
Qed.

(** The result satisfies [P], unless the computation fails with an error of [F]. *)
Definition rwp {E A} (F : E -> Prop) (r : E + A) (P : A -> Prop) : Prop :=
  match r with inl e => F e | inr a => P a end.

Lemma rwp_bind {E A B} (F : E -> Prop) (m : E + A) (f : A -> E + B) P :
  rwp F m (fun a => rwp F (f a) P) -> rwp F (ebind m f) P.
Proof. by destruct m. Qed.

Lemma rwp_mono {E A} (F : E -> Prop) (m : E + A) (P Q : A -> Prop) :
  rwp F m P -> (forall a, P a -> Q a) -> rwp F m Q.
Proof. destruct m; simpl; auto. Qed.

(** Decompose a successful chain of steps. *)
Ltac ebind_inv H :=
  repeat match type of H with
  | ebind _ _ = inr _ =>
      let a := fresh "a" in let E := fresh "E" in
      apply ebind_inr in H; destruct H as (a & E & H)
  end.

(** ** Machine integers *)

(** Value of a [w]-bit two's complement integer with the low bits of [z]. *)
Definition wrap_u (w z : Z) : Z := z mod 2 ^ w.
Definition wrap_s (w z : Z) : Z :=
  let m := z mod 2 ^ w in if m <? 2 ^ (w - 1) then m else m - 2 ^ w.

Definition fits_s (w z : Z) : Prop := - 2 ^ (w - 1) <= z < 2 ^ (w - 1).
Definition fits_u (w z : Z) : Prop := 0 <= z < 2 ^ w.

#[global] Instance fits_s_dec w z : Decision (fits_s w z).
Proof. unfold fits_s. apply _. Defined.
#[global] Instance fits_u_dec w z : Decision (fits_u w z).
Proof. unfold fits_u. apply _. Defined.

Lemma pow2_half w : 0 < w -> 2 ^ w = 2 * 2 ^ (w - 1).
Proof. intros. replace w with (Z.succ (w - 1)) at 1 by lia. rewrite Z.pow_succ_r; lia. Qed.

Lemma wrap_u_range w z : 0 <= w -> fits_u w (wrap_u w z).
Proof. intros. apply Z.mod_pos_bound. apply Z.pow_pos_nonneg; lia. Qed.

Lemma wrap_u_id w z : fits_u w z -> wrap_u w z = z.
Proof. intros. apply Z.mod_small. assumption. Qed.

Lemma wrap_s_range w z : 0 < w -> fits_s w (wrap_s w z).
Proof.
  intros Hw. unfold fits_s, wrap_s.
  pose proof (pow2_half w Hw) as E.
  assert (0 < 2 ^ (w - 1)) by (apply Z.pow_pos_nonneg; lia).
  pose proof (Z.mod_pos_bound z (2 ^ w)) as B.
  zbool; lia.
Qed.

Lemma wrap_s_id w z : 0 < w -> fits_s w z -> wrap_s w z = z.
Proof.
  intros Hw [L U]. unfold wrap_s.
  pose proof (pow2_half w Hw) as E.
  destruct (Z_lt_le_dec z 0).
  - assert (M : z mod 2 ^ w = z + 2 ^ w).
    { symmetry. apply (Z.mod_unique_pos _ _ (-1)); lia. }
    rewrite M. zbool; lia.
  - rewrite Z.mod_small by lia. zbool; lia.
Qed.

Lemma wrap_s_mod w z : 0 < w -> wrap_s w z mod 2 ^ w = z mod 2 ^ w.
Proof.
  intros. unfold wrap_s. destruct (_ <? _).
  - apply Z.mod_mod. lia.
  - rewrite <- (Z.mod_add _ 1) by lia. rewrite Z.mul_1_l, Z.sub_add, Z.mod_mod by lia. done.
Qed.

(** Wrapping around depends on the residue only. *)
Lemma wrap_s_congr w a b : a mod 2 ^ w = b mod 2 ^ w -> wrap_s w a = wrap_s w b.
Proof. intros E. unfold wrap_s. by rewrite E. Qed.

#[export] Hint Resolve wrap_u_range wrap_s_range : epics.
#[export] Hint Rewrite wrap_u_id wrap_s_id using (unfold fits_u, fits_s; lia) : epics.

(** ** Memory blocks

    A block of memory is a list of cells.  [rd] and [wr] are [memcpy] out of
    and into a block; an access that is not inside the block is [None]. *)
Definition rd {A} (buf : list A) (off n : Z) : option (list A) :=
  if (0 <=? off) && (0 <=? n) && (off + n <=? zlen buf)
  then Some (take (Z.to_nat n) (drop (Z.to_nat off) buf)) else None.

Definition wr {A} (buf : list A) (off : Z) (xs : list A) : option (list A) :=
  if (0 <=? off) && (off + zlen xs <=? zlen buf)
  then Some (take (Z.to_nat off) buf ++ xs ++ drop (Z.to_nat off + length xs) buf)
  else None.

Lemma rd_app {A} (a b c : list A) off n :
  off = zlen a -> n = zlen b -> rd (a ++ b ++ c) off n = Some b.
Proof.
  intros -> ->. unfold rd.
  replace (_ && _) with true by (symmetry; rewrite !andb_true_iff, !Z.leb_le; llia).
  rewrite !Nat2Z.id, drop_app_length, take_app_length. reflexivity.
Qed.

Lemma wr_app {A} (a b c xs : list A) off :
  off = zlen a -> length xs = length b ->
  wr (a ++ b ++ c) off xs = Some (a ++ xs ++ c).
Proof.
  intros -> E. unfold wr.
  replace (_ && _) with true by (symmetry; rewrite !andb_true_iff, !Z.leb_le; llia).
  rewrite !Nat2Z.id, take_app_length, E, <- drop_drop, drop_app_length, drop_app_length.
  reflexivity.
Qed.

(** Cut a block at a position. *)
Lemma cut_at {A} (l : list A) n :
  0 <= n <= zlen l -> exists a b, l = a ++ b /\ zlen a = n /\ zlen b = zlen l - n.
Proof.
  intros H. exists (take (Z.to_nat n) l), (drop (Z.to_nat n) l).
  rewrite take_drop. split; [reflexivity|]. llia.
Qed.

Lemma zlen_nil_inv {A} (l : list A) : zlen l = 0 -> l = [].
Proof. destruct l; simpl; [reflexivity|lia]. Qed.

Lemma take_app_all {A} (a b : list A) n : n = length a -> take n (a ++ b) = a.
Proof. intros ->. apply take_app_length. Qed.

Lemma drop_app_all {A} (a b : list A) n : n = length a -> drop n (a ++ b) = b.
Proof. intros ->. apply drop_app_length. Qed.

Lemma suffix_cons_cases {A} (t : list A) x l :
  t `suffix_of` x :: l -> t = x :: l \/ t `suffix_of` l.
Proof.
  intros [[|y k] E]; simpl in E; [by left|right]. injection E as -> ->. by exists k.
Qed.

Lemma suffix_length_le {A} (a b : list A) : a `suffix_of` b -> (length a <= length b)%nat.
Proof. intros [k ->]. rewrite length_app. lia. Qed.
