(* ===== verification/RingBytes.v ===== *)
(** * The byte ring buffer ([modules/libcom/src/ring/epicsRingBytes.c])

    The C structure is a record of its fields; [buffer] is the memory block
    allocated by [malloc] ([size] bytes are in use by the ring).  Every
    [memcpy] is a checked access ({!Prelude.rd}, {!Prelude.wr}): an operation
    that would leave the block has no result, so that a theorem which states a
    result also states that the operation stays inside the buffer. *)

From stdpp Require Import base numbers list option.
From Stdlib Require Import ZArith Lia Bool.
From S2P Require Import Prelude.

Definition SLOP : Z := 16.

(** [lock] tells whether the ring was made by [epicsRingBytesLockedCreate]. *)
Record ringPvt := mkRing {
  lock : bool; nextPut : Z; nextGet : Z; size : Z; buffer : list Z }.

(** ** Operations *)

(** [mem] is the block [malloc] returns, [None] when there is no memory; its
    length is the number of ring bytes of the allocation, [size + SLOP]. *)
Definition epicsRingBytesCreate (size : Z) (mem : option (list Z)) : option ringPvt :=
  match mem with
  | None => None
  | Some block => Some (mkRing false 0 0 (size + SLOP) block)
  end.

Definition epicsRingBytesLockedCreate (size : Z) (mem : option (list Z)) : option ringPvt :=
  match epicsRingBytesCreate size mem with
  | None => None
  | Some pring =>
      Some (mkRing true (nextPut pring) (nextGet pring) (RingBytes.size pring) (buffer pring))
  end.

Definition set_nextGet (r : ringPvt) (i : Z) : ringPvt :=
  mkRing (lock r) (nextPut r) i (size r) (buffer r).
Definition set_nextPut (r : ringPvt) (i : Z) : ringPvt :=
  mkRing (lock r) i (nextGet r) (size r) (buffer r).
Definition set_buffer (r : ringPvt) (b : list Z) : ringPvt :=
  mkRing (lock r) (nextPut r) (nextGet r) (size r) b.

(** Result: the new ring, the bytes stored at [value] and the return value. *)
Definition epicsRingBytesGet (pring : ringPvt) (nbytes : Z) : option (ringPvt * list Z * Z) :=
  let nextGet := RingBytes.nextGet pring in
  let nextPut := RingBytes.nextPut pring in
  let size := RingBytes.size pring in
  if nextGet <=? nextPut then
    let count := nextPut - nextGet in
    let nbytes := if count <? nbytes then count else nbytes in
    value ← (if nbytes =? 0 then Some [] else rd (buffer pring) nextGet nbytes);
    Some (set_nextGet pring (nextGet + nbytes), value, nbytes)
  else
    let count := size - nextGet in
    let count := if nbytes <? count then nbytes else count in
    value ← rd (buffer pring) nextGet count;
    let nextGet := nextGet + count in
    if nextGet =? size then
      let nLeft := nbytes - count in
      let nLeft := if nextPut <? nLeft then nextPut else nLeft in
      value' ← rd (buffer pring) 0 nLeft;
      Some (set_nextGet pring nLeft, value ++ value', count + nLeft)
    else Some (set_nextGet pring nextGet, value, count).

(** [value] holds [nbytes] bytes. *)
Definition epicsRingBytesPut (pring : ringPvt) (value : list Z) : option (ringPvt * Z) :=
  let nbytes := zlen value in
  let nextGet := RingBytes.nextGet pring in
  let nextPut := RingBytes.nextPut pring in
  let size := RingBytes.size pring in
  if nextPut <? nextGet then
    let freeCount := nextGet - nextPut - SLOP in
    if freeCount <? nbytes then Some (pring, 0) else
    b ← (if nbytes =? 0 then Some (buffer pring) else wr (buffer pring) nextPut value);
    Some (set_nextPut (set_buffer pring b) (nextPut + nbytes), nbytes)
  else
    let freeCount := size - nextPut + nextGet - SLOP in
    if freeCount <? nbytes then Some (pring, 0) else
    let topCount := size - nextPut in
    let copyCount := if topCount <? nbytes then topCount else nbytes in
    b ← (if copyCount =? 0 then Some (buffer pring)
         else wr (buffer pring) nextPut (take (Z.to_nat copyCount) value));
    let nextPut := nextPut + copyCount in
    if nextPut =? size then
      let nLeft := nbytes - copyCount in
      b' ← (if nLeft =? 0 then Some b else wr b 0 (drop (Z.to_nat copyCount) value));
      Some (set_nextPut (set_buffer pring b') nLeft, nbytes)
    else Some (set_nextPut (set_buffer pring b) nextPut, nbytes).

Definition epicsRingBytesFlush (pring : ringPvt) : ringPvt :=
  set_nextGet pring (nextPut pring).

Definition epicsRingBytesFreeBytes (pring : ringPvt) : Z :=
  if nextPut pring <? nextGet pring
  then nextGet pring - nextPut pring - SLOP
  else size pring - nextPut pring + nextGet pring - SLOP.

Definition epicsRingBytesUsedBytes (pring : ringPvt) : Z :=
  let used := nextPut pring - nextGet pring in
  if used <? 0 then used + size pring else used.

Definition epicsRingBytesSize (pring : ringPvt) : Z := size pring - SLOP.

Definition epicsRingBytesIsEmpty (pring : ringPvt) : bool := nextPut pring =? nextGet pring.

Definition epicsRingBytesIsFull (pring : ringPvt) : bool :=
  epicsRingBytesFreeBytes pring <=? 0.

(** ** Abstract state: the bytes in the ring, oldest first *)

Definition contents (r : ringPvt) : list Z :=
  if nextGet r <=? nextPut r
  then take (Z.to_nat (nextPut r - nextGet r)) (drop (Z.to_nat (nextGet r)) (buffer r))
  else drop (Z.to_nat (nextGet r)) (buffer r) ++ take (Z.to_nat (nextPut r)) (buffer r).

(** A ring of capacity [size - SLOP] whose [int] fields do not overflow. *)
Definition wf_ring (r : ringPvt) : Prop :=
  SLOP <= size r < 2 ^ 31 /\ zlen (buffer r) = size r /\
  0 <= nextGet r < size r /\ 0 <= nextPut r < size r /\
  zlen (contents r) <= size r - SLOP.

(** The two shapes of a ring: used bytes in one piece, or wrapped around. *)
Inductive shape (r : ringPvt) : Prop :=
| shape_flat pre c post :
    buffer r = pre ++ c ++ post -> contents r = c ->
    nextGet r = zlen pre -> nextPut r = zlen pre + zlen c -> 0 < zlen post -> shape r
| shape_wrapped hi free lo :
    buffer r = lo ++ free ++ hi -> contents r = hi ++ lo ->
    nextGet r = zlen lo + zlen free -> nextPut r = zlen lo ->
    0 < zlen free -> 0 < zlen hi -> shape r.

Lemma wf_shape r : wf_ring r -> shape r.
Proof.
  intros (Hs & Hb & Hg & Hp & Hc). unfold contents in Hc.
  destruct (Z.leb_spec (nextGet r) (nextPut r)) as [L|L].
  - destruct (cut_at (buffer r) (nextGet r)) as (pre & t & E & Lp & _); [lia|].
    assert (Lt : zlen t = size r - nextGet r) by (rewrite E in Hb; llia).
    destruct (cut_at t (nextPut r - nextGet r)) as (c & post & -> & Lc & Lq); [lia|].
    apply shape_flat with pre c post; try llia; [assumption|].
    unfold contents. destruct (Z.leb_spec (nextGet r) (nextPut r)); [|lia].
    rewrite E, drop_app_all by lia. apply take_app_all. lia.
  - destruct (cut_at (buffer r) (nextPut r)) as (lo & t & E & Lp & _); [lia|].
    assert (Lt : zlen t = size r - nextPut r) by (rewrite E in Hb; llia).
    destruct (cut_at t (nextGet r - nextPut r)) as (free & hi & -> & Lc & Lq); [lia|].
    apply shape_wrapped with hi free lo; try llia; [assumption|].
    unfold contents. destruct (Z.leb_spec (nextGet r) (nextPut r)); [lia|].
    rewrite E. f_equal; [|apply take_app_all; lia].
    rewrite app_assoc. apply drop_app_all. llia.
Qed.

(** Conversely, a flat or wrapped layout determines the contents. *)
Lemma contents_flat l p g s pre c post :
  g = zlen pre -> p = zlen pre + zlen c ->
  contents (mkRing l p g s (pre ++ c ++ post)) = c.
Proof.
  intros -> ->. unfold contents; simpl. zbool; [|lia].
  rewrite drop_app_all by lia. apply take_app_all. lia.
Qed.

Lemma contents_wrapped l p g s lo free hi :
  p = zlen lo -> g = zlen lo + zlen free -> 0 < zlen free ->
  contents (mkRing l p g s (lo ++ free ++ hi)) = hi ++ lo.
Proof.
  intros -> -> ?. unfold contents; simpl. zbool; [lia|].
  f_equal; [|apply take_app_all; lia].
  rewrite app_assoc. apply drop_app_all. llia.
Qed.

Create Rewrite HintDb ring.
#[export] Hint Rewrite contents_flat contents_wrapped using llia : ring.

(** ** Accounting *)

Ltac rlia := unfold SLOP in *; llia.

Lemma ring_used_contents r : wf_ring r -> epicsRingBytesUsedBytes r = zlen (contents r).
Proof.
  intros W. pose proof (wf_shape r W) as Sh.
  destruct W as (Hs & Hb & Hg & Hp & Hc). unfold epicsRingBytesUsedBytes.
  destruct Sh as [? ? ? Eb Ec Eg Ep|? ? ? Eb Ec Eg Ep]; rewrite Ec, Eg, Ep in *;
    rewrite Eb in Hb; zbool; llia.
Qed.

Lemma ring_free_contents r :
  wf_ring r -> epicsRingBytesFreeBytes r = size r - SLOP - zlen (contents r).
Proof.
  intros W. pose proof (wf_shape r W) as Sh.
  destruct W as (Hs & Hb & Hg & Hp & Hc). unfold epicsRingBytesFreeBytes.
  destruct Sh as [? ? ? Eb Ec Eg Ep|? ? ? Eb Ec Eg Ep]; rewrite Ec, Eg, Ep in *;
    rewrite Eb in Hb; zbool; llia.
Qed.

(** ** Put and get on contents *)

(** A new ring given by its layout is well formed and has the expected contents. *)
Lemma ring_flat_result l p g s pre c post :
  g = zlen pre -> p = zlen pre + zlen c -> 0 < zlen post ->
  s = zlen pre + zlen c + zlen post -> s < 2 ^ 31 -> zlen c <= s - SLOP ->
  let r := mkRing l p g s (pre ++ c ++ post) in
  wf_ring r /\ contents r = c.
Proof.
  intros -> -> ? -> ? ?. cbn zeta. unfold wf_ring; simpl.
  rewrite contents_flat by reflexivity. split_and!; rlia || reflexivity.
Qed.

Lemma ring_wrapped_result l p g s lo free hi :
  p = zlen lo -> g = zlen lo + zlen free -> 0 < zlen free -> 0 < zlen hi ->
  s = zlen lo + zlen free + zlen hi -> s < 2 ^ 31 -> zlen lo + zlen hi <= s - SLOP ->
  let r := mkRing l p g s (lo ++ free ++ hi) in
  wf_ring r /\ contents r = hi ++ lo.
Proof.
  intros -> -> ? ? -> ? ?. cbn zeta. unfold wf_ring; simpl.
  rewrite contents_wrapped by (reflexivity || lia). split_and!; rlia || reflexivity.
Qed.

(** The three cases of a put that fits. *)
Lemma ring_put_flat_wraps l s pre c post v :
  wf_ring (mkRing l (zlen pre + zlen c) (zlen pre) s (pre ++ c ++ post)) ->
  zlen post <= zlen v -> zlen v <= s - SLOP - zlen c -> 0 < zlen post ->
  exists r', epicsRingBytesPut (mkRing l (zlen pre + zlen c) (zlen pre) s (pre ++ c ++ post)) v
             = Some (r', zlen v) /\ wf_ring r' /\ contents r' = c ++ v /\ size r' = s.
Proof.
  intros (Hs & Hb & Hg & Hp & _) L F Q; simpl in *. unfold epicsRingBytesPut; simpl.
  destruct (cut_at v (zlen post)) as (v1 & v2 & -> & L1 & L2); [rlia|].
  destruct (cut_at pre (zlen v2)) as (pre1 & pre2 & -> & P1 & P2); [rlia|].
  rewrite (proj2 (Z.ltb_ge _ (zlen (pre1 ++ pre2)))) by rlia.
  rewrite (proj2 (Z.ltb_ge _ (zlen (v1 ++ v2)))) by rlia.
  assert (EC : (if s - (zlen (pre1 ++ pre2) + zlen c) <? zlen (v1 ++ v2)
           then s - (zlen (pre1 ++ pre2) + zlen c) else zlen (v1 ++ v2)) = zlen v1)
    by (zbool; rlia).
  rewrite EC, (proj2 (Z.eqb_neq (zlen v1) 0)), (take_app_all v1 v2), (drop_app_all v1 v2) by rlia.
  replace ((pre1 ++ pre2) ++ c ++ post) with (((pre1 ++ pre2) ++ c) ++ post ++ [])
    by (rewrite app_nil_r, !app_assoc; reflexivity).
  rewrite (wr_app _ post [] v1) by rlia. simpl.
  rewrite (proj2 (Z.eqb_eq _ s)) by rlia.
  assert (EW : (if zlen (v1 ++ v2) - zlen v1 =? 0
                then Some (((pre1 ++ pre2) ++ c) ++ v1 ++ [])
                else wr (((pre1 ++ pre2) ++ c) ++ v1 ++ []) 0 v2)
               = Some (v2 ++ pre2 ++ (c ++ v1))).
  { rewrite app_nil_r, <- !app_assoc.
    assert (W : wr ([] ++ pre1 ++ pre2 ++ c ++ v1) 0 v2 = Some ([] ++ v2 ++ pre2 ++ c ++ v1))
      by (apply wr_app; rlia).
    destruct (Z.eqb_spec (zlen (v1 ++ v2) - zlen v1) 0); [|exact W].
    rewrite (zlen_nil_inv v2), (zlen_nil_inv pre1) by rlia. reflexivity. }
  rewrite EW. simpl. eexists; split; [reflexivity|].
  unfold set_nextPut, set_buffer; simpl.
  rewrite (app_assoc c v1 v2). apply and_r3; [|reflexivity].
  apply ring_wrapped_result; rlia.
Qed.

Lemma ring_put_flat_fits l s pre c post v :
  wf_ring (mkRing l (zlen pre + zlen c) (zlen pre) s (pre ++ c ++ post)) ->
  zlen v < zlen post -> zlen v <= s - SLOP - zlen c ->
  exists r', epicsRingBytesPut (mkRing l (zlen pre + zlen c) (zlen pre) s (pre ++ c ++ post)) v
             = Some (r', zlen v) /\ wf_ring r' /\ contents r' = c ++ v /\ size r' = s.
Proof.
  intros (Hs & Hb & Hg & Hp & _) L F; simpl in *. unfold epicsRingBytesPut; simpl.
  destruct (cut_at post (zlen v)) as (q1 & q2 & -> & L1 & L2); [rlia|].
  rewrite (proj2 (Z.ltb_ge _ (zlen pre))), (proj2 (Z.ltb_ge _ (zlen v))) by rlia.
  rewrite (proj2 (Z.ltb_ge _ (zlen v))), Nat2Z.id, firstn_all by rlia.
  assert (EW : (if zlen v =? 0 then Some (pre ++ c ++ q1 ++ q2)
                else wr (pre ++ c ++ q1 ++ q2) (zlen pre + zlen c) v)
               = Some (pre ++ (c ++ v) ++ q2)).
  { replace (pre ++ c ++ q1 ++ q2) with ((pre ++ c) ++ q1 ++ q2) by (rewrite !app_assoc; reflexivity).
    rewrite (wr_app _ q1 q2 v) by rlia.
    destruct (Z.eqb_spec (zlen v) 0); [|rewrite <- !app_assoc; reflexivity].
    rewrite (zlen_nil_inv v), (zlen_nil_inv q1) by rlia. rewrite <- !app_assoc. reflexivity. }
  rewrite EW. simpl. rewrite (proj2 (Z.eqb_neq _ s)) by rlia.
  eexists; split; [reflexivity|]. unfold set_nextPut, set_buffer; simpl.
  apply and_r3; [|reflexivity]. apply ring_flat_result; rlia.
Qed.

Lemma ring_put_wrapped l s lo free hi v :
  wf_ring (mkRing l (zlen lo) (zlen lo + zlen free) s (lo ++ free ++ hi)) ->
  zlen v <= s - SLOP - zlen (hi ++ lo) -> 0 < zlen free -> 0 < zlen hi ->
  exists r', epicsRingBytesPut (mkRing l (zlen lo) (zlen lo + zlen free) s (lo ++ free ++ hi)) v
             = Some (r', zlen v) /\ wf_ring r' /\ contents r' = (hi ++ lo) ++ v /\ size r' = s.
Proof.
  intros (Hs & Hb & Hg & Hp & _) F Q H; simpl in *. unfold epicsRingBytesPut; simpl.
  destruct (cut_at free (zlen v)) as (f1 & f2 & -> & L1 & L2); [rlia|].
  rewrite (proj2 (Z.ltb_lt _ _)), (proj2 (Z.ltb_ge _ (zlen v))) by rlia.
  assert (EW : (if zlen v =? 0 then Some (lo ++ (f1 ++ f2) ++ hi)
                else wr (lo ++ (f1 ++ f2) ++ hi) (zlen lo) v)
               = Some ((lo ++ v) ++ f2 ++ hi)).
  { rewrite <- (app_assoc f1 f2 hi), (wr_app _ f1 (f2 ++ hi) v) by rlia.
    destruct (Z.eqb_spec (zlen v) 0); [|rewrite <- !app_assoc; reflexivity].
    rewrite (zlen_nil_inv v), (zlen_nil_inv f1) by rlia. rewrite <- !app_assoc. reflexivity. }
  rewrite EW. simpl. eexists; split; [reflexivity|].
  unfold set_nextPut, set_buffer; simpl.
  rewrite <- (app_assoc hi lo v). apply and_r3; [|reflexivity]. apply ring_wrapped_result; rlia.
Qed.

Lemma ring_put_fits r v :
  wf_ring r -> zlen v <= epicsRingBytesFreeBytes r ->
  exists r', epicsRingBytesPut r v = Some (r', zlen v) /\ wf_ring r' /\
    contents r' = contents r ++ v /\ size r' = size r.
Proof.
  intros W. rewrite (ring_free_contents r W). intros F.
  destruct (wf_shape r W) as [pre c post Eb Ec Eg Ep Hq|hi free lo Eb Ec Eg Ep Hf Hh];
    destruct r as [lk p g sz b]; simpl in *; subst b p g; rewrite Ec in *.
  - destruct (Z_le_gt_dec (zlen post) (zlen v)).
    + apply ring_put_flat_wraps; assumption.
    + apply ring_put_flat_fits; (assumption || lia).
  - apply ring_put_wrapped; assumption.
Qed.

Lemma ring_put_full r v :
  wf_ring r -> epicsRingBytesFreeBytes r < zlen v -> epicsRingBytesPut r v = Some (r, 0).
Proof.
  unfold epicsRingBytesFreeBytes, epicsRingBytesPut. intros W F.
  destruct (nextPut r <? nextGet r); rewrite (proj2 (Z.ltb_lt _ _)) by lia; reflexivity.
Qed.

Ltac ring_eq :=
  repeat match goal with
  | |- Some _ = Some _ => f_equal
  | |- (_, _) = (_, _) => f_equal
  | |- mkRing _ _ _ _ _ = mkRing _ _ _ _ _ => f_equal
  end; try reflexivity; try rlia.

(** The cases of a get. *)
Lemma ring_get_flat l s pre c post n :
  wf_ring (mkRing l (zlen pre + zlen c) (zlen pre) s (pre ++ c ++ post)) -> 0 <= n ->
  0 < zlen post ->
  exists r' v, epicsRingBytesGet (mkRing l (zlen pre + zlen c) (zlen pre) s (pre ++ c ++ post)) n
               = Some (r', v, zlen v) /\ wf_ring r' /\ v ++ contents r' = c /\
    zlen v = Z.min n (zlen c) /\ size r' = s.
Proof.
  intros (Hs & Hb & Hg & Hp & Hc) Hn Q; simpl in *. rewrite contents_flat in Hc by reflexivity.
  unfold epicsRingBytesGet; simpl. rewrite (proj2 (Z.leb_le _ _)) by lia.
  set (m := if _ <? n then _ else n).
  assert (Em : m = Z.min n (zlen c)) by (subst m; zbool; lia). clearbody m.
  destruct (cut_at c m) as (c1 & c2 & -> & L1 & L2); [lia|].
  assert (ER : (if m =? 0 then Some [] else rd (pre ++ (c1 ++ c2) ++ post) (zlen pre) m) = Some c1).
  { destruct (Z.eqb_spec m 0); [rewrite (zlen_nil_inv c1) by lia; reflexivity|].
    rewrite <- app_assoc. apply rd_app; lia. }
  rewrite ER. simpl.
  exists (mkRing l (zlen pre + zlen (c1 ++ c2)) (zlen (pre ++ c1)) s ((pre ++ c1) ++ c2 ++ post)), c1.
  split_and!.
  - unfold set_nextGet; simpl. rewrite <- !app_assoc. ring_eq.
  - apply ring_flat_result; rlia.
  - rewrite contents_flat by llia. reflexivity.
  - lia.
  - reflexivity.
Qed.

Lemma ring_get_wrapped l s lo free hi n :
  wf_ring (mkRing l (zlen lo) (zlen lo + zlen free) s (lo ++ free ++ hi)) -> 0 <= n ->
  0 < zlen free -> 0 < zlen hi -> zlen (hi ++ lo) <= s - SLOP ->
  exists r' v, epicsRingBytesGet (mkRing l (zlen lo) (zlen lo + zlen free) s (lo ++ free ++ hi)) n
               = Some (r', v, zlen v) /\ wf_ring r' /\ v ++ contents r' = hi ++ lo /\
    zlen v = Z.min n (zlen (hi ++ lo)) /\ size r' = s.
Proof.
  intros (Hs & Hb & Hg & Hp & _) Hn Q H C; simpl in *.
  unfold epicsRingBytesGet; simpl. rewrite (proj2 (Z.leb_gt _ _)) by lia.
  set (m := if n <? _ then n else _).
  assert (Em : m = Z.min n (zlen hi)) by (subst m; zbool; rlia). clearbody m.
  destruct (cut_at hi m) as (h1 & h2 & -> & L1 & L2); [lia|].
  assert (ER : rd (lo ++ free ++ h1 ++ h2) (zlen lo + zlen free) m = Some h1).
  { rewrite app_assoc. apply rd_app; rlia. }
  rewrite ER. simpl. destruct (Z.eqb_spec (zlen lo + zlen free + m) s) as [E|E].
  - (* the top of the buffer is exhausted: go on from the bottom *)
    assert (h2 = []) as -> by (apply zlen_nil_inv; rlia). rewrite app_nil_r in *.
    set (k := if zlen lo <? n - m then zlen lo else n - m).
    assert (Ek : k = Z.min (n - m) (zlen lo)) by (subst k; zbool; lia). clearbody k.
    destruct (cut_at lo k) as (l1 & l2 & -> & K1 & K2); [lia|].
    assert (ER2 : rd ((l1 ++ l2) ++ free ++ h1) 0 k = Some l1).
    { rewrite <- app_assoc. apply (rd_app [] l1 (l2 ++ free ++ h1) 0 k); llia. }
    rewrite ER2. simpl.
    exists (mkRing l (zlen (l1 ++ l2)) (zlen l1) s (l1 ++ l2 ++ (free ++ h1))), (h1 ++ l1).
    split_and!.
    + unfold set_nextGet; simpl. rewrite <- !app_assoc. ring_eq.
    + apply ring_flat_result; rlia.
    + rewrite contents_flat by llia. rewrite <- !app_assoc. reflexivity.
    + llia.
    + reflexivity.
  - exists (mkRing l (zlen lo) (zlen lo + zlen (free ++ h1)) s (lo ++ (free ++ h1) ++ h2)), h1.
    split_and!.
    + unfold set_nextGet; simpl. rewrite <- !app_assoc. ring_eq.
    + apply ring_wrapped_result; rlia.
    + rewrite contents_wrapped by llia. rewrite app_assoc. reflexivity.
    + rlia.
    + reflexivity.
Qed.

Lemma app_take_drop {A} (v w c : list A) n :
  v ++ w = c -> zlen v = Z.min n (zlen c) -> 0 <= n ->
  v = take (Z.to_nat n) c /\ w = drop (Z.to_nat n) c.
Proof.
  intros <- L Hn. destruct (Z_le_gt_dec n (zlen (v ++ w))).
  - rewrite take_app_all, drop_app_all by llia. auto.
  - assert (w = []) as -> by (apply zlen_nil_inv; llia). rewrite app_nil_r in *.
    rewrite take_ge, drop_ge by lia. auto.
Qed.

Lemma ring_get_contents r n :
  wf_ring r -> 0 <= n ->
  exists r', epicsRingBytesGet r n =
      Some (r', take (Z.to_nat n) (contents r), Z.min n (zlen (contents r))) /\
    wf_ring r' /\ contents r' = drop (Z.to_nat n) (contents r) /\ size r' = size r.
Proof.
  intros W Hn. pose proof W as (_ & _ & _ & _ & Hc).
  assert (G : exists r' v, epicsRingBytesGet r n = Some (r', v, zlen v) /\ wf_ring r' /\
     v ++ contents r' = contents r /\ zlen v = Z.min n (zlen (contents r)) /\ size r' = size r).
  { destruct (wf_shape r W) as [pre c post Eb Ec Eg Ep Hq|hi free lo Eb Ec Eg Ep Hf Hh];
      destruct r as [lk p g sz b]; simpl in *; subst b p g; rewrite Ec in *.
    - apply ring_get_flat; assumption.
    - apply ring_get_wrapped; assumption. }
  destruct G as (r' & v & E & W' & A & L & S).
  destruct (app_take_drop _ _ _ _ A L Hn) as [Ev Ec].
  exists r'. rewrite E, L, <- Ev. auto.
Qed.

Lemma ring_flush_contents r :
  wf_ring r -> wf_ring (epicsRingBytesFlush r) /\ contents (epicsRingBytesFlush r) = [].
Proof.
  intros (Hs & Hb & Hg & Hp & Hc). unfold epicsRingBytesFlush, set_nextGet.
  assert (E : contents (mkRing (lock r) (nextPut r) (nextPut r) (size r) (buffer r)) = []).
  { unfold contents; simpl. zbool; [|lia]. rewrite Z.sub_diag. reflexivity. }
  rewrite E. split; [|reflexivity]. unfold wf_ring. rewrite E. split_and!; simpl; rlia.
Qed.

Lemma ring_empty_contents r :
  wf_ring r -> epicsRingBytesIsEmpty r = bool_decide (contents r = []).
Proof.
  intros W. pose proof (ring_used_contents r W) as U. pose proof W as (Hs & Hb & Hg & Hp & Hc).
  unfold epicsRingBytesUsedBytes in U. unfold epicsRingBytesIsEmpty.
  destruct (Z.eqb_spec (nextPut r) (nextGet r)); symmetry.
  - apply bool_decide_eq_true_2, zlen_nil_inv. rewrite <- U. zbool; rlia.
  - apply bool_decide_eq_false_2. intros E. rewrite E in U. zbool_in U; simpl in *; rlia.
Qed.

(** ** Specification: a bounded queue of bytes *)

Inductive ring_op :=
| OPut (v : list Z) | OGet (nbytes : Z) | OFlush
| OFreeBytes | OUsedBytes | OSize | OIsEmpty | OIsFull.

(** What the caller of an operation sees. *)
Inductive ring_obs := SInt (n : Z) | SBytes (v : list Z) (n : Z) | SBool (b : bool) | SUnit.

Definition ring_step (r : ringPvt) (op : ring_op) : option (ringPvt * ring_obs) :=
  match op with
  | OPut v => '(r', n) ← epicsRingBytesPut r v; Some (r', SInt n)
  | OGet k => '(r', v, n) ← epicsRingBytesGet r k; Some (r', SBytes v n)
  | OFlush => Some (epicsRingBytesFlush r, SUnit)
  | OFreeBytes => Some (r, SInt (epicsRingBytesFreeBytes r))
  | OUsedBytes => Some (r, SInt (epicsRingBytesUsedBytes r))
  | OSize => Some (r, SInt (epicsRingBytesSize r))
  | OIsEmpty => Some (r, SBool (epicsRingBytesIsEmpty r))
  | OIsFull => Some (r, SBool (epicsRingBytesIsFull r))
  end.

Definition queue_step (cap : Z) (q : list Z) (op : ring_op) : list Z * ring_obs :=
  match op with
  | OPut v => if zlen q + zlen v <=? cap then (q ++ v, SInt (zlen v)) else (q, SInt 0)
  | OGet k => (drop (Z.to_nat k) q, SBytes (take (Z.to_nat k) q) (Z.min k (zlen q)))
  | OFlush => ([], SUnit)
  | OFreeBytes => (q, SInt (cap - zlen q))
  | OUsedBytes => (q, SInt (zlen q))
  | OSize => (q, SInt cap)
  | OIsEmpty => (q, SBool (bool_decide (q = [])))
  | OIsFull => (q, SBool (zlen q =? cap))
  end.

Fixpoint ring_run (r : ringPvt) (ops : list ring_op) : option (ringPvt * list ring_obs) :=
  match ops with
  | [] => Some (r, [])
  | op :: ops => '(r', o) ← ring_step r op; '(r'', os) ← ring_run r' ops; Some (r'', o :: os)
  end.

Fixpoint queue_run (cap : Z) (q : list Z) (ops : list ring_op) : list Z * list ring_obs :=
  match ops with
  | [] => (q, [])
  | op :: ops =>
      let '(q', o) := queue_step cap q op in
      let '(q'', os) := queue_run cap q' ops in (q'', o :: os)
  end.

(** The byte count of a get is not negative. *)
Definition ring_op_ok (op : ring_op) : Prop :=
  match op with OGet k => 0 <= k | _ => True end.

Lemma ring_step_refines r op :
  wf_ring r -> ring_op_ok op ->
  exists r', ring_step r op = Some (r', (queue_step (size r - SLOP) (contents r) op).2) /\
    wf_ring r' /\ size r' = size r /\
    contents r' = (queue_step (size r - SLOP) (contents r) op).1.
Proof.
  intros W Ok. pose proof (ring_free_contents r W) as F. pose proof (ring_used_contents r W) as U.
  pose proof W as (_ & _ & _ & _ & Hc).
  destruct op as [v|k| | | | | |]; simpl in *.
  - destruct (Z.leb_spec (zlen (contents r) + zlen v) (size r - SLOP)).
    + destruct (ring_put_fits r v W) as (r' & E & W' & C & S); [lia|].
      exists r'. rewrite E. simpl. auto.
    + rewrite ring_put_full by (auto || lia). exists r. simpl. auto.
  - destruct (ring_get_contents r k W Ok) as (r' & E & W' & C & S).
    exists r'. rewrite E. simpl. auto.
  - destruct (ring_flush_contents r W) as [W' C].
    exists (epicsRingBytesFlush r). split_and!; auto.
  - exists r. rewrite F. auto.
  - exists r. rewrite U. auto.
  - exists r. auto.
  - exists r. rewrite ring_empty_contents by assumption. auto.
  - exists r. unfold epicsRingBytesIsFull. rewrite F. split_and!; auto. repeat f_equal.
    zbool; lia || reflexivity.
Qed.

Lemma ring_run_refines r ops :
  wf_ring r -> Forall ring_op_ok ops ->
  exists r', ring_run r ops = Some (r', (queue_run (size r - SLOP) (contents r) ops).2) /\
    wf_ring r' /\ contents r' = (queue_run (size r - SLOP) (contents r) ops).1.
Proof.
  intros W Ok. revert r W. induction Ok as [|op ops Ho Ok IH]; intros r W; simpl.
  - exists r. auto.
  - destruct (ring_step_refines r op W Ho) as (r1 & E & W1 & S1 & C1).
    rewrite E. simpl. destruct (IH r1 W1) as (r2 & E2 & W2 & C2).
    rewrite S1 in E2, C2. rewrite C1 in E2, C2. rewrite E2. simpl.
    exists r2. destruct (queue_step _ (contents r) op) as [q' o]; simpl in *.
    destruct (queue_run _ q' ops). auto.
Qed.

Lemma ring_create_wf sz block :
  0 <= sz -> sz + SLOP < 2 ^ 31 -> zlen block = sz + SLOP ->
  exists r, epicsRingBytesCreate sz (Some block) = Some r /\ wf_ring r /\
    contents r = [] /\ size r = sz + SLOP.
Proof.
  intros. eexists; split; [reflexivity|].
  unfold wf_ring, contents; simpl. unfold SLOP in *. split_and!; simpl; lia || reflexivity.
Qed.

(** (C8) Refinement: a ring made by [epicsRingBytesCreate size] and used through
    any sequence of operations behaves as a FIFO queue of bytes with capacity
    [size]: a put is stored whole or refused whole, a get returns the oldest
    bytes in order, the free, used, empty and full queries agree with the queue,
    and no access leaves the allocated buffer. *)
Theorem ring_refines_queue (sz : Z) (block : list Z) (ops : list ring_op)
    (Hsz : 0 <= sz) (Hint : sz + SLOP < 2 ^ 31) (Hblock : zlen block = sz + SLOP)
    (Hops : Forall ring_op_ok ops) :
  exists r0 r1 obs,
    epicsRingBytesCreate sz (Some block) = Some r0 /\
    ring_run r0 ops = Some (r1, obs) /\
    queue_run sz [] ops = (contents r1, obs).
Proof.
  destruct (ring_create_wf sz block Hsz Hint Hblock) as (r0 & E0 & W0 & C0 & S0).
  destruct (ring_run_refines r0 ops W0 Hops) as (r1 & E1 & W1 & C1).
  rewrite S0, C0 in E1, C1. replace (sz + SLOP - SLOP) with sz in E1, C1 by lia.
  exists r0, r1, (queue_run sz [] ops).2. split_and!; auto.
  rewrite C1. destruct (queue_run sz [] ops); reflexivity.
Qed.

Lemma ring_refines_queue_witness :
  exists r0 r1 obs,
    epicsRingBytesCreate 3 (Some (replicate 19 0)) = Some r0 /\
    ring_run r0 [OPut [1; 2]; OGet 1; OPut [3; 4; 5]; OPut [6]; OGet 9; OIsEmpty] = Some (r1, obs) /\
    queue_run 3 [] [OPut [1; 2]; OGet 1; OPut [3; 4; 5]; OPut [6]; OGet 9; OIsEmpty]
      = (contents r1, obs).
Proof.
  apply (ring_refines_queue 3 (replicate 19 0)); unfold SLOP; try reflexivity; try lia.
  repeat constructor; simpl; lia.
Defined.
