(* ===== verification/CStdlib.v ===== *)
(** * The C library functions and number formats the code uses

    Characters are [char] values of the platform the repository is built for
    (x86-64 Linux: [char] is signed), so a C string is the list of its
    characters up to, and without, the terminating NUL; reading at the end of
    the list gives 0.  [long] has 64 bits.  The classification functions are
    those of the "C" locale. *)

From stdpp Require Import base numbers list option strings.
From Stdlib Require Import ZArith Lia Bool Ascii Floats.
From S2P Require Import Prelude.

(** ** Characters and strings *)

Definition char_of_ascii (a : ascii) : Z := wrap_s 8 (Z.of_N (N_of_ascii a)).

(** [cs "..."] is the C string of a Rocq string literal. *)
Fixpoint cs (s : string) : list Z :=
  match s with
  | String.EmptyString => []
  | String.String a s => char_of_ascii a :: cs s
  end.

(** [*p], where [p] points into a C string. *)
Definition deref (p : list Z) : Z := match p with [] => 0 | c :: _ => c end.

(** What a list must satisfy to be the characters of a C string. *)
Definition cstring (s : list Z) : Prop := Forall (fun c => -128 <= c < 128 /\ c <> 0) s.

Definition isspace (c : Z) : bool := (c =? 32) || ((9 <=? c) && (c <=? 13)).
Definition isdigit (c : Z) : bool := (48 <=? c) && (c <=? 57).
Definition isupper (c : Z) : bool := (65 <=? c) && (c <=? 90).
Definition islower (c : Z) : bool := (97 <=? c) && (c <=? 122).
Definition isalpha (c : Z) : bool := isupper c || islower c.
Definition isalnum (c : Z) : bool := isalpha c || isdigit c.
Definition isxdigit (c : Z) : bool :=
  isdigit c || ((65 <=? c) && (c <=? 70)) || ((97 <=? c) && (c <=? 102)).
Definition isprint (c : Z) : bool := (32 <=? c) && (c <=? 126).
Definition toupper (c : Z) : Z := if islower c then c - 32 else c.

Fixpoint skip_spaces (s : list Z) : list Z :=
  match s with
  | c :: s' => if isspace c then skip_spaces s' else s
  | [] => []
  end.

Lemma skip_spaces_suffix s : skip_spaces s `suffix_of` s.
Proof.
  induction s as [|c s IH]; simpl; [done|].
  destruct (isspace c); [by apply suffix_cons_r | done].
Qed.

Lemma skip_spaces_head s : isspace (deref (skip_spaces s)) = false.
Proof. induction s as [|c s IH]; simpl; [done|]. by destruct (isspace c) eqn:E. Qed.

Lemma skip_spaces_idem s : isspace (deref s) = false -> skip_spaces s = s.
Proof. destruct s as [|c s]; simpl; [done|]. by intros ->. Qed.

(** ** [strtol] and its family

    C17 7.22.1.4: optional white space, optional sign, optional [0x] when the
    base is 0 or 16, then digits.  The result of the scan is the sign, the
    magnitude and the rest of the string, or nothing when there is no digit. *)

Definition digit_value (c : Z) : option Z :=
  if isdigit c then Some (c - 48)
  else if isupper c then Some (c - 65 + 10)
  else if islower c then Some (c - 97 + 10)
  else None.

Definition digit_in (base c : Z) : option Z :=
  d ← digit_value c; if d <? base then Some d else None.

(** Value of the longest run of digits, its length, and what follows it. *)
Fixpoint scan_digits (base acc n : Z) (s : list Z) : Z * Z * list Z :=
  match s with
  | c :: s' =>
      match digit_in base c with
      | Some d => scan_digits base (acc * base + d) (n + 1) s'
      | None => (acc, n, s)
      end
  | [] => (acc, n, [])
  end.

Definition is_x (c : Z) : bool := (c =? 120) || (c =? 88).

(** The base in force and the first digit: [0x] counts only before a
    hexadecimal digit. *)
Definition strto_base (base : Z) (s : list Z) : Z * list Z :=
  if deref s =? 48 then
    let x := deref (tail s) in
    if ((base =? 0) || (base =? 16)) && is_x x && isxdigit (deref (tail (tail s)))
    then (16, tail (tail s))
    else ((if base =? 0 then 8 else base), s)
  else ((if base =? 0 then 10 else base), s).

Definition scan_sign (s : list Z) : bool * list Z :=
  if deref s =? 45 then (true, tail s)
  else if deref s =? 43 then (false, tail s)
  else (false, s).

Definition strto_scan (s : list Z) (base : Z) : option (bool * Z * list Z) :=
  let '(neg, s1) := scan_sign (skip_spaces s) in
  let '(b, s2) := strto_base base s1 in
  let '(v, n, rest) := scan_digits b 0 0 s2 in
  if n =? 0 then None else Some (neg, v, rest).

(** Outcome of a conversion in a valid base: the value, what follows the number,
    and whether [errno] is [ERANGE]; nothing was converted when it is [None]. *)
Definition LONG_MAX : Z := 2 ^ 63 - 1.
Definition LONG_MIN : Z := - 2 ^ 63.
Definition ULONG_MAX : Z := 2 ^ 64 - 1.

Definition valid_base (base : Z) : bool := (base =? 0) || ((2 <=? base) && (base <=? 36)).

Definition strtol (s : list Z) (base : Z) : option (Z * list Z * bool) :=
  '(neg, v, rest) ← strto_scan s base;
  let v := if (neg : bool) then - v else v in
  if v <? LONG_MIN then Some (LONG_MIN, rest, true)
  else if LONG_MAX <? v then Some (LONG_MAX, rest, true)
  else Some (v, rest, false).

(** A minus sign negates the result in [unsigned long]. *)
Definition strtoul (s : list Z) (base : Z) : option (Z * list Z * bool) :=
  '(neg, v, rest) ← strto_scan s base;
  if ULONG_MAX <? v then Some (ULONG_MAX, rest, true)
  else Some (if (neg : bool) then wrap_u 64 (- v) else v, rest, false).

(** ** Doubles

    [double] is IEEE 754 binary64, Rocq's primitive [float]. *)

Definition Z2F (z : Z) : float := SF2Prim (binary_normalize prec emax z 0 false).

(** Integer part of a finite double (C truncates towards zero). *)
Definition F2Z (f : float) : option Z :=
  match Prim2SF f with
  | S754_zero _ => Some 0
  | S754_finite s m e =>
      let a := if 0 <=? e then Z.pos m * 2 ^ e else Z.pos m / 2 ^ (- e) in
      Some (if s then - a else a)
  | _ => None
  end.

(** Conversions to integers.  C leaves a value out of range undefined; these
    are the results of the [cvttsd2si] instructions the compiler emits on
    x86-64 (32 bits for [epicsInt32], 64 bits truncated for [epicsUInt32]). *)
Definition F2int32 (f : float) : Z :=
  match F2Z f with
  | Some z => if decide (fits_s 32 z) then z else - 2 ^ 31
  | None => - 2 ^ 31
  end.

Definition F2int64 (f : float) : Z :=
  match F2Z f with
  | Some z => if decide (fits_s 64 z) then z else - 2 ^ 63
  | None => - 2 ^ 63
  end.

Definition F2uint32 (f : float) : Z := wrap_u 32 (F2int64 f).

(** Conversion to [float] (binary32), as the double with the same value. *)
Definition F2F32 (f : float) : float :=
  match Prim2SF f with
  | S754_finite s m e =>
      match binary_round 24 128 s m e with
      | S754_finite s m e => SF2Prim (binary_round prec emax s m e)
      | v => SF2Prim v
      end
  | _ => f
  end.
Definition FLT_MAX : float := 0x1.fffffep127.
Definition FLT_MIN : float := 0x1p-126.

Definition isnan (f : float) : bool := is_nan f.
Definition isinf (f : float) : bool := is_infinity f.
Definition finite (f : float) : bool := is_finite f.
Definition epicsNAN : float := nan.
Definition epicsINF : float := infinity.
Definition b2f (b : bool) : float := if b then 1%float else 0%float.

(** [if (f)], [f || g]: a double is true when it is not equal to zero. *)
Definition truth (f : float) : bool := negb (f =? 0)%float.

(** [ceil] and [floor] of a double. *)
Definition round_int (up : bool) (f : float) : float :=
  match Prim2SF f with
  | S754_finite s m e =>
      if 0 <=? e then f else
      let q := Z.pos m / 2 ^ (- e) in
      let exact := (q * 2 ^ (- e) =? Z.pos m) in
      let a := if exact then q else if Bool.eqb s up then q else q + 1 in
      if s then (- Z2F a)%float else Z2F a
  | _ => f
  end.
Definition ceil (f : float) : float := round_int true f.
Definition floor (f : float) : float := round_int false f.

Example ceil_floor_examples :
  (ceil 1.5, ceil (-1.5), floor 1.5, floor (-1.5), floor 4, ceil (-4))%float
  = (2, -1, 1, -2, 4, -4)%float.
Proof. reflexivity. Qed.

(** ** Bytes of numbers (little endian, as [memcpy] sees them) *)

Fixpoint le_bytes (n : nat) (z : Z) : list Z :=
  match n with
  | O => []
  | S n => wrap_s 8 z :: le_bytes n (z / 256)
  end.

Fixpoint le_value (bs : list Z) : Z :=
  match bs with
  | [] => 0
  | b :: bs => b mod 256 + 256 * le_value bs
  end.

Lemma length_le_bytes n z : length (le_bytes n z) = n.
Proof. revert z; induction n; simpl; congruence. Qed.
#[export] Hint Rewrite length_le_bytes : epics_len.

Lemma le_value_bytes n z : le_value (le_bytes n z) = z mod 2 ^ (8 * Z.of_nat n).
Proof.
  revert z. induction n as [|n IH]; intros z; cbn [le_bytes le_value].
  - rewrite Z.mod_1_r. reflexivity.
  - pose proof (wrap_s_mod 8 z) as W. change (2 ^ 8) with 256 in W. rewrite W by lia.
    rewrite IH. replace (8 * Z.of_nat (S n)) with (8 + 8 * Z.of_nat n) by lia.
    rewrite Z.pow_add_r by lia. change (2 ^ 8) with 256.
    rewrite (Z.rem_mul_r z 256) by lia. reflexivity.
Qed.

Lemma le_bytes_range n z : Forall (fun c => -128 <= c < 128) (le_bytes n z).
Proof.
  revert z. induction n; intros; simpl; constructor; auto.
  pose proof (wrap_s_range 8 z ltac:(lia)) as R. unfold fits_s in R. simpl in R. lia.
Qed.

(** An [epicsInt32] survives a store and a load. *)
Lemma int32_bytes z : fits_s 32 z -> wrap_s 32 (le_value (le_bytes 4 z)) = z.
Proof.
  intros F. rewrite le_value_bytes. change (8 * Z.of_nat 4) with 32.
  rewrite <- (wrap_s_id 32 z) at 2 by (assumption || lia).
  unfold wrap_s. rewrite Z.mod_mod by lia. reflexivity.
Qed.

(** *** Binary64 encoding *)

Definition bits_of_double (f : float) : Z :=
  let sgn (s : bool) := if s then 2 ^ 63 else 0 in
  match Prim2SF f with
  | S754_zero s => sgn s
  | S754_infinity s => sgn s + 2047 * 2 ^ 52
  | S754_nan => 2047 * 2 ^ 52 + 2 ^ 51
  | S754_finite s m e =>
      if Z.pos m <? 2 ^ 52 then sgn s + Z.pos m
      else sgn s + (e + 1075) * 2 ^ 52 + (Z.pos m - 2 ^ 52)
  end.

Definition double_of_bits (b : Z) : float :=
  let s := 2 ^ 63 <=? b in
  let ex := (b / 2 ^ 52) mod 2048 in
  let mant := b mod 2 ^ 52 in
  let fin (m e : Z) :=
    match m with Z.pos p => SF2Prim (S754_finite s p e) | _ => SF2Prim (S754_zero s) end in
  if ex =? 2047 then if mant =? 0 then SF2Prim (S754_infinity s) else nan
  else if ex =? 0 then fin mant (-1074)
  else fin (mant + 2 ^ 52) (ex - 1075).

Definition double_bytes (f : float) : list Z := le_bytes 8 (bits_of_double f).
Definition bytes_double (bs : list Z) : float := double_of_bits (le_value bs).

Example double_bytes_examples :
  map (fun f => bytes_double (double_bytes f))
    [1; -2.5; 0; -0; infinity; neg_infinity; 0x1p-1074; 0x1.fffffffffffffp1023; 0.1]%float
  = [1; -2.5; 0; -0; infinity; neg_infinity; 0x1p-1074; 0x1.fffffffffffffp1023; 0.1]%float.
Proof. reflexivity. Qed.

Lemma digits2_pos_bounds p :
  2 ^ (Z.pos (digits2_pos p) - 1) <= Z.pos p < 2 ^ Z.pos (digits2_pos p).
Proof.
  induction p as [p IH|p IH|]; cbn [digits2_pos]; [| |simpl; lia];
    rewrite Pos2Z.inj_succ; replace (Z.succ _ - 1) with (Z.succ (Z.pos (digits2_pos p) - 1)) by lia;
    rewrite !Z.pow_succ_r by lia; lia.
Qed.

(** The exponent and mantissa ranges of a finite double. *)
Lemma finite_ranges f s m e :
  Prim2SF f = S754_finite s m e ->
  Z.pos m < 2 ^ 53 /\ -1074 <= e <= 971 /\ (2 ^ 52 <= Z.pos m \/ e = -1074).
Proof.
  intros E. pose proof (Prim2SF_valid f) as V. rewrite E in V. simpl in V.
  unfold FloatAxioms.valid_binary, bounded in V. apply andb_prop in V as [C B].
  apply Z.leb_le in B. unfold canonical_mantissa in C. apply Z.eqb_eq in C.
  unfold fexp, emin in C. change emax with 1024 in *. change prec with 53 in *.
  pose proof (digits2_pos_bounds m) as [L U].
  set (d := Z.pos (digits2_pos m)) in *.
  assert (d <= 53) by lia. split_and!; try lia.
  - eapply Z.lt_le_trans; [exact U|]. apply Z.pow_le_mono_r; lia.
  - destruct (Z.eq_dec d 53) as [D|D]; [left|right; lia].
    rewrite D in L. exact L.
Qed.

Lemma bits_of_double_range f : 0 <= bits_of_double f < 2 ^ 64.
Proof.
  unfold bits_of_double. destruct (Prim2SF f) as [s|s| |s m e] eqn:E;
    [destruct s; lia|destruct s; lia|lia|].
  destruct (finite_ranges f s m e E) as (M & B & N).
  zbool; destruct s; nia.
Qed.

Lemma double_of_bits_fields s ex mant :
  0 <= ex < 2048 -> 0 <= mant < 2 ^ 52 ->
  let b := (if s : bool then 2 ^ 63 else 0) + ex * 2 ^ 52 + mant in
  (2 ^ 63 <=? b) = s /\ (b / 2 ^ 52) mod 2048 = ex /\ b mod 2 ^ 52 = mant.
Proof.
  intros E M b. subst b.
  assert (D : ((if s then 2 ^ 63 else 0) + ex * 2 ^ 52 + mant) / 2 ^ 52
              = (if s then 2048 else 0) + ex).
  { symmetry. apply (Z.div_unique_pos _ _ _ mant); [lia|]. destruct s; lia. }
  split_and!.
  - destruct s; [apply Z.leb_le|apply Z.leb_gt]; lia.
  - rewrite D. symmetry. destruct s; [apply (Z.mod_unique_pos _ _ 1)|apply (Z.mod_unique_pos _ _ 0)]; lia.
  - symmetry. apply (Z.mod_unique_pos _ _ ((if s then 2048 else 0) + ex)); [lia|]. destruct s; lia.
Qed.

Lemma double_of_bits_of_double f : double_of_bits (bits_of_double f) = f.
Proof.
  rewrite <- (SF2Prim_Prim2SF f) at 2. unfold bits_of_double.
  destruct (Prim2SF f) as [s|s| |s m e] eqn:E; [destruct s; reflexivity..|reflexivity|].
  destruct (finite_ranges f s m e E) as (M & B & N).
  unfold double_of_bits. destruct (Z.ltb_spec (Z.pos m) (2 ^ 52)).
  - destruct (double_of_bits_fields s 0 (Z.pos m)) as (S1 & X1 & M1); [lia|lia|].
    cbv zeta in *. rewrite Z.mul_0_l, Z.add_0_r in S1, X1, M1. rewrite S1, X1, M1.
    simpl. destruct N; [lia|]. subst e. reflexivity.
  - destruct (double_of_bits_fields s (e + 1075) (Z.pos m - 2 ^ 52)) as (S1 & X1 & M1); [lia|lia|].
    cbv zeta in *. rewrite S1, X1, M1.
    rewrite (proj2 (Z.eqb_neq _ 2047)), (proj2 (Z.eqb_neq _ 0)) by lia.
    rewrite Z.sub_add. f_equal. f_equal. lia.
Qed.

(** A [double] survives [memcpy] to a byte buffer and back. *)
Lemma double_bytes_roundtrip f : bytes_double (double_bytes f) = f.
Proof.
  unfold bytes_double, double_bytes. rewrite le_value_bytes.
  rewrite Z.mod_small by apply bits_of_double_range. apply double_of_bits_of_double.
Qed.
