(* ===== verification/Strtod.v ===== *)
(** * [strtod] (C17 7.22.1.3), which [epicsStrtod] is on POSIX systems

    ([modules/libcom/src/osi/os/posix/osdStrtod.h] defines [epicsStrtod] as
    [strtod].)  Decimal and hexadecimal numbers are rounded correctly, to
    nearest even.  [errno] becomes [ERANGE] when the result overflows, and when
    it is inexact and smaller than the smallest normal number. *)

From stdpp Require Import base numbers list option strings.
From Stdlib Require Import ZArith Lia Bool Floats.
From S2P Require Import Prelude CStdlib.

(** Case-insensitive prefix: what follows [word] in [s]. *)
Fixpoint match_word (word s : list Z) : option (list Z) :=
  match word, s with
  | [], _ => Some s
  | w :: word, c :: s => if toupper c =? w then match_word word s else None
  | _ :: _, [] => None
  end.

(** [nan(...)]: the optional parenthesised characters. *)
Fixpoint nan_chars (s : list Z) : option (list Z) :=
  match s with
  | c :: s' => if c =? 41 then Some s'
               else if isalnum c || (c =? 95) then nan_chars s' else None
  | [] => None
  end.

Definition scan_nan_tail (s : list Z) : list Z :=
  if deref s =? 40 then default s (nan_chars (tail s)) else s.

(** Optional exponent: the letter must be followed by a digit. *)
Definition scan_exponent (letter : Z -> bool) (s : list Z) : Z * list Z :=
  match s with
  | c :: s' =>
      if letter c then
        let '(neg, s1) := scan_sign s' in
        let '(v, n, rest) := scan_digits 10 0 0 s1 in
        if n =? 0 then (0, s) else ((if neg then - v else v), rest)
      else (0, s)
  | [] => (0, [])
  end.

(** Digits with an optional radix point: the integer they spell, how many of
    them there are, how many follow the point, and the rest. *)
Definition scan_mantissa (base : Z) (s : list Z) : option (Z * Z * list Z) :=
  let '(v, n, s1) := scan_digits base 0 0 s in
  if deref s1 =? 46 then
    let '(v', k, s2) := scan_digits base v 0 (tail s1) in
    if n + k =? 0 then None else Some (v', k, s2)
  else if n =? 0 then None else Some (v, 0, s1).

(** The rational [num / den], rounded. *)
Definition round_ratio (s : bool) (num den : positive) : spec_float :=
  let '(q, e, l) := SFdiv_core_binary prec emax (Z.pos num) 0 (Z.pos den) 0 in
  binary_round_aux prec emax s q e l.

Definition sf_tiny (v : spec_float) : bool :=
  match v with
  | S754_finite _ m _ => Z.pos m <? 2 ^ 52
  | S754_zero _ => true
  | _ => false
  end.

Definition sf_exact (v : spec_float) (num den : positive) : bool :=
  match v with
  | S754_finite _ m e =>
      if 0 <=? e then Z.pos num =? Z.pos m * 2 ^ e * Z.pos den
      else Z.pos num * 2 ^ (- e) =? Z.pos m * Z.pos den
  | _ => false
  end.

Definition sf_erange (v : spec_float) (num den : positive) : bool :=
  match v with
  | S754_infinity _ => true
  | _ => sf_tiny v && negb (sf_exact v num den)
  end.

(** [(-1)^s * m * base^e] as a double, with the [ERANGE] flag. *)
Definition scale_float (s : bool) (m base e : Z) : float * bool :=
  match m with
  | Z.pos p =>
      let num := if 0 <=? e then (p * Z.to_pos (base ^ e))%positive else p in
      let den := if 0 <=? e then 1%positive else Z.to_pos (base ^ (- e)) in
      let v := round_ratio s num den in
      (SF2Prim v, sf_erange v num den)
  | _ => (SF2Prim (S754_zero s), false)
  end.

Definition is_e (c : Z) : bool := toupper c =? 69.
Definition is_p (c : Z) : bool := toupper c =? 80.

Definition strtod_decimal (s : bool) (str : list Z) : option (float * list Z * bool) :=
  '(v, k, s1) ← scan_mantissa 10 str;
  let '(e, rest) := scan_exponent is_e s1 in
  let '(f, erange) := scale_float s v 10 (e - k) in
  Some (f, rest, erange).

Definition strtod_hex (s : bool) (str : list Z) : option (float * list Z * bool) :=
  '(v, k, s1) ← scan_mantissa 16 str;
  let '(e, rest) := scan_exponent is_p s1 in
  let '(f, erange) := scale_float s v 2 (e - 4 * k) in
  Some (f, rest, erange).

Definition strtod (str : list Z) : option (float * list Z * bool) :=
  let '(neg, s) := scan_sign (skip_spaces str) in
  let sgn (f : float) := if neg then (- f)%float else f in
  match match_word (cs "INFINITY") s with
  | Some rest => Some (sgn infinity, rest, false)
  | None =>
  match match_word (cs "INF") s with
  | Some rest => Some (sgn infinity, rest, false)
  | None =>
  match match_word (cs "NAN") s with
  | Some rest => Some (sgn nan, scan_nan_tail rest, false)
  | None =>
      if (deref s =? 48) && is_x (deref (tail s)) then
        match strtod_hex neg (tail (tail s)) with
        | Some r => Some r
        | None => strtod_decimal neg s
        end
      else strtod_decimal neg s
  end end end.

Definition strtod_str (s : string) : option (float * bool) :=
  '(f, rest, e) ← strtod (cs s); if decide (rest = []) then Some (f, e) else None.

Example strtod_examples :
  map strtod_str ["1.5"; " -12e-1"; ".1"; "1e400"; "1e-400"; "4.9e-324"; "0x1.8p1"; "inf"; "9007199254740993"]%string
  = [Some (1.5, false); Some (-1.2, false); Some (0.1, false); Some (infinity, true);
     Some (0, true); Some (0x1p-1074, true); Some (3, false); Some (infinity, false);
     Some (9007199254740992, false)]%float.
Proof. vm_compute. reflexivity. Qed.

Example strtod_rest :
  (strtod (cs "1e+x"), strtod (cs "0x"), strtod (cs "."), strtod (cs "nan(1) "))
  = (Some (1%float, cs "e+x", false), Some (0%float, cs "x", false), None,
     Some (nan, cs " ", false)).
Proof. vm_compute. reflexivity. Qed.

(** ** How much a conversion consumes *)

Lemma digit_in_range base c k : digit_in base c = Some k -> 0 <= k < base.
Proof.
  unfold digit_in. destruct (digit_value c) as [d|] eqn:E; cbn; [|done].
  destruct (Z.ltb_spec d base); [|done]. intros [= <-]. split; [|done].
  revert E. unfold digit_value, isdigit, isupper, islower.
  zbool; simpl; intros E; simplify_eq; lia.
Qed.

Lemma scan_digits_consumes base s : forall acc n v n' rest,
  scan_digits base acc n s = (v, n', rest) ->
  exists d, s = d ++ rest /\ n' = n + zlen d /\
    (length d = 1%nat -> exists k, 0 <= k < base /\ v = acc * base + k).
Proof.
  induction s as [|c s IH]; intros acc n v n' rest E; simpl in E.
  - injection E as <- <- <-. exists []. split_and!; [done|simpl; lia|done].
  - destruct (digit_in base c) as [k|] eqn:D.
    + destruct (IH _ _ _ _ _ E) as (d & -> & -> & _). exists (c :: d).
      split_and!; [done|simpl; lia|]. intros L. simpl in L.
      destruct d; [|simpl in L; lia]. simpl app in E.
      assert (K : 0 <= k < base).
      { by apply digit_in_range in D. }
      exists k. split; [done|].
      destruct rest as [|c' rest]; simpl in E; [by injection E as <-|].
      destruct (digit_in base c') eqn:D'; [|by injection E as <-].
      exfalso. clear IH D D'. cut (zlen rest < zlen (c' :: rest)); [|simpl; lia].
      enough (G : forall s acc n v n' r, scan_digits base acc n s = (v, n', r) -> zlen r <= zlen s)
        by (apply G in E; simpl in *; lia).
      clear. induction s as [|c s IH]; simpl; intros; [by simplify_eq|].
      destruct (digit_in base c); [apply IH in H; lia|by simplify_eq].
    + injection E as <- <- <-. exists []. split_and!; [done|simpl; lia|done].
Qed.

Lemma scan_sign_consumes s neg rest :
  scan_sign s = (neg, rest) -> (neg = false /\ rest = s) \/ exists c, s = c :: rest.
Proof.
  unfold scan_sign. destruct s as [|c s]; simpl; [intros [= <- <-]; by left|].
  repeat case_match; intros [= <- <-]; eauto.
Qed.

Lemma match_word_consumes w s rest : match_word w s = Some rest -> exists d, s = d ++ rest /\ length d = length w.
Proof.
  revert s. induction w as [|a w IH]; intros [|c s]; simpl; try done.
  - intros [= <-]. by exists [].
  - intros [= <-]. by exists [].
  - case_match; [|done]. intros (d & -> & L)%IH. exists (c :: d). simpl. by rewrite L.
Qed.

Lemma scan_exponent_consumes letter s e rest :
  scan_exponent letter s = (e, rest) -> rest `suffix_of` s /\ (rest = s -> e = 0).
Proof.
  destruct s as [|c s]; simpl; [by intros [= <- <-]|].
  destruct (letter c); [|by intros [= <- <-]].
  destruct (scan_sign s) as [neg s1] eqn:S.
  destruct (scan_digits 10 0 0 s1) as [[v n] r] eqn:D.
  destruct (n =? 0); [by intros [= <- <-]|].
  intros [= <- <-].
  apply scan_digits_consumes in D as (d & -> & _).
  assert (F : r `suffix_of` s).
  { apply scan_sign_consumes in S as [[_ <-]|[c' ->]]; [|apply suffix_cons_r]; by exists d. }
  split; [by apply suffix_cons_r|].
  intros ->. apply suffix_length_le in F. simpl in F. lia.
Qed.

Lemma scan_mantissa_consumes base s v k rest :
  scan_mantissa base s = Some (v, k, rest) ->
  exists d, s = d ++ rest /\ (1 <= length d)%nat /\
    (length d = 1%nat -> k = 0 /\ 0 <= v < base).
Proof.
  unfold scan_mantissa.
  destruct (scan_digits base 0 0 s) as [[v1 n] s1] eqn:D1.
  apply scan_digits_consumes in D1 as (d1 & -> & -> & V1).
  destruct s1 as [|c s1]; simpl deref; simpl tail; cbn zeta iota.
  - change (0 =? 46) with false. cbv iota. destruct (_ =? 0) eqn:N; [done|]. apply Z.eqb_neq in N. intros [= <- <- <-].
    exists d1. split_and!; [done|lia|]. intros L. destruct (V1 L) as (k' & ? & ->). lia.
  - destruct (c =? 46).
    + destruct (scan_digits base v1 0 s1) as [[v2 k2] s2] eqn:D2.
      apply scan_digits_consumes in D2 as (d2 & -> & -> & V2).
      destruct (_ =? 0) eqn:N; [done|]. apply Z.eqb_neq in N. intros [= <- <- <-].
      exists (d1 ++ c :: d2). rewrite <- app_assoc. split_and!; [done|llia|llia].
    + destruct (_ =? 0) eqn:N; [done|]. apply Z.eqb_neq in N. intros [= <- <- <-].
      exists d1. split_and!; [done|lia|]. intros L. destruct (V1 L) as (k' & ? & ->). lia.
Qed.

(** A number that takes one character is a digit. *)
Definition one_digit (f : float) : Prop := exists v, 0 <= v < 10 /\ f = fst (scale_float false v 10 0).

Lemma strtod_decimal_consumes neg s f rest er :
  strtod_decimal neg s = Some (f, rest, er) ->
  exists d, s = d ++ rest /\ (1 <= length d)%nat /\ (length d = 1%nat -> neg = false -> one_digit f).
Proof.
  unfold strtod_decimal. destruct (scan_mantissa 10 s) as [[[v k] s1]|] eqn:M; [|done]. cbn.
  apply scan_mantissa_consumes in M as (d & -> & L & One).
  destruct (scan_exponent is_e s1) as [e r] eqn:X.
  destruct (scan_exponent_consumes _ _ _ _ X) as [[x ->] Z0].
  destruct (scale_float neg v 10 (e - k)) as [g ge] eqn:G. intros [= -> -> ->].
  exists (d ++ x). rewrite <- app_assoc. split_and!; [done|llia|].
  intros L1 ->. rewrite length_app in L1.
  assert (x = []) as -> by (apply nil_length_inv; lia).
  destruct One as [-> V]; [lia|]. rewrite (Z0 eq_refl) in G.
  change (0 - 0) with 0 in G. exists v. by rewrite G.
Qed.

Lemma strtod_hex_consumes neg s f rest er :
  strtod_hex neg s = Some (f, rest, er) -> exists d, s = d ++ rest.
Proof.
  unfold strtod_hex. destruct (scan_mantissa 16 s) as [[[v k] s1]|] eqn:M; [|done]. cbn.
  apply scan_mantissa_consumes in M as (d & -> & _).
  destruct (scan_exponent is_p s1) as [e r] eqn:X.
  destruct (scan_exponent_consumes _ _ _ _ X) as [[x ->] _].
  destruct (scale_float neg v 2 (e - 4 * k)) as [g ge] eqn:G. intros [= -> -> ->].
  exists (d ++ x). by rewrite <- app_assoc.
Qed.

Lemma nan_chars_suffix t r : nan_chars t = Some r -> r `suffix_of` t.
Proof.
  induction t as [|c t IH]; simpl; [done|].
  destruct (c =? 41); [intros [= <-]; by apply suffix_cons_r|].
  destruct (_ || _); [|done]. intros ?%IH. by apply suffix_cons_r.
Qed.

Lemma scan_nan_tail_suffix s : scan_nan_tail s `suffix_of` s.
Proof.
  unfold scan_nan_tail. destruct s as [|c s]; simpl; [done|]. destruct (c =? 40); [|done].
  destruct (nan_chars s) as [r|] eqn:E; simpl; [|done].
  apply suffix_cons_r. by apply nan_chars_suffix.
Qed.

Lemma strtod_consumes str f rest er :
  isspace (deref str) = false -> strtod str = Some (f, rest, er) ->
  exists d, str = d ++ rest /\ (1 <= length d)%nat /\ (length d = 1%nat -> one_digit f).
Proof.
  intros Sp. unfold strtod. rewrite skip_spaces_idem by done.
  destruct (scan_sign str) as [neg s] eqn:S.
  assert (K : exists p, str = p ++ s /\ (neg = false /\ p = [] \/ length p = 1%nat)).
  { apply scan_sign_consumes in S as [[-> ->]|[c ->]]; [exists []; eauto|exists [c]; eauto]. }
  destruct K as (p & -> & P). clear S Sp.
  assert (W : forall d r, (2 <= length d)%nat -> s = d ++ r ->
    exists d, p ++ s = d ++ r /\ (1 <= length d)%nat /\ (length d = 1%nat -> one_digit f)).
  { intros d r L ->. exists (p ++ d). rewrite <- app_assoc. split_and!; [done|llia|llia]. }
  assert (D : strtod_decimal neg s = Some (f, rest, er) ->
    exists d, p ++ s = d ++ rest /\ (1 <= length d)%nat /\ (length d = 1%nat -> one_digit f)).
  { intros (d & -> & L & One)%strtod_decimal_consumes. exists (p ++ d).
    rewrite <- app_assoc. split_and!; [done|llia|]. intros L1. rewrite length_app in L1.
    destruct P as [[-> ->]|P]; [apply One; simpl in L1; done|lia]. }
  destruct (match_word (cs "INFINITY") s) as [r|] eqn:M1.
  { intros [= <- -> <-]. apply match_word_consumes in M1 as (d & -> & L).
    apply (W d); [rewrite L; simpl; lia|done]. }
  destruct (match_word (cs "INF") s) as [r|] eqn:M2.
  { intros [= <- -> <-]. apply match_word_consumes in M2 as (d & -> & L).
    apply (W d); [rewrite L; simpl; lia|done]. }
  destruct (match_word (cs "NAN") s) as [r|] eqn:M3.
  { intros [= <- <- <-]. apply match_word_consumes in M3 as (d & -> & L).
    destruct (scan_nan_tail_suffix r) as [x X].
    apply (W (d ++ x)); [rewrite length_app, L; simpl; lia|]. rewrite X at 1. by rewrite app_assoc. }
  destruct (_ && _) eqn:H; [|done].
  destruct (strtod_hex neg (tail (tail s))) as [[[f' r'] e']|] eqn:X; [|done].
  intros [= -> -> ->]. apply strtod_hex_consumes in X as [d X].
  apply andb_prop in H as [H1 H2]. destruct s as [|a [|b s]]; [done|done|]. apply (W (a :: b :: d)); [simpl; lia|].
  simpl in *. by rewrite X.
Qed.
