(* ===== verification/EpicsString.v ===== *)
(** * String routines ([modules/libcom/src/misc/epicsString.c])

    Escaping and unescaping, case-insensitive comparison, glob matching and the
    string hash.  Source strings are lists of [char] values ({!CStdlib}). *)

From stdpp Require Import base numbers list option strings.
From Stdlib Require Import ZArith Lia Bool.
From S2P Require Import Prelude CStdlib.

(** ** Output through the macro [OUT] *)

Definition INT_MAX : Z := 2 ^ 31 - 1.
Definition INT_MIN : Z := - 2 ^ 31.

(** [rem] counts down from [dstlen]; [ndst] is the value returned; [dst] holds
    the characters stored so far, last one first.  Both counters have the type
    [int], while [dstlen] has the type [size_t]. *)
Record outbuf := mkOut { rem : Z; ndst : Z; dst : list Z }.

(** [int rem = dstlen; int ndst = 0;]: the conversion keeps the lower 32 bits. *)
Definition out_init (dstlen : Z) : outbuf := mkOut (wrap_s 32 dstlen) 0 [].

(** [if (--rem > 0) ndst++, *dst++ = chr] *)
Definition OUT_raw (o : outbuf) (chr : Z) : outbuf :=
  if 0 <? rem o - 1
  then mkOut (rem o - 1) (ndst o + 1) (wrap_s 8 chr :: dst o)
  else mkOut (rem o - 1) (ndst o) (dst o).

(** [ndst++; if (--rem > 0) *dst++ = chr] *)
Definition OUT_esc (o : outbuf) (chr : Z) : outbuf :=
  if 0 <? rem o - 1
  then mkOut (rem o - 1) (ndst o + 1) (wrap_s 8 chr :: dst o)
  else mkOut (rem o - 1) (ndst o + 1) (dst o).

(** What is in the destination: the stored characters and the final NUL, which
    is written when [dstlen] is not 0; and the value returned.  [None]: one of the
    counters has left the range of [int], which is undefined.  [rem] only goes down
    and [ndst] only goes up, so that their last values tell. *)
Definition out_result (dstlen : Z) (o : outbuf) : option (list Z * Z) :=
  if (rem o <? INT_MIN) || (INT_MAX <? ndst o) then None
  else Some (rev (dst o) ++ (if dstlen =? 0 then [] else [0]), ndst o).

(** ** Characters of the escape sequences *)
Definition BS : Z := 92.
Definition is_octal (c : Z) : bool := (48 <=? c) && (c <=? 55).

(** The letter of a one-letter escape, for a raw character ... *)
Definition escape_letter (c : Z) : option Z :=
  if c =? 7 then Some 97 else if c =? 8 then Some 98 else if c =? 12 then Some 102
  else if c =? 10 then Some 110 else if c =? 13 then Some 114 else if c =? 9 then Some 116
  else if c =? 11 then Some 118 else if c =? 92 then Some 92 else if c =? 39 then Some 39
  else if c =? 34 then Some 34 else None.

(** ... and the raw character for a letter. *)
Definition unescape_letter (c : Z) : option Z :=
  if c =? 97 then Some 7 else if c =? 98 then Some 8 else if c =? 102 then Some 12
  else if c =? 110 then Some 10 else if c =? 114 then Some 13 else if c =? 116 then Some 9
  else if c =? 118 then Some 11 else if c =? 92 then Some 92 else if c =? 39 then Some 39
  else if c =? 34 then Some 34 else None.

Definition hex_value (c : Z) : Z := if 57 <? c then toupper c - 65 + 10 else c - 48.

(** ** [epicsStrnRawFromEscaped]

    Every fetch of the C code is [!srclen-- || !(c = *src++)]: it fails at the
    end of the [srclen] characters and at a NUL.  [src_chars] are the characters
    the fetches deliver. *)
Fixpoint until_nul (s : list Z) : list Z :=
  match s with
  | c :: s => if c =? 0 then [] else c :: until_nul s
  | [] => []
  end.
Definition src_chars (src : list Z) (srclen : nat) : list Z := until_nul (take srclen src).

(** [raw_input c src] is the body of the loop at label [input] with the
    character [c]; [raw_next] is the loop head; [hex] the loop over the digits
    of a hexadecimal escape. *)
Fixpoint raw_input (c : Z) (src : list Z) (o : outbuf) {struct src} : outbuf :=
  let raw_next src o := match src with [] => o | c :: src => raw_input c src o end in
  if negb (c =? BS) then raw_next src (OUT_raw o c) else
  match src with
  | [] => o
  | c :: src =>
      match unescape_letter c with
      | Some r => raw_next src (OUT_raw o r)
      | None =>
          if is_octal c then
            let u := c - 48 in
            match src with
            | [] => OUT_raw o u
            | c :: src =>
                if negb (is_octal c) then raw_input c src (OUT_raw o u) else
                let u := Z.lor (Z.shiftl u 3) (c - 48) in
                match src with
                | [] => OUT_raw o u
                | c :: src =>
                    if negb (is_octal c) then raw_input c src (OUT_raw o u) else
                    let u := Z.lor (Z.shiftl u 3) (c - 48) in
                    raw_next src (OUT_raw o u)
                end
            end
          else if c =? 120 then
            let fix hex (u c : Z) (src : list Z) (o : outbuf) {struct src} : outbuf :=
              if isxdigit c then
                let u := wrap_u 32 (Z.lor (Z.shiftl u 4) (hex_value c)) in
                match src with
                | [] => OUT_raw o u
                | c :: src => hex u (Z.land c 255) src o
                end
              else raw_input c src (OUT_raw o u) in
            match src with
            | [] => o
            | c :: src => hex 0 (Z.land c 255) src o
            end
          else raw_next src (OUT_raw o c)
      end
  end.

Definition epicsStrnRawFromEscaped (dstlen : Z) (src : list Z) (srclen : nat) : option (list Z * Z) :=
  let o := out_init dstlen in
  out_result dstlen
    match src_chars src srclen with [] => o | c :: s => raw_input c s o end.

(** [strlen(src) + 1] is big enough. *)
Definition dbTranslateEscape (src : list Z) : option (list Z * Z) :=
  let big_enough := S (length src) in
  epicsStrnRawFromEscaped (Z.of_nat big_enough) src big_enough.

(** ** [epicsStrnEscapedFromRaw] (with distinct buffers) *)

Definition escape_char (c : Z) : list Z :=
  match escape_letter c with
  | Some l => [BS; l]
  | None =>
      if isprint (Z.land c 255) then [c]
      else [BS; 48 + Z.shiftr (Z.land c 192) 6; 48 + Z.shiftr (Z.land c 56) 3; 48 + Z.land c 7]
  end.

Fixpoint escape_loop (src : list Z) (o : outbuf) : outbuf :=
  match src with
  | [] => o
  | c :: src => escape_loop src (fold_left OUT_esc (escape_char c) o)
  end.

Definition epicsStrnEscapedFromRaw (dstlen : Z) (src : list Z) (srclen : nat) : option (list Z * Z) :=
  out_result dstlen (escape_loop (take srclen src) (out_init dstlen)).

Fixpoint escaped_size (src : list Z) (ndst : Z) : Z :=
  match src with
  | [] => ndst
  | c :: src =>
      escaped_size src
        match escape_letter c with
        | Some _ => ndst + 1
        | None => if negb (isprint (Z.land c 255)) then ndst + 3 else ndst
        end
  end.

(** The count is a [size_t], which the sizes of objects in memory do not exceed. *)
Definition epicsStrnEscapedFromRawSize (src : list Z) (srclen : nat) : Z :=
  escaped_size (take srclen src) (Z.of_nat srclen).

(** ** Comparison *)

Fixpoint epicsStrCaseCmp (s1 s2 : list Z) : Z :=
  match s1, s2 with
  | c1 :: s1', c2 :: s2' =>
      let ch1 := toupper c1 in
      let ch2 := toupper c2 in
      if ch1 <? ch2 then -1 else if ch2 <? ch1 then 1 else epicsStrCaseCmp s1' s2'
  | [], [] => 0
  | _ :: _, [] => 1
  | [], _ :: _ => -1
  end.

Fixpoint epicsStrnCaseCmp (s1 s2 : list Z) (len : nat) : Z :=
  match len with
  | O => 0
  | S len =>
      match s1, s2 with
      | c1 :: s1', c2 :: s2' =>
          let ch1 := toupper c1 in
          let ch2 := toupper c2 in
          if ch1 <? ch2 then -1 else if ch2 <? ch1 then 1 else epicsStrnCaseCmp s1' s2' len
      | [], [] => 0
      | _ :: _, [] => 1
      | [], _ :: _ => -1
      end
  end.

Fixpoint epicsStrnLen (s : list Z) (maxlen : nat) : Z :=
  match maxlen, s with
  | O, _ => 0
  | S n, c :: s => if c =? 0 then 0 else 1 + epicsStrnLen s n
  | S _, [] => 0
  end.

(** ** Hash functions ([unsigned int] arithmetic) *)

Definition xor32 (a b : Z) : Z := wrap_u 32 (Z.lxor a b).

(** [hash ^= ~((hash << 11) ^ c ^ (hash >> 5))] and
    [hash ^= (hash << 7) ^ c ^ (hash >> 3)] *)
Definition hash_even (hash c : Z) : Z :=
  xor32 hash (Z.lnot (Z.lxor (Z.lxor (wrap_u 32 (Z.shiftl hash 11)) (wrap_u 32 c)) (Z.shiftr hash 5))).
Definition hash_odd (hash c : Z) : Z :=
  xor32 hash (Z.lxor (Z.lxor (wrap_u 32 (Z.shiftl hash 7)) (wrap_u 32 c)) (Z.shiftr hash 3)).

Fixpoint str_hash_loop (s : list Z) (hash : Z) : Z :=
  match s with
  | [] => hash
  | c :: s =>
      if c =? 0 then hash else
      let hash := hash_even hash c in
      match s with
      | [] => hash
      | c :: s => if c =? 0 then hash else str_hash_loop s (hash_odd hash c)
      end
  end.
Definition epicsStrHash (str : list Z) (seed : Z) : Z := str_hash_loop str seed.

(** [mem] is the memory at [str]; [None] when it ends before [length] bytes. *)
Fixpoint epicsMemHash (mem : list Z) (length : nat) (hash : Z) : option Z :=
  match length with
  | O => Some hash
  | S length =>
      match mem with
      | [] => None
      | c :: mem =>
          let hash := hash_even hash c in
          match length with
          | O => Some hash
          | S length =>
              match mem with
              | [] => None
              | c :: mem => epicsMemHash mem length (hash_odd hash c)
              end
          end
      end
  end.

(** ** Glob matching *)

Definition STAR : Z := 42.
Definition QM : Z := 63.

(** The first loop: compare up to the first star.  It ends with a verdict or
    with the pointers [str] and [pattern] where it stopped. *)
Fixpoint glob_head (str pattern : list Z) : Z + (list Z * list Z) :=
  match str with
  | [] => inr (str, pattern)
  | s :: str' =>
      if deref pattern =? STAR then inr (str, pattern)
      else if negb (deref pattern =? s) && negb (deref pattern =? QM) then inl 0
      else glob_head str' (tail pattern)
  end.

Fixpoint glob_only_stars (pattern : list Z) : Z :=
  match pattern with
  | [] => 1
  | c :: pattern => if c =? STAR then glob_only_stars pattern else 0
  end.

(** The second loop, with the pointers [mp] (after the last star) and [cp]
    (where the next attempt starts); [None] when the fuel runs out or [mp] is
    read while it is NULL. *)
Fixpoint glob_loop (fuel : nat) (str pattern : list Z) (mark : option (list Z * list Z)) : option Z :=
  match fuel with
  | O => None
  | S fuel =>
      match str with
      | [] => Some (glob_only_stars pattern)
      | s :: str' =>
          if deref pattern =? STAR then
            let pattern := tail pattern in
            if deref pattern =? 0 then Some 1
            else glob_loop fuel str pattern (Some (pattern, str'))
          else if (deref pattern =? s) || (deref pattern =? QM) then
            glob_loop fuel str' (tail pattern) mark
          else
            match mark with
            | None => None
            | Some (mp, cp) => glob_loop fuel cp mp (Some (mp, tail cp))
            end
      end
  end.

Definition glob_fuel (str pattern : list Z) : nat :=
  S ((length str + 1) * (length str + length pattern + 1) + length str + length pattern).

Definition epicsStrGlobMatch (str pattern : list Z) : option Z :=
  match glob_head str pattern with
  | inl r => Some r
  | inr (str, pattern) => glob_loop (glob_fuel str pattern) str pattern None
  end.

Example glob_examples :
  map (fun p => epicsStrGlobMatch (cs "hello") (cs p)) ["hello"; "h*o"; "*l?"; "h*x"; ""; "*"; "?????"; "hell"]%string
  = [Some 1; Some 1; Some 1; Some 0; Some 0; Some 1; Some 1; Some 0].
Proof. reflexivity. Qed.

(** ** Escaping: stored characters and returned size *)

Definition is_char (c : Z) : Prop := -128 <= c < 128.

(** Case analysis over all [char] values. *)
Lemma char_cases (P : Z -> Prop) : Forall P (seqZ (-128) 256) -> forall c, is_char c -> P c.
Proof.
  intros F c [L U]. rewrite Forall_forall in F. apply F, elem_of_seqZ. lia.
Qed.

Ltac all_chars :=
  apply char_cases;
  let l := eval vm_compute in (seqZ (-128) 256) in change (seqZ (-128) 256) with l;
  repeat (constructor; [reflexivity|]); constructor.

Definition escaped (s : list Z) : list Z := flat_map escape_char s.

Lemma escape_char_range c : is_char c -> Forall (fun x => is_char x /\ x <> 0) (escape_char c).
Proof.
  revert c. apply char_cases.
  assert (B : forallb (fun c => forallb (fun x => (-128 <=? x) && (x <? 128) && negb (x =? 0))
                 (escape_char c)) (seqZ (-128) 256) = true) by (vm_compute; reflexivity).
  rewrite forallb_forall in B. apply Forall_forall. intros c Hc.
  apply list_elem_of_In, B in Hc. rewrite forallb_forall in Hc.
  apply Forall_forall. intros x Hx. apply list_elem_of_In, Hc in Hx. unfold is_char. lia.
Qed.

Lemma escaped_range s : Forall is_char s -> Forall (fun x => is_char x /\ x <> 0) (escaped s).
Proof.
  induction 1 as [|c s Hc Hs IH]; simpl; [constructor|].
  apply Forall_app. split; [apply escape_char_range; assumption|exact IH].
Qed.

Lemma wrap_char c : is_char c -> wrap_s 8 c = c.
Proof. intros []. apply wrap_s_id; unfold fits_s; lia. Qed.

(** [OUT] repeated over [xs]: counts everything, stores what fits. *)
Lemma OUT_esc_list xs r n d :
  Forall is_char xs ->
  fold_left OUT_esc xs (mkOut r n d)
  = mkOut (r - zlen xs) (n + zlen xs) (rev (take (Z.to_nat (r - 1)) xs) ++ d).
Proof.
  intros F. revert r n d. induction F as [|x xs Hx F IH]; intros r n d; simpl.
  - rewrite take_nil. simpl. f_equal; lia.
  - unfold OUT_esc at 2. simpl. rewrite wrap_char by assumption.
    destruct (Z.ltb_spec 0 (r - 1)).
    + rewrite IH. replace (Z.to_nat (r - 1)) with (S (Z.to_nat (r - 1 - 1))) by lia.
      simpl. rewrite <- app_assoc. f_equal; lia.
    + rewrite IH. replace (Z.to_nat (r - 1 - 1)) with 0%nat by lia.
      replace (Z.to_nat (r - 1)) with 0%nat by lia. simpl. f_equal; lia.
Qed.

Lemma escape_loop_fold s o : escape_loop s o = fold_left OUT_esc (escaped s) o.
Proof. revert o. induction s; intros; simpl; [reflexivity|]. rewrite fold_left_app. auto. Qed.

Lemma out_init_small dstlen : 0 <= dstlen <= INT_MAX -> out_init dstlen = mkOut dstlen 0 [].
Proof. intros [L U]. unfold out_init, INT_MAX in *. by rewrite wrap_s_id by (unfold fits_s; lia). Qed.

Lemma escaped_from_raw_spec dstlen s :
  Forall is_char s -> 0 < dstlen <= INT_MAX -> zlen (escaped s) <= INT_MAX ->
  epicsStrnEscapedFromRaw dstlen s (length s)
  = Some (take (Z.to_nat (dstlen - 1)) (escaped s) ++ [0], zlen (escaped s)).
Proof.
  intros F D N. unfold epicsStrnEscapedFromRaw, out_result.
  rewrite firstn_all, out_init_small, escape_loop_fold, OUT_esc_list by
    (lia || (eapply Forall_impl; [exact (escaped_range s F)|intros ? []; assumption])).
  simpl. rewrite app_nil_r, rev_involutive, (proj2 (Z.eqb_neq dstlen 0)) by lia.
  unfold INT_MIN, INT_MAX in *. zbool; simpl; done || llia.
Qed.

Lemma escaped_size_spec s n : escaped_size s n = n + zlen (escaped s) - zlen s.
Proof.
  revert n. induction s as [|c s IH]; intros n; simpl; [lia|].
  rewrite IH. unfold escape_char. rewrite length_app.
  destruct (escape_letter c); [simpl; lia|]. destruct (isprint _); simpl; lia.
Qed.

(** (C18) Sizes and bounds: for a destination of [dstlen > 0] characters, at most
    [INT_MAX], and a text whose escaped form has at most [INT_MAX] characters
    (the counters are of type [int]), [epicsStrnEscapedFromRaw] returns the size that
    [epicsStrnEscapedFromRawSize] predicts, whatever the room it is given, and
    stores the longest prefix of
    the escaped text that leaves room for the terminating NUL, never more than
    [dstlen] characters. *)
Theorem escaped_size_and_bounds (s : list Z) (dstlen : Z)
    (Hs : Forall is_char s) (Hd : 0 < dstlen <= INT_MAX) (Hn : epicsStrnEscapedFromRawSize s (length s) <= INT_MAX) :
  exists stored n, epicsStrnEscapedFromRaw dstlen s (length s) = Some (stored, n) /\
  n = epicsStrnEscapedFromRawSize s (length s) /\
  zlen stored <= dstlen /\
  stored = take (Z.to_nat (dstlen - 1)) (escaped s) ++ [0] /\
  (n < dstlen -> stored = escaped s ++ [0]).
Proof.
  unfold epicsStrnEscapedFromRawSize in *. rewrite firstn_all, escaped_size_spec in *.
  rewrite escaped_from_raw_spec by (done || llia). do 2 eexists. split_and!; [done|llia|llia|done|].
  intros L. rewrite take_ge by lia. reflexivity.
Qed.

Lemma escaped_size_and_bounds_witness :
  exists stored n, epicsStrnEscapedFromRaw 4 [10; 65; -1] 3 = Some (stored, n) /\
  n = epicsStrnEscapedFromRawSize [10; 65; -1] 3 /\ zlen stored <= 4 /\
  stored = take 3 (escaped [10; 65; -1]) ++ [0] /\ (n < 4 -> stored = escaped [10; 65; -1] ++ [0]).
Proof.
  apply (escaped_size_and_bounds [10; 65; -1] 4); [|split; [reflexivity|discriminate]|discriminate].
  repeat constructor; unfold is_char; lia.
Defined.

(** A buffer of 4 GiB counts as empty: [int rem = dstlen] is 0. *)
Example dstlen_truncated : epicsStrnRawFromEscaped (2 ^ 32) [65] 1 = Some ([0], 0) /\ epicsStrnRawFromEscaped 2 [65] 1 = Some ([65; 0], 1).
Proof. by vm_compute. Qed.

(** ** Unescaping what was escaped *)

Definition raw_loop (src : list Z) (o : outbuf) : outbuf :=
  match src with [] => o | c :: src => raw_input c src o end.

Lemma raw_loop_escape_char c rest o :
  is_char c -> raw_loop (escape_char c ++ rest) o = raw_loop rest (OUT_raw o c).
Proof. revert c. destruct rest; all_chars. Qed.

Lemma raw_loop_escaped s o :
  Forall is_char s -> raw_loop (escaped s) o = fold_left OUT_raw s o.
Proof.
  intros F. revert o. induction F as [|c s Hc F IH]; intros o; simpl; [reflexivity|].
  rewrite raw_loop_escape_char by assumption. apply IH.
Qed.

Lemma OUT_raw_list xs r n d :
  Forall is_char xs -> zlen xs < r ->
  fold_left OUT_raw xs (mkOut r n d) = mkOut (r - zlen xs) (n + zlen xs) (rev xs ++ d).
Proof.
  intros F. revert r n d. induction F as [|x xs Hx F IH]; intros r n d L; simpl in *.
  - f_equal; lia.
  - unfold OUT_raw at 2. simpl. rewrite wrap_char by assumption.
    rewrite (proj2 (Z.ltb_lt 0 _)) by lia. rewrite IH by lia.
    rewrite <- app_assoc. f_equal; lia.
Qed.

Lemma until_nul_app s t :
  Forall (fun x => is_char x /\ x <> 0) s -> until_nul (s ++ 0 :: t) = s.
Proof.
  induction 1 as [|x s [_ Hx] F IH]; simpl; [reflexivity|].
  rewrite (proj2 (Z.eqb_neq x 0)) by assumption. congruence.
Qed.

(** (C17) Round trip: unescaping the escaped form of any sequence of characters,
    NUL and non-ASCII characters included, gives the sequence back, with its
    length as the return value, when each destination has room and neither
    is larger than [INT_MAX] (the functions count in an [int]). *)
Theorem escape_unescape_roundtrip (s : list Z) (dstlen dstlen' : Z)
    (Hs : Forall is_char s)
    (Hd : epicsStrnEscapedFromRawSize s (length s) < dstlen <= INT_MAX) (Hd' : zlen s < dstlen' <= INT_MAX) :
  exists esc n, epicsStrnEscapedFromRaw dstlen s (length s) = Some (esc, n) /\
  epicsStrnRawFromEscaped dstlen' esc (length esc) = Some (s ++ [0], zlen s).
Proof.
  unfold epicsStrnEscapedFromRawSize in Hd. rewrite firstn_all, escaped_size_spec in Hd.
  rewrite escaped_from_raw_spec, take_ge by (done || llia). do 2 eexists. split; [done|].
  unfold epicsStrnRawFromEscaped, src_chars. rewrite firstn_all, out_init_small by llia.
  rewrite until_nul_app by (apply escaped_range; assumption).
  change (match escaped s with [] => mkOut dstlen' 0 [] | c :: s0 => raw_input c s0 (mkOut dstlen' 0 []) end)
    with (raw_loop (escaped s) (mkOut dstlen' 0 [])).
  rewrite raw_loop_escaped, OUT_raw_list by (done || lia).
  unfold out_result; simpl. rewrite app_nil_r, rev_involutive.
  rewrite (proj2 (Z.eqb_neq dstlen' 0)) by llia. unfold INT_MIN, INT_MAX in *. zbool; simpl; done || llia.
Qed.

Lemma escape_unescape_roundtrip_witness :
  exists esc n, epicsStrnEscapedFromRaw 20 [9; 0; 92; 55; -56] 5 = Some (esc, n) /\
  epicsStrnRawFromEscaped 6 esc (length esc) = Some ([9; 0; 92; 55; -56] ++ [0], 5).
Proof.
  apply (escape_unescape_roundtrip [9; 0; 92; 55; -56] 20 6); [|split; [reflexivity|discriminate]|split; [reflexivity|discriminate]].
  repeat constructor; unfold is_char; lia.
Defined.

(** ** The two hash functions agree on C strings *)

Lemma mem_hash_str s h : Forall (fun c => c <> 0) s ->
  epicsMemHash s (length s) h = Some (epicsStrHash s h).
Proof.
  unfold epicsStrHash. remember (length s) as n eqn:E. revert s E h.
  induction n as [n IH] using lt_wf_ind; intros s E h F.
  destruct s as [|c [|c' s]]; subst n; [reflexivity| |].
  - inversion F; subst. simpl. rewrite (proj2 (Z.eqb_neq c 0)) by assumption. reflexivity.
  - inversion F as [|? ? Hc F']; subst. inversion F' as [|? ? Hc' F'']; subst.
    cbn [epicsMemHash length str_hash_loop].
    rewrite (proj2 (Z.eqb_neq c 0)), (proj2 (Z.eqb_neq c' 0)) by assumption.
    apply IH; simpl; auto.
Qed.

(** ** Glob matching: specification and correctness *)

(** The pattern language: a star stands for any characters, a question mark for
    any one character, any other character for itself. *)
Inductive gmatch : list Z -> list Z -> Prop :=
| gm_nil : gmatch [] []
| gm_char c p s : c <> STAR -> gmatch p s -> gmatch (c :: p) (c :: s)
| gm_any c p s : gmatch p s -> gmatch (QM :: p) (c :: s)
| gm_star0 p s : gmatch p s -> gmatch (STAR :: p) s
| gm_star1 c p s : gmatch (STAR :: p) s -> gmatch (STAR :: p) (c :: s).

(** [one_match c s]: the pattern character [c], not a star, accepts [s]. *)
Definition one_match (c s : Z) : bool := (c =? s) || (c =? QM).

Lemma gmatch_cons c p x s :
  c <> STAR -> gmatch (c :: p) (x :: s) <-> one_match c x = true /\ gmatch p s.
Proof.
  intros NS. unfold one_match. rewrite orb_true_iff, !Z.eqb_eq. split.
  - inversion 1; subst; auto; congruence.
  - intros [[->| ->] G]; [by apply gm_char|by apply gm_any].
Qed.

Lemma gmatch_star p s : gmatch (STAR :: p) s <-> exists t, t `suffix_of` s /\ gmatch p t.
Proof.
  split.
  - intros G. remember (STAR :: p) as q eqn:E. induction G; try discriminate; injection E as ->.
    + congruence.
    + exists s. by split.
    + destruct IHG as (t & S & M); [reflexivity|]. exists t. split; [by apply suffix_cons_r|done].
  - intros (t & [u ->] & M). induction u; simpl; [by apply gm_star0|by apply gm_star1].
Qed.

Lemma gmatch_star_weaken p s t : t `suffix_of` s -> gmatch (STAR :: p) t -> gmatch (STAR :: p) s.
Proof.
  rewrite !gmatch_star. intros S (u & S' & G). exists u. split; [by etrans|done].
Qed.


Lemma glob_only_stars_spec p :
  (glob_only_stars p = 1 /\ gmatch p []) \/ (glob_only_stars p = 0 /\ ~ gmatch p []).
Proof.
  induction p as [|c p IH]; simpl; [left; split; [done|constructor]|].
  destruct (Z.eqb_spec c STAR) as [->|N].
  - destruct IH as [[E G]|[E G]]; [left|right]; (split; [done|]).
    + by apply gm_star0.
    + rewrite gmatch_star. intros (t & S & M). apply suffix_nil_inv in S. by subst.
  - right. split; [done|]. inversion 1; congruence.
Qed.

(** The current attempt of the second loop: since the mark, the star-free part
    [q] of the pattern has matched the [length q] characters before [str].  [cp]
    is the string one after the start of the attempt. *)
Definition attempt (str pattern mp cp : list Z) : Prop :=
  exists q u x, mp = q ++ pattern /\ u ++ str = x :: cp /\ length u = length q /\
    Forall (fun c => c <> STAR) q.

Lemma gmatch_app_inv q p t :
  Forall (fun c => c <> STAR) q -> gmatch (q ++ p) t ->
  exists a b, t = a ++ b /\ length a = length q /\ gmatch p b.
Proof.
  intros F. revert t. induction F as [|c q Hc F IH]; intros t G; simpl in G.
  - exists [], t. done.
  - destruct t as [|y t]; [inversion G; congruence|].
    apply gmatch_cons in G as [_ G]; [|assumption].
    destruct (IH t G) as (a & b & -> & L & M). exists (y :: a), b. simpl. auto.
Qed.

(** Backtracking to an older star can be dropped once a later one is reached. *)
Lemma attempt_star str p mp cp :
  attempt str (STAR :: p) mp cp -> gmatch (STAR :: mp) cp -> gmatch (STAR :: p) str.
Proof.
  intros (q & u & x & -> & E & L & F) G. apply gmatch_star in G as (t & [v Ev] & G).
  destruct (gmatch_app_inv _ _ _ F G) as (a & b & -> & La & Gb).
  apply (gmatch_star_weaken p str b); [|exact Gb].
  rewrite Ev in E. exists (drop (length u) (x :: v ++ a)).
  assert (D : drop (length u) (u ++ str) = drop (length u) ((x :: v ++ a) ++ b)).
  { rewrite E. simpl. by rewrite <- app_assoc. }
  rewrite drop_app_length in D. rewrite D. apply drop_app_le.
  simpl. rewrite length_app. lia.
Qed.

(** At the end of the string there is no longer attempt to make. *)
Lemma attempt_end pattern mp cp :
  attempt [] pattern mp cp -> ~ gmatch (STAR :: mp) cp.
Proof.
  intros (q & u & x & -> & E & L & F) G. apply gmatch_star in G as (t & [v Ev] & G).
  destruct (gmatch_app_inv _ _ _ F G) as (a & b & -> & La & Gb).
  rewrite app_nil_r in E. apply (f_equal length) in E. rewrite Ev in E. simpl in E.
  rewrite !length_app in E. lia.
Qed.

Definition loop_goal (str pattern : list Z) (mark : option (list Z * list Z)) : Prop :=
  gmatch pattern str \/
  match mark with Some (mp, cp) => gmatch (STAR :: mp) cp | None => False end.

Definition loop_inv (str pattern : list Z) (mark : option (list Z * list Z)) : Prop :=
  match mark with
  | Some (mp, cp) => attempt str pattern mp cp \/ (cp = [] /\ str = [] /\ pattern = mp)
  | None => str = [] \/ deref pattern = STAR
  end.

(** Steps still possible: an attempt never takes more than [B] steps. *)
Definition loop_measure (B : nat) (str pattern : list Z) (mark : option (list Z * list Z)) : nat :=
  (match mark with Some (_, cp) => length cp | None => length str end) * B
  + length str + length pattern.

Lemma deref_star pattern : deref pattern = STAR -> exists p, pattern = STAR :: p.
Proof. destruct pattern as [|c p]; simpl; intros E; [discriminate|]. subst. eauto. Qed.

Lemma attempt_length str pattern mp cp :
  attempt str pattern mp cp -> (length str + length mp = S (length cp) + length pattern)%nat.
Proof.
  intros (q & u & x & -> & E & L & _). apply (f_equal length) in E. simpl in E.
  rewrite length_app in E. rewrite length_app. lia.
Qed.

Lemma attempt_str_le str pattern mp cp :
  attempt str pattern mp cp -> (length str <= S (length cp))%nat.
Proof.
  intros (q & u & x & _ & E & _). apply (f_equal length) in E. simpl in E.
  rewrite length_app in E. lia.
Qed.

Lemma attempt_step s str c pattern mp cp :
  attempt (s :: str) (c :: pattern) mp cp -> c <> STAR -> attempt str pattern mp cp.
Proof.
  intros (q & u & x & -> & E & L & F) N. exists (q ++ [c]), (u ++ [s]), x.
  rewrite <- !app_assoc. simpl. split_and!; try done.
  - rewrite !length_app. simpl. lia.
  - apply Forall_app. split; [done|]. by constructor.
Qed.

(** The three steps of the loop keep the verdict. *)
Lemma goal_star s str p mark :
  loop_inv (s :: str) (STAR :: p) mark ->
  loop_goal (s :: str) p (Some (p, str)) <-> loop_goal (s :: str) (STAR :: p) mark.
Proof.
  intros Inv. unfold loop_goal. split.
  - intros [G|G]; left.
    + by apply gm_star0.
    + by apply gm_star1.
  - intros G.
    assert (G' : exists t, t `suffix_of` s :: str /\ gmatch p t).
    { apply gmatch_star. destruct G as [G|G]; [done|]. destruct mark as [[mp cp]|]; [|done].
      destruct Inv as [A|(_ & D & _)]; [|discriminate].
      by apply (attempt_star _ _ mp cp). }
    destruct G' as (t & S & M). apply suffix_cons_cases in S as [->|S]; [by left|].
    right. apply gmatch_star. by exists t.
Qed.

Lemma goal_char s str c p mark :
  c <> STAR -> one_match c s = true ->
  loop_goal str p mark <-> loop_goal (s :: str) (c :: p) mark.
Proof. intros NS O. unfold loop_goal. rewrite gmatch_cons by done. tauto. Qed.

Lemma goal_mismatch s str pattern mp cp :
  deref pattern <> STAR -> one_match (deref pattern) s = false ->
  loop_goal cp mp (Some (mp, tail cp)) <-> loop_goal (s :: str) pattern (Some (mp, cp)).
Proof.
  intros NS O. unfold loop_goal.
  assert (NG : ~ gmatch pattern (s :: str)).
  { destruct pattern as [|c p]; [by inversion 1|]. intros G.
    apply gmatch_cons in G as [G _]; [|done]. simpl in O. congruence. }
  rewrite !(gmatch_star mp). split.
  - intros [G|(t & S & G)]; right.
    + by exists cp.
    + exists t. split; [|done]. destruct cp; [done|by apply suffix_cons_r].
  - intros [G|(t & S & G)]; [done|].
    destruct cp as [|x cp]; [apply suffix_nil_inv in S; subst; by left|].
    apply suffix_cons_cases in S as [->|S]; [by left|]. right. by exists t.
Qed.

Definition mark_ok (N P : nat) (mark : option (list Z * list Z)) : Prop :=
  match mark with
  | Some (mp, cp) => cstring cp /\ cstring mp /\ (length cp <= N)%nat /\ (length mp <= P)%nat
  | None => True
  end.

Lemma inv_mismatch (mp cp : list Z) :
  loop_inv cp mp (Some (mp, tail cp)).
Proof.
  destruct cp as [|x cp]; [by right|]. left. exists [], [], x. by split_and!.
Qed.

Lemma glob_loop_correct N P fuel str pattern mark :
  cstring str -> cstring pattern -> (length str <= N)%nat -> (length pattern <= P)%nat ->
  mark_ok N P mark -> loop_inv str pattern mark ->
  (loop_measure (N + P + 1) str pattern mark < fuel)%nat ->
  exists r, glob_loop fuel str pattern mark = Some r /\
    (r = 1 /\ loop_goal str pattern mark \/ r = 0 /\ ~ loop_goal str pattern mark).
Proof.
  revert str pattern mark. induction fuel as [|fuel IH]; [lia|].
  intros str pattern mark Hs Hp Ls Lp Hm Inv M. cbn [glob_loop].
  destruct str as [|s str'].
  { (* end of the string *)
    eexists; split; [reflexivity|]. unfold loop_goal.
    destruct (glob_only_stars_spec pattern) as [[-> G]|[-> G]]; [tauto|right; split; [done|]].
    intros [?|G']; [tauto|]. destruct mark as [[mp cp]|]; [|done].
    destruct Inv as [A|(-> & _ & ->)]; [by apply (attempt_end _ _ _ A)|].
    apply gmatch_star in G' as (t & S & M'). apply suffix_nil_inv in S. by subst. }
  assert (Hs' : cstring str') by (by apply Forall_cons in Hs as [_ ?]).
  unfold loop_measure in M. simpl in Ls, M.
  destruct (Z.eqb_spec (deref pattern) STAR) as [E|NS].
  - destruct (deref_star _ E) as [p ->]. cbn [tail]. apply Forall_cons in Hp as [_ Hp].
    simpl in Lp, M. setoid_rewrite <- (goal_star s str' p mark Inv).
    destruct (Z.eqb_spec (deref p) 0) as [E0|N0].
    { destruct p as [|c p]; [|apply Forall_cons in Hp as [[_ Hc] _]; done].
      exists 1. split; [done|left; split; [done|]]. right. apply gmatch_star.
      exists []. split; [apply suffix_nil|constructor]. }
    apply IH; try done; try (simpl; lia).
    + simpl. split_and!; (done || lia).
    + left. exists [], [], s. by split_and!.
    + unfold loop_measure. simpl. destruct mark as [[mp cp]|]; [|nia].
      destruct Inv as [A|(_ & D & _)]; [|discriminate].
      apply attempt_str_le in A. simpl in A. nia.
  - fold (one_match (deref pattern) s). destruct (one_match (deref pattern) s) eqn:O.
    + destruct pattern as [|c p].
      { exfalso. apply Forall_cons in Hs as [[_ Hs0] _]. unfold one_match, QM in O. simpl in O. by destruct s. }
      apply Forall_cons in Hp as [_ Hp]. simpl in *.
      setoid_rewrite <- (goal_char s str' c p mark NS O).
      apply IH; try (done || lia).
      * destruct mark as [[mp cp]|]; [|by destruct Inv].
        destruct Inv as [A|(_ & D & _)]; [|done]. left. by eapply attempt_step.
      * unfold loop_measure. destruct mark as [[mp cp]|]; [lia|]. by destruct Inv.
    + destruct mark as [[mp cp]|]; [|by destruct Inv].
      destruct Inv as [A|(_ & D & _)]; [|done]. destruct Hm as (Hc & Hmp & Lc & Lmp).
      setoid_rewrite <- (goal_mismatch s str' pattern mp cp NS O).
      apply IH; try done.
      * simpl. split_and!; try done; destruct cp; simpl in *; try done || lia.
        by apply Forall_cons in Hc as [_ ?].
      * apply inv_mismatch.
      * apply attempt_length in A. unfold loop_measure. destruct cp; simpl in *; nia.
Qed.

(** The first loop removes a matching star-free prefix. *)
Lemma glob_head_spec str pattern :
  cstring str -> cstring pattern ->
  match glob_head str pattern with
  | inl r => r = 0 /\ ~ gmatch pattern str
  | inr (str', pattern') =>
      (gmatch pattern' str' <-> gmatch pattern str) /\ cstring str' /\ cstring pattern' /\
      loop_inv str' pattern' None
  end.
Proof.
  revert pattern. induction str as [|s str IH]; intros pattern Hs Hp; cbn [glob_head].
  - split_and!; try done. by left.
  - pose proof Hs as [[_ Hs0] Hs']%Forall_cons.
    destruct (Z.eqb_spec (deref pattern) STAR) as [E|NS]; [split_and!; try done; by right|].
    rewrite <- negb_orb. fold (one_match (deref pattern) s).
    destruct pattern as [|c p]; simpl in *.
    + unfold one_match, QM. simpl. rewrite orb_false_r.
      destruct s; [done|simpl; split; [done|inversion 1]..].
    + apply Forall_cons in Hp as [_ Hp]. destruct (one_match c s) eqn:O; simpl.
      * specialize (IH p Hs' Hp). destruct (glob_head str p) as [r|[s1 p1]].
        -- rewrite gmatch_cons by done. tauto.
        -- rewrite gmatch_cons by done. tauto.
      * split; [done|]. rewrite gmatch_cons, O by done. by intros [? _].
Qed.

(** (C16) Glob matching: for every string and pattern the backtracking loops of
    [epicsStrGlobMatch] terminate, never dereference the NULL mark, and return 1
    exactly when the pattern describes the string ([*] any characters, [?] any
    one character), 0 otherwise. *)
Theorem glob_match_correct (str pattern : list Z) (Hs : cstring str) (Hp : cstring pattern) :
  exists r, epicsStrGlobMatch str pattern = Some r /\
    (r = 1 /\ gmatch pattern str \/ r = 0 /\ ~ gmatch pattern str).
Proof.
  unfold epicsStrGlobMatch. pose proof (glob_head_spec str pattern Hs Hp) as H.
  destruct (glob_head str pattern) as [r|[str' pattern']].
  - exists r. destruct H as [-> ?]. auto.
  - destruct H as (E & Hs' & Hp' & Inv).
    destruct (glob_loop_correct (length str') (length pattern') (glob_fuel str' pattern')
      str' pattern' None) as (r & R & G); try done.
    { unfold loop_measure, glob_fuel. nia. }
    exists r. split; [done|]. unfold loop_goal in G. tauto.
Qed.

Lemma glob_match_correct_witness :
  exists r, epicsStrGlobMatch (cs "axbcxc") (cs "a*b?*c") = Some r /\
    (r = 1 /\ gmatch (cs "a*b?*c") (cs "axbcxc") \/ r = 0 /\ ~ gmatch (cs "a*b?*c") (cs "axbcxc")).
Proof.
  apply (glob_match_correct (cs "axbcxc") (cs "a*b?*c"));
    vm_compute; repeat constructor; discriminate.
Defined.
