(* ===== verification/EpicsStdlib.v ===== *)
(** * Number parsing ([modules/libcom/src/misc/epicsStdlib.c])

    A parse function returns a status and stores through its pointers only on
    success: here it returns either the status or the stored value with the
    pointer it stores through [units].  [units] tells whether the caller passed
    a [units] pointer; without one, text after the number is an error. *)

From stdpp Require Import base numbers list option strings.
From Stdlib Require Import ZArith Lia Bool Floats.
From S2P Require Import Prelude CStdlib Strtod.

Inductive stdlib_status :=
| S_stdlib_noConversion | S_stdlib_extraneous | S_stdlib_underflow
| S_stdlib_overflow | S_stdlib_badBase.

Definition parsed (A : Type) : Type := stdlib_status + (A * list Z).

(** The end of every primitive: skip white space after the number. *)
Definition parse_tail {A} (value : A) (endp : list Z) (units : bool) : parsed A :=
  let endp := skip_spaces endp in
  match endp with
  | _ :: _ => if units then inr (value, endp) else inl S_stdlib_extraneous
  | [] => inr (value, endp)
  end.

(** [strtol] reports an invalid base through [errno] ([EINVAL]). *)
Definition epicsParseLong (str : list Z) (base : Z) (units : bool) : parsed Z :=
  let str := skip_spaces str in
  if negb (valid_base base) then inl S_stdlib_badBase else
  match strtol str base with
  | None => inl S_stdlib_noConversion
  | Some (value, endp, erange) =>
      if (erange : bool) then inl S_stdlib_overflow else parse_tail value endp units
  end.

Definition epicsParseULong (str : list Z) (base : Z) (units : bool) : parsed Z :=
  let str := skip_spaces str in
  if negb (valid_base base) then inl S_stdlib_badBase else
  match strtoul str base with
  | None => inl S_stdlib_noConversion
  | Some (value, endp, erange) =>
      if (erange : bool) then inl S_stdlib_overflow else parse_tail value endp units
  end.

(** [long long] has the range of [long] on this platform. *)
Definition epicsParseLLong (str : list Z) (base : Z) (units : bool) : parsed Z :=
  let str := skip_spaces str in
  if negb (valid_base base) then inl S_stdlib_badBase else
  match strtol str base with
  | None => inl S_stdlib_noConversion
  | Some (value, endp, erange) =>
      if (erange : bool) then inl S_stdlib_overflow else parse_tail value endp units
  end.

Definition epicsParseULLong (str : list Z) (base : Z) (units : bool) : parsed Z :=
  let str := skip_spaces str in
  if negb (valid_base base) then inl S_stdlib_badBase else
  match strtoul str base with
  | None => inl S_stdlib_noConversion
  | Some (value, endp, erange) =>
      if (erange : bool) then inl S_stdlib_overflow else parse_tail value endp units
  end.

Definition epicsParseDouble (str : list Z) (units : bool) : parsed float :=
  let str := skip_spaces str in
  match strtod str with
  | None => inl S_stdlib_noConversion
  | Some (value, endp, erange) =>
      if (erange : bool)
      then if (value =? 0)%float then inl S_stdlib_underflow else inl S_stdlib_overflow
      else parse_tail value endp units
  end.

(** ** The sized integers *)

Definition epicsParseInt8 (str : list Z) (base : Z) (units : bool) : parsed Z :=
  match epicsParseLong str base units with
  | inl status => inl status
  | inr (value, rest) =>
      if (value <? -128) || (127 <? value) then inl S_stdlib_overflow
      else inr (wrap_s 8 value, rest)
  end.

Definition epicsParseUInt8 (str : list Z) (base : Z) (units : bool) : parsed Z :=
  match epicsParseULong str base units with
  | inl status => inl status
  | inr (value, rest) =>
      if (255 <? value) && (value <=? ULONG_MAX - 255) then inl S_stdlib_overflow
      else inr (wrap_u 8 value, rest)
  end.

Definition epicsParseInt16 (str : list Z) (base : Z) (units : bool) : parsed Z :=
  match epicsParseLong str base units with
  | inl status => inl status
  | inr (value, rest) =>
      if (value <? -32768) || (32767 <? value) then inl S_stdlib_overflow
      else inr (wrap_s 16 value, rest)
  end.

Definition epicsParseUInt16 (str : list Z) (base : Z) (units : bool) : parsed Z :=
  match epicsParseULong str base units with
  | inl status => inl status
  | inr (value, rest) =>
      if (65535 <? value) && (value <=? ULONG_MAX - 65535) then inl S_stdlib_overflow
      else inr (wrap_u 16 value, rest)
  end.

Definition epicsParseInt32 (str : list Z) (base : Z) (units : bool) : parsed Z :=
  match epicsParseLong str base units with
  | inl status => inl status
  | inr (value, rest) =>
      if (value <? -2147483648) || (2147483647 <? value) then inl S_stdlib_overflow
      else inr (wrap_s 32 value, rest)
  end.

Definition epicsParseUInt32 (str : list Z) (base : Z) (units : bool) : parsed Z :=
  match epicsParseULong str base units with
  | inl status => inl status
  | inr (value, rest) =>
      if (4294967295 <? value) && (value <=? ULONG_MAX - 4294967295) then inl S_stdlib_overflow
      else inr (wrap_u 32 value, rest)
  end.

Definition epicsParseInt64 (str : list Z) (base : Z) (units : bool) : parsed Z :=
  match epicsParseLong str base units with
  | inl status => inl status
  | inr (value, rest) => inr (wrap_s 64 value, rest)
  end.

Definition epicsParseUInt64 (str : list Z) (base : Z) (units : bool) : parsed Z :=
  match epicsParseULong str base units with
  | inl status => inl status
  | inr (value, rest) => inr (wrap_u 64 value, rest)
  end.

Definition epicsParseFloat (str : list Z) (units : bool) : parsed float :=
  match epicsParseDouble str units with
  | inl status => inl status
  | inr (value, rest) =>
      let abs := PrimFloat.abs value in
      if (0 <? value)%float && (abs <=? FLT_MIN)%float then inl S_stdlib_underflow
      else if finite value && (FLT_MAX <=? abs)%float then inl S_stdlib_overflow
      else inr (F2F32 value, rest)
  end.

(** ** Decimal notation *)

Fixpoint dec_rev (fuel : nat) (n : Z) : list Z :=
  match fuel with
  | O => []
  | S fuel => (48 + n mod 10) :: (if n <? 10 then [] else dec_rev fuel (n / 10))
  end.

(** The decimal notation of a number, with [-] for a negative one. *)
Definition decimal_abs (n : Z) : list Z := rev (dec_rev (S (Z.to_nat n)) n).
Definition decimal (z : Z) : list Z :=
  if z <? 0 then 45 :: decimal_abs (- z) else decimal_abs z.

Example decimal_examples : (decimal 0, decimal (-128), decimal 4095) = (cs "0", cs "-128", cs "4095").
Proof. reflexivity. Qed.

Lemma dec_rev_digits fuel n : 0 <= n -> Forall (fun c => 48 <= c <= 57) (dec_rev fuel n).
Proof.
  revert n. induction fuel as [|fuel IH]; intros n Hn; simpl; constructor.
  - pose proof (Z.mod_pos_bound n 10). lia.
  - destruct (n <? 10); [constructor|]. apply IH. apply Z.div_pos; lia.
Qed.

Lemma digit_in_10 c : 48 <= c <= 57 -> digit_in 10 c = Some (c - 48).
Proof.
  intros. unfold digit_in, digit_value, isdigit.
  rewrite (proj2 (andb_true_iff _ _)) by lia. simpl.
  rewrite (proj2 (Z.ltb_lt _ _)) by lia. reflexivity.
Qed.

(** Positional value of digits. *)
Definition digits_value (acc : Z) (ds : list Z) : Z := fold_left (fun a c => a * 10 + (c - 48)) ds acc.

Lemma scan_digits_10 ds acc k rest :
  Forall (fun c => 48 <= c <= 57) ds -> digit_in 10 (deref rest) = None ->
  scan_digits 10 acc k (ds ++ rest) = (digits_value acc ds, k + zlen ds, rest).
Proof.
  intros F E. revert acc k. induction F as [|c ds Hc F IH]; intros acc k; simpl.
  - destruct rest as [|c r]; simpl in *; [|rewrite E]; f_equal; f_equal; lia.
  - rewrite digit_in_10 by assumption. rewrite IH. f_equal. f_equal. lia.
Qed.

Lemma dec_rev_value fuel n :
  0 <= n -> (Z.to_nat n < fuel)%nat -> digits_value 0 (rev (dec_rev fuel n)) = n.
Proof.
  revert n. induction fuel as [|fuel IH]; intros n Hn Hf; [lia|]. simpl.
  unfold digits_value. rewrite fold_left_app. simpl.
  destruct (Z.ltb_spec n 10) as [L|L]; simpl.
  - rewrite Z.mod_small; lia.
  - pose proof (Z.div_lt n 10). pose proof (Z.div_pos n 10). pose proof (Z.div_mod n 10).
    change (fold_left _ (rev (dec_rev fuel (n / 10))) 0)
      with (digits_value 0 (rev (dec_rev fuel (n / 10)))).
    rewrite IH by lia. lia.
Qed.

Lemma decimal_abs_digits n : 0 <= n -> Forall (fun c => 48 <= c <= 57) (decimal_abs n).
Proof. intros. unfold decimal_abs. apply Forall_rev, dec_rev_digits. assumption. Qed.

Lemma decimal_abs_cons n : 0 <= n -> exists c ds, decimal_abs n = c :: ds /\ 48 <= c <= 57.
Proof.
  intros Hn. pose proof (decimal_abs_digits n Hn) as F.
  destruct (decimal_abs n) as [|c ds] eqn:E.
  - unfold decimal_abs in E. apply (f_equal length) in E. rewrite length_rev in E. discriminate.
  - exists c, ds. split; [reflexivity|]. by apply Forall_cons in F as [? _].
Qed.

Lemma digit_not_space c : 48 <= c <= 57 -> isspace c = false.
Proof.
  intros. unfold isspace. apply orb_false_iff. split; [apply Z.eqb_neq; lia|].
  apply andb_false_iff. right. apply Z.leb_gt. lia.
Qed.

Lemma decimal_abs_scan n rest :
  0 <= n -> digit_in 10 (deref rest) = None ->
  scan_digits 10 0 0 (decimal_abs n ++ rest) = (n, zlen (decimal_abs n), rest).
Proof.
  intros Hn E. rewrite scan_digits_10; [|by apply decimal_abs_digits|assumption].
  unfold decimal_abs. rewrite dec_rev_value by lia. reflexivity.
Qed.

Lemma strto_base_10 s : strto_base 10 s = (10, s).
Proof. unfold strto_base. destruct (deref s =? 48); reflexivity. Qed.

Lemma scan_sign_other c s : c <> 45 -> c <> 43 -> scan_sign (c :: s) = (false, c :: s).
Proof. intros. unfold scan_sign. simpl. zbool; congruence. Qed.

Lemma strto_scan_decimal z rest :
  digit_in 10 (deref rest) = None ->
  strto_scan (decimal z ++ rest) 10 = Some (z <? 0, Z.abs z, rest).
Proof.
  intros E. unfold strto_scan, decimal. destruct (Z.ltb_spec z 0) as [L|L].
  - simpl. rewrite strto_base_10, decimal_abs_scan by (assumption || lia).
    destruct (decimal_abs_cons (- z)) as (c & ds & -> & _); [lia|].
    rewrite (proj2 (Z.eqb_neq _ 0)) by (simpl; lia). repeat f_equal. lia.
  - destruct (decimal_abs_cons z) as (c & ds & D & Hc); [lia|].
    rewrite skip_spaces_idem by (rewrite D; apply digit_not_space; assumption).
    assert (S : scan_sign (decimal_abs z ++ rest) = (false, decimal_abs z ++ rest)).
    { rewrite D. simpl. apply scan_sign_other; lia. }
    rewrite S, strto_base_10, decimal_abs_scan, D by (assumption || lia).
    rewrite (proj2 (Z.eqb_neq _ 0)) by (simpl; lia). repeat f_equal. lia.
Qed.

Lemma decimal_no_space z rest : isspace (deref (decimal z ++ rest)) = false.
Proof.
  unfold decimal. destruct (Z.ltb_spec z 0); [reflexivity|].
  destruct (decimal_abs_cons z) as (c & ds & -> & Hc); [lia|]. apply digit_not_space, Hc.
Qed.

(** What the primitives make of a decimal number at the end of the string. *)
Lemma parse_long_decimal z :
  epicsParseLong (decimal z) 10 false
  = if decide (fits_s 64 z) then inr (z, []) else inl S_stdlib_overflow.
Proof.
  unfold epicsParseLong. rewrite <- (app_nil_r (decimal z)).
  rewrite skip_spaces_idem by apply decimal_no_space.
  unfold strtol. rewrite strto_scan_decimal by reflexivity. simpl.
  replace (if z <? 0 then - Z.abs z else Z.abs z) with z by (zbool; lia).
  unfold LONG_MIN, LONG_MAX. case_decide as D; unfold fits_s in D; simpl in D;
    zbool; try reflexivity; lia.
Qed.

Lemma parse_ulong_decimal z :
  epicsParseULong (decimal z) 10 false
  = if decide (Z.abs z <= ULONG_MAX) then inr (wrap_u 64 z, []) else inl S_stdlib_overflow.
Proof.
  unfold epicsParseULong. rewrite <- (app_nil_r (decimal z)).
  rewrite skip_spaces_idem by apply decimal_no_space.
  unfold strtoul. rewrite strto_scan_decimal by reflexivity. simpl.
  case_decide as D; zbool; try lia; simpl; try reflexivity.
  - replace (- Z.abs z) with z by lia. reflexivity.
  - rewrite wrap_u_id; [rewrite Z.abs_eq by lia; reflexivity|].
    unfold fits_u, ULONG_MAX in *. lia.
Qed.

(** The integers whose decimal notation an unsigned parser of [w] bits accepts:
    magnitude below [2^w], or within [2^w] of the end of the [unsigned long] range. *)
Definition unsigned_accepts (w z : Z) : Prop :=
  Z.abs z < 2 ^ w \/ 2 ^ 64 - 2 ^ w < Z.abs z < 2 ^ 64.
#[global] Instance unsigned_accepts_dec w z : Decision (unsigned_accepts w z).
Proof. unfold unsigned_accepts. apply _. Defined.

Lemma unsigned_range_test w z :
  0 < w < 64 -> Z.abs z <= ULONG_MAX ->
  (2 ^ w - 1 <? wrap_u 64 z) && (wrap_u 64 z <=? ULONG_MAX - (2 ^ w - 1))
  = negb (bool_decide (unsigned_accepts w z)).
Proof.
  unfold ULONG_MAX, wrap_u, unsigned_accepts. intros Hw Hz.
  assert (0 < 2 ^ w < 2 ^ 64) by (split; [apply Z.pow_pos_nonneg|apply Z.pow_lt_mono_r]; lia).
  assert (M : z mod 2 ^ 64 = if z <? 0 then z + 2 ^ 64 else z).
  { zbool; [symmetry; apply (Z.mod_unique_pos _ _ (-1)); lia|apply Z.mod_small; lia]. }
  rewrite M. clear M.
  destruct (Z.ltb_spec z 0); case_bool_decide; zbool; simpl; lia || reflexivity.
Qed.

Lemma wrap_u_wrap w z : 0 <= w <= 64 -> wrap_u w (wrap_u 64 z) = wrap_u w z.
Proof.
  intros. unfold wrap_u. apply Z.mod_mod_divide. exists (2 ^ (64 - w)).
  rewrite <- Z.pow_add_r by lia. f_equal. lia.
Qed.

Lemma unsigned_sized_decimal w z :
  0 < w < 64 ->
  match epicsParseULong (decimal z) 10 false with
  | inl status => inl status
  | inr (value, rest) =>
      if (2 ^ w - 1 <? value) && (value <=? ULONG_MAX - (2 ^ w - 1)) then inl S_stdlib_overflow
      else inr (wrap_u w value, rest)
  end = if decide (unsigned_accepts w z) then inr (wrap_u w z, []) else inl S_stdlib_overflow.
Proof.
  intros Hw. rewrite parse_ulong_decimal. case_decide as D.
  - rewrite unsigned_range_test by assumption. rewrite wrap_u_wrap by lia.
    case_bool_decide; case_decide; simpl; done.
  - case_decide as U; [|reflexivity]. exfalso. unfold ULONG_MAX, unsigned_accepts in *.
    assert (2 ^ w < 2 ^ 64) by (apply Z.pow_lt_mono_r; lia). lia.
Qed.

Lemma signed_sized_decimal w z :
  0 < w <= 64 ->
  match epicsParseLong (decimal z) 10 false with
  | inl status => inl status
  | inr (value, rest) =>
      if (value <? - 2 ^ (w - 1)) || (2 ^ (w - 1) - 1 <? value) then inl S_stdlib_overflow
      else inr (wrap_s w value, rest)
  end = if decide (fits_s w z) then inr (z, []) else inl S_stdlib_overflow.
Proof.
  intros Hw. assert (2 ^ (w - 1) <= 2 ^ 63) by (apply Z.pow_le_mono_r; lia).
  rewrite parse_long_decimal. case_decide as D; unfold fits_s in D; change (64 - 1) with 63 in D.
  - case_decide as D'; zbool; simpl; unfold fits_s in D'; try lia; try reflexivity.
    rewrite wrap_s_id by (unfold fits_s; lia). reflexivity.
  - case_decide as D'; [|reflexivity]. unfold fits_s in D'. lia.
Qed.

(** (C19) Range checking of the sized parsers: for every integer, parsing its
    decimal notation with a signed parser of 8, 16, 32 or 64 bits gives the
    integer when it fits the type and [S_stdlib_overflow] otherwise; an unsigned
    parser gives the value modulo [2^w] (a minus sign wraps around) for the
    integers of magnitude below [2^w], and for those whose magnitude is within
    [2^w] of [2^64], which its test does not tell from wrapped negative values;
    otherwise it reports [S_stdlib_overflow]. *)
Theorem sized_parsers_range (z : Z) :
  let signed w := if decide (fits_s w z) then inr (z, []) else inl S_stdlib_overflow in
  let unsigned w :=
    if decide (unsigned_accepts w z) then inr (wrap_u w z, []) else inl S_stdlib_overflow in
  epicsParseInt8 (decimal z) 10 false = signed 8 /\
  epicsParseInt16 (decimal z) 10 false = signed 16 /\
  epicsParseInt32 (decimal z) 10 false = signed 32 /\
  epicsParseInt64 (decimal z) 10 false = signed 64 /\
  epicsParseUInt8 (decimal z) 10 false = unsigned 8 /\
  epicsParseUInt16 (decimal z) 10 false = unsigned 16 /\
  epicsParseUInt32 (decimal z) 10 false = unsigned 32 /\
  epicsParseUInt64 (decimal z) 10 false = unsigned 64.
Proof.
  intros signed unsigned. subst signed unsigned. cbv beta. split_and!.
  - apply (signed_sized_decimal 8). lia.
  - apply (signed_sized_decimal 16). lia.
  - apply (signed_sized_decimal 32). lia.
  - unfold epicsParseInt64. rewrite parse_long_decimal. case_decide as D; [|reflexivity].
    rewrite wrap_s_id by (assumption || lia). reflexivity.
  - apply (unsigned_sized_decimal 8). lia.
  - apply (unsigned_sized_decimal 16). lia.
  - apply (unsigned_sized_decimal 32). lia.
  - unfold epicsParseUInt64. rewrite parse_ulong_decimal. unfold ULONG_MAX, unsigned_accepts.
    case_decide; case_decide; try lia; [|reflexivity]. rewrite wrap_u_wrap by lia. reflexivity.
Qed.
