(* ===== verification/Calc.v ===== *)
(** * The calculation engine: opcodes and the infix to postfix compiler
    ([modules/libcom/src/calc/postfix.c], [postfixPvt.h], [postfix.h])

    [postfix] compiles an infix expression to byte code.  The buffers it works
    with are bounded: the operator stack has 80 elements, of which element 0 is
    never set, and the output buffer belongs to the caller.  Every access that C
    leaves undefined is an outcome of its own ({!postfix_ub}), so that the
    theorems can say which inputs reach one. *)

From stdpp Require Import base numbers list option strings.
From Stdlib Require Import ZArith Lia Bool Floats.
From S2P Require Import Prelude CStdlib Strtod EpicsStdlib EpicsString.

(** ** Opcodes *)

Inductive rpn_opcode :=
| END_EXPRESSION | LITERAL_DOUBLE | LITERAL_INT | FETCH_VAL | FETCH_A | FETCH_B
| FETCH_C | FETCH_D | FETCH_E | FETCH_F | FETCH_G | FETCH_H | FETCH_I | FETCH_J
| FETCH_K | FETCH_L | STORE_A | STORE_B | STORE_C | STORE_D | STORE_E | STORE_F
| STORE_G | STORE_H | STORE_I | STORE_J | STORE_K | STORE_L | CONST_PI | CONST_D2R
| CONST_R2D | UNARY_NEG | ADD | SUB | MULT | DIV | MODULO | POWER | ABS_VAL | EXP
| LOG_10 | LOG_E | MAX | MIN | SQU_RT | ACOS | ASIN | ATAN | ATAN2 | COS | COSH | SIN
| SINH | TAN | TANH | CEIL | FLOOR | FINITE | ISINF | ISNAN | NINT | RANDOM | REL_OR
| REL_AND | REL_NOT | BIT_OR | BIT_AND | BIT_EXCL_OR | BIT_NOT | RIGHT_SHIFT
| LEFT_SHIFT | NOT_EQ | LESS_THAN | LESS_OR_EQ | EQUAL | GR_OR_EQ | GR_THAN | COND_IF
| COND_ELSE | COND_END | NOT_GENERATED.

#[global] Instance rpn_opcode_eq_dec : EqDecision rpn_opcode.
Proof. solve_decision. Defined.

(** The enumeration in order; an opcode is its position. *)
Definition rpn_opcodes : list rpn_opcode :=
  [END_EXPRESSION; LITERAL_DOUBLE; LITERAL_INT; FETCH_VAL; FETCH_A; FETCH_B; FETCH_C;
   FETCH_D; FETCH_E; FETCH_F; FETCH_G; FETCH_H; FETCH_I; FETCH_J; FETCH_K; FETCH_L;
   STORE_A; STORE_B; STORE_C; STORE_D; STORE_E; STORE_F; STORE_G; STORE_H; STORE_I;
   STORE_J; STORE_K; STORE_L; CONST_PI; CONST_D2R; CONST_R2D; UNARY_NEG; ADD; SUB;
   MULT; DIV; MODULO; POWER; ABS_VAL; EXP; LOG_10; LOG_E; MAX; MIN; SQU_RT; ACOS; ASIN;
   ATAN; ATAN2; COS; COSH; SIN; SINH; TAN; TANH; CEIL; FLOOR; FINITE; ISINF; ISNAN;
   NINT; RANDOM; REL_OR; REL_AND; REL_NOT; BIT_OR; BIT_AND; BIT_EXCL_OR; BIT_NOT;
   RIGHT_SHIFT; LEFT_SHIFT; NOT_EQ; LESS_THAN; LESS_OR_EQ; EQUAL; GR_OR_EQ; GR_THAN;
   COND_IF; COND_ELSE; COND_END; NOT_GENERATED].

Definition opcode_num (op : rpn_opcode) : Z :=
  match op with
  | END_EXPRESSION => 0 | LITERAL_DOUBLE => 1 | LITERAL_INT => 2 | FETCH_VAL => 3
  | FETCH_A => 4 | FETCH_B => 5 | FETCH_C => 6 | FETCH_D => 7 | FETCH_E => 8
  | FETCH_F => 9 | FETCH_G => 10 | FETCH_H => 11 | FETCH_I => 12 | FETCH_J => 13
  | FETCH_K => 14 | FETCH_L => 15 | STORE_A => 16 | STORE_B => 17 | STORE_C => 18
  | STORE_D => 19 | STORE_E => 20 | STORE_F => 21 | STORE_G => 22 | STORE_H => 23
  | STORE_I => 24 | STORE_J => 25 | STORE_K => 26 | STORE_L => 27 | CONST_PI => 28
  | CONST_D2R => 29 | CONST_R2D => 30 | UNARY_NEG => 31 | ADD => 32 | SUB => 33
  | MULT => 34 | DIV => 35 | MODULO => 36 | POWER => 37 | ABS_VAL => 38 | EXP => 39
  | LOG_10 => 40 | LOG_E => 41 | MAX => 42 | MIN => 43 | SQU_RT => 44 | ACOS => 45
  | ASIN => 46 | ATAN => 47 | ATAN2 => 48 | COS => 49 | COSH => 50 | SIN => 51
  | SINH => 52 | TAN => 53 | TANH => 54 | CEIL => 55 | FLOOR => 56 | FINITE => 57
  | ISINF => 58 | ISNAN => 59 | NINT => 60 | RANDOM => 61 | REL_OR => 62 | REL_AND => 63
  | REL_NOT => 64 | BIT_OR => 65 | BIT_AND => 66 | BIT_EXCL_OR => 67 | BIT_NOT => 68
  | RIGHT_SHIFT => 69 | LEFT_SHIFT => 70 | NOT_EQ => 71 | LESS_THAN => 72
  | LESS_OR_EQ => 73 | EQUAL => 74 | GR_OR_EQ => 75 | GR_THAN => 76 | COND_IF => 77
  | COND_ELSE => 78 | COND_END => 79 | NOT_GENERATED => 80
  end.

Definition opcode_of_num (z : Z) : option rpn_opcode :=
  if z <? 0 then None else rpn_opcodes !! Z.to_nat z.

Lemma opcode_of_opcode_num op : opcode_of_num (opcode_num op) = Some op.
Proof. destruct op; reflexivity. Qed.

Lemma opcode_num_range op : 0 <= opcode_num op <= 80.
Proof. destruct op; simpl; lia. Qed.

(** ** Elements of an expression *)

Inductive element_type :=
| OPERAND | LITERAL_OPERAND | STORE_OPERATOR | UNARY_OPERATOR | VARARG_OPERATOR
| BINARY_OPERATOR | SEPERATOR | CLOSE_PAREN | CONDITIONAL | EXPR_TERMINATOR.

#[global] Instance element_type_eq_dec : EqDecision element_type.
Proof. solve_decision. Defined.

Record ELEMENT := mkElement {
  name : list Z;
  in_stack_pri : Z;
  in_coming_pri : Z;
  runtime_effect : Z;
  type : element_type;
  code : rpn_opcode }.

Definition element (name : string) (sp ip effect : Z) (t : element_type) (op : rpn_opcode) : ELEMENT :=
  mkElement (cs name) sp ip effect t op.

Definition set_runtime_effect (e : ELEMENT) (n : Z) : ELEMENT :=
  mkElement (name e) (in_stack_pri e) (in_coming_pri e) (wrap_s 8 n) (type e) (code e).
Definition set_code (e : ELEMENT) (op : rpn_opcode) : ELEMENT :=
  mkElement (name e) (in_stack_pri e) (in_coming_pri e) (runtime_effect e) (type e) op.

(** The tables, in the order of the source. *)
Definition operands : list ELEMENT :=
  [element "!" 7 8 0 UNARY_OPERATOR REL_NOT;
   element "(" 0 8 0 UNARY_OPERATOR NOT_GENERATED;
   element "-" 7 8 0 UNARY_OPERATOR UNARY_NEG;
   element "." 0 0 1 LITERAL_OPERAND LITERAL_DOUBLE;
   element "0" 0 0 1 LITERAL_OPERAND LITERAL_DOUBLE;
   element "0X" 0 0 1 LITERAL_OPERAND LITERAL_INT;
   element "1" 0 0 1 LITERAL_OPERAND LITERAL_DOUBLE;
   element "2" 0 0 1 LITERAL_OPERAND LITERAL_DOUBLE;
   element "3" 0 0 1 LITERAL_OPERAND LITERAL_DOUBLE;
   element "4" 0 0 1 LITERAL_OPERAND LITERAL_DOUBLE;
   element "5" 0 0 1 LITERAL_OPERAND LITERAL_DOUBLE;
   element "6" 0 0 1 LITERAL_OPERAND LITERAL_DOUBLE;
   element "7" 0 0 1 LITERAL_OPERAND LITERAL_DOUBLE;
   element "8" 0 0 1 LITERAL_OPERAND LITERAL_DOUBLE;
   element "9" 0 0 1 LITERAL_OPERAND LITERAL_DOUBLE;
   element "A" 0 0 1 OPERAND FETCH_A;
   element "ABS" 7 8 0 UNARY_OPERATOR ABS_VAL;
   element "ACOS" 7 8 0 UNARY_OPERATOR ACOS;
   element "ASIN" 7 8 0 UNARY_OPERATOR ASIN;
   element "ATAN" 7 8 0 UNARY_OPERATOR ATAN;
   element "ATAN2" 7 8 (-1) UNARY_OPERATOR ATAN2;
   element "B" 0 0 1 OPERAND FETCH_B;
   element "C" 0 0 1 OPERAND FETCH_C;
   element "CEIL" 7 8 0 UNARY_OPERATOR CEIL;
   element "COS" 7 8 0 UNARY_OPERATOR COS;
   element "COSH" 7 8 0 UNARY_OPERATOR COSH;
   element "D" 0 0 1 OPERAND FETCH_D;
   element "D2R" 0 0 1 OPERAND CONST_D2R;
   element "E" 0 0 1 OPERAND FETCH_E;
   element "EXP" 7 8 0 UNARY_OPERATOR EXP;
   element "F" 0 0 1 OPERAND FETCH_F;
   element "FINITE" 7 8 0 VARARG_OPERATOR FINITE;
   element "FLOOR" 7 8 0 UNARY_OPERATOR FLOOR;
   element "G" 0 0 1 OPERAND FETCH_G;
   element "H" 0 0 1 OPERAND FETCH_H;
   element "I" 0 0 1 OPERAND FETCH_I;
   element "INF" 0 0 1 LITERAL_OPERAND LITERAL_DOUBLE;
   element "ISINF" 7 8 0 UNARY_OPERATOR ISINF;
   element "ISNAN" 7 8 0 VARARG_OPERATOR ISNAN;
   element "J" 0 0 1 OPERAND FETCH_J;
   element "K" 0 0 1 OPERAND FETCH_K;
   element "L" 0 0 1 OPERAND FETCH_L;
   element "LN" 7 8 0 UNARY_OPERATOR LOG_E;
   element "LOG" 7 8 0 UNARY_OPERATOR LOG_10;
   element "LOGE" 7 8 0 UNARY_OPERATOR LOG_E;
   element "MAX" 7 8 0 VARARG_OPERATOR MAX;
   element "MIN" 7 8 0 VARARG_OPERATOR MIN;
   element "NINT" 7 8 0 UNARY_OPERATOR NINT;
   element "NAN" 0 0 1 LITERAL_OPERAND LITERAL_DOUBLE;
   element "NOT" 7 8 0 UNARY_OPERATOR BIT_NOT;
   element "PI" 0 0 1 OPERAND CONST_PI;
   element "R2D" 0 0 1 OPERAND CONST_R2D;
   element "RNDM" 0 0 1 OPERAND RANDOM;
   element "SIN" 7 8 0 UNARY_OPERATOR SIN;
   element "SINH" 7 8 0 UNARY_OPERATOR SINH;
   element "SQR" 7 8 0 UNARY_OPERATOR SQU_RT;
   element "SQRT" 7 8 0 UNARY_OPERATOR SQU_RT;
   element "TAN" 7 8 0 UNARY_OPERATOR TAN;
   element "TANH" 7 8 0 UNARY_OPERATOR TANH;
   element "VAL" 0 0 1 OPERAND FETCH_VAL;
   element "~" 7 8 0 UNARY_OPERATOR BIT_NOT].

Definition operators : list ELEMENT :=
  [element "!=" 3 3 (-1) BINARY_OPERATOR NOT_EQ;
   element "#" 3 3 (-1) BINARY_OPERATOR NOT_EQ;
   element "%" 5 5 (-1) BINARY_OPERATOR MODULO;
   element "&" 2 2 (-1) BINARY_OPERATOR BIT_AND;
   element "&&" 2 2 (-1) BINARY_OPERATOR REL_AND;
   element ")" 0 0 0 CLOSE_PAREN NOT_GENERATED;
   element "*" 5 5 (-1) BINARY_OPERATOR MULT;
   element "**" 6 6 (-1) BINARY_OPERATOR POWER;
   element "+" 4 4 (-1) BINARY_OPERATOR ADD;
   element "," 0 0 0 SEPERATOR NOT_GENERATED;
   element "-" 4 4 (-1) BINARY_OPERATOR SUB;
   element "/" 5 5 (-1) BINARY_OPERATOR DIV;
   element ":" 0 0 (-1) CONDITIONAL COND_ELSE;
   element ":=" 0 0 (-1) STORE_OPERATOR STORE_A;
   element ";" 0 0 0 EXPR_TERMINATOR NOT_GENERATED;
   element "<" 3 3 (-1) BINARY_OPERATOR LESS_THAN;
   element "<<" 2 2 (-1) BINARY_OPERATOR LEFT_SHIFT;
   element "<=" 3 3 (-1) BINARY_OPERATOR LESS_OR_EQ;
   element "=" 3 3 (-1) BINARY_OPERATOR EQUAL;
   element "==" 3 3 (-1) BINARY_OPERATOR EQUAL;
   element ">" 3 3 (-1) BINARY_OPERATOR GR_THAN;
   element ">=" 3 3 (-1) BINARY_OPERATOR GR_OR_EQ;
   element ">>" 2 2 (-1) BINARY_OPERATOR RIGHT_SHIFT;
   element "?" 0 0 (-1) CONDITIONAL COND_IF;
   element "AND" 2 2 (-1) BINARY_OPERATOR BIT_AND;
   element "OR" 1 1 (-1) BINARY_OPERATOR BIT_OR;
   element "XOR" 1 1 (-1) BINARY_OPERATOR BIT_EXCL_OR;
   element "^" 6 6 (-1) BINARY_OPERATOR POWER;
   element "|" 1 1 (-1) BINARY_OPERATOR BIT_OR;
   element "||" 1 1 (-1) BINARY_OPERATOR REL_OR].

(** [get_element]: the tables are searched backwards, so that the longest name
    comes first.  The result is the element found, if any, with the source after
    it, and the source after the leading white space. *)
Definition is_element (src : list Z) (e : ELEMENT) : bool :=
  epicsStrnCaseCmp src (name e) (length (name e)) =? 0.

Definition get_element (opnd : bool) (src : list Z) : option (ELEMENT * list Z) * list Z :=
  let src := skip_spaces src in
  match src with
  | [] => (None, src)
  | _ =>
      match List.find (is_element src) (rev (if opnd then operands else operators)) with
      | Some e => (Some (e, drop (length (name e)) src), src)
      | None => (None, src)
      end
  end.

(** ** Errors *)

Inductive calc_err :=
| CALC_ERR_NONE | CALC_ERR_TOOMANY | CALC_ERR_BAD_LITERAL | CALC_ERR_BAD_ASSIGNMENT
| CALC_ERR_BAD_SEPERATOR | CALC_ERR_PAREN_NOT_OPEN | CALC_ERR_PAREN_OPEN
| CALC_ERR_CONDITIONAL | CALC_ERR_INCOMPLETE | CALC_ERR_UNDERFLOW | CALC_ERR_OVERFLOW
| CALC_ERR_SYNTAX | CALC_ERR_NULL_ARG | CALC_ERR_INTERNAL.

#[global] Instance calc_err_eq_dec : EqDecision calc_err.
Proof. solve_decision. Defined.

Definition calc_errs : list calc_err :=
  [CALC_ERR_NONE; CALC_ERR_TOOMANY; CALC_ERR_BAD_LITERAL; CALC_ERR_BAD_ASSIGNMENT;
   CALC_ERR_BAD_SEPERATOR; CALC_ERR_PAREN_NOT_OPEN; CALC_ERR_PAREN_OPEN;
   CALC_ERR_CONDITIONAL; CALC_ERR_INCOMPLETE; CALC_ERR_UNDERFLOW; CALC_ERR_OVERFLOW;
   CALC_ERR_SYNTAX; CALC_ERR_NULL_ARG; CALC_ERR_INTERNAL].

Definition calcErrorStr (error : Z) : option string :=
  if (error <? 0) || (13 <? error) then None else
  ["No error"; "Too many results returned"; "Badly formed numeric literal";
   "Bad assignment target"; "Comma without enclosing parentheses";
   "Close parenthesis found without open"; "Parenthesis still open at end of expression";
   "Unbalanced conditional ?: operators"; "Incomplete expression, operand missing";
   "Not enough operands provided"; "Runtime stack overflow";
   "Syntax error, unknown operator/operand"; "NULL or empty input argument to postfix()";
   "Internal error, unknown element type"]%string !! Z.to_nat error.

(** Accesses outside what the code owns: the 81st element of the operator stack,
    its unset element 0, a byte after the output buffer.  [ub_fuel] stands for a
    model that ran out of fuel. *)
Inductive postfix_ub := ub_stack_overflow | ub_stack_unset | ub_outbuf | ub_fuel.

Inductive pf_fail := pf_bad (error : calc_err) | pf_ub (u : postfix_ub).
Notation pf A := (pf_fail + A)%type.

Inductive postfix_result :=
| postfix_ok (code : list Z)
| postfix_err (error : calc_err)
| postfix_undefined (u : postfix_ub).

(** ** The compiler *)

Definition OPERATOR_STACK : nat := 80.
Definition CALCPERFORM_STACK : Z := 80.
Definition INFIX_TO_POSTFIX_SIZE (n : Z) : Z := n * 21 / 6.

Section postfix.
(** Size of the output buffer. *)
Context (cap : nat).

(** The output, last byte first, and [runtime_depth]. *)
Notation output := (list Z).

(** [*pout++ = b] *)
Definition emit (b : Z) (out : output) : pf output :=
  if decide (length out < cap)%nat then inr (wrap_s 8 b :: out) else inl (pf_ub ub_outbuf).

(** [memcpy(pout, ...); pout += n] *)
Fixpoint emit_bytes (bs : list Z) (out : output) : pf output :=
  match bs with
  | [] => inr out
  | b :: bs => let* out := emit b out in emit_bytes bs out
  end.

(** Move the top operator [e] to the output. *)
Definition move_op (e : ELEMENT) (od : output * Z) : pf (output * Z) :=
  let '(out, depth) := od in
  let* out := emit (opcode_num (code e)) out in
  let* out := (if decide (type e = VARARG_OPERATOR)
               then emit (1 - runtime_effect e) out else inr out) in
  inr (out, depth + runtime_effect e).

(** Move operators to the output while [p] holds of the top one. *)
Fixpoint move_while (p : ELEMENT -> bool) (stack : list ELEMENT) (od : output * Z)
    : pf (list ELEMENT * (output * Z)) :=
  match stack with
  | [] => inr ([], od)
  | e :: stack' =>
      if p e then let* od := move_op e od in move_while p stack' od
      else inr (stack, od)
  end.

Definition is_open (e : ELEMENT) : bool := deref (name e) =? 40.

(** Move operators until an open parenthesis is on top. *)
Fixpoint move_to_paren (error : calc_err) (stack : list ELEMENT) (od : output * Z)
    : pf (list ELEMENT * (output * Z)) :=
  match stack with
  | [] => inl (pf_ub ub_stack_unset)
  | e :: stack' =>
      if is_open e then inr (stack, od) else
      match stack' with
      | [] => inl (pf_bad error)
      | _ => let* od := move_op e od in move_to_paren error stack' od
      end
  end.

(** Move everything to the output. *)
Fixpoint move_all (stack : list ELEMENT) (od : output * Z) : pf (output * Z) :=
  match stack with
  | [] => inr od
  | e :: stack' =>
      if is_open e then inl (pf_bad CALC_ERR_PAREN_OPEN) else
      let* od := move_op e od in move_all stack' od
  end.

(** [*++pstacktop = e] *)
Definition push (e : ELEMENT) (stack : list ELEMENT) : pf (list ELEMENT) :=
  if decide (S (length stack) < OPERATOR_STACK)%nat then inr (e :: stack)
  else inl (pf_ub ub_stack_overflow).

Record pf_state := mkPf {
  psrc : list Z;
  pout : output;
  pstack : list ELEMENT;
  operand_needed : bool;
  runtime_depth : Z;
  cond_count : Z }.

Definition set_psrc (s : pf_state) (src : list Z) : pf_state :=
  mkPf src (pout s) (pstack s) (operand_needed s) (runtime_depth s) (cond_count s).

(** The cases of the [switch]; [s] has its source after the element [e]. *)

Definition do_operand (e : ELEMENT) (s : pf_state) : pf pf_state :=
  let* out := emit (opcode_num (code e)) (pout s) in
  inr (mkPf (psrc s) out (pstack s) false (runtime_depth s + runtime_effect e) (cond_count s)).

(** [src] is the source at the start of the element. *)
Definition do_literal (e : ELEMENT) (src : list Z) (s : pf_state) : pf pf_state :=
  let depth := runtime_depth s + runtime_effect e in
  if decide (code e = LITERAL_DOUBLE) then
    match epicsParseDouble src true with
    | inl _ => inl (pf_bad CALC_ERR_BAD_LITERAL)
    | inr (lit_d, pnext) =>
        let lit_i := F2int32 lit_d in
        let* out :=
          (if negb (lit_d =? Z2F lit_i)%float then
             let* out := emit (opcode_num (code e)) (pout s) in
             emit_bytes (double_bytes lit_d) out
           else
             let* out := emit (opcode_num LITERAL_INT) (pout s) in
             emit_bytes (le_bytes 4 lit_i) out) in
        inr (mkPf pnext out (pstack s) false depth (cond_count s))
    end
  else
    match epicsParseUInt32 src 0 true with
    | inl _ => inl (pf_bad CALC_ERR_BAD_LITERAL)
    | inr (lit_ui, pnext) =>
        let* out := emit (opcode_num LITERAL_INT) (pout s) in
        let* out := emit_bytes (le_bytes 4 lit_ui) out in
        inr (mkPf pnext out (pstack s) false depth (cond_count s))
    end.

Definition do_store (e : ELEMENT) (s : pf_state) : pf pf_state :=
  match pout s, pstack s with
  | b :: out, [] =>
      if (b <? opcode_num FETCH_A) || (opcode_num FETCH_L <? b)
      then inl (pf_bad CALC_ERR_BAD_ASSIGNMENT)
      else
        match opcode_of_num (opcode_num STORE_A + b - opcode_num FETCH_A) with
        | None => inl (pf_bad CALC_ERR_INTERNAL)
        | Some op =>
            let* stack := push (set_code e op) (pstack s) in
            inr (mkPf (psrc s) out stack true (runtime_depth s - 1) (cond_count s))
        end
  | _, _ => inl (pf_bad CALC_ERR_BAD_ASSIGNMENT)
  end.

(** Unary and vararg operators leave [operand_needed] as it is. *)
Definition do_operator (e : ELEMENT) (needed : bool) (s : pf_state) : pf pf_state :=
  let* '(stack, (out, depth)) :=
    move_while (fun top => in_coming_pri e <=? in_stack_pri top) (pstack s)
      (pout s, runtime_depth s) in
  let* stack := push e stack in
  inr (mkPf (psrc s) out stack needed depth (cond_count s)).

Definition do_separator (s : pf_state) : pf pf_state :=
  let* '(stack, (out, depth)) :=
    move_to_paren CALC_ERR_BAD_SEPERATOR (pstack s) (pout s, runtime_depth s) in
  match stack with
  | [] => inl (pf_ub ub_stack_unset)
  | p :: stack =>
      inr (mkPf (psrc s) out (set_runtime_effect p (runtime_effect p - 1) :: stack) true
             depth (cond_count s))
  end.

Definition do_close_paren (s : pf_state) : pf pf_state :=
  let* '(stack, (out, depth)) :=
    move_to_paren CALC_ERR_PAREN_NOT_OPEN (pstack s) (pout s, runtime_depth s) in
  match stack with
  | [] => inl (pf_ub ub_stack_unset)
  | p :: stack =>
      let done stack := inr (mkPf (psrc s) out stack (operand_needed s) depth (cond_count s)) in
      match stack with
      | v :: stack' =>
          if decide (type v = VARARG_OPERATOR) then
            let v := set_runtime_effect v (runtime_effect p) in
            if 0 <? runtime_effect v then inl (pf_bad CALC_ERR_INCOMPLETE)
            else done (v :: stack')
          else done stack
      | [] => done stack
      end
  end.

Definition do_conditional (e : ELEMENT) (s : pf_state) : pf pf_state :=
  let* '(stack, (out, depth)) :=
    move_while (fun top => in_coming_pri e <? in_stack_pri top) (pstack s)
      (pout s, runtime_depth s) in
  let* out := emit (opcode_num (code e)) out in
  let depth := depth + runtime_effect e in
  if deref (name e) =? 58 then
    let count := cond_count s - 1 in
    if count <? 0 then inl (pf_bad CALC_ERR_CONDITIONAL) else
    let* stack := push (set_runtime_effect (set_code e COND_END) 0) stack in
    inr (mkPf (psrc s) out stack true depth count)
  else inr (mkPf (psrc s) out stack true depth (cond_count s + 1)).

Definition do_terminator (s : pf_state) : pf pf_state :=
  let* '(out, depth) := move_all (pstack s) (pout s, runtime_depth s) in
  if negb (cond_count s =? 0) then inl (pf_bad CALC_ERR_CONDITIONAL)
  else if 1 <? depth then inl (pf_bad CALC_ERR_TOOMANY)
  else inr (mkPf (psrc s) out [] true depth (cond_count s)).

Definition do_element (e : ELEMENT) (src : list Z) (s : pf_state) : pf pf_state :=
  match type e with
  | OPERAND => do_operand e s
  | LITERAL_OPERAND => do_literal e src s
  | STORE_OPERATOR => do_store e s
  | UNARY_OPERATOR | VARARG_OPERATOR => do_operator e (operand_needed s) s
  | BINARY_OPERATOR => do_operator e true s
  | SEPERATOR => do_separator s
  | CLOSE_PAREN => do_close_paren s
  | CONDITIONAL => do_conditional e s
  | EXPR_TERMINATOR => do_terminator s
  end.

(** The checks after the [switch]. *)
Definition check_depth (s : pf_state) : pf pf_state :=
  if runtime_depth s <? 0 then inl (pf_bad CALC_ERR_UNDERFLOW)
  else if CALCPERFORM_STACK <=? runtime_depth s then inl (pf_bad CALC_ERR_OVERFLOW)
  else inr s.

(** One turn of the loop: the next state, or the source at the end of the loop. *)
Definition postfix_step (s : pf_state) : pf (pf_state + pf_state) :=
  match get_element (operand_needed s) (psrc s) with
  | (None, src) => inr (inr (set_psrc s src))
  | (Some (e, rest), src) =>
      let* s' := do_element e src (set_psrc s rest) in
      let* s' := check_depth s' in
      inr (inl s')
  end.

Fixpoint postfix_loop (fuel : nat) (s : pf_state) : pf pf_state :=
  match fuel with
  | O => inl (pf_ub ub_fuel)
  | S fuel =>
      let* r := postfix_step s in
      match r with
      | inl s' => postfix_loop fuel s'
      | inr s' => inr s'
      end
  end.

(** After the loop. *)
Definition postfix_end (s : pf_state) : pf (list Z) :=
  match psrc s with
  | _ :: _ => inl (pf_bad CALC_ERR_SYNTAX)
  | [] =>
      let* '(out, depth) := move_all (pstack s) (pout s, runtime_depth s) in
      let* out := emit (opcode_num END_EXPRESSION) out in
      if negb (cond_count s =? 0) then inl (pf_bad CALC_ERR_CONDITIONAL)
      else if operand_needed s || negb (depth =? 1) then inl (pf_bad CALC_ERR_INCOMPLETE)
      else inr (rev out)
  end.

Definition postfix_init (src : list Z) : pf_state := mkPf src [] [] true 0 0.

Definition postfix_run (src : list Z) : pf (list Z) :=
  let* _ := emit (opcode_num END_EXPRESSION) [] in
  match src with
  | [] => inl (pf_bad CALC_ERR_NULL_ARG)
  | _ =>
      let* s := postfix_loop (S (length src)) (postfix_init src) in
      postfix_end s
  end.

Definition postfix (src : list Z) : postfix_result :=
  match postfix_run src with
  | inr code => postfix_ok code
  | inl (pf_bad e) => postfix_err e
  | inl (pf_ub u) => postfix_undefined u
  end.
End postfix.

Definition postfix_str (s : string) : postfix_result := postfix 300 (cs s).

Example postfix_examples :
  map postfix_str ["A+B*2"; "A?B:C"; "MAX(A,B,1.5)"; "A:=3;A"; "1*"; "MIN()"; "1?"; "*1"; "0x0.1"]%string
  = [postfix_ok [4; 5; 2; 2; 0; 0; 0; 34; 32; 0];
     postfix_ok [4; 77; 5; 78; 6; 79; 0];
     postfix_ok [4; 5; 1; 0; 0; 0; 0; 0; 0; -8; 63; 42; 3; 0];
     postfix_ok [2; 3; 0; 0; 0; 16; 4; 0];
     postfix_err CALC_ERR_INCOMPLETE; postfix_err CALC_ERR_SYNTAX;
     postfix_err CALC_ERR_CONDITIONAL; postfix_err CALC_ERR_SYNTAX; postfix_err CALC_ERR_SYNTAX].
Proof. vm_compute. reflexivity. Qed.
