(* ===== verification/CalcPerform.v ===== *)
(** * The calculation engine: the evaluator
    ([modules/libcom/src/calc/calcPerform.c])

    [calcPerform] runs the byte code on a stack of 81 doubles whose element 0 is
    not used.  Every access outside elements 1 to 80, every instruction read after
    the end of the code and the division that traps are outcomes of their own
    ({!cp_fault}).  The functions of [libm] that IEEE 754 does not fix are a
    parameter ({!libm}). *)

From stdpp Require Import base numbers list option strings.
From Stdlib Require Import ZArith Lia Bool Floats.
From S2P Require Import Prelude CStdlib Strtod EpicsStdlib EpicsString Calc.

(** The mathematical functions that depend on the C library. *)
Record libm := mkLibm {
  pow : float -> float -> float;
  exp : float -> float;
  log10 : float -> float;
  log : float -> float;
  acos : float -> float;
  asin : float -> float;
  atan : float -> float;
  atan2 : float -> float -> float;
  cos : float -> float;
  sin : float -> float;
  tan : float -> float;
  cosh : float -> float;
  sinh : float -> float;
  tanh : float -> float }.

Inductive cp_fault :=
| cp_underflow   (** an access below element 1 of the stack *)
| cp_overflow    (** an access above element 80 of the stack *)
| cp_overread    (** an instruction read after the end of the code *)
| cp_arg         (** an access outside the arguments *)
| cp_div_trap    (** [INT_MIN % -1] *)
| cp_fuel.       (** not an outcome of the code *)

#[global] Instance cp_fault_eq_dec : EqDecision cp_fault.
Proof. solve_decision. Defined.

Notation cp A := (cp_fault + A)%type.

(** What the evaluator works on: the instructions from [pinst] on, the elements 1 to
    [ptop] of the stack (top first), the caller's arguments and result, and the
    seed of [calcRandom]. *)
Record cp_state := mkCp {
  cp_stack : list float;
  parg : list float;
  presult : float;
  seed : Z }.

Definition with_stack (s : cp_state) (st : list float) : cp_state :=
  mkCp st (parg s) (presult s) (seed s).

(** ** Stack accesses *)

(** [*++ptop = v] *)
Definition cp_push (v : float) (s : cp_state) : cp cp_state :=
  if zlen (cp_stack s) <? CALCPERFORM_STACK then inr (with_stack s (v :: cp_stack s))
  else inl cp_overflow.

(** [*ptop--] *)
Definition cp_pop (s : cp_state) : cp (float * cp_state) :=
  match cp_stack s with
  | [] => inl cp_underflow
  | v :: st => inr (v, with_stack s st)
  end.

(** [*ptop = f( *ptop)] *)
Definition cp_unary (f : float -> float) (s : cp_state) : cp cp_state :=
  match cp_stack s with
  | [] => inl cp_underflow
  | v :: st => inr (with_stack s (f v :: st))
  end.

(** [top = *ptop--; *ptop = f( *ptop, top)] *)
Definition cp_binary (f : float -> float -> cp float) (s : cp_state) : cp cp_state :=
  let* '(top, s) := cp_pop s in
  match cp_stack s with
  | [] => inl cp_underflow
  | v :: st => let* r := f v top in inr (with_stack s (r :: st))
  end.

Definition pure2 (f : float -> float -> float) (x y : float) : cp float := inr (f x y).

(** [while (--nargs) acc = f( *--ptop, acc)] *)
Fixpoint vararg_loop (f : float -> float -> float) (nargs : Z) (acc : float) (st : list float)
    : cp (list float) :=
  if nargs - 1 =? 0 then inr (acc :: st)
  else match st with
       | [] => inl cp_underflow
       | v :: st => vararg_loop f (nargs - 1) (f v acc) st
       end.

(** ** [calcRandom] *)

Definition multy : Z := 191 * 8 + 5.
Definition addy : Z := 0x3141.

Definition calcRandom (seed : Z) : float * Z :=
  let seed := wrap_u 16 (seed * multy + addy) in
  ((Z2F seed / 65535)%float, seed).

(** ** The operators *)

Definition PI : float := 3.14159265358979323%float.

Definition isinf_sign (f : float) : float :=
  if isinf f then if (f <? 0)%float then (-1)%float else 1%float else 0%float.

Definition b2op (f : float -> float -> bool) : float -> float -> cp float :=
  fun x y => inr (b2f (f x y)).

(** Operators on the values cast to [epicsUInt32]. *)
Definition bitop (f : Z -> Z -> Z) : float -> float -> cp float :=
  fun x y => inr (Z2F (wrap_s 32 (f (F2uint32 x) (F2uint32 y)))).

Definition right_shift (x n : Z) : Z := Z.shiftr (wrap_s 32 x) (Z.land n 31).
Definition left_shift (x n : Z) : Z := Z.shiftl (wrap_s 32 x) (Z.land n 31).

Definition modulo (x y : float) : cp float :=
  let itop := F2int32 y in
  if itop =? 0 then inr epicsNAN
  else if (F2int32 x =? - 2 ^ 31) && (itop =? -1) then inl cp_div_trap
  else inr (Z2F (Z.rem (F2int32 x) itop)).

Definition max2 (x top : float) : float :=
  if (x <? top)%float || isnan top then top else x.
Definition min2 (x top : float) : float :=
  if (top <? x)%float || isnan top then top else x.

Definition nint (top : float) : float :=
  Z2F (F2int32 (if (0 <=? top)%float then top + 0.5 else top - 0.5)%float).

Section calcPerform.
Context (m : libm).

(** Operators with one operand. *)
Definition unary_fun (op : rpn_opcode) : option (float -> float) :=
  match op with
  | UNARY_NEG => Some (fun x => (- x)%float)
  | ABS_VAL => Some PrimFloat.abs
  | EXP => Some (exp m)
  | LOG_10 => Some (log10 m)
  | LOG_E => Some (log m)
  | SQU_RT => Some PrimFloat.sqrt
  | ACOS => Some (acos m)
  | ASIN => Some (asin m)
  | ATAN => Some (atan m)
  | COS => Some (cos m)
  | SIN => Some (sin m)
  | TAN => Some (tan m)
  | COSH => Some (cosh m)
  | SINH => Some (sinh m)
  | TANH => Some (tanh m)
  | CEIL => Some ceil
  | FLOOR => Some floor
  | ISINF => Some isinf_sign
  | NINT => Some nint
  | REL_NOT => Some (fun x => b2f (negb (truth x)))
  | BIT_NOT => Some (fun x => Z2F (wrap_s 32 (Z.lnot (F2uint32 x))))
  | _ => None
  end.

(** Operators with two operands: [*ptop] and [top]. *)
Definition binary_fun (op : rpn_opcode) : option (float -> float -> cp float) :=
  match op with
  | ADD => Some (pure2 PrimFloat.add)
  | SUB => Some (pure2 PrimFloat.sub)
  | MULT => Some (pure2 PrimFloat.mul)
  | DIV => Some (pure2 PrimFloat.div)
  | MODULO => Some modulo
  | POWER => Some (pure2 (pow m))
  | ATAN2 => Some (fun x top => inr (atan2 m top x))
  | REL_OR => Some (b2op (fun x y => truth x || truth y))
  | REL_AND => Some (b2op (fun x y => truth x && truth y))
  | BIT_OR => Some (bitop Z.lor)
  | BIT_AND => Some (bitop Z.land)
  | BIT_EXCL_OR => Some (bitop Z.lxor)
  | RIGHT_SHIFT => Some (bitop right_shift)
  | LEFT_SHIFT => Some (bitop left_shift)
  | NOT_EQ => Some (b2op (fun x y => negb (x =? y)%float))
  | LESS_THAN => Some (b2op (fun x y => (x <? y)%float))
  | LESS_OR_EQ => Some (b2op (fun x y => (x <=? y)%float))
  | EQUAL => Some (b2op (fun x y => (x =? y)%float))
  | GR_OR_EQ => Some (b2op (fun x y => (y <=? x)%float))
  | GR_THAN => Some (b2op (fun x y => (y <? x)%float))
  | _ => None
  end.

(** Operators with a count of operands in the code: how the topmost operand
    enters, and how each operand below it is combined. *)
Definition vararg_fun (op : rpn_opcode) : option ((float -> float) * (float -> float -> float)) :=
  match op with
  | MAX => Some (id, max2)
  | MIN => Some (id, min2)
  | FINITE => Some (fun x => b2f (finite x), fun x top => b2f (truth top && finite x))
  | ISNAN => Some (fun x => b2f (isnan x), fun x top => b2f (truth top || isnan x))
  | _ => None
  end.

Definition constant (op : rpn_opcode) : option float :=
  match op with
  | CONST_PI => Some PI
  | CONST_D2R => Some (PI / 180)%float
  | CONST_R2D => Some (180 / PI)%float
  | _ => None
  end.

Definition fetch_index (op : rpn_opcode) : option nat :=
  if decide (opcode_num FETCH_A <= opcode_num op <= opcode_num FETCH_L)
  then Some (Z.to_nat (opcode_num op - opcode_num FETCH_A)) else None.
Definition store_index (op : rpn_opcode) : option nat :=
  if decide (opcode_num STORE_A <= opcode_num op <= opcode_num STORE_L)
  then Some (Z.to_nat (opcode_num op - opcode_num STORE_A)) else None.

(** ** [cond_search]

    The instructions after the operator looked for; [None] when it is not found. *)

(** The number of bytes of data that follow an opcode. *)
Definition data_size (op : Z) : nat :=
  if op =? opcode_num LITERAL_DOUBLE then 8
  else if op =? opcode_num LITERAL_INT then 4
  else if (op =? opcode_num MIN) || (op =? opcode_num MAX) || (op =? opcode_num FINITE)
          || (op =? opcode_num ISNAN) then 1
  else 0%nat.

(** [pinst += n] *)
Definition skip (n : nat) (pinst : list Z) : cp (list Z) :=
  if decide (n <= length pinst)%nat then inr (drop n pinst) else inl cp_overread.

Fixpoint cond_search (fuel : nat) (mtch count : Z) (pinst : list Z) : cp (option (list Z)) :=
  match fuel with
  | O => inl cp_fuel
  | S fuel =>
      match pinst with
      | [] => inl cp_overread
      | op :: pinst =>
          if op =? opcode_num END_EXPRESSION then inr None else
          let count := if op =? mtch then count - 1 else count in
          if (op =? mtch) && (count =? 0) then inr (Some pinst) else
          let* pinst := skip (data_size op) pinst in
          cond_search fuel mtch (if op =? opcode_num COND_IF then count + 1 else count) pinst
      end
  end.

Definition cond_skip (mtch : rpn_opcode) (pinst : list Z) : cp (option (list Z)) :=
  cond_search (S (length pinst)) (opcode_num mtch) 1 pinst.

(** ** One instruction

    [None] is the return of -1. *)
Definition opt_skip (s : cp_state) (r : option (list Z)) : option (list Z * cp_state) :=
  p ← r; Some (p, s).

Definition stay (pinst : list Z) (s : cp_state) : option (list Z * cp_state) := Some (pinst, s).

Definition exec_literal (n : nat) (value : list Z -> float) (pinst : list Z) (s : cp_state)
    : cp (option (list Z * cp_state)) :=
  let* pinst' := skip n pinst in
  let* s := cp_push (value (take n pinst)) s in
  inr (stay pinst' s).

Definition exec_vararg (first : float -> float) (f : float -> float -> float)
    (pinst : list Z) (s : cp_state) : cp (option (list Z * cp_state)) :=
  match pinst with
  | [] => inl cp_overread
  | nargs :: pinst =>
      let* '(top, s) := cp_pop s in
      let* st := vararg_loop f nargs (first top) (cp_stack s) in
      inr (stay pinst (with_stack s st))
  end.

Definition exec_store (i : nat) (pinst : list Z) (s : cp_state) : cp (option (list Z * cp_state)) :=
  let* '(v, s) := cp_pop s in
  if decide (i < length (parg s))%nat
  then inr (stay pinst (mkCp (cp_stack s) (<[i := v]> (parg s)) (presult s) (seed s)))
  else inl cp_arg.

Definition exec_special (op : rpn_opcode) (pinst : list Z) (s : cp_state)
    : cp (option (list Z * cp_state)) :=
  match op with
  | LITERAL_DOUBLE => exec_literal 8 bytes_double pinst s
  | LITERAL_INT => exec_literal 4 (fun bs => Z2F (wrap_s 32 (le_value bs))) pinst s
  | FETCH_VAL => let* s := cp_push (presult s) s in inr (stay pinst s)
  | RANDOM =>
      let '(r, seed') := calcRandom (seed s) in
      let* s := cp_push r (mkCp (cp_stack s) (parg s) (presult s) seed') in
      inr (stay pinst s)
  | COND_IF =>
      let* '(v, s) := cp_pop s in
      if (v =? 0)%float
      then let* r := cond_skip COND_ELSE pinst in inr (opt_skip s r)
      else inr (stay pinst s)
  | COND_ELSE => let* r := cond_skip COND_END pinst in inr (opt_skip s r)
  | COND_END => inr (stay pinst s)
  | _ => inr None
  end.

Definition exec (op : rpn_opcode) (pinst : list Z) (s : cp_state)
    : cp (option (list Z * cp_state)) :=
  match fetch_index op, store_index op, constant op, unary_fun op, binary_fun op, vararg_fun op with
  | Some i, _, _, _, _, _ =>
      match parg s !! i with
      | Some v => let* s := cp_push v s in inr (stay pinst s)
      | None => inl cp_arg
      end
  | _, Some i, _, _, _, _ => exec_store i pinst s
  | _, _, Some c, _, _, _ => let* s := cp_push c s in inr (stay pinst s)
  | _, _, _, Some f, _, _ => let* s := cp_unary f s in inr (stay pinst s)
  | _, _, _, _, Some f, _ => let* s := cp_binary f s in inr (stay pinst s)
  | _, _, _, _, _, Some (first, f) => exec_vararg first f pinst s
  | _, _, _, _, _, _ => exec_special op pinst s
  end.

(** ** [calcPerform]

    The status, the arguments, the result and the seed when it returns. *)

Fixpoint cp_loop (fuel : nat) (pinst : list Z) (s : cp_state) : cp (bool * cp_state) :=
  match fuel with
  | O => inl cp_fuel
  | S fuel =>
      match pinst with
      | [] => inl cp_overread
      | b :: pinst =>
          if b =? opcode_num END_EXPRESSION then inr (true, s) else
          match opcode_of_num b with
          | None => inr (false, s)
          | Some op =>
              let* r := exec op pinst s in
              match r with
              | None => inr (false, s)
              | Some (pinst, s) => cp_loop fuel pinst s
              end
          end
      end
  end.

Definition cp_finish (r : bool * cp_state) : Z * list float * float * Z :=
  let '(ok, s) := r in
  match (ok : bool), cp_stack s with
  | true, [v] => (0, parg s, v, seed s)
  | _, _ => (-1, parg s, presult s, seed s)
  end.

Definition calcPerform (parg : list float) (presult : float) (seed : Z) (pinst : list Z)
    : cp (Z * list float * float * Z) :=
  let* r := cp_loop (S (length pinst)) pinst (mkCp [] parg presult seed) in
  inr (cp_finish r).
End calcPerform.

(** ** [calcArgUsage]

    The bits of [inputs] and [stores], 12 of the 64 of [unsigned long]. *)
Fixpoint calcArgUsage_loop (fuel : nat) (pinst : list Z) (inputs stores : Z) : cp (Z * Z) :=
  match fuel with
  | O => inl cp_fuel
  | S fuel =>
      match pinst with
      | [] => inl cp_overread
      | op :: pinst =>
          if op =? opcode_num END_EXPRESSION then inr (inputs, stores) else
          let* pinst := skip (data_size op) pinst in
          if (opcode_num FETCH_A <=? op) && (op <=? opcode_num FETCH_L) then
            calcArgUsage_loop fuel pinst
              (Z.lor inputs (Z.land (Z.shiftl 1 (op - opcode_num FETCH_A)) (Z.lnot stores))) stores
          else if (opcode_num STORE_A <=? op) && (op <=? opcode_num STORE_L) then
            calcArgUsage_loop fuel pinst inputs
              (Z.lor stores (Z.shiftl 1 (op - opcode_num STORE_A)))
          else calcArgUsage_loop fuel pinst inputs stores
      end
  end.

Definition calcArgUsage (pinst : list Z) : cp (Z * Z) :=
  calcArgUsage_loop (S (length pinst)) pinst 0 0.

(** ** Small evaluations *)

Definition libm0 : libm :=
  let z (_ : float) := 0%float in
  mkLibm (fun _ _ => 0%float) z z z z z z (fun _ _ => 0%float) z z z z z z.

Definition args12 : list float := [1; 2; 3; 4; 5; 6; 7; 8; 9; 10; 11; 12]%float.

Definition calc_str (s : string) : option (cp (Z * list float * float * Z)) :=
  match postfix_str s with
  | postfix_ok code => Some (calcPerform libm0 args12 0%float 0xa3bf code)
  | _ => None
  end.

Definition calc_val (s : string) : option float :=
  match calc_str s with Some (inr (0, _, v, _)) => Some v | _ => None end.

Example calc_examples :
  map calc_val ["A+B*2"; "A-B-C"; "-A+B"; "A?B:C"; "0?B:C"; "MAX(A,L,3.5)"; "A:=B+9;A*A";
                "7%4"; "(A+B)*(C+D)"; "1>2||3>=3"; "5<<2"; "~0"; "NINT(2.5)"; "0xffffffff";
                "FINITE(A,B,INF)"; "A?B?7:8:9"; "1%0=1%0"]%string
  = map Some [5; -4; 1; 2; 3; 12; 121; 3; 21; 1; 20; -1; 3; -1; 0; 7; 0]%float.
Proof. vm_compute. reflexivity. Qed.

Example calc_faults :
  map calc_str ["MAX(0?B,C:D)"; "ATAN2(A)+(B,C)"; "(0-2147483648)%(0-1)"]%string
  = [Some (inl cp_underflow); Some (inl cp_underflow); Some (inl cp_div_trap)].
Proof. vm_compute. reflexivity. Qed.
