(* ===== verification/CalcSafety.v ===== *)
(** * The calculation engine: memory safety of the compiler

    {!postfix} never writes outside an output buffer of the size that
    [postfix.h] recommends, its loop ends, and a short expression does not
    overflow its operator stack. *)

From stdpp Require Import base numbers list option strings.
From Stdlib Require Import ZArith Lia Bool Floats.
From S2P Require Import Prelude CStdlib Strtod EpicsStdlib EpicsString Calc.

(** ** Literals *)

Lemma parse_double_consumes src f rest :
  isspace (deref src) = false -> epicsParseDouble src true = inr (f, rest) ->
  exists d, src = d ++ rest /\ (1 <= length d)%nat /\ (length d = 1%nat -> one_digit f).
Proof.
  intros Sp. unfold epicsParseDouble. rewrite skip_spaces_idem by done.
  destruct (strtod src) as [[[v endp] er]|] eqn:E; [|done].
  destruct er; [by destruct (_ =? _)%float|].
  apply strtod_consumes in E as (d & -> & L & One); [|done].
  assert (G : parse_tail v endp true = inr (f, rest) -> v = f /\ rest = skip_spaces endp).
  { unfold parse_tail. destruct (skip_spaces endp); by intros [= <- <-]. }
  intros [-> ->]%G. destruct (skip_spaces_suffix endp) as [w W].
  exists (d ++ w). rewrite <- app_assoc, <- W. split_and!; [done|llia|].
  intros L1. apply One. llia.
Qed.

Lemma strto_base_suffix base s b s' : strto_base base s = (b, s') -> s' `suffix_of` s.
Proof.
  unfold strto_base. repeat case_match; intros [= <- <-]; try done.
  destruct s as [|x [|y s]]; simpl; [done|apply suffix_nil|].
  by exists [x; y].
Qed.

Lemma parse_uint32_consumes src base u rest :
  epicsParseUInt32 src base true = inr (u, rest) ->
  rest `suffix_of` src /\ (length rest < length src)%nat.
Proof.
  unfold epicsParseUInt32. destruct (epicsParseULong src base true) as [|[v r]] eqn:E; [done|].
  destruct (_ && _); [done|]. intros [= _ <-]. revert E. unfold epicsParseULong.
  destruct (negb _); [done|].
  destruct (strtoul _ base) as [[[v' endp] er]|] eqn:E; [|done].
  destruct er; [done|]. intros T.
  assert (R : r = skip_spaces endp).
  { revert T. unfold parse_tail. destruct (skip_spaces endp); by intros [= <- <-]. }
  subst r. clear T. unfold strtoul in E.
  destruct (strto_scan (skip_spaces src) base) as [[[neg w] q]|] eqn:S; [|done]. cbn in E.
  assert (q = endp) as -> by (repeat case_match; by simplify_eq). clear E.
  unfold strto_scan in S. rewrite (skip_spaces_idem (skip_spaces src)) in S by apply skip_spaces_head.
  destruct (scan_sign (skip_spaces src)) as [ng s1] eqn:S1.
  destruct (strto_base base s1) as [b s2] eqn:S2.
  destruct (scan_digits b 0 0 s2) as [[v2 n] r2] eqn:S3.
  destruct (n =? 0) eqn:N; [done|]. apply Z.eqb_neq in N. injection S as -> -> ->.
  apply scan_digits_consumes in S3 as (d & -> & -> & _).
  apply strto_base_suffix in S2.
  assert (L1 : s1 `suffix_of` skip_spaces src).
  { apply scan_sign_consumes in S1 as [[_ ->]|[c ->]]; [done|by apply suffix_cons_r]. }
  assert (K : d ++ endp `suffix_of` src).
  { do 2 (etrans; [eassumption|]). apply skip_spaces_suffix. }
  split.
  - etrans; [apply skip_spaces_suffix|]. etrans; [|exact K]. by exists d.
  - apply suffix_length_le in K. pose proof (suffix_length_le _ _ (skip_spaces_suffix endp)). llia.
Qed.

Lemma one_digit_integer f : one_digit f -> (f =? Z2F (F2int32 f))%float = true.
Proof.
  intros (v & V & ->).
  set (p := fun v => let f := fst (scale_float false v 10 0) in (f =? Z2F (F2int32 f))%float).
  change (p v = true). apply (proj1 (List.forallb_forall p (seqZ 0 10))).
  - vm_compute. reflexivity.
  - apply list_elem_of_In, elem_of_seqZ. lia.
Qed.

(** ** Elements *)

(** What [get_element] returns. *)
Lemma get_element_some opnd src e rest src' :
  get_element opnd src = (Some (e, rest), src') ->
  src' = skip_spaces src /\ e ∈ (if opnd then operands else operators) /\
  (length rest < length src')%nat /\ is_element src' e = true.
Proof.
  unfold get_element. set (t := if opnd then operands else operators).
  destruct (skip_spaces src) as [|c s] eqn:S; [done|].
  destruct (List.find _ _) as [e'|] eqn:F; [|done]. intros [= -> <- <-].
  apply List.find_some in F as [I M]. rewrite <- List.in_rev, <- list_elem_of_In in I.
  split_and!; [done|done| |done].
  assert (N : (1 <= length (name e))%nat).
  { clear -I. revert e I. subst t. destruct opnd; apply Forall_forall; vm_compute; repeat constructor; lia. }
  rewrite length_drop. simpl. lia.
Qed.

Definition operand_type (t : element_type) : bool :=
  match t with OPERAND | LITERAL_OPERAND | UNARY_OPERATOR | VARARG_OPERATOR => true | _ => false end.

Lemma table_types (opnd : bool) e : e ∈ (if opnd then operands else operators) -> operand_type (type e) = opnd.
Proof. revert e. destruct opnd; apply Forall_forall; vm_compute; repeat constructor. Qed.

(** ** Outcomes of the compiler *)

(** The result satisfies [P], unless an error is reported or the access [u] with
    [ub u] is made. *)
Definition pf_wp {A} (ub : postfix_ub -> Prop) (r : pf A) (P : A -> Prop) : Prop :=
  match r with inr a => P a | inl (pf_bad _) => True | inl (pf_ub u) => ub u end.

Lemma pf_wp_bind {A B} ub (m : pf A) (f : A -> pf B) P :
  pf_wp ub m (fun a => pf_wp ub (f a) P) -> pf_wp ub (ebind m f) P.
Proof. destruct m as [[]|]; done. Qed.

Lemma pf_wp_mono {A} ub (m : pf A) (P Q : A -> Prop) :
  pf_wp ub m P -> (forall a, P a -> Q a) -> pf_wp ub m Q.
Proof. destruct m as [[]|]; simpl; auto. Qed.

Lemma pf_wp_and {A} ub (m : pf A) (P Q : A -> Prop) :
  pf_wp ub m P -> pf_wp ub m Q -> pf_wp ub m (fun a => P a /\ Q a).
Proof. destruct m as [[]|]; simpl; auto. Qed.

Lemma pf_wp_any {A} (m : pf A) : pf_wp (fun _ => True) m (fun _ => True).
Proof. by destruct m as [[]|]. Qed.

(** Bytes an operator of the stack will put out. *)
Definition cost (e : ELEMENT) : Z := if decide (type e = VARARG_OPERATOR) then 2 else 1.
Fixpoint costs (st : list ELEMENT) : Z :=
  match st with [] => 0 | e :: st => cost e + costs st end.

Lemma cost_range e : 1 <= cost e <= 2.
Proof. unfold cost. case_decide; lia. Qed.
Lemma costs_nonneg st : 0 <= costs st.
Proof. induction st as [|e st IH]; simpl; [lia|]. pose proof (cost_range e). lia. Qed.

Section safety.
Context (cap : nat) (N : Z).
Hypothesis cap_enough : 7 * N + 6 <= 2 * Z.of_nat cap.

(** What may go wrong: the unset element of the stack is read, or a long
    expression overflows the stack. *)
Definition allowed_ub (u : postfix_ub) : Prop :=
  match u with ub_stack_unset => True | ub_stack_overflow => 79 < N | _ => False end.
Local Notation wp := (pf_wp allowed_ub).

Lemma emit_wp b out P : zlen out < Z.of_nat cap -> (forall b, P (b :: out)) -> wp (emit cap b out) P.
Proof. intros L H. unfold emit. case_decide; [apply H|lia]. Qed.

Lemma emit_bytes_wp bs : forall out (P : list Z -> Prop),
  zlen out + zlen bs <= Z.of_nat cap ->
  (forall out', zlen out' = zlen out + zlen bs -> P out') -> wp (emit_bytes cap bs out) P.
Proof.
  induction bs as [|b bs IH]; intros out P L H; cbn [emit_bytes]; [apply H; simpl; lia|].
  simpl in L. apply pf_wp_bind, emit_wp; [lia|]. intros b'. apply IH; [simpl; lia|].
  intros out' L'. apply H. simpl in *. lia.
Qed.

Lemma move_op_wp e out d P :
  zlen out + cost e <= Z.of_nat cap ->
  (forall out', zlen out' = zlen out + cost e -> P (out', d + runtime_effect e)) ->
  wp (move_op cap e (out, d)) P.
Proof.
  unfold cost. intros L H. unfold move_op. apply pf_wp_bind, emit_wp; [case_decide; lia|].
  intros b. case_decide.
  - apply pf_wp_bind, emit_wp; [simpl; lia|]. intros b'. apply H. simpl. lia.
  - apply H. simpl. lia.
Qed.

Lemma move_while_wp p st : forall out d (P : list ELEMENT * (list Z * Z) -> Prop),
  zlen out + costs st <= Z.of_nat cap ->
  (forall st' out' d', zlen out' + costs st' = zlen out + costs st -> (length st' <= length st)%nat ->
    P (st', (out', d'))) ->
  wp (move_while cap p st (out, d)) P.
Proof.
  induction st as [|e st IH]; intros out d P L H; cbn [move_while]; [by apply H|].
  simpl in L. pose proof (costs_nonneg st).
  destruct (p e); [|by apply H].
  apply pf_wp_bind, move_op_wp; [lia|]. intros out' O. apply IH; [lia|].
  intros st' out'' d' E Le. apply H; simpl; lia.
Qed.

Lemma move_to_paren_wp error st : forall out d (P : list ELEMENT * (list Z * Z) -> Prop),
  zlen out + costs st <= Z.of_nat cap ->
  (forall e st' out' d', zlen out' + costs (e :: st') = zlen out + costs st ->
    (S (length st') <= length st)%nat -> P (e :: st', (out', d'))) ->
  wp (move_to_paren cap error st (out, d)) P.
Proof.
  induction st as [|e st IH]; intros out d P L H; cbn [move_to_paren]; [done|].
  simpl in L. pose proof (costs_nonneg st).
  destruct (is_open e); [by apply H|].
  destruct st as [|e' st]; [done|].
  apply pf_wp_bind, move_op_wp; [lia|]. intros out' O. apply IH; [lia|].
  intros e0 st' out'' d' E Le. apply H; simpl in *; lia.
Qed.

Lemma move_all_wp st : forall out d (P : list Z * Z -> Prop),
  zlen out + costs st <= Z.of_nat cap ->
  (forall out' d', zlen out' = zlen out + costs st -> P (out', d')) ->
  wp (move_all cap st (out, d)) P.
Proof.
  induction st as [|e st IH]; intros out d P L H; cbn [move_all]; [apply H; simpl; lia|].
  simpl in L. pose proof (costs_nonneg st).
  destruct (is_open e); [done|].
  apply pf_wp_bind, move_op_wp; [lia|]. intros out' O. apply IH; [lia|].
  intros out'' d' E. apply H; simpl; lia.
Qed.

Lemma push_wp e st (P : list ELEMENT -> Prop) : zlen st < N -> P (e :: st) -> wp (push e st) P.
Proof. intros L H. unfold push. case_decide; [done|]. simpl. unfold OPERATOR_STACK in *. lia. Qed.

(** ** The invariant

    Every character read pays for 3.5 bytes: a literal may leave a debt of four
    half bytes, which the operator after it settles, and a [?] pays ahead for its
    [:]. *)
Definition budget (s : pf_state) : Prop :=
  0 <= cond_count s /\
  2 * (zlen (pout s) + costs (pstack s)) + 7 * zlen (psrc s) + cond_count s
    <= 7 * N + (if operand_needed s then 0 else 4) /\
  zlen (pstack s) + zlen (psrc s) <= N.

Lemma cost_set_effect e n : cost (set_runtime_effect e n) = cost e.
Proof. reflexivity. Qed.
Lemma cost_set_code e op : cost (set_code e op) = cost e.
Proof. reflexivity. Qed.

(** Close a goal about the budget of the next state. *)
Ltac budget_lia :=
  unfold budget in *; simpl in *; rewrite ?cost_set_effect, ?cost_set_code in *; lens; lia.

Ltac wp_steps :=
  repeat lazymatch goal with
  | |- pf_wp _ (ebind _ _) _ => apply pf_wp_bind
  | |- pf_wp _ (emit _ _ _) _ => apply emit_wp; [|intros ?]
  | |- pf_wp _ (emit_bytes _ _ _) _ => apply emit_bytes_wp; [|intros ? ?]
  | |- pf_wp _ (move_while _ _ _ _) _ => apply move_while_wp; [|intros st' out' d' HE HL]
  | |- pf_wp _ (move_to_paren _ _ _ _) _ => apply move_to_paren_wp; [|intros p' st' out' d' HE HL]
  | |- pf_wp _ (move_all _ _ _) _ => apply move_all_wp; [|intros out' d' HE]
  | |- pf_wp _ (push _ _) _ => apply push_wp
  end.

Lemma do_literal_budget e src s :
  budget (set_psrc s src) -> isspace (deref src) = false -> operand_needed s = true ->
  (length (psrc s) < length src)%nat ->
  wp (do_literal cap e src s) (fun s' => budget s' /\ (length (psrc s') < length src)%nat).
Proof.
  intros B Sp On L. unfold do_literal. case_decide as C.
  - destruct (epicsParseDouble src true) as [|[f next]] eqn:E; [done|].
    apply parse_double_consumes in E as (d & -> & Ld & One); [|done].
    pose proof (costs_nonneg (pstack s)).
    unfold budget in B. simpl in B. rewrite On in B. lens.
    destruct (negb _) eqn:I; wp_steps; unfold double_bytes in *; simpl in *; lens; try lia.
    + assert (length d <> 1%nat).
      { intros One'. apply One, one_digit_integer in One'. by rewrite One' in I. }
      lia.
    + assert (length d <> 1%nat).
      { intros One'. apply One, one_digit_integer in One'. by rewrite One' in I. }
      split; [budget_lia|lia].
    + split; [budget_lia|lia].
  - destruct (epicsParseUInt32 src 0 true) as [|[f next]] eqn:E; [done|].
    apply parse_uint32_consumes in E as [_ E]. pose proof (costs_nonneg (pstack s)).
    unfold budget in B. simpl in B. rewrite On in B.
    wp_steps; simpl in *; lens; try lia. split; [budget_lia|lia].
Qed.

(** Every other element takes at least one character. *)
Definition room (s : pf_state) : Prop :=
  0 <= cond_count s /\
  2 * (zlen (pout s) + costs (pstack s)) + 7 * zlen (psrc s) + cond_count s + 7
    <= 7 * N + (if operand_needed s then 0 else 4) /\
  zlen (pstack s) + zlen (psrc s) + 1 <= N.

Lemma operator_budget e (n : nat) s :
  room s -> operand_needed s = true \/ cost e = 1 -> (length (psrc s) < n)%nat ->
  wp (do_operator cap e true s) (fun s' => budget s' /\ (length (psrc s') < n)%nat).
Proof.
  intros (C & B & D) Sp L. unfold do_operator.
  pose proof (costs_nonneg (pstack s)). pose proof (cost_range e).
  assert (2 * (zlen (pout s) + costs (pstack s)) + 7 * zlen (psrc s) + 2 * cost e + cond_count s <= 7 * N - 1)
    by (destruct (operand_needed s), Sp; lia || done).
  wp_steps; [lia|lia|]. split; [budget_lia|done].
Qed.

Lemma do_element_budget e src s :
  budget (set_psrc s src) -> isspace (deref src) = false ->
  (length (psrc s) < length src)%nat -> operand_type (type e) = operand_needed s ->
  wp (do_element cap e src s) (fun s' => budget s' /\ (length (psrc s') < length src)%nat).
Proof.
  intros B Sp L T.
  assert (R : room s) by (unfold room; budget_lia).
  pose proof (costs_nonneg (pstack s)) as C0.
  unfold do_element.
  destruct (type e) eqn:Ty; simpl in T;
    [| apply do_literal_budget; auto | | | | | | | |];
    assert (R' := R); destruct s as [p out st on d cc]; simpl in *; subst on;
    unfold room in R; simpl in R.
  - unfold do_operand. wp_steps; simpl; [lia|]. split; [budget_lia|done].
  - unfold do_store. simpl. destruct out as [|b out]; [done|]. destruct st; [|done].
    destruct (_ || _); [done|]. destruct (opcode_of_num _); [|done].
    wp_steps; simpl in *; [lia|]. split; [|done].
    unfold budget; simpl. unfold cost. simpl. rewrite Ty. simpl in *. lia.
  - apply operator_budget; [done|by left|done].
  - apply operator_budget; [done|by left|done].
  - apply operator_budget; [done|right; unfold cost; by rewrite Ty|done].
  - unfold do_separator. wp_steps; simpl in *; [lia|]. split; [budget_lia|done].
  - unfold do_close_paren. wp_steps; simpl in *; [lia|].
    pose proof (cost_range p'). destruct st' as [|v st']; [split; [budget_lia|done]|].
    case_decide; [case_match; [done|]|]; (split; [budget_lia|done]).
  - unfold do_conditional. wp_steps; simpl in *; [lia|pose proof (costs_nonneg st'); lia|].
    destruct (_ =? 58).
    + case_match eqn:CC; [done|]. apply Z.ltb_ge in CC.
      assert (K : cost (set_runtime_effect (set_code e COND_END) 0) = 1)
        by (unfold cost; simpl; by rewrite Ty).
      wp_steps; [lia|]. split; [|done]. unfold budget. cbn. rewrite K. lia.
    + split; [budget_lia|done].
  - unfold do_terminator. wp_steps; simpl in *; [lia|].
    destruct (negb _) eqn:Z0; [done|]. case_match; [done|].
    split; [|done]. apply negb_false_iff, Z.eqb_eq in Z0. budget_lia.
Qed.

Lemma step_budget s :
  budget s -> wp (postfix_step cap s)
    (fun r => match r with
              | inl s' => budget s' /\ (length (psrc s') < length (psrc s))%nat
              | inr s' => budget s'
              end).
Proof.
  intros B. unfold postfix_step.
  destruct (get_element (operand_needed s) (psrc s)) as [[[e rest]|] src'] eqn:G.
  - apply get_element_some in G as (-> & T & L & _). apply table_types in T.
    pose proof (suffix_length_le _ _ (skip_spaces_suffix (psrc s))).
    assert (B' : budget (set_psrc (set_psrc s rest) (skip_spaces (psrc s)))) by budget_lia.
    apply pf_wp_bind.
    eapply pf_wp_mono; [apply (do_element_budget e _ (set_psrc s rest) B'); auto using skip_spaces_head|].
    intros s' [Bs Ls]. unfold check_depth.
    destruct (_ <? 0); [done|]. destruct (_ <=? _); [done|]. simpl. split; [done|lia].
  - simpl. assert (src' = skip_spaces (psrc s)) as ->.
    { revert G. unfold get_element. destruct (skip_spaces (psrc s)); [by intros [= <-]|].
      destruct (List.find _ _); [done|]. by intros [= <-]. }
    pose proof (suffix_length_le _ _ (skip_spaces_suffix (psrc s))). budget_lia.
Qed.

Lemma loop_budget fuel : forall s,
  budget s -> (length (psrc s) < fuel)%nat -> wp (postfix_loop cap fuel s) budget.
Proof.
  induction fuel as [|fuel IH]; intros s B L; [lia|]. cbn [postfix_loop].
  apply pf_wp_bind. eapply pf_wp_mono; [by apply step_budget|].
  intros [s'|s']; [|done]. intros [B' L']. apply IH; [done|lia].
Qed.

Lemma end_budget s :
  budget s -> wp (postfix_end cap s) (fun code => zlen code <= Z.of_nat cap).
Proof.
  intros B. unfold postfix_end. destruct (psrc s) as [|c p] eqn:P; [|done].
  assert (2 * (zlen (pout s) + costs (pstack s)) <= 7 * N + 4)
    by (unfold budget in B; rewrite P in B; simpl in B; destruct (operand_needed s); lia).
  wp_steps; [lia|lia|]. destruct (negb _); [done|]. destruct (_ || _); [done|].
  simpl. lens. lia.
Qed.
End safety.

(** With a buffer of the recommended size. *)
Lemma postfix_run_safe (src : list Z) : let cap := Z.to_nat (INFIX_TO_POSTFIX_SIZE (zlen src + 1)) in
  pf_wp (allowed_ub (zlen src)) (postfix_run cap src) (fun code => zlen code <= Z.of_nat cap).
Proof.
  intros cap. assert (C : 7 * zlen src + 6 <= 2 * Z.of_nat cap).
  { subst cap. unfold INFIX_TO_POSTFIX_SIZE.
    pose proof (Z.div_mod ((zlen src + 1) * 21) 6). pose proof (Z.mod_pos_bound ((zlen src + 1) * 21) 6).
    rewrite Z2Nat.id; lia. }
  unfold postfix_run. apply pf_wp_bind, emit_wp; [simpl; lia|]. intros _.
  destruct src as [|c src]; [done|]. apply pf_wp_bind.
  eapply pf_wp_mono; [apply loop_budget; [done| |simpl; lia]|].
  - unfold budget. simpl. lia.
  - intros s. by apply end_budget.
Qed.
