(* ===== verification/CalcParens.v ===== *)
(** * The calculation engine: parentheses

    The compiler reads the name of the element at the bottom of its operator stack, which nothing
    ever sets, when it meets a comma or a closing parenthesis and no operator is on the stack.  It does not in a string whose commas and closing
    parentheses are inside of parentheses; with [CalcSafety], the memory safety of the compiler. *)

From stdpp Require Import base numbers list option strings.
From Stdlib Require Import ZArith Lia Bool Floats.
From S2P Require Import Prelude CStdlib Strtod EpicsStdlib EpicsString Calc CalcSafety.

(** ** Parentheses of a string *)

(** Every comma and closing parenthesis is inside of parentheses, of which [d] are open before the string. *)
Fixpoint nested (d : nat) (s : list Z) : bool :=
  match s with
  | [] => true
  | c :: s =>
      if c =? 40 then nested (S d) s
      else if c =? 41 then match d with O => false | S d => nested d s end
      else if c =? 44 then match d with O => false | S _ => nested d s end
      else nested d s
  end.

Definition quiet (c : Z) : Prop := c <> 40 /\ c <> 41 /\ c <> 44.

(** What is read between [s] and [r] neither opens nor closes. *)
Definition neutral (s r : list Z) : Prop := forall d, nested d s = nested d r.

Lemma neutral_refl s : neutral s s.
Proof. done. Qed.
Lemma neutral_trans s r q : neutral s r -> neutral r q -> neutral s q.
Proof. intros H1 H2 d. by rewrite H1. Qed.
Lemma neutral_cons c s : quiet c -> neutral (c :: s) s.
Proof.
  intros (H1 & H2 & H3) d. simpl. by rewrite (proj2 (Z.eqb_neq _ _) H1), (proj2 (Z.eqb_neq _ _) H2), (proj2 (Z.eqb_neq _ _) H3).
Qed.
Lemma neutral_app l s : Forall quiet l -> neutral (l ++ s) s.
Proof. induction 1 as [|c l H _ IH]; [apply neutral_refl|]. eapply neutral_trans; [by apply neutral_cons|done]. Qed.

(** ** Numbers *)

Lemma skip_spaces_neutral s : neutral s (skip_spaces s).
Proof.
  induction s as [|c s IH]; [apply neutral_refl|]. simpl. destruct (isspace c) eqn:E; [|apply neutral_refl].
  eapply neutral_trans; [apply neutral_cons|exact IH]. unfold isspace in E. unfold quiet.
  apply orb_true_iff in E as [E%Z.eqb_eq|[L%Z.leb_le U%Z.leb_le]%andb_true_iff]; lia.
Qed.

Lemma digit_quiet base c k : digit_in base c = Some k -> quiet c.
Proof.
  unfold digit_in, digit_value, isdigit, isupper, islower, quiet. zbool; simpl; try discriminate; intros _; lia.
Qed.

Lemma scan_digits_neutral base s : forall acc n v k r, scan_digits base acc n s = (v, k, r) -> neutral s r.
Proof.
  induction s as [|c s IH]; intros acc n v k r E; simpl in E; [injection E as _ _ <-; apply neutral_refl|].
  destruct (digit_in base c) eqn:D; [|injection E as _ _ <-; apply neutral_refl].
  eapply neutral_trans; [by eapply neutral_cons, digit_quiet|by eapply IH].
Qed.

Lemma tail_neutral s c : deref s = c -> c <> 0 -> quiet c -> neutral s (tail s).
Proof. intros E N Q. destruct s as [|x s]; simpl in *; [congruence|]. subst x. by apply neutral_cons. Qed.

Lemma scan_sign_neutral s ng r : scan_sign s = (ng, r) -> neutral s r.
Proof.
  unfold scan_sign. destruct (Z.eqb_spec (deref s) 45) as [E|_]; [|destruct (Z.eqb_spec (deref s) 43) as [E|_]];
    intros [= _ <-]; [by eapply tail_neutral; [exact E|..]|by eapply tail_neutral; [exact E|..]|apply neutral_refl].
Qed.

Lemma is_x_quiet c : is_x c = true -> c <> 0 /\ quiet c.
Proof. unfold is_x, quiet. intros [E%Z.eqb_eq|E%Z.eqb_eq]%orb_true_iff; lia. Qed.

(** [0x] *)
Lemma prefix_neutral s : deref s = 48 -> is_x (deref (tail s)) = true -> neutral s (tail (tail s)).
Proof.
  intros E X. eapply neutral_trans; [by eapply tail_neutral; [exact E|..]|]. destruct (is_x_quiet _ X) as [N Q].
  by eapply tail_neutral.
Qed.

Lemma strto_base_neutral base s b r : strto_base base s = (b, r) -> neutral s r.
Proof.
  unfold strto_base. destruct (Z.eqb_spec (deref s) 48) as [E|_]; [|intros [= _ <-]; apply neutral_refl].
  destruct (_ && _ && _) eqn:X; intros [= _ <-]; [|apply neutral_refl].
  apply andb_true_iff in X as [[_ X]%andb_true_iff _]. by apply prefix_neutral.
Qed.

Lemma strto_scan_neutral s base ng v r : strto_scan s base = Some (ng, v, r) -> neutral s r.
Proof.
  unfold strto_scan. destruct (scan_sign _) as [n s1] eqn:E1. destruct (strto_base _ _) as [b s2] eqn:E2.
  destruct (scan_digits _ _ _ _) as [[w k] s3] eqn:E3. destruct (k =? 0); [done|]. intros [= _ _ <-].
  eapply neutral_trans; [apply skip_spaces_neutral|]. eapply neutral_trans; [by eapply scan_sign_neutral|].
  eapply neutral_trans; [by eapply strto_base_neutral|]. by eapply scan_digits_neutral.
Qed.

Lemma match_word_neutral w : forall s r, Forall (fun c => 65 <= c <= 90) w -> match_word w s = Some r -> neutral s r.
Proof.
  induction w as [|c w IH]; intros s r F E; simpl in E.
  - destruct s; injection E as <-; apply neutral_refl.
  - destruct s as [|x s]; [done|]. destruct (Z.eqb_spec (toupper x) c) as [X|]; [|done]. apply Forall_cons in F as [Hc F].
    eapply neutral_trans; [apply neutral_cons|by eapply IH]. revert X. unfold toupper, islower, quiet. zbool; simpl; lia.
Qed.

(** The characters of [nan(...)], after the opening parenthesis. *)
Lemma nan_chars_nested s : forall r d, nan_chars s = Some r -> nested (S d) s = nested d r.
Proof.
  induction s as [|c s IH]; intros r d E; simpl in E; [done|]. destruct (Z.eqb_spec c 41) as [->|N]; [by injection E as <-|].
  destruct (isalnum c || (c =? 95)) eqn:A; [|done]. rewrite (neutral_cons c s), (IH r d E); [done|].
  revert A. unfold isalnum, isalpha, isdigit, isupper, islower, quiet. zbool; simpl; try discriminate; intros _; lia.
Qed.

Lemma scan_nan_neutral s : neutral s (scan_nan_tail s).
Proof.
  unfold scan_nan_tail. destruct s as [|c s]; [apply neutral_refl|]. simpl. destruct (Z.eqb_spec c 40) as [->|]; [|apply neutral_refl].
  destruct (nan_chars s) as [r|] eqn:E; [|apply neutral_refl]. intros d. cbn [default nested]. simpl. by apply nan_chars_nested.
Qed.

Lemma scan_exponent_neutral letter s e r : (forall c, letter c = true -> quiet c) -> scan_exponent letter s = (e, r) -> neutral s r.
Proof.
  intros L. unfold scan_exponent. destruct s as [|c s]; [intros [= _ <-]; apply neutral_refl|].
  destruct (letter c) eqn:Lc; [|intros [= _ <-]; apply neutral_refl]. destruct (scan_sign s) as [ng s1] eqn:E1.
  destruct (scan_digits 10 0 0 s1) as [[v n] s2] eqn:E2. destruct (n =? 0); intros [= _ <-]; [apply neutral_refl|].
  eapply neutral_trans; [by apply neutral_cons, L|]. eapply neutral_trans; [by eapply scan_sign_neutral|by eapply scan_digits_neutral].
Qed.

Lemma scan_mantissa_neutral base s v k r : scan_mantissa base s = Some (v, k, r) -> neutral s r.
Proof.
  unfold scan_mantissa. destruct (scan_digits base 0 0 s) as [[w n] s1] eqn:E1.
  pose proof (scan_digits_neutral _ _ _ _ _ _ _ E1) as N1. destruct (Z.eqb_spec (deref s1) 46) as [D|].
  - destruct (scan_digits base w 0 (tail s1)) as [[w2 n2] s2] eqn:E2. destruct (n + n2 =? 0); [done|]. intros [= _ _ <-].
    eapply neutral_trans; [exact N1|]. eapply neutral_trans; [by eapply tail_neutral; [exact D|..]|by eapply scan_digits_neutral].
  - destruct (n =? 0); [done|]. by intros [= _ _ <-].
Qed.

Lemma letter_quiet c w : 65 <= w <= 90 -> toupper c = w -> quiet c.
Proof. unfold toupper, islower, quiet. zbool; simpl; lia. Qed.

Lemma strtod_decimal_neutral ng s f r er : strtod_decimal ng s = Some (f, r, er) -> neutral s r.
Proof.
  unfold strtod_decimal. destruct (scan_mantissa 10 s) as [[[v k] s1]|] eqn:E1; [|done]. simpl.
  destruct (scan_exponent is_e s1) as [e s2] eqn:E2. destruct (scale_float _ _ _ _). intros [= _ <- _].
  eapply neutral_trans; [by eapply scan_mantissa_neutral|]. eapply scan_exponent_neutral; [|exact E2].
  intros c E%Z.eqb_eq. by apply (letter_quiet c 69).
Qed.

Lemma strtod_hex_neutral ng s f r er : strtod_hex ng s = Some (f, r, er) -> neutral s r.
Proof.
  unfold strtod_hex. destruct (scan_mantissa 16 s) as [[[v k] s1]|] eqn:E1; [|done]. simpl.
  destruct (scan_exponent is_p s1) as [e s2] eqn:E2. destruct (scale_float _ _ _ _). intros [= _ <- _].
  eapply neutral_trans; [by eapply scan_mantissa_neutral|]. eapply scan_exponent_neutral; [|exact E2].
  intros c E%Z.eqb_eq. by apply (letter_quiet c 80).
Qed.

Lemma strtod_neutral s f r er : strtod s = Some (f, r, er) -> neutral s r.
Proof.
  unfold strtod. destruct (scan_sign (skip_spaces s)) as [ng s1] eqn:E1. intros E.
  eapply neutral_trans; [apply skip_spaces_neutral|]. eapply neutral_trans; [by eapply scan_sign_neutral|]. revert E.
  destruct (match_word (cs "INFINITY") s1) eqn:M1; [intros [= _ <- _]; eapply match_word_neutral; [|exact M1]; repeat constructor; done|].
  destruct (match_word (cs "INF") s1) eqn:M2; [intros [= _ <- _]; eapply match_word_neutral; [|exact M2]; repeat constructor; done|].
  destruct (match_word (cs "NAN") s1) eqn:M3.
  { intros [= _ <- _]. eapply neutral_trans; [eapply match_word_neutral; [|exact M3]; repeat constructor; done|apply scan_nan_neutral]. }
  destruct (_ && _) eqn:X; [|apply strtod_decimal_neutral]. apply andb_true_iff in X as [X0%Z.eqb_eq X].
  destruct (strtod_hex ng _) as [[[g r'] er']|] eqn:H; [|apply strtod_decimal_neutral]. intros [= _ <- _].
  eapply neutral_trans; [by apply prefix_neutral|by eapply strtod_hex_neutral].
Qed.

Lemma parse_tail_neutral {A} (v w : A) e r : parse_tail v e true = inr (w, r) -> neutral e r.
Proof. pose proof (skip_spaces_neutral e) as N. unfold parse_tail. by destruct (skip_spaces e); intros [= _ <-]. Qed.

Lemma parse_double_neutral s f r : epicsParseDouble s true = inr (f, r) -> neutral s r.
Proof.
  unfold epicsParseDouble. destruct (strtod (skip_spaces s)) as [[[v e] er]|] eqn:E; [|done].
  destruct er; [by destruct (_ =? _)%float|]. intros T. eapply neutral_trans; [apply skip_spaces_neutral|].
  eapply neutral_trans; [by eapply strtod_neutral|by eapply parse_tail_neutral].
Qed.

Lemma parse_uint32_neutral s base u r : epicsParseUInt32 s base true = inr (u, r) -> neutral s r.
Proof.
  unfold epicsParseUInt32. destruct (epicsParseULong s base true) as [|[v q]] eqn:E; [done|].
  destruct (_ && _); [done|]. intros [= _ <-]. revert E. unfold epicsParseULong. destruct (negb _); [done|].
  unfold strtoul. destruct (strto_scan (skip_spaces s) base) as [[[ng w] e]|] eqn:S; [|done]. simpl.
  intros T. eapply neutral_trans; [apply skip_spaces_neutral|]. eapply neutral_trans; [by eapply strto_scan_neutral|].
  revert T. destruct (ULONG_MAX <? w); [done|]. apply parse_tail_neutral.
Qed.

(** ** Elements *)

Definition other_name (l : list Z) : bool := forallb (fun c => negb ((c =? 40) || (c =? 41) || (c =? 44) || islower c)) l.

(** What the compiler needs to know of an element of the tables. *)
Definition paren_facts (e : ELEMENT) : bool :=
  if bool_decide (name e = [40] /\ type e = UNARY_OPERATOR) then (in_stack_pri e =? 0) && (0 <? in_coming_pri e)
  else if bool_decide (name e = [41] /\ type e = CLOSE_PAREN) then true
  else if bool_decide (name e = [44] /\ type e = SEPERATOR) then true
  else other_name (name e) &&
    match type e with
    | UNARY_OPERATOR | VARARG_OPERATOR | BINARY_OPERATOR => 0 <? in_coming_pri e
    | CONDITIONAL => 0 <=? in_coming_pri e
    | CLOSE_PAREN | SEPERATOR => false
    | _ => true
    end.

Lemma tables_parens (opnd : bool) e : e ∈ (if opnd then operands else operators) -> paren_facts e = true.
Proof.
  intros I. assert (F : forallb paren_facts (if opnd then operands else operators) = true) by (by destruct opnd; vm_compute).
  rewrite forallb_forall in F. apply F. by apply list_elem_of_In.
Qed.

(** What an element of the tables is: a parenthesis, a comma, or an element of another name. *)
Lemma element_kinds (opnd : bool) e : e ∈ (if opnd then operands else operators) ->
  (name e = [40] /\ type e = UNARY_OPERATOR /\ in_stack_pri e = 0 /\ 0 < in_coming_pri e) \/
  (name e = [41] /\ type e = CLOSE_PAREN) \/ (name e = [44] /\ type e = SEPERATOR) \/
  (other_name (name e) = true /\ match type e with
     | UNARY_OPERATOR | VARARG_OPERATOR | BINARY_OPERATOR => 0 < in_coming_pri e
     | CONDITIONAL => 0 <= in_coming_pri e
     | CLOSE_PAREN | SEPERATOR => False
     | _ => True
     end).
Proof.
  intros I. pose proof (tables_parens opnd e I) as F. unfold paren_facts, other_name in *. 
  case_bool_decide as E1; [left|case_bool_decide as E2; [right; left; tauto|case_bool_decide as E3; [right; right; left; tauto|]]].
  - apply andb_true_iff in F as [F1%Z.eqb_eq F2%Z.ltb_lt]. tauto.
  - do 3 right. apply andb_true_iff in F as [F1 F2]. split; [done|]. destruct (type e); try done; by (apply Z.ltb_lt in F2 || apply Z.leb_le in F2).
Qed.

Lemma element_match w : forall s, epicsStrnCaseCmp s w (length w) = 0 ->
  Forall2 (fun c n => toupper c = toupper n) (take (length w) s) w.
Proof.
  induction w as [|n w IH]; intros s H; [destruct s; constructor|]. destruct s as [|c s]; simpl in *; [done|].
  destruct (Z.ltb_spec (toupper c) (toupper n)); [done|]. destruct (Z.ltb_spec (toupper n) (toupper c)); [done|].
  constructor; [lia|]. by apply IH.
Qed.

(** An element of another name than a parenthesis or a comma. *)
Lemma element_neutral e s : is_element s e = true ->
  other_name (name e) = true -> neutral s (drop (length (name e)) s).
Proof.
  intros M%Z.eqb_eq%element_match Q. rewrite <- (take_drop (length (name e)) s) at 1. apply neutral_app.
  unfold other_name in Q. rewrite forallb_forall in Q. revert M. generalize (take (length (name e)) s). intros l M.
  assert (F : Forall (fun n => n <> 40 /\ n <> 41 /\ n <> 44 /\ islower n = false) (name e)).
  { apply Forall_forall. intros n Hn. apply list_elem_of_In, Q in Hn. revert Hn. zbool; simpl; try discriminate.
    destruct (islower n); [discriminate|done]. }
  clear Q. induction M as [|c n l w E M IH]; [constructor|]. apply Forall_cons in F as [(F1 & F2 & F3 & F4) F]. constructor; [|auto].
  revert E. unfold toupper at 2. rewrite F4. unfold toupper. unfold islower in *. unfold quiet. zbool; simpl in *; try discriminate; lia.
Qed.

Lemma get_element_rest opnd src e rest src' : get_element opnd src = (Some (e, rest), src') -> rest = drop (length (name e)) src'.
Proof.
  unfold get_element. destruct (skip_spaces src) as [|c s]; [done|]. destruct (List.find _ _); [|done]. by intros [= -> <- <-].
Qed.

(** The character of a parenthesis or comma. *)
Lemma element_char e s c : is_element s e = true -> name e = [c] -> c = 40 \/ c = 41 \/ c = 44 ->
  s = c :: drop (length (name e)) s.
Proof.
  unfold is_element. intros M%Z.eqb_eq%element_match N C. rewrite N in *. simpl in *.
  destruct s as [|x s]; [by apply Forall2_length in M|]. apply Forall2_cons in M as [E _]. f_equal. revert E.
  unfold toupper, islower. zbool; simpl; lia.
Qed.

(** ** The operator stack *)

Definition opens (st : list ELEMENT) : nat := length (List.filter is_open st).
Lemma opens_cons e st : opens (e :: st) = ((if is_open e then 1 else 0) + opens st)%nat.
Proof. unfold opens. cbn [List.filter]. by destruct (is_open e). Qed.
Definition low_opens (st : list ELEMENT) : Prop := Forall (fun e => is_open e = true -> in_stack_pri e = 0) st.

Definition no_unset (u : postfix_ub) : Prop := u <> ub_stack_unset.
Local Notation wp := (pf_wp no_unset).

(** The open parentheses of the stack are those of the string before. *)
Definition level (s : pf_state) : Prop := low_opens (pstack s) /\ nested (opens (pstack s)) (psrc s) = true.

Section Level.
Context (cap : nat).

Lemma emit_set b out P : (forall o, P o) -> wp (emit cap b out) P.
Proof. intros H. unfold emit. case_decide; [apply H|discriminate]. Qed.

Lemma emit_bytes_set bs : forall out P, (forall o, P o) -> wp (emit_bytes cap bs out) P.
Proof. induction bs as [|b bs IH]; intros out P H; simpl; [apply H|]. apply pf_wp_bind, emit_set. intros o. by apply IH. Qed.

Lemma move_op_set e od P : (forall o, P o) -> wp (move_op cap e od) P.
Proof.
  intros H. destruct od as [out d]. unfold move_op. apply pf_wp_bind, emit_set. intros o.
  case_decide; [|apply H]. apply pf_wp_bind, emit_set. intros o'. apply H.
Qed.

Lemma move_while_set p st : forall od (P : list ELEMENT * (list Z * Z) -> Prop),
  Forall (fun e => p e = true -> is_open e = false) st ->
  (forall st' od', opens st' = opens st -> (low_opens st -> low_opens st') -> P (st', od')) -> wp (move_while cap p st od) P.
Proof.
  induction st as [|e st IH]; intros od P F H; simpl; [by apply H|]. apply Forall_cons in F as [Fe F].
  destruct (p e); [|by apply H]. apply pf_wp_bind, move_op_set. intros o. apply IH; [done|]. intros st' od' E L.
  apply H; [|by intros [_ ?]%Forall_cons; apply L]. by rewrite E, opens_cons, (Fe eq_refl).
Qed.

Lemma move_to_paren_set er st : forall od (P : list ELEMENT * (list Z * Z) -> Prop), (0 < opens st)%nat ->
  (forall e st' od', opens (e :: st') = opens st -> is_open e = true -> (low_opens st -> low_opens (e :: st')) -> P (e :: st', od')) ->
  wp (move_to_paren cap er st od) P.
Proof.
  induction st as [|e st IH]; intros od P O H; [unfold opens in O; simpl in O; lia|]. cbn [move_to_paren].
  destruct (is_open e) eqn:Oe; [by apply H|]. destruct st as [|e' st]; [done|]. rewrite opens_cons, Oe in O, H.
  apply pf_wp_bind, move_op_set. intros o. apply IH; [done|]. intros e0 st' od' E E0 L. apply H; [done|done|].
  intros [_ ?]%Forall_cons. by apply L.
Qed.

Lemma move_all_set st : forall od (P : list Z * Z -> Prop), (opens st = 0%nat -> forall o, P o) -> wp (move_all cap st od) P.
Proof.
  induction st as [|e st IH]; intros od P H; simpl; [by apply H|]. destruct (is_open e) eqn:Oe; [done|].
  apply pf_wp_bind, move_op_set. intros o. apply IH. intros E. apply H. by rewrite opens_cons, Oe.
Qed.

Lemma push_set e st (P : list ELEMENT -> Prop) : P (e :: st) -> wp (push e st) P.
Proof. intros H. unfold push. case_decide; [exact H|discriminate]. Qed.

(** ** One element *)

Lemma operator_set e needed s : low_opens (pstack s) -> 0 < in_coming_pri e -> (is_open e = true -> in_stack_pri e = 0) ->
  nested (opens (e :: pstack s)) (psrc s) = true -> wp (do_operator cap e needed s) level.
Proof.
  intros L I Oe N. unfold do_operator. apply pf_wp_bind, move_while_set.
  { eapply Forall_impl; [exact L|]. intros x Hx P. destruct (is_open x) eqn:X; [|done]. rewrite (Hx X) in P. apply Z.leb_le in P. lia. }
  intros st od E L'. destruct od as [out d]. apply pf_wp_bind, push_set. split; cbn [pstack psrc]; [constructor; [done|by apply L']|].
  by rewrite opens_cons, E, <- opens_cons.
Qed.

Lemma literal_set e src s : low_opens (pstack s) -> nested (opens (pstack s)) src = true -> wp (do_literal cap e src s) level.
Proof.
  intros L N. unfold do_literal. case_decide.
  - destruct (epicsParseDouble src true) as [|[f r]] eqn:E; [done|]. apply parse_double_neutral in E.
    apply pf_wp_bind. assert (G : forall o, level (mkPf r o (pstack s) false (runtime_depth s + runtime_effect e) (cond_count s)))
      by (intros o; split; [done|]; simpl; by rewrite <- E).
    destruct (negb _); apply pf_wp_bind, emit_set; intros o; apply emit_bytes_set; intros o'; apply G.
  - destruct (epicsParseUInt32 src 0 true) as [|[f r]] eqn:E; [done|]. apply parse_uint32_neutral in E.
    apply pf_wp_bind, emit_set. intros o. apply pf_wp_bind, emit_bytes_set. intros o'. split; [done|]. simpl. by rewrite <- E.
Qed.

Lemma separator_set s : low_opens (pstack s) -> nested (opens (pstack s)) (44 :: psrc s) = true -> wp (do_separator cap s) level.
Proof.
  intros L N. simpl in N. destruct (opens (pstack s)) as [|n] eqn:O; [done|]. unfold do_separator.
  apply pf_wp_bind, move_to_paren_set; [lia|]. intros e st od E Oe L'. destruct od as [out d]. specialize (L' L).
  apply Forall_cons in L' as [L1 L2]. split; cbn [pstack psrc]; [constructor; auto|].
  rewrite <- O, <- E in N. rewrite opens_cons in *. exact N.
Qed.

Lemma close_paren_set s : low_opens (pstack s) -> nested (opens (pstack s)) (41 :: psrc s) = true -> wp (do_close_paren cap s) level.
Proof.
  intros L N. simpl in N. destruct (opens (pstack s)) as [|n] eqn:O; [done|]. unfold do_close_paren.
  apply pf_wp_bind, move_to_paren_set; [lia|]. intros e st od E Oe L'. destruct od as [out d]. specialize (L' L).
  apply Forall_cons in L' as [_ L2]. rewrite O, opens_cons, Oe in E. injection E as E.
  assert (G : forall st', opens st' = opens st -> low_opens st' ->
    level (mkPf (psrc s) out st' (operand_needed s) d (cond_count s))) by (intros st' E' L3; split; [done|]; simpl; by rewrite E', E).
  destruct st as [|v st]; [by apply G|]. case_decide; [|by apply G]. destruct (0 <? _); [done|].
  apply Forall_cons in L2 as [L1 L2]. apply G; [|by constructor]. by rewrite !opens_cons.
Qed.

Lemma conditional_set e s : low_opens (pstack s) -> 0 <= in_coming_pri e -> is_open e = false ->
  nested (opens (pstack s)) (psrc s) = true -> wp (do_conditional cap e s) level.
Proof.
  intros L I Oe N. unfold do_conditional. apply pf_wp_bind, move_while_set.
  { eapply Forall_impl; [exact L|]. intros x Hx P. destruct (is_open x) eqn:X; [|done]. rewrite (Hx X) in P. apply Z.ltb_lt in P. lia. }
  intros st od E L'. destruct od as [out d]. apply pf_wp_bind, emit_set. intros o. specialize (L' L).
  destruct (_ =? 58); [|split; simpl; [done|by rewrite E]]. destruct (_ <? 0); [done|].
  apply pf_wp_bind, push_set. split; cbn [pstack psrc].
  - constructor; [|done]. change (is_open e = true -> in_stack_pri e = 0). by rewrite Oe.
  - rewrite opens_cons, E. change (is_open (set_runtime_effect (set_code e COND_END) 0)) with (is_open e). by rewrite Oe.
Qed.

Lemma store_set e s : low_opens (pstack s) -> is_open e = false -> nested (opens (pstack s)) (psrc s) = true -> wp (do_store e s) level.
Proof.
  intros L Oe N. unfold do_store. destruct (pout s) as [|b out]; [done|]. destruct (pstack s) as [|x st] eqn:Es; [|done].
  destruct (_ || _); [done|]. destruct (opcode_of_num _) as [op|]; [|done]. apply pf_wp_bind, push_set. split; cbn [pstack psrc].
  - constructor; [|done]. change (is_open e = true -> in_stack_pri e = 0). by rewrite Oe.
  - rewrite opens_cons. change (is_open (set_code e op)) with (is_open e). by rewrite Oe.
Qed.

Lemma operand_set e s : level s -> wp (do_operand cap e s) level.
Proof. intros L. unfold do_operand. apply pf_wp_bind, emit_set. by intros o. Qed.

Lemma terminator_set s : low_opens (pstack s) -> nested (opens (pstack s)) (psrc s) = true -> wp (do_terminator cap s) level.
Proof.
  intros L N. unfold do_terminator. apply pf_wp_bind, move_all_set. intros E [out d].
  destruct (negb _); [done|]. destruct (_ <? _); [done|]. split; cbn [pstack psrc]; [constructor|]. by rewrite E in N.
Qed.

(** An element that is neither a parenthesis nor a comma. *)
Lemma other_set (opnd : bool) e src s : level s -> level (set_psrc s src) -> other_name (name e) = true -> e ∈ (if opnd then operands else operators) ->
  wp (do_element cap e src s) level.
Proof.
  intros [L N] [L' N'] Q I. destruct (element_kinds opnd e I) as [(E & _)|[(E & _)|[(E & _)|[_ K]]]]; try (by rewrite E in Q).
  assert (O : is_open e = false) by (unfold is_open; destruct (name e) as [|c l]; [done|]; simpl in *; by destruct (c =? 40)).
  assert (O' : nested (opens (e :: pstack s)) (psrc s) = true) by (by rewrite opens_cons, O).
  unfold do_element. destruct (type e).
  - by apply operand_set.
  - by apply literal_set.
  - by apply store_set.
  - apply operator_set; [done|done|by rewrite O|done].
  - apply operator_set; [done|done|by rewrite O|done].
  - apply operator_set; [done|done|by rewrite O|done].
  - done.
  - done.
  - by apply conditional_set.
  - by apply terminator_set.
Qed.

Lemma element_set (opnd : bool) e src s : level (set_psrc s src) -> e ∈ (if opnd then operands else operators) ->
  is_element src e = true -> psrc s = drop (length (name e)) src -> wp (do_element cap e src s) level.
Proof.
  intros Ls I M Es. pose proof Ls as [L N]; simpl in L, N.
  destruct (element_kinds opnd e I) as [(E & T & S0 & C)|[(E & T)|[(E & T)|[Q _]]]].
  - pose proof (element_char e src 40 M E) as Hc. rewrite Hc, <- Es in N by tauto. unfold do_element. rewrite T.
    apply operator_set; [done|done|done|]. rewrite opens_cons. unfold is_open. by rewrite E.
  - pose proof (element_char e src 41 M E) as Hc. rewrite Hc, <- Es in N by tauto. unfold do_element. rewrite T. by apply close_paren_set.
  - pose proof (element_char e src 44 M E) as Hc. rewrite Hc, <- Es in N by tauto. unfold do_element. rewrite T. by apply separator_set.
  - apply (other_set opnd); [split; [done|]|done|done|done]. by rewrite Es, <- (element_neutral e src M Q).
Qed.

Lemma step_set s : level s -> wp (postfix_step cap s) (fun r => match r with inl s' | inr s' => level s' end).
Proof.
  intros [L N]. rewrite skip_spaces_neutral in N. unfold postfix_step.
  destruct (get_element (operand_needed s) (psrc s)) as [[[e rest]|] src'] eqn:G.
  - pose proof (get_element_rest _ _ _ _ _ G) as R. apply get_element_some in G as (-> & I & _ & G). apply pf_wp_bind.
    eapply pf_wp_mono; [apply (element_set (operand_needed s) e); [by split|done|done|done]|].
    intros s' Ls. unfold check_depth. destruct (_ <? 0); [done|]. by destruct (_ <=? _).
  - assert (src' = skip_spaces (psrc s)) as ->; [|by split]. revert G. unfold get_element.
    destruct (skip_spaces (psrc s)); [by intros [= <-]|]. destruct (List.find _ _); [done|]. by intros [= <-].
Qed.

Lemma loop_set fuel : forall s, level s -> wp (postfix_loop cap fuel s) level.
Proof.
  induction fuel as [|fuel IH]; intros s L; cbn [postfix_loop]; [done|].
  apply pf_wp_bind. eapply pf_wp_mono; [by apply step_set|]. intros [s'|s']; [apply IH|done].
Qed.

Lemma end_set s : wp (postfix_end cap s) (fun _ => True).
Proof.
  unfold postfix_end. destruct (psrc s); [|done]. apply pf_wp_bind, move_all_set. intros _ [out d]. apply pf_wp_bind, emit_set. intros o.
  destruct (negb _); [done|]. by destruct (_ || _).
Qed.

Lemma run_set src : nested 0 src = true -> wp (postfix_run cap src) (fun _ => True).
Proof.
  intros N. unfold postfix_run. apply pf_wp_bind, emit_set. intros _. destruct src as [|c src]; [done|]. apply pf_wp_bind.
  eapply pf_wp_mono; [apply loop_set|intros s _; apply end_set]. split; [constructor|done].
Qed.
End Level.

(** (C13) Memory safety of [postfix].  With an output buffer of
    [INFIX_TO_POSTFIX_SIZE(strlen(src) + 1)] bytes, the size that the header file asks
    for: compiling any string ends, no byte is written outside the buffer, and the code
    produced fits in it; with two exceptions, after which C says nothing and nothing is
    shown.  A string of more than 79 characters may need more than the 80 elements of
    the operator stack; and a string in which a comma or a closing parenthesis is
    outside of all parentheses may make the compiler read the bottom element of its
    operator stack, a local array whose bottom is never set.  A string of at most 79
    characters whose commas and closing parentheses are inside of parentheses is
    compiled or refused with an error. *)
Theorem postfix_memory_safe (src : list Z) :
  let cap := Z.to_nat (INFIX_TO_POSTFIX_SIZE (zlen src + 1)) in
  match postfix cap src with
  | postfix_ok code => (length code <= cap)%nat
  | postfix_err _ => True
  | postfix_undefined u => (u = ub_stack_unset /\ nested 0 src = false) \/ (u = ub_stack_overflow /\ 79 < zlen src)
  end.
Proof.
  intros cap. pose proof (postfix_run_safe src) as W. pose proof (run_set cap src) as N. unfold postfix. cbv zeta in W. fold cap in W. clearbody cap.
  destruct (postfix_run cap src) as [[|u]|code]; simpl in *; [done| |lia].
  destruct u; simpl in W; [right; split; [done|lia]| |done|done].
  left. split; [done|]. apply not_true_iff_false. intros T. by apply (N T).
Qed.

(** The exception is real: ["A)"] reads the element that nothing set. *)
Example paren_unset : postfix 300 (cs "A)") = postfix_undefined ub_stack_unset /\ nested 0 (cs "A)") = false.
Proof. by vm_compute. Qed.
