(* ===== verification/CalcRun.v ===== *)
(** * The calculation engine: compiled expressions run safely

    The code that {!postfix} produces for an expression without conditionals,
    assignments and [ATAN2] keeps inside the evaluator's stack, ends, and leaves
    exactly one value.  (With those elements it need not, see the examples of
    [CalcPerform.v].) *)

From stdpp Require Import base numbers list option strings.
From Stdlib Require Import ZArith Lia Bool Floats.
From S2P Require Import Prelude CStdlib Strtod EpicsStdlib EpicsString Calc CalcPerform CalcSafety.

(** ** Straight-line code

    [straight c d]: the code [c] only pushes values and applies operators to values
    it has pushed, at most 80 at a time, and leaves [d] of them. *)

Definition pushes (op : rpn_opcode) : bool :=
  match fetch_index op, constant op with
  | None, None => bool_decide (op = FETCH_VAL \/ op = RANDOM)
  | _, _ => true
  end.

(** Evaluate the argument numbers of a concrete instruction. *)
Ltac eval_index :=
  repeat match goal with
  | |- context [fetch_index ?op] =>
      let v := eval vm_compute in (fetch_index op) in change (fetch_index op) with v
  | |- context [store_index ?op] =>
      let v := eval vm_compute in (store_index op) in change (store_index op) with v
  end.

Section straight.
Context (m : libm).

Inductive straight : list Z -> Z -> Prop :=
| straight_nil : straight [] 0
| straight_push c d op :
    straight c d -> pushes op = true -> d < 80 -> straight (c ++ [opcode_num op]) (d + 1)
| straight_double c d bs :
    straight c d -> length bs = 8%nat -> d < 80 ->
    straight (c ++ opcode_num LITERAL_DOUBLE :: bs) (d + 1)
| straight_int c d bs :
    straight c d -> length bs = 4%nat -> d < 80 ->
    straight (c ++ opcode_num LITERAL_INT :: bs) (d + 1)
| straight_unary c d op :
    straight c d -> is_Some (unary_fun m op) -> 1 <= d -> straight (c ++ [opcode_num op]) d
| straight_binary c d op :
    straight c d -> is_Some (binary_fun m op) -> 2 <= d -> straight (c ++ [opcode_num op]) (d - 1)
| straight_vararg c d op n :
    straight c d -> is_Some (vararg_fun op) -> 1 <= n <= d ->
    straight (c ++ [opcode_num op; n]) (d - n + 1).

(** *** Running it *)

(** From [s], the instruction leads to [pinst'] with [d] values on the stack, or
    traps. *)
Definition runs_to (r : cp (option (list Z * cp_state))) (s : cp_state) (pinst' : list Z) (d : Z) : Prop :=
  r = inl cp_div_trap \/
  exists s', r = inr (Some (pinst', s')) /\ zlen (cp_stack s') = d /\ parg s' = parg s.

Lemma exec_push op s pinst :
  pushes op = true -> length (parg s) = 12%nat -> zlen (cp_stack s) < 80 ->
  runs_to (exec m op pinst s) s pinst (zlen (cp_stack s) + 1).
Proof.
  intros P A D.
  assert (Pu : forall v t, cp_stack t = cp_stack s -> parg t = parg s ->
    runs_to (let* s := cp_push v t in inr (stay pinst s)) s pinst (zlen (cp_stack s) + 1)).
  { intros v t E1 E2. right. unfold cp_push. rewrite E1.
    replace (_ <? _) with true by (symmetry; apply Z.ltb_lt; exact D).
    eexists. split; [reflexivity|]. simpl. split; [lia|done]. }
  assert (Ar : forall i, (i < 12)%nat -> runs_to (match parg s !! i with
      | Some v => let* s := cp_push v s in inr (stay pinst s) | None => inl cp_arg end) s pinst
      (zlen (cp_stack s) + 1)).
  { intros i I. destruct (lookup_lt_is_Some_2 (parg s) i) as [v ->]; [lia|]. by apply Pu. }
  destruct op; try discriminate P; unfold exec; eval_index;
    cbn -[exec_special calcRandom]; try (apply Ar; lia); try (by apply Pu).
Qed.

Lemma exec_unary op f s pinst :
  unary_fun m op = Some f -> 1 <= zlen (cp_stack s) ->
  runs_to (exec m op pinst s) s pinst (zlen (cp_stack s)).
Proof.
  intros U D.
  assert (E : exec m op pinst s = (let* s := cp_unary f s in inr (stay pinst s)))
    by (destruct op; try discriminate U; injection U as <-; reflexivity).
  rewrite E. unfold cp_unary. destruct (cp_stack s) as [|v st] eqn:S; [simpl in D; lia|].
  right. eexists. split; [reflexivity|]. done.
Qed.

Lemma binary_fun_total op f x y :
  binary_fun m op = Some f -> f x y = inl cp_div_trap \/ exists r, f x y = inr r.
Proof.
  destruct op; try discriminate; intros [= <-]; try (right; eexists; reflexivity).
  unfold modulo. repeat case_match; eauto.
Qed.

Lemma exec_binary op f s pinst :
  binary_fun m op = Some f -> 2 <= zlen (cp_stack s) ->
  runs_to (exec m op pinst s) s pinst (zlen (cp_stack s) - 1).
Proof.
  intros U D.
  assert (E : exec m op pinst s = (let* s := cp_binary f s in inr (stay pinst s)))
    by (destruct op; try discriminate U; injection U as <-; reflexivity).
  rewrite E. unfold cp_binary, cp_pop.
  destruct (cp_stack s) as [|top [|v st]] eqn:S; [simpl in D; lia..|]. simpl.
  destruct (binary_fun_total op f v top U) as [->|[r ->]]; [by left|].
  right. eexists. split; [reflexivity|]. simpl. split; [lia|done].
Qed.

Lemma vararg_loop_length f st : forall n acc, 1 <= n <= zlen st + 1 ->
  exists st', vararg_loop f n acc st = inr st' /\ zlen st' = zlen st - n + 2.
Proof.
  induction st as [|v st IH]; intros n acc D; simpl in *; destruct (Z.eqb_spec (n - 1) 0);
    try (eexists; split; [reflexivity|simpl; lia]); [lia|].
  destruct (IH (n - 1) (f v acc)) as (st' & -> & L); [lia|]. exists st'. split; [done|lia].
Qed.

Lemma exec_vararg_op op s n pinst :
  is_Some (vararg_fun op) -> 1 <= n <= zlen (cp_stack s) ->
  runs_to (exec m op (n :: pinst) s) s pinst (zlen (cp_stack s) - n + 1).
Proof.
  intros [[first f] U] D.
  assert (E : exec m op (n :: pinst) s = exec_vararg first f (n :: pinst) s)
    by (destruct op; try discriminate U; injection U as <- <-; reflexivity).
  rewrite E. unfold exec_vararg, cp_pop.
  destruct (cp_stack s) as [|top st] eqn:S; [simpl in D; lia|]. simpl in D |- *.
  destruct (vararg_loop_length f st n (first top)) as (st' & -> & L); [lia|].
  right. eexists. split; [reflexivity|]. simpl. split; [lia|done].
Qed.

Lemma exec_literal_op n value bs pinst s :
  length bs = n -> zlen (cp_stack s) < 80 ->
  runs_to (exec_literal n value (bs ++ pinst) s) s pinst (zlen (cp_stack s) + 1).
Proof.
  intros L D. unfold exec_literal, skip. rewrite decide_True by llia.
  rewrite drop_app_all by done. simpl. unfold cp_push.
  replace (_ <? _) with true by (symmetry; apply Z.ltb_lt; exact D).
  right. eexists. split; [reflexivity|]. simpl. split; [lia|done].
Qed.

(** The loop runs the code [c], from any number of arguments. *)
Definition reaches (c : list Z) (d : Z) : Prop := forall fuel rest s,
  cp_stack s = [] -> length (parg s) = 12%nat -> (length (c ++ rest) < fuel)%nat ->
  cp_loop m fuel (c ++ rest) s = inl cp_div_trap \/
  exists fuel' s', cp_loop m fuel (c ++ rest) s = cp_loop m fuel' rest s' /\
    zlen (cp_stack s') = d /\ parg s' = parg s /\ (length rest < fuel')%nat.

Lemma reaches_step c d op data d' :
  reaches c d -> opcode_num op <> 0 ->
  (forall rest s, zlen (cp_stack s) = d -> length (parg s) = 12%nat ->
     runs_to (exec m op (data ++ rest) s) s rest d') ->
  reaches (c ++ opcode_num op :: data) d'.
Proof.
  intros R NE X fuel rest s S A L. rewrite <- app_assoc in *. simpl in *.
  destruct (R fuel (opcode_num op :: data ++ rest) s S A L) as [?|(f & s1 & E & D & A1 & L1)]; [by left|].
  rewrite E. destruct f as [|f]; [simpl in L1; lia|]. cbn [cp_loop].
  change (opcode_num END_EXPRESSION) with 0. rewrite (proj2 (Z.eqb_neq _ _) NE), opcode_of_opcode_num.
  destruct (X rest s1 D) as [->|(s2 & -> & D2 & A2)]; [congruence|by left|].
  right. exists f, s2. simpl in *. split_and!; [done|done|congruence|llia].
Qed.

Lemma straight_reaches c d : straight c d -> reaches c d.
Proof.
  induction 1 as [|c d op _ IH P D|c d bs _ IH L D|c d bs _ IH L D|c d op _ IH [f U] D
                  |c d op _ IH [f U] D|c d op n _ IH V D].
  - intros fuel rest s S A L. right. exists fuel, s. rewrite S. done.
  - apply (reaches_step _ d); [done|by intros E; destruct op|]. intros rest s E A. subst d.
    by apply exec_push.
  - apply (reaches_step _ d); [done..|]. intros rest s E A. subst d. by apply exec_literal_op.
  - apply (reaches_step _ d); [done..|]. intros rest s E A. subst d. by apply exec_literal_op.
  - apply (reaches_step _ d); [done|by intros E; destruct op|]. intros rest s E A. subst d.
    by apply (exec_unary op f).
  - apply (reaches_step _ d); [done|by intros E; destruct op|]. intros rest s E A. subst d.
    by apply (exec_binary op f).
  - apply (reaches_step _ d _ [n]); [done|intros E; destruct op; try done; by destruct V|].
    intros rest s E A. subst d. by apply exec_vararg_op.
Qed.

Lemma straight_depth c d : straight c d -> 0 <= d.
Proof. induction 1; lia. Qed.

(** Straight-line code that leaves one value is evaluated. *)
Lemma straight_perform c args res seed :
  straight c 1 -> length args = 12%nat ->
  calcPerform m args res seed (c ++ [0]) = inl cp_div_trap \/
  exists v seed', calcPerform m args res seed (c ++ [0]) = inr (0, args, v, seed').
Proof.
  intros S A. unfold calcPerform.
  destruct (straight_reaches c 1 S (Datatypes.S (length (c ++ [0]))) [0] (mkCp [] args res seed))
    as [->|(f & s & -> & D & A1 & L)]; [done|done|lia|by left|].
  destruct f; [simpl in L; lia|]. simpl.
  destruct (cp_stack s) as [|v [|]] eqn:E; simpl in D; try lia. simpl in A1. rewrite A1. eauto.
Qed.
End straight.

(** ** The compiler emits straight-line code *)

(** The elements that jump, store, or take two operands with a unary syntax. *)
Definition plain (e : ELEMENT) : Prop :=
  type e <> CONDITIONAL /\ type e <> STORE_OPERATOR /\ code e <> ATAN2.

#[global] Instance plain_dec e : Decision (plain e).
Proof. unfold plain. apply _. Defined.

Section compiled.
Context (m : libm) (cap : nat).

(** What a plain element is. *)
Definition is_unary (e : ELEMENT) : Prop :=
  type e = UNARY_OPERATOR /\ is_Some (unary_fun m (code e)) /\ runtime_effect e = 0.
Definition is_binary (e : ELEMENT) : Prop :=
  type e = BINARY_OPERATOR /\ is_Some (binary_fun m (code e)) /\ runtime_effect e = -1.
Definition is_vararg (e : ELEMENT) : Prop :=
  type e = VARARG_OPERATOR /\ is_Some (vararg_fun (code e)).

(** An element of the operator stack. *)
Inductive stack_elem (e : ELEMENT) : Prop :=
| elem_open : is_open e = true -> type e = UNARY_OPERATOR -> in_stack_pri e = 0 -> stack_elem e
| elem_unary : is_open e = false -> is_unary e -> in_stack_pri e <= 7 -> stack_elem e
| elem_binary : is_open e = false -> is_binary e -> in_stack_pri e <= 7 -> stack_elem e
| elem_vararg : is_open e = false -> is_vararg e -> in_stack_pri e <= 7 -> stack_elem e.

(** [chain D st]: with [D] values (the one still to come included) there are enough
    operands for the operators of [st].  An open parenthesis that has seen [k] commas
    has [k + 1] values above it, which a vararg operator before it consumes. *)
Fixpoint chain (D : Z) (st : list ELEMENT) : Prop :=
  match st with
  | [] => 1 <= D
  | e :: st =>
      if is_open e then
        let k := - runtime_effect e in
        0 <= k < D /\
        match st with
        | v :: st' => if decide (type v = VARARG_OPERATOR) then chain (D - k) st' else chain D st
        | [] => True
        end
      else match type e with
           | UNARY_OPERATOR => chain D st
           | BINARY_OPERATOR => 2 <= D /\ chain (D - 1) st
           | _ => 0 <= - runtime_effect e < D /\ chain (D + runtime_effect e) st
           end
  end.

Lemma chain_pos st : forall D, Forall stack_elem st -> chain D st -> 1 <= D.
Proof.
  induction st as [|e st IH]; intros D F C; [done|].
  inversion F as [|? ? E F']; subst.
  destruct E as [O T _|O (T & _) _|O (T & _) _|O (T & _) _]; simpl in C; rewrite O in C; try (lia || (rewrite T in C; lia)).
  rewrite T in C. by apply IH.
Qed.

Lemma chain_mono n : forall st D, (length st <= n)%nat -> chain D st -> chain (D + 1) st.
Proof.
  induction n as [|n IH]; intros [|e st] D L C; simpl in *; try lia.
  destruct (is_open e).
  - destruct C as [K C]. split; [lia|]. destruct st as [|v st]; [done|]. simpl in L.
    case_decide; [|by apply IH; [simpl; lia|]].
    replace (D + 1 - - runtime_effect e) with (D - - runtime_effect e + 1) by lia. apply IH; [lia|done].
  - assert (M : forall a, chain (D + a) st -> chain (D + 1 + a) st).
    { intros a Ca. replace (D + 1 + a) with (D + a + 1) by lia. apply IH; [lia|done]. }
    destruct (type e); try (split; [lia|apply M; tauto]). apply IH; [lia|done].
Qed.

(** What the plain elements of the tables are. *)
Definition plain_facts (e : ELEMENT) : Prop :=
  match type e with
  | OPERAND => pushes (code e) = true /\ runtime_effect e = 1
  | LITERAL_OPERAND => runtime_effect e = 1 /\ (code e = LITERAL_DOUBLE \/ code e = LITERAL_INT)
  | UNARY_OPERATOR => runtime_effect e = 0 /\ in_coming_pri e = 8 /\ stack_elem e
  | VARARG_OPERATOR => runtime_effect e = 0 /\ in_coming_pri e = 8 /\ stack_elem e /\ is_open e = false
  | BINARY_OPERATOR => 1 <= in_coming_pri e /\ stack_elem e /\ is_open e = false /\ is_binary e
  | _ => True
  end.

Lemma plain_elements : Forall (fun e => plain e -> plain_facts e) (operands ++ operators).
Proof.
  unfold plain_facts, is_binary.
  repeat (constructor; [intros (P1 & P2 & P3); cbn [type code runtime_effect in_coming_pri element] in *;
    try congruence; split_and?; try (reflexivity || (left; reflexivity) || (right; reflexivity) || lia)|]);
    try (eexists; reflexivity); [..|constructor].
  all: first [ by apply elem_open
             | apply elem_unary; [reflexivity|split_and!; [done|by eexists|done]|simpl; lia]
             | apply elem_binary; [reflexivity|split_and!; [done|by eexists|done]|simpl; lia]
             | apply elem_vararg; [reflexivity|split; [done|by eexists]|simpl; lia] ].
Qed.

Local Notation wp := (pf_wp (fun _ => True)).

Lemma emit_any b out (P : list Z -> Prop) : P (wrap_s 8 b :: out) -> wp (emit cap b out) P.
Proof. unfold emit. case_decide; [done|]. done. Qed.

Lemma wrap_opcode op : wrap_s 8 (opcode_num op) = opcode_num op.
Proof. apply wrap_s_id; [lia|]. pose proof (opcode_num_range op). unfold fits_s. lia. Qed.

(** The values on the evaluator's stack after the code put out so far. *)
Definition emitted (out : list Z) (d : Z) : Prop := straight m (rev out) d /\ d <= 79.

Lemma move_op_emitted e st out d (P : list Z * Z -> Prop) :
  emitted out d -> Forall stack_elem (e :: st) -> chain d (e :: st) -> is_open e = false ->
  (forall out' d', emitted out' d' -> chain d' st -> P (out', d')) ->
  wp (move_op cap e (out, d)) P.
Proof.
  intros [S D] F C O H. inversion F as [|? ? E F']; subst. unfold move_op.
  apply pf_wp_bind, emit_any. rewrite wrap_opcode. simpl in C. rewrite O in C.
  destruct E as [O' _ _|_ (T & U & Z0) _|_ (T & U & Z1) _|_ (T & U) _]; [congruence|..].
  - rewrite T in C. rewrite decide_False by (by rewrite T). simpl. apply H.
    + split; [|lia]. simpl. rewrite Z0, Z.add_0_r. apply straight_unary; [done|done|].
      by apply (chain_pos st).
    + by rewrite Z0, Z.add_0_r.
  - rewrite T in C. destruct C as [D2 C]. rewrite decide_False by (by rewrite T). simpl. apply H.
    + split; [|lia]. simpl. rewrite Z1. by apply straight_binary.
    + by rewrite Z1.
  - rewrite T in C. destruct C as [K C]. rewrite decide_True by done.
    apply pf_wp_bind, emit_any. simpl. apply H; [|done].
    rewrite wrap_s_id by (unfold fits_s; lia). split; [|lia]. simpl. rewrite <- app_assoc. simpl.
    replace (d + runtime_effect e) with (d - (1 - runtime_effect e) + 1) by lia.
    apply straight_vararg; [done|done|lia].
Qed.

Lemma move_while_emitted p st : forall out d (P : list ELEMENT * (list Z * Z) -> Prop),
  emitted out d -> Forall stack_elem st -> chain d st ->
  (forall e, is_open e = true -> stack_elem e -> p e = false) ->
  (forall st' out' d', emitted out' d' -> Forall stack_elem st' -> chain d' st' -> P (st', (out', d'))) ->
  wp (move_while cap p st (out, d)) P.
Proof.
  induction st as [|e st IH]; intros out d P S F C Op H; cbn [move_while]; [by apply H|].
  destruct (p e) eqn:Pe; [|by apply H]. inversion F; subst.
  assert (is_open e = false) by (destruct (is_open e) eqn:X; [by rewrite Op in Pe|done]).
  apply pf_wp_bind, (move_op_emitted e st); auto.
Qed.

Lemma move_to_paren_emitted error st : forall out d (P : list ELEMENT * (list Z * Z) -> Prop),
  emitted out d -> Forall stack_elem st -> chain d st ->
  (forall e st' out' d', is_open e = true -> emitted out' d' -> Forall stack_elem (e :: st') ->
     chain d' (e :: st') -> P (e :: st', (out', d'))) ->
  wp (move_to_paren cap error st (out, d)) P.
Proof.
  induction st as [|e st IH]; intros out d P S F C H; cbn [move_to_paren]; [done|].
  destruct (is_open e) eqn:O; [by apply H|]. inversion F; subst.
  destruct st as [|e' st]; [done|].
  apply pf_wp_bind, (move_op_emitted e (e' :: st)); auto.
Qed.

Lemma move_all_emitted st : forall out d (P : list Z * Z -> Prop),
  emitted out d -> Forall stack_elem st -> chain d st ->
  (forall out' d', emitted out' d' -> 1 <= d' -> P (out', d')) ->
  wp (move_all cap st (out, d)) P.
Proof.
  induction st as [|e st IH]; intros out d P S F C H; cbn [move_all]; [by apply H|].
  destruct (is_open e) eqn:O; [done|]. inversion F; subst.
  apply pf_wp_bind, (move_op_emitted e st); auto.
Qed.

(** *** The invariant of the loop *)

(** While an operand is needed, a vararg operator on top has not seen its
    arguments. *)
Definition fresh_top (st : list ELEMENT) : Prop :=
  match st with v :: _ => type v = VARARG_OPERATOR -> runtime_effect v = 0 | [] => True end.

Definition run_inv (s : pf_state) : Prop :=
  straight m (rev (pout s)) (runtime_depth s) /\
  Forall stack_elem (pstack s) /\
  chain (runtime_depth s + (if operand_needed s then 1 else 0)) (pstack s) /\
  (operand_needed s = true -> fresh_top (pstack s)).

Lemma element_facts opnd e : e ∈ (if opnd : bool then operands else operators) -> plain e -> plain_facts e.
Proof.
  intros I. refine (proj1 (Forall_forall _ _) plain_elements e _).
  apply elem_of_app. destruct opnd; auto.
Qed.

Lemma emit_bytes_any bs : forall out (P : list Z -> Prop),
  (forall bs', length bs' = length bs -> P (rev bs' ++ out)) -> wp (emit_bytes cap bs out) P.
Proof.
  induction bs as [|b bs IH]; intros out P H; cbn [emit_bytes]; [by apply (H [])|].
  apply pf_wp_bind, emit_any, IH. intros bs' L. specialize (H (wrap_s 8 b :: bs')).
  simpl in H. rewrite <- app_assoc in H. apply H. by rewrite L.
Qed.

Lemma do_operand_run e s :
  pushes (code e) = true -> runtime_effect e = 1 -> operand_needed s = true ->
  runtime_depth s <= 79 -> run_inv s -> wp (do_operand cap e s) run_inv.
Proof.
  intros P R On D (S & F & C & _). unfold do_operand. apply pf_wp_bind, emit_any.
  rewrite wrap_opcode, R. split_and!; simpl; [apply straight_push; [done|done|lia]|done| |done].
  by rewrite On, Z.add_0_r in *.
Qed.

Lemma do_literal_run e src s :
  runtime_effect e = 1 -> operand_needed s = true ->
  runtime_depth s <= 79 -> run_inv s -> wp (do_literal cap e src s) run_inv.
Proof.
  intros R On D (S & F & C & _). rewrite On in C.
  assert (K : forall op bs p, op = LITERAL_DOUBLE /\ length bs = 8%nat \/ op = LITERAL_INT /\ length bs = 4%nat ->
    wp (let* out := (let* out := emit cap (opcode_num op) (pout s) in emit_bytes cap bs out) in
        inr (mkPf p out (pstack s) false (runtime_depth s + runtime_effect e) (cond_count s))) run_inv).
  { intros op bs p O. apply pf_wp_bind, pf_wp_bind, emit_any, emit_bytes_any. intros bs' L.
    rewrite R, wrap_opcode. split_and!; simpl; [|done|by rewrite Z.add_0_r|done].
    rewrite rev_app_distr, rev_involutive. simpl. rewrite <- app_assoc. simpl.
    destruct O as [[-> B]|[-> B]]; [apply straight_double|apply straight_int]; (done || lia || congruence). }
  unfold do_literal. case_decide as X.
  - destruct (epicsParseDouble src true) as [|[f next]]; [done|].
    rewrite X. destruct (negb _).
    + apply K. left. split; [done|apply length_le_bytes].
    + apply K. right. split; [done|apply length_le_bytes].
  - destruct (epicsParseUInt32 src 0 true) as [|[f next]]; [done|].
    specialize (K LITERAL_INT (le_bytes 4 f) next). apply pf_wp_bind.
    specialize (K (or_intror (conj eq_refl (length_le_bytes 4 f)))).
    destruct (emit cap _ _) as [[]|]; done.
Qed.

Lemma fresh_push e st D needed :
  stack_elem e -> runtime_effect e = 0 -> chain D st -> Forall stack_elem st -> type e <> BINARY_OPERATOR ->
  fresh_top st -> chain D (e :: st) /\ (needed = true -> fresh_top (e :: st)).
Proof.
  intros E R C F NB Fr. pose proof (chain_pos st D F C) as D1. split; [|simpl; auto].
  destruct E as [O T _|O (T & _) _|O (T & _) _|O (T & _) _]; simpl; rewrite O, ?T, ?R; try (done || congruence).
  - split; [lia|]. destruct st as [|v st]; [done|]. case_decide as V; [|done].
    rewrite Z.sub_0_r. simpl in Fr, C. specialize (Fr V). inversion F as [|? ? E' ?]; subst.
    destruct (is_open v) eqn:Ov; [destruct E' as [_ T' _|?|?|?]; congruence|].
    rewrite V, Fr, Z.add_0_r in C. tauto.
  - split; [lia|]. by rewrite Z.add_0_r.
Qed.

(** A unary or vararg operator leaves the stack below it. *)
Lemma do_prefix_run e s :
  stack_elem e -> runtime_effect e = 0 -> in_coming_pri e = 8 -> type e <> BINARY_OPERATOR ->
  operand_needed s = true -> run_inv s -> wp (do_operator cap e true s) run_inv.
Proof.
  intros E R I NB On (S & F & C & Fr). unfold do_operator. rewrite On in C.
  assert (W : move_while cap (fun top => in_coming_pri e <=? in_stack_pri top) (pstack s)
    (pout s, runtime_depth s) = inr (pstack s, (pout s, runtime_depth s))).
  { destruct (pstack s) as [|v st]; [done|]. cbn. rewrite I. inversion F as [|? ? E' ?]; subst.
    destruct E'; replace (8 <=? in_stack_pri v) with false by (symmetry; apply Z.leb_gt; lia); done. }
  rewrite W. simpl. unfold push. case_decide; [|done]. simpl.
  destruct (fresh_push e (pstack s) (runtime_depth s + 1) true) as [C' Fr']; [by auto..|].
  split_and!; simpl; auto.
Qed.

Lemma do_binary_run e s :
  is_binary e -> is_open e = false -> stack_elem e -> 1 <= in_coming_pri e ->
  operand_needed s = false -> runtime_depth s <= 79 -> run_inv s -> wp (do_operator cap e true s) run_inv.
Proof.
  intros (T & U & R) O E I On D (S & F & C & _). unfold do_operator. rewrite On, Z.add_0_r in C.
  apply pf_wp_bind, move_while_emitted; [done..| |].
  - intros e' O' E'. apply Z.leb_gt. destruct E'; (lia || congruence).
  - intros st' out' d' [S' D'] F' C'. unfold push. apply pf_wp_bind. case_decide; [|done]. simpl.
    pose proof (chain_pos st' d' F' C').
    split_and!; simpl; [done|by constructor| |intros _; congruence].
    rewrite O, T. split; [lia|]. by rewrite Z.add_simpl_r.
Qed.

Lemma do_separator_run s :
  operand_needed s = false -> runtime_depth s <= 79 -> run_inv s -> wp (do_separator cap s) run_inv.
Proof.
  intros On D (S & F & C & _). unfold do_separator. rewrite On, Z.add_0_r in C.
  apply pf_wp_bind, move_to_paren_emitted; [done..|].
  intros e st' out' d' O [S' D'] F' C'. inversion F' as [|? ? E F2]; subst.
  destruct E as [_ T Pr|?|?|?]; [|congruence..]. simpl in C'. rewrite O in C'. destruct C' as [K C'].
  assert (W : wrap_s 8 (runtime_effect e - 1) = runtime_effect e - 1) by (apply wrap_s_id; unfold fits_s; lia).
  assert (O' : is_open (set_runtime_effect e (runtime_effect e - 1)) = true) by done.
  split_and!; simpl; [done| | |congruence].
  - constructor; [|done]. by apply elem_open.
  - rewrite O'. rewrite W. split; [lia|]. destruct st' as [|v st2]; [done|].
    case_decide; [by replace (d' + 1 - - (runtime_effect e - 1)) with (d' - - runtime_effect e) by lia|].
    by apply (chain_mono (length (v :: st2))).
Qed.

Lemma do_close_paren_run s :
  operand_needed s = false -> runtime_depth s <= 79 -> run_inv s -> wp (do_close_paren cap s) run_inv.
Proof.
  intros On D (S & F & C & _). unfold do_close_paren. rewrite On, Z.add_0_r in C.
  apply pf_wp_bind, move_to_paren_emitted; [done..|].
  intros e st' out' d' O [S' D'] F' C'. inversion F' as [|? ? E F2]; subst. simpl in C'. rewrite O in C'.
  destruct C' as [K C'].
  destruct st' as [|v st2].
  { split_and!; simpl; [done|done|rewrite On; simpl; lia|congruence]. }
  case_decide as V.
  - inversion F2 as [|? ? Ev F3]; subst. set (v' := set_runtime_effect v (runtime_effect e)).
    assert (W : wrap_s 8 (runtime_effect e) = runtime_effect e) by (apply wrap_s_id; unfold fits_s; lia).
    destruct Ev as [? ?|? (? & ?)|? (? & ?)|Ov (Tv & Uv) Pv]; [congruence..|].
    case_match; [done|]. split_and!; simpl; [done| | |congruence].
    + constructor; [|done]. by apply elem_vararg.
    + rewrite On, Z.add_0_r. change (is_open v') with (is_open v). rewrite Ov, V, W.
      split; [lia|]. by replace (d' + runtime_effect e) with (d' - - runtime_effect e) by lia.
  - split_and!; simpl; [done|done|by rewrite On, Z.add_0_r|congruence].
Qed.

Lemma do_terminator_run s :
  operand_needed s = false -> runtime_depth s <= 79 -> run_inv s -> wp (do_terminator cap s) run_inv.
Proof.
  intros On D (S & F & C & _). unfold do_terminator. rewrite On, Z.add_0_r in C.
  apply pf_wp_bind, move_all_emitted; [done..|]. intros out' d' [S' D'] P.
  repeat (case_match; [done|]). split_and!; simpl; [done|done|lia|done].
Qed.

Lemma do_element_run opnd e src s :
  e ∈ (if opnd : bool then operands else operators) -> plain e -> opnd = operand_needed s ->
  runtime_depth s <= 79 -> run_inv s -> wp (do_element cap e src s) run_inv.
Proof.
  intros I Pl -> D R. pose proof (table_types _ _ I) as T.
  pose proof (element_facts _ _ I Pl) as X. unfold plain_facts in X.
  unfold do_element. destruct (type e) eqn:Ty; simpl in T; symmetry in T.
  - destruct X. by apply do_operand_run.
  - destruct X. by apply do_literal_run.
  - by destruct Pl as (_ & ? & _).
  - destruct X as (? & ? & ?). rewrite T. apply do_prefix_run; congruence || done.
  - destruct X as (? & ? & ? & ?). rewrite T. apply do_prefix_run; congruence || done.
  - destruct X as (? & ? & ? & ?). by apply do_binary_run.
  - by apply do_separator_run.
  - by apply do_close_paren_run.
  - by destruct Pl.
  - by apply do_terminator_run.
Qed.

(** *** The loop *)

Lemma get_element_none opnd src src' : get_element opnd src = (None, src') -> src' = skip_spaces src.
Proof.
  unfold get_element. destruct (skip_spaces src); [by intros [= <-]|].
  destruct (List.find _ _); [done|]. by intros [= <-].
Qed.

(** Skip a computation whose result does not matter. *)
Ltac wp_any :=
  apply pf_wp_bind; eapply pf_wp_mono; [apply pf_wp_any|]; intros; repeat case_match; try done.

Lemma do_element_suffix e src s :
  isspace (deref src) = false -> psrc s `suffix_of` src -> (length (psrc s) < length src)%nat ->
  wp (do_element cap e src s) (fun s' => psrc s' `suffix_of` src /\ (length (psrc s') < length src)%nat).
Proof.
  intros Sp P L. unfold do_element. destruct (type e).
  - by wp_any.
  - unfold do_literal. case_decide.
    + destruct (epicsParseDouble src true) as [|[f next]] eqn:E; [done|].
      apply parse_double_consumes in E as (d & -> & Ld & _); [|done]. wp_any.
      split; [by exists d|simpl; llia].
    + destruct (epicsParseUInt32 src 0 true) as [|[f next]] eqn:E; [done|].
      apply parse_uint32_consumes in E as E. do 2 wp_any.
  - unfold do_store. destruct (pout s), (pstack s); try done. destruct (_ || _); [done|].
    destruct (opcode_of_num _); [|done]. wp_any.
  - unfold do_operator. do 2 wp_any.
  - unfold do_operator. do 2 wp_any.
  - unfold do_operator. do 2 wp_any.
  - unfold do_separator. wp_any.
  - unfold do_close_paren. wp_any.
  - unfold do_conditional. do 2 wp_any. wp_any.
  - unfold do_terminator. wp_any.
Qed.

Section loop.
(** A property of the source that its rest keeps, and which keeps the elements that are
    not plain out. *)
Context (ok : list Z -> Prop).
Hypothesis ok_suffix : forall t src, t `suffix_of` src -> ok src -> ok t.
Hypothesis ok_plain : forall src e opnd, ok src -> is_element src e = true ->
  e ∈ (if opnd : bool then operands else operators) -> plain e.

Lemma loop_run fuel : forall s,
  ok (psrc s) -> runtime_depth s <= 79 -> run_inv s ->
  wp (postfix_loop cap fuel s) (fun s' => runtime_depth s' <= 79 /\ run_inv s').
Proof.
  induction fuel as [|fuel IH]; intros s Ok D R; [done|]. cbn [postfix_loop]. apply pf_wp_bind.
  unfold postfix_step.
  destruct (get_element (operand_needed s) (psrc s)) as [[[e rest]|] src'] eqn:G; [|by split].
  apply get_element_some in G as G'. destruct G' as (-> & T & L & M).
  assert (Ok' : ok (skip_spaces (psrc s))) by (eapply ok_suffix; [apply skip_spaces_suffix|done]).
  assert (Sf : rest `suffix_of` skip_spaces (psrc s)).
  { revert G. unfold get_element. destruct (skip_spaces (psrc s)) as [|c p] eqn:E; [done|].
    destruct (List.find _ _) as [e'|]; [|done]. intros [= -> <-]. 
    exists (take (length (name e)) (c :: p)). by rewrite take_drop. }
  apply pf_wp_bind. eapply pf_wp_mono.
  { apply pf_wp_and.
    - by apply (do_element_run (operand_needed s) e _ (set_psrc s rest) T (ok_plain _ _ _ Ok' M T)).
    - by apply (do_element_suffix e _ (set_psrc s rest)); [apply skip_spaces_head|..]. }
  intros s' [R' [S' _]]. unfold check_depth. destruct (_ <? 0); [done|].
  destruct (Z.leb_spec CALCPERFORM_STACK (runtime_depth s')) as [|D']; [done|]. simpl.
  apply IH; [by eapply ok_suffix|unfold CALCPERFORM_STACK in D'; lia|done].
Qed.

Lemma end_run s :
  runtime_depth s <= 79 -> run_inv s ->
  wp (postfix_end cap s) (fun code => exists c, code = c ++ [0] /\ straight m c 1).
Proof.
  intros D (S & F & C & _). unfold postfix_end. destruct (psrc s); [|done].
  destruct (operand_needed s) eqn:On.
  { do 2 wp_any. }
  rewrite Z.add_0_r in C. apply pf_wp_bind, move_all_emitted; [done..|].
  intros out d [S' _] _. apply pf_wp_bind, emit_any. destruct (negb _); [done|]. simpl.
  destruct (Z.eqb_spec d 1) as [->|]; [|done]. simpl. by exists (rev out).
Qed.

Lemma postfix_straight src code :
  ok src -> postfix cap src = postfix_ok code -> exists c, code = c ++ [0] /\ straight m c 1.
Proof.
  intros Ok. unfold postfix. destruct (postfix_run cap src) as [[]|code'] eqn:E; try done. intros [= ->].
  enough (W : wp (postfix_run cap src) (fun code => exists c, code = c ++ [0] /\ straight m c 1))
    by (by rewrite E in W).
  unfold postfix_run. apply pf_wp_bind, emit_any. destruct src as [|a src]; [done|].
  apply pf_wp_bind. eapply pf_wp_mono; [apply loop_run|intros s [D R]; by apply end_run];
    [done|simpl; lia|]. split_and!; simpl; [apply straight_nil|done|lia|done].
Qed.
End loop.
End compiled.

(** [word] occurs in [s], in either case. *)
Fixpoint contains_nocase (word s : list Z) : bool :=
  (epicsStrnCaseCmp s word (length word) =? 0) ||
  match s with [] => false | _ :: s => contains_nocase word s end.

Lemma contains_suffix word t s :
  t `suffix_of` s -> contains_nocase word s = false -> contains_nocase word t = false.
Proof.
  intros [k ->]. induction k as [|a k IH]; [done|]. simpl. intros [_ H]%orb_false_iff. by apply IH.
Qed.

Lemma contains_not_element s e : contains_nocase (name e) s = false -> is_element s e = false.
Proof. destruct s; simpl; intros [H _]%orb_false_iff; exact H. Qed.

(** The names of the elements that are not plain. *)
Definition special_names : list (list Z) := [cs "?"; cs ":"; cs ":="; cs "ATAN2"].

Lemma special_names_complete (opnd : bool) e :
  e ∈ (if opnd then operands else operators) -> plain e \/ name e ∈ special_names.
Proof.
  revert e. apply Forall_forall. destruct opnd;
    repeat (constructor; [first [left; split_and!; discriminate | right; apply list_elem_of_In; simpl; tauto]|]);
    constructor.
Qed.

(** (C14) What [postfix] accepts, [calcPerform] evaluates: the code compiled from an
    expression without [?:], [:=] and [ATAN2] never makes the evaluator access its
    stack outside elements 1 to 80, the arguments outside their array or the code
    after its end; the evaluator returns status 0, and changes no argument.  Only
    [INT_MIN % -1] can stop it. *)
Theorem compiled_code_runs (m : libm) (cap : nat) (src code : list Z) (args : list float) res seed
  (Hsrc : Forall (fun w => contains_nocase w src = false) special_names)
  (Hcode : postfix cap src = postfix_ok code)
  (Hargs : length args = 12%nat) :
  calcPerform m args res seed code = inl cp_div_trap \/
  exists v seed', calcPerform m args res seed code = inr (0, args, v, seed').
Proof.
  set (ok := fun s => Forall (fun w => contains_nocase w s = false) special_names).
  destruct (postfix_straight m cap ok) with src code as (c & -> & S); [..|by apply straight_perform].
  - intros t s P K. eapply Forall_impl; [exact K|]. intros w. by apply contains_suffix.
  - intros s e opnd H M I. destruct (special_names_complete opnd e I) as [|N]; [done|].
    unfold ok in H. rewrite Forall_forall in H. specialize (H _ N). simpl in H.
    apply contains_not_element in H. congruence.
  - exact Hsrc.
  - exact Hcode.
Qed.

Lemma compiled_code_runs_witness :
  let src := cs "MAX(A,-B**2,1.5)%(C+RNDM)" in
  let code := [4; 5; 31; 2; 2; 0; 0; 0; 37; 1; 0; 0; 0; 0; 0; 0; -8; 63; 42; 3; 6; 61; 32; 36; 0] in
  calcPerform libm0 args12 0%float 0 code = inl cp_div_trap \/
  exists v seed', calcPerform libm0 args12 0%float 0 code = inr (0, args12, v, seed').
Proof.
  intros src code. apply (compiled_code_runs libm0 100 src).
  - vm_compute. repeat constructor.
  - vm_compute. reflexivity.
  - reflexivity.
Defined.
