(* ===== verification/CalcCorrect.v ===== *)
(** * The calculation engine: correctness of the compiler

    The expressions that the tables of [postfix.c] can spell, as trees: how they are
    written with the precedences of the tables ({!print}), what they mean
    ({!eval}), and that compiling and evaluating the text gives the meaning. *)

From stdpp Require Import base numbers list option strings relations.
From Stdlib Require Import ZArith Lia Bool Floats.
From S2P Require Import Prelude CStdlib Strtod EpicsStdlib EpicsString Calc CalcPerform CalcSafety CalcRun.

(** ** Expressions *)

Inductive expr :=
| Opd (e : ELEMENT)
| Lit (text : list Z) (v : float)
| Hex (text : list Z) (n : Z)
| Un (e : ELEMENT) (a : expr)
| Bin (e : ELEMENT) (a b : expr)
| Atan2 (a b : expr)
| VArg (e : ELEMENT) (a : expr) (more : exprs)
| Cond (c a b : expr)
with exprs :=
| ENil
| ECons (a : expr) (l : exprs).

Scheme expr_mut := Induction for expr Sort Prop
with exprs_mut := Induction for exprs Sort Prop.
Combined Scheme expr_exprs_ind from expr_mut, exprs_mut.

Definition elem_open_paren : ELEMENT := element "(" 0 8 0 UNARY_OPERATOR NOT_GENERATED.
Definition elem_close_paren : ELEMENT := element ")" 0 0 0 CLOSE_PAREN NOT_GENERATED.
Definition elem_comma : ELEMENT := element "," 0 0 0 SEPERATOR NOT_GENERATED.
Definition elem_atan2 : ELEMENT := element "ATAN2" 7 8 (-1) UNARY_OPERATOR ATAN2.
Definition elem_if : ELEMENT := element "?" 0 0 (-1) CONDITIONAL COND_IF.
Definition elem_else : ELEMENT := element ":" 0 0 (-1) CONDITIONAL COND_ELSE.
Definition elem_store : ELEMENT := element ":=" 0 0 (-1) STORE_OPERATOR STORE_A.
Definition elem_semicolon : ELEMENT := element ";" 0 0 0 EXPR_TERMINATOR NOT_GENERATED.

(** *** The text, with parentheses where the precedences need them *)

Definition tok (e : ELEMENT) : list Z := 32 :: name e.

(** How tightly the outermost operator binds. *)
Definition prec (x : expr) : Z :=
  match x with
  | Opd _ | Lit _ _ | Hex _ _ => 8
  | Un _ _ | Atan2 _ _ | VArg _ _ _ => 7
  | Bin e _ _ => in_stack_pri e
  | Cond _ _ _ => 0
  end.

Definition paren (p : Z) (x : expr) (text : list Z) : list Z :=
  if prec x <? p then tok elem_open_paren ++ text ++ tok elem_close_paren else text.

Fixpoint print (x : expr) : list Z :=
  match x with
  | Opd e => tok e
  | Lit t _ | Hex t _ => 32 :: t
  | Un e a => tok e ++ paren 7 a (print a)
  | Bin e a b =>
      paren (in_stack_pri e) a (print a) ++ tok e ++ paren (in_stack_pri e + 1) b (print b)
  | Atan2 a b =>
      tok elem_atan2 ++ tok elem_open_paren ++ print a ++ tok elem_comma ++ print b ++ tok elem_close_paren
  | VArg e a l => tok e ++ tok elem_open_paren ++ print a ++ prints l ++ tok elem_close_paren
  | Cond c a b =>
      paren 1 c (print c) ++ tok elem_if ++ paren 1 a (print a) ++ tok elem_else ++ print b
  end
with prints (l : exprs) : list Z :=
  match l with
  | ENil => []
  | ECons a l => tok elem_comma ++ print a ++ prints l
  end.

(** *** The code *)

Fixpoint exprs_length (l : exprs) : Z :=
  match l with ENil => 0 | ECons _ l => 1 + exprs_length l end.

Definition lit_int (v : float) : bool := (v =? Z2F (F2int32 v))%float.
Definition lit_code (v : float) : list Z :=
  if lit_int v then opcode_num LITERAL_INT :: le_bytes 4 (F2int32 v)
  else opcode_num LITERAL_DOUBLE :: double_bytes v.

Fixpoint compile (x : expr) : list Z :=
  match x with
  | Opd e => [opcode_num (code e)]
  | Lit _ v => lit_code v
  | Hex _ n => opcode_num LITERAL_INT :: le_bytes 4 n
  | Un e a => compile a ++ [opcode_num (code e)]
  | Bin e a b => compile a ++ compile b ++ [opcode_num (code e)]
  | Atan2 a b => compile a ++ compile b ++ [opcode_num ATAN2]
  | VArg e a l => compile a ++ compiles l ++ [opcode_num (code e); 1 + exprs_length l]
  | Cond c a b =>
      compile c ++ [opcode_num COND_IF] ++ compile a ++ [opcode_num COND_ELSE] ++ compile b
        ++ [opcode_num COND_END]
  end
with compiles (l : exprs) : list Z :=
  match l with
  | ENil => []
  | ECons a l => compile a ++ compiles l
  end.

(** *** The meaning *)

(** What an evaluation reads and changes beside the stack. *)
Record estate := mkE { eargs : list float; eres : float; eseed : Z }.

Definition operand_value (op : rpn_opcode) (s : estate) : cp (float * estate) :=
  match fetch_index op, constant op with
  | Some i, _ => match eargs s !! i with Some v => inr (v, s) | None => inl cp_arg end
  | None, Some c => inr (c, s)
  | None, None =>
      if decide (op = RANDOM)
      then let '(v, seed) := calcRandom (eseed s) in inr (v, mkE (eargs s) (eres s) seed)
      else inr (eres s, s)
  end.

Definition lit_value (v : float) : float := if lit_int v then Z2F (F2int32 v) else v.

Section eval.
Context (m : libm).

Definition apply_unary (op : rpn_opcode) (v : float) : float :=
  match unary_fun m op with Some f => f v | None => v end.
Definition apply_binary (op : rpn_opcode) (v w : float) : cp float :=
  match binary_fun m op with Some f => f v w | None => inr v end.
(** The values last first. *)
Definition apply_vararg (op : rpn_opcode) (vs : list float) : float :=
  match vararg_fun op, vs with
  | Some (first, f), top :: rest => fold_left (fun acc v => f v acc) rest (first top)
  | _, _ => 0%float
  end.

Fixpoint eval (x : expr) (s : estate) : cp (float * estate) :=
  match x with
  | Opd e => operand_value (code e) s
  | Lit _ v => inr (lit_value v, s)
  | Hex _ n => inr (Z2F (wrap_s 32 n), s)
  | Un e a => let* '(v, s) := eval a s in inr (apply_unary (code e) v, s)
  | Bin e a b =>
      let* '(v, s) := eval a s in
      let* '(w, s) := eval b s in
      let* r := apply_binary (code e) v w in
      inr (r, s)
  | Atan2 a b =>
      let* '(v, s) := eval a s in
      let* '(w, s) := eval b s in
      inr (atan2 m w v, s)
  | VArg e a l =>
      let* '(v, s) := eval a s in
      let* '(vs, s) := evals l [v] s in
      inr (apply_vararg (code e) vs, s)
  | Cond c a b =>
      let* '(v, s) := eval c s in
      if (v =? 0)%float then eval b s else eval a s
  end
with evals (l : exprs) (vs : list float) (s : estate) : cp (list float * estate) :=
  match l with
  | ENil => inr (vs, s)
  | ECons a l => let* '(v, s) := eval a s in evals l (v :: vs) s
  end.
End eval.

(** *** Well-formed expressions *)

(** Tokens end at a space or at the end of the text. *)
Definition sep (rest : list Z) : Prop := rest = [] \/ exists r, rest = 32 :: r.

(** [text] is a decimal literal of value [v]. *)
Definition literal (text : list Z) (v : float) : Prop := forall rest, sep rest ->
  epicsParseDouble (text ++ rest) true = inr (v, skip_spaces rest) /\
  exists e r, get_element true (32 :: text ++ rest) = (Some (e, r), text ++ rest) /\
    type e = LITERAL_OPERAND /\ code e = LITERAL_DOUBLE /\ runtime_effect e = 1.

(** [text] is a hexadecimal literal of value [n]: [0x] or [0X] and digits, with no more than 32 bits. *)
Definition hex_value (ds : list Z) : Z := fold_left (fun n c => n * 16 + default 0 (digit_in 16 c)) ds 0.
Definition hex_literal (text : list Z) (n : Z) : Prop := exists x ds, text = 48 :: x :: ds /\ is_x x = true /\ ds <> [] /\
  Forall (fun c => isxdigit c = true) ds /\ n = hex_value ds /\ n < 2 ^ 32.

Fixpoint wf (x : expr) : Prop :=
  match x with
  | Opd e => e ∈ operands /\ type e = OPERAND
  | Lit t v => literal t v
  | Hex t n => hex_literal t n
  | Un e a => (e ∈ operands /\ type e = UNARY_OPERATOR /\ plain e /\ is_open e = false) /\ wf a
  | Bin e a b => (e ∈ operators /\ type e = BINARY_OPERATOR) /\ wf a /\ wf b
  | Atan2 a b => wf a /\ wf b
  | VArg e a l => (e ∈ operands /\ type e = VARARG_OPERATOR) /\ wf a /\ wfs l
  | Cond c a b => wf c /\ wf a /\ wf b
  end
with wfs (l : exprs) : Prop :=
  match l with
  | ENil => True
  | ECons a l => wf a /\ wfs l
  end.

(** Operands the evaluation has on its stack at most. *)
Fixpoint vals (x : expr) : Z :=
  match x with
  | Opd _ | Lit _ _ | Hex _ _ => 1
  | Un _ a => vals a
  | Bin _ a b | Atan2 a b => Z.max (vals a) (1 + vals b)
  | VArg _ a l => Z.max (vals a) (valss 1 l)
  | Cond c a b => Z.max (vals c) (Z.max (vals a) (vals b))
  end
with valss (n : Z) (l : exprs) : Z :=
  match l with
  | ENil => n
  | ECons a l => Z.max (n + vals a) (valss (n + 1) l)
  end.

(** Operators the compilation has on its stack at most. *)
Fixpoint ops (x : expr) : Z :=
  match x with
  | Opd _ | Lit _ _ | Hex _ _ => 0
  | Un _ a => 2 + ops a
  | Bin _ a b => 2 + Z.max (ops a) (ops b)
  | Atan2 a b => 2 + Z.max (ops a) (ops b)
  | VArg _ a l => 2 + Z.max (ops a) (opss l)
  | Cond c a b => 2 + Z.max (ops c) (Z.max (ops a) (ops b))
  end
with opss (l : exprs) : Z :=
  match l with
  | ENil => 0
  | ECons a l => Z.max (ops a) (opss l)
  end.

(** ** The compiler on the text of an expression *)

Section compiler.
Context (cap : nat).

(** *** Moving operators to the output *)

Definition flush1 (e : ELEMENT) (od : list Z * Z) : list Z * Z :=
  let '(out, d) := od in
  let out := opcode_num (code e) :: out in
  ((if decide (type e = VARARG_OPERATOR) then wrap_s 8 (1 - runtime_effect e) :: out else out),
   d + runtime_effect e).

Definition flush (pend : list ELEMENT) (od : list Z * Z) : list Z * Z :=
  fold_left (fun od e => flush1 e od) pend od.

Lemma flush_app a b od : flush (a ++ b) od = flush b (flush a od).
Proof. apply fold_left_app. Qed.

Lemma zlen_flush1 e od : zlen (flush1 e od).1 = zlen od.1 + cost e.
Proof. destruct od as [out d]. unfold cost. simpl. case_decide; simpl; lia. Qed.

Lemma zlen_flush pend od : zlen (flush pend od).1 = zlen od.1 + costs pend.
Proof.
  revert od. induction pend as [|e pend IH]; intros od; simpl; [lia|].
  unfold flush in IH. rewrite IH, zlen_flush1. lia.
Qed.

Lemma emit_ok b out : zlen out < Z.of_nat cap -> emit cap b out = inr (wrap_s 8 b :: out).
Proof. intros. unfold emit. rewrite decide_True by lia. done. Qed.

Lemma emit_op op out : zlen out < Z.of_nat cap -> emit cap (opcode_num op) out = inr (opcode_num op :: out).
Proof. intros. by rewrite emit_ok, wrap_opcode. Qed.

Lemma emit_bytes_ok bs out :
  Forall (fun c => -128 <= c < 128) bs -> zlen out + zlen bs <= Z.of_nat cap ->
  emit_bytes cap bs out = inr (rev bs ++ out).
Proof.
  intros F. revert out. induction F as [|b bs B _ IH]; intros out L; cbn [emit_bytes]; [done|].
  simpl in L. rewrite emit_ok by lia. simpl. rewrite IH by (simpl; lia).
  rewrite wrap_s_id by (unfold fits_s; lia). simpl. by rewrite <- app_assoc.
Qed.

Lemma move_op_ok e od : zlen (flush1 e od).1 <= Z.of_nat cap -> move_op cap e od = inr (flush1 e od).
Proof.
  rewrite zlen_flush1. destruct od as [out d]. unfold cost, move_op, flush1. simpl.
  case_decide; intros L; rewrite emit_op by lia; cbn [ebind]; [|done].
  by rewrite emit_ok by (simpl; lia).
Qed.

Definition fits (pend : list ELEMENT) (od : list Z * Z) : Prop := zlen (flush pend od).1 <= Z.of_nat cap.

Lemma fits_cons e pend od : fits (e :: pend) od -> zlen (flush1 e od).1 <= Z.of_nat cap /\ fits pend (flush1 e od).
Proof.
  unfold fits. intros F. split; [|done]. simpl in F. change (fold_left _ _ _) with (flush pend (flush1 e od)) in F.
  rewrite zlen_flush in F. pose proof (costs_nonneg pend). lia.
Qed.

Definition closed (e : ELEMENT) : Prop := is_open e = false.

Lemma move_while_ok p pend st : forall od,
  Forall (fun e => p e = true) pend -> match st with e :: _ => p e = false | [] => True end ->
  fits pend od -> move_while cap p (pend ++ st) od = inr (st, flush pend od).
Proof.
  induction pend as [|e pend IH]; intros od F T L.
  - simpl. destruct st as [|e st]; simpl; [done|]. by rewrite T.
  - inversion F; subst. apply fits_cons in L as [L1 L2]. cbn [app move_while].
    rewrite H1, move_op_ok by done. cbn [ebind]. by apply IH.
Qed.

Lemma move_to_paren_ok error pend o st : forall od,
  Forall closed pend -> is_open o = true -> fits pend od ->
  move_to_paren cap error (pend ++ o :: st) od = inr (o :: st, flush pend od).
Proof.
  induction pend as [|e pend IH]; intros od F O L.
  - simpl. by rewrite O.
  - inversion F as [|? ? C F']; subst. apply fits_cons in L as [L1 L2].
    cbn [app move_to_paren]. rewrite C.
    destruct (pend ++ o :: st) eqn:E; [by destruct pend|]. rewrite move_op_ok by done.
    cbn [ebind]. by rewrite IH.
Qed.

Lemma move_all_ok pend : forall od,
  Forall closed pend -> fits pend od -> move_all cap pend od = inr (flush pend od).
Proof.
  induction pend as [|e pend IH]; intros od F L; [done|].
  inversion F as [|? ? C F']; subst. apply fits_cons in L as [L1 L2].
  cbn [move_all]. rewrite C, move_op_ok by done. cbn [ebind]. by apply IH.
Qed.

(** *** Steps on the text *)

Definition one_step (s s' : pf_state) : Prop := postfix_step cap s = inr (inl s').

(** From [src] in state [s], some elements lead to [src'] in state [s'] (the source of
    [s] and [s'] is not used; leading spaces do not matter). *)
Definition goes (src : list Z) (s : pf_state) (src' : list Z) (s' : pf_state) : Prop :=
  forall p, skip_spaces p = skip_spaces src ->
  exists p', skip_spaces p' = skip_spaces src' /\ rtc one_step (set_psrc s p) (set_psrc s' p').

Lemma goes_trans src1 s1 src2 s2 src3 s3 :
  goes src1 s1 src2 s2 -> goes src2 s2 src3 s3 -> goes src1 s1 src3 s3.
Proof.
  intros A B p E. destruct (A p E) as (p1 & E1 & R1). destruct (B p1 E1) as (p2 & E2 & R2).
  exists p2. split; [done|]. by etrans.
Qed.

Lemma get_element_skip o p q : skip_spaces p = skip_spaces q -> get_element o p = get_element o q.
Proof. unfold get_element. by intros ->. Qed.

Lemma goes_element e rest src' next s s' text :
  get_element (operand_needed s) (32 :: text ++ rest) = (Some (e, src'), text ++ rest) ->
  skip_spaces next = skip_spaces rest ->
  do_element cap e (text ++ rest) (set_psrc s src') = inr (set_psrc s' next) ->
  0 <= runtime_depth s' < 80 ->
  goes (32 :: text ++ rest) s rest s'.
Proof.
  intros G N D [D1 D2] p E. exists next. split; [done|].
  apply rtc_once; unfold one_step, postfix_step; cbn [operand_needed psrc set_psrc].
  rewrite (get_element_skip _ p (32 :: text ++ rest)) by done. rewrite G.
  change (set_psrc (set_psrc s p) src') with (set_psrc s src'). rewrite D.
  cbn [ebind]. unfold check_depth. cbn [runtime_depth set_psrc].
  rewrite (proj2 (Z.ltb_ge _ _)), (proj2 (Z.leb_gt _ _)) by (unfold CALCPERFORM_STACK; lia). done.
Qed.

(** Every name of the tables, alone, is its element. *)
Lemma get_element_tok e (opnd : bool) rest :
  e ∈ (if opnd then operands else operators) -> type e <> LITERAL_OPERAND -> sep rest ->
  get_element opnd (32 :: name e ++ rest) = (Some (e, rest), name e ++ rest).
Proof.
  assert (F : Forall (fun e => type e <> LITERAL_OPERAND -> sep rest ->
    get_element opnd (32 :: name e ++ rest) = (Some (e, rest), name e ++ rest))
    (if opnd then operands else operators)); [|rewrite Forall_forall in F; auto].
  destruct opnd;
    repeat (constructor; [intros T [->|[r ->]]; first [reflexivity | by destruct T]|]); constructor.
Qed.

Lemma goes_tok e rest s s' :
  e ∈ (if operand_needed s then operands else operators) -> type e <> LITERAL_OPERAND -> sep rest ->
  (forall src, do_element cap e src (set_psrc s rest) = inr (set_psrc s' rest)) ->
  0 <= runtime_depth s' < 80 -> goes (tok e ++ rest) s rest s'.
Proof.
  intros I T S D R. apply (goes_element e rest rest rest); [by apply get_element_tok|done|apply D|done].
Qed.

(** *** What compiling a text achieves *)

Definition cfg (out : list Z) (st : list ELEMENT) (needed : bool) (d cc : Z) : pf_state :=
  mkPf [] out st needed d cc.

(** The operator below does not move when an operator of priority [p] comes (prefix
    operators, of priority 7, come with priority 8). *)
Definition lowp (p : Z) (st : list ELEMENT) : Prop :=
  match st with
  | [] => True
  | e :: _ => (in_stack_pri e <= 0 \/ in_stack_pri e < p \/ 7 <= p) /\ in_stack_pri e <= 7
  end.

Definition low (p : Z) (st : list ELEMENT) : Prop :=
  lowp p st /\ match st with e :: _ => type e <> VARARG_OPERATOR | [] => True end.

Definition holds (p : Z) (e : ELEMENT) : Prop := p <= in_stack_pri e /\ closed e.

(** [text], written at priority [p], compiles to [code]; it uses at most [v] values
    and [o] operators. *)
Definition spaced (text : list Z) : Prop := exists t, text = 32 :: t.

Definition parses (text code : list Z) (p v o : Z) : Prop := spaced text /\ forall st out d cc rest,
  sep rest -> low p st -> zlen out + zlen code <= Z.of_nat cap ->
  0 <= d -> d + v < 80 -> zlen st + o < 80 -> 0 <= cc ->
  exists pend out' d',
    goes (text ++ rest) (cfg out st true d cc) rest (cfg out' (pend ++ st) false d' cc) /\
    flush pend (out', d') = (rev code ++ out, d + 1) /\
    Forall (holds p) pend /\ d + 1 <= d' <= d + v.

Lemma sep_space r : sep (32 :: r).
Proof. right. eauto. Qed.
Lemma sep_tok e r : sep (tok e ++ r).
Proof. apply sep_space. Qed.
Lemma sep_spaced t r : spaced t -> sep (t ++ r).
Proof. intros [t' ->]. apply sep_space. Qed.
Lemma spaced_tok e r : spaced (tok e ++ r).
Proof. eexists. reflexivity. Qed.
Lemma spaced_app t r : spaced t -> spaced (t ++ r).
Proof. intros [t' ->]. eexists. reflexivity. Qed.
Hint Resolve sep_space sep_tok sep_spaced spaced_tok spaced_app : core.

Lemma low_mono p q st : p <= q -> low p st -> low q st.
Proof. unfold low. destruct st; simpl; [done|]. intuition lia. Qed.

Lemma low_lowp p q st : p <= q -> low p st -> lowp q st.
Proof. intros L [H _]. revert H. destruct st; simpl; [done|]. lia. Qed.

Lemma low_lowp8 p st : low p st -> lowp 8 st.
Proof. intros [H _]. revert H. destruct st; simpl; [done|]. lia. Qed.

Lemma parses_mono text code p q v v' o o' :
  parses text code q v o -> p <= q -> v <= v' -> o <= o' -> parses text code p v' o'.
Proof.
  intros [Sp P] Q V O. split; [done|]. intros st out d cc rest S L C D0 D1 N CC.
  destruct (P st out d cc rest) as (pend & out' & d' & G & F & H & R);
    [done|by eapply low_mono|done|done|lia|lia|done|].
  exists pend, out', d'. split_and!; [done|done| |lia|lia].
  eapply Forall_impl; [exact H|]. intros e [H1 H2]. split; [lia|done].
Qed.

Lemma fits_flush pend out d out' d' :
  flush pend (out, d) = (out', d') -> zlen out' <= Z.of_nat cap -> fits pend (out, d).
Proof. unfold fits. by intros ->. Qed.

Lemma holds_closed p pend : Forall (holds p) pend -> Forall closed pend.
Proof. intros H. eapply Forall_impl; [exact H|]. by intros e [_ ?]. Qed.

(** Operators that hold at [p] move when one of priority [p] comes, and those below
    stay. *)
Lemma move_ge_ok p pend st od :
  Forall (holds p) pend -> 1 <= p -> p <> 7 -> lowp p st -> fits pend od ->
  move_while cap (fun top => p <=? in_stack_pri top) (pend ++ st) od = inr (st, flush pend od).
Proof.
  intros H P P7 L F. apply move_while_ok; [|destruct st as [|e st]; [done|]|done].
  - eapply Forall_impl; [exact H|]. intros e [? _]. by apply Z.leb_le.
  - destruct L as [L L7]. apply Z.leb_gt. lia.
Qed.

Lemma move_gt_ok pend st od :
  Forall (holds 1) pend -> lowp 0 st -> fits pend od ->
  move_while cap (fun top => 0 <? in_stack_pri top) (pend ++ st) od = inr (st, flush pend od).
Proof.
  intros H L F. apply move_while_ok; [|destruct st as [|e st]; [done|]|done].
  - eapply Forall_impl; [exact H|]. intros e [? _]. apply Z.ltb_lt. lia.
  - destruct L as [L _]. apply Z.ltb_ge. lia.
Qed.

Lemma push_ok e st : zlen st + 1 < 80 -> push e st = inr (e :: st).
Proof. intros L. unfold push. rewrite decide_True; [done|]. unfold OPERATOR_STACK. lia. Qed.

(** *** The tables *)

Definition table_facts (e : ELEMENT) : Prop :=
  match type e with
  | OPERAND => runtime_effect e = 1
  | UNARY_OPERATOR => closed e -> code e <> ATAN2 ->
      in_stack_pri e = 7 /\ in_coming_pri e = 8 /\ runtime_effect e = 0
  | VARARG_OPERATOR => closed e /\ in_stack_pri e = 7 /\ in_coming_pri e = 8 /\ runtime_effect e = 0
  | BINARY_OPERATOR => closed e /\ in_coming_pri e = in_stack_pri e /\ 1 <= in_stack_pri e <= 6 /\
      runtime_effect e = -1
  | _ => True
  end.

Lemma tables_facts (opnd : bool) e : e ∈ (if opnd then operands else operators) -> table_facts e.
Proof.
  assert (F : Forall table_facts (if opnd then operands else operators));
    [|rewrite Forall_forall in F; auto].
  destruct opnd; repeat (constructor; [first [exact I | reflexivity
    | cbn; intros C A; first [done | split_and!; lia] | cbn; split_and!; (done || lia)]|]); constructor.
Qed.

Lemma parses_operand e p : e ∈ operands -> type e = OPERAND -> parses (tok e) [opcode_num (code e)] p 1 0.
Proof.
  intros I T. split; [by eexists|]. intros st out d cc rest S L C D0 D1 N CC. simpl in C.
  pose proof (tables_facts true e I) as R. unfold table_facts in R. rewrite T in R.
  exists [], (opcode_num (code e) :: out), (d + 1). split_and!; [|done|done|lia|lia].
  apply goes_tok; [done|by rewrite T|done| |simpl; lia].
  intros src. unfold do_element. rewrite T. unfold do_operand. cbn [pout set_psrc cfg].
  rewrite emit_op by lia. cbn. by rewrite R.
Qed.

Lemma parses_literal t v p : literal t v -> parses (32 :: t) (lit_code v) p 1 0.
Proof.
  intros Lt. split; [by eexists|]. intros st out d cc rest S L C D0 D1 N CC.
  destruct (Lt rest S) as (E & e & r & G & T & Cd & R).
  exists [], (rev (lit_code v) ++ out), (d + 1). split_and!; [|done|done|lia|lia].
  apply (goes_element e rest r (skip_spaces rest)); [done|by rewrite skip_spaces_idem; [|apply skip_spaces_head]| |simpl; lia].
  unfold do_element. rewrite T. unfold do_literal. rewrite Cd, decide_True by done. rewrite E.
  unfold lit_code, lit_int in *. destruct (v =? Z2F (F2int32 v))%float; cbn [negb pout set_psrc cfg];
    simpl in C; lens; rewrite emit_op by lia; cbn [ebind];
    rewrite emit_bytes_ok by (apply le_bytes_range || (simpl; unfold double_bytes; lens; lia));
    cbn; rewrite R, <- ?app_assoc; done.
Qed.

(** *** Hexadecimal literals *)

Lemma hexdigit_in c : isxdigit c = true -> exists d, digit_in 16 c = Some d /\ 0 <= d < 16.
Proof.
  intros [[H|H]%orb_true_iff|H]%orb_true_iff; apply andb_true_iff in H as [L%Z.leb_le U%Z.leb_le];
    unfold digit_in, digit_value, isdigit, isupper, islower.
  - exists (c - 48). zbool; try lia. simpl. zbool; try lia. split; [done|lia].
  - exists (c - 65 + 10). zbool; try lia. simpl. zbool; try lia. split; [done|lia].
  - exists (c - 97 + 10). zbool; try lia. simpl. zbool; try lia. split; [done|lia].
Qed.

Lemma scan_digits_hex ds rest : sep rest -> Forall (fun c => isxdigit c = true) ds -> forall acc k,
  scan_digits 16 acc k (ds ++ rest) = (fold_left (fun n c => n * 16 + default 0 (digit_in 16 c)) ds acc, k + zlen ds, rest).
Proof.
  intros S H. induction H as [|c ds Hc H IH]; intros acc k.
  - simpl. rewrite Z.add_0_r. destruct S as [->|[r ->]]; reflexivity.
  - destruct (hexdigit_in c Hc) as (d & E & _). cbn [app scan_digits fold_left]. rewrite E, IH. simpl. do 2 f_equal. lia.
Qed.

Lemma hex_value_nonneg ds : Forall (fun c => isxdigit c = true) ds -> 0 <= hex_value ds.
Proof.
  unfold hex_value. assert (G : forall acc, 0 <= acc -> Forall (fun c => isxdigit c = true) ds ->
    0 <= fold_left (fun n c => n * 16 + default 0 (digit_in 16 c)) ds acc); [|by apply G].
  induction ds as [|c ds IH]; intros acc A H; simpl; [done|]. apply Forall_cons in H as [Hc H]. apply IH; [|done].
  destruct (hexdigit_in c Hc) as (d & -> & D). simpl. lia.
Qed.

Lemma hex_parse text n rest : hex_literal text n -> sep rest ->
  epicsParseUInt32 (text ++ rest) 0 true = inr (n, skip_spaces rest).
Proof.
  intros (x & ds & -> & X & Nd & H & -> & B) S. pose proof (hex_value_nonneg ds H) as P. cbn [app].
  unfold epicsParseUInt32, epicsParseULong. cbn [skip_spaces]. change (isspace 48) with false. cbn [negb valid_base].
  change (valid_base 0) with true. cbn [negb]. unfold strtoul, strto_scan. cbn [skip_spaces]. change (isspace 48) with false.
  cbn iota. change (scan_sign (48 :: x :: ds ++ rest)) with (false, 48 :: x :: ds ++ rest). cbn iota beta.
  unfold strto_base. cbn [deref tail]. rewrite Z.eqb_refl, X. destruct ds as [|c ds]; [done|].
  cbn [app deref tail]. rewrite (Forall_inv H). cbn [orb andb Z.eqb]. change (c :: ds ++ rest) with ((c :: ds) ++ rest).
  rewrite scan_digits_hex by done. fold (hex_value (c :: ds)). rewrite (proj2 (Z.eqb_neq _ _)) by (simpl; lia).
  cbn [mbind option_bind]. rewrite (proj2 (Z.ltb_ge _ _)) by (unfold ULONG_MAX; lia). cbn iota beta.
  unfold parse_tail. assert (E : wrap_u 32 (hex_value (c :: ds)) = hex_value (c :: ds)) by (apply wrap_u_id; unfold fits_u; lia).
  destruct (skip_spaces rest); rewrite (proj2 (Z.ltb_ge _ _)) by lia; simpl; by rewrite E.
Qed.

Definition elem_hex : ELEMENT := element "0X" 0 0 1 LITERAL_OPERAND LITERAL_INT.

Lemma hex_element text n rest : hex_literal text n ->
  exists r, get_element true (32 :: text ++ rest) = (Some (elem_hex, r), text ++ rest).
Proof.
  intros (x & [|c ds] & -> & X & Nd & _); [done|]. unfold is_x in X. apply orb_true_iff in X as [->%Z.eqb_eq| ->%Z.eqb_eq]; eexists; reflexivity.
Qed.

Lemma parses_hex t n p : hex_literal t n -> parses (32 :: t) (opcode_num LITERAL_INT :: le_bytes 4 n) p 1 0.
Proof.
  intros H. split; [by eexists|]. intros st out d cc rest S L C D0 D1 N CC.
  destruct (hex_element t n rest H) as [r G].
  exists [], (rev (opcode_num LITERAL_INT :: le_bytes 4 n) ++ out), (d + 1). split_and!; [|done|done|lia|lia].
  apply (goes_element elem_hex rest r (skip_spaces rest)); [done|by rewrite skip_spaces_idem; [|apply skip_spaces_head]| |simpl; lia].
  unfold do_element, do_literal. cbn [type elem_hex element code]. rewrite decide_False by done. rewrite (hex_parse t n rest H S).
  cbn [pout set_psrc cfg]. simpl in C. lens. rewrite emit_op by lia. cbn [ebind].
  rewrite emit_bytes_ok by (apply le_bytes_range || (simpl; lens; lia)). cbn. by rewrite <- ?app_assoc.
Qed.

Lemma do_element_operator e src s :
  type e = UNARY_OPERATOR \/ type e = VARARG_OPERATOR \/ type e = BINARY_OPERATOR ->
  operand_needed s = true \/ type e = BINARY_OPERATOR ->
  do_element cap e src s = do_operator cap e true s.
Proof. unfold do_element. intros [E|[E|E]] [O|O]; rewrite E, ?O; congruence. Qed.

(** A prefix operator is pushed on the operators below it. *)
Lemma goes_prefix e st out d cc rest :
  e ∈ operands -> type e = UNARY_OPERATOR \/ type e = VARARG_OPERATOR -> in_coming_pri e = 8 ->
  sep rest -> lowp 8 st -> zlen out <= Z.of_nat cap -> 0 <= d < 80 -> zlen st + 1 < 80 ->
  goes (tok e ++ rest) (cfg out st true d cc) rest (cfg out (e :: st) true d cc).
Proof.
  intros I T Ic S L C D N. apply goes_tok; [done|destruct T; congruence|done| |done].
  intros src. rewrite do_element_operator by (simpl; tauto). unfold do_operator. cbn [pstack pout runtime_depth set_psrc cfg].
  rewrite Ic. rewrite (move_ge_ok 8 [] st) by (done || lia). cbn [ebind flush fold_left].
  by rewrite push_ok.
Qed.

(** [prefix_facts e effect]: the element [e] is a prefix operator. *)
Definition is_prefix (e : ELEMENT) (effect : Z) : Prop :=
  e ∈ operands /\ type e = UNARY_OPERATOR /\ closed e /\ in_stack_pri e = 7 /\ in_coming_pri e = 8 /\
  runtime_effect e = effect.

Lemma parses_prefix text code' e p v o :
  parses text code' 7 v o -> is_prefix e 0 ->
  p <= 7 -> 0 <= o -> 1 <= v -> parses (tok e ++ text) (code' ++ [opcode_num (code e)]) p v (1 + o).
Proof.
  intros [Sp P] (I & T & Cl & Pr & Ic & Ef) Lp O1 V1. split; [done|].
  intros st out d cc rest S L C D0 D1 N CC. rewrite length_app in C. simpl in C.
  destruct (P (e :: st) out d cc rest) as (pend & out' & d' & G & F & H & R);
    [done|split; simpl; rewrite ?T; [lia|done]|lia|lia|lia|simpl; lia|done|].
  exists (pend ++ [e]), out', d'. rewrite <- !app_assoc. simpl app.
  split_and!; [|rewrite flush_app, F| |lia|lia].
  - eapply goes_trans; [|exact G]. apply goes_prefix; auto; try lia. by eapply low_lowp8.
  - simpl. rewrite T. rewrite decide_False by done. rewrite Ef, rev_app_distr. simpl. by rewrite Z.add_0_r.
  - apply Forall_app. split; [|constructor; [split; [lia|done]|constructor]].
    eapply Forall_impl; [exact H|]. intros e' [? ?]. split; [lia|done].
Qed.

Lemma parses_binary t1 t2 c1 c2 e p v1 v2 o1 o2 :
  parses t1 c1 (in_stack_pri e) v1 o1 -> parses t2 c2 (in_stack_pri e + 1) v2 o2 ->
  e ∈ operators -> type e = BINARY_OPERATOR -> p <= in_stack_pri e -> 0 <= v2 -> 0 <= o2 ->
  parses (t1 ++ tok e ++ t2) (c1 ++ c2 ++ [opcode_num (code e)]) p
    (Z.max v1 (1 + v2)) (1 + Z.max o1 o2).
Proof.
  intros [Sp1 P1] [Sp2 P2] I T Lp V2 O2. split; [auto|].
  intros st out d cc rest S L C D0 D1 N CC. lens.
  pose proof (tables_facts false e I) as X. unfold table_facts in X. rewrite T in X.
  destruct X as (Cl & Ic & Pr & Ef).
  assert (L' : low (in_stack_pri e) st) by (eapply low_mono; [|exact L]; lia).
  destruct (P1 st out d cc (tok e ++ t2 ++ rest)) as (pend1 & out1 & d1 & G1 & F1 & H1 & R1);
    [auto|done|lia|lia|lia|lia|done|].
  assert (W : low (in_stack_pri e + 1) (e :: st)) by (split; simpl; rewrite ?T; [lia|done]).
  destruct (P2 (e :: st) (rev c1 ++ out) (d + 1) cc rest) as (pend2 & out2 & d2 & G2 & F2 & H2 & R2);
    [done|done|lens; lia|lia|lia|simpl; lia|done|].
  exists (pend2 ++ [e]), out2, d2. rewrite <- !app_assoc. simpl app.
  split_and!; [|rewrite flush_app, F2| |lia|lia].
  - eapply goes_trans; [exact G1|]. eapply goes_trans; [|exact G2].
    apply goes_tok; [done|by rewrite T|auto| |simpl; lia].
    intros src. rewrite do_element_operator by (simpl; tauto). unfold do_operator.
    cbn [pstack pout runtime_depth set_psrc cfg]. rewrite Ic.
    rewrite move_ge_ok by (done || lia || apply L' || (eapply fits_flush; [exact F1|lens; lia])).
    cbn [ebind]. rewrite F1. rewrite push_ok by lia. done.
  - simpl. rewrite T, decide_False by done. rewrite Ef, !rev_app_distr. simpl.
    rewrite <- app_assoc. f_equal. lia.
  - apply Forall_app. split; [|constructor; [split; [lia|done]|constructor]].
    eapply Forall_impl; [exact H2|]. intros e' [? ?]. split; [lia|done].
Qed.

(** *** Parentheses and arguments *)

(** An open parenthesis on the stack, with its count. *)
Definition open_with (o : ELEMENT) (effect : Z) : Prop :=
  is_open o = true /\ type o = UNARY_OPERATOR /\ in_stack_pri o = 0 /\ runtime_effect o = effect.

Lemma open_low o n st p : open_with o n -> low p (o :: st).
Proof. intros (_ & T & Pr & _). split; simpl; rewrite ?T, ?Pr; [lia|done]. Qed.

Lemma goes_open st out d cc rest :
  sep rest -> lowp 8 st -> zlen out <= Z.of_nat cap -> 0 <= d < 80 -> zlen st + 1 < 80 ->
  goes (tok elem_open_paren ++ rest) (cfg out st true d cc) rest (cfg out (elem_open_paren :: st) true d cc).
Proof.
  intros. apply goes_prefix; [apply list_elem_of_In; simpl; tauto|by left|done..].
Qed.

Lemma goes_comma o n pend st out d cc out' d' rest :
  sep rest -> open_with o n -> Forall closed pend -> flush pend (out', d') = (out, d) ->
  zlen out <= Z.of_nat cap -> 0 <= d < 80 ->
  goes (tok elem_comma ++ rest) (cfg out' (pend ++ o :: st) false d' cc)
    rest (cfg out (set_runtime_effect o (n - 1) :: st) true d cc).
Proof.
  intros S (O & _ & _ & E) Cl F C D. apply goes_tok; [apply list_elem_of_In; simpl; tauto|done|done| |done].
  intros src. change (do_separator cap (set_psrc (cfg out' (pend ++ o :: st) false d' cc) rest) =
    inr (set_psrc (cfg out (set_runtime_effect o (n - 1) :: st) true d cc) rest)).
  unfold do_separator. cbn [pstack pout runtime_depth set_psrc cfg].
  rewrite move_to_paren_ok by (done || by eapply fits_flush). rewrite F, <- E. done.
Qed.

(** The operators left by a close parenthesis: a vararg operator takes its count. *)
Definition close_top (n : Z) (st : list ELEMENT) : list ELEMENT :=
  match st with
  | v :: st' => if decide (type v = VARARG_OPERATOR) then set_runtime_effect v n :: st' else st
  | [] => []
  end.

Lemma goes_close o n pend st out d cc out' d' rest :
  sep rest -> open_with o n -> -100 <= n <= 0 -> Forall closed pend -> flush pend (out', d') = (out, d) ->
  zlen out <= Z.of_nat cap -> 0 <= d < 80 ->
  goes (tok elem_close_paren ++ rest) (cfg out' (pend ++ o :: st) false d' cc)
    rest (cfg out (close_top n st) false d cc).
Proof.
  intros S (O & _ & _ & E) N Cl F C D. apply goes_tok; [apply list_elem_of_In; simpl; tauto|done|done| |done].
  intros src. change (do_close_paren cap (set_psrc (cfg out' (pend ++ o :: st) false d' cc) rest) =
    inr (set_psrc (cfg out (close_top n st) false d cc) rest)).
  unfold do_close_paren. cbn [pstack pout runtime_depth set_psrc cfg].
  rewrite move_to_paren_ok by (done || by eapply fits_flush). rewrite F, <- E. cbn [ebind].
  destruct st as [|v st]; [done|]. unfold close_top. case_decide; [|done].
  cbn [runtime_effect set_runtime_effect]. rewrite E. rewrite (proj2 (Z.ltb_ge _ _)); [done|].
  rewrite wrap_s_id; unfold fits_s; lia.
Qed.

Lemma close_top_low n p st : low p st -> close_top n st = st.
Proof. destruct st as [|v st]; simpl; [done|]. intros [_ T]. by rewrite decide_False. Qed.

Lemma parses_paren text code p v o :
  parses text code 0 v o -> 0 <= o -> 1 <= v ->
  parses (tok elem_open_paren ++ text ++ tok elem_close_paren) code p v (1 + o).
Proof.
  intros [Sp P] O1 V1. split; [auto|]. intros st out d cc rest S L C D0 D1 N CC.
  assert (Ow : open_with elem_open_paren 0) by done.
  destruct (P (elem_open_paren :: st) out d cc (tok elem_close_paren ++ rest))
    as (pend & out' & d' & G & F & H & R); [auto|by eapply open_low|lia|lia|lia|simpl; lia|done|].
  exists [], (rev code ++ out), (d + 1). rewrite <- !app_assoc.
  split_and!; [|done|done|lia|lia].
  eapply goes_trans; [apply goes_open; auto; try lia; by eapply low_lowp8|]. eapply goes_trans; [exact G|].
  simpl. rewrite <- (close_top_low 0 p st L) at 2.
  eapply goes_close; eauto using holds_closed; lens; lia.
Qed.

(** [text] compiles, after the first argument, [k] more of them. *)
Definition continues (text code : list Z) (k w o : Z) : Prop :=
  (forall rest, sep rest -> sep (text ++ rest)) /\
  forall st opn n pend out d cc out' d' rest,
  sep rest -> open_with opn n -> -100 + k <= n <= 0 -> Forall closed pend ->
  flush pend (out', d') = (out, d) -> zlen out + zlen code <= Z.of_nat cap ->
  0 <= d <= d' -> d' < 80 -> d + w < 80 -> zlen st + 1 + o < 80 -> 0 <= cc ->
  exists opn' pend2 out2 d2,
    goes (text ++ rest) (cfg out' (pend ++ opn :: st) false d' cc)
      rest (cfg out2 (pend2 ++ opn' :: st) false d2 cc) /\
    open_with opn' (n - k) /\ Forall closed pend2 /\
    flush pend2 (out2, d2) = (rev code ++ out, d + k) /\ d + k <= d2 < 80.

Lemma continues_nil w o : continues [] [] 0 w o.
Proof.
  split; [done|]. intros st opn n pend out d cc out' d' rest S Ow N Cl F C D D' W St CC.
  exists opn, pend, out', d'. split_and!; [|by rewrite Z.sub_0_r|done|by rewrite Z.add_0_r|lia|lia].
  intros p E. exists p. split; [done|reflexivity].
Qed.

Lemma continues_mono text code k w w' o o' :
  continues text code k w o -> w <= w' -> o <= o' -> continues text code k w' o'.
Proof. intros [A B] W O. split; [exact A|]. intros. eapply B; try eassumption; lia. Qed.

Lemma continues_cons t c v o0 text code k w o :
  parses t c 0 v o0 -> continues text code k (w - 1) o -> 0 <= k -> v <= w -> o0 <= o ->
  continues (tok elem_comma ++ t ++ text) (c ++ code) (1 + k) w o.
Proof.
  intros [Sp P] [Sp' Q] K V O. split; [auto|].
  intros st opn n pend out d cc out' d' rest S Ow N Cl F C D D' W St CC. lens.
  assert (Ow' : open_with (set_runtime_effect opn (n - 1)) (n - 1)).
  { destruct Ow as (A1 & A2 & A3 & A4). split_and!; [done..|]. simpl. apply wrap_s_id; unfold fits_s; lia. }
  destruct (P (set_runtime_effect opn (n - 1) :: st) out d cc (text ++ rest))
    as (pend1 & out1 & d1 & G1 & F1 & H1 & R1); [auto|by eapply open_low|lia|lia|lia|simpl; lia|done|].
  destruct (Q st _ (n - 1) pend1 (rev c ++ out) (d + 1) cc out1 d1 rest S Ow')
    as (opn' & pend2 & out2 & d2 & G2 & Ow2 & Cl2 & F2 & R2);
    [lia|by eapply holds_closed|done|lens; lia|lia|lia|lia|lia|done|].
  exists opn', pend2, out2, d2. rewrite <- !app_assoc. split_and!; [| | | |lia|lia].
  - eapply goes_trans; [|eapply goes_trans; [exact G1|exact G2]].
    eapply goes_comma; eauto. lia. lia.
  - by replace (n - (1 + k)) with (n - 1 - k) by lia.
  - done.
  - rewrite F2, rev_app_distr, <- app_assoc. f_equal. lia.
Qed.

(** An operator applied to parenthesised arguments. *)
Lemma goes_call e t c v o0 text code k w o p st out d cc rest :
  e ∈ operands -> type e = UNARY_OPERATOR \/ type e = VARARG_OPERATOR -> in_stack_pri e = 7 ->
  in_coming_pri e = 8 -> p <= 7 ->
  parses t c 0 v o0 -> continues text code k (w - 1) o -> 0 <= k <= 90 -> k + 1 <= w -> v <= w -> o0 <= o -> 0 <= o ->
  sep rest -> low p st -> zlen out + zlen (c ++ code) <= Z.of_nat cap ->
  0 <= d -> d + w < 80 -> zlen st + 2 + o < 80 -> 0 <= cc ->
  goes (tok e ++ tok elem_open_paren ++ t ++ text ++ tok elem_close_paren ++ rest) (cfg out st true d cc)
    rest (cfg (rev (c ++ code) ++ out) (close_top (- k) (e :: st)) false (d + 1 + k) cc).
Proof.
  intros I T Pr Ic P7 [Sp P] [Sp' Q] K K1 V O O1 S L C D W St CC. rewrite length_app in C.
  set (o1 := elem_open_paren). assert (Ow : open_with o1 0) by done.
  destruct (P (o1 :: e :: st) out d cc (text ++ tok elem_close_paren ++ rest))
    as (pend & out' & d' & G & F & H & R); [auto|by eapply open_low|lia|lia|lia|simpl; lia|done|].
  destruct (Q (e :: st) o1 0 pend (rev c ++ out) (d + 1) cc out' d' (tok elem_close_paren ++ rest))
    as (opn' & pend2 & out2 & d2 & G2 & Ow2 & Cl2 & F2 & R2);
    [auto|done|lia|by eapply holds_closed|done|lens; lia|lia|lia|lia|simpl; lia|done|].
  eapply goes_trans; [apply goes_prefix; auto; [by eapply low_lowp8|lia..]|].
  eapply goes_trans; [apply goes_open; auto; simpl; lia|].
  eapply goes_trans; [exact G|]. eapply goes_trans; [exact G2|].
  rewrite rev_app_distr, <- app_assoc.
  eapply goes_close; eauto; [lia|lens; lia|lia].
Qed.

Lemma parses_vararg e t c v o0 text code k w o p :
  e ∈ operands -> type e = VARARG_OPERATOR -> p <= 7 ->
  parses t c 0 v o0 -> continues text code k (w - 1) o -> 0 <= k -> k + 1 <= w -> v <= w -> o0 <= o -> 0 <= o ->
  parses (tok e ++ tok elem_open_paren ++ t ++ text ++ tok elem_close_paren)
    (c ++ code ++ [opcode_num (Calc.code e); 1 + k]) p w (2 + o).
Proof.
  intros I T P7 P Q K K1 V O O1. split; [auto|]. intros st out d cc rest S L C D W St CC. lens.
  pose proof (tables_facts true e I) as X. unfold table_facts in X. rewrite T in X.
  destruct X as (Cl & Pr & Ic & Ef). assert (W8 : wrap_s 8 (- k) = - k) by (apply wrap_s_id; unfold fits_s; lia).
  set (e' := set_runtime_effect e (- k)).
  exists [e'], (rev (c ++ code) ++ out), (d + 1 + k).
  split_and!; [| | |lia|lia].
  - rewrite <- !app_assoc. replace ([e'] ++ st) with (close_top (- k) (e :: st))
      by (simpl; by rewrite decide_True).
    eapply goes_call; eauto; lens; lia.
  - simpl. rewrite T, decide_True by done. rewrite W8, Z.sub_opp_r, wrap_s_id by (unfold fits_s; lia).
    rewrite !rev_app_distr. simpl. rewrite <- !app_assoc. f_equal. lia.
  - constructor; [|constructor]. split; [simpl; lia|done].
Qed.

Lemma parses_atan2 t1 c1 v1 o1 t2 c2 v2 o2 p :
  p <= 7 -> parses t1 c1 0 v1 o1 -> parses t2 c2 0 v2 o2 -> 0 <= o1 -> 0 <= o2 -> 1 <= v2 ->
  parses (tok elem_atan2 ++ tok elem_open_paren ++ t1 ++ tok elem_comma ++ t2 ++ tok elem_close_paren)
    (c1 ++ c2 ++ [opcode_num ATAN2]) p (Z.max v1 (1 + v2)) (2 + Z.max o1 o2).
Proof.
  intros P7 P1 P2 O1 O2 V2. split; [auto|]. intros st out d cc rest S L C D W St CC. lens.
  assert (Q : continues (tok elem_comma ++ t2 ++ []) (c2 ++ []) (1 + 0) (Z.max v1 (1 + v2) - 1) (Z.max o1 o2)).
  { eapply continues_cons; [exact P2|apply continues_nil|lia..]. }
  rewrite !app_nil_r in Q.
  exists [elem_atan2], (rev (c1 ++ c2) ++ out), (d + 1 + 1).
  split_and!; [| | |lia|lia].
  - rewrite <- !app_assoc. change ([elem_atan2] ++ st) with (close_top (- (1 + 0)) (elem_atan2 :: st)).
    pose proof (goes_call elem_atan2 t1 c1 v1 o1 (tok elem_comma ++ t2) c2 1 (Z.max v1 (1 + v2)) (Z.max o1 o2)
      p st out d cc rest) as G. rewrite <- !app_assoc in G. apply G; try done; try lia;
      [apply list_elem_of_In; simpl; tauto|by left|lens; lia].
  - simpl. rewrite !rev_app_distr. simpl. rewrite <- !app_assoc. f_equal. lia.
  - constructor; [|constructor]. split; [simpl; lia|done].
Qed.

(** *** Conditionals *)

Lemma do_conditional_ok e pend st src out d cc out' d' :
  Forall (holds 1) pend -> lowp 0 st -> flush pend (out', d') = (out, d) -> zlen out < Z.of_nat cap ->
  in_coming_pri e = 0 ->
  do_conditional cap e (set_psrc (cfg out' (pend ++ st) false d' cc) src) =
  (let out := opcode_num (code e) :: out in
   let d := d + runtime_effect e in
   if deref (name e) =? 58 then
     if cc - 1 <? 0 then inl (pf_bad CALC_ERR_CONDITIONAL) else
     let* st := push (set_runtime_effect (set_code e COND_END) 0) st in
     inr (set_psrc (cfg out st true d (cc - 1)) src)
   else inr (set_psrc (cfg out st true d (cc + 1)) src)).
Proof.
  intros H L F C Ic. unfold do_conditional. cbn [pstack pout runtime_depth set_psrc cfg]. rewrite Ic.
  rewrite move_gt_ok by (done || (eapply fits_flush; [exact F|lia])). rewrite F. cbn [ebind].
  rewrite emit_op by done. done.
Qed.

Lemma parses_cond tc cc' vc oc ta ca va oa tb cb vb ob p :
  parses tc cc' 1 vc oc -> parses ta ca 1 va oa -> parses tb cb 0 vb ob -> p <= 0 ->
  0 <= oc -> 0 <= oa -> 0 <= ob -> 1 <= va -> 1 <= vb -> 1 <= vc ->
  parses (tc ++ tok elem_if ++ ta ++ tok elem_else ++ tb)
    (cc' ++ [opcode_num COND_IF] ++ ca ++ [opcode_num COND_ELSE] ++ cb ++ [opcode_num COND_END]) p
    (Z.max vc (Z.max va vb)) (1 + Z.max oc (Z.max oa ob)).
Proof.
  intros [Sc Pc] [Sa Pa] [Sb Pb] P0 Oc Oa Ob Va Vb Vc. split; [auto|].
  intros st out d cc rest S L C D W St CC. lens.
  assert (L0 : low 0 st) by (by eapply low_mono; [|exact L]).
  assert (L1 : low 1 st) by (by eapply low_mono; [|exact L0]).
  set (ende := set_runtime_effect (set_code elem_else COND_END) 0).
  destruct (Pc st out d cc (tok elem_if ++ ta ++ tok elem_else ++ tb ++ rest))
    as (p1 & out1 & d1 & G1 & F1 & H1 & R1); [auto|done|lia|lia|lia|lia|done|].
  destruct (Pa st (opcode_num COND_IF :: rev cc' ++ out) d (cc + 1) (tok elem_else ++ tb ++ rest))
    as (p2 & out2 & d2 & G2 & F2 & H2 & R2); [auto|done|simpl; lens; lia|lia|lia|lia|lia|].
  destruct (Pb (ende :: st) (opcode_num COND_ELSE :: rev ca ++ opcode_num COND_IF :: rev cc' ++ out) d cc rest)
    as (p3 & out3 & d3 & G3 & F3 & H3 & R3); [done|split; simpl; [lia|done]|simpl; lens; simpl; lens; lia|lia|lia|simpl; lia|lia|].
  exists (p3 ++ [ende]), out3, d3. rewrite <- !app_assoc. simpl ([ende] ++ st).
  split_and!; [|rewrite flush_app, F3| |lia|lia].
  - eapply goes_trans; [exact G1|]. eapply goes_trans; [|eapply goes_trans; [exact G2|eapply goes_trans; [|exact G3]]].
    + apply goes_tok; [apply list_elem_of_In; simpl; tauto|done|auto| |simpl; lia].
      intros src. etrans; [exact (do_conditional_ok elem_if p1 st _ _ _ cc _ _ H1 (proj1 L0) F1 ltac:(lens; lia) eq_refl)|].
      cbn. by replace (d + 1 + -1) with d by lia.
    + apply goes_tok; [apply list_elem_of_In; simpl; tauto|done|auto| |simpl; lia].
      intros src. etrans; [exact (do_conditional_ok elem_else p2 st _ _ _ (cc + 1) _ _ H2 (proj1 L0) F2
        ltac:(lens; simpl; lens; lia) eq_refl)|].
      cbn -[push]. rewrite Z.add_simpl_r, (proj2 (Z.ltb_ge _ _)) by lia. fold ende. rewrite push_ok by lia.
      cbn. by replace (d + 1 + -1) with d by lia.
  - simpl. rewrite Z.add_0_r. f_equal. repeat (rewrite rev_app_distr; simpl).
    by repeat (rewrite <- app_assoc; simpl).
  - apply Forall_app. split; [|constructor; [split; [simpl; lia|done]|constructor]].
    eapply Forall_impl; [exact H3|]. intros e' [? ?]. split; [lia|done].
Qed.

(** *** Every expression *)

Lemma vals_pos x : 1 <= vals x.
Proof. induction x; simpl; lia. Qed.

Lemma ops_nonneg : (forall x, 0 <= ops x) /\ (forall l, 0 <= opss l).
Proof. apply expr_exprs_ind; intros; simpl; lia. Qed.

Lemma valss_ge l : forall n, n + exprs_length l <= valss n l.
Proof. induction l as [|a l IH]; intros n; simpl; [lia|]. specialize (IH (n + 1)). lia. Qed.

Lemma exprs_length_nonneg l : 0 <= exprs_length l.
Proof. induction l; simpl; lia. Qed.

Lemma prec_nonneg x : wf x -> 0 <= prec x.
Proof.
  destruct x; simpl; try lia. intros [[I T] _]. apply (tables_facts false) in I.
  unfold table_facts in I. rewrite T in I. lia.
Qed.

Lemma prefix_facts e : e ∈ operands -> type e = UNARY_OPERATOR -> plain e -> is_open e = false -> is_prefix e 0.
Proof.
  intros I T (_ & _ & A) O. pose proof (tables_facts true e I) as X. unfold table_facts in X. rewrite T in X.
  destruct (X O A) as (? & ? & ?). done.
Qed.

Lemma parses_expr :
  (forall x, wf x -> forall p, p <= prec x -> p <= 7 -> parses (print x) (compile x) p (vals x) (ops x)) /\
  (forall l, wfs l -> forall n, continues (prints l) (compiles l) (exprs_length l) (valss n l - n) (opss l)).
Proof.
  assert (Level : forall x, (wf x -> forall p, p <= prec x -> p <= 7 -> parses (print x) (compile x) p (vals x) (ops x)) ->
    wf x -> forall q, 0 <= q <= 7 -> parses (paren q x (print x)) (compile x) q (vals x) (1 + ops x)).
  { intros x IH W q Q. unfold paren. pose proof (prec_nonneg x W). destruct (Z.ltb_spec (prec x) q).
    - apply parses_paren; [apply IH; [done|lia|lia]|apply ops_nonneg|apply vals_pos].
    - eapply parses_mono; [apply IH; [done|eassumption|lia]|lia..]. }
  pose proof vals_pos as Vp. destruct ops_nonneg as [Op Ops].
  apply expr_exprs_ind.
  - intros e [I T] p _ P7. by apply parses_operand.
  - intros t v Lt p _ P7. by apply parses_literal.
  - intros t n H p _ P7. by apply parses_hex.
  - intros e a IH [(I & T & Pl & O) W] p Pp P7. simpl in Pp |- *.
    eapply parses_mono with (q := p); [apply parses_prefix; [by apply (Level a IH W 7)|by apply prefix_facts|..]|..];
      try lia; pose proof (Op a); pose proof (Vp a); lia.
  - intros e a IHa b IHb [[I T] [Wa Wb]] p Pp P7. simpl in Pp |- *.
    pose proof (tables_facts false e I) as X. unfold table_facts in X. rewrite T in X.
    pose proof (Op a). pose proof (Vp a). pose proof (Op b). pose proof (Vp b).
    eapply parses_mono with (q := p);
      [apply parses_binary; [by apply (Level a IHa Wa); lia|by apply (Level b IHb Wb); lia|..]|..]; done || lia.
  - intros a IHa b IHb [Wa Wb] p Pp P7. simpl in Pp |- *.
    pose proof (prec_nonneg a Wa). pose proof (prec_nonneg b Wb).
    apply parses_atan2; try done; [by apply IHa|by apply IHb].
  - intros e a IHa l IHl [[I T] [Wa Wl]] p Pp P7. simpl in Pp |- *.
    pose proof (prec_nonneg a Wa). pose proof (exprs_length_nonneg l). pose proof (valss_ge l 1).
    pose proof (Op a). pose proof (Ops l).
    eapply parses_vararg; [done|done|done|by apply IHa|eapply continues_mono; [by apply (IHl Wl 1)|lia|lia]|lia..].
  - intros c IHc a IHa b IHb (Wc & Wa & Wb) p Pp P7. simpl in Pp |- *.
    pose proof (prec_nonneg b Wb).
    pose proof (Op c). pose proof (Op a). pose proof (Op b).
    eapply parses_mono with (q := p); [apply parses_cond; [apply (Level c IHc Wc); lia|apply (Level a IHa Wa); lia|by apply IHb|..]|..];
      done || lia.
  - intros _ n. simpl. apply continues_nil.
  - intros a IHa l IHl [Wa Wl] n. simpl. pose proof (prec_nonneg a Wa).
    pose proof (valss_ge l (n + 1)). pose proof (exprs_length_nonneg l).
    eapply continues_cons; [by apply IHa|eapply continues_mono; [by apply (IHl Wl (n + 1))|lia|lia]|lia..].
Qed.
End compiler.

(** ** The evaluator on the code of an expression *)

Section evaluator.
Context (m : libm).

(** *** The fuel is enough *)

Lemma skip_length n pinst pinst' : skip n pinst = inr pinst' -> (length pinst' <= length pinst)%nat.
Proof. unfold skip. case_decide; [|done]. intros [= <-]. lens. lia. Qed.

Lemma cond_search_enough mtch fuel : forall fuel' count pinst,
  (length pinst < fuel)%nat -> (length pinst < fuel')%nat ->
  cond_search fuel mtch count pinst = cond_search fuel' mtch count pinst.
Proof.
  induction fuel as [|fuel IH]; intros [|fuel'] count pinst L L'; try lia.
  cbn [cond_search]. destruct pinst as [|op pinst]; [done|].
  destruct (_ =? _); [done|]. destruct (_ && _); [done|].
  destruct (skip _ _) as [|p'] eqn:S; [done|]. apply skip_length in S. simpl in *. apply IH; lia.
Qed.

Lemma cond_search_length mtch fuel : forall count pinst rest,
  cond_search fuel mtch count pinst = inr (Some rest) -> (length rest <= length pinst)%nat.
Proof.
  induction fuel as [|fuel IH]; intros count pinst rest; [done|].
  cbn [cond_search]. destruct pinst as [|op pinst]; [done|].
  destruct (_ =? _); [done|]. destruct (_ && _); [intros [= <-]; simpl; lia|].
  destruct (skip _ _) as [|p'] eqn:S; [done|]. apply skip_length in S. intros H%IH. simpl. lia.
Qed.

Lemma exec_length op pinst s pinst' s' :
  exec m op pinst s = inr (Some (pinst', s')) -> (length pinst' <= length pinst)%nat.
Proof.
  assert (P : forall (r : cp cp_state), (let* s := r in inr (stay pinst s)) = inr (Some (pinst', s')) ->
    (length pinst' <= length pinst)%nat) by (intros [|] [=]; subst; lia).
  unfold exec. destruct (fetch_index op); [destruct (parg s !! _); [apply P|done]|].
  destruct (store_index op).
  { unfold exec_store. destruct (cp_pop s) as [|[v s1]]; [done|]. cbn. case_decide; [|done]. intros [=]; subst; lia. }
  destruct (constant op); [apply P|]. destruct (unary_fun m op); [apply P|].
  destruct (binary_fun m op); [apply P|]. destruct (vararg_fun op) as [[first f]|].
  { unfold exec_vararg. destruct pinst as [|n p]; [done|]. destruct (cp_pop s) as [|[v s1]]; [done|]. cbn.
    destruct (vararg_loop _ _ _ _); [done|]. intros [=]; subst. lia. }
  assert (L : forall n f, exec_literal n f pinst s = inr (Some (pinst', s')) -> (length pinst' <= length pinst)%nat).
  { intros n f. unfold exec_literal. destruct (skip n pinst) as [|p'] eqn:S; [done|]. apply skip_length in S.
    cbn. destruct (cp_push _ _); [done|]. intros [=]; subst. done. }
  assert (C : forall mt s1, (let* r := cond_skip mt pinst in inr (opt_skip s1 r)) = inr (Some (pinst', s')) ->
    (length pinst' <= length pinst)%nat).
  { intros mt s1. unfold cond_skip. destruct (cond_search _ _ _ _) as [|[r|]] eqn:S; try done.
    apply cond_search_length in S. intros [=]; subst. done. }
  destruct op; cbn -[cond_skip exec_literal cp_push]; try done; try apply P; try apply L; try apply C.
  - destruct (cp_pop s) as [|[v s1]]; [done|]. cbn -[cond_skip]. destruct (PrimFloat.eqb v 0); [apply C|].
    intros [=]; subst; lia.
  - intros [=]; subst; lia.
Qed.

Lemma cp_loop_enough fuel : forall fuel' pinst s,
  (length pinst < fuel)%nat -> (length pinst < fuel')%nat ->
  cp_loop m fuel pinst s = cp_loop m fuel' pinst s.
Proof.
  induction fuel as [|fuel IH]; intros [|fuel'] pinst s L L'; try lia.
  cbn [cp_loop]. destruct pinst as [|b pinst]; [done|]. destruct (_ =? _); [done|].
  destruct (opcode_of_num b) as [op|]; [|done].
  destruct (exec m op pinst s) as [|[[p' s']|]] eqn:E; try done. cbn [ebind].
  apply exec_length in E. simpl in *. apply IH; lia.
Qed.

(** The loop, with the fuel it has in {!calcPerform}. *)
Definition cp_run (pinst : list Z) (s : cp_state) : cp (bool * cp_state) :=
  cp_loop m (S (length pinst)) pinst s.

Lemma cp_run_op op pinst s :
  opcode_num op <> 0 ->
  cp_run (opcode_num op :: pinst) s =
  (let* r := exec m op pinst s in
   match r with None => inr (false, s) | Some (pinst, s) => cp_run pinst s end).
Proof.
  intros N. unfold cp_run at 1. cbn [cp_loop]. change (opcode_num END_EXPRESSION) with 0.
  rewrite (proj2 (Z.eqb_neq _ _) N), opcode_of_opcode_num.
  destruct (exec m op pinst s) as [|[[p' s']|]] eqn:E; try done. cbn [ebind].
  apply exec_length in E. apply cp_loop_enough; simpl; lia.
Qed.

Lemma cp_run_end pinst s : cp_run (0 :: pinst) s = inr (true, s).
Proof. reflexivity. Qed.

(** *** Skipping an expression *)

Definition search (mtch : rpn_opcode) (count : Z) (pinst : list Z) : cp (option (list Z)) :=
  cond_search (S (length pinst)) (opcode_num mtch) count pinst.

(** [code] is invisible to a search. *)
Definition skipped (code : list Z) : Prop := forall mtch count rest,
  mtch = COND_ELSE \/ mtch = COND_END -> 1 <= count ->
  search mtch count (code ++ rest) = search mtch count rest.

Lemma skipped_nil : skipped [].
Proof. by intros mtch count rest _ _. Qed.

Lemma skipped_app a b : skipped a -> skipped b -> skipped (a ++ b).
Proof. intros A B mtch count rest M C. rewrite <- app_assoc, A, B by done. done. Qed.

Definition jumps (op : rpn_opcode) : bool :=
  bool_decide (op = COND_IF \/ op = COND_ELSE \/ op = COND_END \/ op = END_EXPRESSION).

Lemma search_cons mtch count op pinst :
  op <> END_EXPRESSION ->
  search mtch count (opcode_num op :: pinst) =
  (let c := if opcode_num op =? opcode_num mtch then count - 1 else count in
   if (opcode_num op =? opcode_num mtch) && (c =? 0) then inr (Some pinst) else
   let* pinst := skip (data_size (opcode_num op)) pinst in
   search mtch (if opcode_num op =? opcode_num COND_IF then c + 1 else c) pinst).
Proof.
  intros N. unfold search at 1. cbn [cond_search].
  assert (Z0 : opcode_num op =? opcode_num END_EXPRESSION = false)
    by (apply Z.eqb_neq; intros E; destruct op; done).
  rewrite Z0. cbv zeta. destruct (_ && _); [done|].
  destruct (skip _ _) as [|p'] eqn:S; [done|]. cbn [ebind]. apply skip_length in S.
  apply cond_search_enough; simpl; lia.
Qed.

Lemma skipped_op op data :
  jumps op = false -> length data = data_size (opcode_num op) -> skipped (opcode_num op :: data).
Proof.
  intros J L mtch count rest M C. simpl. rewrite search_cons by (intros ->; done).
  assert (opcode_num op =? opcode_num mtch = false)
    by (apply Z.eqb_neq; intros E; destruct M as [-> | ->], op; done).
  assert (opcode_num op =? opcode_num COND_IF = false)
    by (apply Z.eqb_neq; intros E; destruct op; done).
  rewrite H, H0. cbn [andb]. unfold skip. rewrite decide_True by llia.
  rewrite drop_app_all by done. done.
Qed.

Lemma skip_0 p : skip 0 p = inr p.
Proof. reflexivity. Qed.

Lemma search_if mtch c p : mtch = COND_ELSE \/ mtch = COND_END -> search mtch c (opcode_num COND_IF :: p) = search mtch (c + 1) p.
Proof. intros [-> | ->]; rewrite search_cons by done; reflexivity. Qed.

Lemma search_match mtch c p : mtch = COND_ELSE \/ mtch = COND_END -> c <> 0 ->
  search mtch (c + 1) (opcode_num mtch :: p) = search mtch c p.
Proof.
  intros M C. rewrite search_cons by (destruct M as [-> | ->]; done). apply Z.eqb_neq in C.
  destruct M as [-> | ->]; cbn -[search]; by rewrite Z.add_simpl_r, C.
Qed.

Lemma search_else c p : search COND_END c (opcode_num COND_ELSE :: p) = search COND_END c p.
Proof. by rewrite search_cons. Qed.
Lemma search_end c p : search COND_ELSE c (opcode_num COND_END :: p) = search COND_ELSE c p.
Proof. by rewrite search_cons. Qed.

Lemma search_pair mtch c b rest :
  mtch = COND_ELSE \/ mtch = COND_END -> 1 <= c -> skipped b ->
  search mtch (c + 1) (opcode_num COND_ELSE :: b ++ opcode_num COND_END :: rest) = search mtch c rest.
Proof.
  intros M C B. destruct M as [-> | ->].
  - rewrite search_match by (tauto || lia). rewrite B by (tauto || lia). apply search_end.
  - rewrite search_else. rewrite B by (tauto || lia). apply search_match; [tauto|lia].
Qed.

Lemma skipped_cond a b :
  skipped a -> skipped b ->
  skipped ([opcode_num COND_IF] ++ a ++ [opcode_num COND_ELSE] ++ b ++ [opcode_num COND_END]).
Proof.
  intros A B mtch count rest M C. rewrite <- !app_assoc. simpl app.
  etrans; [by apply search_if|]. rewrite A by (done || lia). by apply search_pair.
Qed.

Lemma wf_operand_jumps e (opnd : bool) : e ∈ (if opnd then operands else operators) ->
  type e = OPERAND \/ (type e = UNARY_OPERATOR /\ is_open e = false) \/ type e = BINARY_OPERATOR ->
  jumps (code e) = false /\ data_size (opcode_num (code e)) = 0%nat.
Proof.
  assert (F : Forall (fun e => type e = OPERAND \/ (type e = UNARY_OPERATOR /\ is_open e = false) \/ type e = BINARY_OPERATOR ->
    jumps (code e) = false /\ data_size (opcode_num (code e)) = 0%nat) (if opnd then operands else operators));
    [|rewrite Forall_forall in F; auto].
  destruct opnd; repeat (constructor; [intros T; first [split; reflexivity | exfalso; destruct T as [?|[[? ?]|?]]; discriminate]|]); constructor.
Qed.

Lemma wf_vararg_jumps e : e ∈ operands -> type e = VARARG_OPERATOR ->
  jumps (code e) = false /\ data_size (opcode_num (code e)) = 1%nat.
Proof.
  assert (F : Forall (fun e => type e = VARARG_OPERATOR ->
    jumps (code e) = false /\ data_size (opcode_num (code e)) = 1%nat) operands);
    [|rewrite Forall_forall in F; auto].
  repeat (constructor; [intros T; first [split; reflexivity | discriminate T]|]); constructor.
Qed.

Lemma compile_skipped :
  (forall x, wf x -> skipped (compile x)) /\ (forall l, wfs l -> skipped (compiles l)).
Proof.
  apply expr_exprs_ind; simpl.
  - intros e [I T]. destruct (wf_operand_jumps e true I) as [J D]; [tauto|]. by apply skipped_op.
  - intros t v _. unfold lit_code. destruct (lit_int v); apply skipped_op; done.
  - intros t n _. by apply (skipped_op LITERAL_INT (le_bytes 4 n)).
  - intros e a IH [(I & T & _ & O) W]. apply skipped_app; [auto|].
    destruct (wf_operand_jumps e true I) as [J D]; [tauto|]. by apply skipped_op.
  - intros e a IHa b IHb [[I T] [Wa Wb]].
    destruct (wf_operand_jumps e false I) as [J D]; [tauto|].
    repeat apply skipped_app; auto. by apply skipped_op.
  - intros a IHa b IHb [Wa Wb]. repeat apply skipped_app; auto. by apply (skipped_op ATAN2 []).
  - intros e a IHa l IHl [[I T] [Wa Wl]]. destruct (wf_vararg_jumps e I T) as [J D].
    repeat apply skipped_app; auto. by apply (skipped_op _ [_]).
  - intros c IHc a IHa b IHb (Wc & Wa & Wb). apply skipped_app; [auto|]. apply skipped_cond; auto.
  - intros _. apply skipped_nil.
  - intros a IHa l IHl [Wa Wl]. apply skipped_app; auto.
Qed.

(** *** Evaluating an expression *)

Definition with_estate (st : list float) (es : estate) : cp_state :=
  mkCp st (eargs es) (eres es) (eseed es).

Lemma push_with v st es :
  zlen st < 80 -> cp_push v (with_estate st es) = inr (with_estate (v :: st) es).
Proof. intros L. unfold cp_push. cbn [cp_stack with_estate]. rewrite (proj2 (Z.ltb_lt _ _)) by exact L. done. Qed.

Lemma exec_operand_eval op st es pinst :
  pushes op = true -> zlen st < 80 -> length (eargs es) = 12%nat ->
  exec m op pinst (with_estate st es) =
  (let* '(v, es') := operand_value op es in inr (Some (pinst, with_estate (v :: st) es'))).
Proof.
  intros P L A.
  assert (F : forall i, (i < 12)%nat ->
    match eargs es !! i with Some v => let* s := cp_push v (with_estate st es) in inr (stay pinst s) | None => inl cp_arg end
    = let* '(v, es') := match eargs es !! i with Some v => inr (v, es) | None => inl cp_arg end in
      inr (Some (pinst, with_estate (v :: st) es'))).
  { intros i I. destruct (lookup_lt_is_Some_2 (eargs es) i) as [v ->]; [lia|]. by rewrite push_with. }
  assert (C : forall c es', (let* s := cp_push c (with_estate st es') in inr (stay pinst s)) =
    inr (Some (pinst, with_estate (c :: st) es'))) by (intros c es'; by rewrite push_with).
  destruct op; try discriminate P; unfold exec, operand_value; eval_index; cbn -[cp_push];
    try (apply F; lia); try apply (C _ es).
  rewrite decide_True by done. apply (C _ (mkE (eargs es) (eres es) _)).
Qed.

Lemma exec_unary_eval op f v st es pinst :
  unary_fun m op = Some f ->
  exec m op pinst (with_estate (v :: st) es) = inr (Some (pinst, with_estate (f v :: st) es)).
Proof. intros U. destruct op; try discriminate U; injection U as <-; reflexivity. Qed.

Lemma exec_binary_eval op f v w st es pinst :
  binary_fun m op = Some f ->
  exec m op pinst (with_estate (w :: v :: st) es) =
  (let* r := f v w in inr (Some (pinst, with_estate (r :: st) es))).
Proof.
  intros U. destruct op; try discriminate U; injection U as <-; try reflexivity.
  unfold exec; eval_index. cbn. destruct (modulo v w); done.
Qed.

Lemma vararg_loop_fold f vs st : forall acc,
  vararg_loop f (zlen vs + 1) acc (vs ++ st) = inr (fold_left (fun acc v => f v acc) vs acc :: st).
Proof.
  induction vs as [|v vs IH]; intros acc.
  - destruct st; reflexivity.
  - cbn [app vararg_loop fold_left]. rewrite (proj2 (Z.eqb_neq _ _)) by (simpl; lia).
    replace (zlen (v :: vs) + 1 - 1) with (zlen vs + 1) by (simpl; lia). apply IH.
Qed.

Lemma exec_vararg_eval op v vs st es pinst :
  is_Some (vararg_fun op) ->
  exec m op (1 + zlen vs :: pinst) (with_estate (v :: vs ++ st) es) =
  inr (Some (pinst, with_estate (apply_vararg op (v :: vs) :: st) es)).
Proof.
  intros [[first f] U]. unfold apply_vararg. rewrite U.
  assert (E : forall p s, exec m op p s = exec_vararg first f p s)
    by (intros; destruct op; try discriminate U; injection U as <- <-; reflexivity).
  rewrite E. unfold exec_vararg. cbn [cp_pop cp_stack with_estate ebind with_stack].
  replace (1 + zlen vs) with (zlen vs + 1) by lia. rewrite vararg_loop_fold. done.
Qed.

Lemma literal_eval v st es rest :
  zlen st < 80 -> cp_run (lit_code v ++ rest) (with_estate st es) = cp_run rest (with_estate (lit_value v :: st) es).
Proof.
  intros L. unfold lit_code, lit_value. destruct (lit_int v) eqn:I;
    rewrite <- app_comm_cons, cp_run_op by done; unfold exec; eval_index;
    cbn -[le_bytes le_value double_bytes exec_literal cp_run];
    unfold exec_literal, skip; rewrite decide_True by (unfold double_bytes; lens; lia);
    cbn [ebind]; rewrite drop_app_all, take_app_all by (unfold double_bytes; by lens).
  - rewrite push_with by done. cbn [ebind stay]. rewrite int32_bytes; [done|].
    unfold F2int32. destruct (F2Z v); [|unfold fits_s; lia]. case_decide; [done|unfold fits_s; lia].
  - rewrite push_with by done. cbn [ebind stay]. by rewrite double_bytes_roundtrip.
Qed.

Lemma hex_eval n st es rest : zlen st < 80 ->
  cp_run ((opcode_num LITERAL_INT :: le_bytes 4 n) ++ rest) (with_estate st es) =
  cp_run rest (with_estate (Z2F (wrap_s 32 n) :: st) es).
Proof.
  intros L. rewrite <- app_comm_cons, cp_run_op by done. unfold exec; eval_index.
  cbn -[le_bytes le_value exec_literal cp_run]. unfold exec_literal, skip. rewrite decide_True by (lens; lia).
  cbn [ebind]. rewrite drop_app_all, take_app_all by (by lens). rewrite push_with by done. cbn [ebind stay].
  do 4 f_equal. apply wrap_s_congr. rewrite le_value_bytes. change (8 * Z.of_nat 4) with 32. by rewrite Z.mod_mod.
Qed.

Lemma element_binary e : e ∈ operators -> type e = BINARY_OPERATOR -> is_Some (binary_fun m (code e)).
Proof.
  intros I T. assert (F : Forall (fun e => type e = BINARY_OPERATOR -> is_Some (binary_fun m (code e))) operators);
    [|rewrite Forall_forall in F; auto].
  repeat (constructor; [intros T'; first [discriminate T' | eexists; reflexivity]|]); constructor.
Qed.

Lemma element_vararg e : e ∈ operands -> type e = VARARG_OPERATOR ->
  is_Some (vararg_fun (code e)) /\ opcode_num (code e) <> 0.
Proof.
  intros I T. assert (F : Forall (fun e => type e = VARARG_OPERATOR ->
    is_Some (vararg_fun (code e)) /\ opcode_num (code e) <> 0) operands);
    [|rewrite Forall_forall in F; auto].
  repeat (constructor; [intros T'; first [discriminate T' | split; [eexists; reflexivity|discriminate]]|]); constructor.
Qed.

Lemma element_unary e : e ∈ operands -> type e = UNARY_OPERATOR -> plain e -> is_open e = false ->
  is_Some (unary_fun m (code e)).
Proof.
  intros I T P O. pose proof (element_facts m true e I P) as X. unfold plain_facts in X. rewrite T in X.
  destruct X as (_ & _ & [?|_ (_ & U & _) _|_ (T' & _) _|_ (T' & _) _]); [congruence|done|congruence|congruence].
Qed.

Lemma element_operand e : e ∈ operands -> type e = OPERAND -> pushes (code e) = true.
Proof.
  intros I T. assert (F : Forall (fun e => type e = OPERAND -> pushes (code e) = true) operands);
    [|rewrite Forall_forall in F; auto].
  repeat (constructor; [intros T'; first [discriminate T' | reflexivity]|]); constructor.
Qed.

Lemma end_not_op op : is_Some (unary_fun m op) \/ is_Some (binary_fun m op) \/ pushes op = true -> opcode_num op <> 0.
Proof. intros H E. destruct op; try done. destruct H as [[? ?]|[[? ?]|?]]; discriminate. Qed.

(** An evaluation changes the seed only. *)
Lemma eval_keeps :
  (forall x es v es', eval m x es = inr (v, es') -> eargs es' = eargs es /\ eres es' = eres es) /\
  (forall l vs es vs' es', evals m l vs es = inr (vs', es') ->
     eargs es' = eargs es /\ eres es' = eres es /\ zlen vs' = zlen vs + exprs_length l).
Proof.
  assert (B : forall (A C : Type) (r : cp (A * estate)) (f : A -> estate -> cp (C * estate)) x es',
    (let* '(a, s) := r in f a s) = inr (x, es') -> exists a s, r = inr (a, s) /\ f a s = inr (x, es')).
  { intros A C [|[a s]] f x es' E; [done|]. eauto. }
  apply expr_exprs_ind; simpl.
  - intros e es v es'. unfold operand_value. destruct (fetch_index _).
    { destruct (eargs es !! _); [by intros [= _ <-]|done]. }
    destruct (constant _); [by intros [= _ <-]|]. destruct (decide _); [|by intros [= _ <-]].
    destruct (calcRandom _). by intros [= _ <-].
  - by intros t w es v es' [= _ <-].
  - by intros t n es v es' [= _ <-].
  - intros e a IH es v es' (w & s & E & [= _ <-])%B. by apply IH in E.
  - intros e a IHa b IHb es v es' (w & s & Ea & (w2 & s2 & Eb & E)%B)%B.
    destruct (apply_binary _ _ _ _); [done|]. injection E as _ <-.
    apply IHa in Ea as [Ea1 Ea2]; apply IHb in Eb as [Eb1 Eb2]; by rewrite Eb1, Eb2.
  - intros a IHa b IHb es v es' (w & s & Ea & (w2 & s2 & Eb & [= _ <-])%B)%B.
    apply IHa in Ea as [Ea1 Ea2]; apply IHb in Eb as [Eb1 Eb2]; by rewrite Eb1, Eb2.
  - intros e a IHa l IHl es v es' (w & s & Ea & (w2 & s2 & Eb & [= _ <-])%B)%B.
    apply IHa in Ea as [Ea1 Ea2]; apply IHl in Eb as (Eb1 & Eb2 & _); by rewrite Eb1, Eb2.
  - intros c IHc a IHa b IHb es v es' (w & s & Ec & E)%B. apply IHc in Ec as [Ec1 Ec2].
    destruct (PrimFloat.eqb w 0); [apply IHb in E as [E1 E2]|apply IHa in E as [E1 E2]]; by rewrite E1, E2.
  - intros vs es vs' es' [= <- <-]. split_and!; [done|done|lia].
  - intros a IHa l IHl vs es vs' es' (w & s & Ea & E)%B.
    apply IHa in Ea as [Ea1 Ea2]. apply IHl in E as (E1 & E2 & E3). rewrite E1, E2, E3.
    split_and!; [done|done|simpl; lia].
Qed.

Lemma exec_cond_if v st es p : exec m COND_IF p (with_estate (v :: st) es) =
  if PrimFloat.eqb v 0 then let* r := search COND_ELSE 1 p in inr (opt_skip (with_estate st es) r)
  else inr (stay p (with_estate st es)).
Proof. reflexivity. Qed.

Lemma exec_cond_else p s : exec m COND_ELSE p s = let* r := search COND_END 1 p in inr (opt_skip s r).
Proof. reflexivity. Qed.

Lemma search_here mt p : mt = COND_ELSE \/ mt = COND_END -> search mt 1 (opcode_num mt :: p) = inr (Some p).
Proof. intros M. rewrite search_cons by (by destruct M as [-> | ->]). by destruct M as [-> | ->]. Qed.

Lemma run_expr :
  (forall x, wf x -> forall st es rest, zlen st + vals x <= 80 -> length (eargs es) = 12%nat ->
     cp_run (compile x ++ rest) (with_estate st es) =
     (let* '(v, es') := eval m x es in cp_run rest (with_estate (v :: st) es'))) /\
  (forall l, wfs l -> forall vs st es rest, zlen st + valss (zlen vs) l <= 80 -> length (eargs es) = 12%nat ->
     cp_run (compiles l ++ rest) (with_estate (vs ++ st) es) =
     (let* '(vs', es') := evals m l vs es in cp_run rest (with_estate (vs' ++ st) es'))).
Proof.
  destruct eval_keeps as [Ke Kl].
  apply expr_exprs_ind; cbn [wf wfs vals valss compile compiles eval evals].
  - intros e [I T] st es rest L A. pose proof (element_operand e I T) as P.
    rewrite <- app_comm_cons, cp_run_op by (apply end_not_op; auto).
    rewrite exec_operand_eval by (done || lia). destruct (operand_value _ _) as [|[v es']]; done.
  - intros t v _ st es rest L A. rewrite literal_eval by lia. done.
  - intros t n _ st es rest L A. by rewrite hex_eval by lia.
  - intros e a IH [(I & T & Pl & O) W] st es rest L A. rewrite <- app_assoc, IH by done.
    destruct (eval m a es) as [|[v es']]; [done|]. cbn [ebind].
    destruct (element_unary e I T Pl O) as [f U].
    rewrite <- app_comm_cons, cp_run_op by (apply end_not_op; rewrite U; eauto).
    rewrite (exec_unary_eval _ f) by done. unfold apply_unary. by rewrite U.
  - intros e a IHa b IHb [[I T] [Wa Wb]] st es rest L A. rewrite <- !app_assoc, IHa by (done || lia).
    destruct (eval m a es) as [|[v es1]] eqn:Ea; [done|]. cbn [ebind]. apply Ke in Ea as [Ea _].
    rewrite IHb by (congruence || done || (simpl; lia)).
    destruct (eval m b es1) as [|[w es2]]; [done|]. cbn [ebind].
    destruct (element_binary e I T) as [f U].
    rewrite <- app_comm_cons, cp_run_op by (apply end_not_op; rewrite U; eauto).
    rewrite (exec_binary_eval _ f) by done. unfold apply_binary. rewrite U.
    destruct (f v w); done.
  - intros a IHa b IHb [Wa Wb] st es rest L A. rewrite <- !app_assoc, IHa by (done || lia).
    destruct (eval m a es) as [|[v es1]] eqn:Ea; [done|]. cbn [ebind]. apply Ke in Ea as [Ea _].
    rewrite IHb by (congruence || done || (simpl; lia)).
    destruct (eval m b es1) as [|[w es2]]; [done|]. cbn [ebind].
    rewrite <- app_comm_cons, cp_run_op by done.
    by rewrite (exec_binary_eval ATAN2 (fun x top => inr (atan2 m top x))).
  - intros e a IHa l IHl [[I T] [Wa Wl]] st es rest L A. rewrite <- !app_assoc, IHa by (done || lia).
    destruct (eval m a es) as [|[v es1]] eqn:Ea; [done|]. cbn [ebind]. apply Ke in Ea as [Ea _].
    change (v :: st) with ([v] ++ st). rewrite IHl by (congruence || done || (change (zlen [v]) with 1; lia)).
    destruct (evals m l [v] es1) as [|[vs es2]] eqn:El; [done|]. cbn [ebind]. apply Kl in El as (_ & _ & El).
    destruct (element_vararg e I T) as [U N].
    cbn [app]. rewrite cp_run_op by done.
    destruct vs as [|w vs]; [simpl in El; pose proof (exprs_length_nonneg l); lia|].
    replace (exprs_length l) with (zlen vs) by (simpl in El; lia). cbn [app].
    by rewrite exec_vararg_eval.
  - intros c IHc a IHa b IHb (Wc & Wa & Wb) st es rest L A. rewrite <- !app_assoc, IHc by (done || lia).
    destruct (eval m c es) as [|[v es1]] eqn:Ec; [done|]. cbn [ebind]. apply Ke in Ec as [Ec _].
    cbn [app]. rewrite cp_run_op by done.
    rewrite exec_cond_if. destruct (PrimFloat.eqb v 0).
    + rewrite (proj1 compile_skipped a Wa), search_here by (tauto || lia). cbn [ebind opt_skip mbind option_bind].
      rewrite IHb by (done || lia || congruence). destruct (eval m b es1) as [|[w es2]]; [done|]. cbn [ebind].
      by rewrite cp_run_op.
    + cbn [ebind stay]. rewrite IHa by (done || lia || congruence).
      destruct (eval m a es1) as [|[w es2]]; [done|]. cbn [ebind]. rewrite cp_run_op by done. rewrite exec_cond_else.
      rewrite (proj1 compile_skipped b Wb), search_here by (tauto || lia). done.
  - intros _ vs st es rest L A. done.
  - intros a IHa l IHl [Wa Wl] vs st es rest L A. rewrite <- app_assoc, IHa by (done || lens; lia).
    destruct (eval m a es) as [|[v es1]] eqn:Ea; [done|]. cbn [ebind]. apply Ke in Ea as [Ea _].
    change (v :: vs ++ st) with ((v :: vs) ++ st). apply IHl; [done| |congruence].
    replace (zlen (v :: vs)) with (zlen vs + 1) by (simpl; lia). lia.
Qed.
End evaluator.

(** ** Programs: assignments, then an expression *)

Record program := mkProgram { assignments : list (ELEMENT * expr); value : expr }.

Definition print_assignment (a : ELEMENT * expr) : list Z :=
  tok a.1 ++ tok elem_store ++ print a.2 ++ tok elem_semicolon.
Definition print_program (p : program) : list Z :=
  concat (map print_assignment (assignments p)) ++ print (value p).

(** The argument that an operand names. *)
Definition arg_index (e : ELEMENT) : nat := default 0%nat (fetch_index (code e)).

Definition compile_assignment (a : ELEMENT * expr) : list Z :=
  compile a.2 ++ [opcode_num STORE_A + Z.of_nat (arg_index a.1)].
Definition compile_program (p : program) : list Z :=
  concat (map compile_assignment (assignments p)) ++ compile (value p) ++ [opcode_num END_EXPRESSION].

Definition run_assignment (m : libm) (es : estate) (a : ELEMENT * expr) : cp estate :=
  let* '(v, es) := eval m a.2 es in
  inr (mkE (<[arg_index a.1 := v]> (eargs es)) (eres es) (eseed es)).

Fixpoint run_assignments (m : libm) (l : list (ELEMENT * expr)) (es : estate) : cp estate :=
  match l with
  | [] => inr es
  | a :: l => let* es := run_assignment m es a in run_assignments m l es
  end.

Definition eval_program (m : libm) (p : program) (es : estate) : cp (float * estate) :=
  let* es := run_assignments m (assignments p) es in eval m (value p) es.

Definition wf_assignment (a : ELEMENT * expr) : Prop :=
  a.1 ∈ operands /\ type a.1 = OPERAND /\ is_Some (fetch_index (code a.1)) /\
  wf a.2 /\ vals a.2 < 80 /\ ops a.2 < 79.
Definition wf_program (p : program) : Prop :=
  Forall wf_assignment (assignments p) /\ wf (value p) /\ vals (value p) < 80 /\ ops (value p) < 79.

Lemma fetch_operand e : is_Some (fetch_index (code e)) ->
  exists i, (i < 12)%nat /\ arg_index e = i /\ fetch_index (code e) = Some i /\
    opcode_num (code e) = opcode_num FETCH_A + Z.of_nat i /\
    exists op, opcode_num op = opcode_num STORE_A + Z.of_nat i /\ store_index op = Some i /\ fetch_index op = None.
Proof.
  intros [i E]. exists i. unfold arg_index. rewrite E.
  assert (K : opcode_num FETCH_A <= opcode_num (code e) <= opcode_num FETCH_L /\
    i = Z.to_nat (opcode_num (code e) - opcode_num FETCH_A)).
  { unfold fetch_index in E. case_decide; [|done]. by injection E. }
  destruct K as [K ->]. cbn [opcode_num] in *. split_and!; [lia|done|done|lia|].
  clear E. destruct (code e); cbn [opcode_num] in K; try lia;
    [exists STORE_A|exists STORE_B|exists STORE_C|exists STORE_D|exists STORE_E|exists STORE_F
    |exists STORE_G|exists STORE_H|exists STORE_I|exists STORE_J|exists STORE_K|exists STORE_L];
    split_and!; reflexivity.
Qed.

Section programs.
Context (cap : nat).
Hint Resolve sep_space sep_tok sep_spaced spaced_tok spaced_app : core.

Lemma goes_assignment a out rest :
  wf_assignment a -> sep rest -> zlen out + zlen (compile_assignment a) <= Z.of_nat cap ->
  goes cap (print_assignment a ++ rest) (cfg out [] true 0 0)
    rest (cfg (rev (compile_assignment a) ++ out) [] true 0 0).
Proof.
  destruct a as [e x]. unfold compile_assignment, print_assignment.
  intros (I & T & F & W & V & O) S C. cbn [fst snd] in *. lens.
  destruct (fetch_operand e F) as (i & I12 & Ai & _ & Oe & op & Os & _).
  pose proof (tables_facts true e I) as R. unfold table_facts in R. rewrite T in R.
  set (st := set_code elem_store op). pose proof (prec_nonneg x W). pose proof (ops_nonneg) as [Op _].
  destruct (parses_expr cap) as [P _]. destruct (P x W 0) as [Sp Q]; [done|lia|].
  destruct (Q [st] out 0 0 (tok elem_semicolon ++ rest)) as (pend & out' & d' & G & Fl & Ho & Rg);
    [auto|split; simpl; [lia|done]|lia|lia|lia|simpl; lia|lia|].
  rewrite <- !app_assoc. eapply goes_trans; [|eapply goes_trans; [|eapply goes_trans; [exact G|]]].
  - apply (goes_tok cap e (tok elem_store ++ print x ++ tok elem_semicolon ++ rest) _
      (cfg (opcode_num (code e) :: out) [] false 1 0)); [done|by rewrite T|auto| |simpl; lia].
    intros src. unfold do_element. rewrite T. unfold do_operand. cbn [pout set_psrc cfg].
    rewrite emit_op by lia. cbn. by rewrite R.
  - apply goes_tok; [apply list_elem_of_In; simpl; tauto|done|apply sep_spaced; auto| |simpl; lia].
    intros src. unfold do_element. cbn [type elem_store element].
    unfold do_store. cbn [pstack pout runtime_depth set_psrc cfg psrc cond_count].
    rewrite Oe. rewrite (proj2 (Z.ltb_ge _ _)), (proj2 (Z.ltb_ge _ _)) by (cbn [opcode_num]; lia). cbn [orb].
    replace (opcode_num STORE_A + (opcode_num FETCH_A + Z.of_nat i) - opcode_num FETCH_A)
      with (opcode_num op) by lia.
    rewrite opcode_of_opcode_num. done.
  - apply goes_tok; [apply list_elem_of_In; simpl; tauto|done|auto| |simpl; lia].
    intros src. unfold do_element. cbn [type elem_semicolon element].
    unfold do_terminator. cbn [pstack pout runtime_depth set_psrc cfg psrc cond_count].
    assert (Ft : flush (pend ++ [st]) (out', d') = (rev (compile x ++ [opcode_num STORE_A + Z.of_nat (arg_index e)]) ++ out, 0)).
    { rewrite flush_app, Fl, rev_app_distr, Ai, <- Os. done. }
    rewrite move_all_ok; [|apply Forall_app; split; [by eapply holds_closed|by repeat constructor]|].
    + rewrite Ft. done.
    + unfold fits. rewrite Ft. cbn [fst]. lens. lia.
Qed.

Lemma goes_assignments l : forall out rest,
  Forall wf_assignment l -> sep rest -> zlen out + zlen (concat (map compile_assignment l)) <= Z.of_nat cap ->
  goes cap (concat (map print_assignment l) ++ rest) (cfg out [] true 0 0)
    rest (cfg (rev (concat (map compile_assignment l)) ++ out) [] true 0 0).
Proof.
  induction l as [|a l IH]; intros out rest F S C; cbn [map concat] in *.
  - intros p E. exists p. split; [done|]. reflexivity.
  - inversion F; subst. rewrite length_app in C. rewrite <- app_assoc, rev_app_distr, <- app_assoc.
    eapply goes_trans; [apply goes_assignment; [done| |lia]|apply IH; [done|done|lens; lia]].
    destruct l; [done|]. unfold print_assignment. cbn [map concat]. rewrite <- !app_assoc. apply sep_tok.
Qed.

(** *** The loop *)

Lemma one_step_length s s' : one_step cap s s' -> (length (psrc s') < length (psrc s))%nat.
Proof.
  unfold one_step, postfix_step. destruct (get_element _ _) as [[[e rest]|] src] eqn:G; [|done].
  pose proof G as G'. apply get_element_some in G as (-> & _ & L & _). intros E.
  apply ebind_inr in E as (s1 & E1 & E). apply ebind_inr in E as (s2 & E2 & [= <-]).
  assert (s2 = s1) as -> by (revert E2; unfold check_depth; repeat case_match; congruence).
  pose proof (do_element_suffix cap e (skip_spaces (psrc s)) (set_psrc s rest) (skip_spaces_head _)) as W.
  rewrite E1 in W. simpl in W. pose proof (suffix_length_le _ _ (skip_spaces_suffix (psrc s))).
  destruct W as [_ W]; [|done|lia].
  revert G'. unfold get_element. destruct (skip_spaces (psrc s)) as [|c p]; [done|].
  destruct (List.find _ _) as [e'|]; [|done]. intros [= -> <-].
  exists (take (length (name e)) (c :: p)). by rewrite take_drop.
Qed.

Lemma loop_of_steps s s' s'' fuel :
  rtc (one_step cap) s s' -> postfix_step cap s' = inr (inr s'') -> (length (psrc s) < fuel)%nat ->
  postfix_loop cap fuel s = inr s''.
Proof.
  intros R E. revert fuel. induction R as [s|s s1 s2 S1 R IH]; intros [|fuel] L; try lia; cbn [postfix_loop].
  - by rewrite E.
  - pose proof (one_step_length _ _ S1). unfold one_step in S1. rewrite S1. apply IH; [done|lia].
Qed.

Lemma compile_program_ok p :
  wf_program p -> zlen (compile_program p) <= Z.of_nat cap ->
  postfix cap (print_program p) = postfix_ok (compile_program p).
Proof.
  destruct p as [l x]. unfold print_program, compile_program, wf_program. cbn [assignments value].
  intros (F & W & V & O) C. lens. simpl in C.
  pose proof (prec_nonneg x W). pose proof ops_nonneg as [Op _].
  destruct (parses_expr cap) as [P _]. destruct (P x W 0) as [Sp Q]; [done|lia|].
  set (lc := concat (map compile_assignment l)) in *. set (text := concat (map print_assignment l) ++ print x).
  destruct (Q [] (rev lc) 0 0 []) as (pend & out & d & G & Fl & Ho & Rg);
    [by left|done|lens; lia|lia|lia|simpl; lia|lia|].
  assert (S : exists c t, text = c :: t).
  { subst text. destruct Sp as [t E]. rewrite E. destruct (concat (map print_assignment l)); simpl; eauto. }
  assert (R : goes cap text (cfg [] [] true 0 0) [] (cfg out (pend ++ []) false d 0)).
  { eapply goes_trans; [|rewrite app_nil_r in G; exact G].
    pose proof (goes_assignments l [] (print x) F) as A. rewrite app_nil_r in A. apply A; [|fold lc; simpl; lia].
    rewrite <- (app_nil_r (print x)). by apply sep_spaced. }
  destruct (R text eq_refl) as (p' & E & St). rewrite app_nil_r in St.
  assert (L : postfix_loop cap (Datatypes.S (length text)) (postfix_init text) = inr (set_psrc (cfg out pend false d 0) [])).
  { eapply loop_of_steps; [exact St| |simpl; lia].
    unfold postfix_step. cbn [operand_needed psrc set_psrc cfg].
    rewrite (get_element_skip _ _ [] E). done. }
  assert (Fin : postfix_run cap text = inr (lc ++ compile x ++ [0])).
  { unfold postfix_run. rewrite emit_op by (simpl; lia). cbn [ebind].
    destruct S as (c & t & T). rewrite T. rewrite <- T. rewrite L. cbn [ebind].
    unfold postfix_end. cbn [psrc pout pstack runtime_depth cond_count operand_needed set_psrc cfg].
    rewrite move_all_ok by (by eapply holds_closed || (unfold fits; rewrite Fl; cbn [fst]; lens; lia)).
    rewrite Fl. cbn [ebind]. rewrite emit_op by (lens; lia). cbn.
    by rewrite rev_app_distr, !rev_involutive, <- app_assoc. }
  unfold postfix. by rewrite Fin.
Qed.
End programs.

Section run_programs.
Context (m : libm).

Lemma run_assignment_code a es rest :
  wf_assignment a -> length (eargs es) = 12%nat ->
  cp_run m (compile_assignment a ++ rest) (with_estate [] es) =
  (let* es' := run_assignment m es a in cp_run m rest (with_estate [] es')).
Proof.
  destruct a as [e x]. intros (I & T & F & W & V & O) A. unfold compile_assignment, run_assignment. cbn [fst snd] in *.
  rewrite <- app_assoc, (proj1 (run_expr m) x W) by (simpl; lia || done).
  destruct (eval m x es) as [|[v es1]] eqn:E; [done|]. cbn [ebind].
  apply (proj1 (eval_keeps m)) in E as [E _].
  destruct (fetch_operand e F) as (i & I12 & Ai & _ & _ & op & Os & Si & Fi). rewrite Ai, <- Os.
  cbn [app]. rewrite cp_run_op by (rewrite Os; cbn [opcode_num]; lia).
  unfold exec. rewrite Fi, Si. unfold exec_store. cbn [cp_pop cp_stack with_estate ebind with_stack parg].
  rewrite decide_True by (rewrite E; lia). done.
Qed.

Lemma run_assignments_code l : forall es rest,
  Forall wf_assignment l -> length (eargs es) = 12%nat ->
  cp_run m (concat (map compile_assignment l) ++ rest) (with_estate [] es) =
    (let* es' := run_assignments m l es in cp_run m rest (with_estate [] es')) /\
  (forall es', run_assignments m l es = inr es' -> length (eargs es') = 12%nat /\ eres es' = eres es).
Proof.
  induction l as [|a l IH]; intros es rest F A; cbn [map concat run_assignments].
  - split; [done|]. by intros es' [= <-].
  - inversion F; subst. rewrite <- app_assoc, run_assignment_code by done.
    destruct (run_assignment m es a) as [|es1] eqn:E; [done|]. cbn [ebind].
    assert (K : length (eargs es1) = 12%nat /\ eres es1 = eres es).
    { revert E. unfold run_assignment. destruct (eval m a.2 es) as [|[v es2]] eqn:E; [done|].
      apply (proj1 (eval_keeps m)) in E as [E1 E2]. intros [= <-]. simpl. rewrite length_insert, E1, E2. done. }
    destruct K as [K1 K2]. destruct (IH es1 rest) as [IH1 IH2]; [done|done|]. split; [done|].
    intros es' E'. destruct (IH2 _ E') as [? ->]. done.
Qed.

Lemma run_program_code p args res seed :
  wf_program p -> length args = 12%nat ->
  calcPerform m args res seed (compile_program p) =
    let* '(v, es) := eval_program m p (mkE args res seed) in inr (0, eargs es, v, eseed es).
Proof.
  destruct p as [l x]. intros (F & W & V & O) A. unfold compile_program, eval_program, calcPerform. cbn [assignments value] in *.
  change (mkCp [] args res seed) with (with_estate [] (mkE args res seed)).
  fold (cp_run m (concat (map compile_assignment l) ++ compile x ++ [opcode_num END_EXPRESSION])
    (with_estate [] (mkE args res seed))).
  destruct (run_assignments_code l (mkE args res seed) (compile x ++ [opcode_num END_EXPRESSION]) F A) as [R K].
  rewrite R. destruct (run_assignments m l _) as [|es1] eqn:E; [done|]. cbn [ebind].
  destruct (K es1 eq_refl) as [K1 K2].
  rewrite (proj1 (run_expr m) x W) by (simpl; lia || done).
  destruct (eval m x es1) as [|[v es2]]; done.
Qed.
End run_programs.

(** (C1) The calculation engine is correct.  A program (assignments to the arguments
    [A] to [L], and an expression made of any of the operands, literals, operators,
    functions and conditionals of the tables, decimal and hexadecimal literals among them), written with the precedences of the
    tables, compiles without error to the code of its tree, and [calcPerform] on
    that code computes what the tree means: the same value, the same arguments
    afterwards, the same random seed, or the same trap.  A hexadecimal literal has up to 32 bits and stands for a number
    with a sign: [0xffffffff] is -1.  The bounds are those of the two
    stacks. *)
Theorem calc_correct (m : libm) (cap : nat) (p : program) (args : list float) (res : float) (seed : Z)
  (Hwf : wf_program p)
  (Hcap : zlen (compile_program p) <= Z.of_nat cap)
  (Hargs : length args = 12%nat) :
  postfix cap (print_program p) = postfix_ok (compile_program p) /\
  calcPerform m args res seed (compile_program p) =
    let* '(v, es) := eval_program m p (mkE args res seed) in
    inr (0, eargs es, v, eseed es).
Proof. split; [by apply compile_program_ok|by apply run_program_code]. Qed.

(** Two literals, by evaluation. *)
Lemma literal_intro text v e :
  (forall rest, sep rest -> isspace (deref (text ++ rest)) = false /\ strtod (text ++ rest) = Some (v, rest, false) /\
    exists r, get_element true (32 :: text ++ rest) = (Some (e, r), text ++ rest)) ->
  type e = LITERAL_OPERAND -> code e = LITERAL_DOUBLE -> runtime_effect e = 1 -> literal text v.
Proof.
  intros H T C R rest S. destruct (H rest S) as (Sp & St & r & G). split; [|eauto 10].
  unfold epicsParseDouble. rewrite skip_spaces_idem, St by done. unfold parse_tail. by destruct (skip_spaces rest).
Qed.

Lemma literal_9 : literal (cs "9") 9%float.
Proof.
  apply (literal_intro _ _ (element "9" 0 0 1 LITERAL_OPERAND LITERAL_DOUBLE)); [|reflexivity..].
  intros rest [->|[r ->]]; split_and!; try reflexivity; eexists; reflexivity.
Qed.

Lemma literal_2_5 : literal (cs "2.5e0") 2.5%float.
Proof.
  apply (literal_intro _ _ (element "2" 0 0 1 LITERAL_OPERAND LITERAL_DOUBLE)); [|reflexivity..].
  intros rest [->|[r ->]]; split_and!; try reflexivity; eexists; reflexivity.
Qed.

Lemma literal_0xFe : hex_literal (cs "0xFe") 254.
Proof. exists 120, (cs "Fe"). repeat split; try discriminate. repeat constructor. Qed.

Definition find_element (names : string) (l : list ELEMENT) : ELEMENT :=
  default elem_comma (List.find (fun e => bool_decide (name e = cs names)) l).
Definition opd (s : string) : expr := Opd (find_element s operands).

(** [A := B + 9 * C; C > A ? MAX(A, -2.5e0, RNDM) ^ (B - 0xFe) : ATAN2(D, E) ? F : PI] *)
Definition sample_program : program :=
  let un s := Un (find_element s operands) in
  let bin s := Bin (find_element s operators) in
  mkProgram [(find_element "A" operands, bin "+" (opd "B") (bin "*" (Lit (cs "9") 9) (opd "C")))]
    (Cond (bin ">" (opd "C") (opd "A"))
       (bin "^" (VArg (find_element "MAX" operands) (opd "A")
                   (ECons (un "-" (Lit (cs "2.5e0") 2.5)) (ECons (opd "RNDM") ENil)))
                (bin "-" (opd "B") (Hex (cs "0xFe") 254)))
       (Cond (Atan2 (opd "D") (opd "E")) (opd "F") (opd "PI"))).

Lemma calc_correct_witness :
  postfix 100 (print_program sample_program) = postfix_ok (compile_program sample_program) /\
  calcPerform libm0 args12 0%float 0xa3bf (compile_program sample_program) =
    let* '(v, es) := eval_program libm0 sample_program (mkE args12 0%float 0xa3bf) in
    inr (0, eargs es, v, eseed es).
Proof.
  apply (calc_correct libm0 100 sample_program args12 0%float 0xa3bf).
  - split; [apply Forall_singleton; unfold wf_assignment|]; cbn -[literal hex_literal operands operators];
      split_and!; first [apply literal_9 | apply literal_2_5 | apply literal_0xFe
        | apply (bool_decide_unpack _); vm_compute; exact I
        | apply list_elem_of_In; vm_compute; repeat first [left; reflexivity | right] ].
  - vm_compute. discriminate.
  - reflexivity.
Defined.
