(* ===== verification/CalcUsage.v ===== *)
(** * The calculation engine: [calcArgUsage] ([calcPerform.c])

    The two bit masks that [calcArgUsage] reports are sound for every compiled
    program: its outcome depends only on the arguments of the first mask, and it
    changes only the arguments of the second. *)

From stdpp Require Import base numbers list option strings.
From Stdlib Require Import ZArith Lia Bool Floats.
From S2P Require Import Prelude CStdlib Strtod EpicsStdlib EpicsString Calc CalcPerform CalcSafety CalcRun CalcCorrect.

(** ** The masks of a program *)

Definition arg_bit (op : rpn_opcode) : Z :=
  match fetch_index op with Some i => Z.shiftl 1 (Z.of_nat i) | None => 0 end.

Fixpoint uses (x : expr) : Z :=
  match x with
  | Opd e => arg_bit (code e)
  | Lit _ _ | Hex _ _ => 0
  | Un _ a => uses a
  | Bin _ a b | Atan2 a b => Z.lor (uses a) (uses b)
  | VArg _ a l => Z.lor (uses a) (usess l)
  | Cond c a b => Z.lor (uses c) (Z.lor (uses a) (uses b))
  end
with usess (l : exprs) : Z :=
  match l with
  | ENil => 0
  | ECons a l => Z.lor (uses a) (usess l)
  end.

(** Arguments read before they are written. *)
Definition read_new (x : expr) (inputs stores : Z) : Z := Z.lor inputs (Z.land (uses x) (Z.lnot stores)).

Fixpoint usage (l : list (ELEMENT * expr)) (inputs stores : Z) : Z * Z :=
  match l with
  | [] => (inputs, stores)
  | a :: l => usage l (read_new a.2 inputs stores) (Z.lor stores (arg_bit (code a.1)))
  end.

Definition program_usage (p : program) : Z * Z :=
  let '(inputs, stores) := usage (assignments p) 0 0 in
  (read_new (value p) inputs stores, stores).

(** ** The scan of the code *)

Lemma usage_loop_enough fuel : forall fuel' pinst inputs stores,
  (length pinst < fuel)%nat -> (length pinst < fuel')%nat ->
  calcArgUsage_loop fuel pinst inputs stores = calcArgUsage_loop fuel' pinst inputs stores.
Proof.
  induction fuel as [|fuel IH]; intros [|fuel'] pinst inputs stores L L'; try lia.
  cbn [calcArgUsage_loop]. destruct pinst as [|op pinst]; [done|].
  destruct (_ =? _); [done|]. destruct (skip _ _) as [|p'] eqn:S; [done|].
  apply skip_length in S. cbn [ebind]. simpl in L, L'.
  destruct (_ && _); [apply IH; lia|]. destruct (_ && _); apply IH; lia.
Qed.

Definition scan (pinst : list Z) (inputs stores : Z) : cp (Z * Z) :=
  calcArgUsage_loop (S (length pinst)) pinst inputs stores.

Lemma scan_op op data rest inputs stores :
  opcode_num op <> 0 -> length data = data_size (opcode_num op) ->
  scan (opcode_num op :: data ++ rest) inputs stores =
  scan rest (Z.lor inputs (Z.land (arg_bit op) (Z.lnot stores)))
    (match store_index op with Some i => Z.lor stores (Z.shiftl 1 (Z.of_nat i)) | None => stores end).
Proof.
  intros N L. unfold scan at 1. cbn [calcArgUsage_loop]. change (opcode_num END_EXPRESSION) with 0.
  rewrite (proj2 (Z.eqb_neq _ _) N). unfold skip. rewrite decide_True by llia.
  rewrite drop_app_all by done. cbn [ebind].
  assert (E : forall i s, calcArgUsage_loop (length (opcode_num op :: data ++ rest)) rest i s = scan rest i s)
    by (intros; apply usage_loop_enough; simpl; lens; lia).
  assert (Z0 : forall z, Z.lor inputs (Z.land 0 z) = inputs) by (intros; by rewrite Z.land_0_l, Z.lor_0_r).
  unfold arg_bit. destruct op; try done; eval_index; cbn -[scan calcArgUsage_loop Z.land Z.lor Z.lnot];
    rewrite ?Z0; apply E.
Qed.

Definition scans (code : list Z) (u : Z) : Prop := forall rest inputs stores,
  scan (code ++ rest) inputs stores = scan rest (Z.lor inputs (Z.land u (Z.lnot stores))) stores.

Lemma scans_app a b u v : scans a u -> scans b v -> scans (a ++ b) (Z.lor u v).
Proof.
  intros A B rest inputs stores. rewrite <- app_assoc, A, B. f_equal.
  rewrite <- Z.lor_assoc. f_equal. by rewrite Z.land_lor_distr_l.
Qed.

Lemma scans_op op data u :
  opcode_num op <> 0 -> length data = data_size (opcode_num op) -> store_index op = None -> arg_bit op = u ->
  scans (opcode_num op :: data) u.
Proof. intros N L S <- rest inputs stores. rewrite <- app_comm_cons, scan_op by done. by rewrite S. Qed.

Lemma scans_nil : scans [] 0.
Proof. intros rest inputs stores. by rewrite Z.land_0_l, Z.lor_0_r. Qed.

Definition reads_nothing (e : ELEMENT) : Prop :=
  opcode_num (code e) <> 0 /\ store_index (code e) = None /\ arg_bit (code e) = 0.

Lemma operators_read_nothing (opnd : bool) e : e ∈ (if opnd then operands else operators) ->
  (type e = UNARY_OPERATOR /\ is_open e = false) \/ type e = BINARY_OPERATOR \/ type e = VARARG_OPERATOR ->
  reads_nothing e.
Proof.
  assert (F : Forall (fun e => (type e = UNARY_OPERATOR /\ is_open e = false) \/ type e = BINARY_OPERATOR \/ type e = VARARG_OPERATOR ->
    reads_nothing e) (if opnd then operands else operators)); [|rewrite Forall_forall in F; auto].
  destruct opnd; repeat (constructor; [intros T; first [split_and!; [discriminate|reflexivity|reflexivity]
    | exfalso; destruct T as [[? ?]|[?|?]]; discriminate]|]); constructor.
Qed.

Lemma operand_stores_nothing e : e ∈ operands -> type e = OPERAND -> opcode_num (code e) <> 0 /\ store_index (code e) = None.
Proof.
  assert (F : Forall (fun e => type e = OPERAND -> opcode_num (code e) <> 0 /\ store_index (code e) = None) operands);
    [|rewrite Forall_forall in F; auto].
  repeat (constructor; [intros T; first [discriminate T | split; [discriminate|reflexivity]]|]); constructor.
Qed.

Lemma compile_scans :
  (forall x, wf x -> scans (compile x) (uses x)) /\ (forall l, wfs l -> scans (compiles l) (usess l)).
Proof.
  assert (Zr : forall a, a = Z.lor a 0) by (intros; by rewrite Z.lor_0_r).
  apply expr_exprs_ind; cbn [wf wfs compile compiles uses usess].
  - intros e [I T]. destruct (wf_operand_jumps e true I) as [_ D]; [tauto|].
    destruct (operand_stores_nothing e I T). by apply scans_op.
  - intros t v _. unfold lit_code. destruct (lit_int v); by apply scans_op.
  - intros t n _. by apply (scans_op LITERAL_INT (le_bytes 4 n)).
  - intros e a IH [(I & T & _ & O) W]. rewrite (Zr (uses a)).
    destruct (wf_operand_jumps e true I) as [_ D]; [tauto|].
    destruct (operators_read_nothing true e I) as (N & S & A); [tauto|].
    apply scans_app; [auto|by apply scans_op].
  - intros e a IHa b IHb [[I T] [Wa Wb]]. rewrite (Zr (uses b)).
    destruct (wf_operand_jumps e false I) as [_ D]; [tauto|].
    destruct (operators_read_nothing false e I) as (N & S & A); [tauto|].
    repeat apply scans_app; auto. by apply scans_op.
  - intros a IHa b IHb [Wa Wb]. rewrite (Zr (uses b)). repeat apply scans_app; auto. by apply (scans_op ATAN2 []).
  - intros e a IHa l IHl [[I T] [Wa Wl]]. rewrite (Zr (usess l)).
    destruct (wf_vararg_jumps e I T) as [_ D].
    destruct (operators_read_nothing true e I) as (N & S & A); [tauto|].
    repeat apply scans_app; auto. by apply (scans_op _ [_]).
  - intros c IHc a IHa b IHb (Wc & Wa & Wb).
    replace (Z.lor (uses c) (Z.lor (uses a) (uses b)))
      with (Z.lor (uses c) (Z.lor 0 (Z.lor (uses a) (Z.lor 0 (Z.lor (uses b) 0)))))
      by (by rewrite !Z.lor_0_l, Z.lor_0_r).
    repeat apply scans_app; auto; by apply (scans_op _ []).
  - intros _. apply scans_nil.
  - intros a IHa l IHl [Wa Wl]. apply scans_app; auto.
Qed.

Lemma arg_usage_program p : wf_program p -> calcArgUsage (compile_program p) = inr (program_usage p).
Proof.
  destruct p as [l x]. intros (F & W & _). unfold compile_program, program_usage. cbn [assignments value] in *.
  assert (G : forall inputs stores rest, scan (concat (map compile_assignment l) ++ rest) inputs stores =
    scan rest (usage l inputs stores).1 (usage l inputs stores).2).
  { induction l as [|[e y] l IH]; intros inputs stores rest; [done|].
    inversion F as [|? ? (I & T & Fe & Wy & _) F']; subst. cbn [fst snd] in *.
    cbn [map concat usage fst snd]. unfold compile_assignment at 1. cbn [fst snd].
    rewrite <- !app_assoc, (proj1 compile_scans y Wy).
    destruct (fetch_operand e Fe) as (i & I12 & Ai & Fi & _ & op & Os & Si & Fo).
    rewrite Ai, <- Os. cbn [app].
    etrans; [apply (scan_op op [])|]; [rewrite Os; cbn [opcode_num]; lia|unfold data_size; rewrite Os;
      by repeat (rewrite (proj2 (Z.eqb_neq _ _)) by (cbn [opcode_num]; lia))|].
    rewrite Si. rewrite IH by done. unfold read_new, arg_bit. by rewrite Fo, Fi, Z.land_0_l, Z.lor_0_r. }
  change (calcArgUsage ?c) with (scan c 0 0). rewrite G. destruct (usage l 0 0) as [inputs stores]. cbn [fst snd].
  rewrite (proj1 compile_scans x W). done.
Qed.

(** ** What an evaluation depends on *)

(** The arguments whose bits are set in [mask] are the same. *)
Definition agree (mask : Z) (a b : list float) : Prop :=
  forall i : nat, Z.testbit mask (Z.of_nat i) = true -> a !! i = b !! i.

Lemma agree_lor u v a b : agree (Z.lor u v) a b <-> agree u a b /\ agree v a b.
Proof.
  unfold agree. split.
  - intros H. split; intros i B; apply H; rewrite Z.lor_spec, B; [done|apply orb_true_r].
  - intros [H K] i. rewrite Z.lor_spec. intros [B|B]%orb_prop; auto.
Qed.

Definition same_but_args (s t : estate) : Prop := eres s = eres t /\ eseed s = eseed t.

(** Two outcomes with the same value, trap and seed. *)
Definition same_outcome {A} (r r' : cp (A * estate)) : Prop :=
  match r, r' with
  | inl f, inl f' => f = f'
  | inr (a, s), inr (a', s') => a = a' /\ same_but_args s s'
  | _, _ => False
  end.

Section agreement.
Context (m : libm).

Lemma same_bind {A B} (r r' : cp (A * estate)) (f g : A -> estate -> cp (B * estate)) :
  same_outcome r r' ->
  (forall a s s', r = inr (a, s) -> r' = inr (a, s') -> same_but_args s s' -> same_outcome (f a s) (g a s')) ->
  same_outcome (let* '(a, s) := r in f a s) (let* '(a, s) := r' in g a s).
Proof.
  destruct r as [|[a s]], r' as [|[a' s']]; simpl; try done.
  intros [<- S] H. auto.
Qed.

Lemma eval_agree :
  (forall x s t, same_but_args s t -> agree (uses x) (eargs s) (eargs t) -> same_outcome (eval m x s) (eval m x t)) /\
  (forall l vs s t, same_but_args s t -> agree (usess l) (eargs s) (eargs t) ->
     same_outcome (evals m l vs s) (evals m l vs t)).
Proof.
  destruct (eval_keeps m) as [Ke Kl].
  apply expr_exprs_ind; cbn [uses usess eval evals].
  - intros e s t S A. destruct S as [R Sd]. unfold operand_value, arg_bit in *. destruct (fetch_index (code e)) as [i|].
    { rewrite (A i) by (rewrite Z.shiftl_spec_high, Z.sub_diag by lia; done).
      destruct (eargs t !! i); simpl; [done|done]. }
    destruct (constant (code e)); [done|]. destruct (decide _); [|by rewrite R]. simpl. by rewrite Sd.
  - done.
  - done.
  - intros e a IH s t S A. apply same_bind; [auto|]. intros v s' t' _ _ S'. done.
  - intros e a IHa b IHb s t S [Aa Ab]%agree_lor. apply same_bind; [auto|]. intros v s' t' E1 E2 S'.
    apply Ke in E1 as [E1 _], E2 as [E2 _].
    apply same_bind; [apply IHb; [done|by rewrite E1, E2]|]. intros w s2 t2 _ _ S2.
    destruct (apply_binary m (code e) v w); done.
  - intros a IHa b IHb s t S [Aa Ab]%agree_lor. apply same_bind; [auto|]. intros v s' t' E1 E2 S'.
    apply Ke in E1 as [E1 _], E2 as [E2 _].
    apply same_bind; [apply IHb; [done|by rewrite E1, E2]|]. intros w s2 t2 _ _ S2. done.
  - intros e a IHa l IHl s t S [Aa Al]%agree_lor. apply same_bind; [auto|]. intros v s' t' E1 E2 S'.
    apply Ke in E1 as [E1 _], E2 as [E2 _].
    apply same_bind; [apply IHl; [done|by rewrite E1, E2]|]. intros w s2 t2 _ _ S2. done.
  - intros c IHc a IHa b IHb s t S [Ac [Aa Ab]%agree_lor]%agree_lor. apply same_bind; [auto|].
    intros v s' t' E1 E2 S'. apply Ke in E1 as [E1 _], E2 as [E2 _].
    destruct (v =? 0)%float; [apply IHb|apply IHa]; by rewrite ?E1, ?E2.
  - done.
  - intros a IHa l IHl vs s t S [Aa Al]%agree_lor. apply same_bind; [auto|]. intros v s' t' E1 E2 S'.
    apply Ke in E1 as [E1 _], E2 as [E2 _]. apply IHl; by rewrite ?E1, ?E2.
Qed.
End agreement.

(** ** Programs *)

Definition sub_mask (u v : Z) : Prop := forall i : nat, Z.testbit u (Z.of_nat i) = true -> Z.testbit v (Z.of_nat i) = true.

Lemma agree_sub u v a b : sub_mask u v -> agree v a b -> agree u a b.
Proof. intros S A i B. auto. Qed.

Lemma read_new_sub x inputs stores : sub_mask inputs (read_new x inputs stores).
Proof. intros i B. unfold read_new. by rewrite Z.lor_spec, B. Qed.

Lemma read_new_uses x inputs stores : sub_mask (uses x) (Z.lor (read_new x inputs stores) stores).
Proof.
  intros i B. unfold read_new. rewrite !Z.lor_spec, Z.land_spec, Z.lnot_spec, B by lia.
  destruct (Z.testbit stores _), (Z.testbit inputs _); done.
Qed.

Lemma usage_sub l : forall inputs stores, sub_mask inputs (usage l inputs stores).1.
Proof.
  induction l as [|a l IH]; intros inputs stores i B; [done|]. cbn [usage]. apply IH. by apply read_new_sub.
Qed.

Lemma testbit_one (k i : nat) : Z.testbit (Z.shiftl 1 (Z.of_nat k)) (Z.of_nat i) = bool_decide (i = k).
Proof.
  rewrite Z.shiftl_1_l, Z.pow2_bits_eqb by lia. case_bool_decide; [apply Z.eqb_eq|apply Z.eqb_neq]; lia.
Qed.

Section program_agreement.
Context (m : libm).

Lemma assignment_agree a s t J inputs stores :
  wf_assignment a -> sub_mask (read_new a.2 inputs stores) J -> same_but_args s t ->
  length (eargs s) = 12%nat -> length (eargs t) = 12%nat ->
  agree (Z.lor J stores) (eargs s) (eargs t) ->
  match run_assignment m s a, run_assignment m t a with
  | inl f, inl f' => f = f'
  | inr s', inr t' => same_but_args s' t' /\ agree (Z.lor J (Z.lor stores (arg_bit (code a.1)))) (eargs s') (eargs t') /\
      length (eargs s') = 12%nat /\ length (eargs t') = 12%nat
  | _, _ => False
  end.
Proof.
  destruct a as [e x]. intros (I & T & F & W & _) Sub S Ls Lt A. cbn [fst snd] in *. unfold run_assignment. cbn [fst snd].
  assert (U : agree (uses x) (eargs s) (eargs t)).
  { eapply agree_sub; [|exact A]. intros i B. apply (read_new_uses x inputs stores) in B.
    rewrite Z.lor_spec in *. apply orb_prop in B as [B|B]; [by rewrite (Sub _ B)|rewrite B; apply orb_true_r]. }
  pose proof (proj1 (eval_agree m) x s t S U) as E.
  destruct (eval m x s) as [f|[v s']] eqn:Es, (eval m x t) as [f'|[v' t']] eqn:Et; try done.
  destruct E as [<- S']. apply (proj1 (eval_keeps m)) in Es as [Es _], Et as [Et _]. cbn [ebind eargs].
  rewrite !length_insert, Es, Et. split_and!; [done| |done|done].
  destruct (fetch_operand e F) as (k & K & Ai & Fi & _). unfold arg_bit. rewrite Ai, Fi.
  intros i. rewrite !Z.lor_spec, testbit_one. case_bool_decide as N.
  - rewrite N. intros _. rewrite !list_lookup_insert_eq by lia. done.
  - rewrite !list_lookup_insert_ne by done. rewrite orb_false_r. intros B. apply A. by rewrite Z.lor_spec.
Qed.

Lemma assignments_agree l : forall inputs stores J s t,
  Forall wf_assignment l -> sub_mask (usage l inputs stores).1 J -> same_but_args s t ->
  length (eargs s) = 12%nat -> length (eargs t) = 12%nat ->
  agree (Z.lor J stores) (eargs s) (eargs t) ->
  match run_assignments m l s, run_assignments m l t with
  | inl f, inl f' => f = f'
  | inr s', inr t' => same_but_args s' t' /\ agree (Z.lor J (usage l inputs stores).2) (eargs s') (eargs t')
  | _, _ => False
  end.
Proof.
  induction l as [|a l IH]; intros inputs stores J s t F Sub S Ls Lt A; [done|].
  inversion F; subst. cbn [usage run_assignments] in *.
  assert (Sub' : sub_mask (read_new a.2 inputs stores) J) by (intros i B; apply Sub; by apply usage_sub).
  pose proof (assignment_agree a s t J inputs stores H1 Sub' S Ls Lt A) as E.
  destruct (run_assignment m s a) as [f|s'], (run_assignment m t a) as [f'|t']; try done.
  destruct E as (S' & A' & Ls' & Lt'). cbn [ebind]. by apply IH with (inputs := read_new a.2 inputs stores).
Qed.

Lemma assignment_keeps a s s' (i : nat) :
  is_Some (fetch_index (code a.1)) -> run_assignment m s a = inr s' ->
  Z.testbit (arg_bit (code a.1)) (Z.of_nat i) = false -> eargs s' !! i = eargs s !! i.
Proof.
  intros Hf. unfold run_assignment, arg_bit. destruct (fetch_operand a.1 Hf) as (k & K & Ai & Fi & _).
  destruct (eval m a.2 s) as [|[v s1]] eqn:E; [done|]. apply (proj1 (eval_keeps m)) in E as [E _].
  intros [= <-]. cbn [eargs]. rewrite Ai, Fi, testbit_one, E. case_bool_decide; [done|]. intros _.
  by rewrite list_lookup_insert_ne.
Qed.

Lemma assignments_keep l : forall inputs stores s s' (i : nat),
  Forall wf_assignment l -> run_assignments m l s = inr s' ->
  Z.testbit (usage l inputs stores).2 (Z.of_nat i) = false ->
  eargs s' !! i = eargs s !! i /\ Z.testbit stores (Z.of_nat i) = false.
Proof.
  induction l as [|a l IH]; intros inputs stores s s' i F E B; cbn [usage run_assignments] in *.
  - by injection E as <-.
  - inversion F as [|? ? Wa F']; subst. destruct (run_assignment m s a) as [|s1] eqn:E1; [done|]. cbn [ebind] in E.
    destruct (IH _ _ _ _ i F' E B) as [-> B']. rewrite Z.lor_spec in B'. apply orb_false_iff in B' as [B1 B2].
    split; [|done]. destruct Wa as (_ & _ & Fe & _). by eapply assignment_keeps.
Qed.
End program_agreement.

(** (C15) [calcArgUsage] is sound.  On the code of a program it reports two masks; the
    status, the value and the seed that [calcPerform] computes, or its trap, are the
    same for two argument arrays that agree on the first mask; afterwards the arrays
    agree on the arguments of the second mask, and the other arguments are
    unchanged. *)
Theorem arg_usage_sound (m : libm) (p : program) (args args' : list float) (res : float) (seed : Z)
  (Hwf : wf_program p) (Hargs : length args = 12%nat) (Hargs' : length args' = 12%nat) :
  exists inputs stores,
    calcArgUsage (compile_program p) = inr (inputs, stores) /\
    (agree inputs args args' ->
     match calcPerform m args res seed (compile_program p), calcPerform m args' res seed (compile_program p) with
     | inl f, inl f' => f = f'
     | inr (st, a, v, sd), inr (st', a', v', sd') =>
         st = st' /\ v = v' /\ sd = sd' /\ agree stores a a' /\
         (forall i : nat, Z.testbit stores (Z.of_nat i) = false -> a !! i = args !! i)
     | _, _ => False
     end).
Proof.
  pose proof (arg_usage_program p Hwf) as U. destruct (program_usage p) as [inputs stores] eqn:Pu.
  exists inputs, stores. split; [done|]. intros A.
  rewrite !run_program_code by done. unfold eval_program.
  destruct Hwf as (F & W & _). unfold program_usage in Pu.
  destruct (usage (assignments p) 0 0) as [i0 s0] eqn:Us. injection Pu as <- <-.
  set (J := read_new (value p) i0 s0) in *.
  pose proof (assignments_agree m (assignments p) 0 0 J (mkE args res seed) (mkE args' res seed) F) as X.
  rewrite Us in X. cbn [fst snd] in X.
  destruct (run_assignments m (assignments p) (mkE args res seed)) as [f|s1] eqn:E1,
    (run_assignments m (assignments p) (mkE args' res seed)) as [f'|t1] eqn:E2;
    specialize (X (read_new_sub _ _ _) (conj eq_refl eq_refl) Hargs Hargs');
    rewrite Z.lor_0_r in X; specialize (X A); try done.
  destruct X as [S1 A1]. cbn [ebind].
  assert (Uv : agree (uses (value p)) (eargs s1) (eargs t1)) by (eapply agree_sub; [apply read_new_uses|exact A1]).
  pose proof (proj1 (eval_agree m) (value p) s1 t1 S1 Uv) as E.
  destruct (eval m (value p) s1) as [f|[v s2]] eqn:Es, (eval m (value p) t1) as [f'|[v' t2]] eqn:Et; try done.
  destruct E as [<- [_ Sd]]. apply (proj1 (eval_keeps m)) in Es as [Es _], Et as [Et _]. cbn [ebind].
  rewrite Es, Et. split_and!; [done|done|done| |].
  - apply (agree_lor J s0) in A1 as [_ A1]. exact A1.
  - intros i B. pose proof (assignments_keep m (assignments p) 0 0 _ _ i F E1) as K. rewrite Us in K. by apply K.
Qed.

Lemma arg_usage_sound_witness :
  let args' := <[3%nat := 40%float]> (<[0%nat := 10%float]> args12) in
  let p := mkProgram [(find_element "A" operands, opd "B")]
             (Bin (find_element "+" operators) (opd "A") (opd "C")) in
  exists inputs stores,
    calcArgUsage (compile_program p) = inr (inputs, stores) /\
    (agree inputs args12 args' ->
     match calcPerform libm0 args12 0%float 0 (compile_program p), calcPerform libm0 args' 0%float 0 (compile_program p) with
     | inl f, inl f' => f = f'
     | inr (st, a, v, sd), inr (st', a', v', sd') =>
         st = st' /\ v = v' /\ sd = sd' /\ agree stores a a' /\
         (forall i : nat, Z.testbit stores (Z.of_nat i) = false -> a !! i = args12 !! i)
     | _, _ => False
     end).
Proof.
  intros args' p. apply (arg_usage_sound libm0 p args12 args' 0%float 0); [|reflexivity|reflexivity].
  split; [apply Forall_singleton; unfold wf_assignment|]; cbn -[operands operators];
    split_and!; first [apply (bool_decide_unpack _); vm_compute; exact I
      | apply list_elem_of_In; vm_compute; repeat first [left; reflexivity | right] ].
Defined.
