(* ===== verification/DbEvent.v ===== *)
(** * Event queues ([modules/database/src/ioc/db/dbEvent.c])

    One [event_que] of one [event_user], with the subscriptions that share it.
    Threads that post a value, add or cancel a subscription or change the flow
    control mode interleave with the event task, which reads the queue and calls the
    subscribers back.  A step is what one thread does while it holds
    [writelock]; the event task gives the lock up around every callback.

    A subscription is named by its address, so that an address can be used again
    after [freeListFree]; a failed [assert], the use of a NULL pointer or of a freed
    object is a {!ev_fault}. *)

From stdpp Require Import base numbers list option gmap.
From Stdlib Require Import ZArith Lia Bool.
From S2P Require Import Prelude.

(** ** Data *)

Definition EVENTSPERQUE : Z := 32.
Definition EVENTENTRIES : Z := 4.
Definition EVENTQUESIZE : Z := EVENTENTRIES * EVENTSPERQUE.

Inductive field_log_type := dbfl_type_rec | dbfl_type_val | dbfl_type_ref.
#[global] Instance field_log_type_eq_dec : EqDecision field_log_type.
Proof. solve_decision. Defined.

(** A field log: its address, its type and (a name for) what it holds. *)
Record db_field_log := mkLog { log_addr : nat; log_type : field_log_type; log_value : Z }.
#[global] Instance db_field_log_eq_dec : EqDecision db_field_log.
Proof. solve_decision. Defined.

(** A cell of [evque]: NULL, [&canceledEvent] or a subscription. *)
Inductive slot := EVENTQEMPTY | canceledEvent | EV (s : nat).
#[global] Instance slot_eq_dec : EqDecision slot.
Proof. solve_decision. Defined.

(** [pLastLog] points to a cell of [valque]; [user_sub] says whether the callback is
    not NULL. *)
Record evSubscrip := mkSub {
  npend : Z;
  nreplace : Z;
  pLastLog : option nat;
  user_sub : bool;
  callBackInProgress : bool }.

(** What the event task does: wait for [ppendsem], or run the callback of a
    subscription with a log. *)
Inductive task_state := Waiting | Callback (s : nat) (pfl : db_field_log).

(** [posting] counts the threads between the end of their critical section and
    [epicsEventSignal(ppendsem)]; [logs] holds the allocated field logs. *)
Record ev_state := mkEv {
  evque : list slot;
  valque : list (option db_field_log);
  putix : nat;
  getix : nat;
  quota : Z;
  nDuplicates : Z;
  nCanceled : Z;
  subs : gmap nat evSubscrip;
  flowCtrlMode : bool;
  pSuicideEvent : option nat;
  ppendsem : bool;
  posting : nat;
  logs : gset nat;
  task : task_state }.

Inductive ev_fault :=
| assert_npend        (** [assert ( pevent->npend > 1u )] *)
| assert_nDuplicates  (** [assert ( ev_que->nDuplicates >= 1u )] *)
| assert_nCanceled    (** the two assertions on [nCanceled] *)
| assert_purged       (** [assert ( pevent->npend == 0u )] *)
| assert_slot         (** [assert ( ev_que->evque[ev_que->putix] == EVENTQEMPTY )] *)
| null_pointer
| use_after_free
| double_free
| ev_fuel.            (** not an outcome of the code *)

#[global] Instance ev_fault_eq_dec : EqDecision ev_fault.
Proof. solve_decision. Defined.

Notation ev A := (ev_fault + A)%type.

(** Assignments to the fields. *)
Definition set_ring (st : ev_state) (q : list slot) (v : list (option db_field_log)) : ev_state :=
  mkEv q v (putix st) (getix st) (quota st) (nDuplicates st) (nCanceled st) (subs st)
    (flowCtrlMode st) (pSuicideEvent st) (ppendsem st) (posting st) (logs st) (task st).
Definition set_putix (st : ev_state) (i : nat) : ev_state :=
  mkEv (evque st) (valque st) i (getix st) (quota st) (nDuplicates st) (nCanceled st) (subs st)
    (flowCtrlMode st) (pSuicideEvent st) (ppendsem st) (posting st) (logs st) (task st).
Definition set_getix (st : ev_state) (i : nat) : ev_state :=
  mkEv (evque st) (valque st) (putix st) i (quota st) (nDuplicates st) (nCanceled st) (subs st)
    (flowCtrlMode st) (pSuicideEvent st) (ppendsem st) (posting st) (logs st) (task st).
Definition set_counts (st : ev_state) (q d c : Z) : ev_state :=
  mkEv (evque st) (valque st) (putix st) (getix st) q d c (subs st)
    (flowCtrlMode st) (pSuicideEvent st) (ppendsem st) (posting st) (logs st) (task st).
Definition set_subs (st : ev_state) (m : gmap nat evSubscrip) : ev_state :=
  mkEv (evque st) (valque st) (putix st) (getix st) (quota st) (nDuplicates st) (nCanceled st) m
    (flowCtrlMode st) (pSuicideEvent st) (ppendsem st) (posting st) (logs st) (task st).
Definition set_flow (st : ev_state) (b : bool) : ev_state :=
  mkEv (evque st) (valque st) (putix st) (getix st) (quota st) (nDuplicates st) (nCanceled st) (subs st)
    b (pSuicideEvent st) (ppendsem st) (posting st) (logs st) (task st).
Definition set_suicide (st : ev_state) (s : option nat) : ev_state :=
  mkEv (evque st) (valque st) (putix st) (getix st) (quota st) (nDuplicates st) (nCanceled st) (subs st)
    (flowCtrlMode st) s (ppendsem st) (posting st) (logs st) (task st).
Definition set_sem (st : ev_state) (b : bool) (n : nat) : ev_state :=
  mkEv (evque st) (valque st) (putix st) (getix st) (quota st) (nDuplicates st) (nCanceled st) (subs st)
    (flowCtrlMode st) (pSuicideEvent st) b n (logs st) (task st).
Definition set_logs (st : ev_state) (l : gset nat) : ev_state :=
  mkEv (evque st) (valque st) (putix st) (getix st) (quota st) (nDuplicates st) (nCanceled st) (subs st)
    (flowCtrlMode st) (pSuicideEvent st) (ppendsem st) (posting st) l (task st).
Definition set_task (st : ev_state) (t : task_state) : ev_state :=
  mkEv (evque st) (valque st) (putix st) (getix st) (quota st) (nDuplicates st) (nCanceled st) (subs st)
    (flowCtrlMode st) (pSuicideEvent st) (ppendsem st) (posting st) (logs st) t.

(** [unsigned short] arithmetic. *)
Definition u16 (z : Z) : Z := wrap_u 16 z.

Definition with_dup (st : ev_state) (n : Z) : ev_state := set_counts st (quota st) (u16 n) (nCanceled st).
Definition with_canceled (st : ev_state) (n : Z) : ev_state := set_counts st (quota st) (nDuplicates st) (u16 n).
Definition with_quota (st : ev_state) (n : Z) : ev_state := set_counts st (u16 n) (nDuplicates st) (nCanceled st).
Definition with_sub (st : ev_state) (s : nat) (p : evSubscrip) : ev_state := set_subs st (<[s := p]> (subs st)).

(** ** Operations *)

Definition RNGINC (i : nat) : nat := if decide (127 <= i)%nat then 0%nat else S i.

Definition ringSpace (st : ev_state) : Z :=
  match evque st !! putix st with
  | Some EVENTQEMPTY =>
      if decide (putix st < getix st)%nat then Z.of_nat (getix st) - Z.of_nat (putix st)
      else EVENTQUESIZE + Z.of_nat (getix st) - Z.of_nat (putix st)
  | _ => 0
  end.

Definition db_delete_field_log (pfl : option db_field_log) (st : ev_state) : ev ev_state :=
  match pfl with
  | None => inr st
  | Some l => if decide (log_addr l ∈ logs st) then inr (set_logs st (logs st ∖ {[log_addr l]}))
              else inl double_free
  end.

(** [*pevent] *)
Definition sub_at (st : ev_state) (s : nat) : ev evSubscrip :=
  match subs st !! s with Some p => inr p | None => inl use_after_free end.

Definition event_remove (index : nat) (placeHolder : slot) (st : ev_state) : ev ev_state :=
  match evque st !! index with
  | Some (EV s) =>
      let* p := sub_at st s in
      let st := set_ring st (<[index := placeHolder]> (evque st)) (<[index := None]> (valque st)) in
      if npend p =? 1 then
        inr (with_sub st s (mkSub 0 (nreplace p) None (user_sub p) (callBackInProgress p)))
      else if negb (1 <? npend p) then inl assert_npend
      else if negb (1 <=? nDuplicates st) then inl assert_nDuplicates
      else inr (with_sub (with_dup st (nDuplicates st - 1)) s
                  (mkSub (npend p - 1) (nreplace p) (pLastLog p) (user_sub p) (callBackInProgress p)))
  | _ => inl null_pointer
  end.

(** [db_add_event], on a queue with enough quota. *)
Definition has_quota (st : ev_state) : bool := quota st + nCanceled st <? EVENTQUESIZE - EVENTENTRIES.

Definition db_add_event (s : nat) (st : ev_state) : ev_state :=
  with_sub (with_quota st (quota st + EVENTENTRIES)) s (mkSub 0 0 None true false).

(** The loop of [db_cancel_event] over the queue. *)
Fixpoint purge (fuel : nat) (s : nat) (i : nat) (st : ev_state) : ev ev_state :=
  match fuel with
  | O => inl ev_fuel
  | S fuel =>
      match evque st !! i with
      | None => inl null_pointer
      | Some EVENTQEMPTY => inr st
      | Some e =>
          let* st :=
            (if decide (e = EV s) then
               if nCanceled st <? 65535
               then event_remove i canceledEvent (with_canceled st (nCanceled st + 1))
               else inl assert_nCanceled
             else inr st) in
          let i := RNGINC i in
          if decide (i = getix st) then inr st else purge fuel s i st
      end
  end.

(** [db_cancel_event] until it waits for the callback in progress. *)
Definition db_cancel_purge (s : nat) (st : ev_state) : ev ev_state :=
  let* p := sub_at st s in
  let st := with_sub st s (mkSub (npend p) (nreplace p) (pLastLog p) false (callBackInProgress p)) in
  let* st := purge 129 s (getix st) st in
  let* p := sub_at st s in
  if npend p =? 0 then inr st else inl assert_purged.

(** The rest of it. *)
Definition db_cancel_free (s : nat) (st : ev_state) : ev_state :=
  set_subs (with_quota st (quota st - EVENTENTRIES)) (delete s (subs st)).

(** [db_cancel_event] called by the event task does not wait. *)
Definition db_cancel_self (s : nat) (st : ev_state) : ev ev_state :=
  let* st := db_cancel_purge s st in
  inr (db_cancel_free s (set_suicide st (Some s))).

(** [db_queue_event_log]. *)
Definition last_log (st : ev_state) (p : evSubscrip) : ev (nat * db_field_log) :=
  match pLastLog p with
  | None => inl null_pointer
  | Some i => match valque st !! i with Some (Some l) => inr (i, l) | _ => inl null_pointer end
  end.

(** Replace the last log of the subscription. *)
Definition replace_log (s i : nat) (old pLog : db_field_log) (p : evSubscrip) (st : ev_state) : ev ev_state :=
  let* st := db_delete_field_log (Some old) st in
  inr (with_sub (set_ring st (evque st) (<[i := Some pLog]> (valque st))) s
         (mkSub (npend p) (wrap_u 64 (nreplace p + 1)) (pLastLog p) (user_sub p) (callBackInProgress p))).

(** Fill the current entry and advance the ring buffer. *)
Definition append_log (s : nat) (pLog : db_field_log) (p : evSubscrip) (st : ev_state) : ev ev_state :=
  if decide (evque st !! putix st = Some EVENTQEMPTY) then
    let rngSpace := ringSpace st in
    let st := set_ring st (<[putix st := EV s]> (evque st)) (<[putix st := Some pLog]> (valque st)) in
    let st := if 0 <? npend p then with_dup st (nDuplicates st + 1) else st in
    let st := with_sub st s (mkSub (npend p + 1) (nreplace p) (Some (putix st)) (user_sub p) (callBackInProgress p)) in
    let st := set_putix st (RNGINC (putix st)) in
    inr (if rngSpace =? EVENTQUESIZE then set_sem st (ppendsem st) (S (posting st)) else st)
  else inl assert_slot.

Definition db_queue_event_log (s : nat) (pLog : db_field_log) (st : ev_state) : ev ev_state :=
  let* p := sub_at st s in
  if 0 <? npend p then
    let* '(i, old) := last_log st p in
    if decide (log_type old = dbfl_type_rec /\ log_type pLog = dbfl_type_rec)
    then db_delete_field_log (Some pLog) st
    else if flowCtrlMode st || (ringSpace st <=? EVENTSPERQUE)
    then replace_log s i old pLog p st
    else append_log s pLog p st
  else append_log s pLog p st.

(** The loop of [event_read], until the queue is empty or a callback is called. *)
Fixpoint read_loop (fuel : nat) (st : ev_state) : ev ev_state :=
  match fuel with
  | O => inl ev_fuel
  | S fuel =>
      match evque st !! getix st, valque st !! getix st with
      | Some EVENTQEMPTY, Some _ => inr (set_task st Waiting)
      | Some canceledEvent, Some pfl =>
          let st' := set_ring st (<[getix st := EVENTQEMPTY]> (evque st)) (<[getix st := None]> (valque st)) in
          let* st' := db_delete_field_log pfl st' in
          let st' := set_getix st' (RNGINC (getix st')) in
          if 0 <? nCanceled st' then read_loop fuel (with_canceled st' (nCanceled st' - 1))
          else inl assert_nCanceled
      | Some (EV s), Some pfl =>
          let* st := event_remove (getix st) EVENTQEMPTY st in
          let st := set_getix st (RNGINC (getix st)) in
          let* p := sub_at st s in
          match user_sub p, pfl with
          | true, Some pfl =>
              inr (set_task (with_sub st s (mkSub (npend p) (nreplace p) (pLastLog p) (user_sub p) true))
                     (Callback s pfl))
          | _, _ => let* st := db_delete_field_log pfl st in read_loop fuel st
          end
      | _, _ => inl null_pointer
      end
  end.

Definition event_read (st : ev_state) : ev ev_state :=
  if flowCtrlMode st && (nDuplicates st =? 0) then inr (set_task st Waiting)
  else read_loop 129 st.

(** The end of a callback in [event_read], and the rest of the loop. *)
Definition callback_end (s : nat) (pfl : db_field_log) (st : ev_state) : ev ev_state :=
  let* st :=
    (if decide (pSuicideEvent st = Some s) then inr (set_suicide st None)
     else let* p := sub_at st s in
          inr (with_sub st s (mkSub (npend p) (nreplace p) (pLastLog p) (user_sub p) false))) in
  let* st := db_delete_field_log (Some pfl) st in
  read_loop 129 st.

(** ** Steps *)

Inductive ev_label :=
| L_add (s : nat)                          (** [db_add_event] *)
| L_post (s : nat) (pLog : db_field_log)   (** [db_queue_event_log] *)
| L_signal                                 (** its [epicsEventSignal] *)
| L_cancel (s : nat)                       (** [db_cancel_event], until it waits *)
| L_cancelled (s : nat)                    (** its end, no callback being in progress *)
| L_cancel_self (s : nat)                  (** [db_cancel_event] in the event task *)
| L_flow (on : bool)                       (** [db_event_flow_ctrl_mode_on], [_off] *)
| L_wake                                   (** the event task takes [ppendsem] *)
| L_return.                                (** the callback returns *)

(** A step, when it is enabled.  Posting is done for subscriptions that are not being
    canceled ([db_cancel_event] first takes them off the list of the record), with a
    new field log; a subscription is canceled once. *)
Definition ev_exec (l : ev_label) (st : ev_state) : option (ev ev_state) :=
  match l with
  | L_add s =>
      if decide (subs st !! s = None /\ has_quota st = true) then Some (inr (db_add_event s st)) else None
  | L_post s pLog =>
      match subs st !! s with
      | Some p =>
          if decide (user_sub p = true /\ log_addr pLog ∉ logs st)
          then Some (db_queue_event_log s pLog (set_logs st ({[log_addr pLog]} ∪ logs st))) else None
      | None => None
      end
  | L_signal =>
      match posting st with
      | S n => Some (inr (set_sem st true n))
      | O => None
      end
  | L_cancel s =>
      match subs st !! s with
      | Some p => if user_sub p then Some (db_cancel_purge s st) else None
      | None => None
      end
  | L_cancelled s =>
      match subs st !! s with
      | Some p => if negb (user_sub p) && negb (callBackInProgress p)
                  then Some (inr (db_cancel_free s st)) else None
      | None => None
      end
  | L_cancel_self s =>
      match subs st !! s, task st with
      | Some p, Callback _ _ => if user_sub p then Some (db_cancel_self s st) else None
      | _, _ => None
      end
  | L_flow on => Some (inr (set_sem (set_flow st on) true (posting st)))
  | L_wake =>
      match task st with
      | Waiting => if ppendsem st then Some (event_read (set_sem st false (posting st))) else None
      | _ => None
      end
  | L_return =>
      match task st with
      | Callback s pfl => Some (callback_end s pfl st)
      | Waiting => None
      end
  end.

(** [create_ev_que] and [db_init_events]: a queue of zeros. *)
Definition db_init_events : ev_state :=
  mkEv (replicate 128 EVENTQEMPTY) (replicate 128 None) 0 0 0 0 0 ∅ false None false 0 ∅ Waiting.

(** A run; [None] when a step is not enabled. *)
Fixpoint ev_run (ls : list ev_label) (st : ev_state) : option (ev ev_state) :=
  match ls with
  | [] => Some (inr st)
  | l :: ls =>
      match ev_exec l st with
      | Some (inr st) => ev_run ls st
      | r => r
      end
  end.

(** ** Bad runs *)

Definition vlog (a : nat) : db_field_log := mkLog a dbfl_type_val 0.
Definition adds (l : list nat) : list ev_label := map L_add l.
Definition posts (l : list (nat * nat)) : list ev_label := map (fun '(s, a) => L_post s (vlog a)) l.

(** 31 subscriptions share the queue and one of them fills three quarters of it.  Ten that
    have a pending value are canceled: each gives back four entries of quota and
    keeps one entry of the queue, counted once by the test of [db_add_event].
    Eight new subscriptions find quota, the last of them finds no free entry. *)
Definition overfull : list ev_label :=
  adds (seq 0 31) ++ posts (map (fun a => (0%nat, a)) (seq 1000 97)) ++ posts (map (fun s => (s, s)) (seq 1 30)) ++
  flat_map (fun s => [L_cancel s; L_cancelled s]) (seq 1 10) ++
  adds (seq 101 8) ++ posts (map (fun s => (s, (s + 200)%nat)) (seq 101 3)).

Example overfull_fails : ev_run overfull db_init_events = Some (inl assert_slot).
Proof. vm_compute. reflexivity. Qed.

(** A callback cancels its own subscription and then another one: [pSuicideEvent] names the
    second, and the freed first one is written to when the callback returns. *)
Definition cancel_two : list ev_label :=
  adds [0; 1]%nat ++ posts [(0, 0); (1, 1)]%nat ++ [L_signal; L_wake; L_cancel_self 0; L_cancel_self 1; L_return].

Example cancel_two_fails : ev_run cancel_two db_init_events = Some (inl use_after_free).
Proof. vm_compute. reflexivity. Qed.

(** A subscription is canceled with a value pending; the queue is read to its end, and the log is still
    allocated. *)
Definition cancel_pending : list ev_label :=
  adds [0; 1]%nat ++ posts [(0, 0); (1, 1)]%nat ++ [L_cancel 0; L_cancelled 0; L_signal; L_wake; L_return].

Example cancel_leaks :
  match ev_run cancel_pending db_init_events with
  | Some (inr st) => (elements (logs st), task st, ringSpace st, subs st !! 0%nat)
  | _ => ([], Waiting, 0, None)
  end = ([0%nat], Waiting, 128, None).
Proof. vm_compute. reflexivity. Qed.
