(* ===== verification/DbEventQueue.v ===== *)
(** * Event queues: the ring as a list

    The two arrays of an [event_que], between [getix] and [putix], are a list of
    entries ({!ring}); the counters of the queue and of its subscriptions are functions of
    that list ({!core}).  Each primitive of [dbEvent.c] is an operation on the list. *)

From stdpp Require Import base numbers list option gmap.
From Stdlib Require Import ZArith Lia Bool.
From S2P Require Import Prelude DbEvent.

Notation entry := (slot * option db_field_log)%type.

(** ** Positions *)

Definition pos (g i : nat) : nat := ((g + i) mod 128)%nat.

Lemma pos_lt g i : (pos g i < 128)%nat.
Proof. apply Nat.mod_upper_bound. lia. Qed.

Lemma pos_cases g i : (g < 128)%nat -> (i <= 128)%nat ->
  pos g i = if decide (g + i < 128)%nat then (g + i)%nat else (g + i - 128)%nat.
Proof.
  intros. unfold pos. case_decide; [by apply Nat.mod_small|].
  replace (g + i)%nat with ((g + i - 128) + 1 * 128)%nat at 1 by lia.
  rewrite Nat.Div0.mod_add. apply Nat.mod_small. lia.
Qed.

Ltac pos_lia := rewrite ?pos_cases in * by lia; repeat case_decide; lia.

Lemma pos_0 g : (g < 128)%nat -> pos g 0 = g.
Proof. intros. pos_lia. Qed.

Lemma pos_inj g i j : (g < 128)%nat -> (i < 128)%nat -> (j < 128)%nat -> pos g i = pos g j -> i = j.
Proof. intros. pos_lia. Qed.

Lemma RNGINC_pos g i : (g < 128)%nat -> (i < 128)%nat -> RNGINC (pos g i) = pos g (S i).
Proof. intros. unfold RNGINC. pos_lia. Qed.

Lemma pos_RNGINC g i : (g < 128)%nat -> (i < 128)%nat -> pos (RNGINC g) i = pos g (S i).
Proof.
  intros. unfold RNGINC. destruct (decide (127 <= g)%nat); pos_lia.
Qed.

(** ** The ring *)

Definition cell (l : list entry) (i : nat) : slot := match l !! i with Some e => e.1 | None => EVENTQEMPTY end.
Definition val (l : list entry) (i : nat) : option db_field_log := match l !! i with Some e => e.2 | None => None end.

Record ring (q : list slot) (v : list (option db_field_log)) (p g : nat) (l : list entry) : Prop := mkRingOk {
  ring_q : length q = 128%nat;
  ring_v : length v = 128%nat;
  ring_g : (g < 128)%nat;
  ring_l : (length l <= 128)%nat;
  ring_p : p = pos g (length l);
  ring_cells : forall i, (i < 128)%nat -> q !! pos g i = Some (cell l i) /\ v !! pos g i = Some (val l i);
  ring_full : Forall (fun e => e.1 <> EVENTQEMPTY) l }.

Lemma cell_app_l a b i : (i < length a)%nat -> cell (a ++ b) i = cell a i.
Proof. intros. unfold cell. by rewrite lookup_app_l. Qed.

(** The current entry is free exactly when there is room. *)
Lemma ring_put q v p g l : ring q v p g l -> q !! p = Some (if decide (length l < 128)%nat then EVENTQEMPTY else cell l 0).
Proof.
  intros [Q V G L -> C F]. case_decide as D.
  - destruct (C (length l) D) as [-> _]. unfold cell. by rewrite lookup_ge_None_2.
  - assert (E : length l = 128%nat) by lia. rewrite E.
    replace (pos g 128) with (pos g 0) by pos_lia. by destruct (C 0%nat) as [-> _]; [lia|].
Qed.

Lemma ring_head q v p g e l : ring q v p g (e :: l) -> q !! g = Some e.1 /\ v !! g = Some e.2.
Proof. intros [Q V G L -> C F]. pose proof (C 0%nat ltac:(lia)) as H. by rewrite pos_0 in H. Qed.

Lemma ring_nil q v p g : ring q v p g [] -> q !! g = Some EVENTQEMPTY /\ v !! g = Some None.
Proof. intros [Q V G L -> C F]. pose proof (C 0%nat ltac:(lia)) as H. by rewrite pos_0 in H. Qed.

Lemma ring_space st l :
  ring (evque st) (valque st) (putix st) (getix st) l -> ringSpace st = 128 - zlen l.
Proof.
  intros R. unfold ringSpace. rewrite (ring_put _ _ _ _ _ R).
  destruct R as [Q V G L E C F]. case_decide as D.
  - unfold EVENTQUESIZE, EVENTENTRIES, EVENTSPERQUE. rewrite E. destruct (decide (pos _ _ < _)%nat); pos_lia.
  - destruct l as [|e l]; [simpl in D; lia|]. inversion F; subst. unfold cell. simpl.
    destruct e.1; [done|simpl in *; lia|simpl in *; lia].
Qed.

Lemma ring_append q v p g l e :
  ring q v p g l -> (length l < 128)%nat -> e.1 <> EVENTQEMPTY ->
  ring (<[p := e.1]> q) (<[p := e.2]> v) (RNGINC p) g (l ++ [e]).
Proof.
  intros [Q V G L -> C F] D E. constructor; [by rewrite length_insert|by rewrite length_insert|done|llia| | |].
  - rewrite length_app. simpl. rewrite RNGINC_pos by lia. f_equal. lia.
  - intros i I. unfold cell, val. destruct (decide (i = length l)) as [->|N].
    + rewrite !list_lookup_insert_eq by (rewrite ?Q, ?V; apply pos_lt). by rewrite lookup_app_r, Nat.sub_diag by lia.
    + assert (pos g (length l) <> pos g i) by (intros X; apply pos_inj in X; lia).
      rewrite !list_lookup_insert_ne by done. destruct (C i I) as [-> ->]. unfold cell, val.
      destruct (decide (i < length l)%nat); [by rewrite lookup_app_l|].
      by rewrite !lookup_ge_None_2 by (rewrite ?length_app; simpl; lia).
  - apply Forall_app. by split; [|constructor].
Qed.

Lemma lookup_middle_ne {A} (a b : list A) (x y : A) i : i <> length a -> (a ++ x :: b) !! i = (a ++ y :: b) !! i.
Proof.
  intros N. destruct (decide (i < length a)%nat); [by rewrite !lookup_app_l|].
  rewrite !lookup_app_r by lia. destruct (i - length a)%nat eqn:E; [lia|done].
Qed.

Lemma ring_set q v p g a e b e' :
  ring q v p g (a ++ e :: b) -> e'.1 <> EVENTQEMPTY ->
  ring (<[pos g (length a) := e'.1]> q) (<[pos g (length a) := e'.2]> v) p g (a ++ e' :: b).
Proof.
  intros [Q V G L -> C F] E. rewrite length_app in L. simpl in L.
  constructor; [by rewrite length_insert|by rewrite length_insert|done|llia| | |].
  - f_equal. llia.
  - intros i I. unfold cell, val. destruct (decide (i = length a)) as [->|N].
    + rewrite !list_lookup_insert_eq by (rewrite ?Q, ?V; apply pos_lt). by rewrite list_lookup_middle.
    + assert (pos g (length a) <> pos g i) by (intros X; apply pos_inj in X; lia).
      rewrite !list_lookup_insert_ne by done. destruct (C i I) as [-> ->]. unfold cell, val.
      by rewrite (lookup_middle_ne a b e e').
  - apply Forall_app in F as [Fa Fb]. inversion Fb; subst. apply Forall_app. split; [done|by constructor].
Qed.

Lemma ring_pop q v p g e l :
  ring q v p g (e :: l) -> ring (<[g := EVENTQEMPTY]> q) (<[g := None]> v) p (RNGINC g) l.
Proof.
  intros [Q V G L -> C F]. simpl in L. inversion F; subst.
  constructor; [by rewrite length_insert|by rewrite length_insert| |lia| | |done].
  - unfold RNGINC. case_decide; lia.
  - rewrite pos_RNGINC by lia. done.
  - intros i I. rewrite pos_RNGINC by lia. destruct (decide (i = 127)%nat) as [->|N].
    + replace (pos g 128) with g by pos_lia. rewrite !list_lookup_insert_eq by lia.
      unfold cell, val. by rewrite !lookup_ge_None_2 by lia.
    + assert (g <> pos g (S i)) by pos_lia. rewrite !list_lookup_insert_ne by done.
      apply (C (S i)). lia.
Qed.

(** ** Counting *)

(** The subscription of an entry, and the subscriptions of the queue in order. *)
Definition ev_of (e : entry) : option nat := match e.1 with EV s => Some s | _ => None end.
Definition evs (l : list entry) : list nat := omap ev_of l.
(** The logs a subscription has on the queue. *)
Definition logs_of (s : nat) (l : list entry) : list db_field_log :=
  omap (fun e => if decide (e.1 = EV s) then e.2 else None) l.
Definition log_ids (l : list entry) : list nat := omap (fun e => log_addr <$> e.2) l.

Definition is_canceled (e : entry) : bool := bool_decide (e.1 = canceledEvent).
Definition canceled (l : list entry) : nat := length (List.filter is_canceled l).
Definition cnt (s : nat) (l : list entry) : nat := length (List.filter (Nat.eqb s) (evs l)).
(** Entries beyond the first one of each subscription. *)
Definition distinct (l : list entry) : nat := size (list_to_set (evs l) : gset nat).
Definition dups (l : list entry) : Z := zlen (evs l) - Z.of_nat (distinct l).

(** The last entry of a subscription. *)
Fixpoint last_index (s : nat) (l : list entry) : option nat :=
  match l with
  | [] => None
  | e :: l =>
      match last_index s l with
      | Some i => Some (S i)
      | None => if decide (e.1 = EV s) then Some 0%nat else None
      end
  end.

Lemma evs_app a b : evs (a ++ b) = evs a ++ evs b.
Proof. apply omap_app. Qed.
Lemma logs_of_app s a b : logs_of s (a ++ b) = logs_of s a ++ logs_of s b.
Proof. apply omap_app. Qed.
Lemma log_ids_app a b : log_ids (a ++ b) = log_ids a ++ log_ids b.
Proof. apply omap_app. Qed.
Lemma canceled_app a b : canceled (a ++ b) = (canceled a + canceled b)%nat.
Proof. unfold canceled. by rewrite List.filter_app, length_app. Qed.
Lemma cnt_app s a b : cnt s (a ++ b) = (cnt s a + cnt s b)%nat.
Proof. unfold cnt. by rewrite evs_app, List.filter_app, length_app. Qed.

Lemma evs_ev s o l : evs ((EV s, o) :: l) = s :: evs l.
Proof. reflexivity. Qed.
Lemma evs_cons e l : evs (e :: l) = (match ev_of e with Some s => [s] | None => [] end) ++ evs l.
Proof. unfold evs. simpl. by destruct (ev_of e). Qed.
Lemma cnt_ev s s' o l : cnt s ((EV s', o) :: l) = ((if decide (s = s') then 1 else 0) + cnt s l)%nat.
Proof. unfold cnt. rewrite evs_ev. simpl. case_decide; destruct (Nat.eqb_spec s s'); subst; simpl; done. Qed.

Lemma cnt_zero s l : cnt s l = 0%nat <-> s ∉ evs l.
Proof.
  unfold cnt. induction (evs l) as [|x xs IH]; simpl; [split; [|done]; intros _ H; by apply elem_of_nil in H|].
  rewrite not_elem_of_cons. destruct (Nat.eqb_spec s x); simpl; [intuition lia|]. tauto.
Qed.

Lemma last_index_None s l : last_index s l = None <-> s ∉ evs l.
Proof.
  induction l as [|[e o] l IH]; cbn [last_index]; [split; [|done]; intros _ H; by apply elem_of_nil in H|].
  rewrite evs_cons, not_elem_of_app. unfold ev_of. destruct (last_index s l) as [i|] eqn:E.
  - split; [done|]. intros [_ H]. by apply IH in H.
  - case_decide as D; simpl in D; subst; simpl.
    + rewrite list_elem_of_singleton. split; [done|tauto].
    + split; [|done]. intros _. split; [|by apply IH]. destruct e; simpl; try (apply not_elem_of_nil).
      rewrite list_elem_of_singleton. congruence.
Qed.

Lemma last_index_app s a b :
  last_index s (a ++ b) = match last_index s b with Some i => Some (length a + i)%nat | None => last_index s a end.
Proof.
  induction a as [|e a IH]; simpl; [by destruct (last_index s b)|].
  rewrite IH. destruct (last_index s b); done.
Qed.

Lemma last_index_spec s l i : last_index s l = Some i -> exists a o b,
  l = a ++ (EV s, o) :: b /\ length a = i /\ s ∉ evs b.
Proof.
  revert i. induction l as [|[e o] l IH]; intros i; cbn [last_index]; [done|].
  destruct (last_index s l) as [j|] eqn:E.
  - intros [= <-]. destruct (IH j eq_refl) as (a & o' & b & -> & <- & N).
    exists ((e, o) :: a), o', b. done.
  - case_decide as D; simpl in D; [|done]. intros [= <-]. subst e.
    exists [], o, l. split_and!; [done|done|]. by apply last_index_None.
Qed.

(** Taking one entry of [s] out. *)
Lemma distinct_remove (s : nat) (xs ys : list nat) :
  size (list_to_set (xs ++ s :: ys) : gset nat) =
  (size (list_to_set (xs ++ ys) : gset nat) + (if decide (s ∈ xs ++ ys) then 0 else 1))%nat.
Proof.
  assert (E : (list_to_set (xs ++ s :: ys) : gset nat) = {[s]} ∪ list_to_set (xs ++ ys)) by set_solver.
  rewrite E. case_decide as D.
  - replace ({[s]} ∪ list_to_set (xs ++ ys) : gset nat) with (list_to_set (xs ++ ys) : gset nat) by set_solver. lia.
  - rewrite size_union by set_solver. rewrite size_singleton. lia.
Qed.

Lemma dups_remove s (a b : list entry) o r :
  ev_of r = None -> dups (a ++ (EV s, o) :: b) = dups (a ++ r :: b) + (if decide (s ∈ evs (a ++ b)) then 1 else 0).
Proof.
  intros R. unfold dups, distinct. rewrite !evs_app, evs_ev, evs_cons, R. simpl.
  rewrite distinct_remove. rewrite !length_app. simpl. case_decide; lia.
Qed.

Lemma dups_nonneg l : 0 <= dups l.
Proof.
  unfold dups, distinct. enough (size (list_to_set (evs l) : gset nat) <= length (evs l))%nat by lia.
  induction (evs l) as [|x xs IH]; [done|]. pose proof (distinct_remove x [] xs) as E. simpl in E |- *.
  rewrite E. case_decide; lia.
Qed.

Lemma zlen_entries l : Forall (fun e => e.1 <> EVENTQEMPTY) l -> zlen l = dups l + Z.of_nat (distinct l) + Z.of_nat (canceled l).
Proof.
  intros F. unfold dups. cut (length l = length (evs l) + canceled l)%nat; [lia|].
  induction F as [|[e o] l E _ IH]; [done|]. rewrite evs_cons, length_app. unfold canceled in *. simpl in *.
  unfold is_canceled at 1, ev_of. simpl. destruct e; simpl in *; try done; lia.
Qed.

(** ** The counters are functions of the list *)

Definition entry_ok (e : entry) : Prop :=
  match e.1 with EV _ => is_Some e.2 | canceledEvent => e.2 = None | EVENTQEMPTY => False end.

Definition sub_ok (g : nat) (l : list entry) (s : nat) (p : evSubscrip) : Prop :=
  npend p = Z.of_nat (cnt s l) /\ pLastLog p = pos g <$> last_index s l.

Record core (st : ev_state) (l : list entry) : Prop := mkCore {
  core_ring : ring (evque st) (valque st) (putix st) (getix st) l;
  core_entries : Forall entry_ok l;
  core_dups : nDuplicates st = dups l;
  core_canceled : nCanceled st = Z.of_nat (canceled l);
  core_subs : forall s p, subs st !! s = Some p -> sub_ok (getix st) l s p;
  core_dom : forall s, s ∈ evs l -> is_Some (subs st !! s) }.

Lemma entries_full l : Forall entry_ok l -> Forall (fun e => e.1 <> EVENTQEMPTY) l.
Proof. intros F. eapply Forall_impl; [exact F|]. intros [e o] H E. simpl in E. subst. exact H. Qed.

Lemma core_bounds st l : core st l -> 0 <= nDuplicates st <= 128 /\ 0 <= nCanceled st <= 128.
Proof.
  intros [R E D C _ _]. rewrite D, C. pose proof (dups_nonneg l). destruct R.
  pose proof (zlen_entries l (entries_full l E)). lia.
Qed.

Lemma u16_id z : 0 <= z < 65536 -> u16 z = z.
Proof. intros. apply wrap_u_id. unfold fits_u. lia. Qed.

(** *** [event_remove] *)

Definition sub_removed (p : evSubscrip) : evSubscrip :=
  mkSub (npend p - 1) (nreplace p) (if npend p =? 1 then None else pLastLog p) (user_sub p) (callBackInProgress p).

Definition removed (i : nat) (ph : slot) (s : nat) (p : evSubscrip) (st : ev_state) : ev_state :=
  with_sub (set_counts (set_ring st (<[i := ph]> (evque st)) (<[i := None]> (valque st)))
              (quota st) (nDuplicates st - (if npend p =? 1 then 0 else 1)) (nCanceled st)) s (sub_removed p).

Lemma event_remove_eq i ph s p st :
  evque st !! i = Some (EV s) -> subs st !! s = Some p -> 1 <= npend p ->
  (npend p <> 1 -> 1 <= nDuplicates st <= 128) -> event_remove i ph st = inr (removed i ph s p st).
Proof.
  intros E S N D. unfold event_remove, removed, sub_removed, sub_at. rewrite E, S. cbn [ebind].
  destruct (Z.eqb_spec (npend p) 1) as [P|P].
  - rewrite P, Z.sub_0_r. destruct st; reflexivity.
  - specialize (D P). cbn [nDuplicates set_ring]. rewrite (proj2 (Z.ltb_lt 1 _)), (proj2 (Z.leb_le 1 _)) by lia. simpl.
    unfold with_dup. cbn [nDuplicates set_ring quota nCanceled]. by rewrite u16_id by lia.
Qed.

(** The pending count of an entry's subscription, and when it is a duplicate. *)
Lemma core_entry st a s o b :
  core st (a ++ (EV s, o) :: b) -> s ∉ evs a ->
  exists p, subs st !! s = Some p /\ npend p = 1 + Z.of_nat (cnt s b) /\
    pLastLog p = Some (pos (getix st) (length a + (match last_index s b with Some i => S i | None => 0 end))) /\
    nDuplicates st = dups (a ++ b) + (if npend p =? 1 then 0 else 1).
Proof.
  intros C Na. destruct (core_dom _ _ C s) as [p P]; [rewrite evs_app, evs_ev; set_solver|].
  exists p. destruct (core_subs _ _ C s p P) as [N L]. rewrite cnt_app, cnt_ev, (proj2 (cnt_zero s a) Na) in N.
  rewrite decide_True in N by done. rewrite last_index_app in L. cbn [last_index fst] in L. rewrite decide_True in L by done.
  split_and!; [done|lia| |].
  - rewrite L. by destruct (last_index s b).
  - rewrite (core_dups _ _ C). rewrite (dups_remove s a b o (canceledEvent, None)) by done.
    replace (dups (a ++ (canceledEvent, None) :: b)) with (dups (a ++ b)) by (unfold dups, distinct; by rewrite !evs_app, evs_cons).
    f_equal. rewrite evs_app. destruct (decide (s ∈ evs b)) as [I|I].
    + rewrite decide_True by set_solver. assert (cnt s b <> 0%nat) by (intros Z0; by apply cnt_zero in Z0).
      destruct (Z.eqb_spec (npend p) 1); lia.
    + rewrite decide_False by set_solver. apply cnt_zero in I. destruct (Z.eqb_spec (npend p) 1); lia.
Qed.

Lemma sub_ok_removed g g' a s o b l' p :
  s ∉ evs a -> sub_ok g (a ++ (EV s, o) :: b) s p ->
  (forall s', cnt s' l' = cnt s' (a ++ b)) ->
  (forall s' i, last_index s' b = Some i -> pos g' <$> last_index s' l' = Some (pos g (length a + S i))) ->
  (last_index s b = None -> last_index s l' = None) ->
  sub_ok g' l' s (sub_removed p).
Proof.
  intros Na [N L] Hc Hi Hn. rewrite cnt_app, cnt_ev, (proj2 (cnt_zero s a) Na), decide_True in N by done.
  rewrite last_index_app in L. cbn [last_index fst] in L. rewrite decide_True in L by done.
  split; cbn [sub_removed npend pLastLog].
  - rewrite Hc, cnt_app, (proj2 (cnt_zero s a) Na). lia.
  - destruct (last_index s b) as [i|] eqn:E.
    + assert (cnt s b <> 0%nat) by (intros Z0; apply cnt_zero, last_index_None in Z0; congruence).
      rewrite (proj2 (Z.eqb_neq _ _)) by lia. by rewrite (Hi s i E), L.
    + rewrite Hn by done. apply last_index_None, cnt_zero in E. by rewrite (proj2 (Z.eqb_eq _ _)) by lia.
Qed.

(** *** Canceling one entry *)

Lemma core_cancel st a s o b :
  core st (a ++ (EV s, o) :: b) -> s ∉ evs a ->
  exists p, subs st !! s = Some p /\
    let st' := removed (pos (getix st) (length a)) canceledEvent s p (with_canceled st (nCanceled st + 1)) in
    event_remove (pos (getix st) (length a)) canceledEvent (with_canceled st (nCanceled st + 1)) = inr st' /\
    core st' (a ++ (canceledEvent, None) :: b).
Proof.
  intros C Na. destruct (core_entry st a s o b C Na) as (p & P & N & L & D).
  exists p. split; [done|]. intros st'.
  pose proof (core_ring _ _ C) as R. pose proof (core_bounds _ _ C) as [BD BC].
  destruct (ring_cells _ _ _ _ _ R (length a)) as [Cq Cv]; [destruct R; llia|].
  unfold cell in Cq. rewrite list_lookup_middle in Cq by done. simpl in Cq.
  pose proof (dups_nonneg (a ++ b)).
  split; [apply event_remove_eq; [done|done|lia|]; intros; cbn [nDuplicates with_canceled set_counts];
    destruct (Z.eqb_spec (npend p) 1); lia|].
  subst st'. constructor.
  - exact (ring_set _ _ _ _ a (EV s, o) b (canceledEvent, None) R ltac:(done)).
  - pose proof (core_entries _ _ C) as F. apply Forall_app in F as [Fa Fb]. inversion Fb; subst.
    apply Forall_app. split; [done|by constructor].
  - cbn. rewrite D. replace (dups (a ++ (canceledEvent, None) :: b)) with (dups (a ++ b))
      by (unfold dups, distinct; by rewrite !evs_app, evs_cons). lia.
  - cbn. rewrite u16_id by lia. rewrite (core_canceled _ _ C), !canceled_app. unfold canceled. simpl. lia.
  - cbn. intros s' p' S'. destruct (decide (s' = s)) as [->|Ns].
    + rewrite lookup_insert_eq in S'. injection S' as <-. eapply sub_ok_removed; [done|by apply (core_subs _ _ C)| | |].
      * intros s'. rewrite !cnt_app. unfold cnt. by rewrite evs_cons.
      * intros s' i E. rewrite last_index_app. cbn [last_index]. by rewrite E.
      * intros E. rewrite last_index_app. cbn [last_index]. rewrite E. simpl. by apply last_index_None.
    + rewrite lookup_insert_ne in S' by done. destruct (core_subs _ _ C s' p' S') as [N' L']. split.
      * rewrite N', !cnt_app, cnt_ev. rewrite decide_False by done. unfold cnt. by rewrite evs_cons.
      * rewrite L', !last_index_app. cbn [last_index fst]. rewrite decide_False by congruence. by rewrite decide_False by done.
  - cbn. intros s' I. destruct (decide (s' = s)) as [->|Ns]; [by rewrite lookup_insert_eq|].
    rewrite lookup_insert_ne by done. apply (core_dom _ _ C). rewrite evs_app, evs_cons in I. rewrite evs_app, evs_ev. set_solver.
Qed.

(** *** Taking the first entry *)

Lemma last_index_tail g s e l :
  (g < 128)%nat -> (length (e :: l) <= 128)%nat ->
  pos (RNGINC g) <$> last_index s l = match last_index s l with Some i => Some (pos g (S i)) | None => None end.
Proof.
  intros G L. destruct (last_index s l) as [i|] eqn:E; [|done]. simpl.
  apply last_index_spec in E as (a & o & b & -> & <- & _). rewrite pos_RNGINC; [done|done|]. simpl in L. llia.
Qed.

Lemma core_pop st s o l :
  core st ((EV s, o) :: l) ->
  exists p, subs st !! s = Some p /\
    let st' := removed (getix st) EVENTQEMPTY s p st in
    event_remove (getix st) EVENTQEMPTY st = inr st' /\ core (set_getix st' (RNGINC (getix st'))) l.
Proof.
  intros C. assert (Na : s ∉ evs []) by (apply not_elem_of_nil).
  destruct (core_entry st [] s o l C Na) as (p & P & N & L & D). cbn [app] in D.
  exists p. split; [done|]. intros st'.
  pose proof (core_ring _ _ C) as R. pose proof (core_bounds _ _ C) as [BD BC].
  pose proof (ring_head _ _ _ _ _ _ R) as [Hq Hv]. pose proof (dups_nonneg l).
  split; [apply event_remove_eq; [done|done|lia|]; intros; destruct (Z.eqb_spec (npend p) 1); lia|].
  subst st'. constructor.
  - by apply (ring_pop _ _ _ _ (EV s, o)).
  - pose proof (core_entries _ _ C) as F. by inversion F.
  - cbn. rewrite D. simpl. lia.
  - cbn. by rewrite (core_canceled _ _ C).
  - cbn. intros s' p' S'. destruct R as [_ _ G Le _ _ _]. destruct (decide (s' = s)) as [->|Ns].
    + rewrite lookup_insert_eq in S'. injection S' as <-.
      eapply (sub_ok_removed _ _ []); [done|by apply (core_subs _ _ C)|done| |done].
      intros s' i E. rewrite (last_index_tail _ _ (EV s, o)) by done. by rewrite E.
    + rewrite lookup_insert_ne in S' by done. destruct (core_subs _ _ C s' p' S') as [N' L']. split.
      * rewrite N', cnt_ev. by rewrite decide_False.
      * rewrite L'. cbn [last_index fst]. rewrite (last_index_tail _ _ (EV s, o)) by done.
        destruct (last_index s' l); [done|]. by rewrite decide_False by congruence.
  - cbn. intros s' I. destruct (decide (s' = s)) as [->|Ns]; [by rewrite lookup_insert_eq|].
    rewrite lookup_insert_ne by done. apply (core_dom _ _ C). rewrite evs_ev. set_solver.
Qed.

(** The state after a canceled entry is skipped (its log is already NULL). *)
Definition skipped_one (st : ev_state) : ev_state :=
  let st' := set_ring st (<[getix st := EVENTQEMPTY]> (evque st)) (<[getix st := None]> (valque st)) in
  with_canceled (set_getix st' (RNGINC (getix st'))) (nCanceled st' - 1).

Lemma core_skip st o l :
  core st ((canceledEvent, o) :: l) -> o = None /\ 0 < nCanceled st /\ core (skipped_one st) l.
Proof.
  intros C. pose proof (core_ring _ _ C) as R. pose proof (core_entries _ _ C) as F. inversion F as [|? ? E F']; subst.
  pose proof (core_bounds _ _ C) as [BD BC]. pose proof (core_canceled _ _ C) as Cc.
  unfold canceled in Cc. simpl in Cc. split; [done|]. split; [lia|]. constructor.
  - by apply (ring_pop _ _ _ _ (canceledEvent, o)).
  - done.
  - cbn. rewrite (core_dups _ _ C). done.
  - cbn. rewrite u16_id by lia. unfold canceled. lia.
  - cbn. intros s p S. destruct R as [_ _ G Le _ _ _]. destruct (core_subs _ _ C s p S) as [N L]. split; [exact N|].
    rewrite L. cbn [last_index fst]. rewrite (last_index_tail _ _ (canceledEvent, o)) by done.
    by destruct (last_index s l).
  - cbn. intros s I. by apply (core_dom _ _ C).
Qed.

(** *** Posting *)

Lemma core_append st l s lg p :
  core st l -> subs st !! s = Some p -> zlen l < 128 ->
  exists st', append_log s lg p st = inr st' /\ core st' (l ++ [(EV s, Some lg)]) /\
    st' = mkEv (evque st') (valque st') (putix st') (getix st) (quota st) (nDuplicates st') (nCanceled st)
            (<[s := mkSub (npend p + 1) (nreplace p) (Some (putix st)) (user_sub p) (callBackInProgress p)]> (subs st))
            (flowCtrlMode st) (pSuicideEvent st) (ppendsem st)
            (if decide (l = []) then S (posting st) else posting st) (logs st) (task st).
Proof.
  intros C P Lt. pose proof (core_ring _ _ C) as R. pose proof (core_bounds _ _ C) as [BD BC].
  destruct (core_subs _ _ C s p P) as [N L].
  unfold append_log. rewrite decide_True by (rewrite (ring_put _ _ _ _ _ R), decide_True by lia; done).
  rewrite (ring_space st l R).
  assert (Dup : dups (l ++ [(EV s, Some lg)]) = dups l + (if 0 <? npend p then 1 else 0)).
  { rewrite (dups_remove s l [] (Some lg) (canceledEvent, None)) by done.
    replace (dups (l ++ [(canceledEvent, None)])) with (dups l)
      by (unfold dups, distinct; by rewrite evs_app, app_nil_r).
    f_equal. rewrite app_nil_r. destruct (decide (s ∈ evs l)) as [I|I].
    - rewrite (proj2 (Z.ltb_lt _ _)); [done|]. enough (cnt s l <> 0%nat) by lia. intros Z0. by apply cnt_zero in Z0.
    - apply cnt_zero in I. by rewrite (proj2 (Z.ltb_ge _ _)) by lia. }
  assert (Emp : (128 - zlen l =? EVENTQUESIZE) = bool_decide (l = [])).
  { case_bool_decide as E; [by subst|]. apply Z.eqb_neq. change EVENTQUESIZE with 128.
    destruct l; [done|simpl; lia]. }
  rewrite Emp. eexists. split; [reflexivity|]. split.
  - assert (K : forall b, core (let st1 := set_ring st (<[putix st := EV s]> (evque st)) (<[putix st := Some lg]> (valque st)) in
      let st1 := if 0 <? npend p then with_dup st1 (nDuplicates st1 + 1) else st1 in
      let st1 := with_sub st1 s (mkSub (npend p + 1) (nreplace p) (Some (putix st1)) (user_sub p) (callBackInProgress p)) in
      let st1 := set_putix st1 (RNGINC (putix st1)) in
      if (b : bool) then set_sem st1 (ppendsem st1) (S (posting st1)) else st1) (l ++ [(EV s, Some lg)])).
    { intros b. constructor.
      - destruct b, (0 <? npend p); cbn; by apply (ring_append _ _ _ _ _ (EV s, Some lg)); [|lia|].
      - apply Forall_app. split; [apply (core_entries _ _ C)|]. constructor; [by eexists|done].
      - rewrite Dup. pose proof (core_dups _ _ C).
        destruct b, (0 <? npend p); cbn; rewrite ?u16_id by lia; lia.
      - rewrite canceled_app. unfold canceled at 2. simpl. rewrite Nat.add_0_r, <- (core_canceled _ _ C).
        destruct b, (0 <? npend p); reflexivity.
      - assert (Su : forall s' p', <[s := mkSub (npend p + 1) (nreplace p) (Some (putix st)) (user_sub p) (callBackInProgress p)]> (subs st) !! s' = Some p' ->
          sub_ok (getix st) (l ++ [(EV s, Some lg)]) s' p').
        { intros s' p' S'. unfold sub_ok. rewrite cnt_app, cnt_ev, last_index_app. cbn [last_index fst].
          destruct (decide (s' = s)) as [->|Ns].
          - rewrite lookup_insert_eq in S'. injection S' as <-. rewrite decide_True by done. cbn.
            split; [lia|]. destruct R. by rewrite ring_p0, Nat.add_0_r.
          - rewrite lookup_insert_ne in S' by done. rewrite decide_False by congruence.
            destruct (core_subs _ _ C s' p' S') as [N' L']. split; [rewrite N'; change (cnt s' []) with 0%nat; lia|done]. }
        destruct b, (0 <? npend p); exact Su.
      - assert (Do : forall s', s' ∈ evs (l ++ [(EV s, Some lg)]) ->
          is_Some (<[s := mkSub (npend p + 1) (nreplace p) (Some (putix st)) (user_sub p) (callBackInProgress p)]> (subs st) !! s')).
        { intros s' I. destruct (decide (s' = s)) as [->|Ns]; [by rewrite lookup_insert_eq|].
          rewrite lookup_insert_ne by done. apply (core_dom _ _ C). rewrite evs_app, evs_ev in I. set_solver. }
        destruct b, (0 <? npend p); exact Do. }
    apply (K (bool_decide (l = []))).
  - destruct (decide (l = [])) as [E|E]; [rewrite bool_decide_true by done|rewrite bool_decide_false by done];
      destruct (0 <? npend p); reflexivity.
Qed.

Lemma core_replace st a s o lg b p :
  core st (a ++ (EV s, o) :: b) -> s ∉ evs b -> subs st !! s = Some p ->
  core (with_sub (set_ring st (evque st) (<[pos (getix st) (length a) := Some lg]> (valque st))) s
          (mkSub (npend p) (wrap_u 64 (nreplace p + 1)) (pLastLog p) (user_sub p) (callBackInProgress p)))
    (a ++ (EV s, Some lg) :: b).
Proof.
  intros C Nb P. pose proof (core_ring _ _ C) as R.
  assert (Ev : evs (a ++ (EV s, Some lg) :: b) = evs (a ++ (EV s, o) :: b)) by (by rewrite !evs_app, !evs_ev).
  assert (Cn : forall s', cnt s' (a ++ (EV s, Some lg) :: b) = cnt s' (a ++ (EV s, o) :: b)) by (intros; unfold cnt; by rewrite Ev).
  assert (Li : forall s', last_index s' (a ++ (EV s, Some lg) :: b) = last_index s' (a ++ (EV s, o) :: b))
    by (intros; rewrite !last_index_app; reflexivity).
  constructor; cbn.
  - pose proof (ring_set _ _ _ _ a (EV s, o) b (EV s, Some lg) R ltac:(done)) as R'. cbn [fst snd] in R'.
    rewrite list_insert_id in R'; [done|]. destruct (ring_cells _ _ _ _ _ R (length a)) as [-> _]; [destruct R; llia|].
    unfold cell. by rewrite list_lookup_middle.
  - pose proof (core_entries _ _ C) as F. apply Forall_app in F as [Fa Fb]. inversion Fb; subst.
    apply Forall_app. split; [done|]. constructor; [by eexists|done].
  - rewrite (core_dups _ _ C). unfold dups, distinct. by rewrite Ev.
  - rewrite (core_canceled _ _ C). by rewrite !canceled_app.
  - intros s' p' S'. unfold sub_ok. rewrite Cn, Li. destruct (decide (s' = s)) as [->|Ns].
    + rewrite lookup_insert_eq in S'. injection S' as <-. apply (core_subs _ _ C s p P).
    + rewrite lookup_insert_ne in S' by done. apply (core_subs _ _ C s' p' S').
  - intros s' I. rewrite Ev in I. destruct (decide (s' = s)) as [->|Ns]; [by rewrite lookup_insert_eq|].
    rewrite lookup_insert_ne by done. by apply (core_dom _ _ C).
Qed.

(** The last log of a subscription with pending entries. *)
Lemma core_last st l s p :
  core st l -> subs st !! s = Some p -> 0 < npend p ->
  exists a lg b, l = a ++ (EV s, Some lg) :: b /\ s ∉ evs b /\
    last_log st p = inr (pos (getix st) (length a), lg).
Proof.
  intros C P N. destruct (core_subs _ _ C s p P) as [N' L].
  destruct (last_index s l) as [i|] eqn:E; [|apply last_index_None, cnt_zero in E; lia].
  apply last_index_spec in E as (a & o & b & -> & <- & Nb).
  pose proof (core_entries _ _ C) as F. apply Forall_app in F as [_ Fb]. inversion Fb as [|? ? X _]; subst.
  destruct X as [lg Eo]. simpl in Eo. subst o. exists a, lg, b. split_and!; [done|done|].
  unfold last_log. rewrite L. simpl.
  destruct (ring_cells _ _ _ _ _ (core_ring _ _ C) (length a)) as [_ Cv]; [destruct (core_ring _ _ C); llia|].
  rewrite Cv. unfold val. by rewrite list_lookup_middle.
Qed.
