(* ===== verification/DbEventInv.v ===== *)
(** * Event queues: the invariant of all interleavings

    Every step of {!DbEvent.ev_exec} keeps the counters of the queue right, uses no
    freed subscription or log, and loses no wake-up of the event task; what a
    subscriber is called back with follows what was posted for it. *)

From stdpp Require Import base numbers list option gmap.
From Stdlib Require Import ZArith Lia Bool.
From S2P Require Import Prelude DbEvent DbEventQueue.

(** ** The invariant *)

(** The two flags of a subscription, which posting and purging leave alone. *)
Definition user_of (st : ev_state) (s : nat) : option bool := user_sub <$> subs st !! s.
Definition cb_of (st : ev_state) (s : nat) : option bool := callBackInProgress <$> subs st !! s.

(** The subscriptions that are not being canceled. *)
Definition live (st : ev_state) : gset nat :=
  dom (filter (fun kp : nat * evSubscrip => user_sub kp.2 = true) (subs st)).

Definition task_logs (t : task_state) : list nat :=
  match t with Waiting => [] | Callback _ pfl => [log_addr pfl] end.

Definition task_ok (st : ev_state) : Prop :=
  match task st with
  | Waiting => pSuicideEvent st = None /\ forall s, cb_of st s <> Some true
  | Callback s _ =>
      (pSuicideEvent st = Some s \/ pSuicideEvent st = None /\ cb_of st s = Some true) /\
      (forall s', cb_of st s' = Some true -> s' = s /\ pSuicideEvent st = None)
  end.

Definition awake (st : ev_state) (l : list entry) : Prop :=
  l <> [] -> flowCtrlMode st = false -> task st = Waiting -> ppendsem st = true \/ posting st <> 0%nat.

(** [strict] runs add a subscription only while there is room for all others. *)
Record inv (strict : bool) (st : ev_state) (l : list entry) : Prop := mkInv {
  inv_core : core st l;
  inv_quota : quota st = EVENTENTRIES * Z.of_nat (size (subs st));
  inv_size : (size (subs st) <= 31)%nat;
  inv_cancel : forall s, user_of st s = Some false -> s ∉ evs l;
  inv_nodup : NoDup (log_ids l ++ task_logs (task st));
  inv_logs : forall a, a ∈ log_ids l ++ task_logs (task st) -> a ∈ logs st;
  inv_task : task_ok st;
  inv_awake : awake st l;
  inv_room : strict = true -> zlen l + Z.of_nat (size (live st)) <= 128 + Z.of_nat (distinct l) }.

Lemma user_some st s p : subs st !! s = Some p -> user_of st s = Some (user_sub p).
Proof. intros P. unfold user_of. by rewrite P. Qed.
Lemma cb_some st s p : subs st !! s = Some p -> cb_of st s = Some (callBackInProgress p).
Proof. intros P. unfold cb_of. by rewrite P. Qed.

Lemma elem_of_live st s : s ∈ live st <-> user_of st s = Some true.
Proof.
  unfold live, user_of. rewrite elem_of_dom. split.
  - intros [p H]. apply map_lookup_filter_Some in H as [-> U]. simpl in *. by rewrite U.
  - destruct (subs st !! s) as [p|] eqn:E; [|done]. intros [= U]. exists p. by apply map_lookup_filter_Some.
Qed.

Lemma live_size st : (size (live st) <= size (subs st))%nat.
Proof.
  rewrite <- size_dom. apply subseteq_size. intros s H%elem_of_live. unfold user_of in H.
  apply elem_of_dom. by destruct (subs st !! s).
Qed.

Lemma evs_live strict st l s : inv strict st l -> s ∈ evs l -> s ∈ live st.
Proof.
  intros I H. destruct (core_dom _ _ (inv_core _ _ _ I) s H) as [p P]. apply elem_of_live.
  pose proof (user_some _ _ _ P) as E. destruct (user_sub p) eqn:U; [done|]. by apply (inv_cancel _ _ _ I s E) in H.
Qed.

(** A live subscription with nothing on the queue leaves room for one entry. *)
Lemma room_for strict st l s :
  inv strict st l -> strict = true -> s ∈ live st -> s ∉ evs l -> zlen l < 128.
Proof.
  intros I St Lv N. pose proof (inv_room _ _ _ I St). unfold distinct in *.
  enough (size ({[s]} ∪ list_to_set (evs l) : gset nat) <= size (live st))%nat as E.
  { rewrite size_union, size_singleton in E by set_solver. lia. }
  apply subseteq_size. intros x [->%elem_of_singleton|H']%elem_of_union; [done|].
  apply elem_of_list_to_set in H'. by eapply evs_live.
Qed.

Lemma evs_omap_in s l : s ∈ evs l <-> exists o, (EV s, o) ∈ l.
Proof.
  unfold evs. rewrite list_elem_of_omap. split.
  - intros ([e o] & I & E). unfold ev_of in E. simpl in E. destruct e; try done. injection E as ->. eauto.
  - intros [o I]. by exists (EV s, o).
Qed.

(** *** What the steps that only move logs keep *)

Lemma live_ext st st' : (forall s, user_of st' s = user_of st s) -> live st' = live st.
Proof. intros F. apply set_eq. intros s. by rewrite !elem_of_live, F. Qed.

Lemma subs_size_ext st st' : (forall s, user_of st' s = user_of st s) -> size (subs st') = size (subs st).
Proof.
  intros F. rewrite <- !size_dom. f_equal. apply set_eq. intros s. rewrite !elem_of_dom. specialize (F s).
  unfold user_of in F. destruct (subs st' !! s), (subs st !! s); simpl in F; split; intros []; try done; eauto.
Qed.

Lemma task_ext st st' : (forall s, cb_of st' s = cb_of st s) ->
  task st' = task st -> pSuicideEvent st' = pSuicideEvent st -> task_ok st -> task_ok st'.
Proof.
  intros F T S. unfold task_ok. rewrite T, S. destruct (task st) as [|s pfl].
  - intros [? H]. split; [done|]. intros s. by rewrite F.
  - rewrite F. intros [H1 H2]. split; [done|]. intros s'. rewrite F. apply H2.
Qed.

Lemma user_with_sub st st' s p q :
  subs st !! s = Some p -> subs st' = <[s := q]> (subs st) -> user_sub q = user_sub p ->
  forall s', user_of st' s' = user_of st s'.
Proof.
  intros P E U s'. unfold user_of. rewrite E. destruct (decide (s' = s)) as [->|N].
  - by rewrite lookup_insert_eq, P; simpl; rewrite U.
  - by rewrite lookup_insert_ne.
Qed.

Lemma cb_with_sub st st' s p q :
  subs st !! s = Some p -> subs st' = <[s := q]> (subs st) -> callBackInProgress q = callBackInProgress p ->
  forall s', cb_of st' s' = cb_of st s'.
Proof.
  intros P E U s'. unfold cb_of. rewrite E. destruct (decide (s' = s)) as [->|N].
  - by rewrite lookup_insert_eq, P; simpl; rewrite U.
  - by rewrite lookup_insert_ne.
Qed.

(** ** The operations *)

(** *** Posting *)

(** What a post does to the queue: a second empty log is dropped; the last log of
    the subscription is replaced; or the log is appended. *)
Inductive post_spec (s : nat) (lg : db_field_log) : list entry -> list entry -> Prop :=
| post_dropped a old b :
    s ∉ evs b -> log_type old = dbfl_type_rec -> log_type lg = dbfl_type_rec ->
    post_spec s lg (a ++ (EV s, Some old) :: b) (a ++ (EV s, Some old) :: b)
| post_replaced a old b :
    s ∉ evs b -> post_spec s lg (a ++ (EV s, Some old) :: b) (a ++ (EV s, Some lg) :: b)
| post_appended l : post_spec s lg l (l ++ [(EV s, Some lg)]).

Definition fault_ok (strict : bool) (f : ev_fault) : Prop := strict = false /\ f = assert_slot.

Lemma delete_log lg st : log_addr lg ∈ logs st ->
  db_delete_field_log (Some lg) st = inr (set_logs st (logs st ∖ {[log_addr lg]})).
Proof. intros. unfold db_delete_field_log. by rewrite decide_True. Qed.

Lemma log_ids_middle a e lg b : log_ids (a ++ (e, Some lg) :: b) = log_ids a ++ log_addr lg :: log_ids b.
Proof. by rewrite log_ids_app. Qed.

Lemma log_ids_perm a e lg b t :
  log_ids (a ++ (e, Some lg) :: b) ++ t ≡ₚ log_addr lg :: log_ids (a ++ b) ++ t.
Proof. rewrite log_ids_middle, log_ids_app, <- !app_assoc. simpl. by rewrite <- Permutation_middle. Qed.

Lemma core_logs st l L : core st l -> core (set_logs st L) l.
Proof. intros [R E D C S Do]. by constructor. Qed.

Lemma distinct_snoc s o l : distinct (l ++ [(EV s, o)]) = (distinct l + if decide (s ∈ evs l) then 0 else 1)%nat.
Proof. unfold distinct. rewrite evs_app, evs_ev. rewrite distinct_remove. by rewrite app_nil_r. Qed.

Section Posting.
Variables (strict : bool) (st : ev_state) (l : list entry) (s : nat) (lg : db_field_log) (p : evSubscrip).
Hypothesis I : inv strict st l.
Hypothesis P : subs st !! s = Some p.
Hypothesis U : user_sub p = true.
Hypothesis Fresh : log_addr lg ∉ logs st.

Let st1 := set_logs st ({[log_addr lg]} ∪ logs st).
Let Q st' := exists l', inv strict st' l' /\ post_spec s lg l l' /\ task st' = task st /\
    flowCtrlMode st' = flowCtrlMode st /\ (forall s', user_of st' s' = user_of st s').

Lemma post_core : core st1 l.
Proof. apply (core_logs _ _ _ (inv_core _ _ _ I)). Qed.

Lemma post_append : (s ∈ evs l -> zlen l < 96) -> rwp (fault_ok strict) (append_log s lg p st1) Q.
Proof.
    intros Room. pose proof post_core as C. pose proof (core_ring _ _ C) as R.
    assert (Lv : s ∈ live st) by (apply elem_of_live; rewrite (user_some _ _ _ P); by f_equal).
    destruct (decide (zlen l < 128)) as [Lt|Ge].
    2:{ unfold append_log. rewrite decide_False.
        - split; [|done]. destruct strict eqn:St; [|done]. exfalso. apply Ge.
          destruct (decide (s ∈ evs l)) as [H|H]; [specialize (Room H); lia|].
          by eapply room_for.
        - rewrite (ring_put _ _ _ _ _ R), decide_False by lia. intros [= E].
          pose proof (ring_full _ _ _ _ _ R) as F. destruct l; [simpl in Ge; lia|]. inversion F; subst. done. }
    destruct (core_append st1 l s lg p C P Lt) as (st' & -> & C' & E).
    assert (Su : subs st' = <[s := mkSub (npend p + 1) (nreplace p) (Some (putix st1)) (user_sub p) (callBackInProgress p)]> (subs st)) by (by rewrite E).
    assert (Fl : forall s', user_of st' s' = user_of st s') by (by eapply user_with_sub).
    assert (Fb : forall s', cb_of st' s' = cb_of st s') by (by eapply cb_with_sub).
    exists (l ++ [(EV s, Some lg)]). split_and!; [|constructor|by rewrite E|by rewrite E|done].
    assert (Lg : log_ids (l ++ [(EV s, Some lg)]) ++ task_logs (task st') ≡ₚ log_addr lg :: log_ids l ++ task_logs (task st)).
    { rewrite E. cbn [task st1 set_logs]. rewrite log_ids_app. simpl. rewrite <- Permutation_cons_append. done. }
    assert (Lo : logs st' = {[log_addr lg]} ∪ logs st) by (by rewrite E).
    constructor; [done| | | | | | | |].
    - rewrite (subs_size_ext _ _ Fl). rewrite E. apply (inv_quota _ _ _ I).
    - rewrite (subs_size_ext _ _ Fl). apply (inv_size _ _ _ I).
    - intros s' H. rewrite Fl in H. pose proof (inv_cancel _ _ _ I s' H). rewrite evs_app, evs_ev.
      assert (s' <> s) by (intros ->; apply elem_of_live in Lv; congruence). set_solver.
    - rewrite Lg. constructor; [|apply (inv_nodup _ _ _ I)]. intros H. by apply (inv_logs _ _ _ I) in H.
    - intros a. rewrite Lg, Lo. intros [->|H]%elem_of_cons; [set_solver|]. apply (inv_logs _ _ _ I) in H. set_solver.
    - apply (task_ext _ _ Fb); [by rewrite E|by rewrite E|apply (inv_task _ _ _ I)].
    - intros _ Fc T. rewrite E in Fc, T |- *. cbn in Fc, T |- *. case_decide as D; [right; lia|].
      by apply (inv_awake _ _ _ I).
    - intros St. rewrite (live_ext _ _ Fl), distinct_snoc, length_app. pose proof (inv_room _ _ _ I St).
      pose proof (live_size st). pose proof (inv_size _ _ _ I). simpl.
      destruct (decide (s ∈ evs l)) as [D|D]; [specialize (Room D)|]; lia.
  Qed.

Lemma post_drop a old b :
    l = a ++ (EV s, Some old) :: b -> s ∉ evs b -> log_type old = dbfl_type_rec /\ log_type lg = dbfl_type_rec ->
    rwp (fault_ok strict) (db_delete_field_log (Some lg) st1) Q.
Proof.
    intros -> Nb [T1 T2]. rewrite delete_log by (cbn; set_solver). cbn [rwp].
    exists (a ++ (EV s, Some old) :: b). split_and!; [|by constructor|done|done|done].
    replace (set_logs st1 (logs st1 ∖ {[log_addr lg]})) with st; [done|].
    cbn. replace (({[log_addr lg]} ∪ logs st) ∖ {[log_addr lg]}) with (logs st) by set_solver. by destruct st.
  Qed.

Lemma post_replace a old b :
    l = a ++ (EV s, Some old) :: b -> s ∉ evs b ->
    rwp (fault_ok strict) (replace_log s (pos (getix st) (length a)) old lg p st1) Q.
Proof.
    intros E Nb. pose proof post_core as C. unfold replace_log.
    assert (Ho : log_addr old ∈ logs st) by (apply (inv_logs _ _ _ I); rewrite E, log_ids_middle; set_solver).
    rewrite delete_log by (cbn; set_solver). cbn [ebind rwp].
    set (st2 := set_logs st1 (logs st1 ∖ {[log_addr old]})).
    rewrite E in C. apply (core_logs _ _ (logs st1 ∖ {[log_addr old]})) in C.
    pose proof (core_replace _ a s (Some old) lg b p C Nb P) as C'. fold st2 in C'.
    match goal with |- Q ?x => set (st' := x) end. fold st' in C'.
    assert (Fl : forall s', user_of st' s' = user_of st s') by (by eapply user_with_sub).
    assert (Fb : forall s', cb_of st' s' = cb_of st s') by (by eapply cb_with_sub).
    exists (a ++ (EV s, Some lg) :: b). split_and!; [|rewrite E; by constructor|done|done|done].
    pose proof (inv_nodup _ _ _ I) as N. rewrite E, log_ids_perm in N.
    assert (Lg : log_ids (a ++ (EV s, Some lg) :: b) ++ task_logs (task st) ≡ₚ log_addr lg :: log_ids (a ++ b) ++ task_logs (task st)) by apply log_ids_perm.
    assert (Hl : forall x, x ∈ log_ids (a ++ b) ++ task_logs (task st) -> x ∈ logs st).
    { intros x H. apply (inv_logs _ _ _ I). rewrite E, log_ids_perm. by right. }
    apply NoDup_cons in N as [No N].
    assert (Ev : evs (a ++ (EV s, Some lg) :: b) = evs l) by (rewrite E; by rewrite !evs_app, !evs_ev).
    constructor; [done| | | | | | | |]; change (task st') with (task st).
    - rewrite (subs_size_ext _ _ Fl). apply (inv_quota _ _ _ I).
    - rewrite (subs_size_ext _ _ Fl). apply (inv_size _ _ _ I).
    - intros s' H. rewrite Fl in H. rewrite Ev. by apply (inv_cancel _ _ _ I s').
    - rewrite Lg. constructor; [|done]. intros H. exact (Fresh (Hl _ H)).
    - intros x. rewrite Lg. intros H. apply elem_of_difference.
      apply elem_of_cons in H as [->|H].
      + split; [by apply elem_of_union_l, elem_of_singleton|]. intros X%elem_of_singleton. by rewrite X in Fresh.
      + split; [by apply elem_of_union_r, Hl|]. intros ->%elem_of_singleton. exact (No H).
    - apply (task_ext _ _ Fb); [done|done|apply (inv_task _ _ _ I)].
    - intros _ Fc T. apply (inv_awake _ _ _ I); [rewrite E; by destruct a|done|done].
    - intros St. rewrite (live_ext _ _ Fl). pose proof (inv_room _ _ _ I St) as Ro.
      unfold distinct in *. rewrite Ev. rewrite E in Ro at 1. rewrite length_app in *. done.
  Qed.

Lemma post_inv : rwp (fault_ok strict) (db_queue_event_log s lg st1) Q.
Proof.
    pose proof post_core as C. destruct (core_subs _ _ C s p P) as [N _].
    unfold db_queue_event_log, sub_at. change (subs st1) with (subs st). rewrite P. cbn [ebind].
    destruct (Z.ltb_spec 0 (npend p)) as [Np|Np].
    - destruct (core_last st1 l s p C P Np) as (a & old & b & E & Nb & ->). cbn [ebind].
      case_decide as Rec; [by eapply post_drop|].
      destruct (flowCtrlMode st1 || _) eqn:Fl; [by eapply post_replace|].
      apply post_append. intros _. apply orb_false_iff in Fl as [_ Fl]. apply Z.leb_gt in Fl.
      rewrite (ring_space st1 _ (core_ring _ _ C)) in Fl. change EVENTSPERQUE with 32 in Fl. lia.
    - apply post_append. intros H. exfalso. assert (Z0 : cnt s l = 0%nat) by lia. by apply cnt_zero in Z0.
  Qed.
End Posting.

(** *** Canceling *)

Definition kill_entry (s : nat) (e : entry) : entry := if decide (e.1 = EV s) then (canceledEvent, None) else e.
(** The entries of a subscription are marked. *)
Definition kill (s : nat) (l : list entry) : list entry := kill_entry s <$> l.

Record same_rest (st st' : ev_state) : Prop := mkSame {
  same_getix : getix st' = getix st;
  same_quota : quota st' = quota st;
  same_flow : flowCtrlMode st' = flowCtrlMode st;
  same_suicide : pSuicideEvent st' = pSuicideEvent st;
  same_sem : ppendsem st' = ppendsem st;
  same_posting : posting st' = posting st;
  same_logs : logs st' = logs st;
  same_task : task st' = task st;
  same_user : forall s, user_of st' s = user_of st s;
  same_cb : forall s, cb_of st' s = cb_of st s }.

#[global] Instance same_rest_preorder : PreOrder same_rest.
Proof. split; [done|]. intros x y z [] []. constructor; congruence. Qed.

Lemma kill_app s a b : kill s (a ++ b) = kill s a ++ kill s b.
Proof. apply fmap_app. Qed.

Lemma evs_kill s l : evs (kill s l) = filter (fun x => x <> s) (evs l).
Proof.
  induction l as [|[e o] l IH]; [done|]. change (kill s ((e, o) :: l)) with (kill_entry s (e, o) :: kill s l).
  rewrite !evs_cons, IH, filter_app. f_equal. unfold kill_entry. cbn [fst]. case_decide as D.
  - subst e. cbn. by rewrite decide_False by (intros H; by apply H).
  - unfold ev_of. destruct e; try done. cbn. rewrite decide_True; [done|]. congruence.
Qed.

Lemma logs_of_kill s s' l : s' <> s -> logs_of s' (kill s l) = logs_of s' l.
Proof.
  intros N. unfold logs_of, kill. induction l as [|[e o] l IH]; [done|]. cbn. rewrite IH.
  unfold kill_entry. cbn [fst]. destruct (decide (e = EV s)) as [->|D]; cbn; [|done].
  by rewrite !decide_False by congruence.
Qed.

Lemma log_ids_kill s l : log_ids (kill s l) `sublist_of` log_ids l.
Proof.
  induction l as [|[e o] l IH]; [done|]. unfold log_ids in *. cbn. unfold kill_entry. cbn [fst].
  case_decide; cbn; destruct o; cbn; auto using sublist_skip, sublist_cons.
Qed.

Lemma removed_same i ph s p st n :
  subs st !! s = Some p -> same_rest st (removed i ph s p (with_canceled st n)).
Proof. intros P. constructor; try done; [by eapply user_with_sub|by eapply cb_with_sub]. Qed.

Lemma purge_core s b : forall fuel a st,
  core st (a ++ b) -> s ∉ evs a -> (length b < fuel)%nat -> (length a < 128)%nat ->
  exists st', purge fuel s (pos (getix st) (length a)) st = inr st' /\ core st' (a ++ kill s b) /\ same_rest st st'.
Proof.
  induction b as [|[e o] b IH]; intros [|fuel] a st C Na Fu La; try (simpl in Fu; lia); cbn [purge].
  - destruct (ring_cells _ _ _ _ _ (core_ring _ _ C) (length a) La) as [-> _].
    unfold cell. rewrite lookup_ge_None_2 by llia. exists st. by split_and!.
  - pose proof (core_ring _ _ C) as R. pose proof (core_bounds _ _ C) as [_ BC].
    destruct (ring_cells _ _ _ _ _ R (length a) La) as [Cq _].
    unfold cell in Cq. rewrite list_lookup_middle in Cq by done. cbn [fst] in Cq. rewrite Cq.
    assert (Ne : e <> EVENTQEMPTY).
    { pose proof (ring_full _ _ _ _ _ R) as F. apply Forall_app in F as [_ F]. by inversion F. }
    assert (One : exists st1,
      (if decide (e = EV s) then
         if nCanceled st <? 65535
         then event_remove (pos (getix st) (length a)) canceledEvent (with_canceled st (nCanceled st + 1))
         else inl assert_nCanceled
       else inr st) = inr st1 /\ core st1 ((a ++ [kill_entry s (e, o)]) ++ b) /\ same_rest st st1 /\
       s ∉ evs (a ++ [kill_entry s (e, o)])).
    { unfold kill_entry. cbn [fst]. rewrite evs_app. case_decide as D.
      - subst e. rewrite (proj2 (Z.ltb_lt _ _)) by lia.
        destruct (core_cancel st a s o b C Na) as (p & P & -> & C').
        eexists. split_and!; [reflexivity|by rewrite <- app_assoc|by apply removed_same|].
        cbn. by rewrite app_nil_r.
      - exists st. rewrite <- app_assoc. split_and!; [done|done|done|]. rewrite evs_cons, app_nil_r.
        apply not_elem_of_app. split; [done|]. unfold ev_of. destruct e; simpl; try apply not_elem_of_nil.
        rewrite list_elem_of_singleton. congruence. }
    destruct One as (st1 & E1 & C1 & S1 & N1).
    pose proof (ring_l _ _ _ _ _ R) as Rl. rewrite length_app in Rl. simpl in Rl, Fu.
    destruct R as [_ _ G _ _ _ _].
    assert (Res : exists st', (let i := RNGINC (pos (getix st) (length a)) in
        if decide (i = getix st1) then inr st1 else purge fuel s i st1) = inr st' /\
        core st' (a ++ kill_entry s (e, o) :: kill s b) /\ same_rest st st').
    { cbn zeta. rewrite RNGINC_pos, (same_getix _ _ S1) by lia.
      destruct (decide (pos (getix st) (S (length a)) = getix st)) as [D|D].
      - exists st1. assert (b = []) as -> by (destruct b; [done|]; simpl in Rl; exfalso; clear -D G Rl; pos_lia).
        rewrite app_nil_r in C1. by split_and!.
      - destruct (IH fuel (a ++ [kill_entry s (e, o)]) st1 C1 N1) as (st' & E & C' & S').
        + lia.
        + rewrite length_app. simpl. destruct (decide (S (length a) = 128)%nat) as [X|]; [|lia].
          exfalso. apply D. rewrite X. clear -G. pos_lia.
        + exists st'. rewrite <- app_assoc in C'. split_and!; [|done|by transitivity st1].
          rewrite <- E, (same_getix _ _ S1), length_app. simpl. do 2 f_equal. lia. }
    destruct Res as (st' & E & C' & S'). exists st'. split_and!; [|exact C'|exact S'].
    rewrite E1. cbn [ebind]. cbn zeta in E. rewrite <- E. destruct e; done.
Qed.

(** Only the counters of a subscription matter to the queue. *)
Lemma core_with_sub st l s p q :
  core st l -> subs st !! s = Some p -> npend q = npend p -> pLastLog q = pLastLog p -> core (with_sub st s q) l.
Proof.
  intros [R E D C S Do] P N L. constructor; try done; cbn.
  - intros s' p'. destruct (decide (s' = s)) as [->|Ne]; [|rewrite lookup_insert_ne by done; apply S].
    rewrite lookup_insert_eq. intros [= <-]. unfold sub_ok. rewrite N, L. by apply S.
  - intros s' H. destruct (decide (s' = s)) as [->|Ne]; [by rewrite lookup_insert_eq|].
    rewrite lookup_insert_ne by done. by apply Do.
Qed.

Lemma kill_nil s l : kill s l = [] -> l = [].
Proof. by destruct l. Qed.

Lemma distinct_kill s l : (distinct l <= distinct (kill s l) + 1)%nat.
Proof.
  unfold distinct. rewrite evs_kill.
  transitivity (size ({[s]} ∪ list_to_set (filter (fun x => x <> s) (evs l)) : gset nat)).
  - apply subseteq_size. intros x H%elem_of_list_to_set. destruct (decide (x = s)) as [->|N].
    + by apply elem_of_union_l, elem_of_singleton.
    + apply elem_of_union_r, elem_of_list_to_set. by apply list_elem_of_filter.
  - rewrite size_union_alt, size_singleton.
    enough (size (list_to_set (filter (fun x => x <> s) (evs l)) ∖ {[s]} : gset nat) <=
      size (list_to_set (filter (fun x => x <> s) (evs l)) : gset nat))%nat by lia.
    apply subseteq_size. set_solver.
Qed.

Lemma purge_inv strict st l s p :
  inv strict st l -> subs st !! s = Some p -> user_sub p = true ->
  exists st', db_cancel_purge s st = inr st' /\ inv strict st' (kill s l) /\ task st' = task st /\
    flowCtrlMode st' = flowCtrlMode st /\ (forall s', cb_of st' s' = cb_of st s') /\
    user_of st' s = Some false /\ (forall s', s' <> s -> user_of st' s' = user_of st s').
Proof.
  intros I P U. unfold db_cancel_purge, sub_at at 1. rewrite P. cbn [ebind].
  set (st1 := with_sub st s _).
  assert (C1 : core st1 l) by (by eapply core_with_sub; [apply (inv_core _ _ _ I)|exact P| |]).
  destruct (purge_core s l 129 [] st1) as (st' & E & C' & Sm).
  { exact C1. } { apply not_elem_of_nil. } { pose proof (ring_l _ _ _ _ _ (core_ring _ _ C1)). lia. } { simpl. lia. }
  simpl in C'. rewrite pos_0 in E by apply (ring_g _ _ _ _ _ (core_ring _ _ C1)). rewrite E. cbn [ebind]. clear E.
  assert (Fb : forall s', cb_of st' s' = cb_of st s').
  { intros s'. rewrite (same_cb _ _ Sm). by eapply cb_with_sub. }
  assert (Us : user_of st' s = Some false).
  { rewrite (same_user _ _ Sm). unfold user_of, st1. cbn. by rewrite lookup_insert_eq. }
  assert (Uo : forall s', s' <> s -> user_of st' s' = user_of st s').
  { intros s' N. rewrite (same_user _ _ Sm). unfold user_of, st1. cbn. by rewrite lookup_insert_ne. }
  assert (Ns : s ∉ evs (kill s l)).
  { rewrite evs_kill. intros H%list_elem_of_filter. tauto. }
  unfold sub_at. pose proof Us as X. unfold user_of in X. destruct (subs st' !! s) as [q|] eqn:Q; [|done]. cbn [ebind].
  destruct (core_subs _ _ C' s q Q) as [N _]. apply cnt_zero in Ns as N0. rewrite N0 in N. rewrite N.
  exists st'. split; [done|].
  assert (Sz : size (subs st') = size (subs st)).
  { rewrite (subs_size_ext _ _ (same_user _ _ Sm)). cbn. by rewrite map_size_insert_Some. }
  assert (Lv : live st' = live st ∖ {[s]}).
  { apply set_eq. intros s'. rewrite elem_of_difference, !elem_of_live, elem_of_singleton.
    destruct (decide (s' = s)) as [->|Ne]; [rewrite Us; split; [done|tauto]|]. rewrite Uo by done. tauto. }
  assert (Ls : s ∈ live st) by (apply elem_of_live; rewrite (user_some _ _ _ P); by f_equal).
  assert (Su : log_ids (kill s l) ++ task_logs (task st) `sublist_of` log_ids l ++ task_logs (task st))
    by (apply sublist_app; [apply log_ids_kill|done]).
  split_and!; [|by rewrite (same_task _ _ Sm)|by rewrite (same_flow _ _ Sm)|done|done|done].
  constructor; [done| | | | | | | |].
  - rewrite Sz, (same_quota _ _ Sm). apply (inv_quota _ _ _ I).
  - rewrite Sz. apply (inv_size _ _ _ I).
  - intros s' H. rewrite evs_kill. intros [N' H']%list_elem_of_filter. rewrite Uo in H by done.
    by apply (inv_cancel _ _ _ I s').
  - rewrite (same_task _ _ Sm). eapply sublist_NoDup; [exact (inv_nodup _ _ _ I)|exact Su].
  - intros a. rewrite (same_task _ _ Sm), (same_logs _ _ Sm). intros H. apply (inv_logs _ _ _ I).
    eapply elem_of_sublist; [exact H|exact Su].
  - apply (task_ext st); [done|by rewrite (same_task _ _ Sm)|by rewrite (same_suicide _ _ Sm)|apply (inv_task _ _ _ I)].
  - intros K. assert (l <> []) as K' by (by intros ->). unfold awake.
    rewrite (same_flow _ _ Sm), (same_task _ _ Sm), (same_sem _ _ Sm), (same_posting _ _ Sm).
    by apply (inv_awake _ _ _ I).
  - intros St. pose proof (inv_room _ _ _ I St) as Ro. pose proof (distinct_kill s l).
    rewrite Lv, size_difference by set_solver. rewrite size_singleton.
    assert (size (live st) <> 0%nat) by (intros Z0%size_empty_inv; set_solver).
    unfold kill. rewrite length_fmap. fold (kill s l). lia.
Qed.

Lemma core_delete st l s q : core st l -> s ∉ evs l -> core (set_subs (with_quota st q) (delete s (subs st))) l.
Proof.
  intros [R E D C S Do] N. constructor; try done; cbn.
  - intros s' p' [_ H]%lookup_delete_Some. by apply S.
  - intros s' H. rewrite lookup_delete_ne by (by intros ->). by apply Do.
Qed.

(** The end of [db_cancel_event]; [pS] is what [pSuicideEvent] was set to. *)
Lemma free_inv strict st l s pS :
  inv strict st l -> user_of st s = Some false -> task_ok (db_cancel_free s (set_suicide st pS)) ->
  inv strict (db_cancel_free s (set_suicide st pS)) l.
Proof.
  intros I U T. pose proof (inv_cancel _ _ _ I s U) as Ns.
  assert (Sz : size (subs st) = S (size (delete s (subs st)))).
  { unfold user_of in U. destruct (subs st !! s) as [p|] eqn:P; [|done].
    rewrite map_size_delete, P. assert (size (subs st) <> 0%nat); [|lia].
    intros Z0%map_size_empty_inv. by rewrite Z0 in P. }
  assert (Uo : forall s', user_of (db_cancel_free s (set_suicide st pS)) s' = if decide (s' = s) then None else user_of st s').
  { intros s'. unfold user_of. cbn. case_decide as D; [subst; by rewrite lookup_delete_eq|by rewrite lookup_delete_ne]. }
  assert (Lv : live (db_cancel_free s (set_suicide st pS)) = live st).
  { apply set_eq. intros s'. rewrite !elem_of_live, Uo. case_decide; [subst; by rewrite U|done]. }
  pose proof (inv_size _ _ _ I). pose proof (inv_quota _ _ _ I) as Qu. change EVENTENTRIES with 4 in Qu.
  constructor; [| | | |apply (inv_nodup _ _ _ I)|apply (inv_logs _ _ _ I)|exact T|apply (inv_awake _ _ _ I)|].
  - change (core (set_subs (with_quota (set_suicide st pS) (quota st - EVENTENTRIES)) (delete s (subs (set_suicide st pS)))) l).
    apply core_delete; [|done]. destruct (inv_core _ _ _ I). by constructor.
  - change (u16 (quota st - 4) = 4 * Z.of_nat (size (delete s (subs st)))). rewrite u16_id; lia.
  - cbn. lia.
  - intros s'. rewrite Uo. case_decide; [done|]. apply (inv_cancel _ _ _ I).
  - rewrite Lv. apply (inv_room _ _ _ I).
Qed.

(** *** The event task *)

Definition reading (n : nat) (st : ev_state) : ev_state := set_task (set_sem st true n) Waiting.

Lemma log_ids_none e l : log_ids ((e, None) :: l) = log_ids l.
Proof. reflexivity. Qed.

(** [event_read] skips canceled entries; it ends with an empty queue or calls back with
    the first log. *)
Definition read_spec (st : ev_state) (l : list entry) (st' : ev_state) (l' : list entry) : Prop :=
  flowCtrlMode st' = flowCtrlMode st /\ (forall s, user_of st' s = user_of st s) /\
  ((l' = [] /\ evs l = [] /\ task st' = Waiting) \/
   exists a s lg, l = a ++ (EV s, Some lg) :: l' /\ evs a = [] /\ task st' = Callback s lg).

Lemma core_task st l t b n : core st l -> core (set_task (set_sem st b n) t) l.
Proof. intros []. by constructor. Qed.

Lemma read_head strict st s lg l n :
  inv strict (reading n st) ((EV s, Some lg) :: l) ->
  exists p, subs st !! s = Some p /\ user_sub p = true /\
    let st1 := set_getix (removed (getix st) EVENTQEMPTY s p st) (RNGINC (getix st)) in
    event_remove (getix st) EVENTQEMPTY st = inr (removed (getix st) EVENTQEMPTY s p st) /\
    inv strict (set_task (with_sub st1 s (mkSub (npend p - 1) (nreplace p)
      (if npend p =? 1 then None else pLastLog p) true true)) (Callback s lg)) l.
Proof.
  intros I. pose proof (core_task _ _ (task st) (ppendsem st) (posting st) (inv_core _ _ _ I)) as C.
  replace (set_task _ _) with st in C by (by destruct st).
  destruct (core_pop st s (Some lg) l C) as (p & P & E & C'). exists p. split; [done|].
  assert (U : user_sub p = true).
  { destruct (user_sub p) eqn:U; [done|]. exfalso. apply (inv_cancel _ _ _ I s).
    - unfold user_of. cbn. rewrite P. simpl. by rewrite U.
    - rewrite evs_ev. by left. }
  split; [done|]. intros st1. split; [done|]. set (p1 := mkSub _ _ _ _ _). set (st2 := set_task _ _).
  assert (Su : subs st2 = <[s := p1]> (subs st)) by (cbn; apply insert_insert_eq).
  assert (Fl : forall s', user_of st2 s' = user_of st s') by (by eapply user_with_sub).
  assert (Sz : size (subs st2) = size (subs st)) by (by apply subs_size_ext).
  destruct (inv_task _ _ _ I) as [T1 T2].
  pose proof (inv_nodup _ _ _ I) as Nd. pose proof (inv_logs _ _ _ I) as Lo. cbn in Nd, Lo.
  assert (Lg : log_ids l ++ [log_addr lg] ≡ₚ log_addr lg :: log_ids l ++ []).
  { rewrite app_nil_r. by rewrite <- Permutation_cons_append. }
  constructor.
  - pose proof (core_with_sub st1 l s (sub_removed p) p1) as W.
    specialize (W C' ltac:(cbn; by rewrite lookup_insert_eq) eq_refl eq_refl).
    by apply (core_task _ _ (Callback s lg) (ppendsem st) (posting st)) in W.
  - rewrite Sz. apply (inv_quota _ _ _ I).
  - rewrite Sz. apply (inv_size _ _ _ I).
  - intros s' H. rewrite Fl in H. pose proof (inv_cancel _ _ _ I s' H) as N. rewrite evs_ev in N. set_solver.
  - change (task_logs (task st2)) with [log_addr lg]. rewrite Lg. exact Nd.
  - intros a. change (task_logs (task st2)) with [log_addr lg]. rewrite Lg. apply Lo.
  - unfold task_ok. change (task st2) with (Callback s lg). change (pSuicideEvent st2) with (pSuicideEvent st). cbv beta iota.
    cbn in T1. assert (Cb : forall s', cb_of st2 s' = if decide (s' = s) then Some true else cb_of st s').
    { intros s'. unfold cb_of. rewrite Su. case_decide; [subst; by rewrite lookup_insert_eq|by rewrite lookup_insert_ne]. }
    rewrite Cb, decide_True by done. split; [by right|]. intros s'. rewrite Cb. case_decide; [done|]. intros H'. by apply T2 in H'.
  - unfold awake. done.
  - intros St. pose proof (inv_room _ _ _ I St) as Ro. rewrite (live_ext st) by done.
    change (live (reading n st)) with (live st) in Ro. rewrite length_cons in Ro.
    unfold distinct in *. rewrite evs_ev in Ro. pose proof (distinct_remove s [] (evs l)) as DR.
    cbn [app] in DR. rewrite DR in Ro. case_decide; lia.
Qed.

Lemma read_skip strict st o l n :
  inv strict (reading n st) ((canceledEvent, o) :: l) ->
  o = None /\ 0 < nCanceled st /\ inv strict (reading n (skipped_one st)) l.
Proof.
  intros I. pose proof (core_task _ _ (task st) (ppendsem st) (posting st) (inv_core _ _ _ I)) as C.
  replace (set_task _ _) with st in C by (by destruct st).
  destruct (core_skip st o l C) as (-> & N & C'). split_and!; [done|done|].
  destruct I as [I1 I2 I3 I4 I5 I6 I7 I8 I9]. constructor; try done.
  - by apply core_task.
  - intros _ _ _. by left.
  - intros St. specialize (I9 St). change (live (reading n (skipped_one st))) with (live (reading n st)).
    unfold distinct in *. rewrite evs_cons in I9. cbn in I9 |- *. lia.
Qed.

Lemma read_loop_inv strict n l : forall fuel st,
  (length l < fuel)%nat -> inv strict (reading n st) l ->
  exists st' l', read_loop fuel st = inr st' /\ inv strict st' l' /\ read_spec st l st' l'.
Proof.
  induction l as [|[e o] l IH]; intros [|fuel] st Fu I; try (simpl in Fu; lia); cbn [read_loop];
    pose proof (core_ring _ _ (inv_core _ _ _ I)) as R; cbn in R.
  - destruct (ring_nil _ _ _ _ R) as [-> ->]. exists (set_task st Waiting), []. split_and!; [done| |split_and!; [done|done|by left]].
    destruct I as [I1 I2 I3 I4 I5 I6 I7 I8 I9]. constructor; try done.
    + by apply (core_task _ _ Waiting (ppendsem st) (posting st)) in I1.
    + intros K. by destruct K.
  - destruct (ring_head _ _ _ _ _ _ R) as [Hq Hv]. cbn [fst snd] in Hq, Hv. rewrite Hq, Hv.
    pose proof (core_entries _ _ (inv_core _ _ _ I)) as F. inversion F as [|? ? Fe _]; subst. simpl in Fu.
    destruct e as [| |s].
    + by destruct Fe.
    + destruct (read_skip _ _ _ _ _ I) as (-> & N & I'). cbn [db_delete_field_log ebind].
      cbn [nCanceled set_getix set_ring]. rewrite (proj2 (Z.ltb_lt 0 _) N).
      destruct (IH fuel (skipped_one st) ltac:(lia) I') as (st' & l' & E & J & Fl & Us & Sp).
      exists st', l'. split; [exact E|]. split; [done|]. split_and!; [done|done|].
      destruct Sp as [(? & ? & ?)|(a & s & lg & -> & Ea & T)]; [by left|right].
      exists ((canceledEvent, None) :: a), s, lg. by split_and!.
    + destruct Fe as [lg Ho]. simpl in Ho. subst o.
      destruct (read_head _ _ _ _ _ _ I) as (p & P & U & E & J). rewrite E. cbn [ebind].
      unfold sub_at. cbn [subs set_getix removed with_sub set_subs]. rewrite lookup_insert_eq. cbn [ebind sub_removed user_sub].
      rewrite U. eexists _, l. split; [reflexivity|]. split; [exact J|]. split_and!; [done| |right; by exists [], s, lg].
      eapply user_with_sub; [exact P|cbn; apply insert_insert_eq|done].
Qed.
