(* ===== verification/DbEventRun.v ===== *)
(** * Event queues: runs

    What every step of {!DbEvent.ev_exec} keeps ({!step_inv}), and what follows for runs:
    no assertion fails and nothing freed is used; a subscriber is called back with
    values that were posted to it, in order, and with the last one. *)

From stdpp Require Import base numbers list option gmap.
From Stdlib Require Import ZArith Lia Bool.
From S2P Require Import Prelude DbEvent DbEventQueue DbEventInv.

(** ** Steps *)

(** The rules of the callers: the event task cancels only the subscription it is
    calling back; in a [strict] run a subscription is added only while a quarter
    of the queue is free. *)
Definition disciplined (strict : bool) (lab : ev_label) (st : ev_state) : bool :=
  match lab with
  | L_cancel_self s => match task st with Callback s' _ => Nat.eqb s s' | Waiting => false end
  | L_add _ => implb strict (EVENTSPERQUE <=? ringSpace st)
  | _ => true
  end.

Definition user_mono (st st' : ev_state) : Prop :=
  forall s, user_of st' s = Some true -> user_of st s = Some true.

(** What a step does to the list of entries. *)
Definition step_spec (lab : ev_label) (st : ev_state) (l : list entry) (st' : ev_state) (l' : list entry) : Prop :=
  match lab with
  | L_add s => l' = l /\ s ∉ evs l /\ forall s', s' <> s -> user_of st' s' = user_of st s'
  | L_post s lg => post_spec s lg l l' /\ user_mono st st'
  | L_cancel s | L_cancel_self s => l' = kill s l /\ user_mono st st' /\ user_of st' s <> Some true
  | L_wake | L_return =>
      user_mono st st' /\ (l' = l /\ task st' = Waiting /\ flowCtrlMode st' = true \/ read_spec st l st' l')
  | _ => l' = l /\ user_mono st st'
  end.

Lemma user_mono_eq st st' : (forall s, user_of st' s = user_of st s) -> user_mono st st'.
Proof. intros H s. by rewrite H. Qed.

Lemma add_inv strict st l s :
  inv strict st l -> subs st !! s = None -> has_quota st = true -> disciplined strict (L_add s) st = true ->
  inv strict (db_add_event s st) l /\ step_spec (L_add s) st l (db_add_event s st) l.
Proof.
  intros I N Q D. set (st' := db_add_event s st).
  assert (Ns : s ∉ evs l) by (intros H; apply (core_dom _ _ (inv_core _ _ _ I)) in H; rewrite N in H; by destruct H).
  assert (Uo : forall s', s' <> s -> user_of st' s' = user_of st s') by (intros s' H; unfold user_of; cbn; by rewrite lookup_insert_ne).
  assert (Us : user_of st' s = Some true) by (unfold user_of; cbn; by rewrite lookup_insert_eq).
  assert (Cb : forall s', cb_of st' s' = Some true -> cb_of st s' = Some true).
  { intros s'. unfold cb_of. cbn. destruct (decide (s' = s)) as [->|H]; [by rewrite lookup_insert_eq|by rewrite lookup_insert_ne]. }
  assert (Sz : size (subs st') = S (size (subs st))) by (cbn; by rewrite map_size_insert_None).
  pose proof (core_bounds _ _ (inv_core _ _ _ I)) as [_ BC]. pose proof (inv_quota _ _ _ I) as Qu.
  unfold has_quota in Q. apply Z.ltb_lt in Q. change (EVENTQUESIZE - EVENTENTRIES) with 124 in Q.
  change EVENTENTRIES with 4 in Qu. split; [|by split_and!].
  destruct (inv_core _ _ _ I) as [R E Du Ca Su Do].
  constructor; [| | | |apply (inv_nodup _ _ _ I)|apply (inv_logs _ _ _ I)| |apply (inv_awake _ _ _ I)|].
  - constructor; try done; cbn.
    + intros s' p'. destruct (decide (s' = s)) as [->|H]; [|rewrite lookup_insert_ne by done; apply Su].
      rewrite lookup_insert_eq. intros [= <-]. split; cbn.
      * by rewrite (proj2 (cnt_zero _ _) Ns).
      * by rewrite (proj2 (last_index_None _ _) Ns).
    + intros s' H. rewrite lookup_insert_ne by (intros ->; done). by apply Do.
  - rewrite Sz. change (u16 (quota st + 4) = 4 * Z.of_nat (S (size (subs st)))). rewrite u16_id by lia. lia.
  - rewrite Sz. lia.
  - intros s' H. destruct (decide (s' = s)) as [->|Ne]; [done|]. rewrite Uo in H by done. by apply (inv_cancel _ _ _ I).
  - pose proof (inv_task _ _ _ I) as T. unfold task_ok in *. change (task st') with (task st).
    change (pSuicideEvent st') with (pSuicideEvent st). destruct (task st) as [|s0 pfl].
    + destruct T as [Tp T]. split; [done|]. intros s' X. by apply Cb, T in X.
    + destruct T as [T1 T2]. split; [|intros s' H; by apply T2, Cb].
      destruct T1 as [?|[? T1]]; [by left|right]. split; [done|]. rewrite <- T1. unfold cb_of. cbn.
      rewrite lookup_insert_ne; [done|]. intros ->. unfold cb_of in T1. by rewrite N in T1.
  - intros St. subst strict. simpl in D. apply Z.leb_le in D. rewrite (ring_space st l R) in D. change EVENTSPERQUE with 32 in D.
    pose proof (live_size st'). rewrite Sz in H. lia.
Qed.

(** The states the event task reads in. *)
Lemma inv_reading strict st l n : inv strict st l -> task st = Waiting -> inv strict (reading n st) l.
Proof.
  intros I T. destruct I as [I1 I2 I3 I4 I5 I6 I7 I8 I9]. unfold reading.
  constructor; cbn -[user_of live task_ok]; try rewrite T in *; try done.
  - by apply core_task.
  - unfold task_ok in *. rewrite T in I7. exact I7.
  - intros _ _ _. by left.
Qed.

Lemma inv_end strict st l s pfl st1 :
  inv strict st l -> task st = Callback s pfl -> core st1 l ->
  quota st1 = quota st -> (forall s', user_of st1 s' = user_of st s') -> logs st1 = logs st ->
  pSuicideEvent st1 = None -> (forall s', cb_of st1 s' <> Some true) ->
  exists st2, db_delete_field_log (Some pfl) st1 = inr st2 /\ inv strict (reading 0 st2) l /\
    flowCtrlMode st2 = flowCtrlMode st1 /\ (forall s', user_of st2 s' = user_of st s').
Proof.
  intros I T C Qu Us Lo Su Cb. pose proof (inv_logs _ _ _ I) as Il. pose proof (inv_nodup _ _ _ I) as Nd.
  rewrite T in Il, Nd. cbn [task_logs] in Il, Nd.
  rewrite delete_log by (rewrite Lo; apply Il; set_solver). eexists. split; [reflexivity|].
  split; [|split; [done|exact Us]].
  assert (Ut : forall s', user_of (reading 0 (set_logs st1 (logs st1 ∖ {[log_addr pfl]}))) s' = user_of st s') by exact Us.
  constructor.
  - by apply core_task, core_logs.
  - rewrite (subs_size_ext _ _ Ut). cbn. rewrite Qu. apply (inv_quota _ _ _ I).
  - rewrite (subs_size_ext _ _ Ut). apply (inv_size _ _ _ I).
  - intros s'. rewrite Ut. apply (inv_cancel _ _ _ I).
  - rewrite app_nil_r. by apply NoDup_app in Nd as [? _].
  - intros a. rewrite app_nil_r. cbn. intros H. rewrite Lo. apply elem_of_difference. split; [apply Il; set_solver|].
    intros ->%elem_of_singleton. apply NoDup_app in Nd as (_ & Nd & _). apply (Nd _ H). by apply list_elem_of_singleton.
  - split; [exact Su|exact Cb].
  - intros _ _ _. by left.
  - intros St. rewrite (live_ext _ _ Ut). by apply (inv_room _ _ _ I).
Qed.

Lemma return_inv strict st l s pfl :
  inv strict st l -> task st = Callback s pfl ->
  exists st' l', callback_end s pfl st = inr st' /\ inv strict st' l' /\ read_spec st l st' l'.
Proof.
  intros I T. pose proof (inv_task _ _ _ I) as To. unfold task_ok in To. rewrite T in To. destruct To as [T1 T2].
  assert (Pre : exists st1,
    (if decide (pSuicideEvent st = Some s) then inr (set_suicide st None)
     else let* p := sub_at st s in
          inr (with_sub st s (mkSub (npend p) (nreplace p) (pLastLog p) (user_sub p) false))) = inr st1 /\
    core st1 l /\ quota st1 = quota st /\ (forall s', user_of st1 s' = user_of st s') /\ logs st1 = logs st /\
    pSuicideEvent st1 = None /\ (forall s', cb_of st1 s' <> Some true) /\ flowCtrlMode st1 = flowCtrlMode st).
  { destruct T1 as [S|[S Cb]].
    - rewrite decide_True by done. exists (set_suicide st None). split_and!; try done.
      + destruct (inv_core _ _ _ I). by constructor.
      + intros s' H. apply T2 in H as [_ H]. congruence.
    - rewrite decide_False by congruence. unfold sub_at. pose proof Cb as Cb'. unfold cb_of in Cb'.
      destruct (subs st !! s) as [p|] eqn:P; [|done]. cbn [ebind]. eexists. split; [reflexivity|].
      split_and!; try done.
      + by eapply core_with_sub; [apply (inv_core _ _ _ I)|exact P| |].
      + by eapply user_with_sub.
      + intros s'. unfold cb_of. cbn. destruct (decide (s' = s)) as [->|N]; [by rewrite lookup_insert_eq|].
        rewrite lookup_insert_ne by done. intros H. by apply T2 in H as [H _]. }
  destruct Pre as (st1 & E1 & C & Qu & Us & Lo & Su & Cb & Fl). unfold callback_end. rewrite E1. cbn [ebind].
  destruct (inv_end _ _ _ _ _ _ I T C Qu Us Lo Su Cb) as (st2 & -> & I2 & Fl2 & Us2). cbn [ebind].
  destruct (read_loop_inv strict 0 l 129 st2) as (st' & l' & E & J & Fl3 & Us3 & Sp); [|done|].
  - pose proof (ring_l _ _ _ _ _ (core_ring _ _ C)). lia.
  - exists st', l'. split_and!; [done|done|]. split_and!; [congruence| |done]. intros s'. by rewrite Us3.
Qed.

Lemma wake_inv strict st l n :
  inv strict st l -> task st = Waiting ->
  exists st' l', event_read (set_sem st false n) = inr st' /\ inv strict st' l' /\
    (l' = l /\ task st' = Waiting /\ flowCtrlMode st' = true /\ (forall s, user_of st' s = user_of st s) /\ flowCtrlMode st = true \/ read_spec st l st' l').
Proof.
  intros I T. unfold event_read. destruct (flowCtrlMode (set_sem st false n) && _) eqn:Fl.
  - apply andb_true_iff in Fl as [Fl _]. exists (set_task (set_sem st false n) Waiting), l. split_and!; [done| |left; by split_and!].
    destruct I as [I1 I2 I3 I4 I5 I6 I7 I8 I9]. constructor; try done.
    + by apply core_task.
    + by rewrite T in I5. + by rewrite T in I6.
    + unfold task_ok in *. rewrite T in I7. exact I7.
    + intros _ F. simpl in F, Fl. congruence.
  - destruct (read_loop_inv strict 0 l 129 (set_sem st false n)) as (st' & l' & E & J & Sp).
    + pose proof (ring_l _ _ _ _ _ (core_ring _ _ (inv_core _ _ _ I))). lia.
    + exact (inv_reading _ _ _ _ I T).
    + exists st', l'. split_and!; [done|done|by right].
Qed.

Lemma cancel_self_task st st' s s0 pfl :
  task_ok st -> task st = Callback s0 pfl -> s = s0 -> task st' = task st -> (forall s', cb_of st' s' = cb_of st s') ->
  task_ok (db_cancel_free s (set_suicide st' (Some s))).
Proof.
  intros To T -> T' Cb. unfold task_ok in *. rewrite T in To. cbn -[cb_of]. rewrite T', T. destruct To as [T1 T2].
  split; [by left|]. intros s'. unfold cb_of. cbn. intros H.
  destruct (decide (s' = s0)) as [->|N]; [by rewrite lookup_delete_eq in H|].
  rewrite lookup_delete_ne in H by done. fold (cb_of st' s') in H. rewrite Cb in H. by apply T2 in H as [? _].
Qed.

Lemma cancelled_task st s p :
  task_ok st -> subs st !! s = Some p -> callBackInProgress p = false -> task_ok (db_cancel_free s st).
Proof.
  intros To P Cb. assert (E : forall s', cb_of (db_cancel_free s st) s' = Some true <-> cb_of st s' = Some true).
  { intros s'. unfold cb_of. cbn. destruct (decide (s' = s)) as [->|N].
    - rewrite lookup_delete_eq, P. simpl. rewrite Cb. done.
    - by rewrite lookup_delete_ne. }
  unfold task_ok in *. cbn -[cb_of]. destruct (task st) as [|s0 pfl].
  - destruct To as [? T]. split; [done|]. intros s' X. by apply E, T in X.
  - destruct To as [T1 T2]. split; [by rewrite E|]. intros s' X. by apply E, T2 in X.
Qed.

Lemma free_mono st s : user_mono st (db_cancel_free s st) /\ user_of (db_cancel_free s st) s <> Some true.
Proof.
  unfold user_mono, user_of. cbn. rewrite lookup_delete_eq. split; [|done]. intros s'.
  destruct (decide (s' = s)) as [->|N]; [by rewrite lookup_delete_eq|by rewrite lookup_delete_ne].
Qed.

Lemma purge_mono st st' s : user_of st s = Some true ->
  (forall s', s' <> s -> user_of st' s' = user_of st s') -> user_mono st st'.
Proof. intros U H s'. destruct (decide (s' = s)) as [->|N]; [done|]. by rewrite H. Qed.

Lemma step_inv strict st l lab r :
  inv strict st l -> disciplined strict lab st = true -> ev_exec lab st = Some r ->
  rwp (fault_ok strict) r (fun st' => exists l', inv strict st' l' /\ step_spec lab st l st' l').
Proof.
  intros I D E. destruct lab as [s|s lg| |s|s|s|on| |]; unfold ev_exec in E.
  - case_decide as H; [|done]. destruct H as [N Q]. injection E as <-. exists l. by apply (add_inv _ _ _ _ I).
  - destruct (subs st !! s) as [p|] eqn:P; [|done]. case_decide as H; [|done]. destruct H as [U F]. injection E as <-.
    eapply rwp_mono; [by eapply (post_inv strict st l s lg p)|].
    intros st' (l' & J & Sp & _ & _ & Us). exists l'. split; [done|]. split; [done|by apply user_mono_eq].
  - destruct (posting st) as [|n] eqn:P; [done|]. injection E as <-. exists l. split; [|split; [done|by apply user_mono_eq]].
    destruct I as [I1 I2 I3 I4 I5 I6 I7 I8 I9]. constructor; try done.
    + destruct I1. by constructor.
    + intros _ _ _. by left.
  - destruct (subs st !! s) as [p|] eqn:P; [|done]. destruct (user_sub p) eqn:U; [|done]. injection E as <-.
    destruct (purge_inv _ _ _ _ _ I P U) as (st' & -> & J & _ & _ & _ & Us & Uo). exists (kill s l).
    split; [done|]. split_and!; [done| |congruence]. eapply purge_mono; [by rewrite (user_some _ _ _ P), U|exact Uo].
  - destruct (subs st !! s) as [p|] eqn:P; [|done]. destruct (_ && _) eqn:B; [|done]. injection E as <-.
    apply andb_true_iff in B as [B1 B2]. apply negb_true_iff in B1, B2. exists l.
    assert (Ts : task_ok (db_cancel_free s (set_suicide st (pSuicideEvent st)))).
    { replace (set_suicide st (pSuicideEvent st)) with st by (by destruct st).
      by eapply cancelled_task; [apply (inv_task _ _ _ I)|exact P|]. }
    apply (free_inv strict st l) in Ts; [|exact I|rewrite (user_some _ _ _ P); by f_equal].
    replace (set_suicide st (pSuicideEvent st)) with st in Ts by (by destruct st).
    split; [done|]. split; [done|]. by destruct (free_mono st s).
  - destruct (subs st !! s) as [p|] eqn:P; [|done]. destruct (task st) as [|s0 pfl] eqn:T; [done|].
    destruct (user_sub p) eqn:U; [|done]. injection E as <-. simpl in D. rewrite T in D. apply Nat.eqb_eq in D.
    unfold db_cancel_self. destruct (purge_inv _ _ _ _ _ I P U) as (st' & -> & J & Tk & _ & Cb & Us & Uo). cbn [ebind].
    exists (kill s l). destruct (free_mono (set_suicide st' (Some s)) s) as [Fm Fn]. split.
    + apply free_inv; [done|done|]. by eapply cancel_self_task; [apply (inv_task _ _ _ I)| | | |].
    + split_and!; [done| |done]. intros s' H%Fm. eapply (purge_mono st st' s); [by rewrite (user_some _ _ _ P), U|exact Uo|exact H].
  - injection E as <-. exists l. split; [|split; [done|by apply user_mono_eq]].
    destruct I as [I1 I2 I3 I4 I5 I6 I7 I8 I9]. constructor; try done.
    + destruct I1. by constructor.
    + intros _ _ _. by left.
  - destruct (task st) as [|] eqn:T; [|done]. destruct (ppendsem st); [|done]. injection E as <-.
    destruct (wake_inv _ _ _ (posting st) I T) as (st' & l' & -> & J & Sp). exists l'. split; [done|].
    destruct Sp as [(? & ? & ? & Us & _)|Sp].
    + split; [by apply user_mono_eq|by left].
    + split; [|by right]. by apply user_mono_eq, Sp.
  - destruct (task st) as [|s pfl] eqn:T; [done|]. injection E as <-.
    destruct (return_inv _ _ _ _ _ I T) as (st' & l' & -> & J & Sp). exists l'. split; [done|].
    split; [by apply user_mono_eq, Sp|by right].
Qed.

Lemma init_ring : ring (replicate 128 EVENTQEMPTY) (replicate 128 None) 0 0 [].
Proof.
  constructor; [done|done|lia|simpl; lia|done| |constructor]. intros i _.
  pose proof (pos_lt 0 i). split; by rewrite lookup_replicate_2.
Qed.

Lemma init_inv strict : inv strict db_init_events [].
Proof.
  constructor; try done.
  - constructor; try done; [apply init_ring|]. intros s H. by apply elem_of_nil in H.
  - change (subs db_init_events) with (∅ : gmap nat evSubscrip). rewrite map_size_empty. lia.
  - constructor.
  - intros a H. by apply elem_of_nil in H.
  - intros K. by destruct K.
Qed.

(** ** Histories *)

(** What was posted for every subscription since it was added, and the logs it was
    called back with. *)
Record history := mkHist { posted : nat -> list db_field_log; called : nat -> list db_field_log }.

Definition upd {A} (f : nat -> A) (s : nat) (a : A) : nat -> A := fun s' => if decide (s' = s) then a else f s'.

Definition record_call (t : task_state) (h : history) : history :=
  match t with
  | Callback s lg => mkHist (posted h) (upd (called h) s (called h s ++ [lg]))
  | Waiting => h
  end.

Definition record_step (lab : ev_label) (st' : ev_state) (h : history) : history :=
  match lab with
  | L_add s => mkHist (upd (posted h) s []) (upd (called h) s [])
  | L_post s lg => mkHist (upd (posted h) s (posted h s ++ [lg])) (called h)
  | L_wake | L_return => record_call (task st') h
  | _ => h
  end.

(** The steps of a run keep the rules of the callers. *)
Fixpoint disciplined_run (strict : bool) (ls : list ev_label) (st : ev_state) : bool :=
  match ls with
  | [] => true
  | lab :: ls =>
      disciplined strict lab st &&
      match ev_exec lab st with Some (inr st') => disciplined_run strict ls st' | _ => true end
  end.

(** A run with its history. *)
Fixpoint record_run (ls : list ev_label) (st : ev_state) (h : history) : option (ev (ev_state * history)) :=
  match ls with
  | [] => Some (inr (st, h))
  | lab :: ls =>
      match ev_exec lab st with
      | Some (inr st') => record_run ls st' (record_step lab st' h)
      | Some (inl f) => Some (inl f)
      | None => None
      end
  end.

Definition no_history : history := mkHist (fun _ => []) (fun _ => []).

(** Two logs that tell a subscriber the same: both are empty, their values are read from the
    record when the callback runs. *)
Definition same_log (a b : db_field_log) : Prop :=
  a = b \/ log_type a = dbfl_type_rec /\ log_type b = dbfl_type_rec.

(** [got] follows [sent]: in order, nothing twice, and up to the last one. *)
Definition follows (got sent : list db_field_log) : Prop :=
  got `sublist_of` sent /\
  match last got, last sent with
  | Some a, Some b => same_log a b
  | None, None => True
  | _, _ => False
  end.

Lemma follows_snoc got sent x : got `sublist_of` sent -> follows (got ++ [x]) (sent ++ [x]).
Proof. intros H. split; [by apply sublist_app|]. rewrite !last_snoc. by left. Qed.

Lemma logs_of_ev s lg l : logs_of s ((EV s, Some lg) :: l) = lg :: logs_of s l.
Proof. unfold logs_of. cbn. by rewrite decide_True. Qed.

Lemma logs_of_other s s' o l : s <> s' -> logs_of s ((EV s', o) :: l) = logs_of s l.
Proof. intros N. unfold logs_of. cbn. by rewrite decide_False by congruence. Qed.

Lemma logs_of_none s l : s ∉ evs l -> logs_of s l = [].
Proof.
  induction l as [|[e o] l IH]; [done|]. rewrite evs_cons, not_elem_of_app. intros [N1 N2].
  unfold logs_of in *. cbn. rewrite IH by done. case_decide as D; [|done]. subst e.
  exfalso. apply N1. by apply list_elem_of_singleton.
Qed.

Lemma logs_of_no_evs s l : evs l = [] -> logs_of s l = [].
Proof. intros E. apply logs_of_none. rewrite E. apply not_elem_of_nil. Qed.

Definition stream (st : ev_state) (l : list entry) (h : history) : Prop :=
  forall s, user_of st s = Some true -> follows (called h s ++ logs_of s l) (posted h s).

Lemma stream_post s lg l l' c p :
  post_spec s lg l l' -> follows (c ++ logs_of s l) p -> follows (c ++ logs_of s l') (p ++ [lg]).
Proof.
  intros Sp. destruct Sp as [a old b Nb T1 T2|a old b Nb|l]; rewrite !logs_of_app.
  - rewrite logs_of_ev, (logs_of_none s b Nb), app_assoc. intros [Su _].
    split; [by apply sublist_inserts_r|]. rewrite !last_snoc. right. done.
  - rewrite !logs_of_ev, (logs_of_none s b Nb), !app_assoc. intros [Su _]. apply follows_snoc.
    etransitivity; [|exact Su]. by apply sublist_inserts_r.
  - rewrite logs_of_ev, app_assoc. intros [Su _]. by apply follows_snoc.
Qed.

Lemma stream_post_other s lg l l' s' : s' <> s -> post_spec s lg l l' -> logs_of s' l' = logs_of s' l.
Proof.
  intros N Sp. destruct Sp as [a old b Nb T1 T2|a old b Nb|l]; [done| |]; rewrite !logs_of_app, !logs_of_other by done;
    [done|by rewrite app_nil_r].
Qed.

Lemma stream_read st l st' l' h :
  user_mono st st' -> (l' = l /\ task st' = Waiting /\ flowCtrlMode st' = true \/ read_spec st l st' l') ->
  stream st l h -> stream st' l' (record_call (task st') h).
Proof.
  intros M Sp H s U. specialize (H s (M s U)). destruct Sp as [(-> & -> & _)|(_ & _ & Sp)]; [done|].
  destruct Sp as [(-> & E & ->)|(a & s0 & lg & -> & E & ->)].
  - by rewrite (logs_of_no_evs s l E) in H.
  - rewrite logs_of_app, (logs_of_no_evs s a E) in H. cbn. unfold upd. case_decide as D.
    + subst s0. cbn [app] in H. by rewrite logs_of_ev, cons_middle, app_assoc in H.
    + by rewrite logs_of_other in H by done.
Qed.

Lemma stream_step lab st l st' l' h :
  step_spec lab st l st' l' -> stream st l h -> stream st' l' (record_step lab st' h).
Proof.
  intros Sp H. destruct lab as [s0|s0 lg| |s0|s0|s0|on| |]; unfold step_spec in Sp; cbn [record_step];
    try (destruct Sp as [M Sp]; by eapply stream_read);
    try (destruct Sp as [-> M]; intros s U; by apply H, M);
    try (destruct Sp as (-> & M & Us); intros s U; rewrite logs_of_kill by (intros ->; done); by apply H, M).
  - destruct Sp as (-> & Ns & Uo). intros s U. cbn. unfold upd. case_decide as D.
    + subst s0. by rewrite logs_of_none.
    + apply H. by rewrite <- Uo.
  - destruct Sp as [Sp M]. intros s U. cbn. unfold upd. case_decide as D.
    + subst s0. eapply stream_post; [done|]. by apply H, M.
    + rewrite (stream_post_other _ _ _ _ _ D Sp). by apply H, M.
Qed.

Lemma run_inv strict ls : forall st l h,
  inv strict st l -> stream st l h -> disciplined_run strict ls st = true ->
  match record_run ls st h with
  | Some r => rwp (fault_ok strict) r (fun x => exists l', inv strict x.1 l' /\ stream x.1 l' x.2)
  | None => True
  end.
Proof.
  induction ls as [|lab ls IH]; intros st l h I S D; simpl; [by exists l|].
  simpl in D. apply andb_true_iff in D as [D1 D2].
  destruct (ev_exec lab st) as [r|] eqn:E; [|done]. pose proof (step_inv _ _ _ _ _ I D1 E) as J.
  destruct r as [f|st']; [done|]. destruct J as (l' & J & Sp). by eapply IH; [exact J|eapply stream_step|].
Qed.

Lemma init_stream : stream db_init_events [] no_history.
Proof. intros s U. done. Qed.

Lemma record_run_run ls : forall st h,
  ev_run ls st = match record_run ls st h with
                 | Some (inr (st', _)) => Some (inr st') | Some (inl f) => Some (inl f) | None => None end.
Proof.
  induction ls as [|lab ls IH]; intros st h; simpl; [done|].
  destruct (ev_exec lab st) as [[f|st']|]; [done| |done]. apply IH.
Qed.

Lemma run_states strict ls :
  disciplined_run strict ls db_init_events = true ->
  match ev_run ls db_init_events with
  | Some r => rwp (fault_ok strict) r (fun st => exists l, inv strict st l)
  | None => True
  end.
Proof.
  intros D. pose proof (run_inv strict ls _ _ _ (init_inv strict) init_stream D) as H.
  rewrite (record_run_run ls _ no_history). destruct (record_run _ _ _) as [[f|[st h]]|]; [done| |done].
  destruct H as (l & J & _). by exists l.
Qed.

(** The event task runs until the queue is empty. *)
Definition task_step (lab : ev_label) : Prop := lab = L_signal \/ lab = L_wake \/ lab = L_return.

Definition drained (st : ev_state) (n : nat) : Prop :=
  exists ls st', Forall task_step ls /\ (length ls <= n)%nat /\ ev_run ls st = Some (inr st') /\
    task st' = Waiting /\ core st' [] /\ forall s, user_of st' s = user_of st s.

Lemma drained_step lab st st' n :
  task_step lab -> ev_exec lab st = Some (inr st') -> (forall s, user_of st' s = user_of st s) ->
  drained st' n -> drained st (S n).
Proof.
  intros T E U (ls & st2 & F & L & R & W & C & V). exists (lab :: ls), st2. split_and!; try done.
  - by constructor.
  - simpl. lia.
  - simpl. by rewrite E.
  - intros s. by rewrite V.
Qed.

Lemma drain_read strict st st' l l' :
  inv strict st' l' -> read_spec st l st' l' ->
  (forall s pfl, (length l' < length l)%nat -> task st' = Callback s pfl -> drained st' (S (length l'))) ->
  drained st' (length l).
Proof.
  intros I (_ & Us & [(-> & _ & T)|(a & s & lg & -> & _ & T)]) K.
  - exists [], st'. split_and!; try done; [simpl; lia|apply (inv_core _ _ _ I)].
  - destruct (K s lg) as (ls & st2 & F & L & H); [rewrite length_app; simpl; lia|done|].
    exists ls, st2. split_and!; [done|rewrite length_app; simpl; lia|apply H..].
Qed.

Lemma drain_callback strict n : forall st l s pfl,
  (length l < n)%nat -> inv strict st l -> task st = Callback s pfl -> drained st (S (length l)).
Proof.
  induction n as [|n IH]; intros st l s pfl Ln I T; [lia|].
  destruct (return_inv _ _ _ _ _ I T) as (st' & l' & E & J & Sp).
  eapply (drained_step L_return); [by right; right|simpl; by rewrite T, E|apply Sp|].
  eapply drain_read; [exact J|exact Sp|]. intros s' pfl' Lt T'. by eapply IH; [lia| |].
Qed.

Lemma drain_waiting strict st l :
  inv strict st l -> task st = Waiting -> flowCtrlMode st = false -> ppendsem st = true -> drained st (S (length l)).
Proof.
  intros I T Fl Se. destruct (wake_inv _ _ _ (posting st) I T) as (st' & l' & E & J & Sp).
  assert (Rs : read_spec st l st' l').
  { destruct Sp as [(_ & _ & _ & _ & F)|]; [congruence|done]. }
  eapply (drained_step L_wake); [by right; left|simpl; by rewrite T, Se, E|apply Rs|].
  eapply drain_read; [exact J|exact Rs|]. intros s' pfl' Lt T'. by eapply drain_callback.
Qed.

(** ** Properties *)

(** A run used by the witnesses: values are posted, the last ones replaced while the flow is
    stopped, one subscription is canceled by another thread and one by its callback. *)
Definition sample_run : list ev_label :=
  adds [0; 1; 2]%nat ++ posts [(0, 10); (1, 11); (0, 12); (2, 13)]%nat ++ [L_flow true] ++ posts [(0, 14)]%nat ++
  [L_signal; L_flow false; L_wake; L_cancel_self 0; L_return; L_cancel 2; L_cancelled 2] ++ posts [(1, 15); (1, 16)]%nat.

(** (C4) No interleaving of posts, new and canceled subscriptions, flow control and the
    event task in which the callbacks of the event task cancel no other subscription than the one they were called for
    ([disciplined_run]; without that [cancel_two_fails] is a run that uses a freed subscription)
    uses a freed subscription or field log, frees one twice, follows a NULL
    pointer, runs around the ring for ever or fails one of the six assertions of [dbEvent.c],
    with one exception: when subscriptions are added while the queue is more than
    three quarters full ([strict = false]), the assertion that a new entry is free can fail.
    All reached states satisfy the invariant: [nDuplicates], [nCanceled], [npend],
    [pLastLog] and [quota] are the functions of the queue's contents they are
    meant to be, all pending logs are allocated and distinct, and a waiting task has been
    signalled if the queue is not empty. *)
Theorem event_queue_safe strict ls :
  disciplined_run strict ls db_init_events = true ->
  match ev_run ls db_init_events with
  | Some (inl f) => strict = false /\ f = assert_slot
  | Some (inr st) => exists l, inv strict st l
  | None => True
  end.
Proof.
  intros D. pose proof (run_states strict ls D) as H. by destruct (ev_run ls db_init_events) as [[f|st]|].
Qed.

Lemma event_queue_safe_witness :
  disciplined_run true sample_run db_init_events = true /\
  match ev_run sample_run db_init_events with
  | Some (inl f) => true = false /\ f = assert_slot
  | Some (inr st) => exists l, inv true st l
  | None => True
  end.
Proof. split; [vm_compute; reflexivity|]. apply (event_queue_safe true sample_run). vm_compute. reflexivity. Defined.

(** (C7) In such runs (callbacks of the event task cancel no other subscription than their own) every live subscription is called back with a subsequence of the values posted
    for it since it was added; what was delivered, followed by what is pending on the queue,
    ends with the last value posted (or with an empty log, when the last one
    posted was empty as well).  When the event task waits, the flow is on
    and no signal is outstanding, nothing is pending: no update and no wake-up is lost. *)
Theorem event_stream ls st h s :
  disciplined_run false ls db_init_events = true ->
  record_run ls db_init_events no_history = Some (inr (st, h)) ->
  user_of st s = Some true ->
  exists l, ring (evque st) (valque st) (putix st) (getix st) l /\
    follows (called h s ++ logs_of s l) (posted h s) /\
    (task st = Waiting -> flowCtrlMode st = false -> ppendsem st = false -> posting st = 0%nat -> l = []).
Proof.
  intros D R U. pose proof (run_inv false ls _ _ _ (init_inv false) init_stream D) as H. rewrite R in H.
  destruct H as (l & J & S). cbn [fst snd] in J, S. exists l. split_and!; [apply (core_ring _ _ (inv_core _ _ _ J))|by apply S|].
  intros T F Se Po. destruct l as [|e l]; [done|].
  destruct (inv_awake _ _ _ J) as [X|X]; [done|done|done|congruence|done].
Qed.

Definition sample_end : ev_state * history :=
  match record_run sample_run db_init_events no_history with Some (inr x) => x | _ => (db_init_events, no_history) end.

Lemma event_stream_witness :
  disciplined_run false sample_run db_init_events = true /\
  record_run sample_run db_init_events no_history = Some (inr (sample_end.1, sample_end.2)) /\
  user_of sample_end.1 1%nat = Some true /\
  exists l, ring (evque sample_end.1) (valque sample_end.1) (putix sample_end.1) (getix sample_end.1) l /\
    follows (called sample_end.2 1%nat ++ logs_of 1%nat l) (posted sample_end.2 1%nat) /\
    (task sample_end.1 = Waiting -> flowCtrlMode sample_end.1 = false -> ppendsem sample_end.1 = false ->
     posting sample_end.1 = 0%nat -> l = []).
Proof.
  assert (D : disciplined_run false sample_run db_init_events = true) by (vm_compute; reflexivity).
  assert (R : record_run sample_run db_init_events no_history = Some (inr (sample_end.1, sample_end.2)))
    by (vm_compute; reflexivity).
  assert (U : user_of sample_end.1 1%nat = Some true) by (vm_compute; reflexivity).
  split_and!; [exact D|exact R|exact U|]. exact (event_stream _ _ _ _ D R U).
Defined.

(** (C20) From every state with the flow on that is reached by a run in which the callbacks of the event task have canceled no other
    subscription than their own ([disciplined_run]), the event task alone (with the signals
    still to be given) comes to wait on an empty queue, after at most one callback per
    entry of the queue, one wake-up and one signal. *)
Theorem event_task_drains ls st :
  disciplined_run false ls db_init_events = true ->
  ev_run ls db_init_events = Some (inr st) -> flowCtrlMode st = false ->
  exists l, ring (evque st) (valque st) (putix st) (getix st) l /\ drained st (length l + 2).
Proof.
  intros D R Fl. pose proof (run_states false ls D) as H. rewrite R in H. destruct H as (l & I).
  exists l. split; [apply (core_ring _ _ (inv_core _ _ _ I))|].
  rewrite Nat.add_comm. cbn [Nat.add].
  destruct (task st) as [|s pfl] eqn:T.
  - destruct (decide (l = [])) as [->|N].
    + exists [], st. split_and!; try done; [simpl; lia|apply (inv_core _ _ _ I)].
    + destruct (ppendsem st) eqn:Se.
      * destruct (drain_waiting _ _ _ I T Fl Se) as (ls' & st' & F & L & X). exists ls', st'. split_and!; [done|lia|apply X..].
      * destruct (posting st) as [|n] eqn:Po.
        { destruct (inv_awake _ _ _ I N Fl T); congruence. }
        apply (drained_step L_signal _ (set_sem st true n)); [by left|simpl; by rewrite Po|done|].
        assert (E : ev_exec L_signal st = Some (inr (set_sem st true n))) by (simpl; by rewrite Po).
        destruct (step_inv _ _ _ L_signal _ I eq_refl E) as (l' & I' & -> & _). by eapply drain_waiting.
  - destruct (drain_callback false (S (length l)) st l s pfl ltac:(lia) I T) as (ls' & st' & F & L & X).
    exists ls', st'. split_and!; [done|lia|apply X..].
Qed.

Definition sample_state : ev_state := sample_end.1.

Lemma event_task_drains_witness :
  disciplined_run false sample_run db_init_events = true /\
  ev_run sample_run db_init_events = Some (inr sample_state) /\ flowCtrlMode sample_state = false /\
  exists l, ring (evque sample_state) (valque sample_state) (putix sample_state) (getix sample_state) l /\
    drained sample_state (length l + 2).
Proof.
  assert (D : disciplined_run false sample_run db_init_events = true) by (vm_compute; reflexivity).
  assert (R : ev_run sample_run db_init_events = Some (inr sample_state)) by (vm_compute; reflexivity).
  assert (F : flowCtrlMode sample_state = false) by (vm_compute; reflexivity).
  split_and!; [exact D|exact R|exact F|]. exact (event_task_drains _ _ D R F).
Defined.
