(* ===== verification/FloatOrder.v ===== *)
(** * The order of floating-point numbers

    [fkey] maps a float that is not a NaN to an integer, so that the comparisons of C are those
    of the integers ({!float_cmp}); both zeros have key 0. *)

From stdpp Require Import base numbers list option.
From Stdlib Require Import ZArith Lia Bool Floats.
From S2P Require Import Prelude CStdlib.

Definition sf_key (x : spec_float) : Z :=
  match x with
  | S754_zero _ | S754_nan => 0
  | S754_infinity s => if s then - 2 ^ 2100 else 2 ^ 2100
  | S754_finite s m e => if s then - (Zpos m * 2 ^ (e + 1074)) else Zpos m * 2 ^ (e + 1074)
  end.

Definition fkey (f : float) : Z := sf_key (Prim2SF f).


(** The keys of the finite floats of one sign, by exponent and mantissa. *)
Lemma finite_key_lt m1 e1 m2 e2 :
  Zpos m1 < 2 ^ 53 -> 2 ^ 52 <= Zpos m2 -> -1074 <= e1 -> e1 < e2 ->
  Zpos m1 * 2 ^ (e1 + 1074) < Zpos m2 * 2 ^ (e2 + 1074).
Proof.
  intros M1 M2 E1 E2. apply Z.lt_le_trans with (2 ^ 53 * 2 ^ (e1 + 1074)).
  - apply Z.mul_lt_mono_pos_r; [apply Z.pow_pos_nonneg; lia|exact M1].
  - transitivity (2 ^ 52 * 2 ^ (e2 + 1074)).
    + rewrite <- !Z.pow_add_r by lia. apply Z.pow_le_mono_r; lia.
    + apply Z.mul_le_mono_nonneg_r; [apply Z.pow_nonneg; lia|exact M2].
Qed.

Lemma finite_key_bound m e : Zpos m < 2 ^ 53 -> -1074 <= e <= 971 -> 0 < Zpos m * 2 ^ (e + 1074) < 2 ^ 2100.
Proof.
  intros M E. assert (0 < 2 ^ (e + 1074)) by (apply Z.pow_pos_nonneg; lia). split; [lia|].
  apply Z.lt_le_trans with (2 ^ 53 * 2 ^ (e + 1074)); [by apply Z.mul_lt_mono_pos_r|].
  rewrite <- Z.pow_add_r by lia. apply Z.pow_le_mono_r; lia.
Qed.

Definition finite_ok (x : spec_float) : Prop :=
  match x with
  | S754_finite s m e => Zpos m < 2 ^ 53 /\ -1074 <= e <= 971 /\ (2 ^ 52 <= Zpos m \/ e = -1074)
  | _ => True
  end.

Lemma Prim2SF_ok f : finite_ok (Prim2SF f).
Proof. destruct (Prim2SF f) eqn:E; try done. by eapply finite_ranges. Qed.

Lemma pos_compare_key m1 e1 m2 e2 :
  finite_ok (S754_finite false m1 e1) -> finite_ok (S754_finite false m2 e2) ->
  match Z.compare e1 e2 with Lt => Lt | Gt => Gt | Eq => Pos.compare_cont Eq m1 m2 end =
  (Zpos m1 * 2 ^ (e1 + 1074) ?= Zpos m2 * 2 ^ (e2 + 1074)).
Proof.
  intros (M1 & E1 & N1) (M2 & E2 & N2). destruct (Z.compare_spec e1 e2) as [->|L|L].
  - assert (0 < 2 ^ (e2 + 1074)) by (apply Z.pow_pos_nonneg; lia). by rewrite <- Zmult_compare_compat_r by lia.
  - symmetry. apply Z.compare_lt_iff. apply finite_key_lt; lia.
  - symmetry. apply Z.compare_gt_iff. apply finite_key_lt; lia.
Qed.

Lemma sf_compare_key x y :
  finite_ok x -> finite_ok y -> x <> S754_nan -> y <> S754_nan -> SFcompare x y = Some (sf_key x ?= sf_key y).
Proof.
  intros X Y Nx Ny.
  assert (B : forall s m e, finite_ok (S754_finite s m e) -> 0 < Zpos m * 2 ^ (e + 1074) < 2 ^ 2100)
    by (intros s m e (? & ? & ?); by apply finite_key_bound).
  assert (P : 0 < 2 ^ 2100) by (apply Z.pow_pos_nonneg; lia).
  destruct x as [s1|s1| |s1 m1 e1], y as [s2|s2| |s2 m2 e2]; try done; cbn [SFcompare sf_key]; f_equal;
    try (specialize (B _ _ _ X) as B1); try (specialize (B _ _ _ Y) as B2);
    generalize dependent (2 ^ 2100); intros K B P; try intros B1; try intros B2;
    destruct s1; try destruct s2; symmetry; rewrite ?Z.compare_lt_iff, ?Z.compare_gt_iff, ?Z.compare_eq_iff; try lia.
  - rewrite Z.compare_opp, Z.compare_antisym, <- pos_compare_key by done. by destruct (Z.compare e1 e2).
  - by rewrite <- pos_compare_key.
Qed.

Lemma isnan_spec f : isnan f = true <-> Prim2SF f = S754_nan.
Proof.
  unfold isnan, is_nan. rewrite negb_true_iff, eqb_spec. unfold SFeqb. destruct (Prim2SF f) as [s|s| |s m e]; simpl; try done.
  - by destruct s.
  - split; [|done]. rewrite Z.compare_refl. rewrite (Pos.compare_cont_refl m Eq). by destruct s.
Qed.

Lemma not_nan f : isnan f = false -> Prim2SF f <> S754_nan.
Proof. intros N H. apply isnan_spec in H. congruence. Qed.

Section Compare.
Variables a b : float.
Hypothesis A : isnan a = false.
Hypothesis B : isnan b = false.

Lemma float_compare : SFcompare (Prim2SF a) (Prim2SF b) = Some (fkey a ?= fkey b).
Proof. apply sf_compare_key; auto using Prim2SF_ok, not_nan. Qed.

Lemma float_ltb : (a <? b)%float = (fkey a <? fkey b).
Proof. rewrite ltb_spec. unfold SFltb. rewrite float_compare. unfold Z.ltb. by destruct (Z.compare _ _). Qed.

Lemma float_leb : (a <=? b)%float = (fkey a <=? fkey b).
Proof. rewrite leb_spec. unfold SFleb. rewrite float_compare. unfold Z.leb. by destruct (Z.compare _ _). Qed.

Lemma float_eqb : (a =? b)%float = (fkey a =? fkey b).
Proof.
    rewrite eqb_spec. unfold SFeqb. rewrite float_compare.
    destruct (Z.compare_spec (fkey a) (fkey b)) as [E|L|L]; symmetry; [by apply Z.eqb_eq|apply Z.eqb_neq; lia|apply Z.eqb_neq; lia].
  Qed.
End Compare.

Lemma nan_cmp a b : isnan a = true \/ isnan b = true ->
  (a <? b)%float = false /\ (a <=? b)%float = false /\ (a =? b)%float = false.
Proof.
  rewrite ltb_spec, leb_spec, eqb_spec. unfold SFltb, SFleb, SFeqb. rewrite !isnan_spec.
  intros [-> | ->]; [done|]. by destruct (Prim2SF a).
Qed.
