(* ===== verification/RecGbl.v ===== *)
(** * What all record types share ([modules/database/src/ioc/db/recGbl.c], [dbLink.c])

    The fields of [dbCommon] that record processing uses, alarms, deadbands, simulation mode
    and time stamps.  Calls whose effect is outside of the record
    ([db_post_events], [dbScanFwdLink], [scanOnce], ...) are recorded in order in [trace]. *)

From stdpp Require Import base numbers list option strings.
From Stdlib Require Import ZArith Lia Bool Floats.
From S2P Require Import Prelude CStdlib FloatOrder.

Open Scope string_scope.
Open Scope list_scope.
Open Scope Z_scope.

(** ** Data *)

Definition NO_ALARM : Z := 0.
Definition MINOR_ALARM : Z := 1.
Definition MAJOR_ALARM : Z := 2.
Definition INVALID_ALARM : Z := 3.

Definition HIHI_ALARM : Z := 3.
Definition HIGH_ALARM : Z := 4.
Definition LOLO_ALARM : Z := 5.
Definition LOW_ALARM : Z := 6.
Definition CALC_ALARM : Z := 12.
Definition LINK_ALARM : Z := 14.
Definition SOFT_ALARM : Z := 15.
Definition UDF_ALARM : Z := 17.
Definition SIMM_ALARM : Z := 19.

Definition DBE_VALUE : Z := 1.
Definition DBE_LOG : Z := 2.
Definition DBE_ARCHIVE : Z := 2.
Definition DBE_ALARM : Z := 4.

(** [epicsTimeStamp] *)
Record epicsTimeStamp := mkTime { secPastEpoch : Z; nsec : Z }.

Inductive effect :=
| Post (field : string) (mask : Z)         (** [db_post_events] *)
| AlarmHook (prev_sevr prev_stat : Z)      (** [recGblAlarmHook], when there is one *)
| FwdLink                                  (** [dbScanFwdLink] *)
| NotifyCompletion                         (** [dbNotifyCompletion] *)
| ScanOnce
| ScanDelete
| ScanAdd (scan : Z)
| RequestDelayed (delay : float).          (** [callbackRequestDelayed] and the like *)

Record dbCommon := mkCommon {
  nsta : Z; nsev : Z; stat : Z; sevr : Z; acks : Z; ackt : bool;
  udf : bool; udfs : Z; pact : bool; putf : bool; rpro : bool; ppn : bool;
  scan : Z; tse : Z; time : epicsTimeStamp; trace : list effect }.

(** Assignments to the fields. *)
Definition set_new (c : dbCommon) (st se : Z) : dbCommon :=
  mkCommon st se (stat c) (sevr c) (acks c) (ackt c) (udf c) (udfs c) (pact c) (putf c) (rpro c) (ppn c)
    (scan c) (tse c) (time c) (trace c).
Definition set_current (c : dbCommon) (st se : Z) : dbCommon :=
  mkCommon (nsta c) (nsev c) st se (acks c) (ackt c) (udf c) (udfs c) (pact c) (putf c) (rpro c) (ppn c)
    (scan c) (tse c) (time c) (trace c).
Definition set_acks (c : dbCommon) (a : Z) : dbCommon :=
  mkCommon (nsta c) (nsev c) (stat c) (sevr c) a (ackt c) (udf c) (udfs c) (pact c) (putf c) (rpro c) (ppn c)
    (scan c) (tse c) (time c) (trace c).
Definition set_udf (c : dbCommon) (b : bool) : dbCommon :=
  mkCommon (nsta c) (nsev c) (stat c) (sevr c) (acks c) (ackt c) b (udfs c) (pact c) (putf c) (rpro c) (ppn c)
    (scan c) (tse c) (time c) (trace c).
Definition set_pact (c : dbCommon) (b : bool) : dbCommon :=
  mkCommon (nsta c) (nsev c) (stat c) (sevr c) (acks c) (ackt c) (udf c) (udfs c) b (putf c) (rpro c) (ppn c)
    (scan c) (tse c) (time c) (trace c).
Definition set_putf_rpro (c : dbCommon) (p r : bool) : dbCommon :=
  mkCommon (nsta c) (nsev c) (stat c) (sevr c) (acks c) (ackt c) (udf c) (udfs c) (pact c) p r (ppn c)
    (scan c) (tse c) (time c) (trace c).
Definition set_scan (c : dbCommon) (s : Z) : dbCommon :=
  mkCommon (nsta c) (nsev c) (stat c) (sevr c) (acks c) (ackt c) (udf c) (udfs c) (pact c) (putf c) (rpro c) (ppn c)
    s (tse c) (time c) (trace c).
Definition set_time (c : dbCommon) (e : Z) (t : epicsTimeStamp) : dbCommon :=
  mkCommon (nsta c) (nsev c) (stat c) (sevr c) (acks c) (ackt c) (udf c) (udfs c) (pact c) (putf c) (rpro c) (ppn c)
    (scan c) e t (trace c).
Definition emit (e : effect) (c : dbCommon) : dbCommon :=
  mkCommon (nsta c) (nsev c) (stat c) (sevr c) (acks c) (ackt c) (udf c) (udfs c) (pact c) (putf c) (rpro c) (ppn c)
    (scan c) (tse c) (time c) (trace c ++ [e]).

Definition db_post_events (field : string) (mask : Z) (c : dbCommon) : dbCommon := emit (Post field mask) c.

(** ** Alarms *)

Definition recGblResetAlarms (c : dbCommon) : Z * dbCommon :=
  let prev_stat := stat c in
  let prev_sevr := sevr c in
  let new_stat := nsta c in
  let new_sevr := if INVALID_ALARM <? nsev c then INVALID_ALARM else nsev c in
  let c := set_new (set_current c new_stat new_sevr) 0 0 in
  let stat_mask := 0 in
  let '(stat_mask, c) :=
    if negb (prev_sevr =? new_sevr) then (DBE_ALARM, db_post_events "SEVR" DBE_VALUE c) else (stat_mask, c) in
  let stat_mask := if negb (prev_stat =? new_stat) then Z.lor stat_mask DBE_VALUE else stat_mask in
  if negb (stat_mask =? 0) then
    let c := db_post_events "STAT" stat_mask c in
    let c := if negb (ackt c) || (acks c <=? new_sevr)
             then db_post_events "ACKS" DBE_VALUE (set_acks c new_sevr) else c in
    (DBE_ALARM, emit (AlarmHook prev_sevr prev_stat) c)
  else (0, c).

Definition recGblSetSevr (new_stat new_sevr : Z) (c : dbCommon) : bool * dbCommon :=
  if nsev c <? new_sevr then (true, set_new c new_stat new_sevr) else (false, c).

Inductive msMode := pvlOptNMS | pvlOptMS | pvlOptMSI | pvlOptMSS.

Definition recGblInheritSevr (mode : msMode) (c : dbCommon) (stat sevr : Z) : dbCommon :=
  match mode with
  | pvlOptNMS => c
  | pvlOptMSI => if sevr <? INVALID_ALARM then c else snd (recGblSetSevr LINK_ALARM sevr c)
  | pvlOptMS => snd (recGblSetSevr LINK_ALARM sevr c)
  | pvlOptMSS => snd (recGblSetSevr stat sevr c)
  end.

(** ** Input links

    What a link's [getValue] does when it is called: there is no link support; the link
    is a constant; it fails; it delivers a value and the alarm of the record it reads. *)
Inductive link A :=
| link_none
| link_constant
| link_error (status : Z)
| link_value (v : A) (mode : msMode) (stat sevr : Z).
Arguments link_none {A}.
Arguments link_constant {A}.
Arguments link_error {A}.
Arguments link_value {A}.

Definition dbLinkIsConstant {A} (l : link A) : bool :=
  match l with link_none | link_constant => true | _ => false end.

Definition S_db_noLSET : Z := 511 * 65536 + 21.

Definition dbTryGetLink {A} (l : link A) (buf : A) (c : dbCommon) : Z * A * dbCommon :=
  match l with
  | link_none => (S_db_noLSET, buf, c)
  | link_constant => (0, buf, c)
  | link_error st => (st, buf, c)
  | link_value v mode st se => (0, v, recGblInheritSevr mode c st se)
  end.

Definition dbGetLink {A} (l : link A) (buf : A) (c : dbCommon) : Z * A * dbCommon :=
  let '(status, buf, c) := dbTryGetLink l buf c in
  if status =? S_db_noLSET then (-1, buf, c)
  else if negb (status =? 0) then (status, buf, snd (recGblSetSevr LINK_ALARM INVALID_ALARM c))
  else (status, buf, c).

(** ** The end of processing *)

Definition recGblFwdLink (c : dbCommon) : dbCommon :=
  let c := emit FwdLink c in
  let c := if ppn c then emit NotifyCompletion c else c in
  let c := if rpro c then emit ScanOnce (set_putf_rpro c (putf c) false) else c in
  set_putf_rpro c false (rpro c).

(** What the clocks and the links [TSEL] and [SIOL] deliver. *)
Record time_env := mkTimeEnv {
  tsel_constant : bool;
  tsel_is_time : bool;
  tsel_time : option epicsTimeStamp;
  tsel_link : link Z;
  siol_time : option (option epicsTimeStamp);
  epicsTimeGetEvent : Z -> option epicsTimeStamp;
  epicsTimeGetCurrent : option epicsTimeStamp }.

Definition epicsTimeEventDeviceTime : Z := -2.

Definition stamp (c : dbCommon) (t : option epicsTimeStamp) : dbCommon :=
  match t with Some t => set_time c (tse c) t | None => c end.

Definition recGblGetTimeStampSimm (env : time_env) (simm : bool) (c : dbCommon) : dbCommon :=
  let rest c :=
    if negb (tse c =? epicsTimeEventDeviceTime) then stamp c (epicsTimeGetEvent env (tse c))
    else if simm then
      match siol_time env with
      | Some t => stamp c t
      | None => stamp c (epicsTimeGetCurrent env)
      end
    else c in
  if negb (tsel_constant env) then
    if tsel_is_time env then stamp c (tsel_time env)
    else
      let '(_, e, c) := dbGetLink (tsel_link env) (tse c) c in
      rest (set_time c e (time c))
  else rest c.

Definition recGblGetTimeStamp (env : time_env) (c : dbCommon) : dbCommon := recGblGetTimeStampSimm env false c.

(** ** Deadbands *)

Definition delta (old new : float) : float :=
  if finite new && finite old then
    let d := (old - new)%float in if (d <? 0)%float then (- d)%float else d
  else if negb (Bool.eqb (isnan new) (isnan old)) || negb (Bool.eqb (isinf new) (isinf old)) then epicsINF
  else if isinf new && negb (new =? old)%float then epicsINF
  else 0%float.

(** The new [*poldval] and [*monitor_mask]. *)
Definition recGblCheckDeadband (oldval newval deadband : float) (monitor_mask add_mask : Z) : float * Z :=
  if (deadband <? delta oldval newval)%float then (newval, Z.lor monitor_mask add_mask) else (oldval, monitor_mask).

(** ** Simulation mode

    [sscn], [oldsimm] and [simm] are fields of the record types that have the mode. *)
Definition USHRT_MAX : Z := 65535.

Definition recGblSaveSimm (sscn oldsimm simm : Z) : Z := if sscn =? USHRT_MAX then oldsimm else simm.

Definition recGblCheckSimm (c : dbCommon) (sscn oldsimm simm : Z) : dbCommon * Z :=
  if sscn =? USHRT_MAX then (c, sscn)
  else if negb (simm =? oldsimm) then
    (emit (ScanAdd sscn) (set_scan (emit ScanDelete c) sscn), scan c)
  else (c, sscn).

(** The record after it, [*psscn], [*poldsimm], [*psimm]. *)
Definition recGblGetSimm (siml : link Z) (sscn oldsimm simm : Z) (c : dbCommon) : dbCommon * Z * Z * Z :=
  let oldsimm := recGblSaveSimm sscn oldsimm simm in
  let '(status, simm, c) := dbTryGetLink siml simm c in
  let c := if negb (status =? 0) && (nsev c =? 0) then set_new c LINK_ALARM (nsev c) else c in
  let '(c, sscn) := recGblCheckSimm c sscn oldsimm simm in
  (c, sscn, oldsimm, simm).

Definition recGblInitSimm (siml_constant : option (option Z)) (sscn oldsimm simm : Z) (c : dbCommon) : dbCommon * Z * Z * Z :=
  match siml_constant with
  | Some load =>
      let oldsimm := recGblSaveSimm sscn oldsimm simm in
      let simm := default simm load in
      let '(c, sscn) := recGblCheckSimm c sscn oldsimm simm in
      (c, sscn, oldsimm, simm)
  | None => (c, sscn, oldsimm, simm)
  end.

(** ** Limits of field types *)

Inductive dbf := DBF_STRING | DBF_CHAR | DBF_UCHAR | DBF_SHORT | DBF_USHORT | DBF_LONG | DBF_ULONG | DBF_INT64
  | DBF_UINT64 | DBF_FLOAT | DBF_DOUBLE | DBF_ENUM | DBF_MENU | DBF_DEVICE | DBF_INLINK | DBF_OUTLINK | DBF_FWDLINK
  | DBF_NOACCESS.

Definition recGblGetPrec (t : dbf) (precision : Z) : Z :=
  match t with
  | DBF_CHAR | DBF_UCHAR | DBF_SHORT | DBF_USHORT | DBF_LONG | DBF_ULONG | DBF_INT64 | DBF_UINT64 => 0
  | DBF_FLOAT | DBF_DOUBLE => if (precision <? 0) || (15 <? precision) then 15 else precision
  | _ => precision
  end.

(** [(upper, lower)]; other types leave them alone. *)
Definition getMaxRangeValues (t : dbf) (limits : float * float) : float * float :=
  (match t with
  | DBF_CHAR => (127, -128)
  | DBF_UCHAR => (255, 0)
  | DBF_SHORT => (32767, -32768)
  | DBF_ENUM | DBF_USHORT => (65535, 0)
  | DBF_LONG => (2147483647, -2147483648)
  | DBF_ULONG => (4294967295, 0)
  | DBF_INT64 => (9223372036854775808, -9223372036854775808)
  | DBF_UINT64 => (18446744073709551616, 0)
  | DBF_FLOAT => (1e30, -1e30)
  | DBF_DOUBLE => (1e300, -1e300)
  | _ => limits
  end)%float.

(** ** Alarms are maximized *)

Lemma recGblSetSevr_nsev st se c : nsev (snd (recGblSetSevr st se c)) = Z.max (nsev c) se.
Proof. unfold recGblSetSevr. destruct (Z.ltb_spec (nsev c) se); simpl; lia. Qed.

(** Several conditions of one cycle, in order: pairs of a status and a severity. *)
Definition raise_all (l : list (Z * Z)) (c : dbCommon) : dbCommon :=
  fold_left (fun c a => snd (recGblSetSevr a.1 a.2 c)) l c.

(** The first one of the greatest severity. *)
Definition worst (l : list (Z * Z)) (a : Z * Z) : Prop :=
  exists l1 l2, l = l1 ++ a :: l2 /\ Forall (fun b => b.2 < a.2) l1 /\ Forall (fun b => b.2 <= a.2) l2.

Lemma raise_all_same l : forall c, Forall (fun b => b.2 <= nsev c) l -> raise_all l c = c.
Proof.
  induction l as [|[st se] l IH]; intros c F; [done|]. inversion F as [|? ? H F']; subst. simpl in H. unfold raise_all. cbn.
  unfold recGblSetSevr. rewrite (proj2 (Z.ltb_ge _ _)) by lia. by apply IH.
Qed.

Lemma raise_all_app l1 l2 c : raise_all (l1 ++ l2) c = raise_all l2 (raise_all l1 c).
Proof. apply fold_left_app. Qed.

Lemma raise_all_nsev l : forall c b, nsev c < b -> Forall (fun a => a.2 < b) l -> nsev (raise_all l c) < b.
Proof.
  induction l as [|a l IH]; intros c b C F; [done|]. inversion F; subst. apply IH; [|done].
  rewrite recGblSetSevr_nsev. lia.
Qed.

Lemma set_new_twice c a b x y : set_new (set_new c a b) x y = set_new c x y.
Proof. reflexivity. Qed.

Lemma raise_all_set l : forall c, exists a b, raise_all l c = set_new c a b.
Proof.
  induction l as [|[st se] l IH]; intros c; [exists (nsta c), (nsev c); by destruct c|].
  change (exists a b, raise_all l (snd (recGblSetSevr st se c)) = set_new c a b).
  unfold recGblSetSevr. destruct (nsev c <? se); cbn [snd].
  - destruct (IH (set_new c st se)) as (a & b & ->). by exists a, b.
  - apply IH.
Qed.

Lemma raise_all_worst l a c : worst l a -> nsev c < a.2 -> raise_all l c = set_new c a.1 a.2.
Proof.
  intros (l1 & l2 & -> & F1 & F2) N. rewrite raise_all_app. cbn.
  destruct (raise_all_set l1 c) as (x & y & E). pose proof (raise_all_nsev l1 c a.2 N F1) as L.
  unfold recGblSetSevr. rewrite (proj2 (Z.ltb_lt _ _) L), E, set_new_twice. by apply raise_all_same.
Qed.

(** What is posted at the end of a cycle whose worst condition is [st], [se], by a record in the state [c]. *)
Definition reset_posts (c : dbCommon) (st se : Z) : list effect :=
  (if sevr c =? se then [] else [Post "SEVR" DBE_VALUE]) ++
  (if (sevr c =? se) && (stat c =? st) then []
   else [Post "STAT" (Z.lor (if sevr c =? se then 0 else DBE_ALARM) (if stat c =? st then 0 else DBE_VALUE))] ++
     (if negb (ackt c) || (acks c <=? se) then [Post "ACKS" DBE_VALUE] else []) ++ [AlarmHook (sevr c) (stat c)]).

Lemma reset_alarms_trace c :
  trace (snd (recGblResetAlarms c)) = trace c ++ reset_posts c (nsta c) (Z.min 3 (nsev c)).
Proof.
  unfold recGblResetAlarms, reset_posts, INVALID_ALARM.
  assert (M : (if 3 <? nsev c then 3 else nsev c) = Z.min 3 (nsev c)) by (destruct (Z.ltb_spec 3 (nsev c)); lia).
  rewrite M. destruct (Z.eqb_spec (sevr c) (Z.min 3 (nsev c))), (Z.eqb_spec (stat c) (nsta c)); cbn -[Z.min app];
    rewrite ?app_nil_r; try done; destruct (ackt c), (acks c <=? Z.min 3 (nsev c)); cbn -[Z.min app]; simpl; rewrite <- ?List.app_assoc; done.
Qed.

Lemma reset_alarms_state c :
  let c' := snd (recGblResetAlarms c) in
  sevr c' = Z.min 3 (nsev c) /\ stat c' = nsta c /\ nsev c' = 0 /\ nsta c' = 0 /\ ackt c' = ackt c /\
  acks c' = if (sevr c =? Z.min 3 (nsev c)) && (stat c =? nsta c) then acks c
            else if negb (ackt c) || (acks c <=? Z.min 3 (nsev c)) then Z.min 3 (nsev c) else acks c.
Proof.
  unfold recGblResetAlarms, INVALID_ALARM.
  assert (M : (if 3 <? nsev c then 3 else nsev c) = Z.min 3 (nsev c)) by (destruct (Z.ltb_spec 3 (nsev c)); lia).
  rewrite M. destruct (Z.eqb_spec (sevr c) (Z.min 3 (nsev c))), (Z.eqb_spec (stat c) (nsta c)); cbn -[Z.min Z.leb];
    destruct (ackt c) eqn:K, (acks c <=? Z.min 3 (nsev c)); cbn -[Z.min]; split_and!; done.
Qed.

Lemma reset_alarms_mask c :
  fst (recGblResetAlarms c) = if (sevr c =? Z.min 3 (nsev c)) && (stat c =? nsta c) then 0 else DBE_ALARM.
Proof.
  unfold recGblResetAlarms, INVALID_ALARM.
  assert (M : (if 3 <? nsev c then 3 else nsev c) = Z.min 3 (nsev c)) by (destruct (Z.ltb_spec 3 (nsev c)); lia).
  rewrite M. destruct (Z.eqb_spec (sevr c) (Z.min 3 (nsev c))), (Z.eqb_spec (stat c) (nsta c)); done.
Qed.

(** (C21) One processing cycle maximizes its alarms: whatever conditions are raised with
    [recGblSetSevr], and in whatever number, [recGblResetAlarms] makes the first one of the greatest severity the
    state of the record (severities above INVALID count as INVALID) and clears the conditions for the next
    cycle.  Its posts are exactly [reset_posts]: SEVR with [DBE_VALUE] when the severity changed; and when
    the severity or the status changed, STAT, with [DBE_ALARM] if the severity and [DBE_VALUE] if the status
    did (so STAT is posted, with its old value, when only the severity changed), then ACKS if ACKT
    is clear or ACKS is not greater than the new severity (whether or not its value changes), then
    the alarm hook with the previous state.  The unacknowledged
    severity ACKS is, with ACKT set, the greatest one since it was acknowledged. *)
Theorem alarm_cycle l a c :
  nsev c = 0 -> worst l a -> 0 < a.2 ->
  let c' := snd (recGblResetAlarms (raise_all l c)) in
  sevr c' = Z.min INVALID_ALARM a.2 /\ stat c' = a.1 /\ nsev c' = 0 /\ nsta c' = 0 /\
  trace c' = trace c ++ reset_posts c a.1 (Z.min INVALID_ALARM a.2) /\
  (sevr c <= acks c -> ackt c = true -> acks c' = Z.max (acks c) (sevr c')) /\
  (acks c = sevr c -> ackt c = false -> acks c' = sevr c').
Proof.
  intros N W P. rewrite (raise_all_worst l a c W) by lia. cbn zeta. rewrite reset_alarms_trace.
  destruct (reset_alarms_state (set_new c a.1 a.2)) as (E1 & E2 & E3 & E4 & E5 & E6).
  rewrite E1, E2, E3, E4, E6. change INVALID_ALARM with 3. cbn -[Z.min Z.max].
  set (s := Z.min 3 a.2). split_and!; try done.
  - intros A ->. destruct (Z.eqb_spec (sevr c) s), (Z.eqb_spec (stat c) a.1); cbn; destruct (Z.leb_spec (acks c) s); lia.
  - intros A ->. destruct (Z.eqb_spec (sevr c) s), (Z.eqb_spec (stat c) a.1); cbn; lia.
Qed.

Definition quiet_record : dbCommon :=
  mkCommon 0 0 0 0 0 true false 3 false false false false 0 0 (mkTime 0 0) [].

(** No clock. *)
Definition no_time : time_env := mkTimeEnv true false None link_none None (fun _ => None) None.

Lemma alarm_cycle_witness :
  let c' := snd (recGblResetAlarms (raise_all [(HIGH_ALARM, 1); (LINK_ALARM, 7); (CALC_ALARM, 7)] quiet_record)) in
  sevr c' = Z.min INVALID_ALARM 7 /\ stat c' = LINK_ALARM /\ nsev c' = 0 /\ nsta c' = 0 /\
  trace c' = [] ++ reset_posts quiet_record LINK_ALARM (Z.min INVALID_ALARM 7) /\
  (sevr quiet_record <= acks quiet_record -> ackt quiet_record = true -> acks c' = Z.max (acks quiet_record) (sevr c')) /\
  (acks quiet_record = sevr quiet_record -> ackt quiet_record = false -> acks c' = sevr c').
Proof.
  apply (alarm_cycle [(HIGH_ALARM, 1); (LINK_ALARM, 7); (CALC_ALARM, 7)] (LINK_ALARM, 7) quiet_record eq_refl).
  - exists [(HIGH_ALARM, 1)], [(CALC_ALARM, 7)]. split_and!; [done| |]; repeat constructor; done.
  - done.
Defined.

(** ** Deadbands *)

Lemma finite_not_nan f : finite f = true -> isnan f = false /\ isinf f = false.
Proof.
  unfold finite, is_finite. intros H%negb_true_iff. by apply orb_false_iff in H.
Qed.

Lemma isinf_spec f : isinf f = true <-> exists s, Prim2SF f = S754_infinity s.
Proof.
  unfold isinf, is_infinity. rewrite eqb_spec, abs_spec. split.
  - intros H. unfold SFeqb in H. destruct (Prim2SF f) as [s|s| |s m e]; simpl in H; try done; by exists s.
  - by intros [s ->].
Qed.

Lemma float_sub_diag f : finite f = true -> (f - f)%float = 0%float.
Proof.
  intros [N I]%finite_not_nan. apply Prim2SF_inj. rewrite sub_spec. unfold SF64sub, SFsub.
  destruct (Prim2SF f) as [s|s| |s m e] eqn:E.
  - by destruct s.
  - exfalso. rewrite (proj2 (isinf_spec f)) in I; [done|]. by exists s.
  - apply isnan_spec in E. congruence.
  - rewrite Z.sub_diag. reflexivity.
Qed.

(** A monitor that was last sent [old] needs no [new]: they are the same value, or both are
    finite and do not differ by more than the deadband. *)
Definition tracks (deadband old new : float) : Prop :=
  old = new \/
  finite old = true /\ finite new = true /\ (deadband <? abs (old - new))%float = false.

(** The values a monitor is sent. *)
Fixpoint monitored (deadband last : float) (values : list float) : list float :=
  match values with
  | [] => []
  | v :: values =>
      let '(last', mask) := recGblCheckDeadband last v deadband 0 DBE_VALUE in
      (if mask =? 0 then [] else [v]) ++ monitored deadband last' values
  end.

Lemma ltb_abs d x : (d <? (if x <? 0 then - x else x))%float = (d <? abs x)%float.
Proof.
  rewrite (ltb_spec x 0). destruct (SFltb (Prim2SF x) (Prim2SF 0)) eqn:L; rewrite !ltb_spec, ?opp_spec, abs_spec;
    change (Prim2SF 0) with (S754_zero false) in L; unfold SFltb in *;
    destruct (Prim2SF x) as [s|s| |s m e]; simpl in L; try destruct s; try done; simpl; by destruct (Prim2SF d) as [s'|s'| |s' m' e'].
Qed.

Lemma ltb_inf d : finite d = true -> (d <? epicsINF)%float = true.
Proof.
  intros [N I]%finite_not_nan. rewrite ltb_spec. change (Prim2SF epicsINF) with (S754_infinity false). unfold SFltb.
  destruct (Prim2SF d) as [s|s| |s m e] eqn:E; try done.
  - exfalso. rewrite (proj2 (isinf_spec d)) in I; [done|]. by exists s.
  - apply isnan_spec in E. congruence.
Qed.

Lemma inf_eqb_eq a b : isinf a = true -> (a =? b)%float = true -> a = b.
Proof.
  intros [s A]%isinf_spec E. apply Prim2SF_inj. rewrite eqb_spec, A in E. rewrite A. unfold SFeqb in E.
  destruct (Prim2SF b) as [s'|s'| |s' m e]; destruct s; try destruct s'; done.
Qed.

Lemma eqb_inf a : isinf a = true -> (a =? a)%float = true.
Proof. intros [s A]%isinf_spec. rewrite eqb_spec, A. by destruct s. Qed.

Section Deadband.
Variable d : float.
Hypothesis F : finite d = true.
Hypothesis P : (0 <=? d)%float = true.

Lemma deadband_zero : (d <? 0)%float = false.
Proof.
    apply finite_not_nan in F as [N _]. rewrite float_leb in P by done. rewrite float_ltb by done.
    apply Z.leb_le in P. by apply Z.ltb_ge.
  Qed.

Lemma finite_split x : finite x = negb (isnan x || isinf x).
Proof. reflexivity. Qed.

Lemma delta_same x : delta x x = 0%float \/ (d <? delta x x)%float = false.
Proof.
    unfold delta. rewrite andb_diag, !Bool.eqb_reflx. simpl. destruct (finite x) eqn:E.
    - rewrite (float_sub_diag x E). by left.
    - destruct (isinf x) eqn:I; [|by left]. rewrite eqb_inf by done. by left.
  Qed.

Lemma deadband_iff old new : (d <? delta old new)%float = false <-> tracks d old new.
Proof.
    split.
    - unfold delta. destruct (finite new && finite old) eqn:Fi.
      + apply andb_true_iff in Fi as [F1 F2]. cbv zeta. rewrite ltb_abs. right. done.
      + destruct (_ || _) eqn:C; [rewrite (ltb_inf d F); done|].
        apply orb_false_iff in C as [C1 C2]. apply negb_false_iff, Bool.eqb_prop in C1, C2.
        destruct (isinf new) eqn:In; simpl.
        * destruct (new =? old)%float eqn:E; simpl; [|rewrite (ltb_inf d F); done].
          intros _. left. symmetry. by apply inf_eqb_eq.
        * intros _. left. rewrite !finite_split, In, <- C1, <- C2, andb_diag, orb_false_r in Fi.
          apply negb_false_iff in Fi. rewrite Fi in C1. symmetry in C1. apply isnan_spec in C1, Fi.
          apply Prim2SF_inj. congruence.
    - intros [-> |(F1 & F2 & L)].
      + destruct (delta_same new) as [E|E]; [rewrite E; apply deadband_zero|exact E].
      + unfold delta. rewrite F1, F2. cbn [andb]. cbv zeta. by rewrite ltb_abs.
  Qed.

Lemma deadband_step old new m :
    recGblCheckDeadband old new d m DBE_VALUE =
    if (d <? delta old new)%float then (new, Z.lor m DBE_VALUE) else (old, m).
Proof. reflexivity. Qed.

Lemma monitored_cons last v vs :
    monitored d last (v :: vs) = if (d <? delta last v)%float then v :: monitored d v vs else monitored d last vs.
Proof. cbn [monitored]. rewrite deadband_step. by destruct (d <? delta last v)%float. Qed.

Lemma last_cons_default (l : list float) a b : List.last (a :: l) b = List.last l a.
Proof. revert a b. induction l as [|y l IH]; intros a b; [done|]. change (List.last (y :: l) b = List.last (y :: l) a). by rewrite !IH. Qed.

Lemma monitored_snoc vs v : forall last,
    monitored d last (vs ++ [v]) = monitored d last vs ++
      (if (d <? delta (List.last (monitored d last vs) last) v)%float then [v] else []).
Proof.
    induction vs as [|x vs IH]; intros last; cbn [app]; rewrite !monitored_cons.
    - cbn [monitored List.last app]. by destruct (d <? delta last v)%float.
    - destruct (d <? delta last x)%float; [|apply IH].
      rewrite IH, last_cons_default. done.
  Qed.
End Deadband.

(** (C22) A client that monitors a value with a finite deadband of at least 0 is sent a
    subsequence of the values, and after every value the last one it was sent is the
    same value or both are finite and differ by no more than the deadband; a value is
    sent only when that did not hold before.  This covers NaN, both infinities and
    overflow of the difference. *)
Theorem deadband_monitor d last vs v :
  finite d = true -> (0 <=? d)%float = true ->
  monitored d last vs `sublist_of` vs /\
  tracks d (List.last (monitored d last (vs ++ [v])) last) v /\
  (tracks d (List.last (monitored d last vs) last) v <-> monitored d last (vs ++ [v]) = monitored d last vs).
Proof.
  intros F P. split_and!.
  - revert last. induction vs as [|x vs IH]; intros last; [done|]. rewrite monitored_cons.
    destruct (d <? delta last x)%float; [by apply sublist_skip|by apply sublist_cons].
  - rewrite monitored_snoc. destruct (d <? delta _ v)%float eqn:E.
    + rewrite List.last_last. by left.
    + rewrite app_nil_r. by apply deadband_iff.
  - rewrite monitored_snoc, <- (deadband_iff d F P). destruct (d <? delta _ v)%float; [|by rewrite app_nil_r].
    split; [done|]. intros E. apply (f_equal length) in E. rewrite length_app in E. simpl in E. lia.
Qed.

Lemma deadband_monitor_witness :
  finite 0.5 = true /\ (0 <=? 0.5)%float = true /\
  monitored 0.5 0 [0.25; 1; infinity; infinity; nan; nan; 2]%float `sublist_of` [0.25; 1; infinity; infinity; nan; nan; 2]%float /\
  tracks 0.5 (List.last (monitored 0.5 0 ([0.25; 1; infinity; infinity; nan; nan; 2] ++ [2.25])) 0)%float 2.25 /\
  (tracks 0.5 (List.last (monitored 0.5 0 [0.25; 1; infinity; infinity; nan; nan; 2]) 0)%float 2.25 <->
   monitored 0.5 0 ([0.25; 1; infinity; infinity; nan; nan; 2] ++ [2.25])%float =
   monitored 0.5 0 [0.25; 1; infinity; infinity; nan; nan; 2]%float).
Proof.
  assert (F : finite 0.5 = true) by reflexivity.
  assert (P : (0 <=? 0.5)%float = true) by reflexivity.
  apply (conj F), (conj P). exact (deadband_monitor 0.5 0 [0.25; 1; infinity; infinity; nan; nan; 2]%float 2.25 F P).
Defined.
