(* ===== verification/CompressRecord.v ===== *)
(** * The compress record ([modules/database/src/std/rec/compressRecord.c])

    Arrays are lists and pointers into them indices; an access outside of the allocated
    memory, a NULL pointer and a signed overflow are faults. *)

From stdpp Require Import base numbers list option strings.
From Stdlib Require Import ZArith Lia Bool Floats.
From S2P Require Import Prelude CStdlib FloatOrder RecGbl.

Open Scope string_scope.
Open Scope list_scope.
Open Scope Z_scope.

(** ** Data *)

Inductive compressALG := compressALG_N_to_1_Low_Value | compressALG_N_to_1_High_Value | compressALG_N_to_1_Average
  | compressALG_Average | compressALG_Circular_Buffer | compressALG_N_to_1_Median.
#[global] Instance compressALG_eq_dec : EqDecision compressALG.
Proof. solve_decision. Defined.

Inductive bufferingALG := bufferingALG_FIFO | bufferingALG_LIFO.
#[global] Instance bufferingALG_eq_dec : EqDecision bufferingALG.
Proof. solve_decision. Defined.

Record compressRecord := mkCompress {
  common : dbCommon;
  alg : compressALG;
  balg : bufferingALG;
  nsam : Z;
  cn : Z;                         (** the field [N] *)
  bptr : list float;
  sptr : option (list float);
  wptr : option (list float);
  inpn : Z;
  off : Z;
  nuse : Z;
  ouse : Z;
  inx : Z;
  cvb : float;
  cres : Z;                       (** the field [RES] *)
  ilil : float;
  ihil : float }.

Inductive co_fault := co_read (index : Z) | co_write (index : Z) | co_null | co_overflow.
Notation co A := (co_fault + A)%type.

(** Assignments to the fields. *)
Definition set_common (r : compressRecord) (c : dbCommon) : compressRecord :=
  mkCompress c (alg r) (balg r) (nsam r) (cn r) (bptr r) (sptr r) (wptr r) (inpn r) (off r) (nuse r) (ouse r) (inx r)
    (cvb r) (cres r) (ilil r) (ihil r).
Definition set_buffer (r : compressRecord) (b : list float) (o u : Z) : compressRecord :=
  mkCompress (common r) (alg r) (balg r) (nsam r) (cn r) b (sptr r) (wptr r) (inpn r) o u (ouse r) (inx r)
    (cvb r) (cres r) (ilil r) (ihil r).
Definition set_sptr (r : compressRecord) (s : option (list float)) : compressRecord :=
  mkCompress (common r) (alg r) (balg r) (nsam r) (cn r) (bptr r) s (wptr r) (inpn r) (off r) (nuse r) (ouse r) (inx r)
    (cvb r) (cres r) (ilil r) (ihil r).
Definition set_wptr (r : compressRecord) (w : option (list float)) (n : Z) : compressRecord :=
  mkCompress (common r) (alg r) (balg r) (nsam r) (cn r) (bptr r) (sptr r) w n (off r) (nuse r) (ouse r) (inx r)
    (cvb r) (cres r) (ilil r) (ihil r).
Definition set_ouse (r : compressRecord) (u : Z) : compressRecord :=
  mkCompress (common r) (alg r) (balg r) (nsam r) (cn r) (bptr r) (sptr r) (wptr r) (inpn r) (off r) (nuse r) u (inx r)
    (cvb r) (cres r) (ilil r) (ihil r).
Definition set_inx (r : compressRecord) (i : Z) (v : float) : compressRecord :=
  mkCompress (common r) (alg r) (balg r) (nsam r) (cn r) (bptr r) (sptr r) (wptr r) (inpn r) (off r) (nuse r) (ouse r) i
    v (cres r) (ilil r) (ihil r).
Definition set_n (r : compressRecord) (n : Z) : compressRecord :=
  mkCompress (common r) (alg r) (balg r) (nsam r) n (bptr r) (sptr r) (wptr r) (inpn r) (off r) (nuse r) (ouse r) (inx r)
    (cvb r) (cres r) (ilil r) (ihil r).

(** [prec->n <= 0], for an unsigned field. *)
Definition fix_n (r : compressRecord) : compressRecord := if cn r <=? 0 then set_n r 1 else r.

Definition zeros (n : Z) : list float := replicate (Z.to_nat n) 0%float.

(** ** Operations *)

Definition reset (r : compressRecord) : compressRecord :=
  let r := set_buffer r (bptr r) 0 0 in
  let r := mkCompress (common r) (alg r) (balg r) (nsam r) (cn r) (bptr r) (sptr r) (wptr r) (inpn r) (off r) (nuse r)
             (ouse r) 0 0%float 0 (ilil r) (ihil r) in
  let r := if decide (alg r = compressALG_Average /\ sptr r = None) then set_sptr r (Some (zeros (nsam r))) else r in
  if nsam r =? 0 then r else set_buffer r (zeros (nsam r)) (off r) (nuse r).

Definition init_record (r : compressRecord) : compressRecord :=
  let nsam' := if nsam r <? 1 then 1 else nsam r in
  reset (mkCompress (common r) (alg r) (balg r) nsam' (cn r) (zeros nsam') (sptr r) (wptr r) (inpn r) (off r) (nuse r)
           (ouse r) (inx r) (cvb r) (cres r) (ilil r) (ihil r)).

Definition monitor (r : compressRecord) : compressRecord :=
  let '(alarm_mask, c) := recGblResetAlarms (common r) in
  let r := set_common r c in
  let monitor_mask := Z.lor alarm_mask (Z.lor DBE_LOG DBE_VALUE) in
  let r := if negb (alarm_mask =? 0) || negb (nuse r =? ouse r)
           then set_ouse (set_common r (db_post_events "NUSE" monitor_mask (common r))) (nuse r) else r in
  set_common r (db_post_events "VAL" monitor_mask (common r)).

(** [buf[i]] and [buf[i] = v]. *)
Definition get (buf : list float) (i : Z) : co float :=
  if 0 <=? i then match buf !! Z.to_nat i with Some v => inr v | None => inl (co_read i) end else inl (co_read i).
Definition put (buf : list float) (i : Z) (v : float) : co (list float) :=
  if (0 <=? i) && (i <? zlen buf) then inr (<[Z.to_nat i := v]> buf) else inl (co_write i).

(** The loop of [put_value] over the values at [psource]. *)
Fixpoint put_loop (fifo : bool) (nsam offset : Z) (bptr values : list float) : co (Z * list float) :=
  match values with
  | [] => inr (offset, bptr)
  | v :: values =>
      let offset := if fifo then offset else wrap_u 32 (offset + nsam - 1) mod nsam in
      let* bptr := put bptr offset v in
      let offset := if fifo then wrap_u 32 (offset + 1) mod nsam else offset in
      put_loop fifo nsam offset bptr values
  end.

Definition put_value (r : compressRecord) (values : list float) : co compressRecord :=
  let fifo := bool_decide (balg r = bufferingALG_FIFO) in
  let nuse' := wrap_u 32 (nuse r + zlen values) in
  let nuse' := if nsam r <? nuse' then nsam r else nuse' in
  let* '(offset, b) := put_loop fifo (nsam r) (off r) (bptr r) values in
  inr (set_buffer r b offset nuse').

(** [qsort] with [compare]. *)
Definition compare (a b : float) : Z := if (a <? b)%float then -1 else if (a =? b)%float then 0 else 1.

Fixpoint insert_sorted (v : float) (l : list float) : list float :=
  match l with
  | [] => [v]
  | x :: l' => if compare v x <=? 0 then v :: l else x :: insert_sorted v l'
  end.

Definition qsort (l : list float) : list float := foldr insert_sorted [] l.

(** [n] elements at [p]. *)
Definition read_at (buf : list float) (p n : Z) : co (list float) :=
  match rd buf p n with Some l => inr l | None => inl (co_read (p + n - 1)) end.

(** Skip the data that is out of limits. *)
Fixpoint skip_limits (fuel : nat) (lo hi : float) (src : list float) (p no_elements : Z) : co (Z * Z) :=
  let* v := get src p in
  if ((v <? lo)%float || (hi <? v)%float) && (0 <? no_elements) then
    match fuel with O => inl co_overflow | S fuel => skip_limits fuel lo hi src (p + 1) (no_elements - 1) end
  else inr (p, no_elements).

(** The inner loops of [compress_array]: what one chunk of [n] values becomes. *)
Definition lowest (l : list float) : float :=
  match l with [] => 0%float | v :: l => fold_left (fun value x => if (x <? value)%float then x else value) l v end.
Definition highest (l : list float) : float :=
  match l with [] => 0%float | v :: l => fold_left (fun value x => if (value <? x)%float then x else value) l v end.
Definition average (n : Z) (l : list float) : float := (fold_left PrimFloat.add l 0 / Z2F n)%float.

(** [nnew] chunks of [n] values. *)
Fixpoint chunk_loop (f : list float -> float) (n : Z) (nnew : nat) (src : list float) (p : Z) (r : compressRecord)
  : co compressRecord :=
  match nnew with
  | O => inr r
  | S nnew =>
      let* c := read_at src p n in
      let* r := put_value r [f c] in
      chunk_loop f n nnew src (p + n) r
  end.

(** The same for the median: the chunk is sorted in place, and the next one is [step]
    further on. *)
Fixpoint median_loop (n step : Z) (nnew : nat) (src : list float) (p : Z) (r : compressRecord) : co compressRecord :=
  match nnew with
  | O => inr r
  | S nnew =>
      let* c := read_at src p n in
      let c := qsort c in
      let src := default src (wr src p c) in
      let* v := get src (p + n / 2) in
      let* r := put_value r [v] in
      median_loop n step nnew src (p + step) r
  end.

Definition int_ok (z : Z) : co Z := if decide (fits_s 32 z) then inr z else inl co_overflow.

Definition compress_array (r : compressRecord) (src : list float) (no_elements : Z) : co (Z * compressRecord) :=
  let* '(p, no_elements) :=
    (if (ilil r <? ihil r)%float then skip_limits (S (length src)) (ilil r) (ihil r) src 0 no_elements
     else inr (0, no_elements)) in
  let r := fix_n r in
  let n := wrap_s 32 (cn r) in
  if no_elements <? n then inr (1, r)
  else
    let nsam' := wrap_s 32 (nsam r) in
    let* prod := int_ok (nsam' * n) in
    let nnew := if no_elements <? prod then Z.quot no_elements n else nsam' in
    let* r :=
      match alg r with
      | compressALG_N_to_1_Low_Value => chunk_loop lowest n (Z.to_nat nnew) src p r
      | compressALG_N_to_1_High_Value => chunk_loop highest n (Z.to_nat nnew) src p r
      | compressALG_N_to_1_Average => chunk_loop (average n) n (Z.to_nat nnew) src p r
      | compressALG_N_to_1_Median => median_loop n nnew (Z.to_nat nnew) src p r
      | _ => inr r
      end in
    inr (0, r).

Definition array_average (r : compressRecord) (src : list float) (no_elements : Z) : co (Z * compressRecord) :=
  let nsam' := wrap_s 32 (nsam r) in
  let nuse' := if no_elements <? nsam' then no_elements else nsam' in
  let* psum := match sptr r with Some s => inr s | None => inl co_null end in
  let* now := read_at src 0 nuse' in
  let* old := match rd psum 0 nuse' with Some l => inr l | None => inl (co_write (nuse' - 1)) end in
  let now := if inx r =? 0 then now else zip_with PrimFloat.add old now in
  let psum := now ++ drop (Z.to_nat nuse') psum in
  let inx' := wrap_s 32 (inx r) + 1 in
  let r := fix_n (set_sptr r (Some psum)) in
  let n := wrap_s 32 (cn r) in
  if inx' <? n then inr (1, set_inx r inx' (cvb r))
  else
    let multiplier := (1 / Z2F n)%float in
    let now := if 1 <? n then map (fun x => x * multiplier)%float now else now in
    let psum := now ++ drop (Z.to_nat nuse') psum in
    let* r := put_value (set_sptr r (Some psum)) now in
    inr (0, set_inx r 0 (cvb r)).

Definition compress_scalar (r : compressRecord) (value : float) : co (Z * compressRecord) :=
  let dest := cvb r in
  let i := inx r in
  let dest :=
    match alg r with
    | compressALG_N_to_1_Low_Value => if (value <? dest)%float || (i =? 0) then value else dest
    | compressALG_N_to_1_High_Value => if (dest <? value)%float || (i =? 0) then value else dest
    | compressALG_N_to_1_Average | compressALG_N_to_1_Median =>
        if i =? 0 then value
        else
          let dest := (dest + value)%float in
          if cn r <=? i + 1 then (dest / Z2F (i + 1))%float else dest
    | _ => dest
    end in
  let r := set_inx r (inx r) dest in
  let i := i + 1 in
  if cn r <=? i then
    let* r := put_value r [dest] in
    inr (0, set_inx r 0 (cvb r))
  else inr (1, set_inx r i (cvb r)).

(** What the input link says: whether it is connected, how many elements it has, and what
    [dbGetLink] delivers. *)
Record input := mkInput { connected : bool; elements : option Z; get_link : link (list float) }.

(** The values of a [dbGetLink] into an array of [nelements]. *)
Definition get_array (i : input) (nelements : Z) (w : list float) (c : dbCommon) : Z * list float * Z * dbCommon :=
  let '(status, got, c) := dbGetLink (get_link i) [] c in
  match get_link i with
  | link_constant => (status, w, 0, c)
  | link_value _ _ _ _ =>
      let got := take (Z.to_nat nelements) got in
      (status, got ++ drop (length got) w, zlen got, c)
  | _ => (status, w, nelements, c)
  end.

Definition link_alarm (r : compressRecord) : compressRecord :=
  set_common r (snd (recGblSetSevr LINK_ALARM INVALID_ALARM (common r))).

Definition read_input (r : compressRecord) (i : input) : co (Z * compressRecord) :=
  match connected i, elements i with
  | true, Some nelements =>
      if nelements <=? 0 then inr (0, link_alarm r)
      else
        let r :=
          match wptr r with
          | Some _ => if negb (nelements =? inpn r) then set_wptr (reset r) (Some (zeros nelements)) nelements else r
          | None => set_wptr r (Some (zeros nelements)) nelements
          end in
        let '(status, w, nelements, c) := get_array i nelements (default [] (wptr r)) (common r) in
        let r := set_common (set_wptr r (Some w) (inpn r)) c in
        if negb (status =? 0) || (nelements <=? 0) then inr (0, link_alarm r)
        else
          match alg r with
          | compressALG_Average => array_average r w nelements
          | compressALG_Circular_Buffer =>
              let* v := read_at w 0 nelements in
              let* r := put_value r v in
              inr (0, r)
          | _ =>
              if 1 <? nelements then compress_array r w nelements
              else let* v := get w 0 in compress_scalar r v
          end
  | _, _ => inr (0, link_alarm r)
  end.

Definition process (env : time_env) (r : compressRecord) (i : input) : co compressRecord :=
  let r := set_common r (set_pact (common r) true) in
  let* '(status, r) := read_input r i in
  let r :=
    if negb (status =? 1) then
      let r := set_common r (recGblGetTimeStamp env (set_udf (common r) false)) in
      let r := monitor r in
      set_common r (recGblFwdLink (common r))
    else r in
  inr (set_common r (set_pact (common r) false)).

(** [get_array_info] gives the number of elements and the index of the first one. *)
Definition get_array_info (r : compressRecord) : Z * Z :=
  (nuse r,
   if decide (balg r = bufferingALG_FIFO) then wrap_u 32 (wrap_u 32 (off r + nsam r) - nuse r) mod nsam r else off r).

Definition put_array_info (r : compressRecord) (nNew : Z) : compressRecord :=
  let o := if decide (balg r = bufferingALG_FIFO) then (off r + nNew) mod nsam r else off r in
  let u := wrap_u 32 (nuse r + nNew) in
  let u := if nsam r <? u then nsam r else u in
  let changed := negb (nuse r =? u) in
  let r := set_buffer r (bptr r) o u in
  if changed then set_common r (db_post_events "NUSE" (Z.lor DBE_VALUE DBE_LOG) (common r)) else r.

Inductive special_type := SPC_RESET | SPC_OTHER.
Definition S_db_badChoice : Z := 511 * 65536 + 13.

Definition special (r : compressRecord) (special_type : special_type) (after : bool) : Z * compressRecord :=
  if negb after then (0, r)
  else match special_type with SPC_RESET => (0, reset r) | SPC_OTHER => (S_db_badChoice, r) end.
