(* ===== verification/CompressProof.v ===== *)
(** * The compress record: its buffer is a bounded list

    [put_value] appends to a list of at most [NSAM] values, FIFO or LIFO; the compression
    algorithms of arrays and scalars; processing stays inside the allocated memory. *)

From stdpp Require Import base numbers list option strings.
From Stdlib Require Import ZArith Lia Bool Floats.
From S2P Require Import Prelude CStdlib FloatOrder RecGbl CompressRecord.

Open Scope string_scope.
Open Scope list_scope.
Open Scope Z_scope.

(** ** The circular buffer *)

Lemma mod_twice a n : 0 <= a < 2 * n -> a mod n = if a <? n then a else a - n.
Proof.
  intros H. destruct (Z.ltb_spec a n); [apply Z.mod_small; lia|].
  symmetry. apply (Z.mod_unique_pos a n 1); lia.
Qed.

Ltac ring_lia := rewrite ?mod_twice in * by lia; repeat (zbool; try lia);
  repeat match goal with H : context [Z.ltb ?a ?b] |- _ => destruct (Z.ltb_spec a b) end; lia.

(** The last [n] elements. *)
Definition lastn {A} (n : nat) (l : list A) : list A := drop (length l - n) l.

Lemma length_lastn {A} n (l : list A) : length (lastn n l) = Nat.min n (length l).
Proof. unfold lastn. rewrite length_drop. lia. Qed.

Lemma lastn_app {A} n (a b : list A) : lastn n (lastn n a ++ b) = lastn n (a ++ b).
Proof.
  unfold lastn. rewrite !length_app, length_drop.
  destruct (decide (length a <= n)%nat) as [L|L].
  - replace (length a - n)%nat with 0%nat by lia. rewrite drop_0. do 2 f_equal. lia.
  - replace (a ++ b) with (take (length a - n) a ++ (drop (length a - n) a ++ b)) by (by rewrite List.app_assoc, take_drop).
    rewrite (drop_app_ge (take _ _)) by (rewrite length_take; lia). rewrite length_take. f_equal. lia.
Qed.

Lemma take_app_take {A} n (a b : list A) : take n (a ++ take n b) = take n (a ++ b).
Proof. rewrite !take_app. by rewrite take_take, Nat.min_l by lia. Qed.

(** The buffer holds the list [l]: its last entry is before [o] (FIFO), its first is at [o] (LIFO). *)
Definition holds (fifo : bool) (n o : Z) (b l : list float) : Prop :=
  zlen b = n /\ 0 <= o < n /\ zlen l <= n /\
  forall i, 0 <= i < zlen l ->
    b !! Z.to_nat ((if fifo then o + n - zlen l + i else o + i) mod n) = l !! Z.to_nat i.

Lemma put_ok b i v : 0 <= i < zlen b -> put b i v = inr (<[Z.to_nat i := v]> b).
Proof. intros H. unfold put. rewrite (proj2 (Z.leb_le _ _)), (proj2 (Z.ltb_lt _ _)) by lia. done. Qed.

Lemma lookup_to_nat_ne (b : list float) i j v : 0 <= i -> 0 <= j -> i <> j -> <[Z.to_nat i := v]> b !! Z.to_nat j = b !! Z.to_nat j.
Proof. intros. apply list_lookup_insert_ne. lia. Qed.

Lemma put_fifo n o b l v :
  n <= 2 ^ 31 -> holds true n o b l ->
  holds true n (wrap_u 32 (o + 1) mod n) (<[Z.to_nat o := v]> b) (lastn (Z.to_nat n) (l ++ [v])).
Proof.
  intros N (Lb & Ho & Ll & H). rewrite wrap_u_id by (unfold fits_u; lia).
  pose proof (length_lastn (Z.to_nat n) (l ++ [v])) as La. rewrite length_app in La. simpl in La.
  pose proof (Z.mod_pos_bound (o + 1) n ltac:(lia)) as M.
  split_and!; [by rewrite length_insert|lia|lia|lia|]. intros i Hi. cbv iota in H |- *. unfold lastn at 2.
  rewrite lookup_drop, length_app. simpl.
  destruct (Z.eq_dec i (zlen (lastn (Z.to_nat n) (l ++ [v])) - 1)) as [E|E].
  - replace ((o + 1) mod n + n - zlen (lastn (Z.to_nat n) (l ++ [v])) + i) with ((o + 1) mod n + n - 1) by lia.
    replace (((o + 1) mod n + n - 1) mod n) with o.
    2:{ rewrite (mod_twice (o + 1)) by lia. destruct (Z.ltb_spec (o + 1) n); ring_lia. }
    rewrite list_lookup_insert_eq by lia. rewrite lookup_app_r by lia.
    by replace (_ - _)%nat with 0%nat by lia.
  - rewrite lookup_app_l by lia.
    set (k := zlen l + 1 - zlen (lastn (Z.to_nat n) (l ++ [v]))) in *.
    replace (length l + 1 - Z.to_nat n + Z.to_nat i)%nat with (Z.to_nat (i + k)) by lia.
    rewrite <- (H (i + k)) by lia.
    replace (((o + 1) mod n + n - zlen (lastn (Z.to_nat n) (l ++ [v])) + i) mod n) with ((o + n - zlen l + (i + k)) mod n).
    2:{ symmetry. replace ((o + 1) mod n + n - zlen (lastn (Z.to_nat n) (l ++ [v])) + i)
          with ((o + 1) mod n + (n - zlen (lastn (Z.to_nat n) (l ++ [v])) + i)) by lia.
        rewrite Z.add_mod_idemp_l by lia. f_equal. lia. }
    rewrite lookup_to_nat_ne; [done|lia|apply Z.mod_pos_bound; lia|].
    subst k. rewrite mod_twice by lia. destruct (Z.ltb_spec (o + n - zlen l + (i + (zlen l + 1 - zlen (lastn (Z.to_nat n) (l ++ [v]))))) n); lia.
Qed.

Lemma put_lifo n o b l v :
  n <= 2 ^ 31 -> holds false n o b l ->
  let o' := wrap_u 32 (o + n - 1) mod n in
  0 <= o' < n /\ holds false n o' (<[Z.to_nat o' := v]> b) (take (Z.to_nat n) (v :: l)).
Proof.
  intros N (Lb & Ho & Ll & H) o'. unfold o'. rewrite wrap_u_id by (unfold fits_u; lia).
  set (x := (o + n - 1) mod n). pose proof (Z.mod_pos_bound (o + n - 1) n ltac:(lia)) as M. fold x in M.
  split; [lia|]. split_and!; [by rewrite length_insert|lia|lia|rewrite length_take; simpl; lia|].
  intros i Hi. cbv iota in H |- *. rewrite length_take in Hi. simpl in Hi. rewrite lookup_take_lt by lia.
  destruct (Z.eq_dec i 0) as [->|E].
  - rewrite Z.add_0_r, Z.mod_small by lia. by rewrite list_lookup_insert_eq by lia.
  - rewrite lookup_cons_ne_0 by lia. replace (pred (Z.to_nat i)) with (Z.to_nat (i - 1)) by lia. rewrite <- (H (i - 1)) by lia.
    replace ((x + i) mod n) with ((o + (i - 1)) mod n).
    2:{ unfold x. rewrite Z.add_mod_idemp_l by lia. replace (o + n - 1 + i) with (o + (i - 1) + 1 * n) by lia.
        by rewrite Z.mod_add by lia. }
    apply lookup_to_nat_ne; [lia|apply Z.mod_pos_bound; lia|].
    unfold x. rewrite !mod_twice by lia. destruct (Z.ltb_spec (o + n - 1) n), (Z.ltb_spec (o + (i - 1)) n); lia.
Qed.

(** What the buffer holds after [values] are put, one after the other. *)
Definition pushed (fifo : bool) (n : Z) (l values : list float) : list float :=
  if fifo then lastn (Z.to_nat n) (l ++ values) else take (Z.to_nat n) (rev values ++ l).

Lemma put_loop_holds fifo n values : forall o b l,
  n <= 2 ^ 31 -> holds fifo n o b l ->
  exists o' b', put_loop fifo n o b values = inr (o', b') /\ holds fifo n o' b' (pushed fifo n l values).
Proof.
  induction values as [|v values IH]; intros o b l N H; cbn [put_loop].
  - exists o, b. split; [done|]. unfold pushed. destruct H as (? & ? & Ll & ?). destruct fifo; simpl.
    + rewrite app_nil_r. unfold lastn. replace (_ - _)%nat with 0%nat by lia. by rewrite drop_0.
    + by rewrite take_ge by lia.
  - destruct fifo.
    + destruct H as (Lb & Ho & Hl). rewrite put_ok by lia. cbn [ebind].
      destruct (IH _ _ _ N (put_fifo n o b l v N (conj Lb (conj Ho Hl)))) as (o' & b' & E & H').
      exists o', b'. split; [exact E|]. unfold pushed in *. by rewrite lastn_app, <- app_assoc in H'.
    + destruct (put_lifo n o b l v N H) as [Ho H']. destruct H as (Lb & _). rewrite put_ok by lia. cbn [ebind].
      destruct (IH _ _ _ N H') as (o' & b' & E & H''). exists o', b'. split; [exact E|].
      unfold pushed in *. cbn [rev]. rewrite <- app_assoc. by rewrite take_app_take in H''.
Qed.

(** ** The invariant of a record *)

Definition fifo (r : compressRecord) : bool := bool_decide (balg r = bufferingALG_FIFO).

Record wf (r : compressRecord) (l : list float) : Prop := mkWf {
  wf_nsam : 1 <= nsam r < 2 ^ 31;
  wf_holds : holds (fifo r) (nsam r) (off r) (bptr r) l;
  wf_nuse : nuse r = zlen l;
  wf_sptr : forall s, sptr r = Some s -> zlen s = nsam r;
  wf_average : alg r = compressALG_Average -> sptr r <> None;
  wf_wptr : forall w, wptr r = Some w -> zlen w = inpn r;
  wf_inx : 0 <= inx r < 2 ^ 31 - 1;
  wf_n : 0 <= cn r /\ nsam r * Z.max 1 (cn r) < 2 ^ 31 }.

Lemma put_value_ok r l values :
  wf r l -> zlen values < 2 ^ 31 ->
  exists r', put_value r values = inr r' /\ wf r' (pushed (fifo r) (nsam r) l values) /\
    r' = set_buffer r (bptr r') (off r') (nuse r').
Proof.
  intros W V. destruct W as [W1 W2 W3 W4 W5 W6 W7 W8]. unfold put_value. fold (fifo r).
  destruct (put_loop_holds (fifo r) (nsam r) values (off r) (bptr r) l ltac:(lia) W2) as (o' & b' & -> & H').
  cbn [ebind]. eexists. split; [reflexivity|]. split; [|reflexivity]. constructor; try done. cbn.
  destruct W2 as (_ & _ & Ll & _). rewrite W3, wrap_u_id by (unfold fits_u; lia).
  unfold pushed. destruct (fifo r).
  - pose proof (length_lastn (Z.to_nat (nsam r)) (l ++ values)) as La. rewrite length_app in La.
    destruct (Z.ltb_spec (nsam r) (zlen l + zlen values)); lia.
  - rewrite length_take, length_app, length_rev. destruct (Z.ltb_spec (nsam r) (zlen l + zlen values)); lia.
Qed.

(** A client reads the elements [get_array_info] describes, around the end of the buffer. *)
Definition readout (r : compressRecord) : list float :=
  let '(k, o) := get_array_info r in
  omap (fun i => bptr r !! Z.to_nat ((o + i) mod nsam r)) (seqZ 0 k).

Lemma omap_seqZ {A} (f : Z -> option A) (l : list A) :
  (forall i, 0 <= i < zlen l -> f i = l !! Z.to_nat i) -> omap f (seqZ 0 (zlen l)) = l.
Proof.
  intros H. assert (G : forall l2 l1 : list A, l = l1 ++ l2 -> omap f (seqZ (zlen l1) (zlen l2)) = l2).
  { induction l2 as [|x l2 IH]; intros l1 E; [done|]. rewrite seqZ_cons by (simpl; lia). cbn [omap list_omap].
    rewrite H, E by (rewrite E, length_app; simpl; lia). rewrite Nat2Z.id, list_lookup_middle by done. f_equal.
    replace (Z.succ (zlen l1)) with (zlen (l1 ++ [x])) by (rewrite length_app; simpl; lia).
    replace (Z.pred (zlen (x :: l2))) with (zlen l2) by (simpl; lia). apply IH. by rewrite <- List.app_assoc. }
  by apply (G l []).
Qed.

Lemma readout_wf r l : wf r l -> readout r = l.
Proof.
  intros [W1 (Lb & Ho & Ll & H) W3 _ _ _ _ _]. unfold readout, get_array_info. rewrite W3. apply omap_seqZ.
  intros i Hi. rewrite <- H by done. unfold fifo. destruct (balg r); simpl; [|done].
  rewrite !wrap_u_id by (unfold fits_u; rewrite ?wrap_u_id by (unfold fits_u; lia); lia).
  rewrite Z.add_mod_idemp_l by lia. do 3 f_equal; lia.
Qed.

Lemma length_zeros n : 0 <= n -> zlen (zeros n) = n.
Proof. intros. unfold zeros. rewrite length_replicate. lia. Qed.

Lemma holds_nil f n b : 1 <= n -> zlen b = n -> holds f n 0 b [].
Proof. intros. split_and!; [done|lia|lia|simpl; lia|]. simpl. lia. Qed.

(** The parameters of a record that has been initialised once. *)
Record allocated (r : compressRecord) : Prop := mkAlloc {
  al_nsam : 1 <= nsam r < 2 ^ 31;
  al_bptr : zlen (bptr r) = nsam r;
  al_sptr : forall s, sptr r = Some s -> zlen s = nsam r;
  al_wptr : forall w, wptr r = Some w -> zlen w = inpn r;
  al_n : 0 <= cn r /\ nsam r * Z.max 1 (cn r) < 2 ^ 31 }.

Lemma reset_params r : nsam (reset r) = nsam r /\ fifo (reset r) = fifo r /\ alg (reset r) = alg r /\ cn (reset r) = cn r.
Proof. unfold reset, fifo. destruct (decide _); cbn; by destruct (nsam r =? 0). Qed.

Lemma reset_wf r : allocated r -> wf (reset r) [].
Proof.
  intros [A1 A2 A3 A4 A5]. unfold reset. cbn.
  destruct (Z.eqb_spec (nsam r) 0); [lia|]. destruct (decide _) as [[Al Sp]|Ns]; cbn.
  - rewrite (proj2 (Z.eqb_neq _ _)) by lia.
    constructor; cbn; try done; try lia; [apply holds_nil; [lia|apply length_zeros; lia]|].
    intros s [= <-]. apply length_zeros. lia.
  - rewrite (proj2 (Z.eqb_neq _ _)) by lia.
    constructor; cbn; try done; try lia; [apply holds_nil; [lia|apply length_zeros; lia]|].
    intros Al Sp. apply Ns. done.
Qed.

(** Only the buffer differs. *)
Definition same_but_buffer (r r' : compressRecord) : Prop := r' = set_buffer r (bptr r') (off r') (nuse r').

#[global] Instance same_but_buffer_preorder : PreOrder same_but_buffer.
Proof.
  split; [by intros []|]. intros x y z E1 E2. unfold same_but_buffer in *. rewrite E2, E1. reflexivity.
Qed.

Lemma put_value_same r r' values : put_value r values = inr r' -> same_but_buffer r r'.
Proof.
  unfold put_value. destruct (put_loop _ _ _ _ _) as [f|[o b]]; [done|]. cbn. intros [= <-]. reflexivity.
Qed.

Lemma pushed_app f n l a b : pushed f n (pushed f n l a) b = pushed f n l (a ++ b).
Proof.
  unfold pushed. destruct f; [by rewrite lastn_app, List.app_assoc|].
  by rewrite rev_app_distr, take_app_take, List.app_assoc.
Qed.

Lemma pushed_nil r l : wf r l -> pushed (fifo r) (nsam r) l [] = l.
Proof.
  intros [W1 (_ & _ & Ll & _) _ _ _ _ _ _]. unfold pushed. destruct (fifo r); simpl; [|by rewrite take_ge by lia].
  rewrite app_nil_r. unfold lastn. by replace (_ - _)%nat with 0%nat by lia.
Qed.

(** Several calls of [put_value]. *)
Fixpoint put_values (r : compressRecord) (vss : list (list float)) : co compressRecord :=
  match vss with
  | [] => inr r
  | vs :: vss => let* r := put_value r vs in put_values r vss
  end.

Lemma put_values_ok vss : forall r l,
  wf r l -> Forall (fun vs => zlen vs < 2 ^ 31) vss ->
  exists r', put_values r vss = inr r' /\ wf r' (pushed (fifo r) (nsam r) l (concat vss)) /\ same_but_buffer r r'.
Proof.
  induction vss as [|vs vss IH]; intros r l W F; cbn [put_values concat].
  - exists r. split_and!; [done|by rewrite (pushed_nil r l W)|reflexivity].
  - inversion F; subst. destruct (put_value_ok r l vs W) as (r1 & -> & W1 & S1); [done|]. cbn [ebind].
    destruct (IH r1 _ W1) as (r' & E & W' & S'); [done|]. exists r'.
    assert (X : fifo r1 = fifo r /\ nsam r1 = nsam r) by (rewrite S1; done). destruct X as [X1 X2].
    rewrite X1, X2, pushed_app in W'. split_and!; [done|done|]. by transitivity r1.
Qed.

(** *** Arrays *)

Fixpoint chunks (n : nat) (k : nat) (l : list float) : list (list float) :=
  match k with O => [] | S k => take n l :: chunks n k (drop n l) end.

Lemma read_at_ok src p n : 0 <= p -> 0 <= n -> p + n <= zlen src ->
  read_at src p n = inr (take (Z.to_nat n) (drop (Z.to_nat p) src)).
Proof.
  intros. unfold read_at, rd. rewrite !(proj2 (Z.leb_le _ _)) by lia. done.
Qed.

Lemma chunk_loop_ok f n k : forall src p r l,
  wf r l -> 0 <= p -> 1 <= n -> p + n * Z.of_nat k <= zlen src ->
  exists r', chunk_loop f n k src p r = inr r' /\
    wf r' (pushed (fifo r) (nsam r) l (map f (chunks (Z.to_nat n) k (drop (Z.to_nat p) src)))) /\ same_but_buffer r r'.
Proof.
  induction k as [|k IH]; intros src p r l W Hp Hn Hs; cbn [chunk_loop chunks map].
  - exists r. split_and!; [done|by rewrite (pushed_nil r l W)|reflexivity].
  - rewrite read_at_ok by lia. cbn [ebind].
    destruct (put_value_ok r l [f (take (Z.to_nat n) (drop (Z.to_nat p) src))] W) as (r1 & -> & W1 & S1); [simpl; lia|].
    cbn [ebind]. destruct (IH src (p + n) r1 _ W1) as (r' & E & W' & S'); [lia|lia|lia|].
    exists r'. assert (X : fifo r1 = fifo r /\ nsam r1 = nsam r) by (rewrite S1; done). destruct X as [X1 X2].
    rewrite X1, X2, pushed_app in W'. split_and!; [done| |by transitivity r1].
    rewrite drop_drop. by replace (Z.to_nat p + Z.to_nat n)%nat with (Z.to_nat (p + n)) by lia.
Qed.

(** The data that is not skipped. *)
Definition in_limits (r : compressRecord) (v : float) : bool := negb ((v <? ilil r)%float || (ihil r <? v)%float).

Lemma get_ok src i : 0 <= i < zlen src -> exists v, get src i = inr v /\ src !! Z.to_nat i = Some v.
Proof.
  intros H. unfold get. rewrite (proj2 (Z.leb_le _ _)) by lia.
  destruct (lookup_lt_is_Some_2 src (Z.to_nat i)) as [v E]; [lia|]. rewrite E. by exists v.
Qed.

Lemma skip_limits_ok r good : forall bad fuel pre,
  Forall (fun v => in_limits r v = false) bad -> (length bad < fuel)%nat ->
  (exists v, head good = Some v /\ in_limits r v = true) ->
  forall rest, skip_limits fuel (ilil r) (ihil r) (pre ++ (bad ++ good) ++ rest) (zlen pre) (zlen (bad ++ good)) =
    inr (zlen (pre ++ bad), zlen good).
Proof.
  induction bad as [|b bad IH]; intros [|fuel] pre Fb Fu (v & Hv & Iv) rest; try (simpl in Fu; lia);
    cbn [skip_limits app].
  - destruct good as [|g good]; [done|]. injection Hv as ->. cbn [app].
    destruct (get_ok (pre ++ v :: good ++ rest) (zlen pre)) as (x & -> & X); [rewrite length_app; simpl; lia|].
    rewrite Nat2Z.id, list_lookup_middle in X by done. injection X as <-. cbn [ebind].
    apply negb_true_iff in Iv. rewrite Iv. cbn [andb]. by rewrite app_nil_r.
  - destruct (get_ok (pre ++ b :: (bad ++ good) ++ rest) (zlen pre)) as (x & -> & X); [rewrite length_app; simpl; lia|].
    rewrite Nat2Z.id, list_lookup_middle in X by done. injection X as <-. cbn [ebind].
    inversion Fb as [|? ? Ib Fb']; subst. apply negb_false_iff in Ib. rewrite Ib. cbn [andb].
    rewrite (proj2 (Z.ltb_lt _ _)) by (simpl; lia).
    specialize (IH fuel (pre ++ [b]) Fb' ltac:(simpl in Fu; lia) (ex_intro _ v (conj Hv Iv)) rest).
    rewrite <- !List.app_assoc in IH. cbn [app] in IH. rewrite <- IH. f_equal.
    + by rewrite <- !List.app_assoc.
    + rewrite length_app. simpl. lia.
    + cbn [length]. lia.
Qed.

Lemma chunks_app n k : forall a b, (n * k <= length a)%nat -> chunks n k (a ++ b) = chunks n k a.
Proof.
  induction k as [|k IH]; intros a b H; [done|]. cbn [chunks].
  rewrite take_app_le, drop_app_le by lia. f_equal. apply IH. rewrite length_drop. lia.
Qed.

Lemma chunks_length n k : forall l, (n * k <= length l)%nat -> Forall (fun c => length c = n) (chunks n k l).
Proof.
  induction k as [|k IH]; intros l H; [done|]. cbn [chunks]. constructor; [rewrite length_take; lia|].
  apply IH. rewrite length_drop. lia.
Qed.

(** What one chunk becomes. *)
Definition reduction (a : compressALG) (n : Z) : list float -> float :=
  match a with
  | compressALG_N_to_1_Low_Value => lowest
  | compressALG_N_to_1_High_Value => highest
  | _ => average n
  end.

Definition numbers (c : list float) : Prop := Forall (fun x => isnan x = false) c.

(** The least and the greatest value of a chunk without NaN; the sum divided by the length. *)
Definition reduces (a : compressALG) (c : list float) (v : float) : Prop :=
  match a with
  | compressALG_N_to_1_Low_Value => numbers c -> v ∈ c /\ Forall (fun x => (v <=? x)%float = true) c
  | compressALG_N_to_1_High_Value => numbers c -> v ∈ c /\ Forall (fun x => (x <=? v)%float = true) c
  | _ => v = (fold_left PrimFloat.add c 0 / Z2F (zlen c))%float
  end.

(** The loop that keeps the best value seen, [cmp] being the order of [sgn * fkey]. *)
Lemma fold_pick (cmp : float -> float -> bool) sgn c :
  (forall a b, isnan a = false -> isnan b = false -> cmp a b = (sgn * fkey a <? sgn * fkey b)) ->
  numbers c -> forall v, isnan v = false ->
  let m := fold_left (fun value x => if cmp x value then x else value) c v in
  m ∈ v :: c /\ isnan m = false /\ Forall (fun x => sgn * fkey m <= sgn * fkey x) (v :: c).
Proof.
  intros H N. induction N as [|x c Nx _ IH]; intros v Nv; cbn [fold_left].
  - split_and!; [by left|done|]. by repeat constructor.
  - rewrite (H x v Nx Nv). destruct (Z.ltb_spec (sgn * fkey x) (sgn * fkey v)) as [L|L].
    + destruct (IH x Nx) as (I & Nm & F). inversion F; subst. split_and!; [by right|done|]. constructor; [lia|done].
    + destruct (IH v Nv) as (I & Nm & F). inversion F; subst. split_and!; [|done|].
      * apply elem_of_cons in I as [I|I]; [rewrite I; by left|by right; right].
      * constructor; [done|]. constructor; [lia|done].
Qed.

Lemma lowest_spec c : c <> [] -> reduces compressALG_N_to_1_Low_Value c (lowest c).
Proof.
  destruct c as [|v c]; [done|]. intros _ N. inversion N as [|? ? Nv Nc]; subst. unfold lowest.
  destruct (fold_pick PrimFloat.ltb 1 c) with (v := v) as (I & Nm & F); [|done|done|].
  - intros a b A B. rewrite float_ltb by done. by rewrite !Z.mul_1_l.
  - split; [done|]. unfold numbers in N. rewrite Forall_forall in F, N |- *. intros x X. rewrite float_leb by auto. apply Z.leb_le.
    specialize (F x X). lia.
Qed.

Lemma highest_spec c : c <> [] -> reduces compressALG_N_to_1_High_Value c (highest c).
Proof.
  destruct c as [|v c]; [done|]. intros _ N. inversion N as [|? ? Nv Nc]; subst. unfold highest.
  destruct (fold_pick (fun a b => PrimFloat.ltb b a) (-1) c) with (v := v) as (I & Nm & F); [|done|done|].
  - intros a b A B. rewrite float_ltb by done. destruct (Z.ltb_spec (fkey b) (fkey a)), (Z.ltb_spec (-1 * fkey a) (-1 * fkey b)); lia.
  - split; [done|]. unfold numbers in N. rewrite Forall_forall in F, N |- *. intros x X. rewrite float_leb by auto. apply Z.leb_le.
    specialize (F x X). lia.
Qed.

Definition n_to_1 (a : compressALG) : Prop :=
  a = compressALG_N_to_1_Low_Value \/ a = compressALG_N_to_1_High_Value \/ a = compressALG_N_to_1_Average.

Lemma reduction_spec a n c : n_to_1 a -> 1 <= n -> zlen c = n -> reduces a c (reduction a n c).
Proof.
  intros A N L. assert (c <> []) by (intros ->; simpl in L; lia).
  destruct A as [-> |[-> | ->]]; [by apply lowest_spec|by apply highest_spec|]. cbn. by rewrite L.
Qed.

Lemma fix_n_wf r l : wf r l -> wf (fix_n r) l /\ cn (fix_n r) = Z.max 1 (cn r) /\ alg (fix_n r) = alg r /\
  fifo (fix_n r) = fifo r /\ nsam (fix_n r) = nsam r /\ ilil (fix_n r) = ilil r /\ ihil (fix_n r) = ihil r.
Proof.
  intros W. unfold fix_n. pose proof (wf_n _ _ W) as [N1 N2]. destruct (Z.leb_spec (cn r) 0).
  - split_and!; try done; [|simpl; lia]. destruct W. constructor; try done. simpl. lia.
  - split_and!; try done. lia.
Qed.

Lemma array_chunks r l src p m :
  wf r l -> n_to_1 (alg r) -> 0 <= p -> 0 <= m -> p + m <= zlen src -> 1 <= cn r ->
  let n := cn r in let k := Z.min (m / n) (nsam r) in
  exists r', match alg r with
    | compressALG_N_to_1_Low_Value => chunk_loop lowest n (Z.to_nat k) src p r
    | compressALG_N_to_1_High_Value => chunk_loop highest n (Z.to_nat k) src p r
    | compressALG_N_to_1_Average => chunk_loop (average n) n (Z.to_nat k) src p r
    | compressALG_N_to_1_Median => median_loop n k (Z.to_nat k) src p r
    | _ => inr r
    end = inr r' /\
    wf r' (pushed (fifo r) (nsam r) l
             (map (reduction (alg r) n) (chunks (Z.to_nat n) (Z.to_nat k) (take (Z.to_nat m) (drop (Z.to_nat p) src))))) /\
    same_but_buffer r r'.
Proof.
  intros W A Hp Hm Hs Hn n k. assert (K : n * k <= m).
  { subst k. pose proof (Z.mul_div_le m n ltac:(lia)). nia. }
  assert (K0 : 0 <= k) by (subst k; pose proof (Z.div_pos m n ltac:(lia) ltac:(lia)); pose proof (wf_nsam _ _ W); lia).
  pose proof (chunk_loop_ok (reduction (alg r) n) n (Z.to_nat k) src p r l W ltac:(lia) ltac:(lia) ltac:(lia)) as (r' & E & W' & S).
  exists r'. split_and!; [|
    rewrite <- (take_drop (Z.to_nat m) (drop (Z.to_nat p) src)), chunks_app in W'
      by (rewrite length_take, length_drop; lia); exact W'|done].
  rewrite <- E. destruct A as [-> |[-> | ->]]; done.
Qed.

(** The delivered data, split where [compress_array] starts to use it. *)
Definition skipped (r : compressRecord) (bad good : list float) : Prop :=
  if (ilil r <? ihil r)%float
  then Forall (fun v => in_limits r v = false) bad /\ exists v, head good = Some v /\ in_limits r v = true
  else bad = [].

Lemma fits_32 z : 0 <= z < 2 ^ 31 -> wrap_s 32 z = z.
Proof. intros. apply wrap_s_id; [lia|]. unfold fits_s. lia. Qed.

Lemma array_start r l bad good rest :
  wf r l -> skipped r bad good ->
  compress_array r ((bad ++ good) ++ rest) (zlen (bad ++ good)) =
  let r := fix_n r in
  let n := cn r in
  if zlen good <? n then inr (1, r)
  else
    let k := Z.min (zlen good / n) (nsam r) in
    let src := (bad ++ good) ++ rest in
    let p := zlen bad in
    let* r :=
      match alg r with
      | compressALG_N_to_1_Low_Value => chunk_loop lowest n (Z.to_nat k) src p r
      | compressALG_N_to_1_High_Value => chunk_loop highest n (Z.to_nat k) src p r
      | compressALG_N_to_1_Average => chunk_loop (average n) n (Z.to_nat k) src p r
      | compressALG_N_to_1_Median => median_loop n k (Z.to_nat k) src p r
      | _ => inr r
      end in
    inr (0, r).
Proof.
  intros W Sk. unfold compress_array.
  assert (E : (if (ilil r <? ihil r)%float
               then skip_limits (S (length ((bad ++ good) ++ rest))) (ilil r) (ihil r) ((bad ++ good) ++ rest) 0 (zlen (bad ++ good))
               else inr (0, zlen (bad ++ good))) = inr (zlen bad, zlen good)).
  { unfold skipped in Sk. destruct (ilil r <? ihil r)%float; [|by subst].
    destruct Sk as [Fb Hg]. apply (skip_limits_ok r good bad _ [] Fb); [rewrite !length_app; lia|done]. }
  rewrite E. cbn [ebind]. destruct (fix_n_wf r l W) as (Wf & Cn & _). pose proof (wf_n _ _ Wf) as [_ N2].
  pose proof (wf_nsam _ _ Wf) as Ns. cbn zeta. set (r1 := fix_n r) in *.
  assert (1 <= cn r1) by lia. rewrite (Z.max_r 1 (cn r1)) in N2 by lia.
  assert (cn r1 < 2 ^ 31) by nia. rewrite !fits_32 by lia. destruct (Z.ltb_spec (zlen good) (cn r1)) as [L|L]; [done|].
  unfold int_ok. rewrite decide_True by (unfold fits_s; nia). cbn [ebind].
  assert (K : (if zlen good <? nsam r1 * cn r1 then Z.quot (zlen good) (cn r1) else nsam r1) = Z.min (zlen good / cn r1) (nsam r1)).
  { rewrite Z.quot_div_nonneg by lia. destruct (Z.ltb_spec (zlen good) (nsam r1 * cn r1)).
    - symmetry. apply Z.min_l. enough (zlen good / cn r1 < nsam r1) by lia. apply Z.div_lt_upper_bound; lia.
    - symmetry. apply Z.min_r. apply Z.div_le_lower_bound; lia. }
  rewrite K. reflexivity.
Qed.

Lemma compress_array_ok r l bad good rest :
  wf r l -> n_to_1 (alg r) -> skipped r bad good ->
  let n := Z.max 1 (cn r) in let k := Z.min (zlen good / n) (nsam r) in
  exists st r', compress_array r ((bad ++ good) ++ rest) (zlen (bad ++ good)) = inr (st, r') /\
    (zlen good < n -> st = 1 /\ wf r' l) /\
    (n <= zlen good -> st = 0 /\
       wf r' (pushed (fifo r) (nsam r) l (map (reduction (alg r) n) (chunks (Z.to_nat n) (Z.to_nat k) good)))) /\
    same_but_buffer (fix_n r) r'.
Proof.
  intros W A Sk n k. rewrite (array_start r l bad good rest W Sk).
  destruct (fix_n_wf r l W) as (Wf & Cn & Al & Ff & Ns & _). cbn zeta. rewrite Cn, Ns, Al. fold n k.
  destruct (Z.ltb_spec (zlen good) n) as [L|L].
  - exists 1, (fix_n r). split_and!; [done|done|lia|reflexivity].
  - destruct (array_chunks (fix_n r) l ((bad ++ good) ++ rest) (zlen bad) (zlen good) Wf) as (r' & E & W' & S);
      [by rewrite Al|lia|lia|rewrite !length_app; lia|lia|].
    rewrite ?Cn, ?Ns, ?Al, ?Ff in E, W'. fold n k in E, W'. rewrite E. cbn [ebind]. exists 0, r'.
    split_and!; [done|lia|intros _; split; [done|]|done].
    rewrite !Nat2Z.id, <- List.app_assoc, drop_app_length, take_app_length, Ff in W'. exact W'.
Qed.

(** ** Properties of the buffer and of the algorithms *)

(** (C23) After a record is initialised and any blocks of values are put into it, the elements a client reads
    from [get_array_info] on (around the end of the buffer) are the last NSAM values, oldest first
    (FIFO), or newest first (LIFO); no write is outside of the buffer. *)
Theorem compress_buffer r vss :
  1 <= nsam r < 2 ^ 31 -> 0 <= cn r -> nsam r * Z.max 1 (cn r) < 2 ^ 31 ->
  sptr r = None -> wptr r = None ->
  Forall (fun vs => zlen vs < 2 ^ 31) vss ->
  exists r', put_values (init_record r) vss = inr r' /\
    readout r' = match balg r with
                 | bufferingALG_FIFO => lastn (Z.to_nat (nsam r)) (concat vss)
                 | bufferingALG_LIFO => take (Z.to_nat (nsam r)) (rev (concat vss))
                 end.
Proof.
  intros N C1 C2 Sp Wp F. unfold init_record. rewrite (proj2 (Z.ltb_ge _ _)) by lia.
  set (r0 := mkCompress _ _ _ _ _ _ _ _ _ _ _ _ _ _ _ _ _).
  assert (W : wf (reset r0) []).
  { apply reset_wf. constructor; cbn; [lia|apply length_zeros; lia|by rewrite Sp|by rewrite Wp|lia]. }
  destruct (put_values_ok vss (reset r0) [] W F) as (r' & -> & W' & _). exists r'. split; [done|].
  rewrite (readout_wf r' _ W'). destruct (reset_params r0) as (X1 & X2 & _). rewrite X1, X2.
  unfold pushed, fifo. rewrite app_nil_r. simpl. by destruct (balg r).
Qed.

Definition blank (a : compressALG) (b : bufferingALG) (ns n : Z) (lo hi : float) : compressRecord :=
  mkCompress quiet_record a b ns n [] None None 0 0 0 0 0 0 0 lo hi.

Lemma compress_buffer_witness :
  let r := blank compressALG_Circular_Buffer bufferingALG_FIFO 3 1 0 0 in
  exists r', put_values (init_record r) [[1; 2]; [3; 4; 5]; []]%float = inr r' /\
    readout r' = lastn (Z.to_nat 3) (concat [[1; 2]; [3; 4; 5]; []]%float).
Proof.
  apply (compress_buffer (blank compressALG_Circular_Buffer bufferingALG_FIFO 3 1 0 0) [[1; 2]; [3; 4; 5]; []]%float);
    [simpl; lia|simpl; lia|simpl; lia|done|done|]. repeat constructor; simpl; lia.
Defined.

(** (C24) The N-to-1 algorithms on an array: leading data outside of the limits is skipped; less than N
    values change nothing (and the record does not complete); otherwise one value per chunk
    of N is put, for at most NSAM chunks: the least value, the greatest value or the
    average of the chunk. *)
Theorem compress_array_correct r l bad good rest :
  wf r l -> n_to_1 (alg r) -> skipped r bad good ->
  let n := Z.max 1 (cn r) in let k := Z.min (zlen good / n) (nsam r) in
  exists st r', compress_array r ((bad ++ good) ++ rest) (zlen (bad ++ good)) = inr (st, r') /\
    (zlen good < n -> st = 1 /\ readout r' = l) /\
    (n <= zlen good -> st = 0 /\ exists vs,
       Forall2 (reduces (alg r)) (chunks (Z.to_nat n) (Z.to_nat k) good) vs /\
       readout r' = pushed (fifo r) (nsam r) l vs).
Proof.
  intros W A Sk n k. destruct (compress_array_ok r l bad good rest W A Sk) as (st & r' & E & H1 & H2 & _).
  exists st, r'. split; [exact E|]. split.
  - intros L. destruct (H1 L) as [? W']. split; [done|]. by apply readout_wf.
  - intros L. destruct (H2 L) as [? W']. fold n k in W'. split; [done|].
    exists (map (reduction (alg r) n) (chunks (Z.to_nat n) (Z.to_nat k) good)).
    split; [|by apply readout_wf]. apply Forall2_fmap_r, Forall_Forall2_diag.
    eapply Forall_impl; [apply chunks_length|].
    + subst k. pose proof (Z.mul_div_le (zlen good) n ltac:(lia)). pose proof (Z.div_pos (zlen good) n).
      pose proof (wf_nsam _ _ W). nia.
    + intros c Lc. apply reduction_spec; [done|lia|]. simpl in Lc. rewrite Lc. lia.
Qed.

Lemma blank_wf a b ns n lo hi :
  1 <= ns < 2 ^ 31 -> 0 <= n -> ns * Z.max 1 n < 2 ^ 31 -> wf (init_record (blank a b ns n lo hi)) [].
Proof.
  intros N C1 C2. unfold init_record. apply reset_wf. cbn [nsam blank]. rewrite (proj2 (Z.ltb_ge _ _)) by lia.
  constructor; cbn; [lia|apply length_zeros; lia|done|done|lia].
Qed.

Lemma compress_array_correct_witness :
  let r := init_record (blank compressALG_N_to_1_Low_Value bufferingALG_FIFO 3 2 (-10) 10) in
  let good := [3; 1; 2; 5; 4]%float in
  exists st r', compress_array r (([99; -50]%float ++ good) ++ [7]%float) (zlen ([99; -50]%float ++ good)) = inr (st, r') /\
    (zlen good < 2 -> st = 1 /\ readout r' = []) /\
    (2 <= zlen good -> st = 0 /\ exists vs,
       Forall2 (reduces compressALG_N_to_1_Low_Value) (chunks 2 2 good) vs /\ readout r' = pushed true 3 [] vs).
Proof.
  apply (compress_array_correct (init_record (blank compressALG_N_to_1_Low_Value bufferingALG_FIFO 3 2 (-10) 10)) []
           [99; -50]%float [3; 1; 2; 5; 4]%float [7]%float).
  - apply blank_wf; simpl; lia.
  - by left.
  - unfold skipped. vm_compute (_ <? _)%float. split; [by repeat constructor|]. exists 3%float. by split.
Defined.

(** *** Scalars *)

(** What [N] values become; the average of one value is not divided. *)
Definition scalar_reduction (a : compressALG) (c : list float) : float :=
  match a, c with
  | compressALG_N_to_1_Low_Value, _ => lowest c
  | compressALG_N_to_1_High_Value, _ => highest c
  | _, [] => 0%float
  | _, [v] => v
  | _, v :: c' => (fold_left PrimFloat.add c' v / Z2F (zlen c))%float
  end.

(** What is kept in CVB after some of them. *)
Definition partial (a : compressALG) (c : list float) : float :=
  match a, c with
  | compressALG_N_to_1_Low_Value, _ => lowest c
  | compressALG_N_to_1_High_Value, _ => highest c
  | _, [] => 0%float
  | _, v :: c' => fold_left PrimFloat.add c' v
  end.

Definition scalar_alg (a : compressALG) : Prop := n_to_1 a \/ a = compressALG_N_to_1_Median.

(** Processing with one new value after the other: the statuses and the record. *)
Fixpoint feed (r : compressRecord) (vs : list float) : co (list Z * compressRecord) :=
  match vs with
  | [] => inr ([], r)
  | v :: vs =>
      let* '(st, r) := compress_scalar r v in
      let* '(sts, r) := feed r vs in
      inr (st :: sts, r)
  end.

Lemma lowest_snoc c v : c <> [] -> lowest (c ++ [v]) = if (v <? lowest c)%float then v else lowest c.
Proof. destruct c as [|x c]; [done|]. intros _. unfold lowest. cbn [app]. by rewrite fold_left_app. Qed.
Lemma highest_snoc c v : c <> [] -> highest (c ++ [v]) = if (highest c <? v)%float then v else highest c.
Proof. destruct c as [|x c]; [done|]. intros _. unfold highest. cbn [app]. by rewrite fold_left_app. Qed.

Lemma wf_set_inx r l i v : wf r l -> 0 <= i < 2 ^ 31 - 1 -> wf (set_inx r i v) l.
Proof. intros [] H. by constructor. Qed.

Definition averaging (a : compressALG) : Prop := a = compressALG_N_to_1_Average \/ a = compressALG_N_to_1_Median.

Lemma partial_snoc a x c v : averaging a -> partial a ((x :: c) ++ [v]) = (partial a (x :: c) + v)%float.
Proof. intros [-> | ->]; cbn; by rewrite fold_left_app. Qed.

Lemma average_snoc a x c v : averaging a ->
  scalar_reduction a ((x :: c) ++ [v]) = ((partial a (x :: c) + v) / Z2F (zlen (x :: c) + 1))%float.
Proof.
  intros H. assert (E : zlen ((x :: c) ++ [v]) = zlen (x :: c) + 1) by (rewrite length_app; simpl; lia).
  rewrite <- E, <- (partial_snoc a x c v H). destruct H as [-> | ->]; cbn [app scalar_reduction partial]; by destruct c.
Qed.

(** One value after [c]. *)
Lemma scalar_step r l c v :
  wf r l -> scalar_alg (alg r) -> inx r = zlen c -> cvb r = partial (alg r) c \/ c = [] ->
  (if zlen c + 1 <? Z.max 1 (cn r) then
     compress_scalar r v = inr (1, set_inx r (zlen c + 1) (partial (alg r) (c ++ [v])))
   else zlen c + 1 = Z.max 1 (cn r) ->
     exists r', compress_scalar r v = inr (0, r') /\
       wf r' (pushed (fifo r) (nsam r) l [scalar_reduction (alg r) (c ++ [v])]) /\ inx r' = 0).
Proof.
  intros W A I Cv. unfold compress_scalar. rewrite I. pose proof (wf_n _ _ W) as [N1 N2].
  pose proof (wf_nsam _ _ W) as Ns.
  assert (D : (match alg r with
    | compressALG_N_to_1_Low_Value => if (v <? cvb r)%float || (zlen c =? 0) then v else cvb r
    | compressALG_N_to_1_High_Value => if (cvb r <? v)%float || (zlen c =? 0) then v else cvb r
    | compressALG_N_to_1_Average | compressALG_N_to_1_Median =>
        if zlen c =? 0 then v
        else let dest := (cvb r + v)%float in
          if cn r <=? zlen c + 1 then (dest / Z2F (zlen c + 1))%float else dest
    | _ => cvb r end) =
    if zlen c + 1 <? Z.max 1 (cn r) then partial (alg r) (c ++ [v]) else scalar_reduction (alg r) (c ++ [v])).
  { destruct c as [|x c].
    - simpl. rewrite !orb_true_r. destruct A as [[-> |[-> | ->]]| ->]; by destruct (Z.ltb _ _).
    - destruct Cv as [-> |]; [|done]. rewrite (proj2 (Z.eqb_neq (zlen (x :: c)) 0)) by (simpl; lia). rewrite !orb_false_r.
      destruct A as [[-> |[-> | ->]]| ->].
      + cbn [partial scalar_reduction]. rewrite lowest_snoc by done. by destruct (_ <? Z.max 1 _).
      + cbn [partial scalar_reduction]. rewrite highest_snoc by done. by destruct (_ <? Z.max 1 _).
      + rewrite partial_snoc, average_snoc by (by left).
        destruct (Z.ltb_spec (zlen (x :: c) + 1) (Z.max 1 (cn r))); zbool; done || lia.
      + rewrite partial_snoc, average_snoc by (by right).
        destruct (Z.ltb_spec (zlen (x :: c) + 1) (Z.max 1 (cn r))); zbool; done || lia. }
  cbv zeta in D |- *. rewrite D. destruct (Z.ltb_spec (zlen c + 1) (Z.max 1 (cn r))) as [L|L].
  - rewrite (proj2 (Z.leb_gt (cn r) _)) by (simpl; lia). reflexivity.
  - intros E. cbn [set_inx cn]. rewrite (proj2 (Z.leb_le (cn r) _)) by lia.
    pose proof (wf_set_inx r l (zlen c) (scalar_reduction (alg r) (c ++ [v])) W ltac:(nia)) as W1.
    destruct (put_value_ok _ l [scalar_reduction (alg r) (c ++ [v])] W1) as (r' & E' & W' & S); [simpl; lia|].
    rewrite E'. cbn [ebind]. eexists. split; [reflexivity|]. split; [|done].
    apply wf_set_inx; [exact W'|lia].
Qed.

Lemma feed_ok vs : forall r l c,
  wf r l -> scalar_alg (alg r) -> inx r = zlen c -> cvb r = partial (alg r) c \/ c = [] ->
  vs <> [] -> zlen c + zlen vs = Z.max 1 (cn r) ->
  exists r', feed r vs = inr (replicate (length vs - 1) 1 ++ [0], r') /\
    wf r' (pushed (fifo r) (nsam r) l [scalar_reduction (alg r) (c ++ vs)]) /\ inx r' = 0.
Proof.
  induction vs as [|v vs IH]; intros r l c W A I Cv N Len; [done|]. cbn [feed].
  pose proof (scalar_step r l c v W A I Cv) as St. cbn [length] in Len.
  destruct vs as [|w vs].
  - rewrite (proj2 (Z.ltb_ge _ _)) in St by (simpl in Len; lia).
    destruct St as (r' & E & W' & I'); [simpl in Len; lia|]. rewrite E. cbn. by exists r'.
  - rewrite (proj2 (Z.ltb_lt _ _)) in St by (simpl in Len; lia). rewrite St. cbn [ebind].
    pose proof (wf_n _ _ W) as [N1 N2]. pose proof (wf_nsam _ _ W).
    destruct (IH (set_inx r (zlen c + 1) (partial (alg r) (c ++ [v]))) l (c ++ [v])) as (r' & E & W' & I').
    + apply wf_set_inx; [exact W|]. simpl in Len. nia.
    + exact A.
    + cbn. rewrite length_app. simpl. lia.
    + by left.
    + done.
    + cbn [cn set_inx]. rewrite length_app. simpl in *. lia.
    + rewrite E. cbn [ebind]. exists r'. split_and!; [|by rewrite <- List.app_assoc in W'|done].
      cbn [length]. rewrite Nat.sub_succ, !Nat.sub_0_r. done.
Qed.

(** (C17) The N-to-1 algorithms on a scalar input: of N successive values the first N-1 only
    update CVB (processing does not complete), the last one puts one value into the buffer: the
    least, the greatest, or the sum in order of arrival divided by N (also for the
    median, as the code says); then the next N start afresh. *)
Theorem compress_scalar_correct r l vs :
  wf r l -> scalar_alg (alg r) -> inx r = 0 -> zlen vs = Z.max 1 (cn r) ->
  exists r' v, feed r vs = inr (replicate (length vs - 1) 1 ++ [0], r') /\
    readout r' = pushed (fifo r) (nsam r) l [v] /\ inx r' = 0 /\
    match alg r with
    | compressALG_N_to_1_Low_Value | compressALG_N_to_1_High_Value => reduces (alg r) vs v
    | _ => v = scalar_reduction (alg r) vs
    end.
Proof.
  intros W A I Len. assert (N : vs <> []) by (intros ->; simpl in Len; lia).
  destruct (feed_ok vs r l [] W A I (or_intror eq_refl) N) as (r' & E & W' & I'); [simpl; lia|].
  exists r', (scalar_reduction (alg r) vs). split_and!; [done|by apply readout_wf|done|].
  destruct A as [[-> |[-> | ->]]| ->]; [by apply lowest_spec|by apply highest_spec|done|done].
Qed.

Lemma compress_scalar_correct_witness :
  let r := init_record (blank compressALG_N_to_1_High_Value bufferingALG_LIFO 4 3 0 0) in
  exists r' v, feed r [2; 7; 5]%float = inr (replicate 2 1 ++ [0], r') /\
    readout r' = pushed false 4 [] [v] /\ inx r' = 0 /\ reduces compressALG_N_to_1_High_Value [2; 7; 5]%float v.
Proof.
  apply (compress_scalar_correct (init_record (blank compressALG_N_to_1_High_Value bufferingALG_LIFO 4 3 0 0)) [] [2; 7; 5]%float).
  - apply blank_wf; simpl; lia.
  - left. right. by left.
  - done.
  - done.
Defined.

(** ** Processing *)

Lemma array_average_ok r l src m :
  wf r l -> alg r = compressALG_Average -> 0 <= m -> m <= zlen src ->
  exists st r' l', array_average r src m = inr (st, r') /\ wf r' l'.
Proof.
  intros W A M Ms. unfold array_average. pose proof (wf_nsam _ _ W) as Ns. pose proof (wf_n _ _ W) as [N1 N2].
  rewrite (fits_32 (nsam r)) by lia. set (k := if m <? nsam r then m else nsam r).
  assert (K : 0 <= k <= m /\ k <= nsam r) by (subst k; destruct (Z.ltb_spec m (nsam r)); lia).
  destruct (sptr r) as [s|] eqn:Sp; [|by apply (wf_average _ _ W) in Sp]. pose proof (wf_sptr _ _ W s Sp) as Ls.
  cbn [ebind]. rewrite read_at_ok by lia. cbn [ebind]. unfold rd. rewrite !(proj2 (Z.leb_le _ _)) by lia. cbn [andb ebind].
  rewrite Z2Nat.inj_0, !drop_0. rewrite (fits_32 (inx r)) by (pose proof (wf_inx _ _ W); lia).
  set (now := if inx r =? 0 then _ else _).
  assert (Ln : zlen now = k).
  { subst now. destruct (inx r =? 0); rewrite ?length_zip_with, !length_take; lia. }
  assert (Lp : forall x, zlen x = k -> zlen (x ++ drop (Z.to_nat k) s) = nsam r).
  { intros x Lx. rewrite length_app, length_drop. lia. }
  assert (W1 : wf (set_sptr r (Some (now ++ drop (Z.to_nat k) s))) l).
  { destruct W. constructor; try done. intros s' [= <-]. by apply Lp. }
  destruct (fix_n_wf _ _ W1) as (W2 & Cn & Al & Ff & Nn & _). set (r2 := fix_n _) in *.
  cbn [cn set_sptr] in Cn. pose proof (wf_n _ _ W2) as [_ N2']. rewrite Nn in N2'. cbn [nsam set_sptr] in N2'.
  assert (1 <= cn r2 < 2 ^ 31) by nia. rewrite (fits_32 (cn r2)) by lia.
  destruct (Z.ltb_spec (inx r + 1) (cn r2)) as [L|L].
  - exists 1, (set_inx r2 (inx r + 1) (cvb r2)), l. split; [done|]. apply wf_set_inx; [done|]. pose proof (wf_inx _ _ W). lia.
  - cbn zeta. set (now2 := if 1 <? cn r2 then _ else _).
    assert (Ln2 : zlen now2 = k) by (subst now2; destruct (1 <? cn r2); rewrite ?length_map; done).
    set (r3 := set_sptr r2 _). assert (W3 : wf r3 l).
    { destruct W2. constructor; try done. intros s' [= <-]. change (nsam r3) with (nsam r2). rewrite Nn. cbn [nsam set_sptr].
      assert (D : drop (Z.to_nat k) (now ++ drop (Z.to_nat k) s) = drop (Z.to_nat k) s).
      { rewrite drop_app_ge by lia. replace (Z.to_nat k - length now)%nat with 0%nat by lia. by rewrite drop_0. }
      rewrite D. by apply Lp. }
    destruct (put_value_ok r3 l now2 W3) as (r4 & -> & W4 & _); [lia|]. cbn [ebind].
    eexists 0, _, _. split; [reflexivity|]. apply wf_set_inx; [exact W4|lia].
Qed.

Lemma wf_set_common r l c : wf r l -> wf (set_common r c) l.
Proof. intros []. by constructor. Qed.
Lemma wf_set_ouse r l u : wf r l -> wf (set_ouse r u) l.
Proof. intros []. by constructor. Qed.

Lemma wf_set_wptr r l w m : wf r l -> zlen w = m -> wf (set_wptr r (Some w) m) l.
Proof. intros [] H. constructor; try done. intros w' [= <-]. exact H. Qed.

Lemma monitor_wf r l : wf r l -> wf (monitor r) l.
Proof.
  intros W. unfold monitor. destruct (recGblResetAlarms (common r)) as [m c].
  apply wf_set_common. destruct (_ || _); [apply wf_set_ouse|]; by repeat apply wf_set_common.
Qed.

(** An input of the record: a failure has a status. *)
Definition input_ok (i : input) : Prop :=
  match elements i with Some m => m < 2 ^ 31 | None => True end /\
  match get_link i with link_error st => st <> 0 | _ => True end.

(** The values processing will use. *)
Definition delivered (i : input) : list float :=
  match get_link i, elements i with link_value v _ _ _, Some m => take (Z.to_nat m) v | _, _ => [] end.

(** The two cases in which the code leaves its array. *)
Definition overruns (r : compressRecord) (i : input) : Prop :=
  1 < zlen (delivered i) /\
  (alg r = compressALG_N_to_1_Median \/
   n_to_1 (alg r) /\ (ilil r <? ihil r)%float = true /\ Forall (fun v => in_limits r v = false) (delivered i)).

Lemma split_limits r (vs : list float) :
  (ilil r <? ihil r)%float = true /\ ~ Forall (fun v => in_limits r v = false) vs \/ (ilil r <? ihil r)%float = false ->
  exists bad good, vs = bad ++ good /\ skipped r bad good.
Proof.
  unfold skipped. destruct (ilil r <? ihil r)%float; [|by exists [], vs]. intros [[_ H]|]; [|done].
  induction vs as [|v vs IH]; [by destruct H|]. destruct (in_limits r v) eqn:E.
  - exists [], (v :: vs). split; [done|]. split; [done|]. by exists v.
  - destruct IH as (bad & good & -> & Fb & Hg); [intros F; apply H; by constructor|].
    exists (v :: bad), good. split; [done|]. split; [by constructor|done].
Qed.

Lemma scalar_ok r l v : wf r l -> exists st r' l', compress_scalar r v = inr (st, r') /\ wf r' l'.
Proof.
  intros W. unfold compress_scalar. cbv zeta. pose proof (wf_inx _ _ W). pose proof (wf_n _ _ W) as [N1 N2].
  pose proof (wf_nsam _ _ W). match goal with |- context [set_inx r (inx r) ?x] => generalize x; intros d end.
  pose proof (wf_set_inx r l (inx r) d W ltac:(lia)) as W1. cbn [cn set_inx].
  destruct (Z.leb_spec (cn r) (inx r + 1)) as [L|L].
  - destruct (put_value_ok _ l [d] W1) as (r' & -> & W' & _); [simpl; lia|]. cbn [ebind].
    eexists 0, _, _. split; [reflexivity|]. apply wf_set_inx; [exact W'|lia].
  - eexists 1, _, l. split; [reflexivity|]. apply wf_set_inx; [exact W1|]. nia.
Qed.

(** One array of [m] elements, the first [vs] of them delivered. *)
Lemma use_array r l w vs rest :
  wf r l -> w = vs ++ rest -> vs <> [] -> zlen vs < 2 ^ 31 ->
  (1 < zlen vs -> alg r <> compressALG_N_to_1_Median /\
     ~ (n_to_1 (alg r) /\ (ilil r <? ihil r)%float = true /\ Forall (fun v => in_limits r v = false) vs)) ->
  exists st r' l',
    match alg r with
    | compressALG_Average => array_average r w (zlen vs)
    | compressALG_Circular_Buffer =>
        let* v := read_at w 0 (zlen vs) in
        let* r := put_value r v in
        inr (0, r)
    | _ => if 1 <? zlen vs then compress_array r w (zlen vs) else let* v := get w 0 in compress_scalar r v
    end = inr (st, r') /\ wf r' l'.
Proof.
  intros W -> N V Ok.
  assert (Arr : n_to_1 (alg r) \/ alg r = compressALG_N_to_1_Median ->
    exists st r' l', (if 1 <? zlen vs then compress_array r (vs ++ rest) (zlen vs)
      else let* v := get (vs ++ rest) 0 in compress_scalar r v) = inr (st, r') /\ wf r' l').
  { intros A. destruct (Z.ltb_spec 1 (zlen vs)) as [L|L].
    - destruct (Ok L) as [O1 O2]. destruct A as [A|A]; [|done].
      destruct (split_limits r vs) as (bad & good & -> & Sk).
      { destruct (ilil r <? ihil r)%float eqn:E; [left|by right]. split; [done|]. intros F. by apply O2. }
      destruct (compress_array_ok r l bad good rest W A Sk) as (st & r' & -> & H1 & H2 & _).
      exists st, r'. destruct (Z.lt_ge_cases (zlen good) (Z.max 1 (cn r))) as [G|G].
      + exists l. split; [done|]. by apply H1.
      + eexists. split; [done|]. by apply H2.
    - destruct (get_ok (vs ++ rest) 0) as (v & -> & _); [rewrite length_app; destruct vs; simpl; [done|lia]|].
      cbn [ebind]. by apply (scalar_ok r l). }
  destruct (alg r) eqn:A; try (apply Arr; unfold n_to_1; tauto).
  - apply (array_average_ok r l); [done|done|lia|rewrite length_app; lia].
  - rewrite read_at_ok by (rewrite ?length_app; lia). cbn [ebind].
    destruct (put_value_ok r l (take (Z.to_nat (zlen vs)) (drop (Z.to_nat 0) (vs ++ rest))) W) as (r' & -> & W' & _).
    + rewrite length_take. lia.
    + cbn [ebind]. eexists 0, r', _. split; [done|exact W'].
Qed.

(** The buffer for the input is allocated when the number of elements is new. *)
Definition fitted (r : compressRecord) (m : Z) : compressRecord :=
  match wptr r with
  | Some _ => if negb (m =? inpn r) then set_wptr (reset r) (Some (zeros m)) m else r
  | None => set_wptr r (Some (zeros m)) m
  end.

Lemma fitted_ok r l m : wf r l -> 0 < m ->
  (exists l1, wf (fitted r m) l1 /\ exists w, wptr (fitted r m) = Some w /\ zlen w = m) /\
  alg (fitted r m) = alg r /\ ilil (fitted r m) = ilil r /\ ihil (fitted r m) = ihil r.
Proof.
  intros W M. unfold fitted. split.
  - destruct (wptr r) as [w|] eqn:Wp.
    + destruct (Z.eqb_spec m (inpn r)) as [E|E]; cbn [negb].
      * exists l. split; [done|]. exists w. split; [done|]. rewrite E. by apply (wf_wptr _ _ W).
      * exists []. split.
        -- assert (Rw : wf (reset r) []).
           { apply reset_wf. destruct W as [W1 (Lb & _) W3 W4 W5 W6 W7 W8]. by constructor. }
           apply wf_set_wptr; [exact Rw|apply length_zeros; lia].
        -- exists (zeros m). split; [done|apply length_zeros; lia].
    + exists l. split.
      * apply wf_set_wptr; [exact W|apply length_zeros; lia].
      * exists (zeros m). split; [done|apply length_zeros; lia].
  - destruct (wptr r); [|done]. destruct (negb _); [|done]. unfold reset. destruct (decide _); cbn; by destruct (nsam r =? 0).
Qed.

Lemma read_input_ok r l i :
  wf r l -> input_ok i -> ~ overruns r i -> exists st r' l', read_input r i = inr (st, r') /\ wf r' l'.
Proof.
  intros W [Ii Il] Ov. unfold read_input, overruns, delivered in *.
  assert (Al : forall r l, wf r l -> exists st r' l', inr (0, link_alarm r) = inr (st, r') :> co (Z * compressRecord) /\ wf r' l').
  { intros r0 l0 W0. eexists 0, _, l0. split; [reflexivity|]. by apply wf_set_common. }
  destruct (connected i); [|by apply (Al r l)]. destruct (elements i) as [m|] eqn:El; [|by apply (Al r l)].
  destruct (Z.leb_spec m 0) as [M|M]; [by apply (Al r l)|].
  destruct (fitted_ok r l m W M) as [W1 Pa]. unfold fitted in W1, Pa.
  set (r1 := match wptr r with Some _ => _ | None => _ end) in *.
  destruct W1 as (l1 & W1 & w & Wp & Lw). clearbody r1. rewrite Wp. change (default [] (Some w)) with w.
  unfold get_array, dbGetLink, dbTryGetLink. destruct (get_link i) as [| |st|v mode s1 s2] eqn:Gl.
  - rewrite Z.eqb_refl. change (negb (-1 =? 0)) with true. cbn [orb]. apply (Al _ l1). apply wf_set_common.
    apply wf_set_wptr; [exact W1|by apply (wf_wptr _ _ W1)].
  - change (0 =? S_db_noLSET) with false. cbn [negb orb Z.eqb Z.leb]. apply (Al _ l1). apply wf_set_common.
    apply wf_set_wptr; [exact W1|by apply (wf_wptr _ _ W1)].
  - assert (E : exists st', (if st =? S_db_noLSET then (-1, [], common r1)
        else if negb (st =? 0) then (st, [], snd (recGblSetSevr LINK_ALARM INVALID_ALARM (common r1)))
        else (st, [], common r1)) = (st', @nil float, (if st =? S_db_noLSET then common r1 else
          snd (recGblSetSevr LINK_ALARM INVALID_ALARM (common r1)))) /\ negb (st' =? 0) = true).
    { destruct (st =? S_db_noLSET); [by exists (-1)|]. apply Z.eqb_neq in Il. rewrite Il. exists st. by rewrite Il. }
    destruct E as (st' & -> & ->). cbn [orb]. apply (Al _ l1). apply wf_set_common.
    apply wf_set_wptr; [exact W1|by apply (wf_wptr _ _ W1)].
  - change (0 =? S_db_noLSET) with false. change (negb (0 =? 0)) with false. cbn [orb].
    set (vs := take (Z.to_nat m) v) in *.
    assert (Lv : zlen vs <= m) by (subst vs; rewrite length_take; lia).
    set (r2 := set_common _ _). assert (W2 : wf r2 l1).
    { apply wf_set_common, wf_set_wptr; [exact W1|]. rewrite length_app, length_drop.
      rewrite <- (wf_wptr _ _ W1 w Wp). lia. }
    destruct (Z.leb_spec (zlen vs) 0) as [Z0|Z0]; [by apply (Al r2 l1)|].
    apply (use_array r2 l1 _ vs (drop (length vs) w)); [exact W2|done|by intros ->|lia|].
    destruct Pa as (P1 & P2 & P3). change (alg r2) with (alg r1). change (ilil r2) with (ilil r1).
    change (ihil r2) with (ihil r1). change (in_limits r2) with (in_limits r1).
    assert (In : forall x, in_limits r1 x = in_limits r x) by (intros; unfold in_limits; by rewrite P2, P3).
    rewrite P1, P2, P3. intros L. split.
    + intros A. apply Ov. by split; [|left].
    + intros (A & B & F). apply Ov. split; [done|right]. split_and!; [done|done|].
      eapply Forall_impl; [exact F|]. intros x X. rewrite <- In. exact X.
Qed.

(** (C25) Processing never leaves the record's arrays, whatever the input delivers, and keeps the
    record well formed, except in the two situations of [overruns]: the median of an
    array, and an array all of whose values are out of limits. *)
Theorem compress_process_safe env r l i :
  wf r l -> input_ok i -> ~ overruns r i ->
  exists r' l', process env r i = inr r' /\ wf r' l' /\ pact (common r') = false.
Proof.
  intros W Ii Ov. unfold process.
  destruct (read_input_ok (set_common r (set_pact (common r) true)) l i) as (st & r1 & l1 & -> & W1);
    [by apply wf_set_common|done|exact Ov|].
  cbn [ebind]. eexists _, l1. split; [reflexivity|]. split; [|done]. apply wf_set_common.
  destruct (negb _); [|done]. apply wf_set_common, monitor_wf, wf_set_common, W1.
Qed.

Lemma compress_process_safe_witness :
  let r := init_record (blank compressALG_N_to_1_Average bufferingALG_FIFO 3 2 0 10) in
  let i := mkInput true (Some 4) (link_value [99; 3; 1; 2]%float pvlOptMS HIGH_ALARM 1) in
  exists r' l', process no_time r i = inr r' /\ wf r' l' /\ pact (common r') = false.
Proof.
  apply (compress_process_safe no_time (init_record (blank compressALG_N_to_1_Average bufferingALG_FIFO 3 2 0 10)) []
           (mkInput true (Some 4) (link_value [99; 3; 1; 2]%float pvlOptMS HIGH_ALARM 1))).
  - apply blank_wf; simpl; lia.
  - split; [simpl; lia|done].
  - intros (_ & [A|(_ & _ & F)]); [discriminate A|]. inversion F as [|? ? _ F1]. inversion F1 as [|? ? Hx _].
    vm_compute in Hx. discriminate Hx.
Defined.

(** *** The two overruns *)

(** Twelve values, [N] = 2, at least six samples: the median's chunks are taken six
    values apart, the third one behind the end of the array. *)
Example median_overruns :
  process no_time (init_record (blank compressALG_N_to_1_Median bufferingALG_FIFO 6 2 0 0))
    (mkInput true (Some 12) (link_value (replicate 12 1%float) pvlOptNMS 0 0)) = inl (co_read 13).
Proof. vm_compute. reflexivity. Qed.

(** All values are out of limits: the loop reads one more value before it looks at the count. *)
Example limits_overrun :
  process no_time (init_record (blank compressALG_N_to_1_Low_Value bufferingALG_FIFO 6 2 0 10))
    (mkInput true (Some 2) (link_value [50; 60]%float pvlOptNMS 0 0)) = inl (co_read 2).
Proof. vm_compute. reflexivity. Qed.
