(* ===== verification/LimitAlarm.v ===== *)
(** * Limit alarms with hysteresis

    What the record types with four alarm limits promise, as a state machine whose state is the
    level of the last alarm; the record types keep the value of that level in LALM
    instead ({!represents}). *)

From stdpp Require Import base numbers list option strings.
From Stdlib Require Import ZArith Lia Bool Floats.
From S2P Require Import Prelude CStdlib FloatOrder RecGbl.

Inductive level := Hihi | Lolo | High | Low.
#[global] Instance level_eq_dec : EqDecision level.
Proof. solve_decision. Defined.

(** The order in which the levels are looked at. *)
Definition all_levels : list level := [Hihi; Lolo; High; Low].

Record limits := mkLimits { lim : level -> float; sv : level -> Z; hyst : float }.

Definition status_of (l : level) : Z :=
  match l with Hihi => HIHI_ALARM | Lolo => LOLO_ALARM | High => HIGH_ALARM | Low => LOW_ALARM end.

(** A value is beyond a level, or not yet back from it by more than the hysteresis. *)
Definition beyond (L : limits) (l : level) (v : float) : bool :=
  match l with Hihi | High => (lim L l <=? v)%float | Lolo | Low => (v <=? lim L l)%float end.
Definition near (L : limits) (l : level) (v : float) : bool :=
  match l with Hihi | High => (lim L l - hyst L <=? v)%float | Lolo | Low => (v <=? lim L l + hyst L)%float end.

Definition active (L : limits) (cur : option level) (v : float) (l : level) : bool :=
  negb (sv L l =? 0) && (beyond L l v || bool_decide (cur = Some l) && near L l v).

Definition first_of (f : level -> bool) : option level := List.find f all_levels.

(** The level of [v], when the last alarm was [cur]. *)
Definition alarm_level (L : limits) (cur : option level) (v : float) : option level := first_of (active L cur v).

(** One cycle: the level's alarm is raised unless a severer one is; only then it is the
    new state. *)
Definition alarm_step (L : limits) (cur : option level) (v : float) (c : dbCommon) : option level * dbCommon :=
  match alarm_level L cur v with
  | Some l => let '(set, c) := recGblSetSevr (status_of l) (sv L l) c in (if set then Some l else cur, c)
  | None => (None, c)
  end.

(** LALM says what [cur] is. *)
Definition represents (L : limits) (lalm : float) (cur : option level) : Prop :=
  forall l, sv L l <> 0 -> (lalm =? lim L l)%float = bool_decide (cur = Some l).

(** The levels in use are different. *)
Definition distinct_limits (L : limits) : Prop :=
  forall l l', sv L l <> 0 -> sv L l' <> 0 -> l <> l' -> (lim L l =? lim L l')%float = false.

Lemma find_level (f : level -> bool) :
  List.find f all_levels =
  if f Hihi then Some Hihi else if f Lolo then Some Lolo else if f High then Some High else if f Low then Some Low else None.
Proof. reflexivity. Qed.

(** What the code tests, given LALM. *)
Definition active' (L : limits) (lalm v : float) (l : level) : bool :=
  negb (sv L l =? 0) && (beyond L l v || (lalm =? lim L l)%float && near L l v).

Lemma active_represents L lalm cur v l : represents L lalm cur -> active' L lalm v l = active L cur v l.
Proof.
  intros R. unfold active', active. destruct (Z.eqb_spec (sv L l) 0) as [E|E]; [done|]. by rewrite (R l E).
Qed.

Lemma find_represents L lalm cur v :
  represents L lalm cur -> first_of (active' L lalm v) = alarm_level L cur v.
Proof.
  intros R. unfold alarm_level, first_of. rewrite !find_level. by rewrite !(active_represents L lalm cur v).
Qed.

Lemma leb_num a b : (a <=? b)%float = true -> isnan a = false /\ isnan b = false.
Proof.
  intros H. split; [destruct (isnan a) eqn:E|destruct (isnan b) eqn:E]; try done;
    destruct (nan_cmp a b) as (_ & H2 & _); auto; congruence.
Qed.

Lemma eqb_num a : isnan a = false -> (a =? a)%float = true.
Proof. intros H. rewrite float_eqb by done. apply Z.eqb_refl. Qed.

Lemma eqb_leb a b : (a =? b)%float = true -> (a <=? b)%float = true /\ (b <=? a)%float = true.
Proof.
  intros H. assert (isnan a = false /\ isnan b = false) as [A B].
  { split; [destruct (isnan a) eqn:E|destruct (isnan b) eqn:E]; try done;
      destruct (nan_cmp a b) as (_ & _ & H2); auto; congruence. }
  rewrite float_eqb in H by done. rewrite !float_leb by done. lia.
Qed.

(** Without an alarm LALM becomes the value, which is at no level. *)
Lemma represents_value L cur v : alarm_level L cur v = None -> represents L v None.
Proof.
  intros N l S. destruct (v =? lim L l)%float eqn:E; [|done]. exfalso. apply eqb_leb in E as [E1 E2].
  assert (A : active L cur v l = false).
  { unfold alarm_level, first_of in N. apply (find_none _ _ N). unfold all_levels. destruct l; simpl; tauto. }
  unfold active in A. rewrite (proj2 (Z.eqb_neq _ _) S) in A. simpl in A. apply orb_false_iff in A as [B _].
  unfold beyond in B. destruct l; congruence.
Qed.

Lemma represents_level L cur v l :
  distinct_limits L -> (forall l, sv L l <> 0 -> isnan (lim L l) = false) -> alarm_level L cur v = Some l ->
  represents L (lim L l) (Some l).
Proof.
  intros Di Nn E l' S'. unfold alarm_level, first_of in E. apply find_some in E as [_ A]. unfold active in A.
  apply andb_true_iff in A as [S _]. apply negb_true_iff, Z.eqb_neq in S.
  destruct (decide (l = l')) as [<-|Ne].
  - rewrite bool_decide_true by done. by apply eqb_num, Nn.
  - rewrite bool_decide_false by congruence. by apply Di.
Qed.

(** Sane limits: severities are not negative, the levels in use are numbers and different. *)
Record sane (L : limits) : Prop := mkSane {
  sane_sv : forall l, 0 <= sv L l;
  sane_num : forall l, sv L l <> 0 -> isnan (lim L l) = false;
  sane_distinct : distinct_limits L }.

(** The code's cycle: LALM and the record after it. *)
Definition lalm_step (L : limits) (lalm v : float) (c : dbCommon) : float * dbCommon :=
  match first_of (active' L lalm v) with
  | Some l => let '(set, c) := recGblSetSevr (status_of l) (sv L l) c in (if set then lim L l else lalm, c)
  | None => (v, c)
  end.

(** The contract the record types implement: the code's cycle is the machine's. *)
Lemma lalm_step_refines L lalm cur v c :
  sane L -> represents L lalm cur ->
  let '(lalm', c') := lalm_step L lalm v c in
  let '(cur', c'') := alarm_step L cur v c in
  c' = c'' /\ represents L lalm' cur'.
Proof.
  intros [S1 S2 S3] R. unfold lalm_step, alarm_step. rewrite (find_represents L lalm cur v R).
  destruct (alarm_level L cur v) as [l|] eqn:E.
  - destruct (recGblSetSevr (status_of l) (sv L l) c) as [[] c1]; [|done]. split; [done|]. by eapply represents_level.
  - split; [done|]. by eapply represents_value.
Qed.
