(* ===== verification/SelRecord.v ===== *)
(** * The sel record ([modules/database/src/std/rec/selRecord.c])

    One of twelve inputs is selected: a given one, the greatest, the least or the median. *)

From stdpp Require Import base numbers list option strings sorting.
From Stdlib Require Import ZArith Lia Bool Floats Permutation.
From S2P Require Import Prelude CStdlib FloatOrder RecGbl LimitAlarm.

Open Scope string_scope.
Open Scope list_scope.
Open Scope Z_scope.

(** ** Data *)

Inductive selSELM := selSELM_Specified | selSELM_High_Signal | selSELM_Low_Signal | selSELM_Median_Signal | selSELM_bad.

Definition SEL_MAX : nat := 12.

Record selRecord := mkSel {
  sel_common : dbCommon;
  val : float;
  selm : selSELM;
  seln : Z;
  nlst : Z;
  nvl : link Z;
  inp : list (link float);      (** [INPA] ... [INPL] *)
  a : list float;               (** [A] ... [L] *)
  la : list float;              (** [LA] ... [LL] *)
  limits_of : limits;           (** HIHI ... LOW, HHSV ... LSV and HYST *)
  lalm : float;
  mdel : float;
  adel : float;
  mlst : float;
  alst : float }.

(** Assignments to the fields. *)
Definition set_sel (r : selRecord) (c : dbCommon) (v : float) (n : Z) : selRecord :=
  mkSel c v (selm r) n (nlst r) (nvl r) (inp r) (a r) (la r) (limits_of r) (lalm r) (mdel r) (adel r) (mlst r) (alst r).
Definition set_c (r : selRecord) (c : dbCommon) : selRecord := set_sel r c (val r) (seln r).
Definition set_inputs (r : selRecord) (c : dbCommon) (n : Z) (x : list float) : selRecord :=
  mkSel c (val r) (selm r) n (nlst r) (nvl r) (inp r) x (la r) (limits_of r) (lalm r) (mdel r) (adel r) (mlst r) (alst r).
Definition set_lalm (r : selRecord) (c : dbCommon) (x : float) : selRecord :=
  mkSel c (val r) (selm r) (seln r) (nlst r) (nvl r) (inp r) (a r) (la r) (limits_of r) x (mdel r) (adel r) (mlst r) (alst r).
Definition set_monitor (r : selRecord) (c : dbCommon) (n : Z) (l : list float) (m al : float) : selRecord :=
  mkSel c (val r) (selm r) (seln r) n (nvl r) (inp r) (a r) l (limits_of r) (lalm r) (mdel r) (adel r) m al.

(** The names of the input fields. *)
Definition input_names : list string := ["A"; "B"; "C"; "D"; "E"; "F"; "G"; "H"; "I"; "J"; "K"; "L"].

(** ** Operations *)

(** [recGblInitConstantLink] for the links: the constants they hold. *)
Definition init_record (r : selRecord) (seln_const : option Z) (consts : list (option float)) : selRecord :=
  set_inputs r (sel_common r) (default (seln r) seln_const) (map (default epicsNAN) consts).

(** *** [fetch_values] *)

Fixpoint fetch_all (links : list (link float)) (values : list float) (status : Z) (c : dbCommon) : Z * list float * dbCommon :=
  match links, values with
  | l :: links, v :: values =>
      let '(status, v, c) := dbGetLink l v c in
      let '(status, values, c) := fetch_all links values status c in
      (status, v :: values, c)
  | _, _ => (status, values, c)
  end.

Definition fetch_values (r : selRecord) : Z * selRecord :=
  match selm r with
  | selSELM_Specified =>
      let '(status, n, c) := dbGetLink (nvl r) (seln r) (sel_common r) in
      let r := set_inputs r c n (a r) in
      if negb (status =? 0) || (Z.of_nat SEL_MAX <=? n) then (status, r)
      else
        match inp r !! Z.to_nat n, a r !! Z.to_nat n with
        | Some l, Some v =>
            let '(status, v, c) := dbGetLink l v (sel_common r) in
            (status, set_inputs r c n (<[Z.to_nat n := v]> (a r)))
        | _, _ => (status, r)
        end
  | _ =>
      let '(status, x, c) := fetch_all (inp r) (a r) 0 (sel_common r) in
      (status, set_inputs r c (seln r) x)
  end.

(** *** [do_sel] *)

(** The loop over the inputs for the greatest ([better v x] is [v < x]) or the least one. *)
Fixpoint pick (better : float -> float -> bool) (i : Z) (inputs : list float) (v : float) (n : Z) : float * Z :=
  match inputs with
  | [] => (v, n)
  | x :: inputs =>
      if negb (isnan x) && better v x then pick better (i + 1) inputs x i else pick better (i + 1) inputs v n
  end.

(** Insertion into [order]: move the greater values up, from [order[j - 1]] down. *)
Fixpoint shift (j : nat) (v : float) (order : list float) : list float :=
  match j with
  | O => <[O := v]> order
  | S j' =>
      match order !! j' with
      | Some x => if (v <? x)%float then shift j' v (<[j := x]> order) else <[j := v]> order
      | None => order
      end
  end.

Fixpoint sort_inputs (inputs : list float) (count : nat) (order : list float) : nat * list float :=
  match inputs with
  | [] => (count, order)
  | x :: inputs => if isnan x then sort_inputs inputs count order else sort_inputs inputs (S count) (shift count x order)
  end.

(** The array [order] as it is declared; what it holds apart from [order[0]] is not used. *)
Definition fresh_order : list float := epicsNAN :: replicate (SEL_MAX - 1) 0%float.

Definition do_sel (r : selRecord) : selRecord :=
  let finish v n := set_sel r (set_udf (sel_common r) (isnan v)) v n in
  match selm r with
  | selSELM_Specified =>
      if Z.of_nat SEL_MAX <=? seln r then set_c r (snd (recGblSetSevr SOFT_ALARM INVALID_ALARM (sel_common r)))
      else finish (default epicsNAN (a r !! Z.to_nat (seln r))) (seln r)
  | selSELM_High_Signal =>
      let '(v, n) := pick PrimFloat.ltb 0 (a r) (- epicsINF)%float (seln r) in finish v n
  | selSELM_Low_Signal =>
      let '(v, n) := pick (fun v x => PrimFloat.ltb x v) 0 (a r) epicsINF (seln r) in finish v n
  | selSELM_Median_Signal =>
      let '(count, order) := sort_inputs (a r) 0 fresh_order in
      finish (default epicsNAN (order !! (count / 2)%nat)) (Z.of_nat count)
  | selSELM_bad => set_c r (snd (recGblSetSevr CALC_ALARM INVALID_ALARM (sel_common r)))
  end.

(** *** [checkAlarms] *)

Definition checkAlarms (r : selRecord) : selRecord :=
  let c := sel_common r in
  if udf c then set_c r (snd (recGblSetSevr UDF_ALARM (udfs c) c))
  else
    let v := val r in
    let L := limits_of r in
    let hyst := hyst L in
    let raise st asev alev :=
      let '(set, c) := recGblSetSevr st asev c in
      if set then set_lalm r c alev else set_c r c in
    let above asev alev := negb (asev =? 0) && ((alev <=? v)%float || (lalm r =? alev)%float && (alev - hyst <=? v)%float) in
    let below asev alev := negb (asev =? 0) && ((v <=? alev)%float || (lalm r =? alev)%float && (v <=? alev + hyst)%float) in
    if above (sv L Hihi) (lim L Hihi) then raise HIHI_ALARM (sv L Hihi) (lim L Hihi)
    else if below (sv L Lolo) (lim L Lolo) then raise LOLO_ALARM (sv L Lolo) (lim L Lolo)
    else if above (sv L High) (lim L High) then raise HIGH_ALARM (sv L High) (lim L High)
    else if below (sv L Low) (lim L Low) then raise LOW_ALARM (sv L Low) (lim L Low)
    else set_lalm r c v.

(** *** [monitor] *)

(** The inputs that changed are posted. *)
Fixpoint post_inputs (names : list string) (new prev : list float) (mask : Z) (c : dbCommon) : list float * dbCommon :=
  match names, new, prev with
  | name :: names, x :: new, p :: prev =>
      let '(p, c) := if negb (x =? p)%float then (x, db_post_events name mask c) else (p, c) in
      let '(prev, c) := post_inputs names new prev mask c in
      (p :: prev, c)
  | _, _, _ => (prev, c)
  end.

Definition monitor (r : selRecord) : selRecord :=
  let '(mask, c) := recGblResetAlarms (sel_common r) in
  let '(m, mask) := recGblCheckDeadband (mlst r) (val r) (mdel r) mask DBE_VALUE in
  let '(al, mask) := recGblCheckDeadband (alst r) (val r) (adel r) mask DBE_ARCHIVE in
  let c := if negb (mask =? 0) then db_post_events "VAL" mask c else c in
  let mask := Z.lor mask (Z.lor DBE_VALUE DBE_LOG) in
  let '(n, c) := if negb (nlst r =? seln r) then (seln r, db_post_events "SELN" mask c) else (nlst r, c) in
  let '(l, c) := post_inputs input_names (a r) (la r) mask c in
  set_monitor r c n l m al.

Definition process (env : time_env) (r : selRecord) : selRecord :=
  let r := set_c r (set_pact (sel_common r) true) in
  let '(status, r) := fetch_values r in
  let r := if status =? 0 then do_sel r else r in
  let r := set_c r (recGblGetTimeStamp env (sel_common r)) in
  let r := checkAlarms r in
  let r := monitor r in
  set_c r (set_pact (recGblFwdLink (sel_common r)) false).

(** ** The selection *)

Definition key_le (x y : float) : Prop := fkey x <= fkey y.

(** *** Extremes *)

(** [v] is the first greatest one (for [sgn = 1]) or least one ([-1]) of the inputs that are numbers. *)
Definition extreme (sgn : Z) (inputs : list float) (v : float) (n : Z) : Prop :=
  0 <= n /\ inputs !! Z.to_nat n = Some v /\ isnan v = false /\
  forall j x, inputs !! j = Some x -> isnan x = false ->
    sgn * fkey x <= sgn * fkey v /\ (Z.of_nat j < n -> sgn * fkey x < sgn * fkey v).

Section Pick.
Variables (better : float -> float -> bool) (sgn : Z).
Hypothesis B : forall v x, isnan v = false -> isnan x = false -> better v x = (sgn * fkey v <? sgn * fkey x).

  (** The loop after the inputs [done]: the value so far bounds them all. *)
Lemma pick_from rest : forall seen v n,
    isnan v = false ->
    (forall j x, seen !! j = Some x -> isnan x = false -> sgn * fkey x <= sgn * fkey v) ->
    pick better (zlen seen) rest v n = (v, n) /\
      (forall j x, (seen ++ rest) !! j = Some x -> isnan x = false -> sgn * fkey x <= sgn * fkey v) \/
    (let '(w, m) := pick better (zlen seen) rest v n in extreme sgn (seen ++ rest) w m /\ zlen seen <= m).
Proof.
    induction rest as [|x rest IH]; intros seen v n Nv Hs; cbn [pick].
    - left. split; [done|]. by rewrite app_nil_r.
    - replace (zlen seen + 1) with (zlen (seen ++ [x])) by (rewrite length_app; simpl; lia).
      replace (seen ++ x :: rest) with ((seen ++ [x]) ++ rest) by (by rewrite <- List.app_assoc).
      assert (Sn : forall j y, (seen ++ [x]) !! j = Some y -> seen !! j = Some y \/ j = length seen /\ y = x).
      { intros j y H. apply lookup_app_Some in H as [H|[L H]]; [by left|right].
        apply list_lookup_singleton_Some in H as [H ->]. split; [lia|done]. }
      destruct (isnan x) eqn:Nx; cbn [negb andb].
      + destruct (IH (seen ++ [x]) v n Nv) as [H|H].
        * intros j y H Ny. apply Sn in H as [H|[_ ->]]; [by eapply Hs|congruence].
        * by left.
        * right. destruct (pick _ _ _ _ _) as [w m]. rewrite length_app in H. simpl in H. split; [apply H|lia].
      + rewrite (B v x Nv Nx). destruct (Z.ltb_spec (sgn * fkey v) (sgn * fkey x)) as [L|L].
        * right. destruct (IH (seen ++ [x]) x (zlen seen) Nx) as [[E H]|H].
          -- intros j y H Ny. apply Sn in H as [H|[_ ->]]; [|lia]. specialize (Hs j y H Ny). lia.
          -- rewrite E. split; [|lia]. split; [lia|]. rewrite Nat2Z.id. split_and!.
             ++ rewrite <- List.app_assoc. by apply list_lookup_middle.
             ++ done.
             ++ intros j y Hy Ny. split; [by eapply H|]. intros Lj.
                rewrite <- List.app_assoc, lookup_app_l in Hy by lia. specialize (Hs j y Hy Ny). lia.
          -- destruct (pick _ _ _ _ _) as [w m]. rewrite length_app in H. simpl in H. split; [apply H|lia].
        * destruct (IH (seen ++ [x]) v n Nv) as [H|H].
          -- intros j y H Ny. apply Sn in H as [H|[_ ->]]; [by eapply Hs|lia].
          -- by left.
          -- right. destruct (pick _ _ _ _ _) as [w m]. rewrite length_app in H. simpl in H. split; [apply H|lia].
  Qed.
End Pick.

Lemma key_inf : fkey (- epicsINF)%float = - 2 ^ 2100 /\ fkey epicsINF = 2 ^ 2100.
Proof. split; vm_compute; reflexivity. Qed.

(** *** The median *)

Lemma shift_spec v s : forall x0 rest,
  exists p q, s = p ++ q /\ shift (length s) v (s ++ x0 :: rest) = p ++ v :: q ++ rest /\
    Forall (fun y => (v <? y)%float = true) q /\
    match last p with Some y => (v <? y)%float = false | None => True end.
Proof.
  induction s as [|y s IH] using rev_ind; intros x0 rest.
  - exists [], []. by split_and!.
  - rewrite length_app, Nat.add_comm. cbn [length Nat.add shift].
    rewrite <- List.app_assoc. cbn [app]. rewrite list_lookup_middle by done.
    assert (U : forall z, <[S (length s) := z]> (s ++ y :: x0 :: rest) = s ++ y :: z :: rest).
    { intros z. rewrite insert_app_r_alt by lia. by replace (S (length s) - length s)%nat with 1%nat by lia. }
    rewrite !U. destruct (v <? y)%float eqn:L.
    + destruct (IH y (y :: rest)) as (p & q & -> & E & F & La). rewrite E. exists p, (q ++ [y]).
      split_and!; [by rewrite <- List.app_assoc|by rewrite <- List.app_assoc| |done].
      apply Forall_app. split; [done|by constructor].
    + exists (s ++ [y]), []. split_and!; [by rewrite app_nil_r|by rewrite <- List.app_assoc|done|]. by rewrite last_snoc.
Qed.

Lemma insert_strongly_sorted v p q :
  isnan v = false -> Forall (fun y => isnan y = false) (p ++ q) -> StronglySorted key_le (p ++ q) ->
  Forall (fun y => (v <? y)%float = true) q -> match last p with Some y => (v <? y)%float = false | None => True end ->
  StronglySorted key_le (p ++ v :: q).
Proof.
  intros Nv N S Fq Lp. apply StronglySorted_app in S as (S1 & S2 & S3). apply Forall_app in N as [Np Nq].
  assert (Vq : Forall (key_le v) q).
  { rewrite Forall_forall in Fq, Nq |- *. intros y Y. specialize (Fq y Y). rewrite float_ltb in Fq by auto. unfold key_le. lia. }
  assert (Pv : Forall (fun x => key_le x v) p).
  { destruct (last p) as [y|] eqn:La; [|by apply last_None in La as ->].
    apply last_Some in La as [p' ->]. apply StronglySorted_app in S2 as (S4 & _ & _). apply Forall_app in Np as [_ Ny].
    inversion Ny; subst. rewrite float_ltb in Lp by done. apply Z.ltb_ge in Lp.
    apply Forall_forall. intros x [X|X]%elem_of_app; [|apply list_elem_of_singleton in X as ->; exact Lp].
    specialize (S4 x y X ltac:(by apply list_elem_of_singleton)). unfold key_le in *. lia. }
  apply StronglySorted_app_2; [|done|by constructor].
  intros x y X Y. rewrite Forall_forall in Pv. apply elem_of_cons in Y as [->|Y]; [by apply Pv|]. by apply S1.
Qed.

Lemma sort_inputs_spec inputs : forall s order,
  (exists rest, order = s ++ rest /\ (length inputs <= length rest)%nat) ->
  Forall (fun y => isnan y = false) s -> StronglySorted key_le s ->
  exists s' rest', sort_inputs inputs (length s) order = (length s', s' ++ rest') /\
    s' ≡ₚ s ++ List.filter (fun x => negb (isnan x)) inputs /\ StronglySorted key_le s' /\
    (s' = s -> s' ++ rest' = order).
Proof.
  induction inputs as [|x inputs IH]; intros s order (rest & -> & L) N So; cbn [sort_inputs List.filter].
  - exists s, rest. rewrite app_nil_r. by split_and!.
  - destruct (isnan x) eqn:Nx; cbn [negb].
    + apply IH; [|done|done]. exists rest. simpl in L. split; [done|lia].
    + destruct rest as [|x0 rest]; [simpl in L; lia|].
      destruct (shift_spec x s x0 rest) as (p & q & -> & E & Fq & Lp). rewrite E.
      replace (Datatypes.S (length (p ++ q))) with (length (p ++ x :: q)) by (rewrite !length_app; simpl; lia).
      destruct (IH (p ++ x :: q) (p ++ x :: q ++ rest)) as (s' & rest' & E' & P & S' & _).
      * exists rest. simpl in L. split; [by rewrite <- List.app_assoc|lia].
      * apply Forall_app in N as [N1 N2]. apply Forall_app. split; [done|by constructor].
      * by apply insert_strongly_sorted.
      * exists s', rest'. split_and!; [done| |done|].
        -- rewrite P. rewrite <- !List.app_assoc. simpl. solve_Permutation.
        -- intros ->. apply Permutation_length in P. rewrite !length_app in P. simpl in P. lia.
Qed.

(** ** Properties *)

(** No input is a number on this side of the start value. *)
Definition none_better (sgn : Z) (start : float) (inputs : list float) : Prop :=
  forall x, x ∈ inputs -> isnan x = false -> sgn * fkey x <= sgn * fkey start.

Lemma pick_spec better sgn inputs start n0 :
  (forall v x, isnan v = false -> isnan x = false -> better v x = (sgn * fkey v <? sgn * fkey x)) ->
  isnan start = false -> (forall x, isnan x = false -> sgn * fkey start <= sgn * fkey x) ->
  let '(v, n) := pick better 0 inputs start n0 in
  extreme sgn inputs v n \/ none_better sgn start inputs /\ v = start /\ n = n0.
Proof.
  intros B N Le. destruct (pick_from better sgn B inputs [] start n0 N) as [[E H]|H].
  - intros j x Hx. by rewrite lookup_nil in Hx.
  - change (zlen (@nil float)) with 0 in E. rewrite E. right. split_and!; [|done|done].
    intros x Hx Nx. apply list_elem_of_lookup in Hx as [j Hj]. by eapply H.
  - change (zlen (@nil float)) with 0 in H. destruct (pick better 0 inputs start n0) as [w m]. left. apply H.
Qed.

Lemma fkey_range f : - 2 ^ 2100 <= fkey f <= 2 ^ 2100.
Proof.
  unfold fkey. pose proof (Prim2SF_ok f) as O. assert (P : 0 < 2 ^ 2100) by (apply Z.pow_pos_nonneg; lia).
  destruct (Prim2SF f) as [s|s| |s m e]; cbn [sf_key].
  - lia.
  - destruct s; lia.
  - lia.
  - destruct O as (O1 & O2 & _). pose proof (finite_key_bound m e O1 O2). destruct s; lia.
Qed.

(** (C19) High Signal and Low Signal give VAL the greatest or the least input that is a number and
    SELN the index of the first such input; when no input is a number above minus infinity
    (below infinity) VAL is that infinity and SELN is kept.  In both cases the record is
    not undefined afterwards. *)
Theorem sel_selects_extreme r :
  selm r = selSELM_High_Signal \/ selm r = selSELM_Low_Signal ->
  let r' := do_sel r in
  let '(sgn, start) := match selm r with selSELM_High_Signal => (1, (- epicsINF)%float) | _ => (-1, epicsINF) end in
  (extreme sgn (a r) (val r') (seln r') \/ none_better sgn start (a r) /\ val r' = start /\ seln r' = seln r) /\
  udf (sel_common r') = false /\ nsev (sel_common r') = nsev (sel_common r).
Proof.
  pose proof key_inf as [K1 K2]. intros [E|E]; unfold do_sel; rewrite E; cbv zeta.
  - pose proof (pick_spec PrimFloat.ltb 1 (a r) (- epicsINF)%float (seln r)) as H.
    destruct (pick _ _ _ _ _) as [v n]. cbn [val seln sel_common set_sel udf set_udf nsev].
    destruct H as [H|(H & -> & ->)].
    + intros v' x Nv Nx. rewrite float_ltb by done. by rewrite !Z.mul_1_l.
    + reflexivity.
    + intros x _. rewrite K1. pose proof (fkey_range x). lia.
    + split_and!; [by left|apply H|done].
    + split_and!; [by right|reflexivity|done].
  - pose proof (pick_spec (fun v x => PrimFloat.ltb x v) (-1) (a r) epicsINF (seln r)) as H.
    destruct (pick _ _ _ _ _) as [v n]. cbn [val seln sel_common set_sel udf set_udf nsev].
    destruct H as [H|(H & -> & ->)].
    + intros v' x Nv Nx. rewrite float_ltb by done.
      destruct (Z.ltb_spec (fkey x) (fkey v')), (Z.ltb_spec (-1 * fkey v') (-1 * fkey x)); lia.
    + reflexivity.
    + intros x _. rewrite K2. pose proof (fkey_range x). lia.
    + split_and!; [by left|apply H|done].
    + split_and!; [by right|reflexivity|done].
Qed.

Definition no_limits : limits := mkLimits (fun _ => 0%float) (fun _ => 0) 0.

Definition sample_sel (m : selSELM) (x : list float) : selRecord :=
  mkSel quiet_record 0 m 0 0 link_none (replicate 12 link_none) x (replicate 12 0%float) no_limits 0 0 0 0 0.

Definition sample_inputs : list float := [nan; 3; -1; nan; 7; 7; 0; nan; 2; -5; 4; nan]%float.

Lemma sel_selects_extreme_witness :
  let r := sample_sel selSELM_High_Signal sample_inputs in
  let r' := do_sel r in
  (extreme 1 (a r) (val r') (seln r') \/ none_better 1 (- epicsINF)%float (a r) /\ val r' = (- epicsINF)%float /\ seln r' = 0) /\
  udf (sel_common r') = false /\ nsev (sel_common r') = 0.
Proof. apply (sel_selects_extreme (sample_sel selSELM_High_Signal sample_inputs)). by left. Defined.

(** (C26) Median Signal sorts the inputs that are numbers: SELN is their number k and VAL is
    the element k/2 of the sorted list, so that at least k/2 of them are not greater and at
    least k - k/2 not less; without such an input VAL is NaN and the record is undefined. *)
Theorem sel_selects_median r :
  selm r = selSELM_Median_Signal -> length (a r) = SEL_MAX ->
  let r' := do_sel r in
  exists s, s ≡ₚ List.filter (fun x => negb (isnan x)) (a r) /\ StronglySorted key_le s /\
    seln r' = zlen s /\ val r' = default epicsNAN (s !! (length s / 2)%nat) /\
    (udf (sel_common r') = true <-> s = []).
Proof.
  intros E L. unfold do_sel. rewrite E. cbv zeta.
  destruct (sort_inputs_spec (a r) [] fresh_order) as (s & rest & Eo & P & S & Em).
  { exists fresh_order. split; [done|]. rewrite L. by apply Nat.leb_le. }
  { constructor. } { constructor. }
  cbn [length] in Eo. rewrite Eo. exists s. simpl app in P. cbn [val seln sel_common set_sel udf set_udf].
  assert (N : Forall (fun x => isnan x = false) s).
  { rewrite P. apply Forall_forall. intros x [_ Hx]%list_elem_of_In%filter_In. by apply negb_true_iff. }
  destruct (decide (s = [])) as [->|Ne].
  - rewrite (Em eq_refl). split_and!; done.
  - assert (Lt : (length s / 2 < length s)%nat) by (apply Nat.div_lt; [destruct s; simpl; [done|lia]|lia]).
    rewrite lookup_app_l by done. destruct (lookup_lt_is_Some_2 s _ Lt) as [v Hv].
    split_and!; try done. rewrite Hv. simpl. split; [|done]. intros Nv.
    rewrite Forall_forall in N. rewrite (N v) in Nv; [done|]. by eapply list_elem_of_lookup_2.
Qed.

Lemma sel_selects_median_witness :
  let r := sample_sel selSELM_Median_Signal sample_inputs in
  let r' := do_sel r in
  exists s, s ≡ₚ List.filter (fun x => negb (isnan x)) (a r) /\ StronglySorted key_le s /\
    seln r' = zlen s /\ val r' = default epicsNAN (s !! (length s / 2)%nat) /\
    (udf (sel_common r') = true <-> s = []).
Proof. apply (sel_selects_median (sample_sel selSELM_Median_Signal sample_inputs)); reflexivity. Defined.

Lemma checkAlarms_step r :
  udf (sel_common r) = false ->
  checkAlarms r = let '(x, c) := lalm_step (limits_of r) (lalm r) (val r) (sel_common r) in set_lalm r c x.
Proof.
  intros U. unfold checkAlarms, lalm_step, first_of. rewrite U, find_level. unfold active', beyond, near. cbv zeta.
  repeat match goal with |- context [if ?b then _ else _] =>
    match b with context [negb] => destruct b end end; try done;
    unfold status_of; destruct (recGblSetSevr _ _ _) as [[] c]; done.
Qed.

(** (C21) The alarms of a sel record are those of the limit alarm machine: in every cycle
    [checkAlarms] raises the alarm the machine raises (the first of HIHI, LOLO, HIGH, LOW whose
    level the value is beyond, or from which it has not come back by more than HYST when it
    was the last alarm), and LALM goes on to say what the state of the machine is. *)
Theorem sel_alarm_refines r cur :
  udf (sel_common r) = false -> sane (limits_of r) -> represents (limits_of r) (lalm r) cur ->
  let '(cur', c) := alarm_step (limits_of r) cur (val r) (sel_common r) in
  sel_common (checkAlarms r) = c /\ represents (limits_of r) (lalm (checkAlarms r)) cur'.
Proof.
  intros U Sa R. rewrite (checkAlarms_step r U).
  pose proof (lalm_step_refines (limits_of r) (lalm r) cur (val r) (sel_common r) Sa R) as H.
  destruct (lalm_step _ _ _ _) as [x c], (alarm_step _ _ _ _) as [cur' c'']. by destruct H as [-> H].
Qed.

Definition sample_limits : limits :=
  mkLimits (fun l => match l with Hihi => 90 | High => 80 | Low => 20 | Lolo => 10 end)%float
    (fun l => match l with Hihi | Lolo => 2 | _ => 1 end) 5.

Lemma sample_sane : sane sample_limits.
Proof.
  constructor; [intros []; simpl; lia|by intros []|]. intros [] [] _ _ N; (reflexivity || done).
Qed.

Definition alarmed_sel : selRecord :=
  mkSel quiet_record 87 selSELM_High_Signal 0 0 link_none [] [] [] sample_limits 90 0 0 0 0.

Lemma sel_alarm_refines_witness :
  alarm_step sample_limits (Some Hihi) 87 quiet_record = (Some Hihi, set_new quiet_record HIHI_ALARM 2) /\
  sel_common (checkAlarms alarmed_sel) = set_new quiet_record HIHI_ALARM 2 /\
  represents sample_limits (lalm (checkAlarms alarmed_sel)) (Some Hihi).
Proof.
  split; [reflexivity|]. apply (sel_alarm_refines alarmed_sel (Some Hihi)); [reflexivity|apply sample_sane|].
  intros [] _; reflexivity.
Defined.
