(* ===== verification/HistogramRecord.v ===== *)
(** * The histogram record ([modules/database/src/std/rec/histogramRecord.c])

    The values of a signal are counted in [NELM] bins of equal width.  The device support is an argument of the
    definitions that call it; {!devHistogramSoft} is the one of [std/dev/devHistogramSoft.c].  A
    write outside of the array of bins is a fault. *)

From stdpp Require Import base numbers list option strings.
From Stdlib Require Import ZArith Lia Bool Floats.
From S2P Require Import Prelude CStdlib FloatOrder RecGbl.

Open Scope string_scope.
Open Scope list_scope.
Open Scope Z_scope.

(** ** Data *)

Record histogramRecord := mkHisto {
  hcommon : dbCommon;
  nelm : Z;
  csta : bool;
  cmd : Z;
  ulim : float;
  llim : float;
  wdth : float;
  sgnl : float;
  svl : link float;
  bins : list Z;                (** the array at [BPTR] *)
  hmdel : Z;
  mcnt : Z;
  sdel : float;
  wdog : bool;                  (** the watchdog's callback is allocated *)
  siol : link float;
  sval : float;
  siml : link Z;
  simm : Z;
  sims : Z;
  oldsimm : Z;
  sscn : Z;
  sdly : float }.

Inductive hi_fault := hi_write (index : Z).
Notation hi A := (hi_fault + A)%type.

(** Assignments to the fields. *)
Definition set_hc (r : histogramRecord) (c : dbCommon) : histogramRecord :=
  mkHisto c (nelm r) (csta r) (cmd r) (ulim r) (llim r) (wdth r) (sgnl r) (svl r) (bins r) (hmdel r) (mcnt r) (sdel r)
    (wdog r) (siol r) (sval r) (siml r) (simm r) (sims r) (oldsimm r) (sscn r) (sdly r).
Definition set_counts (r : histogramRecord) (b : list Z) (m : Z) : histogramRecord :=
  mkHisto (hcommon r) (nelm r) (csta r) (cmd r) (ulim r) (llim r) (wdth r) (sgnl r) (svl r) b (hmdel r) m (sdel r)
    (wdog r) (siol r) (sval r) (siml r) (simm r) (sims r) (oldsimm r) (sscn r) (sdly r).
Definition set_signal (r : histogramRecord) (s v : float) : histogramRecord :=
  mkHisto (hcommon r) (nelm r) (csta r) (cmd r) (ulim r) (llim r) (wdth r) s (svl r) (bins r) (hmdel r) (mcnt r) (sdel r)
    (wdog r) (siol r) v (siml r) (simm r) (sims r) (oldsimm r) (sscn r) (sdly r).
Definition set_cmd (r : histogramRecord) (run : bool) (c : Z) : histogramRecord :=
  mkHisto (hcommon r) (nelm r) run c (ulim r) (llim r) (wdth r) (sgnl r) (svl r) (bins r) (hmdel r) (mcnt r) (sdel r)
    (wdog r) (siol r) (sval r) (siml r) (simm r) (sims r) (oldsimm r) (sscn r) (sdly r).
Definition set_geometry (r : histogramRecord) (n : Z) (w : float) (b : list Z) : histogramRecord :=
  mkHisto (hcommon r) n (csta r) (cmd r) (ulim r) (llim r) w (sgnl r) (svl r) b (hmdel r) (mcnt r) (sdel r)
    (wdog r) (siol r) (sval r) (siml r) (simm r) (sims r) (oldsimm r) (sscn r) (sdly r).
Definition set_wdog (r : histogramRecord) (c : dbCommon) (w : bool) : histogramRecord :=
  mkHisto c (nelm r) (csta r) (cmd r) (ulim r) (llim r) (wdth r) (sgnl r) (svl r) (bins r) (hmdel r) (mcnt r) (sdel r)
    w (siol r) (sval r) (siml r) (simm r) (sims r) (oldsimm r) (sscn r) (sdly r).
Definition set_simm (r : histogramRecord) (c : dbCommon) (ss os sm : Z) : histogramRecord :=
  mkHisto c (nelm r) (csta r) (cmd r) (ulim r) (llim r) (wdth r) (sgnl r) (svl r) (bins r) (hmdel r) (mcnt r) (sdel r)
    (wdog r) (siol r) (sval r) (siml r) sm (sims r) os ss (sdly r).

(** Arithmetic on the [DBF_SHORT] field MCNT. *)
Definition s16 (z : Z) : Z := wrap_s 16 z.

Definition UINT_MAX : Z := 2 ^ 32 - 1.

(** ** Operations *)

(** *** Counting *)

(** The loop over the upper ends of the bins, from the [i]-th on: where it stops. *)
Fixpoint bin_loop (n : nat) (i : Z) (temp wdth : float) : Z :=
  match n with
  | O => i
  | S n => if (temp <=? Z2F i * wdth)%float then i else bin_loop n (i + 1) temp wdth
  end.

(** The returned value and the record. *)
Definition add_count (r : histogramRecord) : hi (Z * histogramRecord) :=
  if negb (csta r) then inr (0, r)
  else if (ulim r <=? llim r)%float && (nsev (hcommon r) <? INVALID_ALARM) then
    inr (-1, set_hc r (set_current (hcommon r) SOFT_ALARM INVALID_ALARM))
  else if (sgnl r <? llim r)%float || (ulim r <=? sgnl r)%float then inr (0, r)
  else
    let temp := (sgnl r - llim r)%float in
    let i := bin_loop (Z.to_nat (nelm r)) 1 temp (wdth r) in
    match bins r !! Z.to_nat (i - 1) with
    | Some count =>
        let count := if count =? UINT_MAX then 0 else count in
        inr (0, set_counts r (<[Z.to_nat (i - 1) := count + 1]> (bins r)) (s16 (mcnt r + 1)))
    | None => inl (hi_write (i - 1))
    end.

Definition clear_histogram (r : histogramRecord) : histogramRecord :=
  let r := set_counts r (replicate (Z.to_nat (nelm r)) 0 ++ drop (Z.to_nat (nelm r)) (bins r)) (s16 (hmdel r + 1)) in
  set_hc r (set_udf (hcommon r) false).

(** *** The watchdog *)

Definition wdogCallback (env : time_env) (r : histogramRecord) : histogramRecord :=
  let r :=
    if 0 <? mcnt r then
      let c := recGblGetTimeStamp env (hcommon r) in
      let c := db_post_events "VAL" (Z.lor DBE_VALUE DBE_LOG) c in
      set_counts (set_hc r c) (bins r) 0
    else r in
  if (0 <? sdel r)%float then set_hc r (emit (RequestDelayed (sdel r)) (hcommon r)) else r.

Definition wdogInit (r : histogramRecord) : Z * histogramRecord :=
  let r := if negb (wdog r) && (0 <? sdel r)%float then set_wdog r (hcommon r) true else r in
  if negb (wdog r) then (-1, r)
  else if (0 <? sdel r)%float then (0, set_hc r (emit (RequestDelayed (sdel r)) (hcommon r)))
  else (0, r).

(** *** Initialisation and special processing *)

Definition init_pass0 (r : histogramRecord) : histogramRecord :=
  let n := if nelm r <=? 0 then 1 else nelm r in
  let r := if decide (bins r = []) then set_geometry r n (wdth r) (replicate (Z.to_nat n) 0) else r in
  set_geometry r (nelm r) ((ulim r - llim r) / Z2F (nelm r))%float (bins r).

(** What the field that was written asks for. *)
Inductive special_kind := special_simm | special_calc | special_mod | special_reset_sdel | special_reset | special_bad.

Definition special (r : histogramRecord) (k : special_kind) (after : bool) : hi (Z * histogramRecord) :=
  match k, after with
  | special_simm, false => inr (0, set_simm r (hcommon r) (sscn r) (recGblSaveSimm (sscn r) (oldsimm r) (simm r)) (simm r))
  | special_simm, true =>
      let '(c, ss) := recGblCheckSimm (hcommon r) (sscn r) (oldsimm r) (simm r) in
      inr (0, set_simm r c ss (oldsimm r) (simm r))
  | _, false => inr (0, r)
  | special_calc, true =>
      if cmd r <=? 1 then let r := clear_histogram r in inr (0, set_cmd r (csta r) 0)
      else if cmd r =? 2 then inr (0, set_cmd r true 0)
      else if cmd r =? 3 then inr (0, set_cmd r false 0)
      else inr (0, r)
  | special_mod, true => let* '(_, r) := add_count r in inr (0, r)
  | special_reset_sdel, true => inr (0, snd (wdogInit r))
  | special_reset, true =>
      inr (0, clear_histogram (set_geometry r (nelm r) ((ulim r - llim r) / Z2F (nelm r))%float (bins r)))
  | special_bad, true => inr (511 * 65536 + 13, r)
  end.

(** *** Processing *)

Definition monitor (r : histogramRecord) : histogramRecord :=
  let '(mask, c) := recGblResetAlarms (hcommon r) in
  let r := set_hc r c in
  let '(mask, r) :=
    if hmdel r <? mcnt r then (Z.lor mask (Z.lor DBE_VALUE DBE_LOG), set_counts r (bins r) 0) else (mask, r) in
  if negb (mask =? 0) then set_hc r (db_post_events "VAL" mask (hcommon r)) else r.

(** The device support: its [read_histogram] is given the record and returns its status. *)
Definition histogramdset : Type := histogramRecord -> Z * histogramRecord.

Definition devHistogramSoft : histogramdset := fun r =>
  let '(_, v, c) := dbGetLink (svl r) (sgnl r) (hcommon r) in
  (0, set_hc (set_signal r v (sval r)) c).

Definition readValue (dset : histogramdset) (r : histogramRecord) : Z * histogramRecord :=
  let r :=
    if negb (pact (hcommon r)) then
      let '(c, ss, os, sm) := recGblGetSimm (siml r) (sscn r) (oldsimm r) (simm r) (hcommon r) in set_simm r c ss os sm
    else r in
  if simm r =? 0 then dset r
  else if simm r =? 1 then
    let r := set_hc r (snd (recGblSetSevr SIMM_ALARM (sims r) (hcommon r))) in
    if pact (hcommon r) || (sdly r <? 0)%float then
      let '(status, v, c) := dbGetLink (siol r) (sval r) (hcommon r) in
      let r := set_hc (set_signal r (sgnl r) v) c in
      let r := if status =? 0 then set_hc (set_signal r (sval r) (sval r)) (set_udf (hcommon r) false) else r in
      (status, set_hc r (set_pact (hcommon r) false))
    else
      (0, set_hc r (set_pact (emit (RequestDelayed (sdly r)) (hcommon r)) true))
  else (-1, set_hc r (snd (recGblSetSevr SOFT_ALARM INVALID_ALARM (hcommon r)))).

Definition S_dev_missingSup : Z := 514 * 65536 + 5.

Definition process (env : time_env) (dset : option histogramdset) (r : histogramRecord) : hi (Z * histogramRecord) :=
  match dset with
  | None => inr (S_dev_missingSup, set_hc r (set_pact (hcommon r) true))
  | Some dset =>
      let was := pact (hcommon r) in
      let '(status, r) := readValue dset r in
      if negb was && pact (hcommon r) then inr (0, r)
      else
        let r := set_hc r (set_pact (hcommon r) true) in
        let r := set_hc r (recGblGetTimeStampSimm env (negb (simm r =? 0)) (hcommon r)) in
        let* r := (if status =? 0 then let* '(_, r) := add_count r in inr r else inr r) in
        let status := if status =? 2 then 0 else status in
        let r := monitor r in
        let r := set_hc r (recGblFwdLink (hcommon r)) in
        inr (status, set_hc r (set_pact (hcommon r) false))
  end.

(** ** Counting *)

Definition inside (r : histogramRecord) : bool := negb ((sgnl r <? llim r)%float || (ulim r <=? sgnl r)%float).

(** The signal is not above the upper end of bin [k]. *)
Definition below_end (r : histogramRecord) (k : Z) : bool := (sgnl r - llim r <=? Z2F (k + 1) * wdth r)%float.

(** The first such bin. *)
Definition bin_is (r : histogramRecord) (k : Z) : Prop :=
  0 <= k < nelm r /\ below_end r k = true /\ forall j, 0 <= j < k -> below_end r j = false.

Definition no_bin (r : histogramRecord) : Prop := forall j, 0 <= j < nelm r -> below_end r j = false.

Lemma bin_loop_spec n temp w : forall i,
  let m := bin_loop n i temp w in
  i <= m <= i + Z.of_nat n /\ (m < i + Z.of_nat n -> (temp <=? Z2F m * w)%float = true) /\
  forall j, i <= j < m -> (temp <=? Z2F j * w)%float = false.
Proof.
  induction n as [|n IH]; intros i; cbn [bin_loop].
  - split_and!; [lia|lia|lia|]. intros j. lia.
  - destruct (temp <=? Z2F i * w)%float eqn:E; cbv zeta.
    + split_and!; [lia|lia|done|]. intros j. lia.
    + destruct (IH (i + 1)) as (I1 & I2 & I3). split_and!; [lia|lia|intros; apply I2; lia|].
      intros j H. destruct (Z.eq_dec j i) as [->|N]; [done|]. apply I3. lia.
Qed.

Lemma bin_cases r : 0 <= nelm r ->
  let i := bin_loop (Z.to_nat (nelm r)) 1 (sgnl r - llim r)%float (wdth r) in
  bin_is r (i - 1) \/ i - 1 = nelm r /\ no_bin r.
Proof.
  intros N. cbv zeta. destruct (bin_loop_spec (Z.to_nat (nelm r)) (sgnl r - llim r)%float (wdth r) 1) as (I1 & I2 & I3).
  set (i := bin_loop _ _ _ _) in *. unfold bin_is, no_bin, below_end. destruct (Z.lt_ge_cases i (1 + nelm r)) as [L|L].
  - left. split_and!; [lia|lia| |].
    + rewrite Z.sub_add. apply I2. lia.
    + intros j H. apply I3. lia.
  - right. split; [lia|]. intros j H. apply I3. lia.
Qed.

(** A count: at the largest one it starts again with 1. *)
Definition count_up (z : Z) : Z := (if z =? UINT_MAX then 0 else z) + 1.

(** (C27) A signal inside of the limits is counted in the first bin whose upper end it does
    not exceed, and in no other, and MCNT is incremented; a signal outside changes nothing.
    The only fault is the write behind the last bin, and it happens exactly when the signal
    is inside of the limits but above the computed end of every bin. *)
Theorem histogram_add_count r :
  zlen (bins r) = nelm r -> csta r = true -> (ulim r <=? llim r)%float = false ->
  match add_count r with
  | inr (status, r') =>
      status = 0 /\
      (inside r = false /\ r' = r \/
       inside r = true /\ exists k count, bin_is r k /\ bins r !! Z.to_nat k = Some count /\
         r' = set_counts r (<[Z.to_nat k := count_up count]> (bins r)) (s16 (mcnt r + 1)))
  | inl f => f = hi_write (nelm r) /\ inside r = true /\ no_bin r
  end.
Proof.
  intros L C U. unfold add_count, inside. rewrite C, U. cbn [negb andb].
  destruct (_ || _) eqn:E; cbn [negb]; [split; [done|by left]|].
  destruct (bin_cases r ltac:(lia)) as [B|[B N]]; set (i := bin_loop _ _ _ _) in *.
  - destruct (lookup_lt_is_Some_2 (bins r) (Z.to_nat (i - 1))) as [count Hc]; [destruct B; lia|].
    rewrite Hc. split; [done|]. right. split; [done|]. by exists (i - 1), count.
  - rewrite B. rewrite lookup_ge_None_2 by lia. done.
Qed.

(** *** A series of signals *)

(** The signals are written one after the other ([SPC_MOD]). *)
Fixpoint count_all (r : histogramRecord) (signals : list float) : hi histogramRecord :=
  match signals with
  | [] => inr r
  | x :: signals => let* '(_, r) := add_count (set_signal r x (sval r)) in count_all r signals
  end.

(** How many of them belong to bin [k]. *)
Definition hits (r : histogramRecord) (k : nat) (x : float) : bool :=
  let r := set_signal r x (sval r) in
  inside r && (bin_loop (Z.to_nat (nelm r)) 1 (x - llim r)%float (wdth r) =? Z.of_nat k + 1).

Definition tally (r : histogramRecord) (k : nat) (signals : list float) : nat := length (List.filter (hits r k) signals).

Record countable (r : histogramRecord) : Prop := mkCountable {
  ct_bins : zlen (bins r) = nelm r;
  ct_csta : csta r = true;
  ct_limits : (ulim r <=? llim r)%float = false }.

Lemma tally_same r r' k signals :
  nelm r' = nelm r -> wdth r' = wdth r -> ulim r' = ulim r -> llim r' = llim r -> tally r' k signals = tally r k signals.
Proof.
  intros N W U L. unfold tally. f_equal. apply List.filter_ext. intros x. unfold hits, inside. cbn.
  by rewrite N, W, U, L.
Qed.

Lemma count_step r x : countable r ->
  match add_count (set_signal r x (sval r)) with
  | inr (status, r') => countable r' /\ nelm r' = nelm r /\ wdth r' = wdth r /\ ulim r' = ulim r /\ llim r' = llim r /\
      forall k v, bins r !! k = Some v -> bins r' !! k = Some (if hits r k x then count_up v else v)
  | inl f => f = hi_write (nelm r) /\ let r' := set_signal r x (sval r) in inside r' = true /\ no_bin r'
  end.
Proof.
  intros [C1 C2 C3]. unfold add_count, hits, inside. cbn [csta set_signal ulim llim sgnl wdth nelm bins mcnt hcommon].
  rewrite C2, C3. cbn [negb andb].
  destruct (_ || _) eqn:E; cbn [negb andb]; [by split_and!|].
  destruct (bin_cases (set_signal r x (sval r)) ltac:(simpl; lia)) as [B|[B N]];
    cbn [csta set_signal ulim llim sgnl wdth nelm] in B; set (i := bin_loop _ _ _ _) in *.
  - destruct B as [B _]. cbn in B. destruct (lookup_lt_is_Some_2 (bins r) (Z.to_nat (i - 1))) as [c Hc]; [lia|].
    rewrite Hc. split_and!; try done.
    + constructor; try done. cbn. by rewrite length_insert.
    + cbn. intros k v Hv. destruct (Z.eqb_spec i (Z.of_nat k + 1)) as [Ei|Ei].
      * replace (Z.to_nat (i - 1)) with k in * by lia. rewrite list_lookup_insert_eq by (by eapply lookup_lt_Some).
        rewrite Hc in Hv. by injection Hv as ->.
      * rewrite list_lookup_insert_ne by lia. done.
  - rewrite B. rewrite lookup_ge_None_2 by lia. done.
Qed.

Lemma count_all_ok signals : forall r,
  countable r -> (forall v, v ∈ bins r -> 0 <= v /\ v + zlen signals <= UINT_MAX) ->
  match count_all r signals with
  | inr r' => countable r' /\ nelm r' = nelm r /\
      forall k v, bins r !! k = Some v -> bins r' !! k = Some (v + Z.of_nat (tally r k signals))
  | inl f => f = hi_write (nelm r) /\ exists x, x ∈ signals /\ let r' := set_signal r x (sval r) in inside r' = true /\ no_bin r'
  end.
Proof.
  induction signals as [|x signals IH]; intros r C V; cbn [count_all].
  - split_and!; [done|done|]. intros k v ->. cbn. by rewrite Z.add_0_r.
  - pose proof (count_step r x C) as St. destruct (add_count (set_signal r x (sval r))) as [f|[st r1]]; cbn [ebind].
    + destruct St as [-> St]. split; [done|]. exists x. split; [by left|exact St].
    + destruct St as (C1 & N1 & W1 & U1 & L1 & B1).
      assert (Up : forall v, v ∈ bins r -> count_up v = v + 1).
      { intros v Hv. destruct (V v Hv) as [V1 V2]. cbn [length] in V2. unfold count_up.
        by rewrite (proj2 (Z.eqb_neq _ _)) by lia. }
      assert (V' : forall v, v ∈ bins r1 -> 0 <= v /\ v + zlen signals <= UINT_MAX).
      { intros v [k Hk]%list_elem_of_lookup. destruct (lookup_lt_is_Some_2 (bins r) k) as [v0 H0].
        - apply lookup_lt_Some in Hk. pose proof (ct_bins _ C). pose proof (ct_bins _ C1). lia.
        - rewrite (B1 k v0 H0) in Hk. apply list_elem_of_lookup_2 in H0. destruct (V v0 H0) as [V1 V2]. cbn [length] in V2.
          rewrite (Up v0 H0) in Hk. injection Hk as <-. destruct (hits r k x); lia. }
      specialize (IH r1 C1 V'). destruct (count_all r1 signals) as [f|r'].
      * destruct IH as (-> & y & Hy & Iy & Ny). split; [by rewrite N1|]. exists y. split; [by right|].
        split; [unfold inside in *; cbn in *; by rewrite <- U1, <- L1|].
        intros j Hj. specialize (Ny j). cbn [nelm set_signal] in Ny, Hj. rewrite N1 in Ny.
        specialize (Ny Hj). unfold below_end in *. cbn in *. by rewrite <- W1, <- L1.
      * destruct IH as (C' & N' & B'). split_and!; [done|congruence|]. intros k v Hv. rewrite (B' _ _ (B1 k v Hv)). f_equal.
        rewrite (tally_same r r1) by done. unfold tally. cbn [List.filter].
        rewrite (Up v) by (by eapply list_elem_of_lookup_2). destruct (hits r k x); cbn [length]; lia.
Qed.

(** (C28) After [clear_histogram], a series of less than 2^32 signals leaves in every bin exactly the number of
    the signals that are inside of the limits and whose first bin it is - or one of the
    signals is inside of the limits and above every bin, and the code writes behind the array. *)
Theorem histogram_counts r signals :
  countable r -> zlen signals <= UINT_MAX ->
  match count_all (clear_histogram r) signals with
  | inr r' => bins r' = map (fun k => Z.of_nat (tally r k signals)) (seq 0 (Z.to_nat (nelm r)))
  | inl f => f = hi_write (nelm r) /\ exists x, x ∈ signals /\ let r' := set_signal r x (sval r) in inside r' = true /\ no_bin r'
  end.
Proof.
  intros C V. pose proof (ct_bins _ C) as L.
  assert (B0 : bins (clear_histogram r) = replicate (Z.to_nat (nelm r)) 0).
  { cbn. rewrite drop_ge by lia. apply app_nil_r. }
  assert (C0 : countable (clear_histogram r)).
  { destruct C. constructor; try done. rewrite B0, length_replicate. cbn. lia. }
  pose proof (count_all_ok signals (clear_histogram r) C0) as H. rewrite B0 in H.
  destruct (count_all (clear_histogram r) signals) as [f|r']; [|destruct H as (C' & N' & B')].
  - apply H. intros v Hv. apply elem_of_replicate in Hv as [-> _]. lia.
  - intros v Hv. apply elem_of_replicate in Hv as [-> _]. lia.
  - apply list_eq. intros k. rewrite list_lookup_fmap. pose proof (ct_bins _ C') as L'. rewrite N' in L'. cbn in L'.
    destruct (decide (k < Z.to_nat (nelm r))%nat) as [K|K].
    + rewrite (B' k 0) by (by apply lookup_replicate_2). rewrite lookup_seq_lt by done. cbn. f_equal.
    + rewrite !lookup_ge_None_2; [done|rewrite length_seq; lia|lia].
Qed.

(** *** Witnesses and the two overruns *)

Definition sample_histogram (n : Z) (lo hi : float) : histogramRecord :=
  init_pass0 (mkHisto quiet_record n true 0 hi lo 0 0 link_constant [] 0 0 0 false link_constant 0 link_constant 0 0 0 USHRT_MAX 0).

Lemma histogram_add_count_witness :
  let r := set_signal (sample_histogram 4 0 8) 5 0 in
  zlen (bins r) = nelm r /\ csta r = true /\ (ulim r <=? llim r)%float = false /\
  match add_count r with
  | inr (status, r') =>
      status = 0 /\
      (inside r = false /\ r' = r \/
       inside r = true /\ exists k count, bin_is r k /\ bins r !! Z.to_nat k = Some count /\
         r' = set_counts r (<[Z.to_nat k := count_up count]> (bins r)) (s16 (mcnt r + 1)))
  | inl f => f = hi_write (nelm r) /\ inside r = true /\ no_bin r
  end.
Proof.
  assert (H1 : zlen (bins (set_signal (sample_histogram 4 0 8) 5 0)) = nelm (set_signal (sample_histogram 4 0 8) 5 0)) by reflexivity.
  assert (H2 : csta (set_signal (sample_histogram 4 0 8) 5 0) = true) by reflexivity.
  assert (H3 : (ulim (set_signal (sample_histogram 4 0 8) 5 0) <=? llim (set_signal (sample_histogram 4 0 8) 5 0))%float = false) by reflexivity.
  apply (conj H1), (conj H2), (conj H3). exact (histogram_add_count (set_signal (sample_histogram 4 0 8) 5 0) H1 H2 H3).
Defined.

Lemma histogram_counts_witness :
  countable (sample_histogram 4 0 8) /\ zlen [1; 3; 7; -2; 8; 3.5]%float <= UINT_MAX /\
  match count_all (clear_histogram (sample_histogram 4 0 8)) [1; 3; 7; -2; 8; 3.5]%float with
  | inr r' => bins r' = map (fun k => Z.of_nat (tally (sample_histogram 4 0 8) k [1; 3; 7; -2; 8; 3.5]%float))
                          (seq 0 (Z.to_nat (nelm (sample_histogram 4 0 8))))
  | inl f => f = hi_write (nelm (sample_histogram 4 0 8)) /\ exists x, x ∈ [1; 3; 7; -2; 8; 3.5]%float /\
      let r' := set_signal (sample_histogram 4 0 8) x (sval (sample_histogram 4 0 8)) in inside r' = true /\ no_bin r'
  end.
Proof.
  assert (C : countable (sample_histogram 4 0 8)) by (constructor; reflexivity).
  assert (L : zlen [1; 3; 7; -2; 8; 3.5]%float <= UINT_MAX) by (vm_compute; discriminate).
  apply (conj C), (conj L). exact (histogram_counts (sample_histogram 4 0 8) _ C L).
Defined.

Definition with_input (r : histogramRecord) (x : float) : histogramRecord :=
  mkHisto (hcommon r) (nelm r) (csta r) (cmd r) (ulim r) (llim r) (wdth r) (sgnl r) (link_value x pvlOptNMS 0 0) (bins r)
    (hmdel r) (mcnt r) (sdel r) (wdog r) (siol r) (sval r) (siml r) (simm r) (sims r) (oldsimm r) (sscn r) (sdly r).

(** A NaN signal passes the test of the limits and stops the loop nowhere. *)
Example histogram_nan_overrun :
  process no_time (Some devHistogramSoft) (with_input (sample_histogram 4 0 8) nan) = inl (hi_write 4).
Proof. vm_compute. reflexivity. Qed.

(** Ordinary numbers: 0 is below ULIM = 2^-60, but its distance 1 from LLIM exceeds 49 * (1/49). *)
Example histogram_rounding_overrun :
  process no_time (Some devHistogramSoft) (with_input (sample_histogram 49 (-1) 0x1p-60) 0) = inl (hi_write 49).
Proof. vm_compute. reflexivity. Qed.

(** Limits in the wrong order: [add_count] sets STAT and SEVR themselves, and [monitor] resets
    them in the same cycle. *)
Example histogram_limits_alarm_lost :
  match process no_time (Some devHistogramSoft) (with_input (sample_histogram 4 8 0) 3) with
  | inr (_, r) => (stat (hcommon r), sevr (hcommon r))
  | inl _ => (-1, -1)
  end = (NO_ALARM, NO_ALARM).
Proof. vm_compute. reflexivity. Qed.
