(* ===== verification/CalcRecord.v ===== *)
(** * The calc record ([modules/database/src/std/rec/calcRecord.c])

    Twelve inputs, an expression over them, four alarm limits with hysteresis and an optional filter
    of the alarm level over time. *)

From stdpp Require Import base numbers list option strings.
From Stdlib Require Import ZArith Lia Bool Floats.
From S2P Require Import Prelude CStdlib Strtod EpicsStdlib EpicsString Calc CalcPerform CalcCorrect RecGbl LimitAlarm.

Open Scope string_scope.
Open Scope list_scope.
Open Scope Z_scope.

(** ** Data *)

(** [rpcl] holds the code as far as [postfix] wrote it. *)
Record calcRecord := mkCalc {
  calc_common : dbCommon;
  cval : float;
  calc : list Z;                (** the characters of CALC *)
  rpcl : list Z;
  cinp : list (link float);     (** [INPA] ... [INPL] *)
  ca : list float;              (** [A] ... [L] *)
  cla : list float;             (** [LA] ... [LL] *)
  climits : limits;             (** HIHI ... LOW, HHSV ... LSV and HYST *)
  clalm : float;
  afvl : float;
  aftc : float;
  cmdel : float;
  cadel : float;
  cmlst : float;
  calst : float }.

Inductive ca_fault :=
| ca_postfix (u : postfix_ub)   (** undefined behaviour of [postfix] *)
| ca_perform (f : cp_fault)     (** [calcPerform] does not return *)
| ca_range (i : Z).             (** [range_stat] has no element [i] *)

Notation ca_m A := (ca_fault + A)%type.

(** Assignments to the fields. *)
Definition set_cc (r : calcRecord) (c : dbCommon) : calcRecord :=
  mkCalc c (cval r) (calc r) (rpcl r) (cinp r) (ca r) (cla r) (climits r) (clalm r) (afvl r) (aftc r) (cmdel r) (cadel r) (cmlst r) (calst r).
Definition set_rpcl (r : calcRecord) (code : list Z) : calcRecord :=
  mkCalc (calc_common r) (cval r) (calc r) code (cinp r) (ca r) (cla r) (climits r) (clalm r) (afvl r) (aftc r) (cmdel r) (cadel r) (cmlst r) (calst r).
Definition set_args (r : calcRecord) (c : dbCommon) (v : float) (x : list float) : calcRecord :=
  mkCalc c v (calc r) (rpcl r) (cinp r) x (cla r) (climits r) (clalm r) (afvl r) (aftc r) (cmdel r) (cadel r) (cmlst r) (calst r).
Definition set_alarm (r : calcRecord) (c : dbCommon) (lalm af : float) : calcRecord :=
  mkCalc c (cval r) (calc r) (rpcl r) (cinp r) (ca r) (cla r) (climits r) lalm af (aftc r) (cmdel r) (cadel r) (cmlst r) (calst r).
Definition set_monitored (r : calcRecord) (c : dbCommon) (l : list float) (m al : float) : calcRecord :=
  mkCalc c (cval r) (calc r) (rpcl r) (cinp r) (ca r) l (climits r) (clalm r) (afvl r) (aftc r) (cmdel r) (cadel r) m al.

Definition CALCPERFORM_NARGS : nat := 12.

(** The size of [rpcl] in [calcRecord.dbd]. *)
Definition RPCL_SIZE : nat := Z.to_nat (INFIX_TO_POSTFIX_SIZE 80).

(** ** Operations *)

(** [postfix(prec->calc, prec->rpcl, &error_number)]; a failed compilation leaves an empty program. *)
Definition compile_calc (r : calcRecord) : ca_m (option calc_err * calcRecord) :=
  match postfix RPCL_SIZE (calc r) with
  | postfix_ok code => inr (None, set_rpcl r code)
  | postfix_err e => inr (Some e, set_rpcl r [opcode_num END_EXPRESSION])
  | postfix_undefined u => inl (ca_postfix u)
  end.

(** Pass 1; [consts] are the values of constant links. *)
Definition init_record (r : calcRecord) (consts : list (option float)) : ca_m calcRecord :=
  let x := zip_with (fun (k : option float) v => default v k) consts (ca r) in
  let* '(_, r) := compile_calc (set_args r (calc_common r) (cval r) x) in
  inr r.

Inductive special_field := SPC_CALC | SPC_unknown.
Definition S_db_badField : Z := 511 * 65536 + 15.
Definition S_db_badChoice : Z := 511 * 65536 + 13.

Definition special (r : calcRecord) (field : special_field) (after : bool) : ca_m (Z * calcRecord) :=
  if negb after then inr (0, r)
  else
    match field with
    | SPC_CALC =>
        let* '(e, r) := compile_calc r in
        inr (match e with Some _ => S_db_badField | None => 0 end, r)
    | SPC_unknown => inr (S_db_badChoice, r)
    end.

(** All links are read; the first error is returned. *)
Fixpoint fetch_links (links : list (link float)) (values : list float) (status : Z) (c : dbCommon) : Z * list float * dbCommon :=
  match links, values with
  | l :: links, v :: values =>
      let '(newStatus, v, c) := dbGetLink l v c in
      let '(status, values, c) := fetch_links links values (if status =? 0 then newStatus else status) c in
      (status, v :: values, c)
  | _, _ => (status, values, c)
  end.

Definition fetch_values (r : calcRecord) : Z * calcRecord :=
  let '(status, x, c) := fetch_links (cinp r) (ca r) 0 (calc_common r) in
  (status, set_args r c (cval r) x).

(** *** [checkAlarms] *)

Definition range_Lolo : Z := 1.
Definition range_Low : Z := 2.
Definition range_Normal : Z := 3.
Definition range_High : Z := 4.
Definition range_Hihi : Z := 5.
Definition range_stat : list Z := [SOFT_ALARM; LOLO_ALARM; LOW_ALARM; NO_ALARM; HIGH_ALARM; HIHI_ALARM].

Definition THRESHOLD : float := 0.6321%float.

Definition nSecPerSec : Z := 1000000000.

(** The difference of two valid [epicsTime]s, [epicsTime::operator -]. *)
Definition epicsTime_minus (left right : epicsTimeStamp) : float :=
  let nSecRes := nsec left - nsec right in
  let secRes := secPastEpoch left - secPastEpoch right in
  let '(secRes, nSecRes) :=
    if ULONG_MAX / 2 <? Z.abs secRes then
      (if secRes <? 0 then 1 + (ULONG_MAX + secRes) else - (1 + (ULONG_MAX - secRes)), - nSecRes)
    else (secRes, nSecRes) in
  (Z2F secRes + Z2F nSecRes / Z2F nSecPerSec)%float.

(** [-DBL_MAX] when the constructor of [epicsTime] throws for an invalid stamp. *)
Definition epicsTimeDiffInSeconds (left right : epicsTimeStamp) : float :=
  if (nsec left <? nSecPerSec) && (nsec right <? nSecPerSec) then epicsTime_minus left right
  else (- 0x1.fffffffffffffp1023)%float.

(** VAL against the limits: [alarmRange], [asev] and [alev]. *)
Definition alarm_range (r : calcRecord) : Z * Z * float :=
  let L := climits r in
  let v := cval r in
  let above asev alev := negb (asev =? 0) && ((alev <=? v)%float || (clalm r =? alev)%float && (alev - hyst L <=? v)%float) in
  let below asev alev := negb (asev =? 0) && ((v <=? alev)%float || (clalm r =? alev)%float && (v <=? alev + hyst L)%float) in
  if above (sv L Hihi) (lim L Hihi) then (range_Hihi, sv L Hihi, lim L Hihi)
  else if below (sv L Lolo) (lim L Lolo) then (range_Lolo, sv L Lolo, lim L Lolo)
  else if above (sv L High) (lim L High) then (range_High, sv L High, lim L High)
  else if below (sv L Low) (lim L Low) then (range_Low, sv L Low, lim L Low)
  else (range_Normal, NO_ALARM, v).

(** The level filter: the new [afvl]. *)
Definition filter_level (aftc afvl t : float) (alarmRange : Z) : float :=
  (let alpha := aftc / (t + aftc) in
   let afvl := alpha * afvl + (if 0 <? afvl then 1 - alpha else alpha - 1) * Z2F alarmRange in
   if THRESHOLD <? afvl - floor afvl then - afvl else afvl)%float.

(** The severity and the level of a filtered range; an impossible range keeps them. *)
Definition range_level (L : limits) (alarmRange asev : Z) (alev : float) : Z * float :=
  if alarmRange =? range_Hihi then (sv L Hihi, lim L Hihi)
  else if alarmRange =? range_High then (sv L High, lim L High)
  else if alarmRange =? range_Normal then (NO_ALARM, alev)
  else if alarmRange =? range_Low then (sv L Low, lim L Low)
  else if alarmRange =? range_Lolo then (sv L Lolo, lim L Lolo)
  else (asev, alev).

Definition checkAlarms (r : calcRecord) (timeLast : epicsTimeStamp) : ca_m calcRecord :=
  let c := calc_common r in
  if udf c then inr (set_alarm r (snd (recGblSetSevr UDF_ALARM (udfs c) c)) (clalm r) 0)
  else
    let '(range, asev, alev) := alarm_range r in
    let '(range, asev, alev, af) :=
      if (0 <? aftc r)%float then
        if (afvl r =? 0)%float then (range, asev, alev, Z2F range)
        else
          let t := epicsTimeDiffInSeconds (time c) timeLast in
          let af := filter_level (aftc r) (afvl r) t range in
          let range := Z.abs (F2int32 (floor af)) in
          let '(asev, alev) := range_level (climits r) range asev alev in
          (range, asev, alev, af)
      else (range, asev, alev, 0%float) in
    if negb (asev =? 0) then
      match range_stat !! Z.to_nat range with
      | Some st =>
          let '(set, c) := recGblSetSevr st asev c in
          inr (set_alarm r c (if set then alev else clalm r) af)
      | None => inl (ca_range range)
      end
    else inr (set_alarm r c (cval r) af).

(** *** [monitor] and [process] *)

Definition arg_names : list string := ["A"; "B"; "C"; "D"; "E"; "F"; "G"; "H"; "I"; "J"; "K"; "L"].

(** The inputs that changed, or all of them when the alarm changed, are posted. *)
Fixpoint post_args (names : list string) (new prev : list float) (mask : Z) (c : dbCommon) : list float * dbCommon :=
  match names, new, prev with
  | name :: names, x :: new, p :: prev =>
      let '(p, c) :=
        if negb (x =? p)%float || negb (Z.land mask DBE_ALARM =? 0)
        then (x, db_post_events name (Z.lor mask (Z.lor DBE_VALUE DBE_LOG)) c) else (p, c) in
      let '(prev, c) := post_args names new prev mask c in
      (p :: prev, c)
  | _, _, _ => (prev, c)
  end.

Definition monitor (r : calcRecord) : calcRecord :=
  let '(mask, c) := recGblResetAlarms (calc_common r) in
  let '(m, mask) := recGblCheckDeadband (cmlst r) (cval r) (cmdel r) mask DBE_VALUE in
  let '(al, mask) := recGblCheckDeadband (calst r) (cval r) (cadel r) mask DBE_ARCHIVE in
  let c := if negb (mask =? 0) then db_post_events "VAL" mask c else c in
  let '(l, c) := post_args arg_names (ca r) (cla r) mask c in
  set_monitored r c l m al.

(** [calcPerform(&prec->a, &prec->val, prec->rpcl)] and what its result means; [seed] is the state of
    the random numbers. *)
Definition perform (m : libm) (seed : Z) (r : calcRecord) : ca_m (Z * calcRecord) :=
  match calcPerform m (ca r) (cval r) seed (rpcl r) with
  | inl f => inl (ca_perform f)
  | inr (status, x, v, seed) =>
      let c := calc_common r in
      let c := if negb (status =? 0) then snd (recGblSetSevr CALC_ALARM INVALID_ALARM c) else set_udf c (isnan v) in
      inr (seed, set_args r c v x)
  end.

Definition process (m : libm) (env : time_env) (seed : Z) (r : calcRecord) : ca_m (Z * calcRecord) :=
  let r := set_cc r (set_pact (calc_common r) true) in
  let '(status, r) := fetch_values r in
  let* '(seed, r) := if status =? 0 then perform m seed r else inr (seed, r) in
  let timeLast := time (calc_common r) in
  let r := set_cc r (recGblGetTimeStamp env (calc_common r)) in
  let* r := checkAlarms r timeLast in
  let r := monitor r in
  inr (seed, set_cc r (set_pact (recGblFwdLink (calc_common r)) false)).

(** ** The alarms *)

Definition range_of (l : option level) : Z :=
  match l with
  | Some Hihi => range_Hihi | Some High => range_High | None => range_Normal
  | Some Low => range_Low | Some Lolo => range_Lolo
  end.

(** [alarm_range] is the level of the alarm machine. *)
Lemma alarm_range_level r :
  alarm_range r =
  match first_of (active' (climits r) (clalm r) (cval r)) with
  | Some l => (range_of (Some l), sv (climits r) l, lim (climits r) l)
  | None => (range_of None, NO_ALARM, cval r)
  end.
Proof.
  unfold alarm_range, first_of. rewrite find_level. unfold active', beyond, near. cbv zeta.
  repeat match goal with |- context [if ?b then _ else _] =>
    match b with context [negb] => destruct b end end; done.
Qed.

Lemma first_of_sv L x v l : first_of (active' L x v) = Some l -> sv L l <> 0.
Proof.
  intros [_ H]%find_some. unfold active' in H. apply andb_true_iff in H as [H _].
  by apply negb_true_iff, Z.eqb_neq in H.
Qed.

Lemma range_stat_level l : range_stat !! Z.to_nat (range_of (Some l)) = Some (status_of l).
Proof. by destruct l. Qed.

(** The filter has no effect: it is off, or has no value yet. *)
Definition unfiltered (r : calcRecord) : bool := negb (0 <? aftc r)%float || (afvl r =? 0)%float.

Lemma calc_checkAlarms_step r t :
  udf (calc_common r) = false -> unfiltered r = true ->
  checkAlarms r t =
    let '(x, c) := lalm_step (climits r) (clalm r) (cval r) (calc_common r) in
    let range := range_of (first_of (active' (climits r) (clalm r) (cval r))) in
    inr (set_alarm r c x (if (0 <? aftc r)%float then Z2F range else 0%float)).
Proof.
  intros U F. unfold checkAlarms, lalm_step, unfiltered in *. rewrite U, alarm_range_level.
  destruct (first_of _) as [l|] eqn:E.
  - pose proof (first_of_sv _ _ _ _ E) as S. destruct (0 <? aftc r)%float; simpl in F; [rewrite F|];
      rewrite (proj2 (Z.eqb_neq _ _) S); cbn [negb]; rewrite range_stat_level;
      by destruct (recGblSetSevr _ _ _) as [[] c].
  - destruct (0 <? aftc r)%float; simpl in F; [rewrite F|]; done.
Qed.

(** (C30) Without the level filter (AFTC is not positive), or when it has no value yet, the alarms of a calc
    record are those of the limit alarm machine, LALM goes on to represent its state, and
    the filter starts from the number of the machine's level. *)
Theorem calc_alarm_refines r t cur :
  udf (calc_common r) = false -> unfiltered r = true ->
  sane (climits r) -> represents (climits r) (clalm r) cur ->
  let '(cur', c) := alarm_step (climits r) cur (cval r) (calc_common r) in
  exists r', checkAlarms r t = inr r' /\ calc_common r' = c /\ represents (climits r) (clalm r') cur' /\
    afvl r' = if (0 <? aftc r)%float then Z2F (range_of (alarm_level (climits r) cur (cval r))) else 0%float.
Proof.
  intros U F Sa R. rewrite (calc_checkAlarms_step r t U F), (find_represents _ _ cur) by done.
  pose proof (lalm_step_refines (climits r) (clalm r) cur (cval r) (calc_common r) Sa R) as H.
  destruct (lalm_step _ _ _ _) as [x c], (alarm_step _ _ _ _) as [cur' c'']. destruct H as [-> H].
  eexists. split_and!; [reflexivity..|done|reflexivity].
Qed.

Definition a_calc (text : string) (v lalm af aftc : float) : calcRecord :=
  mkCalc (set_time quiet_record 0 (mkTime 100 0)) v (cs text) [] (replicate 12 link_constant) args12 (replicate 12 0%float)
    (mkLimits (fun l => match l with Hihi => 90 | High => 80 | Low => 20 | Lolo => 10 end)%float
      (fun l => match l with Hihi | Lolo => 2 | _ => 1 end) 5) lalm af aftc 0 0 0 0.

Lemma calc_alarm_refines_witness :
  let r := a_calc "A" 87 90 0 10 in
  exists r', checkAlarms r (mkTime 0 0) = inr r' /\
    calc_common r' = (alarm_step (climits r) (Some Hihi) 87 (calc_common r)).2 /\
    represents (climits r) (clalm r') (Some Hihi) /\ afvl r' = 5%float.
Proof.
  apply (calc_alarm_refines (a_calc "A" 87 90 0 10) (mkTime 0 0) (Some Hihi)); [reflexivity|reflexivity| |].
  - constructor; [intros []; simpl; lia|by intros []|]. intros [] [] _ _ N; (reflexivity || done).
  - intros [] _; reflexivity.
Defined.

(** The clock goes back by 9 s while a high alarm is filtered: [range_stat[15]] is read. *)
Example filter_overrun : checkAlarms (a_calc "A" 95 0 3 10) (mkTime 109 0) = inl (ca_range 15).
Proof. vm_compute. reflexivity. Qed.

(** Later by 5 s: the alarm is reported as HIGH first. *)
Example filter_delays :
  match checkAlarms (a_calc "A" 95 0 3 10) (mkTime 95 0) with
  | inr r => (nsta (calc_common r), nsev (calc_common r), clalm r)
  | inl _ => (0, 0, 0%float)
  end = (HIGH_ALARM, 1, 80%float).
Proof. vm_compute. reflexivity. Qed.

(** ** The monitors of the inputs *)

Definition post_needed (alarm : bool) (x p : float) : bool := negb (x =? p)%float || alarm.

(** The names of the inputs that are posted. *)
Definition posted_args (alarm : bool) (new prev : list float) : list string :=
  omap (fun '(name, (x, p)) => if post_needed alarm x p then Some name else None) (zip arg_names (zip new prev)).

(** A client that has been sent [p] knows [x]; a NaN is sent every time. *)
Definition knows (x p : float) : Prop := (x =? p)%float = true \/ x = p.

Lemma emit_trace e c : trace (emit e c) = trace c ++ [e].
Proof. reflexivity. Qed.

Lemma post_args_spec names : forall new prev mask c,
  length new = length names -> length prev = length names ->
  let alarm := negb (Z.land mask DBE_ALARM =? 0) in
  let '(prev', c') := post_args names new prev mask c in
  Forall2 knows new prev' /\
  c' = foldl (fun c name => db_post_events name (Z.lor mask (Z.lor DBE_VALUE DBE_LOG)) c) c
    (omap (fun '(name, (x, p)) => if post_needed alarm x p then Some name else None) (zip names (zip new prev))).
Proof.
  induction names as [|name names IH]; intros [|x new] [|p prev] mask c Ln Lp; try done; cbn -[Z.lor Z.land].
  unfold post_needed. set (b := negb (x =? p)%float || _).
  assert (K : knows x (if b then x else p)).
  { subst b. unfold knows. destruct (x =? p)%float eqn:E, (Z.land mask DBE_ALARM =? 0); simpl; rewrite ?E; auto. }
  assert (Ln' : length new = length names) by (simpl in Ln; lia).
  assert (Lp' : length prev = length names) by (simpl in Lp; lia).
  destruct b; match goal with |- context [post_args _ _ _ _ ?c] => pose proof (IH new prev mask c Ln' Lp') as H end;
    destruct (post_args _ _ _ _ _) as [prev' c']; destruct H as [F ->]; split; (by constructor) || done.
Qed.

Lemma post_all_trace mask names : forall c,
  trace (foldl (fun c name => db_post_events name mask c) c names) = trace c ++ map (fun name => Post name mask) names.
Proof.
  induction names as [|n names IH]; intros c; simpl; [by rewrite app_nil_r|]. rewrite IH. simpl. by rewrite <- List.app_assoc.
Qed.

(** The mask that VAL is posted with. *)
Definition value_mask (r : calcRecord) (alarm : Z) : Z :=
  Z.lor (Z.lor alarm (if (cmdel r <? delta (cmlst r) (cval r))%float then DBE_VALUE else 0))
    (if (cadel r <? delta (calst r) (cval r))%float then DBE_ARCHIVE else 0).

Lemma value_mask_alarm r c : let alarm := fst (recGblResetAlarms c) in
  negb (Z.land (value_mask r alarm) DBE_ALARM =? 0) = negb (alarm =? 0).
Proof.
  cbn zeta. rewrite reset_alarms_mask. unfold value_mask.
  destruct (_ && _), (cmdel r <? _)%float, (cadel r <? _)%float; reflexivity.
Qed.

Lemma monitor_step r :
  let '(alarm, c) := recGblResetAlarms (calc_common r) in
  let mask := value_mask r alarm in
  exists m al, monitor r =
    let '(l, c) := post_args arg_names (ca r) (cla r) mask (if mask =? 0 then c else db_post_events "VAL" mask c) in
    set_monitored r c l m al.
Proof.
  unfold monitor, recGblCheckDeadband, value_mask. destruct (recGblResetAlarms _) as [alarm c].
  destruct (cmdel r <? _)%float, (cadel r <? _)%float; rewrite ?Z.lor_0_r;
    match goal with |- context [post_args _ _ _ ?m _] => destruct (m =? 0) end; cbn [negb];
    destruct (post_args _ _ _ _ _) as [l c']; by eexists _, _.
Qed.

(** (C36) The monitors of a calc record: VAL is posted for the deadbands it is beyond and for an alarm
    change, when there is one of these; then exactly those inputs are posted, in order, that have
    changed since they were last posted, or all of them when the alarm changed; afterwards clients of the inputs know
    their values. *)
Theorem calc_monitors r :
  length (ca r) = CALCPERFORM_NARGS -> length (cla r) = CALCPERFORM_NARGS ->
  let '(alarm, c) := recGblResetAlarms (calc_common r) in
  let mask := value_mask r alarm in
  let r' := monitor r in
  trace (calc_common r') = trace c ++ (if mask =? 0 then [] else [Post "VAL" mask]) ++
    map (fun name => Post name (Z.lor mask (Z.lor DBE_VALUE DBE_LOG))) (posted_args (negb (alarm =? 0)) (ca r) (cla r)) /\
  Forall2 knows (ca r') (cla r').
Proof.
  intros La Lp. pose proof (value_mask_alarm r (calc_common r)) as V. pose proof (monitor_step r) as S.
  destruct (recGblResetAlarms _) as [alarm c]. cbn [fst] in V. cbn zeta. destruct S as (m & al & ->).
  pose proof (post_args_spec arg_names (ca r) (cla r) (value_mask r alarm)
    (if value_mask r alarm =? 0 then c else db_post_events "VAL" (value_mask r alarm) c) La Lp) as P.
  rewrite V in P. destruct (post_args _ _ _ _ _) as [l c']. destruct P as [F ->]. split; [|done].
  cbn [calc_common set_monitored]. rewrite post_all_trace. unfold posted_args.
  by destruct (value_mask r alarm =? 0); simpl; rewrite <- ?List.app_assoc.
Qed.

Lemma calc_monitors_witness :
  let r := a_calc "A" 87 90 0 10 in
  let '(alarm, c) := recGblResetAlarms (calc_common r) in
  let mask := value_mask r alarm in
  let r' := monitor r in
  trace (calc_common r') = trace c ++ (if mask =? 0 then [] else [Post "VAL" mask]) ++
    map (fun name => Post name (Z.lor mask (Z.lor DBE_VALUE DBE_LOG))) (posted_args (negb (alarm =? 0)) (ca r) (cla r)) /\
  Forall2 knows (ca r') (cla r').
Proof. apply (calc_monitors (a_calc "A" 87 90 0 10)); reflexivity. Defined.

(** ** Processing *)

Lemma set_sevr_udf st se c : udf (snd (recGblSetSevr st se c)) = udf c.
Proof. unfold recGblSetSevr. by destruct (_ <? _). Qed.

Lemma inherit_udf m c st se : udf (recGblInheritSevr m c st se) = udf c.
Proof. destruct m; simpl; try destruct (_ <? _); rewrite ?set_sevr_udf; done. Qed.

Lemma get_link_udf {A} (l : link A) v c : udf (dbGetLink l v c).2 = udf c.
Proof.
  unfold dbGetLink. destruct l; simpl; try done; repeat destruct (_ =? _); simpl; rewrite ?set_sevr_udf, ?inherit_udf; done.
Qed.

Lemma time_stamp_udf env c : udf (recGblGetTimeStamp env c) = udf c.
Proof.
  unfold recGblGetTimeStamp, recGblGetTimeStampSimm.
  assert (S : forall c t, udf (stamp c t) = udf c) by (by intros ? []).
  destruct (tsel_constant env), (tsel_is_time env); cbn [negb]; try (destruct (negb _)); rewrite ?S; try done.
  pose proof (get_link_udf (tsel_link env) (tse c) c) as H. destruct (dbGetLink _ _ _) as [[st e] c']. simpl in H.
  destruct (negb _); rewrite ?S; done.
Qed.

Lemma reset_alarms_udf c : udf (snd (recGblResetAlarms c)) = udf c.
Proof.
  unfold recGblResetAlarms. destruct (negb (sevr c =? _)), (negb (stat c =? _)); simpl; try done;
    destruct (_ || _); done.
Qed.

Lemma fwd_link_udf c : udf (recGblFwdLink c) = udf c.
Proof. unfold recGblFwdLink. simpl. destruct (ppn c); simpl; destruct (rpro c); done. Qed.

Lemma post_args_udf names : forall new prev mask c, udf (post_args names new prev mask c).2 = udf c.
Proof.
  induction names as [|n names IH]; intros [|x new] [|p prev] mask c; try done. cbn -[Z.lor Z.land].
  destruct (_ || _); match goal with |- context [post_args _ ?a ?b ?m ?c] => pose proof (IH a b m c) as H end;
    by destruct (post_args _ _ _ _ _).
Qed.

Lemma monitor_keeps r :
  cval (monitor r) = cval r /\ ca (monitor r) = ca r /\ udf (calc_common (monitor r)) = udf (calc_common r).
Proof.
  pose proof (monitor_step r) as S. pose proof (reset_alarms_udf (calc_common r)) as U.
  destruct (recGblResetAlarms _) as [alarm c]. destruct S as (m & al & ->).
  match goal with |- context [post_args ?n ?a ?b ?m ?c] => pose proof (post_args_udf n a b m c) as P end.
  destruct (post_args _ _ _ _ _) as [l c']. simpl in *. split_and!; [done..|]. rewrite P. by destruct (_ =? 0).
Qed.

(** The level filter has computed a range outside of [range_stat]. *)
Definition overrun {A} (r : calcRecord) (res : ca_m A) : Prop :=
  (0 <? aftc r)%float = true /\ exists k, res = inl (ca_range k) /\ zlen range_stat <= k.

Lemma range_alarm_keeps r range asev alev af :
  let res := if negb (asev =? 0) then
      match range_stat !! Z.to_nat range with
      | Some st => let '(set, c) := recGblSetSevr st asev (calc_common r) in inr (set_alarm r c (if set then alev else clalm r) af)
      | None => inl (ca_range range)
      end
    else inr (set_alarm r (calc_common r) (cval r) af) in
  (exists r', res = inr r' /\ cval r' = cval r /\ ca r' = ca r /\ udf (calc_common r') = udf (calc_common r)) \/
  exists k, res = inl (ca_range k) /\ zlen range_stat <= k.
Proof.
  intros res. subst res. destruct (negb _); [|left; by eexists]. destruct (range_stat !! Z.to_nat range) as [st|] eqn:E.
  - left. pose proof (set_sevr_udf st asev (calc_common r)) as S. destruct (recGblSetSevr _ _ _) as [set c]. eexists. split; [done|].
    simpl in *. by rewrite S.
  - right. exists range. split; [done|]. apply lookup_ge_None in E. unfold range_stat in *. simpl in *. lia.
Qed.

(** The alarms are computed without a fault, but for an overrun by the level filter. *)
Lemma checkAlarms_keeps r t :
  (exists r', checkAlarms r t = inr r' /\ cval r' = cval r /\ ca r' = ca r /\ udf (calc_common r') = udf (calc_common r)) \/
  overrun r (checkAlarms r t).
Proof.
  destruct (udf (calc_common r)) eqn:U.
  { left. unfold checkAlarms. rewrite U. eexists. split; [done|]. simpl. by rewrite set_sevr_udf. }
  destruct (unfiltered r) eqn:F.
  - left. rewrite (calc_checkAlarms_step r t U F). unfold lalm_step. destruct (first_of _) as [l|]; [|by eexists].
    pose proof (set_sevr_udf (status_of l) (sv (climits r) l) (calc_common r)) as S.
    destruct (recGblSetSevr _ _ _) as [b c]. eexists. split; [done|]. simpl in *. by rewrite S, U.
  - unfold unfiltered in F. apply orb_false_iff in F as [F%negb_false_iff F']. unfold overrun, checkAlarms. rewrite U, F, F'.
    destruct (alarm_range r) as [[range0 asev0] alev0]. cbv zeta.
    destruct (range_level _ _ _ _) as [asev alev]. rewrite <- U.
    match goal with |- context [set_alarm r (calc_common r) (cval r) ?af] =>
      match goal with |- context [range_stat !! Z.to_nat ?k] => destruct (range_alarm_keeps r k asev alev af) as [H|H] end end; auto.
Qed.

(** The end of [process], after the calculation. *)
Definition finish (env : time_env) (r : calcRecord) : ca_m calcRecord :=
  let timeLast := time (calc_common r) in
  let r := set_cc r (recGblGetTimeStamp env (calc_common r)) in
  let* r := checkAlarms r timeLast in
  let r := monitor r in
  inr (set_cc r (set_pact (recGblFwdLink (calc_common r)) false)).

Lemma finish_keeps env r :
  (exists r', finish env r = inr r' /\ cval r' = cval r /\ ca r' = ca r /\ udf (calc_common r') = udf (calc_common r) /\
    pact (calc_common r') = false) \/ overrun r (finish env r).
Proof.
  unfold finish.
  destruct (checkAlarms_keeps (set_cc r (recGblGetTimeStamp env (calc_common r))) (time (calc_common r)))
    as [(r1 & -> & V & A & U)|(Aftc & k & -> & K)]; [left|right; split; [done|by exists k]]. cbn [ebind].
  destruct (monitor_keeps r1) as (V' & A' & U'). eexists. split; [done|].
  unfold set_cc, set_pact in *. cbn [calc_common cval ca udf pact] in *.
  rewrite fwd_link_udf, V', A', U', V, A, U, time_stamp_udf. done.
Qed.

Lemma fetch_links_length links : forall values st c, length (fetch_links links values st c).1.2 = length values.
Proof.
  induction links as [|l links IH]; intros [|v values] st c; try done. simpl.
  destruct (dbGetLink l v c) as [[st' v'] c'].
  match goal with |- context [fetch_links _ ?a ?b ?c] => pose proof (IH a b c) as H end.
  destruct (fetch_links _ _ _ _) as [[? ?] ?]. simpl in *. by rewrite H.
Qed.

Lemma fetch_links_udf links : forall values st c, udf (fetch_links links values st c).2 = udf c.
Proof.
  induction links as [|l links IH]; intros [|v values] st c; try done. simpl. pose proof (get_link_udf l v c) as U.
  destruct (dbGetLink l v c) as [[st' v'] c'].
  match goal with |- context [fetch_links _ ?a ?b ?c] => pose proof (IH a b c) as H end.
  destruct (fetch_links _ _ _ _) as [[? ?] ?]. simpl in *. congruence.
Qed.

Lemma process_finish m env seed r :
  process m env seed r =
    let '(status, r) := fetch_values (set_cc r (set_pact (calc_common r) true)) in
    let* '(seed, r) := if status =? 0 then perform m seed r else inr (seed, r) in
    let* r := finish env r in inr (seed, r).
Proof.
  unfold process, finish. destruct (fetch_values _) as [status r1]. destruct (if _ =? 0 then _ else _) as [|[seed' r2]]; [done|].
  cbn [ebind]. by destruct (checkAlarms _ _).
Qed.

(** (C29) A calc record computes its expression.  Writing the text of a program of the expression language into
    CALC compiles it; processing then reads the inputs and, when that succeeds, sets VAL to the meaning of the
    program on the inputs (and A to L to the arguments after its assignments) and UDF to
    whether that is a NaN.  When a link fails VAL and UDF are kept.  Two things stop it: a trap of the program
    itself, and, with the level filter on (AFTC > 0), a filtered alarm range outside of the table of
    the statuses, which the record would read ([filter_overrun]). *)
Theorem calc_process_evaluates m env seed r p :
  wf_program p -> calc r = print_program p -> zlen (compile_program p) <= INFIX_TO_POSTFIX_SIZE 80 ->
  length (ca r) = CALCPERFORM_NARGS ->
  exists r1, special r SPC_CALC true = inr (0, r1) /\
    let '(status, r2) := fetch_values (set_cc r1 (set_pact (calc_common r1) true)) in
    match (if status =? 0 then eval_program m p (mkE (ca r2) (cval r) seed) else inr (cval r, mkE (ca r2) (cval r) seed)) with
    | inl f => process m env seed r1 = inl (ca_perform f)
    | inr (v, es) =>
        (exists r', process m env seed r1 = inr (eseed es, r') /\
          cval r' = v /\ ca r' = eargs es /\ pact (calc_common r') = false /\
          udf (calc_common r') = (if status =? 0 then isnan v else udf (calc_common r))) \/
        overrun r (process m env seed r1)
    end.
Proof.
  intros W T C L. exists (set_rpcl r (compile_program p)). split.
  { unfold special, compile_calc. rewrite T, compile_program_ok; [done..|]. unfold RPCL_SIZE. rewrite Z2Nat.id by done. done. }
  rewrite process_finish. set (r0 := set_cc _ _). unfold fetch_values.
  pose proof (fetch_links_length (cinp r0) (ca r0) 0 (calc_common r0)) as FL.
  pose proof (fetch_links_udf (cinp r0) (ca r0) 0 (calc_common r0)) as FU.
  destruct (fetch_links _ _ _ _) as [[status x] c]. cbn [fst snd] in FL, FU. set (r2 := set_args r0 c (cval r0) x).
  destruct (status =? 0).
  - unfold perform. change (rpcl r2) with (compile_program p). rewrite run_program_code; [|done|by change (ca r2) with x; rewrite FL].
    destruct (eval_program _ _ _) as [f|[v es]]; [done|]. cbn [ebind]. set (r3 := set_args r2 _ v (eargs es)).
    destruct (finish_keeps env r3) as [(r' & -> & V & A & U & Pa)|(Aftc & k & -> & K)]; [left|right; split; [done|by exists k]].
    exists r'. split_and!; done.
  - cbn [ebind]. destruct (finish_keeps env r2) as [(r' & -> & V & A & U & Pa)|(Aftc & k & -> & K)]; [left|right; split; [done|by exists k]].
    exists r'. split_and!; try done. by rewrite U.
Qed.

(** [A + B], with the value of another record, 10, read into A. *)
Definition sum : program := mkProgram [] (Bin (find_element "+" operators) (opd "A") (opd "B")).
Definition sum_record : calcRecord :=
  mkCalc quiet_record 0 (print_program sum) [] (link_value 10%float pvlOptMS 0 0 :: replicate 11 link_constant) args12
    (replicate 12 0%float) (climits (a_calc "" 0 0 0 0)) 0 0 0 0 0 0 0.

Lemma calc_process_evaluates_witness :
  exists r1 r', special sum_record SPC_CALC true = inr (0, r1) /\ process libm0 no_time 7 r1 = inr (7, r') /\ cval r' = 12%float.
Proof.
  assert (W : wf_program sum).
  { split; [apply Forall_nil; done|]. cbn -[literal operands operators].
    split_and!; first [apply (bool_decide_unpack _); vm_compute; exact I
        | apply list_elem_of_In; vm_compute; repeat first [left; reflexivity | right] | lia]. }
  destruct (calc_process_evaluates libm0 no_time 7 sum_record sum W eq_refl ltac:(vm_compute; discriminate) eq_refl)
    as (r1 & E & H).
  assert (r1 = set_rpcl sum_record (compile_program sum)) as -> by (vm_compute in E; vm_compute; congruence).
  destruct H as [(r' & P & V & _)|[H _]]; [|by vm_compute in H]. exists (set_rpcl sum_record (compile_program sum)), r'. split; [exact E|split; [exact P|exact V]].
Defined.
