(* ===== verification/ListLib.v ===== *)
(** * What users of linked lists rely on

    The interface between [ellLib.c] and the code that keeps things in lists ({!GpHash}).  The abstract state is a
    {!world}: what every list holds and which nodes are allocated.  {!ListLib} is the operations with a
    law each; {!EllRefine} has the instance of [ellLib.c]. *)

From stdpp Require Import base numbers list option gmap fin_maps.
From Stdlib Require Import ZArith Lia.
From S2P Require Import Prelude.

(** ** The abstract state *)

Record world := mkWorld { contents : gmap nat (list nat); alloc : gset nat }.

Definition put (w : world) (l : nat) (xs : list nat) : world := mkWorld (<[l := xs]> (contents w)) (alloc w).
(** A list header, a node that is no longer there, and a new node. *)
Definition forget (w : world) (l : nat) : world := mkWorld (delete l (contents w)) (alloc w).
Definition shrink (w : world) (x : nat) : world := mkWorld (contents w) (alloc w ∖ {[x]}).
Definition grow (w : world) (x : nat) : world := mkWorld (contents w) ({[x]} ∪ alloc w).

Definition empty_world : world := mkWorld ∅ ∅.

(** A node that is in no list. *)
Definition is_free (w : world) (x : nat) : Prop :=
  x ∈ alloc w /\ map_Forall (fun _ xs => x ∉ xs) (contents w).
#[global] Instance is_free_dec w x : Decision (is_free w x).
Proof. unfold is_free. apply _. Defined.

Lemma free_not_in w l xs x : is_free w x -> contents w !! l = Some xs -> x ∉ xs.
Proof. intros [_ F] E. by apply (F l xs). Qed.

(** The number of nodes an [int] can count. *)
Definition room (w : world) : Prop := Z.of_nat (size (alloc w)) < 2 ^ 31 - 2.
#[global] Instance room_dec w : Decision (room w).
Proof. unfold room. apply _. Defined.

(** ** The interface *)

(** [E] are the faults and [S] the stores of an implementation; [holds] is its invariant. *)
Class ListLib (E S : Type) := {
  empty_store : S;
  node_calloc : S -> nat -> S;
  node_free : S -> nat -> E + S;
  list_free : S -> nat -> S;
  ellInit : S -> nat -> S;
  ellFirst : S -> nat -> E + option nat;
  ellNext : S -> nat -> E + option nat;
  ellAdd : S -> nat -> nat -> E + S;
  ellDelete : S -> nat -> nat -> E + S;
  holds : S -> world -> Prop;
  holds_empty : holds empty_store empty_world;
  holds_calloc s w x : holds s w -> x ∉ alloc w -> room w -> holds (node_calloc s x) (grow w x);
  holds_free s w x : holds s w -> is_free w x -> exists s', node_free s x = inr s' /\ holds s' (shrink w x);
  holds_init s w l : holds s w -> holds (ellInit s l) (put w l []);
  holds_list_free s w l : holds s w -> contents w !! l = Some [] -> holds (list_free s l) (forget w l);
  first_law s w l xs : holds s w -> contents w !! l = Some xs -> ellFirst s l = inr (head xs);
  next_law s w l a x b : holds s w -> contents w !! l = Some (a ++ x :: b) -> ellNext s x = inr (head b);
  add_law s w l xs x : holds s w -> contents w !! l = Some xs -> is_free w x ->
    exists s', ellAdd s l x = inr s' /\ holds s' (put w l (xs ++ [x]));
  delete_law s w l a x b : holds s w -> contents w !! l = Some (a ++ x :: b) ->
    exists s', ellDelete s l x = inr s' /\ holds s' (put w l (a ++ b));
  holds_nodup s w l xs : holds s w -> contents w !! l = Some xs -> NoDup xs;
  holds_disjoint s w l l' xs xs' x :
    holds s w -> contents w !! l = Some xs -> contents w !! l' = Some xs' -> x ∈ xs -> x ∈ xs' -> l = l';
  holds_alloc s w l xs x : holds s w -> contents w !! l = Some xs -> x ∈ xs -> x ∈ alloc w }.
