(* ===== verification/EllLib.v ===== *)
(** * Linked lists ([modules/libcom/src/ellLib/ellLib.c])

    Nodes and list headers are in a store, by their addresses, so that a node that is in two lists or a list
    that is both arguments of a call behaves as in the C code.  The use of NULL or of an address
    that holds no node is a fault ({!ell_fault}). *)

From stdpp Require Import base numbers list option gmap.
From Stdlib Require Import ZArith Lia Bool.
From S2P Require Import Prelude.

(** ** Data *)

Record ELLNODE := mkNode { next : option nat; previous : option nat }.

(** [node.next] and [node.previous] of the header are {!first} and {!final}. *)
Record ELLLIST := mkList { first : option nat; final : option nat; count : Z }.

Record ell_state := mkEll { nodes : gmap nat ELLNODE; lists : gmap nat ELLLIST }.

Inductive ell_fault :=
| ell_null      (** NULL is dereferenced *)
| ell_wild      (** no node, or no list, is at the address *)
| ell_assert    (** an assertion fails *)
| ell_fuel.     (** not an outcome of the code *)

Notation el A := (ell_fault + A)%type.

Definition int32 (z : Z) : Z := wrap_s 32 z.

(** ** The store *)

Definition node_at (st : ell_state) (p : option nat) : el ELLNODE :=
  match p with
  | None => inl ell_null
  | Some x => match nodes st !! x with Some n => inr n | None => inl ell_wild end
  end.

Definition set_node (st : ell_state) (p : option nat) (n : ELLNODE) : ell_state :=
  match p with Some x => mkEll (<[x := n]> (nodes st)) (lists st) | None => st end.

(** [p->next = q] and [p->previous = q] *)
Definition set_next (st : ell_state) (p q : option nat) : el ell_state :=
  let* n := node_at st p in inr (set_node st p (mkNode q (previous n))).
Definition set_previous (st : ell_state) (p q : option nat) : el ell_state :=
  let* n := node_at st p in inr (set_node st p (mkNode (next n) q)).

Definition list_at (st : ell_state) (l : nat) : el ELLLIST :=
  match lists st !! l with Some h => inr h | None => inl ell_wild end.

Definition set_list (st : ell_state) (l : nat) (h : ELLLIST) : ell_state :=
  mkEll (nodes st) (<[l := h]> (lists st)).

Definition set_first (h : ELLLIST) (p : option nat) : ELLLIST := mkList p (final h) (count h).
Definition set_final (h : ELLLIST) (p : option nat) : ELLLIST := mkList (first h) p (count h).
Definition set_count (h : ELLLIST) (n : Z) : ELLLIST := mkList (first h) (final h) (int32 n).

(** [pList->field = ...] for the three fields *)
Definition list_first (st : ell_state) (l : nat) (p : option nat) : el ell_state :=
  let* h := list_at st l in inr (set_list st l (set_first h p)).
Definition list_final (st : ell_state) (l : nat) (p : option nat) : el ell_state :=
  let* h := list_at st l in inr (set_list st l (set_final h p)).
Definition list_count (st : ell_state) (l : nat) (f : Z -> Z) : el ell_state :=
  let* h := list_at st l in inr (set_list st l (set_count h (f (count h)))).

(** ** Operations *)

Definition ellInit (st : ell_state) (l : nat) : ell_state := set_list st l (mkList None None 0).

Definition ellAdd (st : ell_state) (pList pNode : nat) : el ell_state :=
  let* st := set_next st (Some pNode) None in
  let* h := list_at st pList in
  let* st := set_previous st (Some pNode) (final h) in
  let* st :=
    if negb (count h =? 0) then set_next st (final h) (Some pNode) else list_first st pList (Some pNode) in
  let* st := list_final st pList (Some pNode) in
  list_count st pList (fun n => n + 1).

Definition ellConcat (st : ell_state) (pDstList pAddList : nat) : el ell_state :=
  let* a := list_at st pAddList in
  if count a =? 0 then inr st else
  let* d := list_at st pDstList in
  let* st :=
    if count d =? 0 then inr (set_list st pDstList (mkList (first a) (final a) (count a)))
    else
      let* st := set_next st (final d) (first a) in
      let* st := set_previous st (first a) (final d) in
      let* st := list_final st pDstList (final a) in
      list_count st pDstList (fun n => n + count a) in
  let* st := list_count st pAddList (fun _ => 0) in
  let* st := list_first st pAddList None in
  list_final st pAddList None.

Definition ellDelete (st : ell_state) (pList pNode : nat) : el ell_state :=
  let* h := list_at st pList in
  let* n := node_at st (Some pNode) in
  let* st :=
    if decide (final h = Some pNode) then list_final st pList (previous n)
    else set_previous st (next n) (previous n) in
  let* h := list_at st pList in
  let* n := node_at st (Some pNode) in
  let* st :=
    if decide (first h = Some pNode) then list_first st pList (next n)
    else set_next st (previous n) (next n) in
  list_count st pList (fun n => n - 1).

(** The loop that counts the nodes of a sublist. *)
Fixpoint count_to (fuel : nat) (st : ell_state) (pnode : option nat) (pEndNode : nat) (count : Z) : el Z :=
  match fuel with
  | O => inl ell_fuel
  | S fuel =>
      if decide (pnode = Some pEndNode) then inr count
      else let* n := node_at st pnode in count_to fuel st (next n) pEndNode (int32 (count + 1))
  end.

(** Enough steps to walk through every list. *)
Definition walk (st : ell_state) : nat := S (S (size (nodes st))).

(** [ellExtract] cuts the sublist out of the source list, *)
Definition extract_cut (st : ell_state) (pSrcList pStartNode pEndNode : nat) : el ell_state :=
  let* s := node_at st (Some pStartNode) in
  let* e := node_at st (Some pEndNode) in
  let* st := if decide (previous s <> None) then set_next st (previous s) (next e) else list_first st pSrcList (next e) in
  let* s := node_at st (Some pStartNode) in
  let* e := node_at st (Some pEndNode) in
  if decide (next e <> None) then
    let* st := set_previous st (next e) (previous s) in set_next st (Some pEndNode) None
  else list_final st pSrcList (previous s).

(** places it into the destination list *)
Definition extract_place (st : ell_state) (pStartNode pEndNode pDstList : nat) : el ell_state :=
  let* d := list_at st pDstList in
  let* st := set_previous st (Some pStartNode) (final d) in
  let* st :=
    if negb (count d =? 0) then set_next st (final d) (Some pStartNode) else list_first st pDstList (Some pStartNode) in
  list_final st pDstList (Some pEndNode).

(** and adjusts the counts. *)
Definition ellExtract (st : ell_state) (pSrcList pStartNode pEndNode pDstList : nat) : el ell_state :=
  let* st := extract_cut st pSrcList pStartNode pEndNode in
  let* st := extract_place st pStartNode pEndNode pDstList in
  let* c := count_to (walk st) st (Some pStartNode) pEndNode 1 in
  let* st := list_count st pSrcList (fun n => n - c) in
  list_count st pDstList (fun n => n + c).

Definition ellGet (st : ell_state) (pList : nat) : el (option nat * ell_state) :=
  let* h := list_at st pList in
  match first h with
  | Some pnode => let* st := ellDelete st pList pnode in inr (Some pnode, st)
  | None => inr (None, st)
  end.

Definition ellPop (st : ell_state) (pList : nat) : el (option nat * ell_state) :=
  let* h := list_at st pList in
  match final h with
  | Some pnode => let* st := ellDelete st pList pnode in inr (Some pnode, st)
  | None => inr (None, st)
  end.

Definition ellInsert (st : ell_state) (plist : nat) (pPrev : option nat) (pNode : nat) : el ell_state :=
  let* st :=
    match pPrev with
    | Some _ =>
        let* st := set_previous st (Some pNode) pPrev in
        let* p := node_at st pPrev in
        let* st := set_next st (Some pNode) (next p) in
        set_next st pPrev (Some pNode)
    | None =>
        let* st := set_previous st (Some pNode) None in
        let* h := list_at st plist in
        let* st := set_next st (Some pNode) (first h) in
        list_first st plist (Some pNode)
    end in
  let* n := node_at st (Some pNode) in
  let* st :=
    match next n with
    | None => list_final st plist (Some pNode)
    | Some _ => set_previous st (next n) (Some pNode)
    end in
  list_count st plist (fun n => n + 1).

(** [n] times [pnode = pnode->next] or [pnode->previous] *)
Fixpoint steps (dir : ELLNODE -> option nat) (n : nat) (st : ell_state) (pnode : option nat) : el (option nat) :=
  match n with
  | O => inr pnode
  | S n => let* nd := node_at st pnode in steps dir n st (dir nd)
  end.

Definition ellNth (st : ell_state) (pList : nat) (nodeNum : Z) : el (option nat) :=
  let* h := list_at st pList in
  if (nodeNum <? 1) || (count h =? 0) then inr None
  else if Z.quot (count h) 2 <? nodeNum then
    if count h <? nodeNum then inr None
    else steps previous (Z.to_nat (count h - nodeNum)) st (final h)
  else steps next (Z.to_nat (nodeNum - 1)) st (first h).

(** The loops of [ellNStep]: they stop at NULL. *)
Fixpoint steps_to_null (dir : ELLNODE -> option nat) (n : nat) (st : ell_state) (pNode : option nat) : el (option nat) :=
  match n, pNode with
  | S n, Some _ => let* nd := node_at st pNode in steps_to_null dir n st (dir nd)
  | _, _ => inr pNode
  end.

Definition ellNStep (st : ell_state) (pNode : option nat) (nStep : Z) : el (option nat) :=
  if 0 <? nStep then steps_to_null next (Z.to_nat nStep) st pNode
  else steps_to_null previous (Z.to_nat (- nStep)) st pNode.

Fixpoint find_loop (fuel : nat) (st : ell_state) (got : option nat) (pNode : nat) (count : Z) : el Z :=
  match fuel with
  | O => inl ell_fuel
  | S fuel =>
      match got with
      | None => inr (-1)
      | Some x =>
          if decide (x = pNode) then inr count
          else let* n := node_at st got in find_loop fuel st (next n) pNode (int32 (count + 1))
      end
  end.

Definition ellFind (st : ell_state) (pList pNode : nat) : el Z :=
  let* h := list_at st pList in find_loop (walk st) st (first h) pNode 1.

(** [freeFunc] is [free]: the node is gone. *)
Definition freeFunc (st : ell_state) (x : nat) : el ell_state :=
  let* _ := node_at st (Some x) in inr (mkEll (delete x (nodes st)) (lists st)).

Fixpoint free_loop (fuel : nat) (st : ell_state) (nnode : option nat) : el ell_state :=
  match fuel with
  | O => inl ell_fuel
  | S fuel =>
      match nnode with
      | None => inr st
      | Some pnode =>
          let* n := node_at st nnode in
          let* st := freeFunc st pnode in
          free_loop fuel st (next n)
      end
  end.

Definition ellFree2 (st : ell_state) (pList : nat) : el ell_state :=
  let* h := list_at st pList in
  let* st := free_loop (walk st) st (first h) in
  let* st := list_first st pList None in
  let* st := list_final st pList None in
  list_count st pList (fun _ => 0).

(** [assert] *)
Definition assert (b : bool) : el unit := if b then inr tt else inl ell_assert.

(** The loop of [ellVerify]: the last node and the number of nodes. *)
Fixpoint verify_loop (fuel : nat) (st : ell_state) (pNode : option nat) (count : Z) : el (option nat * Z) :=
  match fuel with
  | O => inl ell_fuel
  | S fuel =>
      let* n := node_at st pNode in
      match next n with
      | Some _ =>
          let* nn := node_at st (next n) in
          let* _ := assert (bool_decide (previous nn = pNode)) in
          verify_loop fuel st (next n) (int32 (count + 1))
      | None => inr (pNode, int32 (count + 1))
      end
  end.

Definition ellVerify (st : ell_state) (pList : nat) : el unit :=
  let* h := list_at st pList in
  let* '(pNode, c) :=
    match first h with
    | Some _ =>
        let* n := node_at st (first h) in
        let* _ := assert (bool_decide (previous n = None)) in
        verify_loop (walk st) st (first h) 0
    | None => inr (None, 0)
    end in
  let* _ := assert (bool_decide (pNode = final h)) in
  assert (c =? count h).
