(* ===== verification/EllProof.v ===== *)
(** * Linked lists: every operation is one on sequences

    {!inv} says that a store represents a {!world} of {!ListLib}. *)

From stdpp Require Import base numbers list option gmap fin_maps fin_map_dom.
From Stdlib Require Import ZArith Lia Bool.
From S2P Require Import Prelude ListLib EllLib.

(** ** Segments *)

(** The first and the last node, if there is one. *)
Definition hd (xs : list nat) (n : option nat) : option nat := match xs with x :: _ => Some x | [] => n end.
Fixpoint lst (p : option nat) (xs : list nat) : option nat := match xs with [] => p | x :: xs => lst (Some x) xs end.

(** The nodes [xs], between [p] and [n]. *)
Fixpoint seg (m : gmap nat ELLNODE) (p : option nat) (xs : list nat) (n : option nat) : Prop :=
  match xs with
  | [] => True
  | x :: xs => m !! x = Some (mkNode (hd xs n) p) /\ seg m (Some x) xs n
  end.

Definition header (xs : list nat) : ELLLIST := mkList (hd xs None) (lst None xs) (zlen xs).

Lemma hd_app xs ys n : hd (xs ++ ys) n = hd xs (hd ys n).
Proof. by destruct xs. Qed.

Lemma hd_head xs : hd xs None = head xs.
Proof. by destruct xs. Qed.

Lemma lst_app p xs ys : lst p (xs ++ ys) = lst (lst p xs) ys.
Proof. revert p. induction xs as [|x xs IH]; intros p; simpl; [done|apply IH]. Qed.

Lemma hd_in xs x : hd xs None = Some x -> x ∈ xs.
Proof. destruct xs as [|y xs]; [done|]. intros [= ->]. by left. Qed.

Lemma lst_in xs x : lst None xs = Some x -> x ∈ xs.
Proof.
  destruct xs as [|y xs] using rev_ind; [done|]. rewrite lst_app. intros [= ->]. set_solver.
Qed.

Lemma lst_none xs : lst None xs = None -> xs = [].
Proof. destruct xs as [|y xs] using rev_ind; [done|]. by rewrite lst_app. Qed.

Lemma hd_none xs : hd xs None = None -> xs = [].
Proof. by destruct xs. Qed.

Lemma seg_app m p xs ys n : seg m p (xs ++ ys) n <-> seg m p xs (hd ys n) /\ seg m (lst p xs) ys n.
Proof.
  revert p. induction xs as [|x xs IH]; intros p; simpl; [naive_solver|]. rewrite IH, hd_app. tauto.
Qed.

Lemma seg_frame m m' p xs n : (forall x, x ∈ xs -> m' !! x = m !! x) -> seg m p xs n -> seg m' p xs n.
Proof.
  revert p. induction xs as [|x xs IH]; intros p F; simpl; [done|]. intros [L S]. split.
  - rewrite F; [done|set_solver].
  - apply IH; [set_solver|done].
Qed.

Lemma seg_lookup m p xs n x : seg m p xs n -> x ∈ xs -> is_Some (m !! x).
Proof.
  revert p. induction xs as [|y xs IH]; intros p; simpl; [set_solver|]. intros [L S] [->|E]%elem_of_cons; eauto.
Qed.

Lemma seg_node m p a x b n : seg m p (a ++ x :: b) n -> m !! x = Some (mkNode (hd b n) (lst p a)).
Proof. rewrite seg_app. simpl. tauto. Qed.

(** ** Changes of a link *)

Definition upd_next (m : gmap nat ELLNODE) (o q : option nat) : gmap nat ELLNODE :=
  match o with Some x => alter (fun n => mkNode q (previous n)) x m | None => m end.
Definition upd_prev (m : gmap nat ELLNODE) (o q : option nat) : gmap nat ELLNODE :=
  match o with Some x => alter (fun n => mkNode (next n) q) x m | None => m end.

Lemma upd_next_ne m o q y : o <> Some y -> upd_next m o q !! y = m !! y.
Proof. destruct o; simpl; [|done]. intros N. apply lookup_alter_ne. congruence. Qed.
Lemma upd_prev_ne m o q y : o <> Some y -> upd_prev m o q !! y = m !! y.
Proof. destruct o; simpl; [|done]. intros N. apply lookup_alter_ne. congruence. Qed.

Lemma dom_upd_next m o q : dom (upd_next m o q) = dom m.
Proof. destruct o; simpl; [apply dom_alter_L|done]. Qed.
Lemma dom_upd_prev m o q : dom (upd_prev m o q) = dom m.
Proof. destruct o; simpl; [apply dom_alter_L|done]. Qed.

Lemma seg_upd_next m p xs n o q : (forall x, o = Some x -> x ∉ xs) -> seg m p xs n -> seg (upd_next m o q) p xs n.
Proof. intros D. apply seg_frame. intros x E. apply upd_next_ne. intros ->. by apply (D x). Qed.
Lemma seg_upd_prev m p xs n o q : (forall x, o = Some x -> x ∉ xs) -> seg m p xs n -> seg (upd_prev m o q) p xs n.
Proof. intros D. apply seg_frame. intros x E. apply upd_prev_ne. intros ->. by apply (D x). Qed.

(** The end and the beginning of a segment are linked to something else. *)
Lemma seg_relink_last m p xs n q : NoDup xs -> seg m p xs n -> seg (upd_next m (lst None xs) q) p xs q.
Proof.
  destruct xs as [|x xs _] using rev_ind; [done|]. rewrite lst_app. simpl. intros (_ & D & _)%NoDup_app.
  rewrite !seg_app. simpl. intros [S [L _]]. split_and!; [|by rewrite lookup_alter, decide_True, L|done].
  apply (seg_upd_next m _ _ _ (Some x)); [|done]. intros y [= <-] E. apply (D x E). set_solver.
Qed.

Lemma seg_relink_first m p xs n q : NoDup xs -> seg m p xs n -> seg (upd_prev m (hd xs None) q) q xs n.
Proof.
  destruct xs as [|x xs]; [done|]. simpl. intros [D _]%NoDup_cons [L S]. split; [by rewrite lookup_alter, decide_True, L|].
  apply (seg_upd_prev m _ _ _ (Some x)); [|done]. by intros y [= <-].
Qed.

Lemma set_next_ok st o q :
  (forall x, o = Some x -> is_Some (nodes st !! x)) -> o <> None ->
  set_next st o q = inr (mkEll (upd_next (nodes st) o q) (lists st)).
Proof.
  destruct o as [x|]; [|done]. intros H _. destruct (H x eq_refl) as [n E]. unfold set_next. simpl. rewrite E. simpl.
  do 2 f_equal. apply map_eq. intros y. rewrite lookup_alter. destruct (decide (x = y)) as [<-|N].
  - by rewrite lookup_insert_eq, E.
  - by rewrite lookup_insert_ne.
Qed.

Lemma set_previous_ok st o q :
  (forall x, o = Some x -> is_Some (nodes st !! x)) -> o <> None ->
  set_previous st o q = inr (mkEll (upd_prev (nodes st) o q) (lists st)).
Proof.
  destruct o as [x|]; [|done]. intros H _. destruct (H x eq_refl) as [n E]. unfold set_previous. simpl. rewrite E. simpl.
  do 2 f_equal. apply map_eq. intros y. rewrite lookup_alter. destruct (decide (x = y)) as [<-|N].
  - by rewrite lookup_insert_eq, E.
  - by rewrite lookup_insert_ne.
Qed.

(** ** The invariant *)

Record inv (st : ell_state) (w : world) : Prop := mkInv {
  inv_lists : lists st = header <$> contents w;
  inv_seg : forall l xs, contents w !! l = Some xs -> seg (nodes st) None xs None /\ NoDup xs;
  inv_disj : forall l l' xs xs' x, contents w !! l = Some xs -> contents w !! l' = Some xs' -> x ∈ xs -> x ∈ xs' -> l = l';
  inv_alloc : alloc w = dom (nodes st);
  inv_size : Z.of_nat (size (nodes st)) < 2 ^ 31 - 1 }.

Lemma inv_list st w l xs : inv st w -> contents w !! l = Some xs -> lists st !! l = Some (header xs).
Proof. intros I E. by rewrite (inv_lists _ _ I), lookup_fmap, E. Qed.

Lemma inv_node st w l xs x : inv st w -> contents w !! l = Some xs -> x ∈ xs -> is_Some (nodes st !! x).
Proof. intros I E H. by eapply seg_lookup; [apply (inv_seg _ _ I l)|]. Qed.

Lemma inv_free st w x : inv st w -> is_free w x -> is_Some (nodes st !! x).
Proof. intros I [H _]. rewrite (inv_alloc _ _ I) in H. by apply elem_of_dom in H. Qed.

Lemma nodup_size xs (m : gmap nat ELLNODE) : NoDup xs -> (forall x, x ∈ xs -> is_Some (m !! x)) -> (length xs <= size m)%nat.
Proof.
  intros N H. rewrite <- size_dom. rewrite <- (size_list_to_set (C := gset nat) xs N). apply subseteq_size.
  intros x Hx. apply elem_of_dom, H. set_solver.
Qed.

Lemma inv_length st w l xs : inv st w -> contents w !! l = Some xs -> zlen xs < 2 ^ 31.
Proof.
  intros I E. pose proof (inv_size _ _ I). destruct (inv_seg _ _ I l xs E) as [S N].
  pose proof (nodup_size xs (nodes st) N (fun x => seg_lookup _ _ _ _ x S)). lia.
Qed.

Lemma int32_id z : 0 <= z < 2 ^ 31 -> int32 z = z.
Proof. intros H. apply wrap_s_id; [lia|]. unfold fits_s. lia. Qed.

(** Two lists have different nodes, and not too many. *)
Lemma inv_app st w d a ys xs :
  inv st w -> d <> a -> contents w !! d = Some ys -> contents w !! a = Some xs ->
  NoDup (ys ++ xs) /\ zlen (ys ++ xs) < 2 ^ 31.
Proof.
  intros I Ne Ed Ea. assert (N : NoDup (ys ++ xs)).
  { apply NoDup_app. split_and!; [by apply (inv_seg _ _ I d)| |by apply (inv_seg _ _ I a)].
    intros y Y Y'. apply Ne. by apply (inv_disj _ _ I d a ys xs y). }
  split; [done|]. pose proof (inv_size _ _ I).
  assert (length (ys ++ xs) <= size (nodes st))%nat; [|lia].
  apply nodup_size; [done|]. intros z [Hz|Hz]%elem_of_app;
    [apply (inv_node _ _ _ _ _ I Ed Hz)|apply (inv_node _ _ _ _ _ I Ea Hz)].
Qed.

(** A change of the lists [T], all others being kept. *)
Lemma inv_change (T : nat -> Prop) st w st' w' :
  (forall l, T l \/ ~ T l) -> inv st w -> lists st' = header <$> contents w' -> alloc w' = dom (nodes st') ->
  Z.of_nat (size (nodes st')) < 2 ^ 31 - 1 ->
  (forall l xs, T l -> contents w' !! l = Some xs -> seg (nodes st') None xs None /\ NoDup xs) ->
  (forall l xs, ~ T l -> contents w' !! l = Some xs ->
     contents w !! l = Some xs /\ forall x, x ∈ xs -> nodes st' !! x = nodes st !! x) ->
  (forall l l' xs xs' x, T l -> contents w' !! l = Some xs -> contents w' !! l' = Some xs' -> x ∈ xs -> x ∈ xs' -> l = l') ->
  inv st' w'.
Proof.
  intros Dec I L A S Hin Hout Hd. constructor; try done.
  - intros l xs E. destruct (Dec l) as [Tl|Tl]; [by apply (Hin l)|]. destruct (Hout l xs Tl E) as [E' F].
    destruct (inv_seg _ _ I l xs E') as [Sg N]. split; [|done]. by apply (seg_frame (nodes st)).
  - intros l l' xs xs' x E E' X X'. destruct (Dec l) as [Tl|Tl]; [by apply (Hd l l' xs xs' x)|].
    destruct (Dec l') as [Tl'|Tl']; [by symmetry; apply (Hd l' l xs' xs x)|].
    apply (inv_disj _ _ I l l' xs xs' x); by (eapply Hout || done).
Qed.

(** One list changes, to nodes that were in it or in no list. *)
Lemma inv_one st w l xs xs' m' :
  inv st w -> contents w !! l = Some xs -> NoDup xs' -> (forall x, x ∈ xs' -> x ∈ xs \/ is_free w x) ->
  dom m' = dom (nodes st) -> (forall y, y ∉ xs -> y ∉ xs' -> m' !! y = nodes st !! y) -> seg m' None xs' None ->
  inv (mkEll m' (<[l := header xs']> (lists st))) (put w l xs').
Proof.
  intros I E N Sub D F Sg.
  assert (Out : forall l' ys y, l' <> l -> contents w !! l' = Some ys -> y ∈ ys -> y ∉ xs /\ y ∉ xs').
  { intros l' ys y Ne E' Y. assert (y ∉ xs) by (intros Y'; apply Ne; by apply (inv_disj _ _ I l' l ys xs y)).
    split; [done|]. intros [?|Fr]%Sub; [done|]. by apply (free_not_in _ _ _ _ Fr E'). }
  apply (inv_change (fun l' => l' = l) st w); simpl.
  - intros l'. destruct (decide (l' = l)); auto.
  - done.
  - by rewrite (inv_lists _ _ I), fmap_insert.
  - by rewrite D, (inv_alloc _ _ I).
  - rewrite <- size_dom, D, size_dom. apply (inv_size _ _ I).
  - intros l' ys ->. rewrite lookup_insert_eq. by intros [= <-].
  - intros l' ys Ne. rewrite lookup_insert_ne by done. intros E'. split; [done|]. intros y Y.
    destruct (Out l' ys y Ne E' Y). by apply F.
  - intros l1 l2 ys zs y ->. rewrite lookup_insert_eq. intros [= <-] E2 Y Z.
    destruct (decide (l2 = l)) as [->|Ne]; [done|]. rewrite lookup_insert_ne in E2 by done.
    by destruct (Out l2 zs y Ne E2 Z).
Qed.

(** Two lists change, and share out the same nodes. *)
Lemma inv_two st w l1 l2 xs1 xs2 ys1 ys2 m' :
  inv st w -> l1 <> l2 -> contents w !! l1 = Some xs1 -> contents w !! l2 = Some xs2 ->
  NoDup (ys1 ++ ys2) -> (forall x, x ∈ ys1 ++ ys2 -> x ∈ xs1 ++ xs2) ->
  dom m' = dom (nodes st) -> (forall y, y ∉ xs1 -> y ∉ xs2 -> m' !! y = nodes st !! y) ->
  seg m' None ys1 None -> seg m' None ys2 None ->
  inv (mkEll m' (<[l2 := header ys2]> (<[l1 := header ys1]> (lists st)))) (put (put w l1 ys1) l2 ys2).
Proof.
  intros I Ne E1 E2 N Sub D F S1 S2. apply NoDup_app in N as (N1 & N12 & N2).
  assert (Out : forall l' ys y, l' <> l1 -> l' <> l2 -> contents w !! l' = Some ys -> y ∈ ys ->
    y ∉ xs1 /\ y ∉ xs2 /\ y ∉ ys1 /\ y ∉ ys2).
  { intros l' ys y A B E' Y. assert (y ∉ xs1) by (intros Y'; apply A; by apply (inv_disj _ _ I l' l1 ys xs1 y)).
    assert (y ∉ xs2) by (intros Y'; apply B; by apply (inv_disj _ _ I l' l2 ys xs2 y)).
    split_and!; [done..| |]; intros H'; destruct (proj1 (elem_of_app _ _ _) (Sub y ltac:(set_solver))); done. }
  apply (inv_change (fun l' => l' = l1 \/ l' = l2) st w); simpl.
  - intros l'. destruct (decide (l' = l1)), (decide (l' = l2)); tauto.
  - done.
  - by rewrite (inv_lists _ _ I), !fmap_insert.
  - by rewrite D, (inv_alloc _ _ I).
  - rewrite <- size_dom, D, size_dom. apply (inv_size _ _ I).
  - intros l' ys [->| ->]; [rewrite lookup_insert_ne by done|]; rewrite lookup_insert_eq; by intros [= <-].
  - intros l' ys Nt. assert (A : l' <> l1) by tauto. assert (B : l' <> l2) by tauto. rewrite !lookup_insert_ne by done. intros E'. split; [done|]. intros y Y.
    destruct (Out l' ys y A B E' Y) as (? & ? & _). by apply F.
  - assert (Hd : forall la lb ys zs y, la = l1 \/ la = l2 -> <[l2:=ys2]> (<[l1:=ys1]> (contents w)) !! la = Some ys ->
      <[l2:=ys2]> (<[l1:=ys1]> (contents w)) !! lb = Some zs -> y ∈ ys -> y ∈ zs -> la = lb); [|done].
    intros la lb ys zs y Ha Ea Eb Y Z.
    assert (Ya : la = l1 /\ ys = ys1 \/ la = l2 /\ ys = ys2).
    { destruct Ha as [->| ->]; [rewrite lookup_insert_ne in Ea by done|]; rewrite lookup_insert_eq in Ea; injection Ea; auto. }
    destruct (decide (lb = l2)) as [->|B]; [|destruct (decide (lb = l1)) as [->|A]].
    + rewrite lookup_insert_eq in Eb. injection Eb as <-. destruct Ya as [[-> ->]|[-> ->]]; [|done]. by destruct (N12 y).
    + rewrite lookup_insert_ne, lookup_insert_eq in Eb by done. injection Eb as <-.
      destruct Ya as [[-> ->]|[-> ->]]; [done|]. by destruct (N12 y).
    + rewrite !lookup_insert_ne in Eb by done. destruct (Out lb zs y A B Eb Z) as (_ & _ & ? & ?). naive_solver.
Qed.

(** ** Running the operations *)

Lemma upd_next_some m o q x : is_Some (upd_next m o q !! x) <-> is_Some (m !! x).
Proof. by rewrite <- !elem_of_dom, dom_upd_next. Qed.
Lemma upd_prev_some m o q x : is_Some (upd_prev m o q !! x) <-> is_Some (m !! x).
Proof. by rewrite <- !elem_of_dom, dom_upd_prev. Qed.

Lemma node_at_ok st x n : nodes st !! x = Some n -> node_at st (Some x) = inr n.
Proof. intros E. unfold node_at. by rewrite E. Qed.

Lemma list_at_ok st l h : lists st !! l = Some h -> list_at st l = inr h.
Proof. intros E. unfold list_at. by rewrite E. Qed.

Lemma list_first_ok st l h p :
  lists st !! l = Some h -> list_first st l p = inr (mkEll (nodes st) (<[l := set_first h p]> (lists st))).
Proof. intros E. unfold list_first. by rewrite (list_at_ok _ _ _ E). Qed.
Lemma list_final_ok st l h p :
  lists st !! l = Some h -> list_final st l p = inr (mkEll (nodes st) (<[l := set_final h p]> (lists st))).
Proof. intros E. unfold list_final. by rewrite (list_at_ok _ _ _ E). Qed.
Lemma list_count_ok st l h f :
  lists st !! l = Some h -> list_count st l f = inr (mkEll (nodes st) (<[l := set_count h (f (count h))]> (lists st))).
Proof. intros E. unfold list_count. by rewrite (list_at_ok _ _ _ E). Qed.

(** A node that has just been given both links. *)
Lemma new_links m x q p : is_Some (m !! x) -> upd_prev (upd_next m (Some x) q) (Some x) p !! x = Some (mkNode q p).
Proof. intros [n E]. simpl. by rewrite !lookup_alter, !decide_True, E by done. Qed.
Lemma new_links' m x q p : is_Some (m !! x) -> upd_next (upd_prev m (Some x) p) (Some x) q !! x = Some (mkNode q p).
Proof. intros [n E]. simpl. by rewrite !lookup_alter, !decide_True, E by done. Qed.

#[local] Arguments upd_next : simpl never.
#[local] Arguments upd_prev : simpl never.
#[local] Arguments int32 : simpl never.

Lemma set_next_some st x q :
  is_Some (nodes st !! x) -> set_next st (Some x) q = inr (mkEll (upd_next (nodes st) (Some x) q) (lists st)).
Proof. intros S. apply set_next_ok; [|done]. by intros y [= <-]. Qed.
Lemma set_previous_some st x q :
  is_Some (nodes st !! x) -> set_previous st (Some x) q = inr (mkEll (upd_prev (nodes st) (Some x) q) (lists st)).
Proof. intros S. apply set_previous_ok; [|done]. by intros y [= <-]. Qed.

Ltac ell_some := repeat first [rewrite upd_next_some | rewrite upd_prev_some]; eassumption.
Ltac ell_lookup := unfold set_list; cbn [lists nodes]; first [eassumption | apply lookup_insert_eq | rewrite !lookup_insert_ne by done; eassumption
  | rewrite lookup_insert_ne, lookup_insert_eq by done; reflexivity].
(** One call at the head of the program. *)
Ltac ell_step :=
  first
  [ rewrite set_next_some by (cbn [nodes]; ell_some)
  | rewrite set_previous_some by (cbn [nodes]; ell_some)
  | erewrite list_first_ok by ell_lookup
  | erewrite list_final_ok by ell_lookup
  | erewrite list_count_ok by ell_lookup
  | erewrite list_at_ok by ell_lookup ];
  cbn [ebind nodes lists set_first set_final set_count first final count].

(** *** [ellAdd] *)

Lemma ell_add_inv st w l xs x :
  inv st w -> contents w !! l = Some xs -> is_free w x ->
  inv (mkEll (upd_next (upd_prev (upd_next (nodes st) (Some x) None) (Some x) (lst None xs)) (lst None xs) (Some x))
         (<[l := header (xs ++ [x])]> (lists st))) (put w l (xs ++ [x])).
Proof.
  intros I E F. pose proof (inv_seg _ _ I l xs E) as [S N]. pose proof (free_not_in _ _ _ _ F E) as X.
  apply (inv_one st w l xs); try done.
  - apply NoDup_app. split_and!; [done|set_solver|apply NoDup_singleton].
  - intros y [?| ->%list_elem_of_singleton]%elem_of_app; auto.
  - by rewrite dom_upd_next, dom_upd_prev, dom_upd_next.
  - intros y Y Y'. rewrite upd_next_ne, upd_prev_ne, upd_next_ne; [done|set_solver..|]. intros H%lst_in. done.
  - apply seg_app. split; simpl.
    + apply seg_relink_last with (n := None); [done|]. apply seg_upd_prev, seg_upd_next; [by intros y [= <-]..|done].
    + split; [|done]. rewrite upd_next_ne by (intros H%lst_in; done). apply new_links. by eapply inv_free.
Qed.

Lemma add_ok st w l xs x :
  inv st w -> contents w !! l = Some xs -> is_free w x ->
  exists st', ellAdd st l x = inr st' /\ inv st' (put w l (xs ++ [x])).
Proof.
  intros I E F. eexists. split; [|by apply ell_add_inv].
  pose proof (inv_list _ _ _ _ I E) as L. pose proof (inv_free _ _ _ I F) as Sx.
  assert (Z : zlen (xs ++ [x]) < 2 ^ 31) by (eapply inv_length; [by apply ell_add_inv|apply lookup_insert_eq]).
  rewrite length_app in Z. cbn [length] in Z.
  unfold ellAdd. do 3 ell_step. unfold header. rewrite hd_app, lst_app. destruct xs as [|z xs _] using rev_ind.
  - cbn [count length]. change (negb (Z.of_nat 0 =? 0)) with false. cbn iota. do 3 ell_step. by rewrite !insert_insert_eq.
  - rewrite length_app in Z. cbn [length] in Z. cbn [count header final].
    rewrite (proj2 (Z.eqb_neq _ _)) by (rewrite length_app; simpl; lia). cbn [negb]. rewrite lst_app. cbn [lst].
    assert (Sz : is_Some (nodes st !! z)) by (eapply inv_node; [done|done|set_solver]).
    do 3 ell_step. rewrite !insert_insert_eq. unfold set_count, set_final, header. cbn [first final count].
    rewrite !length_app. cbn [length]. rewrite int32_id by lia. rewrite !hd_app. cbn [hd]. repeat f_equal. lia.
Qed.

(** The computed header is that of the new list. *)
Ltac ell_header :=
  rewrite ?insert_insert_eq; unfold set_count, set_final, set_first, header; cbn [first final count];
  repeat progress (rewrite ?length_app, ?hd_app, ?lst_app; cbn [length hd lst]);
  rewrite ?int32_id by lia; repeat f_equal; try lia.

(** *** [ellDelete], [ellGet] and [ellPop] *)

Lemma nodup_middle (a : list nat) x b : NoDup (a ++ x :: b) <-> NoDup (a ++ b) /\ x ∉ a ++ b.
Proof. rewrite <- Permutation_middle, NoDup_cons. tauto. Qed.

(** Around a sublist that is taken out, [a] and [b] are joined. *)
Lemma seg_join m p a b n q q' :
  NoDup (a ++ b) -> seg m None a q -> seg m p b n -> q' = lst None a ->
  seg (upd_next (upd_prev m (hd b None) q') q' (hd b None)) None a (hd b None) /\
  seg (upd_next (upd_prev m (hd b None) q') q' (hd b None)) q' b n.
Proof.
  intros (Na & D & Nb)%NoDup_app Sa Sb ->. split.
  - apply (seg_relink_last _ _ _ q); [done|]. apply seg_upd_prev; [|done]. intros x H%hd_in. intros A. by destruct (D x).
  - apply seg_upd_next; [|by apply (seg_relink_first _ p)]. intros x H%lst_in. by apply D.
Qed.

Lemma delete_inv st w l a x b :
  inv st w -> contents w !! l = Some (a ++ x :: b) ->
  inv (mkEll (upd_next (upd_prev (nodes st) (hd b None) (lst None a)) (lst None a) (hd b None))
         (<[l := header (a ++ b)]> (lists st))) (put w l (a ++ b)).
Proof.
  intros I E. destruct (inv_seg _ _ I l _ E) as [S N]. apply nodup_middle in N as [N X].
  apply (inv_one st w l (a ++ x :: b)); try done.
  - intros y Y. left. set_solver.
  - by rewrite dom_upd_next, dom_upd_prev.
  - intros y Y _. rewrite upd_next_ne, upd_prev_ne; [done| |]; [intros H%hd_in|intros H%lst_in]; set_solver.
  - apply seg_app in S as [Sa [_ Sb]]. apply seg_app. by apply (seg_join _ (Some x) _ _ _ (Some x)).
Qed.

(** The second half of [ellDelete]. *)
Lemma delete_tail l a x b h ns ls :
  x ∉ a -> zlen (a ++ x :: b) < 2 ^ 31 -> ls !! l = Some h -> first h = hd a (Some x) ->
  ns !! x = Some (mkNode (hd b None) (lst None a)) -> (forall y, lst None a = Some y -> is_Some (ns !! y)) ->
  final h = lst (lst None a) b -> count h = zlen (a ++ x :: b) ->
  (let* h0 := list_at (mkEll ns ls) l in
   let* n := node_at (mkEll ns ls) (Some x) in
   let* st := if decide (first h0 = Some x) then list_first (mkEll ns ls) l (next n)
              else set_next (mkEll ns ls) (previous n) (next n) in
   list_count st l (fun n => n - 1)) =
  inr (mkEll (upd_next ns (lst None a) (hd b None)) (<[l := header (a ++ b)]> ls)).
Proof.
  intros Nx Hz Hls Hf Hx Hs Hl Hc. rewrite length_app in Hz. ell_step. rewrite (node_at_ok _ _ (mkNode (hd b None) (lst None a))) by done.
  cbn [ebind next previous]. destruct a as [|z a].
  - rewrite decide_True by done. do 2 ell_step. rewrite !insert_insert_eq. unfold set_count, set_first, header.
    cbn [first final count]. rewrite Hl, Hc, int32_id by (cbn [app length] in *; lia). cbn [app lst]. do 4 f_equal. cbn [length]. lia.
  - rewrite decide_False by (rewrite Hf; intros [= ->]; set_solver).
    destruct (lst None (z :: a)) as [u|] eqn:U; [|by apply lst_none in U]. pose proof (Hs u eq_refl) as Su.
    do 2 ell_step. rewrite ?insert_insert_eq. unfold set_count, set_first, header.
    cbn [first final count]. rewrite Hl, Hc, Hf, lst_app, U.
    rewrite int32_id by (rewrite length_app; cbn [length] in *; lia). do 4 f_equal. rewrite !length_app. cbn [length]. lia.
Qed.

Lemma delete_ok st w l a x b :
  inv st w -> contents w !! l = Some (a ++ x :: b) ->
  exists st', ellDelete st l x = inr st' /\ inv st' (put w l (a ++ b)).
Proof.
  intros I E. eexists. split; [|by apply (delete_inv st w l a x b)].
  pose proof (inv_list _ _ _ _ I E) as L. destruct (inv_seg _ _ I l _ E) as [S N].
  pose proof (inv_length _ _ _ _ I E) as Hz.
  assert (Some_in : forall y, y ∈ a ++ x :: b -> is_Some (nodes st !! y)) by (intros y; by eapply inv_node).
  assert (X : nodes st !! x = Some (mkNode (hd b None) (lst None a))) by (by eapply seg_node).
  apply nodup_middle in N as [N Nx]. unfold ellDelete. ell_step. rewrite (node_at_ok _ _ _ X). cbn [ebind].
  assert (Sa : forall y, lst None a = Some y -> is_Some (nodes st !! y)) by (intros y H%lst_in; apply Some_in; set_solver).
  assert (Fi : first (header (a ++ x :: b)) = hd a (Some x)) by (simpl; by destruct a).
  assert (La : final (header (a ++ x :: b)) = lst (Some x) b) by (simpl; by rewrite lst_app).
  destruct b as [|y b].
  - rewrite decide_True by done. ell_step. erewrite (delete_tail l a x []); [|set_solver|done|ell_lookup|..]; try done.
    by rewrite insert_insert_eq.
  - rewrite decide_False.
    + cbn [next previous hd]. assert (Sy : is_Some (nodes st !! y)) by (apply Some_in; set_solver). ell_step.
      erewrite (delete_tail l a x (y :: b)); [|set_solver|done|ell_lookup|..]; try done.
      * rewrite upd_prev_ne by (intros [= ->]; set_solver). done.
      * intros u Hu. apply upd_prev_some. by apply Sa.
    + rewrite La. intros H. apply (lst_in (y :: b)) in H. set_solver.
Qed.

Lemma put_nil_cons st w l x xs :
  inv st w -> contents w !! l = Some (x :: xs) -> exists st', ellDelete st l x = inr st' /\ inv st' (put w l xs).
Proof. intros I E. by apply (delete_ok st w l [] x xs). Qed.

Lemma ell_get_ok st w l xs :
  inv st w -> contents w !! l = Some xs ->
  exists st', ellGet st l = inr (hd xs None, st') /\ inv st' (match xs with [] => w | _ :: xs => put w l xs end).
Proof.
  intros I E. pose proof (inv_list _ _ _ _ I E) as L. unfold ellGet. ell_step. destruct xs as [|x xs]; [by eexists|].
  cbn [first header hd]. destruct (put_nil_cons st w l x xs I E) as (st' & -> & I'). by eexists.
Qed.

Lemma pop_ok st w l xs :
  inv st w -> contents w !! l = Some xs ->
  exists st', ellPop st l = inr (lst None xs, st') /\ inv st' (match xs with [] => w | _ => put w l (removelast xs) end).
Proof.
  intros I E. pose proof (inv_list _ _ _ _ I E) as L. unfold ellPop. ell_step.
  destruct xs as [|x xs _] using rev_ind; [by eexists|]. cbn [final header]. rewrite lst_app. cbn [lst].
  destruct (delete_ok st w l xs x []) as (st' & -> & I'); [done|done|]. cbn [ebind]. eexists. split; [done|].
  rewrite removelast_last. rewrite app_nil_r in I'. by destruct xs.
Qed.

(** *** [ellConcat] *)

Lemma concat_ok st w d a ys xs :
  inv st w -> d <> a -> contents w !! d = Some ys -> contents w !! a = Some xs ->
  exists st', ellConcat st d a = inr st' /\ inv st' (put (put w d (ys ++ xs)) a []).
Proof.
  intros I Ne Ed Ea. pose proof (inv_list _ _ _ _ I Ed) as Ld. pose proof (inv_list _ _ _ _ I Ea) as La.
  destruct (inv_seg _ _ I d _ Ed) as [Sd Nd]. destruct (inv_seg _ _ I a _ Ea) as [Sa Na].
  destruct (inv_app _ _ _ _ _ _ I Ne Ed Ea) as [N Zt].
  assert (Fin : forall m', dom m' = dom (nodes st) -> (forall y, y ∉ ys -> y ∉ xs -> m' !! y = nodes st !! y) ->
    seg m' None (ys ++ xs) None ->
    inv (mkEll m' (<[a := header []]> (<[d := header (ys ++ xs)]> (lists st)))) (put (put w d (ys ++ xs)) a [])).
  { intros m' Dm F Sm. apply (inv_two st w d a ys xs); try done; [by rewrite app_nil_r|]. intros y. by rewrite app_nil_r. }
  unfold ellConcat. ell_step. destruct xs as [|x xs].
  - cbn [count header length]. change (Z.of_nat 0 =? 0) with true. cbn iota. exists st. split; [done|].
    specialize (Fin (nodes st)). rewrite app_nil_r in *. rewrite (insert_id (lists st) d), (insert_id (lists st) a) in Fin by done.
    destruct st. by apply Fin.
  - rewrite (proj2 (Z.eqb_neq _ _)) by (cbn [count header length]; lia). ell_step.
    assert (Sx : is_Some (nodes st !! x)) by (eapply inv_node; [done|exact Ea|set_solver]).
    pose proof (inv_length _ _ _ _ I Ed) as Zd. pose proof (inv_length _ _ _ _ I Ea) as Za.
    destruct ys as [|y ys _] using rev_ind.
    + cbn [count header length]. change (Z.of_nat 0 =? 0) with true. cbn iota. cbn [ebind].
      eexists. split; [|by apply (Fin (nodes st))].
      rewrite list_count_ok with (h := header (x :: xs)) by ell_lookup. cbn [ebind nodes lists].
      erewrite list_first_ok by ell_lookup. cbn [ebind nodes lists]. erewrite list_final_ok by ell_lookup.
      cbn [nodes lists]. rewrite !insert_insert_eq. done.
    + rewrite (proj2 (Z.eqb_neq _ _)) by (cbn [count header]; rewrite length_app; simpl; lia).
      cbn [final first header]. rewrite lst_app. cbn [lst hd].
      assert (Sy : is_Some (nodes st !! y)) by (eapply inv_node; [done|exact Ed|set_solver]).
      eexists. split.
      * do 7 ell_step. rewrite !insert_insert_eq. reflexivity.
      * replace (set_final (set_first (set_count (header (x :: xs)) 0) None) None) with (header []) by done.
        match goal with |- context [<[d := ?h]> _] => replace h with (header ((ys ++ [y]) ++ x :: xs)) end.
        2: { ell_header. rewrite int32_id; rewrite ?length_app in *; cbn [length] in *; lia. }
        apply Fin; [by rewrite dom_upd_prev, dom_upd_next| |].
        { intros z Hy Hx. rewrite upd_prev_ne, upd_next_ne; [done|set_solver..]. }
        assert (U : lst None (ys ++ [y]) = Some y) by (by rewrite lst_app). apply seg_app. cbn [hd]. rewrite U. split.
        { apply seg_upd_prev; [|rewrite <- U; by apply (seg_relink_last _ _ _ None)].
          intros z [= <-] H. apply NoDup_app in N as (_ & D & _). apply (D x H). set_solver. }
        apply (seg_relink_first _ None (x :: xs)); [done|]. apply seg_upd_next; [|done].
        intros z [= <-] H. apply NoDup_app in N as (_ & D & _). apply (D y); [set_solver|done].
Qed.

(** *** [ellInsert] *)

Definition inserted (m : gmap nat ELLNODE) (a b : list nat) (x : nat) : gmap nat ELLNODE :=
  upd_prev (upd_next (upd_next (upd_prev m (Some x) (lst None a)) (Some x) (hd b None)) (lst None a) (Some x)) (hd b None) (Some x).

Lemma insert_inv st w l a b x :
  inv st w -> contents w !! l = Some (a ++ b) -> is_free w x ->
  inv (mkEll (inserted (nodes st) a b x) (<[l := header (a ++ x :: b)]> (lists st))) (put w l (a ++ x :: b)).
Proof.
  intros I E F. destruct (inv_seg _ _ I l _ E) as [S N]. pose proof (free_not_in _ _ _ _ F E) as X.
  assert (Ha : forall y, lst None a = Some y -> y ∈ a) by (intros y; apply lst_in).
  assert (Hb : forall y, hd b None = Some y -> y ∈ b) by (intros y; apply hd_in).
  apply (inv_one st w l (a ++ b)); try done.
  - by apply nodup_middle.
  - intros y Y. destruct (decide (y = x)) as [->|]; [by right|left; set_solver].
  - unfold inserted. by rewrite dom_upd_prev, !dom_upd_next, dom_upd_prev.
  - intros y Y Y'. unfold inserted. rewrite upd_prev_ne, !upd_next_ne, upd_prev_ne; [done|set_solver|set_solver| |];
      [intros H%Ha|intros H%Hb]; set_solver.
  - apply seg_app in S as [Sa Sb]. apply NoDup_app in N as (Na & D & Nb). unfold inserted. apply seg_app. cbn [seg hd].
    split_and!.
    + apply seg_upd_prev; [intros y H%Hb H'; by apply (D y)|]. eapply seg_relink_last; [done|].
      apply seg_upd_next, seg_upd_prev; [intros y [= <-]; set_solver..|exact Sa].
    + rewrite upd_prev_ne by (intros H%Hb; set_solver). rewrite upd_next_ne by (intros H%Ha; set_solver).
      apply new_links'. by eapply inv_free.
    + eapply seg_relink_first; [done|]. apply seg_upd_next; [intros y H%Ha H'; by apply (D y)|].
      apply seg_upd_next, seg_upd_prev; [intros y [= <-]; set_solver..|exact Sb].
Qed.

(** The part of [ellInsert] after the links of the new node. *)
Lemma insert_tail m0 l a b x h ls m :
  ls !! l = Some h -> is_Some (m0 !! x) -> x ∉ a ++ b -> (forall y, y ∈ a ++ b -> is_Some (m0 !! y)) -> zlen (a ++ x :: b) < 2 ^ 31 ->
  first h = hd (a ++ x :: b) None -> final h = lst None (a ++ b) -> count h = zlen (a ++ b) ->
  m = upd_next (upd_next (upd_prev m0 (Some x) (lst None a)) (Some x) (hd b None)) (lst None a) (Some x) ->
  (let* n := node_at (mkEll m ls) (Some x) in
   let* st := match next n with
              | None => list_final (mkEll m ls) l (Some x)
              | Some _ => set_previous (mkEll m ls) (next n) (Some x)
              end in list_count st l (fun n => n + 1)) =
  inr (mkEll (inserted m0 a b x) (<[l := header (a ++ x :: b)]> ls)).
Proof.
  intros Lh Sx X Some_in Hz Hf Hl Hc ->. rewrite length_app in Hz. rewrite (node_at_ok _ _ (mkNode (hd b None) (lst None a))).
  2: { cbn [nodes]. rewrite upd_next_ne by (intros H%lst_in; set_solver). by apply new_links'. }
  cbn [ebind next]. unfold inserted. rewrite lst_app in Hl. destruct b as [|y b]; cbn [hd] in *.
  - do 2 ell_step. rewrite !insert_insert_eq. unfold header, set_count, set_final. cbn [first final count].
    rewrite Hf, Hc, lst_app, int32_id by (rewrite length_app; cbn [length] in *; lia).
    do 4 f_equal. rewrite !length_app. cbn [length]. lia.
  - assert (Sy : is_Some (m0 !! y)) by (apply Some_in; set_solver). do 2 ell_step.
    unfold header, set_count. cbn [first final count].
    rewrite Hf, Hl, Hc, lst_app, int32_id by (rewrite length_app; cbn [length] in *; lia).
    do 4 f_equal. rewrite !length_app. cbn [length]. lia.
Qed.

Lemma insert_ok st w l a b x :
  inv st w -> contents w !! l = Some (a ++ b) -> is_free w x ->
  exists st', ellInsert st l (lst None a) x = inr st' /\ inv st' (put w l (a ++ x :: b)).
Proof.
  intros I E F. eexists. split; [|by apply insert_inv]. pose proof (insert_inv st w l a b x I E F) as I'.
  pose proof (inv_length _ _ l _ I' ltac:(apply lookup_insert_eq)) as Hz.
  pose proof (inv_list _ _ _ _ I E) as L. pose proof (inv_free _ _ _ I F) as Sx. destruct (inv_seg _ _ I l _ E) as [S N].
  pose proof (free_not_in _ _ _ _ F E) as X.
  assert (Some_in : forall y, y ∈ a ++ b -> is_Some (nodes st !! y)) by (intros y; by eapply inv_node).
  unfold ellInsert. destruct a as [|p a _] using rev_ind.
  - cbn [lst]. do 2 ell_step. cbn [first header app]. do 2 ell_step.
    erewrite (insert_tail (nodes st) l [] b x); [|ell_lookup|..]; try done. by rewrite insert_insert_eq.
  - rewrite lst_app. cbn [lst]. assert (Sp : is_Some (nodes st !! p)) by (apply Some_in; set_solver).
    rewrite <- app_assoc in S. pose proof (seg_node _ _ _ _ _ _ S) as Np. ell_step.
    rewrite (node_at_ok _ _ (mkNode (hd b None) (lst None a))) by (cbn [nodes]; rewrite upd_prev_ne; [done|intros [= ->]; set_solver]).
    cbn [ebind next]. do 2 ell_step. erewrite (insert_tail (nodes st) l (a ++ [p]) b x); [|ell_lookup|..]; try done.
    + cbn [first header]. rewrite !hd_app. done.
    + by rewrite lst_app.
Qed.

(** *** [ellExtract] *)

(** The store after the sublist [mid] has been cut out of [a ++ mid ++ b]. *)
Definition cut_nodes (m : gmap nat ELLNODE) (a mid b : list nat) : gmap nat ELLNODE :=
  let m := upd_next m (lst None a) (hd b None) in
  match b with [] => m | y :: _ => upd_next (upd_prev m (Some y) (lst None a)) (lst None mid) None end.

Lemma cut_nodes_spec m a mid b :
  mid <> [] -> NoDup (a ++ mid ++ b) -> seg m None (a ++ mid ++ b) None ->
  let m' := cut_nodes m a mid b in
  seg m' None (a ++ b) None /\ seg m' (lst None a) mid None /\ dom m' = dom m /\
  (forall y, y ∉ a ++ mid ++ b -> m' !! y = m !! y).
Proof.
  intros Nm N S. apply seg_app in S as [Sa S]. apply seg_app in S as [Sm Sb]. rewrite hd_app in Sa.
  apply NoDup_app in N as (Na & Da & N). apply NoDup_app in N as (Nmid & Dm & Nb). cbn zeta. unfold cut_nodes.
  assert (Ha : forall y, lst None a = Some y -> y ∉ mid /\ y ∉ b).
  { intros y H%lst_in. specialize (Da y H). set_solver. }
  assert (S1 : seg (upd_next m (lst None a) (hd b None)) None a (hd b None)) by (by eapply seg_relink_last).
  assert (S2 : seg (upd_next m (lst None a) (hd b None)) (lst None a) mid (hd b None))
    by (apply seg_upd_next; [intros y H; by apply Ha|done]).
  destruct b as [|y b]; cbn [hd].
  - rewrite app_nil_r. split_and!; [done|done|by rewrite dom_upd_next|].
    intros z Z. apply upd_next_ne. intros H%lst_in. set_solver.
  - assert (Hy : y ∉ a /\ y ∉ mid) by (split; [intros H; specialize (Da y H); set_solver|intros H; specialize (Dm y H); set_solver]).
    assert (He : forall e, lst None mid = Some e -> e ∉ a /\ e ∉ y :: b).
    { intros e H%lst_in. split; [intros H'; specialize (Da e H'); set_solver|by apply Dm]. }
    split_and!.
    + apply seg_app. split.
      * apply seg_upd_next; [intros e H; by apply He|]. apply seg_upd_prev; [intros z [= <-]; tauto|done].
      * apply seg_upd_next; [intros e H; by apply He|].
        apply (seg_relink_first _ (lst (lst None a) mid) (y :: b)); [done|].
        apply seg_upd_next; [intros z H; by apply Ha|done].
    + eapply seg_relink_last; [done|]. apply seg_upd_prev; [intros z [= <-]; tauto|exact S2].
    + by rewrite dom_upd_next, dom_upd_prev, dom_upd_next.
    + intros z Z. rewrite upd_next_ne, upd_prev_ne, upd_next_ne; [done|intros H%lst_in; set_solver..| |];
        [intros [= ->]; set_solver|intros H%lst_in; set_solver].
Qed.

Lemma extract_cut_ok st src a mid b s e :
  NoDup (a ++ mid ++ b) -> seg (nodes st) None (a ++ mid ++ b) None -> lists st !! src = Some (header (a ++ mid ++ b)) ->
  hd mid None = Some s -> lst None mid = Some e ->
  extract_cut st src s e =
    inr (mkEll (cut_nodes (nodes st) a mid b)
           (<[src := mkList (hd (a ++ b) None) (lst None (a ++ b)) (zlen (a ++ mid ++ b))]> (lists st))).
Proof.
  intros N S L Hs He.
  assert (Some_in : forall y, y ∈ a ++ mid ++ b -> is_Some (nodes st !! y)) by (intros y; by eapply seg_lookup).
  assert (Ns : exists q, nodes st !! s = Some (mkNode q (lst None a))).
  { destruct mid as [|? mid]; [done|]. injection Hs as ->. eexists. by eapply seg_node. }
  assert (Ne : exists q, nodes st !! e = Some (mkNode (hd b None) q)).
  { destruct mid as [|? mid _] using rev_ind; [done|]. rewrite lst_app in He. injection He as ->.
    rewrite <- app_assoc, app_assoc in S. eexists. by eapply seg_node. }
  destruct Ns as [qs Ns], Ne as [qe Ne].
  assert (Da : forall y, lst None a = Some y -> y <> s /\ y <> e).
  { intros y H%lst_in. apply NoDup_app in N as (_ & D & _). specialize (D y H). apply hd_in in Hs. apply lst_in in He. set_solver. }
  assert (Hee : e ∈ mid) by (by apply lst_in). unfold extract_cut.
  rewrite (node_at_ok _ _ _ Ns), (node_at_ok _ _ _ Ne). cbn [ebind previous next].
  assert (Second : forall h ls, ls !! src = Some h -> first h = hd (a ++ b) None -> final h = lst None (a ++ mid ++ b) ->
    count h = zlen (a ++ mid ++ b) ->
    (let st := mkEll (upd_next (nodes st) (lst None a) (hd b None)) ls in
     let* s := node_at st (Some s) in
     let* n := node_at st (Some e) in
     if decide (next n <> None) then
       let* st := set_previous st (next n) (previous s) in set_next st (Some e) None
     else list_final st src (previous s)) =
    inr (mkEll (cut_nodes (nodes st) a mid b) (<[src := mkList (hd (a ++ b) None) (lst None (a ++ b)) (zlen (a ++ mid ++ b))]> ls))).
  { intros h ls Lh Hf Hl Hc. cbn zeta. rewrite (node_at_ok _ _ (mkNode qs (lst None a))).
    2: { cbn [nodes]. rewrite upd_next_ne; [done|]. intros H. by destruct (Da s H). }
    rewrite (node_at_ok _ _ (mkNode (hd b None) qe)).
    2: { cbn [nodes]. rewrite upd_next_ne; [done|]. intros H. by destruct (Da e H). }
    cbn [ebind previous next]. unfold cut_nodes. destruct b as [|y b]; cbn [hd].
    - rewrite decide_False by tauto. ell_step. unfold set_final. by rewrite Hf, Hc, app_nil_r.
    - rewrite decide_True by done. rewrite He. assert (is_Some (nodes st !! y)) by (apply Some_in; set_solver).
      assert (is_Some (nodes st !! e)) by (apply Some_in; set_solver). do 2 ell_step.
      rewrite insert_id; [done|]. rewrite Lh. destruct h. cbn in *. subst. by rewrite !lst_app. }
  destruct (lst None a) as [u|] eqn:U.
  - assert (Hu : u ∈ a) by (by apply lst_in). assert (is_Some (nodes st !! u)) by (apply Some_in; set_solver).
    rewrite decide_True by done. ell_step. erewrite Second; try done.
    cbn [first header]. rewrite !hd_app. by destruct a.
  - apply lst_none in U as ->. rewrite decide_False by tauto. ell_step. erewrite Second; [|ell_lookup|..]; try done.
    by rewrite insert_insert_eq.
Qed.

Definition place_nodes (m : gmap nat ELLNODE) (ys mid : list nat) : gmap nat ELLNODE :=
  upd_next (upd_prev m (hd mid None) (lst None ys)) (lst None ys) (hd mid None).

Lemma extract_place_ok m ls dst ys mid s e :
  ls !! dst = Some (header ys) -> hd mid None = Some s -> lst None mid = Some e -> is_Some (m !! s) ->
  (forall y, y ∈ ys -> is_Some (m !! y)) ->
  extract_place (mkEll m ls) s e dst =
    inr (mkEll (place_nodes m ys mid) (<[dst := mkList (hd (ys ++ mid) None) (lst None (ys ++ mid)) (zlen ys)]> ls)).
Proof.
  intros L Hs He Ss Sy. unfold extract_place, place_nodes. rewrite Hs. do 2 ell_step. cbn [header final].
  assert (Lm : lst None (ys ++ mid) = Some e).
  { rewrite lst_app. destruct mid as [|? mid]; [done|exact He]. }
  rewrite Lm, hd_app, Hs. destruct (lst None ys) as [u|] eqn:U.
  - assert (is_Some (m !! u)) by (apply Sy; by apply lst_in). rewrite (proj2 (Z.eqb_neq _ _)) by (destruct ys; simpl; [done|lia]).
    cbn [negb]. do 2 ell_step. unfold set_final, header. cbn [first count]. by destruct ys.
  - apply lst_none in U as ->. cbn [count header length negb]. change (Z.of_nat 0 =? 0) with true. cbn [negb]. do 2 ell_step.
    by rewrite insert_insert_eq.
Qed.

Lemma count_to_ok st e n xs : forall p c fuel,
  seg (nodes st) p (xs ++ [e]) n -> e ∉ xs -> (length xs < fuel)%nat -> 0 <= c -> c + zlen xs < 2 ^ 31 ->
  count_to fuel st (hd (xs ++ [e]) None) e c = inr (c + zlen xs).
Proof.
  induction xs as [|x xs IH]; intros p c [|fuel] S X F C0 C; try lia; cbn [app hd count_to].
  - rewrite decide_True by done. f_equal. simpl. lia.
  - rewrite decide_False by (intros [= ->]; set_solver). destruct S as [Nx S]. rewrite (node_at_ok _ _ _ Nx). cbn [ebind next].
    cbn [length] in *. rewrite int32_id by lia.
    replace (hd (xs ++ [e]) n) with (hd (xs ++ [e]) None) by (by destruct xs).
    rewrite (IH (Some x)); [f_equal; lia|done|set_solver|lia..].
Qed.

Lemma place_nodes_spec m ys mid q p xs :
  NoDup (ys ++ mid) -> seg m None ys q -> seg m p mid None -> seg m None xs None -> (forall x, x ∈ xs -> x ∉ ys ++ mid) ->
  let m' := place_nodes m ys mid in
  seg m' None (ys ++ mid) None /\ seg m' None xs None /\ dom m' = dom m /\ (forall y, y ∉ ys ++ mid -> m' !! y = m !! y).
Proof.
  intros N Sy Sm Sx D. cbn zeta. unfold place_nodes.
  assert (Ha : forall y, lst None ys = Some y -> y ∈ ys ++ mid) by (intros y H%lst_in; set_solver).
  assert (Hb : forall y, hd mid None = Some y -> y ∈ ys ++ mid) by (intros y H%hd_in; set_solver).
  split_and!.
  - apply seg_app. by apply (seg_join _ p _ _ _ q).
  - apply seg_upd_next; [intros y H%Ha H'; by apply (D y)|]. apply seg_upd_prev; [intros y H%Hb H'; by apply (D y)|done].
  - by rewrite dom_upd_next, dom_upd_prev.
  - intros y Y. rewrite upd_next_ne, upd_prev_ne; [done|intros H%Hb; done|intros H%Ha; done].
Qed.

Lemma extract_ok st w src dst a mid b ys s e :
  inv st w -> src <> dst -> contents w !! src = Some (a ++ mid ++ b) -> contents w !! dst = Some ys ->
  hd mid None = Some s -> lst None mid = Some e ->
  exists st', ellExtract st src s e dst = inr st' /\ inv st' (put (put w src (a ++ b)) dst (ys ++ mid)).
Proof.
  intros I Ne Es Ed Hs He. pose proof (inv_list _ _ _ _ I Es) as Ls. pose proof (inv_list _ _ _ _ I Ed) as Ld.
  destruct (inv_seg _ _ I src _ Es) as [Ss Ns]. destruct (inv_seg _ _ I dst _ Ed) as [Sd Nd].
  destruct (inv_app _ _ _ _ _ _ I Ne Es Ed) as [N Hz].
  assert (P : (a ++ mid ++ b) ++ ys ≡ₚ (a ++ b) ++ ys ++ mid) by solve_Permutation.
  assert (N' : NoDup ((a ++ b) ++ ys ++ mid)) by (by rewrite <- P).
  assert (Dm : forall y, y ∈ a ++ b -> y ∉ ys ++ mid) by (by apply NoDup_app in N' as (_ & D & _)).
  destruct (cut_nodes_spec (nodes st) a mid b) as (C1 & C2 & C3 & C4); [by intros ->|done..|].
  destruct (place_nodes_spec (cut_nodes (nodes st) a mid b) ys mid None (lst None a) (a ++ b)) as (P1 & P2 & P3 & P4); try done.
  { by apply NoDup_app in N' as (_ & _ & ?). }
  { apply (seg_frame (nodes st)); [|done]. intros y Y. apply C4. intros Y'. apply NoDup_app in N as (_ & D & _). by apply (D y). }
  exists (mkEll (place_nodes (cut_nodes (nodes st) a mid b) ys mid) (<[dst := header (ys ++ mid)]> (<[src := header (a ++ b)]> (lists st)))).
  split.
  - unfold ellExtract. rewrite (extract_cut_ok st src a mid b s e) by done. cbn [ebind].
    erewrite (extract_place_ok _ _ dst ys mid); [|rewrite lookup_insert_ne by done; exact Ld|done|done|..]; cbn [ebind].
    2: { rewrite <- elem_of_dom, C3, elem_of_dom. eapply seg_lookup; [exact Ss|]. apply hd_in in Hs. set_solver. }
    2: { intros y Y. rewrite <- elem_of_dom, C3, elem_of_dom. by eapply seg_lookup. }
    assert (M : exists mid', mid = mid' ++ [e]).
    { destruct mid as [|y mid _] using rev_ind; [done|]. rewrite lst_app in He. injection He as ->. by eexists. }
    assert (Hm : (length mid <= size (nodes st))%nat).
    { apply nodup_size; [by apply NoDup_app in Ns as (_ & _ & [? _]%NoDup_app)|]. intros y Y. eapply seg_lookup; [exact Ss|set_solver]. }
    destruct M as [mid' ->]. rewrite <- Hs. apply seg_app in P1 as [_ P1].
    repeat progress (rewrite ?length_app in Hz; cbn [length] in Hz). rewrite length_app in Hm. cbn [length] in Hm.
    rewrite (count_to_ok _ e None mid' (lst None ys)); [|done|..]; [| | |lia|lia].
    + cbn [ebind]. do 2 ell_step. do 2 f_equal. unfold set_count, header. cbn [first final count].
      rewrite !length_app. cbn [length]. rewrite !int32_id by lia.
      apply map_eq. intros l. destruct (decide (l = dst)) as [->|A]; [|destruct (decide (l = src)) as [->|B]].
      * rewrite !lookup_insert_eq. do 2 f_equal. lia.
      * rewrite !(lookup_insert_ne _ dst src) by done. rewrite !lookup_insert_eq. do 2 f_equal. lia.
      * by rewrite !lookup_insert_ne.
    + intros H. apply NoDup_app in Ns as (_ & _ & (Nm & _)%NoDup_app). apply NoDup_app in Nm as (_ & D & _). apply (D e H). set_solver.
    + unfold walk. cbn [nodes]. rewrite <- size_dom, P3, C3, size_dom. lia.
  - apply (inv_two st w src dst (a ++ mid ++ b) ys); try done.
    + intros y. by rewrite P.
    + by rewrite P3, C3.
    + intros y Y Y'. rewrite P4, C4; [done|done|set_solver].
Qed.

(** *** Walking *)

Lemma steps_next st xs : forall p k,
  seg (nodes st) p xs None -> (k < length xs)%nat -> steps next k st (hd xs None) = inr (xs !! k).
Proof.
  induction xs as [|x xs IH]; intros p k S K; [simpl in K; lia|]. destruct S as [Nx S]. destruct k as [|k]; [done|].
  cbn [hd steps lookup list_lookup]. rewrite (node_at_ok _ _ _ Nx). cbn [ebind next]. simpl in K. apply (IH (Some x)); [done|lia].
Qed.

Lemma steps_previous st xs : forall n k,
  seg (nodes st) None xs n -> (k < length xs)%nat -> steps previous k st (lst None xs) = inr (reverse xs !! k).
Proof.
  induction xs as [|x xs IH] using rev_ind; intros n k S K; [simpl in K; lia|]. rewrite lst_app, reverse_snoc. cbn [lst].
  pose proof (seg_node _ _ _ _ _ _ S) as Nx. apply seg_app in S as [S _]. destruct k as [|k]; [done|].
  cbn [steps lookup list_lookup]. rewrite (node_at_ok _ _ _ Nx). cbn [ebind previous]. rewrite length_app in K. simpl in K.
  apply (IH (hd [x] n)); [done|lia].
Qed.

Lemma nth_ok st w l xs n :
  inv st w -> contents w !! l = Some xs ->
  ellNth st l n = inr (if n <? 1 then None else xs !! Z.to_nat (n - 1)).
Proof.
  intros I E. destruct (inv_seg _ _ I l _ E) as [S _]. unfold ellNth. rewrite (list_at_ok _ _ _ (inv_list _ _ _ _ I E)).
  cbn [ebind header count first final]. destruct (Z.ltb_spec n 1) as [N|N]; [done|]. cbn [orb].
  destruct (Z.eqb_spec (zlen xs) 0) as [Z|Z]; [by destruct xs|].
  pose proof (Z.quot_div_nonneg (zlen xs) 2). pose proof (Z.div_mod (zlen xs) 2). pose proof (Z.mod_pos_bound (zlen xs) 2).
  destruct (Z.ltb_spec (Z.quot (zlen xs) 2) n) as [H'|H'].
  - destruct (Z.ltb_spec (zlen xs) n) as [L|L]; [by rewrite lookup_ge_None_2 by lia|].
    rewrite (steps_previous _ _ None) by (done || lia). rewrite reverse_lookup by lia. do 2 f_equal. lia.
  - rewrite (steps_next _ _ None) by (done || lia). done.
Qed.

Lemma steps_to_null_next st xs : forall p k,
  seg (nodes st) p xs None -> steps_to_null next k st (hd xs None) = inr (xs !! k).
Proof.
  induction xs as [|x xs IH]; intros p k S; [by destruct k|]. destruct S as [Nx S]. destruct k as [|k]; [done|].
  cbn [hd steps_to_null lookup list_lookup]. rewrite (node_at_ok _ _ _ Nx). cbn [ebind next]. by apply (IH (Some x)).
Qed.

Lemma steps_to_null_previous st xs : forall n k,
  seg (nodes st) None xs n -> steps_to_null previous k st (lst None xs) = inr (reverse xs !! k).
Proof.
  induction xs as [|x xs IH] using rev_ind; intros n k S; [by destruct k|]. rewrite lst_app, reverse_snoc. cbn [lst].
  pose proof (seg_node _ _ _ _ _ _ S) as Nx. apply seg_app in S as [S _]. destruct k as [|k]; [done|].
  cbn [steps_to_null lookup list_lookup]. rewrite (node_at_ok _ _ _ Nx). cbn [ebind previous]. by apply (IH (hd [x] n)).
Qed.

Lemma nstep_ok st w l a x b n :
  inv st w -> contents w !! l = Some (a ++ x :: b) ->
  ellNStep st (Some x) n =
    inr (if zlen a + n <? 0 then None else (a ++ x :: b) !! Z.to_nat (zlen a + n)).
Proof.
  intros I E. destruct (inv_seg _ _ I l _ E) as [S _]. unfold ellNStep. destruct (Z.ltb_spec 0 n) as [N|N].
  - apply seg_app in S as [_ S]. rewrite (steps_to_null_next st (x :: b) (lst None a)) by done.
    rewrite (proj2 (Z.ltb_ge _ _)) by lia. rewrite lookup_app_r by lia. do 2 f_equal. lia.
  - assert (S' : seg (nodes st) None (a ++ [x]) (hd b None)).
    { change (x :: b) with ([x] ++ b) in S. rewrite app_assoc in S. by apply seg_app in S as [S _]. }
    pose proof (steps_to_null_previous st (a ++ [x]) _ (Z.to_nat (- n)) S') as P. rewrite lst_app in P. cbn [lst] in P.
    rewrite P. f_equal. destruct (Z.ltb_spec (zlen a + n) 0) as [L|L].
    + apply lookup_ge_None_2. rewrite length_reverse, length_app. simpl. lia.
    + rewrite reverse_lookup by (rewrite length_app; simpl; lia). change (x :: b) with ([x] ++ b). rewrite app_assoc.
      rewrite (lookup_app_l (a ++ [x])) by (rewrite length_app; simpl; lia). f_equal. rewrite length_app. simpl. lia.
Qed.

Lemma find_loop_ok st x xs : forall p c fuel,
  seg (nodes st) p xs None -> (length xs < fuel)%nat -> 0 <= c -> c + zlen xs < 2 ^ 31 ->
  find_loop fuel st (hd xs None) x c = inr (match list_find (eq x) xs with Some (i, _) => c + Z.of_nat i | None => -1 end).
Proof.
  induction xs as [|y xs IH]; intros p c [|fuel] S F C0 C; try lia; cbn [hd find_loop list_find]; [done|].
  destruct S as [Ny S]. destruct (decide (x = y)) as [->|N].
  - rewrite decide_True by done. f_equal. lia.
  - rewrite decide_False by done. rewrite (node_at_ok _ _ _ Ny). cbn [ebind next length] in *. rewrite int32_id by lia.
    rewrite (IH (Some y)) by (done || lia). destruct (list_find (eq x) xs) as [[i z]|]; [|done]. simpl. f_equal. lia.
Qed.

Lemma find_ok st w l xs x :
  inv st w -> contents w !! l = Some xs ->
  ellFind st l x = inr (match list_find (eq x) xs with Some (i, _) => Z.of_nat i + 1 | None => -1 end).
Proof.
  intros I E. destruct (inv_seg _ _ I l _ E) as [S N]. pose proof (inv_size _ _ I).
  pose proof (nodup_size xs (nodes st) N (fun y => seg_lookup _ _ _ _ y S)).
  unfold ellFind. rewrite (list_at_ok _ _ _ (inv_list _ _ _ _ I E)). cbn [ebind first header].
  rewrite (find_loop_ok _ _ _ None) by (done || unfold walk; lia). destruct (list_find _ _) as [[i z]|]; [|done]. f_equal. lia.
Qed.

(** *** [ellFree2] *)

Lemma free_loop_ok ls xs : forall m p fuel,
  seg m p xs None -> NoDup xs -> (length xs < fuel)%nat ->
  free_loop fuel (mkEll m ls) (hd xs None) = inr (mkEll (foldr delete m (reverse xs)) ls).
Proof.
  induction xs as [|x xs IH]; intros m p [|fuel] S N F; try (simpl in F; lia); cbn [hd free_loop]; [done|].
  destruct S as [Nx S]. apply NoDup_cons in N as [X N]. rewrite (node_at_ok (mkEll m ls) _ _ Nx). cbn [ebind]. unfold freeFunc.
  rewrite (node_at_ok (mkEll m ls) _ _ Nx). cbn [ebind next nodes lists]. rewrite (IH _ (Some x)); [|..|simpl in F; lia]; try done.
  - by rewrite reverse_cons, foldr_app.
  - apply (seg_frame m); [|done]. intros y Y. apply lookup_delete_ne. congruence.
Qed.

Lemma foldr_delete_dom (m : gmap nat ELLNODE) xs : dom (foldr delete m xs) = dom m ∖ list_to_set xs.
Proof. induction xs as [|x xs IH]; simpl; [set_solver|]. rewrite dom_delete_L, IH. set_solver. Qed.

Lemma foldr_delete_ne (m : gmap nat ELLNODE) xs y : y ∉ xs -> foldr delete m xs !! y = m !! y.
Proof. induction xs as [|x xs IH]; simpl; [done|]. intros Y. rewrite lookup_delete_ne by set_solver. apply IH. set_solver. Qed.

Definition freed (w : world) (l : nat) (xs : list nat) : world := mkWorld (<[l := []]> (contents w)) (alloc w ∖ list_to_set xs).

Lemma free_ok st w l xs :
  inv st w -> contents w !! l = Some xs -> exists st', ellFree2 st l = inr st' /\ inv st' (freed w l xs).
Proof.
  intros I E. destruct (inv_seg _ _ I l _ E) as [S N]. pose proof (inv_list _ _ _ _ I E) as L.
  pose proof (nodup_size xs (nodes st) N (fun y => seg_lookup _ _ _ _ y S)). unfold ellFree2. ell_step.
  destruct st as [m ls]. cbn [nodes lists] in *. cbn [first header]. rewrite (free_loop_ok _ _ _ None) by (done || unfold walk; cbn [nodes]; lia).
  cbn [ebind]. do 3 ell_step. rewrite !insert_insert_eq. eexists. split; [done|].
  change (set_count _ _) with (header []). apply (inv_change (fun l' => l' = l) (mkEll m ls) w); cbn [nodes lists freed contents alloc].
  - intros l'. destruct (decide (l' = l)); auto.
  - done.
  - pose proof (inv_lists _ _ I) as Hl. cbn in Hl. by rewrite Hl, fmap_insert.
  - rewrite foldr_delete_dom, (inv_alloc _ _ I). cbn [nodes]. set_solver.
  - pose proof (inv_size _ _ I) as Sz. cbn [nodes] in Sz.
    enough (size (foldr delete m (reverse xs)) <= size m)%nat by lia.
    rewrite <- !size_dom, foldr_delete_dom. apply subseteq_size. set_solver.
  - intros l' ys ->. rewrite lookup_insert_eq. intros [= <-]. split; [done|constructor].
  - intros l' ys Ne. rewrite lookup_insert_ne by done. intros E'. split; [done|]. intros y Y.
    apply foldr_delete_ne. intros Y'. rewrite elem_of_reverse in Y'. apply Ne. by apply (inv_disj _ _ I l' l ys xs y).
  - intros l1 l2 ys zs y ->. rewrite lookup_insert_eq. intros [= <-] _ Y. set_solver.
Qed.

(** ** A new list header, and the empty store *)

Lemma ell_init_inv st w l : inv st w -> inv (ellInit st l) (put w l []).
Proof.
  intros I. apply (inv_change (fun l' => l' = l) st w); cbn [nodes lists contents alloc ellInit set_list put].
  - intros l'. destruct (decide (l' = l)); auto.
  - done.
  - by rewrite (inv_lists _ _ I), fmap_insert.
  - apply (inv_alloc _ _ I).
  - apply (inv_size _ _ I).
  - intros l' xs ->. rewrite lookup_insert_eq. intros [= <-]. split; [done|constructor].
  - intros l' xs Ne. by rewrite lookup_insert_ne.
  - intros l1 l2 xs ys x ->. rewrite lookup_insert_eq. intros [= <-] _ X. set_solver.
Qed.

Definition empty_store : ell_state := mkEll ∅ ∅.

Lemma empty_inv : inv empty_store empty_world.
Proof. constructor; done. Qed.

(** ** Allocation *)

Lemma malloc_inv st w x n :
  inv st w -> x ∉ alloc w -> room w ->
  inv (mkEll (<[x := n]> (nodes st)) (lists st)) (grow w x).
Proof.
  unfold room. intros I X Sz. pose proof (inv_alloc _ _ I) as A.
  assert (Nx : nodes st !! x = None) by (rewrite A in X; by apply not_elem_of_dom).
  apply (inv_change (fun _ => False) st w); cbn [nodes lists contents alloc grow]; try done.
  - auto.
  - apply (inv_lists _ _ I).
  - rewrite dom_insert_L, A. set_solver.
  - rewrite map_size_insert_None by done. rewrite A, size_dom in Sz. lia.
  - intros l xs _ E. split; [done|]. intros y Y. apply lookup_insert_ne. intros <-.
    destruct (inv_node _ _ _ _ _ I E Y). congruence.
Qed.

(** An empty list, a local variable for example, goes. *)
Lemma forget_inv st w l : inv st w -> contents w !! l = Some [] -> inv (mkEll (nodes st) (delete l (lists st))) (forget w l).
Proof.
  intros I E. apply (inv_change (fun _ => False) st w); cbn [nodes lists contents alloc forget]; try done.
  - auto.
  - by rewrite (inv_lists _ _ I), fmap_delete.
  - apply (inv_alloc _ _ I).
  - apply (inv_size _ _ I).
  - intros l' xs _ E'. by apply lookup_delete_Some in E' as [_ E'].
Qed.

