(* ===== verification/EllRefine.v ===== *)
(** * Linked lists: what a program that uses them can rely on

    [ellVerify] accepts exactly the well linked lists; all operations together refine operations on
    sequences. *)

From stdpp Require Import base numbers list option gmap fin_maps fin_map_dom.
From Stdlib Require Import ZArith Lia Bool.
From S2P Require Import Prelude ListLib EllLib EllProof.

(** ** [ellVerify] *)

(** A list as [ellVerify] wants it. *)
Definition well_linked (st : ell_state) (l : nat) (xs : list nat) : Prop :=
  seg (nodes st) None xs None /\ lists st !! l = Some (mkList (hd xs None) (lst None xs) (int32 (zlen xs))).

Lemma seg_previous m xs n : forall p i x, seg m p xs n -> xs !! i = Some x ->
  previous <$> m !! x = Some (match i with O => p | S i => xs !! i end).
Proof.
  induction xs as [|y xs IH]; intros p i x S E; [done|]. destruct S as [Ny S]. destruct i as [|i].
  - injection E as <-. by rewrite Ny.
  - cbn in E. rewrite (IH (Some y) i x S E). by destruct i.
Qed.

(** The previous links make the nodes of a list different. *)
Lemma seg_nodup m xs n : seg m None xs n -> NoDup xs.
Proof.
  intros S. apply NoDup_alt. intros i. induction i as [|i IH]; intros [|j] x Ei Ej; [done|..];
    pose proof (seg_previous _ _ _ _ _ _ S Ei) as Pi; pose proof (seg_previous _ _ _ _ _ _ S Ej) as Pj;
    rewrite Pi in Pj; injection Pj as Pj.
  - apply lookup_lt_Some in Ej. symmetry in Pj. apply lookup_ge_None in Pj. lia.
  - apply lookup_lt_Some in Ei. apply lookup_ge_None in Pj. lia.
  - f_equal. destruct (lookup_lt_is_Some_2 xs i) as [y Ey]; [apply lookup_lt_Some in Ei; lia|].
    apply (IH j y); [done|congruence].
Qed.

Lemma int32_succ z : int32 (int32 z + 1) = int32 (z + 1).
Proof.
  apply wrap_s_congr. rewrite <- Zplus_mod_idemp_l. unfold int32. rewrite wrap_s_mod by done. apply Zplus_mod_idemp_l.
Qed.

(** [xs] has been verified, and the previous link of [x]. *)
Lemma verify_loop_spec st fuel : forall xs x,
  (exists n, seg (nodes st) None (xs ++ [x]) n) -> (size (nodes st) < length xs + fuel)%nat ->
  match verify_loop fuel st (Some x) (int32 (zlen xs)) with
  | inr (p, c) => exists ys, seg (nodes st) None (xs ++ x :: ys) None /\ p = lst None (xs ++ x :: ys) /\ c = int32 (zlen (xs ++ x :: ys))
  | inl f => f <> ell_fuel /\ forall ys, ~ seg (nodes st) None (xs ++ x :: ys) None
  end.
Proof.
  induction fuel as [|fuel IH]; intros xs x [n S] F.
  { pose proof (nodup_size (xs ++ [x]) (nodes st) (seg_nodup _ _ _ S) (fun y => seg_lookup _ _ _ _ y S)) as L.
    rewrite length_app in L. simpl in L. lia. }
  pose proof (seg_node _ _ _ _ _ _ S) as Nx. cbn [verify_loop hd] in *. rewrite (node_at_ok _ _ _ Nx). cbn [ebind next].
  assert (Uniq : forall ys, seg (nodes st) None (xs ++ x :: ys) None -> n = hd ys None).
  { intros ys S'. apply seg_node in S'. rewrite Nx in S'. by injection S'. }
  rewrite int32_succ. destruct n as [y|].
  - assert (Cons : forall ys, seg (nodes st) None (xs ++ x :: ys) None -> exists zs, ys = y :: zs).
    { intros ys S'. apply Uniq in S'. destruct ys as [|y' zs]; [done|]. injection S' as ->. by eexists. }
    assert (Bad : forall f, f <> ell_fuel -> (forall q, nodes st !! y <> Some (mkNode q (Some x))) ->
      f <> ell_fuel /\ forall ys, ~ seg (nodes st) None (xs ++ x :: ys) None).
    { intros f Hf B. split; [done|]. intros ys S'. destruct (Cons ys S') as [zs ->].
      change (x :: y :: zs) with ([x] ++ y :: zs) in S'. rewrite app_assoc in S'. apply seg_node in S'. rewrite lst_app in S'. by apply B in S'. }
    cbn [node_at]. destruct (nodes st !! y) as [[q pr]|] eqn:Ny; [|by apply Bad]. cbn [ebind previous].
    unfold assert. destruct (bool_decide_reflect (pr = Some x)) as [->|Np].
    + cbn [ebind]. specialize (IH (xs ++ [x]) y). rewrite length_app in IH. cbn [length] in IH.
      replace (zlen xs + 1) with (Z.of_nat (length xs + 1)) by lia.
      assert (S' : exists n, seg (nodes st) None ((xs ++ [x]) ++ [y]) n).
      { exists q. apply seg_app. split; [done|]. rewrite lst_app. by split. }
      specialize (IH S' ltac:(lia)). destruct (verify_loop _ _ _ _) as [f|[p c]].
      * destruct IH as [Hf B]. split; [done|]. intros ys S''. destruct (Cons ys S'') as [zs ->]. apply (B zs). by rewrite <- app_assoc.
      * destruct IH as (ys & S'' & -> & ->). exists (y :: ys). by rewrite <- app_assoc in *.
    + apply Bad; [done|]. intros q' E. congruence.
  - exists []. split_and!; [done|by rewrite lst_app|]. do 2 f_equal. rewrite length_app. simpl. lia.
Qed.

Lemma seg_unique m xs : forall ys p, seg m p xs None -> seg m p ys None -> hd xs None = hd ys None -> xs = ys.
Proof.
  induction xs as [|x xs IH]; intros [|y ys] p S S' E; try done. injection E as ->. destruct S as [N S], S' as [N' S'].
  rewrite N in N'. injection N' as Eh. f_equal. by apply (IH ys (Some y)).
Qed.

Lemma verify_end p c h :
  let r := (let* _ := assert (bool_decide (p = final h)) in assert (c =? count h)) in
  r <> inl ell_fuel /\ (r = inr tt <-> p = final h /\ c = count h).
Proof.
  unfold assert. destruct (bool_decide_reflect (p = final h)); cbn [ebind]; [|naive_solver].
  destruct (Z.eqb_spec c (count h)); naive_solver.
Qed.

Lemma verify_exact st l :
  ellVerify st l <> inl ell_fuel /\ (ellVerify st l = inr tt <-> exists xs, well_linked st l xs).
Proof.
  unfold ellVerify, well_linked. unfold list_at. destruct (lists st !! l) as [[f fi co]|] eqn:L.
  2: { split; [done|]. split; [done|]. intros (xs & _ & ?). done. }
  cbn [ebind]. change (first (mkList f fi co)) with f. destruct f as [x|].
  - assert (Node : forall xs, seg (nodes st) None xs None /\ Some (mkList (Some x) fi co) = Some (mkList (hd xs None) (lst None xs) (int32 (zlen xs))) ->
      exists ys, xs = x :: ys /\ seg (nodes st) None (x :: ys) None /\ fi = lst None xs /\ co = int32 (zlen xs)).
    { intros [|y ys] [S [=]]; try done. subst. eauto. }
    cbn [node_at]. destruct (nodes st !! x) as [[n pr]|] eqn:Nx.
    2: { split; [done|]. split; [done|]. intros (xs & (ys & -> & [S _] & _)%Node). congruence. }
    cbn [ebind previous]. destruct (decide (pr = None)) as [->|Np].
    2: { unfold assert at 1 4. rewrite bool_decide_false by done. split; [done|]. split; [done|].
         intros (xs & (ys & -> & [S _] & _)%Node). congruence. }
    unfold assert at 1 4. rewrite bool_decide_true by done. cbn [ebind].
    pose proof (verify_loop_spec st (walk st) [] x) as V. cbn [app length] in V.
    change (int32 (Z.of_nat 0)) with 0 in V. specialize (V (ex_intro _ n (conj Nx I)) ltac:(unfold walk; lia)).
    destruct (verify_loop _ _ _ _) as [f|[p c]]; cbn [ebind].
    + destruct V as [Hf B]. split; [congruence|]. split; [done|]. intros (xs & (ys & -> & S & _)%Node). by apply B in S.
    + destruct V as (ys & S & -> & ->). destruct (verify_end (lst None (x :: ys)) (int32 (zlen (x :: ys))) (mkList (Some x) fi co)) as [E1 E2].
      split; [exact E1|]. rewrite E2. cbn [final count]. split.
      * intros [<- <-]. by exists (x :: ys).
      * intros (xs & (zs & -> & S' & -> & ->)%Node).
        assert (ys = zs) as -> by (pose proof (seg_unique _ _ _ _ S S' eq_refl); congruence). done.
  - destruct (verify_end None 0 (mkList None fi co)) as [E1 E2]. split; [exact E1|]. cbn [ebind]. rewrite E2. cbn [final count]. split.
    + intros [<- <-]. by exists [].
    + intros ([|y ys] & _ & [=]); subst; done.
Qed.

(** (C37) [ellVerify] ends on every store, whatever the links are, and it succeeds exactly on the lists that are well
    linked: for some sequence of nodes the next and previous links and the first and last node of the list are those of the sequence, and
    the count is its length. *)
Theorem ell_verify_exact st l :
  ellVerify st l <> inl ell_fuel /\ (ellVerify st l = inr tt <-> exists xs, well_linked st l xs).
Proof. apply verify_exact. Qed.

(** ** The specification *)

(** What the callers of the library ask for; [E_malloc] makes a node, with any contents. *)
Inductive ell_op :=
| E_malloc (x : nat) (n : ELLNODE)
| E_init (l : nat)
| E_add (l x : nat)
| E_insert (l : nat) (prev : option nat) (x : nat)
| E_delete (l x : nat)
| E_get (l : nat)
| E_pop (l : nat)
| E_concat (dst add : nat)
| E_extract (src s e dst : nat)
| E_free (l : nat)
| E_nth (l : nat) (n : Z)
| E_nstep (l x : nat) (n : Z)
| E_find (l x : nat)
| E_verify (l : nat).

Inductive ell_result := R_void | R_node (p : option nat) | R_int (z : Z).

Definition void (m : el ell_state) : el (ell_result * ell_state) := let* st := m in inr (R_void, st).
Definition node_of (m : el (option nat * ell_state)) : el (ell_result * ell_state) := let* '(p, st) := m in inr (R_node p, st).

Definition ell_exec (op : ell_op) (st : ell_state) : el (ell_result * ell_state) :=
  match op with
  | E_malloc x n => inr (R_void, mkEll (<[x := n]> (nodes st)) (lists st))
  | E_init l => inr (R_void, ellInit st l)
  | E_add l x => void (ellAdd st l x)
  | E_insert l prev x => void (ellInsert st l prev x)
  | E_delete l x => void (ellDelete st l x)
  | E_get l => node_of (ellGet st l)
  | E_pop l => node_of (ellPop st l)
  | E_concat d a => void (ellConcat st d a)
  | E_extract src s e dst => void (ellExtract st src s e dst)
  | E_free l => void (ellFree2 st l)
  | E_nth l n => let* p := ellNth st l n in inr (R_node p, st)
  | E_nstep _ x n => let* p := ellNStep st (Some x) n in inr (R_node p, st)
  | E_find l x => let* z := ellFind st l x in inr (R_int z, st)
  | E_verify l => let* _ := ellVerify st l in inr (R_void, st)
  end.

Definition index (x : nat) (xs : list nat) : option nat := fst <$> list_find (eq x) xs.

Definition guard_some {A} (P : Prop) `{Decision P} (a : option A) : option A := if decide P then a else None.

(** The same on sequences; [None] when the caller breaks the rules of the library: a node that is in a list is not added
    again, and a node is taken out of the list it is in. *)
Definition ell_spec (op : ell_op) (w : world) : option (ell_result * world) :=
  match op with
  | E_malloc x _ =>
      guard_some (x ∉ alloc w /\ room w) (Some (R_void, grow w x))
  | E_init l => Some (R_void, put w l [])
  | E_add l x => xs ← contents w !! l; guard_some (is_free w x) (Some (R_void, put w l (xs ++ [x])))
  | E_insert l None x => xs ← contents w !! l; guard_some (is_free w x) (Some (R_void, put w l (x :: xs)))
  | E_insert l (Some p) x =>
      xs ← contents w !! l; i ← index p xs;
      guard_some (is_free w x) (Some (R_void, put w l (take (S i) xs ++ x :: drop (S i) xs)))
  | E_delete l x => xs ← contents w !! l; i ← index x xs; Some (R_void, put w l (take i xs ++ drop (S i) xs))
  | E_get l => xs ← contents w !! l; Some (R_node (head xs), match xs with [] => w | _ => put w l (tail xs) end)
  | E_pop l => xs ← contents w !! l; Some (R_node (last xs), match xs with [] => w | _ => put w l (removelast xs) end)
  | E_concat d a =>
      ys ← contents w !! d; xs ← contents w !! a; guard_some (d <> a) (Some (R_void, put (put w d (ys ++ xs)) a []))
  | E_extract src s e dst =>
      xs ← contents w !! src; ys ← contents w !! dst; i ← index s xs; j ← index e xs;
      guard_some (src <> dst /\ (i <= j)%nat)
        (Some (R_void, put (put w src (take i xs ++ drop (S j) xs)) dst (ys ++ drop i (take (S j) xs))))
  | E_free l => xs ← contents w !! l; Some (R_void, freed w l xs)
  | E_nth l n => xs ← contents w !! l; Some (R_node (if n <? 1 then None else xs !! Z.to_nat (n - 1)), w)
  | E_nstep l x n =>
      xs ← contents w !! l; i ← index x xs;
      Some (R_node (if Z.of_nat i + n <? 0 then None else xs !! Z.to_nat (Z.of_nat i + n)), w)
  | E_find l x => xs ← contents w !! l; Some (R_int (match index x xs with Some i => Z.of_nat i + 1 | None => -1 end), w)
  | E_verify l => xs ← contents w !! l; Some (R_void, w)
  end.

Fixpoint exec_run (ops : list ell_op) (st : ell_state) : el (list ell_result * ell_state) :=
  match ops with
  | [] => inr ([], st)
  | op :: ops => let* '(r, st) := ell_exec op st in let* '(rs, st) := exec_run ops st in inr (r :: rs, st)
  end.

Fixpoint spec_run (ops : list ell_op) (w : world) : option (list ell_result * world) :=
  match ops with
  | [] => Some ([], w)
  | op :: ops => '(r, w) ← ell_spec op w; '(rs, w) ← spec_run ops w; Some (r :: rs, w)
  end.

Lemma index_spec x xs i : index x xs = Some i -> xs = take i xs ++ x :: drop (S i) xs /\ xs !! i = Some x.
Proof.
  unfold index. destruct (list_find (eq x) xs) as [[j y]|] eqn:E; [|done]. intros [= <-].
  apply list_find_Some in E as (E & <- & _). split; [symmetry; by apply take_drop_middle|done].
Qed.

Lemma guard_inv {A} (P : Prop) `{Decision P} (a : option A) b : guard_some P a = Some b <-> P /\ a = Some b.
Proof. unfold guard_some. destruct (decide P); naive_solver. Qed.

Lemma lst_last xs : lst None xs = last xs.
Proof. induction xs as [|x xs _] using rev_ind; [done|]. by rewrite lst_app, last_snoc. Qed.

Lemma inv_verify st w l xs : inv st w -> contents w !! l = Some xs -> ellVerify st l = inr tt.
Proof.
  intros I E. apply (verify_exact st l). exists xs. split; [by apply (inv_seg _ _ I l)|].
  rewrite (inv_list _ _ _ _ I E), int32_id; [done|]. pose proof (inv_length _ _ _ _ I E). lia.
Qed.

(** One operation. *)
Lemma ell_step_refines op st w r w' :
  inv st w -> ell_spec op w = Some (r, w') -> exists st', ell_exec op st = inr (r, st') /\ inv st' w'.
Proof.
  intros I. assert (Void : forall m, (exists st', m = inr st' /\ inv st' w') ->
    exists st', void m = inr (R_void, st') /\ inv st' w') by (intros m (st' & -> & ?); by exists st').
  assert (Query : forall A (m : el A) a, m = inr a -> exists st', (let* x := m in inr (x, st)) = inr (a, st') /\ inv st' w)
    by (intros A m a ->; by exists st).
  destruct op as [x n|l|l x|l [p|] x|l x|l|l|d a|src s e dst|l|l n|l x n|l x|l]; cbn [ell_spec ell_exec].
  - intros [[X Sz] [= <- <-]]%guard_inv. eexists. split; [done|]. by apply malloc_inv.
  - intros [= <- <-]. eexists. split; [done|]. by apply ell_init_inv.
  - intros (xs & E & [F [= <- <-]]%guard_inv)%bind_Some. apply Void. by apply add_ok.
  - intros (xs & E & (i & [Ei Li]%index_spec & [F [= <- <-]]%guard_inv)%bind_Some)%bind_Some. apply Void.
    destruct (insert_ok st w l (take (S i) xs) (drop (S i) xs) x) as (st' & R & I'); [done|by rewrite take_drop|done|].
    rewrite (take_S_r _ _ p), lst_app in R by done. exists st'. split; [exact R|done].
  - intros (xs & E & [F [= <- <-]]%guard_inv)%bind_Some. apply Void. by apply (insert_ok st w l [] xs x).
  - intros (xs & E & (i & [Ei Li]%index_spec & [= <- <-])%bind_Some)%bind_Some. apply Void.
    apply (delete_ok st w l _ x); [done|]. by rewrite E, Ei at 1.
  - intros (xs & E & [= <- <-])%bind_Some. destruct (ell_get_ok st w l xs I E) as (st' & R & I').
    exists st'. rewrite R, <- hd_head. split; [done|]. by destruct xs.
  - intros (xs & E & [= <- <-])%bind_Some. destruct (pop_ok st w l xs I E) as (st' & R & I').
    exists st'. rewrite R, <- lst_last. split; [done|]. by destruct xs.
  - intros (ys & Ed & (xs & Ea & [Ne [= <- <-]]%guard_inv)%bind_Some)%bind_Some. apply Void. by apply concat_ok.
  - intros (xs & Es & (ys & Ed & (i & [Ei Li]%index_spec & (j & [Ej Lj]%index_spec & [[Ne Le] [= <- <-]]%guard_inv)%bind_Some)%bind_Some)%bind_Some)%bind_Some.
    apply Void. assert (Lt : (j < length xs)%nat) by (by eapply lookup_lt_Some).
    apply (extract_ok st w src dst (take i xs) _ (drop (S j) xs)); try done.
    + rewrite Es. f_equal. rewrite <- (take_drop (S j) xs) at 1. rewrite <- (take_drop i (take (S j) xs)) at 1.
      rewrite take_take, <- app_assoc. do 2 f_equal. lia.
    + rewrite hd_head, head_lookup, lookup_drop, Nat.add_0_r, lookup_take_lt by lia. done.
    + rewrite lst_last, last_lookup, length_drop, length_take. rewrite lookup_drop, lookup_take_lt by lia.
      rewrite <- Lj. f_equal. lia.
  - intros (xs & E & [= <- <-])%bind_Some. apply Void. by apply free_ok.
  - intros (xs & E & [= <- <-])%bind_Some. rewrite (nth_ok st w l xs) by done. by exists st.
  - intros (xs & E & (i & [Ei Li]%index_spec & [= <- <-])%bind_Some)%bind_Some.
    rewrite Ei in E. rewrite (nstep_ok st w l (take i xs) x (drop (S i) xs)) by done.
    rewrite length_take_le by (apply lookup_lt_Some in Li; lia). rewrite <- Ei. by exists st.
  - intros (xs & E & [= <- <-])%bind_Some. rewrite (find_ok st w l xs) by done. unfold index.
    exists st. by destruct (list_find _ _) as [[i y]|].
  - intros (xs & E & [= <- <-])%bind_Some. rewrite (inv_verify st w l xs) by done. by exists st.
Qed.

Lemma run_refines ops : forall st w rs w',
  inv st w -> spec_run ops w = Some (rs, w') -> exists st', exec_run ops st = inr (rs, st') /\ inv st' w'.
Proof.
  induction ops as [|op ops IH]; intros st w rs w' I; cbn [spec_run exec_run].
  - intros [= <- <-]. by exists st.
  - intros ([r w1] & S & ([rs' w2] & R & [= <- <-])%bind_Some)%bind_Some.
    destruct (ell_step_refines op st w r w1 I S) as (st1 & -> & I1). cbn [ebind].
    destruct (IH st1 w1 rs' w2 I1 R) as (st2 & -> & I2). by exists st2.
Qed.

Lemma inv_well_linked st w l xs : inv st w -> contents w !! l = Some xs -> well_linked st l xs.
Proof.
  intros I C. split; [by apply (inv_seg _ _ I l)|]. rewrite (inv_list _ _ _ _ I C), int32_id; [done|].
  pose proof (inv_length _ _ _ _ I C). lia.
Qed.

(** (C9) The linked list library implements sequences.  Whatever lists and nodes a program makes, and in whatever order it adds,
    inserts, deletes, gets, pops, concatenates, extracts, frees, indexes, steps and searches, as long as it keeps the rules of
    {!ell_spec} every call returns what the same operation on sequences returns, without an access to NULL or to a node that is not
    there, and the lists hold the sequences: their links in both directions, their first and last nodes and their counts. *)
Theorem ell_refines_sequences ops rs w :
  spec_run ops empty_world = Some (rs, w) ->
  exists st, exec_run ops empty_store = inr (rs, st) /\ forall l xs, contents w !! l = Some xs -> well_linked st l xs.
Proof.
  intros R. destruct (run_refines ops _ _ _ _ empty_inv R) as (st & E & I). exists st. split; [done|].
  intros l xs C. by apply (inv_well_linked st w).
Qed.

Definition sample_ops : list ell_op :=
  [E_init 1; E_init 2] ++ map (fun x => E_malloc x (mkNode (Some 77%nat) None)) (seq 10 6) ++
  map (E_add 1) (seq 10 5) ++ [E_insert 1 (Some 11%nat) 15; E_extract 1 15 13 2; E_nth 2 2; E_delete 1 10; E_find 1 14; E_get 2;
  E_concat 1 2; E_nstep 1 13 (-2); E_pop 1; E_verify 1; E_free 1].

Lemma ell_refines_sequences_witness :
  exists st, exec_run sample_ops empty_store =
    inr (replicate 15 R_void ++ [R_node (Some 12); R_void; R_int 2; R_node (Some 15); R_void; R_node (Some 14);
           R_node (Some 13); R_void; R_void]%nat, st).
Proof. destruct (ell_refines_sequences sample_ops _ _ ltac:(vm_compute; reflexivity)) as (st & E & _). by exists st. Defined.

(** ** The interface of {!ListLib} *)

Lemma free_node_inv st w x : inv st w -> is_free w x -> exists st', freeFunc st x = inr st' /\ inv st' (shrink w x).
Proof.
  intros I F. destruct (inv_free st w x I F) as [n N]. unfold freeFunc. rewrite (node_at_ok _ _ _ N).
  eexists. split; [reflexivity|]. apply (inv_change (fun _ => False) st w); cbn [nodes lists contents alloc shrink]; try done.
  - auto.
  - apply (inv_lists _ _ I).
  - by rewrite dom_delete_L, (inv_alloc _ _ I).
  - pose proof (inv_size _ _ I). pose proof (map_size_delete x (nodes st)) as D. rewrite N in D. lia.
  - intros l xs _ E. split; [done|]. intros y Y. apply lookup_delete_ne. intros <-. by eapply free_not_in.
Qed.

#[export] Instance ell_list_lib : ListLib ell_fault ell_state.
Proof.
  refine {| ListLib.empty_store := empty_store;
    node_calloc s x := mkEll (<[x := mkNode None None]> (nodes s)) (lists s);
    node_free := freeFunc;
    list_free s l := mkEll (nodes s) (delete l (lists s));
    ListLib.ellInit := ellInit;
    ellFirst s l := let* h := list_at s l in inr (first h);
    ellNext s x := let* n := node_at s (Some x) in inr (next n);
    ListLib.ellAdd := ellAdd; ListLib.ellDelete := ellDelete; holds := inv |}.
  - apply empty_inv.
  - intros. by apply malloc_inv.
  - apply free_node_inv.
  - intros. by apply ell_init_inv.
  - intros. by apply forget_inv.
  - intros s w l xs I E. by rewrite (list_at_ok _ _ _ (inv_list _ _ _ _ I E)), <- hd_head.
  - intros s w l a x b I E. destruct (inv_seg _ _ I _ _ E) as [Sg _].
    by rewrite (node_at_ok _ _ _ (seg_node _ _ _ _ _ _ Sg)), <- hd_head.
  - intros. by apply add_ok.
  - intros. by eapply delete_ok.
  - intros s w l xs I E. by destruct (inv_seg _ _ I _ _ E).
  - intros s w l l' xs xs' x I. apply (inv_disj _ _ I).
  - intros s w l xs x I E X. rewrite (inv_alloc _ _ I). apply elem_of_dom. by eapply inv_node.
Defined.
