(* ===== verification/EllSort.v ===== *)
(** * Sorting a linked list ([modules/libcom/src/ellLib/ellSort.c])

    A merge sort that goes over the list with sublists of 1, 2, 4, ... nodes; the comparison function of the caller
    is a parameter. *)

From stdpp Require Import base numbers list option gmap fin_maps.
From Stdlib Require Import ZArith Lia Bool Sorted Permutation.
From S2P Require Import Prelude ListLib EllLib EllProof EllRefine.

(** ** Operations *)

Section sorting.
Context (cmp : nat -> nat -> Z).

(** [ellAdd(pTo, ellGet(pFrom))] *)
Definition move_one (st : ell_state) (pTo pFrom : nat) : el ell_state :=
  let* '(node, st) := ellGet st pFrom in
  match node with
  | Some x => ellAdd st pTo x
  | None => inl ell_null
  end.

Fixpoint ellMoveN (fuel : nat) (st : ell_state) (pTo pFrom : nat) (count : Z) : el ell_state :=
  match fuel with
  | O => inl ell_fuel
  | S fuel =>
      let* f := list_at st pFrom in
      if negb (count =? 0) && negb (EllLib.count f =? 0) then
        let* st := move_one st pTo pFrom in
        ellMoveN fuel st pTo pFrom (count - 1)
      else inr st
  end.

(** The merging of [P] and [Q] into [pList]. *)
Fixpoint merge_loop (fuel : nat) (st : ell_state) (pList P Q : nat) : el ell_state :=
  match fuel with
  | O => inl ell_fuel
  | S fuel =>
      let* hp := list_at st P in
      let* hq := list_at st Q in
      match first hp, first hq with
      | Some p, Some q =>
          let* st := if cmp p q <? 0 then move_one st pList P else move_one st pList Q in
          merge_loop fuel st pList P Q
      | _, _ => inr st
      end
  end.

(** What is left of [P] or [Q] goes to the end of the result. *)
Definition append_rest (st : ell_state) (pList P Q : nat) : el ell_state :=
  let* hp := list_at st P in
  let* hq := list_at st Q in
  let* st :=
    match first hp, first hq with
    | Some _, _ => ellConcat st pList P
    | None, Some _ => ellConcat st pList Q
    | None, None => inr st
    end in
  let* hp := list_at st P in
  let* hq := list_at st Q in
  let* _ := assert (bool_decide (first hp = None) && bool_decide (first hq = None)) in
  inr st.

(** The next pair of sublists of [INP] is merged; [insize] becomes an [int]. *)
Definition merge_pair (st : ell_state) (pList INP P Q : nat) (insize : Z) : el ell_state :=
  let* st := ellMoveN (walk st) st Q INP (int32 insize) in
  let* st := ellMoveN (walk st) st P INP (int32 insize) in
  let* st := merge_loop (walk st) st pList P Q in
  append_rest st pList P Q.

Fixpoint pair_loop (fuel : nat) (st : ell_state) (pList INP P Q : nat) (insize : Z) : el ell_state :=
  match fuel with
  | O => inl ell_fuel
  | S fuel =>
      let* hi := list_at st INP in
      if count hi =? 0 then inr st
      else
        let* st := merge_pair st pList INP P Q insize in
        pair_loop fuel st pList INP P Q insize
  end.

(** The passes; [insize] is a [size_t]. *)
Fixpoint pass_loop (fuel : nat) (st : ell_state) (pList INP P Q : nat) (insize : Z) : el ell_state :=
  match fuel with
  | O => inl ell_fuel
  | S fuel =>
      let* h := list_at st pList in
      if insize <? wrap_u 64 (count h) then
        let* hi := list_at st INP in
        let* _ := assert (count hi =? 0) in
        let* st := ellConcat st INP pList in
        let* st := pair_loop (walk st) st pList INP P Q insize in
        pass_loop fuel st pList INP P Q (wrap_u 64 (insize * 2))
      else inr st
  end.

(** [INP], [P] and [Q] are the addresses of the local variables, which are gone at the end; there are less passes than bits in
    [size_t]. *)
Definition ellSortStable (st : ell_state) (pList INP P Q : nat) : el ell_state :=
  let* h := list_at st pList in
  if count h <=? 1 then inr st
  else
    let st := ellInit (ellInit (ellInit st INP) P) Q in
    let* st := pass_loop 64 st pList INP P Q 1 in
    inr (mkEll (nodes st) (delete INP (delete P (delete Q (lists st))))).

(** ** The sort on sequences *)

Fixpoint merge (ps : list nat) : list nat -> list nat :=
  fix merge_q (qs : list nat) : list nat :=
    match ps, qs with
    | [], _ => qs
    | _, [] => ps
    | p :: ps', q :: qs' => if cmp p q <? 0 then p :: merge ps' qs else q :: merge_q qs'
    end.

Fixpoint pass (fuel n : nat) (xs : list nat) : list nat :=
  match fuel, xs with
  | S fuel, _ :: _ => merge (take n (drop n xs)) (take n xs) ++ pass fuel n (drop n (drop n xs))
  | _, _ => []
  end.

Fixpoint passes (fuel n : nat) (xs : list nat) : list nat :=
  match fuel with
  | S fuel => if decide (n < length xs)%nat then passes fuel (n * 2) (pass (length xs) n xs) else xs
  | O => xs
  end.

Lemma merge_nil_r ps : merge ps [] = ps.
Proof. by destruct ps. Qed.

Lemma merge_cons p ps q qs :
  merge (p :: ps) (q :: qs) = if cmp p q <? 0 then p :: merge ps (q :: qs) else q :: merge (p :: ps) qs.
Proof. reflexivity. Qed.

Lemma merge_ind (R : list nat -> list nat -> list nat -> Prop) :
  (forall qs, R [] qs qs) -> (forall ps, R ps [] ps) ->
  (forall p ps q qs, cmp p q < 0 -> R ps (q :: qs) (merge ps (q :: qs)) -> R (p :: ps) (q :: qs) (p :: merge ps (q :: qs))) ->
  (forall p ps q qs, 0 <= cmp p q -> R (p :: ps) qs (merge (p :: ps) qs) -> R (p :: ps) (q :: qs) (q :: merge (p :: ps) qs)) ->
  forall ps qs, R ps qs (merge ps qs).
Proof.
  intros N1 N2 C1 C2 ps. induction ps as [|p ps IH]; intros qs.
  - destruct qs; apply N1.
  - induction qs as [|q qs IHq]; [apply N2|]. rewrite merge_cons. destruct (Z.ltb_spec (cmp p q) 0); auto.
Qed.

Lemma merge_perm ps qs : merge ps qs ≡ₚ qs ++ ps.
Proof.
  apply merge_ind; clear ps qs.
  - intros qs. by rewrite app_nil_r.
  - done.
  - intros p ps q qs _ IH. rewrite IH. solve_Permutation.
  - intros p ps q qs _ IH. by rewrite IH.
Qed.

Lemma pass_perm fuel n : (0 < n)%nat -> forall xs, (length xs <= fuel)%nat -> pass fuel n xs ≡ₚ xs.
Proof.
  intros N. induction fuel as [|fuel IH]; intros [|x xs] F; try done; [simpl in F; lia|]. cbn [pass].
  rewrite merge_perm, IH by (rewrite !length_drop; simpl in *; lia). by rewrite <- app_assoc, !take_drop.
Qed.

(** ** What the comparison function has to be *)

(** A strict weak order, as far as the sign of the result tells. *)
Record strict_weak : Prop := mkWeak {
  weak_asym : forall x y, cmp x y < 0 -> 0 <= cmp y x;
  weak_trans : forall x y z, 0 <= cmp y x -> 0 <= cmp z y -> 0 <= cmp z x }.

(** [x] may stand before [y]; [x] and [y] are equivalent. *)
Definition before (x y : nat) : Prop := 0 <= cmp y x.
Definition equivalent (x y : nat) : bool := (0 <=? cmp x y) && (0 <=? cmp y x).

Definition stable (xs ys : list nat) : Prop :=
  forall x, List.filter (equivalent x) ys = List.filter (equivalent x) xs.

Context (W : strict_weak).

Lemma merge_sorted ps qs : StronglySorted before ps -> StronglySorted before qs -> StronglySorted before (merge ps qs).
Proof.
  apply (merge_ind (fun ps qs r => StronglySorted before ps -> StronglySorted before qs -> StronglySorted before r)); clear ps qs.
  - done.
  - done.
  - intros p ps q qs L IH [Sp Fp]%StronglySorted_inv Sq. constructor; [auto|]. rewrite merge_perm.
    pose proof (StronglySorted_inv Sq) as [_ Fq]. apply Forall_app. split; [|done]. constructor; [by apply W|].
    eapply Forall_impl; [exact Fq|]. intros y Hy. apply (weak_trans W p q y); [by apply (weak_asym W)|done].
  - intros p ps q qs L IH Sp [Sq Fq]%StronglySorted_inv. constructor; [auto|]. rewrite merge_perm.
    pose proof (StronglySorted_inv Sp) as [_ Fp]. apply Forall_app. split; [done|]. constructor; [done|].
    eapply Forall_impl; [exact Fp|]. intros y Hy. by apply (weak_trans W q p y).
Qed.

Lemma filter_nil (f : nat -> bool) xs : Forall (fun x => f x = false) xs -> List.filter f xs = [].
Proof. induction 1 as [|x xs E _ IH]; simpl; [done|]. by rewrite E. Qed.

Lemma merge_stable ps qs :
  StronglySorted before qs -> stable (qs ++ ps) (merge ps qs).
Proof.
  intros S x. revert S. apply (merge_ind (fun ps qs r => StronglySorted before qs ->
    List.filter (equivalent x) r = List.filter (equivalent x) (qs ++ ps))); clear ps qs.
  - intros qs _. by rewrite app_nil_r.
  - done.
  - intros p ps q qs L IH S. rewrite List.filter_app. cbn [List.filter]. rewrite IH by done.
    destruct (equivalent x p) eqn:E; [|by rewrite List.filter_app].
    assert (N : List.filter (equivalent x) (q :: qs) = []).
    { apply filter_nil. pose proof (StronglySorted_inv S) as [_ F]. apply andb_true_iff in E as [E1 E2].
      assert (Q : 0 <= cmp q q) by (destruct (Z.ltb_spec (cmp q q) 0) as [H|H]; [by apply (weak_asym W)|done]).
      assert (F' : Forall (before q) (q :: qs)) by (by constructor).
      eapply Forall_impl; [exact F'|]. intros y Hy. apply not_true_iff_false. intros [Y1 Y2]%andb_true_iff.
      apply Z.leb_le in E1, E2, Y1, Y2. pose proof (weak_trans W y x p Y1 E2) as Yp. pose proof (weak_trans W q y p Hy Yp). lia. }
    rewrite List.filter_app, N. cbn [List.filter] in N. destruct (equivalent x q); [done|]. by rewrite N.
  - intros p ps q qs L IH [S _]%StronglySorted_inv. cbn [List.filter app]. rewrite IH by done. done.
Qed.

(** Every sublist of [n] nodes is sorted. *)
Definition chunks_sorted (n : nat) (xs : list nat) : Prop :=
  forall k, StronglySorted before (take n (drop (k * n) xs)).

Lemma pass_sorted n : (0 < n)%nat -> forall fuel xs,
  (length xs <= fuel)%nat -> chunks_sorted n xs -> chunks_sorted (n * 2) (pass fuel n xs).
Proof.
  intros N. induction fuel as [|fuel IH]; intros [|x xs] F S k; try (simpl in F; lia).
  1,2: cbn [pass]; rewrite drop_nil, take_nil; constructor.
  cbn [pass]. set (m := merge _ _). set (l := x :: xs) in *.
  assert (Lm : length m = Nat.min (n * 2) (length l)).
  { subst m. rewrite (Permutation_length (merge_perm _ _)), length_app, !length_take, length_drop. lia. }
  assert (Sm : StronglySorted before m).
  { apply merge_sorted; [specialize (S 1%nat)|specialize (S 0%nat)]; by rewrite ?Nat.mul_1_l in S. }
  assert (Sr : chunks_sorted (n * 2) (pass fuel n (drop n (drop n l)))).
  { apply IH; [rewrite !length_drop; subst l; simpl in *; lia|]. intros j. specialize (S (j + 2)%nat).
    rewrite !drop_drop. by replace (n + (n + j * n))%nat with ((j + 2) * n)%nat by lia. }
  destruct (decide (n * 2 <= length l)%nat) as [Le|Gt].
  - destruct k as [|k].
    + cbn [Nat.mul]. rewrite drop_0, take_app_le by lia. rewrite take_ge by lia. done.
    + rewrite drop_app_ge by lia. replace (Datatypes.S k * (n * 2) - length m)%nat with (k * (n * 2))%nat by lia. apply Sr.
  - assert (drop n (drop n l) = []) as -> by (apply nil_length_inv; rewrite !length_drop; lia).
    assert (pass fuel n [] = []) as -> by (by destruct fuel). rewrite app_nil_r. destruct k as [|k].
    + cbn [Nat.mul]. rewrite drop_0, take_ge by lia. done.
    + rewrite drop_ge by lia. rewrite take_nil. constructor.
Qed.

Lemma pass_stable n : (0 < n)%nat -> forall fuel xs,
  (length xs <= fuel)%nat -> chunks_sorted n xs -> stable xs (pass fuel n xs).
Proof.
  intros N. induction fuel as [|fuel IH]; intros [|x xs] F S e; try (simpl in F; lia); [done..|].
  cbn [pass]. set (l := x :: xs) in *. rewrite List.filter_app, merge_stable.
  - rewrite IH; [|rewrite !length_drop; subst l; simpl in *; lia|].
    + rewrite <- List.filter_app, <- app_assoc, !take_drop. done.
    + intros j. specialize (S (j + 2)%nat). rewrite !drop_drop.
      by replace (n + (n + j * n))%nat with ((j + 2) * n)%nat by lia.
  - specialize (S 0%nat). done.
Qed.

Lemma passes_spec fuel : forall n xs,
  (0 < n)%nat -> Z.of_nat (length xs) <= Z.of_nat n * 2 ^ Z.of_nat fuel -> chunks_sorted n xs ->
  let ys := passes fuel n xs in ys ≡ₚ xs /\ StronglySorted before ys /\ stable xs ys.
Proof.
  induction fuel as [|fuel IH]; intros n xs N F S; cbn [passes].
  - rewrite Z.mul_1_r in F. split_and!; [done| |done]. specialize (S 0%nat). cbn [Nat.mul] in S. rewrite drop_0, take_ge in S by lia. done.
  - destruct (decide _) as [L|L].
    + pose proof (pass_perm (length xs) n N xs ltac:(lia)) as P.
      destruct (IH (n * 2)%nat (pass (length xs) n xs)) as (P' & S' & St'); [lia| |by apply pass_sorted|].
      * rewrite (Permutation_length P). rewrite Nat2Z.inj_succ, Z.pow_succ_r in F by lia. lia.
      * split_and!; [by rewrite P'|done|]. intros x. rewrite (St' x). by apply pass_stable.
    + split_and!; [done| |done]. specialize (S 0%nat). cbn [Nat.mul] in S. rewrite drop_0, take_ge in S by lia. done.
Qed.

Lemma chunks_1 xs : chunks_sorted 1 xs.
Proof.
  intros k. rewrite Nat.mul_1_r. destruct (drop k xs) as [|x l]; [constructor|]. simpl. rewrite take_0. repeat constructor.
Qed.
End sorting.

(** ** The code sorts the list *)

Lemma inv_len st w l xs : inv st w -> contents w !! l = Some xs -> (length xs <= size (nodes st))%nat.
Proof. intros I E. apply nodup_size; [by apply (inv_seg _ _ I l)|]. intros x. by eapply inv_node. Qed.

Lemma inv_len2 st w d a ys xs :
  inv st w -> d <> a -> contents w !! d = Some ys -> contents w !! a = Some xs ->
  (length ys + length xs <= size (nodes st))%nat.
Proof.
  intros I Ne Ed Ea. rewrite <- length_app. apply nodup_size; [by apply (inv_app _ _ _ _ _ _ I Ne)|].
  intros z [Hz|Hz]%elem_of_app; [apply (inv_node _ _ _ _ _ I Ed Hz)|apply (inv_node _ _ _ _ _ I Ea Hz)].
Qed.

Lemma put_same w l xs : contents w !! l = Some xs -> put w l xs = w.
Proof. intros E. unfold put. rewrite insert_id by done. by destruct w. Qed.

Lemma put_put w l xs ys : put (put w l xs) l ys = put w l ys.
Proof. unfold put. cbn [contents alloc]. by rewrite insert_insert_eq. Qed.

Lemma put_comm w l l' xs ys : l <> l' -> put (put w l xs) l' ys = put (put w l' ys) l xs.
Proof. intros N. unfold put. cbn [contents alloc]. by rewrite insert_insert_ne. Qed.

Lemma put_lookup w l xs : contents (put w l xs) !! l = Some xs.
Proof. apply lookup_insert_eq. Qed.

Lemma put_lookup_ne w l l' xs : l <> l' -> contents (put w l xs) !! l' = contents w !! l'.
Proof. apply lookup_insert_ne. Qed.

(** What a changed world holds. *)
Ltac in_world := repeat first [rewrite put_lookup | rewrite put_lookup_ne by done]; done.

Lemma list_at_inv st w l xs : inv st w -> contents w !! l = Some xs -> list_at st l = inr (header xs).
Proof. intros I E. by apply list_at_ok, (inv_list _ w). Qed.

Lemma move_one_ok st w pTo pFrom x xs ys :
  inv st w -> pFrom <> pTo -> contents w !! pFrom = Some (x :: xs) -> contents w !! pTo = Some ys ->
  exists st', move_one st pTo pFrom = inr st' /\ inv st' (put (put w pFrom xs) pTo (ys ++ [x])).
Proof.
  intros I Ne Ef Et. unfold move_one. destruct (ell_get_ok st w pFrom (x :: xs) I Ef) as (st1 & -> & I1). cbn [ebind hd].
  apply add_ok; [done|by rewrite put_lookup_ne|]. split.
  - cbn [put alloc]. rewrite (inv_alloc _ _ I), elem_of_dom. eapply inv_node; [done|exact Ef|by left].
  - intros l zs. destruct (decide (pFrom = l)) as [<-|N].
    + rewrite put_lookup. intros [= <-]. apply (inv_seg _ _ I) in Ef as [_ Nd]. by apply NoDup_cons in Nd as [? _].
    + rewrite put_lookup_ne by done. intros El Z. apply N. apply (inv_disj _ _ I pFrom l (x :: xs) zs x); [done|done|by left|done].
Qed.

Lemma move_n_ok fuel : forall st w pTo pFrom n xs ys,
  inv st w -> pFrom <> pTo -> contents w !! pFrom = Some xs -> contents w !! pTo = Some ys -> (length xs < fuel)%nat ->
  exists st', ellMoveN fuel st pTo pFrom (Z.of_nat n) = inr st' /\
    inv st' (put (put w pFrom (drop n xs)) pTo (ys ++ take n xs)).
Proof.
  induction fuel as [|fuel IH]; intros st w pTo pFrom n xs ys I Ne Ef Et F; [lia|]. cbn [ellMoveN].
  rewrite (list_at_inv _ _ _ _ I Ef). cbn [ebind header count].
  destruct xs as [|x xs].
  - rewrite andb_false_r. exists st. split; [done|]. rewrite drop_nil, take_nil, app_nil_r, (put_same w), put_same; done.
  - destruct n as [|n].
    + exists st. split; [done|]. rewrite drop_0, take_0, app_nil_r, (put_same w), put_same; done.
    + rewrite (proj2 (Z.eqb_neq _ _)), (proj2 (Z.eqb_neq _ _)) by (simpl; lia). cbn [negb andb].
      destruct (move_one_ok st w pTo pFrom x xs ys I Ne Ef Et) as (st1 & -> & I1). cbn [ebind].
      replace (Z.of_nat (S n) - 1) with (Z.of_nat n) by lia.
      destruct (IH st1 _ pTo pFrom n xs (ys ++ [x]) I1 Ne) as (st2 & -> & I2).
      { rewrite put_lookup_ne by done. apply put_lookup. }
      { apply put_lookup. }
      { simpl in F. lia. }
      exists st2. split; [done|]. rewrite (put_comm _ pTo pFrom), put_put, put_put in I2 by done.
      cbn [drop take]. by rewrite <- app_assoc in I2.
Qed.

Lemma distinct4 (l INP P Q : nat) :
  NoDup [l; INP; P; Q] -> (l <> INP /\ l <> P /\ l <> Q) /\ (INP <> P /\ INP <> Q /\ P <> Q).
Proof.
  intros D. apply NoDup_cons in D as [D1 D2]. apply NoDup_cons in D2 as [D2 D3]. apply NoDup_cons in D3 as [D3 _]. set_solver.
Qed.

Section heap.
Context (cmp : nat -> nat -> Z).

Lemma merge_loop_ok fuel : forall st w l P Q a ps qs,
  inv st w -> NoDup [l; P; Q] -> contents w !! l = Some a -> contents w !! P = Some ps -> contents w !! Q = Some qs ->
  (length ps + length qs < fuel)%nat ->
  exists st' a' ps' qs', merge_loop cmp fuel st l P Q = inr st' /\
    inv st' (put (put (put w l a') P ps') Q qs') /\ (ps' = [] \/ qs' = []) /\ a' ++ ps' ++ qs' = a ++ merge cmp ps qs.
Proof.
  induction fuel as [|fuel IH]; intros st w l P Q a ps qs I D El Ep Eq F; [lia|].
  assert (Hd : l <> P /\ l <> Q /\ P <> Q).
  { apply NoDup_cons in D as [D1 D]. apply NoDup_cons in D as [D2 _]. set_solver. }
  destruct Hd as (lP & lQ & PQ). assert (P <> l /\ Q <> l /\ Q <> P) as (Pl & Ql & QP) by done. cbn [merge_loop].
  rewrite (list_at_inv _ _ _ _ I Ep), (list_at_inv _ _ _ _ I Eq). cbn [ebind header first].
  destruct ps as [|p ps]; [|destruct qs as [|q qs]]; cbn [hd].
  - exists st, a, [], qs. rewrite (put_same w l), (put_same w P), (put_same w Q) by done. split_and!; [done|done|by left|]. by destruct qs.
  - exists st, a, (p :: ps), []. rewrite (put_same w l), (put_same w P), (put_same w Q) by done. split_and!; [done|done|by right|]. by rewrite app_nil_r, merge_nil_r.
  - rewrite merge_cons. destruct (cmp p q <? 0).
    + destruct (move_one_ok st w l P p ps a I ltac:(done) Ep El) as (st1 & -> & I1). cbn [ebind].
      destruct (IH st1 _ l P Q (a ++ [p]) ps (q :: qs) I1 D) as (st2 & a' & ps' & qs' & R & I2 & E & Ea).
      { in_world. } { in_world. } { in_world. } { simpl in *. lia. }
      exists st2, a', ps', qs'. split_and!; [done| |done|by rewrite Ea, <- app_assoc].
      rewrite put_put, (put_comm _ P l), put_put in I2 by done. done.
    + destruct (move_one_ok st w l Q q qs a I ltac:(done) Eq El) as (st1 & -> & I1). cbn [ebind].
      destruct (IH st1 _ l P Q (a ++ [q]) (p :: ps) qs I1 D) as (st2 & a' & ps' & qs' & R & I2 & E & Ea).
      { in_world. } { in_world. } { in_world. } { simpl in *. lia. }
      exists st2, a', ps', qs'. split_and!; [done| |done|by rewrite Ea, <- app_assoc].
      rewrite put_put, (put_comm _ Q l), (put_comm _ Q P), put_put in I2 by done. done.
Qed.

(** Two ways to the same lists. *)
Ltac same_world :=
  unfold put; cbn [contents alloc]; f_equal; apply map_eq; intros ?; rewrite !lookup_insert; repeat case_decide; congruence.

Lemma append_rest_ok st w l P Q a ps qs :
  inv st w -> NoDup [l; P; Q] -> contents w !! l = Some a -> contents w !! P = Some ps -> contents w !! Q = Some qs ->
  ps = [] \/ qs = [] ->
  exists st', append_rest st l P Q = inr st' /\ inv st' (put (put (put w l (a ++ ps ++ qs)) P []) Q []).
Proof.
  intros I D El Ep Eq E. assert (Hd : l <> P /\ l <> Q /\ P <> Q).
  { apply NoDup_cons in D as [D1 D]. apply NoDup_cons in D as [D2 _]. set_solver. }
  destruct Hd as (lP & lQ & PQ). set (w' := put (put (put w l (a ++ ps ++ qs)) P []) Q []).
  assert (End : forall st', inv st' w' ->
    (let* hp := list_at st' P in let* hq := list_at st' Q in
     let* _ := assert (bool_decide (first hp = None) && bool_decide (first hq = None)) in inr st') = inr st').
  { intros st' I'. rewrite (list_at_inv _ _ P [] I'), (list_at_inv _ _ Q [] I'); unfold w'; [done|in_world..]. }
  unfold append_rest. rewrite (list_at_inv _ _ _ _ I Ep), (list_at_inv _ _ _ _ I Eq). cbn [ebind header first].
  destruct ps as [|p ps]; cbn [hd].
  - destruct qs as [|q qs]; cbn [hd].
    + exists st. assert (w' = w) as Ew by (unfold w'; rewrite app_nil_r, (put_same w l), (put_same w P), (put_same w Q); done).
      rewrite Ew in *. split; [by apply End|done].
    + destruct (concat_ok st w l Q a (q :: qs) I lQ El Eq) as (st' & -> & I'). cbn [ebind].
      assert (Ew : put (put w l (a ++ q :: qs)) Q [] = w').
      { unfold w'. cbn [app]. rewrite <- (put_same (put w l (a ++ q :: qs)) P []) at 1; [done|]. in_world. }
      rewrite Ew in I'. exists st'. split; [by apply End|done].
  - destruct E as [| ->]; [done|]. destruct (concat_ok st w l P a (p :: ps) I lP El Ep) as (st' & -> & I'). cbn [ebind].
    assert (Ew : put (put w l (a ++ p :: ps)) P [] = w').
    { unfold w'. rewrite app_nil_r. rewrite (put_same (put _ P []) Q); [done|]. in_world. }
    rewrite Ew in I'. exists st'. split; [by apply End|done].
Qed.

Lemma walk_list st w l xs : inv st w -> contents w !! l = Some xs -> (length xs < walk st)%nat.
Proof. intros I E. pose proof (inv_len _ _ _ _ I E). unfold walk. lia. Qed.

Lemma merge_pair_ok st w l INP P Q n a ys :
  inv st w -> NoDup [l; INP; P; Q] -> contents w !! l = Some a -> contents w !! INP = Some ys ->
  contents w !! P = Some [] -> contents w !! Q = Some [] -> Z.of_nat n < 2 ^ 31 ->
  exists st', merge_pair cmp st l INP P Q (Z.of_nat n) = inr st' /\
    inv st' (put (put w l (a ++ merge cmp (take n (drop n ys)) (take n ys))) INP (drop n (drop n ys))).
Proof.
  intros I [(H1 & H2 & H3) (H4 & H5 & H6)]%distinct4 El Ei Ep Eq N. unfold merge_pair. rewrite int32_id by lia.
  destruct (move_n_ok (walk st) st w Q INP n ys [] I H5 Ei Eq) as (st1 & -> & I1); [by eapply walk_list|]. cbn [ebind app] in *.
  set (w1 := put _ Q _) in I1.
  assert (Ei1 : contents w1 !! INP = Some (drop n ys)) by (unfold w1; in_world).
  destruct (move_n_ok (walk st1) st1 w1 P INP n (drop n ys) [] I1 H4 Ei1) as (st2 & -> & I2).
  { unfold w1. in_world. } { by eapply walk_list. }
  cbn [ebind app] in *. set (w2 := put _ P _) in I2.
  assert (El2 : contents w2 !! l = Some a) by (unfold w2, w1; in_world).
  assert (Ep2 : contents w2 !! P = Some (take n (drop n ys))) by (unfold w2; in_world).
  assert (Eq2 : contents w2 !! Q = Some (take n ys)) by (unfold w2, w1; in_world).
  assert (D3 : NoDup [l; P; Q]) by (repeat constructor; set_solver).
  destruct (merge_loop_ok (walk st2) st2 w2 l P Q a _ _ I2 D3 El2 Ep2 Eq2) as (st3 & a' & ps' & qs' & -> & I3 & E3 & A3).
  { pose proof (inv_len2 _ _ _ _ _ _ I2 H6 Ep2 Eq2). unfold walk. lia. }
  cbn [ebind].
  destruct (append_rest_ok st3 _ l P Q a' ps' qs' I3 D3) as (st4 & -> & I4); [in_world..|exact E3|].
  exists st4. split; [done|]. rewrite A3 in I4.
  match goal with H : inv st4 ?w4 |- inv st4 ?w' => assert (w4 = w') as <-; [|done] end. unfold w2, w1. same_world.
Qed.

(** The local lists are empty between the pairs of sublists. *)
Lemma pair_loop_ok k : forall fuel st w l INP P Q n a b,
  inv st w -> NoDup [l; INP; P; Q] -> contents w !! l = Some a -> contents w !! INP = Some b ->
  contents w !! P = Some [] -> contents w !! Q = Some [] -> (length b <= k)%nat -> (length b < fuel)%nat ->
  (0 < n)%nat -> Z.of_nat n < 2 ^ 31 ->
  exists st', pair_loop cmp fuel st l INP P Q (Z.of_nat n) = inr st' /\
    inv st' (put (put w l (a ++ pass cmp k n b)) INP []).
Proof.
  induction k as [|k IH]; intros [|fuel] st w l INP P Q n a b I D El Ei Ep Eq K F N0 N; try lia;
    cbn [pair_loop]; rewrite (list_at_inv _ _ _ _ I Ei); cbn [ebind header count]; (destruct b as [|x b];
    [exists st; split; [done|]; cbn [pass]; rewrite app_nil_r, (put_same w l), (put_same w INP); done|]); [simpl in K; lia|].
  rewrite (proj2 (Z.eqb_neq _ _)) by (simpl; lia). set (ys := x :: b) in *.
  destruct (merge_pair_ok st w l INP P Q n a ys I D El Ei Ep Eq N) as (st1 & -> & I1). cbn [ebind].
  pose proof (distinct4 _ _ _ _ D) as [(H1 & H2 & H3) (H4 & H5 & H6)].
  destruct (IH fuel st1 _ l INP P Q n (a ++ merge cmp (take n (drop n ys)) (take n ys)) (drop n (drop n ys)) I1 D) as (st2 & -> & I2);
    [in_world..| | |done|done|].
  { rewrite !length_drop. subst ys. simpl in *. lia. } { rewrite !length_drop. subst ys. simpl in *. lia. }
  exists st2. split; [done|]. rewrite (put_comm _ INP l), put_put, put_put, <- app_assoc in I2 by done. exact I2.
Qed.

Lemma pass_loop_S fuel st l INP P Q insize :
  pass_loop cmp (S fuel) st l INP P Q insize =
  let* h := list_at st l in
  if insize <? wrap_u 64 (count h) then
    let* hi := list_at st INP in
    let* _ := assert (count hi =? 0) in
    let* st := ellConcat st INP l in
    let* st := pair_loop cmp (walk st) st l INP P Q insize in
    pass_loop cmp fuel st l INP P Q (wrap_u 64 (insize * 2))
  else inr st.
Proof. reflexivity. Qed.

Lemma pass_loop_ok fuel : forall st w l INP P Q n xs,
  inv st w -> NoDup [l; INP; P; Q] -> contents w !! l = Some xs -> contents w !! INP = Some [] ->
  contents w !! P = Some [] -> contents w !! Q = Some [] -> (0 < n)%nat -> zlen xs <= Z.of_nat n * 2 ^ Z.of_nat fuel ->
  exists st', pass_loop cmp (S fuel) st l INP P Q (Z.of_nat n) = inr st' /\ inv st' (put w l (passes cmp fuel n xs)).
Proof.
  induction fuel as [|fuel IH]; intros st w l INP P Q n xs I D El Ei Ep Eq N F.
  - rewrite pass_loop_S, (list_at_inv _ _ _ _ I El). cbn [ebind header count].
    pose proof (inv_length _ _ _ _ I El). rewrite wrap_u_id by (unfold fits_u; lia). rewrite (proj2 (Z.ltb_ge _ _)) by lia.
    exists st. split; [done|]. by rewrite put_same.
  - cbn [passes]. rewrite pass_loop_S, (list_at_inv _ _ _ _ I El). cbn [ebind header count].
    pose proof (inv_length _ _ _ _ I El). rewrite wrap_u_id by (unfold fits_u; lia).
    destruct (Z.ltb_spec (Z.of_nat n) (zlen xs)) as [L|L].
    2: { rewrite decide_False by lia. exists st. split; [done|]. by rewrite put_same. }
    rewrite decide_True by lia. rewrite (list_at_inv _ _ _ _ I Ei). cbn [ebind header count].
    change (assert (zlen [] =? 0)) with (inr tt : el unit). cbn [ebind].
    pose proof (distinct4 _ _ _ _ D) as [(H1 & H2 & H3) (H4 & H5 & H6)].
    destruct (concat_ok st w INP l [] xs I ltac:(done) Ei El) as (st1 & -> & I1). cbn [ebind app] in *.
    destruct (pair_loop_ok (length xs) (walk st1) st1 _ l INP P Q n [] xs I1 D) as (st2 & -> & I2);
      [in_world..|done|apply (walk_list _ _ INP _ I1); in_world|done|lia|]. cbn [ebind app] in *.
    rewrite wrap_u_id by (unfold fits_u; lia). replace (Z.of_nat n * 2) with (Z.of_nat (n * 2)) by lia.
    assert (Ew : put (put (put (put w INP xs) l []) l (pass cmp (length xs) n xs)) INP [] = put w l (pass cmp (length xs) n xs)) by same_world.
    rewrite Ew in I2.
    rewrite Nat2Z.inj_succ, Z.pow_succ_r in F by lia.
    destruct (IH st2 _ l INP P Q (n * 2)%nat (pass cmp (length xs) n xs) I2 D) as (st3 & -> & I3); [in_world..|lia| |].
    { pose proof (pass_perm cmp (length xs) n N xs ltac:(lia)) as Pm. rewrite (Permutation_length Pm). lia. }
    exists st3. split; [done|]. by rewrite put_put in I3.
Qed.
End heap.

(** (C38) [ellSortStable] sorts a list in place: with a comparison function that is a strict weak order it ends, uses no NULL and no stray node, fails
    none of its assertions, leaves all other lists alone, and the list then holds the same nodes in an order in which
    no node is greater than a later one, those that compare equal in their former order. *)
Theorem ell_sort_stable cmp st w l INP P Q xs :
  strict_weak cmp -> inv st w -> contents w !! l = Some xs ->
  NoDup [l; INP; P; Q] -> contents w !! INP = None -> contents w !! P = None -> contents w !! Q = None ->
  exists st' ys, ellSortStable cmp st l INP P Q = inr st' /\ inv st' (put w l ys) /\
    ys ≡ₚ xs /\ StronglySorted (before cmp) ys /\ stable cmp xs ys.
Proof.
  intros W I El D Ni Np Nq. unfold ellSortStable. rewrite (list_at_inv _ _ _ _ I El). cbn [ebind header count].
  destruct (Z.leb_spec (zlen xs) 1) as [L|L].
  { exists st, xs. split_and!; [done|by rewrite put_same|done| |done]. destruct xs as [|x [|]]; [..|simpl in L; lia]; repeat constructor. }
  pose proof (distinct4 _ _ _ _ D) as [(H1 & H2 & H3) (H4 & H5 & H6)].
  set (w3 := put (put (put w INP []) P []) Q []).
  assert (I3 : inv (ellInit (ellInit (ellInit st INP) P) Q) w3) by (by repeat apply ell_init_inv).
  destruct (pass_loop_ok cmp 63 _ w3 l INP P Q 1 xs I3 D) as (st1 & R & I1); unfold w3; [in_world..|lia| |].
  { pose proof (inv_length _ _ _ _ I El). change (Z.of_nat 1 * 2 ^ Z.of_nat 63) with (2 ^ 63). lia. }
  change (Z.of_nat 1) with 1 in R. rewrite R.
  destruct (passes_spec cmp W 63 1 xs) as (Pm & S & St); [lia| |apply chunks_1|].
  { pose proof (inv_length _ _ _ _ I El). change (Z.of_nat 1 * 2 ^ Z.of_nat 63) with (2 ^ 63). lia. }
  cbn [ebind]. eexists _, _. split; [done|]. split; [|done]. set (ys := passes _ _ _ _) in *.
  assert (F1 := forget_inv _ _ Q I1 ltac:(unfold w3; in_world)).
  assert (F2 := forget_inv _ _ P F1 ltac:(cbn [forget contents]; rewrite lookup_delete_ne by done; unfold w3; in_world)).
  assert (F3 := forget_inv _ _ INP F2 ltac:(cbn [forget contents]; rewrite !lookup_delete_ne by done; unfold w3; in_world)).
  assert (Ew : forget (forget (forget (put w3 l ys) Q) P) INP = put w l ys); [|by rewrite Ew in F3].
  unfold forget, w3, put. cbn [contents alloc]. f_equal. apply map_eq. intros z.
  rewrite !lookup_delete, !lookup_insert. repeat case_decide; congruence.
Qed.

(** The nodes 13, 21, 3, 12, 11, 23 by their last digit. *)
Definition digit_cmp (x y : nat) : Z := Z.of_nat (x mod 10) - Z.of_nat (y mod 10).
Definition unsorted : list nat := [13; 21; 3; 12; 11; 23]%nat.
Definition sort_ops : list ell_op :=
  map (fun x => E_malloc x (mkNode None None)) unsorted ++ E_init 1 :: map (E_add 1) unsorted.

Lemma digit_weak : strict_weak digit_cmp.
Proof. constructor; unfold digit_cmp; intros; lia. Qed.

Definition sort_world : world := from_option snd empty_world (spec_run sort_ops empty_world).

Lemma ell_sort_stable_witness :
  exists st st' ys, exec_run sort_ops empty_store = inr (replicate 13 R_void, st) /\
    ellSortStable digit_cmp st 1 2 3 4 = inr st' /\ well_linked st' 1 ys /\ ys ≡ₚ unsorted /\
    StronglySorted (before digit_cmp) ys /\ stable digit_cmp unsorted ys.
Proof.
  destruct (run_refines sort_ops _ _ (replicate 13 R_void) sort_world empty_inv ltac:(vm_compute; reflexivity)) as (st & E & I).
  destruct (ell_sort_stable digit_cmp st sort_world 1 2 3 4 unsorted digit_weak I) as (st' & ys & R & I' & P);
    [vm_compute; reflexivity| |vm_compute; reflexivity..|].
  - apply (bool_decide_unpack _). vm_compute. exact Logic.I.
  - exists st, st', ys. split_and!; [exact E|exact R| |apply P..].
    eapply inv_well_linked; [exact I'|]. cbn. apply lookup_insert_eq.
Defined.
