(* ===== verification/GpHash.v ===== *)
(** * The general purpose hash table ([modules/libcom/src/gpHash/gpHashLib.c])

    A table of linked lists that maps a name and an identifier to an entry; [dbStaticLib], [iocsh] and
    the access security keep their names in one.  It is a client of the interface {!ListLib}: nothing is
    known of the lists but its laws. *)

From stdpp Require Import base numbers list option gmap fin_maps fin_map_dom.
From Stdlib Require Import ZArith Lia Bool.
From S2P Require Import Prelude CStdlib EpicsString EllLib EllRefine ListLib.

(** ** Data *)

(** What [gphAdd] fills in; [userPvt] belongs to the callers. *)
Record GPHENTRY := mkEntry { name : list Z; pvtid : Z }.

Definition MIN_SIZE : Z := 256.
Definition DEFAULT_SIZE : Z := 512.
Definition MAX_SIZE : Z := 65536.

Section gphash.
Context {E Store : Type} `{ListLib E Store}.

(** [calloc t X] is the address the allocator returns at its [t]-th call when those of [X] are in use, if it
    has memory. *)
Context (calloc : nat -> gset nat -> option nat).

(** [entries] are the nodes as [GPHENTRY], [links] the same nodes as [ELLNODE] and the lists. *)
Record gphPvt := mkGph { size : Z; mask : Z; paplist : list (option nat); entries : gmap nat GPHENTRY; links : Store }.

Inductive gph_fault :=
| gph_list (e : E)       (** in the list library *)
| gph_index              (** outside of [paplist] *)
| gph_memory             (** outside of a string *)
| gph_wild (x : nat)     (** not an entry *)
| gph_fuel.

Notation gph A := (gph_fault + A)%type.

Definition lift {A} (m : E + A) : gph A := match m with inl e => inl (gph_list e) | inr a => inr a end.

(** ** Operations *)

Definition gphInitPvt (sz : Z) : gphPvt :=
  let sz := if negb (Z.land sz (sz - 1) =? 0) then DEFAULT_SIZE else sz in
  let sz := if sz <? MIN_SIZE then MIN_SIZE else sz in
  let sz := if MAX_SIZE <? sz then MAX_SIZE else sz in
  mkGph sz (sz - 1) (replicate (Z.to_nat sz) None) ∅ empty_store.

(** [hash = epicsMemHash((char * )&pvtid, sizeof(void * ), 0)], as an [int]. *)
Definition id_hash (id : Z) : gph Z :=
  match epicsMemHash (le_bytes 8 id) 8 0 with Some h => inr (wrap_s 32 h) | None => inl gph_memory end.

Definition hash_name (st : gphPvt) (nm : list Z) (id : Z) : gph nat :=
  let* hash := id_hash id in
  inr (Z.to_nat (Z.land (epicsStrHash nm (wrap_u 32 hash)) (mask st))).

Definition hash_parse (st : gphPvt) (nm : list Z) (len : nat) (id : Z) : gph nat :=
  let* hash := id_hash id in
  match epicsMemHash nm len (wrap_u 32 hash) with
  | Some h => inr (Z.to_nat (Z.land h (mask st)))
  | None => inl gph_memory
  end.

Definition slot_at (st : gphPvt) (hash : nat) : gph (option nat) :=
  match paplist st !! hash with Some p => inr p | None => inl gph_index end.

Definition entry_at (st : gphPvt) (x : nat) : gph GPHENTRY :=
  match entries st !! x with Some e => inr e | None => inl (gph_wild x) end.

(** The first node of a bucket, NULL without a list. *)
Definition first_node (st : gphPvt) (plist : option nat) : gph (option nat) :=
  match plist with Some l => lift (ellFirst (links st) l) | None => inr None end.

(** The search for the first entry that passes [test]. *)
Fixpoint find_loop (fuel : nat) (st : gphPvt) (test : GPHENTRY -> bool) (pgphNode : option nat) : gph (option nat) :=
  match fuel with
  | O => inl gph_fuel
  | S fuel =>
      match pgphNode with
      | None => inr None
      | Some x =>
          let* e := entry_at st x in
          if test e then inr (Some x)
          else let* n := lift (ellNext (links st) x) in find_loop fuel st test n
      end
  end.

Definition walk (st : gphPvt) : nat := S (base.size (entries st)).

(** [strcmp(a, b) == 0] and [strncmp(a, b, n) == 0] *)
Definition strcmp_eq (a b : list Z) : bool := bool_decide (until_nul a = until_nul b).
Definition strncmp_eq (n : nat) (a b : list Z) : bool := bool_decide (until_nul (take n a) = until_nul (take n b)).

Definition same_name (nm : list Z) (id : Z) (e : GPHENTRY) : bool := (id =? pvtid e) && strcmp_eq nm (name e).
Definition same_parse (nm : list Z) (len : nat) (id : Z) (e : GPHENTRY) : bool :=
  (id =? pvtid e) && (zlen (until_nul (name e)) =? Z.of_nat len) && strncmp_eq len nm (name e).

Definition gphFindParse (st : gphPvt) (nm : list Z) (len : nat) (id : Z) : gph (option nat) :=
  let* hash := hash_parse st nm len id in
  let* gphlist := slot_at st hash in
  let* p := first_node st gphlist in
  find_loop (walk st) st (same_parse nm len id) p.

Definition gphFind (st : gphPvt) (nm : list Z) (id : Z) : gph (option nat) :=
  gphFindParse st nm (length (until_nul nm)) id.

(** The list of a bucket, made when it has none; [None] when there is no memory. *)
Definition add_list (st : gphPvt) (t : nat) (hash : nat) : gph (gphPvt * option nat) :=
  let* plist := slot_at st hash in
  match plist with
  | Some l => inr (st, Some l)
  | None =>
      match calloc t (list_to_set (omap id (paplist st))) with
      | Some l => inr (mkGph (size st) (mask st) (<[hash := Some l]> (paplist st)) (entries st) (ellInit (links st) l), Some l)
      | None => inr (st, None)
      end
  end.

Definition add_entry (st : gphPvt) (t : nat) (plist : nat) (nm : list Z) (id : Z) : gph (option nat * gphPvt) :=
  match calloc t (dom (entries st)) with
  | Some x =>
      let* s := lift (ellAdd (node_calloc (links st) x) plist x) in
      inr (Some x, mkGph (size st) (mask st) (paplist st) (<[x := mkEntry nm id]> (entries st)) s)
  | None => inr (None, st)
  end.

Definition gphAdd (st : gphPvt) (t : nat) (nm : list Z) (id : Z) : gph (option nat * gphPvt) :=
  let* hash := hash_name st nm id in
  let* '(st, plist) := add_list st t hash in
  match plist with
  | None => inr (None, st)
  | Some l =>
      let* p := lift (ellFirst (links st) l) in
      let* found := find_loop (walk st) st (same_name nm id) p in
      match found with
      | Some _ => inr (None, st)
      | None => add_entry st t l nm id
      end
  end.

Definition drop_entry (st : gphPvt) (plist x : nat) : gph gphPvt :=
  let* s := lift (ellDelete (links st) plist x) in
  let* s := lift (node_free s x) in
  inr (mkGph (size st) (mask st) (paplist st) (delete x (entries st)) s).

(** The loop ends at the entry that is deleted. *)
Definition gphDelete (st : gphPvt) (nm : list Z) (id : Z) : gph gphPvt :=
  let* hash := hash_name st nm id in
  let* plist := slot_at st hash in
  let* p := first_node st plist in
  let* found := find_loop (walk st) st (same_name nm id) p in
  match found, plist with
  | Some x, Some l => drop_entry st l x
  | _, _ => inr st
  end.

Fixpoint free_nodes (fuel : nat) (st : gphPvt) (plist : nat) (pgphNode : option nat) : gph gphPvt :=
  match fuel with
  | O => inl gph_fuel
  | S fuel =>
      match pgphNode with
      | None => inr st
      | Some x =>
          let* next := lift (ellNext (links st) x) in
          let* st := drop_entry st plist x in
          free_nodes fuel st plist next
      end
  end.

Definition free_list (st : gphPvt) (plist : nat) : gph gphPvt :=
  let* p := lift (ellFirst (links st) plist) in
  let* st := free_nodes (walk st) st plist p in
  inr (mkGph (size st) (mask st) (paplist st) (entries st) (list_free (links st) plist)).

(** [h] is the number of buckets done, [n] of those left. *)
Fixpoint free_loop (n h : nat) (st : gphPvt) : gph gphPvt :=
  match n with
  | O => inr st
  | S n =>
      let* plist := slot_at st h in
      let* st := match plist with Some l => free_list st l | None => inr st end in
      free_loop n (S h) st
  end.

(** What is left of the lists and the nodes; the table itself is freed. *)
Definition gphFreeMem (st : gphPvt) : gph Store :=
  let* st := free_loop (Z.to_nat (size st)) 0 st in inr (links st).

(** ** The map a table represents *)

Definition key_of (e : GPHENTRY) : list Z * Z := (name e, pvtid e).

Definition id_seed (id : Z) : Z := default 0 (epicsMemHash (le_bytes 8 id) 8 0).
Definition bucket (mk : Z) (k : list Z * Z) : nat :=
  Z.to_nat (Z.land (epicsStrHash (fst k) (wrap_u 32 (wrap_s 32 (id_seed (snd k))))) mk).

Definition c_string (s : list Z) : Prop := Forall (fun c => c <> 0) s.

(** The nodes of the bucket [h] are the entries whose key hashes to it. *)
Record rep (st : gphPvt) (m : gmap (list Z * Z) nat) (w : world) : Prop := mkRep {
  rep_holds : holds (links st) w;
  rep_length : length (paplist st) = Z.to_nat (size st);
  rep_mask : 0 <= mask st /\ mask st = size st - 1;
  rep_chain : forall h p, paplist st !! h = Some p ->
    exists xs, (match p with Some l => contents w !! l = Some xs | None => xs = [] end) /\
      forall x, x ∈ xs <-> exists k, m !! k = Some x /\ bucket (mask st) k = h;
  rep_inj : forall h h' l, paplist st !! h = Some (Some l) -> paplist st !! h' = Some (Some l) -> h = h';
  rep_dom : forall l, is_Some (contents w !! l) -> exists h, paplist st !! h = Some (Some l);
  rep_entries : forall k x, m !! k = Some x <-> exists e, entries st !! x = Some e /\ key_of e = k;
  rep_alloc : alloc w = dom (entries st);
  rep_names : forall k x, m !! k = Some x -> c_string (fst k) }.

Lemma rep_node st m w k x : rep st m w -> m !! k = Some x -> is_Some (entries st !! x).
Proof. intros R (e & Ex & _)%(rep_entries _ _ _ R). by exists e. Qed.

Lemma rep_key st m w x e : rep st m w -> entries st !! x = Some e -> m !! key_of e = Some x.
Proof. intros R Ex. apply (rep_entries _ _ _ R). by exists e. Qed.

Lemma until_nul_id s : c_string s -> until_nul s = s.
Proof. induction 1 as [|c s C _ IH]; simpl; [done|]. by rewrite (proj2 (Z.eqb_neq _ _) C), IH. Qed.

Lemma until_nul_string s : c_string (until_nul s).
Proof. induction s as [|c s IH]; simpl; [constructor|]. destruct (Z.eqb_spec c 0); by constructor. Qed.

Lemma until_nul_full s : length (until_nul s) = length s -> until_nul s = s.
Proof. induction s as [|c s IH]; simpl; [done|]. destruct (c =? 0); simpl; [done|]. intros [= L]. by rewrite IH. Qed.

Lemma mem_hash_take nm len : (len <= length nm)%nat -> forall h, epicsMemHash nm len h = epicsMemHash (take len nm) len h.
Proof.
  revert nm. induction len as [len IH] using lt_wf_ind. intros nm L h.
  destruct len as [|[|len]], nm as [|c [|c' nm]]; simpl in L; try lia; try done.
  cbn [epicsMemHash take]. apply IH; lia.
Qed.

Lemma mem_hash_some nm len : (len <= length nm)%nat -> forall h, is_Some (epicsMemHash nm len h).
Proof.
  revert nm. induction len as [len IH] using lt_wf_ind. intros nm L h.
  destruct len as [|[|len]], nm as [|c [|c' nm]]; simpl in L; try lia; try (by eexists).
  cbn [epicsMemHash]. apply IH; lia.
Qed.

Lemma id_hash_ok id : id_hash id = inr (wrap_s 32 (id_seed id)).
Proof.
  unfold id_hash, id_seed. destruct (mem_hash_some (le_bytes 8 id) 8 ltac:(by rewrite length_le_bytes) 0) as [h Eh].
  by rewrite Eh.
Qed.

Lemma hash_name_ok st nm id : hash_name st nm id = inr (bucket (mask st) (nm, id)).
Proof. unfold hash_name. rewrite id_hash_ok. reflexivity. Qed.

Lemma land_mask h mk : 0 <= mk -> 0 <= Z.land h mk <= mk.
Proof.
  intros M. pose proof (proj2 (Z.land_nonneg h mk) (or_intror M)) as N. split; [done|].
  apply Z.ldiff_le; [done|]. rewrite Z.land_comm. apply Z.bits_inj'. intros n Hn.
  rewrite Z.ldiff_spec, Z.land_spec, Z.bits_0. by destruct (Z.testbit mk n), (Z.testbit h n).
Qed.

Lemma slot_mask st m w h : rep st m w -> is_Some (paplist st !! Z.to_nat (Z.land h (mask st))).
Proof.
  intros R. apply lookup_lt_is_Some. rewrite (rep_length _ _ _ R). destruct (rep_mask _ _ _ R) as [M Es].
  pose proof (land_mask h _ M). lia.
Qed.

Lemma hash_parse_ok st m w nm len id :
  rep st m w -> (len <= length nm)%nat -> exists h, hash_parse st nm len id = inr h /\
    is_Some (paplist st !! h) /\ (c_string (take len nm) -> h = bucket (mask st) (take len nm, id)).
Proof.
  intros R L. unfold hash_parse. rewrite id_hash_ok. cbn [ebind].
  destruct (mem_hash_some nm len L (wrap_u 32 (wrap_s 32 (id_seed id)))) as [h Eh]. rewrite Eh.
  eexists. split; [done|]. split; [by eapply slot_mask|]. intros C. unfold bucket. simpl.
  rewrite mem_hash_take in Eh by done. pose proof (mem_hash_str (take len nm) (wrap_u 32 (wrap_s 32 (id_seed id))) C) as E'.
  rewrite length_take_le in E' by done. congruence.
Qed.

(** ** Searching *)

Lemma chain_nodes st m w h l :
  rep st m w -> paplist st !! h = Some (Some l) ->
  exists xs, contents w !! l = Some xs /\ (length xs < walk st)%nat /\
    forall x, x ∈ xs <-> exists k, m !! k = Some x /\ bucket (mask st) k = h.
Proof.
  intros R P. destruct (rep_chain _ _ _ R h _ P) as (xs & C & X). exists xs. split_and!; [done| |done].
  unfold walk. apply Nat.lt_succ_r. rewrite <- size_dom.
  rewrite <- (size_list_to_set (C := gset nat) xs) by (eapply holds_nodup; [apply (rep_holds _ _ _ R)|done]).
  apply subseteq_size. intros x Hx. apply elem_of_list_to_set in Hx. apply X in Hx as (k & K & _).
  apply elem_of_dom. by eapply rep_node.
Qed.

Lemma gph_find_loop_ok st w l test b : forall a fuel,
  holds (links st) w -> contents w !! l = Some (a ++ b) -> (forall x, x ∈ b -> is_Some (entries st !! x)) ->
  (length b < fuel)%nat ->
  exists r, find_loop fuel st test (head b) = inr r /\
    match r with
    | Some x => x ∈ b /\ exists e, entries st !! x = Some e /\ test e = true
    | None => forall x e, x ∈ b -> entries st !! x = Some e -> test e = false
    end.
Proof.
  induction b as [|x b IH]; intros a [|fuel] I C N F; simpl in F; try lia; cbn [find_loop head].
  { exists None. split; [done|]. intros x e X. by apply elem_of_nil in X. }
  destruct (N x) as [e Ex]; [by left|]. unfold entry_at. rewrite Ex. cbn [ebind].
  destruct (test e) eqn:T; [exists (Some x); split; [done|split; [by left|by exists e]]|].
  rewrite (next_law _ w l a x b) by done. cbn [lift ebind].
  destruct (IH (a ++ [x]) fuel) as (r & -> & Hr); [done|by rewrite <- app_assoc|by intros; apply N; right|lia|].
  exists r. split; [done|]. destruct r as [y|].
  - destruct Hr as [Y Hy]. split; [by right|done].
  - intros y e' [->|Y]%elem_of_cons Ey; [congruence|by apply (Hr y)].
Qed.

(** The search in the bucket of a key finds its entry. *)
Lemma search_ok st m w h p test k :
  rep st m w -> paplist st !! h = Some p ->
  (forall x, m !! k = Some x -> bucket (mask st) k = h) ->
  (forall x e, entries st !! x = Some e -> test e = true <-> key_of e = k) ->
  (let* q := first_node st p in find_loop (walk st) st test q) = inr (m !! k).
Proof.
  intros R P B T. destruct p as [l|]; cbn [first_node].
  - destruct (chain_nodes _ _ _ _ _ R P) as (xs & C & F & X).
    rewrite (first_law _ w l xs) by (done || apply (rep_holds _ _ _ R)). cbn [lift ebind].
    destruct (gph_find_loop_ok st w l test xs [] (walk st)) as (r & -> & Hr); [apply (rep_holds _ _ _ R)|done| |done|].
    { intros x [k' [K _]]%X. by eapply rep_node. }
    f_equal. destruct r as [x|].
    + destruct Hr as (_ & e & Ex & Te). apply (T x) in Te as <-; [|done]. symmetry. by eapply rep_key.
    + destruct (m !! k) as [x|] eqn:K; [|done]. pose proof (proj1 (rep_entries _ _ _ R k x) K) as (e & Ex & Ke).
      assert (Te : test e = false) by (apply (Hr x); [apply X; eauto|done]).
      apply (T x e Ex) in Ke. congruence.
  - cbn [ebind]. unfold walk. cbn [find_loop]. f_equal. destruct (m !! k) as [x|] eqn:K; [|done].
    destruct (rep_chain _ _ _ R h _ P) as (xs & -> & X). exfalso. apply (not_elem_of_nil x), X. eauto.
Qed.

Lemma same_name_key nm id e : c_string nm -> c_string (name e) -> same_name nm id e = true <-> key_of e = (nm, id).
Proof.
  intros Cn Ce. unfold same_name, strcmp_eq, key_of. rewrite !until_nul_id by done.
  rewrite andb_true_iff, Z.eqb_eq, bool_decide_eq_true. split; [by intros [-> ->]|by intros [= -> ->]].
Qed.

Lemma same_parse_key nm len id e :
  (len <= length nm)%nat -> c_string (name e) -> same_parse nm len id e = true <-> key_of e = (take len nm, id).
Proof.
  intros L Ce. unfold same_parse, strncmp_eq, key_of.
  rewrite !andb_true_iff, !Z.eqb_eq, bool_decide_eq_true, (until_nul_id (name e)) by done. split.
  - intros [[-> Ln] Eq]. apply Nat2Z.inj in Ln. rewrite (take_ge (name e)), (until_nul_id (name e)) in Eq by (done || lia).
    rewrite <- (until_nul_full (take len nm)); [by rewrite Eq|]. rewrite Eq, length_take. lia.
  - intros [= En ->]. rewrite En. rewrite take_take, Nat.min_id. rewrite length_take_le by done. done.
Qed.

Lemma rep_string st m w x e : rep st m w -> entries st !! x = Some e -> c_string (name e).
Proof. intros R Ex. apply (rep_names _ _ _ R (key_of e) x). by eapply rep_key. Qed.

Lemma parse_ok st m w nm len id :
  rep st m w -> (len <= length nm)%nat -> gphFindParse st nm len id = inr (m !! (take len nm, id)).
Proof.
  intros R L. unfold gphFindParse. destruct (hash_parse_ok st m w nm len id R L) as (h & -> & [p P] & B). cbn [ebind].
  unfold slot_at. rewrite P. cbn [ebind]. apply (search_ok st m w h p); [done|done| |].
  - intros x K. symmetry. apply B. by apply (rep_names _ _ _ R) in K.
  - intros x e Ex. apply same_parse_key; [done|]. by eapply rep_string.
Qed.

Lemma gph_find_ok st m w nm id : rep st m w -> c_string nm -> gphFind st nm id = inr (m !! (nm, id)).
Proof.
  intros R C. unfold gphFind. rewrite until_nul_id by done. rewrite (parse_ok st m w) by done. by rewrite take_ge.
Qed.

(** ** Adding *)

Lemma find_name_ok st m w nm id p :
  rep st m w -> c_string nm -> paplist st !! bucket (mask st) (nm, id) = Some p ->
  (let* q := first_node st p in find_loop (walk st) st (same_name nm id) q) = inr (m !! (nm, id)).
Proof.
  intros R C P. eapply search_ok; [done|exact P|done|]. intros x e Ex. apply same_name_key; [done|]. by eapply rep_string.
Qed.

Context (calloc_fresh : forall t X x, calloc t X = Some x -> x ∉ X).

Lemma add_list_ok st m w t h :
  rep st m w -> is_Some (paplist st !! h) ->
  exists st' p w', add_list st t h = inr (st', p) /\ rep st' m w' /\ mask st' = mask st /\ entries st' = entries st /\
    match p with
    | Some l => paplist st' !! h = Some (Some l)
    | None => exists X, calloc t X = None
    end.
Proof.
  intros R [q Q]. unfold add_list, slot_at. rewrite Q. cbn [ebind].
  destruct q as [l|]; [by exists st, (Some l), w|]. destruct (calloc t _) as [l|] eqn:A; [|exists st, None, w; split_and!; eauto].
  apply calloc_fresh in A. assert (N : forall h, paplist st !! h <> Some (Some l)).
  { intros h' Ph. apply A, elem_of_list_to_set, list_elem_of_omap. exists (Some l). split; [by eapply list_elem_of_lookup_2|done]. }
  assert (Nl : contents w !! l = None).
  { destruct (contents w !! l) as [xs|] eqn:El; [|done]. destruct (rep_dom _ _ _ R l) as [h' Ph]; [by eexists|]. by destruct (N h'). }
  eexists _, (Some l), (put w l []). split; [reflexivity|]. split; [|split; [done|split; [done|]]].
  2: { cbn [paplist]. apply list_lookup_insert_eq. by eapply lookup_lt_Some. }
  constructor; cbn [links paplist size mask entries contents alloc put]; try apply R.
  - apply holds_init, R.
  - rewrite length_insert. apply R.
  - intros h' p [(-> & <- & _)|[Ne Ph]]%list_lookup_insert_Some.
    + exists []. rewrite lookup_insert_eq. split; [done|]. destruct (rep_chain _ _ _ R _ _ Q) as (xs & -> & X). done.
    + destruct (rep_chain _ _ _ R h' _ Ph) as (xs & C & X). exists xs. split; [|done]. destruct p as [l'|]; [|done].
      rewrite lookup_insert_ne; [done|]. intros <-. by destruct (N h').
  - intros h1 h2 l' [(-> & E1 & _)|[N1 P1]]%list_lookup_insert_Some [(-> & E2 & _)|[N2 P2]]%list_lookup_insert_Some;
      simplify_eq; try done; try (exfalso; by eapply N). by eapply (rep_inj _ _ _ R).
  - intros l' [xs [[<- <-]|[Ne El]]%lookup_insert_Some].
    + exists h. apply list_lookup_insert_eq. by eapply lookup_lt_Some.
    + destruct (rep_dom _ _ _ R l') as [h' Ph]; [by eexists|]. exists h'. rewrite list_lookup_insert_ne; [done|]. intros <-. congruence.
Qed.

(** Less entries than an [int] can count. *)
Definition space (st : gphPvt) : Prop := Z.of_nat (base.size (entries st)) < 2 ^ 31 - 2.

Lemma space_room st m w : rep st m w -> space st -> room w.
Proof. intros R. unfold space, room. by rewrite (rep_alloc _ _ _ R), size_dom. Qed.

Lemma add_entry_ok st m w t l nm id :
  rep st m w -> c_string nm -> paplist st !! bucket (mask st) (nm, id) = Some (Some l) -> m !! (nm, id) = None -> space st ->
  exists r st' m' w', add_entry st t l nm id = inr (r, st') /\ rep st' m' w' /\ (base.size (entries st') <= S (base.size (entries st)))%nat /\
    match r with
    | Some x => m' = <[(nm, id) := x]> m /\ entries st !! x = None
    | None => m' = m /\ exists X, calloc t X = None
    end.
Proof.
  intros R C P K Rm%(space_room _ _ _ R). unfold add_entry. destruct (calloc t _) as [x|] eqn:A; [|exists None, st, m, w; split_and!; eauto with lia].
  apply calloc_fresh in A. pose proof (proj1 (not_elem_of_dom _ _) A) as Nx.
  destruct (rep_chain _ _ _ R _ _ P) as (xs & El & X). cbn beta in El.
  assert (Aw : x ∉ alloc w) by (by rewrite (rep_alloc _ _ _ R)).
  assert (Fx : is_free (grow w x) x).
  { split; cbn [alloc grow contents]; [set_solver|]. intros l' ys El' Y. apply Aw. by eapply holds_alloc; [apply (rep_holds _ _ _ R)| |]. }
  destruct (add_law _ (grow w x) l xs x (holds_calloc _ _ _ (rep_holds _ _ _ R) Aw Rm) El Fx) as (s' & -> & Hs).
  cbn [lift ebind]. eexists (Some x), _, _, _. split; [reflexivity|]. split; [|split; [|by split]].
  2: { cbn [entries]. rewrite map_size_insert_None by done. lia. }
  assert (Mx : forall k, m !! k <> Some x) by (intros k (e & Ex & _)%(rep_entries _ _ _ R); congruence).
  constructor; cbn [links paplist size mask entries]; [exact Hs|apply R|apply R| | | | | |].
  - intros h p Ph. destruct (rep_chain _ _ _ R h p Ph) as (ys & Ys & Y).
    destruct (decide (h = bucket (mask st) (nm, id))) as [->|Ne].
    + assert (p = Some l) as -> by congruence. assert (ys = xs) as -> by congruence. exists (xs ++ [x]).
      cbn [contents put]. split; [by rewrite lookup_insert_eq|]. intros y. rewrite elem_of_app, list_elem_of_singleton, Y. split.
      * intros [(k & Ky & B)| ->]; [exists k; split; [|done]; rewrite lookup_insert_ne by congruence; done|].
        exists (nm, id). by rewrite lookup_insert_eq.
      * intros (k & [[<- <-]|[Ne Ky]]%lookup_insert_Some & B); [by right|left; by exists k].
    + exists ys. split.
      * destruct p as [l'|]; [|done]. cbn [contents put grow]. rewrite lookup_insert_ne; [done|]. intros <-.
        apply Ne. by eapply (rep_inj _ _ _ R).
      * intros y. rewrite Y. split; intros (k & Ky & B); exists k.
        -- rewrite lookup_insert_ne by congruence. done.
        -- rewrite lookup_insert_ne in Ky by congruence. done.
  - apply R.
  - cbn [contents put grow]. intros l' [ys [[<- <-]|[Ne El']]%lookup_insert_Some]; [by eexists|]. apply (rep_dom _ _ _ R). by eexists.
  - intros k y. rewrite !lookup_insert_Some. split.
    + intros [[<- <-]|[Ne (e & Ey & Ke)%(rep_entries _ _ _ R)]].
      * exists (mkEntry nm id). rewrite lookup_insert_eq. done.
      * exists e. rewrite lookup_insert_ne by congruence. done.
    + intros (e & [[<- <-]|[Ne Ey]]%lookup_insert_Some & <-); [by left|]. right.
      split; [|by eapply rep_key]. intros E'. rewrite E' in K. pose proof (rep_key _ _ _ _ _ R Ey). congruence.
  - cbn [alloc put grow]. by rewrite dom_insert_L, (rep_alloc _ _ _ R).
  - intros k y [[<- <-]|[Ne Ky]]%lookup_insert_Some; [done|]. by eapply (rep_names _ _ _ R).
Qed.

Lemma gph_add_ok st m w t nm id :
  rep st m w -> c_string nm -> space st ->
  exists r st' m' w', gphAdd st t nm id = inr (r, st') /\ rep st' m' w' /\ (base.size (entries st') <= S (base.size (entries st)))%nat /\
    match r with
    | Some x => m !! (nm, id) = None /\ m' = <[(nm, id) := x]> m /\ (forall k, m !! k <> Some x)
    | None => m' = m /\ (is_Some (m !! (nm, id)) \/ exists X, calloc t X = None)
    end.
Proof.
  intros R C Rm. unfold gphAdd. rewrite hash_name_ok. cbn [ebind].
  destruct (add_list_ok st m w t (bucket (mask st) (nm, id)) R) as (st1 & p & w1 & -> & R1 & Em & En & P);
    [eapply slot_mask; exact R|]. cbn [ebind].
  destruct p as [l|]; [|exists None, st1, m, w1; rewrite En; split_and!; eauto with lia].
  rewrite <- Em in P. pose proof (find_name_ok st1 m w1 nm id (Some l) R1 C P) as F. cbn [first_node] in F.
  destruct (lift (ellFirst (links st1) l)) as [e|q]; cbn [ebind] in *; [done|]. rewrite F. cbn [ebind].
  destruct (m !! (nm, id)) as [y|] eqn:K; [exists None, st1, m, w1; rewrite En; split_and!; eauto with lia|].
  destruct (add_entry_ok st1 m w1 t l nm id R1 C P K) as (r & st' & m' & w' & -> & R' & Sz & Hr).
  { unfold space. by rewrite En. }
  exists r, st', m', w'. rewrite <- En. split_and!; [done..|]. destruct r as [x|]; [|naive_solver].
  destruct Hr as [-> Nx]. split_and!; [done..|]. intros k (e & Ex & _)%(rep_entries _ _ _ R1). congruence.
Qed.

(** ** Deleting *)

(** Taking a node out of its list and freeing it. *)
Lemma drop_entry_ok st w l a x b :
  holds (links st) w -> contents w !! l = Some (a ++ x :: b) ->
  exists s', drop_entry st l x = inr (mkGph (size st) (mask st) (paplist st) (delete x (entries st)) s') /\
    holds s' (shrink (put w l (a ++ b)) x).
Proof.
  intros I El. unfold drop_entry. destruct (delete_law _ _ _ _ _ _ I El) as (s1 & -> & I1). cbn [lift ebind].
  assert (N : x ∉ a ++ b).
  { pose proof (holds_nodup _ _ _ _ I El) as D. apply NoDup_app in D as (_ & D & [Db _]%NoDup_cons).
    intros [Xa|Xb]%elem_of_app; [by apply (D x Xa); left|done]. }
  destruct (holds_free s1 (put w l (a ++ b)) x I1) as (s2 & -> & I2); [|by exists s2].
  split; cbn [alloc contents put]; [eapply holds_alloc; [exact I|exact El|apply elem_of_app; right; by left]|].
  intros l' ys [[<- <-]|[Ne El']]%lookup_insert_Some Y; [done|]. apply Ne.
  eapply (holds_disjoint _ w); [exact I|exact El|exact El'| |exact Y]. apply elem_of_app. right. by left.
Qed.

Lemma gph_delete_ok st m w nm id :
  rep st m w -> c_string nm ->
  exists st' w', gphDelete st nm id = inr st' /\ rep st' (delete (nm, id) m) w' /\ (base.size (entries st') <= base.size (entries st))%nat.
Proof.
  intros R C. unfold gphDelete. rewrite hash_name_ok. cbn [ebind].
  destruct (slot_mask st m w (epicsStrHash nm (wrap_u 32 (wrap_s 32 (id_seed id)))) R) as [p P].
  change (paplist st !! bucket (mask st) (nm, id) = Some p) in P. unfold slot_at. rewrite P. cbn [ebind].
  pose proof (find_name_ok st m w nm id p R C P) as F.
  destruct (first_node st p) as [e|q]; cbn [ebind] in *; [done|]. rewrite F. cbn [ebind].
  destruct (m !! (nm, id)) as [x|] eqn:K; [|exists st, w; by rewrite delete_id].
  destruct (rep_chain _ _ _ R _ _ P) as (xs & El & X). assert (Xx : x ∈ xs) by (apply X; eauto).
  destruct p as [l|]; [|subst xs; by apply elem_of_nil in Xx].
  destruct (list_elem_of_split _ _ Xx) as (a & b & ->).
  destruct (drop_entry_ok st w l a x b (rep_holds _ _ _ R) El) as (s' & -> & I').
  eexists _, _. split; [reflexivity|]. split; [|cbn [entries]; pose proof (map_size_delete x (entries st)) as D; destruct (entries st !! x); simpl in *; lia].
  pose proof (holds_nodup _ _ _ _ (rep_holds _ _ _ R) El) as D. apply NoDup_app in D as (_ & Da & [Db _]%NoDup_cons).
  assert (One : forall k, m !! k = Some x -> k = (nm, id)).
  { intros k (e & Ex & <-)%(rep_entries _ _ _ R). apply (rep_entries _ _ _ R) in K as (e' & Ex' & <-). congruence. }
  constructor; cbn [links paplist size mask entries]; [exact I'|apply R|apply R| | | | | |].
  - intros h p Ph. destruct (rep_chain _ _ _ R h p Ph) as (ys & Ys & Y).
    assert (Y' : forall y, (exists k, delete (nm, id) m !! k = Some y /\ bucket (mask st) k = h) <-> y ∈ ys /\ y <> x).
    { intros y. rewrite Y. split.
      - intros (k & [Ne Ky]%lookup_delete_Some & B). split; [by exists k|]. intros ->. by apply Ne; symmetry; apply One.
      - intros [(k & Ky & B) Ne]. exists k. rewrite lookup_delete_ne by congruence. done. }
    destruct (decide (h = bucket (mask st) (nm, id))) as [->|Ne].
    + assert (p = Some l) as -> by congruence. assert (ys = a ++ x :: b) as -> by congruence. exists (a ++ b).
      cbn [contents put shrink]. split; [by rewrite lookup_insert_eq|]. intros y. rewrite Y'.
      rewrite !elem_of_app, elem_of_cons. split; [|naive_solver]. intros [Ya|Yb]; (split; [by auto|intros ->]).
      * apply (Da x Ya). by left.
      * done.
    + exists ys. split.
      * destruct p as [l'|]; [|done]. cbn [contents put shrink]. rewrite lookup_insert_ne; [done|]. intros <-.
        apply Ne. by eapply (rep_inj _ _ _ R).
      * intros y. rewrite Y'. split; [|naive_solver]. intros Yy. split; [done|]. intros ->.
        apply Y in Yy as (k & Ky & B). apply Ne. by rewrite <- B, (One k).
  - apply R.
  - cbn [contents put shrink]. intros l' [ys [[<- <-]|[Ne El']]%lookup_insert_Some]; [by eexists|]. apply (rep_dom _ _ _ R). by eexists.
  - intros k y. rewrite lookup_delete_Some, (rep_entries _ _ _ R). split.
    + intros [Ne (e & Ey & <-)]. exists e. rewrite lookup_delete_ne; [done|]. intros <-. apply Ne. symmetry. apply One. by eapply rep_key.
    + intros (e & [Ne Ey]%lookup_delete_Some & <-). split; [|by exists e]. intros Ek. rewrite Ek in K.
      pose proof (rep_key _ _ _ _ _ R Ey). congruence.
  - cbn [alloc put shrink]. by rewrite dom_delete_L, (rep_alloc _ _ _ R).
  - intros k y [Ne Ky]%lookup_delete_Some. by eapply (rep_names _ _ _ R).
Qed.

(** ** Freeing the table *)

Lemma free_nodes_ok xs : forall fuel st w l,
  holds (links st) w -> contents w !! l = Some xs -> (length xs < fuel)%nat ->
  exists st', free_nodes fuel st l (head xs) = inr st' /\ paplist st' = paplist st /\
    dom (entries st') = dom (entries st) ∖ list_to_set xs /\
    holds (links st') (mkWorld (<[l := []]> (contents w)) (alloc w ∖ list_to_set xs)).
Proof.
  induction xs as [|x xs IH]; intros [|fuel] st w l I El F; simpl in F; try lia; cbn [free_nodes head].
  - exists st. split_and!; [done|done|set_solver|]. rewrite insert_id by done.
    replace (alloc w ∖ list_to_set []) with (alloc w) by set_solver. by destruct w.
  - rewrite (next_law _ w l [] x xs) by done. cbn [lift ebind].
    destruct (drop_entry_ok st w l [] x xs I El) as (s' & -> & I'). cbn [ebind app] in *.
    destruct (IH fuel (mkGph (size st) (mask st) (paplist st) (delete x (entries st)) s') _ l I') as (st' & -> & Ep & Ed & Is);
      [cbn; by rewrite lookup_insert_eq|lia|].
    exists st'. split_and!; [done|done| |].
    + rewrite Ed. cbn [entries]. rewrite dom_delete_L. set_solver.
    + cbn [contents alloc shrink put] in Is. rewrite insert_insert_eq in Is.
      replace (alloc w ∖ list_to_set (x :: xs)) with (alloc w ∖ {[x]} ∖ list_to_set xs) by set_solver. exact Is.
Qed.

(** The lists of the buckets from [h] on are left, with all the nodes. *)
Record freeing (st : gphPvt) (w : world) (h : nat) : Prop := mkFreeing {
  fr_holds : holds (links st) w;
  fr_dom : forall l, is_Some (contents w !! l) <-> exists h', (h <= h')%nat /\ paplist st !! h' = Some (Some l);
  fr_inj : forall h h' l, paplist st !! h = Some (Some l) -> paplist st !! h' = Some (Some l) -> h = h';
  fr_entries : dom (entries st) = alloc w;
  fr_alloc : forall x, x ∈ alloc w -> exists l xs, contents w !! l = Some xs /\ x ∈ xs }.

Lemma free_list_ok st w h l :
  freeing st w h -> paplist st !! h = Some (Some l) ->
  exists st' w', free_list st l = inr st' /\ paplist st' = paplist st /\ freeing st' w' (S h).
Proof.
  intros R P. destruct (proj2 (fr_dom _ _ _ R l)) as [xs El]; [by exists h|].
  unfold free_list. rewrite (first_law _ w l xs) by (done || apply R). cbn [lift ebind].
  destruct (free_nodes_ok xs (walk st) st w l) as (st1 & -> & Ep & Ed & I1); [apply R|done| |].
  { unfold walk. apply Nat.lt_succ_r. rewrite <- size_dom.
    rewrite <- (size_list_to_set (C := gset nat) xs) by (eapply holds_nodup; [apply R|done]).
    apply subseteq_size. intros x Hx. apply elem_of_list_to_set in Hx. rewrite (fr_entries _ _ _ R).
    eapply holds_alloc; [apply R|done|done]. }
  cbn [ebind]. eexists _, _. split; [reflexivity|]. split; [done|].
  constructor; cbn [links paplist entries].
  - apply holds_list_free; [exact I1|]. cbn. by rewrite lookup_insert_eq.
  - intros l'. cbn [contents forget]. rewrite delete_insert_eq, Ep. split.
    + intros [ys [Ne El']%lookup_delete_Some]. destruct (proj1 (fr_dom _ _ _ R l')) as (h' & Le & P'); [by eexists|].
      exists h'. split; [|done]. enough (h' <> h) by lia. intros ->. congruence.
    + intros (h' & Le & P'). assert (l' <> l) by (intros ->; pose proof (fr_inj _ _ _ R h h' l P P'); lia).
      rewrite lookup_delete_ne by done. apply (fr_dom _ _ _ R). exists h'. split; [lia|done].
  - rewrite Ep. apply R.
  - rewrite Ed, (fr_entries _ _ _ R). done.
  - cbn [contents alloc forget]. rewrite delete_insert_eq. intros x [Xa Xn]%elem_of_difference.
    destruct (fr_alloc _ _ _ R x Xa) as (l' & ys & El' & Y). exists l', ys. rewrite lookup_delete_ne; [done|].
    intros <-. apply Xn, elem_of_list_to_set. congruence.
Qed.

Lemma gph_free_loop_ok n : forall st w h,
  freeing st w h -> length (paplist st) = (h + n)%nat ->
  exists st' w', free_loop n h st = inr st' /\ freeing st' w' (h + n)%nat /\ paplist st' = paplist st.
Proof.
  induction n as [|n IH]; intros st w h R L; cbn [free_loop]; [exists st, w; by rewrite Nat.add_0_r|].
  destruct (lookup_lt_is_Some_2 (paplist st) h) as [p P]; [lia|]. unfold slot_at. rewrite P. cbn [ebind].
  assert (exists st' w', match p with Some l => free_list st l | None => inr st end = inr st' /\
    paplist st' = paplist st /\ freeing st' w' (S h)) as (st1 & w1 & -> & Ep & R1).
  { destruct p as [l|]; [by eapply free_list_ok|]. exists st, w. split_and!; [done|done|]. destruct R as [R1 R2 R3 R4 R5].
    constructor; [done| |done|done|done]. intros l. rewrite R2. split; intros (h' & Le & P'); exists h'; (split; [|done]); [|lia].
    enough (h' <> h) by lia. intros ->. congruence. }
  cbn [ebind]. destruct (IH st1 w1 (S h) R1) as (st2 & w2 & -> & R2 & Ep2); [rewrite Ep; lia|].
  exists st2, w2. rewrite Nat.add_succ_r. rewrite Ep2. by rewrite <- Ep.
Qed.

Lemma free_mem_ok st m w : rep st m w -> exists s, gphFreeMem st = inr s /\ holds s empty_world.
Proof.
  intros R. unfold gphFreeMem. rewrite <- (rep_length _ _ _ R).
  destruct (gph_free_loop_ok (length (paplist st)) st w 0) as (st' & w' & -> & R' & Ep); [|lia|].
  - constructor; [apply R| |apply R|symmetry; apply R|].
    + intros l. split; [intros Hl; destruct (rep_dom _ _ _ R l Hl) as [h P]; exists h; split; [lia|done]|].
      intros (h & _ & P). destruct (rep_chain _ _ _ R h _ P) as (xs & El & _). by eexists.
    + intros x. rewrite (rep_alloc _ _ _ R), elem_of_dom. intros [e Ex]. pose proof (rep_key _ _ _ _ _ R Ex) as K.
      destruct (slot_mask st m w (epicsStrHash (fst (key_of e)) (wrap_u 32 (wrap_s 32 (id_seed (snd (key_of e)))))) R) as [p P].
      destruct (rep_chain _ _ _ R _ p P) as (xs & C & X). assert (Xx : x ∈ xs) by (apply X; by exists (key_of e)).
      destruct p as [l|]; [by exists l, xs|]. subst xs. by apply elem_of_nil in Xx.
  - cbn [ebind]. eexists. split; [done|]. enough (w' = empty_world) as <- by apply R'.
    assert (Ec : contents w' = ∅).
    { apply map_eq. intros l. rewrite lookup_empty. apply eq_None_not_Some. rewrite (fr_dom _ _ _ R').
      intros (h & Le & P%lookup_lt_Some). rewrite Ep in P. lia. }
    assert (Ea : alloc w' = ∅).
    { apply set_eq. intros x. split; [|set_solver]. intros X. destruct (fr_alloc _ _ _ R' x X) as (l & xs & El & _).
      by rewrite Ec in El. }
    destruct w'. cbn in *. by subst.
Qed.

(** ** All operations *)

Inductive gph_op :=
| G_add (t : nat) (nm : list Z) (id : Z)
| G_find (nm : list Z) (id : Z)
| G_parse (nm : list Z) (len : nat) (id : Z)
| G_delete (nm : list Z) (id : Z).

Definition gph_exec (op : gph_op) (st : gphPvt) : gph (option nat * gphPvt) :=
  match op with
  | G_add t nm id => gphAdd st t nm id
  | G_find nm id => let* r := gphFind st nm id in inr (r, st)
  | G_parse nm len id => let* r := gphFindParse st nm len id in inr (r, st)
  | G_delete nm id => let* st := gphDelete st nm id in inr (None, st)
  end.

Fixpoint gph_run (ops : list gph_op) (st : gphPvt) : gph (list (option nat) * gphPvt) :=
  match ops with
  | [] => inr ([], st)
  | op :: ops => let* '(r, st) := gph_exec op st in let* '(rs, st) := gph_run ops st in inr (r :: rs, st)
  end.

(** Names are strings, and a length does not exceed its buffer. *)
Definition valid_op (op : gph_op) : Prop :=
  match op with
  | G_add _ nm _ | G_find nm _ | G_delete nm _ => c_string nm
  | G_parse nm len _ => (len <= length nm)%nat
  end.

(** The specification: a finite map from names and identifiers to nodes. *)
Inductive gph_spec (m : gmap (list Z * Z) nat) : gph_op -> option nat -> gmap (list Z * Z) nat -> Prop :=
| spec_add t nm id x : m !! (nm, id) = None -> (forall k, m !! k <> Some x) -> gph_spec m (G_add t nm id) (Some x) (<[(nm, id) := x]> m)
| spec_add_dup t nm id : is_Some (m !! (nm, id)) -> gph_spec m (G_add t nm id) None m
| spec_add_memory t nm id X : calloc t X = None -> gph_spec m (G_add t nm id) None m
| spec_find nm id : gph_spec m (G_find nm id) (m !! (nm, id)) m
| spec_parse nm len id : gph_spec m (G_parse nm len id) (m !! (take len nm, id)) m
| spec_delete nm id : gph_spec m (G_delete nm id) None (delete (nm, id) m).

Inductive gph_specs : gmap (list Z * Z) nat -> list gph_op -> list (option nat) -> gmap (list Z * Z) nat -> Prop :=
| specs_nil m : gph_specs m [] [] m
| specs_cons m op r m1 ops rs m2 : gph_spec m op r m1 -> gph_specs m1 ops rs m2 -> gph_specs m (op :: ops) (r :: rs) m2.

Lemma init_rep sz : rep (gphInitPvt sz) ∅ empty_world.
Proof.
  unfold gphInitPvt. cbv zeta. set (n := if MAX_SIZE <? _ then _ else _).
  assert (N : 256 <= n) by (unfold n, MAX_SIZE, MIN_SIZE, DEFAULT_SIZE; zbool; lia). clearbody n.
  constructor; cbn [links paplist size mask entries contents alloc empty_world].
  - apply holds_empty.
  - by rewrite length_replicate.
  - lia.
  - intros h p [-> _]%lookup_replicate. exists []. split; [done|]. intros x. split; [by intros ?%elem_of_nil|].
    intros (k & K & _). by rewrite lookup_empty in K.
  - by intros h h' l [? _]%lookup_replicate.
  - intros l [xs El]. by rewrite lookup_empty in El.
  - intros k x. rewrite lookup_empty. split; [done|]. by intros (e & Ex & _).
  - by rewrite dom_empty_L.
  - intros k x. by rewrite lookup_empty.
Qed.

Lemma gph_step op st m w :
  rep st m w -> valid_op op -> space st ->
  exists r st' m' w', gph_exec op st = inr (r, st') /\ gph_spec m op r m' /\ rep st' m' w' /\
    (base.size (entries st') <= S (base.size (entries st)))%nat.
Proof.
  intros R V Sp.
  destruct op as [t nm id|nm id|nm len id|nm id]; cbn [gph_exec valid_op] in *.
  - destruct (gph_add_ok st m w t nm id R V Sp) as (r & st' & m' & w' & Ex & R' & Sz & Hr).
    exists r, st', m', w'. split; [done|]. split; [|by split].
    destruct r as [x|]; [destruct Hr as (K & -> & N); by constructor|]. destruct Hr as [-> [D|[X M]]]; [by constructor|by econstructor].
  - rewrite (gph_find_ok st m w) by done. cbn [ebind]. eexists _, st, m, w. split; [reflexivity|]. split; [constructor|]. split; [done|lia].
  - rewrite (parse_ok st m w) by done. cbn [ebind]. eexists _, st, m, w. split; [reflexivity|]. split; [constructor|]. split; [done|lia].
  - destruct (gph_delete_ok st m w nm id R V) as (st' & w' & -> & R' & Le). cbn [ebind].
    eexists _, st', _, w'. split; [reflexivity|]. split; [constructor|]. split; [done|lia].
Qed.

Lemma gph_run_ok ops : forall st m w,
  rep st m w -> Forall valid_op ops -> Z.of_nat (base.size (entries st)) + zlen ops < 2 ^ 31 - 2 ->
  exists rs st' m' w', gph_run ops st = inr (rs, st') /\ gph_specs m ops rs m' /\ rep st' m' w'.
Proof.
  induction ops as [|op ops IH]; intros st m w R V Sp; cbn [gph_run].
  - eexists _, st, m, w. split; [reflexivity|]. split; [constructor|done].
  - apply Forall_cons in V as [V Vs]. rewrite length_cons in Sp.
    destruct (gph_step op st m w R V) as (r & st1 & m1 & w1 & -> & Sp1 & R1 & Le); [unfold space; lia|]. cbn [ebind].
    destruct (IH st1 m1 w1 R1 Vs) as (rs & st2 & m2 & w2 & -> & Sps & R2); [lia|]. cbn [ebind].
    eexists _, st2, m2, w2. split; [reflexivity|]. split; [by econstructor|done].
Qed.
End gphash.

(** (C10) A hash table of any size is a finite map from names and identifiers to entries.  Over any list library that keeps the laws of
    {!ListLib} and any allocator, every sequence of calls after [gphInitPvt] returns what the map operations return: [gphAdd] a new node when
    the key is new and there is memory, NULL otherwise; [gphFind] and [gphFindParse] (of a prefix of a buffer) the node of the key or
    NULL; [gphDelete] removes the key; without an access outside of the table, to a node that is not there or to the end of a
    string.  And [gphFreeMem] then frees every node and every list. *)
Theorem gph_refines_map {E Store} `{ListLib E Store} (calloc : nat -> gset nat -> option nat) sz ops :
  (forall t X x, calloc t X = Some x -> x ∉ X) -> Forall valid_op ops -> zlen ops < 2 ^ 31 - 2 ->
  exists rs st m, gph_run calloc ops (gphInitPvt sz) = inr (rs, st) /\ gph_specs calloc ∅ ops rs m /\
    exists s, gphFreeMem st = inr s /\ holds s empty_world.
Proof.
  intros Fr V L. destruct (gph_run_ok calloc Fr ops (gphInitPvt sz) ∅ empty_world (init_rep sz) V) as (rs & st & m & w & Ex & Sp & R).
  { unfold gphInitPvt. cbn [entries]. rewrite map_size_empty. lia. }
  exists rs, st, m. split; [done|]. split; [done|]. by eapply free_mem_ok.
Qed.

(** Strings "a", "ab", "abc"; the fourth call of the allocator fails. *)
Definition sample_calloc (t : nat) (X : gset nat) : option nat := if decide (t = 3)%nat then None else Some (fresh X).
Definition gph_sample : list gph_op :=
  [G_add 0 [97; 98] 1; G_add 1 [97] 1; G_add 2 [97] 2; G_add 3 [98] 1; G_add 4 [97; 98] 1; G_find [97] 2; G_find [98] 1;
   G_parse [97; 98; 99] 2 1; G_delete [97] 1; G_find [97] 1; G_find [97] 2].

Lemma gph_refines_map_witness :
  exists rs (st : gphPvt (Store := ell_state)) m, gph_run sample_calloc gph_sample (gphInitPvt 1000) = inr (rs, st) /\
    gph_specs sample_calloc ∅ gph_sample rs m /\ exists s, gphFreeMem st = inr s /\ holds s empty_world.
Proof.
  apply (gph_refines_map sample_calloc 1000 gph_sample); [| |reflexivity].
  - unfold sample_calloc. intros t X x. destruct (decide _); [done|]. intros [= <-]. apply is_fresh.
  - repeat constructor; cbn; unfold c_string; repeat constructor; lia.
Defined.

Example gph_sample_results :
  fst <$> (match gph_run (Store := ell_state) sample_calloc gph_sample (gphInitPvt 1000) with inr r => Some r | inl _ => None end) =
  Some [Some 0; Some 1; Some 2; None; None; Some 2; None; Some 0; None; None; Some 2]%nat.
Proof. vm_compute. reflexivity. Qed.
