(* ===== verification/ExtractArray.v ===== *)
(** * Copying elements out of arrays ([modules/database/src/ioc/db/dbExtractArray.c])

    Memory is a list of bytes; [memcpy] outside of a block is a fault. *)

From stdpp Require Import base numbers list list_numbers option.
From Stdlib Require Import ZArith Lia Bool.
From S2P Require Import Prelude.

(** ** Operations *)

Inductive arr_fault :=
| arr_source        (** reads outside of the source *)
| arr_overflow      (** writes outside of the destination *)
| arr_freelist.     (** allocates from a free list that was not made *)

Notation arr A := (arr_fault + A)%type.

Definition memcpy (dst : list Z) (doff : Z) (src : list Z) (soff n : Z) : arr (list Z) :=
  match rd src soff n with
  | None => inl arr_source
  | Some xs => match wr dst doff xs with Some d => inr d | None => inl arr_overflow end
  end.

(** [dst[i] = '\0'] *)
Definition put_nul (dst : list Z) (i : Z) : arr (list Z) :=
  match wr dst i [0] with Some d => inr d | None => inl arr_overflow end.

Definition MAX_STRING_SIZE : Z := 40.

(** [for (i = 1; i <= n; i++) dst[size * i - d] = '\0'], from [i] on. *)
Fixpoint nul_loop (n : nat) (i : Z) (dst : list Z) (size d : Z) : arr (list Z) :=
  match n with
  | O => inr dst
  | S n => let* dst := put_nul dst (size * i - d) in nul_loop n (i + 1) dst size d
  end.

(** The loop over the elements of a ring of [no_elements]; [pdst] is an index into [dst]. *)
Fixpoint rec_loop (nRequest : nat) (dst : list Z) (pdst : Z) (src : list Z) (srcSize dstSize : Z) (isString : bool)
    (no_elements offset increment : Z) : arr (list Z) :=
  match nRequest with
  | O => inr dst
  | S nRequest =>
      let offset := Z.rem offset no_elements in
      let* dst := memcpy dst pdst src (offset * srcSize) dstSize in
      let* dst := if isString then put_nul dst (pdst + dstSize - 1) else inr dst in
      rec_loop nRequest dst (pdst + dstSize) src srcSize dstSize isString no_elements (offset + increment) increment
  end.

Definition dbExtractArrayFromRec (src dst : list Z) (srcSize : Z) (isString : bool) (nRequest no_elements offset increment : Z) : arr (list Z) :=
  let nRequest := if no_elements <? nRequest then no_elements else nRequest in
  let dstSize := if isString && (MAX_STRING_SIZE <? srcSize) then MAX_STRING_SIZE else srcSize in
  if (increment =? 1) && (dstSize =? srcSize) then
    let nUpperPart := if nRequest <? no_elements - offset then nRequest else no_elements - offset in
    let* dst := memcpy dst 0 src (offset * srcSize) (dstSize * nUpperPart) in
    let* dst :=
      if nUpperPart <? nRequest then memcpy dst (dstSize * nUpperPart) src 0 (dstSize * (nRequest - nUpperPart)) else inr dst in
    if isString then nul_loop (Z.to_nat nRequest) 1 dst dstSize 1 else inr dst
  else rec_loop (Z.to_nat nRequest) dst 0 src srcSize dstSize isString no_elements offset increment.

Fixpoint buf_loop (nRequest : nat) (dst : list Z) (pdst : Z) (src : list Z) (srcSize dstSize : Z) (isString : bool)
    (offset increment : Z) : arr (list Z) :=
  match nRequest with
  | O => inr dst
  | S nRequest =>
      let* dst := memcpy dst pdst src (offset * srcSize) dstSize in
      let* dst := if isString then put_nul dst (pdst + dstSize) else inr dst in
      buf_loop nRequest dst (pdst + srcSize) src srcSize dstSize isString (offset + increment) increment
  end.

Definition dbExtractArrayFromBuf (src dst : list Z) (srcSize : Z) (isString : bool) (nRequest no_elements offset increment : Z) : arr (list Z) :=
  let nRequest := if no_elements <? nRequest then no_elements else nRequest in
  let offset := if no_elements - 1 <? offset then no_elements - 1 else offset in
  let dstSize := if isString && (MAX_STRING_SIZE <=? srcSize) then MAX_STRING_SIZE - 1 else srcSize in
  if increment =? 1 then
    let* dst := memcpy dst 0 src (offset * srcSize) (dstSize * nRequest) in
    if isString then nul_loop (Z.to_nat nRequest) 1 dst dstSize 0 else inr dst
  else buf_loop (Z.to_nat nRequest) dst 0 src srcSize dstSize isString offset increment.

(** ** Arrays as lists of elements *)

(** Elements of [n] bytes each. *)
Definition sized (n : Z) (es : list (list Z)) : Prop := Forall (fun e => zlen e = n) es.

Lemma concat_length n es : sized n es -> zlen (concat es) = n * zlen es.
Proof. induction 1 as [|e es L _ IH]; simpl; [lia|]. rewrite length_app. lia. Qed.

Lemma sized_app n es fs : sized n (es ++ fs) <-> sized n es /\ sized n fs.
Proof. apply Forall_app. Qed.

Lemma sized_take n k es : sized n es -> sized n (take k es).
Proof. apply Forall_take. Qed.
Lemma sized_drop n k es : sized n es -> sized n (drop k es).
Proof. apply Forall_drop. Qed.

(** Elements [o] to [o + k] of an array. *)
Lemma rd_elements n es o k :
  sized n es -> 0 <= o -> 0 <= k -> o + k <= zlen es ->
  rd (concat es) (o * n) (n * k) = Some (concat (take (Z.to_nat k) (drop (Z.to_nat o) es))).
Proof.
  intros S O K L. rewrite <- (take_drop (Z.to_nat o) es) at 1. rewrite <- (take_drop (Z.to_nat k) (drop (Z.to_nat o) es)) at 1.
  rewrite !concat_app. apply rd_app.
  - rewrite (concat_length n) by (by apply sized_take). rewrite length_take_le by lia. rewrite Z2Nat.id; lia.
  - rewrite (concat_length n) by (by apply sized_take, sized_drop). rewrite length_take_le by (rewrite length_drop; lia).
    rewrite Z2Nat.id; lia.
Qed.

(** The first [d] bytes of an element. *)
Lemma rd_element n d es i e :
  sized n es -> es !! i = Some e -> 0 <= d <= n ->
  rd (concat es) (Z.of_nat i * n) d = Some (take (Z.to_nat d) e).
Proof.
  intros S E D. pose proof (proj1 (Forall_lookup _ _) S i e E) as Le. simpl in Le.
  rewrite <- (take_drop_middle es i e E), concat_app, concat_cons.
  rewrite <- (take_drop (Z.to_nat d) e) at 1. rewrite <- app_assoc. apply rd_app.
  - rewrite (concat_length n) by (by apply sized_take). apply lookup_lt_Some in E. rewrite length_take_le by lia. lia.
  - rewrite length_take. lia.
Qed.

(** Strings are terminated. *)
Definition terminated (isString : bool) (d : Z) (e : list Z) : list Z :=
  if isString then take (Z.to_nat d - 1) e ++ [0] else take (Z.to_nat d) e.

Lemma terminated_length b d e : 0 < d <= zlen e -> zlen (terminated b d e) = d.
Proof. intros D. unfold terminated. destruct b; [rewrite length_app; simpl|]; rewrite length_take; lia. Qed.

Lemma memcpy_ok pre old rest src soff n xs :
  rd src soff n = Some xs -> length xs = length old ->
  memcpy (pre ++ old ++ rest) (zlen pre) src soff n = inr (pre ++ xs ++ rest).
Proof. intros R L. unfold memcpy. rewrite R. by rewrite (wr_app _ old). Qed.

Lemma memcpy_start old rest src soff n xs :
  rd src soff n = Some xs -> length xs = length old -> memcpy (old ++ rest) 0 src soff n = inr (xs ++ rest).
Proof. apply (memcpy_ok []). Qed.

Lemma put_nul_ok pre e rest d :
  zlen e = d -> 0 < d -> put_nul (pre ++ e ++ rest) (zlen pre + d - 1) = inr (pre ++ terminated true d e ++ rest).
Proof.
  intros L D. unfold put_nul, terminated.
  destruct e as [|c a _] using rev_ind; [simpl in L; lia|]. rewrite length_app in L. simpl in L.
  rewrite (take_app_all a) by lia. rewrite <- !app_assoc, !(app_assoc pre a). rewrite (wr_app (pre ++ a) [c] rest [0]).
  - done.
  - rewrite length_app. lia.
  - done.
Qed.

Lemma put_nul_id pre (b : bool) e rest d :
  zlen e = d -> 0 < d ->
  (if b then put_nul (pre ++ e ++ rest) (zlen pre + d - 1) else inr (pre ++ e ++ rest)) = inr (pre ++ terminated b d e ++ rest).
Proof.
  intros L D. destruct b; [by apply put_nul_ok|]. unfold terminated. by rewrite take_ge by lia.
Qed.

(** ** What the loops copy *)

Section loops.
Context (n : Z) (es : list (list Z)) (Sz : sized n es) (inc : Z) (Inc : 0 <= inc).

(** Every [inc]-th element from [o] on, round the ring. *)
Fixpoint picks (k : nat) (o : Z) : list (list Z) :=
  match k with
  | O => []
  | S k => es !!! Z.to_nat (o mod zlen es) :: picks k (o + inc)
  end.

Lemma picks_sized k : 0 < zlen es -> forall o, sized n (picks k o).
Proof.
  intros N. induction k as [|k IH]; intros o; constructor; [|apply IH].
  apply (proj1 (Forall_lookup _ _) Sz (Z.to_nat (o mod zlen es))). apply list_lookup_lookup_total_lt.
  pose proof (Z.mod_pos_bound o _ N). lia.
Qed.

Lemma picks_mod k : 0 < zlen es -> forall o, picks k (o mod zlen es) = picks k o.
Proof.
  intros N. induction k as [|k IH]; intros o; cbn [picks]; [done|]. rewrite Z.mod_mod by lia. f_equal.
  rewrite <- IH. rewrite Z.add_mod_idemp_l by lia. apply IH.
Qed.

Lemma rec_loop_ok b d k : 0 < d <= n -> 0 < zlen es -> forall o pre old rest,
  0 <= o -> zlen old = Z.of_nat k * d ->
  rec_loop k (pre ++ old ++ rest) (zlen pre) (concat es) n d b (zlen es) o inc =
  inr (pre ++ concat (map (terminated b d) (picks k o)) ++ rest).
Proof.
  intros D N. induction k as [|k IH]; intros o pre old rest O L; cbn [rec_loop picks map concat].
  - by apply zlen_nil_inv in L as ->.
  - rewrite Z.rem_mod_nonneg by lia. pose proof (Z.mod_pos_bound o _ N) as M.
    destruct (lookup_lt_is_Some_2 es (Z.to_nat (o mod zlen es))) as [e Ee]; [lia|].
    rewrite (list_lookup_total_correct _ _ _ Ee). pose proof (proj1 (Forall_lookup _ _) Sz _ _ Ee) as Le. simpl in Le.
    rewrite <- (take_drop (Z.to_nat d) old), <- app_assoc.
    rewrite (memcpy_ok _ _ _ _ _ _ (take (Z.to_nat d) e)).
    2: { pose proof (rd_element n d es _ e Sz Ee ltac:(lia)) as R. by rewrite Z2Nat.id in R by lia. }
    2: { rewrite !length_take. lia. }
    cbn [ebind].
    assert (Lt : zlen (take (Z.to_nat d) e) = d) by (rewrite length_take; lia).
    rewrite put_nul_id by (done || lia). cbn [ebind].
    replace (terminated b d (take (Z.to_nat d) e)) with (terminated b d e).
    2: { unfold terminated. rewrite !take_take. destruct b; repeat f_equal; lia. }
    rewrite app_assoc. replace (zlen pre + d) with (zlen (pre ++ terminated b d e)).
    2: { rewrite length_app, Nat2Z.inj_add, terminated_length; lia. }
    rewrite IH; [|lia|rewrite length_drop; lia].
    replace (picks k (o mod zlen es + inc)) with (picks k (o + inc)); [by rewrite <- !app_assoc|].
    rewrite <- (picks_mod k N (o + inc)), <- (picks_mod k N (o mod _ + inc)). by rewrite Z.add_mod_idemp_l by lia.
Qed.

Lemma length_picks k o : length (picks k o) = k.
Proof. revert o. induction k as [|k IH]; intros o; simpl; [done|]. by rewrite IH. Qed.

Lemma lookup_picks k : forall o i, (i < k)%nat -> picks k o !! i = Some (es !!! Z.to_nat ((o + Z.of_nat i * inc) mod zlen es)).
Proof.
  induction k as [|k IH]; intros o i L; [lia|]. cbn [picks]. destruct i as [|i]; cbn [lookup list_lookup].
  - by replace (o + Z.of_nat 0 * inc) with o by lia.
  - etrans; [apply IH; lia|]. by replace (o + inc + Z.of_nat i * inc) with (o + Z.of_nat (S i) * inc) by lia.
Qed.

Lemma lookup_total_ring o : 0 <= o < zlen es -> es !! Z.to_nat o = Some (es !!! Z.to_nat o).
Proof. intros O. apply list_lookup_lookup_total_lt. lia. Qed.

(** Copying strings as they are and ending them afterwards. *)
Lemma nul_loop_ok xs : forall i pre rest,
  sized n xs -> 0 < n -> zlen pre = n * (i - 1) ->
  nul_loop (length xs) i (pre ++ concat xs ++ rest) n 1 = inr (pre ++ concat (map (terminated true n) xs) ++ rest).
Proof.
  induction xs as [|x xs IH]; intros i pre rest F N L; cbn [nul_loop length concat map]; [done|].
  apply Forall_cons_1 in F as [Lx F]. rewrite <- !app_assoc. replace (n * i - 1) with (zlen pre + n - 1) by lia.
  rewrite put_nul_ok by done. cbn [ebind]. rewrite app_assoc, IH; [by rewrite <- !app_assoc|done|done|].
  rewrite length_app, Nat2Z.inj_add, terminated_length by lia. lia.
Qed.

(** The loop over a buffer; a string is cut to one byte less than an element. *)
Lemma buf_loop_ok (b : bool) k : 0 < n -> forall o pre old rest,
  0 <= o -> (k <> O -> o + (Z.of_nat k - 1) * inc < zlen es) -> zlen old = Z.of_nat k * n ->
  buf_loop k (pre ++ old ++ rest) (zlen pre) (concat es) n (if b then n - 1 else n) b o inc =
  inr (pre ++ concat (map (terminated b n) (picks k o)) ++ rest).
Proof.
  intros N. induction k as [|k IH]; intros o pre old rest O B L; cbn [buf_loop picks map concat].
  - by apply zlen_nil_inv in L as ->.
  - assert (Ol : 0 <= o < zlen es) by (specialize (B ltac:(done)); nia). rewrite Z.mod_small by done.
    pose proof (lookup_total_ring o Ol) as Ee. set (e := es !!! Z.to_nat o) in *.
    pose proof (proj1 (Forall_lookup _ _) Sz _ _ Ee) as Le. simpl in Le. set (d := if b then n - 1 else n).
    assert (D : 0 <= d <= n) by (subst d; destruct b; lia).
    rewrite <- (take_drop (Z.to_nat d) old), <- app_assoc.
    rewrite (memcpy_ok _ _ _ _ _ _ (take (Z.to_nat d) e)).
    2: { pose proof (rd_element n d es _ e Sz Ee D) as R. by rewrite Z2Nat.id in R by lia. }
    2: { rewrite !length_take. lia. }
    cbn [ebind].
    assert (exists old', (if b then put_nul (pre ++ take (Z.to_nat d) e ++ drop (Z.to_nat d) old ++ rest) (zlen pre + d)
      else inr (pre ++ take (Z.to_nat d) e ++ drop (Z.to_nat d) old ++ rest)) = inr ((pre ++ terminated b n e) ++ old' ++ rest) /\
      zlen old' = Z.of_nat k * n) as (old' & -> & L').
    { subst d. destruct b.
      - destruct (drop (Z.to_nat (n - 1)) old) as [|c old'] eqn:Ed.
        { assert (length (drop (Z.to_nat (n - 1)) old) = 0)%nat as E0 by (by rewrite Ed). rewrite length_drop in E0. nia. }
        exists old'. assert (length (drop (Z.to_nat (n - 1)) old) = S (length old'))%nat as E1 by (by rewrite Ed).
        rewrite length_drop in E1. split; [|nia]. unfold put_nul, terminated. rewrite app_assoc. cbn [app].
        change (c :: old' ++ rest) with ([c] ++ old' ++ rest). rewrite (wr_app _ [c] _ [0]); [|rewrite length_app, length_take; lia|done].
        rewrite <- !app_assoc. replace (Z.to_nat n - 1)%nat with (Z.to_nat (n - 1)) by lia. done.
      - exists (drop (Z.to_nat n) old). split; [by rewrite <- app_assoc|]. rewrite length_drop. lia. }
    cbn [ebind]. replace (zlen pre + n) with (zlen (pre ++ terminated b n e)).
    2: { rewrite length_app, Nat2Z.inj_add, terminated_length; lia. }
    rewrite IH; [by rewrite <- !app_assoc|lia|intros; specialize (B ltac:(done)); nia|done].
Qed.
End loops.

(** Consecutive elements, round the ring at most once. *)
Lemma picks_consecutive es k o :
  0 <= o < zlen es -> Z.of_nat k <= zlen es -> picks es 1 k o = take k (drop (Z.to_nat o) es ++ es).
Proof.
  intros O K. apply list_eq_same_length with k; [|by rewrite length_picks|].
  - rewrite length_take, length_app, length_drop. lia.
  - intros i x y Li. rewrite (lookup_picks es 1) by lia. rewrite lookup_take_lt by lia. intros [= <-].
    pose proof (lookup_total_ring es ((o + Z.of_nat i * 1) mod zlen es) ltac:(apply Z.mod_pos_bound; lia)) as T.
    destruct (Z_lt_le_dec (o + Z.of_nat i) (zlen es)) as [C|C].
    + rewrite lookup_app_l, lookup_drop by (rewrite length_drop; lia). rewrite Z.mod_small in T by lia.
      replace (Z.to_nat (o + Z.of_nat i * 1)) with (Z.to_nat o + i)%nat in T by lia. rewrite Z.mod_small by lia.
      replace (Z.to_nat (o + Z.of_nat i * 1)) with (Z.to_nat o + i)%nat by lia. congruence.
    + rewrite lookup_app_r, length_drop by (rewrite length_drop; lia).
      rewrite <- (Z.mod_unique_pos _ (zlen es) 1 (o + Z.of_nat i - zlen es)) in T |- * by lia.
      replace (i - (length es - Z.to_nat o))%nat with (Z.to_nat (o + Z.of_nat i - zlen es)) by lia. congruence.
Qed.

Lemma map_terminated_false n es : sized n es -> map (terminated false n) es = es.
Proof. induction 1 as [|e es L _ IH]; simpl; [done|]. rewrite IH. unfold terminated. by rewrite take_ge by lia. Qed.

(** ** The two functions *)

(** The size of an element in the destination. *)
Definition rec_size (isString : bool) (srcSize : Z) : Z :=
  if isString && (MAX_STRING_SIZE <? srcSize) then MAX_STRING_SIZE else srcSize.

(** From a ring of elements, wherever it starts. *)
Lemma extract_rec_ok n es (b : bool) k o inc old rest :
  sized n es -> 0 < n -> 0 <= o < zlen es -> 1 <= inc -> Z.of_nat k <= zlen es -> zlen old = Z.of_nat k * rec_size b n ->
  dbExtractArrayFromRec (concat es) (old ++ rest) n b (Z.of_nat k) (zlen es) o inc =
  inr (concat (map (terminated b (rec_size b n)) (picks es inc k o)) ++ rest).
Proof.
  intros Sz N O I K L. unfold dbExtractArrayFromRec. rewrite (proj2 (Z.ltb_ge (zlen es) (Z.of_nat k))) by lia. fold (rec_size b n).
  assert (D : 0 < rec_size b n <= n) by (unfold rec_size, MAX_STRING_SIZE; destruct b; simpl; zbool; lia).
  destruct ((inc =? 1) && (rec_size b n =? n)) eqn:E.
  2: { rewrite Nat2Z.id. apply (rec_loop_ok n es Sz inc ltac:(lia) b (rec_size b n) k D ltac:(lia) o [] old rest); lia. }
  apply andb_true_iff in E as [->%Z.eqb_eq E%Z.eqb_eq]. rewrite E in *. set (m := Z.of_nat k) in *. cbv zeta.
  set (u := if m <? zlen es - o then m else zlen es - o). assert (U : 0 <= u <= m /\ u <= zlen es - o /\ (u = m \/ u = zlen es - o)) by (unfold u; zbool; lia).
  clearbody u.
  assert (R1 : rd (concat es) (o * n) (n * u) = Some (concat (take (Z.to_nat u) (drop (Z.to_nat o) es)))) by (apply rd_elements; lia || done).
  rewrite <- (take_drop (Z.to_nat (n * u)) old), <- app_assoc.
  rewrite (memcpy_start (take (Z.to_nat (n * u)) old) _ _ _ _ _ R1).
  2: { apply Nat2Z.inj. rewrite (concat_length n) by (by apply sized_take, sized_drop). rewrite !length_take, length_drop. nia. }
  cbn [ebind]. set (p := concat (take (Z.to_nat u) _)).
  assert (Lp : zlen p = n * u).
  { unfold p. rewrite (concat_length n) by (by apply sized_take, sized_drop). rewrite length_take, length_drop.
    rewrite Nat.min_l, Z2Nat.id by lia. done. }
  assert (Second : (if u <? m then memcpy (p ++ drop (Z.to_nat (n * u)) old ++ rest) (n * u) (concat es) 0 (n * (m - u))
     else inr (p ++ drop (Z.to_nat (n * u)) old ++ rest)) = inr (concat (picks es 1 k o) ++ rest)).
  { rewrite picks_consecutive by lia. destruct (Z.ltb_spec u m) as [C|C].
    - assert (Eu : u = zlen es - o) by lia.
      pose proof (rd_elements n es 0 (m - u) Sz ltac:(lia) ltac:(lia) ltac:(lia)) as R2. rewrite Z.mul_0_l in R2.
      pose proof (memcpy_ok p (drop (Z.to_nat (n * u)) old) rest _ _ _ _ R2) as M. rewrite Lp in M. rewrite M.
      2: { apply Nat2Z.inj. rewrite (concat_length n) by (by apply sized_take, sized_drop). rewrite length_take, !length_drop. nia. }
      rewrite take_app, concat_app, <- app_assoc. unfold p. do 3 f_equal; rewrite ?length_drop.
      + rewrite !take_ge by (rewrite length_drop; lia). done.
      + f_equal. simpl. f_equal. lia.
    - assert (u = m) as Eu by lia. replace (drop (Z.to_nat (n * u)) old) with (@nil Z) by (symmetry; apply drop_ge; nia).
      rewrite take_app_le by (rewrite length_drop; lia). unfold p. rewrite Eu. unfold m. by rewrite Nat2Z.id. }
  rewrite Second. cbn [ebind]. assert (Sp : sized n (picks es 1 k o)) by (apply picks_sized; done || lia).
  destruct b.
  - unfold m. rewrite Nat2Z.id. rewrite <- (length_picks es 1 k o) at 1. apply (nul_loop_ok n _ 1 [] rest); [done|done|simpl; lia].
  - by rewrite map_terminated_false.
Qed.

(** From a buffer; not for strings one after the other. *)
Lemma extract_buf_ok n es (b : bool) k o inc old rest :
  sized n es -> 0 < n -> 0 <= o < zlen es -> 1 <= inc -> (k <> O -> o + (Z.of_nat k - 1) * inc < zlen es) ->
  (b = true -> inc <> 1 /\ n = MAX_STRING_SIZE) -> zlen old = Z.of_nat k * n ->
  dbExtractArrayFromBuf (concat es) (old ++ rest) n b (Z.of_nat k) (zlen es) o inc =
  inr (concat (map (terminated b n) (picks es inc k o)) ++ rest).
Proof.
  intros Sz N O I K B L. unfold dbExtractArrayFromBuf.
  assert (Kl : Z.of_nat k <= zlen es) by (destruct k; [lia|specialize (K ltac:(done)); nia]).
  rewrite (proj2 (Z.ltb_ge (zlen es) (Z.of_nat k))), (proj2 (Z.ltb_ge (zlen es - 1) o)) by lia. cbv zeta. set (d := if b && _ then _ else _).
  assert (d = if b then n - 1 else n) as ->.
  { unfold d. destruct b; [|done]. destruct (B eq_refl) as [_ ->]. done. }
  destruct (Z.eqb_spec inc 1) as [->|Ni].
  - destruct b; [by destruct (B eq_refl)|]. rewrite map_terminated_false by (apply picks_sized; done || lia).
    rewrite (memcpy_start old rest _ _ _ (concat (take k (drop (Z.to_nat o) es)))).
    2: { rewrite rd_elements by (done || lia). by rewrite Nat2Z.id. }
    2: { apply Nat2Z.inj. rewrite (concat_length n) by (by apply sized_take, sized_drop). rewrite length_take, length_drop.
         destruct k; [simpl in *; lia|]. specialize (K ltac:(done)). rewrite Nat.min_l by lia. lia. }
    cbn [ebind app]. rewrite picks_consecutive by lia. rewrite take_app_le by (rewrite length_drop; lia). done.
  - rewrite Nat2Z.id. apply (buf_loop_ok n es Sz inc ltac:(lia) b k N o [] old rest); done || lia.
Qed.
