(* ===== verification/ArrFilter.v ===== *)
(** * The array filter ([modules/database/src/std/filters/arr.c])

    A channel filter that replaces the array of an update or a read by the elements [start], [start+incr], ... up to
    [end]; negative indices count from the end of the array. *)

From stdpp Require Import base numbers list list_numbers option.
From Stdlib Require Import ZArith Lia Bool.
From S2P Require Import Prelude RecGbl ExtractArray.

(** ** Data *)

(** [arrayFreeList] holds the size of the blocks of the free list, once it is made. *)
Record myStruct := mkMy { start : Z; incr : Z; end_ : Z; arrayFreeList : option Z; my_elements : Z }.

Inductive dbfl_kind := dbfl_type_rec | dbfl_type_val | dbfl_type_ref.

(** Who releases the data of a log: this filter or the one that made it. *)
Inductive dtor_kind := dtor_freeArray | dtor_other.

(** [field] is the data of a [dbfl_type_ref] log, [None] when the pointer is not set. *)
Record db_field_log := mkLog {
  type : dbfl_kind; fl_time : epicsTimeStamp; fl_stat : Z; fl_sevr : Z;
  isString : bool;            (** [field_type] is [DBF_STRING] *)
  field_size : Z; no_elements : Z; field : option (list Z); dtor : option dtor_kind }.

(** A channel: [addr], the record and what its array support delivers, if it has one; [pfield] is the memory of the
    field then. *)
Record dbChannel := mkChan {
  special_dbaddr : bool; ch_string : bool; ch_size : Z; ch_elements : Z;
  prec : dbCommon; array_info : option (Z * Z); pfield : list Z }.

(** ** Operations *)

Definition allocPvt : myStruct := mkMy 0 1 (-1) None 0.

Definition parse_ok (my : myStruct) : myStruct :=
  mkMy (start my) (if incr my <=? 0 then 1 else incr my) (end_ my) (arrayFreeList my) (my_elements my).

(** The new [start] and [end], and the number of elements. *)
Definition wrapArrayIndices (start increment end_ no_elements : Z) : Z * Z * Z :=
  let start := if start <? 0 then no_elements + start else start in
  let start := if start <? 0 then 0 else start in
  let start := if no_elements <? start then no_elements else start in
  let end_ := if end_ <? 0 then no_elements + end_ else end_ in
  let end_ := if end_ <? 0 then 0 else end_ in
  let end_ := if no_elements <=? end_ then no_elements - 1 else end_ in
  (start, end_, if 0 <=? end_ - start then 1 + Z.quot (end_ - start) increment else 0).

(** [mem] tells whether there is memory; a block is cleared. *)
Definition freeListCalloc (pvt : option Z) (mem : bool) : arr (option (list Z)) :=
  match pvt with
  | None => inl arr_freelist
  | Some size => inr (if mem then Some (replicate (Z.to_nat size) 0) else None)
  end.

(** A log that takes its data from the record: the alarm, the time and the type are copied. *)
Definition ref_log (pfl : db_field_log) (chan : dbChannel) (nTarget : Z) : db_field_log :=
  mkLog dbfl_type_ref (time (prec chan)) (stat (prec chan)) (sevr (prec chan)) (ch_string chan) (ch_size chan) nTarget
    (field pfl) (dtor pfl).

Definition set_data (pfl : db_field_log) (d : list Z) : db_field_log :=
  mkLog (type pfl) (fl_time pfl) (fl_stat pfl) (fl_sevr pfl) (isString pfl) (field_size pfl) (no_elements pfl) (Some d) (Some dtor_freeArray).

Definition set_count (pfl : db_field_log) (n : Z) : db_field_log :=
  mkLog (type pfl) (fl_time pfl) (fl_stat pfl) (fl_sevr pfl) (isString pfl) (field_size pfl) n (field pfl) (dtor pfl).

Definition filter_rec (my : myStruct) (chan : dbChannel) (mem : bool) (pfl : db_field_log) : arr db_field_log :=
  match array_info chan with
  | Some (nSource, offset) =>
      if special_dbaddr chan && (1 <? ch_elements chan) then
        let '(start, end_, nTarget) := wrapArrayIndices (start my) (incr my) (end_ my) nSource in
        let pfl := ref_log pfl chan nTarget in
        if nTarget =? 0 then inr pfl
        else
          let* pdst := freeListCalloc (arrayFreeList my) mem in
          match pdst with
          | None => inr pfl
          | Some pdst =>
              let offset := Z.rem (offset + start) (ch_elements chan) in
              let* d := dbExtractArrayFromRec (pfield chan) pdst (ch_size chan) (ch_string chan) nTarget (ch_elements chan) offset (incr my) in
              inr (set_data pfl d)
          end
      else inr pfl
  | None => inr pfl
  end.

(** The second component is the [dtor] that is called. *)
Definition filter_ref (my : myStruct) (mem : bool) (pfl : db_field_log) : arr (db_field_log * option dtor_kind) :=
  let nSource := no_elements pfl in
  let '(start, end_, nTarget) := wrapArrayIndices (start my) (incr my) (end_ my) nSource in
  let pfl := set_count pfl nTarget in
  if nTarget =? 0 then inr (pfl, dtor pfl)
  else
    let* pdst := freeListCalloc (arrayFreeList my) mem in
    match pdst, field pfl with
    | None, _ => inr (pfl, None)
    | Some _, None => inl arr_source
    | Some pdst, Some psrc =>
        let* d := dbExtractArrayFromBuf psrc pdst (field_size pfl) (isString pfl) nTarget nSource start (incr my) in
        inr (set_data pfl d, dtor pfl)
    end.

Definition filter (my : myStruct) (chan : dbChannel) (mem : bool) (pfl : db_field_log) : arr (db_field_log * option dtor_kind) :=
  match type pfl with
  | dbfl_type_val => inr (pfl, None)
  | dbfl_type_rec => let* pfl := filter_rec my chan mem pfl in inr (pfl, None)
  | dbfl_type_ref => filter_ref my mem pfl
  end.

(** [probe] tells the number and the size of the elements; the last component tells whether the filter takes part.
    [freeListInitPvt] does not fail. *)
Definition channelRegisterPost (my : myStruct) (probe_elements probe_size : Z) : myStruct * Z * bool :=
  if probe_elements <=? 1 then (my, probe_elements, false)
  else
    let '(_, _, max) := wrapArrayIndices (start my) (incr my) (end_ my) probe_elements in
    let fl :=
      if negb (max =? 0) then match arrayFreeList my with None => Some (max * probe_size) | fl => fl end else arrayFreeList my in
    (mkMy (start my) (incr my) (end_ my) fl max, max, true).

(** ** Slices *)

(** Every [n]-th element, after [skip]. *)
Fixpoint every {A} (n skip : nat) (xs : list A) : list A :=
  match xs with
  | [] => []
  | x :: xs => match skip with O => x :: every n (n - 1) xs | S k => every n k xs end
  end.

(** The elements [s], [s + n], ... up to [e]. *)
Definition slice {A} (s n e : Z) (xs : list A) : list A :=
  every (Z.to_nat n) 0 (take (Z.to_nat (e + 1 - s)) (drop (Z.to_nat s) xs)).

(** An index that may count from the end, kept inside of [0 .. hi]. *)
Definition position (i len hi : Z) : Z := Z.min (Z.max (if i <? 0 then len + i else i) 0) hi.

(** What the filter is asked for. *)
Definition selection {A} (my : myStruct) (xs : list A) : list A :=
  slice (position (start my) (zlen xs) (zlen xs)) (incr my) (position (end_ my) (zlen xs) (zlen xs - 1)) xs.

(** The array in a ring of elements that starts at [offset]. *)
Definition ring_array {A} (es : list A) (offset nSource : Z) : list A :=
  take (Z.to_nat nSource) (drop (Z.to_nat offset) es ++ take (Z.to_nat offset) es).

Lemma lookup_every {A} n (xs : list A) : (0 < n)%nat -> forall k i, every n k xs !! i = xs !! (k + i * n)%nat.
Proof.
  intros N. induction xs as [|x xs IH]; intros k i; cbn [every]; [by rewrite !lookup_nil|].
  destruct k as [|k].
  - destruct i as [|i]; [done|]. simpl. rewrite IH. destruct n as [|n]; [lia|]. simpl. f_equal. lia.
  - simpl. by rewrite IH.
Qed.

Lemma wrap_positions s inc e n :
  0 <= n -> wrapArrayIndices s inc e n =
  let s := position s n n in let e := position e n (n - 1) in
  (s, e, if 0 <=? e - s then 1 + Z.quot (e - s) inc else 0).
Proof.
  intros N. unfold wrapArrayIndices, position. cbv zeta.
  set (a := if s <? 0 then _ else _). set (b := if e <? 0 then _ else _).
  assert (M : forall x, (if x <? 0 then 0 else x) = Z.max x 0) by (intros; zbool; lia). rewrite !M.
  replace (if n <? Z.max a 0 then _ else _) with (Z.min (Z.max a 0) n) by (zbool; lia).
  replace (if n <=? Z.max b 0 then _ else _) with (Z.min (Z.max b 0) (n - 1)) by (zbool; lia). done.
Qed.

(** The number of elements of a slice, and the last one. *)
Lemma slice_count s inc e n :
  1 <= inc -> 0 <= s -> e < n -> let k := if 0 <=? e - s then 1 + Z.quot (e - s) inc else 0 in
  0 <= k /\ (0 < k -> s <= e /\ s + (k - 1) * inc <= e) /\ forall i, 0 <= i -> i < k <-> s + i * inc <= e.
Proof.
  intros I S E k. unfold k. destruct (Z.leb_spec 0 (e - s)) as [L|L]; [|split_and!; [lia|lia|intros; nia]].
  rewrite Z.quot_div_nonneg by lia. pose proof (Z.div_mod (e - s) inc ltac:(lia)) as D.
  pose proof (Z.mod_pos_bound (e - s) inc ltac:(lia)) as M. pose proof (Z.div_pos (e - s) inc L ltac:(lia)).
  split_and!; [lia|intros; nia|]. intros i Ip. split; intros; nia.
Qed.

Lemma lookup_slice {A} s inc e (xs : list A) i :
  1 <= inc -> 0 <= s -> slice s inc e xs !! i = if s + Z.of_nat i * inc <=? e then xs !! Z.to_nat (s + Z.of_nat i * inc) else None.
Proof.
  intros I S. unfold slice. rewrite lookup_every by lia. destruct (Z.leb_spec (s + Z.of_nat i * inc) e) as [L|L].
  - rewrite lookup_take_lt by nia. rewrite lookup_drop. f_equal. nia.
  - apply lookup_take_ge. nia.
Qed.

Lemma lookup_ring_array {A} (es : list A) offset n i :
  0 <= offset < zlen es -> n <= zlen es -> Z.of_nat i < n ->
  ring_array es offset n !! i = es !! Z.to_nat ((offset + Z.of_nat i) mod zlen es).
Proof.
  intros O N I. unfold ring_array. rewrite lookup_take_lt by lia. destruct (Z_lt_le_dec (offset + Z.of_nat i) (zlen es)) as [C|C].
  - rewrite lookup_app_l, lookup_drop by (rewrite length_drop; lia). rewrite Z.mod_small by lia. f_equal. lia.
  - rewrite lookup_app_r by (rewrite length_drop; lia). rewrite length_drop, lookup_take_lt by lia.
    rewrite <- (Z.mod_unique_pos _ (zlen es) 1 (offset + Z.of_nat i - zlen es)) by lia. f_equal. lia.
Qed.

Lemma ring_array_length {A} (es : list A) offset n : 0 <= offset < zlen es -> 0 <= n <= zlen es -> zlen (ring_array es offset n) = n.
Proof. intros. unfold ring_array. rewrite length_take, length_app, length_drop, length_take. lia. Qed.

(** The picked elements are the slice of the array in the ring. *)
Lemma picks_slice es offset n s inc e k :
  0 <= offset < zlen es -> n <= zlen es -> 1 <= inc -> 0 <= s -> e < n ->
  Z.of_nat k = (if 0 <=? e - s then 1 + Z.quot (e - s) inc else 0) ->
  picks es inc k (offset + s) = slice s inc e (ring_array es offset n).
Proof.
  intros O N I S E K. destruct (slice_count s inc e n I S E) as (_ & _ & C). apply list_eq. intros i.
  rewrite lookup_slice by done. specialize (C (Z.of_nat i) ltac:(lia)). rewrite <- K in C.
  destruct (Z.leb_spec (s + Z.of_nat i * inc) e) as [L|L].
  - rewrite lookup_picks by lia. rewrite lookup_ring_array by (nia || lia). rewrite Z2Nat.id by nia. rewrite Z.add_assoc.
    symmetry. apply lookup_total_ring, Z.mod_pos_bound. lia.
  - apply lookup_ge_None. rewrite length_picks. lia.
Qed.

(** ** The filter *)

(** The indices for which the block of the free list, made for the full array, is enough for shorter ones. *)
Definition safe_indices (my : myStruct) : Prop := 0 <= start my \/ start my <= end_ my < 0.

Definition target (my : myStruct) (n : Z) : Z := snd (wrapArrayIndices (start my) (incr my) (end_ my) n).

Lemma target_mono my n m : 1 <= incr my -> safe_indices my -> 0 <= n <= m -> 0 <= target my n <= target my m.
Proof.
  intros I S N. unfold target. rewrite !wrap_positions by lia. cbv zeta. cbn [snd].
  set (d k := position (end_ my) k (k - 1) - position (start my) k k).
  assert (D : 0 <= d n -> d n <= d m) by (unfold safe_indices, d, position in *; zbool; lia).
  change (position (end_ my) n (n - 1) - position (start my) n n) with (d n).
  change (position (end_ my) m (m - 1) - position (start my) m m) with (d m).
  destruct (Z.leb_spec 0 (d n)) as [L|L]; [|split; [lia|destruct (Z.leb_spec 0 (d m)); [pose proof (Z.quot_pos (d m) (incr my)); lia|lia]]].
  rewrite (proj2 (Z.leb_le 0 (d m))) by lia. pose proof (Z.quot_le_mono (d n) (d m) (incr my) ltac:(lia) (D L)).
  pose proof (Z.quot_pos (d n) (incr my) L ltac:(lia)). lia.
Qed.

Lemma target_selection {A} my (xs : list A) : 1 <= incr my -> target my (zlen xs) = zlen (selection my xs).
Proof.
  intros I. unfold target, selection. rewrite wrap_positions by lia. cbv zeta. cbn [snd].
  set (s := position (start my) _ _). set (e := position (end_ my) _ _).
  assert (S : 0 <= s) by (unfold s, position; lia). assert (E : e < zlen xs) by (unfold e, position; lia).
  destruct (slice_count s (incr my) e _ I S E) as (K & _ & C). set (k := if 0 <=? e - s then _ else _) in *.
  destruct (Z_lt_le_dec (zlen (slice s (incr my) e xs)) k) as [L|L].
  - apply C in L; [|lia]. pose proof (lookup_slice s (incr my) e xs (length (slice s (incr my) e xs)) I S) as Lk.
    rewrite lookup_ge_None_2 in Lk by done. rewrite (proj2 (Z.leb_le _ _)) in Lk by done.
    symmetry in Lk. apply lookup_ge_None in Lk. lia.
  - destruct (Z.eq_dec k (zlen (slice s (incr my) e xs))) as [->|Ne]; [done|].
    assert (is_Some (slice s (incr my) e xs !! Z.to_nat k)) as [x X] by (apply lookup_lt_is_Some_2; lia).
    rewrite lookup_slice in X by done. destruct (Z.leb_spec (s + Z.of_nat (Z.to_nat k) * incr my) e) as [Q|Q]; [|done].
    rewrite Z2Nat.id in Q by done. apply C in Q; lia.
Qed.

(** Room for the selection in a block of the free list. *)
Lemma block_split size n d : 0 <= n * d <= size -> exists old rest : list Z,
  replicate (Z.to_nat size) 0 = old ++ rest /\ zlen old = n * d.
Proof.
  intros N. exists (replicate (Z.to_nat (n * d)) 0), (replicate (Z.to_nat (size - n * d)) 0).
  rewrite <- replicate_add, length_replicate. split; [f_equal|]; lia.
Qed.

(** A channel with an array in a ring of elements. *)
Record ring_channel (ch : dbChannel) (es : list (list Z)) (n offset : Z) : Prop := mkRing {
  rc_special : special_dbaddr ch = true;
  rc_info : array_info ch = Some (n, offset);
  rc_size : 0 < ch_size ch;
  rc_sized : sized (ch_size ch) es;
  rc_elements : ch_elements ch = zlen es /\ 1 < zlen es;
  rc_field : pfield ch = concat es;
  rc_range : 0 <= n <= zlen es /\ 0 <= offset < zlen es }.

Lemma filter_rec_ok my my' max ch es n offset pfl :
  ring_channel ch es n offset -> 1 <= incr my -> safe_indices my -> arrayFreeList my = None ->
  channelRegisterPost my (ch_elements ch) (ch_size ch) = (my', max, true) ->
  let sel := selection my (ring_array es offset n) in
  exists pfl', filter_rec my' ch true pfl = inr pfl' /\
    (type pfl', fl_time pfl', fl_stat pfl', fl_sevr pfl') = (dbfl_type_ref, time (prec ch), stat (prec ch), sevr (prec ch)) /\
    no_elements pfl' = zlen sel /\ zlen sel <= max /\
    (sel <> [] -> exists pad, field pfl' = Some (concat (map (terminated (ch_string ch) (rec_size (ch_string ch) (ch_size ch))) sel) ++ pad)).
Proof.
  intros [Sp Info Sz0 Sz [El El1] Pf [N O]] I S Fl Reg sel. rewrite El in Reg.
  pose proof (ring_array_length es offset n O N) as Lr. pose proof (target_selection my (ring_array es offset n) I) as T. rewrite Lr in T.
  pose proof (target_mono my n (zlen es) I S ltac:(lia)) as Mono. fold sel in T.
  unfold channelRegisterPost in Reg. rewrite (proj2 (Z.leb_gt _ _)) in Reg by lia.
  unfold target in Mono at 3. rewrite Fl in Reg. destruct (wrapArrayIndices _ _ _ (zlen es)) as [[? ?] mx]. cbn [snd] in Mono.
  injection Reg as <- <-. unfold filter_rec. rewrite Info, Sp, El, (proj2 (Z.ltb_lt 1 (zlen es))) by done. cbn [andb start incr end_ arrayFreeList].
  pose proof (wrap_positions (start my) (incr my) (end_ my) n ltac:(lia)) as W. cbv zeta in W.
  unfold sel, selection in T |- *. rewrite Lr in *. set (s := position (start my) n n) in *. set (e := position (end_ my) n (n - 1)) in *.
  unfold target in Mono, T. rewrite W in *. cbn [snd] in *. set (k := if 0 <=? e - s then _ else _) in *.
  rewrite T. destruct (Z.eqb_spec (zlen (slice s (incr my) e (ring_array es offset n))) 0) as [Z0|NZ].
  { eexists. split; [reflexivity|]. split; [done|]. cbn [no_elements ref_log]. split; [done|]. split; [lia|].
    intros NE. by apply zlen_nil_inv in Z0. }
  rewrite (proj2 (Z.eqb_neq mx 0)) by lia. cbn [negb freeListCalloc ebind].
  assert (Hs : 0 <= s) by (unfold s, position; lia). assert (He : e < n) by (unfold e, position; lia).
  assert (Hk : Z.of_nat (Z.to_nat k) = if 0 <=? e - s then 1 + Z.quot (e - s) (incr my) else 0) by (rewrite Z2Nat.id by lia; done).
  pose proof (picks_slice es offset n s (incr my) e (Z.to_nat k) O ltac:(lia) I Hs He Hk) as P.
  assert (D : 0 < rec_size (ch_string ch) (ch_size ch) <= ch_size ch) by (unfold rec_size, MAX_STRING_SIZE; destruct (ch_string ch); simpl; zbool; lia).
  destruct (block_split (mx * ch_size ch) k (rec_size (ch_string ch) (ch_size ch))) as (old & rest & -> & Lo); [nia|].
  rewrite Pf, <- T, <- (Z2Nat.id k), Z.rem_mod_nonneg by lia.
  rewrite (extract_rec_ok (ch_size ch) es _ (Z.to_nat k)); [|done|done|apply Z.mod_pos_bound; lia|done| |rewrite Z2Nat.id by lia; done].
  2: { rewrite Z2Nat.id by lia. destruct (slice_count s (incr my) e n I Hs He) as (_ & Q & _). fold k in Q. nia. }
  cbn [ebind]. eexists. split; [reflexivity|]. split; [done|]. cbn [no_elements set_data ref_log field].
  split; [rewrite Z2Nat.id by lia; congruence|]. split; [lia|]. intros _. exists rest.
  rewrite (picks_mod es (incr my)) by lia. by rewrite P.
Qed.

(** The same for a log that brings its own data. *)
Lemma filter_ref_ok my my' max probe_elements es pfl :
  sized (field_size pfl) es -> 0 < field_size pfl -> zlen es <= probe_elements -> 1 < probe_elements ->
  no_elements pfl = zlen es -> field pfl = Some (concat es) ->
  (isString pfl = true -> incr my <> 1 /\ field_size pfl = MAX_STRING_SIZE) ->
  1 <= incr my -> safe_indices my -> arrayFreeList my = None ->
  channelRegisterPost my probe_elements (field_size pfl) = (my', max, true) ->
  let sel := selection my es in
  exists pfl', filter_ref my' true pfl = inr (pfl', dtor pfl) /\
    no_elements pfl' = zlen sel /\ zlen sel <= max /\
    (sel <> [] -> exists pad, field pfl' = Some (concat (map (terminated (isString pfl) (field_size pfl)) sel) ++ pad)).
Proof.
  intros Sz Sz0 Lp L1 Ne Fd Str I S Fl Reg sel.
  pose proof (target_selection my es I) as T. pose proof (target_mono my (zlen es) probe_elements I S ltac:(lia)) as Mono. fold sel in T.
  unfold channelRegisterPost in Reg. rewrite (proj2 (Z.leb_gt _ _)) in Reg by lia.
  unfold target in Mono at 3. rewrite Fl in Reg. destruct (wrapArrayIndices _ _ _ probe_elements) as [[? ?] mx]. cbn [snd] in Mono.
  injection Reg as <- <-. unfold filter_ref. rewrite Ne. cbn [start incr end_ arrayFreeList].
  pose proof (wrap_positions (start my) (incr my) (end_ my) (zlen es) ltac:(lia)) as W. cbv zeta in W.
  unfold sel, selection in T |- *. set (s := position (start my) _ _) in *. set (e := position (end_ my) _ _) in *.
  unfold target in Mono, T. rewrite W in *. cbn [snd] in *. set (k := if 0 <=? e - s then _ else _) in *.
  rewrite T. destruct (Z.eqb_spec (zlen (slice s (incr my) e es)) 0) as [Z0|NZ].
  { eexists. split; [reflexivity|]. split; [done|]. split; [lia|]. intros NE. by apply zlen_nil_inv in Z0. }
  rewrite (proj2 (Z.eqb_neq mx 0)) by lia. cbn [negb freeListCalloc ebind field set_count]. rewrite Fd.
  assert (Hs : 0 <= s) by (unfold s, position; lia). assert (He : e < zlen es) by (unfold e, position; lia).
  destruct (slice_count s (incr my) e (zlen es) I Hs He) as (_ & Q & _). fold k in Q.
  assert (Hk : Z.of_nat (Z.to_nat k) = if 0 <=? e - s then 1 + Z.quot (e - s) (incr my) else 0) by (rewrite Z2Nat.id by lia; done).
  pose proof (picks_slice es 0 (zlen es) s (incr my) e (Z.to_nat k) ltac:(lia) ltac:(lia) I Hs He Hk) as P.
  replace (ring_array es 0 (zlen es)) with es in P by (unfold ring_array; rewrite drop_0, take_0, app_nil_r, take_ge by lia; done).
  destruct (block_split (mx * field_size pfl) k (field_size pfl)) as (old & rest & -> & Lo); [nia|].
  cbn [field_size isString set_count]. rewrite <- T, <- (Z2Nat.id k) by lia.
  rewrite (extract_buf_ok (field_size pfl) es _ (Z.to_nat k)); [|done|done|lia|done|intros _; rewrite Z2Nat.id by lia; lia|done|rewrite Z2Nat.id by lia; done].
  cbn [ebind]. eexists. split; [reflexivity|]. cbn [no_elements set_data set_count field].
  split; [rewrite Z2Nat.id by lia; congruence|]. split; [lia|]. intros _. exists rest. by rewrite <- P.
Qed.

(** (C31) The array filter applied to the array of a record, which may be a ring that starts anywhere and is filled in part.  When the
    filter took part in the registration of the channel, with indices [start >= 0], or [start <= end] both counted from the end, the update
    becomes one that holds exactly the elements of the array of the record from [start] to [end] in steps of [incr] (negative indices count from the end
    of the present array), strings terminated, with the alarm and the time of the record; the block of the free list made
    for the channel is large enough for every length of the array. *)
Theorem arr_filter_record my my' max ch es n offset pfl :
  ring_channel ch es n offset -> 1 <= incr my -> safe_indices my -> arrayFreeList my = None -> type pfl = dbfl_type_rec ->
  channelRegisterPost my (ch_elements ch) (ch_size ch) = (my', max, true) ->
  let sel := selection my (ring_array es offset n) in
  exists pfl', filter my' ch true pfl = inr (pfl', None) /\
    (type pfl', fl_time pfl', fl_stat pfl', fl_sevr pfl') = (dbfl_type_ref, time (prec ch), stat (prec ch), sevr (prec ch)) /\
    no_elements pfl' = zlen sel /\ zlen sel <= max /\
    (sel <> [] -> exists pad, field pfl' = Some (concat (map (terminated (ch_string ch) (rec_size (ch_string ch) (ch_size ch))) sel) ++ pad)).
Proof.
  intros R I S Fl Ty Reg sel. destruct (filter_rec_ok my my' max ch es n offset pfl R I S Fl Reg) as (pfl' & E & H).
  exists pfl'. unfold filter. by rewrite Ty, E.
Qed.

(** (C32) The same for an update that brings its data, from the filter before: the filter keeps the selected elements and releases the
    data it came with.  Strings are excluded when the increment is 1. *)
Theorem arr_filter_buffer my my' max ch probe_elements es pfl :
  type pfl = dbfl_type_ref ->
  sized (field_size pfl) es -> 0 < field_size pfl -> zlen es <= probe_elements -> 1 < probe_elements ->
  no_elements pfl = zlen es -> field pfl = Some (concat es) ->
  (isString pfl = true -> incr my <> 1 /\ field_size pfl = MAX_STRING_SIZE) ->
  1 <= incr my -> safe_indices my -> arrayFreeList my = None ->
  channelRegisterPost my probe_elements (field_size pfl) = (my', max, true) ->
  let sel := selection my es in
  exists pfl', filter my' ch true pfl = inr (pfl', dtor pfl) /\
    no_elements pfl' = zlen sel /\ zlen sel <= max /\
    (sel <> [] -> exists pad, field pfl' = Some (concat (map (terminated (isString pfl) (field_size pfl)) sel) ++ pad)).
Proof.
  intros Ty Sz Sz0 Lp L1 Ne Fd Str I S Fl Reg sel. unfold filter. rewrite Ty.
  by apply (filter_ref_ok my my' max probe_elements es pfl).
Qed.

(** ** Examples *)

(** Elements of two bytes, 1 to [cap], in a ring. *)
Definition numbers (cap : Z) : list (list Z) := map (fun i => [i; 0]) (seqZ 1 cap).
Definition a_channel (cap n offset : Z) : dbChannel :=
  mkChan true false 2 cap quiet_record (Some (n, offset)) (concat (numbers cap)).
Definition a_log : db_field_log := mkLog dbfl_type_rec (mkTime 0 0) 0 0 false 0 0 None None.
Definition a_buffer : db_field_log := mkLog dbfl_type_ref (mkTime 0 0) 0 0 false 2 5 (Some (concat (numbers 5))) (Some dtor_other).
Definition registered (my : myStruct) (cap : Z) : myStruct := fst (fst (channelRegisterPost my cap 2)).

Lemma numbers_sized cap : sized 2 (numbers cap).
Proof. apply Forall_map, Forall_true. done. Qed.

Lemma arr_filter_record_witness :
  exists pfl', filter (registered (mkMy 1 2 (-1) None 0) 5) (a_channel 5 4 3) true a_log = inr (pfl', None) /\
    no_elements pfl' = 2 /\ exists pad, field pfl' = Some ([5; 0; 2; 0] ++ pad).
Proof.
  destruct (arr_filter_record (mkMy 1 2 (-1) None 0) (registered (mkMy 1 2 (-1) None 0) 5) 2 (a_channel 5 4 3) (numbers 5) 4 3 a_log)
    as (pfl' & E & _ & N & _ & F); try reflexivity.
  - constructor; try done; apply numbers_sized.
  - cbn. lia.
  - left. cbn. lia.
  - exists pfl'. split; [exact E|]. split; [exact N|]. apply F. vm_compute. done.
Defined.

Lemma arr_filter_buffer_witness :
  exists pfl', filter (registered (mkMy (-4) 1 (-2) None 0) 8) (a_channel 8 0 0) true a_buffer = inr (pfl', Some dtor_other) /\
    no_elements pfl' = 3 /\ exists pad, field pfl' = Some ([2; 0; 3; 0; 4; 0] ++ pad).
Proof.
  destruct (arr_filter_buffer (mkMy (-4) 1 (-2) None 0) (registered (mkMy (-4) 1 (-2) None 0) 8) 3 (a_channel 8 0 0) 8 (numbers 5) a_buffer)
    as (pfl' & E & N & _ & F);
    try reflexivity; try apply numbers_sized; try (apply Z.leb_le; reflexivity); try (apply Z.ltb_lt; reflexivity); [done| |].
  - right. cbn. lia.
  - exists pfl'. split; [exact E|]. split; [exact N|]. apply F. vm_compute. done.
Defined.

(** [arr:{s:-5, e:6}] on an array of 10: room for 2 elements, but 5 are selected when the array holds 5. *)
Example arr_overflows : filter (registered (mkMy (-5) 1 6 None 0) 10) (a_channel 10 5 0) true a_log = inl arr_overflow.
Proof. vm_compute. reflexivity. Qed.

(** [arr:{s:-5, e:3}] on an array of 10: no free list is made, but 4 elements are selected when the array holds 4. *)
Example arr_no_freelist : filter (registered (mkMy (-5) 1 3 None 0) 10) (a_channel 10 4 0) true a_log = inl arr_freelist.
Proof. vm_compute. reflexivity. Qed.

(** Without memory a record's update becomes one of 4 elements without data. *)
Example arr_no_memory :
  (fun r => (no_elements (fst r), field (fst r))) <$>
    match filter (registered (mkMy 0 1 (-1) None 0) 10) (a_channel 10 4 0) false a_log with inr r => Some r | inl _ => None end = Some (4, None).
Proof. vm_compute. reflexivity. Qed.

(** Two strings of 39 characters from a buffer: the second one loses its last. *)
Example arr_cuts_strings :
  let x := repeat 88 39 ++ [0] in
  dbExtractArrayFromBuf (x ++ x) (replicate 80 0) 40 true 2 2 0 1 = inr (x ++ repeat 88 38 ++ [0; 0]).
Proof. vm_compute. reflexivity. Qed.

(** An empty selection from a buffer: the data is released, and the log still names the one to release it, which
    [db_delete_field_log] does again. *)
Example arr_releases_twice :
  (fun r => (no_elements (fst r), dtor (fst r), snd r)) <$>
    match filter (registered (mkMy 6 1 7 None 0) 10) (a_channel 10 0 0) true a_buffer with inr r => Some r | inl _ => None end =
  Some (0, Some dtor_other, Some dtor_other).
Proof. vm_compute. reflexivity. Qed.
