(* ===== verification/EventFilters.v ===== *)
(** * Deadband and synchronise filters, and the chain they run in

    ([modules/database/src/std/filters/dbnd.c], [sync.c] and [dbChannelRunPreChain] of [ioc/db/dbChannel.c].)  A filter owns the
    log it is given: it passes it on, deletes it or keeps it for later. *)

From stdpp Require Import base numbers list option.
From Stdlib Require Import ZArith Lia Bool Floats.
From S2P Require Import Prelude CStdlib CalcPerform RecGbl.

(** ** Logs *)

Inductive dbfl_context := context_read | context_event.

(** [scalar] is the value as a [double], when the log holds a scalar that the conversion routine can convert. *)
Record event_log := mkEvent { log_id : nat; ctx : dbfl_context; scalar : option float }.

(** What a filter does with a log: the log it returns, the logs it deletes, its state. *)
Notation verdict A := (option event_log * list event_log * A)%type.

(** ** The deadband filter *)

Module Dbnd.
Record myStruct := mkMy { mode : Z; cval : float; hyst : float; last : float }.

Definition parse_ok (my : myStruct) : myStruct := mkMy (mode my) (cval my) (cval my) nan.

Definition filter (my : myStruct) (pfl : event_log) : verdict myStruct :=
  match scalar pfl with
  | Some val =>
      let '(last', send) := recGblCheckDeadband (last my) val (hyst my) 0 1 in
      let hyst' := if negb (send =? 0) && (mode my =? 1) then (val * cval my / 100)%float else hyst my in
      let my := mkMy (mode my) (cval my) hyst' last' in
      if send =? 0 then (None, [pfl], my) else (Some pfl, [], my)
  | None => (Some pfl, [], my)
  end.
End Dbnd.

(** ** The synchronise filter *)

Module Sync.
Inductive syncMode := syncModeBefore | syncModeFirst | syncModeLast | syncModeAfter | syncModeWhile | syncModeUnless.

Record myStruct := mkMy { mode : syncMode; lastfl : option event_log; laststate : bool }.

Definition delete_log (p : option event_log) : list event_log := match p with Some l => [l] | None => [] end.

(** The log to pass, what remains of [my->lastfl] and of [pfl]. *)
Definition choose (my : myStruct) (actstate : bool) (pfl : event_log) : option event_log * option event_log * option event_log :=
  match mode my with
  | syncModeBefore => if actstate && negb (laststate my) then (lastfl my, None, Some pfl) else (None, lastfl my, Some pfl)
  | syncModeFirst => if actstate && negb (laststate my) then (Some pfl, lastfl my, None) else (None, lastfl my, Some pfl)
  | syncModeLast => if negb actstate && laststate my then (lastfl my, None, Some pfl) else (None, lastfl my, Some pfl)
  | syncModeAfter => if negb actstate && laststate my then (Some pfl, lastfl my, None) else (None, lastfl my, Some pfl)
  | syncModeWhile => (if actstate then Some pfl else None, lastfl my, Some pfl)
  | syncModeUnless => (if actstate then None else Some pfl, lastfl my, Some pfl)
  end.

(** The modes that do not keep a log. *)
Definition no_shift (m : syncMode) : bool := match m with syncModeWhile | syncModeUnless => true | _ => false end.

(** [actstate] is [dbStateGet(my->id)]. *)
Definition filter (my : myStruct) (actstate : bool) (pfl : event_log) : verdict myStruct :=
  match ctx pfl with
  | context_read => (Some pfl, [], my)
  | context_event =>
      let '(passfl, lastfl', pfl') := choose my actstate pfl in
      if no_shift (mode my) then (passfl, [], my)
      else (passfl, delete_log lastfl', mkMy (mode my) pfl' actstate)
  end.

Definition freePvt (my : myStruct) : list event_log := delete_log (lastfl my).
End Sync.

(** ** The chain of filters of a channel *)

(** The states of [dbState.c], as [dbStateGet] returns them. *)
Definition states := nat -> bool.

(** A filter of a channel: the function it has registered for the chain before the event queue, and what the argument
    [pre_arg] points to, which the function may change. *)
Record chFilter := mkFilter { pvt : Type; pre_func : states -> pvt -> event_log -> verdict pvt; pre_arg : pvt }.

(** The two filters as [channelRegisterPre] registers them. *)
Definition dbnd_filter (my : Dbnd.myStruct) : chFilter := mkFilter Dbnd.myStruct (fun _ => Dbnd.filter) my.
Definition sync_filter (id : nat) (my : Sync.myStruct) : chFilter :=
  mkFilter Sync.myStruct (fun st my => Sync.filter my (st id)) my.

Fixpoint dbChannelRunPreChain (chain : list chFilter) (st : states) (pLog : option event_log) : verdict (list chFilter) :=
  match chain, pLog with
  | f :: chain, Some l =>
      let '(out, deleted, my) := pre_func f st (pre_arg f) l in
      let '(out, deleted', chain) := dbChannelRunPreChain chain st out in
      (out, deleted ++ deleted', mkFilter (pvt f) (pre_func f) my :: chain)
  | _, _ => (pLog, [], chain)
  end.

(** Update after update: what comes out of the chain at each, and all the logs deleted. *)
Fixpoint run_chain (chain : list chFilter) (updates : list (states * event_log)) : list (option event_log) * list event_log * list chFilter :=
  match updates with
  | [] => ([], [], chain)
  | (st, l) :: updates =>
      let '(out, deleted, chain) := dbChannelRunPreChain chain st (Some l) in
      let '(outs, deleted', chain) := run_chain chain updates in
      (out :: outs, deleted ++ deleted', chain)
  end.

(** ** The chain as a composition *)

(** What one filter alone makes of a stream, in which some updates may be missing. *)
Fixpoint filter_stream (f : chFilter) (updates : list (states * option event_log)) : list (states * option event_log) :=
  match updates with
  | [] => []
  | (st, None) :: updates => (st, None) :: filter_stream f updates
  | (st, Some l) :: updates =>
      let '(out, _, my) := pre_func f st (pre_arg f) l in
      (st, out) :: filter_stream (mkFilter (pvt f) (pre_func f) my) updates
  end.

(** The filters one after the other, each on the whole stream that the one before has made. *)
Definition composed (chain : list chFilter) (updates : list (states * option event_log)) : list (states * option event_log) :=
  fold_left (fun updates f => filter_stream f updates) chain updates.

Lemma composed_cons chain : forall st p updates,
  let '(out, _, chain') := dbChannelRunPreChain chain st p in
  composed chain ((st, p) :: updates) = (st, out) :: composed chain' updates.
Proof.
  unfold composed. induction chain as [|f chain IH]; intros st p updates; [done|]. destruct p as [l|]; cbn [dbChannelRunPreChain fold_left filter_stream].
  - destruct (pre_func f st (pre_arg f) l) as [[out d] my]. specialize (IH st out (filter_stream (mkFilter (pvt f) (pre_func f) my) updates)).
    by destruct (dbChannelRunPreChain chain st out) as [[out' d'] chain'].
  - specialize (IH st None (filter_stream f updates)). revert IH. by destruct chain.
Qed.

Lemma run_chain_composed updates : forall chain,
  let '(outs, _, _) := run_chain chain updates in
  composed chain (map (fun '(st, l) => (st, Some l)) updates) = zip (map fst updates) outs.
Proof.
  induction updates as [|[st l] updates IH]; intros chain; cbn [run_chain map].
  - unfold composed. induction chain as [|f chain IH]; [done|exact IH].
  - pose proof (composed_cons chain st (Some l) (map (fun '(st, l) => (st, Some l)) updates)) as C.
    destruct (dbChannelRunPreChain chain st (Some l)) as [[out d] chain1]. specialize (IH chain1).
    destruct (run_chain chain1 updates) as [[outs d'] chain2]. rewrite C, IH. done.
Qed.

(** ** Ownership *)

(** A filter that releases the logs it does not pass, and the logs it holds. *)
Inductive owner : chFilter -> list event_log -> Prop :=
| owner_dbnd my : owner (dbnd_filter my) []
| owner_sync id my : Sync.no_shift (Sync.mode my) = false -> owner (sync_filter id my) (Sync.freePvt my).

Lemma sync_filter_owns my act l : Sync.no_shift (Sync.mode my) = false ->
  let '(out, deleted, my') := Sync.filter my act l in
  Sync.mode my' = Sync.mode my /\ option_list out ++ deleted ++ Sync.freePvt my' ≡ₚ l :: Sync.freePvt my.
Proof.
  destruct my as [m p q]. unfold Sync.filter, Sync.freePvt. cbn [Sync.mode Sync.lastfl]. intros Ns. destruct (ctx l); [done|].
  rewrite Ns. destruct m; try done; unfold Sync.choose; cbn [Sync.mode Sync.lastfl Sync.laststate];
    destruct act, q, p as [k|]; cbn; (split; [done|solve_Permutation]).
Qed.

Lemma dbnd_filter_owns my l : let '(out, deleted, _) := Dbnd.filter my l in option_list out ++ deleted = [l].
Proof. unfold Dbnd.filter. destruct (scalar l); [|done]. destruct (recGblCheckDeadband _ _ _ _ _) as [x send]. by destruct (send =? 0). Qed.

Lemma owner_step f held st l : owner f held ->
  let '(out, deleted, my) := pre_func f st (pre_arg f) l in
  exists held', owner (mkFilter (pvt f) (pre_func f) my) held' /\ option_list out ++ deleted ++ held' ≡ₚ l :: held.
Proof.
  intros [my|id my Ns]; cbn [pre_func pre_arg pvt dbnd_filter sync_filter].
  - pose proof (dbnd_filter_owns my l) as O. destruct (Dbnd.filter my l) as [[out d] my']. exists []. split; [constructor|].
    by rewrite app_nil_r, O.
  - pose proof (sync_filter_owns my (st id) l Ns) as O. destruct (Sync.filter my (st id) l) as [[out d] my']. destruct O as [M O].
    exists (Sync.freePvt my'). split; [constructor; by rewrite M|done].
Qed.

Lemma chain_owns chain : forall helds st p, Forall2 owner chain helds ->
  let '(out, deleted, chain') := dbChannelRunPreChain chain st p in
  exists helds', Forall2 owner chain' helds' /\ option_list out ++ deleted ++ concat helds' ≡ₚ option_list p ++ concat helds.
Proof.
  induction chain as [|f chain IH]; intros helds st p O; inversion O as [|? h ? helds0 Of Oc]; subst; cbn [dbChannelRunPreChain].
  - exists []. by destruct p.
  - destruct p as [l|]; [|by exists (h :: helds0)]. pose proof (owner_step f h st l Of) as S.
    destruct (pre_func f st (pre_arg f) l) as [[out d] my]. destruct S as (h' & Of' & P).
    specialize (IH helds0 st out Oc). destruct (dbChannelRunPreChain chain st out) as [[out' d'] chain'].
    destruct IH as (helds' & Oc' & P'). exists (h' :: helds'). split; [by constructor|]. cbn [concat option_list option_rect app].
    transitivity (d ++ h' ++ option_list out' ++ d' ++ concat helds'); [solve_Permutation|]. rewrite P'.
    transitivity ((option_list out ++ d ++ h') ++ concat helds0); [solve_Permutation|]. by rewrite P.
Qed.

Lemma run_chain_owns updates : forall chain helds, Forall2 owner chain helds ->
  let '(outs, deleted, chain') := run_chain chain updates in
  exists helds', Forall2 owner chain' helds' /\ omap id outs ++ deleted ++ concat helds' ≡ₚ map snd updates ++ concat helds.
Proof.
  induction updates as [|[st l] updates IH]; intros chain helds O; cbn [run_chain]; [by exists helds|].
  pose proof (chain_owns chain helds st (Some l) O) as S. destruct (dbChannelRunPreChain chain st (Some l)) as [[out d] chain1].
  destruct S as (h1 & O1 & P1). specialize (IH chain1 h1 O1). destruct (run_chain chain1 updates) as [[outs d'] chain2].
  destruct IH as (h2 & O2 & P2). exists h2. split; [done|]. cbn [map snd].
  assert (omap id (out :: outs) = option_list out ++ omap id outs) as -> by (by destruct out).
  transitivity (option_list out ++ d ++ omap id outs ++ d' ++ concat h2); [solve_Permutation|]. rewrite P2.
  transitivity (map snd updates ++ option_list out ++ d ++ concat h1); [solve_Permutation|]. rewrite P1.
  cbn [option_list option_rect app]. solve_Permutation.
Qed.

(** (C33) The chain of filters of a channel is the composition of its filters, in their order.  Whatever functions the filters have
    registered, after any sequence of updates and of values of the states, what has come out of the chain at each update is what the last filter makes of
    the stream that the filter before it makes, and so on back to the updates: each filter is called once for every update that the
    filters before it have passed, with the state its previous calls have left, and for no other.  When the filters are deadband filters and
    synchronise filters of the modes before, first, last and after, no log is lost and none is released twice: every log
    has come out of the chain, or has been deleted, or is held by one filter. *)
Theorem filter_chain_composes (chain : list chFilter) (updates : list (states * event_log)) :
  let '(outs, deleted, chain') := run_chain chain updates in
  zip (map fst updates) outs = composed chain (map (fun '(st, l) => (st, Some l)) updates) /\
  forall helds, Forall2 owner chain helds ->
    exists helds', Forall2 owner chain' helds' /\ omap id outs ++ deleted ++ concat helds' ≡ₚ map snd updates ++ concat helds.
Proof.
  pose proof (run_chain_composed updates chain) as C. pose proof (run_chain_owns updates chain) as O.
  destruct (run_chain chain updates) as [[outs d] chain']. by split.
Qed.

(** An update at which the states have the value [b], of a record with the value [v]. *)
Definition update (b : bool) (i : nat) (v : float) : states * event_log := (fun _ => b, mkEvent i context_event (Some v)).

(** The deadband after the synchronisation: updates 1, 3 and 5 come when the state becomes true, and 3 is within the deadband of 1. *)
Lemma filter_chain_composes_witness :
  let chain := [sync_filter 0 (Sync.mkMy Sync.syncModeFirst None false); dbnd_filter (Dbnd.parse_ok (Dbnd.mkMy 0 3.5 0 0))] in
  let updates := [update false 0 1; update true 1 2; update false 2 4; update true 3 5; update false 4 6; update true 5 9] in
  let '(outs, deleted, chain') := run_chain chain updates in
  map (option_map log_id) outs = [None; Some 1; None; None; None; Some 5]%nat /\ map log_id deleted = [0; 2; 3; 4]%nat /\
  zip (map fst updates) outs = composed chain (map (fun '(st, l) => (st, Some l)) updates) /\
  exists helds', Forall2 owner chain' helds' /\ omap id outs ++ deleted ++ concat helds' ≡ₚ map snd updates ++ [].
Proof.
  intros chain updates. pose proof (filter_chain_composes chain updates) as H.
  assert (O : Forall2 owner chain [[]; []]) by (constructor; [by apply (owner_sync 0 (Sync.mkMy Sync.syncModeFirst None false))|constructor; constructor]).
  destruct (run_chain chain updates) as [[outs deleted] chain'] eqn:R. destruct H as [C W]. split_and!.
  - replace outs with (run_chain chain updates).1.1 by (by rewrite R). vm_compute. reflexivity.
  - replace deleted with (run_chain chain updates).1.2 by (by rewrite R). vm_compute. reflexivity.
  - exact C.
  - exact (W [[]; []] O).
Defined.

(** In the other two modes a log that is not passed is neither deleted nor kept. *)
Example sync_leaks l :
  ctx l = context_event ->
  Sync.filter (Sync.mkMy Sync.syncModeWhile None false) false l = (None, [], Sync.mkMy Sync.syncModeWhile None false).
Proof. intros E. unfold Sync.filter. by rewrite E. Qed.

(** ** The stream of the synchronise filter *)

Definition rising (prev act : bool) : bool := act && negb prev.
Definition falling (prev act : bool) : bool := negb act && prev.

(** What is passed at an update, given the state and the log of the update before. *)
Definition sync_spec (m : Sync.syncMode) (prev : option (bool * event_log)) (now : bool * event_log) : option event_log :=
  let prev_state := match prev with Some p => fst p | None => false end in
  match m with
  | Sync.syncModeBefore => if rising prev_state (fst now) then snd <$> prev else None
  | Sync.syncModeFirst => if rising prev_state (fst now) then Some (snd now) else None
  | Sync.syncModeLast => if falling prev_state (fst now) then snd <$> prev else None
  | Sync.syncModeAfter => if falling prev_state (fst now) then Some (snd now) else None
  | Sync.syncModeWhile => if fst now then Some (snd now) else None
  | Sync.syncModeUnless => if fst now then None else Some (snd now)
  end.

Fixpoint sync_stream (my : Sync.myStruct) (updates : list (bool * event_log)) : list (option event_log) :=
  match updates with
  | [] => []
  | (act, l) :: updates => let '(out, _, my) := Sync.filter my act l in out :: sync_stream my updates
  end.

(** Every update with the one before. *)
Definition with_previous {A} (xs : list A) : list (option A * A) := zip (None :: map Some xs) xs.

(** What the filter remembers of the update before; a log that was passed is not kept. *)
Definition remembers (my : Sync.myStruct) (prev : option (bool * event_log)) : Prop :=
  Sync.laststate my = match prev with Some p => fst p | None => false end /\
  match Sync.mode my with
  | Sync.syncModeBefore | Sync.syncModeLast => Sync.lastfl my = snd <$> prev
  | _ => True
  end.

Lemma sync_filter_step my prev act l :
  ctx l = context_event -> (Sync.no_shift (Sync.mode my) = false -> remembers my prev) ->
  let '(out, _, my') := Sync.filter my act l in
  out = sync_spec (Sync.mode my) prev (act, l) /\ Sync.mode my' = Sync.mode my /\
  (Sync.no_shift (Sync.mode my') = false -> remembers my' (Some (act, l))).
Proof.
  intros C R. unfold Sync.filter. rewrite C. destruct my as [m lf ls]. unfold remembers in R. cbn [Sync.mode Sync.laststate Sync.lastfl] in R.
  destruct m; cbn [Sync.no_shift] in R; unfold Sync.choose, sync_spec, rising, falling, remembers; cbn [Sync.mode Sync.laststate Sync.lastfl Sync.no_shift fst snd];
    try (destruct (R eq_refl) as [-> Q]; rewrite ?Q); destruct act, prev as [[[] k]|]; done.
Qed.

Lemma sync_stream_spec updates : forall my prev,
  Forall (fun u => ctx (snd u) = context_event) updates ->
  (Sync.no_shift (Sync.mode my) = false -> remembers my prev) ->
  sync_stream my updates = map (fun '(p, u) => sync_spec (Sync.mode my) p u) (zip (prev :: map Some updates) updates).
Proof.
  induction updates as [|[act l] updates IH]; intros my prev F R; [done|]. apply Forall_cons_1 in F as [C F].
  pose proof (sync_filter_step my prev act l C R) as S. cbn [sync_stream map zip_with zip].
  destruct (Sync.filter my act l) as [[out d] my']. destruct S as (-> & M & R'). f_equal.
  rewrite (IH my' (Some (act, l)) F R'), M. done.
Qed.

(** (C34) What a subscriber of a channel with a synchronise filter sees, for every sequence of updates and states: with [before] the
    update before the one at which the state is found to have become true, with [first] that update itself; with [last] the update before
    the one at which the state is found to have become false, with [after] that update itself; with
    [while] and [unless] every update at which the state is true (false); the state counts as false before the first
    update.  Reads pass unchanged and leave no trace.  This is what the code does; for [first] the documentation
    ([filters.dbd.pod], line 215) says that the update is the one after the state has changed from true to false. *)
Theorem sync_passes m updates :
  Forall (fun u => ctx (snd u) = context_event) updates ->
  sync_stream (Sync.mkMy m None false) updates = map (fun '(p, u) => sync_spec m p u) (with_previous updates) /\
  forall my act l, ctx l = context_read -> Sync.filter my act l = (Some l, [], my).
Proof.
  intros F. split.
  - apply (sync_stream_spec updates (Sync.mkMy m None false) None F). by destruct m.
  - intros my act l C. unfold Sync.filter. by rewrite C.
Qed.

Definition ev (i : nat) : event_log := mkEvent i context_event None.

Lemma sync_passes_witness :
  sync_stream (Sync.mkMy Sync.syncModeBefore None false) [(false, ev 0); (false, ev 1); (true, ev 2); (true, ev 3); (false, ev 4)] =
    [None; None; Some (ev 1); None; None] /\
  sync_stream (Sync.mkMy Sync.syncModeAfter None false) [(false, ev 0); (true, ev 1); (true, ev 2); (false, ev 3); (false, ev 4)] =
    [None; None; None; Some (ev 3); None].
Proof.
  split.
  - apply (sync_passes Sync.syncModeBefore [(false, ev 0); (false, ev 1); (true, ev 2); (true, ev 3); (false, ev 4)]). repeat constructor.
  - apply (sync_passes Sync.syncModeAfter [(false, ev 0); (true, ev 1); (true, ev 2); (false, ev 3); (false, ev 4)]). repeat constructor.
Defined.

(** ** The stream of the deadband filter *)

Fixpoint dbnd_stream (my : Dbnd.myStruct) (logs : list event_log) : list event_log :=
  match logs with
  | [] => []
  | l :: logs => let '(out, _, my) := Dbnd.filter my l in option_list out ++ dbnd_stream my logs
  end.

(** The values of the scalars among the logs. *)
Definition values (logs : list event_log) : list float := omap scalar logs.
Definition others (logs : list event_log) : list event_log := List.filter (fun l => match scalar l with None => true | _ => false end) logs.

Lemma send_mask old v d m : snd (recGblCheckDeadband old v d 0 m) = if (d <? delta old v)%float then m else 0.
Proof. unfold recGblCheckDeadband. by destruct (d <? delta old v)%float. Qed.

Lemma values_cons l logs : values (l :: logs) = option_list (scalar l) ++ values logs.
Proof. unfold values. simpl. by destruct (scalar l). Qed.

Lemma others_cons l logs : others (l :: logs) = match scalar l with None => [l] | Some _ => [] end ++ others logs.
Proof. unfold others. simpl. by destruct (scalar l). Qed.

Lemma dbnd_stream_spec logs : forall d last,
  let my := Dbnd.mkMy 0 d d last in
  dbnd_stream my logs `sublist_of` logs /\ values (dbnd_stream my logs) = monitored d last (values logs) /\
  others (dbnd_stream my logs) = others logs.
Proof.
  induction logs as [|l logs IH]; intros d last my; [done|]. cbn [dbnd_stream]. unfold Dbnd.filter. subst my.
  cbn [Dbnd.last Dbnd.hyst Dbnd.mode Dbnd.cval]. change (0 =? 1) with false. rewrite values_cons, others_cons.
  destruct (scalar l) as [v|] eqn:V; cbn [option_list option_rect app].
  - rewrite monitored_cons. unfold recGblCheckDeadband. destruct (d <? delta last v)%float; rewrite andb_false_r.
    + change (Z.lor 0 1 =? 0) with false. cbn [option_list option_rect app].
      destruct (IH d v) as (S & E & O). split; [by apply sublist_skip|]. by rewrite values_cons, others_cons, V, E, O.
    + destruct (IH d last) as (S & E & O). split; [by apply sublist_cons|]. done.
  - destruct (IH d last) as (S & E & O). split; [by apply sublist_skip|]. by rewrite values_cons, others_cons, V, E, O.
Qed.

Lemma values_app a b : values (a ++ b) = values a ++ values b.
Proof. apply omap_app. Qed.

(** (C35) With an absolute deadband [d] (finite, at least 0) the deadband filter passes a subsequence of the updates, all those that are not
    scalars among them, and after every scalar update the subscriber's last value is the same or within the deadband (NaN, infinities
    and overflow included); the first number is passed. *)
Theorem dbnd_absolute d logs l v :
  finite d = true -> (0 <=? d)%float = true -> scalar l = Some v ->
  let my := Dbnd.parse_ok (Dbnd.mkMy 0 d 0 0) in
  let sent := dbnd_stream my (logs ++ [l]) in
  sent `sublist_of` logs ++ [l] /\ others sent = others (logs ++ [l]) /\
  tracks d (List.last (values sent) nan) v /\
  (logs = [] -> isnan v = false -> sent = [l]).
Proof.
  intros F P V my sent. destruct (dbnd_stream_spec (logs ++ [l]) d nan) as (S & E & O).
  change (Dbnd.mkMy 0 d d nan) with my in *. fold sent in S, E, O. split; [done|]. split; [done|].
  assert (Ev : values (logs ++ [l]) = values logs ++ [v]) by (rewrite values_app, values_cons, V; done).
  split.
  - rewrite E, Ev, monitored_snoc. destruct (d <? delta _ v)%float eqn:L.
    + rewrite List.last_last. by left.
    + rewrite app_nil_r. by apply deadband_iff.
  - intros -> N. subst sent. cbn [app dbnd_stream]. unfold Dbnd.filter. rewrite V. unfold recGblCheckDeadband.
    cbn [my Dbnd.parse_ok Dbnd.last Dbnd.hyst Dbnd.cval Dbnd.mode].
    destruct (d <? delta nan v)%float eqn:L; [done|]. apply deadband_iff in L; [|done|done].
    destruct L as [<-|(Fn & _)]; done.
Qed.

Definition scalar_log (i : nat) (v : float) : event_log := mkEvent i context_event (Some v).

Lemma dbnd_absolute_witness :
  let logs := [scalar_log 0 1; scalar_log 1 2; mkEvent 2 context_event None; scalar_log 3 3] in
  let sent := dbnd_stream (Dbnd.parse_ok (Dbnd.mkMy 0 1.5 0 0)) (logs ++ [scalar_log 4 4]) in
  map log_id sent = [0; 2; 3]%nat /\ tracks 1.5 (List.last (values sent) nan) 4.
Proof.
  intros logs sent. split; [vm_compute; reflexivity|].
  exact (proj1 (proj2 (proj2 (dbnd_absolute 1.5 logs (scalar_log 4 4) 4 eq_refl eq_refl eq_refl)))).
Defined.

(** A relative deadband of 10 percent: of a value that does not change nothing is passed while it is positive, everything while it is
    negative, for the deadband is negative too. *)
Example dbnd_relative_negative :
  map log_id (dbnd_stream (Dbnd.parse_ok (Dbnd.mkMy 1 10 0 0)) (map (fun i => scalar_log i 100) (seq 0 4))) = [0]%nat /\
  map log_id (dbnd_stream (Dbnd.parse_ok (Dbnd.mkMy 1 10 0 0)) (map (fun i => scalar_log i (-100)) (seq 0 4))) = [0; 1; 2; 3]%nat.
Proof. vm_compute. split; reflexivity. Qed.
