(* ===== verification/MacLib.v ===== *)
(** * Macro substitution ([modules/libcom/src/macLib/macCore.c])

    Strings with references [$(NAME)], [${NAME=default}] or [$(NAME,A=x,B=y)] to macros, which may contain
    references themselves.  A string is a list of characters without the terminating NUL, a pointer into it an index;
    an output buffer is memory with an index and a limit, and a write outside of it is a fault.  Memory
    allocation does not fail. *)

From stdpp Require Import base numbers list option strings.
From Stdlib Require Import ZArith Lia Bool.
From S2P Require Import Prelude CStdlib EpicsString.

(** ** Data *)

Definition MAC_SIZE : nat := 256.

(** [rawval] and [value] are NULL for the marker of a scope; [value] is a buffer of [MAC_SIZE + 1] bytes.  The list is the
    sequence of entries of the [ELLLIST]; [mid] is the address of an entry. *)
Record MAC_ENTRY := mkMacro {
  mid : nat; name : list Z; env_var : bool; rawval : option (list Z); value : option (list Z); mlength : nat;
  error : bool; visited : bool; special : bool; elevel : nat }.

Record MAC_HANDLE := mkHandle {
  dirty : bool; level : nat; entries : list MAC_ENTRY; suppress : bool; use_env : bool; next_mid : nat }.

Inductive mac_fault := mac_overflow | mac_null | mac_fuel.
Notation mac A := (mac_fault + A)%type.

(** The state of a translation: the handle, the output buffer and the position in it, the error flag of the entry, the position in
    the input. *)
Record trans_state := mkTrans { handle : MAC_HANDLE; mem : list Z; v : nat; err : bool; r : nat }.

Definition set_handle (st : trans_state) (h : MAC_HANDLE) : trans_state := mkTrans h (mem st) (v st) (err st) (r st).
Definition set_r (st : trans_state) (i : nat) : trans_state := mkTrans (handle st) (mem st) (v st) (err st) i.
Definition set_err (st : trans_state) (b : bool) : trans_state := mkTrans (handle st) (mem st) (v st) b (r st).
Definition set_out (st : trans_state) (m : list Z) (i : nat) : trans_state := mkTrans (handle st) m i (err st) (r st).

Definition set_dirty (h : MAC_HANDLE) (b : bool) : MAC_HANDLE := mkHandle b (level h) (entries h) (suppress h) (use_env h) (next_mid h).
Definition set_level (h : MAC_HANDLE) (n : nat) : MAC_HANDLE := mkHandle (dirty h) n (entries h) (suppress h) (use_env h) (next_mid h).
Definition set_suppress (h : MAC_HANDLE) (b : bool) : MAC_HANDLE := mkHandle (dirty h) (level h) (entries h) b (use_env h) (next_mid h).
Definition set_entries (h : MAC_HANDLE) (l : list MAC_ENTRY) : MAC_HANDLE := mkHandle (dirty h) (level h) l (suppress h) (use_env h) (next_mid h).

(** Assignments to the fields of an entry. *)
Definition with_entry (h : MAC_HANDLE) (x : nat) (f : MAC_ENTRY -> MAC_ENTRY) : MAC_HANDLE :=
  set_entries h (map (fun e => if decide (mid e = x) then f e else e) (entries h)).
Definition set_visited (b : bool) (e : MAC_ENTRY) : MAC_ENTRY :=
  mkMacro (mid e) (name e) (env_var e) (rawval e) (value e) (mlength e) (error e) b (special e) (elevel e).
Definition set_env_var (e : MAC_ENTRY) : MAC_ENTRY :=
  mkMacro (mid e) (name e) true (rawval e) (value e) (mlength e) (error e) (visited e) (special e) (elevel e).
Definition set_rawval (s : list Z) (e : MAC_ENTRY) : MAC_ENTRY :=
  mkMacro (mid e) (name e) (env_var e) (Some s) (value e) (mlength e) (error e) (visited e) (special e) (elevel e).
Definition set_value (m : list Z) (n : nat) (er : bool) (e : MAC_ENTRY) : MAC_ENTRY :=
  mkMacro (mid e) (name e) (env_var e) (rawval e) (Some m) n er (visited e) (special e) (elevel e).

(** Characters *)
Definition DQUOTE : Z := 34.
Definition DOLLAR : Z := 36.
Definition SQUOTE : Z := 39.
Definition LPAREN : Z := 40.
Definition RPAREN : Z := 41.
Definition COMMA : Z := 44.
Definition EQUALS : Z := 61.
Definition BACKSLASH : Z := 92.
Definition LBRACE : Z := 123.
Definition RBRACE : Z := 125.

(** [s[i]], NUL at the end. *)
Definition char_at (s : list Z) (i : nat) : Z := nth i s 0.

(** [*r]; a pointer behind the NUL must not be read.  Where the code looks one character further, [*r] is not NUL. *)
Definition peek (s : list Z) (i : nat) : mac Z := if decide (i <= length s)%nat then inr (char_at s i) else inl mac_overflow.

(** [strchr(term, c) != NULL] *)
Definition in_term (term : list Z) (c : Z) : bool := (c =? 0) || existsb (Z.eqb c) term.

(** ** Output *)

Definition poke (m : list Z) (i : nat) (c : Z) : mac (list Z) :=
  if decide (i < length m)%nat then inr (<[i := c]> m) else inl mac_overflow.

(** [if (v < valend) *v++ = c] *)
Definition put_char (st : trans_state) (valend : nat) (c : Z) : mac trans_state :=
  if (v st <? valend)%nat then let* m := poke (mem st) (v st) c in inr (set_out st m (S (v st))) else inr st.

(** [*v = '\0'] *)
Definition end_value (st : trans_state) : mac trans_state :=
  let* m := poke (mem st) (v st) 0 in inr (set_out st m (v st)).

Fixpoint cpy_loop (src : list Z) (st : trans_state) (valend : nat) : mac trans_state :=
  match src with
  | [] => inr st
  | c :: src =>
      if (v st <? valend)%nat && negb (c =? 0) then let* st := put_char st valend c in cpy_loop src st valend else inr st
  end.

(** [cpy2val]; the NUL that ends the loop is the one that is written after it. *)
Definition cpy2val (src : list Z) (st : trans_state) (valend : nat) : mac trans_state :=
  let* st := cpy_loop src st valend in end_value st.

(** ** Entries *)

Definition create (h : MAC_HANDLE) (nm : list Z) (sp : bool) : nat * MAC_HANDLE :=
  (next_mid h, mkHandle (dirty h) (level h) (entries h ++ [mkMacro (next_mid h) nm false None None 0 false false sp (level h)])
                 (suppress h) (use_env h) (S (next_mid h))).

Definition put_rawval (h : MAC_HANDLE) (x : nat) (s : list Z) : MAC_HANDLE := set_dirty (with_entry h x (set_rawval s)) true.

Definition delete (h : MAC_HANDLE) (x : nat) : MAC_HANDLE :=
  set_dirty (set_entries h (List.filter (fun e => negb (mid e =? x)%nat) (entries h))) true.

Definition entry_at (h : MAC_HANDLE) (x : nat) : mac MAC_ENTRY :=
  match List.find (fun e => (mid e =? x)%nat) (entries h) with Some e => inr e | None => inl mac_null end.

Section maclib.
(** The environment of the process. *)
Context (getenv : list Z -> option (list Z)).

(** The last entry with the name; variables of the environment become entries when they are looked up. *)
Definition lookup (h : MAC_HANDLE) (nm : list Z) (sp : bool) : option nat * MAC_HANDLE :=
  match List.find (fun e => Bool.eqb (special e) sp && bool_decide (name e = nm)) (rev (entries h)) with
  | Some e => (Some (mid e), h)
  | None =>
      if negb sp && use_env h then
        match getenv nm with
        | Some val => let '(x, h) := create h nm false in (Some x, put_rawval (with_entry h x set_env_var) x val)
        | None => (None, h)
        end
      else (None, h)
  end.

Definition scope_name : list Z := cs "<scope>".

Definition macPushScope (h : MAC_HANDLE) : MAC_HANDLE :=
  snd (create (set_level h (S (level h))) scope_name true).

(** The entries from [x] on are deleted. *)
Fixpoint delete_from (x : nat) (l : list MAC_ENTRY) (h : MAC_HANDLE) (found : bool) : MAC_HANDLE :=
  match l with
  | [] => h
  | e :: l =>
      if found || (mid e =? x)%nat then delete_from x l (delete h (mid e)) true else delete_from x l h false
  end.

Definition macPopScope (h : MAC_HANDLE) : Z * MAC_HANDLE :=
  if (level h =? 0)%nat then (-1, h)
  else
    match lookup h scope_name true with
    | (None, h) => (-1, h)
    | (Some x, h) => let h := delete_from x (entries h) h false in (0, set_level h (pred (level h)))
    end.

(** [macPutValue] with a value that is not NULL. *)
Definition macPutValue (h : MAC_HANDLE) (nm val : list Z) : mac (Z * MAC_HANDLE) :=
  let '(x, h) := lookup h nm false in
  match x with
  | Some x =>
      let* e := entry_at h x in
      let '(x, h) := if (elevel e <? level h)%nat then create h nm false else (x, h) in
      inr (zlen val, put_rawval h x val)
  | None => let '(x, h) := create h nm false in inr (zlen val, put_rawval h x val)
  end.

(** [macPutValue] with NULL: [n] bounds the number of entries with the name. *)
Fixpoint remove_value (n : nat) (h : MAC_HANDLE) (nm : list Z) : mac MAC_HANDLE :=
  match n with
  | O => inl mac_fuel
  | S n =>
      match lookup h nm false with
      | (None, h) => inr h
      | (Some x, h) =>
          let* e := entry_at h x in
          let h := delete h x in
          if env_var e then inr h else remove_value n h nm
      end
  end.

Definition macPutNull (h : MAC_HANDLE) (nm : list Z) : mac (Z * MAC_HANDLE) :=
  let* h := remove_value (S (S (length (entries h)))) h nm in inr (0, h).

(** ** Translation *)

(** At the end of the input, step back so that the terminator is still to be seen; the pointer before the first character is not
    used any more. *)
Definition step_back (s : list Z) (st : trans_state) : trans_state :=
  if char_at s (r st) =? 0 then set_r st (pred (r st)) else st.

(** A character that is not part of a reference. *)
Definition copy_char (s : list Z) (discard : bool) (valend : nat) (st : trans_state) : mac trans_state :=
  let c := char_at s (r st) in
  let* st :=
    if (c =? BACKSLASH) && negb (char_at s (S (r st)) =? 0) then
      let* st := if discard then inr st else put_char st valend BACKSLASH in
      if (v st <? valend)%nat then
        let* m := poke (mem st) (v st) (char_at s (S (r st))) in inr (mkTrans (handle st) m (S (v st)) (err st) (S (r st)))
      else inr st
    else put_char st valend c in
  if (v st <=? valend)%nat then end_value st else inr st.

(** The quote that is open after a character, and whether the character is skipped. *)
Definition quoting (discard : bool) (quote c : Z) : Z * bool :=
  if negb (quote =? 0) then (if c =? quote then (0, discard) else (quote, false))
  else if (c =? DQUOTE) || (c =? SQUOTE) then (c, discard) else (quote, false).

Definition is_macref (s : list Z) (i : nat) : bool :=
  (char_at s i =? DOLLAR) && ((char_at s (S i) =? LPAREN) || (char_at s (S i) =? LBRACE)).

Definition UNDEFINED : list Z := cs ",undefined)".
Definition RECURSIVE : list Z := cs ",recursive)".

Definition bad_reference (refname errval : list Z) (valend : nat) (st : trans_state) : mac trans_state :=
  let* st := put_char (set_err st true) valend DOLLAR in
  let* st := put_char st valend LPAREN in
  let* st := cpy2val refname st valend in
  if suppress (handle st) then let* st := put_char st valend RPAREN in end_value st
  else cpy2val errval st valend.

(** A stack buffer of [MAC_SIZE + 1] bytes, and the string in one. *)
Definition new_buffer : list Z := replicate (S MAC_SIZE) 0.
Definition buffer_string (m : list Z) : list Z := until_nul (<[MAC_SIZE := 0]> m).

Definition macEnd (c : Z) : list Z := if c =? LPAREN then [EQUALS; COMMA; RPAREN] else [EQUALS; COMMA; RBRACE].

(** [trans_loop] is the loop of [trans], without the step back at the end; [subs_loop] the loop over the scoped macros of a
    reference. *)
Fixpoint trans_loop (fuel : nat) (s : list Z) (lev : nat) (term : list Z) (valend : nat) (quote : Z) (st : trans_state) {struct fuel} : mac trans_state :=
  match fuel with
  | O => inl mac_fuel
  | S fuel =>
      let* c := peek s (r st) in
      if in_term term c then inr st
      else
        let discard := (0 <? lev)%nat in
        let '(quote, skip) := quoting discard quote c in
        if skip then trans_loop fuel s lev term valend quote (set_r st (S (r st)))
        else
          let* st :=
            if is_macref s (r st) && negb (quote =? SQUOTE) then refer fuel s lev valend st else copy_char s discard valend st in
          trans_loop fuel s lev term valend quote (set_r st (S (r st)))
  end

with refer (fuel : nat) (s : list Z) (lev : nat) (valend : nat) (st : trans_state) {struct fuel} : mac trans_state :=
  match fuel with
  | O => inl mac_fuel
  | S fuel =>
      let trans s term valend st := let* st := trans_loop fuel s (S lev) term valend 0 st in inr (step_back s st) in
      let term := macEnd (char_at s (S (r st))) in
      let* n := trans s term MAC_SIZE (mkTrans (handle st) new_buffer 0 (err st) (S (S (r st)))) in
      let refname := buffer_string (mem n) in
      let st := mkTrans (handle n) (mem st) (v st) (err n) (r n) in
      let* c := peek s (r st) in
      let* '(st, defval) :=
        if c =? EQUALS then
          let* d := trans s (tail term) (v st) (mkTrans (set_suppress (handle st) true) (mem st) (v st) false (S (r st))) in
          inr (mkTrans (set_suppress (handle d) (suppress (handle st))) (mem d) (v d) (err st) (r d), Some (S (r st)))
        else inr (st, None) in
      let* c := peek s (r st) in
      let* '(st, pop) :=
        if c =? COMMA then
          let* '(h, i) := subs_loop fuel s lev term (macPushScope (set_suppress (handle st) true)) (r st) in
          inr (mkTrans (set_suppress h (suppress (handle st))) (mem st) (v st) (err st) i, true)
        else inr (st, false) in
      let '(x, h) := lookup (handle st) refname false in
      let st := set_handle st h in
      let* st :=
        match x with
        | Some x =>
            let* e := entry_at h x in
            if visited e then bad_reference refname RECURSIVE valend st
            else if negb (dirty h) then
              match value e with
              | Some m => let* st := cpy2val (until_nul m) st valend in inr (set_err st (err st || error e))
              | None => inl mac_null
              end
            else
              match rawval e with
              | Some rv =>
                  let* t := trans rv [] valend (mkTrans (with_entry h x (set_visited true)) (mem st) (v st) (err st) 0) in
                  inr (mkTrans (with_entry (handle t) x (set_visited false)) (mem t) (v t) (err t) (r st))
              | None => inr st
              end
        | None =>
            match defval with
            | Some d => let* t := trans s (tail term) valend (set_r st d) in inr (set_r t (r st))
            | None => bad_reference refname UNDEFINED valend st
            end
        end in
      inr (if pop : bool then set_handle st (snd (macPopScope (handle st))) else st)
  end

with subs_loop (fuel : nat) (s : list Z) (lev : nat) (term : list Z) (h : MAC_HANDLE) (i : nat) {struct fuel} : mac (MAC_HANDLE * nat) :=
  match fuel with
  | O => inl mac_fuel
  | S fuel =>
      let trans s term valend st := let* st := trans_loop fuel s (S lev) term valend 0 st in inr (step_back s st) in
      let* c := peek s i in
      if c =? COMMA then
        let* n := trans s term MAC_SIZE (mkTrans h new_buffer 0 false (S i)) in
        let subname := buffer_string (mem n) in
        let* c := peek s (r n) in
        if c =? EQUALS then
          let* w := trans s (tail term) MAC_SIZE (mkTrans (handle n) new_buffer 0 (err n) (S (r n))) in
          let* '(_, h) := macPutValue (handle w) subname (buffer_string (mem w)) in
          subs_loop fuel s lev term (set_dirty h true) (r w)
        else subs_loop fuel s lev term (handle n) (r n)
      else inr (h, i)
  end.

Definition trans (fuel : nat) (s : list Z) (lev : nat) (term : list Z) (valend : nat) (st : trans_state) : mac trans_state :=
  let* st := trans_loop fuel s lev term valend 0 st in inr (step_back s st).

(** ** Expansion of the macros *)

Fixpoint next_entry (x : nat) (l : list MAC_ENTRY) : option nat :=
  match l with
  | e :: l => if (mid e =? x)%nat then mid <$> head l else next_entry x l
  | [] => None
  end.

(** The value of one entry. *)
Definition expand_entry (fuel : nat) (h : MAC_HANDLE) (x : nat) : mac MAC_HANDLE :=
  let* e := entry_at h x in
  let* m := poke (default new_buffer (value e)) 0 0 in
  let* st :=
    match rawval e with
    | Some rv => trans fuel rv 1 [] MAC_SIZE (mkTrans h m 0 false 0)
    | None => inr (mkTrans h m 0 false 0)
    end in
  let* m := poke (mem st) MAC_SIZE 0 in
  inr (with_entry (handle st) x (set_value m (v st) (err st))).

Fixpoint expand_loop (n fuel : nat) (h : MAC_HANDLE) (x : option nat) : mac MAC_HANDLE :=
  match n with
  | O => inl mac_fuel
  | S n =>
      match x with
      | None => inr h
      | Some x => let* h := expand_entry fuel h x in expand_loop n fuel h (next_entry x (entries h))
      end
  end.

Definition expand (fuel : nat) (h : MAC_HANDLE) : mac MAC_HANDLE :=
  if dirty h then let* h := expand_loop fuel fuel h (mid <$> head (entries h)) in inr (set_dirty h false) else inr h.

(** ** The library routines *)

Definition ENVIRON : list Z := cs "environ".

Fixpoint put_pairs (pairs : list (list Z * option (list Z))) (h : MAC_HANDLE) : mac MAC_HANDLE :=
  match pairs with
  | [] => inr h
  | (nm, val) :: pairs =>
      let* '(_, h) := match val with Some val => macPutValue h nm val | None => macPutNull h nm end in put_pairs pairs h
  end.

(** The pairs of the array, which ends with a whole pair whose name is NULL.  The test of [pairs[3]] reads the second pointer of the
    pair after the first one, which is taken to be NULL when that pair is the last: the arrays of the callers
    ([macEnv.c:30], [iocsh.cpp:524]) are written so, with four pointers. *)
Definition macCreateHandle (pairs : list (list Z * option (list Z))) : mac MAC_HANDLE :=
  let h := mkHandle false 0 [] false false 0 in
  match pairs with
  | ([], Some val) :: rest =>
      if bool_decide (val = ENVIRON) && match rest with (_, Some _) :: _ => false | _ => true end
      then inr (mkHandle false 0 [] false true 0) else put_pairs pairs h
  | _ => put_pairs pairs h
  end.

Definition macSuppressWarning (h : MAC_HANDLE) (sup : bool) : MAC_HANDLE := set_suppress h sup.

Definition macExpandString (fuel : nat) (h : MAC_HANDLE) (src dest : list Z) (capacity : nat) : mac (Z * list Z * MAC_HANDLE) :=
  if (capacity <=? 1)%nat then inr (-1, dest, h)
  else
    let* h := expand fuel h in
    let* d := poke dest 0 0 in
    let* st := trans fuel src 0 [] (capacity - 1) (mkTrans h d 0 false 0) in
    let length := Z.of_nat (v st) in
    inr (if err st then - length else length, mem st, handle st).

Definition strncpy (src : list Z) (n : nat) : list Z := take n (src ++ replicate n 0).

(** The name as the result. *)
Definition get_name (nm : list Z) (capacity : nat) : Z * list Z :=
  let val := strncpy nm capacity in
  (if char_at val (pred capacity) =? 0 then - zlen nm else - Z.of_nat capacity, val).

(** The second component of the result is [None] when [value] is not written. *)
Definition macGetValue (fuel : nat) (h : MAC_HANDLE) (nm : list Z) (capacity : nat) : mac (Z * option (list Z) * MAC_HANDLE) :=
  let '(x, h) := lookup h nm false in
  if (capacity <=? 1)%nat then inr (match x with None => -1 | Some _ => 0 end, None, h)
  else
    match x with
    | None => let '(n, val) := get_name nm capacity in inr (n, Some val, h)
    | Some x =>
        let* h := expand fuel h in
        let* e := entry_at h x in
        match value e with
        | None => inl mac_null
        | Some m =>
            let val := strncpy (until_nul m) capacity in
            let length := if char_at val (pred capacity) =? 0 then Z.of_nat (mlength e) else Z.of_nat capacity in
            inr (if error e then - length else length, Some val, h)
        end
    end.

Definition macDeleteHandle (h : MAC_HANDLE) : MAC_HANDLE :=
  fold_left (fun h e => delete h (mid e)) (entries h) h.
End maclib.
