(* ===== verification/MacScope.v ===== *)
(** * Macro handles: the invariant, scopes and the routines that change entries

    The entries of a handle form scopes: an entry has the level of the number of scope markers up to it, and the level of the handle
    is the number of markers.  [keeps h h']: [h'] has the entries of [h], unchanged, and after them only entries that
    the look up of environment variables made. *)

From stdpp Require Import base numbers list option gmap.
From Stdlib Require Import ZArith Lia Bool.
From S2P Require Import Prelude CStdlib EpicsString MacLib.
#[local] Open Scope nat_scope.

(** ** The invariant *)

Definition entry_ok (nxt : nat) (e : MAC_ENTRY) : Prop :=
  mid e < nxt /\ (special e = true -> name e = scope_name) /\ (special e = false -> is_Some (rawval e)) /\
  (forall m, value e = Some m -> length m = S MAC_SIZE /\ m !! MAC_SIZE = Some 0%Z).

Definition marks (e : MAC_ENTRY) : nat := if special e then 1 else 0.

Fixpoint nmarks (l : list MAC_ENTRY) : nat := match l with [] => 0 | e :: l => marks e + nmarks l end.

Fixpoint scoped (n : nat) (l : list MAC_ENTRY) : Prop :=
  match l with [] => True | e :: l => elevel e = n + marks e /\ scoped (n + marks e) l end.

Record mac_wf (h : MAC_HANDLE) : Prop := {
  wf_entries : Forall (entry_ok (next_mid h)) (entries h);
  wf_nodup : NoDup (map mid (entries h));
  wf_scoped : scoped 0 (entries h);
  wf_level : level h = nmarks (entries h);
  wf_clean : dirty h = false -> Forall (fun e => special e = false -> is_Some (value e)) (entries h) }.

Definition plain (e : MAC_ENTRY) : Prop := special e = false.

Definition keeps (h h' : MAC_HANDLE) : Prop :=
  mac_wf h' /\ level h' = level h /\ suppress h' = suppress h /\ use_env h' = use_env h /\ (dirty h = true -> dirty h' = true) /\
  exists l, entries h' = entries h ++ l /\ Forall plain l /\ (use_env h = false -> l = []).

Lemma keeps_wf h h' : keeps h h' -> mac_wf h'.
Proof. by intros []. Qed.

Lemma keeps_refl h : mac_wf h -> keeps h h.
Proof. intros. split; [done|]. repeat split; [done..|]. exists []. by rewrite app_nil_r. Qed.

Lemma keeps_trans a b c : keeps a b -> keeps b c -> keeps a c.
Proof.
  intros (_ & L & Su & U & D & l & E & P & N) (W' & L' & Su' & U' & D' & l' & E' & P' & N').
  split; [done|]. rewrite L', L, Su', Su, U', U. repeat split; [by eauto|].
  exists (l ++ l'). split; [by rewrite E', E, app_assoc|]. split; [by apply Forall_app|].
  intros e. rewrite N by done. rewrite N' by congruence. done.
Qed.

#[export] Hint Resolve keeps_refl keeps_wf : epics.

Lemma nmarks_app a b : nmarks (a ++ b) = nmarks a + nmarks b.
Proof. induction a; simpl; [done|]. rewrite IHa. lia. Qed.

Lemma scoped_app n a b : scoped n (a ++ b) <-> scoped n a /\ scoped (n + nmarks a) b.
Proof.
  revert n. induction a as [|e a IH]; intros n; simpl.
  - rewrite Nat.add_0_r. tauto.
  - rewrite IH, Nat.add_assoc. tauto.
Qed.

Lemma nmarks_plain l : Forall plain l -> nmarks l = 0.
Proof. induction 1 as [|e l P]; simpl; [done|]. unfold marks. by rewrite P. Qed.

Lemma entry_ok_mono n n' e : n <= n' -> entry_ok n e -> entry_ok n' e.
Proof. intros H (A & B). split; [lia|done]. Qed.

(** ** Assignments to one entry *)

(** What an assignment must preserve. *)
Definition same_entry (e e' : MAC_ENTRY) : Prop := mid e' = mid e /\ name e' = name e /\ special e' = special e /\ elevel e' = elevel e.

Lemma with_entry_map h x f : entries (with_entry h x f) = map (fun e => if decide (mid e = x) then f e else e) (entries h).
Proof. done. Qed.

Lemma map_absent (f : MAC_ENTRY -> MAC_ENTRY) l x : x ∉ map mid l -> map (fun e => if decide (mid e = x) then f e else e) l = l.
Proof.
  induction l as [|e l IH]; simpl; [done|]. rewrite not_elem_of_cons. intros (N & M). rewrite decide_False by done. by rewrite IH.
Qed.

Section assign.
Context (f : MAC_ENTRY -> MAC_ENTRY) (Same : forall e, same_entry e (f e)).

Lemma map_entry_mid l x : map mid (map (fun e => if decide (mid e = x) then f e else e) l) = map mid l.
Proof. induction l as [|e l IH]; simpl; [done|]. rewrite IH. destruct (decide _); [|done]. by rewrite (proj1 (Same e)). Qed.

Lemma map_entry_nmarks l x : nmarks (map (fun e => if decide (mid e = x) then f e else e) l) = nmarks l.
Proof.
  induction l as [|e l IH]; simpl; [done|]. rewrite IH. destruct (decide _); [|done]. unfold marks.
  destruct (Same e) as (_ & _ & -> & _). done.
Qed.

Lemma map_entry_scoped l x n : scoped n l -> scoped n (map (fun e => if decide (mid e = x) then f e else e) l).
Proof.
  revert n. induction l as [|e l IH]; intros n; simpl; [done|]. intros (A & B). destruct (decide _); [|by auto].
  unfold marks in *. destruct (Same e) as (_ & _ & -> & ->). auto.
Qed.

Lemma with_entry_wf h x :
  mac_wf h -> (forall e, mid e = x -> entry_ok (next_mid h) e -> entry_ok (next_mid h) (f e)) ->
  (forall e, mid e = x -> is_Some (value e) -> is_Some (value (f e))) -> mac_wf (with_entry h x f).
Proof.
  intros [W N Sc L C] Ok Val. split; cbn [with_entry set_entries entries next_mid dirty level].
  - apply Forall_map. eapply Forall_impl; [exact W|]. intros e O. simpl. destruct (decide _); auto.
  - by rewrite map_entry_mid.
  - by apply map_entry_scoped.
  - by rewrite map_entry_nmarks.
  - intros D. apply Forall_map. eapply Forall_impl; [exact (C D)|]. intros e V. simpl. destruct (decide _) as [E|]; [|done].
    destruct (Same e) as (_ & _ & -> & _). auto.
Qed.
End assign.

Lemma set_visited_wf h x b : mac_wf h -> mac_wf (with_entry h x (set_visited b)).
Proof. intros W. apply with_entry_wf; done. Qed.

Lemma put_rawval_wf h x s : mac_wf h -> mac_wf (put_rawval h x s).
Proof.
  intros W. assert (W' : mac_wf (with_entry h x (set_rawval s))).
  { apply with_entry_wf; [done|done| |done]. intros e _ (A & B & C & D). split_and!; simpl; eauto. }
  destruct W'. by split.
Qed.

Lemma set_suppress_wf h b : mac_wf h -> mac_wf (set_suppress h b).
Proof. intros []. by split. Qed.

Lemma set_dirty_wf h : mac_wf h -> mac_wf (set_dirty h true).
Proof. intros []. by split. Qed.

#[export] Hint Resolve set_visited_wf put_rawval_wf set_suppress_wf set_dirty_wf : epics.

Lemma mid_inj (l : list MAC_ENTRY) e e' : NoDup (map mid l) -> e ∈ l -> e' ∈ l -> mid e = mid e' -> e = e'.
Proof.
  induction l as [|a l IH]; intros N I I' E; [by apply not_elem_of_nil in I|]. simpl in N. apply NoDup_cons in N as (Na & Nl).
  assert (K : forall b, b ∈ l -> mid b ∈ map mid l) by (intros b Ib; by apply (list_elem_of_fmap_2 mid)).
  apply elem_of_cons in I as [->|I], I' as [->|I']; [done| | |by auto].
  - destruct Na. rewrite E. auto.
  - destruct Na. rewrite <- E. auto.
Qed.

(** Setting and clearing [visited] leaves the entry as it was. *)
Lemma visited_restored h h' x e :
  mac_wf h -> e ∈ entries h -> mid e = x -> visited e = false -> keeps (with_entry h x (set_visited true)) h' ->
  keeps h (with_entry h' x (set_visited false)).
Proof.
  intros W Ie Ex V (W' & L & Su & U & D & l & E & P & N).
  split; [by apply set_visited_wf|]. repeat split; [done..|]. exists l. split; [|done].
  rewrite with_entry_map, E, with_entry_map, map_app. f_equal.
  - rewrite map_map. rewrite <- (map_id (entries h)) at 2. apply map_ext_in. intros e' I'. simpl.
    destruct (decide (mid e' = x)) as [Ee'|]; [|by rewrite decide_False]. simpl. rewrite decide_True by done.
    assert (e' = e) as ->; [|by destruct e; simpl in *; rewrite V].
    apply (mid_inj (entries h)); [by apply W|by apply list_elem_of_In|done|congruence].
  - apply map_absent. destruct W' as [_ Nd _ _ _]. rewrite E, map_app in Nd. apply NoDup_app in Nd as (_ & Dj & _).
    apply Dj. rewrite with_entry_map, map_entry_mid by done. rewrite <- Ex. by apply (list_elem_of_fmap_2 mid).
Qed.

(** ** New entries *)

Definition new_entry (h : MAC_HANDLE) (nm : list Z) (sp : bool) : MAC_ENTRY :=
  mkMacro (next_mid h) nm false None None 0 false false sp (level h).

Lemma next_fresh h : mac_wf h -> next_mid h ∉ map mid (entries h).
Proof.
  intros [W _ _ _ _] I. apply (list_elem_of_fmap mid) in I as (e & E & I).
  rewrite Forall_forall in W. destruct (W e I) as [? _]. lia.
Qed.

(** [e] added at the end. *)
Lemma add_wf h h' e :
  mac_wf h -> entries h' = entries h ++ [e] -> next_mid h' = S (next_mid h) -> mid e = next_mid h -> entry_ok (S (next_mid h)) e ->
  elevel e = level h + marks e -> level h' = level h + marks e ->
  (dirty h' = false -> dirty h = false /\ special e = true) -> mac_wf h'.
Proof.
  intros W E N M Ok El L D. pose proof (next_fresh h W) as Fr. destruct W as [We Nd Sc Lv C]. split; rewrite E.
  - rewrite N. apply Forall_app. split; [|by constructor].
    eapply Forall_impl; [exact We|]. intros e' O. eapply entry_ok_mono; [|exact O]. lia.
  - rewrite map_app. apply NoDup_app. split_and!; [done| |apply NoDup_singleton].
    intros x I ->%list_elem_of_singleton. by rewrite M in I.
  - apply scoped_app. simpl. rewrite <- Lv. done.
  - rewrite nmarks_app, L, Lv. simpl. lia.
  - intros D'. destruct (D D') as [D1 Sp]. apply Forall_app. split; [by apply C|]. constructor; [by rewrite Sp|done].
Qed.

Lemma macPushScope_spec h :
  mac_wf h -> mac_wf (macPushScope h) /\ level (macPushScope h) = S (level h) /\ suppress (macPushScope h) = suppress h /\
  use_env (macPushScope h) = use_env h /\
  entries (macPushScope h) = entries h ++ [new_entry (set_level h (S (level h))) scope_name true].
Proof.
  intros W. split; [|done].
  eapply (add_wf h); [done|reflexivity|done|done| | | |]; unfold macPushScope, put_rawval, create, marks; simpl; [|lia|lia|done].
  repeat split; [cbn; lia|done..].
Qed.

(** A macro that is created and given its value: the last entry. *)
Lemma put_new_entries h nm s :
  mac_wf h -> entries (put_rawval (snd (create h nm false)) (next_mid h) s) = entries h ++ [set_rawval s (new_entry h nm false)].
Proof.
  intros W. unfold put_rawval, create. cbn -[decide]. rewrite map_app. simpl. rewrite decide_True by done.
  rewrite map_absent; [done|by apply next_fresh].
Qed.

Lemma put_new_wf h nm s : mac_wf h -> mac_wf (put_rawval (snd (create h nm false)) (next_mid h) s).
Proof.
  intros W. eapply (add_wf h); [done|by apply put_new_entries|done|done| | | |]; unfold macPushScope, put_rawval, create, marks; simpl; [|lia|lia|done].
  repeat split; [cbn; lia|done|by eexists|done..].
Qed.

Section lookup.
Context (getenv : list Z -> option (list Z)).

Definition is_entry (h : MAC_HANDLE) (nm : list Z) (sp : bool) (x : nat) (e : MAC_ENTRY) : Prop :=
  e ∈ entries h /\ mid e = x /\ special e = sp /\ name e = nm.

Lemma find_last (P : MAC_ENTRY -> bool) l e :
  List.find P (rev l) = Some e <-> exists a b, l = a ++ e :: b /\ P e = true /\ Forall (fun e => P e = false) b.
Proof.
  induction l as [|x l IH] using rev_ind; simpl.
  - split; [done|]. intros (a & b & E & _). by destruct a.
  - rewrite rev_app_distr. simpl. destruct (P x) eqn:Px.
    + split; [intros [= ->]; by exists l, []|]. intros (a & b & E & _ & F).
      destruct b as [|y b _] using rev_ind; [by apply app_inj_tail in E as [_ ->]|].
      rewrite app_comm_cons, app_assoc in E. apply app_inj_tail in E as [_ ->]. apply Forall_app in F as [_ F].
      apply Forall_cons in F as [F _]. congruence.
    + rewrite IH. split; intros (a & b & E & Pe & F).
      * exists a, (b ++ [x]). split; [by rewrite E, <- app_assoc|]. split; [done|]. apply Forall_app. split; [done|by constructor].
      * destruct b as [|y b _] using rev_ind; [apply app_inj_tail in E as [_ ->]; congruence|].
        rewrite app_comm_cons, app_assoc in E. apply app_inj_tail in E as [-> ->]. apply Forall_app in F as [F _]. eauto.
Qed.

Lemma lookup_found h nm sp e :
  List.find (fun e => Bool.eqb (special e) sp && bool_decide (name e = nm)) (rev (entries h)) = Some e ->
  is_entry h nm sp (mid e) e.
Proof.
  intros (a & b & E & P & _)%find_last. apply andb_true_iff in P as [P Q]. apply Bool.eqb_prop in P.
  apply bool_decide_eq_true in Q. repeat split; [|done..]. rewrite E. apply elem_of_app. right. left.
Qed.

(** The entry is one of the handle, which is the old one or has a new entry from the environment. *)
Lemma lookup_spec h nm sp :
  mac_wf h ->
  keeps h (snd (lookup getenv h nm sp)) /\
  (forall x, fst (lookup getenv h nm sp) = Some x ->
     exists e, is_entry (snd (lookup getenv h nm sp)) nm sp x e /\
       (snd (lookup getenv h nm sp) = h \/ env_var e = true)) /\
  (dirty (snd (lookup getenv h nm sp)) = false -> snd (lookup getenv h nm sp) = h) /\
  (sp = true -> snd (lookup getenv h nm sp) = h).
Proof.
  intros W. unfold lookup. destruct (List.find _ _) as [e|] eqn:F.
  { apply lookup_found in F. split; [by apply keeps_refl|]. split; [|done]. intros x [= <-]. exists e. split; [done|by left]. }
  destruct (_ && _) eqn:Se; [|by split; [apply keeps_refl|]]. apply andb_true_iff in Se as [Sp Ue].
  destruct (getenv nm) as [val|]; [|by split; [apply keeps_refl|]].
  replace (create h nm false) with (next_mid h, snd (create h nm false)) by done. cbv beta iota zeta. cbn [fst snd].
  set (h2 := put_rawval (with_entry (snd (create h nm false)) (next_mid h) set_env_var) (next_mid h) val) in *.
  assert (E2 : entries h2 = entries h ++ [set_env_var (set_rawval val (new_entry h nm false))]).
  { unfold h2, put_rawval, create. cbn -[decide]. rewrite !map_app. simpl. destruct (decide (next_mid h = next_mid h)) as [_|]; [|done]. simpl. rewrite decide_True by done.
    rewrite (map_absent set_env_var), (map_absent (set_rawval val)) by (by apply next_fresh). done. }
  assert (W2 : mac_wf h2).
  { eapply (add_wf h); [done|exact E2|done|done| | | |]; unfold macPushScope, put_rawval, create, marks; simpl; [|lia|lia|done].
    repeat split; [cbn; lia|done|by eexists|done..]. }
  split; [|split; [|by split; [|destruct sp]]].
  - split; [done|]. repeat split. exists [set_env_var (set_rawval val (new_entry h nm false))].
    split; [done|]. split; [by constructor|]. congruence.
  - simpl. intros x [= <-]. destruct sp; [done|].
    exists (set_env_var (set_rawval val (new_entry h nm false))). split; [|by right]. split; [|done]. rewrite E2. apply elem_of_app. right. by left.
Qed.

(** ** Scopes *)

(** [P] and after it the entries of the innermost scope. *)
Definition extends (P : list MAC_ENTRY) (h : MAC_HANDLE) : Prop := exists q, entries h = P ++ q /\ Forall plain q.

Lemma keeps_extends P h h' : keeps h h' -> extends P h -> extends P h'.
Proof.
  intros (_ & _ & _ & _ & _ & l & E & Pl & _) (q & E' & Pq). exists (q ++ l). split; [by rewrite E, E', app_assoc|].
  by apply Forall_app.
Qed.

(** Giving a macro a value in the scope does not change the entries outside. *)
Record scope_step (P : list MAC_ENTRY) (h h' : MAC_HANDLE) : Prop := {
  ss_wf : mac_wf h'; ss_extends : extends P h'; ss_level : level h' = level h; ss_suppress : suppress h' = suppress h;
  ss_env : use_env h' = use_env h; ss_dirty : dirty h = true -> dirty h' = true }.

Lemma keeps_scope_step P h h' : extends P h -> keeps h h' -> scope_step P h h'.
Proof. intros X K. pose proof (keeps_extends _ _ _ K X). by destruct K as (? & ? & ? & ? & ? & _). Qed.

Lemma scope_step_trans P a b c : scope_step P a b -> scope_step P b c -> scope_step P a c.
Proof. intros [] []. split; [done..|congruence|congruence|congruence|auto]. Qed.

Lemma scoped_bound n l e : scoped n l -> e ∈ l -> elevel e <= n + nmarks l.
Proof.
  revert n. induction l as [|a l IH]; intros n Sc I; [by apply not_elem_of_nil in I|]. destruct Sc as [E Sc].
  apply elem_of_cons in I as [->|I]; simpl; [lia|]. pose proof (IH _ Sc I). lia.
Qed.

Lemma entry_at_spec h x e : mac_wf h -> e ∈ entries h -> mid e = x -> entry_at h x = inr e.
Proof.
  intros W I <-. unfold entry_at. destruct (List.find _ _) as [e'|] eqn:F.
  - apply List.find_some in F as [I' E]. apply Nat.eqb_eq in E.
    f_equal. apply (mid_inj (entries h)); [by apply W|by apply list_elem_of_In|done..].
  - exfalso. apply list_elem_of_In, (List.find_none _ _ F) in I. by rewrite Nat.eqb_refl in I.
Qed.

Lemma macPutValue_spec P mk h nm val :
  mac_wf h -> extends (P ++ [mk]) h -> special mk = true ->
  exists h', macPutValue getenv h nm val = inr (zlen val, h') /\ scope_step (P ++ [mk]) h h' /\ dirty h' = true.
Proof.
  intros W X Sp. unfold macPutValue. destruct (lookup_spec h nm false W) as (K & Fd & _ & _).
  destruct (lookup getenv h nm false) as [x h1]. cbn [fst snd] in *. pose proof (keeps_wf _ _ K) as W1.
  pose proof (keeps_scope_step _ _ _ X K) as S1. destruct S1 as [_ (q & Eq & Pq) L1 Su1 U1 D1].
  assert (New : scope_step (P ++ [mk]) h (put_rawval (snd (create h1 nm false)) (next_mid h1) val)).
  { split; [by apply put_new_wf| |done..]. exists (q ++ [set_rawval val (new_entry h1 nm false)]).
    split; [by rewrite put_new_entries, Eq, app_assoc|]. apply Forall_app. split; [done|by constructor]. }
  destruct x as [x|]; [|eexists; done].
  destruct (Fd _ eq_refl) as (e & (Ie & Ex & Se & En) & _). rewrite (entry_at_spec _ _ e) by done. cbn [ebind].
  destruct (Nat.ltb_spec (elevel e) (level h1)) as [|Ge]; [eexists; done|].
  eexists. split; [done|]. split; [|done]. split; [by apply put_rawval_wf| |done..].
  (* an entry of the level of the handle is one of the scope *)
  exists (map (fun e => if decide (mid e = x) then set_rawval val e else e) q). split.
  - unfold put_rawval. cbn -[decide]. rewrite Eq, map_app. f_equal. apply map_absent.
    pose proof (wf_nodup _ W1) as N1. destruct W1 as [_ Nd Sc Lv _]. rewrite Eq in Nd, Sc, Lv. rewrite map_app in Nd. apply NoDup_app in Nd as (Nd & Dj & _).
    intros I. apply (list_elem_of_fmap mid) in I as (e' & Em & I').
    assert (e' = e) as ->.
    { apply (mid_inj (entries h1)); [done|by rewrite Eq; apply elem_of_app; left|done|congruence]. }
    rewrite !nmarks_app, (nmarks_plain q Pq) in Lv. apply scoped_app in Sc as [Sc _]. apply scoped_app in Sc as [Sc _].
    apply elem_of_app in I' as [I'| ->%list_elem_of_singleton]; [|congruence].
    pose proof (scoped_bound _ _ _ Sc I') as B. simpl in Lv, B. unfold marks in Lv. rewrite Sp in Lv. lia.
  - apply Forall_map. eapply Forall_impl; [exact Pq|]. intros e' Pe. simpl. by destruct (decide _).
Qed.

(** Deleting a sequence of entries at the end. *)
Lemma delete_cut a b h x e :
  entries h = a ++ e :: b -> NoDup (map mid (entries h)) -> x = mid e -> entries (delete h x) = a ++ b.
Proof.
  intros E N ->. unfold delete. cbn [set_dirty set_entries entries]. rewrite E in N |- *. rewrite map_app in N. simpl in N.
  apply NoDup_app in N as (_ & Dj & N). apply NoDup_cons in N as [Nb _].
  assert (K : forall l, mid e ∉ map mid l -> List.filter (fun e' => negb (mid e' =? mid e)) l = l).
  { intros l Nl. induction l as [|y l IH]; simpl in *; [done|]. apply not_elem_of_cons in Nl as [Ne Nl].
    destruct (Nat.eqb_spec (mid y) (mid e)); [congruence|]. simpl. by rewrite IH. }
  rewrite List.filter_app. simpl. rewrite Nat.eqb_refl. simpl. rewrite !K; [done|done|].
  intros I. apply (Dj _ I). by left.
Qed.

Lemma delete_scope l : forall a h x, entries h = a ++ l -> NoDup (map mid (entries h)) -> entries (delete_from x l h true) = a.
Proof.
  induction l as [|e l IH]; intros a h x E N; simpl; [by rewrite E, app_nil_r|].
  pose proof (delete_cut a l h (mid e) e E N eq_refl) as E'. apply IH; [done|]. rewrite E'. rewrite E, map_app in N. simpl in N.
  rewrite map_app. apply NoDup_app in N as (Na & Dj & N). apply NoDup_cons in N as [_ N]. apply NoDup_app. split_and!; [done| |done].
  intros y I I'. apply (Dj y I). by right.
Qed.

Lemma delete_from_spec a l h e :
  entries h = a ++ e :: l -> NoDup (map mid (entries h)) -> entries (delete_from (mid e) (entries h) h false) = a.
Proof.
  intros E N. rewrite E. assert (Na : mid e ∉ map mid a).
  { rewrite E, map_app in N. simpl in N. apply NoDup_app in N as (_ & Dj & _). intros I. apply (Dj _ I). by left. }
  assert (G : delete_from (mid e) (a ++ e :: l) h false = delete_from (mid e) (e :: l) h false).
  { clear E N. induction a as [|y a IH]; [done|]. simpl in Na |- *. apply not_elem_of_cons in Na as [Ne Na].
    destruct (Nat.eqb_spec (mid y) (mid e)); [congruence|]. by apply IH. }
  rewrite G. simpl. rewrite Nat.eqb_refl.
  pose proof (delete_scope (e :: l) a h (mid e) E N) as T. simpl in T. done.
Qed.

Lemma delete_from_fields x l h b :
  level (delete_from x l h b) = level h /\ suppress (delete_from x l h b) = suppress h /\ use_env (delete_from x l h b) = use_env h /\
  next_mid (delete_from x l h b) = next_mid h /\ (dirty (delete_from x l h b) = true \/ delete_from x l h b = h).
Proof.
  revert h b. induction l as [|e l IH]; intros h b; simpl; [by repeat split; right|].
  destruct (_ || _); [|apply IH]. destruct (IH (delete h (mid e)) true) as (-> & -> & -> & -> & D). repeat split.
  left. destruct D as [D| ->]; done.
Qed.

(** [P] and a marker, and the scope of the marker: only [P] is left. *)
Lemma macPopScope_spec P mk h :
  mac_wf h -> extends (P ++ [mk]) h -> special mk = true ->
  fst (macPopScope getenv h) = 0%Z /\ let h' := snd (macPopScope getenv h) in
  mac_wf h' /\ entries h' = P /\ level h' = pred (level h) /\ suppress h' = suppress h /\ use_env h' = use_env h /\ dirty h' = true.
Proof.
  intros W (q & E & Pq) Sp. rewrite <- app_assoc in E. simpl in E. pose proof (wf_level _ W) as Lv.
  assert (Lk : lookup getenv h scope_name true = (Some (mid mk), h)).
  { unfold lookup. replace (List.find _ _) with (Some mk); [done|]. symmetry. apply find_last. exists P, q. split; [done|]. split.
    - rewrite Sp. simpl. apply bool_decide_eq_true. pose proof (wf_entries _ W) as We. rewrite Forall_forall in We.
      apply (We mk); [|done]. rewrite E. apply elem_of_app. right. by left.
    - eapply Forall_impl; [exact Pq|]. intros e Pe. by rewrite Pe. }
  rewrite E, nmarks_app in Lv. simpl in Lv. unfold marks at 1 in Lv. rewrite Sp in Lv.
  unfold macPopScope. destruct (Nat.eqb_spec (level h) 0); [lia|]. rewrite Lk. cbn [fst snd]. split; [done|].
  pose proof (delete_from_spec P q h mk E (wf_nodup _ W)) as De.
  destruct (delete_from_fields (mid mk) (entries h) h false) as (Lf & Sf & Uf & Nf & Df).
  assert (D : dirty (delete_from (mid mk) (entries h) h false) = true).
  { destruct Df as [?|Eh]; [done|]. exfalso. rewrite Eh, E in De. apply (f_equal length) in De. rewrite length_app in De. simpl in De. lia. }
  split; [|by cbn [set_level entries level suppress use_env dirty]; rewrite Lf].
  destruct W as [We Nd Sc _ _]. rewrite E in We, Nd, Sc. rewrite map_app in Nd. apply Forall_app in We as [We _].
  apply NoDup_app in Nd as (Nd & _ & _). apply scoped_app in Sc as [Sc _]. rewrite (nmarks_plain q Pq) in Lv.
  split; cbn [set_level entries level suppress use_env dirty next_mid]; rewrite ?De, ?Nf, ?D, ?Lf; [done|done|done|lia|done].
Qed.
End lookup.

#[export] Hint Resolve scope_step_trans : epics.
