(* ===== verification/MacSafe.v ===== *)
(** * Macro substitution stays in its buffers

    What a routine writes is [output]: a string without NUL at the position, and a NUL after it.  For every handle that satisfies
    [mac_wf] and every string, translation writes at most to the limit of the buffer and leaves the
    entries of the handle as they were. *)

From stdpp Require Import base numbers list option gmap.
From Stdlib Require Import ZArith Lia Bool.
From S2P Require Import Prelude CStdlib EpicsString MacLib MacScope.
#[local] Open Scope nat_scope.

(** ** Output *)

(** Characters at a position, without the NUL at the end and with it. *)
Definition emit (m : list Z) (p : nat) (t : list Z) : list Z := take p m ++ t ++ drop (p + length t) m.
Definition output (m : list Z) (p : nat) (t : list Z) : list Z := <[p + length t := 0%Z]> (emit m p t).

Lemma emit_split a b c p t : p = length a -> length b = length t -> emit (a ++ b ++ c) p t = a ++ t ++ c.
Proof.
  intros -> E. unfold emit. rewrite take_app_length, <- E, <- drop_drop, drop_app_length, drop_app_length. done.
Qed.

Lemma output_split a b x c p t : p = length a -> length b = length t -> output (a ++ b ++ x :: c) p t = a ++ t ++ 0%Z :: c.
Proof.
  intros -> E. unfold output. rewrite emit_split by done. rewrite app_assoc, insert_app_r_alt by llia.
  rewrite length_app, Nat.sub_diag. simpl. by rewrite <- app_assoc.
Qed.

(** Cut a buffer at a position, at the end of what is written there and after the next cell. *)
Lemma cut_buffer (m : list Z) p n : p + n < length m -> exists a b x c, m = a ++ b ++ x :: c /\ length a = p /\ length b = n.
Proof.
  intros H. exists (take p m), (take n (drop p m)). destruct (drop n (drop p m)) as [|x c] eqn:E.
  - apply (f_equal length) in E. lens. lia.
  - exists x, c. rewrite <- E, take_drop, take_drop. split; [done|]. lens. lia.
Qed.

Lemma output_length m p t : p + length t < length m -> length (output m p t) = length m.
Proof. intros H. destruct (cut_buffer m p (length t) H) as (a & b & x & c & -> & La & Lb). rewrite output_split by done. llia. Qed.

Lemma output_end m p t : p + length t < length m -> output m p t !! (p + length t) = Some 0%Z.
Proof. intros H. unfold output. apply list_lookup_insert_eq. unfold emit. llia. Qed.

Lemma output_nil m p : m !! p = Some 0%Z -> output m p [] = m.
Proof.
  intros H. unfold output, emit. simpl. rewrite Nat.add_0_r, take_drop. by apply list_insert_id.
Qed.

Lemma output_app m p t1 t2 :
  p + length t1 + length t2 < length m -> output (output m p t1) (p + length t1) t2 = output m p (t1 ++ t2).
Proof.
  intros H. destruct (cut_buffer m p (length t1 + length t2)) as (a & b & x & c & -> & La & Lb); [lia|].
  rewrite <- (take_drop (length t1) b). assert (L1 : length (take (length t1) b) = length t1) by llia.
  assert (L2 : length (drop (length t1) b) = length t2) by llia. revert L1 L2. generalize (take (length t1) b) (drop (length t1) b).
  intros b1 b2 L1 L2. replace (a ++ (b1 ++ b2) ++ x :: c) with ((a ++ b1) ++ b2 ++ x :: c) by (by rewrite <- !app_assoc).
  destruct (b2 ++ x :: c) as [|y d] eqn:E; [by destruct b2|].
  rewrite <- app_assoc, output_split by done. rewrite app_assoc.
  destruct b2 as [|z b2]; simpl in E.
  - injection E as <- <-. destruct t2; [|done]. rewrite app_nil_r.
    rewrite (output_split (a ++ t1) [] 0%Z c) by llia.
    by rewrite <- app_assoc, output_split by done.
  - injection E as <- <-. destruct t2 as [|w t2]; [done|].
    replace ((a ++ t1) ++ 0%Z :: b2 ++ x :: c) with ((a ++ t1) ++ (0%Z :: b2) ++ x :: c) by done.
    rewrite output_split by llia.
    replace (a ++ b1 ++ z :: b2 ++ x :: c) with (a ++ (b1 ++ z :: b2) ++ x :: c) by (by rewrite <- !app_assoc).
    rewrite output_split by llia. by rewrite <- !app_assoc.
Qed.

Lemma emit_length m p t : p + length t <= length m -> length (emit m p t) = length m.
Proof. intros. unfold emit. llia. Qed.

Lemma emit_nil m p : emit m p [] = m.
Proof. unfold emit. simpl. by rewrite Nat.add_0_r, take_drop. Qed.

Lemma emit_app m p t1 t2 :
  p + length t1 + length t2 <= length m -> emit (emit m p t1) (p + length t1) t2 = emit m p (t1 ++ t2).
Proof.
  intros H. unfold emit at 1 3. unfold emit. rewrite (app_assoc (take p m)). rewrite take_app_all by llia.
  rewrite <- (drop_drop (_ ++ _)), drop_app_all by llia. rewrite drop_drop, <- !app_assoc, length_app. by rewrite Nat.add_assoc.
Qed.

(** Writing a NUL first makes no difference. *)
Lemma output_nul m p t : p + length t < length m -> output (<[p := 0%Z]> m) p t = output m p t.
Proof.
  intros H. replace (<[p := 0%Z]> m) with (output m p []).
  - rewrite <- (Nat.add_0_r p) at 2. apply (output_app m p [] t). simpl. lia.
  - unfold output. simpl. by rewrite Nat.add_0_r, emit_nil.
Qed.

Lemma poke_in m p c : p < length m -> poke m p c = inr (<[p := c]> m).
Proof. intros. unfold poke. by rewrite decide_True. Qed.

(** ** The routines that write *)

Definition emits (t : list Z) (st : trans_state) : trans_state := set_out st (emit (mem st) (v st) t) (v st + length t).
Definition outputs (t : list Z) (st : trans_state) : trans_state := set_out st (output (mem st) (v st) t) (v st + length t).

(** What of [t] fits below the limit. *)
Definition fitting (valend : nat) (st : trans_state) (t : list Z) : list Z := take (valend - v st) t.

Lemma emits_nil st : emits [] st = st.
Proof. unfold emits. simpl. rewrite emit_nil, Nat.add_0_r. by destruct st. Qed.

Lemma put_char_spec st valend c :
  v st <= valend < length (mem st) -> put_char st valend c = inr (emits (fitting valend st [c]) st).
Proof.
  intros H. unfold put_char, fitting. destruct (Nat.ltb_spec (v st) valend).
  - rewrite poke_in by lia. cbn [ebind]. destruct (valend - v st) as [|n] eqn:E; [lia|]. simpl. rewrite take_nil. unfold emits, emit.
    simpl. rewrite Nat.add_1_r, insert_take_drop by lia. done.
  - replace (valend - v st) with 0 by lia. by rewrite emits_nil.
Qed.

Lemma end_value_emits t st : v st + length t < length (mem st) -> end_value (emits t st) = inr (outputs t st).
Proof. intros H. unfold end_value. cbn [emits set_out mem v]. rewrite poke_in by (rewrite emit_length; lia). done. Qed.

Lemma emits_emits t1 t2 st :
  v st + length t1 + length t2 <= length (mem st) -> emits t2 (emits t1 st) = emits (t1 ++ t2) st.
Proof. intros H. unfold emits. cbn [set_out mem v]. rewrite emit_app, length_app, Nat.add_assoc by done. done. Qed.

Lemma outputs_outputs t1 t2 st :
  v st + length t1 + length t2 < length (mem st) -> outputs t2 (outputs t1 st) = outputs (t1 ++ t2) st.
Proof. intros H. unfold outputs. cbn [set_out mem v]. rewrite output_app, length_app, Nat.add_assoc by done. done. Qed.

Lemma outputs_emits t1 t2 st :
  v st + length t1 + length t2 < length (mem st) -> outputs t2 (emits t1 st) = outputs (t1 ++ t2) st.
Proof.
  intros H. unfold outputs, emits, output. cbn [set_out mem v]. rewrite emit_app, length_app, Nat.add_assoc by lia. done.
Qed.

Lemma fitting_length valend st t : length (fitting valend st t) <= valend - v st.
Proof. unfold fitting. llia. Qed.

Lemma cpy_loop_spec valend src : forall st, v st <= valend < length (mem st) ->
  cpy_loop src st valend = inr (emits (fitting valend st (until_nul src)) st).
Proof.
  induction src as [|c src IH]; intros st H; simpl.
  { unfold fitting. rewrite take_nil. by rewrite emits_nil. }
  destruct (Nat.ltb_spec (v st) valend); simpl.
  2: { unfold fitting. replace (valend - v st) with 0 by lia. by rewrite emits_nil. }
  destruct (Z.eqb_spec c 0); simpl; [unfold fitting; by rewrite take_nil, emits_nil|].
  rewrite put_char_spec by done. cbn [ebind]. destruct (valend - v st) as [|k] eqn:E; [lia|].
  assert (F : fitting valend st [c] = [c]) by (unfold fitting; rewrite E; simpl; by rewrite take_nil).
  rewrite F, IH by (cbn [emits set_out v mem]; rewrite emit_length; simpl; lia).
  assert (F' : fitting valend (emits [c] st) (until_nul src) = take k (until_nul src)).
  { unfold fitting. cbn [emits set_out v]. simpl. f_equal. lia. }
  rewrite F', emits_emits by llia. unfold fitting. by rewrite E.
Qed.

Lemma cpy2val_spec valend src st :
  v st <= valend < length (mem st) -> cpy2val src st valend = inr (outputs (fitting valend st (until_nul src)) st).
Proof.
  intros H. unfold cpy2val. rewrite cpy_loop_spec by done. cbn [ebind]. apply end_value_emits.
  pose proof (fitting_length valend st (until_nul src)). lia.
Qed.

(** ** Pre- and postcondition of translation *)

Definition no_nul (t : list Z) : Prop := Forall (fun c => c <> 0%Z) t.

Record trans_pre (valend : nat) (st : trans_state) : Prop := {
  tp_room : v st <= valend < length (mem st); tp_end : mem st !! v st = Some 0%Z; tp_wf : mac_wf (handle st) }.

Definition trans_post (valend : nat) (st st' : trans_state) : Prop :=
  exists t, v st + length t <= valend /\ no_nul t /\ mem st' = output (mem st) (v st) t /\ v st' = v st + length t /\
            keeps (handle st) (handle st').

Lemma trans_post_pre valend st st' : trans_pre valend st -> trans_post valend st st' -> trans_pre valend st'.
Proof.
  intros [R E W] (t & L & _ & M & V & K). split; [|rewrite M, V; apply output_end; lia|by eapply keeps_wf].
  rewrite M, V, output_length by lia. lia.
Qed.

Lemma trans_post_refl valend st : trans_pre valend st -> trans_post valend st st.
Proof.
  intros [R E W]. exists []. simpl. rewrite output_nil, Nat.add_0_r by done. split; [lia|]. by split; [constructor|auto with epics].
Qed.

Lemma trans_post_trans valend a b c :
  trans_pre valend a -> trans_post valend a b -> trans_post valend b c -> trans_post valend a c.
Proof.
  intros [R E W] (t & L & N & M & V & K) (t' & L' & N' & M' & V' & K'). rewrite V in L', V', M'. rewrite M in M'.
  rewrite output_app in M' by lia. exists (t ++ t'). rewrite length_app. split; [lia|]. split; [by apply Forall_app|].
  split; [done|]. split; [lia|]. by eapply keeps_trans.
Qed.

(** The limit of a buffer in the position itself: nothing is written. *)
Lemma trans_post_empty valend st st' : trans_pre valend st -> trans_post (v st) st st' -> trans_post valend st st'.
Proof. intros [R _ _] (t & L & P). exists t. split; [lia|done]. Qed.

Lemma trans_pre_empty valend st : trans_pre valend st -> trans_pre (v st) st.
Proof. intros [R E W]. split; [lia|done..]. Qed.

(** Only the fields the conditions mention matter. *)
Lemma trans_pre_fields valend st st' :
  trans_pre valend st -> mem st' = mem st -> v st' = v st -> mac_wf (handle st') -> trans_pre valend st'.
Proof. intros [R E W] M V W'. by split; [rewrite M, V| rewrite M, V|]. Qed.

Lemma trans_post_fields valend a b a' b' :
  trans_post valend a b -> mem a' = mem a -> v a' = v a -> mem b' = mem b -> v b' = v b ->
  (keeps (handle a) (handle b) -> keeps (handle a') (handle b')) -> trans_post valend a' b'.
Proof.
  intros (t & L & N & M & V & K) Ma Va Mb Vb Kh. exists t. rewrite Va, Vb, Ma, Mb. split_and!; auto.
Qed.

Lemma trans_post_outputs valend t st st' :
  trans_pre valend st -> v st + length t <= valend -> no_nul t ->
  mem st' = mem (outputs t st) -> v st' = v (outputs t st) -> handle st' = handle st -> trans_post valend st st'.
Proof. intros [R E W] L N M V H. exists t. rewrite H. split_and!; auto with epics. Qed.

Lemma until_nul_no_nul s : no_nul (until_nul s).
Proof. induction s as [|c s IH]; simpl; [constructor|]. destruct (Z.eqb_spec c 0); [constructor|by constructor]. Qed.

Lemma no_nul_fitting valend st t : no_nul t -> no_nul (fitting valend st t).
Proof. apply Forall_take. Qed.

Lemma fitting_fits valend st t : v st <= valend -> v st + length (fitting valend st t) <= valend.
Proof. intros. pose proof (fitting_length valend st t). lia. Qed.

#[export] Hint Resolve until_nul_no_nul no_nul_fitting fitting_fits trans_post_refl trans_pre_empty : epics.

(** More characters after [t]; the conclusion is what the next step needs. *)
Definition more (valend : nat) (st : trans_state) (t t' : list Z) : Prop :=
  v st + length (t ++ t') <= valend /\ (no_nul t -> no_nul (t ++ t')).

Lemma more_fitting valend st st' t s :
  v st + length t <= valend -> v st' = v st + length t -> no_nul s -> more valend st t (fitting valend st' s).
Proof.
  intros L V N. pose proof (fitting_length valend st' s) as F. split; [rewrite length_app; lia|].
  intros Nt. apply Forall_app. split; [done|by apply no_nul_fitting].
Qed.

Section more.
Context (valend : nat) (st : trans_state) (t : list Z) (Room : valend < length (mem st)) (Len : v st + length t <= valend).

Lemma emits_room : v (emits t st) <= valend < length (mem (emits t st)).
Proof. cbn [emits set_out v mem]. rewrite emit_length; lia. Qed.

Lemma outputs_room : v (outputs t st) <= valend < length (mem (outputs t st)).
Proof. cbn [outputs set_out v mem]. rewrite output_length; lia. Qed.

Lemma put_char_more c : c <> 0%Z -> exists t', put_char (emits t st) valend c = inr (emits (t ++ t') st) /\ more valend st t t'.
Proof.
  intros C. rewrite put_char_spec by apply emits_room. exists (fitting valend (emits t st) [c]).
  assert (M : more valend st t (fitting valend (emits t st) [c])) by (apply more_fitting; [done|done|by constructor]).
  split; [|done]. destruct M as [M _]. rewrite length_app in M. by rewrite emits_emits by lia.
Qed.

Lemma cpy2val_emits src : exists t', cpy2val src (emits t st) valend = inr (outputs (t ++ t') st) /\ more valend st t t'.
Proof.
  rewrite cpy2val_spec by apply emits_room. exists (fitting valend (emits t st) (until_nul src)).
  assert (M : more valend st t (fitting valend (emits t st) (until_nul src))) by (apply more_fitting; auto with epics).
  split; [|done]. destruct M as [M _]. rewrite length_app in M. by rewrite outputs_emits by lia.
Qed.

Lemma cpy2val_outputs src : exists t', cpy2val src (outputs t st) valend = inr (outputs (t ++ t') st) /\ more valend st t t'.
Proof.
  rewrite cpy2val_spec by apply outputs_room. exists (fitting valend (outputs t st) (until_nul src)).
  assert (M : more valend st t (fitting valend (outputs t st) (until_nul src))) by (apply more_fitting; auto with epics).
  split; [|done]. destruct M as [M _]. rewrite length_app in M. by rewrite outputs_outputs by lia.
Qed.

Lemma put_char_outputs c :
  c <> 0%Z -> exists t', (let* st' := put_char (outputs t st) valend c in end_value st') = inr (outputs (t ++ t') st) /\ more valend st t t'.
Proof.
  intros C. pose proof outputs_room as R. rewrite put_char_spec by done. cbn [ebind]. exists (fitting valend (outputs t st) [c]).
  assert (M : more valend st t (fitting valend (outputs t st) [c])) by (apply more_fitting; [done|done|by constructor]).
  split; [|done]. destruct M as [M _]. rewrite length_app in M. rewrite end_value_emits.
  - by rewrite outputs_outputs by lia.
  - pose proof (fitting_length valend (outputs t st) [c]). lia.
Qed.
End more.

Lemma bad_reference_spec refname errval valend st :
  trans_pre valend st ->
  exists t, bad_reference refname errval valend st = inr (outputs t (set_err st true)) /\ v st + length t <= valend /\ no_nul t.
Proof.
  intros P. pose proof (tp_room _ _ P) as R. unfold bad_reference.
  replace (put_char (set_err st true)) with (put_char (emits [] (set_err st true))) by (by rewrite emits_nil).
  edestruct (put_char_more valend (set_err st true) []) as (t1 & -> & L1 & N1); [apply R|simpl; lia|done|]. cbn [ebind].
  edestruct (put_char_more valend (set_err st true)) as (t2 & -> & L2 & N2); [apply R|exact L1|done|]. cbn [ebind].
  edestruct (cpy2val_emits valend (set_err st true)) as (t3 & -> & L3 & N3); [apply R|exact L2|]. cbn [ebind].
  destruct (suppress _).
  - edestruct (put_char_outputs valend (set_err st true)) as (t4 & -> & L4 & N4); [apply R|exact L3|done|].
    eexists. split; [done|]. split; [exact L4|]. apply N4, N3, N2, N1. constructor.
  - edestruct (cpy2val_outputs valend (set_err st true)) as (t4 & -> & L4 & N4); [apply R|exact L3|].
    eexists. split; [done|]. split; [exact L4|]. apply N4, N3, N2, N1. constructor.
Qed.

Lemma poke_next valend c st :
  v st < valend -> valend < length (mem st) ->
  (let* m := poke (mem st) (v st) c in inr (mkTrans (handle st) m (S (v st)) (err st) (S (r st)))) = inr (set_r (emits [c] st) (S (r st))).
Proof.
  intros L R. rewrite poke_in by lia. cbn [ebind]. unfold emits, emit. cbn [length]. rewrite insert_take_drop, Nat.add_1_r by lia. done.
Qed.

(** The text is at most two characters, the position moves by at most one. *)
Lemma copy_char_spec s discard valend st :
  trans_pre valend st -> char_at s (r st) <> 0%Z ->
  exists t i, copy_char s discard valend st = inr (set_r (outputs t st) i) /\ v st + length t <= valend /\ no_nul t /\
              (i = r st \/ i = S (r st) /\ char_at s i <> 0%Z).
Proof.
  intros P C. pose proof (tp_room _ _ P) as R. unfold copy_char. destruct (_ && _) eqn:Es.
  - apply andb_true_iff in Es as [_ Nx]. apply negb_true_iff, Z.eqb_neq in Nx.
    assert (exists t, (if discard then inr st else put_char st valend BACKSLASH) = inr (emits t st) /\ more valend st [] t) as (t & -> & L & N).
    { destruct discard; [exists []; rewrite emits_nil; split; [done|]; by split; [simpl; lia|]|].
      destruct (put_char_more valend st [] (proj2 R) ltac:(simpl; lia) BACKSLASH) as (t & E & M); [done|].
      rewrite emits_nil in E. by exists t. }
    cbn [ebind app] in *. assert (Nt : no_nul t) by (apply N; constructor). pose proof (emits_room valend st t (proj2 R) L) as Re.
    destruct (Nat.ltb_spec (v (emits t st)) valend) as [Lt|Ge].
    + rewrite (poke_next valend) by lia. cbn [ebind]. change (r (emits t st)) with (r st). cbn [emits set_out v] in Lt.
      assert (L' : v st + length (t ++ [char_at s (S (r st))]) <= valend) by (rewrite length_app; simpl; lia).
      exists (t ++ [char_at s (S (r st))]), (S (r st)). split; [|split; [done|split; [|by right]]].
      * rewrite emits_emits by (simpl; lia). pose proof (emits_room valend st _ (proj2 R) L') as Re'.
        destruct (Nat.leb_spec (v (set_r (emits (t ++ [char_at s (S (r st))]) st) (S (r st)))) valend) as [|G]; [|cbn [set_r v] in G; lia].
        change (end_value (emits (t ++ [char_at s (S (r st))]) (set_r st (S (r st)))) = inr (outputs (t ++ [char_at s (S (r st))]) (set_r st (S (r st))))).
        apply end_value_emits. cbn [set_r v mem]. lia.
      * apply Forall_app. split; [done|by constructor].
    + cbn [ebind]. destruct (Nat.leb_spec (v (emits t st)) valend); [|lia]. exists t, (r st). rewrite end_value_emits by lia.
      split; [by destruct st|]. auto.
  - destruct (put_char_more valend st [] (proj2 R) ltac:(simpl; lia) (char_at s (r st)) C) as (t & E & L & N).
    rewrite emits_nil in E. rewrite E. cbn [ebind app] in *. pose proof (emits_room valend st t (proj2 R) L) as Re.
    destruct (Nat.leb_spec (v (emits t st)) valend); [|lia]. exists t, (r st). rewrite end_value_emits by lia.
    split; [by destruct st|]. split; [done|]. split; [apply N; constructor|auto].
Qed.

(** ** Translation *)

Lemma char_at_inside s i : char_at s i <> 0%Z -> i < length s.
Proof.
  intros C. destruct (Nat.lt_ge_cases i (length s)); [done|]. unfold char_at in C. by rewrite nth_overflow in C.
Qed.

Lemma peek_in s i : i <= length s -> peek s i = inr (char_at s i).
Proof. intros. unfold peek. by rewrite decide_True. Qed.

Lemma step_back_inside s st : r st <= length s -> 0 < length s -> r (step_back s st) < length s.
Proof.
  intros L N. unfold step_back. destruct (Z.eqb_spec (char_at s (r st)) 0); [simpl; lia|]. by apply char_at_inside.
Qed.

Lemma new_buffer_pre h e i : mac_wf h -> trans_pre MAC_SIZE (mkTrans h new_buffer 0 e i).
Proof. intros W. split; [|done|done]. cbn [v mem]. unfold new_buffer. rewrite length_replicate. lia. Qed.

Section translation.
Context (getenv : list Z -> option (list Z)).

Definition out_of_fuel (e : mac_fault) : Prop := e = mac_fuel.

Definition loop_spec (fuel : nat) : Prop := forall s lev term valend q st,
  trans_pre valend st -> r st <= length s ->
  rwp out_of_fuel (trans_loop getenv fuel s lev term valend q st) (fun st' => trans_post valend st st' /\ r st' <= length s).

Definition refer_spec (fuel : nat) : Prop := forall s lev valend st,
  trans_pre valend st -> is_macref s (r st) = true ->
  rwp out_of_fuel (refer getenv fuel s lev valend st) (fun st' => trans_post valend st st' /\ r st' < length s).

Definition subs_spec (fuel : nat) : Prop := forall s lev term P mk h i,
  mac_wf h -> extends (P ++ [mk]) h -> special mk = true -> i < length s ->
  rwp out_of_fuel (subs_loop getenv fuel s lev term h i)
    (fun '(h', i') => scope_step (P ++ [mk]) h h' /\ i' < length s).

Lemma loop_safe fuel : refer_spec fuel -> loop_spec fuel -> loop_spec (S fuel).
Proof.
  intros Rf IH s lev term valend q st Pre Le. cbn [trans_loop]. rewrite peek_in by done. cbn [ebind].
  destruct (in_term term (char_at s (r st))) eqn:T; [by split; [auto with epics|]|].
  assert (C : char_at s (r st) <> 0%Z) by (intros E; rewrite E in T; done). pose proof (char_at_inside _ _ C) as Lt.
  destruct (quoting _ q _) as [q' skip]. destruct skip.
  { eapply rwp_mono; [apply IH; [by eapply trans_pre_fields; [exact Pre|..|apply Pre]|cbn [set_r r]; lia]|]. intros st' [Po L]. split; [|done].
    by apply (trans_post_fields valend (set_r st (S (r st))) st'). }
  apply rwp_bind. apply (rwp_mono _ _ (fun st' => trans_post valend st st' /\ r st' < length s)).
  - destruct (_ && _) eqn:M; [apply andb_true_iff in M as [M _]; by apply Rf|].
    destruct (copy_char_spec s (0 <? lev) valend st Pre C) as (t & i & -> & L & N & I). split.
    + by apply (trans_post_outputs valend t).
    + destruct I as [->|[-> I]]; [done|by apply char_at_inside].
  - intros st' [Po L]. pose proof (trans_post_pre _ _ _ Pre Po) as Pre'.
    eapply rwp_mono; [apply IH; [by eapply trans_pre_fields; [exact Pre'|..|apply Pre']|cbn [set_r r]; lia]|]. intros st'' [Po' L']. split; [|done].
    eapply trans_post_trans; [done..|]. by apply (trans_post_fields valend (set_r st' (S (r st'))) st'').
Qed.

Section refer.
Context (fuel : nat) (IH : loop_spec fuel).

(** [trans], with its step back at the end. *)
Lemma trans_safe s lev term valend st :
  trans_pre valend st -> r st <= length s ->
  rwp out_of_fuel (trans getenv fuel s lev term valend st)
    (fun st' => trans_post valend st st' /\ (0 < length s -> r st' < length s)).
Proof.
  intros Pre L. apply rwp_bind. eapply rwp_mono; [by apply IH|]. intros st' [Po L']. split; [|by apply step_back_inside].
  apply (trans_post_fields valend st st'); [done|done|done|..]; unfold step_back; by destruct (_ =? 0)%Z.
Qed.

(** A string that is translated into a buffer of its own. *)
Lemma trans_buffer s lev term h e i :
  mac_wf h -> i <= length s -> 0 < length s ->
  rwp out_of_fuel (trans getenv fuel s lev term MAC_SIZE (mkTrans h new_buffer 0 e i)) (fun st' => keeps h (handle st') /\ r st' < length s).
Proof.
  intros W L N. eapply rwp_mono; [by apply trans_safe; [apply new_buffer_pre|..]|]. intros st' [(t & _ & _ & _ & _ & K) L']. auto.
Qed.

Lemma subs_safe : subs_spec fuel -> subs_spec (S fuel).
Proof.
  intros Sb s lev term P mk h i W X Sp Li. cbn [subs_loop]. rewrite peek_in by lia. cbn [ebind].
  destruct (_ =? COMMA)%Z eqn:C.
  2: { split; [|done]. apply keeps_scope_step; [done|]. by apply keeps_refl. }
  apply rwp_bind. eapply rwp_mono; [apply (trans_buffer s (S lev) term h false (S i)); [done|lia|lia]|]. intros n [Kn Ln].
  pose proof (keeps_scope_step _ _ _ X Kn) as S1. rewrite peek_in by lia. cbn [ebind]. destruct (_ =? EQUALS)%Z.
  - apply rwp_bind. eapply rwp_mono; [apply (trans_buffer s (S lev) (tail term)); [by destruct Kn|lia|lia]|]. intros w [Kw Lw].
    pose proof (scope_step_trans _ _ _ _ S1 (keeps_scope_step _ _ _ (ss_extends _ _ _ S1) Kw)) as S2.
    destruct (macPutValue_spec getenv P mk (handle w) (buffer_string (mem n)) (buffer_string (mem w)) (ss_wf _ _ _ S2)
               (ss_extends _ _ _ S2) Sp) as (h' & -> & S3 & D). cbn [ebind].
    pose proof (scope_step_trans _ _ _ _ S2 S3) as S4. replace (set_dirty h' true) with h' by (destruct h'; simpl in D; by rewrite D).
    eapply rwp_mono; [apply (Sb s lev term P mk); [apply S4|apply S4|done|done]|]. intros [h'' i''] [S5 L]. split; [|done].
    by eapply scope_step_trans.
  - eapply rwp_mono; [apply (Sb s lev term P mk); [apply S1|apply S1|done|done]|]. intros [h'' i''] [S5 L]. split; [|done].
    by eapply scope_step_trans.
Qed.

(** The look up of the name and what it gives; [x] and [h] are the result of [lookup]. *)
Lemma resolve_safe s lev valend st x h defval refname term :
  trans_pre valend st -> lookup getenv (handle st) refname false = (x, h) -> r st < length s ->
  (forall d, defval = Some d -> d <= length s) ->
  rwp out_of_fuel
    (let st := set_handle st h in
     match x with
     | Some x =>
         let* e := entry_at h x in
         if visited e then bad_reference refname RECURSIVE valend st
         else if negb (dirty h) then
           match value e with
           | Some m => let* st := cpy2val (until_nul m) st valend in inr (set_err st (err st || error e))
           | None => inl mac_null
           end
         else
           match rawval e with
           | Some rv =>
               let* t := trans getenv fuel rv (S lev) [] valend (mkTrans (with_entry h x (set_visited true)) (mem st) (v st) (err st) 0) in
               inr (mkTrans (with_entry (handle t) x (set_visited false)) (mem t) (v t) (err t) (r st))
           | None => inr st
           end
     | None =>
         match defval with
         | Some d => let* t := trans getenv fuel s (S lev) (tail term) valend (set_r st d) in inr (set_r t (r st))
         | None => bad_reference refname UNDEFINED valend st
         end
     end)
    (fun st' => trans_post valend st st' /\ r st' < length s).
Proof.
  intros Pre Lk Lr Df. pose proof (lookup_spec getenv (handle st) refname false (tp_wf _ _ Pre)) as (K & Fd & _ & _).
  rewrite Lk in K, Fd. cbn [fst snd] in *. set (st1 := set_handle st h). pose proof (keeps_wf _ _ K) as W.
  assert (Pre1 : trans_pre valend st1) by (by eapply trans_pre_fields; [exact Pre|..]).
  assert (Up : forall st', trans_post valend st1 st' -> trans_post valend st st').
  { intros st' Po. apply (trans_post_fields valend st1 st'); try done. intros K'. by eapply keeps_trans. }
  assert (Bad : forall ev, rwp out_of_fuel (bad_reference refname ev valend st1) (fun st' => trans_post valend st st' /\ r st' < length s)).
  { intros ev. destruct (bad_reference_spec refname ev valend st1 Pre1) as (t & -> & L & N). split; [|done].
    apply Up. by apply (trans_post_outputs valend t). }
  destruct x as [x|].
  - destruct (Fd x eq_refl) as (e & (Ie & Ex & Se & _) & _). rewrite (entry_at_spec _ _ e) by done. cbn [ebind].
    destruct (visited e) eqn:Vi; [done|]. destruct (dirty h) eqn:D; cbn [negb].
    + assert (is_Some (rawval e)) as [rv Rv].
      { pose proof (wf_entries _ W) as We. rewrite Forall_forall in We. by apply (We e Ie). }
      rewrite Rv. apply rwp_bind. eapply rwp_mono; [apply trans_safe; [|cbn [r]; lia]|].
      { eapply trans_pre_fields; [exact Pre1|done|done|]. by apply set_visited_wf. }
      intros t [Po _]. split; [|done]. apply Up. eapply trans_post_fields; [exact Po|done..|]. by apply (visited_restored h _ x e).
    + pose proof (wf_clean _ W D) as C. rewrite Forall_forall in C. destruct (C e Ie Se) as [m ->].
      rewrite cpy2val_spec by apply Pre1. split; [|done]. apply Up.
      apply (trans_post_outputs valend (fitting valend st1 (until_nul (until_nul m)))); auto with epics.
      apply fitting_fits. apply Pre1.
  - destruct defval as [d|]; [|done]. apply rwp_bind. eapply rwp_mono; [apply trans_safe; [|by apply Df]|].
    { by eapply trans_pre_fields; [exact Pre1|..|apply Pre1]. }
    intros t [Po _]. split; [|done]. apply Up. by eapply trans_post_fields; [exact Po|..].
Qed.
(** A scope that is opened, filled, used and closed again. *)
Lemma scope_keeps h h1 h2 :
  mac_wf h ->
  let mk := new_entry (set_level (set_suppress h true) (S (level h))) scope_name true in
  scope_step (entries h ++ [mk]) (macPushScope (set_suppress h true)) h1 -> keeps (set_suppress h1 (suppress h)) h2 ->
  keeps h (snd (macPopScope getenv h2)).
Proof.
  intros W mk [W1 X1 L1 _ U1 _] K2. pose proof (keeps_extends _ _ _ K2 X1) as X2. destruct K2 as (W2 & L2 & Su2 & U2 & _).
  destruct (macPopScope_spec getenv (entries h) mk h2 W2 X2 eq_refl) as (_ & W3 & E3 & L3 & Su3 & U3 & D3).
  split; [done|]. cbn [set_suppress level suppress use_env] in *. change (level (macPushScope _)) with (S (level h)) in L1.
  change (use_env (macPushScope _)) with (use_env h) in U1. rewrite L3, L2, L1, Su3, Su2, U3, U2, U1.
  split_and!; [done..|]. exists []. by rewrite app_nil_r.
Qed.

Lemma push_extends h : mac_wf h ->
  let mk := new_entry (set_level (set_suppress h true) (S (level h))) scope_name true in
  mac_wf (macPushScope (set_suppress h true)) /\ extends (entries h ++ [mk]) (macPushScope (set_suppress h true)).
Proof.
  intros W mk. destruct (macPushScope_spec (set_suppress h true)) as (W1 & _ & _ & _ & E1); [by apply set_suppress_wf|].
  split; [done|]. exists []. by rewrite E1, app_nil_r.
Qed.

(** The default value is skipped: translated into no room. *)
Lemma default_safe s lev valend st term :
  trans_pre valend st -> r st < length s ->
  rwp out_of_fuel
    (if (char_at s (r st) =? EQUALS)%Z then
       let* d := trans getenv fuel s (S lev) term (v st) (mkTrans (set_suppress (handle st) true) (mem st) (v st) false (S (r st))) in
       inr (mkTrans (set_suppress (handle d) (suppress (handle st))) (mem d) (v d) (err st) (r d), Some (S (r st)))
     else inr (st, None))
    (fun '(st', defval) => trans_post valend st st' /\ r st' < length s /\ forall d, defval = Some d -> d <= length s).
Proof.
  intros Pre L. destruct (_ =? EQUALS)%Z; [|by split; [auto with epics|]].
  apply rwp_bind. eapply rwp_mono; [apply trans_safe; [|cbn [r]; lia]|].
  { eapply trans_pre_fields; [exact (trans_pre_empty _ _ Pre)|done|done|]. apply set_suppress_wf, Pre. }
  intros d [Po Ld]. cbn [rwp]. split; [|split; [cbn [r]; lia|intros ? [= <-]; lia]]. apply trans_post_empty; [done|].
  eapply trans_post_fields; [exact Po|done..|]. cbn [handle]. intros (W & Lv & _ & U & D & l & E & Pl & N).
  split; [by apply set_suppress_wf|]. split_and!; [done..|]. by exists l.
Qed.

Lemma refer_safe : subs_spec fuel -> refer_spec (S fuel).
Proof.
  intros Sb s lev valend st Pre M. assert (Lr : S (S (r st)) <= length s).
  { unfold is_macref in M. apply andb_true_iff in M as [_ M]. apply (char_at_inside s (S (r st))). intros E. by rewrite E in M. }
  cbn [refer]. set (term := macEnd _). pose proof (tp_wf _ _ Pre) as W.
  apply rwp_bind. eapply rwp_mono; [apply (trans_buffer s (S lev) term (handle st)); [done|lia|lia]|]. intros n [Kn Ln]. cbv zeta.
  set (st1 := mkTrans (handle n) (mem st) (v st) (err n) (r n)).
  assert (Po1 : trans_post valend st st1).
  { apply (trans_post_fields valend st st); auto with epics. }
  pose proof (trans_post_pre _ _ _ Pre Po1) as Pre1. change (r n) with (r st1) in Ln. rewrite peek_in by lia. cbn [ebind].
  apply rwp_bind. eapply rwp_mono; [by apply (default_safe s lev valend st1 (tail term))|]. intros [st2 defval] (Po2 & L2 & Df).
  pose proof (trans_post_pre _ _ _ Pre1 Po2) as Pre2. pose proof (trans_post_trans _ _ _ _ Pre Po1 Po2) as Po12.
  rewrite peek_in by lia. cbn [ebind]. destruct (_ =? COMMA)%Z.
  - (* with a scope *)
    apply rwp_bind, rwp_bind. destruct (push_extends (handle st2) (tp_wf _ _ Pre2)) as [W3 X3].
    eapply rwp_mono; [by apply (Sb s lev term _ _ _ _ W3 X3)|]. intros [h3 i3] [S3 L3]. cbn [rwp].
    set (st3 := mkTrans _ _ _ _ i3). assert (Pre3 : trans_pre valend st3).
    { eapply trans_pre_fields; [exact Pre2|done|done|]. apply set_suppress_wf, S3. }
    destruct (lookup getenv (handle st3) _ false) as [x h4] eqn:Lk. apply rwp_bind.
    eapply rwp_mono; [by apply (resolve_safe s lev valend st3 x h4 defval (buffer_string (mem n)) term)|].
    intros st4 [Po4 L4]. split; [|done]. apply (trans_post_trans _ _ _ _ Pre Po12).
    eapply trans_post_fields; [exact Po4|done..|]. intros K. by eapply scope_keeps; [apply Pre2|..].
  - cbn [ebind]. destruct (lookup getenv (handle st2) _ false) as [x h4] eqn:Lk. apply rwp_bind.
    eapply rwp_mono; [by apply (resolve_safe s lev valend st2 x h4 defval (buffer_string (mem n)) term)|].
    intros st4 [Po4 L4]. split; [|done]. by apply (trans_post_trans _ _ _ _ Pre Po12).
Qed.
End refer.

Lemma translation_safe fuel : loop_spec fuel /\ refer_spec fuel /\ subs_spec fuel.
Proof.
  induction fuel as [|fuel (IL & IR & IS)]; [by repeat split; intros; red|].
  split; [by apply loop_safe|]. split; [by apply refer_safe|by apply subs_safe].
Qed.
End translation.

(** ** Expansion of the values *)

(** An entry without what [expand] computes. *)
Definition forget (e : MAC_ENTRY) : MAC_ENTRY :=
  mkMacro (mid e) (name e) (env_var e) (rawval e) None 0 false (visited e) (special e) (elevel e).

(** The definitions of [h], and after them variables of the environment. *)
Definition keeps_defs (h h' : MAC_HANDLE) : Prop :=
  mac_wf h' /\ level h' = level h /\ suppress h' = suppress h /\ use_env h' = use_env h /\
  exists l, map forget (entries h') = map forget (entries h) ++ map forget l /\ (use_env h = false -> l = []).

Lemma keeps_keeps_defs h h' : keeps h h' -> keeps_defs h h'.
Proof. intros (W & L & Su & U & _ & l & E & _ & N). repeat split; try apply W; auto. exists l. by rewrite E, map_app. Qed.

Lemma keeps_defs_trans a b c : keeps_defs a b -> keeps_defs b c -> keeps_defs a c.
Proof.
  intros (_ & L & Su & U & l & E & N) (W & L' & Su' & U' & l' & E' & N'). split; [done|]. rewrite L', L, Su', Su, U', U.
  repeat split. exists (l ++ l'). split; [by rewrite E', E, map_app, app_assoc|]. intros e. rewrite N by done. rewrite N' by congruence. done.
Qed.

Lemma set_value_wf h x m n er :
  mac_wf h -> length m = S MAC_SIZE -> m !! MAC_SIZE = Some 0%Z -> mac_wf (with_entry h x (set_value m n er)).
Proof.
  intros W L E. apply with_entry_wf; [done|done| |by eexists]. intros e _ (A & B & C & D). split_and!; [done..|]. intros m' [= <-]. done.
Qed.

Lemma set_value_keeps h x m n er :
  mac_wf h -> length m = S MAC_SIZE -> m !! MAC_SIZE = Some 0%Z -> keeps_defs h (with_entry h x (set_value m n er)).
Proof.
  intros W L E. split; [by apply set_value_wf|]. repeat split. exists []. rewrite app_nil_r. split; [|done].
  rewrite with_entry_map, map_map. apply map_ext. intros e. by destruct (decide _).
Qed.

Definition has_value (e : MAC_ENTRY) : Prop := is_Some (value e).

Section expand.
Context (getenv : list Z -> option (list Z)).

Lemma trans_safe_all fuel s lev term valend st :
  trans_pre valend st -> r st <= length s ->
  rwp out_of_fuel (trans getenv fuel s lev term valend st) (fun st' => trans_post valend st st').
Proof.
  intros Pre L. eapply rwp_mono; [apply (trans_safe getenv fuel (proj1 (translation_safe getenv fuel))); done|]. by intros st' [Po _].
Qed.

(** The entry gets its value, entries may be added. *)
Lemma expand_entry_safe fuel h a e b :
  mac_wf h -> entries h = a ++ e :: b ->
  rwp out_of_fuel (expand_entry getenv fuel h (mid e))
    (fun h' => keeps_defs h h' /\ (dirty h = true -> dirty h' = true) /\
               exists e' l, entries h' = a ++ e' :: b ++ l /\ mid e' = mid e /\ has_value e').
Proof.
  intros W E. unfold expand_entry. assert (Ie : e ∈ entries h) by (rewrite E; apply elem_of_app; right; by left).
  rewrite (entry_at_spec _ _ e) by done. cbn [ebind]. set (m := default new_buffer (value e)).
  assert (Lm : length m = S MAC_SIZE).
  { unfold m. destruct (value e) as [m'|] eqn:V; [|apply length_replicate]. pose proof (wf_entries _ W) as We.
    rewrite Forall_forall in We. by apply (We e Ie). }
  rewrite poke_in by lia. cbn [ebind]. apply rwp_bind.
  apply (rwp_mono _ _ (fun st => keeps h (handle st) /\ length (mem st) = S MAC_SIZE)).
  - assert (Pre : trans_pre MAC_SIZE (mkTrans h (<[0 := 0%Z]> m) 0 false 0)).
    { split; cbn [v mem handle]; [rewrite length_insert; lia|by apply list_lookup_insert_eq; lia|done]. }
    destruct (rawval e) as [rv|]; cbn [rwp handle mem].
    + eapply rwp_mono; [apply trans_safe_all; [exact Pre|cbn [r]; lia]|]. intros st Po. pose proof (trans_post_pre _ _ _ Pre Po) as P'.
      destruct Po as (t & L & _ & M & _ & K). split; [done|]. rewrite M. cbn [mem v] in *. rewrite output_length; rewrite length_insert; lia.
    + split; [by apply keeps_refl|]. by rewrite length_insert.
  - intros st [K L]. rewrite poke_in by lia. cbn [ebind rwp].
    assert (Ls : length (<[MAC_SIZE := 0%Z]> (mem st)) = S MAC_SIZE) by (by rewrite length_insert).
    assert (Es : <[MAC_SIZE := 0%Z]> (mem st) !! MAC_SIZE = Some 0%Z) by (apply list_lookup_insert_eq; lia).
    split; [eapply keeps_defs_trans; [by apply keeps_keeps_defs|by apply set_value_keeps; [by destruct K|..]]|].
    destruct K as (W' & _ & _ & _ & D & l & E' & _). split; [done|].
    exists (set_value (<[MAC_SIZE := 0%Z]> (mem st)) (v st) (err st) e), l. split; [|split; [done|by eexists]].
    rewrite with_entry_map, E', E. rewrite <- app_assoc, <- app_comm_cons, map_app. cbn [map]. rewrite decide_True by done.
    pose proof (wf_nodup _ W') as Nd. rewrite E', E, <- app_assoc, <- app_comm_cons, map_app in Nd. cbn [map] in Nd.
    apply NoDup_app in Nd as (_ & Dj & Nd). apply NoDup_cons in Nd as [Nb _].
    rewrite !map_absent; [done|done|]. intros I. apply (Dj _ I). by left.
Qed.

Lemma next_entry_spec a e b : mid e ∉ map mid a -> next_entry (mid e) (a ++ e :: b) = mid <$> head b.
Proof.
  induction a as [|y a IH]; intros N; simpl; [by rewrite Nat.eqb_refl|]. apply not_elem_of_cons in N as [Ne N].
  destruct (Nat.eqb_spec (mid y) (mid e)); [congruence|]. by apply IH.
Qed.

Lemma expand_loop_safe fuel n : forall h a b,
  mac_wf h -> entries h = a ++ b -> Forall has_value a ->
  rwp out_of_fuel (expand_loop getenv n fuel h (mid <$> head b)) (fun h' => keeps_defs h h' /\ Forall has_value (entries h') /\
     (dirty h = true -> dirty h' = true)).
Proof.
  induction n as [|n IH]; intros h a b W E F; simpl; [done|]. destruct b as [|e b]; simpl.
  { rewrite app_nil_r in E. rewrite E. split; [|done]. by apply keeps_keeps_defs, keeps_refl. }
  apply rwp_bind. eapply rwp_mono; [by apply (expand_entry_safe fuel h a e b)|]. intros h1 (K & D & e' & l & E1 & M & V).
  assert (W1 : mac_wf h1) by apply K. pose proof (wf_nodup _ W1) as Nd. rewrite E1, map_app in Nd. apply NoDup_app in Nd as (_ & Dj & _).
  rewrite E1, <- M, next_entry_spec by (intros I; apply (Dj _ I); by left).
  eapply rwp_mono; [apply (IH h1 (a ++ [e']) (b ++ l)); [done| |]|].
  - rewrite E1, <- app_assoc. done.
  - apply Forall_app. by repeat constructor.
  - intros h2 (K2 & F2 & D2). split; [by eapply keeps_defs_trans|]. auto.
Qed.

Lemma expand_safe fuel h :
  mac_wf h -> rwp out_of_fuel (expand getenv fuel h) (fun h' => keeps_defs h h' /\ dirty h' = false).
Proof.
  intros W. unfold expand. destruct (dirty h) eqn:D; [|by split; [apply keeps_keeps_defs, keeps_refl|]]. apply rwp_bind.
  eapply rwp_mono; [by apply (expand_loop_safe fuel fuel h [] (entries h))|]. intros h' ((W' & Lv & Su & U & l & E & N) & F & _). cbn [rwp].
  split; [|done]. split; [|repeat split; by try exists l]. destruct W'. split; [done..|].
  intros _. eapply Forall_impl; [exact F|]. auto.
Qed.

Lemma output_start dest t : length t < length dest -> output dest 0 t = t ++ 0%Z :: drop (S (length t)) dest.
Proof.
  intros H. destruct (cut_buffer dest 0 (length t) H) as (a & b & x & c & -> & La & Lb). rewrite output_split by done.
  destruct a; [|done]. simpl. f_equal. f_equal. replace (b ++ x :: c) with ((b ++ [x]) ++ c) by (by rewrite <- app_assoc).
  rewrite drop_app_all; [done|]. llia.
Qed.

Lemma macExpandString_safe fuel h src dest capacity :
  mac_wf h -> capacity <= length dest ->
  rwp out_of_fuel (macExpandString getenv fuel h src dest capacity) (fun '(n, dest', h') =>
    keeps_defs h h' /\
    if capacity <=? 1 then n = (-1)%Z /\ dest' = dest
    else exists t, no_nul t /\ length t < capacity /\ dest' = t ++ 0%Z :: drop (S (length t)) dest /\ Z.abs n = zlen t).
Proof.
  intros W C. unfold macExpandString. destruct (Nat.leb_spec capacity 1).
  { split; [|done]. by apply keeps_keeps_defs, keeps_refl. }
  apply rwp_bind. eapply rwp_mono; [by apply expand_safe|]. intros h1 [K1 _]. rewrite poke_in by lia. cbn [ebind].
  assert (Pre : trans_pre (capacity - 1) (mkTrans h1 (<[0 := 0%Z]> dest) 0 false 0)).
  { split; cbn [v mem handle]; [rewrite length_insert; lia|apply list_lookup_insert_eq; lia|apply K1]. }
  apply rwp_bind. eapply rwp_mono; [apply trans_safe_all; [exact Pre|cbn [r]; lia]|]. intros st (t & L & N & M & V & K). cbn [rwp].
  cbn [v mem handle] in *. split; [eapply keeps_defs_trans; [done|by apply keeps_keeps_defs]|]. exists t. split; [done|]. split; [lia|].
  rewrite output_nul, output_start in M by lia. split; [done|]. destruct (err st); lia.
Qed.
End expand.
