(* ===== verification/MacApi.v ===== *)
(** * Macro handles: sequences of calls, and the scopes they refine

    Every sequence of calls on a handle keeps the invariant and stays inside the buffers; the definitions of a handle
    are a stack of maps, one for each scope, the innermost first. *)

From stdpp Require Import base numbers list option strings gmap.
From Stdlib Require Import ZArith Lia Bool.
From S2P Require Import Prelude CStdlib EpicsString MacLib MacScope MacSafe.
#[local] Open Scope nat_scope.

(** ** Calls *)

Inductive mac_call :=
  | CallPut (nm val : list Z) | CallRemove (nm : list Z) | CallPush | CallPop | CallSuppress (sup : bool)
  | CallExpand (src dest : list Z) | CallGet (nm : list Z) (capacity : nat).

(** ** The specification: a stack of scopes *)

Abbreviation scope := (gmap (list Z) (list Z)).

Fixpoint scopes_lookup (nm : list Z) (st : list scope) : option (list Z) :=
  match st with
  | [] => None
  | m :: st => match m !! nm with Some val => Some val | None => scopes_lookup nm st end
  end.

Definition scopes_call (c : mac_call) (st : list scope) : list scope :=
  match c, st with
  | CallPut nm val, m :: st => <[nm := val]> m :: st
  | CallRemove nm, st => map (base.delete nm) st
  | CallPush, st => ∅ :: st
  | CallPop, _ :: (_ :: _) as st' => st'
  | _, st => st
  end.

(** What a call returns, as far as the definitions determine it. *)
Definition scopes_result (c : mac_call) (st : list scope) (n : Z) : Prop :=
  match c with
  | CallPut nm val => n = zlen val
  | CallRemove _ => n = 0%Z
  | CallPop => n = match st with _ :: _ :: _ => 0%Z | _ => (-1)%Z end
  | CallGet nm capacity =>
      match scopes_lookup nm st with
      | None => n = if capacity <=? 1 then (-1)%Z else fst (get_name nm capacity)
      | Some _ => capacity <= 1 -> n = 0%Z
      end
  | _ => True
  end.

(** The scopes of a handle. *)
Definition add_macro_entry (st : list scope) (e : MAC_ENTRY) : list scope :=
  if special e then ∅ :: st
  else match rawval e, st with Some val, m :: st => <[name e := val]> m :: st | _, st => st end.

Definition scopes (h : MAC_HANDLE) : list scope := fold_left add_macro_entry (entries h) [∅].

Section api.
Context (getenv : list Z -> option (list Z)).

Definition mac_exec (fuel : nat) (h : MAC_HANDLE) (c : mac_call) : mac (Z * MAC_HANDLE) :=
  match c with
  | CallPut nm val => macPutValue getenv h nm val
  | CallRemove nm => macPutNull getenv h nm
  | CallPush => inr (0%Z, macPushScope h)
  | CallPop => inr (macPopScope getenv h)
  | CallSuppress b => inr (0%Z, macSuppressWarning h b)
  | CallExpand src dest => let* '(n, _, h) := macExpandString getenv fuel h src dest (length dest) in inr (n, h)
  | CallGet nm capacity => let* '(n, _, h) := macGetValue getenv fuel h nm capacity in inr (n, h)
  end.

Fixpoint mac_run (fuel : nat) (h : MAC_HANDLE) (cs : list mac_call) : mac MAC_HANDLE :=
  match cs with
  | [] => inr h
  | c :: cs => let* '(_, h) := mac_exec fuel h c in mac_run fuel h cs
  end.

(** ** The invariant *)

Lemma scoped_filter (P : MAC_ENTRY -> bool) l n :
  (forall e, e ∈ l -> P e = false -> plain e) -> scoped n l -> scoped n (List.filter P l) /\ nmarks (List.filter P l) = nmarks l.
Proof.
  revert n. induction l as [|e l IH]; intros n K; simpl; [done|]. intros [E Sc].
  destruct (IH _ (fun e' I => K e' (list_elem_of_further _ _ _ I)) Sc) as [S1 N1]. destruct (P e) eqn:Pe; simpl; [by rewrite N1|].
  pose proof (K e ltac:(by left) Pe) as Pl. unfold plain, marks in *. rewrite Pl in *. by rewrite Nat.add_0_r in *.
Qed.

(** Deleting entries that are not markers. *)
Lemma filter_wf h h' (P : MAC_ENTRY -> bool) :
  mac_wf h -> (forall e, e ∈ entries h -> P e = false -> plain e) -> entries h' = List.filter P (entries h) ->
  level h' = level h -> next_mid h' = next_mid h -> dirty h' = true -> mac_wf h'.
Proof.
  intros [W N Sc L _] K E Lv Nx D. destruct (scoped_filter P (entries h) 0 K Sc) as [Sc' N'].
  assert (Sub : sublist (List.filter P (entries h)) (entries h)).
  { clear. induction (entries h) as [|e l IH]; simpl; [constructor|]. destruct (P e); constructor; auto. }
  split; rewrite ?E, ?Lv, ?Nx, ?D; [| |done|congruence|done].
  - rewrite Forall_forall in W |- *. intros e I%list_elem_of_In. apply List.filter_In in I as [I _]. apply W. by apply list_elem_of_In.
  - eapply sublist_NoDup; [exact N|]. by apply (fmap_sublist mid).
Qed.
Lemma macPutValue_wf h nm val :
  mac_wf h -> exists h', macPutValue getenv h nm val = inr (zlen val, h') /\ mac_wf h'.
Proof.
  intros W. unfold macPutValue. destruct (lookup_spec getenv h nm false W) as (K & Fd & _ & _).
  destruct (lookup getenv h nm false) as [x h1]. cbn [fst snd] in *. pose proof (keeps_wf _ _ K) as W1.
  destruct x as [x|]; [|eexists; split; [done|by apply put_new_wf]].
  destruct (Fd _ eq_refl) as (e & (Ie & Ex & Se & En) & _). rewrite (entry_at_spec _ _ e) by done. cbn [ebind].
  destruct (elevel e <? level h1); eexists; (split; [done|]); [by apply put_new_wf|by apply put_rawval_wf].
Qed.

Lemma delete_wf h x e : mac_wf h -> e ∈ entries h -> mid e = x -> plain e -> mac_wf (delete h x).
Proof.
  intros W I E Pl. eapply filter_wf; [exact W| |done..]. intros e' I' Eq%negb_false_iff%Nat.eqb_eq.
  rewrite (mid_inj (entries h) e' e); [done|apply W|done|done|congruence].
Qed.

Lemma delete_shorter h x e : e ∈ entries h -> mid e = x -> length (entries (delete h x)) < length (entries h).
Proof.
  intros I <-. unfold delete. cbn [set_dirty set_entries entries]. apply list_elem_of_split in I as (a & b & ->).
  rewrite List.filter_app. simpl. rewrite Nat.eqb_refl. simpl. rewrite !length_app. simpl.
  pose proof (List.filter_length_le (fun e' => negb (mid e' =? mid e)) a). pose proof (List.filter_length_le (fun e' => negb (mid e' =? mid e)) b). lia.
Qed.

(** The loop of [macPutValue] with NULL ends: every round deletes an entry, and only one may come from the environment. *)
Lemma remove_value_wf nm n : forall h,
  mac_wf h -> S (length (entries h)) < n -> exists h', remove_value getenv n h nm = inr h' /\ mac_wf h'.
Proof.
  induction n as [|n IH]; intros h W L; [lia|]. simpl. destruct (lookup_spec getenv h nm false W) as (K & Fd & _ & _).
  pose proof (keeps_wf _ _ K) as W1.
  destruct (lookup getenv h nm false) as [x h1]. cbn [fst snd] in *. destruct x as [x|]; [|by eexists].
  destruct (Fd x eq_refl) as (e & (Ie & Ex & Se & _) & Or). rewrite (entry_at_spec _ _ e) by done. cbn [ebind].
  assert (Wd : mac_wf (delete h1 x)) by (by apply (delete_wf h1 x e)). destruct (env_var e) eqn:Ev; [by eexists|].
  destruct Or as [->|]; [|done]. apply IH; [done|]. pose proof (delete_shorter h x e Ie Ex). lia.
Qed.

Lemma last_marker l : nmarks l <> 0 -> exists a mk q, l = a ++ mk :: q /\ special mk = true /\ Forall plain q.
Proof.
  induction l as [|e l IH] using rev_ind; [done|]. rewrite nmarks_app. simpl. rewrite Nat.add_0_r. unfold marks.
  destruct (special e) eqn:Sp; [intros _; by exists l, e, []|]. intros N. destruct IH as (a & mk & q & -> & S1 & P1); [lia|].
  exists a, mk, (q ++ [e]). split; [by rewrite <- app_assoc|]. split; [done|]. apply Forall_app. split; [done|by constructor].
Qed.

(** There is a scope to pop unless the level is zero. *)
Lemma macPopScope_cases h :
  mac_wf h ->
  (level h = 0 /\ macPopScope getenv h = ((-1)%Z, h)) \/
  exists P mk q, entries h = P ++ mk :: q /\ special mk = true /\ Forall plain q /\ fst (macPopScope getenv h) = 0%Z /\
    mac_wf (snd (macPopScope getenv h)) /\ entries (snd (macPopScope getenv h)) = P /\ use_env (snd (macPopScope getenv h)) = use_env h.
Proof.
  intros W. destruct (Nat.eq_dec (level h) 0) as [L|L].
  - left. split; [done|]. unfold macPopScope. by rewrite L.
  - right. destruct (last_marker (entries h)) as (a & mk & q & E & Sp & Pq); [rewrite <- (wf_level _ W); done|].
    destruct (macPopScope_spec getenv a mk h W) as (F & W' & E' & _ & _ & U & _); [|done|].
    + exists q. by rewrite <- app_assoc.
    + by exists a, mk, q.
Qed.

Lemma macGetValue_safe fuel h nm capacity :
  mac_wf h -> rwp out_of_fuel (macGetValue getenv fuel h nm capacity) (fun '(_, _, h') => keeps_defs h h').
Proof.
  intros W. unfold macGetValue. destruct (lookup_spec getenv h nm false W) as (K & Fd & _ & _).
  destruct (lookup getenv h nm false) as [x h1]. cbn [fst snd] in *. destruct (capacity <=? 1); [by apply keeps_keeps_defs|].
  destruct x as [x|]; [|by apply keeps_keeps_defs]. apply rwp_bind.
  eapply rwp_mono; [apply expand_safe; by destruct K|]. intros h2 [K2 D2].
  destruct (Fd x eq_refl) as (e & (Ie & Ex & Se & _) & _). destruct K2 as (W2 & L2 & Su2 & U2 & l & E2 & N2).
  (* the entry is still there, with a value *)
  assert (exists e2, e2 ∈ entries h2 /\ mid e2 = x /\ special e2 = false) as (e2 & I2 & M2 & S2).
  { assert (I' : forget e ∈ map forget (entries h2)) by (rewrite E2; apply elem_of_app; left; by apply (list_elem_of_fmap_2 forget)).
    apply (list_elem_of_fmap forget) in I' as (e2 & Ef & I2). exists e2. split; [done|].
    pose proof (f_equal mid Ef) as Em. pose proof (f_equal special Ef) as Es. simpl in Em, Es. split; [congruence|]. unfold plain in *. congruence. }
  rewrite (entry_at_spec _ _ e2) by done. cbn [ebind]. pose proof (wf_clean _ W2 D2) as C. rewrite Forall_forall in C.
  destruct (C e2 I2 S2) as [m ->]. cbn [rwp]. eapply keeps_defs_trans; [by apply keeps_keeps_defs|]. split; [done|]. split_and!; [done..|]. by exists l.
Qed.

(** One call: no fault but for the fuel of an expansion, and the invariant. *)
Lemma mac_exec_wf fuel h c : mac_wf h -> rwp out_of_fuel (mac_exec fuel h c) (fun '(_, h') => mac_wf h').
Proof.
  intros W. destruct c; simpl.
  - destruct (macPutValue_wf h nm val W) as (h' & -> & W'). done.
  - unfold macPutNull. apply rwp_bind. destruct (remove_value_wf nm (S (S (length (entries h)))) h W) as (h' & -> & W'); [lia|]. done.
  - by apply macPushScope_spec.
  - destruct (macPopScope_cases h W) as [(_ & ->)|(P & mk & q & _ & _ & _ & _ & W' & _)]; [done|]. by destruct (macPopScope _ h).
  - by apply set_suppress_wf.
  - apply rwp_bind. eapply rwp_mono; [by apply macExpandString_safe|]. intros [[n d] h'] [K _]. apply K.
  - apply rwp_bind. eapply rwp_mono; [by apply macGetValue_safe|]. intros [[n d] h'] K. apply K.
Qed.

(** ** Handles without the environment as stacks of scopes *)

Definition closed (h : MAC_HANDLE) : Prop := mac_wf h /\ use_env h = false /\ Forall (fun e => env_var e = false) (entries h).

Definition ok_entries (l : list MAC_ENTRY) : Prop := Forall (fun e => special e = false -> is_Some (rawval e)) l.

Lemma closed_ok h : closed h -> ok_entries (entries h).
Proof. intros (W & _). eapply Forall_impl; [apply W|]. intros e (_ & _ & R & _). done. Qed.

Definition named (nm : list Z) (e : MAC_ENTRY) : bool := Bool.eqb (special e) false && bool_decide (name e = nm).

Lemma named_spec nm e : named nm e = true <-> plain e /\ name e = nm.
Proof. clear. unfold named, plain. destruct (special e); simpl; [split; [done|by intros []]|]. rewrite bool_decide_eq_true. tauto. Qed.

Lemma named_plain nm e : plain e -> named nm e = bool_decide (name e = nm).
Proof. unfold named, plain. by intros ->. Qed.

Lemma named_marker nm e : special e = true -> named nm e = false.
Proof. unfold named. by intros ->. Qed.

Lemma add_marker st e : special e = true -> add_macro_entry st e = ∅ :: st.
Proof. unfold add_macro_entry. by intros ->. Qed.

Lemma add_macro m st e val : plain e -> rawval e = Some val -> add_macro_entry (m :: st) e = <[name e := val]> m :: st.
Proof. unfold add_macro_entry, plain. by intros -> ->. Qed.

Lemma add_cons l m st : exists m' st', fold_left add_macro_entry l (m :: st) = m' :: st'.
Proof.
  revert m st. induction l as [|e l IH]; intros m st; [by do 2 eexists|]. change (exists m' st', fold_left add_macro_entry l (add_macro_entry (m :: st) e) = m' :: st').
  unfold add_macro_entry at 2. destruct (special e); [apply IH|]. destruct (rawval e); apply IH.
Qed.

(** The map of an innermost scope, after plain entries. *)
Lemma add_plain l m st : Forall plain l -> exists m', fold_left add_macro_entry l (m :: st) = m' :: st.
Proof.
  revert m. induction l as [|e l IH]; intros m F; [by eexists|]. apply Forall_cons in F as [P F].
  change (exists m', fold_left add_macro_entry l (add_macro_entry (m :: st) e) = m' :: st). unfold add_macro_entry at 2.
  rewrite P. destruct (rawval e); auto.
Qed.

(** The scopes as a fold from the right end. *)
Lemma scopes_snoc l e : fold_left add_macro_entry (l ++ [e]) [∅] = add_macro_entry (fold_left add_macro_entry l [∅]) e.
Proof. by rewrite fold_left_app. Qed.

(** Induction from the right, with the cases of the last entry. *)
Lemma entries_ind (Q : list MAC_ENTRY -> list scope -> Prop) :
  Q [] [∅] ->
  (forall l e m st, Q l (m :: st) -> special e = true -> Q (l ++ [e]) (∅ :: m :: st)) ->
  (forall l e m st val, Q l (m :: st) -> plain e -> rawval e = Some val -> Q (l ++ [e]) (<[name e := val]> m :: st)) ->
  forall l, ok_entries l -> Q l (fold_left add_macro_entry l [∅]).
Proof.
  intros Q0 Qs Qp l. induction l as [|e l IH] using rev_ind; [done|]. intros O.
  apply Forall_app in O as [O Oe]. apply Forall_cons in Oe as [Oe _]. specialize (IH O). rewrite scopes_snoc.
  destruct (add_cons l ∅ []) as (m & st & E). rewrite E in IH |- *. destruct (special e) eqn:Sp.
  - rewrite add_marker by done. by apply Qs.
  - destruct (Oe eq_refl) as [val Rv]. rewrite (add_macro m st e val) by done. by apply Qp.
Qed.

Lemma lookup_refines l nm : ok_entries l ->
  scopes_lookup nm (fold_left add_macro_entry l [∅]) = match List.find (named nm) (rev l) with Some e => rawval e | None => None end.
Proof.
  revert l. apply (entries_ind (fun l st => scopes_lookup nm st = match List.find (named nm) (rev l) with Some e => rawval e | None => None end));
    [done|..]; clear; [intros l e m st IH Sp|intros l e m st val IH Pe Rv]; rewrite rev_app_distr; simpl.
  - by rewrite named_marker, lookup_empty.
  - rewrite named_plain by done. case_bool_decide as N; [by rewrite N, lookup_insert_eq|]. by rewrite lookup_insert_ne.
Qed.

Lemma lookup_closed h nm :
  closed h -> snd (lookup getenv h nm false) = h /\
  scopes_lookup nm (scopes h) = match fst (lookup getenv h nm false) with Some x => match entry_at h x with inr e => rawval e | _ => None end | None => None end.
Proof.
  intros C. unfold scopes. rewrite lookup_refines by (by apply closed_ok). destruct C as (W & U & _). unfold lookup, named.
  destruct (List.find _ _) as [e|] eqn:F; simpl; [|by rewrite U].
  destruct (lookup_found _ _ _ _ F) as (I & _). by rewrite (entry_at_spec _ _ e).
Qed.

Lemma remove_refines l nm : ok_entries l ->
  fold_left add_macro_entry (List.filter (fun e => negb (named nm e)) l) [∅] = map (base.delete nm) (fold_left add_macro_entry l [∅]).
Proof.
  revert l. apply (entries_ind (fun l st => fold_left add_macro_entry (List.filter (fun e => negb (named nm e)) l) [∅] = map (base.delete nm) st));
    [simpl; by rewrite delete_empty|..]; clear;
    [intros l e m st IH Sp|intros l e m st val IH Pe Rv]; rewrite List.filter_app; cbn [List.filter].
  - rewrite named_marker by done. cbn [negb]. rewrite scopes_snoc, IH, add_marker by done. simpl. by rewrite delete_empty.
  - rewrite named_plain by done. case_bool_decide as N; cbn [negb].
    + rewrite app_nil_r, IH, N. simpl. by rewrite delete_insert_eq.
    + rewrite scopes_snoc, IH. simpl. rewrite (add_macro _ _ e val) by done. by rewrite delete_insert_ne.
Qed.

(** A new value for the last entry with the name, in the innermost scope. *)
Lemma put_refines a e b nm val :
  ok_entries (a ++ e :: b) -> plain e -> name e = nm -> Forall plain b -> Forall (fun e => named nm e = false) b ->
  fold_left add_macro_entry (a ++ set_rawval val e :: b) [∅] = scopes_call (CallPut nm val) (fold_left add_macro_entry (a ++ e :: b) [∅]).
Proof.
  intros O Pe <- Pb Nb. apply Forall_app in O as [_ O]. apply Forall_cons in O as [Oe Ob]. destruct (Oe Pe) as [old Rv].
  rewrite !fold_left_app. cbn [fold_left]. destruct (add_cons a ∅ []) as (m & st & ->).
  rewrite (add_macro m st e old), (add_macro m st (set_rawval val e) val) by done. cbn [name set_rawval].
  assert (G : forall m', fold_left add_macro_entry b (<[name e := val]> m' :: st) = scopes_call (CallPut (name e) val) (fold_left add_macro_entry b (m' :: st))).
  { clear Oe Rv. induction b as [|x b IH]; intros m'; [done|]. apply Forall_cons in Pb as [Px Pb], Nb as [Nx Nb], Ob as [Ox Ob].
    destruct (Ox Px) as [vx Rx]. cbn [fold_left]. rewrite !(add_macro _ _ x vx), <- IH by done. rewrite insert_insert_ne; [done|].
    intros E. assert (named (name e) x = true) by (by apply named_spec). congruence. }
  by rewrite <- G, insert_insert_eq.
Qed.

(** [expand] does not matter for the scopes. *)
Lemma scopes_forget l st : fold_left add_macro_entry (map forget l) st = fold_left add_macro_entry l st.
Proof. revert st. induction l as [|e l IH]; intros st; [done|]. exact (IH (add_macro_entry st e)). Qed.

Lemma keeps_defs_closed h h' : closed h -> keeps_defs h h' -> closed h' /\ scopes h' = scopes h.
Proof.
  intros (W & U & Ev) (W' & _ & _ & U' & l & E & N). rewrite N in E by done. cbn [map] in E. rewrite app_nil_r in E. split.
  - split; [done|]. split; [congruence|]. assert (M : Forall (fun e => env_var e = false) (map forget (entries h'))) by (rewrite E; by apply Forall_map).
    by apply Forall_map in M.
  - unfold scopes. by rewrite <- scopes_forget, E, scopes_forget.
Qed.

Lemma closed_keeps h h' : closed h -> keeps h h' -> closed h' /\ scopes h' = scopes h.
Proof. intros C K. by apply keeps_defs_closed, keeps_keeps_defs. Qed.

Lemma put_new_refines h nm val :
  closed h -> let h' := put_rawval (snd (create h nm false)) (next_mid h) val in
  closed h' /\ scopes h' = scopes_call (CallPut nm val) (scopes h).
Proof.
  intros (W & U & Ev) h'. pose proof (put_new_entries h nm val W) as E. split.
  - split; [by apply put_new_wf|]. split; [done|]. unfold h'. rewrite E. apply Forall_app. split; [done|by constructor].
  - unfold scopes, h'. rewrite E, scopes_snoc. destruct (add_cons (entries h) ∅ []) as (m & st & ->). by rewrite (add_macro m st _ val).
Qed.

Lemma macPutValue_refines h nm val :
  closed h -> exists h', macPutValue getenv h nm val = inr (zlen val, h') /\ closed h' /\ scopes h' = scopes_call (CallPut nm val) (scopes h).
Proof.
  intros C. destruct (lookup_closed h nm C) as [Eh _]. destruct C as (W & U & Ev) eqn:Ec. clear Ec.
  unfold macPutValue. destruct (lookup getenv h nm false) as [x h1] eqn:Lk. cbn [snd] in Eh. subst h1.
  destruct x as [x|]; [|eexists; split; [done|by apply put_new_refines]].
  (* the entry found is the last one with the name *)
  unfold lookup in Lk. destruct (List.find _ _) as [e|] eqn:F; [|by rewrite U in Lk]. injection Lk as <-.
  apply find_last in F as (a & b & E & Ne & Fb). fold (named nm e) in Ne. apply named_spec in Ne as [Pe En].
  assert (Ie : e ∈ entries h) by (rewrite E; apply elem_of_app; right; by left).
  rewrite (entry_at_spec _ _ e) by done. cbn [ebind]. destruct (Nat.ltb_spec (elevel e) (level h)) as [|Ge].
  { eexists. split; [done|by apply put_new_refines]. }
  eexists. split; [done|].
  assert (E' : entries (put_rawval h (mid e) val) = a ++ set_rawval val e :: b).
  { unfold put_rawval. cbn -[decide]. pose proof (wf_nodup _ W) as Nd. rewrite E in Nd |- *. rewrite map_app in Nd |- *. cbn [map] in Nd |- *.
    apply NoDup_app in Nd as (_ & Dj & Nd). apply NoDup_cons in Nd as [Nb _]. rewrite decide_True by done.
    rewrite !map_absent; [done|done|]. intros I. apply (Dj _ I). by left. }
  assert (Pb : Forall plain b).
  { pose proof (wf_scoped _ W) as Sc. pose proof (wf_level _ W) as Lv. rewrite E in Sc, Lv. apply scoped_app in Sc as [_ Sc].
    rewrite nmarks_app in Lv. simpl in Sc, Lv. destruct Sc as [El _]. assert (Z : nmarks b = 0) by lia. clear -Z.
    induction b as [|y b IH]; [constructor|]. simpl in Z. unfold marks in Z. unfold plain. destruct (special y) eqn:Sy; [lia|].
    constructor; [done|apply IH; lia]. }
  split; [split; [by apply put_rawval_wf|split; [done|]]|].
  - rewrite E'. rewrite E in Ev. apply Forall_app in Ev as [Ea Eb]. apply Forall_cons in Eb as [Ee Eb]. apply Forall_app. by split; [|constructor].
  - unfold scopes. rewrite E', E. apply put_refines; try done. rewrite <- E. by apply closed_ok.
Qed.

(** Deleting the entries of a name one after the other. *)
Lemma remove_value_refines nm n : forall h, closed h -> S (length (entries h)) < n ->
  exists h', remove_value getenv n h nm = inr h' /\ closed h' /\ scopes h' = scopes_call (CallRemove nm) (scopes h).
Proof.
  induction n as [|n IH]; intros h C L; [lia|]. simpl. destruct (lookup_closed h nm C) as [Eh Sl]. pose proof C as (W & U & Ev).
  destruct (lookup getenv h nm false) as [x h1] eqn:Lk. cbn [fst snd] in *. subst h1. unfold lookup in Lk.
  destruct (List.find _ _) as [e|] eqn:F.
  - injection Lk as <-. destruct (lookup_found _ _ _ _ F) as (Ie & _ & Pe & En). rewrite (entry_at_spec _ _ e) by done. cbn [ebind].
    assert (env_var e = false) as -> by (rewrite Forall_forall in Ev; auto).
    apply list_elem_of_split in Ie as Sp. destruct Sp as (a & b & E). pose proof (wf_nodup _ W) as Nd.
    pose proof (delete_cut a b h (mid e) e E Nd eq_refl) as Ed.
    assert (Cd : closed (delete h (mid e))).
    { split; [by apply (delete_wf h _ e)|]. split; [done|]. rewrite Ed. rewrite E in Ev. apply Forall_app in Ev as [Ea Eb].
      apply Forall_cons in Eb as [_ Eb]. by apply Forall_app. }
    pose proof (delete_shorter h (mid e) e Ie eq_refl). destruct (IH _ Cd) as (h' & -> & C' & S'); [lia|]. exists h'. split; [done|]. split; [done|].
    rewrite S'. cbn [scopes_call]. unfold scopes.
    rewrite <- !remove_refines by (by apply closed_ok). f_equal. rewrite Ed, E, !List.filter_app. cbn [List.filter].
    assert (named nm e = true) as -> by (by apply named_spec). done.
  - rewrite U in Lk. injection Lk as <-. exists h. split; [done|]. split; [done|]. cbn [scopes_call]. unfold scopes.
    rewrite <- remove_refines by (by apply closed_ok). f_equal. symmetry. rewrite <- (List.rev_involutive (entries h)).
    clear -F. induction (rev (entries h)) as [|y l IH]; [done|]. simpl in F. fold (named nm y) in F. destruct (named nm y) eqn:Ny; [done|].
    simpl. rewrite List.filter_app. simpl. rewrite Ny. simpl. by rewrite IH.
Qed.

(** How a call fails: only an expansion may run out of fuel. *)
Definition call_fault (c : mac_call) (e : mac_fault) : Prop :=
  match c with CallExpand _ _ | CallGet _ _ => e = mac_fuel | _ => False end.

Lemma lookup_result h nm : closed h ->
  match fst (lookup getenv h nm false) with
  | Some x => exists e, is_entry h nm false x e /\ scopes_lookup nm (scopes h) = rawval e /\ is_Some (rawval e)
  | None => scopes_lookup nm (scopes h) = None
  end.
Proof.
  intros C. destruct (lookup_closed h nm C) as [Eh ->]. pose proof C as (W & _). destruct (lookup_spec getenv h nm false W) as (_ & Fd & _).
  rewrite Eh in Fd. destruct (fst (lookup getenv h nm false)) as [x|]; [|done]. destruct (Fd x eq_refl) as (e & I & _).
  exists e. split; [done|]. destruct I as (I & Ex & Se & _). rewrite (entry_at_spec _ _ e) by done. split; [done|].
  pose proof (closed_ok h C) as O. unfold ok_entries in O. rewrite Forall_forall in O. auto.
Qed.

Lemma macGetValue_refines fuel h nm capacity : closed h ->
  rwp out_of_fuel (macGetValue getenv fuel h nm capacity)
    (fun '(n, _, h') => keeps_defs h h' /\ scopes_result (CallGet nm capacity) (scopes h) n).
Proof.
  intros C. pose proof C as (W & _). pose proof (macGetValue_safe fuel h nm capacity W) as S1. pose proof (lookup_result h nm C) as Lr.
  destruct (lookup_closed h nm C) as [Eh _]. unfold macGetValue in *.
  destruct (lookup getenv h nm false) as [x h1]. cbn [fst snd] in *. subst h1. cbn [scopes_result].
  destruct x as [x|].
  - destruct Lr as (e & _ & -> & [val ->]). destruct (Nat.leb_spec capacity 1); [by split; [apply keeps_keeps_defs, keeps_refl|]|].
    eapply rwp_mono; [exact S1|]. intros [[n d] h'] K. split; [done|lia].
  - rewrite Lr. destruct (capacity <=? 1); [by split; [apply keeps_keeps_defs, keeps_refl|]|].
    destruct (get_name nm capacity). by split; [apply keeps_keeps_defs, keeps_refl|].
Qed.

Lemma macPopScope_refines h : closed h ->
  closed (snd (macPopScope getenv h)) /\ scopes (snd (macPopScope getenv h)) = scopes_call CallPop (scopes h) /\
  scopes_result CallPop (scopes h) (fst (macPopScope getenv h)).
Proof.
  intros C. pose proof C as (W & U & Ev). unfold scopes.
  destruct (macPopScope_cases h W) as [(L & E)|(P & mk & q & E & Sp & Pq & F & W' & E' & U')].
  - rewrite E. rewrite (wf_level _ W) in L. simpl.
    assert (Pl : Forall plain (entries h)).
    { clear -L. induction (entries h) as [|y b IH]; [constructor|]. simpl in L. unfold marks in L. unfold plain. destruct (special y) eqn:Sy; [lia|].
      constructor; [done|apply IH; lia]. }
    destruct (add_plain (entries h) ∅ [] Pl) as (m & ->). done.
  - rewrite E', F, E. rewrite E in Ev. apply Forall_app in Ev as [Ep _]. split; [by rewrite <- E' in Ep; split; [|split; [congruence|]]|].
    rewrite fold_left_app. cbn [fold_left]. destruct (add_cons P ∅ []) as (m & st & ->). rewrite add_marker by done.
    destruct (add_plain q ∅ (m :: st) Pq) as (m' & ->). done.
Qed.

(** (C5) A handle that does not use the environment refines a stack of maps: every call has the effect of the operation
    on scopes - a definition goes to the innermost scope, a scope hides the ones below and takes its definitions with it
    when it is popped, removing a macro removes it from every scope - and returns what the scopes determine.  Expanding
    changes no definition.  Only an expansion can run out of fuel, and no call has another fault. *)
Theorem mac_refines_scopes fuel h c :
  closed h ->
  rwp (call_fault c) (mac_exec fuel h c)
    (fun '(n, h') => closed h' /\ scopes h' = scopes_call c (scopes h) /\ scopes_result c (scopes h) n).
Proof.
  intros C. pose proof C as (W & U & Ev). destruct c; simpl mac_exec.
  - destruct (macPutValue_refines h nm val C) as (h' & -> & C' & S'). done.
  - unfold macPutNull. apply rwp_bind.
    destruct (remove_value_refines nm (S (S (length (entries h)))) h C) as (h' & -> & C' & S'); [lia|]. done.
  - destruct (macPushScope_spec h W) as (W' & _ & _ & U' & E'). split; [|split; [|done]].
    + split; [done|]. split; [done|]. rewrite E'. apply Forall_app. split; [done|by constructor].
    + unfold scopes. by rewrite E', scopes_snoc.
  - destruct (macPopScope_refines h C) as (C' & S' & R'). by destruct (macPopScope getenv h).
  - split; [|done]. split; [by apply set_suppress_wf|done].
  - apply rwp_bind. eapply rwp_mono; [by apply macExpandString_safe|]. intros [[n d] h'] [K _]. by destruct (keeps_defs_closed h h' C K).
  - apply rwp_bind. eapply rwp_mono; [by apply macGetValue_refines|]. intros [[n d] h'] [K R]. by destruct (keeps_defs_closed h h' C K).
Qed.

(** (C11) Memory safety of the library: from [macCreateHandle] with any definitions, any sequence of calls with any strings, and any
    environment, never writes outside of a buffer, reads behind the end of a string or follows a NULL pointer
    (the only fault is fuel, which an expansion may use up), and the handle satisfies the invariant. *)
Theorem mac_calls_safe fuel pairs cs :
  rwp out_of_fuel (let* h := macCreateHandle getenv pairs in mac_run fuel h cs) mac_wf.
Proof.
  assert (W0 : forall b, mac_wf (mkHandle false 0 [] false b 0)) by (intros b; split; by try constructor).
  assert (R : forall cs h, mac_wf h -> rwp out_of_fuel (mac_run fuel h cs) mac_wf).
  { clear. induction cs as [|c cs IH]; intros h W; [done|]. simpl. apply rwp_bind. eapply rwp_mono; [by apply mac_exec_wf|].
    intros [n h'] W'. by apply IH. }
  assert (P : forall ps h, mac_wf h -> rwp out_of_fuel (put_pairs getenv ps h) mac_wf).
  { clear. induction ps as [|[nm [val|]] ps IH]; intros h W; [done|..]; simpl; apply rwp_bind.
    - destruct (macPutValue_wf h nm val W) as (h' & -> & W'). by apply IH.
    - unfold macPutNull. apply rwp_bind. destruct (remove_value_wf nm (S (S (length (entries h)))) h W) as (h' & -> & W'); [lia|].
      by apply IH. }
  apply rwp_bind. apply (rwp_mono _ _ mac_wf); [|auto]. unfold macCreateHandle.
  destruct pairs as [|[[|c nm] [val|]] ps]; auto. destruct (_ && _); [apply W0|auto].
Qed.

(** (C39) What [macExpandString] writes: for every handle in the invariant, every source and a buffer of at least [capacity] bytes, the
    result is a string of less than [capacity] characters with its NUL, the bytes behind it are as they were, and the
    absolute value of the result is its length; with a capacity below two nothing is written and the result is -1.  The
    definitions are as before, macros the string itself defines are gone. *)
Theorem mac_expand_bounds fuel h src dest capacity :
  mac_wf h -> capacity <= length dest ->
  rwp out_of_fuel (macExpandString getenv fuel h src dest capacity) (fun '(n, dest', h') =>
    keeps_defs h h' /\
    if capacity <=? 1 then n = (-1)%Z /\ dest' = dest
    else exists t, no_nul t /\ length t < capacity /\ dest' = t ++ 0%Z :: drop (S (length t)) dest /\ Z.abs n = zlen t).
Proof. apply macExpandString_safe. Qed.
End api.

(** The handle and the string of a test: [ovcheck] of [macLibTest.c]. *)
Definition ov_handle : MAC_HANDLE :=
  mkHandle true 0 [mkMacro 0 (cs "OVVAR") false (Some (cs "abcdefghijklmnopqrstuvwxyz")) None 0 false false false 0] false false 1.

Lemma ov_handle_wf : mac_wf ov_handle.
Proof.
  split; simpl; [|apply NoDup_singleton|done|done|done]. constructor; [|done]. split; [simpl; lia|]. split_and!; [done|by eexists|done].
Qed.

Lemma mac_expand_bounds_witness :
  let dest := replicate 54 126%Z in
  (mac_wf ov_handle /\ 52 <= length dest) /\
  (exists dest' h', macExpandString (fun _ => None) 60 ov_handle (cs "abcdefghijklmnopqrstuvwxyz$(OVVAR)") dest 52 = inr (51%Z, dest', h') /\
     drop 50 dest' = [121; 0; 126; 126]%Z) /\
  rwp out_of_fuel (macExpandString (fun _ => None) 60 ov_handle (cs "abcdefghijklmnopqrstuvwxyz$(OVVAR)") dest 52) (fun '(n, dest', h') =>
    keeps_defs ov_handle h' /\
    if 52 <=? 1 then n = (-1)%Z /\ dest' = dest
    else exists t, no_nul t /\ length t < 52 /\ dest' = t ++ 0%Z :: drop (S (length t)) dest /\ Z.abs n = zlen t).
Proof.
  assert (L : 52 <= length (replicate 54 126%Z)) by (simpl; lia).
  split; [split; [apply ov_handle_wf|exact L]|]. split; [do 2 eexists; vm_compute; by split|].
  exact (mac_expand_bounds _ 60 ov_handle _ _ 52 ov_handle_wf L).
Defined.

Lemma mac_refines_scopes_witness :
  closed ov_handle /\
  rwp (call_fault CallPush) (mac_exec (fun _ => None) 0 ov_handle CallPush)
    (fun '(n, h') => closed h' /\ scopes h' = [∅; {[cs "OVVAR" := cs "abcdefghijklmnopqrstuvwxyz"]}] /\ True).
Proof.
  assert (C : closed ov_handle) by (split; [apply ov_handle_wf|split; [done|by repeat constructor]]).
  split; [exact C|]. exact (mac_refines_scopes (fun _ => None) 0 ov_handle CallPush C).
Defined.
