(* ===== verification/MacTemplate.v ===== *)
(** * Templates: what macro strings mean

    The strings with references, quotes and escapes are those [print] gives for a [tmpl]; [eval] is their meaning, for a
    meaning [look] of the macros.  References with scoped macros are not among them. *)

From stdpp Require Import base numbers list option gmap.
From Stdlib Require Import ZArith Lia Bool.
From S2P Require Import Prelude CStdlib EpicsString MacLib MacScope MacSafe.
#[local] Open Scope nat_scope.

(** ** Computations with fuel *)

(** With enough fuel the result is [x]. *)
Definition converges {A} (m : nat -> mac A) (x : A) : Prop := exists n, forall fuel, n <= fuel -> m fuel = inr x.

Lemma converges_ret {A} (x : A) : converges (fun _ => inr x) x.
Proof. by exists 0. Qed.

Lemma converges_ext {A} (m m' : nat -> mac A) x : (forall fuel, m fuel = m' fuel) -> converges m' x -> converges m x.
Proof. intros E [n H]. exists n. intros fuel L. rewrite E. auto. Qed.

Lemma converges_bind {A B} (m : nat -> mac A) (k : A -> nat -> mac B) x y :
  converges m x -> converges (k x) y -> converges (fun fuel => let* a := m fuel in k a fuel) y.
Proof. intros [n H] [n' H']. exists (n + n'). intros fuel L. rewrite H by lia. apply H'. lia. Qed.

(** One unit of fuel for the call itself. *)
Lemma converges_step {A} (m m' : nat -> mac A) x : (forall fuel, m (S fuel) = m' fuel) -> converges m' x -> converges m x.
Proof. intros E [n H]. exists (S n). intros [|fuel] L; [lia|]. rewrite E. apply H. lia. Qed.

(** ** Templates *)

Inductive tmpl :=
  | TEnd
  | TLit (c : Z) (t : tmpl)
  | TEsc (c : Z) (t : tmpl)
  | TDq (u t : tmpl)                         (** in double quotes *)
  | TSq (s : list Z) (t : tmpl)              (** in single quotes *)
  | TRef (brace : bool) (nm t : tmpl)        (** [$(nm)] *)
  | TDef (brace : bool) (nm d t : tmpl).     (** [$(nm=d)] *)

Definition opening (brace : bool) : Z := if brace then LBRACE else LPAREN.
Definition closing (brace : bool) : Z := if brace then RBRACE else RPAREN.

Fixpoint print (t : tmpl) : list Z :=
  match t with
  | TEnd => []
  | TLit c t => c :: print t
  | TEsc c t => BACKSLASH :: c :: print t
  | TDq u t => DQUOTE :: print u ++ DQUOTE :: print t
  | TSq s t => SQUOTE :: s ++ SQUOTE :: print t
  | TRef b nm t => DOLLAR :: opening b :: print nm ++ closing b :: print t
  | TDef b nm d t => DOLLAR :: opening b :: print nm ++ EQUALS :: print d ++ closing b :: print t
  end.

(** A character that stands for itself, in quotes [q] (0: none). *)
Definition ordinary (term : list Z) (q c : Z) : bool :=
  negb (in_term term c) && negb (c =? DOLLAR)%Z && (if (q =? 0)%Z then negb (c =? DQUOTE)%Z && negb (c =? SQUOTE)%Z else negb (c =? q)%Z).

(** [tame]: an escaped character is one that would be ordinary without the escape.  Names and default values are tame because the code may
    scan them with no room in the buffer, and then does not skip what is escaped. *)
Fixpoint well_formed (tame : bool) (term : list Z) (q : Z) (t : tmpl) : bool :=
  match t with
  | TEnd => true
  | TLit c t => ordinary term q c && negb (c =? BACKSLASH)%Z && well_formed tame term q t
  | TEsc c t => negb (c =? 0)%Z && (negb tame || ordinary term q c) && well_formed tame term q t
  | TDq u t => (q =? 0)%Z && well_formed tame term DQUOTE u && well_formed tame term q t
  | TSq s t =>
      (q =? 0)%Z && forallb (fun c => negb (in_term term c) && negb (c =? SQUOTE)%Z && negb (c =? BACKSLASH)%Z) s && well_formed tame term q t
  | TRef b nm t => well_formed true [EQUALS; COMMA; closing b] 0 nm && well_formed tame term q t
  | TDef b nm d t =>
      well_formed true [EQUALS; COMMA; closing b] 0 nm && well_formed true [COMMA; closing b] 0 d && well_formed tame term q t
  end.

(** The text of a bad reference. *)
Definition bad_text (sup : bool) (refname errval : list Z) : list Z :=
  DOLLAR :: LPAREN :: refname ++ if sup then [RPAREN] else errval.

(** The meaning of a template and whether there was an error.  [look] gives the text of a macro; names have at most [MAC_SIZE]
    characters. *)
Fixpoint eval (look : list Z -> option (list Z * bool)) (sup discard : bool) (t : tmpl) : list Z * bool :=
  match t with
  | TEnd => ([], false)
  | TLit c t => let '(x, e) := eval look sup discard t in (c :: x, e)
  | TEsc c t => let '(x, e) := eval look sup discard t in ((if discard then [c] else [BACKSLASH; c]) ++ x, e)
  | TDq u t =>
      let '(y, e1) := eval look sup discard u in let '(x, e2) := eval look sup discard t in
      ((if discard then y else DQUOTE :: y ++ [DQUOTE]) ++ x, e1 || e2)
  | TSq s t => let '(x, e) := eval look sup discard t in ((if discard then s else SQUOTE :: s ++ [SQUOTE]) ++ x, e)
  | TRef _ nm t =>
      let '(n, e1) := eval look sup true nm in
      let '(y, e2) := default (bad_text sup (take MAC_SIZE n) UNDEFINED, true) (look (take MAC_SIZE n)) in
      let '(x, e3) := eval look sup discard t in (y ++ x, e1 || e2 || e3)
  | TDef _ nm d t =>
      let '(n, e1) := eval look sup true nm in
      let '(y, e2) := default (eval look sup true d) (look (take MAC_SIZE n)) in
      let '(x, e3) := eval look sup discard t in (y ++ x, e1 || e2 || e3)
  end.

(** ** Texts have no NUL *)

Definition look_no_nul (look : list Z -> option (list Z * bool)) : Prop := forall nm x e, no_nul nm -> look nm = Some (x, e) -> no_nul x.

Lemma no_nul_app a b : no_nul (a ++ b) <-> no_nul a /\ no_nul b.
Proof. apply Forall_app. Qed.

Lemma no_nul_cons c a : no_nul (c :: a) <-> c <> 0%Z /\ no_nul a.
Proof. unfold no_nul. by rewrite Forall_cons. Qed.

Lemma no_nul_take n a : no_nul a -> no_nul (take n a).
Proof. apply Forall_take. Qed.

Lemma in_term_nul term c : in_term term c = false -> c <> 0%Z.
Proof. unfold in_term. intros H ->. done. Qed.

Lemma ordinary_term term q c : ordinary term q c = true -> in_term term c = false /\ (c =? DOLLAR)%Z = false.
Proof. unfold ordinary. intros [[H1 H2]%andb_true_iff _]%andb_true_iff. by rewrite negb_true_iff in H1, H2. Qed.

Lemma bad_text_no_nul sup nm errval : no_nul nm -> no_nul errval -> no_nul (bad_text sup nm errval).
Proof.
  intros N E. unfold bad_text. rewrite !no_nul_cons, no_nul_app. repeat split; try done. destruct sup; [by constructor|done].
Qed.

Lemma errval_no_nul : no_nul UNDEFINED /\ no_nul RECURSIVE.
Proof. split; by repeat constructor. Qed.

Lemma eval_no_nul look sup : look_no_nul look -> forall t tame term q discard,
  well_formed tame term q t = true -> no_nul (fst (eval look sup discard t)).
Proof.
  intros Lk. induction t as [|c t IH|c t IH|u IHu t IH|s t IH|b nm IHn t IH|b nm IHn d IHd t IH]; intros tame term q discard W; simpl in W |- *.
  - constructor.
  - rewrite !andb_true_iff in W. destruct W as [[O _] W]. specialize (IH _ _ _ discard W). destruct (eval look sup discard t). simpl in *.
    apply ordinary_term in O as [O _]. apply no_nul_cons. split; [by eapply in_term_nul|done].
  - rewrite !andb_true_iff, negb_true_iff, Z.eqb_neq in W. destruct W as [[O _] W]. specialize (IH _ _ _ discard W).
    destruct (eval look sup discard t). simpl in *. apply no_nul_app. split; [|done]. destruct discard; by repeat constructor.
  - rewrite !andb_true_iff in W. destruct W as [[_ Wu] W]. specialize (IH _ _ _ discard W). specialize (IHu _ _ _ discard Wu).
    destruct (eval look sup discard t), (eval look sup discard u). simpl in *. apply no_nul_app. split; [|done].
    destruct discard; [done|]. apply no_nul_cons. split; [done|]. apply no_nul_app. split; [done|by constructor].
  - rewrite !andb_true_iff in W. destruct W as [[_ Ws] W]. specialize (IH _ _ _ discard W). destruct (eval look sup discard t). simpl in *.
    assert (no_nul s).
    { apply Forall_forall. intros c I. rewrite forallb_forall in Ws. specialize (Ws c (proj1 (list_elem_of_In _ _) I)).
      rewrite !andb_true_iff, !negb_true_iff in Ws. destruct Ws as [[T _] _]. by eapply in_term_nul. }
    apply no_nul_app. split; [|done]. destruct discard; [done|]. apply no_nul_cons. split; [done|]. apply no_nul_app. split; [done|by constructor].
  - rewrite !andb_true_iff in W. destruct W as [Wn W]. specialize (IH _ _ _ discard W). specialize (IHn _ _ _ true Wn).
    destruct (eval look sup true nm) as [n e1]. destruct (eval look sup discard t) as [x e3]. simpl in *.
    destruct (look (take MAC_SIZE n)) as [[y e2]|] eqn:L; simpl.
    + apply no_nul_app. split; [|done]. by eapply Lk, L; apply no_nul_take.
    + change (no_nul (bad_text sup (take MAC_SIZE n) UNDEFINED ++ x)). apply no_nul_app. split; [|done].
      apply bad_text_no_nul; [by apply no_nul_take|apply errval_no_nul].
  - rewrite !andb_true_iff in W. destruct W as [[Wn Wd] W]. specialize (IH _ _ _ discard W). specialize (IHn _ _ _ true Wn).
    specialize (IHd _ _ _ true Wd).
    destruct (eval look sup true nm) as [n e1]. destruct (eval look sup discard t) as [x e3], (eval look sup true d) as [y' e2']. simpl in *.
    destruct (look (take MAC_SIZE n)) as [[y e2]|] eqn:L; simpl; apply no_nul_app; (split; [|done]); [|done].
    by eapply Lk, L; apply no_nul_take.
Qed.
