(* ===== verification/MacExpand.v ===== *)
(** * Macro substitution computes the meaning of templates

    Translation of a template writes as much of its meaning as there is room for.  With this the values that [expand] computes and the
    result of [macExpandString] are determined for every buffer size. *)

From stdpp Require Import base numbers list option strings gmap.
From Stdlib Require Import ZArith Lia Bool.
From S2P Require Import Prelude CStdlib EpicsString MacLib MacScope MacSafe MacApi MacTemplate.
#[local] Open Scope nat_scope.

(** ** Text cut off at the limit *)

Definition outs (valend : nat) (t : list Z) (st : trans_state) : trans_state := outputs (fitting valend st t) st.
Definition ems (valend : nat) (t : list Z) (st : trans_state) : trans_state := emits (fitting valend st t) st.

Lemma fitting_app valend st st' a b :
  v st' = v st + length (fitting valend st a) -> fitting valend st (a ++ b) = fitting valend st a ++ fitting valend st' b.
Proof.
  intros V. unfold fitting in *. rewrite take_app. f_equal. rewrite V, length_take. f_equal.
  destruct (Nat.le_ge_cases (length a) (valend - v st)); [lia|].
  replace (valend - v st - length a) with 0 by lia. lia.
Qed.

Section outs.
Context (valend : nat) (st : trans_state) (Room : v st <= valend < length (mem st)).

Lemma fitting_total a b : length (fitting valend st a) + length (fitting valend (outs valend a st) b) <= valend - v st.
Proof.
  rewrite <- length_app, <- (fitting_app valend st (outs valend a st)) by done. apply fitting_length.
Qed.

Lemma outs_outs a b : outs valend b (outs valend a st) = outs valend (a ++ b) st.
Proof.
  pose proof (fitting_total a b). unfold outs in *. rewrite outputs_outputs by lia.
  by rewrite (fitting_app valend st (outputs (fitting valend st a) st)).
Qed.

Lemma ems_ems a b : ems valend b (ems valend a st) = ems valend (a ++ b) st.
Proof.
  pose proof (fitting_total a b). change (fitting valend (outs valend a st) b) with (fitting valend (ems valend a st) b) in H.
  unfold ems in *. rewrite emits_emits by lia.
  by rewrite (fitting_app valend st (emits (fitting valend st a) st)).
Qed.

Lemma outs_ems a b : outs valend b (ems valend a st) = outs valend (a ++ b) st.
Proof.
  pose proof (fitting_total a b). change (fitting valend (outs valend a st) b) with (fitting valend (ems valend a st) b) in H.
  unfold outs, ems in *. rewrite outputs_emits by lia.
  by rewrite (fitting_app valend st (emits (fitting valend st a) st)).
Qed.

Lemma ems_room a : v (ems valend a st) <= valend < length (mem (ems valend a st)).
Proof. apply emits_room; [lia|]. pose proof (fitting_length valend st a). lia. Qed.

Lemma outs_room a : v (outs valend a st) <= valend < length (mem (outs valend a st)).
Proof. apply outputs_room; [lia|]. pose proof (fitting_length valend st a). lia. Qed.

Lemma end_value_ems a : end_value (ems valend a st) = inr (outs valend a st).
Proof. apply end_value_emits. pose proof (fitting_length valend st a). lia. Qed.

Lemma outs_full a : v st = valend -> fitting valend st a = [].
Proof. intros E. unfold fitting. by rewrite E, Nat.sub_diag. Qed.
End outs.

Lemma ems_nil valend st : ems valend [] st = st.
Proof. unfold ems, fitting. by rewrite take_nil, emits_nil. Qed.

Lemma outs_nil valend st : trans_pre valend st -> outs valend [] st = st.
Proof. intros P. unfold outs, fitting, outputs. rewrite take_nil. simpl. rewrite output_nil, Nat.add_0_r by apply P. by destruct st. Qed.

Lemma outs_pre valend st t : trans_pre valend st -> trans_pre valend (outs valend t st).
Proof.
  intros P. pose proof (tp_room _ _ P) as R. split; [by apply outs_room| |apply P].
  unfold outs, outputs. cbn [set_out mem v]. apply output_end. pose proof (fitting_length valend st t). lia.
Qed.

Lemma outs_none valend st t : trans_pre valend st -> v st = valend -> outs valend t st = st.
Proof. intros P E. rewrite <- (outs_nil valend st P) at 2. unfold outs. by rewrite !outs_full. Qed.

Lemma until_nul_all s : no_nul s -> until_nul s = s.
Proof. induction 1 as [|c s C _ IH]; simpl; [done|]. destruct (Z.eqb_spec c 0); [done|]. by rewrite IH. Qed.

Lemma bad_reference_exact nm ev valend st :
  trans_pre valend st -> no_nul nm -> no_nul ev ->
  bad_reference nm ev valend st = inr (outs valend (bad_text (suppress (handle st)) nm ev) (set_err st true)).
Proof.
  intros P Nn Ne. pose proof (tp_room _ _ P) as R. unfold bad_reference, bad_text.
  rewrite put_char_spec by done. cbn [ebind]. fold (ems valend [DOLLAR] (set_err st true)).
  rewrite put_char_spec by (apply (ems_room valend (set_err st true)); done). cbn [ebind].
  change (emits _ (ems valend [DOLLAR] (set_err st true))) with (ems valend [LPAREN] (ems valend [DOLLAR] (set_err st true))).
  rewrite ems_ems by done. rewrite cpy2val_spec by (apply (ems_room valend (set_err st true)); done). cbn [ebind].
  rewrite until_nul_all by done.
  change (outputs _ (ems valend ([DOLLAR] ++ [LPAREN]) (set_err st true))) with (outs valend nm (ems valend ([DOLLAR] ++ [LPAREN]) (set_err st true))).
  rewrite outs_ems by done. cbn [app].
  change (suppress (handle (outs valend _ (set_err st true)))) with (suppress (handle st)).
  assert (Ro : forall x, v (outs valend x (set_err st true)) <= valend < length (mem (outs valend x (set_err st true)))).
  { intros x. by apply (outs_room valend (set_err st true)). }
  destruct (suppress (handle st)).
  - rewrite put_char_spec by apply Ro. cbn [ebind]. etrans; [exact (end_value_ems valend _ (Ro _) [RPAREN])|].
    by rewrite (outs_outs valend (set_err st true)).
  - rewrite cpy2val_spec by apply Ro. rewrite until_nul_all by done. f_equal. exact (outs_outs valend (set_err st true) R _ ev).
Qed.

(** ** Copying *)

Lemma copy_char_ordinary s discard valend st :
  trans_pre valend st -> (char_at s (r st) =? BACKSLASH)%Z = false \/ v st = valend ->
  copy_char s discard valend st = inr (outs valend [char_at s (r st)] st).
Proof.
  intros P H. pose proof (tp_room _ _ P) as R. unfold copy_char.
  assert (Fin : (if v st <=? valend then end_value st else inr st) = inr (outs valend [] st)).
  { destruct (Nat.leb_spec (v st) valend); [|lia]. rewrite <- (ems_nil valend st) at 1. by apply end_value_ems. }
  destruct (_ && _) eqn:E.
  - apply andb_true_iff in E as [E _]. destruct H as [H|H]; [congruence|].
    assert (F : outs valend [char_at s (r st)] st = outs valend [] st) by (unfold outs; by rewrite !outs_full).
    rewrite F. destruct discard.
    + cbn [ebind]. destruct (Nat.ltb_spec (v st) valend); [lia|]. exact Fin.
    + rewrite put_char_spec by done. rewrite outs_full, emits_nil by done. cbn [ebind]. destruct (Nat.ltb_spec (v st) valend); [lia|]. exact Fin.
  - rewrite put_char_spec by done. cbn [ebind]. fold (ems valend [char_at s (r st)] st).
    pose proof (ems_room valend st R [char_at s (r st)]). destruct (Nat.leb_spec (v (ems valend [char_at s (r st)] st)) valend); [|lia].
    by apply end_value_ems.
Qed.

Definition escaped_text (discard : bool) (c : Z) : list Z := if discard then [c] else [BACKSLASH; c].

(** An escaped character is skipped if there is room for it. *)
Lemma copy_char_escape s discard valend st :
  trans_pre valend st -> char_at s (r st) = BACKSLASH -> char_at s (S (r st)) <> 0%Z ->
  copy_char s discard valend st =
    inr (set_r (outs valend (escaped_text discard (char_at s (S (r st)))) st)
               (if v st + length (escaped_text discard (char_at s (S (r st)))) <=? valend then S (r st) else r st)).
Proof.
  intros P B N. pose proof (tp_room _ _ P) as R. unfold copy_char. rewrite B. set (c := char_at s (S (r st))) in *.
  replace (_ && _) with true by (symmetry; apply andb_true_iff; split; [done|apply negb_true_iff; by apply Z.eqb_neq]).
  assert (E1 : (if discard then inr st else put_char st valend BACKSLASH) = inr (ems valend (if discard then [] else [BACKSLASH]) st)).
  { destruct discard; [by rewrite ems_nil|by rewrite put_char_spec]. }
  rewrite E1. cbn [ebind]. clear E1. set (p := if discard then [] else [BACKSLASH]).
  assert (Et : escaped_text discard c = p ++ [c]) by (by destruct discard). rewrite Et.
  pose proof (ems_room valend st R p) as Re.
  assert (Ev : v (ems valend p st) = v st + length (fitting valend st p)) by done.
  destruct (Nat.ltb_spec (v (ems valend p st)) valend) as [L|L].
  - assert (Fp : fitting valend st p = p). { unfold fitting in *. apply take_ge. rewrite length_take in Ev. lia. }
    rewrite (poke_next valend) by lia. cbn [ebind]. change (r (ems valend p st)) with (r st). fold c.
    rewrite Fp in Ev. destruct (Nat.leb_spec (v st + length (p ++ [c])) valend) as [L'|L']; [|rewrite length_app in L'; simpl in L'; lia].
    assert (Fc : fitting valend (ems valend p st) [c] = [c]) by (unfold fitting; apply take_ge; cbn [length]; lia).
    replace (emits [c] (ems valend p st)) with (ems valend [c] (ems valend p st)) by (unfold ems at 1; by rewrite Fc).
    rewrite ems_ems by done.
    pose proof (ems_room valend st R (p ++ [c])) as Re'. unfold set_r at 1. cbn [v].
    destruct (Nat.leb_spec (v (ems valend (p ++ [c]) st)) valend); [|lia].
    change (end_value (ems valend (p ++ [c]) (set_r st (S (r st)))) = inr (outs valend (p ++ [c]) (set_r st (S (r st))))).
    by apply end_value_ems.
  - cbn [ebind]. destruct (Nat.leb_spec (v (ems valend p st)) valend); [|lia].
    assert (v st + length (p ++ [c]) > valend).
    { rewrite length_app. simpl. pose proof (firstn_le_length (valend - v st) p). unfold fitting in Ev. rewrite length_take in Ev. lia. }
    destruct (Nat.leb_spec (v st + length (p ++ [c])) valend); [lia|]. rewrite end_value_ems by done. f_equal.
    rewrite <- (outs_outs valend st R p [c]), (outs_none valend (outs valend p st));
      [done|by apply outs_pre|cbn [outs outputs set_out v]; lia].
Qed.

(** ** Steps of the translation *)

(** [t] written as far as there is room, the error [e], and the position [i]. *)
Definition adv (valend : nat) (st : trans_state) (t : list Z) (e : bool) (i : nat) : trans_state :=
  mkTrans (handle st) (mem (outs valend t st)) (v (outs valend t st)) (err st || e) i.

Lemma adv_pre valend st t e i : trans_pre valend st -> trans_pre valend (adv valend st t e i).
Proof. intros P. by eapply trans_pre_fields; [apply (outs_pre valend st t P)|..|apply P]. Qed.

Lemma adv_outs valend st t e i :
  adv valend st t e i = set_r (set_err (outs valend t st) (err st || e)) i.
Proof. done. Qed.

Lemma adv_adv valend st a b e e' i j :
  v st <= valend < length (mem st) -> adv valend (adv valend st a e i) b e' j = adv valend st (a ++ b) (e || e') j.
Proof.
  intros R. rewrite (adv_outs valend st (a ++ b)), <- (outs_outs valend st R). unfold adv. cbn [err]. by rewrite orb_assoc.
Qed.

Lemma outs_adv valend st t i : set_r (outs valend t st) i = adv valend st t false i.
Proof. unfold adv. by rewrite orb_false_r. Qed.

Lemma adv_full valend st t e i : trans_pre valend st -> v st = valend -> adv valend st t e i = mkTrans (handle st) (mem st) (v st) (err st || e) i.
Proof. intros P E. unfold adv. by rewrite outs_none. Qed.

Lemma adv_nil valend st e i : trans_pre valend st -> adv valend st [] e i = mkTrans (handle st) (mem st) (v st) (err st || e) i.
Proof. intros P. unfold adv. by rewrite outs_nil. Qed.

Lemma char_at_here pre c l : char_at (pre ++ c :: l) (length pre) = c.
Proof. unfold char_at. rewrite app_nth2, Nat.sub_diag by lia. done. Qed.

Lemma char_at_end s : char_at s (length s) = 0%Z.
Proof. unfold char_at. by apply nth_overflow. Qed.

Lemma buffer_string_output m t :
  length m = S MAC_SIZE -> no_nul t -> buffer_string (output m 0 (take MAC_SIZE t)) = take MAC_SIZE t.
Proof.
  intros Lm N. assert (L : length (take MAC_SIZE t) <= MAC_SIZE) by (rewrite length_take; lia).
  assert (Nt : no_nul (take MAC_SIZE t)) by (by apply no_nul_take). revert L Nt. generalize (take MAC_SIZE t). clear t N. intros t L N.
  unfold buffer_string. rewrite output_start by lia.
  generalize (drop (S (length t)) m). intros z. rewrite insert_app_r_alt by done.
  assert (K : forall l, until_nul (t ++ 0%Z :: l) = t).
  { intros l. clear L. induction N as [|c t C _ IH]; simpl; [done|]. destruct (Z.eqb_spec c 0); [done|]. by rewrite IH. }
  destruct (MAC_SIZE - length t); apply K.
Qed.

Section steps.
Context (getenv : list Z -> option (list Z)).

Definition loop (s : list Z) (lev : nat) (term : list Z) (valend : nat) (q : Z) (st : trans_state) (fuel : nat) : mac trans_state :=
  trans_loop getenv fuel s lev term valend q st.

Section loop.
Context (s : list Z) (lev : nat) (term : list Z) (valend : nat) (q : Z) (st : trans_state) (y : trans_state) (In : r st <= length s).

Lemma loop_end : in_term term (char_at s (r st)) = true -> converges (loop s lev term valend q st) st.
Proof.
  intros T. eapply (converges_step _ (fun _ => inr st)); [|apply converges_ret]. intros fuel. unfold loop. cbn [trans_loop].
  rewrite peek_in by done. cbn [ebind]. by rewrite T.
Qed.

Context (T : in_term term (char_at s (r st)) = false).

Lemma loop_skip q' :
  quoting (0 <? lev) q (char_at s (r st)) = (q', true) ->
  converges (loop s lev term valend q' (set_r st (S (r st)))) y -> converges (loop s lev term valend q st) y.
Proof.
  intros Q. apply converges_step. intros fuel. unfold loop. cbn [trans_loop].
  rewrite peek_in by done. cbn [ebind]. by rewrite T, Q.
Qed.

Lemma loop_copy q' st1 :
  quoting (0 <? lev) q (char_at s (r st)) = (q', false) -> is_macref s (r st) && negb (q' =? SQUOTE)%Z = false ->
  copy_char s (0 <? lev) valend st = inr st1 ->
  converges (loop s lev term valend q' (set_r st1 (S (r st1)))) y -> converges (loop s lev term valend q st) y.
Proof.
  intros Q M C. apply converges_step. intros fuel. unfold loop. cbn [trans_loop].
  rewrite peek_in by done. cbn [ebind]. by rewrite T, Q, M, C.
Qed.

Lemma loop_refer q' st1 :
  quoting (0 <? lev) q (char_at s (r st)) = (q', false) -> is_macref s (r st) && negb (q' =? SQUOTE)%Z = true ->
  converges (fun fuel => refer getenv fuel s lev valend st) st1 ->
  converges (loop s lev term valend q' (set_r st1 (S (r st1)))) y -> converges (loop s lev term valend q st) y.
Proof.
  intros Q M C K. apply (converges_step _ (fun fuel => let* st := refer getenv fuel s lev valend st in
    loop s lev term valend q' (set_r st (S (r st))) fuel)); [|by apply (converges_bind _ (fun st => loop s lev term valend q' (set_r st (S (r st)))) _ _ C)].
  intros fuel. unfold loop. cbn [trans_loop]. rewrite peek_in by done. cbn [ebind]. by rewrite T, Q, M.
Qed.
End loop.

(** The use of an entry that was found, as in [refer]. *)
Definition found (lev valend : nat) (st : trans_state) (refname : list Z) (x : nat) (fuel : nat) : mac trans_state :=
  let h := handle st in
  let* e := entry_at h x in
  if visited e then bad_reference refname RECURSIVE valend st
  else if negb (dirty h) then
    match value e with
    | Some m => let* st := cpy2val (until_nul m) st valend in inr (set_err st (err st || error e))
    | None => inl mac_null
    end
  else
    match rawval e with
    | Some rv =>
        let* t := trans getenv fuel rv (S lev) [] valend (mkTrans (with_entry h x (set_visited true)) (mem st) (v st) (err st) 0) in
        inr (mkTrans (with_entry (handle t) x (set_visited false)) (mem t) (v t) (err t) (r st))
    | None => inr st
    end.

(** ** References *)

Section refer.
Context (h0 : MAC_HANDLE) (look : bool -> list Z -> option (list Z * bool)).

Definition based (sup : bool) (st : trans_state) : Prop := handle st = set_suppress h0 sup.

(** [look] says what the entries of [h0] mean. *)
Definition look_ok : Prop := forall sup nm, no_nul nm ->
  exists x, lookup getenv (set_suppress h0 sup) nm false = (x, set_suppress h0 sup) /\
  match look sup nm with
  | None => x = None
  | Some (txt, e) => exists y, x = Some y /\ no_nul txt /\ forall lev valend st, based sup st -> trans_pre valend st ->
      converges (found lev valend st nm y) (adv valend st txt e (r st))
  end.

Context (Ok : look_ok).

(** The look up of the name and what follows, as in [refer]. *)
Definition resolve (s : list Z) (lev valend : nat) (st : trans_state) (defval : option nat) (term refname : list Z) (fuel : nat) : mac trans_state :=
  let '(x, h) := lookup getenv (handle st) refname false in
  let st := set_handle st h in
  match x with
  | Some x => found lev valend st refname x fuel
  | None =>
      match defval with
      | Some d => let* t := trans getenv fuel s (S lev) (tail term) valend (set_r st d) in inr (set_r t (r st))
      | None => bad_reference refname UNDEFINED valend st
      end
  end.

Lemma resolve_found s lev valend st sup defval term nm txt e :
  based sup st -> trans_pre valend st -> no_nul nm -> look sup nm = Some (txt, e) ->
  converges (resolve s lev valend st defval term nm) (adv valend st txt e (r st)).
Proof.
  intros B P N L. destruct (Ok sup nm N) as (x & Lk & F). rewrite L in F. destruct F as (y & -> & _ & F).
  apply (converges_ext _ (found lev valend st nm y)); [|by apply (F lev valend st B P)]. intros fuel. unfold resolve. rewrite B, Lk, <- B.
  by destruct st.
Qed.

Lemma resolve_default s lev valend st sup d term nm t :
  based sup st -> no_nul nm -> look sup nm = None ->
  converges (loop s (S lev) (tail term) valend 0 (set_r st d)) t ->
  converges (resolve s lev valend st (Some d) term nm) (set_r t (r st)).
Proof.
  intros B N L [k C]. destruct (Ok sup nm N) as (x & Lk & F). rewrite L in F. subst x. exists k. intros fuel Le.
  unfold resolve. rewrite B, Lk, <- B. replace (set_handle st (handle st)) with st by (by destruct st). unfold trans, loop in *.
  rewrite C by done. cbn [ebind]. unfold step_back. by destruct (_ =? 0)%Z.
Qed.

Lemma resolve_bad s lev valend st sup term nm :
  based sup st -> trans_pre valend st -> no_nul nm -> look sup nm = None ->
  converges (resolve s lev valend st None term nm) (adv valend st (bad_text sup nm UNDEFINED) true (r st)).
Proof.
  intros B P N L. destruct (Ok sup nm N) as (x & Lk & F). rewrite L in F. subst x. exists 0. intros fuel _.
  unfold resolve. rewrite B, Lk, <- B. replace (set_handle st (handle st)) with st by (by destruct st).
  rewrite bad_reference_exact by (try done; apply errval_no_nul). rewrite B. unfold adv. by rewrite orb_true_r.
Qed.

(** The name of a reference is translated; what comes next is not a scope. *)
Section one.
Context (s : list Z) (lev valend : nat) (st : trans_state) (sup : bool) (B : based sup st) (P : trans_pre valend st).
Context (n : trans_state) (nm : list Z).
Let term := macEnd (char_at s (S (r st))).
Context (Cn : converges (loop s (S lev) term MAC_SIZE 0 (mkTrans (handle st) new_buffer 0 (err st) (S (S (r st))))) n).
Context (Bn : handle n = handle st) (Nn : buffer_string (mem n) = nm) (Nu : no_nul nm) (In : r n < length s) (Cz : char_at s (r n) <> 0%Z)
  (Cc : char_at s (r n) <> COMMA).

Lemma step_back_none : step_back s n = n.
Proof. unfold step_back. destruct (Z.eqb_spec (char_at s (r n)) 0); done. Qed.

(** The state for the look up. *)
Let st1 := mkTrans (handle st) (mem st) (v st) (err n) (r n).

Lemma st1_pre : trans_pre valend st1.
Proof. by eapply trans_pre_fields; [exact P|..|apply P]. Qed.

(** A reference without a default value, and one with: [d] is where it ends. *)
Lemma refer_plain x :
  char_at s (r n) <> EQUALS -> converges (resolve s lev valend st1 None term nm) x ->
  converges (fun fuel => refer getenv fuel s lev valend st) x.
Proof.
  intros Ce [k2 H2]. destruct Cn as [k1 H1]. exists (S (k1 + k2)). intros [|fuel] Le; [lia|].
  specialize (H2 fuel ltac:(lia)). unfold resolve in H2.
  cbn [refer]. cbv zeta. fold term. unfold loop in H1. rewrite H1 by lia. cbn [ebind]. rewrite step_back_none, Nn, Bn. cbn [r handle].
  rewrite peek_in by lia. cbn [ebind]. destruct (Z.eqb_spec (char_at s (r n)) EQUALS); [done|]. cbn [ebind r].
  rewrite peek_in by lia. cbn [ebind]. destruct (Z.eqb_spec (char_at s (r n)) COMMA); [done|]. cbn [ebind].
  fold st1. destruct (lookup getenv (handle st1) nm false) as [y h] eqn:Lk.
  change ((let* st := match y with
           | Some x => found lev valend (set_handle st1 h) nm x fuel
           | None => bad_reference nm UNDEFINED valend (set_handle st1 h)
           end in inr st) = inr x). rewrite H2. done.
Qed.

Lemma refer_default d x :
  char_at s (r n) = EQUALS ->
  converges (loop s (S lev) (tail term) (v st) 0 (mkTrans (set_suppress (handle st) true) (mem st) (v st) false (S (r n)))) d ->
  handle d = set_suppress (handle st) true -> mem d = mem st -> v d = v st -> r d < length s -> char_at s (r d) <> 0%Z ->
  char_at s (r d) <> COMMA ->
  converges (resolve s lev valend (set_r st1 (r d)) (Some (S (r n))) term nm) x ->
  converges (fun fuel => refer getenv fuel s lev valend st) x.
Proof.
  intros Ce [k3 H3] Hd Md Vd Ld Zd Cd [k2 H2]. destruct Cn as [k1 H1]. exists (S (k1 + k2 + k3)). intros [|fuel] Le; [lia|].
  specialize (H2 fuel ltac:(lia)). unfold resolve in H2.
  cbn [refer]. cbv zeta. fold term. unfold loop in H1, H3. rewrite H1 by lia. cbn [ebind]. rewrite step_back_none, Nn, Bn. cbn [r handle mem v].
  rewrite peek_in by lia. cbn [ebind]. destruct (Z.eqb_spec (char_at s (r n)) EQUALS); [|done]. rewrite H3 by lia. cbn [ebind].
  assert (Sd : step_back s d = d) by (unfold step_back; destruct (Z.eqb_spec (char_at s (r d)) 0); done).
  rewrite Sd, Hd, Md, Vd. cbn [r err]. rewrite peek_in by lia. cbn [ebind].
  destruct (Z.eqb_spec (char_at s (r d)) COMMA); [done|]. cbn [ebind].
  replace (set_suppress (set_suppress (handle st) true) (suppress (handle st))) with (handle st) by (by destruct (handle st)).
  change (mkTrans (handle st) (mem st) (v st) (err n) (r d)) with (set_r st1 (r d)).
  destruct (lookup getenv (handle (set_r st1 (r d))) nm false) as [y h] eqn:Lk.
  change ((let* st := match y with
           | Some x => found lev valend (set_handle (set_r st1 (r d)) h) nm x fuel
           | None =>
               let* t := trans getenv fuel s (S lev) (tail term) valend (set_r (set_handle (set_r st1 (r d)) h) (S (r n))) in
               inr (set_r t (r (set_handle (set_r st1 (r d)) h)))
           end in inr st) = inr x). rewrite H2. done.
Qed.
End one.

(** ** Translation of a template *)

Definition term_ok (term : list Z) : Prop := forall c, c ∈ [BACKSLASH; DQUOTE; SQUOTE; DOLLAR] -> in_term term c = false.

Lemma term_ok_name b : term_ok [EQUALS; COMMA; closing b].
Proof. intros c. rewrite !elem_of_cons, elem_of_nil. intros [->|[->|[->|[->|[]]]]]; by destruct b. Qed.

Lemma term_ok_default b : term_ok [COMMA; closing b].
Proof. intros c. rewrite !elem_of_cons, elem_of_nil. intros [->|[->|[->|[->|[]]]]]; by destruct b. Qed.

Lemma term_ok_string : term_ok [].
Proof. intros c. rewrite !elem_of_cons, elem_of_nil. by intros [->|[->|[->|[->|[]]]]]. Qed.

Lemma ordinary_step term q c discard :
  ordinary term q c = true -> q = 0%Z \/ q = DQUOTE ->
  in_term term c = false /\ quoting discard q c = (q, false) /\ (c =? DOLLAR)%Z = false.
Proof.
  intros O Q. destruct (ordinary_term _ _ _ O) as [T D]. split; [done|]. split; [|done]. unfold ordinary in O.
  apply andb_true_iff in O as [_ O]. unfold quoting. destruct Q as [-> | ->]; simpl in O |- *.
  - apply andb_true_iff in O as [O1 O2]. rewrite negb_true_iff in O1, O2. by rewrite O1, O2.
  - rewrite negb_true_iff in O. by rewrite O.
Qed.

Lemma not_macref s i c : char_at s i = c -> (c =? DOLLAR)%Z = false -> is_macref s i = false.
Proof. intros E D. unfold is_macref. by rewrite E, D. Qed.

Lemma adv_v_le valend st t e i : v st <= valend -> v st <= v (adv valend st t e i) /\ v (adv valend st t e i) <= v st + length t.
Proof. intros L. cbn [adv v outs outputs set_out]. unfold fitting. rewrite length_take. lia. Qed.

(** A quote that is skipped or copied. *)
Lemma loop_quote s lev term valend q q' st y :
  trans_pre valend st -> r st < length s -> in_term term (char_at s (r st)) = false ->
  char_at s (r st) = DQUOTE \/ char_at s (r st) = SQUOTE -> quoting (0 <? lev) q (char_at s (r st)) = (q', 0 <? lev) ->
  converges (loop s lev term valend q' (adv valend st (if 0 <? lev then [] else [char_at s (r st)]) false (S (r st)))) y ->
  converges (loop s lev term valend q st) y.
Proof.
  intros P L T C Q K. assert (D : (char_at s (r st) =? DOLLAR)%Z = false /\ (char_at s (r st) =? BACKSLASH)%Z = false) by (split; by destruct C as [-> | ->]).
  destruct D as [D1 D2]. destruct (0 <? lev) eqn:Dl.
  - eapply loop_skip; [lia|done|by rewrite Dl|]. rewrite adv_nil, orb_false_r in K by done. exact K.
  - eapply loop_copy; [lia|done|rewrite Dl; exact Q|by rewrite (not_macref s (r st) _ eq_refl)| |].
    + rewrite Dl. apply copy_char_ordinary; [done|by left].
    + rewrite outs_adv. exact K.
Qed.

(** The text in single quotes. *)
Lemma loop_single s lev term valend : forall u pre rest st y,
  trans_pre valend st -> s = pre ++ u ++ rest -> r st = length pre ->
  forallb (fun c => negb (in_term term c) && negb (c =? SQUOTE)%Z && negb (c =? BACKSLASH)%Z) u = true ->
  converges (loop s lev term valend SQUOTE (adv valend st u false (length pre + length u))) y ->
  converges (loop s lev term valend SQUOTE st) y.
Proof.
  induction u as [|c u IH]; intros pre rest st y P -> R F K.
  - rewrite adv_nil, orb_false_r in K by done. simpl in K. rewrite Nat.add_0_r, <- R in K. by destruct st.
  - simpl in F. rewrite !andb_true_iff, !negb_true_iff in F. destruct F as [[[T S1] B] F]. simpl app in K |- *.
    assert (C : char_at (pre ++ c :: u ++ rest) (r st) = c) by (rewrite R; apply char_at_here).
    eapply loop_copy.
    + rewrite R. llia.
    + by rewrite C.
    + rewrite C. unfold quoting. simpl. by rewrite S1.
    + by rewrite andb_false_r.
    + apply copy_char_ordinary; [done|left; by rewrite C].
    + rewrite outs_adv, C. apply (IH (pre ++ [c]) rest).
      * by apply adv_pre.
      * by rewrite <- app_assoc.
      * cbn [r adv outs outputs set_out]. rewrite R. llia.
      * done.
      * rewrite adv_adv by apply P. simpl orb. simpl app. replace (length (pre ++ [c]) + length u) with (length pre + length (c :: u)) by llia. exact K.
Qed.

Definition translate_spec (t : tmpl) : Prop := forall s pre rest lev tame term q valend st sup y,
  based sup st -> trans_pre valend st -> s = pre ++ print t ++ rest -> r st = length pre -> well_formed tame term q t = true ->
  q = 0%Z \/ q = DQUOTE -> term_ok term ->
  let out := eval (look sup) sup (0 <? lev) t in
  tame = true \/ v st + length (fst out) <= valend ->
  converges (loop s lev term valend q (adv valend st (fst out) (snd out) (length pre + length (print t)))) y ->
  converges (loop s lev term valend q st) y.

(** The rest of a template, after the text [a]. *)
Lemma translate_rest t s pre1 rest lev tame term q valend st sup y pre a e0 :
  translate_spec t -> based sup st -> trans_pre valend st -> s = pre1 ++ print t ++ rest ->
  well_formed tame term q t = true -> q = 0%Z \/ q = DQUOTE -> term_ok term ->
  let out := eval (look sup) sup (0 <? lev) t in
  tame = true \/ v st + length (a ++ fst out) <= valend ->
  length pre1 + length (print t) = pre ->
  converges (loop s lev term valend q (adv valend st (a ++ fst out) (e0 || snd out) pre)) y ->
  converges (loop s lev term valend q (adv valend st a e0 (length pre1))) y.
Proof.
  intros IH B P Es W Q T out Rm El K. apply (IH s pre1 rest lev tame term q valend _ sup); try done.
  - by apply adv_pre.
  - fold out. destruct Rm as [Rm|Rm]; [by left|right]. pose proof (adv_v_le valend st a e0 (length pre1) ltac:(apply P)). rewrite length_app in Rm. lia.
  - fold out. rewrite adv_adv by apply P. rewrite El. exact K.
Qed.

Lemma translate_lit c t : translate_spec t -> translate_spec (TLit c t).
Proof.
  intros IH s pre rest lev tame term q valend st sup y B P -> R W Q T out Rm K. simpl in W, out, K.
  rewrite !andb_true_iff, negb_true_iff in W. destruct W as [[O Bs] W]. destruct (ordinary_step _ _ _ (0 <? lev) O Q) as (Tc & Qc & Dc).
  assert (C : char_at (pre ++ print (TLit c t) ++ rest) (r st) = c) by (rewrite R; apply char_at_here).
  destruct (eval (look sup) sup (0 <? lev) t) as [x e] eqn:Ev. simpl in *.
  eapply loop_copy; [rewrite R; llia|by rewrite C|rewrite C; exact Qc|by rewrite (not_macref _ _ c C)| |].
  - apply copy_char_ordinary; [done|left; by rewrite C].
  - rewrite outs_adv, C. cbn [r outs outputs set_out]. rewrite R. replace (S (length pre)) with (length (pre ++ [c])) by llia.
    eapply (translate_rest t _ (pre ++ [c]) rest lev tame term q valend st sup y _ [c] false); try done.
    + by rewrite <- app_assoc.
    + by rewrite Ev.
    + rewrite Ev. simpl. replace (length (pre ++ [c]) + length (print t)) with (length pre + S (length (print t))) by llia. exact K.
Qed.

Lemma eval_snd_app look' sup lev t a : fst (let '(x, e) := eval look' sup lev t in (a ++ x, e)) = a ++ fst (eval look' sup lev t) /\
  snd (let '(x, e) := eval look' sup lev t in (a ++ x, e)) = snd (eval look' sup lev t).
Proof. by destruct (eval look' sup lev t). Qed.

Lemma escaped_full valend st a : trans_pre valend st -> valend < v st + length a -> v (outs valend a st) = valend.
Proof. intros P L. pose proof (tp_room _ _ P). cbn [outs outputs set_out v]. unfold fitting. rewrite length_take. lia. Qed.

Lemma translate_esc c t : translate_spec t -> translate_spec (TEsc c t).
Proof.
  intros IH s pre rest lev tame term q valend st sup y B P -> R W Q T out Rm K. simpl in W.
  rewrite !andb_true_iff, orb_true_iff, !negb_true_iff, Z.eqb_neq in W. destruct W as [[Nz O] W].
  assert (Tb : in_term term BACKSLASH = false) by (apply T; left).
  assert (C : char_at (pre ++ print (TEsc c t) ++ rest) (r st) = BACKSLASH) by (rewrite R; apply char_at_here).
  assert (C1 : char_at (pre ++ print (TEsc c t) ++ rest) (S (r st)) = c).
  { rewrite R. replace (S (length pre)) with (length (pre ++ [BACKSLASH])) by llia. simpl print. simpl app. rewrite cons_middle, app_assoc. apply char_at_here. }
  assert (Qb : quoting (0 <? lev) q BACKSLASH = (q, false)) by (by destruct Q as [-> | ->]).
  destruct (eval_snd_app (look sup) sup (0 <? lev) t (escaped_text (0 <? lev) c)) as [F1 F2].
  change (fst out = escaped_text (0 <? lev) c ++ fst (eval (look sup) sup (0 <? lev) t)) in F1.
  change (snd out = snd (eval (look sup) sup (0 <? lev) t)) in F2. rewrite F1, F2 in K. rewrite F1 in Rm.
  assert (Len : length pre + length (print (TEsc c t)) = length (pre ++ [BACKSLASH; c]) + length (print t)) by (simpl; llia).
  rewrite Len in K. clear Len. assert (Es : pre ++ print (TEsc c t) ++ rest = (pre ++ [BACKSLASH; c]) ++ print t ++ rest) by (by rewrite <- app_assoc).
  assert (Fin : converges (loop (pre ++ print (TEsc c t) ++ rest) lev term valend q
    (adv valend st (escaped_text (0 <? lev) c) false (length (pre ++ [BACKSLASH; c])))) y).
  { by eapply (translate_rest t _ (pre ++ [BACKSLASH; c]) rest). }
  eapply loop_copy; [rewrite R; simpl; llia|by rewrite C|rewrite C; exact Qb|by rewrite (not_macref _ _ _ C)| |].
  - apply copy_char_escape; [done|done|by rewrite C1].
  - rewrite C1. destruct (Nat.leb_spec (v st + length (escaped_text (0 <? lev) c)) valend) as [L|L].
    + cbn [set_r r]. change (set_r (set_r (outs valend (escaped_text (0 <? lev) c) st) (S (r st))) (S (S (r st))))
        with (set_r (outs valend (escaped_text (0 <? lev) c) st) (S (S (r st)))).
      rewrite outs_adv, R. replace (S (S (length pre))) with (length (pre ++ [BACKSLASH; c])) by llia. exact Fin.
    + (* no room: the character is scanned as well *)
      destruct Rm as [Tm|Rm]; [|rewrite length_app in Rm; lia]. destruct O as [O|O]; [congruence|].
      destruct (ordinary_step _ _ _ (0 <? lev) O Q) as (Tc & Qc & Dc). cbn [set_r r].
      change (set_r (set_r (outs valend (escaped_text (0 <? lev) c) st) (r st)) (S (r st)))
        with (set_r (outs valend (escaped_text (0 <? lev) c) st) (S (r st))). rewrite outs_adv.
      set (st1 := adv valend st (escaped_text (0 <? lev) c) false (S (r st))).
      assert (P1 : trans_pre valend st1) by (by apply adv_pre).
      assert (V1 : v st1 = valend) by (apply (escaped_full valend st); [done|lia]).
      eapply loop_copy; [cbn [st1 adv r]; rewrite R; simpl; llia|by change (r st1) with (S (r st)); rewrite C1|
        change (r st1) with (S (r st)); rewrite C1; exact Qc|by change (r st1) with (S (r st)); rewrite (not_macref _ _ _ C1)| |].
      * apply copy_char_ordinary; [done|by right].
      * rewrite outs_none by done. change (set_r st1 (S (r st1))) with (adv valend st (escaped_text (0 <? lev) c) false (S (S (r st)))).
        rewrite R. replace (S (S (length pre))) with (length (pre ++ [BACKSLASH; c])) by llia. exact Fin.
Qed.

Lemma translate_dq u t : translate_spec u -> translate_spec t -> translate_spec (TDq u t).
Proof.
  intros IHu IH s pre rest lev tame term q valend st sup y B P -> R W Q T out Rm K. simpl in W.
  rewrite !andb_true_iff, Z.eqb_eq in W. destruct W as [[-> Wu] W].
  set (s := pre ++ print (TDq u t) ++ rest) in *. set (d := if 0 <? lev then [] else [DQUOTE]).
  assert (Td : in_term term DQUOTE = false) by (apply T; right; left).
  set (pre1 := pre ++ [DQUOTE]). set (pre2 := pre1 ++ print u). set (pre3 := pre2 ++ [DQUOTE]).
  assert (E1 : s = pre1 ++ print u ++ DQUOTE :: print t ++ rest).
  { unfold s, pre1. simpl. by rewrite <- !app_assoc. }
  assert (E2 : s = pre2 ++ DQUOTE :: print t ++ rest) by (by rewrite E1; unfold pre2; rewrite <- app_assoc).
  assert (E3 : s = pre3 ++ print t ++ rest) by (by rewrite E2; unfold pre3; rewrite <- app_assoc).
  assert (L1 : length pre1 = S (length pre)) by (unfold pre1; llia). assert (L3 : length pre3 = S (length pre2)) by (unfold pre3; llia).
  assert (L2 : length pre2 = length pre1 + length (print u)) by (unfold pre2; llia).
  assert (Ls : length pre2 < length s /\ length pre < length s) by (rewrite E2; llia).
  assert (C : char_at s (r st) = DQUOTE) by (unfold s; rewrite R; apply char_at_here).
  assert (C2 : char_at s (length pre2) = DQUOTE) by (rewrite E2; apply char_at_here).
  set (eu := eval (look sup) sup (0 <? lev) u). set (et := eval (look sup) sup (0 <? lev) t).
  assert (F : fst out = (d ++ fst eu ++ d) ++ fst et /\ snd out = snd eu || snd et).
  { unfold out, eu, et, d. simpl. destruct (eval _ _ _ u), (eval _ _ _ t). destruct (0 <? lev); simpl; [by rewrite app_nil_r|done]. }
  destruct F as [F1 F2]. rewrite F1, F2 in K. rewrite F1 in Rm.
  replace (length pre + length (print (TDq u t))) with (length pre3 + length (print t)) in K by (rewrite L3, L2, L1; simpl; llia).
  eapply (loop_quote _ _ _ _ 0 DQUOTE); [done|rewrite R; apply Ls|by rewrite C|left; exact C|by rewrite C|]. rewrite C, R, <- L1. fold d.
  eapply (translate_rest u _ pre1); [done..|by right|done| |exact eq_refl|].
  { fold eu. destruct Rm as [Rm|Rm]; [by left|right]. rewrite !length_app in *. lia. }
  fold eu. rewrite <- L2. simpl orb.
  eapply (loop_quote _ _ _ _ DQUOTE 0); [by apply adv_pre|apply Ls|by cbn [adv r]; rewrite C2|left; exact C2|by cbn [adv r]; rewrite C2|].
  cbn [adv r]. rewrite C2. fold (adv valend st (d ++ fst eu) (snd eu) (length pre2)). fold d. rewrite adv_adv by apply P.
  rewrite orb_false_r, <- app_assoc, <- L3.
  eapply (translate_rest t _ pre3); [done..|by left|done|exact Rm|exact eq_refl|exact K].
Qed.

Lemma translate_sq u t : translate_spec t -> translate_spec (TSq u t).
Proof.
  intros IH s pre rest lev tame term q valend st sup y B P -> R W Q T out Rm K. simpl in W.
  rewrite !andb_true_iff, Z.eqb_eq in W. destruct W as [[-> Wu] W].
  set (s := pre ++ print (TSq u t) ++ rest) in *. set (d := if 0 <? lev then [] else [SQUOTE]).
  assert (Td : in_term term SQUOTE = false) by (apply T; right; right; left).
  set (pre1 := pre ++ [SQUOTE]). set (pre2 := pre1 ++ u). set (pre3 := pre2 ++ [SQUOTE]).
  assert (E1 : s = pre1 ++ u ++ SQUOTE :: print t ++ rest).
  { unfold s, pre1. simpl. by rewrite <- !app_assoc. }
  assert (E2 : s = pre2 ++ SQUOTE :: print t ++ rest) by (by rewrite E1; unfold pre2; rewrite <- app_assoc).
  assert (E3 : s = pre3 ++ print t ++ rest) by (by rewrite E2; unfold pre3; rewrite <- app_assoc).
  assert (L1 : length pre1 = S (length pre)) by (unfold pre1; llia). assert (L3 : length pre3 = S (length pre2)) by (unfold pre3; llia).
  assert (L2 : length pre2 = length pre1 + length u) by (unfold pre2; llia).
  assert (Ls : length pre2 < length s /\ length pre < length s) by (rewrite E2; llia).
  assert (C : char_at s (r st) = SQUOTE) by (unfold s; rewrite R; apply char_at_here).
  assert (C2 : char_at s (length pre2) = SQUOTE) by (rewrite E2; apply char_at_here).
  set (et := eval (look sup) sup (0 <? lev) t).
  assert (F : fst out = (d ++ u ++ d) ++ fst et /\ snd out = snd et).
  { unfold out, et, d. simpl. destruct (eval _ _ _ t). destruct (0 <? lev); simpl; [by rewrite app_nil_r|done]. }
  destruct F as [F1 F2]. rewrite F1, F2 in K. rewrite F1 in Rm.
  replace (length pre + length (print (TSq u t))) with (length pre3 + length (print t)) in K by (rewrite L3, L2, L1; simpl; llia).
  eapply (loop_quote _ _ _ _ 0 SQUOTE); [done|rewrite R; apply Ls|by rewrite C|right; exact C|by rewrite C|]. rewrite C, R, <- L1. fold d.
  eapply (loop_single _ _ _ _ u pre1); [by apply adv_pre|exact E1|done|done|]. rewrite adv_adv by apply P. rewrite <- L2. simpl orb.
  eapply (loop_quote _ _ _ _ SQUOTE 0); [by apply adv_pre|apply Ls|by cbn [adv r]; rewrite C2|right; exact C2|by cbn [adv r]; rewrite C2|].
  cbn [adv r]. rewrite C2. fold (adv valend st (d ++ u) false (length pre2)). fold d. rewrite adv_adv by apply P.
  rewrite <- app_assoc, <- L3. simpl orb.
  eapply (translate_rest t _ pre3); [done..|by left|done|exact Rm|exact eq_refl|exact K].
Qed.

Lemma look_ok_no_nul sup : look_no_nul (look sup).
Proof. intros nm x e N L. destruct (Ok sup nm N) as (y & _ & F). rewrite L in F. by destruct F as (? & _ & ? & _). Qed.

Lemma macEnd_opening b : macEnd (opening b) = [EQUALS; COMMA; closing b].
Proof. by destruct b. Qed.

(** The name of a reference, up to the character [c] after it. *)
Section name.
Context (b : bool) (nm : tmpl) (IHn : translate_spec nm) (Wn : well_formed true [EQUALS; COMMA; closing b] 0 nm = true).
Context (s pre rest : list Z) (c : Z) (Es : s = pre ++ DOLLAR :: opening b :: print nm ++ c :: rest) (Cc : c = EQUALS \/ c = COMMA \/ c = closing b).
Context (st : trans_state) (sup : bool) (B : based sup st) (W : mac_wf (handle st)) (R : r st = length pre).
Let pos := length pre + 2 + length (print nm).
Let en := eval (look sup) sup true nm.
Definition name_state : trans_state := adv MAC_SIZE (mkTrans (handle st) new_buffer 0 (err st) (S (S (r st)))) (fst en) (snd en) pos.

Lemma name_split : s = (pre ++ [DOLLAR; opening b]) ++ print nm ++ c :: rest /\ length (pre ++ [DOLLAR; opening b]) = length pre + 2.
Proof. split; [by rewrite Es, <- app_assoc|llia]. Qed.

Lemma name_at : char_at s pos = c /\ pos < length s.
Proof.
  destruct name_split as [E L]. unfold pos. rewrite <- L, <- length_app. rewrite app_assoc in E. split; [rewrite E; apply char_at_here|].
  rewrite E. llia.
Qed.

Lemma name_ref : is_macref s (r st) = true /\ macEnd (char_at s (S (r st))) = [EQUALS; COMMA; closing b].
Proof.
  assert (C : char_at s (r st) = DOLLAR) by (rewrite R, Es; apply char_at_here).
  assert (C1 : char_at s (S (r st)) = opening b).
  { rewrite R, Es. replace (S (length pre)) with (length (pre ++ [DOLLAR])) by llia. rewrite cons_middle, app_assoc. apply char_at_here. }
  split; [unfold is_macref; rewrite C, C1; by destruct b|rewrite C1; apply macEnd_opening].
Qed.

Lemma name_converges lev :
  converges (loop s (S lev) [EQUALS; COMMA; closing b] MAC_SIZE 0 (mkTrans (handle st) new_buffer 0 (err st) (S (S (r st))))) name_state.
Proof.
  destruct name_split as [E L]. destruct name_at as [Ca La].
  apply (IHn s (pre ++ [DOLLAR; opening b]) (c :: rest) (S lev) true [EQUALS; COMMA; closing b] 0%Z MAC_SIZE _ sup); try done.
  - by apply new_buffer_pre.
  - cbn [r]. rewrite R. lia.
  - by left.
  - apply term_ok_name.
  - by left.
  - cbv zeta. rewrite L. fold pos. change (0 <? S lev) with true. fold en. fold name_state. apply loop_end.
    + cbn [name_state adv r]. lia.
    + cbn [name_state adv r]. rewrite Ca. destruct Cc as [->|[-> | ->]]; by destruct b.
Qed.

Lemma name_no_nul : no_nul (take MAC_SIZE (fst en)).
Proof. apply no_nul_take. by apply (eval_no_nul (look sup) sup (look_ok_no_nul sup) nm _ _ _ true Wn). Qed.

Lemma name_text : buffer_string (mem name_state) = take MAC_SIZE (fst en).
Proof.
  cbn [name_state adv mem outs outputs set_out v]. unfold fitting. rewrite Nat.sub_0_r. apply buffer_string_output; [by unfold new_buffer; rewrite length_replicate|].
  by apply (eval_no_nul (look sup) sup (look_ok_no_nul sup) nm _ _ _ true Wn).
Qed.
End name.

(** What follows a reference. *)
Lemma refer_rest t s pre rest lev tame term q valend st sup y pos out x e1 :
  translate_spec t -> based sup st -> trans_pre valend st -> is_macref s (r st) = true -> r st < length s ->
  q = 0%Z \/ q = DQUOTE -> term_ok term -> well_formed tame term q t = true -> s = pre ++ print t ++ rest -> S pos = length pre ->
  let et := eval (look sup) sup (0 <? lev) t in
  out = (x ++ fst et, e1 || snd et) -> tame = true \/ v st + length (fst out) <= valend ->
  converges (fun fuel => refer getenv fuel s lev valend st) (adv valend st x e1 pos) ->
  converges (loop s lev term valend q (adv valend st (fst out) (snd out) (length pre + length (print t)))) y ->
  converges (loop s lev term valend q st) y.
Proof.
  intros IH B P M L Q T W Es Ep et -> Rm C K.
  assert (D : char_at s (r st) = DOLLAR) by (unfold is_macref in M; apply andb_true_iff in M as [M _]; by apply Z.eqb_eq).
  eapply loop_refer; [lia|rewrite D; apply T; do 3 right; left| | |exact C|].
  - rewrite D. instantiate (1 := q). by destruct Q as [-> | ->].
  - rewrite M. by destruct Q as [-> | ->].
  - change (set_r (adv valend st x e1 pos) (S (r (adv valend st x e1 pos)))) with (adv valend st x e1 (S pos)). rewrite Ep.
    by eapply (translate_rest t _ pre rest).
Qed.

Lemma translate_ref b nm t : translate_spec nm -> translate_spec t -> translate_spec (TRef b nm t).
Proof.
  intros IHn IH s pre rest lev tame term q valend st sup y B P -> R W Q T out Rm K. simpl in W. apply andb_true_iff in W as [Wn W].
  set (s := pre ++ print (TRef b nm t) ++ rest) in *.
  assert (Es : s = pre ++ DOLLAR :: opening b :: print nm ++ closing b :: print t ++ rest) by (unfold s; simpl; by rewrite <- app_assoc).
  assert (Cc : closing b = EQUALS \/ closing b = COMMA \/ closing b = closing b) by (by right; right).
  destruct (name_ref b nm Wn s pre (print t ++ rest) (closing b) Es Cc st R) as [Rf Me].
  destruct (name_at b nm s pre (print t ++ rest) (closing b) Es st R) as [Ca La]. set (pos := length pre + 2 + length (print nm)) in *.
  pose proof (tp_wf _ _ P) as Wh.
  pose proof (name_converges b nm IHn Wn s pre (print t ++ rest) (closing b) Es Cc st sup B Wh R lev) as Cn.
  pose proof (name_text b nm Wn pre st sup) as Nt. pose proof (name_no_nul b nm Wn sup) as Nn.
  set (n := name_state nm pre st sup) in *. change (0 <? S lev) with true in *.
  set (en := eval (look sup) sup true nm) in *. set (et := eval (look sup) sup (0 <? lev) t).
  set (xy := default (bad_text sup (take MAC_SIZE (fst en)) UNDEFINED, true) (look sup (take MAC_SIZE (fst en)))).
  assert (Fo : out = (fst xy ++ fst et, snd en || snd xy || snd et)).
  { unfold out, xy, et, en. simpl. destruct (eval _ _ true nm). simpl. destruct (default _ _). by destruct (eval _ _ _ t). }
  assert (E3 : s = (pre ++ [DOLLAR; opening b] ++ print nm ++ [closing b]) ++ print t ++ rest) by (by rewrite Es, <- !app_assoc).
  eapply (refer_rest t s _ rest lev tame term q valend st sup y pos out (fst xy) (snd en || snd xy));
    [done..|rewrite R; lia|done|done|done|exact E3|unfold pos; simpl; llia|exact Fo|exact Rm| |].
  2: { replace (length _ + length (print t)) with (length pre + length (print (TRef b nm t))) by (simpl; llia). exact K. }
  eapply (refer_plain s lev valend st n); [by rewrite Me|done|exact Nt|..]; change (r n) with pos; rewrite ?Ca.
  - done.
  - by destruct b.
  - by destruct b.
  - by destruct b.
  - set (st1 := mkTrans (handle st) (mem st) (v st) (err n) pos).
    assert (P1 : trans_pre valend st1) by (by eapply trans_pre_fields; [exact P|..]).
    assert (Fin : forall x e, adv valend st1 x e pos = adv valend st x (snd en || e) pos).
    { intros x e. unfold adv. cbn [st1 handle err n name_state]. by rewrite orb_assoc. }
    destruct (look sup (take MAC_SIZE (fst en))) as [[x e]|] eqn:Lk; simpl in xy; subst xy; cbn [fst snd]; rewrite <- Fin.
    + by apply (resolve_found s lev valend st1 sup).
    + by apply (resolve_bad s lev valend st1 sup).
Qed.

(** A default value, up to the end of the reference. *)
Lemma default_converges b d s preD rest lev valend st sup :
  translate_spec d -> well_formed true [COMMA; closing b] 0 d = true -> s = preD ++ print d ++ closing b :: rest ->
  based sup st -> trans_pre valend st -> r st = length preD ->
  let ed := eval (look sup) sup true d in
  converges (loop s (S lev) [COMMA; closing b] valend 0 st) (adv valend st (fst ed) (snd ed) (length preD + length (print d))).
Proof.
  intros IHd Wd Es B P R ed. assert (Ce : char_at s (length preD + length (print d)) = closing b).
  { rewrite Es, app_assoc, <- length_app. apply char_at_here. }
  apply (IHd s preD (closing b :: rest) (S lev) true [COMMA; closing b] 0%Z valend st sup); try done; [by left|apply term_ok_default|by left|].
  cbv zeta. change (0 <? S lev) with true. fold ed. apply loop_end; cbn [adv r].
  - rewrite Es. llia.
  - rewrite Ce. by destruct b.
Qed.

Lemma translate_def b nm d t : translate_spec nm -> translate_spec d -> translate_spec t -> translate_spec (TDef b nm d t).
Proof.
  intros IHn IHd IH s pre rest lev tame term q valend st sup y B P -> R W Q T out Rm K. simpl in W.
  rewrite !andb_true_iff in W. destruct W as [[Wn Wd] W]. set (s := pre ++ print (TDef b nm d t) ++ rest) in *.
  set (rd := closing b :: print t ++ rest).
  assert (Es : s = pre ++ DOLLAR :: opening b :: print nm ++ EQUALS :: print d ++ rd).
  { unfold s, rd. simpl. rewrite <- app_assoc. simpl. by rewrite <- app_assoc. }
  assert (Cc : EQUALS = EQUALS \/ EQUALS = COMMA \/ EQUALS = closing b) by (by left).
  destruct (name_ref b nm Wn s pre (print d ++ rd) EQUALS Es Cc st R) as [Rf Me].
  destruct (name_at b nm s pre (print d ++ rd) EQUALS Es st R) as [Ca La]. set (pos := length pre + 2 + length (print nm)) in *.
  pose proof (name_converges b nm IHn Wn s pre (print d ++ rd) EQUALS Es Cc st sup B (tp_wf _ _ P) R lev) as Cn.
  pose proof (name_text b nm Wn pre st sup) as Nt. pose proof (name_no_nul b nm Wn sup) as Nn.
  set (n := name_state nm pre st sup) in *. set (preD := pre ++ [DOLLAR; opening b] ++ print nm ++ [EQUALS]).
  assert (Lp : length preD = S pos) by (unfold preD, pos; llia).
  assert (Ed : s = preD ++ print d ++ rd) by (unfold preD; by rewrite Es, <- !app_assoc).
  set (epos := S pos + length (print d)).
  assert (Ce : char_at s epos = closing b /\ epos < length s).
  { unfold epos. rewrite <- Lp, <- length_app. rewrite app_assoc in Ed. rewrite Ed. split; [apply char_at_here|unfold rd; llia]. }
  destruct Ce as [Ce Le].
  set (en := eval (look sup) sup true nm) in *. set (ed := eval (look sup) sup true d). set (et := eval (look sup) sup (0 <? lev) t).
  set (xy := default ed (look sup (take MAC_SIZE (fst en)))).
  assert (Fo : out = (fst xy ++ fst et, snd en || snd xy || snd et)).
  { unfold out, xy, ed, et, en. simpl. destruct (eval _ _ true nm). simpl. destruct (default _ _). by destruct (eval _ _ _ t). }
  assert (E3 : s = (preD ++ print d ++ [closing b]) ++ print t ++ rest) by (by rewrite Ed; unfold rd; rewrite <- !app_assoc).
  eapply (refer_rest t s _ rest lev tame term q valend st sup y epos out (fst xy) (snd en || snd xy));
    [done..|lia|done|done|done|exact E3|unfold epos; llia|exact Fo|exact Rm| |].
  2: { replace (length _ + length (print t)) with (length pre + length (print (TDef b nm d t))) by (unfold preD; simpl; llia). exact K. }
  pose proof (default_converges b d s preD (print t ++ rest) lev (v st) (mkTrans (set_suppress (handle st) true) (mem st) (v st) false (S pos)) true
    IHd Wd Ed) as Zc. cbv zeta in Zc. rewrite Lp in Zc. fold epos in Zc.
  assert (Pz : trans_pre (v st) (mkTrans (set_suppress (handle st) true) (mem st) (v st) false (S pos))).
  { eapply trans_pre_fields; [exact (trans_pre_empty _ _ P)|done|done|]. apply set_suppress_wf, P. }
  specialize (Zc ltac:(unfold based; cbn [handle]; by rewrite B) Pz eq_refl). rewrite adv_full in Zc by done.
  match type of Zc with converges _ ?x => set (zd := x) in Zc end.
  eapply (refer_default s lev valend st n) with (d := zd); [by rewrite Me|done|exact Nt|..]; change (r n) with pos; rewrite ?Ca; try done.
  - rewrite Me. exact Zc.
  - change (r zd) with epos. rewrite Ce. by destruct b.
  - change (r zd) with epos. rewrite Ce. by destruct b.
  - change (r zd) with epos. set (st2 := set_r (mkTrans (handle st) (mem st) (v st) (err n) pos) epos).
    assert (P2 : trans_pre valend st2) by (by eapply trans_pre_fields; [exact P|..|apply P]).
    assert (Fin : forall x e, adv valend st2 x e epos = adv valend st x (snd en || e) epos).
    { intros x e. unfold adv. cbn [st2 set_r handle err n name_state]. by rewrite orb_assoc. }
    destruct (look sup (take MAC_SIZE (fst en))) as [[x e]|] eqn:Lk; simpl in xy; subst xy; cbn [fst snd]; rewrite <- Fin.
    + by apply (resolve_found s lev valend st2 sup).
    + pose proof (default_converges b d s preD (print t ++ rest) lev valend (set_r st2 (S pos)) sup IHd Wd Ed B) as D.
      cbv zeta in D. rewrite Lp in D. fold epos ed in D. rewrite Me.
      change (adv valend st2 (fst ed) (snd ed) epos) with (set_r (adv valend (set_r st2 (S pos)) (fst ed) (snd ed) epos) (r st2)).
      apply (resolve_default s lev valend st2 sup (S pos) _ _ _ B Nn Lk). apply D; [|done].
      by eapply trans_pre_fields; [exact P2|..|apply P2].
Qed.

(** Every template is translated into its meaning, as far as there is room. *)
Lemma translate t : translate_spec t.
Proof.
  induction t as [|c t IH|c t IH|u IHu t IH|s t IH|b nm IHn t IH|b nm IHn d IHd t IH].
  - intros s pre rest lev tame term q valend st sup y B P _ R _ _ _ out _ K. simpl in K. rewrite adv_nil, orb_false_r, Nat.add_0_r, <- R in K by done.
    by destruct st.
  - by apply translate_lit.
  - by apply translate_esc.
  - by apply translate_dq.
  - by apply translate_sq.
  - by apply translate_ref.
  - by apply translate_def.
Qed.

(** A whole string. *)
Lemma translate_string t lev tame valend st sup :
  based sup st -> trans_pre valend st -> r st = 0 -> well_formed tame [] 0 t = true ->
  let out := eval (look sup) sup (0 <? lev) t in
  tame = true \/ v st + length (fst out) <= valend ->
  exists i, converges (fun fuel => trans getenv fuel (print t) lev [] valend st) (adv valend st (fst out) (snd out) i).
Proof.
  intros B P R W out Rm. set (x := adv valend st (fst out) (snd out) (length (print t))).
  assert (C : converges (loop (print t) lev [] valend 0 st) x).
  { apply (translate t (print t) [] [] lev tame [] 0%Z valend st sup); try done; [by rewrite app_nil_r|by left|apply term_ok_string|].
    exact (loop_end (print t) lev [] valend 0 x (Nat.le_refl _) ltac:(change (r x) with (length (print t)); by rewrite char_at_end)). }
  exists (r (step_back (print t) x)). apply (converges_ext _ (fun fuel => let* st := loop (print t) lev [] valend 0 st fuel in inr (step_back (print t) st)));
    [done|]. apply (converges_bind _ (fun st _ => inr (step_back (print t) st)) _ _ C).
  replace (adv _ _ _ _ _) with (step_back (print t) x); [apply converges_ret|]. unfold step_back. by destruct (_ =? 0)%Z.
Qed.
End refer.
End steps.
