(* ===== verification/MacCorrect.v ===== *)
(** * Macro substitution is correct

    The values of macros, which may refer to each other, as a recursive function of their definitions, and the result of
    [macExpandString] as the meaning of its string. *)

From stdpp Require Import base numbers list option strings gmap.
From Stdlib Require Import ZArith Lia Bool.
From S2P Require Import Prelude CStdlib EpicsString MacLib MacScope MacSafe MacApi MacTemplate MacExpand.
#[local] Open Scope nat_scope.

(** ** What macros mean *)

Section meaning.
(** The template of a definition. *)
Context (body : list Z -> tmpl).

Definition entry_body (e : MAC_ENTRY) : tmpl := match rawval e with Some rv => body rv | None => TEnd end.

Definition find_entry (nm : list Z) (l : list MAC_ENTRY) : option MAC_ENTRY := List.find (named nm) (rev l).

(** The text of the macro [nm] where the macros [vis] are being expanded.  [k] bounds the nesting. *)
Fixpoint macro_text (k : nat) (l : list MAC_ENTRY) (vis : list nat) (sup : bool) (nm : list Z) : option (list Z * bool) :=
  match find_entry nm l with
  | None => None
  | Some e =>
      if bool_decide (mid e ∈ vis) then Some (bad_text sup nm RECURSIVE, true)
      else match k with
           | O => Some ([], true)
           | S k => Some (eval (macro_text k l (mid e :: vis) sup) sup true (entry_body e))
           end
  end.

(** The value of an entry: at most [MAC_SIZE] characters. *)
Definition entry_value (l : list MAC_ENTRY) (sup : bool) (e : MAC_ENTRY) : list Z * bool :=
  let '(x, er) := eval (macro_text (length l) l [] sup) sup true (entry_body e) in (take MAC_SIZE x, er).

Definition value_of (l : list MAC_ENTRY) (sup : bool) (nm : list Z) : option (list Z * bool) :=
  entry_value l sup <$> find_entry nm l.

(** Handles whose definitions are templates, without scoped macros. *)
Record mac_good (h : MAC_HANDLE) : Prop := {
  good_closed : closed h;
  good_visited : Forall (fun e => visited e = false) (entries h);
  good_bodies : Forall (fun e => forall rv, rawval e = Some rv -> print (body rv) = rv /\ well_formed true [] 0 (body rv) = true) (entries h) }.

(** The entries whose expansion is under way are marked. *)
Definition marked (vis : list nat) (e : MAC_ENTRY) : MAC_ENTRY := set_visited (bool_decide (mid e ∈ vis)) e.
Definition mark (vis : list nat) (h : MAC_HANDLE) : MAC_HANDLE := set_entries h (map (marked vis) (entries h)).

Lemma find_map (f : MAC_ENTRY -> MAC_ENTRY) nm l :
  (forall e, named nm (f e) = named nm e) -> find_entry nm (map f l) = f <$> find_entry nm l.
Proof.
  intros H. unfold find_entry. rewrite <- map_rev. induction (rev l) as [|e l' IH]; simpl; [done|].
  rewrite H. by destruct (named nm e).
Qed.

Lemma lookup_find getenv h nm : use_env h = false -> lookup getenv h nm false = (mid <$> find_entry nm (entries h), h).
Proof.
  intros U. unfold lookup, find_entry, named. rewrite U, andb_false_r. by destruct (List.find _ _).
Qed.

Lemma find_entry_in nm l e : find_entry nm l = Some e -> e ∈ l /\ plain e /\ name e = nm.
Proof.
  unfold find_entry. intros F. apply List.find_some in F as [I N]. apply named_spec in N. split; [|done].
  by apply list_elem_of_In, in_rev.
Qed.

Lemma mark_nil h : Forall (fun e => visited e = false) (entries h) -> mark [] h = h.
Proof.
  intros F. unfold mark. assert (map (marked []) (entries h) = entries h) as ->; [|by destruct h].
  induction F as [|e l V _ IH]; simpl; [done|]. rewrite IH. f_equal. unfold marked. rewrite bool_decide_false by (apply not_elem_of_nil).
  destruct e. simpl in V. by subst.
Qed.

Lemma mark_visit vis h x sup :
  with_entry (set_suppress (mark vis h) sup) x (set_visited true) = set_suppress (mark (x :: vis) h) sup.
Proof.
  unfold with_entry, mark, set_suppress, set_entries. cbn [entries dirty level suppress use_env next_mid]. f_equal.
  rewrite map_map. apply map_ext. intros e. unfold marked. cbn [mid set_visited].
  case_decide as D; (case_bool_decide as E; case_bool_decide as E'; try done);
    rewrite elem_of_cons in *; try by destruct E'; auto. all: naive_solver.
Qed.

Lemma mark_leave vis h x sup :
  x ∉ vis -> with_entry (set_suppress (mark (x :: vis) h) sup) x (set_visited false) = set_suppress (mark vis h) sup.
Proof.
  intros N. unfold with_entry, mark, set_suppress, set_entries. cbn [entries dirty level suppress use_env next_mid]. f_equal.
  rewrite map_map. apply map_ext. intros e. unfold marked. cbn [mid set_visited].
  case_decide as D.
  - rewrite (bool_decide_false (mid e ∈ vis)) by congruence. done.
  - f_equal. apply bool_decide_ext. rewrite elem_of_cons. naive_solver.
Qed.

(** ** Translation with the raw values *)

Section dirty.
Context (getenv : list Z -> option (list Z)) (h : MAC_HANDLE) (G : mac_good h) (D : dirty h = true).

Lemma lookup_marked vis sup nm :
  lookup getenv (set_suppress (mark vis h) sup) nm false = (mid <$> find_entry nm (entries h), set_suppress (mark vis h) sup).
Proof.
  rewrite lookup_find by apply G. cbn [mark set_suppress set_entries entries]. rewrite find_map by done. f_equal.
  by destruct (find_entry nm (entries h)).
Qed.

(** Not all entries can be under expansion while another one is found. *)
Lemma marks_left k vis e :
  NoDup vis -> vis ⊆ map mid (entries h) -> length (entries h) <= k + length vis -> e ∈ entries h -> mid e ∉ vis -> k <> 0.
Proof.
  intros N Sb L I Nv ->. assert (length (mid e :: vis) <= length (map mid (entries h))); [|rewrite length_map in *; simpl in *; lia].
  apply submseteq_length, NoDup_submseteq; [by constructor|]. intros x [->|J]%elem_of_cons; [by apply (list_elem_of_fmap_2 mid)|auto].
Qed.

Lemma based_marked_entry vis sup st e :
  based (mark vis h) sup st -> mac_wf (handle st) -> e ∈ entries h -> entry_at (handle st) (mid e) = inr (marked vis e).
Proof.
  intros B W I. apply entry_at_spec; [done| |done]. rewrite B. cbn [mark set_suppress set_entries entries].
  by apply (list_elem_of_fmap_2 (marked vis)).
Qed.

Lemma macro_text_ok k : forall vis,
  NoDup vis -> vis ⊆ map mid (entries h) -> length (entries h) <= k + length vis ->
  look_ok getenv (mark vis h) (macro_text k (entries h) vis).
Proof.
  induction k as [|k IH]; intros vis N Sb L sup nm Nn; exists (mid <$> find_entry nm (entries h)); (split; [apply lookup_marked|]);
    simpl; destruct (find_entry nm (entries h)) as [e|] eqn:F; try done; apply find_entry_in in F as (I & Pe & <-).
  all: destruct (decide (mid e ∈ vis)) as [V|V]; [rewrite bool_decide_true by done|rewrite bool_decide_false by done].
  all: try (exists (mid e); split; [done|]; split; [apply bad_text_no_nul; [done|apply errval_no_nul]|]; intros lev valend st B P;
    apply (converges_ext _ (fun _ => bad_reference (name e) RECURSIVE valend st));
    [intros fuel; unfold found; rewrite (based_marked_entry vis sup) by (done || apply P); cbn [ebind marked set_visited visited];
     by rewrite bool_decide_true|];
    rewrite bad_reference_exact by (try done; apply errval_no_nul); rewrite B; unfold adv; rewrite orb_true_r; apply converges_ret).
  - by destruct (marks_left 0 vis e).
  - assert (Ok : look_ok getenv (mark (mid e :: vis) h) (macro_text k (entries h) (mid e :: vis))).
    { apply IH; [by constructor| |simpl; lia]. intros x [->|J]%elem_of_cons; [by apply (list_elem_of_fmap_2 mid)|auto]. }
    pose proof (closed_ok h (good_closed h G)) as Ro. unfold ok_entries in Ro. rewrite Forall_forall in Ro. destruct (Ro e I Pe) as [rv Rv].
    pose proof (good_bodies h G) as Gb. rewrite Forall_forall in Gb. destruct (Gb e I rv Rv) as [Pr Wf]. unfold entry_body. rewrite Rv.
    destruct (eval (macro_text k (entries h) (mid e :: vis) sup) sup true (body rv)) as [txt er] eqn:Ev.
    exists (mid e). split; [done|]. split.
    { pose proof (eval_no_nul _ sup (look_ok_no_nul getenv _ _ Ok sup) (body rv) true [] 0 true Wf) as Z. by rewrite Ev in Z. }
    intros lev valend st B P.
    destruct (translate_string getenv (mark (mid e :: vis) h) _ Ok (body rv) (S lev) true valend
      (mkTrans (with_entry (handle st) (mid e) (set_visited true)) (mem st) (v st) (err st) 0) sup) as (i & C); [|..|by left|].
    { unfold based. cbn [handle]. rewrite B. apply mark_visit. }
    { eapply trans_pre_fields; [exact P|done|done|]. apply set_visited_wf, P. }
    { done. }
    { done. }
    change (0 <? S lev) with true in C. rewrite Ev, Pr in C. cbn [fst snd] in C.
    match type of C with converges _ ?x => set (t := x) in C end.
    apply (converges_ext _ (fun fuel => let* t := trans getenv fuel rv (S lev) [] valend
        (mkTrans (with_entry (handle st) (mid e) (set_visited true)) (mem st) (v st) (err st) 0) in
      inr (mkTrans (with_entry (handle t) (mid e) (set_visited false)) (mem t) (v t) (err t) (r st)))).
    { intros fuel. unfold found. rewrite (based_marked_entry vis sup) by (done || apply P). cbn [ebind marked set_visited visited rawval].
      rewrite bool_decide_false by done. rewrite Rv. assert (dirty (handle st) = true) as -> by (by rewrite B). done. }
    eapply (converges_bind _ (fun t _ => inr (mkTrans (with_entry (handle t) (mid e) (set_visited false)) (mem t) (v t) (err t) (r st))));
      [exact C|]. replace (adv valend st txt er (r st)) with
        (mkTrans (with_entry (handle t) (mid e) (set_visited false)) (mem t) (v t) (err t) (r st)); [apply converges_ret|].
    unfold adv. f_equal. change (handle t) with (with_entry (handle st) (mid e) (set_visited true)). rewrite B, mark_visit. by apply mark_leave.
Qed.
End dirty.

(** ** The meaning depends on the definitions only *)

Lemma eval_ext look look' sup t discard :
  (forall nm, look nm = look' nm) -> eval look sup discard t = eval look' sup discard t.
Proof.
  intros E. revert discard. induction t as [|c t IH|c t IH|u IHu t IH|s t IH|b nm IHn t IH|b nm IHn d IHd t IH]; intros discard; simpl.
  all: rewrite ?IHn, ?IHd, ?IHu, ?IH; try done.
  - destruct (eval look' sup true nm). by rewrite E.
  - destruct (eval look' sup true nm). by rewrite E.
Qed.

Lemma macro_text_forget k l sup : forall vis nm, macro_text k (map forget l) vis sup nm = macro_text k l vis sup nm.
Proof.
  induction k as [|k IH]; intros vis nm; simpl; rewrite find_map by done; destruct (find_entry nm l) as [e|]; simpl; try done.
  destruct (bool_decide _); [done|]. f_equal. apply eval_ext. intros nm'. apply IH.
Qed.

Lemma entry_value_forget l sup e : entry_value (map forget l) sup (forget e) = entry_value l sup e.
Proof.
  unfold entry_value. rewrite length_map. by rewrite (eval_ext _ (macro_text (length l) l [] sup)) by (intros; apply macro_text_forget).
Qed.

(** The entry holds its value. *)
Definition valued (l : list MAC_ENTRY) (sup : bool) (e : MAC_ENTRY) : Prop :=
  exists m, value e = Some m /\ (until_nul m, error e) = entry_value l sup e.

Lemma valued_same l l' sup e : map forget l' = map forget l -> valued l sup e -> valued l' sup e.
Proof.
  intros E (m & V & Ev). exists m. split; [done|]. by rewrite <- (entry_value_forget l'), E, entry_value_forget.
Qed.

Lemma good_same h h' : mac_good h -> closed h' -> map forget (entries h') = map forget (entries h) -> mac_good h'.
Proof.
  intros [_ V B] C E. split; [done|..].
  - assert (V' : Forall (fun e => visited e = false) (map forget (entries h'))) by (rewrite E; by apply Forall_map).
    by apply Forall_map in V'.
  - assert (B' : Forall (fun e => forall rv, rawval e = Some rv -> print (body rv) = rv /\ well_formed true [] 0 (body rv) = true)
        (map forget (entries h'))) by (rewrite E; by apply Forall_map).
    by apply Forall_map in B'.
Qed.

Section expand.
Context (getenv : list Z -> option (list Z)).

Lemma good_based h : mac_good h -> h = set_suppress (mark [] h) (suppress h).
Proof. intros G. rewrite mark_nil by apply G. by destruct h. Qed.

(** One entry gets its value. *)
Lemma expand_entry_value h a e b :
  mac_good h -> dirty h = true -> entries h = a ++ e :: b ->
  exists m n, length m = S MAC_SIZE /\ m !! MAC_SIZE = Some 0%Z /\ until_nul m = fst (entry_value (entries h) (suppress h) e) /\
    converges (fun fuel => expand_entry getenv fuel h (mid e)) (with_entry h (mid e) (set_value m n (snd (entry_value (entries h) (suppress h) e)))).
Proof.
  intros G D E. assert (Ie : e ∈ entries h) by (rewrite E; apply elem_of_app; right; by left).
  pose proof (good_closed h G) as (W & U & _). set (m0 := <[0 := 0%Z]> (default new_buffer (value e))).
  assert (L0 : length m0 = S MAC_SIZE).
  { unfold m0. rewrite length_insert. destruct (value e) as [m'|] eqn:V; [|apply length_replicate]. pose proof (wf_entries _ W) as We.
    rewrite Forall_forall in We. by apply (We e Ie). }
  set (st0 := mkTrans h m0 0 false 0). assert (P0 : trans_pre MAC_SIZE st0).
  { split; cbn [st0 v mem handle]; [lia| |done]. apply list_lookup_insert_eq. unfold m0 in L0. rewrite length_insert in L0. lia. }
  pose proof (macro_text_ok getenv h G D (length (entries h)) [] ltac:(constructor) ltac:(intros ? I; by apply not_elem_of_nil in I)
    ltac:(simpl; lia)) as Ok.
  set (out := eval (macro_text (length (entries h)) (entries h) [] (suppress h)) (suppress h) true (entry_body e)).
  assert (Ev : entry_value (entries h) (suppress h) e = (take MAC_SIZE (fst out), snd out)) by (unfold entry_value; fold out; by destruct out).
  rewrite Ev. cbn [fst snd].
  assert (T : no_nul (fst out) /\ exists i, converges (fun fuel =>
     match rawval e with Some rv => trans getenv fuel rv 1 [] MAC_SIZE st0 | None => inr st0 end) (adv MAC_SIZE st0 (fst out) (snd out) i)).
  { unfold out, entry_body. destruct (rawval e) as [rv|] eqn:Rv.
    - pose proof (good_bodies h G) as Gb. rewrite Forall_forall in Gb. destruct (Gb e Ie rv Rv) as [Pr Wf].
      split; [by apply (eval_no_nul _ _ (look_ok_no_nul getenv _ _ Ok (suppress h)) _ true [] 0 true)|].
      destruct (translate_string getenv (mark [] h) _ Ok (body rv) 1 true MAC_SIZE st0 (suppress h)) as (i & C); try done; [by apply good_based|by left|].
      rewrite Pr in C. by exists i.
    - split; [constructor|]. exists 0. simpl. rewrite adv_nil by done. apply converges_ret. }
  destruct T as (Nn & i & C). set (st1 := adv MAC_SIZE st0 (fst out) (snd out) i) in *.
  assert (M1 : mem st1 = output m0 0 (take MAC_SIZE (fst out))).
  { cbn [st1 adv mem outs outputs set_out]. unfold fitting. cbn [st0 v mem]. by rewrite Nat.sub_0_r. }
  assert (L1 : length (mem st1) = S MAC_SIZE) by (rewrite M1, output_length; [done|rewrite length_take; lia]).
  exists (<[MAC_SIZE := 0%Z]> (mem st1)), (v st1). split; [by rewrite length_insert|].
  split; [apply list_lookup_insert_eq; lia|]. split; [rewrite M1; by apply buffer_string_output|].
  apply (converges_ext _ (fun fuel => let* st := match rawval e with Some rv => trans getenv fuel rv 1 [] MAC_SIZE st0 | None => inr st0 end in
     let* m := poke (mem st) MAC_SIZE 0 in inr (with_entry (handle st) (mid e) (set_value m (v st) (err st))))).
  { intros fuel. unfold expand_entry. rewrite (entry_at_spec _ _ e) by done. cbn [ebind].
    rewrite poke_in by (unfold m0 in L0; rewrite length_insert in L0; lia). done. }
  apply (converges_bind _ (fun st _ => let* m := poke (mem st) MAC_SIZE 0 in inr (with_entry (handle st) (mid e) (set_value m (v st) (err st)))) _ _ C).
  rewrite poke_in by lia. apply converges_ret.
Qed.

Lemma set_value_entries h a e b m n er :
  mac_wf h -> entries h = a ++ e :: b -> entries (with_entry h (mid e) (set_value m n er)) = a ++ set_value m n er e :: b.
Proof.
  intros W E. pose proof (wf_nodup _ W) as Nd. rewrite E, map_app in Nd. cbn [map] in Nd.
  apply NoDup_app in Nd as (_ & Dj & Nd). apply NoDup_cons in Nd as [Nb _].
  rewrite with_entry_map, E, map_app. cbn [map]. rewrite decide_True by done.
  rewrite !map_absent; [done|done|]. intros I. apply (Dj _ I). by left.
Qed.

(** What expanding keeps. *)
Record expands (h h' : MAC_HANDLE) : Prop := {
  ex_good : mac_good h'; ex_forget : map forget (entries h') = map forget (entries h);
  ex_suppress : suppress h' = suppress h; ex_dirty : dirty h' = dirty h }.

Lemma expands_trans a b c : expands a b -> expands b c -> expands a c.
Proof. intros [] []. split; congruence. Qed.

Lemma set_value_expands h x m n er :
  mac_good h -> length m = S MAC_SIZE -> m !! MAC_SIZE = Some 0%Z -> expands h (with_entry h x (set_value m n er)).
Proof.
  intros G L E. pose proof (set_value_keeps h x m n er (proj1 (good_closed h G)) L E) as K.
  destruct (keeps_defs_closed h _ (good_closed h G) K) as [C _].
  assert (F : map forget (entries (with_entry h x (set_value m n er))) = map forget (entries h)).
  { rewrite with_entry_map, map_map. apply map_ext. intros e. by destruct (decide _). }
  split; [|done..]. by apply (good_same h).
Qed.

Lemma expand_loop_values b : forall h a,
  mac_good h -> dirty h = true -> entries h = a ++ b -> Forall (valued (entries h) (suppress h)) a ->
  exists h', expands h h' /\ Forall (valued (entries h') (suppress h')) (entries h') /\
    exists k, forall fuel n, k <= fuel -> length b < n -> expand_loop getenv n fuel h (mid <$> head b) = inr h'.
Proof.
  induction b as [|e b IH]; intros h a G D E F.
  - exists h. rewrite app_nil_r in E. split; [by split|]. split; [by rewrite E at 2|]. exists 0. intros fuel [|n] _ L; simpl in *; [lia|done].
  - destruct (expand_entry_value h a e b G D E) as (m & n & Lm & Em & Um & [k1 C]).
    set (h1 := with_entry h (mid e) (set_value m n (snd (entry_value (entries h) (suppress h) e)))) in *.
    assert (X1 : expands h h1) by (by apply set_value_expands).
    assert (E1 : entries h1 = (a ++ [set_value m n (snd (entry_value (entries h) (suppress h) e)) e]) ++ b).
    { rewrite <- app_assoc. apply set_value_entries; [apply G|done]. }
    assert (Fl : map forget (entries h1) = map forget (entries h)) by apply X1.
    destruct (IH h1 _ (ex_good _ _ X1) ltac:(by rewrite (ex_dirty _ _ X1)) E1) as (h' & X' & F' & k2 & C').
    { rewrite (ex_suppress _ _ X1). apply Forall_app. split.
      - eapply Forall_impl; [exact F|]. intros e'. by apply valued_same.
      - constructor; [|done]. apply (valued_same (entries h)); [done|]. exists m. split; [done|].
        rewrite Um. change (entry_value (entries h) (suppress h) (set_value m n (snd (entry_value (entries h) (suppress h) e)) e))
          with (entry_value (entries h) (suppress h) e). by destruct (entry_value (entries h) (suppress h) e). }
    exists h'. split; [by eapply expands_trans|]. split; [done|]. exists (k1 + k2). intros fuel [|n'] Lf Ln; [lia|].
    simpl. rewrite C by lia. cbn [ebind]. rewrite <- (C' fuel n') by (simpl in Ln; lia). f_equal.
    pose proof (wf_nodup _ (proj1 (good_closed _ (ex_good _ _ X1)))) as Nd. rewrite E1, <- app_assoc, map_app in Nd.
    apply NoDup_app in Nd as (_ & Dj & _). rewrite E1, <- app_assoc. cbn [app].
    apply (next_entry_spec a (set_value m n (snd (entry_value (entries h) (suppress h) e)) e) b).
    intros I. apply (Dj _ I). by left.
Qed.

(** Values that are not to be computed again are those of the present definitions. *)
Definition current (h : MAC_HANDLE) : Prop := dirty h = false -> Forall (valued (entries h) (suppress h)) (entries h).

Record expanded (h h' : MAC_HANDLE) : Prop := {
  xd_good : mac_good h'; xd_forget : map forget (entries h') = map forget (entries h);
  xd_suppress : suppress h' = suppress h; xd_clean : dirty h' = false; xd_values : Forall (valued (entries h') (suppress h')) (entries h') }.

Lemma expand_values h : mac_good h -> current h -> exists h', converges (fun fuel => expand getenv fuel h) h' /\ expanded h h'.
Proof.
  intros G Cu. unfold expand. destruct (dirty h) eqn:D.
  - destruct (expand_loop_values (entries h) h [] G D eq_refl ltac:(constructor)) as (h' & [G' Fo Su Di] & F & k & C).
    assert (Cl : closed (set_dirty h' false)).
    { destruct G' as [([We Nd Sc Lv _] & U & Ev) _ _]. split; [|done]. split; [done..|]. intros _.
      eapply Forall_impl; [exact F|]. intros e (m & V & _) _. by exists m. }
    exists (set_dirty h' false). split; [|split; [by apply (good_same h')|done..]].
    exists (k + S (length (entries h))). intros fuel L. rewrite C by lia. done.
  - exists h. split; [apply converges_ret|]. split; [done..|by apply Cu].
Qed.

(** In a handle without changes a reference has the value of its entry. *)
Lemma value_of_ok h :
  mac_good h -> dirty h = false -> Forall (valued (entries h) (suppress h)) (entries h) ->
  look_ok getenv h (fun _ nm => value_of (entries h) (suppress h) nm).
Proof.
  intros G D F sup nm _. exists (mid <$> find_entry nm (entries h)). split; [rewrite lookup_find by apply G; done|].
  unfold value_of. destruct (find_entry nm (entries h)) as [e|] eqn:Fe; simpl; [|done]. apply find_entry_in in Fe as (I & Pe & _).
  pose proof (proj1 (Forall_forall _ _) F e I) as (m & Ve & Ev). rewrite <- Ev. exists (mid e). split; [done|]. split; [apply until_nul_no_nul|].
  intros lev valend st B P. exists 0. intros fuel _. unfold found. rewrite B. rewrite (entry_at_spec _ _ e); [|by rewrite <- B; apply P|done..].
  cbn [ebind]. pose proof (good_visited h G) as Vi. rewrite Forall_forall in Vi. rewrite (Vi e I). assert (dirty (handle st) = false) as -> by (by rewrite B). cbn [negb].
  rewrite Ve, cpy2val_spec by apply P. cbn [ebind]. rewrite (until_nul_all (until_nul m)) by apply until_nul_no_nul. done.
Qed.

(** (C39) What [macExpandString] computes, in a handle without environment variables and scoped macros.  The definitions are
    templates - text with escapes and quotes, references to
    macros, which may be computed and may have default values - and so is the string.  The definitions, names and default values are
    tame: what they escape is no dollar, no quote and, in a name or default value, none of its delimiters, which the code, when it scans them with a full buffer, does not skip.
    (With a definition of 256 characters and then an escaped dollar the result is negative although nothing is referred to.)
    With enough fuel the call
    returns, and the buffer holds as much as fits of the meaning of the string: escapes and quotes of the string are kept, a
    reference stands for the value of the macro (the meaning of its definition, without escapes and quotes, at most 256
    characters), for the default value if there is no such macro, and for an error text if there is neither or
    the macro refers to itself.  There is an error when a reference, also one in the name or the default value that is used, in another reference or in a macro's
    definition, stands for an error text; the result is the number of characters in the buffer, with a minus sign after an error (0 when
    there are none, as for [$(X$(U)=)] without [U]).  If the buffer may be too small the
    string must be tame too.  The definitions are as before and their values are computed. *)
Theorem mac_expand_correct h t tame dest capacity :
  mac_good h -> current h -> 2 <= capacity <= length dest -> well_formed tame [] 0 t = true ->
  let out := eval (value_of (entries h) (suppress h)) (suppress h) false t in
  tame = true \/ length (fst out) < capacity ->
  let txt := take (capacity - 1) (fst out) in
  exists h', expanded h h' /\
    converges (fun fuel => macExpandString getenv fuel h (print t) dest capacity)
      ((if snd out then - zlen txt else zlen txt)%Z, txt ++ 0%Z :: drop (S (length txt)) dest, h').
Proof.
  intros G Cu Cap Wf out Rm txt. destruct (expand_values h G Cu) as (h' & C & X). exists h'. split; [done|].
  destruct X as [G' Fo Su Di F]. pose proof (value_of_ok h' G' Di F) as Ok. set (look' := fun (_ : bool) nm => value_of (entries h') (suppress h') nm) in *.
  assert (Eo : eval (look' (suppress h')) (suppress h') false t = out).
  { unfold out. rewrite Su. apply eval_ext. intros nm. unfold look', value_of. rewrite Su.
    pose proof (find_map forget nm (entries h') ltac:(done)) as F1. pose proof (find_map forget nm (entries h) ltac:(done)) as F2.
    rewrite Fo, F2 in F1. destruct (find_entry nm (entries h)) as [e|], (find_entry nm (entries h')) as [e'|]; simpl in F1; try done.
    injection F1 as F1. simpl. f_equal. rewrite <- (entry_value_forget (entries h')), <- (entry_value_forget (entries h)), Fo.
    assert (forget e' = forget e) as -> by (unfold forget; congruence). done. }
  set (st0 := mkTrans h' (<[0 := 0%Z]> dest) 0 false 0). assert (P0 : trans_pre (capacity - 1) st0).
  { split; cbn [st0 v mem handle]; [rewrite length_insert; lia|apply list_lookup_insert_eq; lia|apply G']. }
  destruct (translate_string getenv h' look' Ok t 0 tame (capacity - 1) st0 (suppress h')) as (i & Ct); try done.
  { unfold based. cbn [st0 handle]. by destruct h'. }
  { change (0 <? 0) with false. rewrite Eo. destruct Rm as [Rm|Rm]; [by left|right]. cbn [st0 v]. lia. }
  change (0 <? 0) with false in Ct. rewrite Eo in Ct. set (st1 := adv (capacity - 1) st0 (fst out) (snd out) i) in *.
  apply (converges_ext _ (fun fuel => let* h := expand getenv fuel h in let* d := poke dest 0 0%Z in
    let* st := trans getenv fuel (print t) 0 [] (capacity - 1) (mkTrans h d 0 false 0) in
    inr ((if err st then - Z.of_nat (v st) else Z.of_nat (v st))%Z, mem st, handle st))).
  { intros fuel. unfold macExpandString. destruct (Nat.leb_spec capacity 1); [lia|done]. }
  eapply (converges_bind _ (fun h fuel => let* d := poke dest 0 0%Z in
    let* st := trans getenv fuel (print t) 0 [] (capacity - 1) (mkTrans h d 0 false 0) in
    inr ((if err st then - Z.of_nat (v st) else Z.of_nat (v st))%Z, mem st, handle st)) _ _ C).
  apply (converges_ext _ (fun fuel => let* st := trans getenv fuel (print t) 0 [] (capacity - 1) st0 in
    inr ((if err st then - Z.of_nat (v st) else Z.of_nat (v st))%Z, mem st, handle st))).
  { intros fuel. by rewrite poke_in by lia. }
  eapply (converges_bind _ (fun st _ => inr ((if err st then - Z.of_nat (v st) else Z.of_nat (v st))%Z, mem st, handle st)) _ _ Ct).
  assert (Ft : fitting (capacity - 1) st0 (fst out) = txt) by (unfold fitting; cbn [st0 v]; by rewrite Nat.sub_0_r).
  assert (V1 : v st1 = length txt) by (cbn [st1 adv v outs outputs set_out]; by rewrite Ft).
  assert (M1 : mem st1 = txt ++ 0%Z :: drop (S (length txt)) dest).
  { cbn [st1 adv mem outs outputs set_out]. rewrite Ft. cbn [st0 v mem].
    assert (length txt < length dest) by (unfold txt; rewrite length_take; lia). rewrite output_nul by lia. by apply output_start. }
  rewrite V1, M1. change (err st1) with (snd out). change (handle st1) with h'. apply converges_ret.
Qed.

(** At a comma that ends the string the loop over the scoped macros does not advance. *)
Lemma subs_hang s lev term fuel : forall h i,
  length s = S i -> char_at s i = COMMA -> subs_loop getenv fuel s lev term h i = inl mac_fuel.
Proof.
  induction fuel as [|fuel IH]; intros h i L C; [done|]. cbn [subs_loop]. rewrite peek_in by lia. rewrite C. cbn [ebind].
  change (COMMA =? COMMA)%Z with true. cbv iota. destruct fuel as [|fuel]; [done|]. cbn [trans_loop]. cbn [r].
  rewrite peek_in by lia. rewrite <- L, char_at_end. cbn [ebind in_term orb Z.eqb]. unfold step_back. cbn [r handle err mem].
  rewrite char_at_end. cbn [Z.eqb set_r r handle err mem ebind]. rewrite L. cbn [pred].
  rewrite peek_in by lia. rewrite C. cbn [ebind]. change (COMMA =? EQUALS)%Z with false. cbv iota. by apply IH.
Qed.

(** (C40) A reference that the string ends after the comma of a scoped macro, as in "$(NAME,", is never expanded: for every name
    and every buffer the call does not return, whatever the fuel beyond a bound - the loop over the scoped macros steps back to
    the comma again and again. *)
Theorem mac_expand_hangs h b nm dest capacity :
  mac_good h -> current h -> 2 <= capacity <= length dest -> well_formed true [EQUALS; COMMA; closing b] 0 nm = true ->
  exists n, forall fuel, n <= fuel ->
    macExpandString getenv fuel h (DOLLAR :: opening b :: print nm ++ [COMMA]) dest capacity = inl mac_fuel.
Proof.
  intros G Cu Cap Wn. destruct (expand_values h G Cu) as (h' & [k1 C] & [G' Fo Su Di F]).
  pose proof (value_of_ok h' G' Di F) as Ok. set (s := DOLLAR :: opening b :: print nm ++ [COMMA]).
  set (st0 := mkTrans h' (<[0 := 0%Z]> dest) 0 false 0). assert (P0 : trans_pre (capacity - 1) st0).
  { split; cbn [st0 v mem handle]; [rewrite length_insert; lia|apply list_lookup_insert_eq; lia|apply G']. }
  assert (B : based h' (suppress h') st0) by (unfold based; cbn [st0 handle]; by destruct h').
  assert (Es : s = [] ++ DOLLAR :: opening b :: print nm ++ COMMA :: []) by done.
  assert (Cc : COMMA = EQUALS \/ COMMA = COMMA \/ COMMA = closing b) by (by right; left).
  destruct (name_ref b nm Wn s [] [] COMMA Es Cc st0 eq_refl) as [Rf Me]. destruct (name_at b nm s [] [] COMMA Es st0 eq_refl) as [Ca La].
  destruct (name_converges getenv h' _ b nm (translate getenv h' _ Ok nm) Wn s [] [] COMMA Es Cc st0 (suppress h') B (tp_wf _ _ P0) eq_refl 0) as [k2 C2].
  set (n := name_state _ nm [] st0 (suppress h')) in *. change (r n) with (length (@nil Z) + 2 + length (print nm)) in *.
  set (pos := length (@nil Z) + 2 + length (print nm)) in *. assert (Ls : length s = S pos) by (unfold s, pos; simpl; llia).
  exists (k1 + S (S k2)). intros fuel L. unfold macExpandString. destruct (Nat.leb_spec capacity 1); [lia|]. rewrite C by lia. cbn [ebind].
  rewrite poke_in by lia. cbn [ebind]. fold st0. destruct fuel as [|[|fuel]]; [lia|lia|]. specialize (C2 fuel ltac:(lia)). unfold loop in C2.
  unfold trans. cbn [trans_loop]. rewrite peek_in by (cbn [st0 r]; lia). cbn [ebind].
  assert (Cd : char_at s (r st0) = DOLLAR) by done. rewrite Cd. cbn [in_term existsb orb Z.eqb DOLLAR].
  change (quoting (0 <? 0) 0 DOLLAR) with (0%Z, false). cbv iota. rewrite Rf. change (true && negb (0 =? SQUOTE)%Z) with true. cbv iota.
  cbn [refer]. cbv zeta. rewrite Me, C2. cbn [ebind]. unfold step_back. change (r n) with pos. rewrite Ca. cbn [Z.eqb COMMA].
  change (r n) with pos. cbn [r handle]. rewrite peek_in by lia. rewrite Ca. cbn [ebind]. change (COMMA =? EQUALS)%Z with false. cbv iota. cbn [ebind r].
  cbn [ebind r]. rewrite peek_in by lia. rewrite Ca. cbn [ebind]. change (COMMA =? COMMA)%Z with true. cbv iota.
  by rewrite (subs_hang s).
Qed.
End expand.
End meaning.

(** ** Examples *)

(** A: [x$(B)], B: [1]. *)
Definition ab_body (rv : list Z) : tmpl :=
  if bool_decide (rv = cs "x$(B)") then TLit 120 (TRef false (TLit 66 TEnd) TEnd) else TLit 49 TEnd.

Definition ab_handle : MAC_HANDLE :=
  mkHandle true 0 [mkMacro 0 (cs "A") false (Some (cs "x$(B)")) None 0 false false false 0;
                   mkMacro 1 (cs "B") false (Some (cs "1")) None 0 false false false 0] false false 2.

Lemma ab_good : mac_good ab_body ab_handle.
Proof.
  split.
  - split; [|split; [done|by repeat constructor]]. split; simpl; [|by apply (bool_decide_unpack _); vm_compute|done|done|done].
    repeat (constructor; [split; [simpl; lia|split_and!; [done|by eexists|done]]|]). constructor.
  - by repeat constructor.
  - constructor; [|constructor; [|constructor]]; intros rv [= <-]; by vm_compute.
Qed.

(** The string [p$(A)$(C=d)]. *)
Definition ab_string : tmpl := TLit 112 (TRef false (TLit 65 TEnd) (TDef false (TLit 67 TEnd) (TLit 100 TEnd) TEnd)).

Lemma mac_expand_correct_witness :
  print ab_string = cs "p$(A)$(C=d)" /\
  exists h', expanded ab_body ab_handle h' /\
    converges (fun fuel => macExpandString (fun _ => None) fuel ab_handle (print ab_string) (replicate 6 9%Z) 6) (4%Z, cs "px1d" ++ [0; 9]%Z, h').
Proof.
  split; [reflexivity|].
  exact (mac_expand_correct ab_body (fun _ => None) ab_handle ab_string true (replicate 6 9%Z) 6 ab_good ltac:(intros [=])
    ltac:(simpl; lia) eq_refl (or_introl eq_refl)).
Defined.

Lemma mac_expand_hangs_witness :
  DOLLAR :: opening false :: print (TLit 65 TEnd) ++ [COMMA] = cs "$(A," /\
  exists n, forall fuel, n <= fuel -> macExpandString (fun _ => None) fuel ab_handle (cs "$(A,") (replicate 6 9%Z) 6 = inl mac_fuel.
Proof.
  split; [reflexivity|].
  exact (mac_expand_hangs ab_body (fun _ => None) ab_handle false (TLit 65 TEnd) (replicate 6 9%Z) 6 ab_good ltac:(intros [=])
    ltac:(simpl; lia) eq_refl).
Defined.

(** While the end of a default value is searched there is no room, and what is escaped is not skipped: the default value of
    [$(A=\))] ends at the escaped parenthesis. *)
Example escaped_default :
  match macExpandString (fun _ => None) 30 (mkHandle false 0 [] false false 0) (cs "$(A=\))x") (replicate 8 9%Z) 8 with
  | inr (n, d, _) => (n, d) = (3%Z, cs ")" ++ cs ")x" ++ [0; 9; 9; 9; 9]%Z)
  | inl _ => False
  end.
Proof. vm_compute. reflexivity. Qed.

(** A macro whose value is a reference that defines itself again in a scope of its own: every level has a new entry, which is not
    yet visited, so that the recursion is not found. *)
Example scoped_recursion :
  macExpandString (fun _ => None) 300
    (mkHandle true 0 [mkMacro 0 (cs "D") false (Some (SQUOTE :: cs "$(A,A=$(D))" ++ [SQUOTE])) None 0 false false false 0] false false 1)
    (cs "$(A,A=$(D))") (replicate 8 9%Z) 8 = inl mac_fuel.
Proof. vm_compute. reflexivity. Qed.
