(* ===== verification/MacTest.v ===== *)
(** * Macro substitution: the library's own test program

    The strings of [libcom/test/macLibTest.c] with the results it expects, evaluated with the model. *)

From stdpp Require Import base numbers list option strings.
From Stdlib Require Import ZArith Lia Bool.
From S2P Require Import Prelude CStdlib EpicsString MacLib.

(** [Expand s failed d]: [macExpandString] of [s] gives [d], with a negative result when [failed]. *)
Inductive test_step := Expand (s : string) (failed : bool) (d : string) | Put (nm val : string) | Suppress.

Fixpoint test_run (steps : list test_step) (h : MAC_HANDLE) : bool :=
  match steps with
  | [] => true
  | Expand s failed d :: steps =>
      match macExpandString (fun _ => None) 100 h (cs s) (replicate 256 0) 256 with
      | inr (n, dest, h) =>
          Bool.eqb failed (n <? 0) && (Z.abs n =? zlen (cs d)) && bool_decide (until_nul dest = cs d) && test_run steps h
      | inl _ => false
      end
  | Put nm val :: steps =>
      match macPutValue (fun _ => None) h (cs nm) (cs val) with inr (_, h) => test_run steps h | inl _ => false end
  | Suppress :: steps => test_run steps (macSuppressWarning h true)
  end.

Definition macLibTest : list test_step := [
  Expand "FOO" false "FOO"; Expand "$(FOO)" true "$(FOO,undefined)"; Expand "${FOO}" true "$(FOO,undefined)";
  Expand "${FOO=${FOO}}" true "$(FOO,undefined)"; Expand "${FOO,FOO}" true "$(FOO,undefined)";
  Expand "${FOO,FOO=${FOO}}" true "$(FOO,recursive)"; Expand "${FOO,BAR}" true "$(FOO,undefined)";
  Expand "${FOO,BAR=baz}" true "$(FOO,undefined)"; Expand "${FOO,BAR=${FOO}}" true "$(FOO,undefined)";
  Expand "${FOO,BAR=baz,FUM}" true "$(FOO,undefined)"; Expand "${FOO=${BAR},BAR=${FOO}}" true "$(FOO,undefined)";
  Expand "${FOO,FOO=${BAR},BAR=${FOO}}" true "$(BAR,recursive)"; Expand "${=}" false ""; Expand "x${=}y" false "xy";
  Expand "${,=}" false ""; Expand "x${,=}y" false "xy"; Expand "${FOO=}" false ""; Expand "x${FOO=}y" false "xy";
  Expand "${FOO=,}" false ""; Expand "x${FOO=,}y" false "xy"; Expand "${FOO,FOO=}" false "";
  Expand "x${FOO,FOO=}y" false "xy"; Expand "${FOO=,BAR}" false ""; Expand "x${FOO=,BAR}y" false "xy";
  Expand "${FOO=${BAR=}}" false ""; Expand "x${FOO=${BAR=}}y" false "xy"; Expand "${FOO=,BAR=baz}" false "";
  Expand "x${FOO=,BAR=baz}y" false "xy"; Expand "${FOO=${BAR},BAR=}" false "";
  Expand "x${FOO=${BAR},BAR=}y" false "xy"; Expand "${=BAR}" false "BAR"; Expand "x${=BAR}y" false "xBARy";
  Expand "${FOO=BAR}" false "BAR"; Expand "x${FOO=BAR}y" false "xBARy"; Put "FOO" "BLETCH";
  Expand "${FOO}" false "BLETCH"; Expand "${FOO,FOO}" false "BLETCH"; Expand "x${FOO}y" false "xBLETCHy";
  Expand "x${FOO}y${FOO}z" false "xBLETCHyBLETCHz"; Expand "${FOO=BAR}" false "BLETCH";
  Expand "x${FOO=BAR}y" false "xBLETCHy"; Expand "${FOO=${BAZ}}" false "BLETCH";
  Expand "${FOO=${BAZ},BAR=${BAZ}}" false "BLETCH"; Expand "x${FOO=${BAZ}}y" false "xBLETCHy";
  Expand "x${FOO=${BAZ},BAR=${BAZ}}y" false "xBLETCHy"; Expand "${BAR=${FOO}}" false "BLETCH";
  Expand "x${BAR=${FOO}}y" false "xBLETCHy"; Expand "w${BAR=x${FOO}y}z" false "wxBLETCHyz";
  Expand "${FOO,FOO=BAR}" false "BAR"; Expand "x${FOO,FOO=BAR}y" false "xBARy";
  Expand "${BAR,BAR=${FOO}}" false "BLETCH"; Expand "x${BAR,BAR=${FOO}}y" false "xBLETCHy";
  Expand "${BAR,BAR=${${FOO}},BLETCH=GRIBBLE}" false "GRIBBLE";
  Expand "x${BAR,BAR=${${FOO}},BLETCH=GRIBBLE}y" false "xGRIBBLEy";
  Expand "${${BAR,BAR=${FOO}},BLETCH=GRIBBLE}" false "GRIBBLE";
  Expand "x${${BAR,BAR=${FOO}},BLETCH=GRIBBLE}y" false "xGRIBBLEy";
  Expand "${N=${FOO}/${BAR},BAR=GLEEP}" false "BLETCH/GLEEP"; Put "BAR" "GLEEP";
  Expand "${FOO}/${BAR}" false "BLETCH/GLEEP"; Expand "x${FOO}/${BAR}y" false "xBLETCH/GLEEPy";
  Expand "${FOO,BAR}/${BAR}" false "BLETCH/GLEEP"; Expand "${FOO,BAR=x}/${BAR}" false "BLETCH/GLEEP";
  Expand "${BAZ=BLETCH,BAR}/${BAR}" false "BLETCH/GLEEP"; Expand "${BAZ=BLETCH,BAR=x}/${BAR}" false "BLETCH/GLEEP";
  Expand "${N=${FOO}/${BAR}}" false "BLETCH/GLEEP"; Put "BLETCH" "BAR"; Expand "${${FOO}}" false "BAR";
  Expand "x${${FOO}}y" false "xBARy"; Expand "${${FOO}=GRIBBLE}" false "BAR";
  Expand "x${${FOO}=GRIBBLE}y" false "xBARy"; Put "BLETCH" "${BAR}"; Expand "${${FOO}}" false "GLEEP";
  Expand "${BLETCH=${FOO}}" false "GLEEP"; Put "FOO" "${BAR}"; Expand "${FOO}" false "GLEEP";
  Expand "${FOO=BLETCH,BAR=BAZ}" false "BAZ"; Put "BAR" "${BAZ}"; Expand "${FOO}" true "$(BAZ,undefined)";
  Put "BAR" "${BAZ=GRIBBLE}"; Expand "${FOO}" false "GRIBBLE"; Expand "${FOO,BAZ=GEEK}" false "GEEK";
  Put "BAR" "${STR1}"; Put "STR1" "VAL1"; Put "STR2" "VAL2"; Expand "${FOO}" false "VAL1"; Put "BAR" "${STR2}";
  Expand "${FOO}" false "VAL2"; Expand "$(FOO)$(FOO1)" true "VAL2$(FOO1,undefined)";
  Expand "$(FOO1)$(FOO)" true "$(FOO1,undefined)VAL2"; Put "BAR" "${FOO}"; Expand "${FOO}" true "$(BAR,recursive)";
  Expand "${FOO=GRIBBLE}" true "$(BAR,recursive)"; Expand "${FOO=GRIBBLE,BAR=${FOO}}" true "$(BAR,recursive)";
  Expand "${FOO,FOO=${FOO}}" true "$(FOO,recursive)"; Expand "${FOO=GRIBBLE,FOO=${FOO}}" true "$(FOO,recursive)";
  Suppress; Expand "$(CRUX)" true "$(CRUX)"; Expand "${FOO}" true "$(BAR)"
]%string.

Example mac_lib_test : test_run macLibTest (mkHandle false 0 [] false false 0) = true.
Proof. vm_compute. reflexivity. Qed.
