(* ===== verification/DbLock.v ===== *)
(** * Lock sets: [database/src/ioc/db/dbLock.c]

    Records that are connected by database links are processed under one mutex: each record belongs
    to a [lockSet].  A link that is made merges two sets, a link that is broken may split one.  This
    file holds the data and the functions of [dbLock.c], the functions of [dbDbLink.c] and [dbLink.c] that
    make and break links, and the path of [dbPutFieldLink] through them.

    A lock set is named by its address, a record (and its [lockRecord]) by a number, a link by
    its record and its position among the links of the record type.  A mutex is recursive: its state is its
    owner and how often the owner locked it.  A function takes the thread [me] that runs it; having to wait for another thread is the
    fault [LkBlocked]. *)

From stdpp Require Import base gmap list sorting.
From Stdlib Require Import ZArith Lia Bool.
From S2P Require Import Prelude.
Open Scope Z_scope.

(** ** Data *)

Abbreviation addr := positive.
Abbreviation recid := positive.
Abbreviation tid := positive.
Abbreviation lockerid := positive.
Abbreviation linkid := (recid * nat)%type.

Inductive lk_fault :=
  | LkAssert        (* a failed [assert] *)
  | LkCantProceed   (* [cantProceed] *)
  | LkWild          (* the use of a pointer to nothing *)
  | LkMutex         (* a mutex unlocked by a thread that does not own it *)
  | LkBlocked       (* the thread would have to wait *)
  | LkFuel.

Record lockSet := mkSet {
  lockRecordList : list recid;
  lock : option (tid * nat);
  id : Z;
  refcount : Z;
  ownerlocker : option lockerid
}.

Record lockRecord := mkLr {
  plockSet : addr;
  compflag : Z
}.

(** A [DBLINK]: its type, its link support and, for a database link, the record of its [DBADDR].  All
    links of JSON type share one name for their support. *)
Inductive link_type := CONSTANT | PV_LINK | DB_LINK | CA_LINK | JSON_LINK.
Inductive link_set := dbDb_lset | dbCa_lset | dbConst_lset | json_lset.

#[global] Instance link_type_eq_dec : EqDecision link_type.
Proof. solve_decision. Defined.
#[global] Instance link_set_eq_dec : EqDecision link_set.
Proof. solve_decision. Defined.

Record link := mkLink {
  ltype : link_type;
  lset : option link_set;
  pvt : option recid
}.

(** The part of a [dbCommon] that matters here: its links, in the order of the record type, and the
    links that end at it. *)
Record dbrec := mkRec {
  links : list link;
  bklnk : list linkid
}.

(** The globals of the file and the heap.  [lrs] holds the [lset] of the records that have one. *)
Record lk_state := mkSt {
  sets : gmap addr lockSet;
  lockSetsActive : list addr;
  lockSetsFree : list addr;
  next_id : Z;
  recomputeCnt : Z;
  lrs : gmap recid lockRecord;
  recs : gmap recid dbrec
}.

Record lockRecordRef := mkRef {
  plr : option recid;
  rset : option addr
}.

Record dbLocker := mkLocker {
  me_locker : lockerid;
  locked : list addr;
  recomp : Z;
  refs : list lockRecordRef
}.

Definition with_sets st m :=
  mkSt m (lockSetsActive st) (lockSetsFree st) (next_id st) (recomputeCnt st) (lrs st) (recs st).
Definition with_lists st a f :=
  mkSt (sets st) a f (next_id st) (recomputeCnt st) (lrs st) (recs st).
Definition with_next_id st n :=
  mkSt (sets st) (lockSetsActive st) (lockSetsFree st) n (recomputeCnt st) (lrs st) (recs st).
Definition with_cnt st n :=
  mkSt (sets st) (lockSetsActive st) (lockSetsFree st) (next_id st) n (lrs st) (recs st).
Definition with_lrs st m :=
  mkSt (sets st) (lockSetsActive st) (lockSetsFree st) (next_id st) (recomputeCnt st) m (recs st).
Definition with_recs st m :=
  mkSt (sets st) (lockSetsActive st) (lockSetsFree st) (next_id st) (recomputeCnt st) (lrs st) m.

Definition with_list s l := mkSet l (lock s) (id s) (refcount s) (ownerlocker s).
Definition with_lock s m := mkSet (lockRecordList s) m (id s) (refcount s) (ownerlocker s).
Definition with_refcount s n := mkSet (lockRecordList s) (lock s) (id s) n (ownerlocker s).
Definition with_owner s o := mkSet (lockRecordList s) (lock s) (id s) (refcount s) o.

Definition with_locked lk l := mkLocker (me_locker lk) l (recomp lk) (refs lk).
Definition with_recomp lk n := mkLocker (me_locker lk) (locked lk) n (refs lk).
Definition with_refs lk l := mkLocker (me_locker lk) (locked lk) (recomp lk) l.

(** ** Access through pointers *)

Definition the {A} (o : option A) : lk_fault + A :=
  match o with Some a => inr a | None => inl LkWild end.
Definition lk_assert (b : bool) : lk_fault + unit := if b then inr tt else inl LkAssert.
Definition lk_require (b : bool) : lk_fault + unit := if b then inr tt else inl LkCantProceed.

Definition get_set st x : lk_fault + lockSet := the (sets st !! x).
Definition put_set st x s : lk_state := with_sets st (<[x := s]> (sets st)).
Definition get_lr st r : lk_fault + lockRecord := the (lrs st !! r).
Definition put_lr st r lr : lk_state := with_lrs st (<[r := lr]> (lrs st)).
Definition get_rec st r : lk_fault + dbrec := the (recs st !! r).
Definition put_rec st r rc : lk_state := with_recs st (<[r := rc]> (recs st)).

(** [epicsAtomicAddIntT], with the new value. *)
Definition add_ref st x n : lk_fault + (Z * lk_state) :=
  let* s := get_set st x in
  let cnt := wrap_s 32 (refcount s + n) in
  inr (cnt, put_set st x (with_refcount s cnt)).

(** [epicsMutexMustLock] and [epicsMutexUnlock] of the mutex of a set. *)
Definition mutex_lock (me : tid) (m : option (tid * nat)) : lk_fault + option (tid * nat) :=
  match m with
  | None => inr (Some (me, 1%nat))
  | Some (t, n) => if decide (t = me) then inr (Some (me, S n)) else inl LkBlocked
  end.
Definition mutex_unlock (me : tid) (m : option (tid * nat)) : lk_fault + option (tid * nat) :=
  match m with
  | Some (t, S n) =>
      if decide (t = me) then inr (match n with O => None | _ => Some (me, n) end) else inl LkMutex
  | _ => inl LkMutex
  end.

Definition lock_set me st x : lk_fault + lk_state :=
  let* s := get_set st x in
  let* m := mutex_lock me (lock s) in
  inr (put_set st x (with_lock s m)).
Definition unlock_set me st x : lk_fault + lk_state :=
  let* s := get_set st x in
  let* m := mutex_unlock me (lock s) in
  inr (put_set st x (with_lock s m)).

(** [ellDelete] of a node of the list. *)
Definition list_delete (x : positive) (l : list positive) : lk_fault + list positive :=
  if decide (x ∈ l) then inr (filter (.≠ x) l) else inl LkWild.

(** ** Lock sets *)

Section DbLock.
(** [calloc]: the address of a block that is not in use. *)
Variable calloc : gmap addr lockSet -> addr.
Variable me : tid.

(** The initial reference, and the place in [lockSetsActive]. *)
Definition use_set st ls : lk_fault + (addr * lk_state) :=
  let* '(iref, st) := add_ref st ls 1 in
  let st := with_lists st (lockSetsActive st ++ [ls]) (lockSetsFree st) in
  let* s := get_set st ls in
  let* _ := lk_assert (0 <? id s) in
  let* _ := lk_assert (0 <? iref) in
  let* _ := lk_assert (zlen (lockRecordList s) =? 0) in
  inr (ls, st).

Definition makeSet st : lk_fault + (addr * lk_state) :=
  match lockSetsFree st with
  | ls :: rest => use_set (with_lists st (lockSetsActive st) rest) ls
  | [] =>
      let ls := calloc (sets st) in
      let n := wrap_u 64 (next_id st + 1) in
      use_set (with_next_id (put_set st ls (mkSet [] None n 0 None)) n) ls
  end.

Definition dbLockGetRefs st r : lk_fault + Z :=
  let* lr := get_lr st r in
  let* s := get_set st (plockSet lr) in
  inr (refcount s).

Definition dbLockCountSets st : Z := zlen (lockSetsActive st).

Definition dbLockIncRef st ls : lk_fault + lk_state :=
  let* '(cnt, st) := add_ref st ls 1 in
  let* _ := lk_require (1 <? cnt) in
  inr st.

(** The set has no references left and goes to the free list. *)
Definition retire_set st ls : lk_fault + lk_state :=
  let* st := lock_set me st ls in
  let* s := get_set st ls in
  let* _ := lk_require (zlen (lockRecordList s) =? 0) in
  let* st := unlock_set me st ls in
  let* act := list_delete ls (lockSetsActive st) in
  inr (with_lists st act (lockSetsFree st ++ [ls])).

Definition dbLockDecRef st ls : lk_fault + lk_state :=
  let* '(cnt, st) := add_ref st ls (-1) in
  let* _ := lk_assert (0 <=? cnt) in
  if cnt =? 0 then retire_set st ls else inr st.

Definition dbLockGetRef st r : lk_fault + (addr * lk_state) :=
  let* lr := get_lr st r in
  let* st := dbLockIncRef st (plockSet lr) in
  inr (plockSet lr, st).

Definition dbLockGetLockId st r : lk_fault + Z :=
  let* lr := get_lr st r in
  let* s := get_set st (plockSet lr) in
  inr (id s).

(** ** Locking one record *)

(** From [retry] on: the lock of [ls] is taken; the record still belongs to [ls], or the lock and
    the reference are given back and there is another set to try. *)
Definition scan_try st r ls : lk_fault + (option addr * lk_state) :=
  let* st := lock_set me st ls in
  let* lr := get_lr st r in
  if decide (ls = plockSet lr) then
    let* '(cnt, st) := add_ref st ls (-1) in
    let* _ := lk_assert (0 <? cnt) in
    inr (None, st)
  else
    let ls2 := plockSet lr in
    let* '(newcnt, st) := add_ref st ls2 1 in
    let* _ := lk_assert (2 <=? newcnt) in
    let* st := unlock_set me st ls in
    let* st := dbLockDecRef st ls in
    inr (Some ls2, st).

Fixpoint scan_retry (fuel : nat) st r ls : lk_fault + lk_state :=
  match fuel with
  | O => inl LkFuel
  | S fuel =>
      let* '(again, st) := scan_try st r ls in
      match again with
      | None => inr st
      | Some ls2 => scan_retry fuel st r ls2
      end
  end.

Definition dbScanLock (fuel : nat) st r : lk_fault + lk_state :=
  let* '(ls, st) := dbLockGetRef st r in
  let* s := get_set st ls in
  let* _ := lk_assert (0 <? refcount s) in
  scan_retry fuel st r ls.

Definition dbScanUnlock st r : lk_fault + lk_state :=
  let* lr := get_lr st r in
  let ls := plockSet lr in
  let* st := dbLockIncRef st ls in
  let* st := unlock_set me st ls in
  dbLockDecRef st ls.

(** ** Locking several records *)

(** The order of the references: by address, [NULL] last. *)
Definition lrrcompare (refA refB : lockRecordRef) : Z :=
  match rset refA, rset refB with
  | None, None => 0
  | None, Some _ => 1
  | Some _, None => -1
  | Some A, Some B => if (A <? B)%positive then -1 else if (B <? A)%positive then 1 else 0
  end.

Definition ref_le (a b : lockRecordRef) : Prop := lrrcompare a b <= 0.
#[global] Instance ref_le_dec : RelDecision ref_le.
Proof. intros a b. unfold ref_le. apply _. Defined.

(** The body of the loop of [dbLockUpdateRefs]: whether the reference is stale, the reference and the
    state. *)
Definition update_ref (update : bool) (ref : lockRecordRef) st
    : lk_fault + (bool * lockRecordRef * lk_state) :=
  match plr ref with
  | None =>
      let* _ := lk_assert (if rset ref then false else true) in
      inr (false, ref, st)
  | Some r =>
      let* lr := get_lr st r in
      if decide (rset ref = Some (plockSet lr)) then inr (false, ref, st)
      else if update then
        let* st := dbLockIncRef st (plockSet lr) in
        let* st := match rset ref with
                   | Some oldref => dbLockDecRef st oldref
                   | None => inr st
                   end in
        inr (true, mkRef (Some r) (Some (plockSet lr)), st)
      else inr (true, ref, st)
  end.

Fixpoint update_loop (update changed : bool) (rs : list lockRecordRef) st
    : lk_fault + (bool * list lockRecordRef * lk_state) :=
  match rs with
  | [] => inr (changed, [], st)
  | ref :: rest =>
      let* '(stale, ref, st) := update_ref update ref st in
      if stale && negb update then inr (true, ref :: rest, st)
      else
        let* '(c, rest', st) := update_loop update (changed || stale) rest st in
        inr (c, ref :: rest', st)
  end.

Definition dbLockUpdateRefs (lk : dbLocker) st (update : bool)
    : lk_fault + (bool * dbLocker * lk_state) :=
  let cnt := recomputeCnt st in
  let* '(changed, lk, st) :=
    if recomp lk =? cnt then inr (false, lk, st)
    else
      let* '(changed, rs, st) := update_loop update false (refs lk) st in
      let lk := with_refs lk rs in
      inr (changed, (if update then with_recomp lk cnt else lk), st) in
  let lk := if changed && update then with_refs lk (merge_sort ref_le (refs lk)) else lk in
  inr (changed, lk, st).

(** [precs[i] ? precs[i]->lset : NULL] *)
Definition rec_lset st (prec : option recid) : lk_fault + option recid :=
  match prec with
  | None => inr None
  | Some r => let* _ := get_rec st r in inr (if lrs st !! r then Some r else None)
  end.

Fixpoint prepare_refs st (precs : list (option recid)) : lk_fault + list lockRecordRef :=
  match precs with
  | [] => inr []
  | prec :: rest =>
      let* p := rec_lset st prec in
      let* l := prepare_refs st rest in
      inr (mkRef p None :: l)
  end.

(** [dbLockerPrepare] of a locker that is all zero. *)
Definition dbLockerPrepare (i : lockerid) (precs : list (option recid)) st
    : lk_fault + (dbLocker * lk_state) :=
  let* rs := prepare_refs st precs in
  let lk := mkLocker i [] (wrap_u 64 (recomputeCnt st - 1)) rs in
  let* '(_, lk, st) := dbLockUpdateRefs lk st true in
  inr (lk, st).

Fixpoint release_refs (rs : list lockRecordRef) st : lk_fault + lk_state :=
  match rs with
  | [] => inr st
  | ref :: rest =>
      let* st := match rset ref with Some ls => dbLockDecRef st ls | None => inr st end in
      release_refs rest st
  end.

Definition dbLockerFinalize (lk : dbLocker) st : lk_fault + lk_state :=
  let* _ := lk_assert (zlen (locked lk) =? 0) in
  release_refs (refs lk) st.

(** One set is locked, with a reference for the list [locked]. *)
Definition take_set (i : lockerid) st plock : lk_fault + lk_state :=
  let* st := lock_set me st plock in
  let* s := get_set st plock in
  let* _ := lk_assert (if ownerlocker s then false else true) in
  dbLockIncRef (put_set st plock (with_owner s (Some i))) plock.

(** The loop that locks the sets; references to one set are neighbours. *)
Fixpoint lock_loop (plock : option addr) (rs : list lockRecordRef) (lk : dbLocker) st
    : lk_fault + (dbLocker * lk_state) :=
  match rs with
  | [] => inr (lk, st)
  | ref :: rest =>
      match plr ref with
      | None => lock_loop plock rest lk st
      | Some _ =>
          if bool_decide (is_Some plock) && bool_decide (plock = rset ref)
          then lock_loop plock rest lk st
          else
            let* ls := the (rset ref) in
            let* st := take_set (me_locker lk) st ls in
            lock_loop (Some ls) rest (with_locked lk (locked lk ++ [ls])) st
      end
  end.

Fixpoint unlock_loop (i : lockerid) (l : list addr) st : lk_fault + lk_state :=
  match l with
  | [] => inr st
  | ls :: rest =>
      let* s := get_set st ls in
      let* _ := lk_assert (bool_decide (ownerlocker s = Some i)) in
      let st := put_set st ls (with_owner s None) in
      let* st := unlock_set me st ls in
      let* st := dbLockDecRef st ls in
      unlock_loop i rest st
  end.

Definition dbScanUnlockMany (lk : dbLocker) st : lk_fault + (dbLocker * lk_state) :=
  let* st := unlock_loop (me_locker lk) (locked lk) st in
  inr (with_locked lk [], st).

Fixpoint many_retry (fuel : nat) (lk : dbLocker) st : lk_fault + (dbLocker * lk_state) :=
  match fuel with
  | O => inl LkFuel
  | S fuel =>
      let* _ := lk_assert (zlen (locked lk) =? 0) in
      let* '(_, lk, st) := dbLockUpdateRefs lk st true in
      let* '(lk, st) := lock_loop None (refs lk) lk st in
      let* '(changed, lk, st) := dbLockUpdateRefs lk st false in
      if changed : bool then
        let* '(lk, st) := dbScanUnlockMany lk st in
        many_retry fuel lk st
      else
        let* _ := lk_require ((zlen (refs lk) =? 0) || (0 <? zlen (locked lk))) in
        inr (lk, st)
  end.

Definition dbScanLockMany (fuel : nat) (lk : dbLocker) st : lk_fault + (dbLocker * lk_state) :=
  let* _ := lk_require (zlen (locked lk) =? 0) in
  many_retry fuel lk st.

(** ** Creation and destruction *)

Definition createLockRecord st r : lk_fault + lk_state :=
  let* _ := get_rec st r in
  let* _ := lk_assert (if lrs st !! r then false else true) in
  let* '(ls, st) := makeSet st in
  let st := put_lr st r (mkLr ls 0) in
  let* s := get_set st ls in
  inr (put_set st ls (with_list s (lockRecordList s ++ [r]))).

(** [forEachRecord] over the records that are not aliases. *)
Fixpoint forEachRecord (fn : lk_state -> recid -> lk_fault + lk_state) (l : list recid) st
    : lk_fault + lk_state :=
  match l with
  | [] => inr st
  | r :: rest => let* st := fn st r in forEachRecord fn rest st
  end.

Definition dbLockInitRecords (l : list recid) st : lk_fault + lk_state :=
  forEachRecord createLockRecord l st.

Definition freeLockRecord st r : lk_fault + lk_state :=
  let* lr := get_lr st r in
  let ls := plockSet lr in
  let st := with_lrs st (delete r (lrs st)) in
  let* s := get_set st ls in
  let* _ := lk_assert (0 <? refcount s) in
  let* _ := lk_assert (0 <? zlen (lockRecordList s)) in
  let* l := list_delete r (lockRecordList s) in
  let st := put_set st ls (with_list s l) in
  dbLockDecRef st ls.

(** The sets of the free list are freed. *)
Fixpoint free_sets (l : list addr) st : lk_fault + lk_state :=
  match l with
  | [] => inr (with_lists st (lockSetsActive st) [])
  | x :: rest =>
      let* s := get_set st x in
      let* _ := lk_assert (refcount s =? 0) in
      let* _ := lk_assert (zlen (lockRecordList s) =? 0) in
      free_sets rest (with_sets st (delete x (sets st)))
  end.

(** Whether sets leaked, which is printed, and the state. *)
Definition dbLockCleanupRecords (l : list recid) st : lk_fault + (bool * lk_state) :=
  let* st := forEachRecord freeLockRecord l st in
  let leak := negb (dbLockCountSets st =? 0) in
  let* st := free_sets (lockSetsFree st) st in
  inr (leak, st).

(** ** Merging *)

(** The records [l] of [B] move to [A]. *)
Fixpoint merge_records (A B : addr) (l : list recid) st : lk_fault + lk_state :=
  match l with
  | [] => inr st
  | r :: rest =>
      let* sB := get_set st B in
      let st := put_set st B (with_list sB rest) in
      let* lr := get_lr st r in
      let* _ := lk_assert (bool_decide (plockSet lr = B)) in
      let* sA := get_set st A in
      let st := put_set st A (with_list sA (lockRecordList sA ++ [r])) in
      let st := put_lr st r (mkLr A (compflag lr)) in
      let st := with_cnt st (wrap_u 64 (recomputeCnt st + 1)) in
      merge_records A B rest st
  end.

(** [locker && ls->ownerlocker != locker] is excluded. *)
Definition owned_by (locker : option dbLocker) (s : lockSet) : bool :=
  match locker with
  | None => true
  | Some lk => bool_decide (ownerlocker s = Some (me_locker lk))
  end.

(** The references of the [Nb] records; one to [B] is kept. *)
Definition move_refs st A B Nb : lk_fault + lk_state :=
  let* '(_, st) := add_ref st A Nb in
  let* '(_, st) := add_ref st B (- Nb + 1) in
  inr st.

(** The locker lets go of [B]. *)
Definition drop_locked (lk : dbLocker) st B : lk_fault + (dbLocker * lk_state) :=
  let* sB := get_set st B in
  let* _ := lk_assert (bool_decide (ownerlocker sB = Some (me_locker lk))) in
  let* l := list_delete B (locked lk) in
  let st := put_set st B (with_owner sB None) in
  let* '(_, st) := add_ref st B (-1) in
  let* st := unlock_set me st B in
  inr (with_locked lk l, st).

Definition dbLockSetMerge (locker : option dbLocker) st (pfirst psecond : recid)
    : lk_fault + (option dbLocker * lk_state) :=
  let* lr1 := get_lr st pfirst in
  let* lr2 := get_lr st psecond in
  let A := plockSet lr1 in
  let B := plockSet lr2 in
  let* sA := get_set st A in
  let* sB := get_set st B in
  let* _ := lk_require (owned_by locker sA && owned_by locker sB) in
  if decide (A = B) then inr (locker, st) else
  let Nb := zlen (lockRecordList sB) in
  let* _ := lk_assert (0 <? Nb) in
  let* st := merge_records A B (lockRecordList sB) st in
  let* sB := get_set st B in
  let* _ := lk_assert (Nb + (if locker then 1 else 0) <=? refcount sB) in
  let* st := move_refs st A B Nb in
  let* '(locker, st) :=
    match locker with
    | None => inr (None, st)
    | Some lk => let* '(lk, st) := drop_locked lk st B in inr (Some lk, st)
    end in
  let* st := dbLockDecRef st B in
  let* lr2 := get_lr st psecond in
  let* _ := lk_assert (bool_decide (A = plockSet lr2)) in
  inr (locker, st).

(** ** Splitting *)

(** One neighbour [t] of the record that is visited: whether it is [pfirst], and the list of
    records to inspect. *)
Definition visit (pfirst t : recid) (toInspect : list recid) st
    : lk_fault + (bool * list recid * lk_state) :=
  let* lr := get_lr st t in
  if decide (t = pfirst) then inr (true, toInspect, st)
  else if compflag lr =? 0 then
    inr (false, toInspect ++ [t], put_lr st t (mkLr (plockSet lr) 1))
  else inr (false, toInspect, st).

(** The links that start at a record. *)
Fixpoint visit_links (pfirst : recid) (l : list link) (toInspect : list recid) st
    : lk_fault + (bool * list recid * lk_state) :=
  match l with
  | [] => inr (false, toInspect, st)
  | plink :: rest =>
      if decide (ltype plink = DB_LINK) then
        let* t := the (pvt plink) in
        let* _ := get_rec st t in
        let* _ := lk_assert (if lrs st !! t then true else false) in
        let* '(found, toInspect, st) := visit pfirst t toInspect st in
        if found : bool then inr (true, toInspect, st) else visit_links pfirst rest toInspect st
      else visit_links pfirst rest toInspect st
  end.

(** The links that end at a record. *)
Fixpoint visit_backlinks (pfirst : recid) (l : list linkid) (toInspect : list recid) st
    : lk_fault + (bool * list recid * lk_state) :=
  match l with
  | [] => inr (false, toInspect, st)
  | plink :: rest =>
      let* '(found, toInspect, st) := visit pfirst (fst plink) toInspect st in
      if found : bool then inr (true, toInspect, st) else visit_backlinks pfirst rest toInspect st
  end.

(** The breadth first search: whether it met [pfirst], the records to inspect and those visited. *)
Fixpoint split_search (fuel : nat) (pfirst : recid) (toInspect newLS : list recid) st
    : lk_fault + (bool * list recid * list recid * lk_state) :=
  match toInspect with
  | [] => inr (false, [], newLS, st)
  | r :: q =>
      match fuel with
      | O => inl LkFuel
      | S fuel =>
          let newLS := newLS ++ [r] in
          let* lr := get_lr st r in
          let st := put_lr st r (mkLr (plockSet lr) 2) in
          let* prec := get_rec st r in
          let* '(found, q, st) := visit_links pfirst (links prec) q st in
          if found : bool then inr (true, q, newLS, st) else
          let* '(found, q, st) := visit_backlinks pfirst (bklnk prec) q st in
          if found : bool then inr (true, q, newLS, st) else split_search fuel pfirst q newLS st
      end
  end.

Fixpoint reset_flags (l : list recid) st : lk_fault + lk_state :=
  match l with
  | [] => inr st
  | r :: rest =>
      let* lr := get_lr st r in reset_flags rest (put_lr st r (mkLr (plockSet lr) 0))
  end.

(** The records of the new set leave [ls]. *)
Fixpoint split_loop (ls splitset : addr) (newLS : list recid) st : lk_fault + lk_state :=
  match newLS with
  | [] => inr st
  | r :: rest =>
      let* lr := get_lr st r in
      let* _ := lk_assert (bool_decide (plockSet lr = ls)) in
      let* s := get_set st ls in
      let* l := list_delete r (lockRecordList s) in
      let st := put_set st ls (with_list s l) in
      let* s := get_set st splitset in
      let st := put_set st splitset (with_list s (lockRecordList s ++ [r])) in
      let st := put_lr st r (mkLr splitset 0) in
      let st := with_cnt st (wrap_u 64 (recomputeCnt st + 1)) in
      split_loop ls splitset rest st
  end.

(** A new set, locked by [lk]. *)
Definition locked_set (lk : dbLocker) st : lk_fault + (addr * dbLocker * lk_state) :=
  let* '(splitset, st) := makeSet st in
  let* st := lock_set me st splitset in
  let* s := get_set st splitset in
  let* _ := lk_assert (if ownerlocker s then false else true) in
  let lk := with_locked lk (locked lk ++ [splitset]) in
  let st := put_set st splitset (with_owner s (Some (me_locker lk))) in
  let* _ := lk_assert (refcount s =? 1) in
  inr (splitset, lk, st).

(** The references of the records that moved. *)
Definition split_refs st (ls splitset : addr) : lk_fault + lk_state :=
  let* s := get_set st splitset in
  let n := zlen (lockRecordList s) in
  let* '(_, st) := add_ref st ls (- n) in
  let* s := get_set st ls in
  let* _ := lk_assert (0 <? refcount s) in
  let* '(_, st) := add_ref st splitset n in
  let* s := get_set st splitset in
  let* _ := lk_assert (n + 1 <=? refcount s) in
  inr st.

(** A set of its own for the records [newLS] of [ls]. *)
Definition split_off (lk : dbLocker) st (psecond : recid) (ls : addr) (newLS : list recid)
    : lk_fault + (dbLocker * lk_state) :=
  let* s := get_set st ls in
  let* _ := lk_assert (0 <? zlen newLS) in
  let* _ := lk_assert (zlen newLS <? zlen (lockRecordList s)) in
  let* _ := lk_assert (zlen newLS <? refcount s) in
  let* '(splitset, lk, st) := locked_set lk st in
  let* st := split_loop ls splitset newLS st in
  let* st := split_refs st ls splitset in
  let* lr2 := get_lr st psecond in
  let* _ := lk_assert (bool_decide (plockSet lr2 = splitset)) in
  let* s := get_set st ls in
  let* _ := lk_assert (2 <=? refcount s) in
  inr (lk, st).

Definition dbLockSetSplit (lk : dbLocker) st (pfirst psecond : recid)
    : lk_fault + (dbLocker * lk_state) :=
  let* lr1 := get_lr st pfirst in
  let ls := plockSet lr1 in
  let* lr2 := get_lr st psecond in
  let* _ := lk_require (bool_decide (ls = plockSet lr2)) in
  if decide (pfirst = psecond) then inr (lk, st) else
  let* s := get_set st ls in
  let* _ := lk_assert (zlen (lockRecordList s) + 1 <=? refcount s) in
  let* '(found, toInspect, newLS, st) :=
    split_search (S (size (lrs st))) pfirst [psecond] []
      (put_lr st psecond (mkLr (plockSet lr2) 1)) in
  if found : bool then
    let* st := reset_flags toInspect st in
    let* st := reset_flags newLS st in
    inr (lk, st)
  else split_off lk st psecond ls newLS.

(** ** Links: [dbDbLink.c], [dbLink.c] *)

Definition get_link st (l : linkid) : lk_fault + link :=
  let* rc := get_rec st (fst l) in the (links rc !! snd l).
Definition put_link st (l : linkid) (lnk : link) : lk_fault + lk_state :=
  let* rc := get_rec st (fst l) in
  let* _ := the (links rc !! snd l) in
  inr (put_rec st (fst l) (mkRec (<[snd l := lnk]> (links rc)) (bklnk rc))).
Definition add_bklnk st (t : recid) (l : linkid) : lk_fault + lk_state :=
  let* rc := get_rec st t in
  inr (put_rec st t (mkRec (links rc) (bklnk rc ++ [l]))).
Definition del_bklnk st (t : recid) (l : linkid) : lk_fault + lk_state :=
  let* rc := get_rec st t in
  if decide (l ∈ bklnk rc)
  then inr (put_rec st t (mkRec (links rc) (filter (.≠ l) (bklnk rc)))) else inl LkWild.

(** The link becomes a database link to [t], or one no more. *)
Definition set_db_link st (plink : linkid) (t : recid) : lk_fault + lk_state :=
  let* st := put_link st plink (mkLink DB_LINK (Some dbDb_lset) (Some t)) in
  add_bklnk st t plink.
Definition unset_db_link st (plink : linkid) (lnk : link) (t : recid) : lk_fault + lk_state :=
  let* st := put_link st plink (mkLink PV_LINK (lset lnk) None) in
  del_bklnk st t plink.

(** [target] is what [dbNameToAddr] finds; whether the link is a database link now. *)
Definition dbDbInitLink st (plink : linkid) (target : option recid)
    : lk_fault + (bool * lk_state) :=
  match target with
  | None => inr (false, st)
  | Some t =>
      let* st := set_db_link st plink t in
      let* '(_, st) := dbLockSetMerge None st (fst plink) t in
      let* lr1 := get_lr st (fst plink) in
      let* lr2 := get_lr st t in
      let* _ := lk_assert (bool_decide (plockSet lr1 = plockSet lr2)) in
      inr (true, st)
  end.

Definition dbDbAddLink (locker : option dbLocker) st (plink : linkid) (t : recid)
    : lk_fault + (option dbLocker * lk_state) :=
  let* st := set_db_link st plink t in
  dbLockSetMerge locker st (fst plink) t.

Definition dbDbRemoveLink (locker : option dbLocker) st (plink : linkid)
    : lk_fault + (option dbLocker * lk_state) :=
  let* lnk := get_link st plink in
  match locker with
  | None => let* st := put_link st plink (mkLink PV_LINK (lset lnk) (pvt lnk)) in inr (None, st)
  | Some lk =>
      let* t := the (pvt lnk) in
      let* st := unset_db_link st plink lnk t in
      let* '(lk, st) := dbLockSetSplit lk st (fst plink) t in
      inr (Some lk, st)
  end.

(** The other link supports keep no lock sets: [dbCaRemoveLink] clears the link, the others have nothing to
    do here. *)
Definition dbRemoveLink (locker : option dbLocker) st (plink : linkid)
    : lk_fault + (option dbLocker * lk_state) :=
  let* lnk := get_link st plink in
  match lset lnk with
  | None => inr (locker, st)
  | Some s =>
      let* '(locker, st) :=
        match s with
        | dbDb_lset => dbDbRemoveLink locker st plink
        | dbCa_lset =>
            let* st := put_link st plink (mkLink PV_LINK None None) in inr (locker, st)
        | _ => inr (locker, st)
        end in
      let* lnk := get_link st plink in
      let* st := put_link st plink (mkLink (ltype lnk) None (pvt lnk)) in
      inr (locker, st)
  end.

(** Making a link that is no database link: [dbConstInitLink] and [dbConstAddLink], [dbJLinkInit],
    [dbCaAddLink]. *)
Definition const_link : link := mkLink CONSTANT (Some dbConst_lset) None.
Definition json_link : link := mkLink JSON_LINK (Some json_lset) None.
Definition ca_link : link := mkLink CA_LINK (Some dbCa_lset) None.

(** [initialized]: [DBLINK_FLAG_INITIALIZED], which the first call sets and nothing clears; [ca]: the link
    asks for Channel Access ([pvlOptCA] and the like). *)
Definition dbInitLink st (plink : linkid) (initialized ca : bool) (target : option recid)
    : lk_fault + lk_state :=
  if initialized then inr st else
  let* lnk := get_link st plink in
  match ltype lnk with
  | CONSTANT => put_link st plink const_link
  | JSON_LINK => put_link st plink json_link
  | PV_LINK =>
      let* '(local, st) := if ca then inr (false, st) else dbDbInitLink st plink target in
      if local : bool then inr st else put_link st plink ca_link
  | _ => inr st
  end.

Definition dbAddLink (locker : option dbLocker) st (plink : linkid) (ptarget : option recid)
    : lk_fault + (option dbLocker * lk_state) :=
  let* lnk := get_link st plink in
  match ltype lnk with
  | CONSTANT => let* st := put_link st plink const_link in inr (locker, st)
  | JSON_LINK => let* st := put_link st plink json_link in inr (locker, st)
  | PV_LINK =>
      match ptarget with
      | Some t => dbDbAddLink locker st plink t
      | None => let* st := put_link st plink ca_link in inr (locker, st)
      end
  | _ => inr (locker, st)
  end.

(** ** Changing a link field: [dbAccess.c] *)

(** Which functions the extension of a device support has. *)
Record dsxt := mkDsxt { add_record : bool; del_record : bool }.

(** What the rest of [dbPutFieldLink] finds and what the functions it calls return: whether [dbCanSetLink] lets the link be
    assigned, whether the field belongs to device support, whether the record has device support ([precord->dset])
    and with which extension, the extension of the support its DTYP asks for,
    whether the field is special, and the status of [del_record], of [dbPutSpecial] (before), of [dbSetLink], of
    [dbPutSpecial] (after) and of [add_record]. *)
Record put_env := mkPut {
  can_set : bool;
  isDevLink : bool;
  has_dset : bool;
  dset_dsxt : option dsxt;
  new_dsxt : option dsxt;
  put_special : bool;
  del_status : Z;
  special_before : Z;
  set_status : Z;
  special_after : Z;
  add_status : Z
}.

Definition old_dsxt (env : put_env) : option dsxt := if has_dset env then dset_dsxt env else None.

(** Device support lets the link change: both extensions have their functions and the old one has let the record go. *)
Definition del_ok (env : put_env) : bool :=
  match new_dsxt env with Some d => add_record d | None => false end &&
  match old_dsxt env with
  | Some d => del_record d && (del_status env =? 0)
  | None => negb (has_dset env)
  end.

(** [dbSetLink] is called, and succeeds. *)
Definition set_ok (env : put_env) : bool :=
  (if put_special env then special_before env =? 0 else true) && (set_status env =? 0).

(** Nothing fails between it and [dbAddLink]. *)
Definition add_ok (env : put_env) : bool :=
  (if put_special env then special_after env =? 0 else true) && (if isDevLink env then add_status env =? 0 else true).

(** From the removal of the old link to the label [unlock]. *)
Definition change_link (env : put_env) (lk : dbLocker) st (plink : linkid) (newtype : link_type)
    (pdbaddr : option recid) : lk_fault + (option dbLocker * lk_state) :=
  let* lnk := get_link st plink in
  if isDevLink env && negb (del_ok env) then inr (Some lk, st)
  else if negb (isDevLink env) && (if lset lnk then false else true) then inr (Some lk, st)
  else
    let* '(lko, st) :=
      if lset lnk then dbRemoveLink (Some lk) st plink else inr (Some lk, st) in
    if negb (set_ok env) then inr (lko, st) else
    let* lnk := get_link st plink in
    let* st := put_link st plink (mkLink newtype (lset lnk) None) in
    if negb (add_ok env) then inr (lko, st) else
    dbAddLink lko st plink pdbaddr.

Definition dbPutFieldLink (fuel : nat) (i : lockerid) (env : put_env) st (plink : linkid)
    (newtype : link_type) (pdbaddr : option recid) : lk_fault + lk_state :=
  let* '(lk, st) := dbLockerPrepare i [Some (fst plink); pdbaddr] st in
  let* '(lk, st) := dbScanLockMany fuel lk st in
  let* '(lko, st) :=
    if can_set env then change_link env lk st plink newtype pdbaddr else inr (Some lk, st) in
  let* lk := the lko in
  let* '(lk, st) := dbScanUnlockMany lk st in
  dbLockerFinalize lk st.
End DbLock.
