(* ===== verification/DbLockInv.v ===== *)
(** * Lock sets: the invariant

    [wf h L st]: the lists of [dbLock.c] are consistent, where [h] counts the references to each set that records do
    not hold, and [L] is the state of the mutex and of [ownerlocker] of each set.  Each function has one lemma that says what
    it does to [h] and [L] and that no [assert] fails. *)

From stdpp Require Import base gmap list sorting fin_sets.
From Stdlib Require Import ZArith Lia Bool.
From S2P Require Import Prelude DbLock.
Open Scope Z_scope.

(** ** Total results *)

(** The computation succeeds with a result in [P]. *)
Definition wp {A} (r : lk_fault + A) (P : A -> Prop) : Prop := rwp (fun _ => False) r P.

Lemma wp_bind {A B} (m : lk_fault + A) (f : A -> lk_fault + B) P :
  wp m (fun a => wp (f a) P) -> wp (ebind m f) P.
Proof. apply rwp_bind. Qed.

Lemma wp_mono {A} (m : lk_fault + A) (P Q : A -> Prop) :
  wp m P -> (forall a, P a -> Q a) -> wp m Q.
Proof. apply rwp_mono. Qed.

Lemma wp_step {A B} (m : lk_fault + A) (f : A -> lk_fault + B) Q P :
  wp m Q -> (forall a, Q a -> wp (f a) P) -> wp (ebind m f) P.
Proof. intros H1 H2. apply wp_bind. by eapply wp_mono. Qed.

Lemma wp_inr {A} (m : lk_fault + A) (P : A -> Prop) : wp m P <-> exists a, m = inr a /\ P a.
Proof.
  destruct m; simpl; split; [done|by intros (? & ? & ?)|eauto|by intros (? & [= ->] & ?)].
Qed.

Lemma wp_assert {B} b (f : unit -> lk_fault + B) P :
  b = true -> wp (f tt) P -> wp (ebind (lk_assert b) f) P.
Proof. by intros ->. Qed.
Lemma wp_require {B} b (f : unit -> lk_fault + B) P :
  b = true -> wp (f tt) P -> wp (ebind (lk_require b) f) P.
Proof. by intros ->. Qed.
Lemma wp_the {A B} (o : option A) a (f : A -> lk_fault + B) P :
  o = Some a -> wp (f a) P -> wp (ebind (the o) f) P.
Proof. by intros ->. Qed.

(** Apply the lemma [H] to the first operation of a block. *)
Tactic Notation "wp_use" uconstr(H) "as" simple_intropattern(pat) :=
  eapply wp_step; [eapply H|intros pat].

(** ** The invariant *)

Abbreviation mutexes := (addr -> option (tid * nat) * option lockerid).

Definition members st (x : addr) : list recid :=
  match sets st !! x with Some s => lockRecordList s | None => [] end.

Record wf (h : addr -> Z) (L : mutexes) (st : lk_state) : Prop := {
  wf_lr : forall r lr, lrs st !! r = Some lr -> r ∈ members st (plockSet lr);
  wf_mem : forall x r, r ∈ members st x -> exists lr, lrs st !! r = Some lr /\ plockSet lr = x;
  wf_nodup : forall x, NoDup (members st x);
  wf_ref : forall x s, sets st !! x = Some s -> refcount s = zlen (lockRecordList s) + h x;
  wf_nonneg : forall x s, sets st !! x = Some s -> 0 <= refcount s;
  wf_active : forall x, x ∈ lockSetsActive st <-> exists s, sets st !! x = Some s /\ 0 < refcount s;
  wf_free : forall x, x ∈ lockSetsFree st <-> exists s, sets st !! x = Some s /\ refcount s = 0;
  wf_nodup_act : NoDup (lockSetsActive st);
  wf_nodup_free : NoDup (lockSetsFree st);
  wf_lock : forall x s, sets st !! x = Some s -> (lock s, ownerlocker s) = L x;
  wf_idle : forall x s, sets st !! x = Some s -> refcount s = 0 ->
    L x = (None, None) /\ lockRecordList s = [];
  wf_id : forall x s, sets st !! x = Some s -> 1 < id s <= next_id st;
  wf_id_inj : forall x y s t, sets st !! x = Some s -> sets st !! y = Some t -> id s = id t -> x = y;
  wf_next : next_id st = 1 + Z.of_nat (size (sets st));
  wf_out : forall x, sets st !! x = None -> h x = 0 /\ L x = (None, None)
}.

(** What functions that only count references and lock mutexes leave alone. *)
Record same (st st' : lk_state) : Prop := {
  same_lrs : lrs st' = lrs st;
  same_recs : recs st' = recs st;
  same_cnt : recomputeCnt st' = recomputeCnt st;
  same_next : next_id st' = next_id st;
  same_members : forall x, members st' x = members st x;
  same_dom : forall x, is_Some (sets st' !! x) <-> is_Some (sets st !! x)
}.

#[global] Instance same_preorder : PreOrder same.
Proof.
  split; [by split|]. intros a b c [] []. split; try congruence.
  intros x. etransitivity; eauto.
Qed.

Lemma same_size st st' : same st st' -> size (sets st') = size (sets st).
Proof.
  intros S. rewrite <- !size_dom. f_equal. apply set_eq. intros x. rewrite !elem_of_dom.
  apply (same_dom _ _ S).
Qed.

(** Counting: [hadd h x n] has [n] more references to [x]. *)
Definition hadd (h : addr -> Z) (x : addr) (n : Z) : addr -> Z :=
  fun y => if decide (y = x) then h y + n else h y.
Definition lupd (L : mutexes) (x : addr) v : mutexes :=
  fun y => if decide (y = x) then v else L y.

Lemma hadd_eq h x n : hadd h x n x = h x + n.
Proof. unfold hadd. by rewrite decide_True. Qed.
Lemma hadd_ne h x n y : y ≠ x -> hadd h x n y = h y.
Proof. intros. unfold hadd. by rewrite decide_False. Qed.
Lemma lupd_eq L x v : lupd L x v x = v.
Proof. unfold lupd. by rewrite decide_True. Qed.
Lemma lupd_ne L x v y : y ≠ x -> lupd L x v y = L y.
Proof. intros. unfold lupd. by rewrite decide_False. Qed.

Lemma wf_ext h h' L L' st :
  wf h L st -> (forall y, h' y = h y) -> (forall y, L' y = L y) -> wf h' L' st.
Proof.
  intros [] Eh EL. split; try done.
  - intros x s Hs. rewrite Eh. auto.
  - intros x s Hs. rewrite EL. auto.
  - intros x s Hs. rewrite EL. auto.
  - intros x Hs. rewrite Eh, EL. auto.
Qed.

(** The number of references to [x]. *)
Definition total (h : addr -> Z) st x : Z := zlen (members st x) + h x.

Definition live (h : addr -> Z) st x : Prop := is_Some (sets st !! x) /\ 0 < total h st x.

Section Basic.
Context (h : addr -> Z) (L : mutexes) (st : lk_state) (W : wf h L st).

Lemma members_set x s : sets st !! x = Some s -> members st x = lockRecordList s.
Proof. unfold members. by intros ->. Qed.

Lemma total_refcount x s : sets st !! x = Some s -> refcount s = total h st x.
Proof. intros E. unfold total. rewrite (members_set x s E). by eapply wf_ref. Qed.

Lemma live_set x : live h st x -> exists s, sets st !! x = Some s /\ 0 < refcount s.
Proof. intros [[s E] Hp]. exists s. split; [done|]. by rewrite (total_refcount x s E). Qed.

Lemma get_live x : live h st x -> exists s, get_set st x = inr s /\ refcount s = total h st x.
Proof.
  intros Hx. pose proof Hx as [[s E] _]. exists s. unfold get_set. rewrite E. split; [done|].
  by apply total_refcount.
Qed.

Lemma set_live x s : sets st !! x = Some s -> 0 < refcount s -> live h st x.
Proof. intros E Hp. split; [eauto|]. by rewrite <- (total_refcount x s E). Qed.

Lemma lr_set r lr : lrs st !! r = Some lr ->
  exists s, sets st !! plockSet lr = Some s /\ r ∈ lockRecordList s.
Proof.
  intros E. pose proof (wf_lr _ _ _ W _ _ E) as Hm. unfold members in Hm.
  destruct (sets st !! plockSet lr) as [s|]; [eauto|by apply not_elem_of_nil in Hm].
Qed.

(** The record itself holds one of the references. *)
Lemma lr_live r lr : lrs st !! r = Some lr -> 0 <= h (plockSet lr) -> live h st (plockSet lr).
Proof.
  intros E Hh. destruct (lr_set r lr E) as (s & Es & Hm). split; [eauto|].
  unfold total. rewrite (members_set _ s Es). destruct (lockRecordList s); [by apply not_elem_of_nil in Hm|].
  simpl length. lia.
Qed.

Lemma members_lrs x r : r ∈ members st x -> is_Some (lrs st !! r).
Proof. intros Hm. destruct (wf_mem _ _ _ W x r Hm) as (lr & E & _). eauto. Qed.

Lemma members_size x : (length (members st x) <= size (lrs st))%nat.
Proof.
  rewrite <- size_dom.
  rewrite <- (size_list_to_set (C := gset recid) (members st x)) by (eapply wf_nodup; eauto).
  apply subseteq_size. intros r Hr%elem_of_list_to_set. apply elem_of_dom. by eapply members_lrs.
Qed.

(** A bound on the number of references other than the records' bounds the counter. *)
Lemma total_bound x : total h st x <= Z.of_nat (size (lrs st)) + h x.
Proof. unfold total. pose proof (members_size x). lia. Qed.
End Basic.

(** ** Changes to one set *)

Lemma members_put st x s y :
  members (put_set st x s) y = if decide (y = x) then lockRecordList s else members st y.
Proof.
  unfold members, put_set. simpl. destruct (decide (y = x)) as [->|N].
  - by rewrite lookup_insert_eq.
  - by rewrite lookup_insert_ne.
Qed.

Lemma put_set_same st x s s' :
  sets st !! x = Some s -> lockRecordList s' = lockRecordList s -> same st (put_set st x s').
Proof.
  intros E El. split; try done.
  - intros y. rewrite members_put. destruct (decide (y = x)) as [->|]; [|done].
    by rewrite El, (members_set st x s E).
  - intros y. simpl. destruct (decide (y = x)) as [->|N].
    + rewrite lookup_insert_eq, E. split; eauto.
    + by rewrite lookup_insert_ne.
Qed.

Lemma members_lists st a f y : members (with_lists st a f) y = members st y.
Proof. done. Qed.

(** The sets after a change of [x]. *)
Lemma put_cases st x s y t :
  <[x := s]> (sets st) !! y = Some t -> (y = x /\ t = s) \/ (y ≠ x /\ sets st !! y = Some t).
Proof. rewrite lookup_insert_Some. naive_solver. Qed.

(** A change of the counter, the mutex and the owner of one set, which may put it on the other list. *)
Lemma wf_change h L st x s s' n v act free :
  wf h L st -> sets st !! x = Some s ->
  lockRecordList s' = lockRecordList s -> id s' = id s -> refcount s' = refcount s + n ->
  0 <= refcount s' -> (lock s', ownerlocker s') = v ->
  (refcount s' = 0 -> v = (None, None) /\ lockRecordList s = []) -> NoDup act -> NoDup free ->
  (forall y, y ∈ act <-> (y = x /\ 0 < refcount s') \/ (y ≠ x /\ y ∈ lockSetsActive st)) ->
  (forall y, y ∈ free <-> (y = x /\ refcount s' = 0) \/ (y ≠ x /\ y ∈ lockSetsFree st)) ->
  wf (hadd h x n) (lupd L x v) (with_lists (put_set st x s') act free).
Proof.
  intros W E E1 E2 E3 Hn E4 H0 Na Nf Ha Hfr. set (st' := with_lists _ _ _).
  assert (Em : forall y, members st' y = members st y).
  { intros y. unfold st'. rewrite members_lists. by apply (put_set_same st x s s'). }
  assert (Ec : forall y (Q : lockSet -> Prop),
    (exists t, sets st' !! y = Some t /\ Q t) <-> (y = x /\ Q s') \/ (y ≠ x /\ exists t, sets st !! y = Some t /\ Q t)).
  { intros y Q. simpl. destruct (decide (y = x)) as [->|N].
    - rewrite lookup_insert_eq. naive_solver.
    - rewrite lookup_insert_ne by done. naive_solver. }
  split; intros.
  - rewrite Em. exact (wf_lr _ _ _ W _ _ H).
  - rewrite Em in H. exact (wf_mem _ _ _ W _ _ H).
  - rewrite Em. apply (wf_nodup _ _ _ W).
  - destruct (put_cases _ _ _ _ _ H) as [[-> ->]|[N Hs]].
    + rewrite hadd_eq, E1. pose proof (wf_ref _ _ _ W _ _ E). lia.
    + rewrite hadd_ne by done. exact (wf_ref _ _ _ W _ _ Hs).
  - destruct (put_cases _ _ _ _ _ H) as [[-> ->]|[N Hs]]; [done|exact (wf_nonneg _ _ _ W _ _ Hs)].
  - rewrite Ec, <- (wf_active _ _ _ W). apply Ha.
  - rewrite Ec, <- (wf_free _ _ _ W). apply Hfr.
  - done.
  - done.
  - destruct (put_cases _ _ _ _ _ H) as [[-> ->]|[N Hs]]; [by rewrite lupd_eq|].
    rewrite lupd_ne by done. exact (wf_lock _ _ _ W _ _ Hs).
  - destruct (put_cases _ _ _ _ _ H) as [[-> ->]|[N Hs]]; [rewrite lupd_eq, E1; auto|].
    rewrite lupd_ne by done. exact (wf_idle _ _ _ W _ _ Hs H1).
  - destruct (put_cases _ _ _ _ _ H) as [[-> ->]|[N Hs]]; [rewrite E2; exact (wf_id _ _ _ W _ _ E)|].
    exact (wf_id _ _ _ W _ _ Hs).
  - destruct (put_cases _ _ _ _ _ H) as [[-> ->]|[? Hs]], (put_cases _ _ _ _ _ H1) as [[-> ->]|[? Ht]];
      rewrite ?E2 in *; try done; eapply (wf_id_inj _ _ _ W); eauto.
  - simpl. rewrite map_size_insert, E. apply (wf_next _ _ _ W).
  - simpl in H. apply lookup_insert_None in H as [H N]. rewrite hadd_ne, lupd_ne by done.
    exact (wf_out _ _ _ W _ H).
Qed.

(** A change of the records of one set. *)
Lemma wf_relist h L st x s l m n :
  wf h L st -> sets st !! x = Some s -> 0 < refcount s -> NoDup l ->
  zlen (lockRecordList s) = zlen l + n ->
  (forall r lr, m !! r = Some lr -> r ∈ (if decide (plockSet lr = x) then l else members st (plockSet lr))) ->
  (forall y r, r ∈ (if decide (y = x) then l else members st y) ->
     exists lr, m !! r = Some lr /\ plockSet lr = y) ->
  wf (hadd h x n) L (put_set (with_lrs st m) x (with_list s l)).
Proof.
  intros W E Hp Nd Hn H1 H2. set (st' := put_set _ _ _).
  assert (Em : forall y, members st' y = if decide (y = x) then l else members st y).
  { intros y. unfold st'. by rewrite members_put. }
  assert (Ec : forall y (Q : lockSet -> Prop), (Q (with_list s l) <-> Q s) ->
    (exists t, sets st' !! y = Some t /\ Q t) <-> exists t, sets st !! y = Some t /\ Q t).
  { intros y Q HQ. simpl. destruct (decide (y = x)) as [->|N].
    - rewrite lookup_insert_eq, E. naive_solver.
    - by rewrite lookup_insert_ne. }
  split; intros.
  - rewrite Em. by apply H1.
  - rewrite Em in H. by apply H2.
  - rewrite Em. destruct (decide _); [done|apply (wf_nodup _ _ _ W)].
  - destruct (put_cases _ _ _ _ _ H) as [[-> ->]|[N Hs]].
    + rewrite hadd_eq. pose proof (wf_ref _ _ _ W _ _ E). simpl. lia.
    + rewrite hadd_ne by done. exact (wf_ref _ _ _ W _ _ Hs).
  - destruct (put_cases _ _ _ _ _ H) as [[-> ->]|[N Hs]]; [exact (wf_nonneg _ _ _ W _ _ E)|].
    exact (wf_nonneg _ _ _ W _ _ Hs).
  - rewrite (Ec x0 (fun t => 0 < refcount t)) by done. apply (wf_active _ _ _ W).
  - rewrite (Ec x0 (fun t => refcount t = 0)) by done. apply (wf_free _ _ _ W).
  - exact (wf_nodup_act _ _ _ W).
  - exact (wf_nodup_free _ _ _ W).
  - destruct (put_cases _ _ _ _ _ H) as [[-> ->]|[N Hs]]; [exact (wf_lock _ _ _ W _ _ E)|].
    exact (wf_lock _ _ _ W _ _ Hs).
  - destruct (put_cases _ _ _ _ _ H) as [[-> ->]|[N Hs]]; [simpl in H0; lia|exact (wf_idle _ _ _ W _ _ Hs H0)].
  - destruct (put_cases _ _ _ _ _ H) as [[-> ->]|[N Hs]]; [exact (wf_id _ _ _ W _ _ E)|exact (wf_id _ _ _ W _ _ Hs)].
  - destruct (put_cases _ _ _ _ _ H) as [[-> ->]|[? Hs]], (put_cases _ _ _ _ _ H0) as [[-> ->]|[? Ht]];
      simpl in *; try done; eapply (wf_id_inj _ _ _ W); eauto.
  - simpl. rewrite map_size_insert, E. apply (wf_next _ _ _ W).
  - simpl in H. apply lookup_insert_None in H as [H N]. rewrite hadd_ne by done. exact (wf_out _ _ _ W _ H).
Qed.

Lemma lists_id st : with_lists st (lockSetsActive st) (lockSetsFree st) = st.
Proof. by destruct st. Qed.

(** A set in use that stays in use. *)
Lemma wf_put h L st x s s' n v :
  wf h L st -> sets st !! x = Some s -> 0 < refcount s -> 0 < refcount s + n ->
  lockRecordList s' = lockRecordList s -> id s' = id s -> refcount s' = refcount s + n ->
  (lock s', ownerlocker s') = v ->
  wf (hadd h x n) (lupd L x v) (put_set st x s').
Proof.
  intros W E Hp Hn E1 E2 E3 E4. rewrite <- (lists_id (put_set st x s')).
  apply (wf_change h L st x s s' n v); try done; try lia.
  - exact (wf_nodup_act _ _ _ W).
  - exact (wf_nodup_free _ _ _ W).
  - intros y. simpl. destruct (decide (y = x)) as [->|]; [|naive_solver].
    rewrite (wf_active _ _ _ W). split; [left; split; [done|lia]|eauto].
  - intros y. simpl. destruct (decide (y = x)) as [->|]; [|naive_solver].
    rewrite (wf_free _ _ _ W). split; [intros (t & Et & E0); rewrite E in Et; injection Et as <-; lia|].
    intros [[_ ?]|[? _]]; [lia|done].
Qed.

(** Without a change of the mutex, and without one of the counter. *)
Lemma lupd_id h L st x s y : wf h L st -> sets st !! x = Some s ->
  L y = lupd L x (lock s, ownerlocker s) y.
Proof.
  intros W E. unfold lupd. destruct (decide (y = x)) as [->|]; [|done].
  symmetry. by eapply wf_lock.
Qed.

Lemma wf_put_ref h L st x s n :
  wf h L st -> sets st !! x = Some s -> 0 < refcount s -> 0 < refcount s + n ->
  wf (hadd h x n) L (put_set st x (with_refcount s (refcount s + n))).
Proof.
  intros W E H1 H2.
  apply (wf_ext _ _ _ _ _ (wf_put h L st x s (with_refcount s (refcount s + n)) n _
    W E H1 H2 eq_refl eq_refl eq_refl eq_refl)); [done|].
  intros y. exact (lupd_id h L st x s y W E).
Qed.

Lemma wf_put_lock h L st x s s' v :
  wf h L st -> sets st !! x = Some s -> 0 < refcount s ->
  lockRecordList s' = lockRecordList s -> id s' = id s -> refcount s' = refcount s ->
  (lock s', ownerlocker s') = v ->
  wf h (lupd L x v) (put_set st x s').
Proof.
  intros W E H1 ? ? ? ?.
  eapply wf_ext with (h := hadd h x 0) (L := lupd L x v); [eapply wf_put; eauto; lia| |done].
  intros y. unfold hadd. destruct (decide _); lia.
Qed.

(** ** References and mutexes *)

Definition int_max : Z := 2 ^ 31.

Lemma add_ref_eq st x s n :
  sets st !! x = Some s -> - int_max <= refcount s + n < int_max ->
  add_ref st x n = inr (refcount s + n, put_set st x (with_refcount s (refcount s + n))).
Proof.
  intros E R. unfold add_ref, get_set. rewrite E. simpl.
  rewrite wrap_s_id; [done|lia|]. unfold fits_s, int_max in *. lia.
Qed.

Lemma add_ref_spec h L st x n :
  wf h L st -> live h st x -> 0 < total h st x + n < int_max ->
  wp (add_ref st x n) (fun '(c, st') =>
    c = total h st x + n /\ wf (hadd h x n) L st' /\ same st st').
Proof.
  intros W Hl R. destruct (live_set h L st W x Hl) as (s & E & Hp).
  rewrite <- (total_refcount h L st W x s E) in *.
  rewrite (add_ref_eq st x s n E) by (unfold int_max in *; lia). simpl. split; [done|]. split.
  - apply wf_put_ref; [done..|lia].
  - by eapply put_set_same.
Qed.

Lemma incref_spec h L st x :
  wf h L st -> live h st x -> total h st x + 1 < int_max ->
  wp (dbLockIncRef st x) (fun st' => wf (hadd h x 1) L st' /\ same st st').
Proof.
  intros W Hl R. unfold dbLockIncRef. pose proof (proj2 Hl).
  wp_use (add_ref_spec h L) as [c st1]; [done|done|lia|]. intros (-> & W1 & S1).
  apply wp_require; [apply Z.ltb_lt; lia|]. done.
Qed.

Lemma lock_spec h L st x me m :
  wf h L st -> live h st x -> mutex_lock me (fst (L x)) = inr m ->
  wp (lock_set me st x) (fun st' => wf h (lupd L x (m, snd (L x))) st' /\ same st st').
Proof.
  intros W Hl Em. destruct (live_set h L st W x Hl) as (s & E & Hp).
  pose proof (wf_lock _ _ _ W _ _ E) as EL. unfold lock_set, get_set. rewrite E. simpl.
  rewrite <- EL in Em |- *. simpl in *. rewrite Em. simpl. split.
  - by eapply wf_put_lock.
  - by eapply put_set_same.
Qed.

Lemma unlock_spec h L st x me m :
  wf h L st -> live h st x -> mutex_unlock me (fst (L x)) = inr m ->
  wp (unlock_set me st x) (fun st' => wf h (lupd L x (m, snd (L x))) st' /\ same st st').
Proof.
  intros W Hl Em. destruct (live_set h L st W x Hl) as (s & E & Hp).
  pose proof (wf_lock _ _ _ W _ _ E) as EL. unfold unlock_set, get_set. rewrite E. simpl.
  rewrite <- EL in Em |- *. simpl in *. rewrite Em. simpl. split.
  - by eapply wf_put_lock.
  - by eapply put_set_same.
Qed.

(** What is live stays live as long as its count does not change. *)
Lemma same_total h st st' x : same st st' -> total h st' x = total h st x.
Proof. intros S. unfold total. by rewrite (same_members _ _ S). Qed.
Lemma same_live h st st' x : same st st' -> live h st x -> live h st' x.
Proof.
  intros S [H1 H2]. split; [by apply (same_dom _ _ S)|]. by rewrite (same_total h _ _ x S).
Qed.
Lemma total_hadd h st x n y :
  total (hadd h x n) st y = if decide (y = x) then total h st y + n else total h st y.
Proof. unfold total, hadd. destruct (decide _); lia. Qed.

(** ** Releasing a reference *)

Lemma put_set_twice st x s s' : put_set (put_set st x s) x s' = put_set st x s'.
Proof. unfold put_set, with_sets. simpl. by rewrite insert_insert_eq. Qed.

Lemma elem_of_filter_ne (x y : positive) (l : list positive) :
  y ∈ filter (.≠ x) l <-> y ≠ x /\ y ∈ l.
Proof. by rewrite list_elem_of_filter. Qed.

Lemma retire_eq me st x s :
  sets st !! x = Some s -> lock s = None -> lockRecordList s = [] -> x ∈ lockSetsActive st ->
  retire_set me st x =
    inr (with_lists (put_set st x s) (filter (.≠ x) (lockSetsActive st)) (lockSetsFree st ++ [x])).
Proof.
  intros E El Er Ha. unfold retire_set, lock_set, get_set. rewrite E. simpl. rewrite El. simpl.
  rewrite lookup_insert_eq. simpl. rewrite Er. simpl.
  unfold unlock_set, get_set, put_set. simpl. rewrite lookup_insert_eq. simpl.
  rewrite decide_True by done. simpl. unfold list_delete. rewrite decide_True by done. simpl.
  unfold with_lists, with_sets. simpl. rewrite insert_insert_eq.
  destruct s. simpl in *. by subst.
Qed.

Lemma wf_retire h L st x s :
  wf h L st -> sets st !! x = Some s -> refcount s = 1 -> lockRecordList s = [] ->
  L x = (None, None) ->
  wf (hadd h x (-1)) L
    (with_lists (put_set st x (with_refcount s 0)) (filter (.≠ x) (lockSetsActive st))
       (lockSetsFree st ++ [x])).
Proof.
  intros W E E1 Er EL. eapply wf_ext; [eapply (wf_change h L st x s (with_refcount s 0) (-1) (None, None))| |]; try done.
  - simpl. lia.
  - simpl. by rewrite (wf_lock _ _ _ W _ _ E).
  - apply NoDup_filter, (wf_nodup_act _ _ _ W).
  - apply NoDup_app. split; [exact (wf_nodup_free _ _ _ W)|]. split; [|apply NoDup_singleton].
    intros y Hy ->%list_elem_of_singleton. apply (wf_free _ _ _ W) in Hy as (t & Et & E0).
    rewrite E in Et. injection Et as <-. lia.
  - intros y. rewrite elem_of_filter_ne. simpl. split; [by right|]. intros [[_ ?]|?]; [lia|done].
  - intros y. rewrite elem_of_app, list_elem_of_singleton. simpl.
    destruct (decide (y = x)); naive_solver.
  - intros y. unfold lupd. by destruct (decide (y = x)) as [->|].
Qed.

Lemma decref_spec h L st x me :
  wf h L st -> is_Some (sets st !! x) -> 1 <= h x -> total h st x < int_max ->
  (total h st x = 1 -> L x = (None, None)) ->
  wp (dbLockDecRef me st x) (fun st' => wf (hadd h x (-1)) L st' /\ same st st').
Proof.
  intros W [s E] Hh R HL.
  pose proof (wf_ref _ _ _ W _ _ E) as Er. rewrite <- (total_refcount h L st W x s E) in R, HL.
  unfold dbLockDecRef. rewrite (add_ref_eq st x s) by (unfold int_max in *; (done || lia)).
  simpl. apply wp_assert; [apply Z.leb_le; lia|].
  destruct (Z.eqb_spec (refcount s + -1) 0) as [E0|N0].
  - assert (En : lockRecordList s = []) by (destruct (lockRecordList s); [done|simpl in Er; lia]).
    assert (EL : L x = (None, None)) by (apply HL; lia).
    pose proof (wf_lock _ _ _ W _ _ E) as El. rewrite EL in El. injection El as El _.
    erewrite retire_eq; [|apply lookup_insert_eq|done|done|].
    2: { simpl. apply (wf_active _ _ _ W). exists s. split; [done|lia]. }
    rewrite put_set_twice, E0. simpl. split; [apply wf_retire; (done || lia)|].
    split; try done.
    + intros y. rewrite members_lists. by apply put_set_same with s.
    + by apply (put_set_same st x s (with_refcount s 0)).
  - simpl. split; [apply wf_put_ref; (done || lia)|]. by eapply put_set_same.
Qed.
