(* ===== verification/DbLocker.v ===== *)
(** * Lock sets: lockers

    What [dbLockerPrepare], [dbScanLockMany], [dbScanUnlockMany] and [dbLockerFinalize] do to the
    references and the mutexes when no other thread holds one. *)

From stdpp Require Import base gmap list sorting fin_sets.
From Stdlib Require Import ZArith Lia Bool.
From S2P Require Import Prelude DbLock DbLockInv.
Open Scope Z_scope.

(** Case analysis on the comparisons of addresses. *)
Ltac pbool :=
  repeat match goal with
  | |- context [(?a <? ?b)%positive] => destruct (Pos.ltb_spec a b)
  end.

(** How many of the references are to [y]. *)
Fixpoint nref (rs : list lockRecordRef) (y : addr) : Z :=
  match rs with
  | [] => 0
  | ref :: rest => (if decide (rset ref = Some y) then 1 else 0) + nref rest y
  end.

Lemma nref_nonneg rs y : 0 <= nref rs y.
Proof. induction rs; simpl; [lia|]. destruct (decide _); lia. Qed.

Lemma nref_le rs y : nref rs y <= zlen rs.
Proof. induction rs as [|ref rs IH]; cbn [nref length]; [lia|]. destruct (decide _); lia. Qed.
Lemma nref_perm rs rs' y : rs ≡ₚ rs' -> nref rs y = nref rs' y.
Proof. induction 1; simpl; lia. Qed.

Lemma nref_pos rs y : 1 <= nref rs y <-> exists ref, ref ∈ rs /\ rset ref = Some y.
Proof.
  induction rs as [|ref rs IH]; simpl.
  - split; [lia|]. intros (? & H & _). by apply not_elem_of_nil in H.
  - pose proof (nref_nonneg rs y). setoid_rewrite elem_of_cons. destruct (decide _) as [E|N].
    + split; [eauto|lia].
    + rewrite <- (Z.add_0_l (nref rs y)) in IH. rewrite IH. naive_solver.
Qed.

(** The reference as it ought to be. *)
Definition refresh st (ref : lockRecordRef) : lockRecordRef :=
  match plr ref with
  | None => ref
  | Some r => mkRef (Some r) (plockSet <$> lrs st !! r)
  end.

Definition ref_ok st (ref : lockRecordRef) : Prop :=
  match plr ref with
  | None => rset ref = None
  | Some r => is_Some (lrs st !! r)
  end /\ forall y, rset ref = Some y -> is_Some (sets st !! y).

Lemma ref_ok_same st st' ref : same st st' -> ref_ok st ref -> ref_ok st' ref.
Proof.
  intros S [H1 H2]. split; [by rewrite (same_lrs _ _ S)|].
  intros y E. apply (same_dom _ _ S). eauto.
Qed.

Lemma refresh_same st st' ref : same st st' -> refresh st' ref = refresh st ref.
Proof. intros S. unfold refresh. by rewrite (same_lrs _ _ S). Qed.

Lemma refreshs_same st st' rs : same st st' -> map (refresh st') rs = map (refresh st) rs.
Proof. intros S. apply map_ext. intros. by apply refresh_same. Qed.

Lemma refresh_ok h L st ref : wf h L st -> ref_ok st ref -> ref_ok st (refresh st ref).
Proof.
  intros W [H1 H2]. unfold refresh. destruct (plr ref) as [r|] eqn:Er; [|by split; rewrite ?Er].
  split; simpl; [done|]. destruct H1 as [lr El]. rewrite El. intros y [= <-].
  destruct (lr_set h L st W r lr El) as (s & Es & _). eauto.
Qed.

Section Locker.
Context (me : tid).

(** One reference, where [e] counts the others. *)
Lemma update_ref_spec L ref e st :
  let cnt r y := if decide (rset r = Some y) then 1 else 0 in
  wf (fun y => e y + cnt ref y) L st -> (forall y, 0 <= e y) -> ref_ok st ref ->
  (forall y, Z.of_nat (size (lrs st)) + e y + cnt ref y + 1 < int_max) ->
  (forall y, rset ref = Some y -> L y = (None, None)) ->
  wp (update_ref me true ref st) (fun '(stale, ref', st') =>
    ref' = refresh st ref /\ (stale = false -> ref' = ref) /\
    wf (fun y => e y + cnt ref' y) L st' /\ same st st').
Proof.
  intros cnt W He [Hr1 Hr2] Hb HL. destruct ref as [p x].
  unfold update_ref, refresh. cbn [plr rset] in *. destruct p as [r|]; [|by subst].
  destruct Hr1 as [lr El]. unfold get_lr. rewrite El.
  change (plockSet <$> Some lr) with (Some (plockSet lr)). cbn [the ebind].
  destruct (decide (x = Some (plockSet lr))) as [->|Ns]; [done|].
  set (ls := plockSet lr) in *. set (ref := mkRef (Some r) x) in *.
  assert (Hpos : forall y, 0 <= cnt ref y) by (intros y; unfold cnt; destruct (decide _); lia).
  assert (Hbt : forall y, total (fun y => e y + cnt ref y) st y + 1 < int_max).
  { intros y. pose proof (total_bound _ _ _ W y). specialize (Hb y). lia. }
  wp_use (incref_spec (fun y => e y + cnt ref y) L st ls) as st1; [done| |done|].
  { eapply lr_live; eauto. specialize (He (plockSet lr)). specialize (Hpos (plockSet lr)). lia. }
  intros [W1 S1]. destruct x as [old|] eqn:Eo.
  - assert (No : old ≠ ls) by congruence.
    wp_use (decref_spec _ L st1 old) as st2; [exact W1| | | | |].
    + apply (same_dom _ _ S1). eauto.
    + rewrite hadd_ne by done. unfold cnt. rewrite decide_True by done. specialize (He old). lia.
    + rewrite total_hadd, decide_False, (same_total _ _ _ _ S1) by done. specialize (Hbt old). lia.
    + intros _. eauto.
    + intros [W2 S2]. simpl. do 2 (split; [done|]). split; [|by etransitivity].
      eapply wf_ext; [exact W2| |done]. intros y. unfold hadd, cnt. simpl.
      repeat destruct (decide _); try congruence; lia.
  - simpl. do 2 (split; [done|]). split; [|done].
    eapply wf_ext; [exact W1| |done]. intros y. unfold hadd, cnt. simpl.
    repeat destruct (decide _); try congruence; lia.
Qed.

Lemma update_loop_spec L rs : forall e changed st,
  wf (fun y => e y + nref rs y) L st -> (forall y, 0 <= e y) -> Forall (ref_ok st) rs ->
  (forall y, Z.of_nat (size (lrs st)) + e y + nref rs y + zlen rs < int_max) ->
  (forall y, 1 <= nref rs y -> L y = (None, None)) ->
  wp (update_loop me true changed rs st) (fun '(c, rs', st') =>
    rs' = map (refresh st) rs /\ (c = false -> changed = false /\ rs' = rs) /\
    wf (fun y => e y + nref rs' y) L st' /\ same st st').
Proof.
  induction rs as [|ref rs IH]; intros e changed st W He Hok Hb HL; simpl update_loop; [done|].
  apply Forall_cons in Hok as [Hr Hok]. pose proof (nref_nonneg rs) as Hn.
  wp_use (update_ref_spec L ref (fun y => e y + nref rs y) st) as [[stale ref1] st1].
  - eapply wf_ext; [exact W| |done]. intros y. simpl. lia.
  - intros y. specialize (He y). specialize (Hn y). lia.
  - done.
  - intros y. specialize (Hb y). simpl in Hb. lia.
  - intros y E. apply HL. simpl. rewrite decide_True by done. specialize (Hn y). lia.
  - intros (-> & Est & W1 & S1). rewrite andb_false_r.
    set (c := fun y => if decide (rset (refresh st ref) = Some y) then 1 else 0).
    wp_use (IH (fun y => e y + c y) (changed || stale) st1) as [[c2 rs2] st2].
    + eapply wf_ext; [exact W1| |done]. intros y. unfold c. cbn beta. lia.
    + intros y. specialize (He y). unfold c. destruct (decide _); lia.
    + eapply Forall_impl; [exact Hok|]. intros ? ?. by eapply ref_ok_same.
    + intros y. rewrite (same_lrs _ _ S1). specialize (Hb y). simpl nref in Hb. simpl length in Hb.
      unfold c. repeat destruct (decide _); lia.
    + intros y Hy. apply HL. simpl. destruct (decide _); lia.
    + intros (-> & Ec & W2 & S2). simpl. split; [by rewrite (refreshs_same st st1)|]. split.
      { intros Hc. destruct (Ec Hc) as [[-> Hs]%orb_false_iff ->]. by rewrite Est. }
      split; [|by etransitivity]. eapply wf_ext; [exact W2| |done]. intros y. simpl. unfold c. lia.
Qed.

(** A locker between calls. *)
Record locker_ok (lk : dbLocker) st : Prop := {
  lk_refs : Forall (ref_ok st) (refs lk);
  lk_fresh : recomp lk = recomputeCnt st -> map (refresh st) (refs lk) = refs lk;
  lk_sorted : StronglySorted ref_le (refs lk)
}.

Lemma locker_ok_same lk st st' : same st st' -> locker_ok lk st -> locker_ok lk st'.
Proof.
  intros S []. split; [|rewrite (same_cnt _ _ S), (refreshs_same st st'); done|done].
  eapply Forall_impl; [done|]. intros ? ?. by eapply ref_ok_same.
Qed.

#[global] Instance ref_le_trans : Transitive ref_le.
Proof.
  intros [p x] [q y] [r z]. unfold ref_le, lrrcompare. simpl.
  destruct x, y, z; try lia; pbool; lia.
Qed.
#[global] Instance ref_le_total : Total ref_le.
Proof.
  intros [p x] [q y]. unfold ref_le, lrrcompare. simpl.
  destruct x, y; try lia; pbool; lia.
Qed.

Lemma refresh_idem h L st st' ref :
  wf h L st -> lrs st' = lrs st -> refresh st' (refresh st ref) = refresh st ref.
Proof.
  intros W E. unfold refresh. destruct (plr ref) eqn:Er; simpl; [by rewrite E|by rewrite Er].
Qed.

Lemma update_refs_spec L lk e st :
  wf (fun y => e y + nref (refs lk) y) L st -> (forall y, 0 <= e y) -> locker_ok lk st ->
  (forall y, Z.of_nat (size (lrs st)) + e y + nref (refs lk) y + zlen (refs lk) < int_max) ->
  (forall y, 1 <= nref (refs lk) y -> L y = (None, None)) ->
  wp (dbLockUpdateRefs me lk st true) (fun '(_, lk', st') =>
    wf (fun y => e y + nref (refs lk') y) L st' /\ same st st' /\ locker_ok lk' st' /\
    me_locker lk' = me_locker lk /\ locked lk' = locked lk /\
    recomp lk' = recomputeCnt st /\ refs lk' ≡ₚ map (refresh st) (refs lk)).
Proof.
  intros W He [Hok Hf Hs] Hb HL. unfold dbLockUpdateRefs.
  destruct (Z.eqb_spec (recomp lk) (recomputeCnt st)) as [E|N].
  { simpl. split; [done|]. split; [done|]. split; [by split|]. do 3 (split; [done|]). by rewrite Hf. }
  apply wp_bind.
  wp_use (update_loop_spec L (refs lk) e false st) as [[c rs'] st']; [done..|].
  intros (-> & Ec & W' & S'). simpl.
  assert (Hok' : Forall (ref_ok st') (map (refresh st) (refs lk))).
  { apply Forall_map. eapply Forall_impl; [exact Hok|]. intros ref Hr.
    eapply ref_ok_same; [done|]. by eapply refresh_ok. }
  assert (Hre : map (refresh st') (map (refresh st) (refs lk)) = map (refresh st) (refs lk)).
  { rewrite map_map. apply map_ext. intros ref. eapply refresh_idem; [done|]. apply S'. }
  destruct c; simpl.
  - set (rs := map (refresh st) (refs lk)) in *.
    pose proof (merge_sort_Permutation ref_le rs) as P.
    assert (SS : StronglySorted ref_le (merge_sort ref_le rs)) by (apply StronglySorted_merge_sort; apply _).
    split; [|split; [done|split; [|done]]].
    + eapply wf_ext; [exact W'| |done]. intros y. simpl. by rewrite (nref_perm _ _ y P).
    + split; simpl; [by rewrite P| |done]. intros _.
      rewrite <- (map_id (merge_sort ref_le rs)) at 2. apply map_ext_in. intros ref Hin.
      apply list_elem_of_In in Hin. rewrite P in Hin.
      apply list_elem_of_fmap in Hin as (ref0 & -> & _). eapply refresh_idem; [exact W|]. apply S'.
  - destruct (Ec eq_refl) as [_ Er]. rewrite Er in *.
    split; [done|]. split; [done|]. split; [|done]. by split.
Qed.

Lemma update_refs_check lk st :
  recomp lk = recomputeCnt st -> dbLockUpdateRefs me lk st false = inr (false, lk, st).
Proof. intros E. unfold dbLockUpdateRefs. rewrite E, Z.eqb_refl. done. Qed.

(** ** Preparing and finalising *)

Lemma prepare_refs_spec st precs :
  Forall (fun p => forall r, p = Some r -> is_Some (recs st !! r) /\ is_Some (lrs st !! r)) precs ->
  prepare_refs st precs = inr (map (fun p => mkRef p None) precs).
Proof.
  induction 1 as [|p precs Hp _ IH]; [done|]. simpl. rewrite IH.
  destruct p as [r|]; [|done]. destruct (Hp r eq_refl) as [[rc E1] [lr E2]].
  unfold rec_lset, get_rec. by rewrite E1, E2.
Qed.

Lemma nref_none precs y : nref (map (fun p => mkRef p None) precs) y = 0.
Proof. by induction precs. Qed.

Lemma sorted_none precs : StronglySorted ref_le (map (fun p => mkRef p None) precs).
Proof.
  induction precs; simpl; constructor; [done|]. apply Forall_map, Forall_true.
  intros x. unfold compose, ref_le, lrrcompare. simpl. lia.
Qed.

Lemma wrap_pred_ne c : wrap_u 64 (c - 1) ≠ c.
Proof.
  unfold wrap_u. intros E. pose proof (Z.div_mod (c - 1) (2 ^ 64) ltac:(lia)) as D.
  rewrite E in D. change (2 ^ 64) with 18446744073709551616 in D. lia.
Qed.

Lemma prepare_spec L i precs e st :
  wf e L st -> (forall y, 0 <= e y) ->
  Forall (fun p => forall r, p = Some r -> is_Some (recs st !! r) /\ is_Some (lrs st !! r)) precs ->
  (forall y, Z.of_nat (size (lrs st)) + e y + zlen precs < int_max) ->
  wp (dbLockerPrepare me i precs st) (fun '(lk, st') =>
    wf (fun y => e y + nref (refs lk) y) L st' /\ same st st' /\ locker_ok lk st' /\
    me_locker lk = i /\ locked lk = [] /\ recomp lk = recomputeCnt st /\
    refs lk ≡ₚ map (fun p => mkRef p (r ← p; plockSet <$> lrs st !! r)) precs).
Proof.
  intros W He Hp Hb. unfold dbLockerPrepare. rewrite prepare_refs_spec by done. cbn [ebind].
  set (lk := mkLocker _ _ _ _).
  wp_use (update_refs_spec L lk e st) as [[c lk'] st'].
  - eapply wf_ext; [exact W| |done]. intros y. simpl. rewrite nref_none. lia.
  - done.
  - split; simpl; [|intros E; exfalso|apply sorted_none].
    + apply Forall_map. eapply Forall_impl; [exact Hp|]. intros [r|] Hr; split; simpl; try done.
      by apply Hr.
    + by apply wrap_pred_ne in E.
  - intros y. simpl. rewrite nref_none. specialize (Hb y). llia.
  - intros y. simpl. rewrite nref_none. lia.
  - intros (W' & S' & Hok & E1 & E2 & E3 & P). simpl in *. do 6 (split; [done|]).
    rewrite P, map_map. apply Permutation_refl', map_ext. intros [r|]; done.
Qed.

Lemma release_refs_spec L rs : forall e st,
  wf (fun y => e y + nref rs y) L st -> (forall y, 0 <= e y) ->
  (forall y, 1 <= nref rs y -> is_Some (sets st !! y) /\ L y = (None, None)) ->
  (forall y, total (fun y => e y + nref rs y) st y < int_max) ->
  wp (release_refs me rs st) (fun st' => wf e L st' /\ same st st').
Proof.
  induction rs as [|ref rs IH]; intros e st W He HL Hb; simpl release_refs.
  { simpl. split; [|done]. eapply wf_ext; [exact W| |done]. intros y. simpl. lia. }
  pose proof (nref_nonneg rs) as Hn. destruct (rset ref) as [x|] eqn:Ex.
  - assert (Hx : 1 <= nref (ref :: rs) x)
      by (simpl; rewrite Ex, decide_True by done; specialize (Hn x); lia).
    wp_use (decref_spec _ L st x) as st1; [exact W|by apply HL| |apply Hb|intros _; by apply HL|].
    { specialize (He x). lia. }
    intros [W1 S1].
    assert (W2 : wf (fun y => e y + nref rs y) L st1).
    { eapply wf_ext; [exact W1| |done]. intros y. unfold hadd. simpl. rewrite Ex.
      repeat destruct (decide _); try congruence; lia. }
    eapply wp_mono; [apply (IH e st1); [done|done| |]|].
    + intros y Hy. rewrite (same_dom _ _ S1). apply HL. simpl. destruct (decide _); lia.
    + intros y. specialize (Hb y). unfold total in *. rewrite (same_members _ _ S1).
      simpl in Hb. destruct (decide _); lia.
    + intros st2 [W3 S3]. split; [done|]. by etransitivity.
  - cbn [ebind]. apply IH; [|done| |].
    + eapply wf_ext; [exact W| |done]. intros y. simpl. by rewrite Ex.
    + intros y Hy. apply HL. simpl. by rewrite Ex.
    + intros y. specialize (Hb y). unfold total in *. simpl in Hb. by rewrite Ex in Hb.
Qed.

Lemma finalize_spec L lk e st :
  wf (fun y => e y + nref (refs lk) y) L st -> (forall y, 0 <= e y) -> locked lk = [] ->
  (forall y, 1 <= nref (refs lk) y -> is_Some (sets st !! y) /\ L y = (None, None)) ->
  (forall y, total (fun y => e y + nref (refs lk) y) st y < int_max) ->
  wp (dbLockerFinalize me lk st) (fun st' => wf e L st' /\ same st st').
Proof.
  intros W He El HL Hb. unfold dbLockerFinalize. rewrite El. simpl. by apply release_refs_spec.
Qed.
End Locker.

(** ** Locking *)

(** The sets [D] locked by the locker [i] of the thread, with a reference each. *)
Definition locked_by (me : tid) (i : lockerid) (L : mutexes) (D : list addr) : mutexes :=
  fun y => if decide (y ∈ D) then (Some (me, 1%nat), Some i) else L y.
Definition plus_in (h : addr -> Z) (D : list addr) : addr -> Z :=
  fun y => h y + (if decide (y ∈ D) then 1 else 0).

Lemma locked_by_cons me i L x D y : x ∉ D ->
  locked_by me i (lupd L x (Some (me, 1%nat), Some i)) D y = locked_by me i L (x :: D) y.
Proof.
  intros Hx. unfold locked_by, lupd.
  destruct (decide (y ∈ D)), (decide (y ∈ x :: D)), (decide (y = x)); set_solver.
Qed.

Lemma plus_in_cons h x D y : x ∉ D -> plus_in (hadd h x 1) D y = plus_in h (x :: D) y.
Proof.
  intros Hx. unfold plus_in, hadd.
  destruct (decide (y ∈ D)), (decide (y ∈ x :: D)), (decide (y = x)); subst; try lia; set_solver.
Qed.

Section Locking.
Context (me : tid).

(** Taking one set that nobody holds. *)
Lemma take_set_spec h L st i x :
  wf h L st -> live h st x -> L x = (None, None) -> total h st x + 1 < int_max ->
  wp (take_set me i st x)
    (fun st' => wf (hadd h x 1) (lupd L x (Some (me, 1%nat), Some i)) st' /\ same st st').
Proof.
  unfold take_set.
  intros W Hl HL Hb. wp_use (lock_spec h L st x me) as st1; [done|done|by rewrite HL|].
  rewrite HL. intros [W1 S1].
  destruct (live_set h _ st1 W1 x) as (s & Es & Hp); [by eapply same_live|].
  pose proof (wf_lock _ _ _ W1 _ _ Es) as El. rewrite lupd_eq in El. injection El as El Eo.
  unfold get_set. rewrite Es. cbn [the ebind]. rewrite Eo. cbn [lk_assert ebind].
  set (st2 := put_set st1 x _).
  assert (W2 : wf h (lupd L x (Some (me, 1%nat), Some i)) st2).
  { eapply wf_ext with (h := h); [eapply (wf_put_lock h); [exact W1|done..]| |]; [done|].
    intros y. simpl. rewrite El. unfold lupd. by destruct (decide _). }
  assert (S2 : same st1 st2) by (by eapply put_set_same).
  eapply wp_mono; [apply (incref_spec h _ st2 x W2)|].
  - eapply same_live; [|exact Hl]. by etransitivity.
  - rewrite (same_total h st); [done|by etransitivity].
  - intros st3 [W3 S3]. split; [done|]. etransitivity; [exact S1|]. by etransitivity.
Qed.

Definition lockable h st (ref : lockRecordRef) : Prop :=
  match plr ref with
  | None => rset ref = None
  | Some _ => exists y, rset ref = Some y /\ live h st y
  end.

Lemma lockable_more h st st' x ref :
  same st st' -> lockable h st ref -> lockable (hadd h x 1) st' ref.
Proof.
  unfold lockable. intros S. destruct (plr ref); [|done]. intros (y & E & [H1 H2]).
  exists y. split; [done|]. split; [by apply (same_dom _ _ S)|].
  rewrite total_hadd, (same_total h st st' y S). destruct (decide _); lia.
Qed.

(** The sets of [rs] other than [plock] are locked. *)
Definition locked_more plock (rs : list lockRecordRef) lk h L st : dbLocker * lk_state -> Prop := fun '(lk', st') => exists D,
  lk' = with_locked lk (locked lk ++ D) /\ NoDup D /\
  (forall y, y ∈ D <-> plock ≠ Some y /\ exists ref, ref ∈ rs /\ rset ref = Some y) /\
  wf (plus_in h D) (locked_by me (me_locker lk) L D) st' /\ same st st'.

Lemma locked_skip plock ref rs lk h L st res : rset ref = None \/ rset ref = plock ->
  locked_more plock rs lk h L st res -> locked_more plock (ref :: rs) lk h L st res.
Proof.
  destruct res as [lk' st']. intros Hskip (D & E & Nd & HD & W' & S'). exists D. do 2 (split; [done|]).
  split; [|done]. intros y. rewrite HD. setoid_rewrite elem_of_cons. split.
  - intros (? & r & ? & ?). eauto 6.
  - intros (? & r & [->|?] & ?); [|eauto]. destruct Hskip; congruence.
Qed.

Lemma lock_loop_spec rs : forall plock lk st h L,
  wf h L st -> Forall (lockable h st) rs -> StronglySorted ref_le rs ->
  (forall ref y, ref ∈ rs -> rset ref = Some y ->
     plock = Some y \/ (L y = (None, None) /\ forall p, plock = Some p -> (p < y)%positive)) ->
  (forall y, total h st y + zlen rs < int_max) ->
  wp (lock_loop me plock rs lk st) (locked_more plock rs lk h L st).
Proof.
  induction rs as [|ref rs IH]; intros plock lk st h L W Hl Hs HL Hb; simpl lock_loop.
  { exists []. rewrite app_nil_r. split; [by destruct lk|]. split; [constructor|]. split.
    - intros y. split; [by intros ?%not_elem_of_nil|]. by intros (_ & ? & ?%not_elem_of_nil & _).
    - split; [|done]. eapply wf_ext; [exact W| |]; intros y.
      + unfold plus_in. destruct (decide _) as [?%not_elem_of_nil|]; [done|lia].
      + unfold locked_by. by destruct (decide _) as [?%not_elem_of_nil|]. }
  apply Forall_cons in Hl as [Hr Hl]. apply StronglySorted_inv in Hs as [Hs Hle].
  assert (Skip : rset ref = None \/ rset ref = plock -> wp (lock_loop me plock rs lk st) (locked_more plock (ref :: rs) lk h L st)).
  { intros Hskip. eapply wp_mono; [apply (IH plock lk st h L W Hl Hs)|]; [set_solver| |].
    { intros y. specialize (Hb y). simpl length in Hb. lia. }
    intros ?. by apply locked_skip. }
  unfold lockable in Hr. destruct (plr ref); [|auto].
  destruct Hr as (x & Ex & Hx). rewrite Ex. destruct (decide (plock = Some x)) as [->|Nx].
  { rewrite !bool_decide_true by done. simpl. rewrite Ex in *. auto. }
  replace (bool_decide _ && _) with false
    by (symmetry; apply andb_false_intro2; by apply bool_decide_false).
  destruct (HL ref x) as [?|[ELx Hp]]; [by left|done|done|].
  cbn [the ebind]. wp_use (take_set_spec h L st (me_locker lk) x) as st1; [done..| |].
  { specialize (Hb x). simpl length in Hb. lia. }
  intros [W1 S1]. clear Skip.
  assert (Hge : forall r y, r ∈ rs -> rset r = Some y -> (x <= y)%positive).
  { intros r y Hin Ey. rewrite Forall_forall in Hle. specialize (Hle r Hin).
    unfold ref_le, lrrcompare in Hle. rewrite Ex, Ey in Hle. revert Hle. pbool; lia. }
  assert (Hnp : forall r y, r ∈ rs -> rset r = Some y -> plock ≠ Some y).
  { intros r y Hin Ey ->. specialize (Hp y eq_refl). specialize (Hge r y Hin Ey). lia. }
  eapply wp_mono; [apply (IH (Some x) _ st1 _ _ W1); [|done| |]|].
  - eapply Forall_impl; [exact Hl|]. intros. by eapply lockable_more.
  - intros r y Hin Ey. specialize (Hge r y Hin Ey).
    destruct (decide (y = x)) as [->|Nyx]; [by left|right]. rewrite lupd_ne by done.
    split; [|intros p0 [= <-]; lia]. destruct (HL r y) as [E|[? _]]; [by right|done| |done].
    exfalso. exact (Hnp _ _ Hin Ey E).
  - intros y. rewrite total_hadd, (same_total h _ _ _ S1). specialize (Hb y). simpl length in Hb.
    destruct (decide _); lia.
  - intros [lk' st'] (D & -> & Nd & HD & W' & S'). exists (x :: D).
    assert (Nx' : x ∉ D) by (rewrite HD; by intros [? _]). simpl.
    split; [by rewrite <- app_assoc|]. split; [by constructor|]. split; [|split].
    + intros y. rewrite elem_of_cons, HD. setoid_rewrite elem_of_cons. split.
      * intros [->|(? & r & ? & ?)]; [split; [done|]; eauto|]. split; [|eauto]. by eapply Hnp.
      * intros (? & r & [->|?] & Ey); [left; congruence|]. destruct (decide (y = x)); [by left|right].
        split; [congruence|eauto].
    + eapply wf_ext; [exact W'| |]; intros y.
      * symmetry. by apply plus_in_cons.
      * symmetry. by apply locked_by_cons.
    + by etransitivity.
Qed.

(** ** Unlocking *)

Lemma unlock_loop_spec i h L D : forall st,
  wf (plus_in h D) (locked_by me i L D) st -> NoDup D ->
  (forall y, y ∈ D -> is_Some (sets st !! y) /\ L y = (None, None) /\ 0 <= h y) ->
  (forall y, total (plus_in h D) st y < int_max) ->
  wp (unlock_loop me i D st) (fun st' => wf h L st' /\ same st st').
Proof.
  induction D as [|x D IH]; intros st W Nd HD Hb; simpl unlock_loop.
  { simpl. split; [|done]. eapply wf_ext; [exact W| |]; intros y.
    - unfold plus_in. destruct (decide _) as [?%not_elem_of_nil|]; [done|lia].
    - unfold locked_by. by destruct (decide _) as [?%not_elem_of_nil|]. }
  apply NoDup_cons in Nd as [Nx Nd]. destruct (HD x) as ((s & Es) & ELx & Hx); [by left|].
  assert (Hp : plus_in h (x :: D) x = h x + 1).
  { unfold plus_in. rewrite decide_True; [done|by left]. }
  assert (HL : locked_by me i L (x :: D) x = (Some (me, 1%nat), Some i)).
  { unfold locked_by. rewrite decide_True; [done|by left]. }
  assert (Hlive : live (plus_in h (x :: D)) st x).
  { split; [eauto|]. unfold total. lia. }
  destruct (live_set _ _ st W x Hlive) as (s' & Es' & Hpos). assert (s' = s) as -> by congruence.
  pose proof (wf_lock _ _ _ W _ _ Es) as El. rewrite HL in El. injection El as El Eo.
  unfold get_set. rewrite Es. cbn [the ebind]. rewrite Eo, bool_decide_true by done.
  cbn [lk_assert ebind]. set (st1 := put_set st x _).
  assert (W1 : wf (plus_in h (x :: D)) (lupd (locked_by me i L (x :: D)) x (Some (me, 1%nat), None)) st1).
  { eapply wf_put_lock; [exact W|done..|]. simpl. by rewrite El. }
  assert (S1 : same st st1) by (by eapply put_set_same).
  wp_use (unlock_spec _ _ st1 x me None) as st2; [exact W1|by eapply same_live| |].
  { rewrite lupd_eq. simpl. by rewrite decide_True. }
  rewrite lupd_eq. simpl. intros [W2 S2].
  assert (S12 : same st st2) by (by etransitivity).
  wp_use (decref_spec _ _ st2 x me) as st3; [exact W2| | | | |].
  - apply (same_dom _ _ S12). eauto.
  - rewrite Hp. lia.
  - rewrite (same_total _ _ _ _ S12). apply Hb.
  - intros _. by rewrite lupd_eq.
  - intros [W3 S3]. assert (S13 : same st st3) by (by etransitivity).
    eapply wp_mono; [apply (IH st3)|].
    + eapply wf_ext; [exact W3| |]; intros y; unfold plus_in, hadd, lupd, locked_by.
      * destruct (decide (y ∈ D)), (decide (y ∈ x :: D)), (decide (y = x)); subst; try lia; set_solver.
      * destruct (decide (y = x)) as [->|N]; [by rewrite decide_False|].
        destruct (decide (y ∈ D)), (decide (y ∈ x :: D)); set_solver.
    + done.
    + intros y Hy. rewrite (same_dom _ _ S13). apply HD. by right.
    + intros y. specialize (Hb y). unfold total, plus_in in *. rewrite (same_members _ _ S13).
      destruct (decide (y ∈ D)), (decide (y ∈ x :: D)); try lia. set_solver.
    + intros st4 [W4 S4]. split; [done|]. by etransitivity.
Qed.

(** ** All sets of a locker *)

(** Nobody holds a mutex. *)
Definition unlocked : mutexes := fun _ => (None, None).

Lemma refs_lockable e lk st :
  let h y := e y + nref (refs lk) y in
  wf h unlocked st -> (forall y, 0 <= e y) -> locker_ok lk st -> recomp lk = recomputeCnt st ->
  Forall (lockable h st) (refs lk).
Proof.
  intros h W He [Hok Hf Hs] E. apply Forall_forall. intros ref Hin.
  rewrite Forall_forall in Hok. destruct (Hok ref Hin) as [Hr _].
  assert (Ef : refresh st ref = ref).
  { specialize (Hf E). apply list_elem_of_lookup in Hin as [k Hk].
    assert (Hk' : map (refresh st) (refs lk) !! k = Some ref) by congruence.
    rewrite list_lookup_fmap, Hk in Hk'. by injection Hk'. }
  unfold lockable. unfold refresh in Ef. destruct (plr ref) as [r|] eqn:Er; [|done].
  destruct Hr as [lr El]. rewrite El in Ef. exists (plockSet lr).
  split; [by rewrite <- Ef|]. eapply lr_live; [done..|]. unfold h.
  pose proof (nref_nonneg (refs lk) (plockSet lr)). specialize (He (plockSet lr)). lia.
Qed.

Lemma many_spec fuel e lk st :
  wf (fun y => e y + nref (refs lk) y) unlocked st -> (forall y, 0 <= e y) -> locker_ok lk st ->
  locked lk = [] -> (exists ref r, ref ∈ refs lk /\ plr ref = Some r) ->
  (forall y, Z.of_nat (size (lrs st)) + e y + 2 * zlen (refs lk) < int_max) -> (0 < fuel)%nat ->
  wp (dbScanLockMany me fuel lk st) (fun '(lk', st') =>
    wf (plus_in (fun y => e y + nref (refs lk') y) (locked lk'))
      (locked_by me (me_locker lk) unlocked (locked lk')) st' /\
    same st st' /\ NoDup (locked lk') /\ me_locker lk' = me_locker lk /\
    (forall y, y ∈ locked lk' <-> 1 <= nref (refs lk') y) /\
    refs lk' ≡ₚ map (refresh st) (refs lk)).
Proof.
  intros W He Hok El [ref [r [Hin Er]]] Hb Hf. unfold dbScanLockMany. rewrite El. simpl.
  destruct fuel as [|fuel]; [lia|]. simpl many_retry. rewrite El. simpl lk_assert. cbn [ebind].
  assert (Hlen : forall rs y, nref rs y <= zlen rs).
  { intros rs y. induction rs as [|? ? IH]; simpl; [lia|]. destruct (decide _); lia. }
  wp_use (update_refs_spec me unlocked lk e st) as [[c lk1] st1]; [done..| |done|].
  { intros y. specialize (Hb y). specialize (Hlen (refs lk) y). lia. }
  intros (W1 & S1 & Hok1 & Ei1 & El1 & Ec1 & P1).
  assert (Ec : recomp lk1 = recomputeCnt st1) by (by rewrite (same_cnt _ _ S1)).
  assert (El' : zlen (refs lk1) = zlen (refs lk)) by (by rewrite P1, length_map).
  wp_use (lock_loop_spec (refs lk1) None lk1 st1) as [lk2 st2]; [exact W1| | | | |].
  - by apply refs_lockable.
  - apply Hok1.
  - intros. right. split; [done|]. by intros.
  - intros y. pose proof (total_bound _ _ _ W1 y) as Ht. rewrite (same_lrs _ _ S1) in Ht.
    specialize (Hb y). specialize (Hlen (refs lk1) y). lia.
  - intros (D & -> & Nd & HD & W2 & S2). rewrite El1, El in *. simpl app.
    rewrite update_refs_check by (simpl; by rewrite (same_cnt _ _ S2)). cbn [ebind].
    assert (HD' : forall y, y ∈ D <-> 1 <= nref (refs lk1) y)
      by (intros y; rewrite HD, nref_pos; naive_solver).
    apply wp_require.
    { simpl. apply orb_true_iff. right. apply Z.ltb_lt. destruct D; [exfalso|simpl; lia].
      assert (Hr : refresh st ref ∈ refs lk1) by (rewrite P1; by apply list_elem_of_fmap_2).
      pose proof (refs_lockable e lk1 st1 W1 He Hok1 Ec) as Hlk.
      rewrite Forall_forall in Hlk. specialize (Hlk _ Hr). unfold lockable in Hlk.
      assert (Ep : plr (refresh st ref) = Some r) by (unfold refresh; by rewrite Er).
      rewrite Ep in Hlk. destruct Hlk as (y & Ey & _).
      eapply (not_elem_of_nil y), HD. eauto. }
    simpl. rewrite Ei1 in *. split; [done|]. split; [by etransitivity|]. done.
Qed.

Lemma unlock_many_spec i h lk st :
  wf (plus_in h (locked lk)) (locked_by me i unlocked (locked lk)) st -> me_locker lk = i ->
  NoDup (locked lk) -> (forall y, y ∈ locked lk -> is_Some (sets st !! y) /\ 0 <= h y) ->
  (forall y, total (plus_in h (locked lk)) st y < int_max) ->
  wp (dbScanUnlockMany me lk st) (fun '(lk', st') =>
    wf h unlocked st' /\ same st st' /\ lk' = with_locked lk []).
Proof.
  intros W <- Nd HD Hb. unfold dbScanUnlockMany.
  wp_use (unlock_loop_spec (me_locker lk) h unlocked (locked lk) st) as st'; [done..| |done|].
  { intros y Hy. split; [by apply HD|]. split; [done|]. by apply HD. }
  intros [W' S']. done.
Qed.
End Locking.
