(* ===== verification/DbLockSets.v ===== *)
(** * Lock sets: merging and splitting

    What [makeSet], [dbLockSetMerge] and the second half of [dbLockSetSplit] do to the sets, and that
    the breadth first search of [dbLockSetSplit] finds the records connected to its start. *)

From stdpp Require Import base gmap list sorting fin_sets relations.
From Stdlib Require Import ZArith Lia Bool.
From S2P Require Import Prelude DbLock DbLockInv DbLocker.
Open Scope Z_scope.

(** ** A new set *)

Lemma elem_of_snoc (x y : positive) l : x ∈ l ++ [y] <-> x ∈ l \/ x = y.
Proof. by rewrite elem_of_app, list_elem_of_singleton. Qed.

(** A set that no one refers to goes into use. *)
Lemma wf_reuse h L st x rest :
  wf h L st -> lockSetsFree st = x :: rest ->
  exists s, sets st !! x = Some s /\ refcount s = 0 /\
    wf (hadd h x 1) L
      (with_lists (put_set st x (with_refcount s 1)) (lockSetsActive st ++ [x]) rest).
Proof.
  intros W Ef. destruct (proj1 (wf_free _ _ _ W x)) as (s & E & E0); [rewrite Ef; by left|].
  exists s. do 2 (split; [done|]).
  pose proof (wf_nodup_free _ _ _ W) as Nf. rewrite Ef in Nf. apply NoDup_cons in Nf as [Nx Nf].
  assert (Na : x ∉ lockSetsActive st).
  { intros (t & Et & Hp)%(wf_active _ _ _ W). rewrite E in Et. injection Et as <-. lia. }
  eapply wf_ext; [eapply (wf_change h L st x s (with_refcount s 1) 1 (lock s, ownerlocker s))| |]; try done.
  - simpl. lia.
  - apply NoDup_app. split; [exact (wf_nodup_act _ _ _ W)|]. split; [|apply NoDup_singleton].
    by intros y Hy ->%list_elem_of_singleton.
  - intros y. rewrite elem_of_snoc. simpl. destruct (decide (y = x)); naive_solver.
  - intros y. rewrite Ef, elem_of_cons. simpl. destruct (decide (y = x)); naive_solver lia.
  - intros y. exact (lupd_id h L st x s y W E).
Qed.

(** A set that was allocated just now is free. *)
Lemma wf_calloc h L st x :
  wf h L st -> lockSetsFree st = [] -> sets st !! x = None ->
  wf h L (with_lists (with_next_id (put_set st x (mkSet [] None (next_id st + 1) 0 None))
    (next_id st + 1)) (lockSetsActive st) [x]).
Proof.
  intros W Ef Ex. set (s := mkSet _ _ _ _ _). set (st' := with_lists _ _ _).
  destruct (wf_out _ _ _ W x Ex) as [Eh EL]. pose proof (wf_next _ _ _ W) as En.
  assert (Ek : forall y t, sets st' !! y = Some t ->
    (y = x /\ t = s) \/ (y ≠ x /\ sets st !! y = Some t)).
  { intros y t. simpl. rewrite lookup_insert_Some. naive_solver. }
  assert (Em : forall y, members st' y = members st y).
  { intros y. change (members (put_set st x s) y = members st y). rewrite members_put.
    destruct (decide (y = x)) as [->|]; [|done]. unfold members. by rewrite Ex. }
  split; intros.
  - rewrite Em. exact (wf_lr _ _ _ W _ _ H).
  - rewrite Em in H. exact (wf_mem _ _ _ W _ _ H).
  - rewrite Em. apply (wf_nodup _ _ _ W).
  - destruct (Ek _ _ H) as [[-> ->]|[Hne Hs]]; simpl; [lia|exact (wf_ref _ _ _ W _ _ Hs)].
  - destruct (Ek _ _ H) as [[-> ->]|[Hne Hs]]; simpl; [lia|exact (wf_nonneg _ _ _ W _ _ Hs)].
  - simpl. rewrite (wf_active _ _ _ W). destruct (decide (x0 = x)) as [->|N].
    + rewrite lookup_insert_eq, Ex. split; intros (t & [= <-] & Hp). simpl in Hp. lia.
    + by rewrite lookup_insert_ne.
  - simpl. rewrite list_elem_of_singleton. destruct (decide (x0 = x)) as [->|N].
    + rewrite lookup_insert_eq. split; [intros _; by exists s|done].
    + rewrite lookup_insert_ne, <- (wf_free _ _ _ W), Ef, elem_of_nil by done. tauto.
  - exact (wf_nodup_act _ _ _ W).
  - apply NoDup_singleton.
  - destruct (Ek _ _ H) as [[-> ->]|[Hne Hs]]; simpl; [done|exact (wf_lock _ _ _ W _ _ Hs)].
  - destruct (Ek _ _ H) as [[-> ->]|[Hne Hs]]; simpl in *; [done|exact (wf_idle _ _ _ W _ _ Hs H0)].
  - destruct (Ek _ _ H) as [[-> ->]|[Hne Hs]]; simpl; [lia|].
    pose proof (wf_id _ _ _ W _ _ Hs). lia.
  - destruct (Ek _ _ H) as [[-> ->]|[? Hs]], (Ek _ _ H0) as [[-> ->]|[? Ht]]; simpl in *; try done.
    + pose proof (wf_id _ _ _ W _ _ Ht). lia.
    + pose proof (wf_id _ _ _ W _ _ Hs). lia.
    + exact (wf_id_inj _ _ _ W _ _ _ _ Hs Ht H1).
  - simpl. rewrite map_size_insert, Ex. simpl. lia.
  - simpl in H. apply lookup_insert_None in H as [H _]. exact (wf_out _ _ _ W _ H).
Qed.

(** The number of blocks that [makeSet] allocates. *)
Definition allocs st : nat := match lockSetsFree st with [] => 1 | _ => 0 end.

(** What [makeSet] leaves in [st'], with the new set [x]. *)
Record new_set (h : addr -> Z) (L : mutexes) (st : lk_state) (x : addr) (st' : lk_state) : Prop := {
  ns_wf : wf (hadd h x 1) L st';
  ns_unused : h x = 0 /\ L x = (None, None) /\ members st x = [];
  ns_dom : is_Some (sets st' !! x);
  ns_lrs : lrs st' = lrs st;
  ns_recs : recs st' = recs st;
  ns_members : forall y, members st' y = members st y;
  ns_size : size (sets st') = (size (sets st) + allocs st)%nat;
  ns_free : lockSetsFree st' = tail (lockSetsFree st)
}.

(** The set is taken from a free list, in a state [st1] that only differs from [st] in the sets that
    have no references. *)
Lemma use_set_spec h L st st1 x rest :
  wf h L st1 -> lockSetsFree st1 = x :: rest ->
  lrs st1 = lrs st -> recs st1 = recs st -> (forall y, members st1 y = members st y) ->
  size (sets st1) = (size (sets st) + allocs st)%nat -> rest = tail (lockSetsFree st) ->
  wp (use_set (with_lists st1 (lockSetsActive st1) rest) x)
    (fun '(x', st') => x' = x /\ new_set h L st x st').
Proof.
  intros W1 Ef El Er Em Es ->. destruct (wf_reuse h L st1 x _ W1 Ef) as (s & E & E0 & W2).
  destruct (wf_idle _ _ _ W1 _ _ E E0) as [EL En].
  pose proof (wf_ref _ _ _ W1 _ _ E) as Eh. rewrite E0, En in Eh. simpl in Eh.
  pose proof (wf_id _ _ _ W1 _ _ E) as Hid. pose proof (members_set st1 x s E) as Ex.
  unfold use_set.
  rewrite (add_ref_eq _ x s) by (simpl; (done || (unfold int_max; lia))). rewrite E0. simpl.
  unfold get_set. simpl. rewrite lookup_insert_eq. simpl.
  apply wp_assert; [apply Z.ltb_lt; lia|]. rewrite En. simpl.
  split; [done|]. split; simpl; try done.
  - split; [lia|]. split; [done|]. by rewrite <- Em, Ex.
  - rewrite lookup_insert_eq. eauto.
  - intros y. rewrite <- Em, members_lists, members_put.
    destruct (decide (y = x)) as [->|]; [|done]. by rewrite Ex.
  - by rewrite map_size_insert, E.
Qed.

(** ** Records that leave, join and move *)

Lemma perm_filter_ne (x : positive) (l : list positive) :
  NoDup l -> x ∈ l -> l ≡ₚ x :: filter (.≠ x) l.
Proof.
  intros Nd Hin. apply NoDup_Permutation; [done| |].
  - constructor; [by rewrite elem_of_filter_ne; intros [? _]|by apply NoDup_filter].
  - intros y. rewrite elem_of_cons, elem_of_filter_ne. destruct (decide (y = x)); naive_solver.
Qed.

(** A record without a set joins [x], where a reference waits for it. *)
Lemma wf_join h L st x s r lr :
  wf (hadd h x 1) L st -> sets st !! x = Some s -> 0 < refcount s -> lrs st !! r = None -> plockSet lr = x ->
  wf h L (put_set (with_lrs st (<[r := lr]> (lrs st))) x (with_list s (lockRecordList s ++ [r]))).
Proof.
  intros W E Hp Er Elr. pose proof (members_set st x s E) as Ms.
  assert (Nr : forall y, r ∉ members st y).
  { intros y Hy. destruct (wf_mem _ _ _ W _ _ Hy) as (lr' & E' & _). congruence. }
  apply (wf_ext (hadd (hadd h x 1) x (-1)) _ L); [eapply wf_relist; [exact W|exact E|done|..]| |done].
  - apply NoDup_app. rewrite <- Ms. split; [apply (wf_nodup _ _ _ W)|]. split; [|apply NoDup_singleton].
    intros q Hq ->%list_elem_of_singleton. by apply (Nr x).
  - rewrite length_app. simpl. lia.
  - intros q lq. rewrite lookup_insert_Some. intros [[<- <-]|[N Eq]].
    + rewrite decide_True, elem_of_snoc by done. by right.
    + pose proof (wf_lr _ _ _ W _ _ Eq) as Hq. destruct (decide (plockSet lq = x)) as [Ex|]; [|done].
      rewrite elem_of_snoc, <- Ms. left. by rewrite <- Ex.
  - intros y q. destruct (decide (y = x)) as [->|N].
    + rewrite elem_of_snoc, <- Ms. intros [Hq| ->]; [|exists lr; by rewrite lookup_insert_eq].
      destruct (wf_mem _ _ _ W _ _ Hq) as (lq & Eq & Ep). exists lq. rewrite lookup_insert_ne by congruence. done.
    + intros Hq. destruct (wf_mem _ _ _ W _ _ Hq) as (lq & Eq & Ep). exists lq.
      rewrite lookup_insert_ne by congruence. done.
  - intros y. unfold hadd. destruct (decide _); lia.
Qed.

(** A record leaves its set; the set keeps the reference for a moment. *)
Lemma wf_leave h L st r lr s l :
  wf h L st -> lrs st !! r = Some lr -> sets st !! plockSet lr = Some s -> 0 < refcount s ->
  lockRecordList s ≡ₚ r :: l ->
  wf (hadd h (plockSet lr) 1) L
    (put_set (with_lrs st (delete r (lrs st))) (plockSet lr) (with_list s l)).
Proof.
  intros W Er Es Hp P. set (x := plockSet lr) in *. pose proof (members_set st x s Es) as Ms.
  assert (Hin : forall y, r ∈ members st y -> y = x).
  { intros y Hy. destruct (wf_mem _ _ _ W _ _ Hy) as (lr' & E' & <-). unfold x. congruence. }
  assert (Nd : NoDup (r :: l)) by (rewrite <- P, <- Ms; apply (wf_nodup _ _ _ W)).
  apply NoDup_cons in Nd as [Nr Nd].
  eapply wf_relist; [exact W|exact Es|done|done| | |].
  - rewrite P. simpl length. lia.
  - intros q lq. rewrite lookup_delete_Some. intros [N Eq]. pose proof (wf_lr _ _ _ W _ _ Eq) as Hq.
    destruct (decide (plockSet lq = x)) as [Ex|]; [|done].
    rewrite Ex, Ms, P in Hq. by apply elem_of_cons in Hq as [->|?].
  - intros y q Hq. assert (Hq' : q ≠ r /\ q ∈ members st y).
    { destruct (decide (y = x)) as [->|N].
      - rewrite Ms, P. split; [by intros ->|by right].
      - split; [|done]. intros ->. by apply N, Hin. }
    destruct (wf_mem _ _ _ W _ _ (proj2 Hq')) as (lq & Eq & Ep). exists lq.
    rewrite lookup_delete_ne; [done|]. symmetry. apply Hq'.
Qed.

(** A record moves from [B] to [A]. *)
Definition move_record st (B A : addr) (sB sA : lockSet) (l : list recid) (r : recid) (lr : lockRecord)
    (f cnt : Z) : lk_state :=
  with_cnt (put_lr (put_set (put_set st B (with_list sB l)) A
    (with_list sA (lockRecordList sA ++ [r]))) r (mkLr A f)) cnt.

Lemma wf_move h L st A B sA sB r lr l f cnt :
  wf h L st -> A ≠ B -> sets st !! A = Some sA -> sets st !! B = Some sB ->
  lrs st !! r = Some lr -> plockSet lr = B -> lockRecordList sB ≡ₚ r :: l ->
  0 < refcount sA -> 0 < refcount sB ->
  wf (hadd (hadd h A (-1)) B 1) L (move_record st B A sB sA l r lr f cnt).
Proof.
  intros W NAB EA EB Er Elr P HA HB. subst B.
  pose proof (wf_leave h L st r lr sB l W Er EB HB P) as W1. set (st1 := put_set _ _ _) in W1.
  assert (EA1 : sets st1 !! A = Some sA) by (simpl; by rewrite lookup_insert_ne).
  assert (W2 : wf (hadd (hadd (hadd h A (-1)) (plockSet lr) 1) A 1) L st1).
  { eapply wf_ext; [exact W1| |done]. intros y. unfold hadd. repeat destruct (decide _); lia. }
  pose proof (wf_join _ L st1 A sA r (mkLr A f) W2 EA1 HA ltac:(simpl; by rewrite lookup_delete_eq) eq_refl) as W3.
  simpl in W3. rewrite insert_delete_eq in W3.
  destruct W3. by split.
Qed.

Lemma move_members st A B sA sB l r lr f cnt y : A ≠ B -> sets st !! A = Some sA ->
  members (move_record st B A sB sA l r lr f cnt) y =
  if decide (y = A) then members st A ++ [r] else if decide (y = B) then l else members st y.
Proof.
  intros NAB EA. change (members (put_set (put_set st B (with_list sB l)) A
    (with_list sA (lockRecordList sA ++ [r]))) y = if decide (y = A) then members st A ++ [r]
    else if decide (y = B) then l else members st y).
  rewrite !members_put. simpl. by rewrite (members_set st A sA EA).
Qed.

Section Sets.
Context (calloc : gmap addr lockSet -> addr) (me : tid).
Hypothesis calloc_fresh : forall m, m !! calloc m = None.

Lemma makeSet_spec h L st :
  wf h L st -> Z.of_nat (size (sets st)) + 2 < 2 ^ 64 ->
  wp (makeSet calloc st) (fun '(x, st') => new_set h L st x st').
Proof.
  intros W Hsz. unfold makeSet. destruct (lockSetsFree st) as [|x rest] eqn:Ef.
  - pose proof (calloc_fresh (sets st)) as Ex. set (x := calloc (sets st)) in *.
    pose proof (wf_next _ _ _ W) as Hnx. rewrite wrap_u_id by (unfold fits_u; lia).
    pose proof (wf_calloc h L st x W Ef Ex) as W1. set (st1 := with_lists _ _ _) in W1.
    match goal with |- wp (use_set ?s x) _ =>
      replace s with (with_lists st1 (lockSetsActive st1) [])
        by (unfold st1, with_next_id, with_lists; simpl; by rewrite Ef)
    end.
    eapply wp_mono; [eapply (use_set_spec h L st st1 x [] W1)|by intros [? ?] [-> ?]]; try done.
    + intros y. subst st1. rewrite members_lists. change (members (put_set st x
        (mkSet [] None (next_id st + 1) 0 None)) y = members st y).
      rewrite members_put. destruct (decide (y = x)) as [->|]; [|done]. unfold members. by rewrite Ex.
    + simpl. rewrite map_size_insert, Ex. unfold allocs. rewrite Ef. lia.
    + by rewrite Ef.
  - eapply wp_mono; [eapply (use_set_spec h L st st x rest W Ef)|by intros [? ?] [-> ?]]; try done.
    + unfold allocs. rewrite Ef. lia.
    + by rewrite Ef.
Qed.

(** ** Merging *)

(** The records in [l] belong to [A] now, with the flags [f] leaves them. *)
Record moved (st st' : lk_state) (A : addr) (l : list recid) (f : Z -> Z) : Prop := {
  mv_lrs : forall q, lrs st' !! q =
    if decide (q ∈ l) then (fun lr => mkLr A (f (compflag lr))) <$> lrs st !! q else lrs st !! q;
  mv_recs : recs st' = recs st;
  mv_dom : forall x, is_Some (sets st' !! x) <-> is_Some (sets st !! x);
  mv_size : size (sets st') = size (sets st)
}.

Lemma moved_nil st A f : moved st st A [] f.
Proof. clear. split; try done. Qed.

(** One step of a loop that moves records. *)
Lemma moved_cons st st' A B sB sA l' r lr f cnt rest :
  lrs st !! r = Some lr -> r ∉ rest -> is_Some (sets st !! A) -> is_Some (sets st !! B) -> A ≠ B ->
  moved (move_record st B A sB sA l' r lr (f (compflag lr)) cnt) st' A rest f ->
  moved st st' A (r :: rest) f.
Proof.
  clear. intros Er Nr [xA EA] [xB EB] NAB [H1 H2 H3 H4]. split.
  - intros q. rewrite H1. simpl. destruct (decide (q = r)) as [->|Nq].
    + rewrite decide_False, decide_True, lookup_insert_eq, Er by (done || by left). done.
    + rewrite lookup_insert_ne by done. destruct (decide (q ∈ rest)), (decide (q ∈ r :: rest)); set_solver.
  - by rewrite H2.
  - intros x. rewrite H3. simpl. rewrite !lookup_insert_is_Some'. naive_solver.
  - rewrite H4. simpl. rewrite !map_size_insert, lookup_insert_ne, EA, EB by done. done.
Qed.

Definition shift_refs (h : addr -> Z) (B A : addr) (n : Z) : addr -> Z := hadd (hadd h A (- n)) B n.

Lemma shift_cons h B A n y : shift_refs (hadd (hadd h A (-1)) B 1) B A n y = shift_refs h B A (n + 1) y.
Proof. clear. unfold shift_refs, hadd. repeat destruct (decide _); lia. Qed.
Lemma shift_0 h B A y : shift_refs h B A 0 y = h y.
Proof. clear. unfold shift_refs, hadd. repeat destruct (decide _); lia. Qed.

Lemma merge_loop_spec A B L : A ≠ B -> forall l h st sA sB,
  wf h L st -> sets st !! A = Some sA -> 0 < refcount sA ->
  sets st !! B = Some sB -> 0 < refcount sB -> lockRecordList sB = l ->
  wp (merge_records A B l st) (fun st' => exists sA' sB',
    wf (shift_refs h B A (zlen l)) L st' /\ moved st st' A l (fun c => c) /\
    sets st' !! A = Some sA' /\ refcount sA' = refcount sA /\ lockRecordList sA' = lockRecordList sA ++ l /\
    sets st' !! B = Some sB' /\ refcount sB' = refcount sB /\ lockRecordList sB' = []).
Proof.
  clear. intros NAB. induction l as [|r l IH]; intros h st sA sB W EA HA EB HB El; simpl merge_records.
  { simpl. exists sA, sB. rewrite app_nil_r. split; [|split; [apply moved_nil|done]].
    eapply wf_ext; [exact W| |done]. intros y. apply shift_0. }
  assert (Hr : r ∈ members st B) by (rewrite (members_set st B sB EB), El; by left).
  destruct (wf_mem _ _ _ W _ _ Hr) as (lr & Er & Elr).
  pose proof (wf_nodup _ _ _ W B) as Nd. rewrite (members_set st B sB EB), El in Nd.
  apply NoDup_cons in Nd as [Nr Nd].
  unfold get_set, get_lr. rewrite EB. cbn [the ebind]. simpl lrs. rewrite Er. cbn [the ebind].
  rewrite bool_decide_true by done. cbn [lk_assert ebind]. simpl sets.
  rewrite lookup_insert_ne, EA by done. cbn [the ebind].
  pose proof (wf_move h L st A B sA sB r lr l (compflag lr) (wrap_u 64 (recomputeCnt st + 1))
    W NAB EA EB Er Elr ltac:(by rewrite El) HA HB) as W1.
  change (with_cnt _ _) with (move_record st B A sB sA l r lr (compflag lr) (wrap_u 64 (recomputeCnt st + 1))).
  set (st1 := move_record _ _ _ _ _ _ _ _ _ _) in *.
  eapply wp_mono; [apply (IH _ st1 (with_list sA (lockRecordList sA ++ [r])) (with_list sB l) W1)|].
  1-5: try done.
  - simpl. by rewrite lookup_insert_eq.
  - simpl. rewrite lookup_insert_ne, lookup_insert_eq by done. done.
  - intros st' (sA' & sB' & W' & M & EA' & RA & LA & EB' & RB & LB). exists sA', sB'.
    split; [eapply wf_ext; [exact W'| |done]|split; [|simpl in *; rewrite <- app_assoc in LA; done]].
    + intros y. rewrite shift_cons. f_equal. simpl length. lia.
    + eapply (moved_cons st st' A B sB sA l r lr (fun c => c)); eauto.
Qed.

(** The locker after the merge. *)
Definition merge_locker (B : addr) (lk : dbLocker) : dbLocker :=
  with_locked lk (filter (.≠ B) (locked lk)).

(** What a merge of [B] into [A] leaves; [n] references to [B] are gone, for the list [locked]. *)
Record merged (h : addr -> Z) (L : mutexes) st st' (A B : addr) (n : Z) : Prop := {
  mg_wf : wf (hadd h B (- n)) (if n =? 0 then L else lupd L B (None, None)) st';
  mg_recs : recs st' = recs st;
  mg_lrs : forall q, lrs st' !! q =
    (fun lr => if decide (plockSet lr = B) then mkLr A (compflag lr) else lr) <$> lrs st !! q;
  mg_size : size (sets st') = size (sets st);
  mg_dom : forall x, is_Some (sets st' !! x) <-> is_Some (sets st !! x)
}.

Section Merge.
Context (h : addr -> Z) (L : mutexes) (st : lk_state) (W : wf h L st).
Context (r1 r2 : recid) (lr1 lr2 : lockRecord).
Hypothesis (E1 : lrs st !! r1 = Some lr1) (E2 : lrs st !! r2 = Some lr2).
Hypothesis (Hh : forall y, 0 <= h y).
Hypothesis (Hb : forall y, Z.of_nat (size (lrs st)) + h y + 2 < int_max).
Let A := plockSet lr1.
Let B := plockSet lr2.

Lemma merge_live r lr : lrs st !! r = Some lr ->
  exists s, sets st !! plockSet lr = Some s /\ r ∈ lockRecordList s /\ 0 < refcount s.
Proof using Hh W.
  intros E. destruct (lr_set h L st W r lr E) as (s & Es & Hr). exists s. do 2 (split; [done|]).
  pose proof (lr_live h L st W r lr E (Hh _)) as Hl.
  destruct (live_set _ _ _ W _ Hl) as (s' & Es' & Hp). congruence.
Qed.

(** Both sets after the counters have been corrected. *)
Lemma merge_counts st1 sA1 sB1 Nb :
  A ≠ B -> wf (shift_refs h B A Nb) L st1 -> size (lrs st1) = size (lrs st) -> 0 < Nb ->
  sets st1 !! A = Some sA1 -> 0 < refcount sA1 ->
  sets st1 !! B = Some sB1 -> refcount sB1 = Nb + h B -> lockRecordList sB1 = [] ->
  wp (move_refs st1 A B Nb) (fun st3 => wf (hadd h B 1) L st3 /\ same st1 st3).
Proof using Hb Hh.
  intros NAB W1 Esz HN EA RA EB RB LB. pose proof (Hh B) as HhB.
  pose proof (set_live _ _ _ W1 A sA1 EA RA) as HlA.
  assert (HlB : live (shift_refs h B A Nb) st1 B) by (eapply set_live; eauto; lia).
  pose proof (total_bound _ _ _ W1 A) as TA. pose proof (total_bound _ _ _ W1 B) as TB.
  rewrite Esz in TA, TB. unfold shift_refs in TA at 2, TB at 2. rewrite hadd_ne, hadd_eq in TA by done.
  pose proof (total_refcount _ _ _ W1 _ _ EB) as EtB. rewrite RB in EtB.
  wp_use (add_ref_spec _ L st1 A Nb W1 HlA) as [c2 st2].
  { destruct HlA. pose proof (Hb A). lia. }
  intros (_ & W2 & S2).
  wp_use (add_ref_spec _ L st2 B (- Nb + 1) W2) as [c3 st3].
  - split; [by apply (same_dom _ _ S2)|].
    rewrite total_hadd, decide_False, (same_total _ _ _ _ S2) by done. lia.
  - rewrite total_hadd, decide_False, (same_total _ _ _ _ S2) by done. pose proof (Hb B). lia.
  - intros (_ & W3 & S3). simpl. split; [|by etransitivity].
    eapply wf_ext; [exact W3| |done]. intros y. unfold shift_refs, hadd. repeat destruct (decide _); lia.
Qed.

Lemma moved_lrs_size st1 l f : moved st st1 A l f -> size (lrs st1) = size (lrs st).
Proof using Type.
  intros M. rewrite <- !size_dom. f_equal. apply set_eq. intros q. rewrite !elem_of_dom.
  rewrite (mv_lrs _ _ _ _ _ M). destruct (decide _); [|done]. by rewrite fmap_is_Some.
Qed.

(** The map of the lock records, from the lists. *)
Lemma moved_lrs st1 q : moved st st1 A (members st B) (fun c => c) ->
  lrs st1 !! q = (fun lr => if decide (plockSet lr = B) then mkLr A (compflag lr) else lr) <$> lrs st !! q.
Proof using W.
  intros M. rewrite (mv_lrs _ _ _ _ _ M). destruct (lrs st !! q) as [lr|] eqn:E; simpl.
  - destruct (decide (q ∈ members st B)) as [Hq|Nq].
    + destruct (wf_mem _ _ _ W _ _ Hq) as (lr' & E' & EB). rewrite decide_True by congruence. done.
    + rewrite decide_False; [done|]. intros EB. apply Nq. rewrite <- EB. by eapply wf_lr.
  - by destruct (decide _).
Qed.

(** The end of the merge, when the locker lets go of [B]. *)
Lemma merge_release i lk st3 :
  wf (hadd h B 1) L st3 -> is_Some (sets st3 !! B) -> members st3 B = [] ->
  L B = (Some (me, 1%nat), Some i) -> me_locker lk = i -> B ∈ locked lk -> 1 <= h B ->
  total h st3 B + 2 < int_max ->
  wp (drop_locked me lk st3 B) (fun '(lk', st4) => lk' = merge_locker B lk /\
      wf h (lupd L B (None, None)) st4 /\ same st3 st4).
Proof.
  intros W3 [sB EB] EM EL Ei Hin HhB Hbd. unfold drop_locked, get_set. rewrite EB. cbn [the ebind].
  pose proof (wf_lock _ _ _ W3 _ _ EB) as El. rewrite EL in El. injection El as El Eo.
  rewrite Eo, bool_decide_true by congruence. cbn [lk_assert ebind].
  unfold list_delete. rewrite decide_True by done. cbn [ebind].
  pose proof (wf_ref _ _ _ W3 _ _ EB) as Er. rewrite hadd_eq, <- (members_set st3 B sB EB), EM in Er.
  simpl in Er. set (st3' := put_set st3 B _).
  assert (W3' : wf (hadd h B 1) (lupd L B (Some (me, 1%nat), None)) st3').
  { eapply wf_put_lock; [exact W3|exact EB|lia|done..|]. simpl. by rewrite El. }
  assert (S3 : same st3 st3') by (by eapply put_set_same).
  assert (Hl : live (hadd h B 1) st3' B).
  { eapply same_live; [done|]. eapply set_live; eauto. lia. }
  assert (Ht : total (hadd h B 1) st3' B = h B + 1).
  { rewrite (same_total _ _ _ _ S3). unfold total. rewrite EM, hadd_eq. simpl. lia. }
  wp_use (add_ref_spec _ _ st3' B (-1) W3' Hl) as [c st4].
  { rewrite Ht. unfold total in Hbd. rewrite EM in Hbd. simpl in Hbd. lia. }
  intros (_ & W4 & S4). wp_use (unlock_spec _ _ st4 B me None W4) as st5.
  - split; [apply (same_dom _ _ S4), Hl|].
    rewrite total_hadd, decide_True, (same_total _ _ _ _ S4), Ht by done. lia.
  - rewrite lupd_eq. simpl. by rewrite decide_True.
  - rewrite lupd_eq. intros [W5 S5]. simpl. split; [done|]. split.
    + eapply wf_ext; [exact W5| |].
      * intros y. unfold hadd. repeat destruct (decide _); lia.
      * intros y. unfold lupd. by destruct (decide _).
    + etransitivity; [done|]. by etransitivity.
Qed.

(** The result of the merge is consistent if its end is. *)
Lemma merged_intro st1 st4 n :
  moved st st1 A (members st B) (fun c => c) -> same st1 st4 ->
  wf (hadd h B (- n)) (if n =? 0 then L else lupd L B (None, None)) st4 -> merged h L st st4 A B n.
Proof using W.
  intros M S W4. split; [done| | | |].
  - by rewrite (same_recs _ _ S), (mv_recs _ _ _ _ _ M).
  - intros q. rewrite (same_lrs _ _ S). by apply moved_lrs.
  - by rewrite (same_size _ _ S), (mv_size _ _ _ _ _ M).
  - intros x. rewrite (same_dom _ _ S). apply (mv_dom _ _ _ _ _ M).
Qed.

(** The common part, up to the last reference to [B]. *)
Lemma merge_spec (locker : option dbLocker) :
  let n := if locker then 1 else 0 in
  (forall lk, locker = Some lk -> B ∈ locked lk /\ 1 <= h B /\
     L B = (Some (me, 1%nat), Some (me_locker lk)) /\ snd (L A) = Some (me_locker lk)) ->
  (locker = None -> L B = (None, None)) ->
  wp (dbLockSetMerge me locker st r1 r2) (fun '(locker', st') =>
    if decide (A = B) then locker' = locker /\ st' = st
    else locker' = merge_locker B <$> locker /\ merged h L st st' A B n).
Proof.
  intros n Hsome Hnone. unfold dbLockSetMerge, get_lr. rewrite E1, E2. cbn [the ebind].
  fold A B. destruct (merge_live r1 lr1 E1) as (sA & EA & _ & RA). fold A in EA.
  destruct (merge_live r2 lr2 E2) as (sB & EB & Hr2 & RB). fold B in EB, Hr2.
  unfold get_set at 1 2. rewrite EA, EB. cbn [the ebind].
  apply wp_require.
  { destruct locker as [lk|]; [|done]. destruct (Hsome lk eq_refl) as (_ & _ & HB & HA).
    pose proof (wf_lock _ _ _ W _ _ EA) as LA. pose proof (wf_lock _ _ _ W _ _ EB) as LB.
    rewrite <- LA in HA. rewrite HB in LB. injection LB as _ LB. simpl in *.
    by rewrite HA, LB, !bool_decide_true. }
  destruct (decide (A = B)) as [EAB|NAB]; [done|].
  assert (HN : 0 < zlen (lockRecordList sB)).
  { destruct (lockRecordList sB); [by apply not_elem_of_nil in Hr2|]. simpl. lia. }
  apply wp_assert; [by apply Z.ltb_lt|].
  wp_use (merge_loop_spec A B L NAB (lockRecordList sB) h st sA sB) as st1; [done..|].
  intros (sA1 & sB1 & W1 & M & EA1 & RA1 & LA1 & EB1 & RB1 & LB1).
  rewrite <- (members_set st B sB EB) in M. pose proof (wf_ref _ _ _ W _ _ EB) as ErB.
  unfold get_set at 1. rewrite EB1. cbn [the ebind]. rewrite RB1.
  apply wp_assert.
  { apply Z.leb_le. destruct locker as [lk|]; [|specialize (Hh B); lia].
    destruct (Hsome lk eq_refl) as (_ & ? & _). lia. }
  wp_use (merge_counts st1 sA1 sB1) as st3;
    [done|exact W1|by eapply moved_lrs_size|done|done|lia|done|lia|done|].
  intros [W3 S3].
  assert (D3 : is_Some (sets st3 !! B)) by (apply (same_dom _ _ S3); eauto).
  assert (M3 : members st3 B = []) by (by rewrite (same_members _ _ S3), (members_set st1 B sB1 EB1)).
  pose proof (Hh B) as HhB. pose proof (Hb B) as HbB.
  assert (End : forall lko st4 st5, merged h L st st5 A B n -> lko = merge_locker B <$> locker ->
    same st4 st5 ->
    wp (let* lr2 := get_lr st5 r2 in
        let* _ := lk_assert (bool_decide (A = plockSet lr2)) in inr (lko, st5))
      (fun '(locker', st') => locker' = merge_locker B <$> locker /\ merged h L st st' A B n)).
  { intros lko st4 st5 M5 -> S5. unfold get_lr. rewrite (mg_lrs _ _ _ _ _ _ _ M5), E2. simpl.
    fold B. rewrite decide_True by done. simpl. by rewrite bool_decide_true. }
  destruct locker as [lk|].
  - destruct (Hsome lk eq_refl) as (Hin & HhB1 & HB & _). apply wp_bind.
    wp_use (merge_release (me_locker lk) lk st3 W3 D3 M3 HB eq_refl Hin HhB1) as [lk4 st4].
    { unfold total. rewrite M3. simpl. lia. }
    intros (-> & W4 & S4). simpl.
    wp_use (decref_spec h _ st4 B me W4) as st5; [by apply (same_dom _ _ S4)|done| | |].
    + unfold total. rewrite (same_members _ _ S4), M3. simpl. lia.
    + intros _. by rewrite lupd_eq.
    + intros [W5 S5]. eapply (End _ st4); [|done|done].
      eapply merged_intro; [done| |done]. etransitivity; [done|]. by etransitivity.
  - simpl. wp_use (decref_spec _ _ st3 B me W3 D3) as st5.
    + rewrite hadd_eq. lia.
    + unfold total. rewrite M3, hadd_eq. simpl. lia.
    + intros _. by apply Hnone.
    + intros [W5 S5]. eapply (End _ st3); [|done|done].
      eapply merged_intro; [done|by etransitivity|].
      eapply wf_ext; [exact W5| |done]. intros y. unfold hadd, n. repeat destruct (decide _); lia.
Qed.
End Merge.

(** ** Splitting *)

Lemma split_loop_spec ls S L : S ≠ ls -> forall l h st sA sB,
  wf h L st -> sets st !! S = Some sA -> 0 < refcount sA ->
  sets st !! ls = Some sB -> 0 < refcount sB ->
  NoDup l -> (forall r, r ∈ l -> r ∈ members st ls) ->
  wp (split_loop ls S l st) (fun st' => exists sA' sB',
    wf (shift_refs h ls S (zlen l)) L st' /\ moved st st' S l (fun _ => 0) /\
    sets st' !! S = Some sA' /\ refcount sA' = refcount sA /\ lockRecordList sA' = lockRecordList sA ++ l /\
    sets st' !! ls = Some sB' /\ refcount sB' = refcount sB).
Proof.
  clear. intros NS. induction l as [|r l IH]; intros h st sA sB W EA HA EB HB Nd Hl; simpl split_loop.
  { simpl. exists sA, sB. rewrite app_nil_r. split; [|split; [apply moved_nil|done]].
    eapply wf_ext; [exact W| |done]. intros y. apply shift_0. }
  assert (Hr : r ∈ members st ls) by (apply Hl; by left).
  destruct (wf_mem _ _ _ W _ _ Hr) as (lr & Er & Elr).
  apply NoDup_cons in Nd as [Nr Nd].
  unfold get_set, get_lr. rewrite Er. cbn [the ebind]. rewrite bool_decide_true by done.
  cbn [lk_assert ebind]. rewrite EB. cbn [the ebind].
  pose proof (members_set st ls sB EB) as MB. unfold list_delete. rewrite MB in Hr.
  rewrite decide_True by done. cbn [ebind]. simpl sets.
  rewrite lookup_insert_ne, EA by done. cbn [the ebind].
  assert (P : lockRecordList sB ≡ₚ r :: filter (.≠ r) (lockRecordList sB)).
  { apply perm_filter_ne; [|done]. rewrite <- MB. apply (wf_nodup _ _ _ W). }
  pose proof (wf_move h L st S ls sA sB r lr _ 0 (wrap_u 64 (recomputeCnt st + 1))
    W NS EA EB Er Elr P HA HB) as W1.
  change (with_cnt _ _) with (move_record st ls S sB sA (filter (.≠ r) (lockRecordList sB)) r lr 0
    (wrap_u 64 (recomputeCnt st + 1))).
  set (st1 := move_record _ _ _ _ _ _ _ _ _ _) in *.
  eapply wp_mono; [apply (IH _ st1 (with_list sA (lockRecordList sA ++ [r]))
    (with_list sB (filter (.≠ r) (lockRecordList sB))) W1)|]; try done.
  - simpl. by rewrite lookup_insert_eq.
  - simpl. rewrite lookup_insert_ne, lookup_insert_eq by done. done.
  - intros q Hq. assert (Hq' : q ∈ members st ls) by (apply Hl; by right). unfold st1.
    rewrite (move_members st S ls sA sB _ r lr 0 _ ls NS EA), decide_False, decide_True by done.
    rewrite elem_of_filter_ne, <- MB. split; [by intros ->|done].
  - intros st' (sA' & sB' & W' & M & EA' & RA & LA & EB' & RB). exists sA', sB'.
    split; [eapply wf_ext; [exact W'| |done]|split; [|simpl in *; rewrite <- app_assoc in LA; done]].
    + intros y. rewrite shift_cons. f_equal. simpl length. lia.
    + eapply (moved_cons st st' S ls sB sA _ r lr (fun _ => 0)); eauto.
Qed.

Section Split.
Context (h : addr -> Z) (L : mutexes) (st : lk_state) (W : wf h L st).
Hypothesis (Hh : forall y, 0 <= h y).
Hypothesis (Hb : forall y, Z.of_nat (size (lrs st)) + h y + 2 < int_max).
Hypothesis (Hsz : Z.of_nat (size (sets st)) + 2 < 2 ^ 64).

(** The mutexes and counts with a new set [x] locked by [i]. *)
Lemma locked_set_spec lk :
  wp (locked_set calloc me lk st) (fun '(x, lk', st') =>
    lk' = with_locked lk (locked lk ++ [x]) /\ h x = 0 /\ L x = (None, None) /\ members st x = [] /\
    wf (hadd h x 1) (lupd L x (Some (me, 1%nat), Some (me_locker lk))) st' /\
    (exists s, sets st' !! x = Some s /\ refcount s = 1 /\ lockRecordList s = []) /\
    lrs st' = lrs st /\ recs st' = recs st /\ (forall y, members st' y = members st y) /\
    size (sets st') = (size (sets st) + allocs st)%nat).
Proof using Hsz W calloc_fresh.
  unfold locked_set. wp_use (makeSet_spec h L st W Hsz) as [x st1].
  intros [W1 (Eh & EL & EM) [s1 Es1] E1 E2 E3 E4 _].
  pose proof (wf_ref _ _ _ W1 _ _ Es1) as Er. rewrite hadd_eq, <- (members_set st1 x s1 Es1), E3, EM in Er.
  simpl in Er. assert (Hl : live (hadd h x 1) st1 x) by (eapply set_live; eauto; lia).
  wp_use (lock_spec _ _ st1 x me (Some (me, 1%nat)) W1 Hl) as st2; [by rewrite EL|].
  rewrite EL. intros [W2 S2]. destruct (proj2 (same_dom _ _ S2 x)) as [s2 Es2]; [eauto|].
  pose proof (wf_lock _ _ _ W2 _ _ Es2) as El. rewrite lupd_eq in El. injection El as El Eo.
  pose proof (wf_ref _ _ _ W2 _ _ Es2) as Er2.
  assert (El2 : lockRecordList s2 = []) by (by rewrite <- (members_set st2 x s2 Es2), (same_members _ _ S2), E3).
  rewrite hadd_eq, El2 in Er2. simpl in Er2.
  unfold get_set. rewrite Es2. cbn [the ebind]. rewrite Eo. cbn [lk_assert ebind].
  apply wp_assert; [apply Z.eqb_eq; lia|]. simpl.
  assert (S3 : same st2 (put_set st2 x (with_owner s2 (Some (me_locker lk))))) by (by eapply put_set_same).
  do 4 (split; [done|]). split; [|split; [|split; [|split; [|split]]]].
  - eapply wf_ext; [eapply (wf_put_lock _ _ _ x s2 (with_owner s2 (Some (me_locker lk)))); [exact W2|done|lia|done..]| |].
    + done.
    + intros y. simpl. rewrite El. unfold lupd. by destruct (decide _).
  - exists (with_owner s2 (Some (me_locker lk))). rewrite lookup_insert_eq. simpl. split; [done|]. split; [lia|done].
  - by rewrite (same_lrs _ _ S2).
  - by rewrite (same_recs _ _ S2).
  - intros y. by rewrite (same_members _ _ S3), (same_members _ _ S2), E3.
  - by rewrite map_size_insert, Es2, <- E4, <- (same_size _ _ S2).
Qed.

Lemma split_refs_spec h1 L1 st1 ls x sA sB :
  let n := zlen (lockRecordList sA) in
  x ≠ ls -> wf (shift_refs h1 ls x n) L1 st1 -> sets st1 !! x = Some sA -> refcount sA = 1 ->
  sets st1 !! ls = Some sB -> 0 <= n -> 0 < refcount sB - n -> refcount sB < int_max -> n + 1 < int_max ->
  wp (split_refs st1 ls x) (fun st' => wf h1 L1 st' /\ same st1 st').
Proof.
  intros n Nx W1 EA RA EB Hn HB HBb Hnb. unfold split_refs. unfold get_set at 1. rewrite EA. cbn [the ebind].
  fold n. assert (HlA : live (shift_refs h1 ls x n) st1 x) by (eapply set_live; eauto; lia).
  assert (HlB : live (shift_refs h1 ls x n) st1 ls) by (eapply set_live; eauto; lia).
  pose proof (total_refcount _ _ _ W1 _ _ EA) as TA. pose proof (total_refcount _ _ _ W1 _ _ EB) as TB.
  wp_use (add_ref_spec _ _ st1 ls (- n) W1 HlB) as [c2 st2]; [lia|]. intros (-> & W2 & S2).
  assert (T2 : forall y, total (hadd (shift_refs h1 ls x n) ls (- n)) st2 y =
    (if decide (y = ls) then refcount sB - n else total (shift_refs h1 ls x n) st1 y)).
  { intros y. rewrite total_hadd, (same_total _ _ _ _ S2). destruct (decide (y = ls)) as [->|]; lia. }
  destruct (get_live _ _ _ W2 ls) as (s2 & -> & R2).
  { split; [apply (same_dom _ _ S2); eauto|]. rewrite T2, decide_True by done. lia. }
  cbn [ebind]. rewrite T2, decide_True in R2 by done. apply wp_assert; [apply Z.ltb_lt; lia|].
  wp_use (add_ref_spec _ _ st2 x n W2) as [c3 st3].
  - split; [apply (same_dom _ _ S2); eauto|]. rewrite T2, decide_False by done. lia.
  - rewrite T2, decide_False by done. lia.
  - intros (-> & W3 & S3). destruct (get_live _ _ _ W3 x) as (s3 & -> & R3).
    { split; [apply (same_dom _ _ S3), (same_dom _ _ S2); eauto|].
      rewrite total_hadd, decide_True, (same_total _ _ _ _ S3), T2, decide_False by done. lia. }
    rewrite total_hadd, decide_True, (same_total _ _ _ _ S3), T2, decide_False in R3 by done.
    cbn [ebind]. apply wp_assert; [apply Z.leb_le; lia|]. simpl. split; [|by etransitivity].
    eapply wf_ext; [exact W3| |done]. intros y. unfold shift_refs, hadd. repeat destruct (decide _); lia.
Qed.

(** What the split leaves: the records [newLS] in a new set [x] that [lk'] holds. *)
Record split_done (lk : dbLocker) (newLS : list recid) (x : addr) (lk' : dbLocker) st' : Prop := {
  sd_locker : lk' = with_locked lk (locked lk ++ [x]);
  sd_unused : h x = 0 /\ L x = (None, None) /\ members st x = [];
  sd_wf : wf (hadd h x 1) (lupd L x (Some (me, 1%nat), Some (me_locker lk))) st';
  sd_lrs : forall q, lrs st' !! q =
    if decide (q ∈ newLS) then (fun lr => mkLr x 0) <$> lrs st !! q else lrs st !! q;
  sd_recs : recs st' = recs st;
  sd_dom : is_Some (sets st' !! x);
  sd_size : size (sets st') = (size (sets st) + allocs st)%nat
}.

Lemma member_set st1 y r : r ∈ members st1 y -> exists s, sets st1 !! y = Some s.
Proof using Type. unfold members. destruct (sets st1 !! y); [eauto|by intros ?%not_elem_of_nil]. Qed.

Lemma split_off_spec lk r2 lr2 newLS :
  let ls := plockSet lr2 in
  lrs st !! r2 = Some lr2 -> NoDup newLS -> r2 ∈ newLS -> (forall r, r ∈ newLS -> r ∈ members st ls) ->
  zlen newLS < zlen (members st ls) -> 1 <= h ls ->
  wp (split_off calloc me lk st r2 ls newLS) (fun '(lk', st') => exists x, split_done lk newLS x lk' st').
Proof using Hb Hsz W calloc_fresh.
  intros ls E2 Nd Hin Hl Hlen Hhl. unfold split_off.
  assert (Hm : r2 ∈ members st ls) by (by eapply wf_lr).
  destruct (member_set st ls r2 Hm) as [s Es]. pose proof (members_set st ls s Es) as MS.
  pose proof (wf_ref _ _ _ W _ _ Es) as Er. rewrite <- MS in Er.
  unfold get_set at 1. rewrite Es. cbn [the ebind]. rewrite <- MS.
  assert (H0 : 0 < zlen newLS) by (destruct newLS; [by apply not_elem_of_nil in Hin|simpl; lia]).
  do 3 (apply wp_assert; [apply Z.ltb_lt; lia|]).
  wp_use (locked_set_spec lk) as [[x lk1] st1].
  intros (-> & Ehx & ELx & EMx & W1 & (sx & Esx & Rx & Lx) & El1 & Er1 & Em1 & Esz).
  assert (Nx : x ≠ ls) by (intros ->; rewrite EMx in Hm; by apply not_elem_of_nil in Hm).
  destruct (member_set st1 ls r2) as [s1 Es1]; [by rewrite Em1|].
  pose proof (wf_ref _ _ _ W1 _ _ Es1) as Er1'.
  rewrite hadd_ne, <- (members_set st1 ls s1 Es1), Em1 in Er1' by done.
  wp_use (split_loop_spec ls x _ Nx newLS _ st1 sx s1 W1 Esx ltac:(lia) Es1 ltac:(lia) Nd) as st2.
  { intros r Hr. rewrite Em1. by apply Hl. }
  intros (sx2 & s2 & W2 & M & Esx2 & Rx2 & Lx2 & Es2 & Rs2). rewrite Lx in Lx2. simpl in Lx2.
  pose proof (total_bound _ _ _ W ls) as Tb. unfold total in Tb. pose proof (Hb ls).
  wp_use (split_refs_spec _ _ st2 ls x sx2 s2 Nx) as st3.
  { rewrite Lx2. exact W2. }
  1-7: rewrite ?Lx2; (done || lia).
  intros (W3 & S3).
  pose proof (mv_lrs _ _ _ _ _ M) as Ml. rewrite El1 in Ml.
  unfold get_lr. rewrite (same_lrs _ _ S3), Ml, decide_True, E2 by done. cbn [fmap option_fmap option_map the ebind].
  rewrite bool_decide_true by done. cbn [lk_assert ebind].
  pose proof (wf_ref _ _ _ W2 _ _ Es2) as Er2. unfold shift_refs in Er2.
  rewrite hadd_eq, !hadd_ne in Er2 by done.
  assert (T3 : total (hadd h x 1) st3 ls = zlen (lockRecordList s2) + h ls)
    by (unfold total; by rewrite (same_members _ _ S3), (members_set st2 ls s2 Es2), hadd_ne).
  destruct (get_live _ _ _ W3 ls) as (s3 & -> & R3).
  { split; [apply (same_dom _ _ S3); eauto|lia]. }
  cbn [ebind]. apply wp_assert; [apply Z.leb_le; lia|]. simpl. exists x. split; try done.
  - by rewrite (same_lrs _ _ S3).
  - by rewrite (same_recs _ _ S3), (mv_recs _ _ _ _ _ M).
  - apply (same_dom _ _ S3). eauto.
  - by rewrite (same_size _ _ S3), (mv_size _ _ _ _ _ M).
Qed.
End Split.
End Sets.
