(* ===== verification/DbLockGraph.v ===== *)
(** * Lock sets: the graph of links

    The database links between records, and the breadth first search of [dbLockSetSplit]: it finds
    the records connected to its start, unless it meets the other record first. *)

From stdpp Require Import base gmap list sorting fin_sets relations.
From Stdlib Require Import ZArith Lia Bool.
From S2P Require Import Prelude DbLock DbLockInv DbLocker DbLockSets.
Open Scope Z_scope.

(** ** Links *)

Definition link_of st (l : linkid) : option link := recs st !! fst l ≫= fun rc => links rc !! snd l.
Definition bklnk_of st (t : recid) : option (list linkid) := bklnk <$> recs st !! t.

(** [l] is a database link to [t]. *)
Definition db_link st (l : linkid) (t : recid) : Prop :=
  exists p, link_of st l = Some p /\ ltype p = DB_LINK /\ pvt p = Some t.

Definition edge st (r t : recid) : Prop := exists i, db_link st (r, i) t.

(** Records that are connected by links, in whatever direction. *)
Definition conn st : relation recid := rtsc (edge st).

Record graph_ok st : Prop := {
  g_dom : forall r, is_Some (recs st !! r) <-> is_Some (lrs st !! r);
  g_target : forall l p, link_of st l = Some p -> ltype p = DB_LINK ->
    exists t, pvt p = Some t /\ is_Some (recs st !! t);
  g_back : forall t b l, bklnk_of st t = Some b -> (l ∈ b <-> db_link st l t);
  g_nodup : forall t b, bklnk_of st t = Some b -> NoDup b
}.

Lemma link_of_rec st l p : link_of st l = Some p -> is_Some (recs st !! fst l).
Proof. unfold link_of. destruct (recs st !! fst l); [eauto|done]. Qed.

Lemma edge_dom st r t : graph_ok st -> edge st r t -> is_Some (recs st !! r) /\ is_Some (recs st !! t).
Proof.
  intros G (i & p & E1 & E2 & E3). split; [exact (link_of_rec _ _ _ E1)|].
  destruct (g_target _ G _ p E1 E2) as (t' & E5 & H). congruence.
Qed.

Lemma conn_dom st r t : graph_ok st -> conn st r t -> is_Some (recs st !! r) -> is_Some (recs st !! t).
Proof.
  intros G H. induction H as [|x y z [H|H] _ IH]; intros Hx; [done| |]; apply IH;
    by apply (edge_dom st _ _ G) in H as [? ?].
Qed.

Definition flags0 st : Prop := forall r lr, lrs st !! r = Some lr -> compflag lr = 0.

(** A state with the same links. *)
Lemma db_link_recs st st' l t : recs st' = recs st -> db_link st' l t <-> db_link st l t.
Proof. intros E. unfold db_link, link_of. by rewrite E. Qed.
Lemma conn_recs st st' r t : recs st' = recs st -> conn st' r t <-> conn st r t.
Proof.
  intros E. assert (Ee : forall st st' x y, recs st' = recs st -> edge st x y -> edge st' x y).
  { intros s s' x y E' [i H]. exists i. by apply (db_link_recs s s'). }
  split; apply (rtsc_congruence (fun x : recid => x)); intros; eapply Ee; eauto.
Qed.
Lemma graph_ok_recs st st' :
  recs st' = recs st -> (forall r, is_Some (lrs st' !! r) <-> is_Some (lrs st !! r)) ->
  graph_ok st -> graph_ok st'.
Proof.
  intros E El []. split; unfold bklnk_of, link_of; rewrite ?E; try done.
  - intros r. by rewrite El.
  - intros t b l Et. rewrite (db_link_recs st st' l t E). auto.
Qed.

(** ** Marks

    [marked st0 st V]: [st] is [st0] with the flags of the records of [V] set. *)
Record marked (st0 st : lk_state) (V : list recid) : Prop := {
  mk_rest : st = with_lrs st0 (lrs st);
  mk_set : forall r, plockSet <$> lrs st !! r = plockSet <$> lrs st0 !! r;
  mk_in : forall r lr, r ∈ V -> lrs st !! r = Some lr -> compflag lr ≠ 0;
  mk_out : forall r, r ∉ V -> lrs st !! r = lrs st0 !! r
}.

Lemma marked_perm st0 st V V' : V ≡ₚ V' -> marked st0 st V -> marked st0 st V'.
Proof.
  intros P []. split; try done.
  - intros r lr Hr. rewrite <- P in Hr. eauto.
  - intros r Hr. rewrite <- P in Hr. eauto.
Qed.

Lemma marked_some st0 st V r : marked st0 st V -> is_Some (lrs st !! r) <-> is_Some (lrs st0 !! r).
Proof. intros M. pose proof (mk_set _ _ _ M r) as E. rewrite <- !(fmap_is_Some plockSet), E. done. Qed.

Lemma marked_recs st0 st V : marked st0 st V -> recs st = recs st0.
Proof. intros M. by rewrite (mk_rest _ _ _ M). Qed.

Lemma marked_refl st : marked st st [].
Proof. split; [by destruct st|done| |done]. intros r lr ?%not_elem_of_nil. done. Qed.

Lemma marked_nil st0 st : marked st0 st [] -> st = st0.
Proof.
  intros M. rewrite (mk_rest _ _ _ M).
  replace (lrs st) with (lrs st0); [by destruct st0|].
  apply map_eq. intros r. symmetry. apply (mk_out _ _ _ M), not_elem_of_nil.
Qed.

(** Writing one flag: setting it, or resetting one that was 0. *)
Lemma marked_put st0 st V V' r lr c :
  marked st0 st V -> lrs st !! r = Some lr ->
  (c ≠ 0 /\ r ∈ V') \/ (forall lr0, lrs st0 !! r = Some lr0 -> compflag lr0 = c) ->
  (c ≠ 0 \/ r ∉ V') -> (forall q, q ≠ r -> (q ∈ V <-> q ∈ V')) ->
  marked st0 (put_lr st r (mkLr (plockSet lr) c)) V'.
Proof.
  intros M Er Hc Hr HV. pose proof (mk_set _ _ _ M r) as Es. rewrite Er in Es. split; simpl.
  - rewrite (mk_rest _ _ _ M) at 1. done.
  - intros q. rewrite <- (mk_set _ _ _ M). destruct (decide (q = r)) as [->|N].
    + by rewrite lookup_insert_eq, Er.
    + by rewrite lookup_insert_ne.
  - intros q lq Hq. destruct (decide (q = r)) as [->|N].
    + rewrite lookup_insert_eq. intros [= <-]. simpl. tauto.
    + rewrite lookup_insert_ne by done. apply (mk_in _ _ _ M). by apply HV.
  - intros q Hq. destruct (decide (q = r)) as [->|N].
    + rewrite lookup_insert_eq. destruct Hc as [[_ ?]|Hc]; [done|].
      destruct (lrs st0 !! r) as [[p0 c0]|]; [|done]. injection Es as Ep. specialize (Hc _ eq_refl). simpl in *. congruence.
    + rewrite lookup_insert_ne by done. apply (mk_out _ _ _ M). by rewrite HV.
Qed.

Lemma reset_flags_spec st0 V l : forall st,
  marked st0 st (l ++ V) -> NoDup (l ++ V) ->
  (forall r, r ∈ l -> exists lr, lrs st0 !! r = Some lr /\ compflag lr = 0) ->
  wp (reset_flags l st) (fun st' => marked st0 st' V).
Proof.
  induction l as [|r l IH]; intros st M Nd Hd; simpl reset_flags; [done|].
  destruct (Hd r ltac:(by left)) as (lr0 & E0 & F0).
  destruct (proj2 (marked_some _ _ _ r M) ltac:(eauto)) as [lr Er].
  unfold get_lr. rewrite Er. cbn [the ebind]. simpl app in *. apply NoDup_cons in Nd as [Nr Nd].
  apply IH; [|done|set_solver].
  eapply marked_put; [exact M|done|right; congruence|by right|set_solver].
Qed.

(** The sets do not depend on the flags. *)
Lemma wf_marked h L st0 st V : marked st0 st V -> wf h L st0 -> wf h L st.
Proof.
  intros M W. pose proof (mk_rest _ _ _ M) as E. pose proof (mk_set _ _ _ M) as Es.
  assert (Em : forall x, members st x = members st0 x) by (intros x; rewrite E; done).
  split.
  - intros r lr Er. rewrite Em. specialize (Es r). rewrite Er in Es.
    destruct (lrs st0 !! r) as [lr0|] eqn:Er0; [|done]. injection Es as ->. by eapply wf_lr.
  - intros x r Hr. rewrite Em in Hr. destruct (wf_mem _ _ _ W x r Hr) as (lr0 & Er0 & <-).
    specialize (Es r). rewrite Er0 in Es. destruct (lrs st !! r) as [lr|]; [|done].
    injection Es as Es. eauto.
  - intros x. rewrite Em. eapply wf_nodup; eauto.
  - rewrite E. exact (wf_ref _ _ _ W).
  - rewrite E. exact (wf_nonneg _ _ _ W).
  - rewrite E. exact (wf_active _ _ _ W).
  - rewrite E. exact (wf_free _ _ _ W).
  - rewrite E. exact (wf_nodup_act _ _ _ W).
  - rewrite E. exact (wf_nodup_free _ _ _ W).
  - rewrite E. exact (wf_lock _ _ _ W).
  - rewrite E. exact (wf_idle _ _ _ W).
  - rewrite E. exact (wf_id _ _ _ W).
  - rewrite E. exact (wf_id_inj _ _ _ W).
  - rewrite E. exact (wf_next _ _ _ W).
  - rewrite E. exact (wf_out _ _ _ W).
Qed.

(** ** The search *)

Section Search.
Context (st0 : lk_state) (G : graph_ok st0) (pfirst psecond : recid).
Hypothesis (F : forall r lr, conn st0 psecond r -> lrs st0 !! r = Some lr -> compflag lr = 0).

(** The records [V] have been met: they are marked, connected to [psecond] and not [pfirst]. *)
Record met (V : list recid) st : Prop := {
  met_mark : marked st0 st V;
  met_nodup : NoDup V;
  met_first : pfirst ∉ V;
  met_dom : forall r, r ∈ V -> is_Some (lrs st0 !! r) /\ conn st0 psecond r
}.

Lemma met_perm V V' st : V ≡ₚ V' -> met V st -> met V' st.
Proof.
  intros P []. split; [by eapply marked_perm|by rewrite <- P|by rewrite <- P|].
  intros r. rewrite <- P. auto.
Qed.

(** A neighbour of a visited record is met, or is [pfirst]. *)
Definition step_ok (n q : list recid) (ts : recid -> Prop)
    (res : bool * list recid * lk_state) : Prop :=
  let '(found, q', st') := res in
  met (q' ++ n) st' /\ (forall r, r ∈ q -> r ∈ q') /\
  if found : bool then conn st0 psecond pfirst else forall t, ts t -> t ∈ q' ++ n.

Lemma visit_spec n q st t :
  met (q ++ n) st -> is_Some (lrs st0 !! t) -> conn st0 psecond t ->
  wp (visit pfirst t q st) (step_ok n q (fun x => x = t)).
Proof.
  intros [M Nd Nf Hd] Ht Hc. unfold visit, get_lr.
  destruct (proj2 (marked_some _ _ _ t M) Ht) as [lr Er]. rewrite Er. cbn [the ebind].
  pose proof (mk_in _ _ _ M t lr) as Fl.
  destruct (decide (t = pfirst)) as [->|Np]; [simpl; split; [by split|done]|].
  destruct (Z.eqb_spec (compflag lr) 0) as [E0|N0]; simpl.
  - assert (Nt : t ∉ q ++ n) by (intros Hin; by apply (Fl Hin Er)).
    split; [|split; [set_solver|intros ? ->; set_solver]].
    assert (P : t :: (q ++ n) ≡ₚ (q ++ [t]) ++ n) by (rewrite <- app_assoc; apply Permutation_middle).
    apply (met_perm (t :: (q ++ n))); [done|]. split.
    + eapply marked_put; [exact M|done|left; split; [done|by left]|by left|set_solver].
    + by constructor.
    + set_solver.
    + intros r [->|Hr]%elem_of_cons; [done|auto].
  - split; [by split|]. split; [done|]. intros ? ->. destruct (decide (t ∈ q ++ n)) as [|Nt]; [done|].
    rewrite (mk_out _ _ _ M t Nt) in Er. by rewrite (F t lr Hc Er) in N0.
Qed.

(** Visiting a list of neighbours, one after the other. *)
Lemma step_ok_trans n q q1 st1 (ts ts' : recid -> Prop) (k : lk_fault + (bool * list recid * lk_state)) :
  step_ok n q ts (false, q1, st1) -> (met (q1 ++ n) st1 -> wp k (step_ok n q1 ts')) ->
  wp k (step_ok n q (fun t => ts t \/ ts' t)).
Proof.
  intros (M1 & S1 & V1) H. eapply wp_mono; [by apply H|].
  intros [[f q2] st2] (M2 & S2 & V2). split; [done|]. split; [auto|].
  destruct f; [done|]. intros t [Ht|Ht]; [|auto].
  apply V1 in Ht. rewrite elem_of_app in Ht |- *. destruct Ht; auto.
Qed.

Lemma step_ok_found n q ts ts' q1 st1 : step_ok n q ts (true, q1, st1) -> step_ok n q ts' (true, q1, st1).
Proof. done. Qed.

Lemma step_ok_impl n q (ts ts' : recid -> Prop) res :
  (forall t, ts' t -> ts t) -> step_ok n q ts res -> step_ok n q ts' res.
Proof. intros H. destruct res as [[[] q1] st1]; simpl; [done|]. intros (? & ? & ?). eauto. Qed.

Lemma visit_links_spec n l : forall q st,
  met (q ++ n) st ->
  (forall plink, plink ∈ l -> ltype plink = DB_LINK -> exists t, pvt plink = Some t /\
     is_Some (recs st0 !! t) /\ conn st0 psecond t) ->
  wp (visit_links pfirst l q st)
    (step_ok n q (fun t => exists plink, plink ∈ l /\ ltype plink = DB_LINK /\ pvt plink = Some t)).
Proof.
  induction l as [|plink l IH]; intros q st M Hl; simpl visit_links.
  { simpl. split; [done|]. split; [done|]. by intros t (? & ?%not_elem_of_nil & _). }
  assert (Hl' : forall p, p ∈ l -> ltype p = DB_LINK -> exists t, pvt p = Some t /\
    is_Some (recs st0 !! t) /\ conn st0 psecond t) by (intros; apply Hl; [by right|done]).
  destruct (decide (ltype plink = DB_LINK)) as [Ed|Nd].
  - destruct (Hl plink) as (t & Et & [rc Hd] & Hc); [by left|done|]. rewrite Et. cbn [the ebind].
    unfold get_rec. rewrite (marked_recs _ _ _ (met_mark _ _ M)), Hd. cbn [the ebind].
    destruct (proj1 (g_dom _ G t)) as [lr0 E0]; [eauto|].
    destruct (proj2 (marked_some _ _ _ t (met_mark _ _ M))) as [lr E1]; [eauto|].
    rewrite E1. cbn [lk_assert ebind].
    wp_use (visit_spec n q st t M) as [[f q1] st1]; [eauto|done|]. destruct f.
    + apply step_ok_found.
    + intros S1. eapply wp_mono; [eapply step_ok_trans; [exact S1|]|].
      * intros M1. by apply IH.
      * intros res. apply step_ok_impl. intros t' (p & [->|Hp]%elem_of_cons & H1 & H2); [left; congruence|].
        right. eauto.
  - eapply wp_mono; [by apply IH|]. intros res. apply step_ok_impl.
    intros t (p & [->|Hp]%elem_of_cons & H1 & H2); [done|]. eauto.
Qed.

Lemma visit_backlinks_spec n l : forall q st,
  met (q ++ n) st -> (forall p, p ∈ l -> is_Some (lrs st0 !! fst p) /\ conn st0 psecond (fst p)) ->
  wp (visit_backlinks pfirst l q st) (step_ok n q (fun t => exists p, p ∈ l /\ fst p = t)).
Proof.
  induction l as [|p l IH]; intros q st M Hl; simpl visit_backlinks.
  { simpl. split; [done|]. split; [done|]. by intros t (? & ?%not_elem_of_nil & _). }
  destruct (Hl p) as [H1 H2]; [by left|].
  wp_use (visit_spec n q st (fst p) M H1 H2) as [[f q1] st1]. destruct f; [apply step_ok_found|].
  intros S1. eapply wp_mono; [eapply step_ok_trans; [exact S1|]|].
  - intros M1. apply IH; [done|]. intros; apply Hl; by right.
  - intros res. apply step_ok_impl. intros t (p' & [->|Hp]%elem_of_cons & <-); [by left|right; eauto].
Qed.

(** All neighbours of [n] are in [V]. *)
Definition closed (n V : list recid) : Prop :=
  forall r t, r ∈ n -> sc (edge st0) r t -> t ∈ V.

Lemma met_length V st : met V st -> (length V <= size (lrs st0))%nat.
Proof.
  intros M. rewrite <- size_dom, <- (size_list_to_set (C := gset recid) V) by apply (met_nodup _ _ M).
  apply subseteq_size. intros r Hr%elem_of_list_to_set. apply elem_of_dom. by apply (met_dom _ _ M).
Qed.

(** One record [r] of the queue: its links, then the links that end at it. *)
Lemma expand_spec n q r st prec :
  met (q ++ (n ++ [r])) st -> conn st0 psecond r -> recs st0 !! r = Some prec ->
  wp (let* '(found, q, st) := visit_links pfirst (links prec) q st in
      if found : bool then inr (true, q, st) else visit_backlinks pfirst (bklnk prec) q st)
    (step_ok (n ++ [r]) q (fun t => sc (edge st0) r t)).
Proof.
  intros M Hc Er. assert (Hn : forall t, sc (edge st0) r t -> is_Some (lrs st0 !! t) /\ conn st0 psecond t).
  { intros t Ht. split; [|eapply rtc_r; eauto].
    apply (g_dom _ G). destruct Ht as [Ht|Ht]; by apply (edge_dom st0 _ _ G) in Ht as [? ?]. }
  wp_use (visit_links_spec (n ++ [r]) (links prec) q st M) as [[f q1] st1].
  - intros plink Hin Ed. apply list_elem_of_lookup in Hin as [i Hi].
    assert (Hp : link_of st0 (r, i) = Some plink) by (unfold link_of; simpl; by rewrite Er).
    destruct (g_target _ G _ plink Hp Ed) as (t & Et & Hd). exists t. do 2 (split; [done|]).
    apply Hn. left. by exists i, plink.
  - destruct f; [apply step_ok_found|]. intros S1. eapply wp_mono; [eapply step_ok_trans; [exact S1|]|].
    + intros M1. apply visit_backlinks_spec; [done|]. intros [p i] Hp. apply Hn. right. exists i.
      apply (g_back _ G r (bklnk prec)); [|done]. unfold bklnk_of. by rewrite Er.
    + intros res. apply step_ok_impl. intros t [(i & p & E1 & E2 & E3)|[i H]].
      * left. exists p. unfold link_of in E1. simpl in E1. rewrite Er in E1.
        split; [by eapply list_elem_of_lookup_2|done].
      * right. exists (t, i). split; [|done]. apply (g_back _ G r (bklnk prec)); [|done].
        unfold bklnk_of. by rewrite Er.
Qed.

Lemma split_search_spec fuel : forall q n st,
  met (q ++ n) st -> closed n (q ++ n) -> psecond ∈ q ++ n ->
  (size (lrs st0) < fuel + length n)%nat ->
  wp (split_search fuel pfirst q n st) (fun '(found, q', n', st') =>
    met (q' ++ n') st' /\
    if found : bool then conn st0 psecond pfirst else q' = [] /\ psecond ∈ n' /\ closed n' n').
Proof.
  induction fuel as [|fuel IH]; intros [|r q] n st M Cl Hs Hf; simpl split_search.
  1, 3: simpl in *; done.
  { pose proof (met_length _ _ M). simpl length in *. rewrite length_app in *. lia. }
  destruct (met_dom _ _ M r) as [Hd Hc]; [by left|].
  destruct (proj2 (marked_some _ _ _ r (met_mark _ _ M)) Hd) as [lr Er].
  unfold get_lr. rewrite Er. cbn [the ebind]. set (st1 := put_lr st r _).
  assert (P : (r :: q) ++ n ≡ₚ q ++ (n ++ [r])) by (rewrite (Permutation_app_comm n); simpl; apply Permutation_middle).
  assert (M1 : met (q ++ (n ++ [r])) st1).
  { apply (met_perm _ _ _ P). destruct M as [Mk Nd Nf Md]. split; try done.
    eapply marked_put; [exact Mk|done|left; split; [done|set_solver]|by left|done]. }
  destruct (proj2 (g_dom _ G r) Hd) as [prec Ep].
  unfold get_rec. rewrite (marked_recs _ _ _ (met_mark _ _ M1)), Ep. cbn [the ebind].
  pose proof (expand_spec n q r st1 prec M1 Hc Ep) as X.
  destruct (visit_links pfirst (links prec) q st1) as [e|[[f1 q1] st2]]; [done|]. cbn [ebind] in X |- *.
  destruct f1; [by destruct X as (X1 & _ & X2)|].
  destruct (visit_backlinks pfirst (bklnk prec) q1 st2) as [e|[[f2 q2] st3]]; [done|]. cbn [ebind].
  destruct X as (X1 & X2 & X3). destruct f2; [done|].
  apply IH; [done| | |rewrite length_app; simpl; lia].
  - intros r' t Hr' Ht. rewrite elem_of_app, list_elem_of_singleton in Hr'. destruct Hr' as [Hr'| ->].
    + specialize (Cl r' t Hr' Ht). rewrite P in Cl. rewrite elem_of_app in Cl |- *. destruct Cl; auto.
    + by apply X3.
  - rewrite P in Hs. rewrite elem_of_app in Hs |- *. destruct Hs; auto.
Qed.

(** A closed set that holds [psecond] holds all records connected to it. *)
Lemma closed_conn n r t : closed n n -> r ∈ n -> conn st0 r t -> t ∈ n.
Proof. intros Cl Hr Hc. induction Hc; [done|]. eauto. Qed.

(** From the start of the search. *)
Lemma search_spec lr2 :
  lrs st0 !! psecond = Some lr2 -> pfirst ≠ psecond ->
  wp (split_search (S (size (lrs st0))) pfirst [psecond] [] (put_lr st0 psecond (mkLr (plockSet lr2) 1)))
    (fun '(found, q', n', st') => met (q' ++ n') st' /\
      if found : bool then conn st0 psecond pfirst
      else q' = [] /\ ~ conn st0 psecond pfirst /\ forall t, t ∈ n' <-> conn st0 psecond t).
Proof.
  intros E2 N. eapply wp_mono; [apply split_search_spec|].
  - split; [|apply NoDup_singleton|set_solver|].
    + apply (marked_put st0 st0 []); [apply marked_refl|done|left; split; [done|by left]|by left|set_solver].
    + intros r ->%list_elem_of_singleton. split; [eauto|]. apply rtc_refl.
  - intros r t ?%not_elem_of_nil. done.
  - by left.
  - simpl. lia.
  - intros [[[found q'] n'] st'] [M H]. split; [done|]. destruct found; [done|].
    destruct H as (-> & Hs & Cl). split; [done|].
    assert (Hn : forall t, t ∈ n' <-> conn st0 psecond t).
    { intros t. split; [|by apply closed_conn]. intros Ht. by apply (met_dom _ _ M). }
    split; [|done]. rewrite <- Hn. apply (met_first _ _ M).
Qed.
End Search.

(** ** Splitting, from the records of a set to the components of the graph *)

Section SplitSpec.
Context (calloc : gmap addr lockSet -> addr) (me : tid).
Hypothesis calloc_fresh : forall m, m !! calloc m = None.
Context (h : addr -> Z) (L : mutexes) (st : lk_state) (W : wf h L st) (G : graph_ok st).
Hypothesis (F : flags0 st) (Hh : forall y, 0 <= h y).
Hypothesis (Hb : forall y, Z.of_nat (size (lrs st)) + h y + 2 < int_max).
Hypothesis (Hsz : Z.of_nat (size (sets st)) + 2 < 2 ^ 64).
Context (r1 r2 : recid) (lr1 lr2 : lockRecord).
Hypothesis (E1 : lrs st !! r1 = Some lr1) (E2 : lrs st !! r2 = Some lr2).
Hypothesis (Es : plockSet lr1 = plockSet lr2) (Hl : 1 <= h (plockSet lr2)).
(** Connected records are in one set. *)
Hypothesis (Hc : forall t, conn st r2 t -> t ∈ members st (plockSet lr2)).

Lemma split_spec lk :
  wp (dbLockSetSplit calloc me lk st r1 r2) (fun '(lk', st') =>
    (conn st r2 r1 /\ lk' = lk /\ st' = st) \/
    (~ conn st r2 r1 /\ exists comp x, (forall t, t ∈ comp <-> conn st r2 t) /\
       split_done me h L st lk comp x lk' st')).
Proof.
  unfold dbLockSetSplit, get_lr. rewrite E1, E2. cbn [the ebind].
  apply wp_require; [by apply bool_decide_true|].
  destruct (decide (r1 = r2)) as [->|N]; [left; split; [apply rtc_refl|done]|].
  destruct (lr_set h L st W r2 lr2 E2) as (s & Ess & _). rewrite Es. unfold get_set. rewrite Ess.
  cbn [the ebind]. apply wp_assert; [apply Z.leb_le; rewrite (wf_ref _ _ _ W _ _ Ess); lia|].
  wp_use (search_spec st G r1 r2 (fun r lr _ => F r lr) lr2 E2 N) as [[[found q] comp] st1]. intros [M H]. destruct found.
  - assert (Hz : forall r, r ∈ q ++ comp -> exists lr, lrs st !! r = Some lr /\ compflag lr = 0).
    { intros r Hr. destruct (met_dom _ _ _ _ _ M r Hr) as [[lr E] _]. exists lr. split; [done|by apply (F r)]. }
    wp_use (reset_flags_spec st comp q st1) as st2; [apply M|apply M| |].
    { intros r Hr. apply Hz. rewrite elem_of_app. by left. }
    intros M2. wp_use (reset_flags_spec st [] comp st2) as st3.
    + by rewrite app_nil_r.
    + rewrite app_nil_r. pose proof (met_nodup _ _ _ _ _ M) as Nd. by apply NoDup_app in Nd as (_ & _ & ?).
    + intros r Hr. apply Hz. rewrite elem_of_app. by right.
    + intros M3. left. split; [done|]. split; [done|]. by apply marked_nil.
  - destruct H as (-> & Nc & Hcomp). simpl app in M. pose proof (met_mark _ _ _ _ _ M) as Mk.
    pose proof (wf_marked h L _ _ _ Mk W) as W1. pose proof (mk_rest _ _ _ Mk) as E.
    pose proof (mk_set _ _ _ Mk r2) as Er2. rewrite E2 in Er2.
    destruct (lrs st1 !! r2) as [lr2'|] eqn:E2'; [|done]. injection Er2 as Ep.
    assert (Em : forall y, members st1 y = members st y) by (intros y; rewrite E; done).
    assert (Esz : size (lrs st1) = size (lrs st)).
    { rewrite <- !size_dom. f_equal. apply set_eq. intros q. rewrite !elem_of_dom. by eapply marked_some. }
    assert (H2 : r2 ∈ comp) by (apply Hcomp; apply rtc_refl).
    assert (Hin : forall r, r ∈ comp -> r ∈ members st (plockSet lr2)) by (intros r Hr; by apply Hc, Hcomp).
    eapply wp_mono; [rewrite <- Ep; apply (split_off_spec calloc me calloc_fresh h L st1 W1)|].
    + by rewrite Esz.
    + by rewrite E.
    + done.
    + apply (met_nodup _ _ _ _ _ M).
    + done.
    + intros r Hr. rewrite Em, Ep. auto.
    + rewrite Em, Ep. apply Nat2Z.inj_lt. apply (submseteq_length (r1 :: comp)).
      apply NoDup_submseteq; [constructor; [by apply (met_first _ _ _ _ _ M)|apply (met_nodup _ _ _ _ _ M)]|].
      intros r [->|Hr]%elem_of_cons; [|auto]. rewrite <- Es. by eapply wf_lr.
    + by rewrite Ep.
    + intros [lk' st'] [x [D1 D2 D3 D4 D5 D6 D7]]. right. split; [done|]. exists comp, x. split; [done|].
      rewrite Em in D2.
      split; try done.
      * intros q. rewrite D4. destruct (decide (q ∈ comp)) as [Hq|Nq].
        -- pose proof (mk_set _ _ _ Mk q) as Eq. destruct (lrs st1 !! q), (lrs st !! q); done.
        -- by apply (mk_out _ _ _ Mk).
      * by rewrite D5, E.
      * by rewrite D7, E.
Qed.
End SplitSpec.
