(* ===== verification/DbLockRun.v ===== *)
(** * Lock sets: the records of a set are the records connected by links

    [dbDbInitLink], [dbAddLink] and [dbRemoveLink] keep the partition of the records, [dbPutFieldLink] does, and
    so does every sequence of such calls after [dbLockInitRecords]. *)

From stdpp Require Import base gmap list sorting fin_sets relations.
From Stdlib Require Import ZArith Lia Bool.
From S2P Require Import Prelude DbLock DbLockInv DbLocker DbLockSets DbLockGraph.
Open Scope Z_scope.

(** ** The graph with one edge more *)

Lemma rtsc_add {A} (R R' : relation A) a b :
  (forall x y, R' x y <-> R x y \/ (x = a /\ y = b)) ->
  forall x y, rtsc R' x y <->
    rtsc R x y \/ (rtsc R x a /\ rtsc R b y) \/ (rtsc R x b /\ rtsc R a y).
Proof.
  intros HR. assert (Hsub : forall x y, rtsc R x y -> rtsc R' x y).
  { intros x y. apply (rtsc_congruence (fun x : A => x)). intros ? ? H. apply HR. by left. }
  assert (Hab : rtsc R' a b) by (apply rtsc_lr, HR; by right).
  intros x y. split.
  - intros H. induction H as [x|x y z Hs _ IH]; [left; apply rtc_refl|].
    assert (Hcase : rtsc R x y \/ (x = a /\ y = b) \/ (x = b /\ y = a)).
    { destruct Hs as [Hs|Hs]; apply HR in Hs as [Hs|[-> ->]]; auto using rtsc_lr, rtsc_rl. }
    destruct Hcase as [Hxy|[[-> ->]|[-> ->]]].
    + destruct IH as [IH|[[I1 I2]|[I1 I2]]]; [left|right; left; split; [|done]|right; right; split; [|done]];
        by etransitivity.
    + destruct IH as [IH|[[I1 I2]|[I1 I2]]]; [right; left; split; [apply rtc_refl|done]| |left; done].
      right. left. split; [apply rtc_refl|done].
    + destruct IH as [IH|[[I1 I2]|[I1 I2]]]; [right; right; split; [apply rtc_refl|done]|left; done|].
      right. right. split; [apply rtc_refl|done].
  - intros [H|[[H1 H2]|[H1 H2]]]; [auto| |].
    + etransitivity; [by apply Hsub|]. etransitivity; [exact Hab|auto].
    + etransitivity; [by apply Hsub|]. etransitivity; [symmetry; exact Hab|auto].
Qed.

(** If the ends were connected already, nothing changes. *)
Lemma rtsc_add_same {A} (R R' : relation A) a b :
  (forall x y, R' x y <-> R x y \/ (x = a /\ y = b)) -> rtsc R a b ->
  forall x y, rtsc R' x y <-> rtsc R x y.
Proof.
  intros HR Hab x y. rewrite (rtsc_add R R' a b HR). split; [|auto].
  intros [H|[[H1 H2]|[H1 H2]]]; [done| |].
  - etransitivity; [exact H1|]. by etransitivity.
  - etransitivity; [exact H1|]. etransitivity; [symmetry; exact Hab|done].
Qed.

(** ** The links of a record *)

(** What the three functions that write links and back links do. *)
Definition links_written st st' (l : linkid) (p : link) : Prop :=
  st' = with_recs st (recs st') /\
  (forall r, bklnk_of st' r = bklnk_of st r) /\
  forall l', link_of st' l' = if decide (l' = l) then Some p else link_of st l'.

Lemma get_link_spec st l p : link_of st l = Some p -> get_link st l = inr p.
Proof.
  unfold link_of, get_link, get_rec. destruct (recs st !! fst l) as [rc|]; [|done]. simpl. by intros ->.
Qed.

Lemma put_link_spec st l p p' :
  link_of st l = Some p ->
  wp (put_link st l p') (fun st' => links_written st st' l p').
Proof.
  unfold link_of, put_link, get_rec. destruct (recs st !! fst l) as [rc|] eqn:E; [|done]. simpl.
  intros Ep. rewrite Ep. simpl. split; [done|]. split.
  - intros r. unfold bklnk_of. simpl. destruct (decide (r = fst l)) as [->|N].
    + by rewrite lookup_insert_eq, E.
    + by rewrite lookup_insert_ne.
  - intros [r i]. unfold link_of. simpl. destruct (decide (r = fst l)) as [->|N].
    + rewrite lookup_insert_eq, E. simpl. destruct (decide (i = snd l)) as [->|Ni].
      * rewrite decide_True; [|symmetry; apply surjective_pairing].
        apply list_lookup_insert_eq. by eapply lookup_lt_Some.
      * rewrite decide_False by (intros El; apply Ni; by rewrite <- El). by rewrite list_lookup_insert_ne.
    + rewrite lookup_insert_ne, decide_False by (done || (intros El; apply N; by rewrite <- El)). done.
Qed.

(** Adding and deleting a back link of [t]. *)
Definition backs_written st st' (t : recid) (b : list linkid) : Prop :=
  st' = with_recs st (recs st') /\ (forall l', link_of st' l' = link_of st l') /\
  forall r, bklnk_of st' r = if decide (r = t) then Some b else bklnk_of st r.

Lemma backs_put st t rc b :
  recs st !! t = Some rc -> backs_written st (put_rec st t (mkRec (links rc) b)) t b.
Proof.
  intros E. split; [done|]. split.
  - intros [r i]. unfold link_of. simpl. destruct (decide (r = t)) as [->|N].
    + by rewrite lookup_insert_eq, E.
    + by rewrite lookup_insert_ne.
  - intros r. unfold bklnk_of. simpl. destruct (decide (r = t)) as [->|N].
    + by rewrite lookup_insert_eq.
    + by rewrite lookup_insert_ne.
Qed.

(** A state with other links, and the same records. *)
Record relinked st st' : Prop := {
  rl_rest : st' = with_recs st (recs st');
  rl_dom : forall r, is_Some (recs st' !! r) <-> is_Some (recs st !! r);
  rl_graph : graph_ok st'
}.

Lemma bklnk_dom st r : is_Some (bklnk_of st r) <-> is_Some (recs st !! r).
Proof. apply fmap_is_Some. Qed.

Lemma relinked_lrs st st' : relinked st st' -> lrs st' = lrs st.
Proof. intros H. by rewrite (rl_rest _ _ H). Qed.

(** The functions above, one after the other. *)
Lemma written_relinked st st1 st2 l p t b :
  graph_ok st -> links_written st st1 l p -> backs_written st1 st2 t b -> is_Some (recs st !! t) ->
  graph_ok st2 -> relinked st st2.
Proof.
  intros G (E1 & B1 & _) (E2 & _ & B2) Ht G2. split; [rewrite E2, E1 at 1; done| |done].
  intros r. rewrite <- !bklnk_dom, B2, B1. destruct (decide (r = t)) as [->|]; [|done].
  rewrite bklnk_dom. split; [done|eauto].
Qed.

(** A new database link. *)
Definition db_link_to (t : recid) : link := mkLink DB_LINK (Some dbDb_lset) (Some t).

Lemma add_graph st st1 st2 l t p b :
  graph_ok st -> link_of st l = Some p -> ltype p ≠ DB_LINK -> is_Some (recs st !! t) ->
  links_written st st1 l (db_link_to t) -> bklnk_of st1 t = Some b -> backs_written st1 st2 t (b ++ [l]) ->
  relinked st st2 /\ (forall x y, edge st2 x y <-> edge st x y \/ (x = fst l /\ y = t)) /\
  forall l', link_of st2 l' = if decide (l' = l) then Some (db_link_to t) else link_of st l'.
Proof.
  intros G Ep Np Ht Lw Eb Bw. pose proof Lw as (E1 & B1 & K1). pose proof Bw as (E2 & K2 & B2).
  assert (K : forall l', link_of st2 l' = if decide (l' = l) then Some (db_link_to t) else link_of st l')
    by (intros l'; by rewrite K2, K1).
  assert (D : forall l' t', db_link st2 l' t' <-> db_link st l' t' \/ (l' = l /\ t' = t)).
  { intros l' t'. unfold db_link. rewrite K. destruct (decide (l' = l)) as [->|N].
    - split; [intros (q & [= <-] & _ & [= <-]); by right|].
      intros [(q & Eq & Tq & _)|[_ ->]]; [congruence|]. by exists (db_link_to t).
    - split; [by left|intros [?|[? _]]; done]. }
  assert (G2 : graph_ok st2).
  { assert (Hd : forall r, is_Some (recs st2 !! r) <-> is_Some (recs st !! r)).
    { intros r. rewrite <- !bklnk_dom, B2, B1. destruct (decide (r = t)) as [->|]; [|done].
      rewrite bklnk_dom. split; [done|eauto]. }
    split.
    - intros r. rewrite Hd, E2, E1. apply (g_dom _ G).
    - intros l' q. rewrite K. destruct (decide (l' = l)) as [->|].
      + intros [= <-] _. exists t. split; [done|]. by apply Hd.
      + intros Eq Tq. destruct (g_target _ G l' q Eq Tq) as (t' & ? & ?). exists t'. by rewrite Hd.
    - intros t' b' l'. rewrite B2, B1, D. destruct (decide (t' = t)) as [->|N].
      + intros [= <-]. rewrite elem_of_app, list_elem_of_singleton.
        rewrite (g_back _ G t b l') by (by rewrite <- B1). naive_solver.
      + intros Eb'. rewrite (g_back _ G t' b' l' Eb'). naive_solver.
    - intros t' b'. rewrite B2, B1. destruct (decide (t' = t)) as [->|N]; [|apply (g_nodup _ G)].
      intros [= <-]. rewrite B1 in Eb. apply NoDup_app. split; [by eapply g_nodup|].
      split; [|apply NoDup_singleton]. intros l' Hl ->%list_elem_of_singleton.
      apply (g_back _ G t b l Eb) in Hl as (q & Eq & Tq & _). congruence. }
  split; [by eapply written_relinked|]. split; [|done].
  intros x y. unfold edge. setoid_rewrite D. split.
  - intros [i [H| [<- ->]]]; [left; eauto|by right].
  - intros [[i H]|[-> ->]]; [eauto|]. exists (snd l). right. by destruct l.
Qed.

(** A database link that is removed: [plink->type = PV_LINK]. *)
Lemma remove_graph st st1 st2 l t p b :
  graph_ok st -> link_of st l = Some p -> ltype p = DB_LINK -> pvt p = Some t ->
  links_written st st1 l (mkLink PV_LINK (lset p) None) -> bklnk_of st1 t = Some b ->
  backs_written st1 st2 t (filter (.≠ l) b) ->
  relinked st st2 /\ (forall x y, edge st x y <-> edge st2 x y \/ (x = fst l /\ y = t)) /\
  forall l', link_of st2 l' = if decide (l' = l) then Some (mkLink PV_LINK (lset p) None) else link_of st l'.
Proof.
  intros G Ep Tp Vp Lw Eb Bw. pose proof Lw as (E1 & B1 & K1). pose proof Bw as (E2 & K2 & B2).
  assert (K : forall l', link_of st2 l' =
    if decide (l' = l) then Some (mkLink PV_LINK (lset p) None) else link_of st l')
    by (intros l'; by rewrite K2, K1).
  destruct (g_target _ G l p Ep Tp) as (t0 & Et0 & Ht). assert (t0 = t) as -> by congruence.
  assert (D : forall l' t', db_link st2 l' t' <-> db_link st l' t' /\ l' ≠ l).
  { intros l' t'. unfold db_link. rewrite K. destruct (decide (l' = l)) as [->|N]; [|tauto].
    split; [by intros (q & [= <-] & ? & _)|tauto]. }
  assert (Dl : forall t', db_link st l t' <-> t' = t).
  { intros t'. unfold db_link. rewrite Ep. split; [intros (q & [= <-] & _ & ?); congruence|].
    intros ->. eauto. }
  assert (G2 : graph_ok st2).
  { assert (Hd : forall r, is_Some (recs st2 !! r) <-> is_Some (recs st !! r)).
    { intros r. rewrite <- !bklnk_dom, B2, B1. destruct (decide (r = t)) as [->|]; [|done].
      rewrite bklnk_dom. split; [done|eauto]. }
    split.
    - intros r. rewrite Hd, E2, E1. apply (g_dom _ G).
    - intros l' q. rewrite K. destruct (decide (l' = l)) as [->|]; [by intros [= <-]|].
      intros Eq Tq. destruct (g_target _ G l' q Eq Tq) as (t' & ? & ?). exists t'. by rewrite Hd.
    - intros t' b' l'. rewrite B2, B1, D. destruct (decide (t' = t)) as [->|N].
      + intros [= <-]. rewrite list_elem_of_filter, (g_back _ G t b l') by (by rewrite <- B1). tauto.
      + intros Eb'. rewrite (g_back _ G t' b' l' Eb'). split; [|tauto]. intros Hl. split; [done|].
        intros ->. by apply Dl in Hl.
    - intros t' b'. rewrite B2, B1. destruct (decide (t' = t)) as [->|N]; [|apply (g_nodup _ G)].
      intros [= <-]. rewrite B1 in Eb. apply NoDup_filter. by eapply g_nodup. }
  split; [by eapply written_relinked|]. split; [|done].
  intros x y. unfold edge. setoid_rewrite D. split.
  - intros [i H]. destruct (decide ((x, i) = l)) as [<-|N]; [right|left; eauto]. by apply Dl in H.
  - intros [[i [H _]]|[-> ->]]; [eauto|]. exists (snd l). apply Dl. by destruct l.
Qed.

(** A link that is no database link, before and after. *)
Lemma other_graph st st' l p p' :
  graph_ok st -> link_of st l = Some p -> ltype p ≠ DB_LINK -> ltype p' ≠ DB_LINK ->
  links_written st st' l p' -> relinked st st' /\ (forall x y, edge st' x y <-> edge st x y).
Proof.
  intros G Ep Np Np' (E1 & B1 & K1).
  assert (D : forall l' t', db_link st' l' t' <-> db_link st l' t').
  { intros l' t'. unfold db_link. rewrite K1. destruct (decide (l' = l)) as [->|N]; [|done].
    rewrite Ep. split; intros (q & [= <-] & ? & _); done. }
  assert (Hd : forall r, is_Some (recs st' !! r) <-> is_Some (recs st !! r))
    by (intros r; by rewrite <- !bklnk_dom, B1).
  split; [split; [done|done|]|].
  - split.
    + intros r. rewrite Hd, E1. apply (g_dom _ G).
    + intros l' q. rewrite K1. destruct (decide (l' = l)) as [->|]; [by intros [= <-]|].
      intros Eq Tq. destruct (g_target _ G l' q Eq Tq) as (t' & ? & ?). exists t'. by rewrite Hd.
    + intros t b l'. rewrite B1, D. apply (g_back _ G).
    + intros t b. rewrite B1. apply (g_nodup _ G).
  - intros x y. unfold edge. by setoid_rewrite D.
Qed.

(** ** The partition *)

(** Records are in one set if and only if they are connected. *)
Definition part st : Prop := forall r1 r2 lr1 lr2,
  lrs st !! r1 = Some lr1 -> lrs st !! r2 = Some lr2 ->
  (plockSet lr1 = plockSet lr2 <-> conn st r1 r2).

Record db_ok (h : addr -> Z) (L : mutexes) st : Prop := {
  ok_wf : wf h L st;
  ok_graph : graph_ok st;
  ok_flags : flags0 st;
  ok_part : part st
}.

Definition lsets_ok st : Prop := forall l p, link_of st l = Some p ->
  (lset p = Some dbDb_lset <-> ltype p = DB_LINK).

Lemma wf_recs h L st m : wf h L st -> wf h L (with_recs st m).
Proof. intros []. by split. Qed.

Lemma wf_relinked h L st st' : relinked st st' -> wf h L st -> wf h L st'.
Proof. intros R W. rewrite (rl_rest _ _ R). by apply wf_recs. Qed.

Lemma part_conn st st' :
  lrs st' = lrs st -> (forall x y, conn st' x y <-> conn st x y) -> part st -> part st'.
Proof. intros El Ec P r1 r2 lr1 lr2. rewrite El, Ec. apply P. Qed.

Lemma conn_edges st st' :
  (forall x y, edge st' x y <-> edge st x y) -> forall x y, conn st' x y <-> conn st x y.
Proof.
  intros E x y. split; apply (rtsc_congruence (fun x : recid => x)); intros ? ?; apply E.
Qed.

Lemma part_merge st st2 a t lra lrt :
  part st -> lrs st !! a = Some lra -> lrs st !! t = Some lrt ->
  (forall x y, edge st2 x y <-> edge st x y \/ (x = a /\ y = t)) ->
  (forall q, lrs st2 !! q = (fun lr => if decide (plockSet lr = plockSet lrt)
     then mkLr (plockSet lra) (compflag lr) else lr) <$> lrs st !! q) ->
  part st2.
Proof.
  intros P Ea Et He M r1 r2 lr1 lr2 E1 E2. unfold conn.
  rewrite (rtsc_add _ _ a t He). fold (conn st).
  rewrite M in E1, E2. destruct (lrs st !! r1) as [l1|] eqn:K1; [|done].
  destruct (lrs st !! r2) as [l2|] eqn:K2; [|done]. simpl in E1, E2.
  injection E1 as <-. injection E2 as <-.
  rewrite <- (P r1 r2 l1 l2), <- (P r1 a l1 lra), <- (P t r2 lrt l2), <- (P r1 t l1 lrt),
    <- (P a r2 lra l2) by done.
  repeat destruct (decide _); simpl; naive_solver congruence.
Qed.

Lemma part_split st st1 st2 a t lrt x (comp : list recid) :
  part st -> lrs st !! t = Some lrt -> lrs st1 = lrs st ->
  (forall y z, edge st y z <-> edge st1 y z \/ (y = a /\ z = t)) ->
  ~ conn st1 t a -> (forall q, q ∈ comp <-> conn st1 t q) ->
  (forall q lr, lrs st !! q = Some lr -> plockSet lr ≠ x) -> recs st2 = recs st1 ->
  (forall q, lrs st2 !! q = if decide (q ∈ comp) then (fun lr => mkLr x 0) <$> lrs st1 !! q else lrs st1 !! q) ->
  part st2.
Proof.
  intros P Et El He Nc Hcomp Hx Er M r1 r2 lr1 lr2 E1 E2.
  rewrite (conn_recs st1 st2 r1 r2 Er). rewrite M, El in E1, E2.
  destruct (lrs st !! r1) as [l1|] eqn:K1; [|by destruct (decide (r1 ∈ comp))].
  destruct (lrs st !! r2) as [l2|] eqn:K2; [|by destruct (decide (r2 ∈ comp))].
  assert (Hc : r1 ∈ comp -> conn st1 r1 r2 <-> r2 ∈ comp).
  { rewrite !Hcomp. intros H1. split; intros H; [by etransitivity|]. etransitivity; [symmetry; exact H1|done]. }
  assert (Hc' : r2 ∈ comp -> conn st1 r1 r2 <-> r1 ∈ comp).
  { rewrite !Hcomp. intros H1. split; intros H; [|by etransitivity; [symmetry; exact H|]].
    etransitivity; [exact H1|]. by symmetry. }
  destruct (decide (r1 ∈ comp)) as [I1|N1], (decide (r2 ∈ comp)) as [I2|N2];
    simpl in E1, E2; injection E1 as <-; injection E2 as <-; simpl.
  - rewrite Hc by done. tauto.
  - rewrite Hc by done. split; [|done]. intros E. by specialize (Hx r2 l2 K2).
  - rewrite Hc' by done. split; [|done]. intros E. by specialize (Hx r1 l1 K1).
  - rewrite (P r1 r2 l1 l2 K1 K2). unfold conn at 1. rewrite (rtsc_add _ _ a t He). fold (conn st1).
    rewrite Hcomp in N1, N2. split; [|by left]. intros [H|[[H1 H2]|[H1 H2]]]; [done| |].
    + by destruct N2.
    + destruct N1. by symmetry.
Qed.

(** ** The number of sets *)

(** If every set in use has a record and one has two, a new set does not make them more than
    the records. *)
Lemma allocs_size h L st x r1 r2 :
  wf h L st -> (forall y, 0 < h y -> members st y ≠ []) -> (size (sets st) <= size (lrs st))%nat ->
  r1 ∈ members st x -> r2 ∈ members st x -> r1 ≠ r2 ->
  (size (sets st) + allocs st <= size (lrs st))%nat.
Proof.
  intros W Hm Hle H1 H2 N. unfold allocs. destruct (lockSetsFree st) as [|? ?] eqn:Ef; [|lia].
  pose (f y := default 1%positive (head (members st y))).
  assert (Hf : forall y, y ∈ elements (dom (sets st)) -> f y ∈ members st y).
  { intros y Hy%elem_of_elements%elem_of_dom. destruct Hy as [s Es].
    assert (Hne : members st y ≠ []).
    { intros E0. pose proof (wf_nonneg _ _ _ W _ _ Es) as Hn. pose proof (wf_ref _ _ _ W _ _ Es) as Hr.
      rewrite <- (members_set st y s Es), E0 in Hr. simpl in Hr.
      destruct (decide (refcount s = 0)) as [Z0|]; [|by apply (Hm y); [lia|]].
      assert (Hx : y ∈ lockSetsFree st) by (apply (wf_free _ _ _ W); eauto).
      rewrite Ef in Hx. by apply not_elem_of_nil in Hx. }
    unfold f. destruct (members st y); [done|]. simpl. by left. }
  pose (r := if decide (f x = r1) then r2 else r1).
  assert (Hr : r ∈ members st x /\ r ≠ f x) by (unfold r; destruct (decide (f x = r1)); split; congruence || done).
  pose (l := r :: map f (elements (dom (sets st)))).
  assert (Hinj : forall y z, y ∈ elements (dom (sets st)) -> z ∈ elements (dom (sets st)) ->
    f y = f z -> y = z).
  { intros y z Hy Hz E. apply Hf in Hy, Hz.
    destruct (wf_mem _ _ _ W _ _ Hy) as (lr & El & <-). destruct (wf_mem _ _ _ W _ _ Hz) as (lr' & El' & <-).
    congruence. }
  assert (Nd : NoDup l).
  { constructor.
    - intros (y & Ey & Hy)%list_elem_of_fmap. pose proof (Hf y Hy) as Hfy. rewrite <- Ey in Hfy.
      destruct (wf_mem _ _ _ W _ _ Hfy) as (lr & El & <-).
      destruct (wf_mem _ _ _ W _ _ (proj1 Hr)) as (lr' & El' & <-).
      assert (lr' = lr) as -> by congruence. by apply (proj2 Hr).
    - apply NoDup_fmap_2_strong; [done|]. apply NoDup_elements. }
  assert (Hsub : list_to_set (C := gset recid) l ⊆ dom (lrs st)).
  { intros q Hq%elem_of_list_to_set. apply elem_of_dom. apply elem_of_cons in Hq as [->|Hq].
    - eapply (members_lrs h L st W x), Hr.
    - apply list_elem_of_fmap in Hq as (y & -> & Hy). eapply (members_lrs h L st W y), Hf, Hy. }
  apply subseteq_size in Hsub. rewrite size_list_to_set, size_dom in Hsub by done.
  unfold l in Hsub. simpl in Hsub. rewrite length_map in Hsub.
  change (length (elements (dom (sets st)))) with (size (dom (sets st))) in Hsub.
  rewrite size_dom in Hsub. lia.
Qed.

(** ** Making and breaking a link under a locker *)

Section Links.
Context (calloc : gmap addr lockSet -> addr) (me : tid).
Hypothesis calloc_fresh : forall m, m !! calloc m = None.

(** The locker [lk] holds the sets of its list, [e] counts the references besides those. *)
Record held (e : addr -> Z) (lk : dbLocker) st : Prop := {
  hd_ok : db_ok (plus_in e (locked lk)) (locked_by me (me_locker lk) unlocked (locked lk)) st;
  hd_nodup : NoDup (locked lk);
  hd_dom : forall y, y ∈ locked lk -> is_Some (sets st !! y)
}.

(** What a change of one link leaves: the same records, and that link with the value [p]. *)
Record changed (l : linkid) (p : link) st st' : Prop := {
  ch_lrs : forall r, is_Some (lrs st' !! r) <-> is_Some (lrs st !! r);
  ch_links : forall l', link_of st' l' = if decide (l' = l) then Some p else link_of st l'
}.

Lemma lrs_size st st' : (forall r, is_Some (lrs st' !! r) <-> is_Some (lrs st !! r)) ->
  size (lrs st') = size (lrs st).
Proof. intros H. rewrite <- !size_dom. f_equal. apply set_eq. intros r. by rewrite !elem_of_dom. Qed.

Lemma lk_in e lk st x : held e lk st -> x ∈ locked lk ->
  locked_by me (me_locker lk) unlocked (locked lk) x = (Some (me, 1%nat), Some (me_locker lk)).
Proof. intros _ Hx. unfold locked_by. by rewrite decide_True. Qed.

(** [plink->type = DB_LINK] and the back link. *)
Lemma set_db_link_spec st l t p :
  graph_ok st -> link_of st l = Some p -> ltype p ≠ DB_LINK -> is_Some (recs st !! t) ->
  wp (set_db_link st l t) (fun st2 =>
    relinked st st2 /\ (forall x y, edge st2 x y <-> edge st x y \/ (x = fst l /\ y = t)) /\
    forall l', link_of st2 l' = if decide (l' = l) then Some (db_link_to t) else link_of st l').
Proof.
  intros G Ep Np Ht. wp_use (put_link_spec st l p (db_link_to t) Ep) as st1.
  intros Lw. pose proof Lw as (_ & B1 & _).
  assert (Ht1 : is_Some (bklnk_of st1 t)) by (by rewrite B1, bklnk_dom).
  unfold bklnk_of in Ht1. unfold add_bklnk, get_rec.
  destruct (recs st1 !! t) as [rc|] eqn:E; [|by destruct Ht1]. simpl.
  eapply add_graph; [exact G|exact Ep|done|done|exact Lw| |by apply backs_put].
  unfold bklnk_of. by rewrite E.
Qed.

Lemma unset_db_link_spec st l t p :
  graph_ok st -> link_of st l = Some p -> ltype p = DB_LINK -> pvt p = Some t ->
  wp (unset_db_link st l p t) (fun st2 =>
    relinked st st2 /\ (forall x y, edge st x y <-> edge st2 x y \/ (x = fst l /\ y = t)) /\
    forall l', link_of st2 l' = if decide (l' = l) then Some (mkLink PV_LINK (lset p) None)
      else link_of st l').
Proof.
  intros G Ep Tp Vp. wp_use (put_link_spec st l p (mkLink PV_LINK (lset p) None) Ep) as st1.
  intros Lw. pose proof Lw as (_ & B1 & _).
  destruct (g_target _ G l p Ep Tp) as (t0 & Et0 & Ht). assert (t0 = t) as -> by congruence.
  assert (Ht1 : is_Some (bklnk_of st1 t)) by (by rewrite B1, bklnk_dom).
  unfold bklnk_of in Ht1. unfold del_bklnk, get_rec.
  destruct (recs st1 !! t) as [rc|] eqn:E; [|by destruct Ht1]. simpl.
  assert (Eb : bklnk_of st1 t = Some (bklnk rc)) by (unfold bklnk_of; by rewrite E).
  rewrite decide_True.
  - simpl. eapply remove_graph; [exact G|exact Ep|done|done|exact Lw|exact Eb|by apply backs_put].
  - rewrite B1 in Eb. apply (g_back _ G t _ l Eb). by exists p.
Qed.

(** A merge that follows a new edge. *)
Lemma merged_ok h L st0 st st' a t lra lrt n :
  part st0 -> relinked st0 st -> flags0 st ->
  (forall x y, edge st x y <-> edge st0 x y \/ (x = a /\ y = t)) ->
  lrs st !! a = Some lra -> lrs st !! t = Some lrt ->
  merged h L st st' (plockSet lra) (plockSet lrt) n ->
  graph_ok st' /\ flags0 st' /\ part st' /\ forall r, is_Some (lrs st' !! r) <-> is_Some (lrs st !! r).
Proof.
  intros P R F He Ea Et [_ M1 M2 _ _].
  assert (Hd : forall r, is_Some (lrs st' !! r) <-> is_Some (lrs st !! r))
    by (intros r; by rewrite M2, fmap_is_Some).
  split; [by eapply graph_ok_recs; [| |apply R]|]. split; [|split; [|done]].
  - intros r lr Er. rewrite M2 in Er. destruct (lrs st !! r) as [l|] eqn:E; [|done].
    injection Er as <-. destruct (decide _); simpl; by eapply F.
  - rewrite (relinked_lrs _ _ R) in Ea, Et.
    assert (M2' : forall q, lrs st' !! q = (fun lr => if decide (plockSet lr = plockSet lrt)
      then mkLr (plockSet lra) (compflag lr) else lr) <$> lrs st0 !! q)
      by (intros q; by rewrite M2, (relinked_lrs _ _ R)).
    eapply (part_merge st0 st' a t); [exact P|exact Ea|exact Et| |exact M2'].
    intros x y. rewrite <- He. unfold edge.
    split; intros [i H]; exists i; by apply (db_link_recs st st').
Qed.

Lemma same_merged_lrs st lra lrt q :
  plockSet lra = plockSet lrt ->
  lrs st !! q = (fun lr => if decide (plockSet lr = plockSet lrt)
     then mkLr (plockSet lra) (compflag lr) else lr) <$> lrs st !! q.
Proof.
  intros E. destruct (lrs st !! q) as [[x c]|]; [|done]. simpl.
  destruct (decide (x = plockSet lrt)); [by rewrite E; subst|done].
Qed.

Lemma db_add_link_spec e lk st l t p lra lrt :
  held e lk st -> (forall y, 0 <= e y) ->
  (forall y, Z.of_nat (size (lrs st)) + e y + 3 < int_max) ->
  link_of st l = Some p -> ltype p ≠ DB_LINK ->
  lrs st !! fst l = Some lra -> lrs st !! t = Some lrt ->
  plockSet lra ∈ locked lk -> plockSet lrt ∈ locked lk ->
  wp (dbDbAddLink me (Some lk) st l t) (fun '(lko, st') => exists lk', lko = Some lk' /\
    held e lk' st' /\ me_locker lk' = me_locker lk /\ refs lk' = refs lk /\
    changed l (db_link_to t) st st' /\ size (sets st') = size (sets st)).
Proof.
  intros H He Hb Ep Np Ea Et Ia It. pose proof H as [[W G F P] Nd Hd].
  unfold dbDbAddLink.
  wp_use (set_db_link_spec st l t p G Ep Np) as st2; [apply (g_dom _ G); eauto|].
  intros (R & Hedge & Hlinks). pose proof (relinked_lrs _ _ R) as El.
  pose proof (wf_relinked _ _ _ _ R W) as W2.
  assert (Ea2 : lrs st2 !! fst l = Some lra) by (by rewrite El).
  assert (Et2 : lrs st2 !! t = Some lrt) by (by rewrite El).
  assert (F2 : flags0 st2) by (intros r lr; rewrite El; apply F).
  assert (Hp : forall y, 0 <= plus_in e (locked lk) y).
  { intros y. unfold plus_in. specialize (He y). destruct (decide _); lia. }
  eapply wp_mono; [apply (merge_spec me _ _ st2 W2 (fst l) t lra lrt Ea2 Et2 Hp)|].
  - intros y. rewrite El. unfold plus_in. specialize (Hb y). destruct (decide _); lia.
  - intros lk0 [= <-]. split; [done|]. rewrite !(lk_in e lk st) by done.
    split; [|done]. unfold plus_in. rewrite decide_True by done. specialize (He (plockSet lrt)). lia.
  - done.
  - intros [lko st'] Hres. destruct (decide (plockSet lra = plockSet lrt)) as [E|N].
    + destruct Hres as [-> ->]. exists lk. split; [done|]. split; [|do 2 (split; [done|])].
      * split; [split; [done|apply R|done|]|done|intros y Hy; rewrite (rl_rest _ _ R); by apply Hd].
        eapply (part_merge st st2 (fst l) t); eauto. intros q. rewrite El. by apply same_merged_lrs.
      * split; [split; [intros r; by rewrite El|exact Hlinks]|by rewrite (rl_rest _ _ R)].
    + destruct Hres as [-> Hm]. exists (merge_locker (plockSet lrt) lk). split; [done|].
      destruct (merged_ok _ _ st st2 st' (fst l) t lra lrt _ P R F2 Hedge Ea2 Et2 Hm) as (G' & F' & P' & D').
      pose proof (mg_wf _ _ _ _ _ _ _ Hm) as W'.
      split; [|do 2 (split; [done|]); split; [split|]].
      * split; [split; [|done..]|by apply NoDup_filter|].
        -- eapply wf_ext; [exact W'| |]; intros y; simpl; unfold plus_in, hadd, lupd, locked_by;
             destruct (decide (y = plockSet lrt)) as [->|Ny].
           ++ rewrite decide_False, decide_True by (done || rewrite elem_of_filter_ne; tauto). lia.
           ++ destruct (decide (y ∈ locked lk)), (decide (y ∈ filter (.≠ plockSet lrt) (locked lk)));
                try lia; exfalso; rewrite elem_of_filter_ne in *; tauto.
           ++ by rewrite decide_False by (rewrite elem_of_filter_ne; tauto).
           ++ destruct (decide (y ∈ locked lk)), (decide (y ∈ filter (.≠ plockSet lrt) (locked lk)));
                try done; exfalso; rewrite elem_of_filter_ne in *; tauto.
        -- intros y [_ Hy]%elem_of_filter_ne. apply (mg_dom _ _ _ _ _ _ _ Hm).
           rewrite (rl_rest _ _ R). by apply Hd.
      * intros r. by rewrite D', El.
      * intros l'. rewrite <- Hlinks. unfold link_of. by rewrite (mg_recs _ _ _ _ _ _ _ Hm).
      * rewrite (mg_size _ _ _ _ _ _ _ Hm). by rewrite (rl_rest _ _ R).
Qed.

(** Records keep their set or get one that the locker holds. *)
Definition sets_kept (lk : dbLocker) st st' : Prop := forall q lr', lrs st' !! q = Some lr' ->
  exists lr, lrs st !! q = Some lr /\ (plockSet lr' = plockSet lr \/ plockSet lr' ∈ locked lk).

(** What [dbDbRemoveLink] of link [l] leaves. *)
Definition removed (e : addr -> Z) (lk : dbLocker) (l : linkid) (q : link) st (lk' : dbLocker) st' : Prop :=
  held e lk' st' /\ me_locker lk' = me_locker lk /\ refs lk' = refs lk /\
  (forall y, y ∈ locked lk -> y ∈ locked lk') /\
  changed l q st st' /\ sets_kept lk' st st' /\ (size (sets st') <= size (lrs st'))%nat.

Section Remove.
Context (e : addr -> Z) (lk : dbLocker) (st st2 : lk_state) (l : linkid) (t : recid) (q : link).
Context (lra lrt : lockRecord) (H : held e lk st).
Context (Hle : (size (sets st) <= size (lrs st))%nat).
Context (Hm : forall y, 0 < plus_in e (locked lk) y -> members st y ≠ []).
Context (R : relinked st st2) (Hedge : forall x y, edge st x y <-> edge st2 x y \/ (x = fst l /\ y = t)).
Context (Hlinks : forall l', link_of st2 l' = if decide (l' = l) then Some q else link_of st l').
Context (Ea : lrs st !! fst l = Some lra) (Et : lrs st !! t = Some lrt) (Es : plockSet lra = plockSet lrt).

(** The records are still connected: the set stays. *)
Lemma removed_joined : conn st2 t (fst l) -> removed e lk l q st lk st2.
Proof.
  intros Hc. pose proof H as [[W G F P] Nd Hd]. pose proof (relinked_lrs _ _ R) as El.
  split; [|do 2 (split; [done|]); split; [done|split; [split|split]]].
  - split; [split; [by eapply wf_relinked|apply R| |]|done|intros y Hy; rewrite (rl_rest _ _ R); by apply Hd].
    + intros r lr. rewrite El. apply F.
    + eapply (part_conn st st2); [done| |done]. intros y z. symmetry.
      apply (rtsc_add_same _ _ (fst l) t Hedge). by symmetry.
  - intros r. by rewrite El.
  - done.
  - intros r lr'. rewrite El. eauto.
  - rewrite El. by rewrite (rl_rest _ _ R).
Qed.

(** They are apart: the component [comp] of [t] has the new set [x], which the locker holds. *)
Lemma removed_apart comp x lk' st' :
  ~ conn st2 t (fst l) -> (forall r, r ∈ comp <-> conn st2 t r) ->
  split_done me (plus_in e (locked lk)) (locked_by me (me_locker lk) unlocked (locked lk)) st2 lk comp x lk' st' ->
  removed e lk l q st lk' st'.
Proof.
  intros Nc Hcomp [-> (D2 & D3 & D4) D5 D6 D7 D8 D9]. pose proof H as [[W G F P] Nd Hd].
  pose proof (relinked_lrs _ _ R) as El. pose proof (wf_relinked _ _ _ _ R W) as W2.
  assert (Em : forall y, members st2 y = members st y) by (intros y; by rewrite (rl_rest _ _ R)).
  assert (Esz : size (sets st2) = size (sets st)) by (by rewrite (rl_rest _ _ R)).
  assert (Nx : x ∉ locked lk) by (intros Hx; rewrite (lk_in e lk st) in D3; done).
  assert (Dl : forall r, is_Some (lrs st' !! r) <-> is_Some (lrs st2 !! r))
    by (intros r; rewrite D6; destruct (decide _); [by rewrite fmap_is_Some|done]).
  assert (W' : wf (plus_in e (locked lk ++ [x]))
    (locked_by me (me_locker lk) unlocked (locked lk ++ [x])) st').
  { eapply wf_ext; [exact D5| |]; intros y; unfold plus_in, hadd, lupd, locked_by;
      destruct (decide (y ∈ locked lk)), (decide (y ∈ locked lk ++ [x])), (decide (y = x));
      subst; try done; try lia; exfalso; set_solver. }
  split; [split; [split|..]|do 2 (split; [done|]); split; [|split; [split|split]]].
  - done.
  - by eapply graph_ok_recs; [| |apply R].
  - intros r lr Er. rewrite D6 in Er. destruct (decide _); [|rewrite El in Er; by eapply F].
    destruct (lrs st2 !! r); [|done]. by injection Er as <-.
  - eapply (part_split st st2 st' (fst l) t lrt x comp); try done.
    intros r lr Eq Ex. pose proof (wf_lr _ _ _ W _ _ Eq) as Hq. rewrite Ex, <- Em, D4 in Hq.
    by apply not_elem_of_nil in Hq.
  - simpl. apply NoDup_app. split; [done|]. split; [|apply NoDup_singleton].
    intros y Hy ->%list_elem_of_singleton. done.
  - intros y Hy. simpl in Hy. destruct (sets st' !! y) eqn:E; [eauto|].
    destruct (wf_out _ _ _ W' y E) as [_ EL]. unfold locked_by in EL. by rewrite decide_True in EL.
  - intros y Hy. simpl. rewrite elem_of_app. by left.
  - intros r. by rewrite Dl, El.
  - intros l'. rewrite <- Hlinks. unfold link_of. by rewrite D7.
  - intros r lr'. rewrite D6, El. destruct (decide _); [|eauto].
    destruct (lrs st !! r) as [lq|] eqn:Eq; [|done]. intros [= <-]. exists lq. split; [done|]. right.
    simpl. rewrite elem_of_app, list_elem_of_singleton. by right.
  - rewrite D9, (lrs_size _ _ Dl). eapply (allocs_size _ _ st2 (plockSet lrt) (fst l) t W2).
    + intros y Hy. rewrite Em. by apply Hm.
    + by rewrite Esz, El.
    + rewrite Em, <- Es. by eapply wf_lr.
    + rewrite Em. by eapply wf_lr.
    + intros E. apply Nc. rewrite E. apply rtc_refl.
Qed.
End Remove.

Lemma db_remove_link_spec e lk st l t p lra :
  held e lk st -> (forall y, 0 <= e y) ->
  (forall y, Z.of_nat (size (lrs st)) + e y + 3 < int_max) ->
  (size (sets st) <= size (lrs st))%nat ->
  (forall y, 0 < plus_in e (locked lk) y -> members st y ≠ []) ->
  link_of st l = Some p -> ltype p = DB_LINK -> pvt p = Some t ->
  lrs st !! fst l = Some lra -> plockSet lra ∈ locked lk ->
  wp (dbDbRemoveLink calloc me (Some lk) st l) (fun '(lko, st') => exists lk', lko = Some lk' /\
    removed e lk l (mkLink PV_LINK (lset p) None) st lk' st').
Proof.
  intros H He Hb Hle Hm Ep Tp Vp Ea Ia. pose proof H as [[W G F P] Nd Hd].
  unfold dbDbRemoveLink. rewrite (get_link_spec st l p Ep). cbn [ebind]. rewrite Vp. cbn [the ebind].
  wp_use (unset_db_link_spec st l t p G Ep Tp Vp) as st2.
  intros (R & Hedge & Hlinks). pose proof (relinked_lrs _ _ R) as El.
  pose proof (wf_relinked _ _ _ _ R W) as W2.
  assert (Ht : edge st (fst l) t) by (apply Hedge; by right).
  destruct (proj1 (g_dom _ G t)) as [lrt Et]; [by apply (edge_dom st _ _ G Ht)|].
  assert (Es : plockSet lra = plockSet lrt) by (apply (P _ _ _ _ Ea Et), rtsc_lr, Ht).
  assert (F2 : flags0 st2) by (intros r lr; rewrite El; apply F).
  assert (Hsub : forall x y, conn st2 x y -> conn st x y).
  { intros x y. apply (rtsc_congruence (fun x : recid => x)). intros. apply Hedge. by left. }
  assert (Hb31 : forall y, Z.of_nat (size (lrs st)) + e y + 3 < 2 ^ 31) by exact Hb.
  wp_use (split_spec calloc me calloc_fresh _ _ st2 W2 (rl_graph _ _ R) F2) as [lk' st'].
  - intros y. rewrite El. unfold plus_in. specialize (Hb y). destruct (decide _); lia.
  - rewrite (rl_rest _ _ R). pose proof (Hb31 1%positive). pose proof (He 1%positive). simpl. lia.
  - by rewrite El.
  - rewrite El. exact Et.
  - done.
  - rewrite <- Es. unfold plus_in. rewrite decide_True by done. specialize (He (plockSet lra)). lia.
  - intros y Hy. pose proof (Hsub _ _ Hy) as Hy'.
    destruct (proj1 (g_dom _ G y)) as [lry Ey]; [eapply conn_dom; [exact G|exact Hy'|]; apply (g_dom _ G); eauto|].
    replace (members st2 (plockSet lrt)) with (members st (plockSet lrt)) by (by rewrite (rl_rest _ _ R)).
    rewrite (proj2 (P _ _ _ _ Et Ey) Hy'). by eapply wf_lr.
  - intros [(Hc & -> & ->)|(Nc & comp & x & Hcomp & D)].
    + exists lk. split; [done|]. by eapply removed_joined.
    + exists lk'. split; [done|]. by eapply removed_apart.
Qed.

(** ** The steps of a change of a link *)

(** What holds after the old link is removed: link [l] has the value [p]. *)
Record via (e : addr -> Z) (lk : dbLocker) st (l : linkid) (p : link) (lk' : dbLocker) st' : Prop := {
  via_held : held e lk' st';
  via_me : me_locker lk' = me_locker lk;
  via_refs : refs lk' = refs lk;
  via_locked : forall y, y ∈ locked lk -> y ∈ locked lk';
  via_changed : changed l p st st';
  via_kept : sets_kept lk' st st';
  via_size : (size (sets st') <= size (lrs st'))%nat
}.

Lemma via_refl e lk st l p :
  held e lk st -> link_of st l = Some p -> (size (sets st) <= size (lrs st))%nat -> via e lk st l p lk st.
Proof.
  intros H Ep Hs. split; try done.
  - split; [done|]. intros l'. destruct (decide (l' = l)) as [->|]; done.
  - intros q lr E. eauto.
Qed.

(** Another value that is no database link. *)
Lemma held_put e lk st l p p' :
  held e lk st -> link_of st l = Some p -> ltype p ≠ DB_LINK -> ltype p' ≠ DB_LINK ->
  wp (put_link st l p') (fun st' => held e lk st' /\ lrs st' = lrs st /\ sets st' = sets st /\
    changed l p' st st').
Proof.
  intros [[W G F P] Nd Hd] Ep Np Np'. eapply wp_mono; [exact (put_link_spec st l p p' Ep)|]. intros st' Lw.
  destruct (other_graph st st' l p p' G Ep Np Np' Lw) as [R He].
  pose proof (relinked_lrs _ _ R) as El. destruct Lw as (E1 & _ & K1).
  assert (Es : sets st' = sets st) by (by rewrite E1).
  split; [split; [split|done|by rewrite Es]|split; [done|split; [done|split; [by rewrite El|done]]]].
  - by eapply wf_relinked.
  - apply R.
  - intros r lr. rewrite El. apply F.
  - eapply part_conn; [exact El|by apply conn_edges|done].
Qed.

Lemma via_put e lk st l p lk' st' p' :
  via e lk st l p lk' st' -> ltype p ≠ DB_LINK -> ltype p' ≠ DB_LINK ->
  wp (put_link st' l p') (fun st2 => via e lk st l p' lk' st2).
Proof.
  intros [H1 H2 H3 H4 [H5 H5'] H6 H7] Np Np'.
  assert (Ep : link_of st' l = Some p) by (by rewrite H5', decide_True).
  eapply wp_mono; [by apply (held_put e lk' st' l p p')|]. intros st2 (Hh & El & Es & [C1 C2]).
  split; try done.
  - split; [by rewrite El|]. intros l'. rewrite C2. destruct (decide (l' = l)) as [|N]; [done|].
    by rewrite H5', decide_False.
  - unfold sets_kept. by rewrite El.
  - by rewrite Es, El.
Qed.

(** The link without its support. *)
Definition cleared (p : link) : link :=
  match lset p with
  | None => p
  | Some dbDb_lset | Some dbCa_lset => mkLink PV_LINK None None
  | Some _ => mkLink (ltype p) None (pvt p)
  end.

Section Change.
Context (e : addr -> Z) (lk : dbLocker) (st : lk_state) (l : linkid) (p : link) (lra : lockRecord).
Hypothesis (H : held e lk st) (He : forall y, 0 <= e y).
Hypothesis (Hb : forall y, Z.of_nat (size (lrs st)) + e y + 3 < int_max).
Hypothesis (Hle : (size (sets st) <= size (lrs st))%nat).
Hypothesis (Hm : forall y, 0 < plus_in e (locked lk) y -> members st y ≠ []).
Hypothesis (Ep : link_of st l = Some p) (Hp : lset p = Some dbDb_lset <-> ltype p = DB_LINK).
Hypothesis (Ea : lrs st !! fst l = Some lra) (Ia : plockSet lra ∈ locked lk).

Lemma cleared_type : ltype (cleared p) ≠ DB_LINK.
Proof using Hp.
  clear -Hp. unfold cleared. destruct (lset p) as [[]|]; simpl; try done; rewrite <- Hp; done.
Qed.

Lemma remove_link_spec :
  wp (dbRemoveLink calloc me (Some lk) st l) (fun '(lko, st') => exists lk', lko = Some lk' /\
    via e lk st l (cleared p) lk' st').
Proof using All.
  unfold dbRemoveLink, cleared. rewrite (get_link_spec st l p Ep). cbn [ebind].
  assert (Keep : ltype p ≠ DB_LINK ->
    wp (let* '(locker, st) := inr (Some lk, st) in
        let* lnk := get_link st l in
        let* st := put_link st l (mkLink (ltype lnk) None (pvt lnk)) in inr (locker, st))
      (fun '(lko, st') => exists lk', lko = Some lk' /\ via e lk st l (mkLink (ltype p) None (pvt p)) lk' st')).
  { intros Np. cbn [ebind]. rewrite (get_link_spec _ _ _ Ep). cbn [ebind].
    wp_use (via_put e lk st l p lk st (mkLink (ltype p) None (pvt p))) as st2; [by apply via_refl|done|done|].
    intros V. by exists lk. }
  destruct (lset p) as [[]|] eqn:Es.
  - assert (Tp : ltype p = DB_LINK) by (by apply Hp).
    pose proof (ok_graph _ _ _ (hd_ok _ _ _ H)) as G.
    destruct (g_target _ G l p Ep Tp) as (t & Vp & _).
    wp_use (db_remove_link_spec e lk st l t p lra H He Hb Hle Hm Ep Tp Vp Ea Ia) as [lko st1].
    intros (lk' & -> & V1 & V2 & V3 & V4 & V5 & V6 & V7). rewrite Es in V5.
    assert (E1 : link_of st1 l = Some (mkLink PV_LINK (Some dbDb_lset) None))
      by (by rewrite (ch_links _ _ _ _ V5), decide_True).
    rewrite (get_link_spec _ _ _ E1). cbn [ebind].
    wp_use (via_put e lk st l (mkLink PV_LINK (Some dbDb_lset) None) lk' st1 (mkLink PV_LINK None None)) as st2.
    + by split.
    + done.
    + done.
    + intros V. exists lk'. done.
  - assert (Np : ltype p ≠ DB_LINK) by (rewrite <- Hp; done). apply wp_bind.
    wp_use (via_put e lk st l p lk st (mkLink PV_LINK None None)) as st1; [by apply via_refl|done|done|].
    intros V. simpl. assert (E1 : link_of st1 l = Some (mkLink PV_LINK None None))
      by (by rewrite (ch_links _ _ _ _ (via_changed _ _ _ _ _ _ _ V)), decide_True).
    rewrite (get_link_spec _ _ _ E1). cbn [ebind].
    wp_use (via_put _ _ _ _ _ _ _ (mkLink PV_LINK None None) V) as st2; [done|done|]. intros V'. by exists lk.
  - apply Keep. by rewrite <- Hp.
  - apply Keep. by rewrite <- Hp.
  - exists lk. split; [done|]. by apply via_refl.
Qed.

(** ** The value of the link after the call *)

Definition made_link (p : link) (pdbaddr : option recid) : link :=
  match ltype p with
  | CONSTANT => const_link
  | JSON_LINK => json_link
  | PV_LINK => match pdbaddr with Some t => db_link_to t | None => ca_link end
  | _ => p
  end.

(** The value that [dbPutFieldLink] leaves. *)
Definition new_link (env : put_env) (p : link) (newtype : link_type) (pdbaddr : option recid) : link :=
  if negb (can_set env) then p
  else if isDevLink env && negb (del_ok env) then p
  else if negb (isDevLink env) && (if lset p then false else true) then p
  else if negb (set_ok env) then cleared p
  else
    let p := mkLink newtype (lset (cleared p)) None in
    if negb (add_ok env) then p else made_link p pdbaddr.

(** The locker, the records and link [l] at the end. *)
Record settled (q : link) (lk' : dbLocker) st' : Prop := {
  se_held : held e lk' st';
  se_me : me_locker lk' = me_locker lk;
  se_refs : refs lk' = refs lk;
  se_changed : changed l q st st';
  se_size : (size (sets st') <= size (lrs st'))%nat
}.

Lemma via_settled q lk' st' : via e lk st l q lk' st' -> settled q lk' st'.
Proof using Type. intros []. by split. Qed.

Lemma add_link_spec q lk' st' pdbaddr :
  via e lk st l q lk' st' -> ltype q ≠ DB_LINK ->
  (forall t, pdbaddr = Some t -> exists lrt, lrs st !! t = Some lrt /\ plockSet lrt ∈ locked lk) ->
  wp (dbAddLink me (Some lk') st' l pdbaddr) (fun '(lko, st2) => exists lk2, lko = Some lk2 /\
    settled (made_link q pdbaddr) lk2 st2).
Proof using All.
  intros V Nq Ht. pose proof V as [V1 V2 V3 V4 [V5 V5'] V6 V7].
  assert (Eq : link_of st' l = Some q) by (by rewrite V5', decide_True).
  assert (Put : forall q', ltype q' ≠ DB_LINK -> wp (let* st := put_link st' l q' in inr (Some lk', st))
    (fun '(lko, st2) => exists lk2, lko = Some lk2 /\ settled q' lk2 st2)).
  { intros q' Nq'. wp_use (via_put e lk st l q lk' st' q' V Nq Nq') as st2.
    intros V'. exists lk'. split; [done|]. by apply via_settled. }
  unfold dbAddLink, made_link. rewrite (get_link_spec _ _ _ Eq). cbn [ebind].
  destruct (ltype q) eqn:Tq; try done.
  - by apply Put.
  - destruct pdbaddr as [t|]; [|by apply Put].
    destruct (Ht t eq_refl) as (lrt & Et & It).
    destruct (proj2 (V5 (fst l))) as [lra' Ea']; [eauto|]. destruct (proj2 (V5 t)) as [lrt' Et']; [eauto|].
    assert (Ia' : plockSet lra' ∈ locked lk').
    { destruct (V6 _ _ Ea') as (lr & E & [Es|?]); [|done]. rewrite Es.
      rewrite Ea in E. injection E as <-. by apply V4. }
    assert (It' : plockSet lrt' ∈ locked lk').
    { destruct (V6 _ _ Et') as (lr & E & [Es|?]); [|done]. rewrite Es.
      rewrite Et in E. injection E as <-. by apply V4. }
    eapply wp_mono; [apply (db_add_link_spec e lk' st' l t q lra' lrt' V1 He)|]; try done.
    + intros y. by rewrite (lrs_size _ _ V5).
    + by rewrite Tq.
    + intros [lko st2] (lk2 & -> & A1 & A2 & A3 & [A4 A4'] & A5). exists lk2. split; [done|].
      split; [done|congruence|congruence| |].
      * split; [intros r; by rewrite A4|]. intros l'. rewrite A4'. destruct (decide _); [done|].
        by rewrite V5', decide_False.
      * by rewrite A5, (lrs_size _ _ A4).
  - exists lk'. split; [done|]. by apply via_settled.
  - by apply Put.
Qed.

Lemma change_link_spec env newtype pdbaddr :
  newtype ≠ DB_LINK -> can_set env = true ->
  (forall t, pdbaddr = Some t -> exists lrt, lrs st !! t = Some lrt /\ plockSet lrt ∈ locked lk) ->
  wp (change_link calloc me env lk st l newtype pdbaddr) (fun '(lko, st') => exists lk', lko = Some lk' /\
    settled (new_link env p newtype pdbaddr) lk' st').
Proof using All.
  intros Nt Hc Ht. pose proof (via_refl e lk st l p H Ep Hle) as V0.
  unfold change_link, new_link. rewrite (get_link_spec _ _ _ Ep), Hc. cbn [ebind negb].
  destruct (isDevLink env && negb (del_ok env)).
  { exists lk. split; [done|]. by apply via_settled. }
  destruct (negb (isDevLink env) && (if lset p then false else true)).
  { exists lk. split; [done|]. by apply via_settled. }
  apply wp_bind. apply wp_mono with (P := fun '(lko, st') => exists lk', lko = Some lk' /\
    via e lk st l (cleared p) lk' st').
  { pose proof remove_link_spec as X. destruct (lset p) eqn:Es; [exact X|]. exists lk. split; [done|].
    unfold cleared. by rewrite Es. }
  intros [lko st1] (lk1 & -> & V1). destruct (negb (set_ok env)).
  { exists lk1. split; [done|]. by apply via_settled. }
  assert (E1 : link_of st1 l = Some (cleared p))
    by (by rewrite (ch_links _ _ _ _ (via_changed _ _ _ _ _ _ _ V1)), decide_True).
  rewrite (get_link_spec _ _ _ E1). cbn [ebind].
  wp_use (via_put e lk st l (cleared p) lk1 st1 (mkLink newtype (lset (cleared p)) None)) as st2.
  - done.
  - apply cleared_type.
  - done.
  - intros V2. destruct (negb (add_ok env)).
    + exists lk1. split; [done|]. by apply via_settled.
    + by apply add_link_spec.
Qed.
End Change.

Lemma new_link_lset env p newtype pdbaddr :
  newtype ≠ DB_LINK -> (lset p = Some dbDb_lset <-> ltype p = DB_LINK) ->
  (lset (new_link env p newtype pdbaddr) = Some dbDb_lset <->
   ltype (new_link env p newtype pdbaddr) = DB_LINK).
Proof.
  intros Nt Hp. pose proof (cleared_type p Hp) as Nc.
  assert (Lc : lset (cleared p) = None) by (unfold cleared; destruct (lset p) as [[]|] eqn:E; done).
  unfold new_link, made_link. rewrite Lc.
  repeat match goal with |- context [if ?b then _ else _] => destruct b end; simpl; try done;
    try (rewrite Lc; split; done).
  destruct newtype; simpl; try done. by destruct pdbaddr.
Qed.

(** ** The whole call *)

(** Between calls: the sets are the components, the only references are those of the records, no mutex is
    locked. *)
Record db_inv st : Prop := {
  inv_ok : db_ok (fun _ => 0) unlocked st;
  inv_lsets : lsets_ok st;
  inv_size : (size (sets st) <= size (lrs st))%nat;
  inv_bound : Z.of_nat (size (lrs st)) + 8 < int_max
}.

Lemma wf_in h L st y : wf h L st -> h y ≠ 0 -> is_Some (sets st !! y).
Proof. intros W Hy. destruct (sets st !! y) eqn:E; [eauto|]. by destruct (wf_out _ _ _ W y E). Qed.

(** The references that are up to date name sets with records. *)
Lemma fresh_refs_spec h L st rs precs y :
  wf h L st -> rs ≡ₚ map (fun p => mkRef p (r ← p; plockSet <$> lrs st !! r)) precs ->
  1 <= nref rs y <-> exists r lr, Some r ∈ precs /\ lrs st !! r = Some lr /\ plockSet lr = y.
Proof.
  intros W P. rewrite (nref_perm _ _ y P), nref_pos. split.
  - intros (ref & (prec & -> & Hp)%list_elem_of_fmap & E). simpl in E. destruct prec as [r|]; [|done].
    simpl in E. destruct (lrs st !! r) as [lr|] eqn:El; [|done]. injection E as <-. eauto.
  - intros (r & lr & Hp & El & <-). exists (mkRef (Some r) (Some (plockSet lr))). split; [|done].
    apply list_elem_of_fmap. exists (Some r). simpl. by rewrite El.
Qed.

(** Both records locked, at the start of the change. *)
Lemma lock_both_spec fuel i st (l : linkid) pdbaddr :
  db_inv st -> is_Some (lrs st !! fst l) -> (forall t, pdbaddr = Some t -> is_Some (lrs st !! t)) ->
  (0 < fuel)%nat ->
  wp (let* '(lk, st) := dbLockerPrepare me i [Some (fst l); pdbaddr] st in
      dbScanLockMany me fuel lk st) (fun '(lk, st') =>
    held (nref (refs lk)) lk st' /\ same st st' /\ me_locker lk = i /\ zlen (refs lk) = 2 /\
    (forall y, y ∈ locked lk <-> 1 <= nref (refs lk) y) /\
    forall y, y ∈ locked lk <->
      exists r lr, (r = fst l \/ pdbaddr = Some r) /\ lrs st !! r = Some lr /\ plockSet lr = y).
Proof.
  intros [[W G F P] Ls Hsz Hb] [lra Ea] Ht Hf.
  assert (Hprec : Forall (fun p => forall r, p = Some r -> is_Some (recs st !! r) /\ is_Some (lrs st !! r))
    [Some (fst l); pdbaddr]).
  { constructor; [|constructor; [|done]].
    - intros r [= <-]. split; [apply (g_dom _ G)|]; eauto.
    - intros r E. split; [apply (g_dom _ G)|]; by apply Ht. }
  wp_use (prepare_spec me unlocked i [Some (fst l); pdbaddr] (fun _ => 0) st W) as [lk1 st1].
  { done. } { done. } { intros y. simpl. lia. }
  intros (W1 & S1 & Ok1 & Ei & El1 & _ & P1).
  assert (Elen : zlen (refs lk1) = 2) by (by rewrite P1).
  eapply wp_mono; [apply (many_spec me fuel (fun _ => 0) lk1 st1 W1)|]; try done.
  - exists (mkRef (Some (fst l)) (plockSet <$> lrs st !! fst l)), (fst l). split; [|done].
    rewrite P1. simpl. by left.
  - intros y. rewrite (same_lrs _ _ S1), Elen. lia.
  - intros [lk2 st2] (W2 & S2 & Nd & Ei2 & Hlk & P2).
    assert (S12 : same st st2) by (by etransitivity).
    assert (P2' : refs lk2 ≡ₚ map (fun p => mkRef p (r ← p; plockSet <$> lrs st !! r)) [Some (fst l); pdbaddr]).
    { rewrite P2, P1. simpl. unfold refresh. rewrite (same_lrs _ _ S1). simpl. by destruct pdbaddr. }
    split; [split; [split|done|]|].
    + rewrite Ei2, Ei in *. by eapply wf_ext; [exact W2| |].
    + eapply graph_ok_recs; [apply S12| |exact G]. intros r. by rewrite (same_lrs _ _ S12).
    + intros r lr. rewrite (same_lrs _ _ S12). apply F.
    + eapply part_conn; [apply S12| |done]. intros x y. apply conn_recs, S12.
    + intros y Hy. eapply wf_in; [exact W2|]. unfold plus_in. rewrite decide_True by done.
      pose proof (nref_nonneg (refs lk2) y). lia.
    + split; [done|]. split; [congruence|]. split; [by rewrite P2'|].
      split; [done|]. intros y. rewrite Hlk, (fresh_refs_spec _ _ st _ _ y W P2').
      setoid_rewrite elem_of_cons. setoid_rewrite list_elem_of_singleton. naive_solver.
Qed.

(** The end of the call: everything is unlocked and the references of the locker are released. *)
Lemma release_spec lk st :
  held (nref (refs lk)) lk st -> zlen (refs lk) = 2 -> Z.of_nat (size (lrs st)) + 8 < int_max ->
  wp (let* '(lk, st) := dbScanUnlockMany me lk st in dbLockerFinalize me lk st)
    (fun st' => db_ok (fun _ => 0) unlocked st' /\ same st st').
Proof.
  intros [[W G F P] Nd Hd] Hlen Hb.
  assert (Hbd : forall y, total (plus_in (nref (refs lk)) (locked lk)) st y < int_max).
  { intros y. pose proof (total_bound _ _ _ W y) as T. unfold plus_in in T at 2.
    pose proof (nref_le (refs lk) y). destruct (decide _); lia. }
  wp_use (unlock_many_spec me (me_locker lk) (nref (refs lk)) lk st W eq_refl Nd) as [lk1 st1].
  { intros y Hy. split; [by apply Hd|]. apply nref_nonneg. } { done. }
  intros (W1 & S1 & ->).
  eapply wp_mono; [apply (finalize_spec me unlocked (with_locked lk []) (fun _ => 0) st1)|]; try done.
  - intros y Hy. split; [|done]. eapply wf_in; [exact W1|]. simpl in Hy. lia.
  - intros y. specialize (Hbd y). unfold total in *. rewrite (same_members _ _ S1). simpl.
    unfold plus_in in Hbd. destruct (decide _); lia.
  - intros st2 [W2 S2]. assert (S12 : same st st2) by (by etransitivity). split; [|done].
    split; [done| | |].
    + eapply graph_ok_recs; [apply S12| |exact G]. intros r. by rewrite (same_lrs _ _ S12).
    + intros r lr. rewrite (same_lrs _ _ S12). apply F.
    + eapply part_conn; [apply S12| |done]. intros x y. apply conn_recs, S12.
Qed.

Lemma changed_same l p st st1 st2 st3 :
  same st st1 -> changed l p st1 st2 -> same st2 st3 -> changed l p st st3.
Proof.
  intros S1 [C1 C2] S3. split.
  - intros r. by rewrite (same_lrs _ _ S3), C1, (same_lrs _ _ S1).
  - intros l'. unfold link_of. rewrite (same_recs _ _ S3), <- (same_recs _ _ S1). apply C2.
Qed.

Lemma put_field_link_spec fuel i env st l newtype pdbaddr p :
  db_inv st -> link_of st l = Some p -> (forall t, pdbaddr = Some t -> is_Some (recs st !! t)) ->
  newtype ≠ DB_LINK -> (0 < fuel)%nat ->
  wp (dbPutFieldLink calloc me fuel i env st l newtype pdbaddr) (fun st' =>
    db_inv st' /\ changed l (new_link env p newtype pdbaddr) st st').
Proof.
  intros I Ep Ht Nt Hf. pose proof I as [[W G F P] Ls Hsz Hb].
  assert (Ha : is_Some (lrs st !! fst l)) by (apply (g_dom _ G); by eapply link_of_rec).
  assert (Ht' : forall t, pdbaddr = Some t -> is_Some (lrs st !! t)) by (intros; apply (g_dom _ G); auto).
  pose proof (lock_both_spec fuel i st l pdbaddr I Ha Ht' Hf) as X. unfold dbPutFieldLink.
  destruct (dbLockerPrepare _ _ _ _) as [|[lk0 st0]]; [done|]. cbn [ebind] in X |- *.
  eapply wp_step; [exact X|]. intros [lk1 st1] (Hh & S1 & Ei & Hlen & Hlk & Hsets).
  assert (Ep1 : link_of st1 l = Some p) by (unfold link_of; by rewrite (same_recs _ _ S1)).
  apply wp_bind. apply wp_mono with (P := fun '(lko, st') => exists lk', lko = Some lk' /\
    settled (nref (refs lk1)) lk1 st1 l (new_link env p newtype pdbaddr) lk' st').
  - destruct (can_set env) eqn:Ec.
    + destruct Ha as [lra Ea].
      apply (change_link_spec _ lk1 st1 l p lra); rewrite ?(same_lrs _ _ S1), ?(same_size _ _ S1); try done.
      * intros y. apply nref_nonneg.
      * intros y. pose proof (nref_le (refs lk1) y). lia.
      * intros y Hy. assert (Hin : y ∈ locked lk1).
        { unfold plus_in in Hy. destruct (decide (y ∈ locked lk1)); [done|]. apply Hlk. lia. }
        apply Hsets in Hin as (r & lr & _ & Er & <-). rewrite (same_members _ _ S1).
        pose proof (wf_lr _ _ _ W _ _ Er) as Hr. intros E. rewrite E in Hr. by apply not_elem_of_nil in Hr.
      * exact (Ls l p Ep).
      * apply Hsets. exists (fst l), lra. auto.
      * intros t Et. destruct (Ht' t Et) as [lrt Elrt]. exists lrt. split; [done|]. apply Hsets. exists t, lrt. auto.
    + exists lk1. split; [done|]. apply via_settled. unfold new_link. rewrite Ec. simpl.
      apply via_refl; [done|done|]. by rewrite (same_lrs _ _ S1), (same_size _ _ S1).
  - intros [lko st2] (lk2 & -> & [T1 T2 T3 T4 T5]). cbn [the ebind]. rewrite <- T3 in *.
    pose proof (lrs_size _ _ (ch_lrs _ _ _ _ T4)) as Esz. rewrite (same_lrs _ _ S1) in Esz.
    eapply wp_mono; [apply (release_spec lk2 st2 T1 Hlen)|].
    + by rewrite Esz.
    + intros st3 [O3 S3]. pose proof (changed_same _ _ _ _ _ _ S1 T4 S3) as C. split; [|done].
      split; [done| | |].
      * intros l' p'. rewrite (ch_links _ _ _ _ C). destruct (decide (l' = l)) as [->|]; [|apply Ls].
        intros [= <-]. apply new_link_lset; [done|]. exact (Ls l p Ep).
      * by rewrite (same_size _ _ S3), (same_lrs _ _ S3).
      * by rewrite (same_lrs _ _ S3), Esz.
Qed.

(** ** Initialisation *)

(** While the records are created: the records [rs] have a set of their own each. *)
Record created (st0 : lk_state) (rs : list recid) st : Prop := {
  cr_wf : wf (fun _ => 0) unlocked st;
  cr_recs : recs st = recs st0;
  cr_dom : forall r, is_Some (lrs st !! r) <-> r ∈ rs;
  cr_flags : flags0 st;
  cr_own : forall r1 r2 lr1 lr2, lrs st !! r1 = Some lr1 -> lrs st !! r2 = Some lr2 ->
    plockSet lr1 = plockSet lr2 -> r1 = r2;
  cr_size : size (sets st) = length rs;
  cr_free : lockSetsFree st = []
}.

Lemma create_spec st0 rs st r :
  created st0 rs st -> is_Some (recs st0 !! r) -> r ∉ rs -> Z.of_nat (length rs) + 2 < 2 ^ 64 ->
  wp (createLockRecord calloc st r) (fun st' => created st0 (rs ++ [r]) st').
Proof.
  intros [W Er Hd F Own Hsz Hfree] [rc Hr] Nr Hb. unfold createLockRecord, get_rec.
  rewrite Er, Hr. cbn [the ebind].
  assert (En : lrs st !! r = None) by (destruct (lrs st !! r) eqn:E; [destruct Nr; apply Hd; eauto|done]).
  rewrite En. cbn [lk_assert ebind].
  wp_use (makeSet_spec calloc calloc_fresh _ _ st W) as [x st1]; [by rewrite Hsz|].
  intros [N1 (N2 & N3 & N4) [s Es] N6 N7 N8 N9 N10]. unfold get_set. simpl. rewrite Es. cbn [the ebind].
  assert (Ex : lockRecordList s = []) by (rewrite <- (members_set st1 x s Es), N8; done).
  assert (Hx : forall q lr, lrs st !! q = Some lr -> plockSet lr ≠ x).
  { intros q lr Eq <-. pose proof (wf_lr _ _ _ W _ _ Eq) as Hq. rewrite N4 in Hq.
    by apply not_elem_of_nil in Hq. }
  simpl. split.
  - pose proof (wf_ref _ _ _ N1 _ _ Es) as Hc. rewrite hadd_eq in Hc.
    eapply (wf_join (fun _ => 0)); [exact N1|exact Es|lia|by rewrite N6|done].
  - simpl. congruence.
  - intros q. simpl. rewrite N6, lookup_insert_is_Some', elem_of_app, list_elem_of_singleton, Hd. naive_solver.
  - intros q lr. simpl. rewrite N6, lookup_insert_Some. intros [[<- <-]|[? ?]]; [done|by eapply F].
  - intros r1 r2 lr1 lr2. simpl. rewrite N6, !lookup_insert_Some.
    intros [[<- <-]|[? E1]] [[<- <-]|[? E2]]; simpl; intros E; [done| | |eauto].
    + by destruct (Hx _ _ E2).
    + by destruct (Hx _ _ E1).
  - simpl. rewrite map_size_insert, Es, N9, length_app. unfold allocs. rewrite Hfree. simpl. lia.
  - simpl. by rewrite N10, Hfree.
Qed.

Lemma create_all_spec st0 l : forall rs st,
  created st0 rs st -> (forall r, r ∈ l -> is_Some (recs st0 !! r)) -> NoDup (rs ++ l) ->
  Z.of_nat (length (rs ++ l)) + 2 < 2 ^ 64 ->
  wp (dbLockInitRecords calloc l st) (fun st' => created st0 (rs ++ l) st').
Proof.
  unfold dbLockInitRecords. induction l as [|r l IH]; intros rs st C Hr Nd Hb; simpl forEachRecord.
  { rewrite app_nil_r. exact C. }
  replace (rs ++ r :: l) with ((rs ++ [r]) ++ l) in Nd, Hb |- * by (by rewrite <- app_assoc).
  rewrite !length_app in Hb. simpl in Hb.
  wp_use (create_spec st0 rs st r C) as st1.
  - apply Hr. by left.
  - apply NoDup_app in Nd as (Nd & _ & _). apply NoDup_app in Nd as (_ & Nr & _).
    intros Hin. eapply Nr; [exact Hin|]. by left.
  - lia.
  - intros C1. apply (IH _ _ C1); [intros; apply Hr; by right|done|]. rewrite !length_app. simpl. lia.
Qed.

(** The database after it is loaded: the link fields hold no database links yet. *)
Record loaded (rs : list recid) st : Prop := {
  ld_sets : sets st = ∅ /\ lockSetsActive st = [] /\ lockSetsFree st = [] /\ next_id st = 1;
  ld_lrs : lrs st = ∅;
  ld_recs : forall r, is_Some (recs st !! r) <-> r ∈ rs;
  ld_nodup : NoDup rs;
  ld_links : forall l p, link_of st l = Some p -> ltype p ≠ DB_LINK /\ lset p ≠ Some dbDb_lset;
  ld_backs : forall r b, bklnk_of st r = Some b -> b = [];
  ld_bound : Z.of_nat (length rs) + 8 < int_max
}.

Lemma loaded_created rs st : loaded rs st -> created st [] st.
Proof.
  intros [(E1 & E2 & E3 & E4) E5 _ _ _ _ _].
  assert (Em : forall x, members st x = []) by (intros x; unfold members; by rewrite E1, lookup_empty).
  split; try done.
  - split; rewrite ?E1, ?E2, ?E3, ?E4, ?E5; intros; rewrite ?Em, ?lookup_empty in *; try done.
    + by apply not_elem_of_nil in H.
    + apply NoDup_nil_2.
    + rewrite elem_of_nil. split; [done|]. by intros (? & ? & _).
    + rewrite elem_of_nil. split; [done|]. by intros (? & ? & _).
    + apply NoDup_nil_2.
    + apply NoDup_nil_2.
  - intros r. rewrite E5, lookup_empty, elem_of_nil. split; [by intros [? ?]|done].
  - intros r lr. by rewrite E5.
  - intros r1 r2 lr1 lr2. by rewrite E5.
  - by rewrite E1.
Qed.

(** No edges: every record is a component. *)
Lemma created_inv rs st0 st : loaded rs st0 -> created st0 rs st -> db_inv st.
Proof.
  intros [_ _ Hr Nd Hl Hb Hbd] [W Er Hd F Own Hsz _].
  assert (Hlink : forall l p, link_of st l = Some p -> ltype p ≠ DB_LINK /\ lset p ≠ Some dbDb_lset)
    by (intros l p; unfold link_of; rewrite Er; apply Hl).
  assert (Hback : forall r b, bklnk_of st r = Some b -> b = [])
    by (intros r b; unfold bklnk_of; rewrite Er; apply Hb).
  assert (Nl : forall l t, ~ db_link st l t) by (intros l t (p & E & T & _); by apply Hlink in E as [? _]).
  assert (Hlen : size (lrs st) = length rs).
  { rewrite <- size_dom, <- (size_list_to_set (C := gset recid) rs) by done. f_equal.
    apply set_eq. intros r. by rewrite elem_of_dom, elem_of_list_to_set. }
  split; [split; [done| |done|]| | |].
  - split.
    + intros r. by rewrite Er, Hr, Hd.
    + intros l p E T. by apply Hlink in E as [? _].
    + intros t b l E. rewrite (Hback t b E), elem_of_nil. split; [done|]. by intros ?%Nl.
    + intros t b E. rewrite (Hback t b E). apply NoDup_nil_2.
  - intros r1 r2 lr1 lr2 E1 E2. split.
    + intros E. rewrite (Own r1 r2 lr1 lr2 E1 E2 E). apply rtc_refl.
    + intros Hc. inversion Hc as [|x y z Hs _]; subst; [congruence|].
      destruct Hs as [[i H]|[i H]]; by apply Nl in H.
  - intros l p E. apply Hlink in E as [? ?]. tauto.
  - by rewrite Hlen, Hsz.
  - by rewrite Hlen.
Qed.

(** A link found at initialisation. *)
Lemma init_link_spec st l p target :
  db_inv st -> link_of st l = Some p -> ltype p ≠ DB_LINK ->
  (forall t, target = Some t -> is_Some (recs st !! t)) ->
  wp (dbDbInitLink me st l target) (fun '(b, st') => b = (if target then true else false) /\
    db_inv st' /\ changed l (match target with Some t => db_link_to t | None => p end) st st').
Proof.
  intros I Ep Np Ht. pose proof I as [[W G F P] Ls Hsz Hb]. unfold dbDbInitLink.
  destruct target as [t|].
  2: { simpl. do 3 (split; [done|]). intros l'. destruct (decide (l' = l)) as [->|]; done. }
  pose proof (Ht t eq_refl) as Hd.
  wp_use (set_db_link_spec st l t p G Ep Np Hd) as st2.
  intros (R & Hedge & Hlinks). pose proof (relinked_lrs _ _ R) as El.
  pose proof (wf_relinked _ _ _ _ R W) as W2.
  destruct (proj1 (g_dom _ G (fst l)) (link_of_rec _ _ _ Ep)) as [lra Ea].
  destruct (proj1 (g_dom _ G t) Hd) as [lrt Et].
  assert (Ea2 : lrs st2 !! fst l = Some lra) by (by rewrite El).
  assert (Et2 : lrs st2 !! t = Some lrt) by (by rewrite El).
  assert (F2 : flags0 st2) by (intros r lr; rewrite El; apply F).
  assert (Hb2 : forall y : addr, Z.of_nat (size (lrs st2)) + 0 + 2 < int_max) by (intros _; rewrite El; lia).
  wp_use (merge_spec me _ _ st2 W2 (fst l) t lra lrt Ea2 Et2 (fun _ => Z.le_refl 0) Hb2 None) as [lko st'];
    [done|done|]. intros Hres.
  assert (X : db_ok (fun _ => 0) unlocked st' /\ recs st' = recs st2 /\ size (sets st') = size (sets st2) /\
    (forall r, is_Some (lrs st' !! r) <-> is_Some (lrs st2 !! r)) /\
    exists lra' lrt', lrs st' !! fst l = Some lra' /\ lrs st' !! t = Some lrt' /\ plockSet lra' = plockSet lrt').
  { destruct (decide (plockSet lra = plockSet lrt)) as [E|N].
    - destruct Hres as [_ ->]. split; [split; [done|apply R|done|]|do 3 (split; [done|]); by exists lra, lrt].
      eapply (part_merge st st2 (fst l) t); eauto. intros q. rewrite El. by apply same_merged_lrs.
    - destruct Hres as [_ Hm].
      destruct (merged_ok _ _ st st2 st' (fst l) t lra lrt _ P R F2 Hedge Ea2 Et2 Hm) as (G' & F' & P' & D').
      pose proof (mg_wf _ _ _ _ _ _ _ Hm) as W'. simpl in W'.
      split; [split; [|done..]|split; [apply Hm|split; [apply Hm|split; [done|]]]].
      + eapply wf_ext; [exact W'| |done]. intros y. unfold hadd. by destruct (decide _).
      + rewrite !(mg_lrs _ _ _ _ _ _ _ Hm), Ea2, Et2. simpl.
        rewrite (decide_False (P := plockSet lra = plockSet lrt)), decide_True by done. eauto. }
  destruct X as (O' & Er & Esz & D' & lra' & lrt' & Ea' & Et' & Eq).
  unfold get_lr. rewrite Ea', Et'. cbn [the ebind]. rewrite bool_decide_true by done. simpl.
  assert (C : changed l (db_link_to t) st st').
  { split; [intros r; by rewrite D', El|]. intros l'. rewrite <- Hlinks. unfold link_of. by rewrite Er. }
  split; [done|]. split; [|done]. split; [done| | |].
  - intros l' p'. rewrite (ch_links _ _ _ _ C). destruct (decide (l' = l)); [by intros [= <-]|apply Ls].
  - rewrite Esz, (lrs_size _ _ (ch_lrs _ _ _ _ C)). by rewrite (rl_rest _ _ R).
  - by rewrite (lrs_size _ _ (ch_lrs _ _ _ _ C)).
Qed.

(** [db_inv] survives a change of a link that is no database link. *)
Lemma inv_put st l p p' :
  db_inv st -> link_of st l = Some p -> ltype p ≠ DB_LINK -> ltype p' ≠ DB_LINK -> lset p' ≠ Some dbDb_lset ->
  wp (put_link st l p') (fun st' => db_inv st' /\ changed l p' st st').
Proof.
  intros [[W G F P] Ls Hsz Hb] Ep Np Np' Nl. eapply wp_mono; [exact (put_link_spec st l p p' Ep)|].
  intros st' Lw. destruct (other_graph st st' l p p' G Ep Np Np' Lw) as [R He].
  pose proof (relinked_lrs _ _ R) as El. destruct Lw as (E1 & _ & K1).
  assert (Es : sets st' = sets st) by (by rewrite E1).
  split; [split; [split| | |]|].
  - by eapply wf_relinked.
  - apply R.
  - intros r lr. rewrite El. apply F.
  - eapply part_conn; [exact El|by apply conn_edges|done].
  - intros l' q. rewrite K1. destruct (decide (l' = l)); [|apply Ls]. intros [= <-]. tauto.
  - by rewrite Es, El.
  - by rewrite El.
  - split; [by rewrite El|exact K1].
Qed.

(** [dbInitLink]. *)
Lemma init_link_all_spec st l p ca target :
  db_inv st -> link_of st l = Some p -> ltype p ≠ DB_LINK ->
  (forall t, target = Some t -> is_Some (recs st !! t)) ->
  wp (dbInitLink me st l false ca target) (fun st' =>
    db_inv st' /\ changed l (made_link p (if ca then None else target)) st st').
Proof.
  intros I Ep Np Ht. unfold dbInitLink, made_link. rewrite (get_link_spec _ _ _ Ep). cbn [ebind].
  assert (Same : db_inv st /\ changed l p st st).
  { split; [done|]. split; [done|]. intros l'. destruct (decide (l' = l)) as [->|]; done. }
  destruct (ltype p) eqn:Tp; try done.
  - apply (inv_put st l p); rewrite ?Tp; done.
  - assert (Np' : ltype p ≠ DB_LINK) by (by rewrite Tp).
    destruct ca; [by apply (inv_put st l p)|]. destruct target as [t|]; [|by apply (inv_put st l p)].
    wp_use (init_link_spec st l p (Some t) I Ep Np' Ht) as [b st']. by intros [-> ?].
  - apply (inv_put st l p); rewrite ?Tp; done.
Qed.
End Links.
