(* ===== verification/DbLockMain.v ===== *)
(** * Lock sets: theorems

    The state after [dbLockInitRecords], any number of links at initialisation and any sequence of
    [dbPutFieldLink]; [dbScanLock] and [dbScanUnlock] of one thread; [dbLockCleanupRecords].  The last part evaluates
    [ioc/db/test/dbLockTest.c] on the model. *)

From stdpp Require Import base gmap list sorting fin_sets relations.
From Stdlib Require Import ZArith Lia Bool.
From S2P Require Import Prelude DbLock DbLockInv DbLocker DbLockSets DbLockGraph DbLockRun.
Open Scope Z_scope.

(** ** Sequences of calls *)

(** A call of [dbPutFieldLink]: the locker, the decisions of the rest of the function, the link, its
    new type and the record it is to name. *)
Record put_call := mkCall {
  pc_locker : lockerid;
  pc_env : put_env;
  pc_link : linkid;
  pc_type : link_type;
  pc_target : option recid
}.

Section Calls.
Context (calloc : gmap addr lockSet -> addr) (me : tid) (fuel : nat).

(** [doResolveLinks] over the links, each once: whether a link asks for Channel Access, and the record [dbNameToAddr] finds. *)
Fixpoint init_links (l : list (linkid * (bool * option recid))) st : lk_fault + lk_state :=
  match l with
  | [] => inr st
  | (plink, (ca, target)) :: rest =>
      let* st := dbInitLink me st plink false ca target in init_links rest st
  end.

Definition put_one (c : put_call) st : lk_fault + lk_state :=
  dbPutFieldLink calloc me fuel (pc_locker c) (pc_env c) st (pc_link c) (pc_type c) (pc_target c).

Fixpoint put_links (l : list put_call) st : lk_fault + lk_state :=
  match l with
  | [] => inr st
  | c :: rest => let* st := put_one c st in put_links rest st
  end.

(** Loading, [dbLockInitRecords], the links, and then changes of links. *)
Definition run_links (rs : list recid) (ls : list (linkid * (bool * option recid))) (cs : list put_call) st
    : lk_fault + lk_state :=
  let* st := dbLockInitRecords calloc rs st in
  let* st := init_links ls st in
  put_links cs st.
End Calls.

(** The link exists, and so does the record it is to name. *)
Definition link_there st (l : linkid) (target : option recid) : Prop :=
  is_Some (link_of st l) /\ forall t, target = Some t -> is_Some (recs st !! t).

(** What the calls make of the link [l], which holds [p] first. *)
Definition init_link_value (ls : list (linkid * (bool * option recid))) (l : linkid) (p : link) : link :=
  fold_left (fun p c => if decide (l = fst c)
    then made_link p (if (snd c).1 : bool then None else (snd c).2) else p) ls p.
Definition put_link_value (cs : list put_call) (l : linkid) (p : link) : link :=
  fold_left (fun p c => if decide (l = pc_link c)
    then new_link (pc_env c) p (pc_type c) (pc_target c) else p) cs p.

(** The same records, and the links with the values [f]. *)
Definition values st st' (f : linkid -> link -> link) : Prop :=
  (forall r, is_Some (lrs st' !! r) <-> is_Some (lrs st !! r)) /\
  forall l p, link_of st l = Some p -> link_of st' l = Some (f l p).

Lemma values_trans st st1 st2 f g :
  values st st1 f -> values st1 st2 g -> values st st2 (fun l p => g l (f l p)).
Proof. intros [H1 H2] [H3 H4]. split; [intros r; by rewrite H3|]. intros l p E. by apply H4, H2. Qed.

Lemma changed_values l p q st st' :
  link_of st l = Some p -> changed l q st st' ->
  values st st' (fun l' p' => if decide (l' = l) then q else p').
Proof.
  intros E [C1 C2]. split; [done|]. intros l' p' E'. rewrite C2. by destruct (decide (l' = l)).
Qed.

Lemma values_there st st' f l t : db_inv st -> db_inv st' -> values st st' f ->
  link_there st l t -> link_there st' l t.
Proof.
  intros I I' [V1 V2] [[p Ep] Ht]. split; [rewrite (V2 _ _ Ep); eauto|]. intros r E.
  apply (g_dom _ (ok_graph _ _ _ (inv_ok _ I'))), V1. apply (g_dom _ (ok_graph _ _ _ (inv_ok _ I))). auto.
Qed.

Section Runs.
Context (calloc : gmap addr lockSet -> addr) (me : tid) (fuel : nat).
Hypothesis (calloc_fresh : forall m, m !! calloc m = None) (Hf : (0 < fuel)%nat).

Lemma init_links_spec ls : forall st,
  db_inv st -> NoDup (map fst ls) ->
  (forall l ca t, (l, (ca, t)) ∈ ls ->
     link_there st l t /\ forall p, link_of st l = Some p -> ltype p ≠ DB_LINK) ->
  wp (init_links me ls st) (fun st' => db_inv st' /\ values st st' (init_link_value ls)).
Proof.
  induction ls as [|[l [ca t]] ls IH]; intros st I Nd Hl; simpl init_links; [by split|].
  simpl in Nd. apply NoDup_cons in Nd as [Nl Nd].
  destruct (Hl l ca t ltac:(by left)) as [[[p Ep] Ht] Hp].
  wp_use (init_link_all_spec me st l p ca t I Ep (Hp p Ep) Ht) as st1.
  intros [I1 C1]. pose proof (changed_values _ _ _ _ _ Ep C1) as V1.
  eapply wp_mono; [apply (IH st1 I1 Nd)|].
  - intros l' ca' t' Hin. destruct (Hl l' ca' t' ltac:(by right)) as [H1 H2].
    split; [exact (values_there _ _ _ _ _ I I1 V1 H1)|]. intros q.
    rewrite (ch_links _ _ _ _ C1), decide_False; [apply H2|].
    intros ->. apply Nl. apply list_elem_of_fmap. by exists (l, (ca', t')).
  - intros st2 [I2 V2]. split; [done|]. destruct (values_trans _ _ _ _ _ V1 V2) as [V3 V4].
    split; [done|]. intros l' p' E'. rewrite (V4 _ _ E'). unfold init_link_value. simpl.
    destruct (decide (l' = l)) as [->|]; [|done]. do 2 f_equal. congruence.
Qed.

Lemma put_links_spec cs : forall st,
  db_inv st -> (forall c, c ∈ cs -> link_there st (pc_link c) (pc_target c) /\ pc_type c ≠ DB_LINK) ->
  wp (put_links calloc me fuel cs st) (fun st' => db_inv st' /\ values st st' (put_link_value cs)).
Proof.
  induction cs as [|c cs IH]; intros st I Hc; simpl put_links; [by split|].
  destruct (Hc c ltac:(by left)) as [[[p Ep] Ht] Nt].
  wp_use (put_field_link_spec calloc me calloc_fresh fuel (pc_locker c) (pc_env c) st (pc_link c)
    (pc_type c) (pc_target c) p I Ep Ht Nt Hf) as st1.
  intros [I1 C1]. pose proof (changed_values _ _ _ _ _ Ep C1) as V1.
  eapply wp_mono; [apply (IH st1 I1)|].
  - intros c' Hin. destruct (Hc c' ltac:(by right)) as [H1 H2].
    split; [exact (values_there _ _ _ _ _ I I1 V1 H1)|done].
  - intros st2 [I2 V2]. split; [done|]. destruct (values_trans _ _ _ _ _ V1 V2) as [V3 V4].
    split; [done|]. intros l' p' E'. rewrite (V4 _ _ E'). unfold put_link_value. simpl.
    destruct (decide (l' = pc_link c)) as [->|]; [|done]. do 2 f_equal. congruence.
Qed.

Lemma run_links_spec rs ls cs st :
  loaded rs st -> NoDup (map fst ls) -> (forall l ca t, (l, (ca, t)) ∈ ls -> link_there st l t) ->
  (forall c, c ∈ cs -> link_there st (pc_link c) (pc_target c) /\ pc_type c ≠ DB_LINK) ->
  wp (run_links calloc me fuel rs ls cs st) (fun st' =>
    db_inv st' /\ (forall r, is_Some (lrs st' !! r) <-> r ∈ rs) /\
    forall l p, link_of st l = Some p -> link_of st' l = Some (put_link_value cs l (init_link_value ls l p))).
Proof.
  intros Ld Nd Hl Hc. unfold run_links.
  pose proof (ld_bound _ _ Ld) as Hb. unfold int_max in Hb.
  wp_use (create_all_spec calloc calloc_fresh st rs [] st (loaded_created rs st Ld)) as st1.
  - intros r Hr. by apply (ld_recs _ _ Ld).
  - simpl. apply (ld_nodup _ _ Ld).
  - simpl. lia.
  - simpl. intros C1. pose proof (created_inv rs st st1 Ld C1) as I1.
    assert (K : forall l, link_of st1 l = link_of st l) by (intros l; unfold link_of; by rewrite (cr_recs _ _ _ C1)).
    assert (Kt : forall l t, link_there st l t -> link_there st1 l t)
      by (intros l t; unfold link_there; by rewrite K, (cr_recs _ _ _ C1)).
    wp_use (init_links_spec ls st1 I1 Nd) as st2.
    + intros l ca t Hin. split; [by eapply Kt, Hl|]. intros p. rewrite K. intros Ep. by apply (ld_links _ _ Ld l p).
    + intros [I2 V2]. eapply wp_mono; [apply put_links_spec; [exact I2|]|].
      * intros c Hin. destruct (Hc c Hin) as [H1 H2].
        split; [exact (values_there _ _ _ _ _ I1 I2 V2 (Kt _ _ H1))|done].
      * intros st3 [I3 V3]. destruct (values_trans _ _ _ _ _ V2 V3) as [V4 V5].
        split; [done|]. split; [intros r; rewrite V4; apply (cr_dom _ _ _ C1)|].
        intros l p E. apply V5. by rewrite K.
Qed.
End Runs.

(** ** What the functions that read the sets return *)

Lemma lock_id_spec st r lr : db_inv st -> lrs st !! r = Some lr ->
  exists s, sets st !! plockSet lr = Some s /\ dbLockGetLockId st r = inr (id s) /\
    dbLockGetRefs st r = inr (zlen (lockRecordList s)).
Proof.
  intros I E. pose proof (ok_wf _ _ _ (inv_ok _ I)) as W.
  destruct (lr_set _ _ _ W r lr E) as (s & Es & _). exists s. split; [done|].
  unfold dbLockGetLockId, dbLockGetRefs, get_lr, get_set. rewrite E. simpl. rewrite Es. simpl.
  split; [done|]. rewrite (wf_ref _ _ _ W _ _ Es). f_equal. lia.
Qed.

(** The records connected to [r] by links. *)
Definition component st (r : recid) (comp : list recid) : Prop :=
  NoDup comp /\ forall t, t ∈ comp <-> conn st r t.

Lemma members_component st r lr s : db_inv st -> lrs st !! r = Some lr -> sets st !! plockSet lr = Some s ->
  component st r (lockRecordList s).
Proof.
  intros I E Es. destruct (inv_ok _ I) as [W G F P]. rewrite <- (members_set st _ s Es).
  split; [apply (wf_nodup _ _ _ W)|]. intros t. split.
  - intros Ht. destruct (wf_mem _ _ _ W _ _ Ht) as (lr' & E' & Ep). apply (P r t lr lr' E E'). done.
  - intros Hc. destruct (proj1 (g_dom _ G t)) as [lr' E'].
    { eapply conn_dom; [exact G|exact Hc|]. apply (g_dom _ G). eauto. }
    rewrite (proj2 (P r t lr lr' E E') Hc). by eapply wf_lr.
Qed.

(** (C3) After any sequence of calls: [dbLockInitRecords], the links found at initialisation, and then any
    number of changes of link fields with [dbPutFieldLink], whatever the other parts of that function decide,
    no [assert] of [dbLock.c] fails, no thread has to wait and the calls return; two records have the same
    lock set identifier if and only if they are connected by database links, the reference count of a set is the
    number of its records, the identifiers are at most the number of records and one, and every mutex is free.  The links
    are those the calls asked for. *)
Theorem lock_sets_are_components calloc me fuel rs ls cs st0 :
  (forall m, m !! calloc m = None) -> (0 < fuel)%nat -> loaded rs st0 -> NoDup (map fst ls) ->
  (forall l ca t, (l, (ca, t)) ∈ ls -> link_there st0 l t) ->
  (forall c, c ∈ cs -> link_there st0 (pc_link c) (pc_target c) /\ pc_type c ≠ DB_LINK) ->
  exists st, run_links calloc me fuel rs ls cs st0 = inr st /\
    (forall r1 r2, r1 ∈ rs -> r2 ∈ rs ->
       (dbLockGetLockId st r1 = dbLockGetLockId st r2 <-> conn st r1 r2)) /\
    (forall r, r ∈ rs -> exists n comp, dbLockGetLockId st r = inr n /\ 1 < n <= zlen rs + 1 /\
       component st r comp /\ dbLockGetRefs st r = inr (zlen comp)) /\
    (forall x s, sets st !! x = Some s -> lock s = None /\ ownerlocker s = None) /\
    forall l p, link_of st0 l = Some p -> link_of st l = Some (put_link_value cs l (init_link_value ls l p)).
Proof.
  intros Hca Hf Ld Nd Hl Hc.
  destruct (proj1 (wp_inr _ _) (run_links_spec calloc me fuel Hca Hf rs ls cs st0 Ld Nd Hl Hc))
    as (st & E & I & Hd & Hv).
  exists st. split; [done|]. destruct (inv_ok _ I) as [W G F P].
  assert (Hsz : Z.of_nat (size (sets st)) <= zlen rs).
  { pose proof (inv_size _ I). replace (length rs) with (size (lrs st)); [lia|].
    rewrite <- size_dom, <- (size_list_to_set (C := gset recid) rs) by apply (ld_nodup _ _ Ld).
    f_equal. apply set_eq. intros r. by rewrite elem_of_dom, elem_of_list_to_set. }
  split; [|split; [|split; [|done]]].
  - intros r1 r2 [lr1 E1]%Hd [lr2 E2]%Hd.
    destruct (lock_id_spec st r1 lr1 I E1) as (s1 & Es1 & -> & _).
    destruct (lock_id_spec st r2 lr2 I E2) as (s2 & Es2 & -> & _).
    rewrite <- (P r1 r2 lr1 lr2 E1 E2). split.
    + intros [= En]. exact (wf_id_inj _ _ _ W _ _ _ _ Es1 Es2 En).
    + intros Ep. rewrite Ep in Es1. congruence.
  - intros r [lr Er]%Hd. destruct (lock_id_spec st r lr I Er) as (s & Es & En & Eref).
    exists (id s), (lockRecordList s). split; [done|]. split; [|split; [|done]].
    + pose proof (wf_id _ _ _ W _ _ Es). pose proof (wf_next _ _ _ W). lia.
    + by eapply members_component.
  - intros x s Es. pose proof (wf_lock _ _ _ W _ _ Es) as El. by injection El.
Qed.

(** ** Locking one record *)

Section Scan.
Context (me : tid) (h : addr -> Z) (L : mutexes) (st : lk_state) (W : wf h L st).
Context (r : recid) (lr : lockRecord) (m : option (tid * nat)).
Hypothesis (E : lrs st !! r = Some lr) (Hh : 0 <= h (plockSet lr)).
Hypothesis (Hb : Z.of_nat (size (lrs st)) + h (plockSet lr) + 1 < int_max).
Let x := plockSet lr.

Lemma scan_total : 1 <= total h st x < int_max - 1.
Proof using All.
  pose proof (lr_live h L st W r lr E Hh) as [_ H]. pose proof (total_bound h L st W x). unfold x in *. lia.
Qed.

Lemma scan_lock_spec fuel :
  (0 < fuel)%nat -> mutex_lock me (fst (L x)) = inr m ->
  wp (dbScanLock me fuel st r) (fun st' => wf h (lupd L x (m, snd (L x))) st' /\ same st st').
Proof using All.
  intros Hf Hm. pose proof scan_total as Ht. pose proof (lr_live h L st W r lr E Hh) as Hl.
  unfold dbScanLock, dbLockGetRef, get_lr. rewrite E. cbn [the ebind].
  apply wp_bind. wp_use (incref_spec h L st x W Hl) as st1; [lia|]. intros [W1 S1]. simpl. fold x.
  destruct (proj2 (same_dom _ _ S1 x) (proj1 Hl)) as [s1 Es1].
  pose proof (total_refcount _ _ _ W1 _ _ Es1) as Er.
  rewrite total_hadd, decide_True, (same_total _ _ _ _ S1) in Er by done.
  unfold get_set. rewrite Es1. cbn [the ebind]. apply wp_assert; [apply Z.ltb_lt; lia|].
  destruct fuel as [|fuel]; [lia|]. simpl scan_retry. unfold scan_try.
  apply wp_bind. wp_use (lock_spec _ _ st1 x me m W1) as st2; [|done|].
  { eapply set_live; [exact W1|exact Es1|lia]. }
  intros [W2 S2]. unfold get_lr. rewrite (same_lrs _ _ S2), (same_lrs _ _ S1), E. cbn [the ebind].
  fold x. rewrite decide_True by done. assert (S12 : same st st2) by (by etransitivity).
  assert (Et : total (hadd h x 1) st2 x = total h st x + 1)
    by (rewrite total_hadd, decide_True, (same_total _ _ _ _ S12); done).
  wp_use (add_ref_spec _ _ st2 x (-1) W2) as [c st3].
  - split; [apply (same_dom _ _ S12), Hl|lia].
  - lia.
  - rewrite Et. intros (-> & W3 & S3). apply wp_assert; [apply Z.ltb_lt; lia|]. simpl. split.
    + eapply wf_ext; [exact W3| |done]. intros y. unfold hadd. destruct (decide _); lia.
    + by etransitivity.
Qed.

Lemma scan_unlock_spec :
  mutex_unlock me (fst (L x)) = inr m ->
  wp (dbScanUnlock me st r) (fun st' => wf h (lupd L x (m, snd (L x))) st' /\ same st st').
Proof using All.
  intros Hm. pose proof scan_total as Ht. pose proof (lr_live h L st W r lr E Hh) as Hl.
  unfold dbScanUnlock, get_lr. rewrite E. cbn [the ebind]. fold x.
  wp_use (incref_spec h L st x W Hl) as st1; [lia|]. intros [W1 S1].
  assert (Et : total (hadd h x 1) st1 x = total h st x + 1)
    by (rewrite total_hadd, decide_True, (same_total _ _ _ _ S1); done).
  wp_use (unlock_spec _ _ st1 x me m W1) as st2; [|done|].
  { split; [apply (same_dom _ _ S1), Hl|lia]. }
  intros [W2 S2]. assert (S12 : same st st2) by (by etransitivity).
  assert (Et2 : total (hadd h x 1) st2 x = total h st x + 1) by (by rewrite (same_total _ _ _ _ S2)).
  eapply wp_mono; [apply (decref_spec _ _ st2 x me W2)|].
  - apply (same_dom _ _ S12), Hl.
  - rewrite hadd_eq. unfold x. lia.
  - lia.
  - lia.
  - intros st3 [W3 S3]. split; [|by etransitivity].
    eapply wf_ext; [exact W3| |done]. intros y. unfold hadd. destruct (decide _); lia.
Qed.
End Scan.

(** [n] nested calls of [dbScanLock] and as many of [dbScanUnlock]. *)
Fixpoint nested (me : tid) (fuel n : nat) st r : lk_fault + lk_state :=
  match n with
  | O => inr st
  | S n =>
      let* st := dbScanLock me fuel st r in
      let* st := nested me fuel n st r in
      dbScanUnlock me st r
  end.

Lemma nested_spec me fuel r n : (0 < fuel)%nat -> forall h L st lr,
  wf h L st -> lrs st !! r = Some lr -> 0 <= h (plockSet lr) ->
  Z.of_nat (size (lrs st)) + h (plockSet lr) + 1 < int_max ->
  (fst (L (plockSet lr)) = None \/ exists k, fst (L (plockSet lr)) = Some (me, S k)) ->
  wp (nested me fuel n st r) (fun st' => wf h L st' /\ same st st').
Proof.
  intros Hf. induction n as [|n IH]; intros h L st lr W E Hh Hb HL; simpl nested; [done|].
  set (x := plockSet lr) in *.
  assert (Hm : exists k, mutex_lock me (fst (L x)) = inr (Some (me, S k)) /\
    mutex_unlock me (Some (me, S k)) = inr (fst (L x))).
  { destruct HL as [->|[k ->]]; simpl; [exists 0%nat|exists (S k)]; by rewrite !decide_True. }
  destruct Hm as (k & Hm & Hu).
  wp_use (scan_lock_spec me h L st W r lr _ E Hh Hb fuel Hf Hm) as st1. fold x. intros [W1 S1].
  assert (E1 : lrs st1 !! r = Some lr) by (by rewrite (same_lrs _ _ S1)).
  wp_use (IH h _ st1 lr W1 E1 Hh) as st2; [by rewrite (same_lrs _ _ S1)| |].
  { right. exists k. fold x. by rewrite lupd_eq. }
  intros [W2 S2]. assert (E2 : lrs st2 !! r = Some lr) by (by rewrite (same_lrs _ _ S2)).
  assert (S12 : same st st2) by (by etransitivity).
  eapply wp_mono; [apply (scan_unlock_spec me h _ st2 W2 r lr (fst (L x)) E2 Hh)|].
  - by rewrite (same_lrs _ _ S12).
  - fold x. by rewrite lupd_eq.
  - fold x. intros st3 [W3 S3]. split; [|by etransitivity].
    eapply wf_ext; [exact W3|done|]. intros y. rewrite lupd_eq. unfold lupd. simpl.
    destruct (decide (y = x)) as [->|]; [by destruct (L x)|done].
Qed.

(** ** Shutdown *)

Lemma free_record_spec me st r lr :
  wf (fun _ => 0) unlocked st -> Z.of_nat (size (lrs st)) + 1 < int_max -> lrs st !! r = Some lr ->
  wp (freeLockRecord me st r) (fun st' =>
    wf (fun _ => 0) unlocked st' /\ lrs st' = delete r (lrs st)).
Proof.
  intros W Hb E. unfold freeLockRecord, get_lr. rewrite E. cbn [the ebind].
  destruct (lr_set _ _ _ W r lr E) as (s & Es & Hr). unfold get_set. simpl. rewrite Es. cbn [the ebind].
  pose proof (wf_ref _ _ _ W _ _ Es) as Er.
  assert (Hn : 0 < zlen (lockRecordList s)) by (destruct (lockRecordList s); [by apply not_elem_of_nil in Hr|simpl; lia]).
  apply wp_assert; [apply Z.ltb_lt; lia|]. apply wp_assert; [by apply Z.ltb_lt|].
  unfold list_delete. rewrite decide_True by done. cbn [ebind].
  assert (P : lockRecordList s ≡ₚ r :: filter (.≠ r) (lockRecordList s)).
  { apply perm_filter_ne; [|done]. rewrite <- (members_set st _ s Es). apply (wf_nodup _ _ _ W). }
  pose proof (wf_leave _ _ _ r lr s _ W E Es ltac:(lia) P) as W1. set (st1 := put_set _ _ _) in *.
  eapply wp_mono; [apply (decref_spec _ _ st1 (plockSet lr) me W1)|].
  - simpl. rewrite lookup_insert_eq. eauto.
  - rewrite hadd_eq. lia.
  - pose proof (total_bound _ _ _ W1 (plockSet lr)) as T. rewrite hadd_eq in T.
    assert (size (lrs st1) <= size (lrs st))%nat by (apply map_subseteq_size; apply delete_subseteq). lia.
  - done.
  - intros st2 [W2 S2]. split; [|apply (same_lrs _ _ S2)].
    eapply wf_ext; [exact W2| |done]. intros y. unfold hadd. by destruct (decide _).
Qed.

Lemma free_all_spec me l : forall st,
  wf (fun _ => 0) unlocked st -> Z.of_nat (size (lrs st)) + 1 < int_max ->
  (forall r, r ∈ l -> is_Some (lrs st !! r)) -> NoDup l ->
  wp (forEachRecord (freeLockRecord me) l st) (fun st' =>
    wf (fun _ => 0) unlocked st' /\ forall r, is_Some (lrs st' !! r) <-> is_Some (lrs st !! r) /\ r ∉ l).
Proof.
  induction l as [|r l IH]; intros st W Hb Hl Nd; simpl forEachRecord.
  { simpl. split; [done|]. intros r. rewrite elem_of_nil. tauto. }
  apply NoDup_cons in Nd as [Nr Nd]. destruct (Hl r ltac:(by left)) as [lr E].
  wp_use (free_record_spec me st r lr W Hb E) as st1. intros [W1 E1].
  eapply wp_mono; [apply (IH st1 W1)|].
  - rewrite E1. assert (size (delete r (lrs st)) <= size (lrs st))%nat
      by (apply map_subseteq_size; apply delete_subseteq). lia.
  - intros q Hq. rewrite E1, lookup_delete_ne by (intros ->; done). apply Hl. by right.
  - done.
  - intros st2 [W2 H2]. split; [done|]. intros q. rewrite H2, E1, lookup_delete_is_Some, not_elem_of_cons.
    naive_solver.
Qed.

Lemma free_sets_spec l : forall st,
  NoDup l -> (forall x, x ∈ l -> exists s, sets st !! x = Some s /\ refcount s = 0 /\ lockRecordList s = []) ->
  wp (free_sets l st) (fun st' => lockSetsActive st' = lockSetsActive st /\ lockSetsFree st' = [] /\
    lrs st' = lrs st /\
    forall x, is_Some (sets st' !! x) <-> is_Some (sets st !! x) /\ x ∉ l).
Proof.
  induction l as [|x l IH]; intros st Nd Hl; simpl free_sets.
  { simpl. do 3 (split; [done|]). intros x. rewrite elem_of_nil. tauto. }
  apply NoDup_cons in Nd as [Nx Nd]. destruct (Hl x ltac:(by left)) as (s & Es & E0 & En).
  unfold get_set. rewrite Es. cbn [the ebind]. rewrite E0, En. simpl.
  eapply wp_mono; [apply (IH _ Nd)|].
  - intros y Hy. simpl. rewrite lookup_delete_ne by (intros ->; done). apply Hl. by right.
  - intros st' (H1 & H2 & Hr & H3). do 3 (split; [done|]). intros y. rewrite H3. simpl.
    rewrite lookup_delete_is_Some, not_elem_of_cons. naive_solver.
Qed.

Lemma cleanup_spec me rs st :
  db_inv st -> NoDup rs -> (forall r, is_Some (lrs st !! r) <-> r ∈ rs) ->
  wp (dbLockCleanupRecords me rs st) (fun '(leak, st') => leak = false /\ sets st' = ∅ /\ lrs st' = ∅ /\
    lockSetsActive st' = [] /\ lockSetsFree st' = []).
Proof.
  intros I Nd Hd. destruct (inv_ok _ I) as [W _ _ _]. pose proof (inv_bound _ I).
  unfold dbLockCleanupRecords.
  wp_use (free_all_spec me rs st W) as st1; [lia|by intros r Hr; apply Hd|done|].
  intros [W1 H1].
  assert (E1 : lrs st1 = ∅).
  { apply map_empty. intros r. destruct (lrs st1 !! r) as [lr|] eqn:E; [|done].
    destruct (proj1 (H1 r)) as [Hs Hr]; [eauto|]. by apply Hd in Hs. }
  assert (Hm : forall x s, sets st1 !! x = Some s -> lockRecordList s = [] /\ refcount s = 0).
  { intros x s E. assert (Hn : lockRecordList s = []).
    { destruct (lockRecordList s) as [|r l] eqn:El; [done|].
      destruct (wf_mem _ _ _ W1 x r) as (lr & E' & _); [|by rewrite E1 in E'].
      rewrite (members_set st1 x s E), El. by left. }
    split; [done|]. by rewrite (wf_ref _ _ _ W1 _ _ E), Hn. }
  assert (Ha : lockSetsActive st1 = []).
  { destruct (lockSetsActive st1) as [|x l] eqn:Ea; [done|].
    destruct (proj1 (wf_active _ _ _ W1 x)) as (s & Es & Hp); [rewrite Ea; by left|].
    destruct (Hm x s Es). lia. }
  wp_use (free_sets_spec (lockSetsFree st1) st1 (wf_nodup_free _ _ _ W1)) as st2.
  { intros x Hx. apply (wf_free _ _ _ W1) in Hx as (s & Es & E0). exists s. destruct (Hm x s Es). done. }
  intros (A2 & F2 & R2 & H2). simpl. rewrite A2, R2, Ha. unfold dbLockCountSets. rewrite Ha.
  split; [done|]. split; [|done]. apply map_empty. intros x.
  destruct (sets st2 !! x) as [s|] eqn:E; [|done]. destruct (proj1 (H2 x)) as [[s1 Es1] Hx]; [eauto|].
  destruct Hx. apply (wf_free _ _ _ W1). exists s1. destruct (Hm x s1 Es1). done.
Qed.

(** (C12) Whatever the calls did, [dbLockCleanupRecords] frees every lock record and every lock set: nothing leaks and
    no [assert] fails. *)
Theorem lock_sets_freed calloc me fuel rs ls cs st0 :
  (forall m, m !! calloc m = None) -> (0 < fuel)%nat -> loaded rs st0 -> NoDup (map fst ls) ->
  (forall l ca t, (l, (ca, t)) ∈ ls -> link_there st0 l t) ->
  (forall c, c ∈ cs -> link_there st0 (pc_link c) (pc_target c) /\ pc_type c ≠ DB_LINK) ->
  exists st, (let* st := run_links calloc me fuel rs ls cs st0 in dbLockCleanupRecords me rs st) =
    inr (false, st) /\ sets st = ∅ /\ lrs st = ∅ /\ lockSetsActive st = [] /\ lockSetsFree st = [].
Proof.
  intros Hca Hf Ld Nd Hl Hc.
  destruct (proj1 (wp_inr _ _) (run_links_spec calloc me fuel Hca Hf rs ls cs st0 Ld Nd Hl Hc))
    as (st & E & I & Hd & _).
  destruct (proj1 (wp_inr _ _) (cleanup_spec me rs st I (ld_nodup _ _ Ld) Hd))
    as ([leak st'] & E' & -> & H).
  exists st'. rewrite E. by rewrite <- E'.
Qed.

(** ** An example: [dbLockTest.c] *)

(** The next address, for examples. *)
Definition next_addr (m : gmap addr lockSet) : addr :=
  Pos.succ (map_fold (fun k _ a => Pos.max k a) 1%positive m).

Lemma next_addr_above (m : gmap addr lockSet) : forall k, is_Some (m !! k) -> (k < next_addr m)%positive.
Proof.
  unfold next_addr. apply (map_fold_weak_ind (fun r m => forall k, is_Some (m !! k) -> (k < Pos.succ r)%positive)).
  - intros k. rewrite lookup_empty. by intros [? ?].
  - intros i x m' r Hi IH k. rewrite lookup_insert_is_Some. intros [->|[_ Hk]]; [lia|].
    specialize (IH k Hk). lia.
Qed.

Lemma next_addr_fresh m : m !! next_addr m = None.
Proof.
  destruct (m !! next_addr m) eqn:E; [|done]. pose proof (next_addr_above m (next_addr m) ltac:(eauto)). lia.
Qed.

(** The records of [dbLockTest.db], with one link field each. *)
Definition string_link : link := mkLink PV_LINK None None.
Definition empty_link : link := mkLink CONSTANT None None.
Definition reca : recid := 1%positive.
Definition recb : recid := 2%positive.
Definition recc : recid := 3%positive.
Definition recd : recid := 4%positive.
Definition rece : recid := 5%positive.
Definition recf : recid := 6%positive.
Definition recg : recid := 7%positive.
Definition test_recs : list recid := [reca; recb; recc; recd; rece; recf; recg].
Definition test_db : lk_state :=
  mkSt ∅ [] [] 1 0 ∅ (list_to_map (map
    (fun r => (r, mkRec [if bool_decide (r ∈ [recb; recc; recd; rece]) then string_link else empty_link] []))
    test_recs)).
Definition sdis (r : recid) : linkid := (r, 0%nat).
Definition test_links : list (linkid * (bool * option recid)) :=
  [(sdis reca, (false, None)); (sdis recb, (false, Some recc)); (sdis recc, (false, Some recc));
   (sdis recd, (false, Some rece)); (sdis rece, (false, Some recf)); (sdis recf, (false, None));
   (sdis recg, (false, None))].
Definition plain_put : put_env := mkPut true false false None None false 0 0 0 0 0.
Definition test_call l newtype target : put_call := mkCall 9%positive plain_put l newtype target.

(** The set and the count of each record. *)
Definition sets_of (r : lk_fault + lk_state) : option (list (Z * Z)) :=
  match r with
  | inl _ => None
  | inr st => Some (omap (fun r => lr ← lrs st !! r; s ← sets st !! plockSet lr;
                                   Some (Zpos (plockSet lr), refcount s)) test_recs)
  end.
Definition test_run := run_links next_addr 1%positive 3.

Definition test_start := test_run test_recs test_links [] test_db.

(** [reca] alone, [recb] with [recc], [recd] with [rece] and [recf]. *)
Example testSets : sets_of test_start = Some [(2, 1); (3, 2); (3, 2); (5, 3); (5, 3); (5, 3); (8, 1)].
Proof. vm_compute. reflexivity. Qed.

(** [recb.SDIS] becomes a constant. *)
Example testLinkBreak :
  sets_of (test_run test_recs test_links [test_call (sdis recb) CONSTANT None] test_db) =
  Some [(2, 1); (3, 1); (4, 1); (5, 3); (5, 3); (5, 3); (8, 1)].
Proof. vm_compute. reflexivity. Qed.

(** [reca.SDIS] to [recg], with references held to both sets. *)
Example testLinkMake :
  (let* st := test_start in
   let* '(lA, st) := dbLockGetRef st reca in
   let* '(lG, st) := dbLockGetRef st recg in
   let* st := put_one next_addr 1%positive 3 (test_call (sdis reca) PV_LINK (Some recg)) st in
   let* sG := get_set st lG in
   let* st' := dbLockDecRef 1%positive st lG in
   let* st'' := dbLockDecRef 1%positive st' lA in
   inr (sets_of (inr st), refcount sG, sets_of (inr st''), dbLockCountSets st, dbLockCountSets st'')) =
  inr (Some [(2, 3); (3, 2); (3, 2); (5, 3); (5, 3); (5, 3); (2, 3)], 1,
       Some [(2, 2); (3, 2); (3, 2); (5, 3); (5, 3); (5, 3); (2, 2)], 4, 3).
Proof. vm_compute. reflexivity. Qed.

(** [recb.SDIS] from [recc] to [recg]. *)
Example testLinkChange :
  (let* st := test_start in
   let* '(lB, st) := dbLockGetRef st recb in
   let* '(lG, st) := dbLockGetRef st recg in
   let* st := put_one next_addr 1%positive 3 (test_call (sdis recb) PV_LINK (Some recg)) st in
   let* sG := get_set st lG in
   inr (sets_of (inr st), refcount sG)) =
  inr (Some [(2, 1); (3, 3); (4, 1); (5, 3); (5, 3); (5, 3); (3, 3)], 1).
Proof. vm_compute. reflexivity. Qed.

(** [recb.SDIS] to [recc] again. *)
Example testLinkNOP :
  sets_of (test_run test_recs test_links [test_call (sdis recb) PV_LINK (Some recc)] test_db) = sets_of test_start.
Proof. vm_compute. reflexivity. Qed.

(** A locker of all records: the counts when it is prepared, locked, with [reca] locked again, unlocked and freed. *)
Example testMultiLock :
  (let* st := test_start in
   let* '(lk, st1) := dbLockerPrepare 1%positive 9%positive
     [Some reca; Some recb; Some recc; None; Some recd; Some rece; Some recf; Some recg] st in
   let* '(lk, st2) := dbScanLockMany 1%positive 3 lk st1 in
   let* st3 := dbScanLock 1%positive 3 st2 reca in
   let* st4 := dbScanUnlock 1%positive st3 reca in
   let* '(lk', st5) := dbScanUnlockMany 1%positive lk st4 in
   let* st6 := dbLockerFinalize 1%positive lk' st5 in
   inr (sets_of (inr st1), zlen (locked lk), sets_of (inr st2), sets_of (inr st3),
        sets_of (inr st5), bool_decide (sets_of (inr st6) = sets_of (inr st)))) =
  inr (Some [(2, 2); (3, 4); (3, 4); (5, 6); (5, 6); (5, 6); (8, 2)], 4,
       Some [(2, 3); (3, 5); (3, 5); (5, 7); (5, 7); (5, 7); (8, 3)],
       Some [(2, 3); (3, 5); (3, 5); (5, 7); (5, 7); (5, 7); (8, 3)],
       Some [(2, 2); (3, 4); (3, 4); (5, 6); (5, 6); (5, 6); (8, 2)], true).
Proof. vm_compute. reflexivity. Qed.

(** ** The theorems on the example *)

Lemma test_db_loaded : loaded test_recs test_db.
Proof.
  assert (Hd : dom (recs test_db) = list_to_set (C := gset recid) test_recs) by (vm_compute; reflexivity).
  assert (Hp : map_Forall (fun _ rc => bklnk rc = [] /\
      Forall (fun p => ltype p ≠ DB_LINK /\ lset p ≠ Some dbDb_lset) (links rc)) (recs test_db))
    by compute_done.
  split; try done.
  - intros r. by rewrite <- elem_of_dom, Hd, elem_of_list_to_set.
  - compute_done.
  - intros l p E. unfold link_of in E. destruct (recs test_db !! fst l) as [rc|] eqn:Er; [|done].
    destruct (Hp _ _ Er) as [_ Hl]. simpl in E. exact (proj1 (Forall_lookup _ _) Hl _ _ E).
  - intros r b E. unfold bklnk_of in E. destruct (recs test_db !! r) as [rc|] eqn:Er; [|done].
    destruct (Hp _ _ Er) as [Hb _]. injection E as <-. done.
Qed.

Lemma test_links_there l ca t : (l, (ca, t)) ∈ test_links -> link_there test_db l t.
Proof.
  assert (H : Forall (fun c : linkid * (bool * option recid) => is_Some (link_of test_db (fst c)) /\
      match (snd c).2 with Some t => is_Some (recs test_db !! t) | None => True end) test_links)
    by (repeat constructor; vm_compute; eauto).
  intros Hl. destruct (proj1 (Forall_forall _ _) H _ Hl) as [H1 H2]. split; [exact H1|].
  intros t' ->. exact H2.
Qed.

(** [recb.SDIS] becomes a constant, [reca.SDIS] names [recg]. *)
Definition test_calls : list put_call :=
  [test_call (sdis recb) CONSTANT None; test_call (sdis reca) PV_LINK (Some recg)].

Lemma test_calls_there c : c ∈ test_calls ->
  link_there test_db (pc_link c) (pc_target c) /\ pc_type c ≠ DB_LINK.
Proof.
  unfold test_calls. rewrite !elem_of_cons, elem_of_nil. intros [->|[->|[]]]; simpl; split; try done;
    (split; [compute_done|]); intros t Ht; inversion Ht; subst; compute_done.
Qed.

Lemma lock_sets_are_components_witness : exists st,
  test_run test_recs test_links test_calls test_db = inr st /\
  (dbLockGetLockId st reca = dbLockGetLockId st recg <-> conn st reca recg) /\
  (dbLockGetLockId st recb = dbLockGetLockId st recc <-> conn st recb recc) /\
  link_of st (sdis reca) = Some (mkLink DB_LINK (Some dbDb_lset) (Some recg)).
Proof.
  destruct (lock_sets_are_components next_addr 1%positive 3 test_recs test_links test_calls test_db)
    as (st & E & H & _ & _ & Hl).
  - exact next_addr_fresh.
  - lia.
  - exact test_db_loaded.
  - compute_done.
  - exact test_links_there.
  - exact test_calls_there.
  - exists st. split; [exact E|]. split; [|split].
    + apply H; compute_done.
    + apply H; compute_done.
    + rewrite (Hl (sdis reca) empty_link); [|vm_compute]; reflexivity.
Defined.

Lemma lock_sets_freed_witness : exists st,
  (let* st := test_run test_recs test_links test_calls test_db in
   dbLockCleanupRecords 1%positive test_recs st) = inr (false, st) /\
  sets st = ∅ /\ lrs st = ∅ /\ lockSetsActive st = [] /\ lockSetsFree st = [].
Proof.
  apply (lock_sets_freed next_addr 1%positive 3 test_recs test_links test_calls test_db).
  - exact next_addr_fresh.
  - lia.
  - exact test_db_loaded.
  - compute_done.
  - exact test_links_there.
  - exact test_calls_there.
Defined.
