(* ===== verification/DbLockProg.v ===== *)
(** * Lock sets: the functions of [dbLock.c] as steps of a thread

    Several threads run the functions of [dbLock.c] at the same time.  Here each function is a program whose steps
    are the sections that are atomic in the code: an operation on a mutex, an atomic operation on a counter, the part
    between [epicsSpinLock] and [epicsSpinUnlock] of a record, the part under [lockSetsGuard]; what a thread does
    to lists and owners under the mutex of their set is a step of its own or joins the next one.
    Only the counter [recomputeCnt], which is increased inside of a spin lock but read without it, has
    its own step there.  [run] executes a program without other threads; the
    lemmas say that it is the function of [DbLock] then. *)

From stdpp Require Import base gmap list sorting.
From Stdlib Require Import ZArith Lia Bool.
From S2P Require Import Prelude DbLock.
Open Scope Z_scope.

(** ** Programs *)

(** [Act f k]: one atomic step [f], then [k] of its result; [LkBlocked] as result of [f] is a mutex that another thread
    holds.  [Inside rs k]: the thread uses the records [rs], which it has locked.  [Stop]: the bound on
    retries is used up, which the code does not have; [DbLockSystem] proves that no thread gets there when the bound is large enough. *)
Inductive prog (A : Type) : Type :=
  | Ret (a : A)
  | Stop
  | Inside (rs : list recid) (k : prog A)
  | Act {X : Type} (f : lk_state -> lk_fault + (X * lk_state)) (k : X -> prog A).
Arguments Ret {A} a.
Arguments Stop {A}.
Arguments Inside {A} rs k.
Arguments Act {A X} f k.

Fixpoint bind {A B} (p : prog A) (q : A -> prog B) : prog B :=
  match p with
  | Ret a => q a
  | Stop => Stop
  | Inside rs k => Inside rs (bind k q)
  | Act f k => Act f (fun x => bind (k x) q)
  end.

Notation "'do*' x '<-' p 'in' q" := (bind p (fun x => q))
  (at level 200, x name, p at level 100, q at level 200, right associativity) : epics_scope.
Notation "'do*' ' x '<-' p 'in' q" := (bind p (fun x => q))
  (at level 200, x strict pattern, p at level 100, q at level 200, right associativity) : epics_scope.

(** Without other threads. *)
Fixpoint run {A} (p : prog A) (st : lk_state) : lk_fault + (A * lk_state) :=
  match p with
  | Ret a => inr (a, st)
  | Stop => inl LkFuel
  | Inside _ k => run k st
  | Act f k => let* '(x, st) := f st in run (k x) st
  end.

(** A step with a result, a step without, and an [assert] about local variables. *)
Definition sec {X} (f : lk_state -> lk_fault + (X * lk_state)) : prog X := Act f Ret.
Definition upd (f : lk_state -> lk_fault + lk_state) : prog unit :=
  sec (fun st => let* st := f st in inr (tt, st)).
Definition get {X} (f : lk_state -> lk_fault + X) : prog X :=
  sec (fun st => let* x := f st in inr (x, st)).
Definition p_assert (b : bool) : prog unit :=
  if b then Ret tt else Act (X := unit) (fun _ => inl LkAssert) Ret.
Definition p_require (b : bool) : prog unit :=
  if b then Ret tt else Act (X := unit) (fun _ => inl LkCantProceed) Ret.
Definition p_the {A} (o : option A) : prog A :=
  match o with Some a => Ret a | None => Act (X := A) (fun _ => inl LkWild) Ret end.

Definition get_plock r st : lk_fault + addr := let* lr := get_lr st r in inr (plockSet lr).
Definition get_refcount x st : lk_fault + Z := let* s := get_set st x in inr (refcount s).
Definition get_count x st : lk_fault + Z := let* s := get_set st x in inr (zlen (lockRecordList s)).
Definition get_owner x st : lk_fault + option lockerid := let* s := get_set st x in inr (ownerlocker s).
Definition put_owner x ow st : lk_fault + lk_state :=
  let* s := get_set st x in inr (put_set st x (with_owner s ow)).

(** ** References *)

Section Prog.
Variable calloc : gmap addr lockSet -> addr.
Variable me : tid.

(** Under [lockSetsGuard]. *)
Definition unlist_set ls st : lk_fault + lk_state :=
  let* act := list_delete ls (lockSetsActive st) in
  inr (with_lists st act (lockSetsFree st ++ [ls])).

Definition p_dbLockDecRef (ls : addr) : prog unit :=
  do* cnt <- sec (fun st => add_ref st ls (-1)) in
  do* _ <- p_assert (0 <=? cnt) in
  if cnt =? 0 then
    do* _ <- upd (fun st => lock_set me st ls) in
    do* n <- get (get_count ls) in
    do* _ <- p_require (n =? 0) in
    do* _ <- upd (fun st => unlock_set me st ls) in
    upd (unlist_set ls)
  else Ret tt.

(** ** One record *)

(** Under the spin lock of [r]: whether the record has another set now, with a reference to it. *)
Definition scan_check r ls st : lk_fault + (option addr * lk_state) :=
  let* ls2 := get_plock r st in
  if decide (ls = ls2) then inr (None, st)
  else
    let* '(newcnt, st) := add_ref st ls2 1 in
    let* _ := lk_assert (2 <=? newcnt) in
    inr (Some ls2, st).

(** From the label [retry], at most [fuel] times; the code's [goto retry] has no bound. *)
Fixpoint p_scan_retry (fuel : nat) (r : recid) (ls : addr) : prog unit :=
  match fuel with
  | O => Stop
  | S fuel =>
      do* _ <- upd (fun st => lock_set me st ls) in
      do* again <- sec (scan_check r ls) in
      match again with
      | Some ls2 =>
          do* _ <- upd (fun st => unlock_set me st ls) in
          do* _ <- p_dbLockDecRef ls in
          p_scan_retry fuel r ls2
      | None =>
          do* cnt <- sec (fun st => add_ref st ls (-1)) in
          p_assert (0 <? cnt)
      end
  end.

Definition p_dbScanLock (fuel : nat) (r : recid) : prog unit :=
  do* ls <- sec (fun st => dbLockGetRef st r) in
  do* cnt <- get (get_refcount ls) in
  do* _ <- p_assert (0 <? cnt) in
  p_scan_retry fuel r ls.

Definition p_dbScanUnlock (r : recid) : prog unit :=
  do* ls <- get (get_plock r) in
  do* _ <- upd (fun st => dbLockIncRef st ls) in
  do* _ <- upd (fun st => unlock_set me st ls) in
  p_dbLockDecRef ls.

(** ** Several records *)

(** Under the spin lock of [r]: whether [ref] is stale, and its new value. *)
Definition ref_check (update : bool) r (old : option addr) st
    : lk_fault + (bool * option addr * lk_state) :=
  let* ls := get_plock r st in
  if decide (old = Some ls) then inr (false, old, st)
  else if update then
    let* st := dbLockIncRef st ls in
    inr (true, Some ls, st)
  else inr (true, old, st).

Definition p_update_ref (update : bool) (ref : lockRecordRef) : prog (bool * lockRecordRef) :=
  match plr ref with
  | None =>
      do* _ <- p_assert (if rset ref then false else true) in
      Ret (false, ref)
  | Some r =>
      do* '(stale, ls) <- sec (ref_check update r (rset ref)) in
      do* _ <-
        match rset ref with
        | Some oldref => if stale && update then p_dbLockDecRef oldref else Ret tt
        | None => Ret tt
        end in
      Ret (stale, mkRef (Some r) ls)
  end.

Fixpoint p_update_loop (update changed : bool) (rs : list lockRecordRef)
    : prog (bool * list lockRecordRef) :=
  match rs with
  | [] => Ret (changed, [])
  | ref :: rest =>
      do* '(stale, ref) <- p_update_ref update ref in
      if stale && negb update then Ret (true, ref :: rest)
      else
        do* '(c, rest') <- p_update_loop update (changed || stale) rest in
        Ret (c, ref :: rest')
  end.

Definition p_dbLockUpdateRefs (lk : dbLocker) (update : bool) : prog (bool * dbLocker) :=
  do* cnt <- get (fun st => inr (recomputeCnt st)) in
  do* '(changed, lk) <-
    if recomp lk =? cnt then Ret (false, lk)
    else
      do* '(changed, rs) <- p_update_loop update false (refs lk) in
      let lk := with_refs lk rs in
      Ret (changed, if update then with_recomp lk cnt else lk) in
  Ret (changed, if changed && update then with_refs lk (merge_sort ref_le (refs lk)) else lk).

(** A record of the list is one that exists and has a [lockRecord]. *)
Definition p_dbLockerPrepare (i : lockerid) (precs : list (option recid)) : prog dbLocker :=
  do* cnt <- get (fun st => inr (recomputeCnt st)) in
  do* rs <- get (fun st => prepare_refs st precs) in
  do* '(_, lk) <- p_dbLockUpdateRefs (mkLocker i [] (wrap_u 64 (cnt - 1)) rs) true in
  Ret lk.

Fixpoint p_release_refs (rs : list lockRecordRef) : prog unit :=
  match rs with
  | [] => Ret tt
  | ref :: rest =>
      do* _ <- match rset ref with Some ls => p_dbLockDecRef ls | None => Ret tt end in
      p_release_refs rest
  end.

Definition p_dbLockerFinalize (lk : dbLocker) : prog unit :=
  do* _ <- p_assert (zlen (locked lk) =? 0) in
  p_release_refs (refs lk).

Definition p_take_set (i : lockerid) (plock : addr) : prog unit :=
  do* _ <- upd (fun st => lock_set me st plock) in
  do* ow <- get (get_owner plock) in
  do* _ <- p_assert (if ow then false else true) in
  do* _ <- upd (put_owner plock (Some i)) in
  upd (fun st => dbLockIncRef st plock).

Fixpoint p_lock_loop (plock : option addr) (rs : list lockRecordRef) (lk : dbLocker) : prog dbLocker :=
  match rs with
  | [] => Ret lk
  | ref :: rest =>
      match plr ref with
      | None => p_lock_loop plock rest lk
      | Some _ =>
          if bool_decide (is_Some plock) && bool_decide (plock = rset ref)
          then p_lock_loop plock rest lk
          else
            do* ls <- p_the (rset ref) in
            do* _ <- p_take_set (me_locker lk) ls in
            p_lock_loop (Some ls) rest (with_locked lk (locked lk ++ [ls]))
      end
  end.

Fixpoint p_unlock_loop (i : lockerid) (l : list addr) : prog unit :=
  match l with
  | [] => Ret tt
  | ls :: rest =>
      do* ow <- get (get_owner ls) in
      do* _ <- p_assert (bool_decide (ow = Some i)) in
      do* _ <- upd (put_owner ls None) in
      do* _ <- upd (fun st => unlock_set me st ls) in
      do* _ <- p_dbLockDecRef ls in
      p_unlock_loop i rest
  end.

Definition p_dbScanUnlockMany (lk : dbLocker) : prog dbLocker :=
  do* _ <- p_unlock_loop (me_locker lk) (locked lk) in
  Ret (with_locked lk []).

(** From the label [retry], at most [fuel] times, as [p_scan_retry]. *)
Fixpoint p_many_retry (fuel : nat) (lk : dbLocker) : prog dbLocker :=
  match fuel with
  | O => Stop
  | S fuel =>
      do* _ <- p_assert (zlen (locked lk) =? 0) in
      do* '(_, lk) <- p_dbLockUpdateRefs lk true in
      do* lk <- p_lock_loop None (refs lk) lk in
      do* '(changed, lk) <- p_dbLockUpdateRefs lk false in
      if changed : bool then
        do* lk <- p_dbScanUnlockMany lk in
        p_many_retry fuel lk
      else
        do* _ <- p_require ((zlen (refs lk) =? 0) || (0 <? zlen (locked lk))) in
        Ret lk
  end.

Definition p_dbScanLockMany (fuel : nat) (lk : dbLocker) : prog dbLocker :=
  do* _ <- p_require (zlen (locked lk) =? 0) in
  p_many_retry fuel lk.

(** ** Merging and splitting *)

(** [r] joins [A]: [ellAdd] and the part under the spin lock. *)
Definition join_record (A : addr) r flag st : lk_fault + lk_state :=
  let* sA := get_set st A in
  let st := put_set st A (with_list sA (lockRecordList sA ++ [r])) in
  inr (put_lr st r (mkLr A flag)).

(** The first record of [B], before [rest], goes to [A]. *)
Definition merge_record (A B : addr) r rest st : lk_fault + lk_state :=
  let* sB := get_set st B in
  let st := put_set st B (with_list sB rest) in
  let* lr := get_lr st r in
  let* _ := lk_assert (bool_decide (plockSet lr = B)) in
  join_record A r (compflag lr) st.

(** A record of [ls] goes to [splitset]. *)
Definition split_record (ls splitset : addr) r st : lk_fault + lk_state :=
  let* lr := get_lr st r in
  let* _ := lk_assert (bool_decide (plockSet lr = ls)) in
  let* s := get_set st ls in
  let* l := list_delete r (lockRecordList s) in
  join_record splitset r 0 (put_set st ls (with_list s l)).

Definition count_move st : lk_fault + lk_state :=
  inr (with_cnt st (wrap_u 64 (recomputeCnt st + 1))).

Fixpoint p_merge_records (A B : addr) (l : list recid) : prog unit :=
  match l with
  | [] => Ret tt
  | r :: rest =>
      do* _ <- upd (merge_record A B r rest) in
      do* _ <- upd count_move in
      p_merge_records A B rest
  end.

(** The thread owns the mutexes of both sets. *)
Definition p_dbLockSetMerge (lk : dbLocker) (pfirst psecond : recid) : prog dbLocker :=
  do* A <- get (get_plock pfirst) in
  do* B <- get (get_plock psecond) in
  do* owA <- get (get_owner A) in
  do* owB <- get (get_owner B) in
  do* _ <- p_require (bool_decide (owA = Some (me_locker lk)) && bool_decide (owB = Some (me_locker lk))) in
  if decide (A = B) then Ret lk else
  do* l <- get (fun st => let* s := get_set st B in inr (lockRecordList s)) in
  let Nb := zlen l in
  do* _ <- p_assert (0 <? Nb) in
  do* _ <- p_merge_records A B l in
  do* cnt <- get (get_refcount B) in
  do* _ <- p_assert (Nb + 1 <=? cnt) in
  do* _ <- sec (fun st => add_ref st A Nb) in
  do* _ <- sec (fun st => add_ref st B (- Nb + 1)) in
  do* ow <- get (get_owner B) in
  do* _ <- p_assert (bool_decide (ow = Some (me_locker lk))) in
  do* l' <- match list_delete B (locked lk) with inr l' => Ret l' | inl e => Act (fun _ => inl e) Ret end in
  do* _ <- upd (put_owner B None) in
  do* _ <- sec (fun st => add_ref st B (-1)) in
  do* _ <- upd (fun st => unlock_set me st B) in
  do* _ <- p_dbLockDecRef B in
  do* A' <- get (get_plock psecond) in
  do* _ <- p_assert (bool_decide (A = A')) in
  Ret (with_locked lk l').

(** [makeSet] and the locking of the new set. *)
Definition p_locked_set (lk : dbLocker) : prog (addr * dbLocker) :=
  do* splitset <- sec (makeSet calloc) in
  do* _ <- upd (fun st => lock_set me st splitset) in
  do* ow <- get (get_owner splitset) in
  do* _ <- p_assert (if ow then false else true) in
  do* _ <- upd (put_owner splitset (Some (me_locker lk))) in
  do* cnt <- get (get_refcount splitset) in
  do* _ <- p_assert (cnt =? 1) in
  Ret (splitset, with_locked lk (locked lk ++ [splitset])).

Fixpoint p_split_loop (ls splitset : addr) (newLS : list recid) : prog unit :=
  match newLS with
  | [] => Ret tt
  | r :: rest =>
      do* _ <- upd (split_record ls splitset r) in
      do* _ <- upd count_move in
      p_split_loop ls splitset rest
  end.

Definition p_split_off (lk : dbLocker) (psecond : recid) (ls : addr) (newLS : list recid) : prog dbLocker :=
  do* n <- get (get_count ls) in
  do* _ <- p_assert (0 <? zlen newLS) in
  do* _ <- p_assert (zlen newLS <? n) in
  do* cnt <- get (get_refcount ls) in
  do* _ <- p_assert (zlen newLS <? cnt) in
  do* '(splitset, lk) <- p_locked_set lk in
  do* _ <- p_split_loop ls splitset newLS in
  do* m <- get (get_count splitset) in
  do* _ <- sec (fun st => add_ref st ls (- m)) in
  do* cnt <- get (get_refcount ls) in
  do* _ <- p_assert (0 <? cnt) in
  do* _ <- sec (fun st => add_ref st splitset m) in
  do* cnt <- get (get_refcount splitset) in
  do* _ <- p_assert (m + 1 <=? cnt) in
  do* ls' <- get (get_plock psecond) in
  do* _ <- p_assert (bool_decide (ls' = splitset)) in
  do* cnt <- get (get_refcount ls) in
  do* _ <- p_assert (2 <=? cnt) in
  Ret lk.

(** The search reads and marks only records of the set, whose mutex the thread owns. *)
Definition search_from (pfirst psecond : recid) st : lk_fault + (bool * list recid * list recid * lk_state) :=
  let* lr2 := get_lr st psecond in
  split_search (S (size (lrs st))) pfirst [psecond] [] (put_lr st psecond (mkLr (plockSet lr2) 1)).

Definition p_dbLockSetSplit (lk : dbLocker) (pfirst psecond : recid) : prog dbLocker :=
  do* ls <- get (get_plock pfirst) in
  do* ls2 <- get (get_plock psecond) in
  do* _ <- p_require (bool_decide (ls = ls2)) in
  if decide (pfirst = psecond) then Ret lk else
  do* n <- get (get_count ls) in
  do* cnt <- get (get_refcount ls) in
  do* _ <- p_assert (n + 1 <=? cnt) in
  do* '(found, toInspect, newLS) <- sec (search_from pfirst psecond) in
  if found : bool then
    do* _ <- upd (reset_flags toInspect) in
    do* _ <- upd (reset_flags newLS) in
    Ret lk
  else p_split_off lk psecond ls newLS.

(** ** Links

    The thread has locked the sets of the records of the old and the new link. *)

Definition p_put_link (plink : linkid) (lnk : link) : prog unit := upd (fun st => put_link st plink lnk).

Definition p_dbDbAddLink (lk : dbLocker) (plink : linkid) (t : recid) : prog dbLocker :=
  do* _ <- upd (fun st => set_db_link st plink t) in
  p_dbLockSetMerge lk (fst plink) t.

Definition p_dbDbRemoveLink (lk : dbLocker) (plink : linkid) : prog dbLocker :=
  do* lnk <- get (fun st => get_link st plink) in
  do* t <- p_the (pvt lnk) in
  do* _ <- upd (fun st => unset_db_link st plink lnk t) in
  p_dbLockSetSplit lk (fst plink) t.

Definition p_dbRemoveLink (lk : dbLocker) (plink : linkid) : prog dbLocker :=
  do* lnk <- get (fun st => get_link st plink) in
  match lset lnk with
  | None => Ret lk
  | Some s =>
      do* lk <-
        match s with
        | dbDb_lset => p_dbDbRemoveLink lk plink
        | dbCa_lset => do* _ <- p_put_link plink (mkLink PV_LINK None None) in Ret lk
        | _ => Ret lk
        end in
      do* lnk <- get (fun st => get_link st plink) in
      do* _ <- p_put_link plink (mkLink (ltype lnk) None (pvt lnk)) in
      Ret lk
  end.

Definition p_dbAddLink (lk : dbLocker) (plink : linkid) (ptarget : option recid) : prog dbLocker :=
  do* lnk <- get (fun st => get_link st plink) in
  match ltype lnk with
  | CONSTANT => do* _ <- p_put_link plink const_link in Ret lk
  | JSON_LINK => do* _ <- p_put_link plink json_link in Ret lk
  | PV_LINK =>
      match ptarget with
      | Some t => p_dbDbAddLink lk plink t
      | None => do* _ <- p_put_link plink ca_link in Ret lk
      end
  | _ => Ret lk
  end.

(** From the removal of the old link to the label [unlock]. *)
Definition p_change_link (env : put_env) (lk : dbLocker) (plink : linkid) (newtype : link_type)
    (pdbaddr : option recid) : prog dbLocker :=
  do* lnk <- get (fun st => get_link st plink) in
  if isDevLink env && negb (del_ok env) then Ret lk
  else if negb (isDevLink env) && (if lset lnk then false else true) then Ret lk
  else
    do* lk <- if lset lnk then p_dbRemoveLink lk plink else Ret lk in
    if negb (set_ok env) then Ret lk else
    do* lnk <- get (fun st => get_link st plink) in
    do* _ <- p_put_link plink (mkLink newtype (lset lnk) None) in
    if negb (add_ok env) then Ret lk else
    p_dbAddLink lk plink pdbaddr.

Definition p_dbPutFieldLink (fuel : nat) (i : lockerid) (env : put_env) (plink : linkid)
    (newtype : link_type) (pdbaddr : option recid) : prog unit :=
  do* lk <- p_dbLockerPrepare i [Some (fst plink); pdbaddr] in
  do* lk <- p_dbScanLockMany fuel lk in
  do* lk <- if can_set env then p_change_link env lk plink newtype pdbaddr else Ret lk in
  do* lk <- p_dbScanUnlockMany lk in
  p_dbLockerFinalize lk.
End Prog.

(** ** A program without other threads *)

Create Rewrite HintDb run.

Lemma run_bind {A B} (p : prog A) (q : A -> prog B) st :
  run (bind p q) st = let* '(a, st) := run p st in run (q a) st.
Proof.
  revert st. induction p as [| | |X f k IH]; intros st; simpl; try done.
  destruct (f st) as [|[x st']]; simpl; [done|apply IH].
Qed.

Lemma run_sec {X} (f : lk_state -> lk_fault + (X * lk_state)) st : run (sec f) st = f st.
Proof. simpl. by destruct (f st) as [|[]]. Qed.
Lemma run_upd (f : lk_state -> lk_fault + lk_state) st :
  run (upd f) st = let* st := f st in inr (tt, st).
Proof. unfold upd. by rewrite run_sec. Qed.
Lemma run_get {X} (f : lk_state -> lk_fault + X) st : run (get f) st = let* x := f st in inr (x, st).
Proof. unfold get. by rewrite run_sec. Qed.
Lemma run_ret {A} (a : A) st : run (Ret a) st = inr (a, st).
Proof. done. Qed.
Lemma run_assert b st : run (p_assert b) st = let* _ := lk_assert b in inr (tt, st).
Proof. by destruct b. Qed.
Lemma run_require b st : run (p_require b) st = let* _ := lk_require b in inr (tt, st).
Proof. by destruct b. Qed.
Lemma run_the {A} (o : option A) st : run (p_the o) st = let* a := the o in inr (a, st).
Proof. by destruct o. Qed.

Lemma ebind_assoc {A B C} (m : lk_fault + A) (f : A -> lk_fault + B) (g : B -> lk_fault + C) :
  ebind (ebind m f) g = ebind m (fun a => ebind (f a) g).
Proof. by destruct m. Qed.
Lemma ebind_ret {A B} (a : A) (f : A -> lk_fault + B) : ebind (inr a) f = f a.
Proof. done. Qed.
Lemma ebind_unit {A} (m : lk_fault + A) : ebind m inr = m.
Proof. by destruct m. Qed.

#[export] Hint Rewrite @run_bind @run_sec @run_upd @run_get @run_ret run_assert run_require @run_the
  @ebind_assoc @ebind_ret : run.

(** Unfold the first operation on both sides and take its outcomes apart. *)
Ltac run_step :=
  match goal with
  | |- ?x = ?x => reflexivity
  | H : ?m = inr _ |- context [?m] => rewrite H
  | |- ebind ?m _ = ebind ?m _ => destruct m as [|] eqn:?; cbn [ebind]; [reflexivity|]
  | |- context [match ?p with (_, _) => _ end] => is_var p; destruct p
  | |- context [run (if ?b then _ else _) _] => destruct b
  | |- context [if ?b then _ else _] => destruct b
  end; autorewrite with run; cbn [andb orb negb]; autorewrite with run.
Ltac run_eq := autorewrite with run; repeat run_step; try done.

Section Run.
Variable calloc : gmap addr lockSet -> addr.
Variable me : tid.

Lemma run_decref ls st : run (p_dbLockDecRef me ls) st = let* st := dbLockDecRef me st ls in inr (tt, st).
Proof.
  clear calloc. unfold p_dbLockDecRef, dbLockDecRef, retire_set, unlist_set, get_count. run_eq.
Qed.
#[local] Hint Rewrite run_decref : run.

Lemma run_scan_retry fuel r : forall ls st,
  run (p_scan_retry me fuel r ls) st = let* st := scan_retry me fuel st r ls in inr (tt, st).
Proof.
  clear calloc. induction fuel as [|fuel IH]; intros ls st; [done|]. cbn [p_scan_retry scan_retry].
  unfold scan_try, scan_check, get_plock. run_eq; apply IH.
Qed.
#[local] Hint Rewrite run_scan_retry : run.

(** One thread alone: the programs are the functions of [DbLock]. *)
Lemma run_scan_lock fuel r st :
  run (p_dbScanLock me fuel r) st = let* st := dbScanLock me fuel st r in inr (tt, st).
Proof. clear calloc. unfold p_dbScanLock, dbScanLock, get_refcount. run_eq. Qed.

Lemma run_scan_unlock r st :
  run (p_dbScanUnlock me r) st = let* st := dbScanUnlock me st r in inr (tt, st).
Proof. clear calloc. unfold p_dbScanUnlock, dbScanUnlock, get_plock. run_eq. Qed.

Lemma run_update_ref update ref st :
  run (p_update_ref me update ref) st =
  let* '(stale, ref, st) := update_ref me update ref st in inr ((stale, ref), st).
Proof.
  clear calloc. unfold p_update_ref, update_ref, ref_check, get_plock. destruct ref as [[r|] old]; cbn [plr rset].
  - destruct old, update; run_eq.
  - run_eq.
Qed.
#[local] Hint Rewrite run_update_ref : run.

Lemma run_update_loop update rs : forall changed st,
  run (p_update_loop me update changed rs) st =
  let* '(c, rs, st) := update_loop me update changed rs st in inr ((c, rs), st).
Proof.
  clear calloc. induction rs as [|ref rs IH]; intros changed st; [done|].
  cbn [p_update_loop update_loop]. run_eq; rewrite IH; run_eq.
Qed.
#[local] Hint Rewrite run_update_loop : run.

Lemma run_update_refs lk update st :
  run (p_dbLockUpdateRefs me lk update) st =
  let* '(c, lk, st) := dbLockUpdateRefs me lk st update in inr ((c, lk), st).
Proof. clear calloc. unfold p_dbLockUpdateRefs, dbLockUpdateRefs. run_eq. Qed.
#[local] Hint Rewrite run_update_refs : run.

Lemma run_prepare i precs st :
  run (p_dbLockerPrepare me i precs) st = let* '(lk, st) := dbLockerPrepare me i precs st in inr (lk, st).
Proof. clear calloc. unfold p_dbLockerPrepare, dbLockerPrepare. run_eq. Qed.

Lemma run_release_refs rs : forall st,
  run (p_release_refs me rs) st = let* st := release_refs me rs st in inr (tt, st).
Proof.
  clear calloc. induction rs as [|ref rs IH]; intros st; [done|]. cbn [p_release_refs release_refs].
  destruct (rset ref); run_eq; apply IH.
Qed.
#[local] Hint Rewrite run_release_refs : run.

Lemma run_finalize lk st :
  run (p_dbLockerFinalize me lk) st = let* st := dbLockerFinalize me lk st in inr (tt, st).
Proof. clear calloc. unfold p_dbLockerFinalize, dbLockerFinalize. run_eq. Qed.

Lemma run_take_set i x st : run (p_take_set me i x) st = let* st := take_set me i st x in inr (tt, st).
Proof. clear calloc. unfold p_take_set, take_set, get_owner, put_owner. run_eq. Qed.
#[local] Hint Rewrite run_take_set : run.

Lemma run_lock_loop rs : forall plock lk st,
  run (p_lock_loop me plock rs lk) st = let* '(lk, st) := lock_loop me plock rs lk st in inr (lk, st).
Proof.
  clear calloc. induction rs as [|ref rs IH]; intros plock lk st; [done|]. cbn [p_lock_loop lock_loop].
  destruct (plr ref); [|apply IH]. run_eq; rewrite IH; run_eq.
Qed.
#[local] Hint Rewrite run_lock_loop : run.

Lemma run_unlock_loop i l : forall st,
  run (p_unlock_loop me i l) st = let* st := unlock_loop me i l st in inr (tt, st).
Proof.
  clear calloc. induction l as [|x l IH]; intros st; [done|]. cbn [p_unlock_loop unlock_loop].
  unfold get_owner, put_owner. run_eq; apply IH.
Qed.
#[local] Hint Rewrite run_unlock_loop : run.

Lemma run_unlock_many lk st :
  run (p_dbScanUnlockMany me lk) st = let* '(lk, st) := dbScanUnlockMany me lk st in inr (lk, st).
Proof. clear calloc. unfold p_dbScanUnlockMany, dbScanUnlockMany. run_eq. Qed.
#[local] Hint Rewrite run_unlock_many : run.

Lemma run_many_retry fuel : forall lk st,
  run (p_many_retry me fuel lk) st = let* '(lk, st) := many_retry me fuel lk st in inr (lk, st).
Proof.
  clear calloc. induction fuel as [|fuel IH]; intros lk st; [done|]. cbn [p_many_retry many_retry].
  run_eq; rewrite IH; run_eq.
Qed.
#[local] Hint Rewrite run_many_retry : run.

Lemma run_lock_many fuel lk st :
  run (p_dbScanLockMany me fuel lk) st = let* '(lk, st) := dbScanLockMany me fuel lk st in inr (lk, st).
Proof. clear calloc. unfold p_dbScanLockMany, dbScanLockMany. run_eq. Qed.

Lemma run_merge_records A B l : forall st,
  run (p_merge_records A B l) st = let* st := merge_records A B l st in inr (tt, st).
Proof.
  clear calloc me. induction l as [|r l IH]; intros st; [done|]. cbn [p_merge_records merge_records].
  unfold merge_record, join_record, count_move. run_eq; apply IH.
Qed.
#[local] Hint Rewrite run_merge_records : run.

Lemma run_split_loop A B l : forall st,
  run (p_split_loop A B l) st = let* st := split_loop A B l st in inr (tt, st).
Proof.
  clear calloc me. induction l as [|r l IH]; intros st; [done|]. cbn [p_split_loop split_loop].
  unfold split_record, join_record, count_move. run_eq; apply IH.
Qed.
#[local] Hint Rewrite run_split_loop : run.

Lemma get_put_set st x s : get_set (put_set st x s) x = inr s.
Proof. clear. unfold get_set, put_set. simpl. by rewrite lookup_insert_eq. Qed.
#[local] Hint Rewrite get_put_set : run.

Lemma run_locked_set lk st :
  run (p_locked_set calloc me lk) st =
  let* '(x, lk, st) := locked_set calloc me lk st in inr ((x, lk), st).
Proof. unfold p_locked_set, locked_set, get_owner, get_refcount, put_owner. run_eq. Qed.
#[local] Hint Rewrite run_locked_set : run.

Lemma run_merge lk r1 r2 st :
  run (p_dbLockSetMerge me lk r1 r2) st =
  let* '(lko, st) := dbLockSetMerge me (Some lk) st r1 r2 in let* lk := the lko in inr (lk, st).
Proof.
  clear calloc. unfold p_dbLockSetMerge, dbLockSetMerge, owned_by, get_owner, get_plock, get_refcount, put_owner,
    move_refs, drop_locked.
  run_eq. destruct (list_delete _ _); run_eq.
Qed.

Lemma run_split_off lk r ls l st :
  run (p_split_off calloc me lk r ls l) st =
  let* '(lk, st) := split_off calloc me lk st r ls l in inr (lk, st).
Proof. unfold p_split_off, split_off, split_refs, get_count, get_refcount, get_plock. run_eq. Qed.
#[local] Hint Rewrite run_merge run_split_off run_prepare run_lock_many run_unlock_many run_finalize : run.

Lemma run_split lk r1 r2 st :
  run (p_dbLockSetSplit calloc me lk r1 r2) st =
  let* '(lk, st) := dbLockSetSplit calloc me lk st r1 r2 in inr (lk, st).
Proof.
  unfold p_dbLockSetSplit, dbLockSetSplit, get_plock, get_count, get_refcount, search_from. run_eq.
Qed.
#[local] Hint Rewrite run_split : run.

(** The results of the functions with an optional locker, for a locker. *)
Definition with_lk (r : lk_fault + (option dbLocker * lk_state)) : lk_fault + (dbLocker * lk_state) :=
  let* '(lko, st) := r in let* lk := the lko in inr (lk, st).

Lemma run_put_link l p st : run (p_put_link l p) st = let* st := put_link st l p in inr (tt, st).
Proof. clear calloc me. unfold p_put_link. run_eq. Qed.
#[local] Hint Rewrite run_put_link : run.

Lemma run_db_add_link lk l t st : run (p_dbDbAddLink me lk l t) st = with_lk (dbDbAddLink me (Some lk) st l t).
Proof. clear calloc. unfold p_dbDbAddLink, dbDbAddLink, with_lk. run_eq. Qed.

Lemma run_db_remove_link lk l st :
  run (p_dbDbRemoveLink calloc me lk l) st = with_lk (dbDbRemoveLink calloc me (Some lk) st l).
Proof. unfold p_dbDbRemoveLink, dbDbRemoveLink, with_lk. run_eq. Qed.

Lemma run_remove_link lk l st :
  run (p_dbRemoveLink calloc me lk l) st = with_lk (dbRemoveLink calloc me (Some lk) st l).
Proof.
  unfold p_dbRemoveLink, dbRemoveLink. autorewrite with run. destruct (get_link st l) as [|lnk]; [done|]. cbn [ebind].
  destruct (lset lnk) as [[]|]; unfold with_lk; [unfold p_dbDbRemoveLink, dbDbRemoveLink|..]; run_eq.
Qed.

Lemma run_add_link lk l t st : run (p_dbAddLink me lk l t) st = with_lk (dbAddLink me (Some lk) st l t).
Proof.
  clear calloc. unfold p_dbAddLink, dbAddLink. autorewrite with run. destruct (get_link st l) as [|lnk]; [done|]. cbn [ebind].
  destruct (ltype lnk); [|destruct t as [t|]; [apply run_db_add_link|]|..]; unfold with_lk; run_eq.
Qed.

(** A locker that is given is returned. *)
Lemma db_remove_link_some lk st l lko st' : dbDbRemoveLink calloc me (Some lk) st l = inr (lko, st') -> is_Some lko.
Proof.
  intros (lnk & _ & (t & _ & (st1 & _ & ([lk1 st2] & _ & E)%ebind_inr)%ebind_inr)%ebind_inr)%ebind_inr.
  injection E as <- _. eauto.
Qed.

Lemma remove_link_some lk st l lko st' : dbRemoveLink calloc me (Some lk) st l = inr (lko, st') -> is_Some lko.
Proof.
  intros (lnk & _ & H)%ebind_inr. destruct (lset lnk) as [s|]; [|injection H as <- _; eauto].
  apply ebind_inr in H as ([lk1 st1] & E & (lnk1 & _ & (st2 & _ & E2)%ebind_inr)%ebind_inr). injection E2 as <- _.
  destruct s; [by eapply db_remove_link_some| |injection E as <- _; eauto..].
  apply ebind_inr in E as (st3 & _ & E). injection E as <- _. eauto.
Qed.

Lemma run_change_link env lk l newtype t st :
  run (p_change_link calloc me env lk l newtype t) st = with_lk (change_link calloc me env lk st l newtype t).
Proof.
  unfold p_change_link, change_link. autorewrite with run. destruct (get_link st l) as [|lnk]; [done|]. cbn [ebind].
  destruct (isDevLink env && negb (del_ok env)); [done|].
  destruct (negb (isDevLink env) && (if lset lnk then false else true)); [done|].
  destruct (lset lnk); autorewrite with run.
  1: rewrite run_remove_link; destruct (dbRemoveLink calloc me (Some lk) st l) as [|[lko st1]] eqn:E; [done|];
     destruct (remove_link_some _ _ _ _ _ E) as [lk1 ->]; cbn [with_lk ebind the].
  all: destruct (negb (set_ok env)); [done|]; autorewrite with run; destruct (get_link _ l); [done|]; cbn [ebind];
    autorewrite with run; destruct (put_link _ l _); [done|]; cbn [ebind]; destruct (negb (add_ok env)); [done|];
    apply run_add_link.
Qed.
#[local] Hint Rewrite run_change_link : run.

(** [dbPutFieldLink] of one thread alone is the function of [DbLock]. *)
Lemma run_put_field_link fuel i env l newtype t st :
  run (p_dbPutFieldLink calloc me fuel i env l newtype t) st =
  let* st := dbPutFieldLink calloc me fuel i env st l newtype t in inr (tt, st).
Proof.
  unfold p_dbPutFieldLink, dbPutFieldLink. run_eq; [unfold with_lk|cbn [the]]; run_eq.
Qed.
End Run.
