(* ===== verification/DbLockConc.v ===== *)
(** * Lock sets: threads and the invariant of their interleavings

    A system is a list of threads, each with a program of [DbLockProg], and the state they share; a step is one atomic
    step of one of them.  Each thread has a ghost record [own] of what it holds: references, mutexes, sets it is about to
    put on the free list, records it has moved and not yet counted, and what its locker remembers.  [cinv] says how the state
    is made of the parts of all threads, [rely] what a thread can count on while others run, [guar] what it must leave
    alone; [safe] is the proof obligation of one program and [system_safe] says that the obligations suffice. *)

From stdpp Require Import base gmap list sorting fin_sets relations.
From Stdlib Require Import ZArith Lia Bool.
From S2P Require Import Prelude DbLock DbLockInv DbLocker DbLockSets DbLockGraph DbLockProg.
Open Scope Z_scope.

(** ** Threads *)

Abbreviation thread := (tid * prog unit)%type.

Definition pstep {A} (p : prog A) (st : lk_state) : option (lk_fault + (prog A * lk_state)) :=
  match p with
  | Ret _ | Stop => None
  | Inside _ k => Some (inr (k, st))
  | Act f k => Some (let* '(x, st) := f st in inr (k x, st))
  end.

(** The counters of 64 bits are not about to wrap. *)
Definition roomy st : Prop := next_id st < 2 ^ 64 - 1 /\ recomputeCnt st < 2 ^ 64 - 1.

(** [recomputeCnt] keeps within a limit, when there is one. *)
Definition below (lim : option Z) (c : Z) : Prop := match lim with Some m => c <= m | None => True end.
Abbreviation within lim st := (below lim (recomputeCnt st)).
Definition fits (lim : option Z) st : Prop := roomy st /\ within lim st.

Inductive step : list thread * lk_state -> list thread * lk_state -> Prop :=
  | step_thread ts st i t p p' st' :
      roomy st -> ts !! i = Some (t, p) -> pstep p st = Some (inr (p', st')) ->
      step (ts, st) (<[i := (t, p')]> ts, st').

(** ** What a thread holds *)

Record own := mkOwn {
  oref : addr -> Z;                               (* references *)
  olock : addr -> option (nat * option lockerid); (* mutexes: times less one, [ownerlocker] *)
  oret : list addr;                               (* sets without references, to be put on the free list *)
  opend : list (recid * addr);                    (* records moved from a set, not counted in [recomputeCnt] *)
  osnap : option (Z * list (recid * addr));       (* a value of [recomputeCnt] and the sets of records then *)
  ocross : list addr;                             (* sets between whose records links may go, or that may be in parts *)
  oflag : list recid;                             (* records with a [compflag] *)
  odirty : list linkid                            (* links whose support is not up to date *)
}.

(** No search, merge or change of a link is under way. *)
Definition clean (o : own) : Prop := ocross o = [] /\ oflag o = [] /\ odirty o = [].

Definition plock st (r : recid) : option addr := plockSet <$> lrs st !! r.

Definition refsum (os : list (tid * own)) (x : addr) : Z :=
  foldr (fun o n => oref o.2 x + n) 0 os.
Definition retiring (os : list (tid * own)) (x : addr) : Prop := exists t o, (t, o) ∈ os /\ x ∈ oret o.
Definition pending (os : list (tid * own)) (p : recid * addr) : Prop := exists t o, (t, o) ∈ os /\ p ∈ opend o.
Definition crossing (os : list (tid * own)) (x y : addr) : Prop :=
  exists t o, (t, o) ∈ os /\ x ∈ ocross o /\ y ∈ ocross o.
Definition flagged (os : list (tid * own)) (r : recid) : Prop := exists t o, (t, o) ∈ os /\ r ∈ oflag o.
Definition dirty (os : list (tid * own)) (l : linkid) : Prop := exists t o, (t, o) ∈ os /\ l ∈ odirty o.

(** The links of the state: apart from what a thread has in hand, links stay inside of the sets, the records of a set are connected,
    no record has a flag and the supports fit the types of the links. *)
Record linv (os : list (tid * own)) st : Prop := {
  li_graph : graph_ok st;
  li_edge : forall r q x y, edge st r q -> plock st r = Some x -> plock st q = Some y -> x = y \/ crossing os x y;
  li_part : forall r q x, plock st r = Some x -> plock st q = Some x -> conn st r q \/ crossing os x x;
  li_flag : forall r lr, lrs st !! r = Some lr -> compflag lr = 0 \/ flagged os r;
  li_lset : forall l p, link_of st l = Some p -> (lset p = Some dbDb_lset <-> ltype p = DB_LINK) \/ dirty os l
}.

(** The sets of the state: [H] counts references, [R] are the sets on their way to the free list. *)
Record core (H : addr -> Z) (R : addr -> Prop) (st : lk_state) : Prop := {
  co_lr : forall r x, plock st r = Some x -> r ∈ members st x;
  co_mem : forall r x, r ∈ members st x -> plock st r = Some x;
  co_nodup : forall x, NoDup (members st x);
  co_ref : forall x s, sets st !! x = Some s -> refcount s = zlen (lockRecordList s) + H x;
  co_nonneg : forall x s, sets st !! x = Some s -> 0 <= refcount s;
  co_active : forall x, x ∈ lockSetsActive st <->
    exists s, sets st !! x = Some s /\ (0 < refcount s \/ R x);
  co_free : forall x, x ∈ lockSetsFree st <-> exists s, sets st !! x = Some s /\ refcount s = 0 /\ ~ R x;
  co_nodup_act : NoDup (lockSetsActive st);
  co_nodup_free : NoDup (lockSetsFree st);
  co_ret : forall x, R x -> exists s, sets st !! x = Some s /\ refcount s = 0;
  co_idle : forall x s, sets st !! x = Some s -> refcount s = 0 ->
    lockRecordList s = [] /\ ownerlocker s = None /\ (~ R x -> lock s = None);
  co_mut : forall x s t n, sets st !! x = Some s -> lock s = Some (t, n) -> (0 < n)%nat;
  co_own : forall x s, sets st !! x = Some s -> lock s = None -> ownerlocker s = None;
  co_id : forall x s, sets st !! x = Some s -> 0 < id s;
  co_cnt : 0 < next_id st /\ 0 <= recomputeCnt st
}.

Section Threads.
(** The most references a thread holds to one set, those of records it has moved and not yet transferred aside. *)
Context (K : Z).
(** A bound on [recomputeCnt], when there is one. *)
Context (lim : option Z).

Record tinv (os : list (tid * own)) (t : tid) (o : own) (st : lk_state) : Prop := {
  ti_lock : forall x s, sets st !! x = Some s -> forall n ow,
    olock o x = Some (n, ow) <-> lock s = Some (t, S n) /\ ownerlocker s = ow;
  ti_out : forall x, sets st !! x = None -> olock o x = None /\ oref o x = 0;
  ti_ref : forall x, oref o x < 0 -> olock o x ≠ None /\ 1 <= zlen (members st x) + oref o x;
  ti_max : forall x, oref o x <= K \/
    (olock o x ≠ None /\ zlen (members st x) + oref o x <= Z.of_nat (size (lrs st)) + K);
  ti_held : forall x, olock o x ≠ None -> x ∈ oret o \/ 0 < oref o x \/ members st x ≠ [];
  ti_pend : forall r x, (r, x) ∈ opend o -> olock o x ≠ None;
  ti_nodup : NoDup (oret o);
  ti_cross : forall x, x ∈ ocross o -> olock o x ≠ None;
  ti_flux : forall r, r ∈ oflag o ++ map fst (odirty o) -> exists x, r ∈ members st x /\ olock o x ≠ None;
  ti_snap : forall c l, osnap o = Some (c, l) -> c <= recomputeCnt st /\
    (recomputeCnt st = c -> forall r x, (r, x) ∈ l -> plock st r = Some x \/ pending os (r, x))
}.

Record cinv (os : list (tid * own)) (st : lk_state) : Prop := {
  ci_core : core (refsum os) (retiring os) st;
  ci_links : linv os st;
  ci_tids : NoDup os.*1;
  ci_owner : forall x s t n, sets st !! x = Some s -> lock s = Some (t, n) -> t ∈ os.*1;
  ci_each : forall t o, (t, o) ∈ os -> tinv os t o st;
  ci_once : forall t o t' o' x, (t, o) ∈ os -> (t', o') ∈ os -> x ∈ oret o -> x ∈ oret o' -> t = t';
  ci_bound : 0 <= K /\ Z.of_nat (size (lrs st)) + K * zlen os + 2 < int_max
}.

(** What thread [t] leaves alone, when it holds [o] before and [o2] after a step. *)
Record guar (t : tid) (o o2 : own) (st st2 : lk_state) : Prop := {
  gu_lock : forall t' n x s, t' ≠ t -> sets st !! x = Some s -> lock s = Some (t', n) ->
    exists s', sets st2 !! x = Some s' /\ lockRecordList s' = lockRecordList s /\
      lock s' = lock s /\ ownerlocker s' = ownerlocker s;
  gu_lock2 : forall t' n x s', t' ≠ t -> sets st2 !! x = Some s' -> lock s' = Some (t', n) ->
    exists s, sets st !! x = Some s /\ lock s = Some (t', n);
  gu_dom : forall r, is_Some (lrs st2 !! r) <-> is_Some (lrs st !! r);
  gu_rdom : forall r, is_Some (recs st2 !! r) <-> is_Some (recs st !! r);
  gu_ldom : forall l, is_Some (link_of st2 l) <-> is_Some (link_of st l);
  gu_rec : forall t' n x s r, t' ≠ t -> sets st !! x = Some s -> lock s = Some (t', n) -> r ∈ lockRecordList s ->
    recs st2 !! r = recs st !! r;
  gu_sets : forall x, is_Some (sets st !! x) -> is_Some (sets st2 !! x);
  gu_cnt : recomputeCnt st <= recomputeCnt st2;
  gu_alone : forall x s, sets st !! x = Some s -> 0 < refcount s -> lockRecordList s = [] -> oref o x = 0 ->
    sets st2 !! x = Some s;
  gu_pend : forall r x, plock st r = Some x -> plock st2 r = Some x \/ (r, x) ∈ opend o2;
  gu_pend2 : forall p, p ∈ opend o -> p ∈ opend o2 \/ recomputeCnt st < recomputeCnt st2
}.

(** What a thread that holds [o] can count on while others run. *)
Record rely (o : own) (st st' : lk_state) : Prop := {
  re_lr : forall r x, plock st r = Some x -> olock o x ≠ None -> plock st' r = Some x;
  re_mem : forall x, olock o x ≠ None -> members st' x = members st x;
  re_dom : forall r, is_Some (lrs st' !! r) <-> is_Some (lrs st !! r);
  re_rdom : forall r, is_Some (recs st' !! r) <-> is_Some (recs st !! r);
  re_ldom : forall l, is_Some (link_of st' l) <-> is_Some (link_of st l);
  re_rec : forall x r, olock o x ≠ None -> r ∈ members st x -> recs st' !! r = recs st !! r;
  re_sets : forall x, is_Some (sets st !! x) -> is_Some (sets st' !! x);
  re_cnt : recomputeCnt st <= recomputeCnt st';
  re_alone : forall x s, sets st !! x = Some s -> refcount s = oref o x -> 0 < oref o x ->
    lockRecordList s = [] -> sets st' !! x = Some s
}.

#[global] Instance rely_preorder o : PreOrder (rely o).
Proof.
  split; [by split|]. intros a b c [] []. split; eauto.
  - intros x Hx. transitivity (members b x); auto.
  - intros r. transitivity (is_Some (lrs b !! r)); auto.
  - intros r. transitivity (is_Some (recs b !! r)); auto.
  - intros l. transitivity (is_Some (link_of b l)); auto.
  - intros x r Hl Hr. transitivity (recs b !! r); [|by apply (re_rec0 x)].
    apply (re_rec1 x); [done|]. by rewrite re_mem0.
  - lia.
Qed.

(** ** The obligation of a program *)

(** The thread has locked the sets of [rs]. *)
Definition holds (o : own) st (rs : list recid) : Prop :=
  forall r, r ∈ rs -> exists x, plock st r = Some x /\ olock o x ≠ None.

(** The change of the part of thread number [i] from [o] to [o2]. *)
Definition moves os i t o o2 st st2 : Prop := cinv (<[i := (t, o2)]> os) st2 /\ guar t o o2 st st2.

(** The thread waits for the mutex of a set that another thread has, and has only those of lower addresses. *)
Definition waits (t : tid) (o : own) st : Prop := exists x s t' n,
  sets st !! x = Some s /\ lock s = Some (t', n) /\ t' ≠ t /\ forall y, olock o y ≠ None -> (y < x)%positive.

(** From a state [st] with [o] the program makes no fault, and what it returns, then holds and leaves satisfies [Q].  With a limit on
    [recomputeCnt] it does not use up its retries either. *)
Fixpoint safe {A} (t : tid) (p : prog A) (o : own) (st : lk_state) (Q : A -> own -> lk_state -> Prop) : Prop :=
  match p with
  | Ret a => Q a o st
  | Stop => lim = None
  | Inside rs k => holds o st rs /\ safe t k o st Q
  | Act f k => forall os i st1, os !! i = Some (t, o) -> cinv os st1 -> rely o st st1 -> fits lim st1 ->
      match f st1 with
      | inl e => e = LkBlocked /\ waits t o st1
      | inr (x, st2) => exists o2, moves os i t o o2 st1 st2 /\ safe t (k x) o2 st2 Q
      end
  end.

Lemma safe_bind {A B} t (p : prog A) (k : A -> prog B) Q : forall o st Q',
  safe t p o st Q' -> (forall a o' st', Q' a o' st' -> safe t (k a) o' st' Q) -> safe t (bind p k) o st Q.
Proof.
  induction p as [| | |X f q IH]; intros o st Q' Hp Hk; simpl in *; auto.
  - split; [apply Hp|]. eapply IHp; [apply Hp|done].
  - intros os i st1 Hi I Hr Hw. specialize (Hp os i st1 Hi I Hr Hw). destruct (f st1) as [e|[x st2]]; [done|].
    destruct Hp as (o2 & M & Hs). exists o2. split; [done|]. by eapply IH.
Qed.

Lemma safe_mono {A} t (p : prog A) Q Q' : forall o st,
  safe t p o st Q -> (forall a o' st', Q a o' st' -> Q' a o' st') -> safe t p o st Q'.
Proof.
  induction p as [| | |X f q IH]; intros o st Hp Hk; simpl in *; auto.
  - split; [apply Hp|]. eapply IHp; [apply Hp|done].
  - intros os i st1 Hi I Hr Hw. specialize (Hp os i st1 Hi I Hr Hw). destruct (f st1) as [e|[x st2]]; [done|].
    destruct Hp as (o2 & M & Hs). exists o2. split; [done|]. by eapply IH.
Qed.

(** ** Sums over the threads *)

Lemma refsum_insert os i t o o2 x : os !! i = Some (t, o) ->
  refsum (<[i := (t, o2)]> os) x = refsum os x - oref o x + oref o2 x.
Proof.
  clear K lim. revert i. induction os as [|[t' o'] os IH]; intros [|i] E; simpl in *; try done.
  - injection E as -> ->. lia.
  - rewrite (IH i E). lia.
Qed.

Lemma tids_insert (os : list (tid * own)) i t o o2 : os !! i = Some (t, o) -> (<[i := (t, o2)]> os).*1 = os.*1.
Proof.
  clear K lim. intros E. rewrite list_fmap_insert. simpl. apply list_insert_id. by rewrite list_lookup_fmap, E.
Qed.

Lemma refsum_zero os x : (forall t o, (t, o) ∈ os -> 0 <= oref o x) -> forall t o, (t, o) ∈ os -> refsum os x <= 0 -> oref o x = 0.
Proof.
  clear K lim. induction os as [|[t' o'] os IH]; intros Hn t o Hin Hs; simpl in *; [by apply not_elem_of_nil in Hin|].
  assert (H0 : 0 <= refsum os x).
  { clear -Hn. induction os as [|[t1 o1] os IH]; simpl; [lia|].
    pose proof (Hn t1 o1 ltac:(set_solver)). assert (0 <= refsum os x) by (apply IH; intros; apply (Hn t o); set_solver). lia. }
  pose proof (Hn t' o' ltac:(set_solver)). apply elem_of_cons in Hin as [[= -> ->]|Hin]; [lia|].
  eapply IH; [|exact Hin|lia]. intros. apply (Hn t0 o0). set_solver.
Qed.

Lemma refsum_delete (os : list (tid * own)) i t o x : os !! i = Some (t, o) ->
  refsum os x = oref o x + refsum (delete i os) x.
Proof.
  clear K lim. revert i. induction os as [|[t' o'] os IH]; intros [|i] E; simpl in *; try done.
  - by injection E as -> ->.
  - rewrite (IH i E). lia.
Qed.

Section Others.
Context (os0 : list (tid * own)) (st : lk_state) (x : addr).

Lemma others_unlocked t o t' o' (l : list (tid * own)) : t ∉ l.*1 -> (t', o') ∈ l -> tinv os0 t' o' st -> tinv os0 t o st ->
  olock o x ≠ None -> olock o' x = None.
Proof.
  intros Nt Hin T' T Hl. destruct (olock o' x) as [[n' ow']|] eqn:E'; [|done]. exfalso.
  destruct (olock o x) as [[n ow]|] eqn:E; [|done].
  destruct (sets st !! x) as [s|] eqn:Es; [|by destruct (ti_out _ _ _ _ T x Es); congruence].
  apply (ti_lock _ _ _ _ T x s Es) in E as [E _]. apply (ti_lock _ _ _ _ T' x s Es) in E' as [E' _].
  rewrite E in E'. injection E' as <- _. apply Nt. apply list_elem_of_fmap. by exists (t, o').
Qed.

(** Only a thread that has the mutex may have given away more references than it holds, and then the records make up for it. *)
Lemma others_nonneg (os : list (tid * own)) : NoDup os.*1 ->
  (forall t o, (t, o) ∈ os -> tinv os0 t o st) ->
  0 <= zlen (members st x) + refsum os x /\
  (0 < zlen (members st x) -> 0 < zlen (members st x) + refsum os x) /\
  ((forall t o, (t, o) ∈ os -> olock o x = None) -> 0 <= refsum os x).
Proof.
  intros Nd Ht. induction os as [|[t o] os IH]; simpl; [lia|].
  apply NoDup_cons in Nd as [Nt Nd]. destruct IH as (H1 & H2 & H3); [done|intros; apply (Ht t0 o0); set_solver|].
  pose proof (Ht t o ltac:(set_solver)) as T.
  destruct (decide (oref o x < 0)) as [Hn|Hn].
  - destruct (ti_ref _ _ _ _ T x Hn) as [Hl Hm].
    assert (Hno : forall t' o', (t', o') ∈ os -> olock o' x = None).
    { intros t' o' Hin. apply (others_unlocked t o t' o' os Nt); [done| |exact T|done]. apply (Ht t' o'). set_solver. }
    specialize (H3 Hno). split; [lia|]. split; [lia|]. intros Hc.
    destruct Hl. apply (Hc t o). set_solver.
  - split; [lia|]. split; [lia|]. intros Hc. assert (0 <= refsum os x) by (apply H3; intros; apply (Hc t0); set_solver). lia.
Qed.

Lemma refsum_bound (os : list (tid * own)) : 0 <= K -> NoDup os.*1 ->
  (forall t o, (t, o) ∈ os -> tinv os0 t o st) ->
  (zlen (members st x) <= Z.of_nat (size (lrs st)) ->
    zlen (members st x) + refsum os x <= Z.of_nat (size (lrs st)) + K * zlen os) /\
  ((forall t o, (t, o) ∈ os -> olock o x = None) -> refsum os x <= K * zlen os).
Proof.
  intros HK Nd Ht. induction os as [|[t o] os IH]; [simpl; lia|]. cbn [refsum foldr snd length].
  change (foldr _ 0 os) with (refsum os x).
  apply NoDup_cons in Nd as [Nt Nd]. destruct IH as (H1 & H2); [done|intros; apply (Ht t0 o0); set_solver|].
  pose proof (Ht t o ltac:(set_solver)) as T. destruct (ti_max _ _ _ _ T x) as [Hm|[Hl Hm]].
  - split; [intros; lia|]. intros Hc. assert (refsum os x <= K * zlen os) by (apply H2; intros; apply (Hc t0); set_solver). lia.
  - split; [|intros Hc; destruct Hl; apply (Hc t o); set_solver]. intros _.
    assert (refsum os x <= K * zlen os); [|lia]. apply H2. intros t' o' Hin.
    apply (others_unlocked t o t' o' os Nt); [done| |exact T|done]. apply (Ht t' o'). set_solver.
Qed.
End Others.

(** ** Facts about one thread in a system *)

Lemma core_members H R st r x : core H R st -> plock st r = Some x <-> r ∈ members st x.
Proof. clear K lim. intros C. split; [apply (co_lr _ _ _ C)|apply (co_mem _ _ _ C)]. Qed.

Lemma members_lookup st x s : sets st !! x = Some s -> members st x = lockRecordList s.
Proof. clear K lim. unfold members. by intros ->. Qed.

Lemma members_some st x r : r ∈ members st x -> exists s, sets st !! x = Some s /\ r ∈ lockRecordList s.
Proof. clear K lim. unfold members. destruct (sets st !! x); [eauto|by intros ?%not_elem_of_nil]. Qed.

Lemma members_bound H R st x : core H R st -> zlen (members st x) <= Z.of_nat (size (lrs st)).
Proof.
  clear K lim. intros C. rewrite <- size_dom.
  rewrite <- (size_list_to_set (C := gset recid) (members st x)) by apply (co_nodup _ _ _ C).
  apply inj_le, subseteq_size. intros r Hr%elem_of_list_to_set. apply elem_of_dom.
  apply (co_mem _ _ _ C) in Hr. unfold plock in Hr. destruct (lrs st !! r); [eauto|done].
Qed.

Section Facts.
Context (os : list (tid * own)) (st : lk_state) (I : cinv os st) (i : nat) (t : tid) (o : own).
Context (Hi : os !! i = Some (t, o)).

Lemma own_inv : tinv os t o st.
Proof. apply (ci_each _ _ I). by eapply list_elem_of_lookup_2. Qed.

Lemma other_tid j t' o' : os !! j = Some (t', o') -> i ≠ j -> t ≠ t'.
Proof.
  intros Hj N ->. apply N. eapply (NoDup_lookup _ i j t'); [apply (ci_tids _ _ I)| |].
  - by rewrite list_lookup_fmap, Hi.
  - by rewrite list_lookup_fmap, Hj.
Qed.

(** The references of the other threads. *)
Definition others x : Z := refsum os x - oref o x.

Lemma others_facts x : 0 <= zlen (members st x) + others x /\
  (members st x ≠ [] -> 0 < zlen (members st x) + others x) /\
  (olock o x ≠ None -> 0 <= others x).
Proof.
  unfold others. rewrite (refsum_delete os i t o x Hi).
  assert (Nd : NoDup (delete i os).*1).
  { rewrite list_fmap_delete. eapply sublist_NoDup; [apply (ci_tids _ _ I)|apply sublist_delete]. }
  assert (Hin : forall t' o', (t', o') ∈ delete i os -> exists j, i ≠ j /\ os !! j = Some (t', o')).
  { intros t' o' [j Hj]%list_elem_of_lookup. destruct (decide (j < i)%nat).
    - exists j. rewrite list_lookup_delete_lt in Hj by done. split; [lia|done].
    - exists (S j). rewrite list_lookup_delete_ge in Hj by lia. split; [lia|done]. }
  destruct (others_nonneg os st x (delete i os) Nd) as (H1 & H2 & H3).
  { intros t' o' (j & _ & Hj)%Hin. apply (ci_each _ _ I). by eapply list_elem_of_lookup_2. }
  split; [lia|]. split.
  - intros Hm. assert (0 < zlen (members st x)) by (destruct (members st x); [done|simpl; lia]). lia.
  - intros Hl. assert (0 <= refsum (delete i os) x); [|lia]. apply H3.
    intros t' o' (j & N & Hj)%Hin. destruct (olock o' x) as [[n' ow']|] eqn:E'; [|done]. exfalso.
    destruct (olock o x) as [[n ow]|] eqn:E; [|done].
    assert (T' : tinv os t' o' st) by (apply (ci_each _ _ I); by eapply list_elem_of_lookup_2).
    destruct (sets st !! x) as [s|] eqn:Es; [|destruct (ti_out _ _ _ _ T' x Es); congruence].
    apply (ti_lock _ _ _ _ own_inv x s Es) in E as [E _].
    apply (ti_lock _ _ _ _ T' x s Es) in E' as [E' _]. rewrite E in E'. injection E' as E' _.
    by apply (other_tid j t' o' Hj N).
Qed.

Lemma own_count x s : sets st !! x = Some s -> refcount s = zlen (lockRecordList s) + oref o x + others x.
Proof. intros E. unfold others. rewrite (co_ref _ _ _ (ci_core _ _ I) x s E). lia. Qed.

(** The counters do not overflow. *)
Lemma count_bound x s : sets st !! x = Some s -> refcount s + 1 < int_max.
Proof.
  intros E. rewrite (co_ref _ _ _ (ci_core _ _ I) x s E). destruct (ci_bound _ _ I) as [HK Hb].
  pose proof (members_bound _ _ _ x (ci_core _ _ I)) as H2. rewrite (members_lookup st x s E) in H2.
  destruct (refsum_bound os st x os HK (ci_tids _ _ I) (ci_each _ _ I)) as [H1 _].
  rewrite (members_lookup st x s E) in H1. lia.
Qed.

(** A set with records, or with references of this thread, is in use. *)
Lemma in_use x s : sets st !! x = Some s -> 0 < oref o x \/ (0 <= oref o x /\ lockRecordList s ≠ []) ->
  0 < refcount s /\ oref o x <= refcount s.
Proof.
  intros E Hor. rewrite (own_count x s E), <- (members_lookup st x s E) in *.
  destruct (others_facts x) as (H1 & H2 & _). split; [|lia].
  destruct Hor as [|[? Hm]]; [lia|]. specialize (H2 Hm). lia.
Qed.
End Facts.

(** ** One step *)

Section Step.
Context (os : list (tid * own)) (st st2 : lk_state) (I : cinv os st) (i : nat) (t : tid) (o o2 : own).
Context (Hi : os !! i = Some (t, o)) (G : guar t o o2 st st2).

Lemma lock_kept x s n t' : t' ≠ t -> sets st !! x = Some s ->
  (exists s', sets st2 !! x = Some s' /\ lock s' = Some (t', n)) <-> lock s = Some (t', n).
Proof.
  intros N E. split.
  - intros (s' & E' & L'). destruct (gu_lock2 _ _ _ _ _ G t' n x s' N E' L') as (s1 & E1 & L1). congruence.
  - intros L. destruct (gu_lock _ _ _ _ _ G t' n x s N E L) as (s' & E' & _ & L' & _). exists s'. by rewrite L'.
Qed.

Lemma lrs_kept : size (lrs st2) = size (lrs st).
Proof.
  rewrite <- !size_dom. f_equal. apply set_eq. intros r. rewrite !elem_of_dom. apply (gu_dom _ _ _ _ _ G).
Qed.

(** The parts of the other threads are as before. *)
Lemma other_members t' o' x : t' ≠ t -> tinv os t' o' st -> olock o' x ≠ None -> members st2 x = members st x.
Proof.
  intros N T Hl. destruct (olock o' x) as [[n ow]|] eqn:E; [|done].
  destruct (sets st !! x) as [s|] eqn:Es; [|destruct (ti_out _ _ _ _ T x Es); congruence].
  apply (ti_lock _ _ _ _ T x s Es) in E as [E _].
  destruct (gu_lock _ _ _ _ _ G t' _ x s N Es E) as (s' & E' & El & _).
  by rewrite (members_lookup _ _ _ E'), (members_lookup _ _ _ Es).
Qed.

Lemma other_tinv t' o' : t' ≠ t -> (t', o') ∈ os -> tinv os t' o' st -> tinv (<[i := (t, o2)]> os) t' o' st2.
Proof.
  intros N Hin T.
  assert (Hnone : forall x, sets st2 !! x = None -> sets st !! x = None).
  { intros x E. apply eq_None_not_Some. intros Hs%(gu_sets _ _ _ _ _ G). rewrite E in Hs. by destruct Hs. }
  split.
  - intros x s' E' n ow. destruct (sets st !! x) as [s|] eqn:Es.
    + rewrite (ti_lock _ _ _ _ T x s Es). split.
      * intros [L W]. destruct (gu_lock _ _ _ _ _ G t' _ x s N Es L) as (s1 & E1 & _ & L1 & W1).
        rewrite E' in E1. injection E1 as <-. by rewrite L1, W1.
      * intros [L W]. destruct (gu_lock2 _ _ _ _ _ G t' _ x s' N E' L) as (s1 & E1 & L1).
        rewrite Es in E1. injection E1 as <-. split; [done|].
        destruct (gu_lock _ _ _ _ _ G t' _ x s N Es L1) as (s2 & E2 & _ & _ & W2). congruence.
    + destruct (ti_out _ _ _ _ T x Es) as [-> _]. split; [done|]. intros [L _].
      destruct (gu_lock2 _ _ _ _ _ G t' _ x s' N E' L) as (s1 & E1 & _). congruence.
  - intros x E. apply (ti_out _ _ _ _ T), Hnone, E.
  - intros x Hx. destruct (ti_ref _ _ _ _ T x Hx) as [Hl Hm]. by rewrite (other_members t' o' x N T Hl).
  - intros x. destruct (ti_max _ _ _ _ T x) as [|[Hl Hm]]; [by left|right].
    rewrite (other_members t' o' x N T Hl), lrs_kept. by split.
  - intros x Hl. rewrite (other_members t' o' x N T Hl). by apply (ti_held _ _ _ _ T).
  - apply (ti_pend _ _ _ _ T).
  - apply (ti_nodup _ _ _ _ T).
  - apply (ti_cross _ _ _ _ T).
  - intros r Hr. destruct (ti_flux _ _ _ _ T r Hr) as (x & Hx & Hl). exists x.
    by rewrite (other_members t' o' x N T Hl).
  - intros c l Hs. destruct (ti_snap _ _ _ _ T c l Hs) as [Hc Hl]. pose proof (gu_cnt _ _ _ _ _ G).
    split; [lia|]. intros E r x Hx. assert (E0 : recomputeCnt st = c) by lia.
    assert (Ho2 : (t, o2) ∈ <[i := (t, o2)]> os).
    { eapply list_elem_of_lookup_2, list_lookup_insert_eq. by eapply lookup_lt_Some. }
    destruct (Hl E0 r x Hx) as [Hp|(t1 & o1 & Hin1 & Hp)].
    + destruct (gu_pend _ _ _ _ _ G r x Hp); [by left|right]. by exists t, o2.
    + right. apply list_elem_of_lookup in Hin1 as [j Hj]. destruct (decide (i = j)) as [<-|Nj].
      * rewrite Hi in Hj. injection Hj as <- <-. destruct (gu_pend2 _ _ _ _ _ G _ Hp); [|lia]. by exists t, o2.
      * exists t1, o1. split; [|done]. eapply list_elem_of_lookup_2. rewrite list_lookup_insert_ne; eauto.
Qed.

(** Retiring sets of the others. *)
Lemma retiring_insert x : retiring (<[i := (t, o2)]> os) x <->
  x ∈ oret o2 \/ (x ∉ oret o /\ retiring os x).
Proof.
  assert (Hlen : (i < length os)%nat) by (by eapply lookup_lt_Some). split.
  - intros (t' & o' & [j Hj]%list_elem_of_lookup & Hx). destruct (decide (i = j)) as [<-|Nj].
    + rewrite list_lookup_insert_eq in Hj by done. injection Hj as <- <-. by left.
    + rewrite list_lookup_insert_ne in Hj by done. right. split.
      * intros Hx'. apply (other_tid os st I i t o Hi j t' o' Hj Nj).
        eapply (ci_once _ _ I); [| |exact Hx'|exact Hx]; by eapply list_elem_of_lookup_2.
      * exists t', o'. split; [by eapply list_elem_of_lookup_2|done].
  - intros [Hx|[Hx (t' & o' & [j Hj]%list_elem_of_lookup & Hx')]].
    + exists t, o2. split; [|done]. eapply list_elem_of_lookup_2. by rewrite list_lookup_insert_eq.
    + exists t', o'. split; [|done]. eapply (list_elem_of_lookup_2 _ j). rewrite list_lookup_insert_ne; [done|].
      intros <-. rewrite Hi in Hj. injection Hj as <- <-. done.
Qed.

Lemma cinv_step :
  core (refsum (<[i := (t, o2)]> os)) (retiring (<[i := (t, o2)]> os)) st2 ->
  linv (<[i := (t, o2)]> os) st2 ->
  tinv (<[i := (t, o2)]> os) t o2 st2 -> (forall x, x ∈ oret o2 -> x ∈ oret o \/ ~ retiring os x) ->
  moves os i t o o2 st st2.
Proof.
  intros C V T Hret. split; [|done]. pose proof (tids_insert os i t o o2 Hi) as Et.
  assert (Hlen : (i < length os)%nat) by (by eapply lookup_lt_Some).
  assert (Hin : forall t' o', (t', o') ∈ <[i := (t, o2)]> os ->
    (t' = t /\ o' = o2) \/ (t' ≠ t /\ (t', o') ∈ os)).
  { intros t' o' [j Hj]%list_elem_of_lookup. destruct (decide (i = j)) as [<-|Nj].
    - rewrite list_lookup_insert_eq in Hj by done. injection Hj as <- <-. by left.
    - rewrite list_lookup_insert_ne in Hj by done. right.
      split; [|by eapply list_elem_of_lookup_2]. intros ->. by apply (other_tid os st I i t o Hi j t o' Hj Nj). }
  assert (Hio : (t, o) ∈ os) by (by eapply list_elem_of_lookup_2).
  split.
  - done.
  - done.
  - rewrite Et. apply (ci_tids _ _ I).
  - intros x s t' n E L. rewrite Et. destruct (decide (t' = t)) as [->|N].
    + apply list_elem_of_fmap. by exists (t, o).
    + destruct (gu_lock2 _ _ _ _ _ G t' n x s N E L) as (s0 & E0 & L0). by eapply (ci_owner _ _ I).
  - intros t' o' [[-> ->]|[N Ho]]%Hin; [done|]. by apply other_tinv, (ci_each _ _ I).
  - assert (Hx : forall t' o' x, (t', o') ∈ os -> t' ≠ t -> x ∈ oret o2 -> x ∈ oret o' -> False).
    { intros t' o' x Ho N H1 H2. destruct (Hret x H1) as [H3|H3].
      - apply N. by eapply (ci_once _ _ I).
      - apply H3. by exists t', o'. }
    intros t1 o1 t' o' x [[-> ->]|[N1 H1]]%Hin [[-> ->]|[N2 H2]]%Hin Hx1 Hx2; try done.
    + by destruct (Hx t' o' x).
    + by destruct (Hx t1 o1 x).
    + by eapply (ci_once _ _ I).
  - rewrite length_insert, lrs_kept. apply (ci_bound _ _ I).
Qed.

Lemma guar_rely j t' o' : moves os i t o o2 st st2 -> os !! j = Some (t', o') -> i ≠ j -> rely o' st st2.
Proof.
  intros [I2 _] Hj Nj. pose proof (other_tid os st I i t o Hi j t' o' Hj Nj) as N.
  pose proof (own_inv os st I j t' o' Hj) as T.
  assert (Hmem : forall x, olock o' x ≠ None -> members st2 x = members st x)
    by (intros x; by apply (other_members t')).
  split; try apply G; try done.
  - intros r x Hp Hl. apply (core_members _ _ _ _ _ (ci_core _ _ I2)). rewrite Hmem by done.
    by apply (core_members _ _ _ _ _ (ci_core _ _ I)).
  - intros x r Hl Hr. destruct (members_some st x r Hr) as (s & E & Hin).
    destruct (olock o' x) as [[n ow]|] eqn:F; [|done]. apply (ti_lock _ _ _ _ T x s E) in F as [F _].
    by apply (gu_rec _ _ _ _ _ G t' (S n) x s).
  - intros x s E Er Hp El. apply (gu_alone _ _ _ _ _ G); [done|lia|done|].
    assert (Hn : forall t1 o1, (t1, o1) ∈ delete j os -> 0 <= oref o1 x).
    { intros t1 o1 Ho. destruct (decide (oref o1 x < 0)) as [Hlt|]; [|lia].
      apply (sublist_subseteq _ _ (sublist_delete _ _)) in Ho.
      destruct (ti_ref _ _ _ _ (ci_each _ _ I _ _ Ho) x Hlt) as [_ H]. rewrite (members_lookup _ _ _ E), El in H.
      simpl in H. lia. }
    assert (Hio : (t, o) ∈ delete j os).
    { destruct (decide (i < j)%nat).
      - eapply (list_elem_of_lookup_2 _ i). by rewrite list_lookup_delete_lt.
      - eapply (list_elem_of_lookup_2 _ (i - 1)). rewrite list_lookup_delete_ge by lia.
        by replace (S (i - 1)) with i by lia. }
    apply (refsum_zero _ _ Hn _ _ Hio).
    pose proof (co_ref _ _ _ (ci_core _ _ I) x s E) as Hc. rewrite El, (refsum_delete os j t' o' x Hj) in Hc.
    simpl in Hc. lia.
Qed.
End Step.

(** ** The system *)

(** A thread that is done holds nothing. *)
Definition idle (o : own) : Prop :=
  (forall x, oref o x = 0) /\ (forall x, olock o x = None) /\ oret o = [] /\ opend o = [] /\ clean o.

Definition system (ts : list thread) st : Prop := exists os, os.*1 = ts.*1 /\ cinv os st /\
  forall i t p o, ts !! i = Some (t, p) -> os !! i = Some (t, o) ->
    exists st0, rely o st0 st /\ safe t p o st0 (fun _ o' _ => idle o').

Lemma system_own {A B} (ts : list (tid * A)) (os : list (tid * B)) i t p :
  os.*1 = ts.*1 -> ts !! i = Some (t, p) -> exists o, os !! i = Some (t, o).
Proof.
  clear K lim. intros E Hi. assert (H : os.*1 !! i = Some t) by (by rewrite E, list_lookup_fmap, Hi).
  rewrite list_lookup_fmap in H. destruct (os !! i) as [[t' o]|]; [|done]. injection H as ->. eauto.
Qed.

Lemma system_step c c' : step c c' -> within lim c.2 -> system c.1 c.2 -> system c'.1 c'.2.
Proof.
  intros [ts st i t p p' st' Hw Hi Hp] Wi (os & Et & I & Hs). simpl in *. pose proof (conj Hw Wi : fits lim st) as Hf.
  destruct (system_own ts os i t p Et Hi) as [o Ho].
  destruct (Hs i t p o Hi Ho) as (st0 & Hr & Hsafe).
  assert (Hlt : (i < length ts)%nat) by (by eapply lookup_lt_Some).
  assert (Hlo : (i < length os)%nat) by (by eapply lookup_lt_Some).
  assert (Done : forall o2 st2, st' = st2 -> moves os i t o o2 st st2 ->
    safe t p' o2 st2 (fun _ o' _ => idle o') -> system (<[i := (t, p')]> ts) st').
  { intros o2 st2 -> M Hsafe'. exists (<[i := (t, o2)]> os). split; [|split; [apply M|]].
    - rewrite (tids_insert os i t o o2 Ho), Et, list_fmap_insert. simpl. symmetry. apply list_insert_id.
      by rewrite list_lookup_fmap, Hi.
    - intros j t' q o' Hj Hoj. destruct (decide (i = j)) as [<-|N].
      + rewrite list_lookup_insert_eq in Hj by done. rewrite list_lookup_insert_eq in Hoj by done. injection Hj as <- <-. injection Hoj as <-.
        exists st2. split; [reflexivity|done].
      + rewrite list_lookup_insert_ne in Hj by done. rewrite list_lookup_insert_ne in Hoj by done. destruct (Hs j t' q o' Hj Hoj) as (st1 & Hr1 & Hs1).
        exists st1. split; [|done]. etransitivity; [exact Hr1|].
        by eapply (guar_rely os st st2 I i t o o2 Ho (proj2 M) j t'). }
  destruct p as [| |rs k|X f k]; simpl in Hp; try done.
  - injection Hp as <- <-. destruct Hsafe as [_ Hsafe].
    exists os. split; [|split; [done|]].
    + rewrite Et, list_fmap_insert. simpl. symmetry. apply list_insert_id. by rewrite list_lookup_fmap, Hi.
    + intros j t' q o' Hj Hoj. destruct (decide (i = j)) as [<-|N].
      * rewrite list_lookup_insert_eq in Hj by done. injection Hj as <- <-. rewrite Ho in Hoj. injection Hoj as <-. eauto.
      * rewrite list_lookup_insert_ne in Hj by done. eauto.
  - simpl in Hsafe. specialize (Hsafe os i st Ho I Hr Hf). destruct (f st) as [e|[x st2]]; simpl in Hp; [done|].
    injection Hp as <- <-. destruct Hsafe as (o2 & M & Hsafe). by eapply Done.
Qed.

(** The records stay the same. *)
Lemma system_size c c' : step c c' -> within lim c.2 -> system c.1 c.2 -> size (lrs c'.2) = size (lrs c.2).
Proof.
  intros [ts st i t p p' st' Hw Hi Hp] Wi (os & Et & I & Hs). simpl in *. pose proof (conj Hw Wi : fits lim st) as Hf.
  destruct (system_own ts os i t p Et Hi) as [o Ho]. destruct (Hs i t p o Hi Ho) as (st0 & Hr & Hsafe).
  destruct p as [| |rs k|X f k]; simpl in Hp; try done; [by injection Hp as _ <-|].
  specialize (Hsafe os i st Ho I Hr Hf). destruct (f st) as [e|[x st2]]; simpl in Hp; [done|].
  injection Hp as _ <-. destruct Hsafe as (o2 & [_ G] & _). by eapply lrs_kept.
Qed.

(** [Inv] is what keeps the counter within the limit. *)
Lemma system_steps (Inv : list thread * lk_state -> Prop) c c' :
  (forall c, system c.1 c.2 -> Inv c -> within lim c.2) ->
  (forall c c', step c c' -> system c.1 c.2 -> Inv c -> Inv c') ->
  rtc step c c' -> system c.1 c.2 -> Inv c -> system c'.1 c'.2 /\ Inv c'.
Proof. intros H1 H2. induction 1; eauto using system_step. Qed.

(** No step is a fault. *)
Lemma system_safe ts st i t p e : system ts st -> fits lim st ->
  ts !! i = Some (t, p) -> pstep p st = Some (inl e) -> e = LkBlocked.
Proof.
  intros (os & Et & I & Hs) Hw Hi Hp. destruct (system_own ts os i t p Et Hi) as [o Ho].
  destruct (Hs i t p o Hi Ho) as (st0 & Hr & Hsafe). destruct p as [| |rs k|X f k]; simpl in *; try done.
  specialize (Hsafe os i st Ho I Hr Hw). destruct (f st) as [e'|[x st2]]; simpl in Hp; [|done].
  injection Hp as ->. apply Hsafe.
Qed.

(** Two threads that use records use records of different sets. *)
Lemma system_excludes ts st i j t1 rs1 k1 t2 rs2 k2 r1 r2 : system ts st ->
  ts !! i = Some (t1, Inside rs1 k1) -> ts !! j = Some (t2, Inside rs2 k2) -> i ≠ j ->
  r1 ∈ rs1 -> r2 ∈ rs2 -> exists x1 x2, plock st r1 = Some x1 /\ plock st r2 = Some x2 /\ x1 ≠ x2.
Proof.
  intros (os & Et & I & Hs) Hi Hj Nij H1 H2.
  destruct (system_own ts os i _ _ Et Hi) as [o1 Ho1]. destruct (system_own ts os j _ _ Et Hj) as [o2 Ho2].
  destruct (Hs i _ _ o1 Hi Ho1) as (st1 & Hr1 & [Hh1 _]). destruct (Hs j _ _ o2 Hj Ho2) as (st2 & Hr2 & [Hh2 _]).
  destruct (Hh1 r1 H1) as (x1 & E1 & L1). destruct (Hh2 r2 H2) as (x2 & E2 & L2).
  pose proof (re_lr _ _ _ Hr1 r1 x1 E1 L1) as P1. pose proof (re_lr _ _ _ Hr2 r2 x2 E2 L2) as P2.
  exists x1, x2. split; [done|]. split; [done|]. intros <-.
  destruct (members_some st x1 r1) as (s & Es & _); [by apply (core_members _ _ _ _ _ (ci_core _ _ I))|].
  destruct (olock o1 x1) as [[n1 w1]|] eqn:F1; [|done]. destruct (olock o2 x1) as [[n2 w2]|] eqn:F2; [|done].
  pose proof (own_inv os st I i _ _ Ho1) as T1. pose proof (own_inv os st I j _ _ Ho2) as T2.
  apply (ti_lock _ _ _ _ T1 x1 s Es) in F1 as [F1 _]. apply (ti_lock _ _ _ _ T2 x1 s Es) in F2 as [F2 _].
  rewrite F1 in F2. injection F2 as <- _. by apply (other_tid os st I i t1 o1 Ho1 j t1 o2 Ho2 Nij).
Qed.

(** When all threads are done nothing is held. *)
Lemma system_done ts st : system ts st -> (forall i t p, ts !! i = Some (t, p) -> p = Ret tt) ->
  exists os, cinv os st /\ forall t o, (t, o) ∈ os -> idle o.
Proof.
  intros (os & Et & I & Hs) Hd. exists os. split; [done|]. intros t o [i Hi]%list_elem_of_lookup.
  assert (H : ts.*1 !! i = Some t) by (by rewrite <- Et, list_lookup_fmap, Hi).
  rewrite list_lookup_fmap in H. destruct (ts !! i) as [[t' p]|] eqn:E; [|done]. injection H as ->.
  destruct (Hs i t p o E Hi) as (st0 & _ & Hsafe). by rewrite (Hd i t p E) in Hsafe.
Qed.
End Threads.
