(* ===== verification/DbLockSteps.v ===== *)
(** * Lock sets: the atomic steps

    What each atomic step of [DbLockProg] does to the invariant [cinv] of a system of threads. *)

From stdpp Require Import base gmap list sorting fin_sets relations.
From Stdlib Require Import ZArith Lia Bool.
From S2P Require Import Prelude DbLock DbLockInv DbLocker DbLockSets DbLockGraph DbLockProg DbLockConc.
Open Scope Z_scope.

Definition o_ref (o : own) x n : own :=
  mkOwn (hadd (oref o) x n) (olock o) (oret o) (opend o) (osnap o) (ocross o) (oflag o) (odirty o).
Definition o_lock (o : own) x v : own :=
  mkOwn (oref o) (fun y => if decide (y = x) then v else olock o y) (oret o) (opend o) (osnap o) (ocross o) (oflag o) (odirty o).
Definition o_ret (o : own) l : own :=
  mkOwn (oref o) (olock o) l (opend o) (osnap o) (ocross o) (oflag o) (odirty o).
Definition o_pend (o : own) l : own :=
  mkOwn (oref o) (olock o) (oret o) l (osnap o) (ocross o) (oflag o) (odirty o).
Definition o_snap (o : own) v : own :=
  mkOwn (oref o) (olock o) (oret o) (opend o) v (ocross o) (oflag o) (odirty o).
Definition o_flux (o : own) c f d : own := mkOwn (oref o) (olock o) (oret o) (opend o) (osnap o) c f d.

(** What thread [t] has of the mutex of a set. *)
Definition my_lock (t : tid) (s : lockSet) : option (nat * option lockerid) :=
  match lock s with
  | Some (t', S n) => if decide (t' = t) then Some (n, ownerlocker s) else None
  | _ => None
  end.
Definition mine (t : tid) (s : lockSet) : Prop := forall t' n, lock s = Some (t', n) -> t' = t.

Lemma my_lock_spec t s n ow : my_lock t s = Some (n, ow) <-> lock s = Some (t, S n) /\ ownerlocker s = ow.
Proof.
  unfold my_lock. destruct (lock s) as [[t' [|m]]|]; [naive_solver| |naive_solver].
  destruct (decide (t' = t)) as [->|]; naive_solver.
Qed.

Lemma core_ext H R H' R' st : core H R st -> (forall x, H' x = H x) -> (forall x, R' x <-> R x) -> core H' R' st.
Proof.
  intros [] EH ER. split; try done.
  - intros x s E. rewrite EH. eauto.
  - intros x. rewrite co_active. by setoid_rewrite ER.
  - intros x. rewrite co_free. by setoid_rewrite ER.
  - intros x. rewrite ER. eauto.
  - intros x s E E0. rewrite ER. eauto.
Qed.

Section Steps.
Context (K : Z) (os : list (tid * own)) (st : lk_state) (I : cinv K os st).
Context (i : nat) (t : tid) (o : own) (Hi : os !! i = Some (t, o)).

Lemma olock_my x s : sets st !! x = Some s -> olock o x = my_lock t s.
Proof.
  intros E. pose proof (own_inv _ _ _ I _ _ _ Hi) as T.
  destruct (olock o x) as [[n ow]|] eqn:F.
  - symmetry. apply my_lock_spec. by apply (ti_lock _ _ _ _ _ T x s E).
  - destruct (my_lock t s) as [[n ow]|] eqn:F'; [|done]. apply my_lock_spec in F'.
    apply (ti_lock _ _ _ _ _ T x s E) in F'. congruence.
Qed.

Lemma guar_refl o2 : (forall p, p ∈ opend o -> p ∈ opend o2) -> guar t o o2 st st.
Proof.
  intros Hp. split; try done; eauto.
Qed.

Lemma ex_keep (P : own -> Prop) o2 : (P o -> P o2) -> (exists t o, (t, o) ∈ os /\ P o) ->
  exists t' o', (t', o') ∈ <[i := (t, o2)]> os /\ P o'.
Proof.
  intros HP (t1 & o1 & [j Hj]%list_elem_of_lookup & H1). destruct (decide (i = j)) as [<-|N].
  - rewrite Hi in Hj. injection Hj as <- <-. exists t, o2. split; [|auto].
    eapply (list_elem_of_lookup_2 _ i), list_lookup_insert_eq. by eapply lookup_lt_Some.
  - exists t1, o1. split; [|done]. eapply (list_elem_of_lookup_2 _ j). by rewrite list_lookup_insert_ne.
Qed.

Lemma pending_keep o2 p : (p ∈ opend o -> p ∈ opend o2) -> pending os p -> pending (<[i := (t, o2)]> os) p.
Proof. apply (ex_keep (fun o => p ∈ opend o)). Qed.

(** What the thread has in hand does not become less. *)
Record grows (o2 : own) : Prop := {
  gr_cross : forall x, x ∈ ocross o -> x ∈ ocross o2;
  gr_flag : forall r, r ∈ oflag o -> r ∈ oflag o2;
  gr_dirty : forall l, l ∈ odirty o -> l ∈ odirty o2
}.

Lemma cross_keep o2 x y : grows o2 -> crossing os x y -> crossing (<[i := (t, o2)]> os) x y.
Proof. intros [H _ _]. apply (ex_keep (fun o => x ∈ ocross o /\ y ∈ ocross o)). intros [? ?]. auto. Qed.
Lemma flag_keep o2 r : grows o2 -> flagged os r -> flagged (<[i := (t, o2)]> os) r.
Proof. intros [_ H _]. by apply (ex_keep (fun o => r ∈ oflag o)), H. Qed.
Lemma dirty_keep o2 l : grows o2 -> dirty os l -> dirty (<[i := (t, o2)]> os) l.
Proof. intros [_ _ H]. by apply (ex_keep (fun o => l ∈ odirty o)), H. Qed.

Lemma cross_mine o2 x y : x ∈ ocross o2 -> y ∈ ocross o2 -> crossing (<[i := (t, o2)]> os) x y.
Proof.
  intros Hx Hy. exists t, o2. split; [|done].
  eapply (list_elem_of_lookup_2 _ i), list_lookup_insert_eq. by eapply lookup_lt_Some.
Qed.

Lemma links_keep st2 o2 : recs st2 = recs st -> lrs st2 = lrs st -> grows o2 -> linv (<[i := (t, o2)]> os) st2.
Proof.
  intros Er El Gr. destruct (ci_links _ _ _ I) as [G E P F S].
  assert (Ep : forall r, plock st2 r = plock st r) by (intros r; unfold plock; by rewrite El).
  assert (Ee : forall r q, edge st2 r q -> edge st r q) by (intros r q [k H]; exists k; by apply (db_link_recs st st2)).
  split.
  - eapply graph_ok_recs; [exact Er| |exact G]. by rewrite El.
  - intros r q x y H%Ee. rewrite !Ep. intros H1 H2. destruct (E r q x y H H1 H2); [by left|right; by apply cross_keep].
  - intros r q x. rewrite !Ep. intros H1 H2. rewrite (conn_recs st st2) by done.
    destruct (P r q x H1 H2); [by left|right; by apply cross_keep].
  - intros r lr. rewrite El. intros H. destruct (F r lr H); [by left|right; by apply flag_keep].
  - intros l p. unfold link_of. rewrite Er. intros H. destruct (S l p H); [by left|right; by apply dirty_keep].
Qed.

Lemma grows_same o2 : ocross o2 = ocross o -> oflag o2 = oflag o -> odirty o2 = odirty o -> grows o2.
Proof. intros E1 E2 E3. by split; rewrite ?E1, ?E2, ?E3. Qed.

(** ** Steps that change no set *)

Lemma same_retiring o2 x : oret o2 = oret o -> retiring (<[i := (t, o2)]> os) x <-> retiring os x.
Proof.
  intros Et. rewrite (retiring_insert K os st I i t o o2 Hi), Et. split; [|destruct (decide (x ∈ oret o)); tauto].
  intros [Hx|[_ Hx]]; [|done]. exists t, o. split; [by eapply list_elem_of_lookup_2|done].
Qed.

Lemma same_refsum o2 x : oref o2 x = oref o x -> refsum (<[i := (t, o2)]> os) x = refsum os x.
Proof. intros Er. rewrite (refsum_insert os i t o o2 x Hi), Er. lia. Qed.

(** The core does not depend on the links and the flags. *)
Lemma core_flux H R st2 : sets st2 = sets st -> lockSetsActive st2 = lockSetsActive st ->
  lockSetsFree st2 = lockSetsFree st -> next_id st2 = next_id st -> recomputeCnt st2 = recomputeCnt st ->
  (forall r, plock st2 r = plock st r) -> core H R st -> core H R st2.
Proof.
  intros E1 E2 E3 E4 E5 Ep []. assert (Em : forall x, members st2 x = members st x) by (intros x; unfold members; by rewrite E1).
  split; rewrite ?E1, ?E2, ?E3, ?E4, ?E5; try done.
  - intros r x. rewrite Ep, Em. auto.
  - intros r x. rewrite Ep, Em. auto.
  - intros x. by rewrite Em.
Qed.

(** Only what the thread knows. *)
Lemma know_step o2 : (forall x, oref o2 x = oref o x) -> (forall x, olock o2 x = olock o x) ->
  oret o2 = oret o -> opend o2 = opend o -> ocross o2 = ocross o -> oflag o2 = oflag o -> odirty o2 = odirty o ->
  (forall c l, osnap o2 = Some (c, l) -> c <= recomputeCnt st /\
    (recomputeCnt st = c -> forall r x, (r, x) ∈ l -> plock st r = Some x \/ pending os (r, x))) ->
  moves K os i t o o2 st st.
Proof.
  intros Er El Et Ep Ec Ef Ed Es. pose proof (own_inv _ _ _ I _ _ _ Hi) as T.
  assert (G : guar t o o2 st st) by (apply guar_refl; intros p; by rewrite Ep).
  apply (cinv_step K os st st I i t o o2 Hi G).
  - apply (core_ext _ _ _ _ _ (ci_core _ _ _ I)); intros x; [by apply same_refsum|by apply same_retiring].
  - apply links_keep; [done|done|by apply grows_same].
  - destruct T. split; intros; rewrite ?Er, ?El, ?Et, ?Ep, ?Ec, ?Ef, ?Ed in *; eauto.
    + destruct (ti_flux _ H) as (x & ? & ?). exists x. by rewrite El.
    + destruct (Es c l H) as [? Hl]. split; [done|]. intros E r x Hx. destruct (Hl E r x Hx) as [|(t1 & o1 & Ho & Hp)]; [by left|right].
      apply (pending_keep o2); [by rewrite Ep|]. by exists t1, o1.
  - intros x Hx. rewrite Et in Hx. by left.
Qed.

(** Links and flags of records whose sets the thread has locked. *)
Lemma flux_step st2 c f d :
  let o2 := o_flux o c f d in
  st2 = with_lrs (with_recs st (recs st2)) (lrs st2) ->
  (forall r, plock st2 r = plock st r) -> (forall r, is_Some (recs st2 !! r) <-> is_Some (recs st !! r)) ->
  (forall l, is_Some (link_of st2 l) <-> is_Some (link_of st l)) ->
  (forall r x, plock st r = Some x -> olock o x = None -> recs st2 !! r = recs st !! r) ->
  linv (<[i := (t, o2)]> os) st2 -> (forall x, x ∈ c -> olock o x ≠ None) ->
  (forall r, r ∈ f ++ map fst d -> exists x, r ∈ members st x /\ olock o x ≠ None) ->
  moves K os i t o o2 st st2.
Proof.
  intros o2 Est Ep Hd Hl Hr V Hc Hf. assert (Eset : sets st2 = sets st) by (by rewrite Est).
  assert (Ecnt : recomputeCnt st2 = recomputeCnt st) by (by rewrite Est).
  assert (Em : forall x, members st2 x = members st x) by (intros x; unfold members; by rewrite Eset). pose proof (own_inv _ _ _ I _ _ _ Hi) as T. pose proof (ci_core _ _ _ I) as C.
  assert (Hlr : forall r, is_Some (lrs st2 !! r) <-> is_Some (lrs st !! r))
    by (intros r; rewrite <- !(fmap_is_Some plockSet); fold (plock st2 r) (plock st r); by rewrite Ep).
  assert (Es : size (lrs st2) = size (lrs st)).
  { rewrite <- !size_dom. f_equal. apply set_eq. intros r. rewrite !elem_of_dom. apply Hlr. }
  assert (G : guar t o o2 st st2).
  { split; rewrite ?Eset, ?Ecnt; try done; eauto.
    - intros t' n x s r N E L Hin. apply (Hr r x).
      + apply (co_mem _ _ _ C). by rewrite (members_lookup _ _ _ E).
      + rewrite (olock_my x s E). unfold my_lock. rewrite L. destruct n; [done|]. by rewrite decide_False.
    - intros r x. rewrite Ep. by left. }
  apply (cinv_step K os st st2 I i t o o2 Hi G).
  - apply core_flux; try done; try (by rewrite Est). apply (core_ext _ _ _ _ _ C); intros x; [by apply same_refsum|by apply same_retiring].
  - done.
  - destruct T. split; rewrite ?Eset, ?Ecnt; try done.
    + intros x. rewrite Em. apply ti_ref.
    + intros x. rewrite Em, Es. apply ti_max.
    + intros x. rewrite Em. apply ti_held.
    + intros r Hfr. destruct (Hf r Hfr) as (x & ? & ?). exists x. by rewrite Em.
    + intros c' l Hs. destruct (ti_snap c' l Hs) as [Hc' Hl']. split; [done|]. intros Ec r x Hx. rewrite Ep.
      destruct (Hl' Ec r x Hx); [by left|right]. by apply pending_keep.
  - intros x Hx. by left.
Qed.

Lemma idle_step : moves K os i t o o st st.
Proof. apply know_step; try done. apply (ti_snap _ _ _ _ _ (own_inv _ _ _ I _ _ _ Hi)). Qed.

(** ** Steps that change one set, but not its records *)

Section OneSet.
Context (x : addr) (s s' : lockSet) (act free : list addr) (o2 : own).
Let st2 := with_lists (put_set st x s') act free.
Let R := x ∈ oret o2.
Context (E : sets st !! x = Some s) (Elist : lockRecordList s' = lockRecordList s) (Eid : id s' = id s).
Context (Ecnt : refcount s' - refcount s = oref o2 x - oref o x) (Hcnt : 0 <= refcount s').
Context (Oref : forall y, y ≠ x -> oref o2 y = oref o y).
Context (Olock : forall y, olock o2 y = if decide (y = x) then my_lock t s' else olock o y).
Context (Hlock : (lock s' = lock s /\ ownerlocker s' = ownerlocker s) \/ (mine t s /\ mine t s')).
Context (Hmut : forall t' n, lock s' = Some (t', n) -> (0 < n)%nat).
Context (Hown : lock s' = None -> ownerlocker s' = None).
Context (Epend : opend o2 = opend o) (Esnap : osnap o2 = osnap o).
Context (Ecross : ocross o2 = ocross o) (Eflag : oflag o2 = oflag o) (Edirty : odirty o2 = odirty o).
Context (Hclean : olock o2 x = None -> olock o x = None \/ clean o).
Context (Hdebt : oref o2 x < 0 -> olock o2 x ≠ None /\ 1 <= zlen (lockRecordList s) + oref o2 x).
Context (Hmax : oref o2 x <= K \/
  (olock o2 x ≠ None /\ zlen (lockRecordList s) + oref o2 x <= Z.of_nat (size (lrs st)) + K)).
Context (Hheld : olock o2 x ≠ None -> x ∈ oret o2 \/ 0 < oref o2 x \/ lockRecordList s ≠ []).
Context (Hpend : forall r, (r, x) ∈ opend o -> olock o2 x ≠ None).
Context (Halone : s' = s \/ lockRecordList s ≠ [] \/ oref o x ≠ 0 \/ refcount s = 0).
Context (Hret : forall y, y ≠ x -> y ∈ oret o2 <-> y ∈ oret o) (Nret : NoDup (oret o2)).
Context (Hx : x ∈ oret o \/ ~ retiring os x) (Hr0 : R -> refcount s' = 0).
Context (Hidle : refcount s' = 0 -> lockRecordList s = [] /\ ownerlocker s' = None /\ (~ R -> lock s' = None)).
Context (Nact : NoDup act) (Nfree : NoDup free).
Context (Hact : forall y, y ∈ act <-> (y = x /\ (0 < refcount s' \/ R)) \/ (y ≠ x /\ y ∈ lockSetsActive st)).
Context (Hfree : forall y, y ∈ free <-> (y = x /\ refcount s' = 0 /\ ~ R) \/ (y ≠ x /\ y ∈ lockSetsFree st)).

Lemma set_cases y s1 : sets st2 !! y = Some s1 -> (y = x /\ s1 = s') \/ (y ≠ x /\ sets st !! y = Some s1).
Proof. simpl. rewrite lookup_insert_Some. naive_solver. Qed.

Lemma set_at y : sets st2 !! y = if decide (y = x) then Some s' else sets st !! y.
Proof. simpl. destruct (decide (y = x)) as [->|]; [by rewrite lookup_insert_eq|by rewrite lookup_insert_ne]. Qed.

Lemma set_members y : members st2 y = members st y.
Proof.
  unfold members. rewrite set_at. destruct (decide (y = x)) as [->|]; [|done]. by rewrite E.
Qed.

Lemma set_retiring y : retiring (<[i := (t, o2)]> os) y <-> (y = x /\ R) \/ (y ≠ x /\ retiring os y).
Proof.
  rewrite (retiring_insert K os st I i t o o2 Hi). destruct (decide (y = x)) as [->|N].
  - unfold R. tauto.
  - rewrite Hret by done. split; [|destruct (decide (y ∈ oret o)); tauto].
    intros [Hy|[_ Hy]]; right; (split; [done|]); [|done]. exists t, o. split; [by eapply list_elem_of_lookup_2|done].
Qed.

Lemma set_core : core (refsum (<[i := (t, o2)]> os)) (retiring (<[i := (t, o2)]> os)) st2.
Proof.
  pose proof (ci_core _ _ _ I) as C.
  assert (HH : forall y, refsum (<[i := (t, o2)]> os) y = hadd (refsum os) x (refcount s' - refcount s) y).
  { intros y. rewrite (refsum_insert os i t o o2 y Hi). unfold hadd. destruct (decide (y = x)) as [->|N]; [lia|].
    rewrite Oref by done. lia. }
  split.
  - intros r y. rewrite set_members. apply (co_lr _ _ _ C).
  - intros r y. rewrite set_members. apply (co_mem _ _ _ C).
  - intros y. rewrite set_members. apply (co_nodup _ _ _ C).
  - intros y s1 Hs. rewrite HH. apply set_cases in Hs as [[-> ->]|[N Hs]].
    + rewrite hadd_eq, Elist. pose proof (co_ref _ _ _ C _ _ E). lia.
    + rewrite hadd_ne by done. by apply (co_ref _ _ _ C).
  - intros y s1 [[-> ->]|[N Hs]]%set_cases; [done|by eapply (co_nonneg _ _ _ C)].
  - intros y. simpl lockSetsActive. rewrite Hact, (co_active _ _ _ C), set_at. setoid_rewrite set_retiring.
    clear. destruct (decide (y = x)); naive_solver.
  - intros y. simpl lockSetsFree. rewrite Hfree, (co_free _ _ _ C), set_at. setoid_rewrite set_retiring.
    clear. destruct (decide (y = x)); naive_solver.
  - done.
  - done.
  - intros y. rewrite set_retiring, set_at. destruct (decide (y = x)) as [->|N].
    { intros [[_ HR]|[? _]]; [|done]. eauto. }
    intros [[? _]|[_ Hy]]; [done|]. by apply (co_ret _ _ _ C).
  - intros y s1 Hs E0. rewrite set_retiring. apply set_cases in Hs as [[-> ->]|[N Hs]].
    + rewrite Elist. destruct (Hidle E0) as (? & ? & ?). tauto.
    + destruct (co_idle _ _ _ C _ _ Hs E0) as (? & ? & ?). tauto.
  - intros y s1 t' n [[-> ->]|[N Hs]]%set_cases; [apply Hmut|by eapply (co_mut _ _ _ C)].
  - intros y s1 [[-> ->]|[N Hs]]%set_cases; [apply Hown|by eapply (co_own _ _ _ C)].
  - intros y s1 [[-> ->]|[N Hs]]%set_cases; [rewrite Eid|]; by eapply (co_id _ _ _ C).
  - apply (co_cnt _ _ _ C).
Qed.

Lemma set_guar : guar t o o2 st st2.
Proof.
  split.
  - intros t' n y s1 N Hs L. rewrite set_at. destruct (decide (y = x)) as [->|]; [|eauto].
    rewrite E in Hs. injection Hs as <-. destruct Hlock as [[L1 W1]|[Hm _]]; [eauto|]. by apply Hm in L.
  - intros t' n y s1 N [[-> ->]|[Ny Hs]]%set_cases L; [|eauto].
    destruct Hlock as [[L1 W1]|[_ Hm]]; [|by apply Hm in L]. exists s. by rewrite <- L1.
  - done.
  - done.
  - done.
  - done.
  - intros y Hs. rewrite set_at. destruct (decide (y = x)); [eauto|done].
  - simpl. lia.
  - intros y s1 Hs Hp Hl H0. rewrite set_at. destruct (decide (y = x)) as [->|]; [|done].
    rewrite E in Hs. injection Hs as <-. destruct Halone as [->|[?|[?|?]]]; [done|done|done|lia].
  - intros r y. by left.
  - intros p. rewrite Epend. by left.
Qed.

Lemma set_links : linv (<[i := (t, o2)]> os) st2.
Proof. apply links_keep; [done|done|by apply grows_same]. Qed.

(** What the thread has in hand is in sets that stay locked. *)
Lemma set_flux y : olock o y ≠ None -> ocross o = [] /\ oflag o ++ map fst (odirty o) = [] \/ olock o2 y ≠ None.
Proof.
  intros Hy. destruct (decide (y = x)) as [->|N]; [|right; by rewrite Olock, decide_False].
  destruct (olock o2 x) eqn:F; [by right|left]. destruct (Hclean eq_refl) as [|(E1 & E2 & E3)]; [done|].
  by rewrite E1, E2, E3.
Qed.

Lemma set_step : moves K os i t o o2 st st2.
Proof.
  apply (cinv_step K os st st2 I i t o o2 Hi set_guar set_core set_links).
  - pose proof (own_inv _ _ _ I _ _ _ Hi) as T. split.
    + intros y s1 [[-> ->]|[N Hs]]%set_cases n ow; rewrite Olock.
      * rewrite decide_True by done. apply my_lock_spec.
      * rewrite decide_False by done. by apply (ti_lock _ _ _ _ _ T).
    + intros y. rewrite set_at. destruct (decide (y = x)) as [->|N]; [done|]. rewrite Olock, decide_False, Oref by done.
      apply (ti_out _ _ _ _ _ T).
    + intros y Hy. rewrite set_members. destruct (decide (y = x)) as [->|N].
      * rewrite (members_lookup _ _ _ E). by apply Hdebt.
      * rewrite Oref in * by done. rewrite Olock, decide_False by done. by apply (ti_ref _ _ _ _ _ T).
    + intros y. rewrite set_members. destruct (decide (y = x)) as [->|N].
      * by rewrite (members_lookup _ _ _ E).
      * rewrite Oref, Olock, decide_False by done. apply (ti_max _ _ _ _ _ T).
    + intros y Hy. rewrite set_members. destruct (decide (y = x)) as [->|N].
      * rewrite (members_lookup _ _ _ E). by apply Hheld.
      * rewrite Oref, Hret by done. rewrite Olock, decide_False in Hy by done. by apply (ti_held _ _ _ _ _ T).
    + intros r y. rewrite Epend. intros Hp. destruct (decide (y = x)) as [->|N]; [by eapply Hpend|].
      rewrite Olock, decide_False by done. by eapply (ti_pend _ _ _ _ _ T).
    + done.
    + rewrite Ecross. intros y Hy. destruct (set_flux y (ti_cross _ _ _ _ _ T y Hy)) as [[E0 _]|]; [|done].
      rewrite E0 in Hy. by apply not_elem_of_nil in Hy.
    + rewrite Eflag, Edirty. intros r Hr. destruct (ti_flux _ _ _ _ _ T r Hr) as (y & Hm & Hl). exists y.
      rewrite set_members. split; [done|]. destruct (set_flux y Hl) as [[_ E0]|]; [|done].
      rewrite E0 in Hr. by apply not_elem_of_nil in Hr.
    + intros c l. rewrite Esnap. intros Hs. destruct (ti_snap _ _ _ _ _ T c l Hs) as [Hc Hl]. split; [done|].
      intros Ec r y Hy. destruct (Hl Ec r y Hy); [by left|right]. apply pending_keep; [by rewrite Epend|done].
  - intros y Hy. destruct (decide (y = x)) as [->|N]; [done|]. left. by apply Hret.
Qed.
End OneSet.

Lemma not_retiring x s : sets st !! x = Some s -> 0 < refcount s -> ~ retiring os x.
Proof. intros E Hp (s1 & E1 & E0)%(co_ret _ _ _ (ci_core _ _ _ I)). rewrite E in E1. injection E1 as <-. lia. Qed.

Lemma retiring_mine x : x ∈ oret o \/ ~ retiring os x -> retiring os x <-> x ∈ oret o.
Proof.
  intros Hx. split; [tauto|]. intros Ho. exists t, o. split; [by eapply list_elem_of_lookup_2|done].
Qed.

Lemma mine_spec x s n ow : sets st !! x = Some s -> olock o x = Some (n, ow) ->
  lock s = Some (t, S n) /\ ownerlocker s = ow /\ mine t s.
Proof.
  intros E Hl. apply (ti_lock _ _ _ _ _ (own_inv _ _ _ I _ _ _ Hi) x s E) in Hl as [L W].
  split; [done|]. split; [done|]. intros t' n'. rewrite L. congruence.
Qed.

(** Only one thread has a mutex. *)
Lemma held_once x t' o' : olock o x ≠ None -> (t', o') ∈ os -> olock o' x ≠ None -> o' = o.
Proof.
  intros Hl [j Hj]%list_elem_of_lookup Hl'. destruct (decide (i = j)) as [<-|N].
  { rewrite Hi in Hj. by injection Hj as _ <-. }
  exfalso. destruct (olock o x) as [[n w]|] eqn:F; [|done]. destruct (olock o' x) as [[n' w']|] eqn:F'; [|done].
  pose proof (own_inv _ _ _ I _ _ _ Hi) as T. pose proof (own_inv _ _ _ I _ _ _ Hj) as T'.
  destruct (sets st !! x) as [s|] eqn:E; [|destruct (ti_out _ _ _ _ _ T x E); congruence].
  apply (ti_lock _ _ _ _ _ T x s E) in F as [F _]. apply (ti_lock _ _ _ _ _ T' x s E) in F' as [F' _].
  rewrite F in F'. injection F' as <- _. by apply (other_tid K os st I i t o Hi j t o' Hj N).
Qed.

(** What may be out of order in the sets of this thread, is in its hands. *)
Lemma cross_held x y : olock o x ≠ None -> crossing os x y -> x ∈ ocross o /\ y ∈ ocross o.
Proof.
  intros Hl (t' & o' & Hin & H1 & H2).
  by rewrite <- (held_once x t' o' Hl Hin (ti_cross _ _ _ _ _ (ci_each _ _ _ I _ _ Hin) x H1)).
Qed.

Lemma flux_held x r : olock o x ≠ None -> r ∈ members st x ->
  (flagged os r -> r ∈ oflag o) /\ (forall k, dirty os (r, k) -> (r, k) ∈ odirty o).
Proof.
  intros Hl Hr. pose proof (ci_core _ _ _ I) as C.
  assert (H : forall t' o', (t', o') ∈ os -> r ∈ oflag o' ++ map fst (odirty o') -> o' = o).
  { intros t' o' Hin Hf. destruct (ti_flux _ _ _ _ _ (ci_each _ _ _ I _ _ Hin) r Hf) as (y & Hy & Hly).
    apply (co_mem _ _ _ C) in Hy, Hr. assert (y = x) as -> by congruence. by eapply held_once. }
  split.
  - intros (t' & o' & Hin & Hf). rewrite <- (H t' o' Hin); [done|]. rewrite elem_of_app. by left.
  - intros k (t' & o' & Hin & Hf). rewrite <- (H t' o' Hin); [done|]. rewrite elem_of_app. right.
    apply list_elem_of_fmap. by exists (r, k).
Qed.

(** The set stays on its list. *)
Lemma plain_step x s s' o2 : sets st !! x = Some s ->
  lockRecordList s' = lockRecordList s -> id s' = id s ->
  refcount s' - refcount s = oref o2 x - oref o x -> 0 <= refcount s' ->
  (forall y, y ≠ x -> oref o2 y = oref o y) ->
  (forall y, olock o2 y = if decide (y = x) then my_lock t s' else olock o y) ->
  (lock s' = lock s /\ ownerlocker s' = ownerlocker s) \/ (mine t s /\ mine t s') ->
  (forall t' n, lock s' = Some (t', n) -> (0 < n)%nat) -> (lock s' = None -> ownerlocker s' = None) ->
  opend o2 = opend o -> osnap o2 = osnap o ->
  ocross o2 = ocross o -> oflag o2 = oflag o -> odirty o2 = odirty o ->
  (olock o2 x = None -> olock o x = None \/ clean o) ->
  (oref o2 x < 0 -> olock o2 x ≠ None /\ 1 <= zlen (lockRecordList s) + oref o2 x) ->
  oref o2 x <= K \/ (olock o2 x ≠ None /\ zlen (lockRecordList s) + oref o2 x <= Z.of_nat (size (lrs st)) + K) ->
  (olock o2 x ≠ None -> x ∈ oret o2 \/ 0 < oref o2 x \/ lockRecordList s ≠ []) ->
  (forall r, (r, x) ∈ opend o -> olock o2 x ≠ None) ->
  s' = s \/ lockRecordList s ≠ [] \/ oref o x ≠ 0 \/ refcount s = 0 ->
  (forall y, y ≠ x -> y ∈ oret o2 <-> y ∈ oret o) -> NoDup (oret o2) ->
  x ∈ oret o \/ ~ retiring os x -> (x ∈ oret o2 -> refcount s' = 0) ->
  (refcount s' = 0 -> lockRecordList s = [] /\ ownerlocker s' = None /\ x ∈ oret o2) ->
  (refcount s = 0 -> x ∈ oret o) ->
  moves K os i t o o2 st (put_set st x s').
Proof.
  intros. pose proof (ci_core _ _ _ I) as C. rewrite <- (lists_id (put_set st x s')).
  assert (Hs : forall s1, sets st !! x = Some s1 -> s1 = s) by (intros; congruence).
  pose proof (retiring_mine x ltac:(done)) as Hr.
  apply (set_step x s s'); try done.
  - intros E0. destruct (H24 E0) as (? & ? & ?). split; [done|]. split; [done|]. intros []. done.
  - apply (co_nodup_act _ _ _ C).
  - apply (co_nodup_free _ _ _ C).
  - intros y. simpl. destruct (decide (y = x)) as [->|]; [|tauto]. rewrite (co_active _ _ _ C).
    assert (0 < refcount s' \/ x ∈ oret o2) by (destruct (decide (refcount s' = 0)); [right; by apply H24|left; lia]).
    assert (0 < refcount s \/ x ∈ oret o).
    { pose proof (co_nonneg _ _ _ C x s H). destruct (decide (refcount s = 0)); [right; auto|left; lia]. }
    split; [tauto|]. intros _. exists s. rewrite Hr. tauto.
  - intros y. simpl. destruct (decide (y = x)) as [->|]; [|tauto]. rewrite (co_free _ _ _ C). split.
    + intros (s1 & E1 & E0 & Hn). apply Hs in E1 as ->. destruct Hn. apply Hr. auto.
    + intros [(_ & E0 & Hn)|[? _]]; [|done]. destruct Hn. by apply H24.
Qed.

(** The counter of a set in use. *)
Lemma ref_step x s n : sets st !! x = Some s -> 0 < refcount s -> 0 < refcount s + n ->
  oref o x + n <= K \/ (olock o x ≠ None /\
    zlen (lockRecordList s) + (oref o x + n) <= Z.of_nat (size (lrs st)) + K) ->
  (oref o x + n < 0 -> olock o x ≠ None /\ 1 <= zlen (lockRecordList s) + (oref o x + n)) ->
  lockRecordList s ≠ [] \/ (oref o x ≠ 0 /\ (olock o x = None \/ 0 < oref o x + n)) ->
  moves K os i t o (o_ref o x n) st (put_set st x (with_refcount s (refcount s + n))).
Proof.
  intros E Hp Hn Hm Hd Hor. pose proof (own_inv _ _ _ I _ _ _ Hi) as T. pose proof (not_retiring x s E Hp) as Hr.
  pose proof (ci_core _ _ _ I) as C.
  assert (Hnx : x ∉ oret o) by (intros Hx; apply Hr; exists t, o; split; [by eapply list_elem_of_lookup_2|done]).
  apply (plain_step x s); try done; simpl; try rewrite !hadd_eq; try lia; try tauto.
  - intros y. apply hadd_ne.
  - intros y. destruct (decide (y = x)) as [->|]; [|done]. by rewrite (olock_my x s E).
  - intros t' m. apply (co_mut _ _ _ C x s t' m E).
  - apply (co_own _ _ _ C x s E).
  - intros r. apply (ti_pend _ _ _ _ _ T).
  - apply (ti_nodup _ _ _ _ _ T).
Qed.

(** Nobody else has the mutex of a set without records and without other references. *)
Lemma lock_free x s : sets st !! x = Some s -> lockRecordList s = [] -> others os o x <= 0 ->
  0 < refcount s \/ x ∈ oret o -> olock o x = None -> lock s = None.
Proof.
  intros E El Ho Hx Hl. pose proof (ci_core _ _ _ I) as C.
  destruct (lock s) as [[t' [|n]]|] eqn:L; [|exfalso|done].
  { pose proof (co_mut _ _ _ C x s _ _ E L). lia. }
  pose proof (ci_owner _ _ _ I x s t' _ E L) as Ht. apply list_elem_of_fmap in Ht as ([t1 o1] & -> & Hin). simpl in *.
  pose proof (ci_each _ _ _ I _ _ Hin) as T1.
  assert (F : olock o1 x = Some (n, ownerlocker s)) by (by apply (ti_lock _ _ _ _ _ T1 x s E)).
  apply list_elem_of_lookup in Hin as [j Hj].
  assert (Nij : i ≠ j) by (intros <-; rewrite Hi in Hj; injection Hj as <- <-; congruence).
  pose proof (other_tid K os st I i t o Hi j t1 o1 Hj Nij) as Nt.
  destruct (ti_held _ _ _ _ _ T1 x) as [H|[H|H]]; [by rewrite F| | |].
  - destruct Hx as [Hp|Hx].
    + apply (not_retiring x s E Hp). exists t1, o1. split; [by eapply list_elem_of_lookup_2|done].
    + apply Nt. eapply (ci_once _ _ _ I t o t1 o1 x); eauto using list_elem_of_lookup_2.
  - unfold others in Ho. rewrite (refsum_delete os i t o x Hi) in Ho.
    assert (Hn : forall t2 o2, (t2, o2) ∈ delete i os -> 0 <= oref o2 x).
    { intros t2 o2 Hin. apply (sublist_subseteq _ _ (sublist_delete _ _)) in Hin.
      destruct (decide (oref o2 x < 0)) as [Hlt|]; [|lia].
      destruct (ti_ref _ _ _ _ _ (ci_each _ _ _ I _ _ Hin) x Hlt) as [_ H2].
      rewrite (members_lookup _ _ _ E), El in H2. simpl in H2. lia. }
    assert (H1 : oref o1 x = 0); [|lia]. apply (refsum_zero _ _ Hn t1 o1); [|lia].
    destruct (decide (j < i)%nat).
    + eapply (list_elem_of_lookup_2 _ j). by rewrite list_lookup_delete_lt.
    + eapply (list_elem_of_lookup_2 _ (j - 1)). rewrite list_lookup_delete_ge by lia.
      by replace (S (j - 1)) with j by lia.
  - by rewrite (members_lookup _ _ _ E), El in H.
Qed.

(** Nor of one this thread retires. *)
Lemma ret_free x : x ∈ oret o -> olock o x = None -> exists s,
  sets st !! x = Some s /\ refcount s = 0 /\ lock s = None /\ 0 <= oref o x.
Proof.
  intros Hx Hl. pose proof (own_inv _ _ _ I _ _ _ Hi) as T. pose proof (ci_core _ _ _ I) as C.
  destruct (co_ret _ _ _ C x) as (s & E & E0); [exists t, o; split; [by eapply list_elem_of_lookup_2|done]|].
  exists s. do 2 (split; [done|]). destruct (co_idle _ _ _ C x s E E0) as (El & Ew & _).
  pose proof (own_count K os st I o x s E) as Hc. rewrite El, E0 in Hc. simpl in Hc.
  destruct (others_facts K os st I i t o Hi x) as (H1 & _ & _). rewrite (members_lookup _ _ _ E), El in H1. simpl in H1.
  assert (Ho : 0 <= oref o x).
  { destruct (decide (oref o x < 0)) as [Hlt|]; [|lia]. by destruct (ti_ref _ _ _ _ _ T x Hlt). }
  split; [exact (lock_free x s E El ltac:(lia) ltac:(by right) Hl)|done].
Qed.

(** The last reference goes. *)
Lemma retire_step x s : sets st !! x = Some s -> refcount s = 1 -> 0 < oref o x -> olock o x = None ->
  moves K os i t o (o_ret (o_ref o x (-1)) (x :: oret o)) st (put_set st x (with_refcount s 0)).
Proof.
  intros E E1 Ho Hl. pose proof (own_inv _ _ _ I _ _ _ Hi) as T. pose proof (not_retiring x s E ltac:(lia)) as Hr.
  pose proof (ci_core _ _ _ I) as C. destruct (ti_max _ _ _ _ _ T x) as [Hm|[Hm _]]; [|done].
  assert (Hnx : x ∉ oret o) by (intros Hx; apply Hr; exists t, o; split; [by eapply list_elem_of_lookup_2|done]).
  pose proof (own_count K os st I o x s E) as Hc.
  destruct (others_facts K os st I i t o Hi x) as (H1 & H2 & _). rewrite (members_lookup _ _ _ E) in H1, H2.
  assert (El : lockRecordList s = []) by (destruct (lockRecordList s); [done|specialize (H2 ltac:(done)); lia]).
  rewrite El in *. simpl in Hc, H1.
  pose proof (lock_free x s E El ltac:(lia) ltac:(lia) Hl) as L.
  apply (plain_step x s); try done; simpl; try rewrite !hadd_eq; rewrite ?El; try done; try lia; try tauto.
  - intros y. apply hadd_ne.
  - intros y. destruct (decide (y = x)) as [->|]; [|done]. by rewrite (olock_my x s E).
  - intros t' m. apply (co_mut _ _ _ C x s t' m E).
  - apply (co_own _ _ _ C x s E).
  - intros r Hp. by apply (ti_pend _ _ _ _ _ T) in Hp.
  - intros y N. rewrite elem_of_cons. tauto.
  - constructor; [done|]. apply (ti_nodup _ _ _ _ _ T).
  - intros _. split; [done|]. split; [by apply (co_own _ _ _ C x s E)|by left].
Qed.

(** The mutex, whose owner is [t] or nobody, before and after. *)
Lemma mutex_step x s s' : sets st !! x = Some s ->
  lockRecordList s' = lockRecordList s -> id s' = id s -> refcount s' = refcount s ->
  mine t s -> mine t s' -> (forall t' n, lock s' = Some (t', n) -> (0 < n)%nat) ->
  (lock s' = None -> ownerlocker s' = None) ->
  (lock s' = None -> 0 <= oref o x <= K /\ (forall r, (r, x) ∉ opend o) /\ clean o) ->
  (lock s' ≠ None -> x ∈ oret o \/ 0 < oref o x \/ lockRecordList s ≠ []) ->
  lockRecordList s ≠ [] \/ oref o x ≠ 0 \/ refcount s = 0 ->
  x ∈ oret o \/ 0 < refcount s -> (refcount s = 0 -> ownerlocker s' = None) ->
  moves K os i t o (o_lock o x (my_lock t s')) st (put_set st x s').
Proof.
  intros E El Eid Er M M' Hmut Hown Hfree Hheld Hal Hx Hw. pose proof (own_inv _ _ _ I _ _ _ Hi) as T.
  pose proof (ci_core _ _ _ I) as C.
  assert (Hml : lock s' ≠ None -> my_lock t s' ≠ None).
  { intros Hl. unfold my_lock. destruct (lock s') as [[t' [|n]]|] eqn:L; [|rewrite decide_True; [done|by apply (M' t' (S n))]|done].
    pose proof (Hmut _ _ eq_refl). lia. }
  apply (plain_step x s); simpl; rewrite ?decide_True by done; try done; try lia; try tauto.
  - apply (co_nonneg _ _ _ C) in E. lia.
  - intros Hl. right. apply Hfree. destruct (decide (lock s' = None)) as [|L]; [done|]. by apply Hml in L.
  - intros Hneg. destruct (decide (lock s' = None)) as [L|L]; [destruct (Hfree L); lia|].
    split; [by apply Hml|]. destruct (ti_ref _ _ _ _ _ T x Hneg) as [_ H]. by rewrite (members_lookup _ _ _ E) in H.
  - destruct (decide (lock s' = None)) as [L|L]; [destruct (Hfree L); left; lia|].
    rewrite <- (members_lookup _ _ _ E). destruct (ti_max _ _ _ _ _ T x) as [|[_ Hm]]; [by left|right].
    split; [by apply Hml|done].
  - intros Hl. apply Hheld. intros L. apply Hl. unfold my_lock. by rewrite L.
  - intros r Hp. apply Hml. intros L. destruct (Hfree L) as (_ & H & _). by apply (H r).
  - apply (ti_nodup _ _ _ _ _ T).
  - destruct Hx; [by left|right]. by apply (not_retiring x s E).
  - intros Hin. destruct (decide (refcount s = 0)); [lia|]. exfalso.
    apply (not_retiring x s E); [pose proof (co_nonneg _ _ _ C x s E); lia|].
    exists t, o. split; [by eapply list_elem_of_lookup_2|done].
  - intros E0. rewrite Er in E0. destruct (co_idle _ _ _ C x s E E0) as (? & _ & _). split; [done|].
    split; [auto|]. destruct Hx; [done|lia].
  - intros E0. destruct Hx; [done|lia].
Qed.

(** A set without references goes to the free list. *)
Lemma unlist_step x : x ∈ oret o -> olock o x = None ->
  x ∈ lockSetsActive st /\
  moves K os i t o (o_ret o (filter (.≠ x) (oret o))) st
    (with_lists st (filter (.≠ x) (lockSetsActive st)) (lockSetsFree st ++ [x])).
Proof.
  intros Hx Hl. pose proof (own_inv _ _ _ I _ _ _ Hi) as T. pose proof (ci_core _ _ _ I) as C.
  assert (Hr : retiring os x) by (exists t, o; split; [by eapply list_elem_of_lookup_2|done]).
  destruct (ret_free x Hx Hl) as (s & E & E0 & L & Ho). split; [apply (co_active _ _ _ C); eauto|].
  destruct (co_idle _ _ _ C x s E E0) as (El & Ew & _).
  assert (Nfree : x ∉ lockSetsFree st) by (intros (s1 & _ & _ & Hn)%(co_free _ _ _ C); done).
  assert (Est : forall a f, with_lists st a f = with_lists (put_set st x s) a f)
    by (intros; unfold put_set, with_lists, with_sets; simpl; by rewrite insert_id).
  rewrite Est.
  apply (set_step x s s); simpl; try done; try lia; try tauto.
  - intros y. destruct (decide (y = x)) as [->|]; [|done]. by apply olock_my.
  - intros t' n. by rewrite L.
  - rewrite <- (members_lookup _ _ _ E). apply (ti_max _ _ _ _ _ T).
  - intros r. apply (ti_pend _ _ _ _ _ T).
  - intros y N. rewrite list_elem_of_filter. tauto.
  - apply NoDup_filter, (ti_nodup _ _ _ _ _ T).
  - apply NoDup_filter, (co_nodup_act _ _ _ C).
  - apply NoDup_app. split; [apply (co_nodup_free _ _ _ C)|]. split; [|apply NoDup_singleton].
    intros y Hy ->%list_elem_of_singleton. done.
  - intros y. rewrite !list_elem_of_filter, E0. split; [tauto|]. intros [[-> [?|[? _]]]|?]; [lia|done|tauto].
  - intros y. rewrite elem_of_app, list_elem_of_singleton, list_elem_of_filter, E0.
    destruct (decide (y = x)) as [->|]; [|tauto]. split; [|tauto]. intros _. left. tauto.
Qed.
End Steps.
