(* ===== verification/DbLockMoves.v ===== *)
(** * Lock sets: steps that make sets and move records

    [makeSet], the moving of one record and [recomputeCnt] as steps of a thread. *)

From stdpp Require Import base gmap list sorting fin_sets relations.
From Stdlib Require Import ZArith Lia Bool.
From S2P Require Import Prelude DbLock DbLockInv DbLocker DbLockSets DbLockGraph DbLockProg DbLockConc DbLockSteps.
Open Scope Z_scope.

Section Moves.
Context (K : Z) (os : list (tid * own)) (st : lk_state) (I : cinv K os st).
Context (i : nat) (t : tid) (o : own) (Hi : os !! i = Some (t, o)).

(** ** Records that moved are counted *)

Lemma counted_step l : roomy st -> (forall p, p ∈ l -> p ∈ opend o) ->
  moves K os i t o (o_pend o l) st (with_cnt st (wrap_u 64 (recomputeCnt st + 1))).
Proof.
  intros [_ Hw] Hl. pose proof (own_inv _ _ _ I _ _ _ Hi) as T. pose proof (ci_core _ _ _ I) as C.
  assert (Hcnt : wrap_u 64 (recomputeCnt st + 1) = recomputeCnt st + 1).
  { unfold wrap_u. apply Z.mod_small. pose proof (co_cnt _ _ _ C). lia. }
  rewrite Hcnt.
  assert (G : guar t o (o_pend o l) st (with_cnt st (recomputeCnt st + 1))).
  { split; simpl; try done; eauto; try lia. }
  apply (cinv_step K os st _ I i t o _ Hi G).
  - apply (core_ext (refsum os) (retiring os)).
    + destruct C. split; try done. simpl. lia.
    + intros x. rewrite (refsum_insert os i t o _ x Hi). simpl. lia.
    + intros x. rewrite (retiring_insert K os st I i t o _ Hi). simpl.
      split; [intros [Hx|[_ Hx]]; [|done]; exists t, o; split; [by eapply list_elem_of_lookup_2|done]|].
      destruct (decide (x ∈ oret o)); tauto.
  - apply (links_keep K os st I i t o Hi); [done|done|by apply grows_same].
  - destruct T. split; simpl; try done.
    + intros r x Hx. apply (ti_pend r). by apply Hl.
    + intros c l' Hs. destruct (ti_snap c l' Hs). split; [lia|]. intros. lia.
  - intros x Hx. by left.
Qed.

(** ** A record moves *)

Section Move.
Context (A B : addr) (sA sB : lockSet) (r : recid) (lr : lockRecord) (l : list recid) (f : Z).
Context (NAB : A ≠ B) (EA : sets st !! A = Some sA) (EB : sets st !! B = Some sB).
Context (Er : lrs st !! r = Some lr) (EP : plockSet lr = B).
Context (LA : olock o A ≠ None) (LB : olock o B ≠ None).
Context (P : lockRecordList sB ≡ₚ r :: l) (Hdebt : 1 <= zlen (lockRecordList sA) + oref o A).
Context (CA : A ∈ ocross o) (CB : B ∈ ocross o).
(** The flags that are left. *)
Context (fl : list recid) (Hf : f = 0 \/ f = compflag lr).
Context (Hfl : forall q, q ∈ fl -> q ∈ oflag o) (Hfl2 : forall q, q ∈ oflag o -> q ∈ fl \/ (q = r /\ f = 0)).

Let st2 := put_lr (put_set (put_set st B (with_list sB l)) A (with_list sA (lockRecordList sA ++ [r]))) r (mkLr A f).
Let o2 := o_flux (o_pend (o_ref (o_ref o A (-1)) B 1) ((r, B) :: opend o)) (ocross o) fl (odirty o).

Lemma move_sets y : sets st2 !! y =
  if decide (y = A) then Some (with_list sA (lockRecordList sA ++ [r]))
  else if decide (y = B) then Some (with_list sB l) else sets st !! y.
Proof.
  clear -NAB. simpl. destruct (decide (y = A)) as [->|]; [by rewrite lookup_insert_eq|].
  rewrite lookup_insert_ne by done. destruct (decide (y = B)) as [->|]; [by rewrite lookup_insert_eq|].
  by rewrite lookup_insert_ne.
Qed.

Lemma moved_members y : members st2 y =
  if decide (y = A) then members st A ++ [r] else if decide (y = B) then l else members st y.
Proof.
  unfold members. rewrite move_sets. destruct (decide (y = A)) as [->|]; [by rewrite EA|]. by destruct (decide (y = B)).
Qed.

Lemma move_plock q : plock st2 q = if decide (q = r) then Some A else plock st q.
Proof.
  clear. unfold plock. simpl. destruct (decide (q = r)) as [->|]; [by rewrite lookup_insert_eq|by rewrite lookup_insert_ne].
Qed.

Lemma move_oref y : oref o2 y = oref o y + (if decide (y = B) then 1 else 0) - (if decide (y = A) then 1 else 0).
Proof. clear. simpl. unfold hadd. destruct (decide (y = A)), (decide (y = B)); lia. Qed.

(** Facts about every set, before and after. *)
Lemma move_cases y s2 : sets st2 !! y = Some s2 -> exists s, sets st !! y = Some s /\
  lock s2 = lock s /\ ownerlocker s2 = ownerlocker s /\ refcount s2 = refcount s /\ id s2 = id s /\
  zlen (lockRecordList s2) = zlen (lockRecordList s) + (if decide (y = A) then 1 else 0) - (if decide (y = B) then 1 else 0).
Proof.
  rewrite move_sets. destruct (decide (y = A)) as [->|]; [|destruct (decide (y = B)) as [->|]].
  - intros [= <-]. exists sA. rewrite decide_False by done. simpl. rewrite length_app. simpl.
    repeat split; try done. lia.
  - intros [= <-]. exists sB. simpl. rewrite P. simpl. repeat split; try done. lia.
  - intros E. exists s2. repeat split; try done. lia.
Qed.

Lemma move_back y s : sets st !! y = Some s -> exists s2, sets st2 !! y = Some s2 /\ refcount s2 = refcount s.
Proof.
  intros E. rewrite move_sets. destruct (decide (y = A)) as [->|]; [|destruct (decide (y = B)) as [->|]].
  - eexists. split; [done|]. simpl. congruence.
  - eexists. split; [done|]. simpl. congruence.
  - eauto.
Qed.

Lemma move_iff y (Q : Z -> Prop) : (exists s2, sets st2 !! y = Some s2 /\ Q (refcount s2)) <->
  (exists s, sets st !! y = Some s /\ Q (refcount s)).
Proof.
  split.
  - intros (s2 & E & H). destruct (move_cases y s2 E) as (s & E1 & _ & _ & Hc & _). exists s. by rewrite <- Hc.
  - intros (s & E & H). destruct (move_back y s E) as (s2 & E2 & Hc). exists s2. by rewrite Hc.
Qed.

Lemma move_positive : 0 < refcount sA /\ 0 < refcount sB.
Proof.
  pose proof (ci_core _ _ _ I) as C. split.
  - pose proof (own_count K os st I o A sA EA). destruct (others_facts K os st I i t o Hi A) as (_ & _ & H3).
    specialize (H3 LA). lia.
  - pose proof (co_nonneg _ _ _ C B sB EB). destruct (decide (refcount sB = 0)) as [E0|]; [|lia].
    destruct (co_idle _ _ _ C B sB EB E0) as [El _]. rewrite El in P. by apply Permutation_nil_cons in P.
Qed.

Lemma move_core H R : core H R st -> core (fun y => H y + (oref o2 y - oref o y)) R st2.
Proof.
  intros C. pose proof move_positive as [HA HB].
  assert (Hr : r ∉ members st A).
  { intros Hr%(co_mem _ _ _ C). unfold plock in Hr. rewrite Er in Hr. injection Hr as Hr. congruence. }
  assert (Nd : NoDup (r :: l)).
  { rewrite <- P, <- (members_lookup _ _ _ EB). apply (co_nodup _ _ _ C). }
  apply NoDup_cons in Nd as [Nr Nl].
  assert (Hmem : forall q y, q ∈ members st2 y <-> plock st2 q = Some y).
  { intros q y. rewrite moved_members, move_plock. destruct (decide (y = A)) as [->|NA].
    - rewrite elem_of_app, list_elem_of_singleton. destruct (decide (q = r)) as [->|]; [tauto|].
      rewrite (core_members _ _ _ q A C). tauto.
    - destruct (decide (y = B)) as [->|NB].
      + destruct (decide (q = r)) as [->|Nq]; [split; [done|intros [= ?]; congruence]|].
        rewrite (core_members _ _ _ q B C), (members_lookup _ _ _ EB), P, elem_of_cons. tauto.
      + destruct (decide (q = r)) as [->|Nq]; [|by rewrite (core_members _ _ _ q y C)].
        rewrite <- (core_members _ _ _ r y C). unfold plock. rewrite Er. simpl. split; intros [= ?]; congruence. }
  split.
  - intros q y. apply Hmem.
  - intros q y. apply Hmem.
  - intros y. rewrite moved_members. destruct (decide (y = A)); [|destruct (decide (y = B)); [done|apply (co_nodup _ _ _ C)]].
    apply NoDup_app. split; [apply (co_nodup _ _ _ C)|]. split; [|apply NoDup_singleton].
    intros q Hq ->%list_elem_of_singleton. done.
  - intros y s2 E2. destruct (move_cases y s2 E2) as (s & E & _ & _ & -> & _ & ->). rewrite move_oref.
    rewrite (co_ref _ _ _ C y s E). lia.
  - intros y s2 E2. destruct (move_cases y s2 E2) as (s & E & _ & _ & -> & _). by eapply (co_nonneg _ _ _ C).
  - intros y. rewrite (move_iff y (fun n => 0 < n \/ R y)). apply (co_active _ _ _ C).
  - intros y. rewrite (move_iff y (fun n => n = 0 /\ ~ R y)). apply (co_free _ _ _ C).
  - apply (co_nodup_act _ _ _ C).
  - apply (co_nodup_free _ _ _ C).
  - intros y Hy. apply (move_iff y (fun n => n = 0)). by apply (co_ret _ _ _ C).
  - intros y s2 E2 E0. destruct (move_cases y s2 E2) as (s & E & -> & -> & Hc & _). rewrite Hc in E0.
    destruct (co_idle _ _ _ C y s E E0) as (El & Hrest). split; [|done].
    rewrite move_sets in E2. destruct (decide (y = A)) as [->|]; [congruence || (rewrite EA in E; injection E as <-; lia)|].
    destruct (decide (y = B)) as [->|]; [rewrite EB in E; injection E as <-; lia|congruence].
  - intros y s2 t' n E2. destruct (move_cases y s2 E2) as (s & E & -> & _). by eapply (co_mut _ _ _ C).
  - intros y s2 E2. destruct (move_cases y s2 E2) as (s & E & -> & -> & _). by eapply (co_own _ _ _ C).
  - intros y s2 E2. destruct (move_cases y s2 E2) as (s & E & _ & _ & _ & -> & _). by eapply (co_id _ _ _ C).
  - apply (co_cnt _ _ _ C).
Qed.

Lemma move_guar : guar t o o2 st st2.
Proof.
  pose proof move_positive as [HA HB].
  assert (Hother : forall t' n x s, t' ≠ t -> sets st !! x = Some s -> lock s = Some (t', n) -> x ≠ A /\ x ≠ B).
  { intros t' n x s N E L. split; intros ->.
    - destruct (olock o A) as [[m ow]|] eqn:F; [|done]. destruct (mine_spec K os st I i t o Hi A s m ow E F) as (_ & _ & M).
      by apply M in L.
    - destruct (olock o B) as [[m ow]|] eqn:F; [|done]. destruct (mine_spec K os st I i t o Hi B s m ow E F) as (_ & _ & M).
      by apply M in L. }
  split.
  - intros t' n x s N E L. destruct (Hother t' n x s N E L) as [NA NB]. exists s. by rewrite move_sets, !decide_False.
  - intros t' n x s2 N E2 L. destruct (move_cases x s2 E2) as (s & E & L1 & _). exists s. by rewrite <- L1.
  - intros q. simpl. destruct (decide (q = r)) as [->|]; [rewrite lookup_insert_eq, Er; split; eauto|by rewrite lookup_insert_ne].
  - done.
  - done.
  - done.
  - intros x [s E]. destruct (move_back x s E) as (s2 & -> & _). eauto.
  - simpl. lia.
  - intros x s E Hp El H0. rewrite move_sets. rewrite !decide_False; [done| |].
    + intros ->. rewrite EB in E. injection E as <-. rewrite El in P. by apply Permutation_nil_cons in P.
    + intros ->. rewrite EA in E. injection E as <-. rewrite El, H0 in Hdebt. simpl in Hdebt. lia.
  - intros q x Hq. rewrite move_plock. destruct (decide (q = r)) as [->|]; [right|by left].
    unfold plock in Hq. rewrite Er in Hq. injection Hq as <-. rewrite EP. by left.
  - intros p Hp. left. by right.
Qed.

Lemma move_links : linv (<[i := (t, o2)]> os) st2.
Proof.
  destruct (ci_links _ _ _ I) as [G E Pa F S].
  assert (Gr : forall x y, crossing os x y -> crossing (<[i := (t, o2)]> os) x y)
    by (intros x y; apply (ex_keep os i t o Hi (fun o => x ∈ ocross o /\ y ∈ ocross o)); done).
  assert (Hc : forall x y, crossing os x y -> x = B -> crossing (<[i := (t, o2)]> os) A y).
  { intros x y Hx ->. destruct (cross_held K os st I i t o Hi B y LB Hx). by apply (cross_mine os i t o Hi). }
  assert (Hsym : forall x y, crossing os x y -> crossing os y x) by (intros x y (t' & o' & ? & ? & ?); exists t', o'; done).
  assert (Hsym2 : forall x y, crossing (<[i := (t, o2)]> os) x y -> crossing (<[i := (t, o2)]> os) y x)
    by (intros x y (t' & o' & ? & ? & ?); exists t', o'; done).
  assert (Hr : plock st r = Some B) by (unfold plock; by rewrite Er, <- EP).
  assert (HAB : crossing (<[i := (t, o2)]> os) A B) by (by apply (cross_mine os i t o Hi)).
  assert (HAA : crossing (<[i := (t, o2)]> os) A A) by (by apply (cross_mine os i t o Hi)).
  (* from [r] in [B] to [r] in [A] *)
  assert (Hmv : forall y, B = y \/ crossing os B y -> A = y \/ crossing (<[i := (t, o2)]> os) A y).
  { intros y [<-|H]; [by right|right; by eapply Hc]. }
  split.
  - apply (graph_ok_recs st); [done| |done]. intros q. simpl.
    destruct (decide (q = r)) as [->|]; [rewrite lookup_insert_eq, Er; split; eauto|by rewrite lookup_insert_ne].
  - intros a b x y Hab. rewrite !move_plock. destruct (decide (a = r)) as [->|Na], (decide (b = r)) as [->|Nb].
    + intros [= <-] [= <-]. by left.
    + intros [= <-] Hy. apply Hmv. by apply (E r b).
    + intros Hx [= <-]. destruct (Hmv x) as [|]; [|by left|right; by apply Hsym2].
      destruct (E a r x B Hab Hx Hr) as [|]; [by left|right; by apply Hsym].
    + intros Hx Hy. destruct (E a b x y Hab Hx Hy); [by left|right; by apply Gr].
  - intros a b x. rewrite !move_plock. destruct (decide (x = A)) as [->|NA]; [by right|].
    destruct (decide (a = r)) as [->|Na]; [congruence|]. destruct (decide (b = r)) as [->|Nb]; [congruence|].
    intros Hx Hy. destruct (Pa a b x Hx Hy) as [H|H]; [left|right; by apply Gr].
    by apply (conn_recs st).
  - intros q lq. simpl. destruct (decide (q = r)) as [->|N].
    + rewrite lookup_insert_eq. intros [= <-]. simpl. destruct Hf as [->| ->]; [by left|].
      destruct (F r lr Er) as [|Hfr]; [by left|]. destruct (decide (compflag lr = 0)) as [|Nz]; [by left|right].
      revert Hfr. apply (ex_keep os i t o Hi (fun o => r ∈ oflag o)). intros Hq. destruct (Hfl2 r Hq) as [|[_ ?]]; done.
    + rewrite lookup_insert_ne by done. intros Eq. destruct (F q lq Eq) as [|Hfr]; [by left|right].
      revert Hfr. apply (ex_keep os i t o Hi (fun o => q ∈ oflag o)). intros Hq. destruct (Hfl2 q Hq) as [|[? _]]; done.
  - intros l' p Hl. destruct (S l' p Hl) as [|H]; [by left|right]. revert H.
    by apply (ex_keep os i t o Hi (fun o => l' ∈ odirty o)).
Qed.

Lemma moved_length y : zlen (members st2 y) =
  zlen (members st y) + (if decide (y = A) then 1 else 0) - (if decide (y = B) then 1 else 0).
Proof.
  rewrite moved_members. destruct (decide (y = A)) as [->|].
  - rewrite decide_False, length_app by done. simpl. lia.
  - destruct (decide (y = B)) as [->|]; [|lia]. rewrite (members_lookup _ _ _ EB), P. simpl. lia.
Qed.

Lemma move_flux q : q ∈ fl ++ map fst (odirty o) -> exists x, q ∈ members st2 x /\ olock o x ≠ None.
Proof.
  intros Hq. destruct (ti_flux _ _ _ _ _ (own_inv _ _ _ I _ _ _ Hi) q) as (x & Hx & Hl).
  { rewrite elem_of_app in Hq |- *. destruct Hq as [Hq|]; [left; by apply Hfl|by right]. }
  exists (if decide (q = r) then A else x). rewrite moved_members. destruct (decide (q = r)) as [->|Nq].
  - rewrite decide_True, elem_of_app, list_elem_of_singleton by done. split; [by right|done].
  - split; [|done]. destruct (decide (x = A)) as [->|]; [rewrite elem_of_app; by left|].
    destruct (decide (x = B)) as [->|]; [|done].
    rewrite (members_lookup _ _ _ EB), P, elem_of_cons in Hx. tauto.
Qed.

Lemma move_tinv : tinv K (<[i := (t, o2)]> os) t o2 st2.
Proof.
  pose proof (own_inv _ _ _ I _ _ _ Hi) as T. pose proof (ci_core _ _ _ I) as C.
  assert (Hs : size (lrs st2) = size (lrs st)).
  { eapply lrs_kept. apply move_guar. }
  split.
  - intros y s2 E2 n ow. destruct (move_cases y s2 E2) as (s & E & -> & -> & _). by apply (ti_lock _ _ _ _ _ T).
  - intros y E2. assert (E : sets st !! y = None).
    { apply eq_None_not_Some. intros [s E]. destruct (move_back y s E) as (s2 & E3 & _). congruence. }
    rewrite move_oref, !decide_False by (intros ->; congruence).
    destruct (ti_out _ _ _ _ _ T y E) as [H1 H2]. split; [done|lia].
  - intros y Hy. rewrite moved_length. rewrite move_oref in *. change (olock o2 y) with (olock o y).
    destruct (decide (y = A)) as [->|]; [|destruct (decide (y = B)) as [->|]].
    + rewrite decide_False in * by done. rewrite (members_lookup _ _ _ EA). split; [done|lia].
    + destruct (ti_ref _ _ _ _ _ T B) as [? ?]; [lia|]. split; [done|lia].
    + destruct (ti_ref _ _ _ _ _ T y) as [? ?]; [lia|]. split; [done|lia].
  - intros y. rewrite moved_length, Hs, move_oref. change (olock o2 y) with (olock o y).
    pose proof (ti_max _ _ _ _ _ T y) as Hmax. destruct (decide (y = A)) as [->|]; [|destruct (decide (y = B)) as [->|]].
    + rewrite decide_False by done. destruct Hmax as [|[? ?]]; [left; lia|right; split; [done|lia]].
    + right. split; [done|]. pose proof (members_bound _ _ _ B C) as Hb.
      destruct Hmax as [|[? ?]]; lia.
    + destruct Hmax as [|[? ?]]; [left; lia|right; split; [done|lia]].
  - intros y Hy. change (olock o y ≠ None) in Hy. pose proof (ti_held _ _ _ _ _ T y Hy) as Hh.
    rewrite moved_members, move_oref. destruct (decide (y = A)) as [->|].
    + right. right. by destruct (members st A).
    + destruct (decide (y = B)) as [->|]; [|by rewrite Z.add_0_r, Z.sub_0_r].
      right. destruct (decide (0 <= oref o B)); [left; lia|right].
      destruct (ti_ref _ _ _ _ _ T B) as [_ H]; [lia|]. rewrite (members_lookup _ _ _ EB), P in H. simpl in H.
      intros ->. simpl in H. lia.
  - intros q y. simpl. rewrite elem_of_cons. intros [[= -> ->]|Hp]; [done|]. by eapply (ti_pend _ _ _ _ _ T).
  - apply (ti_nodup _ _ _ _ _ T).
  - apply (ti_cross _ _ _ _ _ T).
  - exact move_flux.
  - intros c l' Hl. destruct (ti_snap _ _ _ _ _ T c l' Hl) as [Hc Hl']. split; [done|].
    intros Ec q y Hq. rewrite move_plock. destruct (Hl' Ec q y Hq) as [Hp|Hp].
    + destruct (decide (q = r)) as [->|]; [right|by left]. unfold plock in Hp. rewrite Er in Hp.
      injection Hp as <-. exists t, o2. split; [|rewrite EP; by left].
      eapply (list_elem_of_lookup_2 _ i), list_lookup_insert_eq. by eapply lookup_lt_Some.
    + right. apply (pending_keep os i t o Hi); [|done]. intros. by right.
Qed.

Lemma move_step : moves K os i t o o2 st st2.
Proof.
  pose proof (ci_core _ _ _ I) as C.
  apply (cinv_step K os st st2 I i t o o2 Hi move_guar).
  - eapply core_ext; [exact (move_core _ _ C)| |].
    + intros x. rewrite (refsum_insert os i t o o2 x Hi). lia.
    + intros x. rewrite (retiring_insert K os st I i t o o2 Hi). simpl.
      split; [intros [Hx|[_ Hx]]; [|done]; exists t, o; split; [by eapply list_elem_of_lookup_2|done]|].
      destruct (decide (x ∈ oret o)); tauto.
  - exact move_links.
  - exact move_tinv.
  - intros x Hx. by left.
Qed.
End Move.

(** ** A new set *)

(** What a set is after [makeSet]. *)
Record made (x : addr) st2 : Prop := {
  md_set : exists s, sets st2 !! x = Some s /\ refcount s = 1 /\ lockRecordList s = [] /\ lock s = None /\
    ownerlocker s = None;
  md_own : oref o x = 0 /\ olock o x = None;
  md_same : lrs st2 = lrs st /\ recs st2 = recs st /\ recomputeCnt st2 = recomputeCnt st;
  md_members : forall y, members st2 y = members st y
}.

Lemma idle_own x s : sets st !! x = Some s -> refcount s = 0 -> ~ retiring os x ->
  oref o x = 0 /\ olock o x = None.
Proof.
  intros E E0 Hr. pose proof (own_inv _ _ _ I _ _ _ Hi) as T. pose proof (ci_core _ _ _ I) as C.
  destruct (co_idle _ _ _ C x s E E0) as (El & Ew & Hl). specialize (Hl Hr).
  split; [|rewrite (olock_my K os st I i t o Hi x s E); unfold my_lock; by rewrite Hl].
  pose proof (own_count K os st I o x s E) as Hc. rewrite El, E0 in Hc. simpl in Hc.
  destruct (others_facts K os st I i t o Hi x) as (H1 & _). rewrite (members_lookup _ _ _ E), El in H1. simpl in H1.
  destruct (decide (oref o x < 0)) as [Hlt|]; [|lia]. destruct (ti_ref _ _ _ _ _ T x Hlt) as [_ H2].
  rewrite (members_lookup _ _ _ E), El in H2. simpl in H2. lia.
Qed.

Lemma reuse_step x rest : 1 <= K -> lockSetsFree st = x :: rest ->
  exists st2, use_set (with_lists st (lockSetsActive st) rest) x = inr (x, st2) /\
    moves K os i t o (o_ref o x 1) st st2 /\ made x st2.
Proof.
  intros HK Ef. pose proof (own_inv _ _ _ I _ _ _ Hi) as T. pose proof (ci_core _ _ _ I) as C.
  assert (Hx : x ∈ lockSetsFree st) by (rewrite Ef; left).
  apply (co_free _ _ _ C) in Hx as (s & E & E0 & Hr). destruct (co_idle _ _ _ C x s E E0) as (El & Ew & Hl).
  specialize (Hl Hr). destruct (idle_own x s E E0 Hr) as [Ho Hlo].
  pose proof (co_nodup_free _ _ _ C) as Nf. rewrite Ef in Nf. apply NoDup_cons in Nf as [Nx Nf].
  set (st2 := with_lists (put_set st x (with_refcount s 1)) (lockSetsActive st ++ [x]) rest).
  exists st2. split; [|split].
  - unfold use_set, add_ref, get_set. simpl. rewrite E. simpl. rewrite E0. simpl.
    rewrite lookup_insert_eq. simpl. rewrite El.
    rewrite (proj2 (Z.ltb_lt _ _) (co_id _ _ _ C x s E)). done.
  - apply (set_step K os st I i t o Hi x s); simpl; rewrite ?hadd_eq, ?Ho, ?El; try done; try lia; try tauto.
    + intros y. apply hadd_ne.
    + intros y. destruct (decide (y = x)) as [->|]; [|done]. by rewrite (olock_my K os st I i t o Hi x s E).
    + intros t' n. by rewrite Hl.
    + intros r Hp. by apply (ti_pend _ _ _ _ _ T) in Hp.
    + apply (ti_nodup _ _ _ _ _ T).
    + intros Hin. destruct Hr. exists t, o. split; [by eapply list_elem_of_lookup_2|done].
    + apply NoDup_app. split; [apply (co_nodup_act _ _ _ C)|]. split; [|apply NoDup_singleton].
      intros y Hy ->%list_elem_of_singleton. apply (co_active _ _ _ C) in Hy as (s1 & E1 & [Hp|Hp]); [|done].
      rewrite E in E1. injection E1 as <-. lia.
    + intros y. rewrite elem_of_app, list_elem_of_singleton. destruct (decide (y = x)) as [->|]; [|tauto].
      split; [|tauto]. intros _. left. split; [done|left; lia].
    + intros y. rewrite Ef, elem_of_cons. destruct (decide (y = x)) as [->|]; [|tauto].
      split; [done|]. intros [(_ & ? & _)|[? _]]; [lia|done].
  - split; simpl; try done.
    + exists (with_refcount s 1). rewrite lookup_insert_eq. done.
    + intros y. unfold members. simpl. destruct (decide (y = x)) as [->|]; [|by rewrite lookup_insert_ne].
      by rewrite lookup_insert_eq, E.
Qed.

Section Fresh.
Context (x : addr) (E : sets st !! x = None) (Hfree : lockSetsFree st = []) (Hw : roomy st) (HK : 1 <= K).

Let n := next_id st + 1.
Let s1 := mkSet [] None n 1 None.
Let st2 := with_lists (put_set (with_next_id st n) x s1) (lockSetsActive st ++ [x]) [].
Let o2 := o_ref o x 1.

Lemma fresh_sets y : sets st2 !! y = if decide (y = x) then Some s1 else sets st !! y.
Proof. clear. simpl. destruct (decide (y = x)) as [->|]; [by rewrite lookup_insert_eq|by rewrite lookup_insert_ne]. Qed.

Lemma fresh_members y : members st2 y = members st y.
Proof. unfold members. rewrite fresh_sets. destruct (decide (y = x)) as [->|]; [by rewrite E|done]. Qed.

Lemma fresh_refsum : refsum os x = 0.
Proof.
  assert (H : forall t o, (t, o) ∈ os -> oref o x = 0)
    by (intros t' o' Hin; apply (ti_out _ _ _ _ _ (ci_each _ _ _ I _ _ Hin) x E)).
  clear -H. induction os as [|[t' o'] l IH]; [done|]. simpl. rewrite (H t' o') by (by left).
  rewrite IH; [done|]. intros t o Hin. apply (H t). by right.
Qed.

Lemma fresh_core : core (fun y => refsum os y + (oref o2 y - oref o y)) (retiring os) st2.
Proof.
  pose proof (ci_core _ _ _ I) as C. pose proof (co_cnt _ _ _ C) as Hn.
  assert (Hr : ~ retiring os x) by (intros (s & E1 & _)%(co_ret _ _ _ C); congruence).
  split.
  - intros r y. rewrite fresh_members. apply (co_lr _ _ _ C).
  - intros r y. rewrite fresh_members. apply (co_mem _ _ _ C).
  - intros y. rewrite fresh_members. apply (co_nodup _ _ _ C).
  - intros y s. rewrite fresh_sets. simpl. unfold hadd. destruct (decide (y = x)) as [->|].
    + intros [= <-]. rewrite fresh_refsum. simpl. lia.
    + intros E1. rewrite (co_ref _ _ _ C y s E1). lia.
  - intros y s. rewrite fresh_sets. destruct (decide (y = x)); [intros [= <-]; simpl; lia|apply (co_nonneg _ _ _ C)].
  - intros y. simpl lockSetsActive. rewrite elem_of_app, list_elem_of_singleton, fresh_sets, (co_active _ _ _ C).
    destruct (decide (y = x)) as [->|]; [|tauto]. split; [|tauto]. intros _. exists s1. split; [done|left; simpl; lia].
  - intros y. simpl lockSetsFree. rewrite fresh_sets. destruct (decide (y = x)) as [->|].
    + split; [by intros ?%not_elem_of_nil|]. intros (s & [= <-] & ? & _). simpl in *. lia.
    + rewrite <- (co_free _ _ _ C). by rewrite Hfree.
  - apply NoDup_app. split; [apply (co_nodup_act _ _ _ C)|]. split; [|apply NoDup_singleton].
    intros y Hy ->%list_elem_of_singleton. apply (co_active _ _ _ C) in Hy as (s & E1 & _). congruence.
  - constructor.
  - intros y Hy. rewrite fresh_sets. rewrite decide_False by (intros ->; done). by apply (co_ret _ _ _ C).
  - intros y s. rewrite fresh_sets. destruct (decide (y = x)); [by intros [= <-]|apply (co_idle _ _ _ C)].
  - intros y s t' m. rewrite fresh_sets. destruct (decide (y = x)); [by intros [= <-]|apply (co_mut _ _ _ C)].
  - intros y s. rewrite fresh_sets. destruct (decide (y = x)); [by intros [= <-]|apply (co_own _ _ _ C)].
  - intros y s. rewrite fresh_sets. destruct (decide (y = x)); [intros [= <-]; simpl; lia|apply (co_id _ _ _ C)].
  - simpl. lia.
Qed.

Lemma fresh_step : moves K os i t o o2 st st2.
Proof.
  pose proof (own_inv _ _ _ I _ _ _ Hi) as T. pose proof (ci_core _ _ _ I) as C.
  destruct (ti_out _ _ _ _ _ T x E) as [Hl Ho].
  assert (G : guar t o o2 st st2).
  { split; try done.
    - intros t' m y s N Es L. exists s. rewrite fresh_sets, decide_False; [done|]. congruence.
    - intros t' m y s N. rewrite fresh_sets. destruct (decide (y = x)); [by intros [= <-]|eauto].
    - intros y Hy. rewrite fresh_sets. destruct (decide (y = x)); [eauto|done].
    - intros y s Es _ _ _. rewrite fresh_sets, decide_False; [done|]. congruence.
    - intros r y. by left.
    - intros p. by left. }
  apply (cinv_step K os st st2 I i t o o2 Hi G).
  - eapply core_ext; [exact fresh_core| |].
    + intros y. rewrite (refsum_insert os i t o o2 y Hi). lia.
    + intros y. rewrite (retiring_insert K os st I i t o o2 Hi). simpl.
      split; [intros [Hx|[_ Hx]]; [|done]; exists t, o; split; [by eapply list_elem_of_lookup_2|done]|].
      destruct (decide (y ∈ oret o)); tauto.
  - apply (links_keep K os st I i t o Hi); [done|done|by apply grows_same].
  - split.
    + intros y s. rewrite fresh_sets. simpl. destruct (decide (y = x)) as [->|].
      * intros [= <-] m ow. rewrite Hl. simpl. split; [done|by intros [? _]].
      * apply (ti_lock _ _ _ _ _ T).
    + intros y. rewrite fresh_sets. destruct (decide (y = x)); [done|]. simpl. rewrite hadd_ne by done.
      apply (ti_out _ _ _ _ _ T).
    + intros y. rewrite fresh_members. simpl. unfold hadd. destruct (decide (y = x)) as [->|]; [lia|].
      apply (ti_ref _ _ _ _ _ T).
    + intros y. rewrite fresh_members. simpl. unfold hadd. destruct (decide (y = x)) as [->|]; [left; lia|].
      apply (ti_max _ _ _ _ _ T).
    + intros y Hy. rewrite fresh_members. simpl in *. unfold hadd. destruct (decide (y = x)) as [->|]; [done|].
      by apply (ti_held _ _ _ _ _ T).
    + apply (ti_pend _ _ _ _ _ T).
    + apply (ti_nodup _ _ _ _ _ T).
    + apply (ti_cross _ _ _ _ _ T).
    + intros r Hr. destruct (ti_flux _ _ _ _ _ T r Hr) as (y & Hy & ?). exists y. by rewrite fresh_members.
    + intros c l Hs. destruct (ti_snap _ _ _ _ _ T c l Hs) as [Hc Hl']. split; [done|]. intros Ec r y Hy.
      destruct (Hl' Ec r y Hy); [by left|right]. by apply (pending_keep os i t o Hi).
  - intros y Hy. by left.
Qed.
End Fresh.

Lemma make_step calloc : (forall m, m !! calloc m = None) -> 1 <= K -> roomy st ->
  exists x st2, makeSet calloc st = inr (x, st2) /\ moves K os i t o (o_ref o x 1) st st2 /\ made x st2.
Proof.
  intros Hca HK Hw. pose proof (own_inv _ _ _ I _ _ _ Hi) as T. pose proof (ci_core _ _ _ I) as C.
  unfold makeSet. destruct (lockSetsFree st) as [|x rest] eqn:Ef.
  - set (x := calloc (sets st)). pose proof (Hca (sets st)) as E. fold x in E.
    assert (Hn : wrap_u 64 (next_id st + 1) = next_id st + 1).
    { unfold wrap_u. apply Z.mod_small. destruct Hw. pose proof (co_cnt _ _ _ C). lia. }
    exists x. eexists. split; [|split; [by apply fresh_step|]].
    + unfold use_set, add_ref, get_set. simpl. rewrite lookup_insert_eq. simpl. rewrite lookup_insert_eq. simpl.
      rewrite Hn. rewrite (proj2 (Z.ltb_lt _ _)) by (pose proof (co_cnt _ _ _ C); lia). simpl.
      unfold put_set, with_sets, with_lists, with_next_id. simpl. by rewrite insert_insert_eq, Ef.
    + destruct (ti_out _ _ _ _ _ T x E) as [Hl Ho]. split; simpl; try done.
      * eexists. rewrite lookup_insert_eq. done.
      * intros y. apply (fresh_members x E).
  - destruct (reuse_step x rest HK Ef) as (st2 & H). eauto.
Qed.
End Moves.
