(* ===== verification/DbLockThreads.v ===== *)
(** * Lock sets: threads that lock one record

    The obligations of [dbScanLock], [dbScanUnlock] and [dbLockDecRef] as programs of a thread among others. *)

From stdpp Require Import base gmap list sorting fin_sets relations.
From Stdlib Require Import ZArith Lia Bool FunctionalExtensionality.
From S2P Require Import Prelude DbLock DbLockInv DbLocker DbLockSets DbLockGraph DbLockProg DbLockConc DbLockSteps DbLockMoves.
Open Scope Z_scope.

(** ** What a thread holds, as equations *)

Lemma own_ext o o' : (forall x, oref o x = oref o' x) -> (forall x, olock o x = olock o' x) ->
  oret o = oret o' -> opend o = opend o' -> osnap o = osnap o' -> ocross o = ocross o' -> oflag o = oflag o' ->
  odirty o = odirty o' -> o = o'.
Proof.
  destruct o as [f g l p s c m d], o' as [f' g' l' p' s' c' m' d']. simpl. intros Hf Hg -> -> -> -> -> ->.
  f_equal; by apply functional_extensionality.
Qed.

Lemma o_ref_ref o x n m : o_ref (o_ref o x n) x m = o_ref o x (n + m).
Proof. apply own_ext; try done. intros y. simpl. unfold hadd. destruct (decide _); lia. Qed.
Lemma o_ref_0 o x : o_ref o x 0 = o.
Proof. apply own_ext; try done. intros y. simpl. unfold hadd. destruct (decide _); lia. Qed.
Lemma o_lock_lock o x v w : o_lock (o_lock o x v) x w = o_lock o x w.
Proof. apply own_ext; try done. intros y. simpl. by destruct (decide _). Qed.
Lemma o_lock_id o x v : olock o x = v -> o_lock o x v = o.
Proof. intros E. apply own_ext; try done. intros y. simpl. by destruct (decide (y = x)) as [->|]. Qed.

(** ** What stays as it is while a thread runs *)

(** The sets [L], their records and the links of these, which records and links there are, and that [recomputeCnt] does not
    decrease. *)
Record stays (L : addr -> Prop) (st st' : lk_state) : Prop := {
  sy_lr : forall r x, plock st r = Some x -> L x -> plock st' r = Some x;
  sy_mem : forall x, L x -> members st' x = members st x;
  sy_dom : forall r, is_Some (lrs st' !! r) <-> is_Some (lrs st !! r);
  sy_rdom : forall r, is_Some (recs st' !! r) <-> is_Some (recs st !! r);
  sy_ldom : forall l, is_Some (link_of st' l) <-> is_Some (link_of st l);
  sy_rec : forall x r, L x -> r ∈ members st x -> recs st' !! r = recs st !! r;
  sy_cnt : recomputeCnt st <= recomputeCnt st'
}.

Definition locks (o : own) (x : addr) : Prop := olock o x ≠ None.

#[global] Instance stays_preorder L : PreOrder (stays L).
Proof.
  split; [by split|]. intros a b c [] []. split; eauto.
  - intros x Hx. transitivity (members b x); auto.
  - intros r. transitivity (is_Some (lrs b !! r)); auto.
  - intros r. transitivity (is_Some (recs b !! r)); auto.
  - intros l. transitivity (is_Some (link_of b l)); auto.
  - intros x r Hl Hr. transitivity (recs b !! r); [|by apply (sy_rec0 x)].
    apply (sy_rec1 x); [done|]. by rewrite sy_mem0.
  - lia.
Qed.

Lemma stays_mono (L L' : addr -> Prop) st st' : stays L st st' -> (forall x, L' x -> L x) -> stays L' st st'.
Proof. intros [] H. split; eauto. Qed.

Lemma rely_stays o st st' : rely o st st' -> stays (locks o) st st'.
Proof. intros []. by split. Qed.

(** A change of sets only, which keeps their records. *)
Lemma sets_stay L st st' : lrs st' = lrs st -> recs st' = recs st -> recomputeCnt st' = recomputeCnt st ->
  (forall x, members st' x = members st x) -> stays L st st'.
Proof.
  intros El Er Ec Em. split; unfold plock, link_of; rewrite ?El, ?Er; try done. lia.
Qed.

Lemma put_stays L st x s s' : sets st !! x = Some s -> lockRecordList s' = lockRecordList s ->
  stays L st (put_set st x s').
Proof.
  intros E El. apply sets_stay; try done. intros y. rewrite members_put. destruct (decide (y = x)) as [->|]; [|done].
  by rewrite El, (members_lookup _ _ _ E).
Qed.

Lemma filter_ne_id (x : addr) (l : list addr) : x ∉ l -> filter (.≠ x) l = l.
Proof.
  induction l as [|y l IH]; [done|]. rewrite not_elem_of_cons. intros [N Hl].
  rewrite filter_cons_True by done. by rewrite IH.
Qed.

Section Threads.
Context (K : Z) (lim : option Z) (t : tid).

Abbreviation safe_t := (safe K lim t).

(** ** Single steps *)

(** A step that reads. *)
Lemma safe_get {X} (f : lk_state -> lk_fault + X) o st (Q : X -> own -> lk_state -> Prop) :
  (forall os i st1, os !! i = Some (t, o) -> cinv K os st1 -> rely o st st1 ->
    exists v, f st1 = inr v /\ Q v o st1) -> safe_t (get f) o st Q.
Proof.
  intros H os i st1 Hi I Hr Hw. destruct (H os i st1 Hi I Hr) as (v & -> & HQ). simpl.
  exists o. split; [by apply idle_step|done].
Qed.

Lemma safe_assert b o st (Q : unit -> own -> lk_state -> Prop) : b = true -> Q tt o st -> safe_t (p_assert b) o st Q.
Proof. by intros ->. Qed.
Lemma safe_require b o st (Q : unit -> own -> lk_state -> Prop) : b = true -> Q tt o st -> safe_t (p_require b) o st Q.
Proof. by intros ->. Qed.

Lemma add_ref_val st x s n : sets st !! x = Some s -> 0 <= refcount s + n -> refcount s + n < int_max ->
  add_ref st x n = inr (refcount s + n, put_set st x (with_refcount s (refcount s + n))).
Proof.
  intros E H1 H2. unfold add_ref, get_set. rewrite E. simpl. unfold int_max in H2.
  rewrite wrap_s_id by (unfold fits_s; lia). done.
Qed.

(** A change of the counter by which the set stays in use; the conditions are those of [ref_step]. *)
Lemma add_ref_moves os i o st x s n : cinv K os st -> os !! i = Some (t, o) ->
  sets st !! x = Some s -> 0 < refcount s -> 0 < refcount s + n ->
  oref o x + n <= K \/ (olock o x ≠ None /\
    zlen (lockRecordList s) + (oref o x + n) <= Z.of_nat (size (lrs st)) + K) ->
  (oref o x + n < 0 -> olock o x ≠ None /\ 1 <= zlen (lockRecordList s) + (oref o x + n)) ->
  lockRecordList s ≠ [] \/ (oref o x ≠ 0 /\ (olock o x = None \/ 0 < oref o x + n)) ->
  add_ref st x n = inr (refcount s + n, put_set st x (with_refcount s (refcount s + n))) /\
  moves K os i t o (o_ref o x n) st (put_set st x (with_refcount s (refcount s + n))).
Proof.
  intros I Hi E Hp Hn Hm Hd Hor.
  assert (M : moves K os i t o (o_ref o x n) st (put_set st x (with_refcount s (refcount s + n)))) by (by apply ref_step).
  split; [|done]. apply add_ref_val; [done|lia|]. destruct M as [I2 _].
  pose proof (count_bound K _ _ I2 x (with_refcount s (refcount s + n))) as Hb. simpl in Hb.
  rewrite lookup_insert_eq in Hb. specialize (Hb eq_refl). lia.
Qed.

(** A step and a change of what the thread knows. *)
Lemma moves_ghost os j o o2 o3 st st2 : os !! j = Some (t, o) -> moves K os j t o o2 st st2 ->
  (forall x, oref o3 x = oref o2 x) -> (forall x, olock o3 x = olock o2 x) ->
  oret o3 = oret o2 -> opend o3 = opend o2 -> ocross o3 = ocross o2 -> oflag o3 = oflag o2 -> odirty o3 = odirty o2 ->
  (forall c l, osnap o3 = Some (c, l) -> c <= recomputeCnt st2 /\
    (recomputeCnt st2 = c -> forall r x, (r, x) ∈ l -> plock st2 r = Some x \/ pending (<[j := (t, o2)]> os) (r, x))) ->
  moves K os j t o o3 st st2.
Proof.
  intros Hj [I2 G] H1 H2 H3 H4 H5 H6 H7 H8.
  assert (Hj2 : <[j := (t, o2)]> os !! j = Some (t, o2)) by (apply list_lookup_insert_eq; by eapply lookup_lt_Some).
  destruct (know_step K _ st2 I2 j t o2 Hj2 o3 H1 H2 H3 H4 H5 H6 H7 H8) as [I3 _].
  rewrite list_insert_insert_eq in I3. split; [done|]. destruct G. split; try done; by rewrite H4.
Qed.

(** ** Giving back a reference *)

Lemma own_some os i o st x : cinv K os st -> os !! i = Some (t, o) -> oref o x ≠ 0 \/ olock o x ≠ None ->
  exists s, sets st !! x = Some s.
Proof.
  intros I Hi Hx. destruct (sets st !! x) as [s|] eqn:E; [eauto|].
  destruct (ti_out _ _ _ _ _ (own_inv K os st I i t o Hi) x E) as [? ?]. destruct Hx; lia || done.
Qed.

(** The rest of [dbLockDecRef] when the count became zero. *)
Lemma ret_set os i o x st : cinv K os st -> os !! i = Some (t, o) -> x ∈ oret o ->
  exists s, sets st !! x = Some s /\ refcount s = 0 /\ lockRecordList s = [] /\ ownerlocker s = None.
Proof.
  intros I Hi Hx. pose proof (ci_core _ _ _ I) as C. destruct (co_ret _ _ _ C x) as (s & E & E0).
  - exists t, o. split; [by eapply list_elem_of_lookup_2|done].
  - exists s. destruct (co_idle _ _ _ C x s E E0) as (? & ? & _). done.
Qed.

Lemma retire_safe x o st : x ∈ oret o -> oref o x = 0 -> olock o x = None ->
  (forall r, (r, x) ∉ opend o) -> clean o -> 0 <= K ->
  safe_t (do* _ <- upd (fun st => lock_set t st x) in
          do* n <- get (get_count x) in
          do* _ <- p_require (n =? 0) in
          do* _ <- upd (fun st => unlock_set t st x) in
          upd (unlist_set x)) o st
    (fun _ o' st' => o' = o_ret o (filter (.≠ x) (oret o)) /\ stays (locks o) st st').
Proof.
  intros Hx Ho Hl Hp Hcl HK. set (o1 := o_lock o x (Some (0%nat, None))).
  eapply safe_bind with (Q' := fun _ o' st' => o' = o1 /\ stays (locks o) st st').
  { intros os i st1 Hi I Hr Hw. destruct (ret_set os i o x st1 I Hi Hx) as (s & E & E0 & El & Ew).
    unfold lock_set, get_set. rewrite E. simpl. destruct (lock s) as [[t' n]|] eqn:L; simpl.
    - exfalso. destruct (ret_free K os st1 I i t o Hi x Hx Hl) as (s' & E' & _ & L' & _). congruence.
    - exists o1. split; [|split; [done|]].
      + replace o1 with (o_lock o x (my_lock t (with_lock s (Some (t, 1%nat)))))
          by (unfold o1, my_lock; simpl; by rewrite decide_True, Ew by done).
        apply (mutex_step K os st1 I i t o Hi x s); simpl; try done; try tauto.
        * intros ? ?. by rewrite L.
        * by intros ? ? [= -> _].
        * intros ? ? [= _ <-]. lia.
      + transitivity st1; [by apply rely_stays|]. by eapply put_stays. }
  intros _ o' st1 (-> & S1).
  eapply safe_bind with (Q' := fun n o' st' => n = 0 /\ o' = o1 /\ stays (locks o) st st').
  { apply safe_get. intros os i st2 Hi I Hr. destruct (ret_set os i o1 x st2 I Hi Hx) as (s & E & E0 & El & Ew).
    exists 0. unfold get_count, get_set. rewrite E. simpl. rewrite El. split; [done|]. split; [done|]. split; [done|].
    transitivity st1; [done|]. eapply stays_mono; [by apply rely_stays|].
    intros y Hy. unfold locks, o1. simpl. by destruct (decide (y = x)). }
  intros n o' st2 (-> & -> & S2).
  eapply safe_bind with (Q' := fun _ o' st' => o' = o1 /\ stays (locks o) st st').
  { by apply safe_require. }
  intros _ o' st3 (-> & S3).
  eapply safe_bind with (Q' := fun _ o' st' => o' = o /\ stays (locks o) st st').
  { intros os i st4 Hi I Hr Hw. destruct (ret_set os i o1 x st4 I Hi Hx) as (s & E & E0 & El & Ew).
    destruct (mine_spec K os st4 I i t o1 Hi x s 0 None E) as (L & _ & M); [simpl; by rewrite decide_True|].
    unfold unlock_set, get_set. rewrite E. simpl. rewrite L. simpl. rewrite decide_True by done. simpl.
    exists o. split; [|split; [done|]].
    - assert (Eo : o_lock o1 x (my_lock t (with_lock s None)) = o)
        by (unfold o1; rewrite o_lock_lock; by apply o_lock_id).
      rewrite <- Eo. apply (mutex_step K os st4 I i t o1 Hi x s); simpl; try done; try tauto.
      intros _. split; [lia|done].
    - transitivity st3; [done|]. transitivity st4; [|by eapply put_stays].
      eapply stays_mono; [by apply rely_stays|]. intros y Hy. unfold locks, o1. simpl. by destruct (decide (y = x)). }
  intros _ o' st4 (-> & S4). intros os i st5 Hi I Hr Hw.
  destruct (unlist_step K os st5 I i t o Hi x Hx Hl) as [Ha M].
  unfold unlist_set, list_delete. rewrite decide_True by done. simpl. eexists. split; [exact M|]. split; [done|].
  transitivity st4; [done|]. transitivity st5; [by apply rely_stays|]. by apply sets_stay.
Qed.

Lemma decref_safe x o st : 0 < oref o x -> olock o x = None \/ (locks o x /\ members st x ≠ []) -> x ∉ oret o -> (forall r, (r, x) ∉ opend o) -> clean o -> 0 <= K ->
  safe_t (p_dbLockDecRef t x) o st (fun _ o' st' => o' = o_ref o x (-1) /\ stays (locks o) st st').
Proof.
  intros Ho Hl Hx Hp Hcl HK. unfold p_dbLockDecRef.
  eapply safe_bind with (Q' := fun cnt o' st' => stays (locks o) st st' /\ 0 <= cnt /\
    ((0 < cnt /\ o' = o_ref o x (-1)) \/ (cnt = 0 /\ oref o x = 1 /\ olock o x = None /\ o' = o_ret (o_ref o x (-1)) (x :: oret o)))).
  - intros os i st1 Hi I Hr Hw. destruct (own_some os i o st1 x I Hi ltac:(lia)) as [s E].
    destruct (in_use K os st1 I i t o Hi x s E ltac:(lia)) as [Hpos Hle].
    pose proof (count_bound K os st1 I x s E) as Hb. pose proof (own_inv K os st1 I i t o Hi) as T.
    assert (S1 : forall s', lockRecordList s' = lockRecordList s -> stays (locks o) st (put_set st1 x s')).
    { intros s' El. transitivity st1; [by apply rely_stays|]. by eapply put_stays. }
    assert (Hm : locks o x /\ members st x ≠ [] -> lockRecordList s ≠ [] /\ 1 < refcount s).
    { intros [Hx1 Hm]. rewrite <- (re_mem _ _ _ Hr x Hx1), (members_lookup _ _ _ E) in Hm. split; [done|].
      rewrite (own_count K os st1 I o x s E). destruct (others_facts K os st1 I i t o Hi x) as (_ & _ & H3).
      specialize (H3 Hx1). destruct (lockRecordList s); [done|simpl; lia]. }
    destruct (decide (refcount s = 1)) as [E1|N1].
    + assert (Hn : olock o x = None) by (destruct Hl as [|Hl]; [done|destruct (Hm Hl); lia]).
      rewrite (add_ref_val st1 x s (-1) E) by lia. eexists. split; [rewrite E1; by eapply retire_step|].
      split; [by apply S1|]. rewrite E1. split; [lia|]. right. split; [done|]. split; [lia|done].
    + destruct (add_ref_moves os i o st1 x s (-1) I Hi E) as [-> M]; try lia.
      { pose proof (ti_max _ _ _ _ _ T x) as Hmx. rewrite (members_lookup _ _ _ E) in Hmx.
        destruct Hmx as [|[? ?]]; [left; lia|right; split; [done|lia]]. }
      { destruct Hl as [|Hl]; [right; split; [lia|by left]|left; by apply Hm]. }
      eexists. split; [exact M|]. split; [by apply S1|]. split; [lia|]. left. split; [lia|done].
  - intros cnt o1 st1 (S1 & Hc & Hor). simpl. rewrite (proj2 (Z.leb_le _ _) Hc). simpl.
    destruct Hor as [[Hpos ->]|(-> & E1 & Hn & ->)].
    + rewrite (proj2 (Z.eqb_neq _ _)) by lia. by split.
    + simpl Z.eqb. cbv iota. eapply safe_mono; [apply retire_safe|].
      * by left.
      * simpl. rewrite hadd_eq. lia.
      * done.
      * done.
      * done.
      * done.
      * intros _ o2 st2 [-> S2]. split; [|by transitivity st1].
        apply own_ext; try done. simpl. rewrite filter_cons_False by (intros []; done).
        by apply filter_ne_id.
Qed.

(** ** Mutexes *)

Definition bump (v : option (nat * option lockerid)) : option (nat * option lockerid) :=
  match v with None => Some (0%nat, None) | Some (n, w) => Some (S n, w) end.
Definition unbump (v : option (nat * option lockerid)) : option (nat * option lockerid) :=
  match v with Some (S n, w) => Some (n, w) | _ => None end.
Lemma unbump_bump v : unbump (bump v) = v.
Proof. by destruct v as [[n w]|]. Qed.

Lemma stays_step L st st1 x s s' o : rely o st st1 -> (forall y, L y -> locks o y) ->
  sets st1 !! x = Some s -> lockRecordList s' = lockRecordList s -> stays L st (put_set st1 x s').
Proof.
  intros Hr HL E El. transitivity st1; [|by eapply put_stays].
  eapply stays_mono; [by apply rely_stays|done].
Qed.

Lemma lock_safe x o st : 0 < oref o x -> (forall y, locks o y -> (y <= x)%positive) ->
  safe_t (upd (fun st => lock_set t st x)) o st
    (fun _ o' st' => o' = o_lock o x (bump (olock o x)) /\ stays (locks o) st st').
Proof.
  intros Ho Hle os i st1 Hi I Hr Hw. destruct (own_some os i o st1 x I Hi ltac:(lia)) as [s E].
  destruct (in_use K os st1 I i t o Hi x s E ltac:(lia)) as [Hpos _]. pose proof (ci_core _ _ _ I) as C.
  unfold lock_set, get_set. rewrite E. cbn [the ebind].
  destruct (mutex_lock t (lock s)) as [e|m] eqn:L; cbn [ebind].
  { destruct (lock s) as [[t' n]|] eqn:Es; [|done]. simpl in L. destruct (decide (t' = t)) as [|Nt]; [done|].
    injection L as <-. split; [done|]. exists x, s, t', n. do 3 (split; [done|]). intros y Hy.
    destruct (decide (y = x)) as [->|Ny]; [exfalso|specialize (Hle y Hy); lia].
    destruct (olock o x) as [[m w]|] eqn:F; [|done]. destruct (mine_spec K os st1 I i t o Hi x s m w E F) as (L1 & _).
    congruence. }
  set (s' := with_lock s m).
  assert (Hm : mine t s /\ mine t s' /\ my_lock t s' = bump (my_lock t s) /\ exists n, m = Some (t, S n)).
  { unfold mine, my_lock. simpl. destruct (lock s) as [[t' n]|] eqn:El; simpl in L.
    - destruct (decide (t' = t)) as [->|]; [|done]. injection L as <-.
      split; [by intros ? ? [= -> _]|]. split; [by intros ? ? [= -> _]|].
      pose proof (co_mut _ _ _ C x s _ _ E El). destruct n as [|n]; [lia|].
      rewrite !decide_True by done. eauto.
    - injection L as <-. split; [done|]. split; [by intros ? ? [= -> _]|]. rewrite decide_True by done.
      rewrite (co_own _ _ _ C x s E El). eauto. }
  destruct Hm as (M & M' & Hb & n & ->).
  exists (o_lock o x (bump (olock o x))). split; [|split; [done|by eapply stays_step]].
  rewrite (olock_my K os st1 I i t o Hi x s E), <- Hb.
  apply (mutex_step K os st1 I i t o Hi x s s'); try done; simpl; try tauto; try lia.
  intros t' m [= _ <-]. lia.
Qed.

Lemma unlock_safe x o st n w : olock o x = Some (n, w) -> (n = 0%nat -> w = None) -> 0 < oref o x <= K ->
  (forall r, (r, x) ∉ opend o) -> (n = 0%nat -> clean o) ->
  safe_t (upd (fun st => unlock_set t st x)) o st
    (fun _ o' st' => o' = o_lock o x (unbump (olock o x)) /\ stays (locks o) st st').
Proof.
  intros Hl Hw0 Ho Hp Hcl os i st1 Hi I Hr Hw. destruct (own_some os i o st1 x I Hi ltac:(lia)) as [s E].
  destruct (in_use K os st1 I i t o Hi x s E ltac:(lia)) as [Hpos _].
  destruct (mine_spec K os st1 I i t o Hi x s n w E Hl) as (L & W & M).
  unfold unlock_set, get_set. rewrite E. simpl. rewrite L. simpl. rewrite decide_True by done. simpl.
  set (s' := with_lock s _).
  exists (o_lock o x (unbump (olock o x))). split; [|split; [done|by eapply stays_step]].
  replace (unbump (olock o x)) with (my_lock t s').
  2: { rewrite Hl. unfold my_lock. simpl. destruct n as [|n]; [done|]. by rewrite decide_True, W. }
  apply (mutex_step K os st1 I i t o Hi x s s'); try done; simpl; try tauto; try lia.
  - intros t' m. destruct n as [|n]; [done|]. by intros [= -> _].
  - intros t' m. destruct n as [|n]; [done|]. intros [= _ <-]. lia.
  - destruct n as [|n]; [|done]. intros _. rewrite W. auto.
  - destruct n as [|n]; [|done]. intros _. split; [lia|]. split; [done|auto].
Qed.

(** ** Taking references *)

(** One more reference to a set in use. *)
Lemma incref_moves os i o st x s : cinv K os st -> os !! i = Some (t, o) -> sets st !! x = Some s ->
  0 <= oref o x < K -> 0 < oref o x \/ lockRecordList s ≠ [] ->
  add_ref st x 1 = inr (refcount s + 1, put_set st x (with_refcount s (refcount s + 1))) /\ 0 < refcount s /\
  moves K os i t o (o_ref o x 1) st (put_set st x (with_refcount s (refcount s + 1))).
Proof.
  intros I Hi E Ho Hor. destruct (in_use K os st I i t o Hi x s E ltac:(intuition lia)) as [Hpos _].
  destruct (add_ref_moves os i o st x s 1 I Hi E Hpos) as [-> M]; try done; try lia.
  { destruct Hor; [right|by left]. split; [lia|right; lia]. }
Qed.

Lemma incref_safe x o st : 0 <= oref o x < K -> 0 < oref o x \/ (locks o x /\ members st x ≠ []) ->
  safe_t (upd (fun st => dbLockIncRef st x)) o st (fun _ o' st' => o' = o_ref o x 1 /\ stays (locks o) st st').
Proof.
  intros Ho Hor os i st1 Hi I Hr Hw.
  assert (Hx : 0 < oref o x \/ (locks o x /\ members st1 x ≠ [])).
  { destruct Hor as [|[? Hm]]; [by left|right]. split; [done|]. by rewrite (re_mem _ _ _ Hr). }
  destruct (own_some os i o st1 x I Hi) as [s E]; [destruct Hx as [|[? _]]; [left; lia|by right]|].
  rewrite (members_lookup _ _ _ E) in Hx.
  destruct (incref_moves os i o st1 x s I Hi E Ho) as (Ea & Hp & M); [tauto|].
  unfold dbLockIncRef. rewrite Ea. simpl. rewrite (proj2 (Z.ltb_lt _ _)) by lia. simpl.
  eexists. split; [exact M|]. split; [done|by eapply stays_step].
Qed.

(** The set of a record, with a reference. *)
Lemma plock_set os i o st r x : cinv K os st -> os !! i = Some (t, o) -> plock st r = Some x ->
  exists s, sets st !! x = Some s /\ r ∈ lockRecordList s.
Proof. intros I Hi Hp. apply members_some. by apply (co_lr _ _ _ (ci_core _ _ _ I)). Qed.

Lemma lr_plock st r : is_Some (lrs st !! r) -> exists x, get_plock r st = inr x /\ plock st r = Some x.
Proof. intros [lr E]. exists (plockSet lr). unfold get_plock, get_lr, plock. by rewrite E. Qed.

Lemma plock_lr st r x : plock st r = Some x -> get_plock r st = inr x /\ is_Some (lrs st !! r).
Proof. unfold plock, get_plock, get_lr. destruct (lrs st !! r); simpl; [|done]. intros [= <-]. eauto. Qed.

(** What a thread knows that has just read the set of a record. *)
Lemma read_snap os st r x : plock st r = Some x -> forall c l, Some (recomputeCnt st, [(r, x)]) = Some (c, l) -> c <= recomputeCnt st /\
  (recomputeCnt st = c -> forall q y, (q, y) ∈ l -> plock st q = Some y \/ pending os (q, y)).
Proof. intros Hp c l [= <- <-]. split; [done|]. intros _ q y [= -> ->]%list_elem_of_singleton. by left. Qed.

Lemma get_ref_safe r o st : is_Some (lrs st !! r) -> (forall x, 0 <= oref o x < K) ->
  safe_t (sec (fun st => dbLockGetRef st r)) o st
    (fun x o' st' => o' = o_snap (o_ref o x 1) (Some (recomputeCnt st', [(r, x)])) /\ plock st' r = Some x /\
      within lim st' /\ stays (locks o) st st').
Proof.
  intros Hlr Ho os i st1 Hi I Hr [_ Hw]. apply (re_dom _ _ _ Hr) in Hlr as [lr El].
  set (x := plockSet lr). assert (Hp : plock st1 r = Some x) by (unfold plock; by rewrite El).
  destruct (plock_set os i o st1 r x I Hi Hp) as (s & E & Hin).
  assert (Hne : lockRecordList s ≠ []) by (intros H0; rewrite H0 in Hin; by apply not_elem_of_nil in Hin).
  destruct (incref_moves os i o st1 x s I Hi E (Ho x)) as (Ea & Hc & M); [by right|].
  unfold dbLockGetRef, get_lr, dbLockIncRef. rewrite El. cbn [the ebind]. fold x. rewrite Ea. simpl.
  rewrite (proj2 (Z.ltb_lt _ _)) by lia. simpl. set (st2 := put_set st1 x _) in *.
  exists (o_snap (o_ref o x 1) (Some (recomputeCnt st2, [(r, x)]))).
  split; [apply (moves_ghost os i o _ _ _ _ Hi M); try done; by apply read_snap|].
  split; [done|]. split; [exact Hp|]. split; [done|by eapply stays_step].
Qed.

(** ** Locking one record *)

(** No call is under way in which sets go to the free list or records move. *)
Definition calm (o : own) : Prop := oret o = [] /\ opend o = [] /\ clean o.

Lemma locks_lock o x v y : v ≠ None -> locks o y -> locks (o_lock o x v) y.
Proof. unfold locks. simpl. by destruct (decide (y = x)). Qed.

(** With the mutex of the set it has read, the thread finds the record elsewhere only when [recomputeCnt] has changed. *)
Lemma snap_passed os i o st r x y c : cinv K os st -> os !! i = Some (t, o) -> osnap o = Some (c, [(r, x)]) -> locks o x -> opend o = [] ->
  plock st r = Some y -> y ≠ x -> c < recomputeCnt st.
Proof.
  intros I Hi Es L Ep Hp N. destruct (ti_snap _ _ _ _ _ (own_inv K os st I i t o Hi) c _ Es) as [Hc Hl].
  destruct (decide (recomputeCnt st = c)) as [E|]; [exfalso|lia].
  destruct (Hl E r x) as [H|(t' & o' & Ho' & Hpd)]; [by left|congruence|].
  pose proof (ti_pend _ _ _ _ _ (ci_each _ _ _ I _ _ Ho') _ _ Hpd) as L'.
  rewrite (held_once K os st I i t o Hi x t' o' L Ho' L'), Ep in Hpd. by apply not_elem_of_nil in Hpd.
Qed.

Lemma check_safe r x o st c : 0 < oref o x -> locks o x -> is_Some (lrs st !! r) ->
  (forall y, 0 <= oref o y < K) -> osnap o = Some (c, [(r, x)]) -> opend o = [] ->
  safe_t (sec (scan_check r x)) o st (fun again o' st' => stays (locks o) st st' /\
    match again with
    | None => o' = o /\ plock st' r = Some x
    | Some y => y ≠ x /\ o' = o_snap (o_ref o y 1) (Some (recomputeCnt st', [(r, y)])) /\ plock st' r = Some y /\
        c < recomputeCnt st' /\ within lim st'
    end).
Proof.
  intros Ho Hl Hlr Hb Es Ep os i st1 Hi I Hr [_ Hw]. apply (re_dom _ _ _ Hr) in Hlr.
  destruct (lr_plock st1 r Hlr) as (y & Eg & Hp). unfold scan_check. rewrite Eg. simpl.
  destruct (decide (x = y)) as [<-|N].
  - exists o. split; [by apply idle_step|]. split; [by apply rely_stays|done].
  - destruct (plock_set os i o st1 r y I Hi Hp) as (s & E & Hin).
    assert (Hne : lockRecordList s ≠ []) by (intros H0; rewrite H0 in Hin; by apply not_elem_of_nil in Hin).
    destruct (incref_moves os i o st1 y s I Hi E (Hb y)) as (Ea & Hc & M); [by right|].
    rewrite Ea. simpl. rewrite (proj2 (Z.leb_le _ _)) by lia. simpl. set (st2 := put_set st1 y _) in *.
    exists (o_snap (o_ref o y 1) (Some (recomputeCnt st2, [(r, y)]))).
    split; [apply (moves_ghost os i o _ _ _ _ Hi M); try done; by apply read_snap|].
    split; [by eapply stays_step|]. do 3 (split; [done|]). split; [|done].
    by apply (snap_passed os i o st1 r x y c I Hi Es Hl Ep Hp).
Qed.

(** The reference of [dbScanLock] is given back while the record keeps the count above zero. *)
Lemma drop_safe r x o st : 0 < oref o x -> locks o x -> plock st r = Some x ->
  safe_t (do* cnt <- sec (fun st => add_ref st x (-1)) in p_assert (0 <? cnt)) o st
    (fun _ o' st' => o' = o_ref o x (-1) /\ stays (locks o) st st').
Proof.
  intros Ho Hl Hp.
  eapply safe_bind with (Q' := fun cnt o' st' => 0 < cnt /\ o' = o_ref o x (-1) /\ stays (locks o) st st').
  - intros os i st1 Hi I Hr Hw. pose proof (re_lr _ _ _ Hr r x Hp Hl) as Hp1.
    destruct (plock_set os i o st1 r x I Hi Hp1) as (s & E & Hin).
    assert (Hne : lockRecordList s ≠ []) by (intros H0; rewrite H0 in Hin; by apply not_elem_of_nil in Hin).
    pose proof (own_count K os st1 I o x s E) as Hc. destruct (others_facts K os st1 I i t o Hi x) as (_ & _ & H3).
    specialize (H3 Hl). assert (Hz : 0 < zlen (lockRecordList s)) by (destruct (lockRecordList s); [done|simpl; lia]).
    destruct (add_ref_moves os i o st1 x s (-1) I Hi E) as [-> M]; try lia.
    { pose proof (ti_max _ _ _ _ _ (own_inv K os st1 I i t o Hi) x) as Hm. rewrite (members_lookup _ _ _ E) in Hm.
      destruct Hm as [|[? ?]]; [left; lia|right; split; [done|lia]]. }
    { by left. }
    eexists. split; [exact M|]. split; [lia|]. split; [done|by eapply stays_step].
  - intros cnt o' st1 (Hc & -> & S1). apply safe_assert; [by apply Z.ltb_lt|done].
Qed.

(** The set is not that of the record any more; the thread has a reference to the new one. *)
Lemma give_back_safe x y o st (k : prog unit) Q : calm o -> 0 <= oref o x < K - 1 -> y ≠ x -> olock o x = None -> 0 <= K ->
  (forall st', stays (locks o) st st' -> safe_t k (o_ref o y 1) st' Q) ->
  safe_t (do* _ <- upd (fun st => unlock_set t st x) in do* _ <- p_dbLockDecRef t x in k)
    (o_ref (o_lock (o_ref o x 1) x (Some (0%nat, None))) y 1) st Q.
Proof.
  intros (Hret & Hpend & Hcl) Hb Ny Hnone HK Hk. set (o1 := o_lock (o_ref o x 1) x (Some (0%nat, None))).
  assert (Lm : forall z, locks o z -> locks (o_ref o1 y 1) z) by (intros z; exact (locks_lock (o_ref o x 1) x (Some (0%nat, None)) z ltac:(done))).
  eapply safe_bind; [eapply (unlock_safe x _ _ 0 None)|].
  { simpl. by rewrite decide_True. }
  { done. }
  { simpl. rewrite hadd_ne, hadd_eq by done. lia. }
  { intros q. simpl. rewrite Hpend. apply not_elem_of_nil. }
  { done. }
  intros _ o' st1 [-> S1].
  assert (Eo : o_lock (o_ref o1 y 1) x (unbump (olock (o_ref o1 y 1) x)) = o_ref (o_ref o x 1) y 1).
  { unfold o1. apply own_ext; try done. intros z. simpl. destruct (decide (z = x)) as [->|]; [|done].
    by rewrite decide_True, Hnone. }
  rewrite Eo. eapply safe_bind; [apply (decref_safe x); simpl; try done|].
  { rewrite hadd_ne, hadd_eq by done. lia. }
  { by left. }
  { rewrite Hret. apply not_elem_of_nil. }
  { intros q. rewrite Hpend. apply not_elem_of_nil. }
  intros _ o' st2 [-> S2]. change (stays (locks o) st1 st2) in S2.
  replace (o_ref (o_ref (o_ref o x 1) y 1) x (-1)) with (o_ref o y 1).
  2: { apply own_ext; try done. intros z. simpl. unfold hadd. destruct (decide (z = x)), (decide (z = y)); lia. }
  apply Hk. transitivity st1; [|done]. by eapply stays_mono.
Qed.

(** Enough retries for all the changes of [recomputeCnt] after it had the value [c]. *)
Definition retries (c : Z) (fuel : nat) : Prop := match lim with Some m => m < c + Z.of_nat fuel | None => True end.

Lemma retries_mono c c' fuel : c <= c' -> retries c fuel -> retries c' fuel.
Proof. unfold retries. destruct lim; lia. Qed.
Lemma retries_next c c' fuel : c < c' -> retries c (S fuel) -> retries c' fuel.
Proof. unfold retries. destruct lim; lia. Qed.
Lemma retries_none c : retries c 0 -> below lim c -> lim = None.
Proof. unfold retries, below. destruct lim; [lia|done]. Qed.

Lemma scan_retry_safe fuel r o : calm o -> (forall y, 0 <= oref o y < K - 1) -> 0 <= K -> forall x c st,
  (forall y, locks o y -> y = x) -> (locks o x -> plock st r = Some x) -> is_Some (lrs st !! r) ->
  retries c fuel -> below lim c ->
  safe_t (p_scan_retry t fuel r x) (o_snap (o_ref o x 1) (Some (c, [(r, x)]))) st (fun _ o' st' => exists y snap,
    o' = o_snap (o_lock o y (bump (olock o y))) snap /\ plock st' r = Some y /\ stays (locks o) st st').
Proof.
  intros (Hret & Hpend & Hcl) Hb HK. induction fuel as [|fuel IH]; intros x c st Hone Hx Hlr Hn Hc; [by apply retries_none in Hc|].
  cbn [p_scan_retry].
  assert (Hox : oref (o_ref o x 1) x = oref o x + 1) by (simpl; by rewrite hadd_eq).
  pose proof (Hb x). set (v := bump (olock o x)). set (o0 := o_snap (o_ref o x 1) (Some (c, [(r, x)]))). set (o1 := o_lock o0 x v).
  assert (Hv : v ≠ None) by (unfold v; by destruct (olock o x) as [[]|]).
  assert (L1 : locks o1 x) by (unfold locks, o1; simpl; by rewrite decide_True).
  assert (Lm : forall y, locks o y -> locks o1 y) by (intros y; exact (locks_lock o0 x v y Hv)).
  eapply safe_bind; [apply (lock_safe x o0); [simpl; rewrite hadd_eq; lia|by intros y ->%Hone]|]. intros _ o' st1 [-> S1].
  change (o_lock o0 x (bump (olock o0 x))) with o1. change (stays (locks o0) st st1) with (stays (locks o) st st1) in S1.
  eapply safe_bind; [apply (check_safe r x o1 st1 c); [simpl; rewrite hadd_eq; lia|done|by apply (sy_dom _ _ _ S1)| |done|done]|].
  { intros y. simpl. unfold hadd. pose proof (Hb y). destruct (decide _); lia. }
  intros [y|] o' st2 [S2 H2]; pose proof (stays_mono _ _ _ _ S2 Lm) as S2'.
  - destruct H2 as (Ny & -> & Hy & Hcy & Hw).
    assert (Hnone : olock o x = None).
    { destruct (olock o x) eqn:E; [|done]. exfalso. assert (Hl : locks o x) by (unfold locks; by rewrite E).
      pose proof (sy_lr _ _ _ S2' r x (sy_lr _ _ _ S1 r x (Hx Hl) Hl) Hl). congruence. }
    assert (S02 : stays (locks o) st st2) by (by transitivity st1).
    assert (Ev : v = Some (0%nat, None)) by (unfold v; by rewrite Hnone).
    set (snap := Some (recomputeCnt st2, [(r, y)])). unfold o1. rewrite Ev.
    apply (give_back_safe x y (o_snap o snap) st2); try done.
    intros st4 S24. assert (S14 : stays (locks o) st st4) by (by transitivity st2).
    eapply safe_mono; [apply (IH y (recomputeCnt st2) st4)|].
    + intros z Hz. pose proof (Hone z Hz) as ->. by unfold locks in Hz.
    + intros Hl. by apply (sy_lr _ _ _ S24).
    + by apply (sy_dom _ _ _ S14).
    + by apply (retries_next c).
    + done.
    + intros _ o' st5 (z & sn & -> & Hz & S5). exists z, sn. split; [done|]. split; [done|]. by transitivity st4.
  - destruct H2 as [-> Hy]. eapply safe_mono; [apply (drop_safe r x o1 st2); [simpl; rewrite hadd_eq; lia|done|done]|].
    intros _ o' st3 [-> S3]. exists x, (Some (c, [(r, x)])). split; [|split; [by apply (sy_lr _ _ _ S3)|]].
    + unfold o1, o0. change (o_ref (o_lock (o_snap (o_ref o x 1) (Some (c, [(r, x)]))) x v) x (-1))
        with (o_snap (o_lock (o_ref (o_ref o x 1) x (-1)) x v) (Some (c, [(r, x)]))).
      by rewrite o_ref_ref, o_ref_0.
    + transitivity st1; [done|]. transitivity st2; [done|]. by apply (stays_mono _ _ _ _ S3).
Qed.

Lemma scan_lock_safe fuel r o st : calm o -> (forall y, 0 <= oref o y < K - 1) -> is_Some (lrs st !! r) ->
  (forall y, locks o y -> plock st r = Some y) -> retries (recomputeCnt st) fuel ->
  safe_t (p_dbScanLock t fuel r) o st (fun _ o' st' => exists y snap,
    o' = o_snap (o_lock o y (bump (olock o y))) snap /\ plock st' r = Some y /\ stays (locks o) st st').
Proof.
  intros Hc Hb Hlr Hone Hn. pose proof (Hb 1%positive). unfold p_dbScanLock.
  eapply safe_bind; [apply get_ref_safe; [done|]|].
  { intros x. pose proof (Hb x). lia. }
  intros x o' st1 (-> & Hp & Hw & S1). pose proof (Hb x). set (o1 := o_snap (o_ref o x 1) (Some (recomputeCnt st1, [(r, x)]))).
  eapply safe_bind with (Q' := fun cnt o' st' => 0 < cnt /\ o' = o1 /\ stays (locks o) st1 st').
  { apply safe_get. intros os i st2 Hi I Hr.
    assert (Hox : 0 < oref o1 x) by (simpl; rewrite hadd_eq; lia).
    destruct (own_some os i _ st2 x I Hi) as [s E]; [left; lia|].
    destruct (in_use K os st2 I i t _ Hi x s E) as [Hpos _]; [by left|].
    exists (refcount s). unfold get_refcount, get_set. rewrite E. split; [done|]. split; [done|]. split; [done|].
    apply (rely_stays o1 st1 st2 Hr). }
  intros cnt o' st2 (Hcnt & -> & S2). assert (S12 : stays (locks o) st st2) by (by transitivity st1).
  eapply safe_bind with (Q' := fun _ o' st' => o' = o1 /\ st' = st2).
  { apply safe_assert; [by apply Z.ltb_lt|done]. }
  intros _ o' st' [-> ->].
  eapply safe_mono; [apply scan_retry_safe; [done|done|lia| | |by apply (sy_dom _ _ _ S12)| |exact Hw]|].
  { intros y Hl. pose proof (sy_lr _ _ _ S1 r y (Hone y Hl) Hl). congruence. }
  { intros Hl. by apply (sy_lr _ _ _ S2). }
  { apply (retries_mono (recomputeCnt st)); [apply (sy_cnt _ _ _ S1)|done]. }
  intros _ o' st3 (y & snap & -> & Hy & S3). exists y, snap. split; [done|]. split; [done|]. by transitivity st2.
Qed.

Lemma scan_unlock_safe r x n o st : calm o -> (forall y, 0 <= oref o y < K) -> olock o x = Some (n, None) ->
  plock st r = Some x ->
  safe_t (p_dbScanUnlock t r) o st (fun _ o' st' =>
    o' = o_lock o x (unbump (olock o x)) /\ stays (locks o') st st').
Proof.
  intros (Hret & Hpend & Hcl) Hb Hl Hp. pose proof (Hb x) as Hbx. unfold p_dbScanUnlock.
  assert (L : locks o x) by (unfold locks; by rewrite Hl). set (o2 := o_lock o x (unbump (olock o x))).
  assert (Lm : forall y, locks o2 y -> locks o y).
  { intros y. unfold locks, o2. simpl. destruct (decide (y = x)) as [->|]; [|done]. by rewrite Hl. }
  eapply safe_bind with (Q' := fun y o' st' => y = x /\ o' = o /\ members st' x ≠ [] /\ stays (locks o) st st').
  { apply safe_get. intros os i st1 Hi I Hr. pose proof (re_lr _ _ _ Hr r x Hp L) as Hp1. exists x.
    split; [by apply plock_lr|]. do 2 (split; [done|]). split; [|by apply rely_stays].
    apply (co_lr _ _ _ (ci_core _ _ _ I)) in Hp1. intros H0. rewrite H0 in Hp1. by apply not_elem_of_nil in Hp1. }
  intros y o' st1 (-> & -> & Hm & S1).
  eapply safe_bind; [apply incref_safe; [lia|by right]|]. intros _ o' st2 [-> S2].
  eapply safe_bind; [apply (unlock_safe x (o_ref o x 1) st2 n None Hl); [done|simpl; rewrite hadd_eq; lia| |]|].
  { intros q. simpl. rewrite Hpend. apply not_elem_of_nil. }
  { done. }
  intros _ o' st3 [-> S3]. change (stays (locks o) st2 st3) in S3.
  change (o_lock (o_ref o x 1) x (unbump (olock (o_ref o x 1) x))) with (o_ref o2 x 1).
  assert (S13 : stays (locks o) st st3) by (transitivity st1; [done|by transitivity st2]).
  eapply safe_mono; [apply (decref_safe x (o_ref o2 x 1) st3)|].
  - simpl. rewrite hadd_eq. lia.
  - change (olock o2 x = None \/ (locks o2 x /\ members st3 x ≠ [])). destruct (olock o2 x) eqn:E; [right|by left].
    split; [unfold locks; by rewrite E|]. rewrite (sy_mem _ _ _ S3 x L), (sy_mem _ _ _ S2 x L). done.
  - simpl. rewrite Hret. apply not_elem_of_nil.
  - intros q. simpl. rewrite Hpend. apply not_elem_of_nil.
  - done.
  - lia.
  - intros _ o' st4 [-> S4]. rewrite o_ref_ref, o_ref_0. split; [done|].
    transitivity st3; [by apply (stays_mono _ _ _ _ S13)|exact S4].
Qed.
End Threads.
