(* ===== verification/DbLockMany.v ===== *)
(** * Lock sets: threads that lock several records

    The obligations of the locker: [dbLockerPrepare], [dbLockUpdateRefs], [dbScanLockMany], [dbScanUnlockMany] and
    [dbLockerFinalize] as programs of a thread among others. *)

From stdpp Require Import base gmap list sorting fin_sets relations.
From Stdlib Require Import ZArith Lia Bool.
From S2P Require Import Prelude DbLock DbLockInv DbLocker DbLockSets DbLockGraph DbLockProg DbLockConc DbLockSteps DbLockMoves DbLockThreads.
Open Scope Z_scope.

(** What a thread with a locker holds: [h] references, the mutexes of [D], the sets its references had; and what it has
    in hand of links and flags. *)
Definition lkx (i : lockerid) (h : addr -> Z) (D : list addr) (snap : option (Z * list (recid * addr)))
    (c : list addr) (f : list recid) (d : list linkid) : own :=
  mkOwn h (fun x => if decide (x ∈ D) then Some (0%nat, Some i) else None) [] [] snap c f d.
Abbreviation lko i h D snap := (lkx i h D snap [] [] []).

Lemma lko_ext i h h' D D' snap c f d : (forall x, h x = h' x) -> (forall x, x ∈ D <-> x ∈ D') ->
  lkx i h D snap c f d = lkx i h' D' snap c f d.
Proof.
  intros Hh HD. apply own_ext; try done. intros x. simpl.
  destruct (decide (x ∈ D)), (decide (x ∈ D')); naive_solver.
Qed.

(** Every reference to a record has a set. *)
Definition full (ref : lockRecordRef) : Prop :=
  match plr ref with None => rset ref = None | Some _ => is_Some (rset ref) end.
Definition covers (l : list (recid * addr)) (rs : list lockRecordRef) : Prop :=
  forall ref r x, ref ∈ rs -> plr ref = Some r -> rset ref = Some x -> (r, x) ∈ l.

Section Many.
Context (K : Z) (lim : option Z) (t : tid) (i : lockerid).

Abbreviation safe_t := (safe K lim t).
Abbreviation none := (fun _ : addr => False).

Lemma locks_lko h D snap c f d x : locks (lkx i h D snap c f d) x <-> x ∈ D.
Proof. unfold locks. simpl. destruct (decide (x ∈ D)); naive_solver. Qed.

Lemma stays_none L st st' : stays L st st' -> stays none st st'.
Proof. intros S. by eapply stays_mono. Qed.

(** ** [dbLockUpdateRefs] with update *)

Definition one (a : option addr) (y : addr) : Z := if decide (a = Some y) then 1 else 0.

(** What a thread remembers when it has read one more record. *)
Lemma snap_more os j st1 o o2 c l r x : cinv K os st1 -> os !! j = Some (t, o) -> osnap o = Some (c, l) -> plock st1 r = Some x ->
  (forall p, p ∈ opend o -> p ∈ opend o2) ->
  forall c' l', Some (c, l ++ [(r, x)]) = Some (c', l') -> c' <= recomputeCnt st1 /\
    (recomputeCnt st1 = c' -> forall q y, (q, y) ∈ l' -> plock st1 q = Some y \/ pending (<[j := (t, o2)]> os) (q, y)).
Proof.
  intros I Hj Hs Hp Ho c' l' [= <- <-]. destruct (ti_snap _ _ _ _ _ (own_inv K os st1 I j t o Hj) c l Hs) as [Hc Hl].
  split; [done|]. intros Ec q y [Hq|Hq]%elem_of_app.
  - destruct (Hl Ec q y Hq) as [|Hpd]; [by left|right]. apply (pending_keep os j t o Hj); [apply Ho|exact Hpd].
  - apply list_elem_of_singleton in Hq as [= -> ->]. by left.
Qed.

(** The part under the spin lock of the record. *)
Lemma ref_check_safe old r h c l st : is_Some (lrs st !! r) -> (forall y, 0 <= h y < K) ->
  safe_t (sec (ref_check true r old)) (lko i h [] (Some (c, l))) st (fun a o' st' => exists x,
    a = (bool_decide (old ≠ Some x), Some x) /\
    o' = lko i (fun y => h y + (if decide (old = Some x) then 0 else one (Some x) y)) [] (Some (c, l ++ [(r, x)])) /\
    stays none st st').
Proof.
  intros Hlr Hh os j st1 Hj I Hr Hw. set (o := lko i h [] (Some (c, l))) in *. apply (re_dom _ _ _ Hr) in Hlr.
  destruct (lr_plock st1 r Hlr) as (x & Eg & Hp). unfold ref_check. rewrite Eg. cbn [ebind].
  pose proof (rely_stays _ _ _ Hr) as S1. apply stays_none in S1.
  pose proof (fun o2 => snap_more os j st1 o o2 c l r x I Hj eq_refl Hp) as Hsnap.
  destruct (decide (old = Some x)) as [Eold|Nold].
  - eexists. split; [apply (know_step K os st1 I j t o Hj (lko i h [] (Some (c, l ++ [(r, x)])))); try done|].
    + intros c' l' Hs. destruct (Hsnap o (fun p H => H) c' l' Hs) as [? Hl]. split; [done|].
      intros Ec q y Hq. destruct (Hl Ec q y Hq) as [|Hpd]; [by left|right]. by rewrite list_insert_id in Hpd.
    + exists x. rewrite bool_decide_false by tauto. split; [by rewrite Eold|].
      split; [|done]. apply lko_ext; [|done]. intros. rewrite decide_True by done. lia.
  - destruct (plock_set K t os j o st1 r x I Hj Hp) as (s & E & Hin).
    assert (Hne : lockRecordList s ≠ []) by (intros H0; rewrite H0 in Hin; by apply not_elem_of_nil in Hin).
    destruct (incref_moves K t os j o st1 x s I Hj E (Hh x)) as (Ea & Hc & M); [by right|].
    unfold dbLockIncRef. rewrite Ea. simpl. rewrite (proj2 (Z.ltb_lt _ _)) by lia. simpl.
    eexists. split; [apply (moves_ghost K t os j o _ (lko i (hadd h x 1) [] (Some (c, l ++ [(r, x)]))) _ _ Hj M); try done|].
    + intros c' l' Hs. apply (Hsnap (o_ref o x 1)); done.
    + exists x. rewrite bool_decide_true by done. split; [done|].
      split; [|transitivity st1; [done|by eapply put_stays]]. apply lko_ext; [|done].
      intros y. rewrite decide_False by done. unfold hadd, one. destruct (decide (y = x)), (decide (Some x = Some y)); naive_solver lia.
Qed.

Lemma update_ref_safe ref r h c l st : plr ref = Some r -> is_Some (lrs st !! r) -> (forall y, 0 <= h y < K) ->
  (forall x, rset ref = Some x -> 1 <= h x) ->
  safe_t (p_update_ref t true ref) (lko i h [] (Some (c, l))) st (fun a o' st' => exists x,
    a = (bool_decide (rset ref ≠ Some x), mkRef (Some r) (Some x)) /\
    o' = lko i (fun y => h y - one (rset ref) y + one (Some x) y) [] (Some (c, l ++ [(r, x)])) /\ stays none st st').
Proof.
  intros Er Hlr Hh Hold. unfold p_update_ref. rewrite Er.
  eapply safe_bind; [by apply (ref_check_safe (rset ref) r h c l st)|]. intros a o' st1 (x & -> & -> & S1). cbn [fst snd].
  set (h1 := fun y => h y + (if decide (rset ref = Some x) then 0 else one (Some x) y)).
  eapply safe_bind with (Q' := fun _ o' st' => o' = lko i (fun y => h y - one (rset ref) y + one (Some x) y) []
    (Some (c, l ++ [(r, x)])) /\ stays none st st').
  - destruct (rset ref) as [x0|] eqn:E0; cbn [negb andb].
    + destruct (decide (x0 = x)) as [->|N].
      * rewrite bool_decide_false by (intros []; done). simpl. split; [|done].
        apply lko_ext; [|done]. intros y. unfold h1, one. repeat destruct (decide _); simplify_eq; lia.
      * rewrite bool_decide_true by congruence. cbn [andb]. pose proof (Hold x0 eq_refl). pose proof (Hh x0).
        assert (Hh1 : 0 < h1 x0) by (unfold h1, one; repeat destruct (decide _); simplify_eq; lia).
        eapply safe_mono; [apply (decref_safe K lim t x0)|];
          [exact Hh1|by left|apply not_elem_of_nil|intros; apply not_elem_of_nil|done|lia|].
        intros _ o' st2 [-> S2]. split; [|transitivity st1; [done|by eapply stays_none]].
        apply own_ext; try done. intros y. simpl. unfold h1, hadd, one.
        repeat destruct (decide _); simplify_eq; lia.
    + simpl. split; [|done]. apply lko_ext; [|done]. intros y. unfold h1, one.
      repeat destruct (decide _); simplify_eq; lia.
  - intros _ o' st2 [-> S2]. simpl. exists x. done.
Qed.

Lemma update_loop_safe rs : forall e c l changed st,
  (forall y, 0 <= e y /\ e y + zlen rs < K) -> (forall ref r, ref ∈ rs -> plr ref = Some r -> is_Some (lrs st !! r)) ->
  (forall ref, ref ∈ rs -> plr ref = None -> rset ref = None) ->
  safe_t (p_update_loop t true changed rs) (lko i (fun y => e y + nref rs y) [] (Some (c, l))) st
    (fun a o' st' => exists l', o' = lko i (fun y => e y + nref a.2 y) [] (Some (c, l ++ l')) /\ covers l' a.2 /\
      map plr a.2 = map plr rs /\ Forall full a.2 /\ (a.1 = false -> changed = false /\ a.2 = rs) /\ stays none st st').
Proof.
  induction rs as [|ref rs IH]; intros e c l changed st He Hlr Hnone; cbn [p_update_loop].
  { exists []. rewrite app_nil_r. split; [done|]. split; [by intros ? ? ? ?%not_elem_of_nil|].
    split; [done|]. split; [constructor|]. split; [done|]. apply stays_preorder. }
  pose proof (fun y => He y) as He'. simpl length in He'.
  destruct (plr ref) as [r|] eqn:Er.
  - eapply safe_bind; [apply (update_ref_safe ref r); [done|by eapply Hlr; [left|]| |]|].
    { intros y. destruct (He' y). simpl. pose proof (nref_nonneg rs y). pose proof (nref_le rs y).
      destruct (decide _); lia. }
    { intros x Ex. simpl. rewrite Ex, decide_True by done. pose proof (nref_nonneg rs x). destruct (He' x). lia. }
    intros a o' st1 (x & -> & -> & S1). cbn [negb]. rewrite andb_false_r. set (ref' := mkRef (Some r) (Some x)).
    replace (lko _ _ [] _) with (lko i (fun y => (e y + one (Some x) y) + nref rs y) [] (Some (c, l ++ [(r, x)]))).
    2: { apply lko_ext; [|done]. intros y. simpl. unfold one. lia. }
    eapply safe_bind; [apply IH|].
    + intros y. destruct (He' y). unfold one. destruct (decide _); lia.
    + intros ref0 r0 Hin E0. apply (sy_dom _ _ _ S1). eapply Hlr; [by right|done].
    + intros ref0 Hin. apply Hnone. by right.
    + intros [ch rs'] o' st2 (l' & -> & Hc & Hp & Hf & Heq & S2). exists ((r, x) :: l'). simpl in *.
      split; [|split; [|split; [by rewrite Hp, Er|split; [|split]]]].
      * rewrite <- app_assoc. apply lko_ext; [|done]. intros y. unfold one. lia.
      * intros ref0 r0 x0 [->|Hin]%elem_of_cons E1 E2; [simpl in *; injection E1 as <-; injection E2 as <-; by left|].
        right. by eapply Hc.
      * constructor; [by eexists|done].
      * intros ->. destruct (Heq eq_refl) as [Hch ->]. apply orb_false_iff in Hch as [-> Hst].
        apply bool_decide_eq_false in Hst. split; [done|]. f_equal. unfold ref'. destruct ref as [p q]. simpl in *.
        destruct (decide (q = Some x)); [congruence|done].
      * by transitivity st1.
  - assert (Hn : rset ref = None) by (apply Hnone; [left|done]).
    eapply safe_bind with (Q' := fun a o' st' => a = (false, ref) /\
      o' = lko i (fun y => e y + nref (ref :: rs) y) [] (Some (c, l)) /\ st' = st).
    { unfold p_update_ref. rewrite Er, Hn. done. }
    intros a o' st1 (-> & -> & ->). cbn [negb andb]. rewrite orb_false_r.
    replace (lko i (fun y => e y + nref (ref :: rs) y) [] (Some (c, l))) with (lko i (fun y => e y + nref rs y) [] (Some (c, l))).
    2: { apply lko_ext; [|done]. intros y. simpl. rewrite Hn, decide_False by done. lia. }
    eapply safe_bind; [apply IH|].
    + intros y. destruct (He' y). lia.
    + intros ref0 r0 Hin. apply Hlr. by right.
    + intros ref0 Hin. apply Hnone. by right.
    + intros [ch rs'] o' st2 (l' & -> & Hc & Hp & Hf & Heq & S2). exists l'. simpl in *.
      split; [|split; [|split; [by rewrite Hp|split; [|split; [|done]]]]].
      * apply lko_ext; [|done]. intros y. rewrite Hn, decide_False by done. lia.
      * intros ref0 r0 x0 [->|Hin]%elem_of_cons E1 E2; [congruence|]. by eapply Hc.
      * constructor; [|done]. unfold full. by rewrite Er.
      * intros ->. destruct (Heq eq_refl) as [-> ->]. done.
Qed.

(** What a locker knows of its references: they are in order, and as long as [recomputeCnt] is [recomp] they
    are those of the records. *)
Record knows (lk : dbLocker) (snap : option (Z * list (recid * addr))) : Prop := {
  kn_full : Forall full (refs lk);
  kn_sorted : StronglySorted ref_le (refs lk);
  kn_snap : exists l, snap = Some (recomp lk, l) /\ covers l (refs lk)
}.

(** The records of a locker. *)
Definition recs_there st (lk : dbLocker) : Prop := forall ref r, ref ∈ refs lk -> plr ref = Some r -> is_Some (lrs st !! r).

Lemma there_stays L st st' lk lk' : stays L st st' -> map plr (refs lk') ≡ₚ map plr (refs lk) ->
  recs_there st lk -> recs_there st' lk'.
Proof.
  intros S P H ref r Hin E. apply (sy_dom _ _ _ S).
  assert (Hr : Some r ∈ map plr (refs lk)) by (rewrite <- P; apply list_elem_of_fmap; eauto).
  apply list_elem_of_fmap in Hr as (ref' & E' & Hin'). by eapply H.
Qed.

Lemma safe_get_roomy {X} (f : lk_state -> lk_fault + X) o st (Q : X -> own -> lk_state -> Prop) :
  (forall os j st1, os !! j = Some (t, o) -> cinv K os st1 -> rely o st st1 -> fits lim st1 ->
    exists v o2, f st1 = inr v /\ moves K os j t o o2 st1 st1 /\ Q v o2 st1) -> safe_t (get f) o st Q.
Proof.
  intros H os j st1 Hj I Hr Hw. destruct (H os j st1 Hj I Hr Hw) as (v & o2 & -> & M & HQ). simpl. eauto.
Qed.

(** Either the references are known, or [recomp] is no value [recomputeCnt] will have. *)
Definition known lk snap st : Prop := knows lk snap \/
  (Forall (fun ref => rset ref = None) (refs lk) /\ (recomp lk < recomputeCnt st \/ recomp lk = 2 ^ 64 - 1)).

Lemma sorted_unset rs : Forall (fun ref => rset ref = None) rs -> StronglySorted ref_le rs.
Proof.
  induction 1 as [|ref rs E Hrs IH]; constructor; [done|]. eapply Forall_impl; [exact Hrs|].
  intros x Ex. simpl in *. unfold ref_le, lrrcompare. rewrite E, Ex. lia.
Qed.

Lemma update_refs_safe lk snap st : known lk snap st -> recs_there st lk -> zlen (refs lk) < K ->
  safe_t (p_dbLockUpdateRefs t lk true) (lko i (nref (refs lk)) [] snap) st
    (fun a o' st' => exists snap', knows a.2 snap' /\ o' = lko i (nref (refs a.2)) [] snap' /\
      locked a.2 = locked lk /\ me_locker a.2 = me_locker lk /\ map plr (refs a.2) ≡ₚ map plr (refs lk) /\
      recomputeCnt st <= recomp a.2 /\ stays none st st').
Proof.
  intros Hk Hth HK. unfold p_dbLockUpdateRefs.
  eapply safe_bind with (Q' := fun cnt o' st' => stays none st st' /\ recomputeCnt st <= cnt /\
    ((recomp lk = cnt /\ knows lk snap /\ o' = lko i (nref (refs lk)) [] snap) \/
     (recomp lk ≠ cnt /\ o' = lko i (nref (refs lk)) [] (Some (cnt, []))))).
  { apply safe_get_roomy. intros os j st1 Hj I Hr [[_ Hw] _]. pose proof (re_cnt _ _ _ Hr).
    pose proof (stays_none _ _ _ (rely_stays _ _ _ Hr)) as S1.
    destruct (decide (recomp lk = recomputeCnt st1)) as [E|N].
    - exists (recomputeCnt st1). eexists. split; [done|]. split; [by apply idle_step|]. split; [done|]. split; [done|]. left.
      split; [done|]. destruct Hk as [Hk|[_ [?|?]]]; [done|lia|lia].
    - exists (recomputeCnt st1). eexists. split; [done|]. split; [|split; [done|split; [done|by right]]].
      apply (know_step K os st1 I j t _ Hj (lko i (nref (refs lk)) [] (Some (recomputeCnt st1, [])))); try done.
      intros c l [= <- <-]. split; [done|]. by intros _ r x ?%not_elem_of_nil. }
  intros cnt o' st1 (S1 & Hcnt & Hor).
  assert (Hu : forall ref, ref ∈ refs lk -> plr ref = None -> rset ref = None).
  { intros ref Hin E. destruct Hk as [Hk|[Hk _]].
    - pose proof (proj1 (Forall_forall _ _) (kn_full _ _ Hk) ref Hin) as Hf. unfold full in Hf. by rewrite E in Hf.
    - exact (proj1 (Forall_forall _ _) Hk ref Hin). }
  assert (Hs : StronglySorted ref_le (refs lk)) by (destruct Hk as [Hk|[Hk _]]; [apply Hk|by apply sorted_unset]).
  eapply safe_bind with (Q' := fun a o' st' => exists snap' l, o' = lko i (nref (refs a.2)) [] snap' /\
    snap' = Some (recomp a.2, l) /\ covers l (refs a.2) /\ Forall full (refs a.2) /\
    (a.1 = false -> StronglySorted ref_le (refs a.2)) /\ locked a.2 = locked lk /\ me_locker a.2 = me_locker lk /\
    map plr (refs a.2) = map plr (refs lk) /\ recomputeCnt st <= recomp a.2 /\ stays none st st').
  - destruct Hor as [(<- & Hkn & ->)|(N & ->)].
    + rewrite Z.eqb_refl. destruct (kn_snap _ _ Hkn) as (l & -> & Hc). simpl. exists (Some (recomp lk, l)), l.
      split; [done|]. split; [done|]. split; [done|]. split; [apply Hkn|]. done.
    + rewrite (proj2 (Z.eqb_neq _ _) N).
      replace (lko i (nref (refs lk)) [] (Some (cnt, []))) with (lko i (fun y => 0 + nref (refs lk) y) [] (Some (cnt, [])))
        by (by apply lko_ext).
      eapply safe_bind; [apply update_loop_safe|].
      * intros y. lia.
      * intros ref r Hin E. apply (sy_dom _ _ _ S1). by eapply Hth.
      * done.
      * intros [ch rs] o' st2 (l & -> & Hc & Hp & Hf & Heq & S2). simpl in *. exists (Some (cnt, l)), l.
        split; [by apply lko_ext|]. do 3 (split; [done|]). split; [|do 4 (split; [done|]); by transitivity st1].
        intros ->. by destruct (Heq eq_refl) as [_ ->].
  - intros [ch lk1] o1 st2 (snap' & l & -> & -> & Hc & Hf & Hso & El & Em & Hp & Hrc & S2). cbn [fst snd] in *.
    rewrite andb_true_r. destruct ch; simpl.
    + exists (Some (recomp lk1, l)). pose proof (merge_sort_Permutation ref_le (refs lk1)) as P.
      split; [split; simpl|split; [|split; [done|split; [done|split; [|by split]]]]].
      * by rewrite P.
      * apply StronglySorted_merge_sort; apply _.
      * exists l. split; [done|]. intros ref r x Hin. rewrite P in Hin. by apply Hc.
      * apply lko_ext; [|done]. intros y. simpl. symmetry. by apply nref_perm.
      * simpl. by rewrite P, Hp.
    + exists (Some (recomp lk1, l)). split; [split; eauto|]. do 3 (split; [done|]). split; [by rewrite Hp|by split].
Qed.

(** ** [dbLockUpdateRefs] without update *)

(** The references are those of the records. *)
Definition current st (rs : list lockRecordRef) : Prop :=
  forall ref r, ref ∈ rs -> plr ref = Some r -> exists x, rset ref = Some x /\ plock st r = Some x.

Lemma check_loop_safe h D snap rs : forall st, Forall full rs ->
  (forall ref r, ref ∈ rs -> plr ref = Some r -> is_Some (lrs st !! r)) ->
  (forall ref x, ref ∈ rs -> rset ref = Some x -> x ∈ D) ->
  safe_t (p_update_loop t false false rs) (lko i h D snap) st (fun a o' st' =>
    a.2 = rs /\ o' = lko i h D snap /\ (a.1 = false -> current st' rs) /\ stays (fun x => x ∈ D) st st').
Proof.
  set (o := lko i h D snap). assert (HD : forall x, x ∈ D -> locks o x) by (intros x; apply locks_lko).
  induction rs as [|ref rs IH]; intros st Hf Hlr Hin; cbn [p_update_loop].
  { do 3 (split; [try done; by intros ? ? ? ?%not_elem_of_nil|]). apply stays_preorder. }
  apply Forall_cons in Hf as [Hfr Hf].
  eapply safe_bind with (Q' := fun a o' st' => a.2 = ref /\ o' = o /\
    (a.1 = false -> forall r, plr ref = Some r -> exists x, rset ref = Some x /\ plock st' r = Some x) /\
    stays (fun x => x ∈ D) st st').
  { unfold p_update_ref, full in *. destruct (plr ref) as [r|] eqn:Er.
    - eapply safe_bind with (Q' := fun a o' st' => a.2 = rset ref /\ o' = o /\
        (a.1 = false -> exists x, rset ref = Some x /\ plock st' r = Some x) /\ stays (fun x => x ∈ D) st st').
      + intros os j st1 Hj I Hr Hw. assert (Hl : is_Some (lrs st1 !! r)) by (apply (re_dom _ _ _ Hr); eapply Hlr; [by left|done]).
        destruct (lr_plock st1 r Hl) as (x & Eg & Hp). unfold ref_check. rewrite Eg. cbn [ebind].
        assert (S1 : stays (fun x => x ∈ D) st st1) by (eapply stays_mono; [by apply rely_stays|done]).
        destruct (decide (rset ref = Some x)) as [E|N]; exists o;
          (split; [by apply idle_step|]); split; try done; split; try done; split; try done. by eexists.
      + intros [stale ls] o' st1 (E2 & -> & Hc & S1). simpl in E2, Hc. subst ls.
        destruct ref as [p q]. simpl in *. subst p.
        destruct q; rewrite ?andb_false_r; simpl; (do 2 (split; [done|])); (split; [|done]); intros H r' [= <-]; auto.
    - rewrite Hfr. simpl. done. }
  intros [stale ref'] o' st1 (E2 & -> & Hc & S1). simpl in E2, Hc. subst ref'. cbn [negb]. rewrite andb_true_r.
  destruct stale.
  - simpl. do 3 (split; [done|]). done.
  - simpl orb. eapply safe_bind; [apply (IH st1)|].
    + done.
    + intros ref0 r0 H0 E0. apply (sy_dom _ _ _ S1). eapply Hlr; [by right|done].
    + intros ref0 x0 H0. apply Hin. by right.
    + intros [c rs'] o' st2 (E2 & -> & Hc2 & S2). simpl in E2, Hc2. subst rs'. simpl. do 2 (split; [done|]).
      split; [|by transitivity st1]. intros -> ref0 r0 [->|H0]%elem_of_cons E0; [|by apply Hc2].
      destruct (Hc eq_refl r0 E0) as (x & Ex & Hp). exists x. split; [done|].
      apply (sy_lr _ _ _ S2); [done|]. eapply Hin; [by left|done].
Qed.

Lemma check_refs_safe lk snap h D st : knows lk snap -> recs_there st lk ->
  (forall ref x, ref ∈ refs lk -> rset ref = Some x -> x ∈ D) ->
  safe_t (p_dbLockUpdateRefs t lk false) (lko i h D snap) st (fun a o' st' =>
    a.2 = lk /\ o' = lko i h D snap /\ (a.1 = false -> current st' (refs lk)) /\
    (a.1 = true -> exists c, recomp lk < c <= recomputeCnt st' /\ below lim c) /\ stays (fun x => x ∈ D) st st').
Proof.
  intros Hk Hth Hin. unfold p_dbLockUpdateRefs. set (o := lko i h D snap).
  assert (HD : forall x, x ∈ D -> locks o x) by (intros x; apply locks_lko).
  eapply safe_bind with (Q' := fun cnt o' st' => o' = o /\ (recomp lk = cnt -> current st' (refs lk)) /\
    recomp lk <= cnt <= recomputeCnt st' /\ below lim cnt /\ stays (fun x => x ∈ D) st st').
  { apply safe_get_roomy. intros os j st1 Hj I Hr [_ Hw]. eexists. exists o. split; [done|]. split; [by apply idle_step|]. split; [done|].
    split; [|split; [|split; [done|eapply stays_mono; [by apply rely_stays|done]]]].
    2: { destruct (kn_snap _ _ Hk) as (l & Es & _). destruct (ti_snap _ _ _ _ _ (own_inv K os st1 I j t o Hj) (recomp lk) l Es). done. }
    intros E ref r H1 E1.
    pose proof (proj1 (Forall_forall _ _) (kn_full _ _ Hk) ref H1) as Hf. unfold full in Hf. rewrite E1 in Hf.
    destruct Hf as [x Ex]. exists x. split; [done|]. destruct (kn_snap _ _ Hk) as (l & Es & Hc).
    destruct (ti_snap _ _ _ _ _ (own_inv K os st1 I j t o Hj) (recomp lk) l Es) as [_ Hl].
    destruct (Hl (eq_sym E) r x (Hc ref r x H1 E1 Ex)) as [|(t' & o' & Ho' & Hp)]; [done|exfalso].
    pose proof (HD x (Hin ref x H1 Ex)) as L. pose proof (ti_pend _ _ _ _ _ (ci_each _ _ _ I _ _ Ho') _ _ Hp) as L'.
    rewrite (held_once K os st1 I j t o Hj x t' o' L Ho' L') in Hp. by apply not_elem_of_nil in Hp. }
  intros cnt o' st1 (-> & Hc & Hcnt & Hb & S1).
  eapply safe_bind with (Q' := fun a o' st' => a.2 = lk /\ o' = o /\ (a.1 = false -> current st' (refs lk)) /\
    (a.1 = true -> exists c, recomp lk < c <= recomputeCnt st' /\ below lim c) /\ stays (fun x => x ∈ D) st st').
  - destruct (Z.eqb_spec (recomp lk) cnt) as [E|N]; [simpl; do 2 (split; [done|]); split; [by intros _; apply Hc|by split]|].
    eapply safe_bind; [apply (check_loop_safe h D snap (refs lk) st1)|].
    + apply Hk.
    + intros ref r H1 E1. apply (sy_dom _ _ _ S1). by eapply Hth.
    + done.
    + intros [c rs] o' st2 (E2 & -> & Hc2 & S2). simpl in E2, Hc2. subst rs. split; [by destruct lk|].
      do 2 (split; [done|]). split; [|by transitivity st1]. intros _. exists cnt. pose proof (sy_cnt _ _ _ S2). split; [lia|done].
  - intros [c lk'] o' st2 (E2 & -> & Hc2 & S2). simpl in E2, Hc2. subst lk'. rewrite andb_false_r. by split.
Qed.
End Many.
