(* ===== verification/DbLockHold.v ===== *)
(** * Lock sets: threads that hold the sets of a locker

    [dbScanLockMany], [dbScanUnlockMany], [dbLockerPrepare] and [dbLockerFinalize] as programs of a thread among
    others.  The sets are locked in the order of their addresses. *)

From stdpp Require Import base gmap list sorting fin_sets relations.
From Stdlib Require Import ZArith Lia Bool.
From S2P Require Import Prelude DbLock DbLockInv DbLocker DbLockSets DbLockGraph DbLockProg DbLockConc DbLockSteps DbLockMoves DbLockThreads DbLockMany.
Open Scope Z_scope.

Lemma lko_ref i h D snap c f d x n : o_ref (lkx i h D snap c f d) x n = lkx i (hadd h x n) D snap c f d.
Proof. done. Qed.

Lemma lko_lock i h D snap c f d x :
  o_lock (lkx i h D snap c f d) x (Some (0%nat, Some i)) = lkx i h (x :: D) snap c f d.
Proof.
  apply own_ext; try done. intros y. simpl. destruct (decide (y = x)) as [->|N].
  - rewrite decide_True; [done|by left].
  - destruct (decide (y ∈ D)) as [H|H]; [rewrite decide_True; [done|by right]|].
    rewrite decide_False; [done|]. by intros [?|?]%elem_of_cons.
Qed.

Lemma lko_unlock i h D D' snap c f d x : (forall y, y ∈ D' <-> y ∈ D /\ y ≠ x) ->
  o_lock (lkx i h D snap c f d) x None = lkx i h D' snap c f d.
Proof.
  intros HD. apply own_ext; try done. intros y. simpl. pose proof (HD y).
  destruct (decide (y = x)), (decide (y ∈ D)), (decide (y ∈ D')); naive_solver.
Qed.

Section Hold.
Context (K : Z) (lim : option Z) (t : tid) (i : lockerid).

Abbreviation safe_t := (safe K lim t).
Abbreviation none := (fun _ : addr => False).

Lemma stays_D D h snap c f d st st' : stays (locks (lkx i h D snap c f d)) st st' -> stays (fun x => x ∈ D) st st'.
Proof. intros S. eapply stays_mono; [exact S|]. intros x Hx. by apply locks_lko. Qed.

(** ** The owner of a set *)

Lemma get_owner_safe x o st n w : olock o x = Some (n, w) ->
  safe_t (get (get_owner x)) o st (fun v o' st' => v = w /\ o' = o /\ stays (locks o) st st').
Proof.
  intros Hl. apply safe_get. intros os j st1 Hj I Hr.
  destruct (own_some K t os j o st1 x I Hj) as [s E]; [right; congruence|].
  destruct (mine_spec K os st1 I j t o Hj x s n w E Hl) as (_ & Ew & _).
  exists w. unfold get_owner, get_set. rewrite E. simpl. rewrite Ew. do 3 (split; [done|]). by apply rely_stays.
Qed.

Lemma put_owner_safe x o st n w v : olock o x = Some (n, w) -> 0 < oref o x ->
  safe_t (upd (put_owner x v)) o st (fun _ o' st' => o' = o_lock o x (Some (n, v)) /\ stays (locks o) st st').
Proof.
  intros Hl Ho os j st1 Hj I Hr Hw.
  destruct (own_some K t os j o st1 x I Hj) as [s E]; [left; lia|].
  destruct (in_use K os st1 I j t o Hj x s E ltac:(lia)) as [Hpos _].
  destruct (mine_spec K os st1 I j t o Hj x s n w E Hl) as (L & _ & M).
  unfold put_owner, get_set. rewrite E. simpl. set (s' := with_owner s v).
  exists (o_lock o x (Some (n, v))). split; [|split; [done|by eapply stays_step]].
  replace (Some (n, v)) with (my_lock t s') by (unfold my_lock; simpl; by rewrite L, decide_True).
  apply (mutex_step K os st1 I j t o Hj x s s'); simpl; rewrite ?L; try done; try tauto; try lia.
  intros t' m [= _ <-]. lia.
Qed.

(** ** Taking a set *)

Lemma take_set_safe x h D snap st : 1 <= h x < K -> (forall y, y ∈ D -> (y < x)%positive) ->
  safe_t (p_take_set t i x) (lko i h D snap) st
    (fun _ o' st' => o' = lko i (hadd h x 1) (x :: D) snap /\ stays (fun y => y ∈ D) st st').
Proof.
  intros Hh HD. set (o := lko i h D snap).
  assert (Nx : x ∉ D) by (intros Hx; specialize (HD x Hx); lia).
  assert (Hl : olock o x = None) by (simpl; by rewrite decide_False).
  unfold p_take_set. eapply safe_bind; [apply lock_safe; [simpl; lia|]|].
  { intros y Hy%locks_lko. specialize (HD y Hy). lia. }
  intros _ o' st1 [-> S1]. apply stays_D in S1. rewrite Hl. cbn [bump].
  set (o1 := o_lock o x (Some (0%nat, None))).
  assert (L1 : olock o1 x = Some (0%nat, None)) by (simpl; by rewrite decide_True).
  assert (HS : forall st st', stays (locks o1) st st' -> stays (fun y => y ∈ D) st st').
  { intros sa sb S. eapply stays_mono; [exact S|]. intros y Hy. unfold o1. apply locks_lock; [done|].
    by apply locks_lko. }
  eapply safe_bind; [by eapply get_owner_safe|]. intros v o' st2 (-> & -> & S2%HS).
  cbn [p_assert bind]. eapply safe_bind; [apply (put_owner_safe x o1 st2 0 None (Some i)); [done|simpl; lia]|].
  intros _ o' st3 (-> & S3%HS). unfold o1. rewrite o_lock_lock. unfold o. rewrite lko_lock.
  eapply safe_mono; [apply incref_safe; [simpl; lia|left; simpl; lia]|].
  intros _ o' st4 (-> & S4). rewrite lko_ref. split; [done|].
  transitivity st1; [done|]. transitivity st2; [done|]. transitivity st3; [done|].
  apply stays_D in S4. eapply stays_mono; [exact S4|]. intros y Hy. by right.
Qed.

(** ** [dbScanLockMany]: the loop that locks *)

Lemma plus_in_mem (h : addr -> Z) D D' x : (forall y, y ∈ D <-> y ∈ D') -> plus_in h D x = plus_in h D' x.
Proof. intros HD. pose proof (HD x). unfold plus_in. destruct (decide (x ∈ D)), (decide (x ∈ D')); naive_solver. Qed.

Definition taken plock (rs : list lockRecordRef) (D : list addr) : Prop :=
  NoDup D /\ forall y, y ∈ D <-> plock ≠ Some y /\ exists ref, ref ∈ rs /\ rset ref = Some y.

Lemma taken_skip plock rs ref D : rset ref = None \/ rset ref = plock ->
  taken plock rs D -> taken plock (ref :: rs) D.
Proof.
  intros Hr [Nd HD]. split; [done|]. intros y. rewrite HD. setoid_rewrite elem_of_cons. split.
  - intros (? & r & ? & ?). eauto 6.
  - intros (? & r & [->|?] & ?); [|eauto]. destruct Hr; congruence.
Qed.

Lemma taken_next plock rs ref D x : rset ref = Some x -> plock ≠ Some x ->
  (forall r y, r ∈ rs -> rset r = Some y -> plock ≠ Some y) ->
  taken (Some x) rs D -> taken plock (ref :: rs) (x :: D).
Proof.
  intros Ex Nx Hn [Nd HD]. split; [constructor; [rewrite HD; by intros [? _]|done]|].
  intros y. rewrite elem_of_cons, HD. setoid_rewrite elem_of_cons. split.
  - intros [->|(? & r & ? & ?)]; [split; [done|]; eauto|]. split; [|eauto]. by eapply Hn.
  - intros (? & r & [->|?] & Ey); [left; congruence|]. destruct (decide (y = x)); [by left|right].
    split; [congruence|eauto].
Qed.

Lemma lock_loop_safe rs : forall plock D0 h lk snap st, me_locker lk = i ->
  Forall full rs -> StronglySorted ref_le rs -> (forall p, plock = Some p -> p ∈ D0) ->
  (forall ref y, ref ∈ rs -> rset ref = Some y ->
     plock = Some y \/ (1 <= h y < K /\ forall p, p ∈ D0 -> (p < y)%positive)) ->
  safe_t (p_lock_loop t plock rs lk) (lko i h D0 snap) st (fun lk' o' st' => exists D,
    lk' = with_locked lk (locked lk ++ D) /\ taken plock rs D /\
    o' = lko i (plus_in h D) (D ++ D0) snap /\ stays (fun x => x ∈ D0) st st').
Proof.
  induction rs as [|ref rs IH]; intros plock D0 h lk snap st Em Hf Hs Hp Hr; cbn [p_lock_loop].
  { exists []. rewrite app_nil_r. split; [by destruct lk|]. split; [split; [constructor|]|].
    - intros y. split; [by intros ?%not_elem_of_nil|]. by intros (_ & ? & ?%not_elem_of_nil & _).
    - split; [|done]. apply lko_ext; [|done]. intros x. unfold plus_in.
      destruct (decide _) as [?%not_elem_of_nil|]; [done|lia]. }
  apply Forall_cons in Hf as [Hfr Hf]. apply StronglySorted_inv in Hs as [Hs Hle].
  assert (Skip : rset ref = None \/ rset ref = plock ->
    safe_t (p_lock_loop t plock rs lk) (lko i h D0 snap) st (fun lk' o' st' => exists D,
      lk' = with_locked lk (locked lk ++ D) /\ taken plock (ref :: rs) D /\
      o' = lko i (plus_in h D) (D ++ D0) snap /\ stays (fun x => x ∈ D0) st st')).
  { intros Hskip. eapply safe_mono; [apply IH; try done; intros r y Hin; apply (Hr r y); by right|].
    intros lk' o' st' (D & E & T & H). exists D. split; [done|]. split; [by apply taken_skip|done]. }
  unfold full in Hfr. destruct (plr ref) as [r0|]; [|auto].
  destruct Hfr as (x & Ex). rewrite Ex. destruct (decide (plock = Some x)) as [->|Nx].
  { rewrite !bool_decide_true by done. simpl. rewrite Ex in *. auto. }
  replace (bool_decide _ && _) with false
    by (symmetry; apply andb_false_intro2; by apply bool_decide_false).
  destruct (Hr ref x) as [?|[Hhx HDx]]; [by left|done|done|]. clear Skip.
  assert (Hge : forall r y, r ∈ rs -> rset r = Some y -> (x <= y)%positive).
  { intros r y Hin Ey. rewrite Forall_forall in Hle. specialize (Hle r Hin).
    unfold ref_le, lrrcompare in Hle. rewrite Ex, Ey in Hle. revert Hle. pbool; lia. }
  assert (Hnp : forall r y, r ∈ rs -> rset r = Some y -> plock ≠ Some y).
  { intros r y Hin Ey ->. specialize (HDx y (Hp y eq_refl)). specialize (Hge r y Hin Ey). lia. }
  assert (HxD : x ∉ D0) by (intros H; specialize (HDx x H); lia).
  cbn [p_the bind]. rewrite Em. eapply safe_bind; [by apply take_set_safe|].
  intros _ o' st1 [-> S1]. eapply safe_mono; [apply IH|]; try done.
  - intros p [= <-]. by left.
  - intros r y Hin Ey. specialize (Hge r y Hin Ey). destruct (decide (y = x)) as [->|N]; [by left|right].
    rewrite hadd_ne by done. destruct (Hr r y) as [Hy|[Hhy Hy]]; [by right|done| |].
    + by destruct (Hnp r y Hin Ey).
    + split; [done|]. intros p [->|Hpin]%elem_of_cons; [lia|]. specialize (HDx p Hpin). lia.
  - intros lk' o' st2 (D & -> & T & -> & S2). exists (x :: D). simpl.
    split; [by rewrite <- app_assoc|]. split; [by apply (taken_next plock rs ref D x)|]. split; [|].
    + destruct T as [_ HD]. apply lko_ext.
      * intros y. apply plus_in_cons. rewrite HD. by intros [? _].
      * intros y. rewrite !elem_of_cons, !elem_of_app, elem_of_cons. tauto.
    + transitivity st1; [done|]. eapply stays_mono; [exact S2|]. intros y Hy. by right.
Qed.

(** ** Letting go *)

Lemma lko_decref x h D snap st : 0 < h x -> x ∉ D -> 0 <= K ->
  safe_t (p_dbLockDecRef t x) (lko i h D snap) st
    (fun _ o' st' => o' = lko i (hadd h x (-1)) D snap /\ stays (fun y => y ∈ D) st st').
Proof.
  intros Hh HD HK. eapply safe_mono; [apply decref_safe; simpl; try done|].
  - left. by rewrite decide_False.
  - apply not_elem_of_nil.
  - intros. apply not_elem_of_nil.
  - intros _ o' st' [-> S]. split; [done|]. by apply stays_D in S.
Qed.

Lemma unlock_loop_safe D : forall h snap st, NoDup D -> (forall x, x ∈ D -> 0 <= h x < K) ->
  safe_t (p_unlock_loop t i D) (lko i (plus_in h D) D snap) st
    (fun _ o' st' => o' = lko i h [] snap /\ stays none st st').
Proof.
  induction D as [|x D IH]; intros h snap st Nd Hh; cbn [p_unlock_loop].
  { split; [|done]. apply lko_ext; [|done]. intros x. unfold plus_in.
    destruct (decide _) as [?%not_elem_of_nil|]; [done|lia]. }
  apply NoDup_cons in Nd as [Nx Nd]. destruct (Hh x) as [Hx1 Hx2]; [by left|].
  set (h1 := plus_in h (x :: D)). set (o := lko i h1 (x :: D) snap).
  assert (Hp : h1 x = h x + 1) by (unfold h1, plus_in; rewrite decide_True; [done|by left]).
  assert (Hl : olock o x = Some (0%nat, Some i)) by (simpl; rewrite decide_True; [done|by left]).
  eapply safe_bind; [by eapply get_owner_safe|]. intros v o' st1 (-> & -> & S1%stays_none).
  eapply safe_bind with (Q' := fun _ o' st' => o' = o /\ st' = st1).
  { apply safe_assert; [by apply bool_decide_eq_true_2|done]. }
  intros _ o' st' [-> ->].
  eapply safe_bind; [apply (put_owner_safe x o st1 0 (Some i) None Hl); simpl; lia|].
  intros _ o' st2 (-> & S2%stays_none). set (o2 := o_lock o x (Some (0%nat, None))).
  eapply safe_bind; [apply (unlock_safe K lim t x o2 st2 0 None)|].
  { simpl. by rewrite decide_True. }
  { done. }
  { simpl. lia. }
  { intros r. apply not_elem_of_nil. }
  { done. }
  intros _ o' st3 (-> & S3%stays_none).
  replace (o_lock o2 x (unbump (olock o2 x))) with (lko i h1 D snap).
  2: { simpl. rewrite decide_True by done. unfold o2. rewrite o_lock_lock. symmetry. apply lko_unlock.
       intros y. rewrite elem_of_cons. split; [intros Hy; split; [by right|congruence]|tauto]. }
  eapply safe_bind; [apply lko_decref; [lia|done|lia]|]. intros _ o' st4 (-> & S4%stays_none).
  replace (lko i (hadd h1 x (-1)) D snap) with (lko i (plus_in h D) D snap).
  2: { apply lko_ext; [|done]. intros y. unfold h1, hadd, plus_in.
       destruct (decide (y = x)) as [->|N].
       - rewrite decide_False, decide_True by (done || by left). lia.
       - destruct (decide (y ∈ D)); [rewrite decide_True; [done|by right]|].
         rewrite decide_False; [done|]. by intros [?|?]%elem_of_cons. }
  eapply safe_mono; [apply IH; [done|]|].
  - intros y Hy. apply Hh. by right.
  - intros _ o' st5 [-> S5]. split; [done|]. transitivity st1; [done|]. transitivity st2; [done|].
    transitivity st3; [done|]. by transitivity st4.
Qed.

Lemma unlock_many_safe lk h snap st : me_locker lk = i -> NoDup (locked lk) ->
  (forall x, x ∈ locked lk -> 0 <= h x < K) ->
  safe_t (p_dbScanUnlockMany t lk) (lko i (plus_in h (locked lk)) (locked lk) snap) st
    (fun lk' o' st' => lk' = with_locked lk [] /\ o' = lko i h [] snap /\ stays none st st').
Proof.
  intros Em Nd Hh. unfold p_dbScanUnlockMany. rewrite Em.
  eapply safe_bind; [by apply unlock_loop_safe|]. intros _ o' st' [-> S]. done.
Qed.

Lemma release_refs_safe rs : forall h snap st, 0 <= K -> (forall x, 0 <= h x) ->
  safe_t (p_release_refs t rs) (lko i (fun y => h y + nref rs y) [] snap) st
    (fun _ o' st' => o' = lko i h [] snap /\ stays none st st').
Proof.
  induction rs as [|ref rs IH]; intros h snap st HK Hh; cbn [p_release_refs].
  { split; [|done]. apply lko_ext; [|done]. intros x. simpl. lia. }
  pose proof (nref_nonneg rs) as Hn.
  eapply safe_bind with (Q' := fun _ o' st' => o' = lko i (fun y => h y + nref rs y) [] snap /\ stays none st st').
  { destruct (rset ref) as [x|] eqn:Ex.
    - eapply safe_mono; [apply lko_decref; [|apply not_elem_of_nil|done]|].
      + simpl. rewrite Ex, decide_True by done. specialize (Hh x). specialize (Hn x). lia.
      + intros _ o' st' [-> S]. split; [|by eapply stays_none]. apply lko_ext; [|done].
        intros y. unfold hadd. simpl. rewrite Ex. destruct (decide (y = x)) as [->|].
        * rewrite decide_True by done. lia.
        * rewrite decide_False by congruence. lia.
    - split; [|done]. apply lko_ext; [|done]. intros y. simpl. by rewrite Ex. }
  intros _ o' st1 [-> S1]. eapply safe_mono; [by apply IH|]. intros _ o' st2 [-> S2]. split; [done|].
  by transitivity st1.
Qed.

Lemma finalize_safe lk snap st : locked lk = [] -> 0 <= K ->
  safe_t (p_dbLockerFinalize t lk) (lko i (nref (refs lk)) [] snap) st
    (fun _ o' st' => o' = lko i (fun _ => 0) [] snap /\ stays none st st').
Proof.
  intros El HK. unfold p_dbLockerFinalize. rewrite El. cbn.
  by apply (release_refs_safe (refs lk) (fun _ => 0)).
Qed.

(** ** [dbScanLockMany] *)

(** A locker that holds nothing. *)
Record ready (lk : dbLocker) snap st : Prop := {
  rd_known : known lk snap st;
  rd_there : recs_there st lk;
  rd_me : me_locker lk = i;
  rd_locked : locked lk = [];
  rd_some : exists r, Some r ∈ map plr (refs lk);
  rd_room : zlen (refs lk) + 1 < K
}.

(** A locker that holds the sets of its records. *)
Record loaded_with (rs : list (option recid)) (lk : dbLocker) snap st : Prop := {
  lw_knows : knows lk snap;
  lw_me : me_locker lk = i;
  lw_nodup : NoDup (locked lk);
  lw_current : current st (refs lk);
  lw_sets : forall x, x ∈ locked lk <-> exists ref, ref ∈ refs lk /\ rset ref = Some x;
  lw_recs : map plr (refs lk) ≡ₚ rs
}.

Lemma knows_known lk snap st : knows lk snap -> known lk snap st.
Proof. by left. Qed.

Lemma lock_all_safe lk snap st : knows lk snap -> me_locker lk = i -> locked lk = [] -> zlen (refs lk) + 1 < K ->
  safe_t (p_lock_loop t None (refs lk) lk) (lko i (nref (refs lk)) [] snap) st (fun lk' o' st' => exists D,
    lk' = with_locked lk D /\ taken None (refs lk) D /\ o' = lko i (plus_in (nref (refs lk)) D) D snap /\
    stays none st st').
Proof.
  intros Hk Em El HK. eapply safe_mono; [apply lock_loop_safe; try apply Hk; try done|].
  - intros ref y Hin Ey. right. split; [|by intros p ?%not_elem_of_nil].
    pose proof (nref_le (refs lk) y). assert (1 <= nref (refs lk) y) by (apply nref_pos; eauto). lia.
  - intros lk' o' st' (D & -> & T & -> & S). exists D. rewrite El. split; [done|]. split; [done|].
    split; [|by eapply stays_none]. apply lko_ext; [done|]. intros x. by rewrite app_nil_r.
Qed.

Lemma many_retry_safe fuel : forall lk snap st c, ready lk snap st -> retries lim c fuel -> c <= recomputeCnt st -> below lim c ->
  safe_t (p_many_retry t fuel lk) (lko i (nref (refs lk)) [] snap) st (fun lk' o' st' => exists snap',
    loaded_with (map plr (refs lk)) lk' snap' st' /\
    o' = lko i (plus_in (nref (refs lk')) (locked lk')) (locked lk') snap' /\ stays none st st').
Proof.
  induction fuel as [|fuel IH]; intros lk snap st c R Hn Hcs Hcb; [by apply (retries_none _ c)|]. cbn [p_many_retry].
  destruct R as [Hk Hth Em El Hso Hro].
  eapply safe_bind with (Q' := fun _ o' st' => o' = lko i (nref (refs lk)) [] snap /\ st' = st).
  { apply safe_assert; [by rewrite El|done]. }
  intros _ o' st' [-> ->].
  eapply safe_bind; [apply update_refs_safe; [done|done|lia]|].
  intros [c1 lk1] o' st1 (snap1 & Hk1 & -> & El1 & Em1 & P1 & Hrc & S1). cbn [snd] in *.
  assert (Hlen : zlen (refs lk1) = zlen (refs lk)).
  { rewrite <- (length_map plr (refs lk1)), <- (length_map plr (refs lk)). by rewrite P1. }
  rewrite El in El1. rewrite Em in Em1.
  eapply safe_bind; [apply lock_all_safe; [done|done|done|lia]|].
  intros lk2 o' st2 (D & -> & [Nd HD] & -> & S2). set (lk2 := with_locked lk1 D).
  assert (HDin : forall x, x ∈ D <-> exists ref, ref ∈ refs lk1 /\ rset ref = Some x).
  { intros x. rewrite HD. naive_solver. }
  assert (Hk2 : knows lk2 snap1) by (destruct Hk1; by split).
  assert (S12 : stays none st st2) by (by transitivity st1).
  assert (Hth2 : recs_there st2 lk2) by (by eapply (there_stays none st)).
  eapply safe_bind; [apply (check_refs_safe K lim t i lk2 snap1 (plus_in (nref (refs lk1)) D) D st2 Hk2 Hth2)|].
  { intros ref x Hin Ex. apply HDin. eauto. }
  intros [changed lk3] o' st3 (E3 & -> & Hc & Hch & S3). cbn [fst snd] in *. subst lk3.
  assert (S13 : stays none st st3) by (transitivity st2; [done|by eapply stays_none]).
  destruct changed.
  - destruct (Hch eq_refl) as (c2 & Hc2 & Hb2). change (recomp lk2) with (recomp lk1) in Hc2.
    eapply safe_bind; [apply (unlock_many_safe lk2 (nref (refs lk1)) snap1 st3); [done|done|]|].
    { intros x Hx. pose proof (nref_le (refs lk1) x). pose proof (nref_nonneg (refs lk1) x). lia. }
    intros lk4 o' st4 (-> & -> & S4). assert (S14 : stays none st st4) by (by transitivity st3).
    eapply safe_mono; [apply (IH (with_locked lk2 []) snap1 st4 c2)|].
    + split; try done.
      * left. destruct Hk1. by split.
      * by eapply (there_stays none st).
      * destruct Hso as [r Hr]. exists r. simpl. by rewrite P1.
      * simpl. lia.
    + apply (retries_next _ c); [lia|done].
    + pose proof (sy_cnt _ _ _ S4). lia.
    + done.
    + intros lk5 o' st5 (snap5 & H5 & -> & S5). exists snap5. split; [|split; [done|by transitivity st4]].
      destruct H5. split; try done. rewrite <- P1. done.
  - assert (Hne : (zlen (refs lk2) =? 0) || (0 <? zlen (locked lk2)) = true).
    { apply orb_true_iff. right. apply Z.ltb_lt. destruct Hso as [r Hr]. rewrite <- P1 in Hr.
      apply list_elem_of_fmap in Hr as (ref & Er & Hin). pose proof (proj1 (Forall_forall _ _) (kn_full _ _ Hk1) ref Hin) as Hf.
      unfold full in Hf. rewrite <- Er in Hf. destruct Hf as [x Ex].
      assert (Hx : x ∈ D) by (apply HDin; eauto). simpl. destruct D; [by apply not_elem_of_nil in Hx|simpl; lia]. }
    rewrite Hne. cbn. exists snap1. split; [|done]. split; try done. by apply Hc.
Qed.

Lemma lock_many_safe fuel lk snap st c : ready lk snap st -> retries lim c fuel -> c <= recomputeCnt st -> below lim c ->
  safe_t (p_dbScanLockMany t fuel lk) (lko i (nref (refs lk)) [] snap) st (fun lk' o' st' => exists snap',
    loaded_with (map plr (refs lk)) lk' snap' st' /\
    o' = lko i (plus_in (nref (refs lk')) (locked lk')) (locked lk') snap' /\ stays none st st').
Proof.
  intros R Hn Hcs Hcb. unfold p_dbScanLockMany. rewrite (rd_locked _ _ _ R). cbn. by apply (many_retry_safe fuel lk snap st c).
Qed.

(** ** [dbLockerPrepare] *)

Lemma prepare_safe precs snap0 st : zlen precs + 1 < K -> (exists r, Some r ∈ precs) ->
  (forall r, Some r ∈ precs -> is_Some (recs st !! r) /\ is_Some (lrs st !! r)) ->
  safe_t (p_dbLockerPrepare t i precs) (lko i (fun _ => 0) [] snap0) st (fun lk o' st' => exists snap,
    ready lk snap st' /\ map plr (refs lk) ≡ₚ precs /\ o' = lko i (nref (refs lk)) [] snap /\
    (exists c, recomputeCnt st <= c <= recomputeCnt st' /\ below lim c) /\ stays none st st').
Proof.
  intros HK Hso Hp. unfold p_dbLockerPrepare. set (rs := map (fun p => mkRef p None) precs).
  assert (Erp : map plr rs = precs) by (unfold rs; rewrite map_map; apply map_id).
  assert (Hlen : zlen rs = zlen precs) by (unfold rs; by rewrite length_map).
  eapply safe_bind with (Q' := fun cnt o' st' => 0 <= cnt <= recomputeCnt st' /\ cnt < 2 ^ 64 - 1 /\
    o' = lko i (fun _ => 0) [] snap0 /\ recomputeCnt st <= cnt /\ below lim cnt /\ stays none st st').
  { apply safe_get_roomy. intros os j st1 Hj I Hr [[_ Hw] Hb]. exists (recomputeCnt st1). eexists.
    split; [done|]. split; [by apply idle_step|]. pose proof (co_cnt _ _ _ (ci_core _ _ _ I)).
    do 2 (split; [lia|]). split; [done|]. split; [apply (re_cnt _ _ _ Hr)|]. split; [done|]. eapply stays_none. by apply rely_stays. }
  intros cnt o' st1 (Hc & Hc2 & -> & Hc3 & Hb & S1).
  eapply safe_bind with (Q' := fun v o' st' => v = rs /\ o' = lko i (fun _ => 0) [] snap0 /\ stays none st1 st').
  { apply safe_get. intros os j st2 Hj I Hr. exists rs. assert (S2 : stays none st1 st2) by (eapply stays_none; by apply rely_stays).
    split; [|done]. apply prepare_refs_spec. apply Forall_forall. intros [r|] Hin; [|done]. intros r' [= <-].
    destruct (Hp r Hin) as [H1 H2]. split; [by apply (sy_rdom _ _ _ S2), (sy_rdom _ _ _ S1)|].
    by apply (sy_dom _ _ _ S2), (sy_dom _ _ _ S1). }
  intros v o' st2 (-> & -> & S2). assert (S12 : stays none st st2) by (by transitivity st1).
  set (lk := mkLocker i [] (wrap_u 64 (cnt - 1)) rs).
  assert (Hw : wrap_u 64 (cnt - 1) < recomputeCnt st2 \/ wrap_u 64 (cnt - 1) = 2 ^ 64 - 1).
  { pose proof (sy_cnt _ _ _ S2). unfold wrap_u. destruct (decide (cnt = 0)) as [->|]; [by right|left].
    rewrite Z.mod_small by lia. lia. }
  replace (lko i (fun _ => 0) [] snap0) with (lko i (nref (refs lk)) [] snap0).
  2: { apply lko_ext; [|done]. intros x. unfold lk, rs. simpl. apply nref_none. }
  eapply safe_bind; [apply (update_refs_safe K lim t i lk snap0 st2)|].
  - right. split; [|done]. unfold lk, rs. simpl. apply Forall_map. by apply Forall_true.
  - intros ref r Hin Er. apply (sy_dom _ _ _ S12). apply Hp. rewrite <- Erp. apply list_elem_of_fmap. eauto.
  - unfold lk. cbn [refs]. lia.
  - intros [c lk1] o' st3 (snap & Hk & -> & El & Em & P & _ & S3). cbn [snd] in *. exists snap.
    assert (S13 : stays none st st3) by (by transitivity st2).
    assert (P' : map plr (refs lk1) ≡ₚ precs) by (rewrite P; unfold lk; cbn [refs]; by rewrite Erp).
    split; [|split; [done|split; [done|split; [|done]]]].
    2: { exists cnt. pose proof (sy_cnt _ _ _ S2). pose proof (sy_cnt _ _ _ S3). split; [lia|done]. }
    split; try done.
    + by left.
    + intros ref r Hin Er. apply (sy_dom _ _ _ S13). apply Hp. rewrite <- P'. apply list_elem_of_fmap. eauto.
    + destruct Hso as [r Hr]. exists r. by rewrite P'.
    + rewrite <- (length_map plr (refs lk1)), P'. lia.
Qed.
End Hold.
