(* ===== verification/DbLockFlux.v ===== *)
(** * Lock sets: links of threads

    What a thread can know of the links between the records of its sets while others run, and the changes of links
    and flags that keep the invariant [linv]. *)

From stdpp Require Import base gmap list sorting fin_sets relations.
From Stdlib Require Import ZArith Lia Bool.
From S2P Require Import Prelude DbLock DbLockInv DbLocker DbLockSets DbLockGraph DbLockRun DbLockProg DbLockConc DbLockSteps DbLockMoves DbLockThreads DbLockMany.
Open Scope Z_scope.

(** ** Connected by links between records of [P] *)

Definition among (P : recid -> Prop) st : relation recid := fun a b => edge st a b /\ P a /\ P b.
Definition lconn (P : recid -> Prop) st : relation recid := rtsc (among P st).

Lemma edge_recs st st' a b : recs st' !! a = recs st !! a -> edge st a b -> edge st' a b.
Proof. intros E (k & p & H1 & H2). exists k, p. split; [|done]. unfold link_of in *. simpl in *. by rewrite E. Qed.

Lemma lconn_keep (P P' : recid -> Prop) st st' r q :
  (forall a, P a -> P' a /\ recs st' !! a = recs st !! a) -> lconn P st r q -> lconn P' st' r q.
Proof.
  intros H. apply (rtsc_congruence (fun x : recid => x)). intros a b (E & Ha & Hb).
  destruct (H a Ha), (H b Hb). split; [by eapply edge_recs|done].
Qed.

Lemma lconn_conn P st r q : lconn P st r q -> conn st r q.
Proof. apply (rtsc_congruence (fun x : recid => x)). by intros a b (? & _). Qed.

(** If no link leads out of [P]. *)
Lemma conn_lconn (P : recid -> Prop) st r q :
  (forall a b, edge st a b -> (P a <-> P b)) -> conn st r q -> P r -> lconn P st r q /\ P q.
Proof.
  intros Hc H. induction H as [x|x y z Hs _ IH]; intros Hx; [split; [apply rtc_refl|done]|].
  assert (Hy : P y) by (destruct Hs as [Hs|Hs]; apply Hc in Hs; tauto).
  destruct (IH Hy) as [H Hz]. split; [|done]. eapply rtc_l; [|exact H].
  destruct Hs as [Hs|Hs]; [left|right]; done.
Qed.

(** ** The records of a list of sets *)

Definition in_sets (D : list addr) st (r : recid) : Prop := exists x, x ∈ D /\ r ∈ members st x.

Lemma in_sets_1 x st r : in_sets [x] st r <-> r ∈ members st x.
Proof. split; [intros (y & ->%list_elem_of_singleton & H); done|]. intros H. exists x. split; [by left|done]. Qed.
Lemma in_sets_2 x y st r : in_sets [x; y] st r <-> r ∈ members st x \/ r ∈ members st y.
Proof.
  split.
  - intros (z & [->|Hz]%elem_of_cons & H); [by left|]. apply list_elem_of_singleton in Hz as ->. by right.
  - intros [H|H]; [exists x|exists y]; (split; [|done]); [by left|right; by left].
Qed.

(** They stay in these sets, with their links. *)
Definition keeps (D D' : list addr) st st' : Prop :=
  forall r, in_sets D st r -> in_sets D' st' r /\ recs st' !! r = recs st !! r.

Lemma keep_in_trans D1 D2 D3 s1 s2 s3 : keeps D1 D2 s1 s2 -> keeps D2 D3 s2 s3 -> keeps D1 D3 s1 s3.
Proof. intros H1 H2 r Hr. destruct (H1 r Hr) as [Hr2 E2]. destruct (H2 r Hr2) as [Hr3 E3]. split; [done|congruence]. Qed.

Lemma stays_keeps (L : addr -> Prop) D st st' : stays L st st' -> (forall x, x ∈ D -> L x) -> keeps D D st st'.
Proof.
  intros S HL r (x & Hx & Hr). split; [|by eapply sy_rec; [exact S|apply HL, Hx|]].
  exists x. rewrite (sy_mem _ _ _ S x); auto.
Qed.

Lemma keeps_link D D' st st' l : keeps D D' st st' -> in_sets D st (fst l) -> link_of st' l = link_of st l.
Proof. intros H Hr. destruct (H _ Hr) as [_ E]. unfold link_of. by rewrite E. Qed.

(** ** What [linv] says of the sets of one thread *)

Section Home.
Context (K : Z) (os : list (tid * own)) (st : lk_state) (I : cinv K os st).
Context (i : nat) (t : tid) (o : own) (Hi : os !! i = Some (t, o)).

Lemma edge_home x a b : olock o x ≠ None -> a ∈ members st x -> edge st a b \/ edge st b a ->
  exists y, b ∈ members st y /\ (y = x \/ (x ∈ ocross o /\ y ∈ ocross o)).
Proof.
  intros Hl Ha Hab. pose proof (ci_core _ _ _ I) as C. destruct (ci_links _ _ _ I) as [G E _ _ _].
  assert (Hb : is_Some (recs st !! b)) by (destruct Hab as [H|H]; by apply (edge_dom _ _ _ G) in H as [? ?]).
  apply (g_dom _ G) in Hb as [lr Eb]. assert (Hp : plock st b = Some (plockSet lr)) by (unfold plock; by rewrite Eb).
  exists (plockSet lr). split; [by apply (co_lr _ _ _ C)|]. apply (co_mem _ _ _ C) in Ha.
  destruct Hab as [H|H].
  - destruct (E a b _ _ H Ha Hp) as [|Hc]; [by left|right]. by apply (cross_held K os st I i t o Hi).
  - destruct (E b a _ _ H Hp Ha) as [|Hc]; [by left|right].
    destruct (cross_held K os st I i t o Hi x (plockSet lr) Hl) as [? ?]; [|done].
    destruct Hc as (t' & o' & ? & ? & ?). by exists t', o'.
Qed.

Lemma closed_home c : (forall x, x ∈ c -> olock o x ≠ None) -> (forall x, x ∈ ocross o -> x ∈ c) ->
  forall a b, edge st a b -> (in_sets c st a <-> in_sets c st b).
Proof.
  intros Hl Hc. assert (H : forall a b, edge st a b \/ edge st b a -> in_sets c st a -> in_sets c st b).
  { intros a b Hab (x & Hx & Ha). destruct (edge_home x a b (Hl x Hx) Ha Hab) as (y & Hy & Hor). exists y.
    split; [|done]. destruct Hor as [->|[_ ?]]; auto. }
  intros a b Hab. split; apply H; auto.
Qed.

Lemma whole_home x a b : olock o x ≠ None -> x ∉ ocross o -> a ∈ members st x -> b ∈ members st x -> conn st a b.
Proof.
  intros Hl Hx Ha Hb. pose proof (ci_core _ _ _ I) as C. apply (co_mem _ _ _ C) in Ha, Hb.
  destruct (li_part _ _ (ci_links _ _ _ I) a b x Ha Hb) as [|H]; [done|].
  by destruct (cross_held K os st I i t o Hi x x Hl H).
Qed.

Lemma flag_home x r lr : olock o x ≠ None -> r ∈ members st x -> r ∉ oflag o -> lrs st !! r = Some lr -> compflag lr = 0.
Proof.
  intros Hl Hr Hf E. destruct (li_flag _ _ (ci_links _ _ _ I) r lr E) as [|H]; [done|].
  by apply (flux_held K os st I i t o Hi x r Hl Hr) in H.
Qed.

Lemma lset_home x l p : olock o x ≠ None -> fst l ∈ members st x -> l ∉ odirty o -> link_of st l = Some p ->
  (lset p = Some dbDb_lset <-> ltype p = DB_LINK).
Proof.
  intros Hl Hr Hf E. destruct (li_lset _ _ (ci_links _ _ _ I) l p E) as [|H]; [done|].
  destruct l as [r k]. by apply (flux_held K os st I i t o Hi x r Hl Hr) in H.
Qed.
End Home.

(** ** Changes *)

(** The sets [c] are in order: links stay inside of each and its records are connected. *)
Definition settled (c : list addr) st : Prop :=
  (forall x y a b, x ∈ c -> y ∈ c -> a ∈ members st x -> b ∈ members st y -> edge st a b -> x = y) /\
  (forall x a b, x ∈ c -> a ∈ members st x -> b ∈ members st x -> conn st a b).

Section Change.
Context (os : list (tid * own)) (st : lk_state) (V : linv os st).
Context (i : nat) (t : tid) (o : own) (Hi : os !! i = Some (t, o)).

Lemma ex_change (P : own -> Prop) o2 : (exists t o, (t, o) ∈ os /\ P o) ->
  P o \/ exists t' o', (t', o') ∈ <[i := (t, o2)]> os /\ P o'.
Proof.
  intros (t1 & o1 & [j Hj]%list_elem_of_lookup & H1). destruct (decide (i = j)) as [<-|N].
  - rewrite Hi in Hj. injection Hj as <- <-. by left.
  - right. exists t1, o1. split; [|done]. eapply (list_elem_of_lookup_2 _ j). by rewrite list_lookup_insert_ne.
Qed.
Lemma ex_mine (P : own -> Prop) o2 : P o2 -> exists t' o', (t', o') ∈ <[i := (t, o2)]> os /\ P o'.
Proof.
  intros H. exists t, o2. split; [|done]. eapply (list_elem_of_lookup_2 _ i), list_lookup_insert_eq. by eapply lookup_lt_Some.
Qed.

Lemma crossing_change c f d x y : crossing os x y ->
  (x ∈ ocross o /\ y ∈ ocross o) \/ crossing (<[i := (t, o_flux o c f d)]> os) x y.
Proof. apply (ex_change (fun o => x ∈ ocross o /\ y ∈ ocross o)). Qed.
Lemma crossing_mine c f d x y : x ∈ c -> y ∈ c -> crossing (<[i := (t, o_flux o c f d)]> os) x y.
Proof. intros Hx Hy. by apply (ex_mine (fun o => x ∈ ocross o /\ y ∈ ocross o)). Qed.
Lemma crossing_grow c f d x y : (forall x, x ∈ ocross o -> x ∈ c) -> crossing os x y ->
  crossing (<[i := (t, o_flux o c f d)]> os) x y.
Proof. intros Hc H. destruct (crossing_change c f d x y H) as [[? ?]|]; [|done]. apply crossing_mine; auto. Qed.

Lemma flag_change c f d (st2 : lk_state) :
  (forall r lr, lrs st2 !! r = Some lr ->
     compflag lr = 0 \/ r ∈ f \/ (lrs st !! r = Some lr /\ (r ∈ oflag o -> r ∈ f))) ->
  forall r lr, lrs st2 !! r = Some lr -> compflag lr = 0 \/ flagged (<[i := (t, o_flux o c f d)]> os) r.
Proof.
  intros H r lr E. assert (Hm : r ∈ f -> flagged (<[i := (t, o_flux o c f d)]> os) r)
    by (intros Hr; by apply (ex_mine (fun o => r ∈ oflag o))).
  destruct (H r lr E) as [|[Hf|[E1 Hf]]]; [by left|right; auto|].
  destruct (li_flag _ _ V r lr E1) as [|H1]; [by left|right].
  destruct (ex_change (fun o => r ∈ oflag o) (o_flux o c f d) H1) as [H2|]; [|done]. apply Hm, Hf, H2.
Qed.

Lemma lset_change c f d (st2 : lk_state) :
  (forall l p, link_of st2 l = Some p ->
     (lset p = Some dbDb_lset <-> ltype p = DB_LINK) \/ l ∈ d \/ (link_of st l = Some p /\ (l ∈ odirty o -> l ∈ d))) ->
  forall l p, link_of st2 l = Some p ->
    (lset p = Some dbDb_lset <-> ltype p = DB_LINK) \/ dirty (<[i := (t, o_flux o c f d)]> os) l.
Proof.
  intros H l p E. assert (Hm : l ∈ d -> dirty (<[i := (t, o_flux o c f d)]> os) l)
    by (intros Hr; by apply (ex_mine (fun o => l ∈ odirty o))).
  destruct (H l p E) as [|[Hf|[E1 Hf]]]; [by left|right; auto|].
  destruct (li_lset _ _ V l p E1) as [|H1]; [by left|right].
  destruct (ex_change (fun o => l ∈ odirty o) (o_flux o c f d) H1) as [H2|]; [|done]. apply Hm, Hf, H2.
Qed.

(** Flags. *)
Lemma linv_flags c f st2 : recs st2 = recs st -> (forall r, plock st2 r = plock st r) ->
  (forall x, x ∈ ocross o -> x ∈ c) ->
  (forall r lr, lrs st2 !! r = Some lr ->
     compflag lr = 0 \/ r ∈ f \/ (lrs st !! r = Some lr /\ (r ∈ oflag o -> r ∈ f))) ->
  linv (<[i := (t, o_flux o c f (odirty o))]> os) st2.
Proof.
  intros Er Ep Hc Hf. pose proof V as [G E Pa _ _].
  assert (Hd : forall r, is_Some (lrs st2 !! r) <-> is_Some (lrs st !! r))
    by (intros r; rewrite <- !(fmap_is_Some plockSet); fold (plock st2 r) (plock st r); by rewrite Ep).
  split.
  - by apply (graph_ok_recs st).
  - intros r q x y [k H]. rewrite !Ep. intros H1 H2. apply (db_link_recs st st2) in H; [|done].
    destruct (E r q x y) as [|]; [by exists k|done|done|by left|right]. by apply crossing_grow.
  - intros r q x. rewrite !Ep. intros H1 H2. rewrite (conn_recs st st2) by done.
    destruct (Pa r q x H1 H2) as [|]; [by left|right]. by apply crossing_grow.
  - by apply flag_change.
  - apply lset_change. intros l p. unfold link_of. rewrite Er. eauto.
Qed.

(** The sets of this thread are in order. *)
Lemma linv_settle : settled (ocross o) st -> (forall r x, plock st r = Some x -> r ∈ members st x) ->
  linv (<[i := (t, o_flux o [] (oflag o) (odirty o))]> os) st.
Proof.
  intros [S1 S2] Hm. pose proof V as [G E Pa _ _]. split; [done| | | |].
  - intros r q x y H H1 H2. destruct (E r q x y H H1 H2) as [|Hc]; [by left|].
    destruct (crossing_change [] (oflag o) (odirty o) x y Hc) as [[Hx Hy]|]; [left|by right].
    apply (S1 x y r q); auto.
  - intros r q x H1 H2. destruct (Pa r q x H1 H2) as [|Hc]; [by left|].
    destruct (crossing_change [] (oflag o) (odirty o) x x Hc) as [[Hx _]|]; [left|by right].
    apply (S2 x r q); auto.
  - apply flag_change. eauto.
  - apply lset_change. eauto.
Qed.

(** Links that are added or changed. *)
Lemma linv_links c d st2 : relinked st st2 -> (forall x, x ∈ ocross o -> x ∈ c) ->
  (forall a b, edge st a b -> edge st2 a b) ->
  (forall a b x y, edge st2 a b -> plock st a = Some x -> plock st b = Some y ->
     edge st a b \/ x = y \/ (x ∈ c /\ y ∈ c)) ->
  (forall l p, link_of st2 l = Some p ->
     (lset p = Some dbDb_lset <-> ltype p = DB_LINK) \/ l ∈ d \/ (link_of st l = Some p /\ (l ∈ odirty o -> l ∈ d))) ->
  linv (<[i := (t, o_flux o c (oflag o) d)]> os) st2.
Proof.
  intros R Hc He1 He2 Hd. pose proof V as [G E Pa _ _]. pose proof (relinked_lrs _ _ R) as El.
  assert (Ep : forall r, plock st2 r = plock st r) by (intros r; unfold plock; by rewrite El).
  split.
  - apply R.
  - intros r q x y H. rewrite !Ep. intros H1 H2. destruct (He2 r q x y H H1 H2) as [H'|[|[? ?]]]; [|by left|right].
    + destruct (E r q x y H' H1 H2) as [|]; [by left|right]. by apply crossing_grow.
    + by apply crossing_mine.
  - intros r q x. rewrite !Ep. intros H1 H2. destruct (Pa r q x H1 H2) as [H|]; [left|right; by apply crossing_grow].
    revert H. apply (rtsc_congruence (fun x : recid => x)). intros ? ?. apply He1.
  - apply flag_change. rewrite El. eauto.
  - by apply lset_change.
Qed.

(** A link from [a] to [b], records of [x], is removed. *)
Lemma linv_unlink d st2 a b x : relinked st st2 -> ocross o = [] ->
  (forall r q, edge st r q <-> edge st2 r q \/ (r = a /\ q = b)) -> plock st a = Some x -> plock st b = Some x ->
  (forall r q, edge st r q -> (plock st r = Some x <-> plock st q = Some x)) ->
  (forall l p, link_of st2 l = Some p ->
     (lset p = Some dbDb_lset <-> ltype p = DB_LINK) \/ l ∈ d \/ (link_of st l = Some p /\ (l ∈ odirty o -> l ∈ d))) ->
  linv (<[i := (t, o_flux o [x] (oflag o) d)]> os) st2.
Proof.
  intros R Hc He Ha Hb Hcl Hd. pose proof V as [G E Pa _ _]. pose proof (relinked_lrs _ _ R) as El.
  assert (Ep : forall r, plock st2 r = plock st r) by (intros r; unfold plock; by rewrite El).
  assert (Hg : forall y, y ∈ ocross o -> y ∈ [x]) by (rewrite Hc; by intros y ?%not_elem_of_nil).
  assert (Hx : forall r q, conn st2 r q -> plock st q = Some x -> plock st r = Some x).
  { intros r q H Hq. induction H as [|r r1 q Hs _ IH]; [done|]. specialize (IH Hq).
    destruct Hs as [Hs|Hs]; [apply (Hcl r r1)|apply (Hcl r1 r)]; try done; apply He; by left. }
  split.
  - apply R.
  - intros r q y z H. rewrite !Ep. intros H1 H2. destruct (E r q y z) as [|]; [apply He; by left|done|done|by left|right].
    by apply crossing_grow.
  - intros r q y. rewrite !Ep. intros H1 H2. destruct (Pa r q y H1 H2) as [H|]; [|right; by apply crossing_grow].
    assert (Hmine : plock st r = Some x -> crossing (<[i := (t, o_flux o [x] (oflag o) d)]> os) y y)
      by (intros H3; rewrite H3 in H1; injection H1 as <-; apply crossing_mine; by left).
    unfold conn in H. rewrite (rtsc_add (edge st2) (edge st) a b He) in H. destruct H as [|[[H _]|[H _]]]; [by left|right..].
    + apply Hmine. by apply (Hx r a).
    + apply Hmine. by apply (Hx r b).
  - apply flag_change. rewrite El. eauto.
  - by apply lset_change.
Qed.
End Change.

(** ** Steps *)

Section Flux.
Context (K : Z) (lim : option Z) (t : tid).

Abbreviation safe_t := (safe K lim t).

Lemma plock_members os st r x : cinv K os st -> plock st r = Some x <-> r ∈ members st x.
Proof. intros I. apply (core_members _ _ _ _ _ (ci_core _ _ _ I)). Qed.

(** Reading, and what the thread has in hand afterwards. *)
Lemma safe_get_flux {X} (f : lk_state -> lk_fault + X) o st (Q : X -> own -> lk_state -> Prop) :
  (forall os j st1, os !! j = Some (t, o) -> cinv K os st1 -> rely o st st1 ->
    exists v c fl d, f st1 = inr v /\ linv (<[j := (t, o_flux o c fl d)]> os) st1 /\
      (forall x, x ∈ c -> olock o x ≠ None) /\
      (forall r, r ∈ fl ++ map fst d -> exists x, r ∈ members st1 x /\ olock o x ≠ None) /\
      Q v (o_flux o c fl d) st1) -> safe_t (get f) o st Q.
Proof.
  intros H os j st1 Hj I Hr Hw. destruct (H os j st1 Hj I Hr) as (v & c & fl & d & -> & L & Hc & Hf & HQ). simpl.
  exists (o_flux o c fl d). split; [|done]. apply (flux_step K os st1 I j t o Hj); try done. by destruct st1.
Qed.

Lemma settle_linv os j o st : cinv K os st -> os !! j = Some (t, o) -> settled (ocross o) st ->
  linv (<[j := (t, o_flux o [] (oflag o) (odirty o))]> os) st.
Proof.
  intros I Hj S. apply linv_settle; [apply (ci_links _ _ _ I)|done|done|]. intros r x. by apply (plock_members os).
Qed.

Lemma o_flux_same o : o_flux o (ocross o) (oflag o) (odirty o) = o.
Proof. by destruct o. Qed.

(** Whatever the other threads do, the sets in the hands of this thread are in order. *)
Definition settles (o : own) st : Prop := forall st', stays (locks o) st st' -> settled (ocross o) st'.

(** Reading, at a moment when the sets in the hands of the thread may be in order. *)
Lemma safe_get_settle {X} (f : lk_state -> lk_fault + X) (b : bool) o st (Q : X -> own -> lk_state -> Prop) :
  (forall os j st1, os !! j = Some (t, o) -> cinv K os st1 -> rely o st st1 ->
    exists v, f st1 = inr v /\ (b = true -> settled (ocross o) st1) /\
      Q v (o_flux o (if b then [] else ocross o) (oflag o) (odirty o)) st1) -> safe_t (get f) o st Q.
Proof.
  intros H. apply safe_get_flux. intros os j st1 Hj I Hr. destruct (H os j st1 Hj I Hr) as (v & E & S & HQ).
  pose proof (own_inv _ _ _ I _ _ _ Hj) as T.
  exists v, (if b then [] else ocross o), (oflag o), (odirty o). split; [done|]. split; [|split; [|split; [|done]]].
  - destruct b; [by apply settle_linv; [..|auto]|]. rewrite o_flux_same, list_insert_id by done. apply (ci_links _ _ _ I).
  - destruct b; [by intros x ?%not_elem_of_nil|apply (ti_cross _ _ _ _ _ T)].
  - apply (ti_flux _ _ _ _ _ T).
Qed.
End Flux.
