(* ===== verification/DbLockChange.v ===== *)
(** * Lock sets: threads that merge sets

    The steps that move records between two sets of a thread, and [dbLockSetMerge] as a program of a thread that holds the
    sets of a locker. *)

From stdpp Require Import base gmap list sorting fin_sets relations.
From Stdlib Require Import ZArith Lia Bool.
From S2P Require Import Prelude DbLock DbLockInv DbLocker DbLockSets DbLockGraph DbLockProg DbLockConc DbLockSteps DbLockMoves DbLockThreads DbLockMany DbLockHold DbLockFlux.
Open Scope Z_scope.

Section Change.
Context (K : Z) (lim : option Z) (t : tid) (i : lockerid).

Abbreviation safe_t := (safe K lim t).
Abbreviation none := (fun _ : addr => False).

(** ** Sets that the thread has locked *)

Lemma locked_set_at os j o st x : cinv K os st -> os !! j = Some (t, o) -> locks o x ->
  exists s, sets st !! x = Some s /\ members st x = lockRecordList s /\ zlen (lockRecordList s) + oref o x <= refcount s.
Proof.
  intros I Hj Hl. destruct (own_some K t os j o st x I Hj (or_intror Hl)) as [s E]. exists s.
  pose proof (own_count K os st I o x s E). destruct (others_facts K os st I j t o Hj x) as (_ & _ & H3).
  specialize (H3 Hl). split; [done|]. split; [by apply members_lookup|lia].
Qed.

Lemma get_refcount_safe x o st : locks o x ->
  safe_t (get (get_refcount x)) o st (fun v o' st' =>
    zlen (members st' x) + oref o x <= v /\ o' = o /\ stays (locks o) st st').
Proof.
  intros Hl. apply safe_get. intros os j st1 Hj I Hr.
  destruct (locked_set_at os j o st1 x I Hj Hl) as (s & E & Em & Hc). exists (refcount s).
  unfold get_refcount, get_set. rewrite E, Em. split; [done|]. split; [done|]. split; [done|]. by apply rely_stays.
Qed.

Lemma get_refcount_settle x o st : locks o x -> settles o st ->
  safe_t (get (get_refcount x)) o st (fun v o' st' => zlen (members st' x) + oref o x <= v /\
    o' = o_flux o [] (oflag o) (odirty o) /\ stays (locks o) st st').
Proof.
  intros Hl Hs. apply (safe_get_settle K lim t _ true). intros os j st1 Hj I Hr.
  destruct (locked_set_at os j o st1 x I Hj Hl) as (s & E & Em & Hc). exists (refcount s).
  pose proof (rely_stays _ _ _ Hr) as S. unfold get_refcount, get_set. rewrite E, Em. split; [done|]. split; [|done].
  intros _. by apply Hs.
Qed.

Lemma get_count_safe x o st : locks o x ->
  safe_t (get (get_count x)) o st (fun v o' st' => v = zlen (members st' x) /\ o' = o /\ stays (locks o) st st').
Proof.
  intros Hl. apply safe_get. intros os j st1 Hj I Hr.
  destruct (locked_set_at os j o st1 x I Hj Hl) as (s & E & Em & _). exists (zlen (members st1 x)).
  unfold get_count, get_set. rewrite E, Em. do 3 (split; [done|]). by apply rely_stays.
Qed.

Lemma get_count_settle x o st : locks o x -> settles o st ->
  safe_t (get (get_count x)) o st (fun v o' st' => v = zlen (members st' x) /\
    o' = o_flux o [] (oflag o) (odirty o) /\ stays (locks o) st st').
Proof.
  intros Hl Hs. apply (safe_get_settle K lim t _ true). intros os j st1 Hj I Hr.
  destruct (locked_set_at os j o st1 x I Hj Hl) as (s & E & Em & _). exists (zlen (members st1 x)).
  pose proof (rely_stays _ _ _ Hr) as S. unfold get_count, get_set. rewrite E, Em. split; [done|]. split; [|done].
  intros _. by apply Hs.
Qed.

(** The set of a record, if the thread has locked it. *)
Lemma get_plock_safe r x o st : locks o x -> r ∈ members st x ->
  safe_t (get (get_plock r)) o st (fun v o' st' => v = x /\ o' = o /\ stays (locks o) st st').
Proof.
  intros Hl Hm. apply safe_get. intros os j st1 Hj I Hr. rewrite <- (re_mem _ _ _ Hr x Hl) in Hm.
  apply (co_mem _ _ _ (ci_core _ _ _ I)) in Hm. destruct (plock_lr st1 r x Hm) as [-> _].
  exists x. do 3 (split; [done|]). by apply rely_stays.
Qed.

(** [epicsAtomicAddIntT] on the counter of a locked set. *)
Lemma add_ref_safe x n o st : locks o x -> 0 < zlen (members st x) + oref o x ->
  0 < zlen (members st x) + oref o x + n -> oref o x + n <= K ->
  members st x ≠ [] \/ (oref o x ≠ 0 /\ 0 < oref o x + n) ->
  safe_t (sec (fun st => add_ref st x n)) o st (fun _ o' st' => o' = o_ref o x n /\ stays (locks o) st st').
Proof.
  intros Hl H1 H2 H3 H4 os j st1 Hj I Hr Hw. rewrite <- (re_mem _ _ _ Hr x Hl) in *.
  destruct (locked_set_at os j o st1 x I Hj Hl) as (s & E & Em & Hc). rewrite Em in *.
  destruct (add_ref_moves K t os j o st1 x s n I Hj E) as [-> M]; try lia.
  { intros _. split; [done|lia]. }
  { destruct H4 as [|[? ?]]; [by left|right]. split; [done|by right]. }
  eexists. split; [exact M|]. split; [done|by eapply stays_step].
Qed.

(** ** A record moves *)

(** The sets [A] and [B] of [D] change, the others do not. *)
Abbreviation but D A B := (fun x => x ∈ D /\ x ≠ A /\ x ≠ B).

(** What holds for the sets once [r] moved. *)
Definition moved_to A B r l D st st' : Prop := members st' A = members st A ++ [r] /\ members st' B = l /\
  stays (but D A B) st st' /\ keeps D D st st'.

Lemma moved_put A B r (l : list recid) D (L : addr -> Prop) st st1 sA sB lr v : (forall x, x ∈ D -> L x) -> stays L st st1 -> A ∈ D -> B ∈ D -> A ≠ B ->
  members st B ≡ₚ r :: l -> sets st1 !! A = Some sA -> lrs st1 !! r = Some lr -> plockSet lr = B ->
  moved_to A B r l D st
    (put_lr (put_set (put_set st1 B (with_list sB l)) A (with_list sA (lockRecordList sA ++ [r]))) r (mkLr A v)).
Proof.
  intros HL S HA HB N P EA Er Ep. pose proof (moved_members st1 A B sA sB r l v EA) as Hm.
  pose proof (sy_mem _ _ _ S A (HL A HA)) as EmA. pose proof (sy_mem _ _ _ S B (HL B HB)) as EmB.
  split; [rewrite Hm, decide_True by done; by rewrite EmA|]. split; [by rewrite Hm, decide_False, decide_True|]. split.
  - transitivity st1; [eapply stays_mono; [exact S|]; intros x (? & _ & _); by apply HL|]. split; try done.
    + intros q x Hq (Hx & NA & NB). rewrite move_plock. destruct (decide (q = r)) as [->|]; [|done].
      unfold plock in Hq. rewrite Er in Hq. injection Hq as Hq. congruence.
    + intros x (Hx & NA & NB). by rewrite Hm, !decide_False.
    + intros q. simpl. destruct (decide (q = r)) as [->|]; [rewrite lookup_insert_eq, Er; split; eauto|by rewrite lookup_insert_ne].
  - eapply keep_in_trans; [by eapply stays_keeps|]. intros q (x & Hx & Hq). split; [|done].
    destruct (decide (x = A)) as [->|NA].
    { exists A. split; [done|]. rewrite Hm, decide_True, elem_of_app by done. by left. }
    destruct (decide (x = B)) as [->|NB]; [|exists x; split; [done|]; by rewrite Hm, !decide_False].
    rewrite EmB, P in Hq. apply elem_of_cons in Hq as [->|Hq].
    + exists A. split; [done|]. rewrite Hm, decide_True, elem_of_snoc by done. by right.
    + exists B. split; [done|]. by rewrite Hm, decide_False, decide_True.
Qed.

(** The count of the move. *)
Lemma counted_safe A B r l D c fl d h snap p st st1 : (forall x, x ∈ D -> locks (lkx i h D snap c fl d) x) -> A ∈ D -> B ∈ D ->
  moved_to A B r l D st st1 ->
  safe_t (upd count_move) (o_pend (lkx i h D snap c fl d) [p]) st1 (fun _ o' st' =>
    o' = lkx i h D snap c fl d /\ moved_to A B r l D st st').
Proof.
  intros HL HA HB (E1 & E2 & S1 & K1) os j st2 Hj I Hr [Hw Hwi]. unfold count_move. cbn [ebind]. set (o := lkx i h D snap c fl d) in *.
  exists o. split.
  { apply (counted_step K os st2 I j t (o_pend o [p]) Hj); [done|]. by intros p0 ?%not_elem_of_nil. }
  pose proof (re_mem _ _ _ Hr A (HL A HA)) as EmA. pose proof (re_mem _ _ _ Hr B (HL B HB)) as EmB.
  pose proof (rely_stays _ _ _ Hr) as S2. split; [done|].
  unfold moved_to. change (members (with_cnt st2 (wrap_u 64 (recomputeCnt st2 + 1)))) with (members st2).
  split; [congruence|]. split; [congruence|]. split.
  - transitivity st1; [done|]. transitivity st2.
    { eapply stays_mono; [exact S2|]. intros x (? & _ & _). by apply HL. }
    split; try done. simpl. unfold wrap_u. rewrite Z.mod_small; [lia|].
    pose proof (co_cnt _ _ _ (ci_core _ _ _ I)). destruct Hw. lia.
  - eapply keep_in_trans; [exact K1|]. exact (stays_keeps _ D st1 st2 S2 HL).
Qed.

(** [r] moved, with a reference from [A] to [B]; [fl] are the flags of [f] that are left. *)
Lemma move_safe (F : lk_state -> lk_fault + lk_state) (p : prog unit) A B r l h D snap c f fl d st Q :
  A ∈ D -> B ∈ D -> A ∈ c -> B ∈ c -> A ≠ B -> members st B ≡ₚ r :: l -> 1 <= zlen (members st A) + h A ->
  (forall q, q ∈ fl -> q ∈ f) ->
  (forall st1 sA sB lr, sets st1 !! A = Some sA -> sets st1 !! B = Some sB -> lockRecordList sB = members st B ->
    lrs st1 !! r = Some lr -> plockSet lr = B -> exists v, (v = 0 \/ v = compflag lr) /\
    (forall q, q ∈ f -> q ∈ fl \/ (q = r /\ v = 0)) /\
    F st1 = inr (put_lr (put_set (put_set st1 B (with_list sB l)) A (with_list sA (lockRecordList sA ++ [r]))) r (mkLr A v))) ->
  (forall st', members st' A = members st A ++ [r] -> members st' B = l -> stays (but D A B) st st' -> keeps D D st st' ->
    safe_t p (lkx i (hadd (hadd h A (-1)) B 1) D snap c fl d) st' Q) ->
  safe_t (do* _ <- upd F in do* _ <- upd count_move in p) (lkx i h D snap c f d) st Q.
Proof.
  intros HA HB CA CB N P Hd Hfl HF Hk. set (o := lkx i h D snap c f d).
  assert (HL : forall x, x ∈ D -> locks o x) by (intros x; apply locks_lko).
  set (o2 := lkx i (hadd (hadd h A (-1)) B 1) D snap c fl d).
  eapply safe_bind with (Q' := fun _ o' st' => o' = o_pend o2 [(r, B)] /\ moved_to A B r l D st st').
  - intros os j st1 Hj I Hr Hw. pose proof (re_mem _ _ _ Hr A (HL A HA)) as EmA. pose proof (re_mem _ _ _ Hr B (HL B HB)) as EmB.
    destruct (locked_set_at os j o st1 A I Hj (HL A HA)) as (sA & EA & MA & _).
    destruct (locked_set_at os j o st1 B I Hj (HL B HB)) as (sB & EB & MB & _).
    assert (Hp : plock st1 r = Some B) by (apply (co_mem _ _ _ (ci_core _ _ _ I)); rewrite EmB, P; by left).
    unfold plock in Hp. destruct (lrs st1 !! r) as [lr|] eqn:Er; [|done]. injection Hp as Ep.
    destruct (HF st1 sA sB lr EA EB ltac:(congruence) Er Ep) as (v & Hv & Hfl2 & ->). cbn [ebind].
    assert (PB : lockRecordList sB ≡ₚ r :: l) by (rewrite <- MB, EmB; done).
    exists (o_pend o2 [(r, B)]). split; [|split; [done|eapply moved_put; try done; by apply rely_stays]].
    apply (move_step K os st1 I j t o Hj A B sA sB r lr l v); try done; [by apply HL..|]. rewrite <- MA, EmA. done.
  - intros _ o' st1 (-> & M). eapply safe_bind; [apply (counted_safe A B r l D c fl d _ snap _ st st1); try done|].
    intros _ o' st2 (-> & E3 & E4 & S2 & K2). by apply Hk.
Qed.

Lemma keep_in_refl D st : keeps D D st st.
Proof. by split. Qed.

Lemma merge_records_safe A B l c d : A ≠ B -> A ∈ c -> B ∈ c -> forall h D snap st, A ∈ D -> B ∈ D -> members st B = l ->
  1 <= zlen (members st A) + h A ->
  safe_t (p_merge_records A B l) (lkx i h D snap c [] d) st (fun _ o' st' =>
    o' = lkx i (shift_refs h B A (zlen l)) D snap c [] d /\ members st' A = members st A ++ l /\ members st' B = [] /\
    stays (but D A B) st st' /\ keeps D D st st').
Proof.
  intros N CA CB. induction l as [|r l IH]; intros h D snap st HA HB Em Hd; cbn [p_merge_records].
  { split; [apply lko_ext; [intros y; symmetry; apply shift_0|done]|]. rewrite app_nil_r. by repeat split. }
  apply (move_safe _ _ A B r l _ _ _ _ _ []); try done; [by rewrite Em| |].
  - intros st1 sA sB lr EA EB El Er Ep. exists (compflag lr). split; [by right|]. split; [by intros q ?%not_elem_of_nil|].
    unfold merge_record, get_set, get_lr. rewrite EB. cbn [the ebind]. unfold put_set at 1, put_lr at 1. simpl.
    rewrite Er. cbn [the ebind]. rewrite bool_decide_true by done. cbn [lk_assert ebind]. unfold join_record, get_set.
    simpl. rewrite lookup_insert_ne, EA by done. done.
  - intros st1 E1 E2 S1 K1. eapply safe_mono; [apply IH; try done|].
    + rewrite E1, length_app, hadd_ne, hadd_eq by done. simpl. lia.
    + intros _ o' st2 (-> & E3 & E4 & S2 & K2).
      split; [|split; [by rewrite E3, E1, <- app_assoc|split; [done|split; [by transitivity st1|by eapply keep_in_trans]]]].
      apply lko_ext; [|done]. intros y. rewrite shift_cons. f_equal. simpl length. lia.
Qed.

Lemma split_loop_safe ls x l c d : x ≠ ls -> x ∈ c -> ls ∈ c -> forall h D snap st, x ∈ D -> ls ∈ D ->
  NoDup (members st ls) -> NoDup l ->
  (forall r, r ∈ l -> r ∈ members st ls) -> 1 <= zlen (members st x) + h x ->
  safe_t (p_split_loop ls x l) (lkx i h D snap c l d) st (fun _ o' st' =>
    o' = lkx i (shift_refs h ls x (zlen l)) D snap c [] d /\ members st' x = members st x ++ l /\
    (forall r, r ∈ members st' ls <-> r ∈ members st ls /\ r ∉ l) /\ stays (but D x ls) st st' /\ keeps D D st st').
Proof.
  intros N Cx Cl. induction l as [|r l IH]; intros h D snap st Hx Hls Nd Ndl Hin Hd; cbn [p_split_loop].
  { split; [apply lko_ext; [intros y; symmetry; apply shift_0|done]|]. rewrite app_nil_r. split; [done|].
    split; [|by repeat split]. intros r. split; [|tauto]. intros Hr. split; [done|apply not_elem_of_nil]. }
  apply NoDup_cons in Ndl as [Nr Ndl]. assert (Hr : r ∈ members st ls) by (apply Hin; by left).
  apply (move_safe _ _ x ls r (filter (.≠ r) (members st ls)) _ _ _ _ _ l); try done; [by apply perm_filter_ne|by right| |].
  - intros st1 sA sB lr EA EB El Er Ep. exists 0. split; [by left|]. split.
    { intros q [->|Hq]%elem_of_cons; [by right|by left]. }
    unfold split_record, get_lr, get_set. rewrite Er. cbn [the ebind]. rewrite bool_decide_true by done.
    cbn [lk_assert ebind]. rewrite EB. cbn [the ebind]. rewrite El. unfold list_delete. rewrite decide_True by done.
    cbn [ebind]. unfold join_record, get_set. simpl. rewrite lookup_insert_ne, EA by done. done.
  - intros st1 E1 E2 S1 K1. eapply safe_mono; [apply IH; try done|].
    + rewrite E2. by apply NoDup_filter.
    + intros q Hq. rewrite E2, elem_of_filter_ne. split; [congruence|]. apply Hin. by right.
    + rewrite E1, length_app, hadd_ne, hadd_eq by done. simpl. lia.
    + intros _ o' st2 (-> & E3 & E4 & S2 & K2).
      split; [|split; [by rewrite E3, E1, <- app_assoc|split; [|split; [by transitivity st1|by eapply keep_in_trans]]]].
      * apply lko_ext; [|done]. intros y. rewrite shift_cons. f_equal. simpl length. lia.
      * intros q. rewrite E4, E2, elem_of_filter_ne, elem_of_cons. naive_solver.
Qed.

(** ** [dbLockSetMerge] *)

(** A locker of the thread that holds the sets of its list and [e] references besides. *)
Definition holding (e : addr -> Z) (lk : dbLocker) (snap : option (Z * list (recid * addr))) c f d : own :=
  lkx i (plus_in e (locked lk)) (locked lk) snap c f d.
(** The record [r] is in one of these sets. *)
Abbreviation inside lk := (in_sets (locked lk)).

(** What a change of the sets of a locker keeps. *)
Record changes (e : addr -> Z) (lk lk' : dbLocker) snap d (o' : own) st st' : Prop := {
  cg_me : me_locker lk' = me_locker lk;
  cg_refs : refs lk' = refs lk;
  cg_nodup : NoDup (locked lk');
  cg_own : o' = holding e lk' snap [] [] d;
  cg_inside : forall r, inside lk st r -> inside lk' st' r;
  cg_stays : stays none st st'
}.

Lemma plus_in_at e D x : x ∈ D -> plus_in e D x = e x + 1.
Proof. intros H. unfold plus_in. by rewrite decide_True. Qed.

Lemma locks_holding e lk snap c f d x : x ∈ locked lk -> locks (holding e lk snap c f d) x.
Proof. intros H. by apply locks_lko. Qed.

(** The end of the merge: [B] is empty and goes. *)
Lemma merge_release_safe A B e (lk : dbLocker) snap st r : me_locker lk = i -> NoDup (locked lk) ->
  A ∈ locked lk -> B ∈ locked lk -> A ≠ B -> (forall y, 0 <= e y /\ e y + 2 < K) ->
  members st B = [] -> r ∈ members st A ->
  safe_t (do* ow <- get (get_owner B) in
    do* _ <- p_assert (bool_decide (ow = Some (me_locker lk))) in
    do* l' <- match list_delete B (locked lk) with inr l' => Ret l' | inl e => Act (fun _ => inl e) Ret end in
    do* _ <- upd (put_owner B None) in
    do* _ <- sec (fun st => add_ref st B (-1)) in
    do* _ <- upd (fun st => unlock_set t st B) in
    do* _ <- p_dbLockDecRef t B in
    do* A' <- get (get_plock r) in
    do* _ <- p_assert (bool_decide (A = A')) in
    Ret (with_locked lk l')) (lko i (hadd (plus_in e (locked lk)) B 1) (locked lk) snap) st
    (fun lk' o' st' => lk' = with_locked lk (filter (.≠ B) (locked lk)) /\ o' = holding e lk' snap [] [] [] /\
      stays (fun x => x ∈ locked lk /\ x ≠ B) st st').
Proof.
  intros Em Nd HA HB N He EB Hr. set (D := locked lk) in *. set (D' := filter (.≠ B) D).
  assert (HD' : forall y, y ∈ D' <-> y ∈ D /\ y ≠ B) by (intros y; unfold D'; rewrite elem_of_filter_ne; tauto).
  set (h := hadd (plus_in e D) B 1). assert (Hh : h B = e B + 2) by (unfold h; rewrite hadd_eq, plus_in_at by done; lia).
  destruct (He B) as [He1 He2]. set (o := lko i h D snap). set (L := fun x => x ∈ D /\ x ≠ B).
  assert (Hl : olock o B = Some (0%nat, Some i)) by (simpl; by rewrite decide_True).
  assert (HL : forall sa sb, stays (locks o) sa sb -> stays L sa sb).
  { intros sa sb S. eapply stays_mono; [exact S|]. intros x [Hx _]. by apply locks_lko. }
  eapply safe_bind; [by eapply get_owner_safe|]. intros v o' st1 (-> & -> & S1%HL).
  eapply safe_bind with (Q' := fun _ o' st' => o' = o /\ st' = st1).
  { apply safe_assert; [apply bool_decide_eq_true_2; by rewrite Em|done]. }
  intros _ o' st' [-> ->]. unfold list_delete. rewrite decide_True by done. fold D'. cbn [bind].
  eapply safe_bind; [apply (put_owner_safe K lim t B o st1 0 (Some i) None Hl); simpl; lia|].
  intros _ o' st2 (-> & S2%HL). set (o1 := o_lock o B (Some (0%nat, None))).
  assert (L1 : locks o1 B) by (unfold locks, o1; simpl; by rewrite decide_True).
  assert (HL1 : forall sa sb, stays (locks o1) sa sb -> stays L sa sb).
  { intros sa sb S. eapply stays_mono; [exact S|]. intros x [Hx Nx]. apply locks_lock; [done|]. by apply locks_lko. }
  eapply safe_bind; [apply (add_ref_safe B (-1) o1 st2 L1); simpl; try lia|].
  intros _ o' st3 (-> & S3%HL1). set (o2 := o_ref o1 B (-1)).
  assert (L2 : olock o2 B = Some (0%nat, None)) by (simpl; by rewrite decide_True).
  eapply safe_bind; [apply (unlock_safe K lim t B o2 st3 0 None L2); [done|simpl; rewrite hadd_eq; lia| |]|].
  { intros q. apply not_elem_of_nil. }
  { done. }
  intros _ o' st4 (-> & S4%HL1). replace (o_lock o2 B (unbump (olock o2 B))) with (lko i (hadd h B (-1)) D' snap).
  2: { rewrite L2. simpl. symmetry. change (o_lock o2 B None) with (o_lock (o_lock (lko i (hadd h B (-1)) D snap) B (Some (0%nat, None))) B None).
       rewrite o_lock_lock. by apply lko_unlock. }
  eapply safe_bind; [apply lko_decref; [rewrite hadd_eq; lia|rewrite HD'; tauto|lia]|].
  intros _ o' st5 (-> & S5).
  assert (S5' : stays L st4 st5) by (eapply stays_mono; [exact S5|]; intros x Hx; by apply HD').
  assert (S15 : stays L st st5) by (transitivity st1; [done|]; transitivity st2; [done|]; transitivity st3; [done|]; by transitivity st4).
  replace (lko i (hadd (hadd h B (-1)) B (-1)) D' snap) with (lko i (plus_in e D') D' snap).
  2: { apply lko_ext; [|done]. intros y. unfold h, hadd, plus_in. pose proof (HD' y).
       destruct (decide (y = B)), (decide (y ∈ D)), (decide (y ∈ D')); naive_solver lia. }
  set (o3 := lko i (plus_in e D') D' snap). assert (HA' : A ∈ D') by (by apply HD').
  eapply safe_bind; [apply (get_plock_safe r A o3 st5); [by apply locks_lko|]|].
  { rewrite (sy_mem _ _ _ S15 A); [done|by split]. }
  intros A' o' st6 (-> & -> & S6). rewrite bool_decide_true by done. simpl. split; [done|]. split; [done|].
  transitivity st5; [done|]. apply stays_D in S6. eapply stays_mono; [exact S6|]. intros x Hx. by apply HD'.
Qed.

(** The records of [B] are in [A], the references follow. *)
Lemma merge_refs_safe A B e lk snap st Nb : me_locker lk = i -> A ∈ locked lk -> B ∈ locked lk -> A ≠ B ->
  (forall y, 0 <= e y /\ e y + 2 < K) -> 0 < Nb -> Nb <= zlen (members st A) -> members st B = [] ->
  (forall a b, a ∈ members st A -> b ∈ members st A -> lconn (fun r => r ∈ members st A) st a b) ->
  let o := lkx i (shift_refs (plus_in e (locked lk)) B A Nb) (locked lk) snap [A; B] [] [] in
  forall Q (p : prog dbLocker),
  (forall st', stays (fun x => x ∈ locked lk) st st' ->
    safe_t p (lko i (hadd (plus_in e (locked lk)) B 1) (locked lk) snap) st' Q) ->
  safe_t (do* cnt <- get (get_refcount B) in
    do* _ <- p_assert (Nb + 1 <=? cnt) in
    do* _ <- sec (fun st => add_ref st A Nb) in
    do* _ <- sec (fun st => add_ref st B (- Nb + 1)) in p) o st Q.
Proof.
  intros Em HA HB N He HNb HmA EB Hw o0 Q p Hp. set (D := locked lk) in *. set (o := lko i (shift_refs (plus_in e D) B A Nb) D snap). destruct (He A) as [HeA1 HeA2]. destruct (He B) as [HeB1 HeB2].
  assert (HoA : oref o A = e A + 1 - Nb).
  { simpl. unfold shift_refs. rewrite hadd_ne, hadd_eq, plus_in_at by done. lia. }
  assert (HoB : oref o B = e B + 1 + Nb).
  { simpl. unfold shift_refs. rewrite hadd_eq, hadd_ne, plus_in_at by done. lia. }
  assert (LA : locks o A) by (by apply locks_lko). assert (LB : locks o B) by (by apply locks_lko).
  eapply safe_bind; [apply (get_refcount_settle B o0 st LB)|].
  { intros st' S. pose proof (sy_mem _ _ _ S A LA) as EA. pose proof (sy_mem _ _ _ S B LB) as EB'. rewrite EB in EB'. split.
    - intros x y a b [->|Hx]%elem_of_cons [->|Hy]%elem_of_cons Ha Hb _; [done| | |by apply list_elem_of_singleton in Hx as ->; apply list_elem_of_singleton in Hy as ->].
      + apply list_elem_of_singleton in Hy as ->. rewrite EB' in Hb. by apply not_elem_of_nil in Hb.
      + apply list_elem_of_singleton in Hx as ->. rewrite EB' in Ha. by apply not_elem_of_nil in Ha.
    - intros x a b [->|Hx]%elem_of_cons Ha Hb.
      + rewrite EA in Ha, Hb. apply (lconn_conn (fun r => r ∈ members st A)). eapply lconn_keep; [|by apply Hw].
        intros r Hr. split; [done|]. by apply (sy_rec _ _ _ S A).
      + apply list_elem_of_singleton in Hx as ->. rewrite EB' in Ha. by apply not_elem_of_nil in Ha. }
  intros cnt o' st1 (Hc & -> & S1). change (stays (locks o) st st1) in S1. change (zlen (members st1 B) + oref o B <= cnt) in Hc.
  change (o_flux o0 [] (oflag o0) (odirty o0)) with o.
  pose proof (sy_mem _ _ _ S1 A LA) as EA1. pose proof (sy_mem _ _ _ S1 B LB) as EB1. rewrite EB1, EB in Hc. simpl length in Hc.
  eapply safe_bind with (Q' := fun _ o' st' => o' = o /\ st' = st1).
  { apply safe_assert; [apply Z.leb_le; lia|done]. }
  intros _ o' st' [-> ->].
  eapply safe_bind; [apply (add_ref_safe A Nb o st1 LA); rewrite ?EA1; try lia|].
  { left. intros E0. rewrite E0 in HmA. simpl in HmA. lia. }
  intros _ o' st2 (-> & S2). set (o2 := o_ref o A Nb).
  assert (HoB2 : oref o2 B = e B + 1 + Nb) by (unfold o2; simpl; by rewrite hadd_ne).
  pose proof (sy_mem _ _ _ S2 B LB) as EB2.
  eapply safe_bind; [apply (add_ref_safe B (- Nb + 1) o2 st2 LB); rewrite ?EB2, ?EB1, ?EB; simpl length; try lia|].
  intros _ o' st3 (-> & S3).
  replace (o_ref o2 B (- Nb + 1)) with (lko i (hadd (plus_in e D) B 1) D snap).
  2: { unfold o2, o. rewrite !lko_ref. apply lko_ext; [|done]. intros y. unfold shift_refs, hadd.
       destruct (decide (y = A)), (decide (y = B)); subst; done || lia. }
  apply Hp. apply stays_D in S1. transitivity st1; [done|]. transitivity st2; eapply stays_D; [exact S2|exact S3].
Qed.

Lemma inside_merge A B lk st st' : A ∈ locked lk -> A ≠ B ->
  members st' A = members st A ++ members st B -> stays (but (locked lk) A B) st st' ->
  forall r, inside lk st r -> exists x, x ∈ locked lk /\ x ≠ B /\ r ∈ members st' x.
Proof.
  intros HA N EA S r (x & Hx & Hr). destruct (decide (x = B)) as [->|NB].
  - exists A. do 2 (split; [done|]). rewrite EA, elem_of_app. by right.
  - destruct (decide (x = A)) as [->|NA].
    + exists A. do 2 (split; [done|]). rewrite EA, elem_of_app. by left.
    + exists x. do 2 (split; [done|]). by rewrite (sy_mem _ _ _ S).
Qed.

(** The records of [A] and [B], which the new link connects, are in [A] now. *)
Lemma whole_merge A B st st' : (forall a b, in_sets [A; B] st a -> in_sets [A; B] st b -> lconn (in_sets [A; B] st) st a b) ->
  members st' A = members st A ++ members st B -> (forall r, in_sets [A; B] st r -> recs st' !! r = recs st !! r) ->
  forall a b, a ∈ members st' A -> b ∈ members st' A -> lconn (fun r => r ∈ members st' A) st' a b.
Proof.
  intros Hw EA Hr. assert (Hin : forall r, r ∈ members st' A <-> in_sets [A; B] st r)
    by (intros r; by rewrite EA, elem_of_app, in_sets_2).
  intros a b Ha%Hin Hb%Hin. eapply lconn_keep; [|by apply Hw]. intros r H. split; [by apply Hin|auto].
Qed.

Lemma merge_safe e lk snap st r1 r2 A B : me_locker lk = i -> NoDup (locked lk) -> (forall y, 0 <= e y /\ e y + 2 < K) ->
  A ∈ locked lk -> r1 ∈ members st A -> B ∈ locked lk -> r2 ∈ members st B ->
  (A ≠ B -> forall a b, in_sets [A; B] st a -> in_sets [A; B] st b -> lconn (in_sets [A; B] st) st a b) ->
  safe_t (p_dbLockSetMerge t lk r1 r2) (holding e lk snap (if decide (A = B) then [] else [A; B]) [] []) st
    (fun lk' o' st' => changes e lk lk' snap [] o' st st').
Proof.
  intros Em Nd He HA Hr1 HB Hr2 Hw. set (o := holding e lk snap _ [] []). unfold p_dbLockSetMerge.
  pose proof (locks_holding e lk snap (if decide (A = B) then [] else [A; B]) [] []) as HL. fold o in HL.
  assert (Hl : forall x, x ∈ locked lk -> olock o x = Some (0%nat, Some i)) by (intros x Hx; simpl; by rewrite decide_True).
  eapply safe_bind; [apply (get_plock_safe r1 A o st); auto|]. intros ? o' st1 (-> & -> & S1%stays_D).
  eapply safe_bind; [apply (get_plock_safe r2 B o st1); [auto|by rewrite (sy_mem _ _ _ S1)]|].
  intros ? o' st2 (-> & -> & S2%stays_D).
  eapply safe_bind; [eapply (get_owner_safe K lim t A o st2); auto|]. intros ? o' st3 (-> & -> & S3%stays_D).
  eapply safe_bind; [eapply (get_owner_safe K lim t B o st3); auto|]. intros ? o' st4 (-> & -> & S4%stays_D).
  assert (S14 : stays (fun x => x ∈ locked lk) st st4) by (transitivity st1; [done|]; transitivity st2; [done|]; by transitivity st3).
  eapply safe_bind with (Q' := fun _ o' st' => o' = o /\ st' = st4).
  { apply safe_require; [rewrite Em; by rewrite bool_decide_true|done]. }
  intros _ o' st' [-> ->]. unfold o. destruct (decide (A = B)) as [<-|N].
  { simpl. split; try done. - intros r (x & Hx & Hr). exists x. by rewrite (sy_mem _ _ _ S14). - by eapply stays_none. }
  specialize (Hw N). clear o HL Hl. set (o := holding e lk snap [A; B] [] []).
  assert (HL : forall x, x ∈ locked lk -> locks o x) by (intros x; by apply locks_holding).
  eapply safe_bind with (Q' := fun l o' st' => l = members st' B /\ o' = o /\ stays (fun x => x ∈ locked lk) st st').
  { apply safe_get. intros os j st5 Hj I Hr. destruct (locked_set_at os j o st5 B I Hj) as (s & E & Eb & _); [auto|].
    unfold get_set. rewrite E. exists (lockRecordList s). do 3 (split; [done|]).
    transitivity st4; [done|]. eapply stays_D. by apply rely_stays. }
  intros l o' st5 (-> & -> & S5). pose proof (sy_mem _ _ _ S5 A HA) as EA. pose proof (sy_mem _ _ _ S5 B HB) as EB.
  rewrite EB. set (l := members st B) in *.
  assert (Hz : 0 < zlen l) by (destruct l; [by apply not_elem_of_nil in Hr2|simpl; lia]).
  eapply safe_bind with (Q' := fun _ o' st' => o' = o /\ st' = st5).
  { apply safe_assert; [by apply Z.ltb_lt|done]. }
  intros _ o' st' [-> ->]. destruct (He A).
  assert (HzA : 0 < zlen (members st A)) by (destruct (members st A); [by apply not_elem_of_nil in Hr1|simpl; lia]).
  eapply safe_bind; [apply (merge_records_safe A B l [A; B] [] N); try done; [by left|right; by left|]|].
  { rewrite EA, plus_in_at by done. lia. }
  intros _ o' st6 (-> & EA6 & EB6 & S6 & K6). rewrite EA in EA6.
  assert (K06 : keeps (locked lk) (locked lk) st st6) by (eapply keep_in_trans; [by eapply stays_keeps|done]).
  apply (merge_refs_safe A B e lk snap st6 (zlen l)); try done.
  { rewrite EA6, length_app. lia. }
  { apply (whole_merge A B st st6 Hw EA6). intros r Hr. apply K06. destruct Hr as (x & Hx & Hr). exists x. split; [|done].
    apply elem_of_cons in Hx as [->|Hx]; [done|]. by apply list_elem_of_singleton in Hx as ->. }
  intros st7 S7. eapply safe_mono; [apply (merge_release_safe A B e lk snap st7 r2); try done|].
  { by rewrite (sy_mem _ _ _ S7). }
  { rewrite (sy_mem _ _ _ S7), EA6, elem_of_app by done. by right. }
  intros lk' o' st8 (-> & -> & S8). split; try done.
  - simpl. by apply NoDup_filter.
  - intros r Hr. destruct (inside_merge A B lk st st6 HA N EA6) with (r := r) as (x & Hx & Nx & Hrx); [|done|].
    { transitivity st5; [|done]. eapply stays_mono; [exact S5|]. by intros x (? & _). }
    exists x. split; [simpl; rewrite elem_of_filter_ne; tauto|]. by rewrite (sy_mem _ _ _ S8), (sy_mem _ _ _ S7).
  - transitivity st5; [by eapply stays_none|]. transitivity st6; [by eapply stays_none|].
    transitivity st7; by eapply stays_none.
Qed.
End Change.
