(* ===== verification/DbLockApart.v ===== *)
(** * Lock sets: threads that split sets

    The second half of [dbLockSetSplit] as a program of a thread among others: a new set that the thread locks, and the
    references that go with its records. *)

From stdpp Require Import base gmap list sorting fin_sets relations.
From Stdlib Require Import ZArith Lia Bool.
From S2P Require Import Prelude DbLock DbLockInv DbLocker DbLockSets DbLockGraph DbLockProg DbLockConc DbLockSteps DbLockMoves DbLockThreads DbLockMany DbLockHold DbLockFlux DbLockChange.
Open Scope Z_scope.

Section Apart.
Context (K : Z) (lim : option Z) (t : tid) (i : lockerid) (calloc : gmap addr lockSet -> addr).
Hypothesis calloc_fresh : forall m, m !! calloc m = None.

Abbreviation safe_t := (safe K lim t).
Abbreviation none := (fun _ : addr => False).

(** ** A set that no other thread knows *)

Definition alone (o : own) (x : addr) st (s : lockSet) : Prop :=
  sets st !! x = Some s /\ refcount s = 1 /\ oref o x = 1 /\ lockRecordList s = [].

Lemma alone_rely o x st st' s : rely o st st' -> alone o x st s -> alone o x st' s.
Proof.
  intros Hr (E & Er & Eo & El). split; [|done]. apply (re_alone _ _ _ Hr); [done|congruence|lia|done].
Qed.

Lemma make_safe o st : 1 <= K ->
  safe_t (sec (makeSet calloc)) o st (fun x o' st' => o' = o_ref o x 1 /\ olock o x = None /\
    (exists s, alone o' x st' s /\ lock s = None /\ ownerlocker s = None) /\ stays (locks o) st st').
Proof.
  intros HK os j st1 Hj I Hr [Hw _].
  destruct (make_step K os st1 I j t o Hj calloc calloc_fresh HK Hw) as (x & st2 & -> & M & [Hs [Ho Hl] (Hlr & Hrec & Hcnt) Hm]).
  exists (o_ref o x 1). split; [done|]. split; [done|]. split; [done|]. split.
  - destruct Hs as (s & E & Er & El & L & W). exists s. split; [|done]. do 2 (split; [done|]).
    split; [simpl; rewrite hadd_eq; lia|done].
  - transitivity st1; [by apply rely_stays|]. by apply sets_stay.
Qed.

(** What the thread does with its mutex. *)
Lemma alone_step os j o st x s s' : cinv K os st -> os !! j = Some (t, o) -> alone o x st s ->
  lockRecordList s' = lockRecordList s -> id s' = id s -> refcount s' = refcount s ->
  mine t s -> (exists n, lock s' = Some (t, S n)) ->
  moves K os j t o (o_lock o x (my_lock t s')) st (put_set st x s') /\ alone (o_lock o x (my_lock t s')) x (put_set st x s') s' /\
  stays (locks o) st (put_set st x s').
Proof.
  intros I Hj (E & Er & Eo & El) E1 E2 E3 M [n L]. split; [|split; [|by eapply put_stays]].
  - apply (mutex_step K os st I j t o Hj x s s'); rewrite ?L; try done; try lia.
    + intros t' m. rewrite L. by intros [= <- _].
    + intros t' m [= _ <-]. lia.
  - split; [simpl; by rewrite lookup_insert_eq|]. split; [congruence|]. split; [done|congruence].
Qed.

Lemma alone_lock_safe o st x s : alone o x st s -> lock s = None -> ownerlocker s = None ->
  safe_t (upd (fun st => lock_set t st x)) o st (fun _ o' st' => o' = o_lock o x (Some (0%nat, None)) /\
    (exists s', alone o' x st' s' /\ lock s' = Some (t, 1%nat) /\ ownerlocker s' = None) /\ stays (locks o) st st').
Proof.
  intros A L W os j st1 Hj I Hr Hw. apply (alone_rely _ _ _ _ _ Hr) in A.
  unfold lock_set, get_set. rewrite (proj1 A). cbn [the ebind]. rewrite L. simpl. set (s' := with_lock s _).
  destruct (alone_step os j o st1 x s s' I Hj A) as (M & A' & S); try done.
  { intros t' m. by rewrite L. }
  { by exists 0%nat. }
  assert (Em : my_lock t s' = Some (0%nat, None)) by (unfold my_lock; simpl; by rewrite decide_True, W).
  rewrite Em in *. exists (o_lock o x (Some (0%nat, None))). split; [done|]. split; [done|].
  split; [eauto|]. transitivity st1; [by apply rely_stays|done].
Qed.

(** Links may then go between the records of [x] and of sets in the hands of the thread. *)
Lemma alone_owner_safe {A} o st x s c (p : prog A) Q : alone o x st s -> lock s = Some (t, 1%nat) -> ownerlocker s = None ->
  olock o x = Some (0%nat, None) -> (forall y, y ∈ ocross o -> y ∈ c) -> (forall y, y ∈ c -> y ∈ ocross o \/ y = x) ->
  (forall st', members st' x = [] -> stays (locks o) st st' ->
    safe_t p (o_flux (o_lock o x (Some (0%nat, Some i))) c (oflag o) (odirty o)) st' Q) ->
  safe_t (do* ow <- get (get_owner x) in
    do* _ <- p_assert (if ow then false else true) in
    do* _ <- upd (put_owner x (Some i)) in
    do* cnt <- get (get_refcount x) in
    do* _ <- p_assert (cnt =? 1) in p) o st Q.
Proof.
  intros Al L W Hl Hc1 Hc2 Hp.
  eapply safe_bind with (Q' := fun v o' st' => v = None /\ o' = o /\ alone o x st' s /\ stays (locks o) st st').
  { apply safe_get. intros os j st1 Hj I Hr. apply (alone_rely _ _ _ _ _ Hr) in Al. exists None.
    unfold get_owner, get_set. rewrite (proj1 Al). simpl. rewrite W. do 4 (split; [done|]). by apply rely_stays. }
  intros v o' st1 (-> & -> & A1 & S1). cbn [p_assert bind].
  eapply safe_bind with (Q' := fun _ o' st' => o' = o_lock o x (Some (0%nat, Some i)) /\
    (exists s', alone o' x st' s') /\ stays (locks o) st st').
  { intros os j st2 Hj I Hr Hw. apply (alone_rely _ _ _ _ _ Hr) in A1.
    unfold put_owner, get_set. rewrite (proj1 A1). simpl. set (s' := with_owner s _).
    destruct (alone_step os j o st2 x s s' I Hj A1) as (M & A' & S); try done.
    { intros t' m. rewrite L. by intros [= <- _]. }
    { by exists 0%nat. }
    assert (Em : my_lock t s' = Some (0%nat, Some i)) by (unfold my_lock; simpl; by rewrite L, decide_True).
    rewrite Em in *. exists (o_lock o x (Some (0%nat, Some i))). split; [done|]. split; [done|]. split; [eauto|].
    transitivity st1; [done|]. transitivity st2; [by apply rely_stays|done]. }
  intros _ o' st2 (-> & [s2 A2] & S2). set (o2 := o_lock o x (Some (0%nat, Some i))) in *.
  assert (HL : forall sa sb, stays (locks o2) sa sb -> stays (locks o) sa sb).
  { intros sa sb S. eapply stays_mono; [exact S|]. intros y. by apply locks_lock. }
  eapply safe_bind with (Q' := fun v o' st' => v = 1 /\ o' = o_flux o2 c (oflag o) (odirty o) /\ alone o2 x st' s2 /\
    stays (locks o) st st').
  { apply safe_get_flux. intros os j st3 Hj I Hr. apply (alone_rely _ _ _ _ _ Hr) in A2.
    pose proof (own_inv _ _ _ I _ _ _ Hj) as T. exists 1, c, (oflag o), (odirty o).
    unfold get_refcount, get_set. rewrite (proj1 A2). simpl. destruct A2 as (E & Er & Eo & El).
    split; [by rewrite Er|]. split.
    { apply (links_keep K os st3 I j t o2 Hj); [done|done|]. by split. }
    split; [|split; [apply (ti_flux _ _ _ _ _ T)|]].
    { intros y [Hy| ->]%Hc2; [by apply (ti_cross _ _ _ _ _ T)|]. by rewrite decide_True. }
    do 2 (split; [done|]). split; [done|]. transitivity st2; [done|]. by apply HL, rely_stays. }
  intros v o' st3 (-> & -> & (E & _ & _ & El) & S3). cbn. apply Hp; [|done]. by rewrite (members_lookup _ _ _ E).
Qed.

Lemma plus_in_snoc (e : addr -> Z) D x y : x ∉ D -> hadd (plus_in e D) x 1 y = plus_in e (D ++ [x]) y.
Proof.
  clear. intros Nx. unfold hadd, plus_in. pose proof (elem_of_snoc y x D).
  destruct (decide (y = x)), (decide (y ∈ D)), (decide (y ∈ D ++ [x])); naive_solver lia.
Qed.

Lemma locked_set_safe e lk snap c f d st : me_locker lk = i -> 1 <= K -> (forall y, 0 <= e y) ->
  safe_t (p_locked_set calloc t lk) (holding i e lk snap c f d) st (fun a o' st' => exists x, a = (x, with_locked lk (locked lk ++ [x])) /\
    x ∉ locked lk /\ e x = 0 /\ members st' x = [] /\
    o' = lkx i (plus_in e (locked lk ++ [x])) (locked lk ++ [x]) snap (x :: c) f d /\ stays (fun y => y ∈ locked lk) st st').
Proof.
  intros Em HK He. set (o := holding i e lk snap c f d). unfold p_locked_set.
  eapply safe_bind; [by apply make_safe|]. intros x o' st1 (-> & Hl & (s & A & L & W) & S1). apply stays_D in S1.
  assert (Nx : x ∉ locked lk) by (intros Hx; simpl in Hl; by rewrite decide_True in Hl).
  assert (Hex : e x = 0).
  { destruct A as (_ & _ & Eo & _). simpl in Eo. rewrite hadd_eq in Eo. unfold plus_in in Eo. rewrite decide_False in Eo by done. lia. }
  eapply safe_bind; [by eapply alone_lock_safe|]. intros _ o' st2 (-> & (s2 & A2 & L2 & W2) & S2).
  set (o2 := o_lock (o_ref o x 1) x (Some (0%nat, None))) in *.
  rewrite Em. eapply (alone_owner_safe _ _ _ _ (x :: c)); [done|done|done|simpl; by rewrite decide_True| | |].
  { intros y Hy. by right. }
  { intros y [->|Hy]%elem_of_cons; [by right|by left]. }
  intros st3 E3 S3. simpl. exists x. do 4 (split; [done|]). split.
  - unfold o2. rewrite o_lock_lock. unfold o, holding. rewrite lko_ref, lko_lock. unfold o_flux. simpl.
    change (lkx i (hadd (plus_in e (locked lk)) x 1) (x :: locked lk) snap (x :: c) f d =
      lkx i (plus_in e (locked lk ++ [x])) (locked lk ++ [x]) snap (x :: c) f d). apply lko_ext.
    + intros y. by apply plus_in_snoc.
    + intros y. rewrite elem_of_cons, elem_of_snoc. tauto.
  - transitivity st1; [done|]. transitivity st2.
    + eapply stays_mono; [exact S2|]. intros y Hy. by apply locks_lko.
    + eapply stays_mono; [exact S3|]. intros y Hy. unfold o2. apply locks_lock; [done|]. by apply locks_lko.
Qed.

(** ** The split *)

(** The counters after the records moved from [ls] to [x]. *)
Lemma split_refs_safe e lk snap c d ls x r1 r2 st : ls ∈ locked lk -> x ∈ locked lk -> x ≠ ls ->
  (forall y, 0 <= e y /\ e y + 2 < K) -> r1 ∈ members st ls -> r2 ∈ members st x -> e x = 0 ->
  (forall st', stays (fun y => y ∈ locked lk) st st' -> settled c st') ->
  forall lk' (Q : dbLocker -> own -> lk_state -> Prop),
  (forall st', stays (fun y => y ∈ locked lk) st st' -> Q lk' (lkx i (plus_in e (locked lk)) (locked lk) snap [] [] d) st') ->
  safe_t (do* m <- get (get_count x) in
    do* _ <- sec (fun st => add_ref st ls (- m)) in
    do* cnt <- get (get_refcount ls) in
    do* _ <- p_assert (0 <? cnt) in
    do* _ <- sec (fun st => add_ref st x m) in
    do* cnt <- get (get_refcount x) in
    do* _ <- p_assert (m + 1 <=? cnt) in
    do* ls' <- get (get_plock r2) in
    do* _ <- p_assert (bool_decide (ls' = x)) in
    do* cnt <- get (get_refcount ls) in
    do* _ <- p_assert (2 <=? cnt) in Ret lk')
    (lkx i (shift_refs (plus_in e (locked lk)) ls x (zlen (members st x))) (locked lk) snap c [] d) st Q.
Proof.
  intros Hls Hx N He Hr1 Hr2 Hex Hset lk' Q HQ. set (D := locked lk) in *. set (m := zlen (members st x)).
  set (o0 := lkx i (shift_refs (plus_in e D) ls x m) D snap c [] d).
  set (o := lkx i (shift_refs (plus_in e D) ls x m) D snap [] [] d). destruct (He ls) as [He1 He2].
  assert (Hol : oref o ls = e ls + 1 + m) by (simpl; unfold shift_refs; rewrite hadd_eq, hadd_ne, plus_in_at by done; lia).
  assert (Hox : oref o x = 1 - m) by (simpl; unfold shift_refs; rewrite hadd_ne, hadd_eq, plus_in_at by done; lia).
  assert (Hz1 : 0 < zlen (members st ls)) by (destruct (members st ls); [by apply not_elem_of_nil in Hr1|simpl; lia]).
  assert (Hz2 : 0 < m) by (unfold m; destruct (members st x); [by apply not_elem_of_nil in Hr2|simpl; lia]).
  assert (Hne : forall sa y, stays (fun y => y ∈ D) st sa -> y ∈ D -> 0 < zlen (members st y) -> members sa y ≠ []).
  { intros sa y S Hy Hz E. rewrite (sy_mem _ _ _ S y Hy) in E. rewrite E in Hz. simpl in Hz. lia. }
  assert (L : forall h y, y ∈ D -> locks (lkx i h D snap [] [] d) y) by (intros h y; by apply locks_lko).
  eapply safe_bind; [apply (get_count_settle K lim t x o0 st); [by apply locks_lko|]|].
  { intros st' S%stays_D. by apply Hset. }
  intros ? o' st1 (-> & -> & S1%stays_D). change (o_flux o0 [] (oflag o0) (odirty o0)) with o.
  rewrite (sy_mem _ _ _ S1 x Hx). fold m.
  eapply safe_bind; [apply (add_ref_safe K lim t ls (- m) o st1 (L _ ls Hls)); rewrite ?(sy_mem _ _ _ S1 ls Hls); try lia|].
  intros _ o' st2 (-> & S2). apply stays_D in S2. unfold o. rewrite lko_ref. set (h2 := hadd (shift_refs _ _ _ _) ls (- m)).
  assert (Hh2 : h2 ls = e ls + 1 /\ h2 x = 1 - m).
  { unfold h2. rewrite hadd_eq, hadd_ne by done. simpl in Hol, Hox. lia. }
  assert (S02 : stays (fun y => y ∈ D) st st2) by (by transitivity st1).
  eapply safe_bind; [by apply (get_refcount_safe K lim t ls _ st2 (L _ ls Hls))|]. intros c1 o' st3 (Hc1 & -> & S3%stays_D).
  assert (S03 : stays (fun y => y ∈ D) st st3) by (by transitivity st2).
  rewrite (sy_mem _ _ _ S03 ls Hls) in Hc1. simpl in Hc1.
  eapply safe_bind with (Q' := fun _ o' st' => o' = lkx i h2 D snap [] [] d /\ st' = st3).
  { apply safe_assert; [apply Z.ltb_lt; lia|done]. }
  intros _ o' st' [-> ->].
  eapply safe_bind; [apply (add_ref_safe K lim t x m _ st3 (L _ x Hx)); simpl; rewrite ?(sy_mem _ _ _ S03 x Hx); fold m; try lia|].
  { left. intros E. unfold m in Hz2. rewrite E in Hz2. simpl in Hz2. lia. }
  intros _ o' st4 (-> & S4). apply stays_D in S4. rewrite lko_ref.
  replace (lkx i (hadd h2 x m) D snap [] [] d) with (lkx i (plus_in e D) D snap [] [] d).
  2: { apply lko_ext; [|done]. intros y. unfold h2, shift_refs, hadd. repeat destruct (decide _); lia || congruence. }
  set (o4 := lkx i (plus_in e D) D snap [] [] d).
  assert (S04 : stays (fun y => y ∈ D) st st4) by (by transitivity st3).
  eapply safe_bind; [by apply (get_refcount_safe K lim t x o4 st4 (L _ x Hx))|]. intros c2 o' st5 (Hc2 & -> & S5%stays_D).
  assert (S05 : stays (fun y => y ∈ D) st st5) by (by transitivity st4).
  rewrite (sy_mem _ _ _ S05 x Hx) in Hc2. simpl in Hc2. rewrite plus_in_at in Hc2 by done. fold m in Hc2.
  eapply safe_bind with (Q' := fun _ o' st' => o' = o4 /\ st' = st5).
  { apply safe_assert; [apply Z.leb_le; lia|done]. }
  intros _ o' st' [-> ->].
  eapply safe_bind; [apply (get_plock_safe K lim t r2 x o4 st5 (L _ x Hx)); by rewrite (sy_mem _ _ _ S05 x Hx)|].
  intros ? o' st6 (-> & -> & S6%stays_D). rewrite bool_decide_true by done. cbn [p_assert bind].
  assert (S06 : stays (fun y => y ∈ D) st st6) by (by transitivity st5).
  eapply safe_bind; [by apply (get_refcount_safe K lim t ls o4 st6 (L _ ls Hls))|]. intros c3 o' st7 (Hc3 & -> & S7%stays_D).
  assert (S07 : stays (fun y => y ∈ D) st st7) by (by transitivity st6).
  rewrite (sy_mem _ _ _ S07 ls Hls) in Hc3. simpl in Hc3. rewrite plus_in_at in Hc3 by done.
  eapply safe_bind with (Q' := fun _ o' st' => o' = o4 /\ st' = st7).
  { apply safe_assert; [apply Z.leb_le; lia|done]. }
  intros _ o' st' [-> ->]. by apply HQ.
Qed.

End Apart.
