(* ===== verification/DbLockSplit.v ===== *)
(** * Lock sets: threads that search the links

    The search of [dbLockSetSplit] and what follows it, as programs of a thread among others. *)

From stdpp Require Import base gmap list sorting fin_sets relations.
From Stdlib Require Import ZArith Lia Bool.
From S2P Require Import Prelude DbLock DbLockInv DbLocker DbLockSets DbLockGraph DbLockProg DbLockConc DbLockSteps DbLockMoves DbLockThreads DbLockMany DbLockHold DbLockFlux DbLockChange DbLockApart.
Open Scope Z_scope.

(** ** Before and after the search *)

(** Every record of [ls] is connected to [r1] or to [r2], the ends of the link that was removed. *)
Definition broken (ls : addr) (r1 r2 : recid) st : Prop := forall r, r ∈ members st ls ->
  lconn (fun q => q ∈ members st ls) st r r1 \/ lconn (fun q => q ∈ members st ls) st r r2.

Lemma broken_stays (L : addr -> Prop) ls r1 r2 st st' : stays L st st' -> L ls -> broken ls r1 r2 st -> broken ls r1 r2 st'.
Proof.
  intros S Hl Hb r Hr. rewrite (sy_mem _ _ _ S ls Hl) in *.
  assert (H : forall q, q ∈ members st ls -> q ∈ members st ls /\ recs st' !! q = recs st !! q)
    by (intros q Hq; split; [done|by apply (sy_rec _ _ _ S ls)]).
  destruct (Hb r Hr) as [H1|H1]; [left|right]; (eapply lconn_keep; [exact H|exact H1]).
Qed.

Lemma broken_settled ls r1 r2 st : broken ls r1 r2 st -> conn st r2 r1 -> settled [ls] st.
Proof.
  intros Hb Hc. assert (H : forall r, r ∈ members st ls -> conn st r r1).
  { intros r Hr. destruct (Hb r Hr) as [H|H]; apply lconn_conn in H; [done|]. by etransitivity. }
  split.
  - by intros x y a b ->%list_elem_of_singleton ->%list_elem_of_singleton.
  - intros x a b ->%list_elem_of_singleton Ha Hb'. etransitivity; [by apply H|]. symmetry. by apply H.
Qed.

(** The records of [ls] that the search found: they and the others are connected each and apart. *)
Record found st (ls : addr) (r1 r2 : recid) (newLS : list recid) : Prop := {
  fd_nodup : NoDup newLS;
  fd_second : r2 ∈ newLS;
  fd_first : r1 ∉ newLS;
  fd_members : forall r, r ∈ newLS -> r ∈ members st ls;
  fd_conn : forall a b, a ∈ newLS -> b ∈ newLS -> lconn (fun r => r ∈ newLS) st a b;
  fd_rest : forall a b, a ∈ members st ls -> a ∉ newLS -> b ∈ members st ls -> b ∉ newLS ->
    lconn (fun r => r ∈ members st ls /\ r ∉ newLS) st a b;
  fd_cut : forall a b, a ∈ members st ls -> b ∈ members st ls -> edge st a b -> (a ∈ newLS <-> b ∈ newLS)
}.

Lemma found_stays (L : addr -> Prop) st st' ls r1 r2 l : stays L st st' -> L ls -> found st ls r1 r2 l -> found st' ls r1 r2 l.
Proof.
  intros S Hl []. pose proof (sy_mem _ _ _ S ls Hl) as E.
  assert (H : forall q, q ∈ members st ls -> recs st' !! q = recs st !! q) by (intros q Hq; by apply (sy_rec _ _ _ S ls)).
  split; rewrite ?E; try done.
  - intros a b Ha Hb. eapply lconn_keep; [|by apply fd_conn0]. auto.
  - intros a b Ha Na Hb Nb. eapply lconn_keep; [|by apply fd_rest0]. intros q [Hq Nq]. auto.
  - intros a b Ha Hb He. apply fd_cut0; [done..|]. eapply edge_recs; [|exact He]. by rewrite H.
Qed.

Lemma found_short st ls r1 r2 l : found st ls r1 r2 l -> r1 ∈ members st ls -> zlen l < zlen (members st ls).
Proof.
  intros [Nd _ N1 Hm _ _ _] H1. apply inj_lt. apply (submseteq_length (r1 :: l)). apply NoDup_submseteq.
  - by constructor.
  - intros r [->|Hr]%elem_of_cons; auto.
Qed.

(** The two sets after the records moved. *)
Lemma found_settled st st' ls x r1 r2 l : found st ls r1 r2 l -> x ≠ ls -> members st' x = l ->
  (forall r, r ∈ members st' ls <-> r ∈ members st ls /\ r ∉ l) ->
  (forall r, r ∈ members st ls -> recs st' !! r = recs st !! r) -> settled [x; ls] st'.
Proof.
  intros [_ _ _ Hm Hc Hre Hcut] N Ex Els Hr. split.
  - intros y z a b Hy Hz Ha Hb He.
    assert (H : a ∈ members st ls /\ b ∈ members st ls /\ (a ∈ l <-> y = x) /\ (b ∈ l <-> z = x)).
    { clear He. apply elem_of_cons in Hy as [->|Hy]; [|apply list_elem_of_singleton in Hy as ->];
        (apply elem_of_cons in Hz as [->|Hz]; [|apply list_elem_of_singleton in Hz as ->]);
        rewrite ?Ex in *; rewrite ?Els in *; naive_solver. }
    destruct H as (H1 & H2 & H3 & H4). specialize (Hcut a b H1 H2).
    rewrite H3, H4 in Hcut. assert (He' : edge st a b) by (eapply edge_recs; [|exact He]; by rewrite Hr).
    specialize (Hcut He'). rewrite !elem_of_cons, elem_of_nil in Hy, Hz. naive_solver.
  - intros y a b [->|Hy]%elem_of_cons Ha Hb.
    + rewrite Ex in Ha, Hb. apply (lconn_conn (fun r => r ∈ l)). eapply lconn_keep; [|by apply Hc]. auto.
    + apply list_elem_of_singleton in Hy as ->. apply Els in Ha as [Ha Na], Hb as [Hb Nb].
      eapply lconn_conn, lconn_keep; [|by apply (Hre a b)]. intros q [Hq Nq]. split; [|by apply Hr]. exact (conj Hq Nq).
Qed.

Section Split.
Context (K : Z) (lim : option Z) (t : tid) (i : lockerid) (calloc : gmap addr lockSet -> addr).
Hypothesis calloc_fresh : forall m, m !! calloc m = None.

Abbreviation safe_t := (safe K lim t).
Abbreviation none := (fun _ : addr => False).
Abbreviation holds_i := (holding i).

(** ** The search *)

(** The outcome of the search in a state of the system. *)
Lemma search_at os j o st ls r1 r2 : cinv K os st -> os !! j = Some (t, o) -> ocross o = [ls] -> oflag o = [] ->
  locks o ls -> r1 ∈ members st ls -> r2 ∈ members st ls -> r1 ≠ r2 -> broken ls r1 r2 st ->
  exists b q l st', search_from r1 r2 st = inr (b, q, l, st') /\ marked st st' (q ++ l) /\
    (forall r, r ∈ q ++ l -> r ∈ members st ls) /\
    if b then conn st r2 r1 else q = [] /\ found st ls r1 r2 l.
Proof.
  intros I Hj Hc Hf Hl H1 H2 N Hb. pose proof (ci_core _ _ _ I) as C. pose proof (li_graph _ _ (ci_links _ _ _ I)) as G.
  pose proof (co_mem _ _ _ C _ _ H2) as Hp. unfold plock in Hp. destruct (lrs st !! r2) as [lr2|] eqn:E2; [|done].
  assert (Hcl : forall a b, edge st a b -> (a ∈ members st ls <-> b ∈ members st ls)).
  { intros a b Hab. rewrite <- !in_sets_1. apply (closed_home K os st I j t o Hj [ls]); [|by rewrite Hc|done].
    by intros x ->%list_elem_of_singleton. }
  assert (Hin : forall r, conn st r2 r -> r ∈ members st ls)
    by (intros r H; by apply (conn_lconn (fun r => r ∈ members st ls) st r2 r Hcl H)).
  destruct (proj1 (wp_inr _ _) (search_spec st G r1 r2 (fun r lr H =>
    flag_home K os st I j t o Hj ls r lr Hl (Hin r H) ltac:(rewrite Hf; apply not_elem_of_nil)) lr2 E2 N)) as ([[[b q] l] st'] & E & M & HM).
  exists b, q, l, st'. split; [unfold search_from, get_lr; by rewrite E2|]. split; [apply M|]. split.
  { intros r Hr. apply Hin. by apply (met_dom _ _ _ _ _ M). }
  destruct b; [done|]. destruct HM as (-> & Nc & Hn). split; [done|]. pose proof M as [_ Nd N1 Hd]. split; try done.
  - apply Hn. apply rtc_refl.
  - intros r Hr. by apply Hin, Hn.
  - intros a b Ha Hb'. apply (conn_lconn (fun r => r ∈ l) st a b); [|etransitivity; [symmetry; by apply Hn|by apply Hn]|done].
    intros c d Hcd. rewrite !Hn. split; intros H; (eapply rtc_r; [exact H|]); [by left|by right].
  - assert (H3 : forall a, a ∈ members st ls -> a ∉ l -> conn st a r1).
    { intros a Ha Na. destruct (Hb a Ha) as [H|H]; apply lconn_conn in H; [done|]. destruct Na. apply Hn. by symmetry. }
    intros a b Ha Na Hb' Nb. apply conn_lconn; [|etransitivity; [by apply H3|symmetry; by apply H3]|done].
    intros c d Hcd. rewrite (Hcl c d Hcd), !Hn. split; intros [H H']; (split; [done|]); intros H4; apply H'; (eapply rtc_r; [exact H4|]);
      [by right|by left].
  - intros a b Ha Hb' He. rewrite !Hn. split; intros H; (eapply rtc_r; [exact H|]); [by left|by right].
Qed.

Lemma search_safe e lk snap d st ls r1 r2 : ls ∈ locked lk -> r1 ∈ members st ls -> r2 ∈ members st ls -> r1 ≠ r2 ->
  broken ls r1 r2 st -> (forall l, l ∈ d -> fst l ∈ members st ls) ->
  safe_t (sec (search_from r1 r2)) (holds_i e lk snap [ls] [] d) st (fun v o' st' =>
    let '(b, q, l) := v in
    o' = holds_i e lk snap (if b : bool then [] else [ls]) (q ++ l) d /\ stays (fun y => y ∈ locked lk) st st' /\
    NoDup (members st' ls) /\ (forall r, r ∈ q ++ l -> r ∈ members st' ls) /\
    (b = false -> q = [] /\ found st' ls r1 r2 l)).
Proof.
  intros Hls H1 H2 N Hb Hd os j st1 Hj I Hr Hw. set (o := holds_i e lk snap [ls] [] d) in *.
  assert (L : locks o ls) by (by apply locks_lko).
  pose proof (rely_stays _ _ _ Hr) as S1. pose proof (broken_stays _ _ _ _ _ _ S1 L Hb) as Hb1.
  rewrite <- (sy_mem _ _ _ S1 ls L) in H1, H2. assert (Hd1 : forall l, l ∈ d -> fst l ∈ members st1 ls)
    by (intros l Hl; rewrite (sy_mem _ _ _ S1 ls L); auto).
  destruct (search_at os j o st1 ls r1 r2 I Hj eq_refl eq_refl L H1 H2 N Hb1) as (b & q & l & st2 & -> & M & Hin & HM).
  set (o1 := holds_i e lk snap [ls] (q ++ l) d). set (o2 := holds_i e lk snap (if b then [] else [ls]) (q ++ l) d).
  pose proof (mk_rest _ _ _ M) as Est. pose proof (mk_set _ _ _ M) as Ep.
  assert (Er : recs st2 = recs st1) by (by rewrite Est).
  assert (Em : forall x, members st2 x = members st1 x) by (intros x; rewrite Est; done).
  assert (V1 : linv (<[j := (t, o1)]> os) st2).
  { apply (linv_flags os st1 (ci_links _ _ _ I) j t o Hj [ls] (q ++ l) st2 Er Ep); [done|].
    intros r lr E. destruct (decide (r ∈ q ++ l)) as [|Nr]; [right; by left|right; right].
    rewrite <- (mk_out _ _ _ M r Nr). split; [done|by intros ?%not_elem_of_nil]. }
  assert (V2 : linv (<[j := (t, o2)]> os) st2).
  { destruct b; [|done]. assert (Hj1 : <[j := (t, o1)]> os !! j = Some (t, o1))
      by (apply list_lookup_insert_eq; by eapply lookup_lt_Some).
    rewrite <- (list_insert_insert_eq os j (t, o2) (t, o1)). apply (linv_settle _ st2 V1 j t o1 Hj1).
    - apply (broken_settled ls r1 r2).
      + intros r Hr'. rewrite Em in Hr'.
        destruct (Hb1 r Hr') as [H|H]; [left|right]; (eapply lconn_keep; [|exact H]); intros a Ha; by rewrite Em, Er.
      + by apply (conn_recs st1 st2).
    - intros r x. rewrite Em. unfold plock. rewrite Ep. apply (plock_members K os st1 r x I). }
  exists o2. split.
  - apply (flux_step K os st1 I j t o Hj st2 (if b then [] else [ls]) (q ++ l) d); try done.
    + rewrite Er. rewrite Est at 1. by destruct st1.
    + by rewrite Er.
    + intros l0. unfold link_of. by rewrite Er.
    + by rewrite Er.
    + intros x Hx. destruct b; [by apply not_elem_of_nil in Hx|]. by apply list_elem_of_singleton in Hx as ->.
    + intros r Hr'. exists ls. split; [|done]. apply elem_of_app in Hr' as [|(l0 & -> & ?)%list_elem_of_fmap]; auto.
  - assert (S2 : stays (fun y => y ∈ locked lk) st1 st2).
    { split; try done; rewrite ?Er; try done.
      - intros r x. unfold plock. by rewrite Ep.
      - intros r. by eapply marked_some.
      - intros l0. unfold link_of. by rewrite Er.
      - by rewrite Est. }
    split; [done|]. split; [transitivity st1; [by apply stays_D in S1|done]|]. rewrite Em.
    split; [apply (co_nodup _ _ _ (ci_core _ _ _ I))|]. split; [done|]. intros ->. destruct HM as [-> Hf]. split; [done|].
    by apply (found_stays _ st1 st2 ls r1 r2 l S2).
Qed.

(** ** The flags are reset *)

Lemma reset_flags_at l : forall st, (forall r, r ∈ l -> is_Some (lrs st !! r)) ->
  exists st', reset_flags l st = inr st' /\ st' = with_lrs st (lrs st') /\
    (forall r, plockSet <$> lrs st' !! r = plockSet <$> lrs st !! r) /\
    (forall r lr, lrs st' !! r = Some lr -> compflag lr = 0 \/ (r ∉ l /\ lrs st !! r = Some lr)).
Proof.
  induction l as [|r l IH]; intros st Hin.
  { exists st. split; [done|]. split; [by destruct st|]. split; [done|]. intros r lr E. right. split; [apply not_elem_of_nil|done]. }
  destruct (Hin r) as [lr E]; [by left|]. simpl. unfold get_lr. rewrite E. cbn [the ebind].
  set (st1 := put_lr st r (mkLr (plockSet lr) 0)).
  assert (Ep : forall q, plockSet <$> lrs st1 !! q = plockSet <$> lrs st !! q).
  { intros q. simpl. destruct (decide (q = r)) as [->|]; [by rewrite lookup_insert_eq, E|by rewrite lookup_insert_ne]. }
  destruct (IH st1) as (st2 & E2 & Er & Eq & Hf).
  { intros q Hq. apply (fmap_is_Some plockSet). rewrite Ep. apply fmap_is_Some, Hin. by right. }
  exists st2. split; [done|]. split; [rewrite Er at 1; done|]. split; [intros q; by rewrite Eq|].
  intros q lq Eq2. destruct (Hf q lq Eq2) as [|[Nq E3]]; [by left|]. simpl in E3.
  destruct (decide (q = r)) as [->|N]; [rewrite lookup_insert_eq in E3; injection E3 as <-; by left|].
  rewrite lookup_insert_ne in E3 by done. right. rewrite not_elem_of_cons. by split.
Qed.

Lemma reset_safe e lk snap d st ls l l' : ls ∈ locked lk -> (forall r, r ∈ l ++ l' -> r ∈ members st ls) ->
  (forall l, l ∈ d -> fst l ∈ members st ls) ->
  safe_t (upd (reset_flags l)) (holds_i e lk snap [] (l ++ l') d) st (fun _ o' st' =>
    o' = holds_i e lk snap [] l' d /\ stays (fun y => y ∈ locked lk) st st').
Proof.
  intros Hls Hin Hd os j st1 Hj I Hr Hw. set (o := holds_i e lk snap [] (l ++ l') d) in *.
  assert (L : locks o ls) by (by apply locks_lko). pose proof (rely_stays _ _ _ Hr) as S1.
  pose proof (sy_mem _ _ _ S1 ls L) as E1. rewrite <- E1 in Hin, Hd. pose proof (ci_core _ _ _ I) as C.
  destruct (reset_flags_at l st1) as (st2 & -> & Est & Ep & Hf).
  { intros r Hr'. apply (fmap_is_Some plockSet). exists ls. apply (co_mem _ _ _ C), Hin. rewrite elem_of_app. by left. }
  cbn [ebind]. assert (Er : recs st2 = recs st1) by (by rewrite Est).
  exists (holds_i e lk snap [] l' d). split.
  - apply (flux_step K os st1 I j t o Hj st2 [] l' d); try done.
    + rewrite Er. rewrite Est at 1. by destruct st1.
    + by rewrite Er.
    + intros l0. unfold link_of. by rewrite Er.
    + by rewrite Er.
    + apply (linv_flags os st1 (ci_links _ _ _ I) j t o Hj [] l' st2 Er Ep); [done|].
      intros r lr E. destruct (Hf r lr E) as [|[Nr E0]]; [by left|right; right]. split; [done|].
      simpl. by intros [|]%elem_of_app.
    + by intros x ?%not_elem_of_nil.
    + intros r Hr'. exists ls. split; [|done]. apply elem_of_app in Hr' as [Hr'|(l0 & -> & ?)%list_elem_of_fmap]; [|auto].
      apply Hin. rewrite elem_of_app. by right.
  - split; [done|]. transitivity st1; [by apply stays_D in S1|]. rewrite Est. split; try done.
    + intros r x. unfold plock. simpl. by rewrite Ep.
    + intros r. simpl. rewrite <- !(fmap_is_Some plockSet). by rewrite Ep.
Qed.

(** ** The split *)

Lemma keeps_more D D' D2 st st' : keeps D D' st st' -> (forall x, x ∈ D' -> x ∈ D2) -> keeps D D2 st st'.
Proof. intros H Hx r Hr. destruct (H r Hr) as [(x & ? & ?) ?]. split; [|done]. exists x. auto. Qed.

Lemma inside_keeps e lk lk' snap d o' st st' : me_locker lk' = me_locker lk -> refs lk' = refs lk -> NoDup (locked lk') ->
  o' = holds_i e lk' snap [] [] d -> keeps (locked lk) (locked lk') st st' -> stays none st st' ->
  changes i e lk lk' snap d o' st st'.
Proof. intros. split; try done. intros r Hr. by apply H3. Qed.

Lemma split_off_safe e lk snap d st ls r1 r2 newLS : me_locker lk = i -> NoDup (locked lk) ->
  (forall y, 0 <= e y /\ e y + 2 < K) -> ls ∈ locked lk -> r1 ∈ members st ls -> NoDup (members st ls) ->
  found st ls r1 r2 newLS ->
  safe_t (p_split_off calloc t lk r2 ls newLS) (holds_i e lk snap [ls] newLS d) st
    (fun lk' o' st' => changes i e lk lk' snap d o' st st' /\ keeps (locked lk) (locked lk') st st').
Proof.
  intros Em Nd He Hls Hr1 Ndm Hf. set (o := holds_i e lk snap [ls] newLS d). unfold p_split_off.
  pose proof (found_short _ _ _ _ _ Hf Hr1) as Hshort. pose proof Hf as [Ndl Hl2 Hl1 Hlm _ _ _].
  assert (Hz : 0 < zlen newLS) by (destruct newLS; [by apply not_elem_of_nil in Hl2|simpl; lia]).
  assert (L : locks o ls) by (by apply locks_lko). destruct (He ls) as [He1 He2].
  eapply safe_bind; [by apply (get_count_safe K lim t ls o st L)|]. intros n o' st1 (-> & -> & S1%stays_D).
  rewrite (sy_mem _ _ _ S1 ls Hls).
  eapply safe_bind with (Q' := fun _ o' st' => o' = o /\ st' = st1).
  { apply safe_assert; [apply Z.ltb_lt; lia|done]. }
  intros _ o' st' [-> ->].
  eapply safe_bind with (Q' := fun _ o' st' => o' = o /\ st' = st1).
  { apply safe_assert; [apply Z.ltb_lt; lia|done]. }
  intros _ o' st' [-> ->].
  eapply safe_bind; [by apply (get_refcount_safe K lim t ls o st1 L)|]. intros n o' st2 (Hc & -> & S2%stays_D).
  assert (S02 : stays (fun y => y ∈ locked lk) st st2) by (by transitivity st1).
  rewrite (sy_mem _ _ _ S02 ls Hls) in Hc. simpl in Hc. rewrite plus_in_at in Hc by done.
  eapply safe_bind with (Q' := fun _ o' st' => o' = o /\ st' = st2).
  { apply safe_assert; [apply Z.ltb_lt; lia|done]. }
  intros _ o' st' [-> ->].
  eapply safe_bind; [apply (locked_set_safe K lim t i calloc calloc_fresh e lk snap [ls] newLS d st2 Em); [lia|apply He]|].
  intros ? o' st3 (x & -> & Nx & Hex & Ex3 & -> & S3). set (lk' := with_locked lk (locked lk ++ [x])).
  set (D := locked lk ++ [x]).
  assert (S03 : stays (fun y => y ∈ locked lk) st st3) by (by transitivity st2).
  pose proof (sy_mem _ _ _ S03 ls Hls) as E3. assert (Nxl : x ≠ ls) by congruence.
  pose proof (found_stays _ _ _ _ _ _ _ S03 Hls Hf) as Hf3.
  assert (Hx : x ∈ D) by (apply elem_of_snoc; by right). assert (HlsD : ls ∈ D) by (apply elem_of_snoc; by left).
  eapply safe_bind; [apply (split_loop_safe K lim t i ls x newLS [x; ls] d Nxl); try done|].
  { by left. }
  { right. by left. }
  { by rewrite E3. }
  { intros r Hr. rewrite E3. auto. }
  { rewrite Ex3, plus_in_at by done. simpl. lia. }
  intros _ o' st4 (-> & Ex4 & Els4 & S4 & K4). rewrite Ex3 in Ex4. simpl in Ex4.
  rewrite <- Ex4. apply (split_refs_safe K lim t i e lk' snap [x; ls] d ls x r1 r2 st4); try done.
  { apply Els4. by rewrite E3. }
  { by rewrite Ex4. }
  { intros st5 S5. pose proof (sy_mem _ _ _ S5 x Hx) as Ex5. pose proof (sy_mem _ _ _ S5 ls HlsD) as El5.
    apply (found_settled st3 st5 ls x r1 r2 newLS Hf3 Nxl); [congruence|intros r; by rewrite El5|].
    intros r Hr. assert (H3 : in_sets D st3 r) by (by exists ls). destruct (K4 r H3) as [H4 <-].
    by apply (stays_keeps _ D _ _ S5). }
  intros st5 S5. assert (K05 : keeps (locked lk) D st st5).
  { eapply keep_in_trans; [|exact (stays_keeps _ D _ _ S5 (fun _ H => H))]. eapply keep_in_trans; [|exact K4].
    eapply keeps_more; [exact (stays_keeps _ (locked lk) _ _ S03 (fun _ H => H))|]. intros y Hy. apply elem_of_snoc. by left. }
  split; [|exact K05]. apply inside_keeps; try done.
  - simpl. apply NoDup_app. split; [done|]. split; [|apply NoDup_singleton]. by intros y Hy ->%list_elem_of_singleton.
  - transitivity st3; [by eapply stays_none|]. transitivity st4; by eapply stays_none.
Qed.

(** The set of the first record; if it is the second one too there was no need to search. *)
Lemma get_first_safe e lk snap d st ls r1 r2 : ls ∈ locked lk -> r1 ∈ members st ls -> broken ls r1 r2 st ->
  safe_t (get (get_plock r1)) (holds_i e lk snap [ls] [] d) st (fun v o' st' => v = ls /\
    o' = holds_i e lk snap (if decide (r1 = r2) then [] else [ls]) [] d /\ stays (fun y => y ∈ locked lk) st st').
Proof.
  intros Hls H1 Hb. set (o := holds_i e lk snap [ls] [] d). assert (L : locks o ls) by (by apply locks_lko).
  apply (safe_get_settle K lim t _ (bool_decide (r1 = r2))). intros os j st1 Hj I Hr. pose proof (rely_stays _ _ _ Hr) as S.
  pose proof (broken_stays _ _ _ _ _ _ S L Hb) as Hb1. rewrite <- (sy_mem _ _ _ S ls L) in H1.
  apply (co_mem _ _ _ (ci_core _ _ _ I)) in H1. destruct (plock_lr st1 r1 ls H1) as [-> _].
  exists ls. split; [done|]. split; [intros <-%bool_decide_eq_true; apply (broken_settled ls r1 r1); [done|apply rtc_refl]|].
  split; [done|]. split; [|by apply stays_D in S]. destruct (decide (r1 = r2)) as [->|N].
  - by rewrite bool_decide_true.
  - by rewrite bool_decide_false.
Qed.

Lemma split_safe e lk snap d st r1 r2 ls : me_locker lk = i -> NoDup (locked lk) ->
  (forall y, 0 <= e y /\ e y + 2 < K) -> ls ∈ locked lk -> r1 ∈ members st ls -> r2 ∈ members st ls ->
  broken ls r1 r2 st -> (forall l, l ∈ d -> fst l ∈ members st ls) ->
  safe_t (p_dbLockSetSplit calloc t lk r1 r2) (holds_i e lk snap [ls] [] d) st
    (fun lk' o' st' => changes i e lk lk' snap d o' st st' /\ keeps (locked lk) (locked lk') st st').
Proof.
  intros Em Nd He Hls Hr1 Hr2 Hb Hd. unfold p_dbLockSetSplit. destruct (He ls) as [He1 He2].
  eapply safe_bind; [by apply (get_first_safe e lk snap d st ls r1 r2)|]. intros ? o' st1 (-> & -> & S1).
  eapply safe_bind; [apply (get_plock_safe K lim t r2 ls); [by apply locks_lko|by rewrite (sy_mem _ _ _ S1)]|].
  intros ? o' st2 (-> & -> & S2%stays_D). rewrite bool_decide_true by done. cbn [p_require bind].
  assert (S02 : stays (fun y => y ∈ locked lk) st st2) by (by transitivity st1).
  assert (Hdone : forall st', stays (fun y => y ∈ locked lk) st st' ->
    changes i e lk lk snap d (holds_i e lk snap [] [] d) st st' /\ keeps (locked lk) (locked lk) st st').
  { intros st' S. assert (Hk : keeps (locked lk) (locked lk) st st') by (by eapply stays_keeps).
    split; [|done]. apply inside_keeps; try done. by eapply stays_none. }
  destruct (decide (r1 = r2)) as [|Nr]; [simpl; by apply Hdone|]. set (o := holds_i e lk snap [ls] [] d).
  assert (L : locks o ls) by (by apply locks_lko).
  eapply safe_bind; [by apply (get_count_safe K lim t ls o st2 L)|]. intros n o' st3 (-> & -> & S3%stays_D).
  assert (S03 : stays (fun y => y ∈ locked lk) st st3) by (by transitivity st2).
  rewrite (sy_mem _ _ _ S03 ls Hls).
  eapply safe_bind; [by apply (get_refcount_safe K lim t ls o st3 L)|]. intros c o' st4 (Hc & -> & S4%stays_D).
  assert (S04 : stays (fun y => y ∈ locked lk) st st4) by (by transitivity st3).
  rewrite (sy_mem _ _ _ S04 ls Hls) in Hc. simpl in Hc. rewrite plus_in_at in Hc by done.
  eapply safe_bind with (Q' := fun _ o' st' => o' = o /\ st' = st4).
  { apply safe_assert; [apply Z.leb_le; lia|done]. }
  intros _ o' st' [-> ->]. pose proof (sy_mem _ _ _ S04 ls Hls) as E4.
  eapply safe_bind; [apply (search_safe e lk snap d st4 ls r1 r2); rewrite ?E4; try done; by eapply (broken_stays _ _ _ _ st)|].
  intros [[b q] l] o' st5 (-> & S5 & Ndm & Hin & Hf). assert (S05 : stays (fun y => y ∈ locked lk) st st5) by (by transitivity st4).
  pose proof (sy_mem _ _ _ S05 ls Hls) as E5. destruct b.
  - eapply safe_bind; [apply (reset_safe e lk snap d st5 ls q l Hls Hin); by rewrite E5|]. intros _ o' st6 (-> & S6).
    pose proof (sy_mem _ _ _ S6 ls Hls) as E6. replace (holds_i e lk snap [] l d) with (holds_i e lk snap [] (l ++ []) d) by (by rewrite app_nil_r).
    eapply safe_bind; [apply (reset_safe e lk snap d st6 ls l [] Hls); rewrite E6, ?E5, ?app_nil_r; [|done]|].
    { intros r Hr. rewrite <- E5. apply Hin. rewrite elem_of_app. by right. }
    intros _ o' st7 (-> & S7). simpl. apply Hdone. transitivity st5; [done|]. by transitivity st6.
  - destruct (Hf eq_refl) as [-> Hfd]. simpl app.
    eapply safe_mono; [apply (split_off_safe e lk snap d st5 ls r1 r2 l); try done; by rewrite E5|].
    intros lk' o' st6 [[] K6]. assert (K06 : keeps (locked lk) (locked lk') st st6)
      by (eapply keep_in_trans; [by eapply stays_keeps|exact K6]).
    split; [|done]. apply inside_keeps; try done. transitivity st5; [by eapply stays_none|done].
Qed.
End Split.
