(* ===== verification/DbLockLinks.v ===== *)
(** * Lock sets: threads that change links

    [dbDbAddLink], [dbDbRemoveLink], [dbRemoveLink], [dbAddLink] and the part of [dbPutFieldLink] under the lock, as programs
    of a thread among others. *)

From stdpp Require Import base gmap list sorting fin_sets relations.
From Stdlib Require Import ZArith Lia Bool.
From S2P Require Import Prelude DbLock DbLockInv DbLocker DbLockSets DbLockGraph DbLockRun DbLockProg DbLockConc DbLockSteps DbLockMoves DbLockThreads DbLockMany DbLockHold DbLockFlux DbLockChange DbLockApart DbLockSplit.
Open Scope Z_scope.

(** ** Which records the functions write *)

Lemma put_link_recs st l p st2 r : put_link st l p = inr st2 -> r ≠ fst l -> recs st2 !! r = recs st !! r.
Proof.
  intros (rc & _ & (p0 & _ & E)%ebind_inr)%ebind_inr N. injection E as <-. simpl. by rewrite lookup_insert_ne.
Qed.

Lemma set_db_link_recs st l t st2 r : set_db_link st l t = inr st2 -> r ≠ fst l -> r ≠ t -> recs st2 !! r = recs st !! r.
Proof.
  intros (st1 & E1 & (rc & _ & E)%ebind_inr)%ebind_inr N1 N2. injection E as <-. simpl.
  rewrite lookup_insert_ne by done. by eapply put_link_recs.
Qed.

Lemma unset_db_link_recs st l p t st2 r : unset_db_link st l p t = inr st2 -> r ≠ fst l -> r ≠ t -> recs st2 !! r = recs st !! r.
Proof.
  intros (st1 & E1 & (rc & _ & E)%ebind_inr)%ebind_inr N1 N2. destruct (decide _); [|done]. injection E as <-. simpl.
  rewrite lookup_insert_ne by done. by eapply put_link_recs.
Qed.

Section Links.
Context (K : Z) (lim : option Z) (t : tid) (i : lockerid).

Abbreviation safe_t := (safe K lim t).
Abbreviation none := (fun _ : addr => False).
Abbreviation holds_i := (holding i).

(** ** One link *)

(** The link [l] is changed to [p]: the records stay in their sets. *)
Record relinks (D : list addr) (l : linkid) (p : link) st st' : Prop := {
  rk_stays : stays none st st';
  rk_members : forall x, x ∈ D -> members st' x = members st x;
  rk_link : link_of st' l = Some p
}.

Lemma relinks_in D l p st st' r : relinks D l p st st' -> in_sets D st r -> in_sets D st' r.
Proof. intros H (x & Hx & Hr). exists x. split; [done|]. by rewrite (rk_members _ _ _ _ _ H x Hx). Qed.

Lemma relinks_stays D l p st st1 st2 : stays (fun x => x ∈ D) st st1 -> relinks D l p st1 st2 -> relinks D l p st st2.
Proof.
  intros S [H1 H2 H3]. split; [|intros x Hx; by rewrite H2, (sy_mem _ _ _ S)|done].
  transitivity st1; [by eapply stays_none|done].
Qed.

(** A step that changes one link of a record of the thread. *)
Lemma relink_step os j o st st2 D l p p' c d : cinv K os st -> os !! j = Some (t, o) -> (forall x, x ∈ D -> locks o x) ->
  relinked st st2 -> link_of st l = Some p ->
  (forall l', link_of st2 l' = if decide (l' = l) then Some p' else link_of st l') ->
  (forall r, ~ in_sets D st r -> recs st2 !! r = recs st !! r) ->
  linv (<[j := (t, o_flux o c (oflag o) d)]> os) st2 -> (forall x, x ∈ c -> x ∈ D) -> oflag o = [] ->
  (forall l', l' ∈ d -> in_sets D st (fst l')) ->
  moves K os j t o (o_flux o c (oflag o) d) st st2 /\ relinks D l p' st st2.
Proof.
  intros I Hj HL R El K2 Hr V Hc Hf Hd. pose proof (rl_rest _ _ R) as Est. pose proof (relinked_lrs _ _ R) as Elr.
  assert (Hl : forall l', is_Some (link_of st2 l') <-> is_Some (link_of st l')).
  { intros l'. rewrite K2. destruct (decide (l' = l)) as [->|]; [|done]. rewrite El. split; eauto. }
  split.
  - apply (flux_step K os st I j t o Hj st2 c (oflag o) d); try done.
    + rewrite Elr. rewrite Est at 1. by destruct st.
    + intros r. unfold plock. by rewrite Elr.
    + apply R.
    + intros r x Hp Hn. apply Hr. intros (y & Hy & Hin). apply (co_mem _ _ _ (ci_core _ _ _ I)) in Hin.
      rewrite Hp in Hin. injection Hin as <-. by apply (HL x Hy).
    + intros x Hx. by apply HL, Hc.
    + intros r. rewrite Hf. simpl. intros (l' & -> & Hin)%list_elem_of_fmap. destruct (Hd l' Hin) as (x & Hx & Hm).
      exists x. split; [done|]. by apply HL.
  - split.
    + split; try done.
      * intros r. by rewrite Elr.
      * apply R.
      * by rewrite Est.
    + intros x _. unfold members. by rewrite Est.
    + rewrite K2. by rewrite decide_True.
Qed.

Lemma in_stays D st st' r : stays (fun x => x ∈ D) st st' -> in_sets D st r -> in_sets D st' r.
Proof. intros S Hr. by apply (stays_keeps _ D _ _ S (fun _ H => H)). Qed.

Lemma link_stays D st st' l : stays (fun x => x ∈ D) st st' -> in_sets D st (fst l) -> link_of st' l = link_of st l.
Proof. intros S Hr. eapply keeps_link; [|exact Hr]. by eapply stays_keeps. Qed.

Lemma get_link_safe e lk snap c f d st l p : in_sets (locked lk) st (fst l) -> link_of st l = Some p ->
  safe_t (get (fun st => get_link st l)) (holds_i e lk snap c f d) st (fun v o' st' =>
    v = p /\ o' = holds_i e lk snap c f d /\ stays (fun x => x ∈ locked lk) st st').
Proof.
  intros Hin El. apply safe_get. intros os j st1 Hj I Hr. pose proof (stays_D _ _ _ _ _ _ _ _ _ (rely_stays _ _ _ Hr)) as S.
  exists p. split; [|done]. apply get_link_spec. by rewrite (link_stays _ _ _ _ S Hin).
Qed.

(** The link at first; the records [P] were in sets of the thread. *)
Lemma get_link_first e lk snap st l (P : recid -> Prop) : (forall r, P r -> exists x, x ∈ locked lk /\ plock st r = Some x) ->
  P (fst l) -> is_Some (link_of st l) ->
  safe_t (get (fun st => get_link st l)) (holds_i e lk snap [] [] []) st (fun p o' st' =>
    link_of st' l = Some p /\ (lset p = Some dbDb_lset <-> ltype p = DB_LINK) /\ (ltype p = DB_LINK -> is_Some (pvt p)) /\
    o' = holds_i e lk snap [] [] [] /\ stays (fun x => x ∈ locked lk) st st' /\ forall r, P r -> in_sets (locked lk) st' r).
Proof.
  intros HP Hin Hl. apply safe_get. intros os j st1 Hj I Hr. pose proof (stays_D _ _ _ _ _ _ _ _ _ (rely_stays _ _ _ Hr)) as S.
  apply (re_ldom _ _ _ Hr) in Hl as [p El]. exists p. split; [by apply get_link_spec|]. split; [done|].
  assert (Hin1 : forall r, P r -> in_sets (locked lk) st1 r).
  { intros r (x & Hx & Hp)%HP. exists x. split; [done|]. apply (co_lr _ _ _ (ci_core _ _ _ I)). by apply (sy_lr _ _ _ S). }
  destruct (Hin1 _ Hin) as (x & Hx & Hm). split; [|split; [|done]].
  - apply (lset_home K os st1 I j t _ Hj x l p); [by apply locks_holding|done|apply not_elem_of_nil|done].
  - intros Et. destruct (g_target _ (li_graph _ _ (ci_links _ _ _ I)) l p El Et) as (q & -> & _). eauto.
Qed.

(** The link becomes one that is no database link. *)
Lemma put_link_safe e lk snap d st l p p' : in_sets (locked lk) st (fst l) -> link_of st l = Some p ->
  ltype p ≠ DB_LINK -> ltype p' ≠ DB_LINK -> lset p' ≠ Some dbDb_lset -> (forall l', l' ∈ d -> l' = l) ->
  safe_t (p_put_link l p') (holds_i e lk snap [] [] d) st (fun _ o' st' =>
    o' = holds_i e lk snap [] [] [] /\ relinks (locked lk) l p' st st').
Proof.
  intros Hin El Np Np' Nl Hd os j st1 Hj I Hr Hw. set (o := holds_i e lk snap [] [] d) in *.
  pose proof (stays_D _ _ _ _ _ _ _ _ _ (rely_stays _ _ _ Hr)) as S. pose proof (in_stays _ _ _ _ S Hin) as Hin1.
  assert (El1 : link_of st1 l = Some p) by (by rewrite (link_stays _ _ _ _ S Hin)).
  pose proof (li_graph _ _ (ci_links _ _ _ I)) as G.
  destruct (proj1 (wp_inr _ _) (put_link_spec st1 l p p' El1)) as (st2 & E2 & Lw). rewrite E2. cbn [ebind].
  destruct (other_graph st1 st2 l p p' G El1 Np Np' Lw) as [R He]. destruct Lw as (_ & _ & K2).
  destruct (relink_step os j o st1 st2 (locked lk) l p p' [] [] I Hj) as [M Hk]; try done.
  - intros x. by apply locks_holding.
  - intros r Hn. eapply put_link_recs; [exact E2|]. by intros ->.
  - apply (linv_links os st1 (ci_links _ _ _ I) j t o Hj [] [] st2 R); [done|intros a b; apply He| |].
    + intros a b x y Hab _ _. left. by apply He.
    + intros l' q. rewrite K2. destruct (decide (l' = l)) as [->|N].
      * intros [= <-]. left. tauto.
      * intros Eq. right. right. split; [done|]. intros Hl'%Hd. done.
  - by intros x ?%not_elem_of_nil.
  - by intros l' ?%not_elem_of_nil.
  - exists (holds_i e lk snap [] [] []). split; [exact M|]. split; [done|]. by eapply relinks_stays.
Qed.

(** ** A database link is made *)

(** No link leaves a set that the thread has and does not change. *)
Lemma home_closed os j o st x : cinv K os st -> os !! j = Some (t, o) -> ocross o = [] -> locks o x ->
  forall a b, edge st a b -> (a ∈ members st x <-> b ∈ members st x).
Proof.
  intros I Hj Hc Hl a b Hab. rewrite <- !in_sets_1. apply (closed_home K os st I j t o Hj); [|rewrite Hc|done].
  - by intros y ->%list_elem_of_singleton.
  - by intros y ?%not_elem_of_nil.
Qed.

(** The sets of the two records, after the link was made. *)
Lemma joined_set os j o st st2 (l : linkid) q A B : cinv K os st -> os !! j = Some (t, o) -> ocross o = [] ->
  locks o A -> locks o B -> fst l ∈ members st A -> q ∈ members st B -> (forall x, members st2 x = members st x) ->
  (forall a b, edge st2 a b <-> edge st a b \/ (a = fst l /\ b = q)) ->
  forall a b, in_sets [A; B] st2 a -> in_sets [A; B] st2 b -> lconn (in_sets [A; B] st2) st2 a b.
Proof.
  intros I Hj Hc HA HB H1 H2 Em He.
  assert (Hin : forall r, in_sets [A; B] st2 r <-> r ∈ members st A \/ r ∈ members st B) by (intros r; by rewrite in_sets_2, !Em).
  assert (Hone : forall x, locks o x -> x ∈ [A; B] -> forall a b, a ∈ members st x -> b ∈ members st x -> lconn (in_sets [A; B] st2) st2 a b).
  { intros x Hx HxD a b Ha Hb. assert (Hab : conn st a b)
      by (apply (whole_home K os st I j t o Hj x); [done|rewrite Hc; apply not_elem_of_nil|done|done]).
    apply (conn_lconn (fun r => r ∈ members st x)) in Hab as [Hab _]; [|by apply (home_closed os j o)|done].
    revert Hab. apply (rtsc_congruence (fun x : recid => x)). intros r r' (Hrr & Hr & Hr'). split; [apply He; by left|].
    split; exists x; by rewrite Em. }
  assert (H12 : lconn (in_sets [A; B] st2) st2 (fst l) q)
    by (apply rtsc_lr; split; [apply He; by right|rewrite !Hin; auto]).
  assert (Hall : forall a, in_sets [A; B] st2 a -> lconn (in_sets [A; B] st2) st2 a q).
  { intros a [Ha|Ha]%Hin.
    - etransitivity; [|exact H12]. by apply (Hone A); [|left|..].
    - by apply (Hone B); [|right; left|..]. }
  intros a b Ha Hb. etransitivity; [by apply Hall|]. symmetry. by apply Hall.
Qed.

Lemma set_link_safe e lk snap st l p q A B : A ∈ locked lk -> fst l ∈ members st A -> B ∈ locked lk -> q ∈ members st B ->
  link_of st l = Some p -> ltype p ≠ DB_LINK ->
  safe_t (upd (fun st => set_db_link st l q)) (holds_i e lk snap [] [] []) st (fun _ o' st' =>
    o' = holds_i e lk snap (if decide (A = B) then [] else [A; B]) [] [] /\
    relinks (locked lk) l (db_link_to q) st st' /\
    (A ≠ B -> forall a b, in_sets [A; B] st' a -> in_sets [A; B] st' b -> lconn (in_sets [A; B] st') st' a b)).
Proof.
  intros HA H1 HB H2 El Np os j st1 Hj I Hr Hw. set (o := holds_i e lk snap [] [] []) in *.
  pose proof (stays_D _ _ _ _ _ _ _ _ _ (rely_stays _ _ _ Hr)) as S. pose proof (ci_core _ _ _ I) as C.
  assert (HL : forall x, x ∈ locked lk -> locks o x) by (intros x; by apply locks_holding).
  assert (El1 : link_of st1 l = Some p) by (rewrite (link_stays _ _ _ _ S); [done|by exists A]).
  rewrite <- (sy_mem _ _ _ S A HA) in H1. rewrite <- (sy_mem _ _ _ S B HB) in H2.
  pose proof (li_graph _ _ (ci_links _ _ _ I)) as G.
  assert (Hq : is_Some (recs st1 !! q)).
  { apply (g_dom _ G), (fmap_is_Some plockSet). exists B. by apply (co_mem _ _ _ C). }
  destruct (proj1 (wp_inr _ _) (set_db_link_spec st1 l q p G El1 Np Hq)) as (st2 & E2 & R & He & K2).
  rewrite E2. cbn [ebind]. set (c := if decide (A = B) then [] else [A; B]).
  assert (Em : forall x, members st2 x = members st1 x) by (intros x; unfold members; by rewrite (rl_rest _ _ R)).
  destruct (relink_step os j o st1 st2 (locked lk) l p (db_link_to q) c [] I Hj) as [M Hk]; try done.
  - intros r Hn. eapply set_db_link_recs; [exact E2| |]; intros ->; apply Hn; [by exists A|by exists B].
  - apply (linv_links os st1 (ci_links _ _ _ I) j t o Hj c [] st2 R).
    + by intros x ?%not_elem_of_nil.
    + intros a b Hab. apply He. by left.
    + intros a b x y [Hab|[-> ->]]%He Hx Hy; [by left|right].
      apply (co_mem _ _ _ C) in H1, H2. assert (x = A) as -> by congruence. assert (y = B) as -> by congruence.
      unfold c. destruct (decide (A = B)); [by left|right]. split; [by left|right; by left].
    + intros l' p0. rewrite K2. destruct (decide (l' = l)) as [->|N]; [|by right; right].
      intros [= <-]. left. done.
  - intros x. unfold c. destruct (decide (A = B)); [by intros ?%not_elem_of_nil|].
    intros [->|Hx]%elem_of_cons; [done|]. by apply list_elem_of_singleton in Hx as ->.
  - by intros l' ?%not_elem_of_nil.
  - exists (holds_i e lk snap c [] []). split; [exact M|]. split; [done|]. split; [by eapply relinks_stays|].
    intros N. apply (joined_set os j o st1 st2 l q A B I Hj); try done; by apply HL.
Qed.

Lemma changes_before D e lk lk' snap d o' l p st st1 st2 : D = locked lk -> relinks D l p st st1 ->
  changes i e lk lk' snap d o' st1 st2 -> changes i e lk lk' snap d o' st st2.
Proof.
  intros -> R []. split; try done.
  - intros r Hr. apply cg_inside. by eapply relinks_in.
  - transitivity st1; [apply R|done].
Qed.

Lemma add_db_link_safe e lk snap st l p q : me_locker lk = i -> NoDup (locked lk) -> (forall y, 0 <= e y /\ e y + 2 < K) ->
  in_sets (locked lk) st (fst l) -> in_sets (locked lk) st q -> link_of st l = Some p -> ltype p ≠ DB_LINK ->
  safe_t (p_dbDbAddLink t lk l q) (holds_i e lk snap [] [] []) st (fun lk' o' st' => changes i e lk lk' snap [] o' st st').
Proof.
  intros Em Nd He (A & HA & H1) (B & HB & H2) El Np. unfold p_dbDbAddLink.
  eapply safe_bind; [by apply (set_link_safe e lk snap st l p q A B)|]. intros _ o' st1 (-> & R & Hw).
  eapply safe_mono; [apply (merge_safe K lim t i e lk snap st1 (fst l) q A B); try done|].
  - by rewrite (rk_members _ _ _ _ _ R).
  - by rewrite (rk_members _ _ _ _ _ R).
  - intros lk' o' st2 H. by eapply changes_before.
Qed.

(** ** A database link is removed *)

Lemma broken_unset os j o st st2 x a q : cinv K os st -> os !! j = Some (t, o) -> ocross o = [] -> locks o x ->
  a ∈ members st x -> (forall r, members st2 r = members st r) ->
  (forall r r', edge st r r' <-> edge st2 r r' \/ (r = a /\ r' = q)) -> broken x a q st2.
Proof.
  intros I Hj Hc Hl Ha Em He r Hr. rewrite Em in Hr.
  assert (Hall : conn st r a) by (apply (whole_home K os st I j t o Hj x); [done|rewrite Hc; apply not_elem_of_nil|done|done]).
  assert (Hcl : forall r r', edge st2 r r' -> (r ∈ members st2 x <-> r' ∈ members st2 x)).
  { intros r1 r2 H. rewrite Em. apply (home_closed os j o st x I Hj Hc Hl), He. by left. }
  unfold conn in Hall. rewrite (rtsc_add (edge st2) (edge st) a q He) in Hall.
  assert (H : conn st2 r a \/ conn st2 r q) by (destruct Hall as [H|[[H _]|[H _]]]; [by left|by left|by right]).
  destruct H as [H|H]; [left|right]; (eapply (conn_lconn (fun r => r ∈ members st2 x)); [exact Hcl|exact H|by rewrite Em]).
Qed.

Lemma unset_link_safe e lk snap st l p q x : x ∈ locked lk -> fst l ∈ members st x -> link_of st l = Some p ->
  ltype p = DB_LINK -> pvt p = Some q ->
  safe_t (upd (fun st => unset_db_link st l p q)) (holds_i e lk snap [] [] []) st (fun _ o' st' =>
    o' = holds_i e lk snap [x] [] [l] /\ relinks (locked lk) l (mkLink PV_LINK (lset p) None) st st' /\
    q ∈ members st' x /\ broken x (fst l) q st').
Proof.
  intros Hx Hl El Ep Eq os j st1 Hj I Hr Hw. set (o := holds_i e lk snap [] [] []) in *.
  pose proof (stays_D _ _ _ _ _ _ _ _ _ (rely_stays _ _ _ Hr)) as S. pose proof (ci_core _ _ _ I) as C.
  assert (L : locks o x) by (by apply locks_holding).
  assert (El1 : link_of st1 l = Some p) by (rewrite (link_stays _ _ _ _ S); [done|by exists x]).
  rewrite <- (sy_mem _ _ _ S x Hx) in Hl. pose proof (li_graph _ _ (ci_links _ _ _ I)) as G.
  destruct (proj1 (wp_inr _ _) (unset_db_link_spec st1 l q p G El1 Ep Eq)) as (st2 & E2 & R & He & K2).
  rewrite E2. cbn [ebind].
  assert (Em : forall y, members st2 y = members st1 y) by (intros y; unfold members; by rewrite (rl_rest _ _ R)).
  pose proof (home_closed os j o st1 x I Hj eq_refl L) as Hcl.
  assert (Hq : q ∈ members st1 x) by (apply (Hcl (fst l)); [|done]; apply He; by right).
  assert (Hin : in_sets (locked lk) st1 (fst l)) by (by exists x).
  destruct (relink_step os j o st1 st2 (locked lk) l p (mkLink PV_LINK (lset p) None) [x] [l] I Hj) as [M Hk]; try done.
  - intros y. by apply locks_holding.
  - intros r Hn. eapply unset_db_link_recs; [exact E2| |]; intros ->; apply Hn; by exists x.
  - apply (linv_unlink os st1 (ci_links _ _ _ I) j t o Hj [l] st2 (fst l) q x R); [done|done|by apply (co_mem _ _ _ C)..| |].
    + intros r r' H. rewrite !(plock_members K os st1 _ _ I). by apply Hcl.
    + intros l' p0 E. destruct (decide (l' = l)) as [->|N]; [right; left; by left|]. right. right.
      rewrite K2, decide_False in E by done. split; [done|]. by intros ?%not_elem_of_nil.
  - by intros y ->%list_elem_of_singleton.
  - by intros l' ->%list_elem_of_singleton.
  - exists (holds_i e lk snap [x] [] [l]). split; [exact M|]. split; [done|]. split; [by eapply relinks_stays|].
    split; [by rewrite Em|]. by apply (broken_unset os j o st1 st2 x (fst l) q I Hj).
Qed.

(** ** Changes one after the other *)

Lemma changes_stays e lk snap d st st' : NoDup (locked lk) -> stays (fun x => x ∈ locked lk) st st' ->
  changes i e lk lk snap d (holds_i e lk snap [] [] d) st st'.
Proof. intros Nd S. apply inside_keeps; try done; [by eapply stays_keeps|by eapply stays_none]. Qed.

Lemma changes_relinks e lk snap d l p st st' : NoDup (locked lk) -> relinks (locked lk) l p st st' ->
  changes i e lk lk snap d (holds_i e lk snap [] [] d) st st'.
Proof. intros Nd R. split; try done; [|apply R]. intros r. by eapply relinks_in. Qed.

Lemma changes_trans e lk lk1 lk2 snap d d2 o1 o2 st st1 st2 : changes i e lk lk1 snap d o1 st st1 ->
  changes i e lk1 lk2 snap d2 o2 st1 st2 -> changes i e lk lk2 snap d2 o2 st st2.
Proof. intros [] []. split; try done; [congruence..|auto|by transitivity st1]. Qed.

(** ** [dbRemoveLink] *)

(** What is known of a link at first. *)
Definition link_fits (p : link) : Prop :=
  (lset p = Some dbDb_lset <-> ltype p = DB_LINK) /\ (ltype p = DB_LINK -> is_Some (pvt p)).

(** A link without a support. *)
Definition removed st (l : linkid) : Prop := exists p, link_of st l = Some p /\ lset p = None /\ ltype p ≠ DB_LINK.

Lemma clear_link_safe e lk snap d st l p : NoDup (locked lk) -> in_sets (locked lk) st (fst l) -> link_of st l = Some p -> ltype p ≠ DB_LINK ->
  (forall l', l' ∈ d -> l' = l) ->
  safe_t (do* lnk <- get (fun st => get_link st l) in do* _ <- p_put_link l (mkLink (ltype lnk) None (pvt lnk)) in Ret lk)
    (holds_i e lk snap [] [] d) st (fun lk' o' st' => changes i e lk lk' snap [] o' st st' /\ removed st' l).
Proof.
  intros Nd Hin El Np Hd. eapply safe_bind; [by apply (get_link_safe e lk snap [] [] d st l p)|].
  intros ? o' st1 (-> & -> & S1). eapply safe_bind.
  { apply (put_link_safe e lk snap d st1 l p (mkLink (ltype p) None (pvt p))); try done; [by eapply in_stays|].
    by rewrite (link_stays _ _ _ _ S1). }
  intros _ o' st2 (-> & R). simpl. pose proof (relinks_stays _ _ _ _ _ _ S1 R) as R2. split; [by eapply changes_relinks|].
  eexists. split; [apply (rk_link _ _ _ _ _ R2)|]. by split.
Qed.

Section Remove.
Context (calloc : gmap addr lockSet -> addr).
Hypothesis calloc_fresh : forall m, m !! calloc m = None.

Lemma remove_db_link_safe e lk snap st l p : me_locker lk = i -> NoDup (locked lk) -> (forall y, 0 <= e y /\ e y + 2 < K) ->
  in_sets (locked lk) st (fst l) -> link_of st l = Some p -> ltype p = DB_LINK -> is_Some (pvt p) ->
  safe_t (p_dbDbRemoveLink calloc t lk l) (holds_i e lk snap [] [] []) st (fun lk' o' st' =>
    changes i e lk lk' snap [l] o' st st' /\ link_of st' l = Some (mkLink PV_LINK (lset p) None)).
Proof.
  intros Em Nd He Hin El Ep [q Eq]. unfold p_dbDbRemoveLink.
  eapply safe_bind; [by apply (get_link_safe e lk snap [] [] [] st l p)|]. intros ? o' st1 (-> & -> & S1).
  rewrite Eq. cbn [p_the bind]. destruct (in_stays _ _ _ _ S1 Hin) as (x & Hx & Hl).
  eapply safe_bind; [apply (unset_link_safe e lk snap st1 l p q x); try done; by rewrite (link_stays _ _ _ _ S1)|].
  intros _ o' st2 (-> & R & Hq & Hb). pose proof (relinks_stays _ _ _ _ _ _ S1 R) as R2.
  pose proof (relinks_in _ _ _ _ _ _ R2 Hin) as Hin2. rewrite <- (rk_members _ _ _ _ _ R x Hx) in Hl.
  eapply safe_mono; [apply (split_safe K lim t i calloc calloc_fresh e lk snap [l] st2 (fst l) q x); try done|].
  { by intros l' ->%list_elem_of_singleton. }
  intros lk' o' st3 (H & Hk). split; [by eapply changes_before|].
  rewrite (keeps_link _ _ _ _ _ Hk Hin2). apply R2.
Qed.

Lemma remove_link_safe e lk snap st l p : me_locker lk = i -> NoDup (locked lk) -> (forall y, 0 <= e y /\ e y + 2 < K) ->
  in_sets (locked lk) st (fst l) -> link_of st l = Some p -> link_fits p ->
  safe_t (p_dbRemoveLink calloc t lk l) (holds_i e lk snap [] [] []) st (fun lk' o' st' =>
    changes i e lk lk' snap [] o' st st' /\ removed st' l).
Proof.
  intros Em Nd He Hin El [Hs Hq]. unfold p_dbRemoveLink.
  eapply safe_bind; [by apply (get_link_safe e lk snap [] [] [] st l p)|]. intros ? o' st1 (-> & -> & S1).
  pose proof (in_stays _ _ _ _ S1 Hin) as Hin1. rewrite <- (link_stays _ _ _ _ S1 Hin) in El.
  pose proof (changes_stays e lk snap [] _ _ Nd S1) as C1.
  destruct (lset p) as [s|] eqn:Es; [|split; [done|]; exists p; split; [done|]; split; [done|by intros ?%Hs]].
  (* the middle *)
  eapply safe_bind with (Q' := fun lk' o' st' => exists d p', changes i e lk lk' snap d o' st st' /\ (forall l', l' ∈ d -> l' = l) /\
    link_of st' l = Some p' /\ ltype p' ≠ DB_LINK).
  - assert (Hother : s ≠ dbDb_lset -> ltype p ≠ DB_LINK) by (intros N E; apply Hs in E; congruence).
    assert (Hid : s ≠ dbDb_lset -> safe_t (Ret lk) (holds_i e lk snap [] [] []) st1 (fun lk' o' st' => exists d p',
      changes i e lk lk' snap d o' st st' /\ (forall l', l' ∈ d -> l' = l) /\ link_of st' l = Some p' /\ ltype p' ≠ DB_LINK)).
    { intros N. exists [], p. split; [done|]. split; [by intros ? ?%not_elem_of_nil|auto]. }
    destruct s; try by apply Hid.
    + eapply safe_mono; [apply (remove_db_link_safe e lk snap st1 l p); try done; [|apply Hq]; by apply Hs|].
      intros lk' o' st2 (C2 & E2). exists [l], (mkLink PV_LINK (lset p) None). split; [by eapply changes_trans|].
      split; [by intros l' ->%list_elem_of_singleton|done].
    + eapply safe_bind; [apply (put_link_safe e lk snap [] st1 l p (mkLink PV_LINK None None)); try done; auto|].
      { by intros ? ?%not_elem_of_nil. }
      intros _ o' st2 (-> & R). exists [], (mkLink PV_LINK None None). split; [|split; [by intros ? ?%not_elem_of_nil|]].
      * eapply changes_trans; [exact C1|]. by eapply changes_relinks.
      * split; [apply R|done].
  - intros lk2 o2 st2 (d & p2 & C2 & Hd & E2 & N2). pose proof C2 as [Em2 _ Nd2 -> Hin2 _].
    eapply safe_mono; [apply (clear_link_safe e lk2 snap d st2 l p2); auto|].
    intros lk3 o3 st3 (C3 & H3). split; [by eapply changes_trans|done].
Qed.

(** ** [dbAddLink] and [dbPutFieldLink] *)

Lemma add_link_safe e lk snap st l p target : me_locker lk = i -> NoDup (locked lk) -> (forall y, 0 <= e y /\ e y + 2 < K) ->
  in_sets (locked lk) st (fst l) -> (forall q, target = Some q -> in_sets (locked lk) st q) -> link_of st l = Some p -> ltype p ≠ DB_LINK ->
  safe_t (p_dbAddLink t lk l target) (holds_i e lk snap [] [] []) st (fun lk' o' st' => changes i e lk lk' snap [] o' st st').
Proof.
  intros Em Nd He Hin Hq El Np. unfold p_dbAddLink.
  eapply safe_bind; [by apply (get_link_safe e lk snap [] [] [] st l p)|]. intros ? o' st1 (-> & -> & S1).
  pose proof (in_stays _ _ _ _ S1 Hin) as Hin1. rewrite <- (link_stays _ _ _ _ S1 Hin) in El.
  pose proof (changes_stays e lk snap [] _ _ Nd S1) as C1.
  assert (Hput : forall p', ltype p' ≠ DB_LINK -> lset p' ≠ Some dbDb_lset ->
    safe_t (do* _ <- p_put_link l p' in Ret lk) (holds_i e lk snap [] [] []) st1 (fun lk' o' st' => changes i e lk lk' snap [] o' st st')).
  { intros p' H1 H2. eapply safe_bind; [apply (put_link_safe e lk snap [] st1 l p p'); try done; by intros ? ?%not_elem_of_nil|].
    intros _ o' st2 (-> & R). simpl. eapply changes_trans; [exact C1|]. by eapply changes_relinks. }
  destruct (ltype p) eqn:Et; try done; try (by apply Hput). destruct target as [q|]; [|by apply Hput].
  eapply safe_mono; [apply (add_db_link_safe e lk snap st1 l p q); [done..|eapply in_stays; eauto|done|by rewrite Et]|].
  intros lk2 o2 st2 C2. by eapply changes_trans.
Qed.

Lemma change_link_safe env e lk snap st l newtype target : me_locker lk = i -> NoDup (locked lk) ->
  (forall y, 0 <= e y /\ e y + 2 < K) ->
  (forall r, r = fst l \/ target = Some r -> exists x, x ∈ locked lk /\ plock st r = Some x) -> is_Some (link_of st l) -> newtype ≠ DB_LINK ->
  safe_t (p_change_link calloc t env lk l newtype target) (holds_i e lk snap [] [] []) st
    (fun lk' o' st' => changes i e lk lk' snap [] o' st st').
Proof.
  intros Em Nd He HP El Nt. unfold p_change_link.
  eapply safe_bind; [by apply (get_link_first e lk snap st l (fun r => r = fst l \/ target = Some r) HP); [left|]|].
  intros p o' st1 (E1 & H1 & H2 & -> & S1 & Hin1). pose proof (Hin1 _ (or_introl eq_refl)) as Hl1.
  eapply safe_mono with (Q := fun lk' o' st' => changes i e lk lk' snap [] o' st1 st');
    [|intros lk2 o2 st2; eapply changes_trans; by apply (changes_stays e lk snap [])].
  assert (C1 : changes i e lk lk snap [] (holds_i e lk snap [] [] []) st1 st1) by (apply changes_stays; [done|reflexivity]).
  clear S1. destruct (isDevLink env && negb (del_ok env)); [exact C1|].
  destruct (negb (isDevLink env) && _); [exact C1|].
  eapply safe_bind with (Q' := fun lk' o' st' => changes i e lk lk' snap [] o' st1 st' /\ removed st' l).
  { assert (Hf : link_fits p) by (by split). destruct (lset p) as [s|] eqn:Es.
    - eapply safe_mono; [by apply (remove_link_safe e lk snap st1 l p)|].
      auto.
    - split; [exact C1|]. exists p. split; [done|]. split; [done|]. by intros ?%H1. }
  intros lk2 o2 st2 (C2 & p2 & E2 & L2 & N2). destruct (set_ok env); cbn [negb]; [|exact C2].
  pose proof C2 as [Em2 _ Nd2 -> Hin2 _]. pose proof (Hin2 _ Hl1) as Hl2.
  eapply safe_bind; [by apply (get_link_safe e lk2 snap [] [] [] st2 l p2)|]. intros ? o' st3 (-> & -> & S3).
  pose proof (in_stays _ _ _ _ S3 Hl2) as Hl3. rewrite <- (link_stays _ _ _ _ S3 Hl2) in E2. rewrite L2.
  eapply safe_bind; [apply (put_link_safe e lk2 snap [] st3 l p2 (mkLink newtype None None)); try done; by intros ? ?%not_elem_of_nil|].
  intros _ o' st4 (-> & R4). pose proof (relinks_stays _ _ _ _ _ _ S3 R4) as R. clear R4 S3.
  assert (C4 : changes i e lk lk2 snap [] (holds_i e lk2 snap [] [] []) st1 st4)
    by (eapply changes_trans; [exact C2|]; by eapply changes_relinks).
  destruct (add_ok env); cbn [negb]; [|exact C4].
  eapply safe_mono; [apply (add_link_safe e lk2 snap st4 l (mkLink newtype None None) target); try done; [congruence|..]|].
  - by eapply relinks_in.
  - intros q Eq. eapply relinks_in; [exact R|]. by by apply Hin2, Hin1; right.
  - apply R.
  - intros lk5 o5 st5 C5. by eapply changes_trans.
Qed.
End Remove.
End Links.
