(* ===== verification/DbLockTasks.v ===== *)
(** * Lock sets: threads with tasks

    What a thread does: it locks one record as often as it likes, it locks the sets of several records with a locker, it
    changes a link; one task after the other. *)

From stdpp Require Import base gmap list sorting fin_sets relations.
From Stdlib Require Import ZArith Lia Bool.
From S2P Require Import Prelude DbLock DbLockInv DbLockProg DbLockConc DbLockSteps DbLockMoves DbLocker DbLockSets DbLockGraph DbLockThreads DbLockMany DbLockHold DbLockFlux DbLockChange DbLockApart DbLockSplit DbLockLinks.
Open Scope Z_scope.

Section Tasks.
Context (calloc : gmap addr lockSet -> addr) (fuel : nat).

(** [dbScanLock] of [r], [n] times nested. *)
Fixpoint p_scan (me : tid) (r : recid) (n : nat) : prog unit :=
  match n with
  | O => Ret tt
  | S n =>
      do* _ <- p_dbScanLock me fuel r in
      Inside [r]
        (do* _ <- p_scan me r n in
         Inside [r] (p_dbScanUnlock me r))
  end.

(** A locker for the records [rs]. *)
Definition p_use (me : tid) (i : lockerid) (rs : list recid) : prog unit :=
  do* lk <- p_dbLockerPrepare me i (map Some rs) in
  do* lk <- p_dbScanLockMany me fuel lk in
  Inside rs
    (do* lk <- p_dbScanUnlockMany me lk in
     p_dbLockerFinalize me lk).

Inductive task :=
  | TScan (r : recid) (n : nat)
  | TUse (i : lockerid) (rs : list recid)
  | TPut (i : lockerid) (env : put_env) (plink : linkid) (newtype : link_type) (pdbaddr : option recid).

Definition p_task (me : tid) (k : task) : prog unit :=
  match k with
  | TScan r n => p_scan me r n
  | TUse i rs => p_use me i rs
  | TPut i env plink newtype pdbaddr => p_dbPutFieldLink calloc me fuel i env plink newtype pdbaddr
  end.

Fixpoint p_tasks (me : tid) (ks : list task) : prog unit :=
  match ks with
  | [] => Ret tt
  | k :: ks => do* _ <- p_task me k in p_tasks me ks
  end.
End Tasks.

Section Safe.
Context (K : Z) (lim : option Z) (t : tid) (calloc : gmap addr lockSet -> addr) (fuel : nat).
Hypothesis calloc_fresh : forall m, m !! calloc m = None.

Abbreviation safe_t := (safe K lim t).
Abbreviation none := (fun _ : addr => False).

(** ** One record *)

Lemma scan_safe r n : 1 < K -> forall o st, calm o -> (forall y, oref o y = 0) -> is_Some (lrs st !! r) ->
  (forall y, locks o y -> plock st r = Some y /\ exists m, olock o y = Some (m, None)) -> retries lim (recomputeCnt st) fuel ->
  safe_t (p_scan fuel t r n) o st (fun _ o' st' => (exists snap, o' = o_snap o snap) /\ stays (locks o) st st').
Proof.
  intros HK. induction n as [|n IH]; intros o st Hc Ho Hlr Hl Hn; cbn [p_scan]; [split; [exists (osnap o); by destruct o|done]|].
  eapply safe_bind; [apply scan_lock_safe; [done| |done| |done]|].
  { intros y. rewrite Ho. lia. }
  { intros y Hy. by apply Hl. }
  intros _ o' st1 (y & snap & -> & Hp & S1). set (o1 := o_snap (o_lock o y (bump (olock o y))) snap).
  assert (Hb : exists m, bump (olock o y) = Some (m, None)).
  { destruct (olock o y) as [[m w]|] eqn:E; [|by eexists]. destruct (Hl y) as (_ & m' & E'); [unfold locks; by rewrite E|].
    rewrite E in E'. injection E' as -> ->. by eexists. }
  destruct Hb as [m Hb]. assert (Ly : locks o1 y) by (unfold locks, o1; simpl; by rewrite decide_True, Hb).
  assert (Hl1 : forall z, locks o1 z -> z = y).
  { intros z Hz. destruct (decide (z = y)) as [|N]; [done|]. unfold locks, o1 in Hz. simpl in Hz. rewrite decide_False in Hz by done.
    destruct (Hl z Hz) as [Hz1 _]. pose proof (sy_lr _ _ _ S1 r z Hz1 Hz). congruence. }
  assert (Em : olock o1 y = Some (m, None)) by (unfold o1; simpl; by rewrite decide_True).
  assert (Hin : forall st2, plock st2 r = Some y -> holds o1 st2 [r]) by (intros st2 H q ->%list_elem_of_singleton; eauto).
  split; [by apply Hin|].
  eapply safe_bind; [apply (IH o1 st1)|]; try done.
  { by apply (sy_dom _ _ _ S1). }
  { intros z Hz. pose proof (Hl1 z Hz) as ->. eauto. }
  { apply (retries_mono _ (recomputeCnt st)); [apply (sy_cnt _ _ _ S1)|done]. }
  intros _ o' st2 ([snap2 ->] & S2). pose proof (sy_lr _ _ _ S2 r y Hp Ly) as Hp2. split; [by apply Hin|].
  eapply safe_mono; [apply (scan_unlock_safe K lim t r y m (o_snap o1 snap2) st2)|]; try done.
  { intros z. simpl. rewrite Ho. lia. }
  intros _ o' st3 (-> & S3).
  assert (Eo : o_lock (o_snap o1 snap2) y (unbump (olock (o_snap o1 snap2) y)) = o_snap o snap2).
  { unfold o1. change (o_snap (o_snap (o_lock o y (bump (olock o y))) snap) snap2) with (o_lock (o_snap o snap2) y (bump (olock o y))).
    rewrite o_lock_lock. apply o_lock_id. simpl. by rewrite decide_True, unbump_bump. }
  rewrite Eo in *. split; [by exists snap2|]. transitivity st1; [done|]. transitivity st2; [|done].
  eapply stays_mono; [exact S2|]. intros z Hz. apply locks_lock; [by rewrite Hb|done].
Qed.

(** ** Several records *)

Definition rest (snap : option (Z * list (recid * addr))) : own := lko 1%positive (fun _ => 0) [] snap.

Lemma rest_lko i snap : lko i (fun _ => 0) [] snap = rest snap.
Proof. by apply own_ext. Qed.

Lemma current_holds i rs lk snap st r : loaded_with i rs lk snap st -> Some r ∈ rs ->
  exists x, x ∈ locked lk /\ plock st r = Some x.
Proof.
  intros W Hr. rewrite <- (lw_recs _ _ _ _ _ W) in Hr. apply list_elem_of_fmap in Hr as (ref & Er & Hin).
  destruct (lw_current _ _ _ _ _ W ref r Hin) as (x & Ex & Hp); [done|]. exists x. split; [|done].
  apply (lw_sets _ _ _ _ _ W). eauto.
Qed.

Lemma refs_bound lk rs y : map plr (refs lk) ≡ₚ rs -> zlen rs + 2 < K -> 0 <= nref (refs lk) y /\ nref (refs lk) y + 2 < K.
Proof.
  intros P HK. pose proof (nref_nonneg (refs lk) y). pose proof (nref_le (refs lk) y).
  assert (zlen (refs lk) = zlen rs) by (rewrite <- (length_map plr (refs lk)); by rewrite P). lia.
Qed.

(** The end of both functions. *)
Lemma release_safe i lk e snap st : me_locker lk = i -> NoDup (locked lk) -> e = nref (refs lk) ->
  (forall y, 0 <= e y /\ e y + 2 < K) ->
  safe_t (do* lk <- p_dbScanUnlockMany t lk in p_dbLockerFinalize t lk) (holding i e lk snap [] [] []) st
    (fun _ o' st' => o' = rest snap /\ stays none st st').
Proof.
  intros Em Nd -> He. destruct (He 1%positive).
  eapply safe_bind; [apply (unlock_many_safe K lim t i lk (nref (refs lk)) snap st Em Nd)|].
  { intros x _. pose proof (He x). lia. }
  intros lk' o' st1 (-> & -> & S1).
  eapply safe_mono; [apply (finalize_safe K lim t i (with_locked lk []) snap st1); [done|lia]|].
  intros _ o' st2 (-> & S2). split; [apply rest_lko|by transitivity st1].
Qed.

(** A locker is prepared and holds its sets. *)
Lemma acquire_safe i rs snap st : zlen rs + 2 < K -> (exists r, Some r ∈ rs) ->
  (forall r, Some r ∈ rs -> is_Some (recs st !! r) /\ is_Some (lrs st !! r)) -> retries lim (recomputeCnt st) fuel ->
  forall (p : dbLocker -> prog unit) Q,
  (forall lk snap' st', loaded_with i rs lk snap' st' -> stays none st st' ->
    safe_t (p lk) (holding i (nref (refs lk)) lk snap' [] [] []) st' Q) ->
  safe_t (do* lk <- p_dbLockerPrepare t i rs in do* lk <- p_dbScanLockMany t fuel lk in p lk) (rest snap) st Q.
Proof.
  intros HK Hso Hin Hn p Q Hp. rewrite <- (rest_lko i).
  eapply safe_bind; [apply (prepare_safe K lim t i rs snap st); [lia|done|done]|].
  intros lk o' st1 (snap1 & R & P & -> & (c & [Hc1 Hc2] & Hb) & S1).
  eapply safe_bind; [apply (lock_many_safe K lim t i fuel lk snap1 st1 c); [done|by apply (retries_mono _ (recomputeCnt st))|done|done]|].
  intros lk2 o' st2 (snap2 & W & -> & S2). apply Hp; [|by transitivity st1].
  destruct W. split; try done. by rewrite lw_recs.
Qed.

Lemma use_safe i rs snap st : zlen rs + 2 < K -> rs ≠ [] ->
  (forall r, r ∈ rs -> is_Some (recs st !! r) /\ is_Some (lrs st !! r)) -> retries lim (recomputeCnt st) fuel ->
  safe_t (p_use fuel t i rs) (rest snap) st (fun _ o' st' => exists snap', o' = rest snap' /\ stays none st st').
Proof.
  intros HK Hne Hin Hn. unfold p_use. apply acquire_safe.
  - by rewrite length_map.
  - destruct rs as [|r rs]; [done|]. exists r. by left.
  - intros r (r' & [= ->] & Hr)%list_elem_of_fmap. auto.
  - done.
  - intros lk snap' st1 W S1. split.
    + intros r Hr. destruct (current_holds i _ lk snap' st1 r W) as (x & Hx & Hp); [apply list_elem_of_fmap; eauto|].
      exists x. split; [done|]. by apply locks_holding.
    + eapply safe_mono; [apply release_safe|]; try apply W; try done.
      { intros y. eapply refs_bound; [apply (lw_recs _ _ _ _ _ W)|]. by rewrite length_map. }
      intros _ o' st2 (-> & S2). exists snap'. split; [done|]. by transitivity st1.
Qed.

(** ** A link *)

Lemma put_safe i env plink newtype pdbaddr snap st : 4 < K ->
  (forall r, r = fst plink \/ pdbaddr = Some r -> is_Some (recs st !! r) /\ is_Some (lrs st !! r)) ->
  is_Some (link_of st plink) -> newtype ≠ DB_LINK -> retries lim (recomputeCnt st) fuel ->
  safe_t (p_dbPutFieldLink calloc t fuel i env plink newtype pdbaddr) (rest snap) st
    (fun _ o' st' => exists snap', o' = rest snap' /\ stays none st st').
Proof.
  intros HK Hin Hl Nt Hn. unfold p_dbPutFieldLink. apply acquire_safe; [done|exists (fst plink); by left| |done|].
  { intros r [[= ->]|[<-|[]%not_elem_of_nil]%elem_of_cons]%elem_of_cons; auto. }
  intros lk snap1 st1 W S1. set (e := nref (refs lk)).
  assert (He : forall y, 0 <= e y /\ e y + 2 < K) by (intros y; eapply refs_bound; [apply (lw_recs _ _ _ _ _ W)|done]).
  eapply safe_bind with (Q' := fun lk' o' st' => changes i e lk lk' snap1 [] o' st1 st').
  { destruct (can_set env).
    - apply change_link_safe; try done; try apply W.
      + intros r Hr. apply (current_holds i [Some (fst plink); pdbaddr] lk snap1 st1 r W).
        destruct Hr as [->| ->]; [by left|right; by left].
      + by apply (sy_ldom _ _ _ S1).
    - apply changes_stays; [apply W|reflexivity]. }
  intros lk2 o' st2 [Em2 Er2 Nd2 -> _ S2].
  eapply safe_mono; [apply release_safe; try done|].
  { rewrite Em2. apply W. }
  { by rewrite Er2. }
  intros _ o' st3 (-> & S3). exists snap1. split; [done|]. transitivity st1; [done|]. by transitivity st2.
Qed.

(** ** Tasks *)

(** The records of the task exist, and it is not too large. *)
Definition task_ok st (k : task) : Prop :=
  match k with
  | TScan r _ => is_Some (lrs st !! r)
  | TUse _ rs => rs ≠ [] /\ zlen rs + 2 < K /\ forall r, r ∈ rs -> is_Some (recs st !! r) /\ is_Some (lrs st !! r)
  | TPut _ _ plink newtype pdbaddr =>
      (forall r, r = fst plink \/ pdbaddr = Some r -> is_Some (recs st !! r) /\ is_Some (lrs st !! r)) /\
      is_Some (link_of st plink) /\ newtype ≠ DB_LINK
  end.

Lemma task_ok_stays k st st' : stays none st st' -> task_ok st k -> task_ok st' k.
Proof.
  intros S. pose proof (sy_dom _ _ _ S) as Hd. pose proof (sy_rdom _ _ _ S) as Hr. pose proof (sy_ldom _ _ _ S) as Hl.
  destruct k; simpl; rewrite ?Hl; [by intros H%Hd| |]; setoid_rewrite Hr; setoid_rewrite Hd; done.
Qed.

Lemma task_safe k snap st : 4 < K -> task_ok st k -> retries lim (recomputeCnt st) fuel ->
  safe_t (p_task calloc fuel t k) (rest snap) st (fun _ o' st' => exists snap', o' = rest snap' /\ stays none st st').
Proof.
  intros HK Hk Hn. destruct k as [r n|i rs|i env plink newtype pdbaddr]; cbn [p_task].
  - eapply safe_mono; [apply scan_safe; [lia|done|done|done| |done]|].
    { intros y Hy%locks_lko. by apply not_elem_of_nil in Hy. }
    intros _ o' st' ([snap' ->] & S). exists snap'. split; [done|]. by eapply stays_none.
  - destruct Hk as (H1 & H2 & H3). by apply use_safe.
  - destruct Hk as (H1 & H2 & H3). by apply put_safe.
Qed.

Lemma tasks_safe ks : forall snap st, 4 < K -> Forall (task_ok st) ks -> retries lim (recomputeCnt st) fuel ->
  safe_t (p_tasks calloc fuel t ks) (rest snap) st (fun _ o' _ => idle o').
Proof.
  induction ks as [|k ks IH]; intros snap st HK Hks Hn; [done|]. apply Forall_cons in Hks as [Hk Hks]. cbn [p_tasks].
  eapply safe_bind; [by apply task_safe|]. intros _ o' st' (snap' & -> & S). apply IH; [done| |].
  - eapply Forall_impl; [exact Hks|]. intros k'. by apply task_ok_stays.
  - apply (retries_mono _ (recomputeCnt st)); [apply (sy_cnt _ _ _ S)|done].
Qed.
End Safe.
