(* ===== verification/DbLockRetries.v ===== *)
(** * Lock sets: how often records can move

    A thread tries again when [recomputeCnt] has changed while it waited, and only the changes of links of other threads change it.  Here:
    a bound, from the tasks of the threads alone, on how often they can. *)

From stdpp Require Import base gmap list.
From Stdlib Require Import ZArith Lia Bool.
From S2P Require Import Prelude DbLock DbLockInv DbLockProg DbLockConc DbLockTasks.
Open Scope Z_scope.

(** The result has the property, unless there is a fault. *)
Abbreviation ok r P := (rwp (fun _ : lk_fault => True) r P).
Abbreviation same st := (fun st' => recomputeCnt st' = recomputeCnt st).
Abbreviation same2 st := (fun r => recomputeCnt (snd r) = recomputeCnt st).

(** ** Sections that leave [recomputeCnt] alone *)

Ltac quiet :=
  repeat first [done | match goal with |- rwp _ (ebind _ _) _ => apply rwp_bind end | progress cbn [rwp ebind the snd fst] | match goal with |- context [the ?o] => destruct o end | case_match
    | match goal with |- rwp _ (mutex_lock ?a ?b) _ => destruct (mutex_lock a b) | |- rwp _ (mutex_unlock ?a ?b) _ => destruct (mutex_unlock a b) end].

Section Quiet.
Context (calloc : gmap addr lockSet -> addr) (me : tid).

Lemma add_ref_same st x n : ok (add_ref st x n) (same2 st).
Proof. unfold add_ref, get_set. quiet. Qed.
Lemma lock_set_same st x : ok (lock_set me st x) (same st).
Proof. unfold lock_set, get_set. quiet. Qed.
Lemma unlock_set_same st x : ok (unlock_set me st x) (same st).
Proof. unfold unlock_set, get_set. quiet. Qed.
Lemma unlist_set_same x st : ok (unlist_set x st) (same st).
Proof. unfold unlist_set, list_delete. quiet. Qed.
Lemma put_owner_same x w st : ok (put_owner x w st) (same st).
Proof. unfold put_owner, get_set. quiet. Qed.
Lemma incref_same st x : ok (dbLockIncRef st x) (same st).
Proof. unfold dbLockIncRef. apply rwp_bind. eapply rwp_mono; [apply add_ref_same|]. intros [c st'] E. unfold lk_require. quiet. Qed.
Lemma get_ref_same st r : ok (dbLockGetRef st r) (same2 st).
Proof. unfold dbLockGetRef, get_lr. quiet. eapply rwp_mono; [apply incref_same|]. done. Qed.
Lemma scan_check_same r x st : ok (scan_check r x st) (same2 st).
Proof.
  unfold scan_check, get_plock, get_lr. quiet. eapply rwp_mono; [apply add_ref_same|]. intros [c st'] E. unfold lk_assert. quiet.
Qed.
Lemma ref_check_same b r old st : ok (ref_check b r old st) (same2 st).
Proof. unfold ref_check, get_plock, get_lr. quiet. eapply rwp_mono; [apply incref_same|]. done. Qed.
Lemma merge_record_same A B r l st : ok (merge_record A B r l st) (same st).
Proof. unfold merge_record, join_record, get_set, get_lr, lk_assert. quiet. Qed.
Lemma split_record_same A B r st : ok (split_record A B r st) (same st).
Proof. unfold split_record, join_record, get_set, get_lr, lk_assert, list_delete. quiet. Qed.
Lemma use_set_same st x : ok (use_set st x) (same2 st).
Proof.
  unfold use_set. apply rwp_bind. eapply rwp_mono; [apply add_ref_same|]. intros [c st'] E. unfold get_set, lk_assert. quiet.
Qed.
Lemma makeSet_same st : ok (makeSet calloc st) (same2 st).
Proof. unfold makeSet. case_match; (eapply rwp_mono; [apply use_set_same|]; done). Qed.
Lemma reset_flags_same l : forall st, ok (reset_flags l st) (same st).
Proof.
  induction l as [|r l IH]; intros st; cbn [reset_flags]; [done|]. unfold get_lr. quiet. eapply rwp_mono; [apply IH|]. done.
Qed.
Lemma put_link_same st l p : ok (put_link st l p) (same st).
Proof. unfold put_link, get_rec. quiet. Qed.
Lemma set_db_link_same st l r : ok (set_db_link st l r) (same st).
Proof.
  unfold set_db_link. apply rwp_bind. eapply rwp_mono; [apply put_link_same|]. intros st' E. unfold add_bklnk, get_rec. quiet.
Qed.
Lemma unset_db_link_same st l p r : ok (unset_db_link st l p r) (same st).
Proof.
  unfold unset_db_link. apply rwp_bind. eapply rwp_mono; [apply put_link_same|]. intros st' E. unfold del_bklnk, get_rec. quiet.
Qed.

(** The search. *)
Lemma visit_same p r q st : ok (visit p r q st) (same2 st).
Proof. unfold visit, get_lr. quiet. Qed.
Lemma visit_links_same p l : forall q st, ok (visit_links p l q st) (same2 st).
Proof.
  induction l as [|k l IH]; intros q st; cbn [visit_links]; [done|]. case_match; [|apply IH]. unfold get_rec, lk_assert.
  destruct (pvt k) as [r|]; [|done]. cbn [the ebind]. destruct (recs st !! r); [|done]. cbn [the ebind]. destruct (lrs st !! r); [|done]. cbn [ebind].
  apply rwp_bind. (eapply rwp_mono; [apply visit_same|]; intros [[f q'] st'] E; cbn [snd] in E; destruct f; [done|];
    eapply rwp_mono; [apply IH|]; intros z Ez; congruence).
Qed.
Lemma visit_backlinks_same p l : forall q st, ok (visit_backlinks p l q st) (same2 st).
Proof.
  induction l as [|k l IH]; intros q st; cbn [visit_backlinks]; [done|]. apply rwp_bind.
  eapply rwp_mono; [apply visit_same|]. intros [[f q'] st'] E. cbn [snd] in E. destruct f; [done|].
  eapply rwp_mono; [apply IH|]. intros z Ez. congruence.
Qed.
Lemma split_search_same fuel p : forall q n st, ok (split_search fuel p q n st) (same2 st).
Proof.
  induction fuel as [|fuel IH]; intros [|r q] n st; cbn [split_search]; [done..|]. unfold get_lr, get_rec.
  destruct (lrs st !! r) as [lr|]; [|done]. cbn [the ebind]. destruct (recs _ !! r) as [rc|]; [|done]. cbn [the ebind].
  apply rwp_bind. eapply rwp_mono; [apply visit_links_same|]. intros [[f q1] st1] E1. cbn [snd] in E1. destruct f; [done|].
  apply rwp_bind. eapply rwp_mono; [apply visit_backlinks_same|]. intros [[f q2] st2] E2. cbn [snd] in E2.
  destruct f; [cbn; by rewrite E2|]. eapply rwp_mono; [apply IH|]. intros z Ez. by rewrite Ez, E2, E1.
Qed.
Lemma search_from_same p r st : ok (search_from p r st) (same2 st).
Proof. unfold search_from, get_lr. quiet. eapply rwp_mono; [apply split_search_same|]. done. Qed.
End Quiet.

(** ** Counting *)

(** What a state with [R] records guarantees. *)
Definition counted (R : Z) st : Prop := 0 <= recomputeCnt st /\ forall x s, sets st !! x = Some s -> zlen (lockRecordList s) <= R.

Section Counts.
Context (R : Z) (HR : 0 <= R).

(** Whatever other threads do between its steps, the program increases [recomputeCnt] at most [n] times, and what it returns
    satisfies [Q]. *)
Fixpoint counts {A} (p : prog A) (n : Z) (Q : A -> Prop) : Prop :=
  match p with
  | Ret a => 0 <= n /\ Q a
  | Stop => 0 <= n
  | Inside _ k => counts k n Q
  | Act f k => 0 <= n /\ forall st, counted R st ->
      match f st with
      | inl _ => True
      | inr (x, st') => exists m, recomputeCnt st' + m <= recomputeCnt st + n /\ counts (k x) m Q
      end
  end.

Lemma counts_nonneg {A} (p : prog A) n Q : counts p n Q -> 0 <= n.
Proof. induction p; simpl; naive_solver. Qed.

Lemma counts_mono {A} (p : prog A) (Q Q' : A -> Prop) : forall n n', n <= n' -> (forall a, Q a -> Q' a) -> counts p n Q -> counts p n' Q'.
Proof.
  induction p as [a| |rs k IH|X f k IH]; intros n n' L HQ; simpl.
  - intros [? ?]. split; [lia|auto].
  - lia.
  - by apply IH.
  - intros [H0 H]. split; [lia|]. intros st Hst. specialize (H st Hst). destruct (f st) as [|[x st']]; [done|].
    destruct H as (m & Hm & Hk). exists m. split; [lia|]. by apply (IH x m m).
Qed.

Lemma counts_bind {A B} (p : prog A) (k : A -> prog B) (Q : A -> Prop) Q' m : 0 <= m -> (forall a, Q a -> counts (k a) m Q') ->
  forall n, counts p n Q -> counts (bind p k) (n + m) Q'.
Proof.
  intros Hm Hk. induction p as [a| |rs q IH|X f q IH]; intros n; simpl.
  - intros [? ?]. eapply counts_mono; [|done|by apply Hk]. lia.
  - lia.
  - by apply IH.
  - intros [H0 H]. split; [lia|]. intros st Hst. specialize (H st Hst). destruct (f st) as [|[x st']]; [done|].
    destruct H as (m' & Hm' & Hq). exists (m' + m). split; [lia|]. by apply IH.
Qed.

(** A part that counts nothing. *)
Lemma counts_quiet {A B} (p : prog A) (k : A -> prog B) (Q : A -> Prop) n Q' : counts p 0 Q -> (forall a, Q a -> counts (k a) n Q') ->
  0 <= n -> counts (bind p k) n Q'.
Proof. intros Hp Hk Hn. replace n with (0 + n) by lia. by eapply counts_bind. Qed.

Lemma counts_sec {X} (f : lk_state -> lk_fault + (X * lk_state)) : (forall st, ok (f st) (same2 st)) -> counts (sec f) 0 (fun _ => True).
Proof.
  intros H. split; [done|]. intros st _. specialize (H st). destruct (f st) as [|[x st']]; [done|]. cbn in H. exists 0. split; [lia|done].
Qed.
Lemma counts_upd f : (forall st, ok (f st) (same st)) -> counts (upd f) 0 (fun _ => True).
Proof. intros H. apply counts_sec. intros st. apply rwp_bind. eapply rwp_mono; [apply H|]. done. Qed.
Lemma counts_get {X} (f : lk_state -> lk_fault + X) (Q : X -> Prop) : (forall st, counted R st -> ok (f st) Q) -> counts (get f) 0 Q.
Proof.
  intros H. split; [done|]. intros st Hst. specialize (H st Hst). destruct (f st) as [|x]; [done|]. cbn in *. exists 0. split; [lia|done].
Qed.
Lemma counts_read {X} (f : lk_state -> lk_fault + X) : counts (get f) 0 (fun _ => True).
Proof. apply counts_get. intros st _. by destruct (f st). Qed.
Lemma counts_assert b : counts (p_assert b) 0 (fun _ => b = true).
Proof. by destruct b. Qed.
Lemma counts_require b : counts (p_require b) 0 (fun _ => b = true).
Proof. by destruct b. Qed.
Lemma counts_the {X} (o : option X) : counts (p_the o) 0 (fun _ => True).
Proof. by destruct o. Qed.
Lemma counts_move : counts (upd count_move) 1 (fun _ => True).
Proof.
  split; [lia|]. intros st [H0 _]. cbn. exists 0. split; [|done]. unfold wrap_u.
  pose proof (Z.mod_le (recomputeCnt st + 1) (2 ^ 64) ltac:(lia) ltac:(lia)). lia.
Qed.
End Counts.

Create HintDb count.
#[export] Hint Resolve add_ref_same lock_set_same unlock_set_same unlist_set_same put_owner_same incref_same get_ref_same scan_check_same
  ref_check_same merge_record_same split_record_same makeSet_same reset_flags_same put_link_same set_db_link_same unset_db_link_same
  search_from_same : count.

(** One step of a program that counts nothing, and all of them. *)
Ltac count_part :=
  lazymatch goal with
  | |- counts _ (get _) _ _ => apply counts_read
  | |- counts _ (upd _) _ _ => apply counts_upd; intros; solve [eauto with count]
  | |- counts _ (sec _) _ _ => apply counts_sec; intros; solve [eauto with count]
  | |- counts _ (p_assert _) _ _ => apply counts_assert
  | |- counts _ (p_require _) _ _ => apply counts_require
  | |- counts _ (p_the _) _ _ => apply counts_the
  | |- _ => solve [eauto with count]
  end.
Abbreviation any := (fun _ => True).

Lemma counts_assert_any R b : counts R (p_assert b) 0 any.
Proof. by destruct b. Qed.

Ltac count :=
  repeat lazymatch goal with
  | |- counts _ (bind (match ?x with _ => _ end) _) _ _ => eapply counts_quiet with (Q := any); [count|intros ? _|lia]
  | |- counts _ (bind (if ?x then _ else _) _) _ _ => eapply counts_quiet with (Q := any); [count|intros ? _|lia]
  | |- counts _ (bind (bind _ _) _) _ _ => eapply counts_quiet with (Q := any); [count|intros ? _|lia]
  | |- counts _ (bind _ _) _ _ => eapply counts_quiet; [count_part|intros ? ?|lia]
  | |- counts _ (Ret _) _ _ => split; [lia|done]
  | |- counts _ (Act (fun _ => inl _) _) _ _ => split; [lia|done]
  | |- counts _ Stop _ _ => simpl; lia
  | |- counts _ (Inside _ _) _ _ => cbn [counts]
  | |- counts _ (p_assert _) _ _ => apply counts_assert_any
  | |- counts _ (if ?b then _ else _) _ _ => destruct b
  | |- counts _ (match ?x with _ => _ end) _ _ => destruct x
  end; try count_part.

Section Programs.
Context (calloc : gmap addr lockSet -> addr) (me : tid) (R : Z) (HR : 0 <= R).
Abbreviation counts_r := (counts R).

Lemma decref_counts x : counts_r (p_dbLockDecRef me x) 0 any.
Proof. unfold p_dbLockDecRef. count. Qed.
Hint Resolve decref_counts : count.

Lemma scan_retry_counts fuel r : forall x, counts_r (p_scan_retry me fuel r x) 0 any.
Proof. induction fuel as [|fuel IH]; intros x; cbn [p_scan_retry]; count. Qed.
Hint Resolve scan_retry_counts : count.
Lemma scan_lock_counts fuel r : counts_r (p_dbScanLock me fuel r) 0 any.
Proof. unfold p_dbScanLock. count. Qed.
Lemma scan_unlock_counts r : counts_r (p_dbScanUnlock me r) 0 any.
Proof. unfold p_dbScanUnlock. count. Qed.
Hint Resolve scan_lock_counts scan_unlock_counts : count.

Lemma update_ref_counts u ref : counts_r (p_update_ref me u ref) 0 any.
Proof. unfold p_update_ref. count. Qed.
Hint Resolve update_ref_counts : count.
Lemma update_loop_counts u rs : forall ch, counts_r (p_update_loop me u ch rs) 0 any.
Proof. induction rs as [|ref rs IH]; intros ch; cbn [p_update_loop]; count. Qed.
Hint Resolve update_loop_counts : count.
Lemma update_refs_counts lk u : counts_r (p_dbLockUpdateRefs me lk u) 0 any.
Proof. unfold p_dbLockUpdateRefs. count. Qed.
Hint Resolve update_refs_counts : count.
Lemma prepare_counts i rs : counts_r (p_dbLockerPrepare me i rs) 0 any.
Proof. unfold p_dbLockerPrepare. count. Qed.
Lemma release_counts rs : counts_r (p_release_refs me rs) 0 any.
Proof. induction rs as [|ref rs IH]; cbn [p_release_refs]; count. Qed.
Hint Resolve release_counts prepare_counts : count.
Lemma finalize_counts lk : counts_r (p_dbLockerFinalize me lk) 0 any.
Proof. unfold p_dbLockerFinalize. count. Qed.
Lemma take_set_counts i x : counts_r (p_take_set me i x) 0 any.
Proof. unfold p_take_set. count. Qed.
Hint Resolve finalize_counts take_set_counts : count.
Lemma lock_loop_counts rs : forall p lk, counts_r (p_lock_loop me p rs lk) 0 any.
Proof. induction rs as [|ref rs IH]; intros p lk; cbn [p_lock_loop]; count. Qed.
Lemma unlock_loop_counts i l : counts_r (p_unlock_loop me i l) 0 any.
Proof. induction l as [|x l IH]; cbn [p_unlock_loop]; count. Qed.
Hint Resolve lock_loop_counts unlock_loop_counts : count.
Lemma unlock_many_counts lk : counts_r (p_dbScanUnlockMany me lk) 0 any.
Proof. unfold p_dbScanUnlockMany. count. Qed.
Hint Resolve unlock_many_counts : count.
Lemma many_retry_counts fuel : forall lk, counts_r (p_many_retry me fuel lk) 0 any.
Proof. induction fuel as [|fuel IH]; intros lk; cbn [p_many_retry]; count. Qed.
Hint Resolve many_retry_counts : count.
Lemma lock_many_counts fuel lk : counts_r (p_dbScanLockMany me fuel lk) 0 any.
Proof. unfold p_dbScanLockMany. count. Qed.
Hint Resolve lock_many_counts : count.

(** Each record that moves is counted once. *)
Lemma merge_records_counts A B l : counts_r (p_merge_records A B l) (zlen l) any.
Proof.
  induction l as [|r l IH]; cbn [p_merge_records]; [count|]. eapply counts_quiet; [count_part|intros _ _|simpl; lia].
  replace (zlen (r :: l)) with (1 + zlen l) by (simpl; lia). eapply counts_bind; [lia|intros _ _; exact IH|apply counts_move].
Qed.
Lemma split_loop_counts x y l : counts_r (p_split_loop x y l) (zlen l) any.
Proof.
  induction l as [|r l IH]; cbn [p_split_loop]; [count|]. eapply counts_quiet; [count_part|intros _ _|simpl; lia].
  replace (zlen (r :: l)) with (1 + zlen l) by (simpl; lia). eapply counts_bind; [lia|intros _ _; exact IH|apply counts_move].
Qed.

Lemma list_counts B : counts_r (get (fun st => let* s := get_set st B in inr (lockRecordList s))) 0 (fun l => zlen l <= R).
Proof. apply counts_get. intros st [_ H]. unfold get_set. destruct (sets st !! B) eqn:E; [|done]. cbn. by apply (H B). Qed.
Lemma count_counts B : counts_r (get (get_count B)) 0 (fun n => n <= R).
Proof. apply counts_get. intros st [_ H]. unfold get_count, get_set. destruct (sets st !! B) eqn:E; [|done]. cbn. by apply (H B). Qed.

Lemma set_merge_counts lk r q : counts_r (p_dbLockSetMerge me lk r q) R any.
Proof.
  unfold p_dbLockSetMerge. do 4 (eapply counts_quiet; [count_part|intros ? _|done]). eapply counts_quiet; [count_part|intros _ _|done].
  case_decide; [split; done|]. eapply counts_quiet; [apply list_counts|intros l Hl; cbv beta in Hl|done].
  eapply counts_quiet; [count_part|intros _ _|done]. apply (counts_mono R _ any any (zlen l + (R - zlen l))); [lia|done|].
  eapply counts_bind; [lia|intros _ _|apply merge_records_counts].
  apply (counts_mono R _ any any 0); [lia|done|]. count.
Qed.

Lemma locked_set_counts lk : counts_r (p_locked_set calloc me lk) 0 any.
Proof. unfold p_locked_set. count. Qed.
Hint Resolve locked_set_counts : count.

Lemma split_off_counts lk q x l : counts_r (p_split_off calloc me lk q x l) R any.
Proof.
  unfold p_split_off. eapply counts_quiet; [apply count_counts|intros n Hn; cbv beta in Hn|done]. eapply counts_quiet; [count_part|intros _ _|done].
  eapply counts_quiet; [apply counts_assert|intros _ Hl%Z.ltb_lt|done]. do 2 (eapply counts_quiet; [count_part|intros ? _|done]).
  eapply counts_quiet; [count_part|intros [y lk'] _|done]. apply (counts_mono R _ any any (zlen l + (R - zlen l))); [lia|done|].
  eapply counts_bind; [lia|intros _ _|apply split_loop_counts]. apply (counts_mono R _ any any 0); [lia|done|]. count.
Qed.

Lemma split_counts lk r q : counts_r (p_dbLockSetSplit calloc me lk r q) R any.
Proof.
  unfold p_dbLockSetSplit. do 3 (eapply counts_quiet; [count_part|intros ? _|done]). case_decide; [split; done|].
  do 3 (eapply counts_quiet; [count_part|intros ? _|done]). eapply counts_quiet; [count_part|intros [[[] ti] l] _|done].
  - apply (counts_mono R _ any any 0); [lia|done|]. count.
  - apply split_off_counts.
Qed.

Lemma db_add_counts lk l r : counts_r (p_dbDbAddLink me lk l r) R any.
Proof. unfold p_dbDbAddLink. eapply counts_quiet; [count_part|intros _ _; apply set_merge_counts|done]. Qed.
Lemma db_remove_counts lk l : counts_r (p_dbDbRemoveLink calloc me lk l) R any.
Proof.
  unfold p_dbDbRemoveLink. do 3 (eapply counts_quiet; [count_part|intros ? _|done]). apply split_counts.
Qed.

Lemma put_link_counts l p : counts_r (p_put_link l p) 0 any.
Proof. unfold p_put_link. count. Qed.
Hint Resolve put_link_counts : count.

Lemma remove_counts lk l : counts_r (p_dbRemoveLink calloc me lk l) R any.
Proof.
  unfold p_dbRemoveLink. eapply counts_quiet; [count_part|intros p _|done]. destruct (lset p) as [s|]; [|split; done].
  apply (counts_mono R _ any any (R + 0)); [lia|done|]. eapply counts_bind with (Q := any); [lia|intros lk' _; count|].
  destruct s; try (split; done); [apply db_remove_counts|]. apply (counts_mono R _ any any 0); [lia|done|]. count.
Qed.
Lemma add_counts lk l r : counts_r (p_dbAddLink me lk l r) R any.
Proof.
  unfold p_dbAddLink. eapply counts_quiet; [count_part|intros p _|done].
  destruct (ltype p); try (split; done); [|destruct r as [r|]; [apply db_add_counts|]|];
    (apply (counts_mono R _ any any 0); [lia|done|]); count.
Qed.

(** A change of a link: a split and a merge. *)
Lemma change_link_counts env lk l ty r : counts_r (p_change_link calloc me env lk l ty r) (2 * R) any.
Proof.
  unfold p_change_link. eapply counts_quiet; [count_part|intros p _|lia]. destruct (_ && _); [split; [lia|done]|].
  destruct (_ && _); [split; [lia|done]|]. apply (counts_mono R _ any any (R + R)); [lia|done|].
  eapply counts_bind with (Q := any); [done|intros lk' _|destruct (lset p); [apply remove_counts|by split]].
  destruct (negb _); [by split|]. do 2 (eapply counts_quiet; [count_part|intros ? _|done]).
  destruct (negb _); [by split|apply add_counts].
Qed.

Lemma put_field_counts fuel i env l ty r : counts_r (p_dbPutFieldLink calloc me fuel i env l ty r) (2 * R) any.
Proof.
  unfold p_dbPutFieldLink. do 2 (eapply counts_quiet; [count_part|intros ? _|lia]). replace (2 * R) with (2 * R + 0) by lia.
  eapply counts_bind with (Q := any); [lia|intros lk' _; count|]. destruct (can_set env); [apply change_link_counts|split; [lia|done]].
Qed.

(** ** Tasks *)

Lemma scan_counts fuel r n : counts_r (p_scan fuel me r n) 0 any.
Proof. induction n as [|n IH]; cbn [p_scan]; count. Qed.
Lemma use_counts fuel i rs : counts_r (p_use fuel me i rs) 0 any.
Proof. unfold p_use. count. Qed.

Definition is_put (k : task) : bool := match k with TPut _ _ _ _ _ => true | _ => false end.
(** The number of changes of links. *)
Definition puts (ks : list task) : Z := zlen (List.filter is_put ks).

Lemma tasks_counts fuel ks : counts_r (p_tasks calloc fuel me ks) (2 * R * puts ks) any.
Proof.
  induction ks as [|k ks IH]; cbn [p_tasks]; [split; [unfold puts; simpl; lia|done]|].
  replace (2 * R * puts (k :: ks)) with ((if is_put k then 2 * R else 0) + 2 * R * puts ks)
    by (unfold puts; cbn [List.filter]; destruct (is_put k); simpl length; lia).
  eapply counts_bind with (Q := any); [unfold puts; lia|intros _ _; exact IH|].
  destruct k; cbn [p_task is_put]; [apply scan_counts|apply use_counts|apply put_field_counts].
Qed.
End Programs.

(** ** All threads together *)

(** [R] records; each thread may still move as many as it needs, and [recomputeCnt] stays below [m]. *)
Definition budget (R m : Z) (c : list thread * lk_state) : Prop :=
  Z.of_nat (size (lrs c.2)) <= R /\
  exists ns, Forall2 (fun th n => counts R th.2 n any) c.1 ns /\ recomputeCnt c.2 + foldr Z.add 0 ns <= m.

Lemma sum_nonneg R (ts : list thread) ns : Forall2 (fun th n => counts R th.2 n any) ts ns -> 0 <= foldr Z.add 0 ns.
Proof. induction 1 as [|th n ts ns H _ IH]; simpl; [done|]. pose proof (counts_nonneg R _ _ _ H). lia. Qed.

Lemma budget_within R m c : budget R m c -> within (Some m) c.2.
Proof. intros (_ & ns & F & L). pose proof (sum_nonneg R _ _ F). simpl. lia. Qed.

Lemma sum_insert ns i n m : ns !! i = Some n -> foldr Z.add 0 (<[i := m]> ns) = foldr Z.add 0 ns - n + m.
Proof.
  revert i. induction ns as [|k ns IH]; intros [|i] E; simpl in *; try done; [injection E as ->; lia|]. rewrite (IH i E). lia.
Qed.

Lemma cinv_counted K (os : list (tid * own)) st R : cinv K os st -> Z.of_nat (size (lrs st)) <= R -> counted R st.
Proof.
  intros I L. pose proof (ci_core _ _ _ I) as C. split; [apply (co_cnt _ _ _ C)|]. intros x s E.
  pose proof (members_bound _ _ _ x C) as H. rewrite (members_lookup _ _ _ E) in H. lia.
Qed.

Lemma budget_step K R m c c' : step c c' -> system K (Some m) c.1 c.2 -> budget R m c -> budget R m c'.
Proof.
  intros S Sys B. pose proof (system_size K (Some m) c c' S (budget_within R m c B) Sys) as Esz.
  destruct B as (L & ns & F & Lm), Sys as (os & _ & I & _). split; [by rewrite Esz|].
  pose proof (cinv_counted K os c.2 R I L) as Cn. destruct S as [ts st i t p p' st' Hw Hi Hp]. simpl in *.
  destruct (Forall2_lookup_l _ _ _ _ _ F Hi) as (n & Hn & Hc). simpl in Hc.
  assert (exists k, recomputeCnt st' + k <= recomputeCnt st + n /\ counts R p' k any) as (k & Hk & Hc').
  { destruct p as [| |rs q|X f q]; simpl in *; try done.
    - injection Hp as <- <-. exists n. by split.
    - destruct Hc as [_ Hc]. specialize (Hc st Cn). destruct (f st) as [e|[x st2]]; simpl in Hp; [done|].
      by injection Hp as <- <-. }
  exists (<[i := k]> ns). split; [by apply Forall2_insert|]. rewrite (sum_insert ns i n k Hn). lia.
Qed.
