(* ===== verification/DbLockSystem.v ===== *)
(** * Lock sets: theorems on threads

    Any number of threads with tasks, from a state in which no set is locked: whatever the order of their steps, no
    [assert] fails, no two threads use records of one set, some thread can go on until all are done, and then
    nothing is held. *)

From stdpp Require Import base gmap list sorting fin_sets relations.
From Stdlib Require Import ZArith Lia Bool.
From S2P Require Import Prelude DbLock DbLockInv DbLocker DbLockSets DbLockGraph DbLockRun DbLockMain DbLockProg DbLockConc DbLockSteps DbLockMoves DbLockThreads DbLockMany DbLockHold DbLockFlux DbLockTasks DbLockRetries.
Open Scope Z_scope.

(** ** Progress *)

Section Progress.
Context (K m : Z) (ts : list thread) (st : lk_state) (Hw : fits (Some m) st).
Abbreviation safe_m := (safe K (Some m)).

Definition moves_on : Prop := exists c, step (ts, st) c.

(** A thread is done, can go on or waits. *)
Lemma thread_cases (os : list (tid * own)) i t p o st0 : cinv K os st -> os !! i = Some (t, o) -> ts !! i = Some (t, p) ->
  rely o st0 st -> safe_m t p o st0 (fun _ o' _ => idle o') -> (p = Ret tt /\ idle o) \/ moves_on \/ waits t o st.
Proof.
  intros I Ho Hi Hr Hs. destruct p as [[]| |rs k|X f k].
  - by left.
  - done.
  - right. left. eexists. eapply step_thread; [apply Hw|done|done].
  - right. specialize (Hs os i st Ho I Hr Hw). destruct (f st) as [e|[x st2]] eqn:E; [by right; apply Hs|left].
    eexists. eapply step_thread; [apply Hw|done|]. simpl. by rewrite E.
Qed.

(** Whoever waits, waits for a thread that can go on or waits for a set of a higher address. *)
Lemma waits_moves (os : list (tid * own)) n : os.*1 = ts.*1 -> cinv K os st ->
  (forall i t p o, ts !! i = Some (t, p) -> os !! i = Some (t, o) ->
    exists st0, rely o st0 st /\ safe_m t p o st0 (fun _ o' _ => idle o')) ->
  forall x s t m', sets st !! x = Some s -> lock s = Some (t, m') -> (Pos.to_nat (next_addr (sets st)) < Pos.to_nat x + n)%nat ->
  moves_on.
Proof.
  intros Et I Hs. induction n as [|n IH]; intros x s t m' Es L Hn.
  { pose proof (next_addr_above (sets st) x ltac:(eauto)). lia. }
  pose proof (ci_owner _ _ _ I x s t m' Es L) as Hin. apply list_elem_of_fmap in Hin as ([t' o] & -> & Hin).
  apply list_elem_of_lookup in Hin as [i Ho]. simpl in *.
  destruct (system_own os ts i t' o (eq_sym Et) Ho) as [p Hi].
  pose proof (own_inv K os st I i t' o Ho) as T.
  assert (Hl : olock o x ≠ None).
  { pose proof (co_mut _ _ _ (ci_core _ _ _ I) x s t' m' Es L). destruct m' as [|m']; [lia|].
    rewrite (proj2 (ti_lock _ _ _ _ _ T x s Es m' (ownerlocker s))); done. }
  destruct (Hs i t' p o Hi Ho) as (st0 & Hr & Hsafe).
  destruct (thread_cases os i t' p o st0 I Ho Hi Hr Hsafe) as [[_ Hid]|[?|W]]; [|done|].
  - destruct Hid as (_ & Hid & _). by rewrite Hid in Hl.
  - destruct W as (y & s' & t2 & m2 & Es' & L' & _ & Hy). specialize (Hy x Hl).
    eapply IH; [exact Es'|exact L'|]. lia.
Qed.

(** No thread is out of retries. *)
Lemma system_no_stop : system K (Some m) ts st -> forall i t p, ts !! i = Some (t, p) -> p ≠ Stop.
Proof.
  intros (os & Et & _ & Hs) i t p Hi ->. destruct (system_own ts os i t _ Et Hi) as [o Ho].
  by destruct (Hs i t _ o Hi Ho) as (st0 & _ & H).
Qed.

Lemma system_progress : system K (Some m) ts st ->
  moves_on \/ ((forall i t p, ts !! i = Some (t, p) -> p = Ret tt) /\ exists os, cinv K os st /\ forall t o, (t, o) ∈ os -> idle o).
Proof.
  intros (os & Et & I & Hs).
  assert (H : moves_on \/ forall i t p, ts !! i = Some (t, p) -> p = Ret tt /\ forall o, os !! i = Some (t, o) -> idle o).
  { assert (Hall : forall n, moves_on \/ forall i t p, (i < n)%nat -> ts !! i = Some (t, p) ->
      p = Ret tt /\ forall o, os !! i = Some (t, o) -> idle o).
    { induction n as [|n [IH|IH]]; [right; lia|by left|]. destruct (ts !! n) as [[t p]|] eqn:Hn.
      - destruct (system_own ts os n t p Et Hn) as [o Ho]. destruct (Hs n t p o Hn Ho) as (st0 & Hr & Hsafe).
        destruct (thread_cases os n t p o st0 I Ho Hn Hr Hsafe) as [[-> Hid]|[?|W]]; [|by left|].
        + right. intros i t' p' Hi E. destruct (decide (i = n)) as [->|]; [|apply (IH i t' p'); [lia|done]].
          rewrite Hn in E. injection E as <- <-. split; [done|]. intros o' E. rewrite Ho in E. by injection E as <-.
        + left. destruct W as (y & s & t2 & m2 & Es & L & _). eapply (waits_moves os (Pos.to_nat (next_addr (sets st))));
            [done|done|done|exact Es|exact L|]. lia.
      - right. intros i t' p' Hi E. destruct (decide (i = n)) as [->|]; [congruence|]. apply (IH i t' p'); [lia|done]. }
    destruct (Hall (length ts)) as [|Hd]; [by left|right]. intros i t p E. apply Hd; [|done]. by eapply lookup_lt_Some. }
  destruct H as [|Hd]; [by left|right]. split; [intros i t p E; by apply Hd in E as [? _]|].
  exists os. split; [done|]. intros t o [i Ho]%list_elem_of_lookup.
  destruct (system_own os ts i t o (eq_sym Et) Ho) as [p Hi]. destruct (Hd i t p Hi) as [_ H]. by apply H.
Qed.
End Progress.

(** ** Every run ends *)

(** [q] is what is left of [p] after a step. *)
Definition after (q p : prog unit) : Prop := exists st st', pstep p st = Some (inr (q, st')).

Lemma after_acc p : Acc after p.
Proof.
  induction p as [a| |rs k IH|X f k IH]; constructor; intros q (st & st' & E); simpl in E.
  - discriminate.
  - discriminate.
  - injection E as <- _. exact IH.
  - destruct (f st) as [e|[x st2]]; simpl in E; [discriminate|]. injection E as <- _. apply IH.
Qed.

(** One thread of a list makes a step. *)
Definition shrinks (ts' ts : list thread) : Prop := exists i t p q, ts !! i = Some (t, p) /\ after q p /\ ts' = <[i := (t, q)]> ts.

Lemma shrinks_acc ts : Acc shrinks ts.
Proof.
  induction ts as [|[t p] ts IH].
  { constructor. by intros ts' (i & t & p & q & E & _). }
  revert ts IH. induction (after_acc p) as [p _ IHp]. intros ts Hts. induction Hts as [ts Hts IHts].
  constructor. intros ts' ([|i] & t' & p' & q & E & A & ->); simpl in *.
  - injection E as <- <-. apply IHp; [done|]. by constructor.
  - apply IHts. exists i, t', p', q. done.
Qed.

Lemma step_acc c : Acc (flip step) c.
Proof.
  destruct c as [ts st]. revert st. induction (shrinks_acc ts) as [ts _ IH]. intros st. constructor.
  intros [ts' st'] S. inversion S as [? ? i t p p' ? Hw Hi Hp]; subst. apply IH. exists i, t, p, p'. split; [done|].
  split; [by exists st, st'|done].
Qed.

(** ** The start *)

Section Start.
Context (calloc : gmap addr lockSet -> addr) (fuel : nat).

Definition start (ths : list (tid * list task)) : list thread :=
  map (fun th => (th.1, p_tasks calloc fuel th.1 th.2)) ths.

(** No set is locked; the tasks use records that exist and at most [K] references each, which the counters hold. *)
Record start_ok (K : Z) (ths : list (tid * list task)) st : Prop := {
  so_inv : db_inv st;
  so_cnt : 0 <= recomputeCnt st;
  so_tids : NoDup ths.*1;
  so_tasks : forall t ks, (t, ks) ∈ ths -> Forall (task_ok K st) ks;
  so_room : 4 < K /\ Z.of_nat (size (lrs st)) + K * zlen ths + 2 < int_max
}.

Lemma wf_core (H : addr -> Z) R st : wf (fun _ => 0) unlocked st -> 0 <= recomputeCnt st ->
  (forall x, H x = 0) -> (forall x, ~ R x) -> core H R st.
Proof.
  intros W Hc HH HR. assert (Hlock : forall x s, sets st !! x = Some s -> lock s = None /\ ownerlocker s = None).
  { intros x s E. pose proof (wf_lock _ _ _ W x s E) as El. by injection El. }
  split.
  - intros r x. unfold plock. destruct (lrs st !! r) as [lr|] eqn:E; [|done]. intros [= <-]. by apply (wf_lr _ _ _ W).
  - intros r x Hr. destruct (wf_mem _ _ _ W x r Hr) as (lr & E & <-). unfold plock. by rewrite E.
  - apply (wf_nodup _ _ _ W).
  - intros x s E. rewrite HH. exact (wf_ref _ _ _ W x s E).
  - exact (wf_nonneg _ _ _ W).
  - intros x. rewrite (wf_active _ _ _ W). specialize (HR x). naive_solver.
  - intros x. rewrite (wf_free _ _ _ W). specialize (HR x). naive_solver.
  - apply (wf_nodup_act _ _ _ W).
  - apply (wf_nodup_free _ _ _ W).
  - intros x Hx. by apply HR in Hx.
  - intros x s E E0. destruct (Hlock x s E). by destruct (wf_idle _ _ _ W x s E E0).
  - intros x s t n E L. destruct (Hlock x s E). congruence.
  - intros x s E _. by destruct (Hlock x s E).
  - intros x s E. pose proof (wf_id _ _ _ W x s E). lia.
  - rewrite (wf_next _ _ _ W). lia.
Qed.

Lemma refsum_rest (ths : list (tid * list task)) x : refsum (map (fun th => (th.1, rest None)) ths) x = 0.
Proof. induction ths as [|[t ks] ths IH]; [done|]. simpl in *. by rewrite IH. Qed.

Lemma no_threads_links (os : list (tid * own)) st : db_ok (fun _ => 0) unlocked st -> lsets_ok st -> linv os st.
Proof.
  intros [_ G F P] Hl. split; [done| | | |].
  - intros r q x y H Hx Hy. left. unfold plock in Hx, Hy. destruct (lrs st !! r) as [lr|] eqn:E1; [|done].
    destruct (lrs st !! q) as [lq|] eqn:E2; [|done]. injection Hx as <-. injection Hy as <-.
    apply (P _ _ _ _ E1 E2), rtsc_lr, H.
  - intros r q x Hx Hy. left. unfold plock in Hx, Hy. destruct (lrs st !! r) as [lr|] eqn:E1; [|done].
    destruct (lrs st !! q) as [lq|] eqn:E2; [|done]. injection Hx as <-. injection Hy as Ey. by apply (P _ _ _ _ E1 E2).
  - intros r lr E. left. by apply (F r).
  - intros l p E. left. by apply (Hl l p).
Qed.

Lemma start_system K lim ths st : (forall m, m !! calloc m = None) -> start_ok K ths st -> retries lim (recomputeCnt st) fuel ->
  system K lim (start ths) st.
Proof.
  intros Hca [[Hok Hls _ _] Hc Nd Hts [HK Hb]] Hn. pose proof (ok_wf _ _ _ Hok) as W. set (os := map (fun th : tid * list task => (th.1, rest None)) ths).
  assert (Eo : os.*1 = ths.*1) by (unfold os; by rewrite <- list_fmap_compose).
  assert (Et : (start ths).*1 = ths.*1) by (unfold start; by rewrite <- list_fmap_compose).
  assert (Hrest : forall t o, (t, o) ∈ os -> o = rest None)
    by (intros t o ([t' ks] & [= -> ->] & _)%list_elem_of_fmap; done).
  assert (Hlock : forall x s, sets st !! x = Some s -> lock s = None).
  { intros x s E. pose proof (wf_lock _ _ _ W x s E) as El. by injection El. }
  exists os. split; [by rewrite Eo, Et|]. split.
  - split.
    + apply wf_core; [done|done|apply refsum_rest|]. intros x (t & o & ->%Hrest & Hx). by apply not_elem_of_nil in Hx.
    + by apply no_threads_links.
    + by rewrite Eo.
    + intros x s t n E L. rewrite (Hlock x s E) in L. done.
    + intros t o ->%Hrest. split; simpl; try done.
      * intros x s E n ow. rewrite (Hlock x s E). naive_solver.
      * intros x. left. lia.
      * intros r x Hx. by apply not_elem_of_nil in Hx.
      * constructor.
      * intros x Hx. by apply not_elem_of_nil in Hx.
      * intros r Hx. by apply not_elem_of_nil in Hx.
    + intros t o t' o' x ->%Hrest _ Hx. by apply not_elem_of_nil in Hx.
    + unfold os. rewrite length_map. lia.
  - intros i t p o Hi Ho. exists st. split; [reflexivity|].
    unfold start in Hi. rewrite list_lookup_fmap in Hi. destruct (ths !! i) as [[t' ks]|] eqn:E; [|done].
    injection Hi as <- <-. rewrite (Hrest t' o); [|by eapply list_elem_of_lookup_2].
    apply tasks_safe; [done|done| |done]. apply (Hts t'). by eapply list_elem_of_lookup_2.
Qed.
End Start.

(** When nothing is in the hands of a thread, the sets are the components of the links. *)
Lemma idle_links K (os : list (tid * own)) st : cinv K os st -> (forall t o, (t, o) ∈ os -> idle o) ->
  graph_ok st /\ flags0 st /\ lsets_ok st /\ part st.
Proof.
  intros I Hid. destruct (ci_links _ _ _ I) as [G E P F L].
  assert (Hclean : forall t o, (t, o) ∈ os -> clean o) by (intros t o Hin; apply (Hid t o Hin)).
  assert (Hc : forall x y, ~ crossing os x y).
  { intros x y (t & o & Hin & Hx & _). destruct (Hclean t o Hin) as (E0 & _). rewrite E0 in Hx. by apply not_elem_of_nil in Hx. }
  assert (Hstep : forall r q x, plock st r = Some x -> edge st r q \/ edge st q r -> plock st q = Some x).
  { intros r q x Hr He. assert (Hq : is_Some (recs st !! q)) by (destruct He as [H|H]; by apply (edge_dom _ _ _ G) in H as [? ?]).
    apply (g_dom _ G) in Hq as [lq Eq]. assert (Hp : plock st q = Some (plockSet lq)) by (unfold plock; by rewrite Eq).
    rewrite Hp. f_equal. destruct He as [H|H].
    - destruct (E r q x (plockSet lq) H Hr Hp) as [|H1]; [done|by apply Hc in H1].
    - destruct (E q r (plockSet lq) x H Hp Hr) as [|H1]; [done|by apply Hc in H1]. }
  assert (Hconn : forall r q x, conn st r q -> plock st r = Some x -> plock st q = Some x).
  { intros r q x H. induction H as [|r r1 q H _ IH]; [done|]. intros Hr. apply IH. eapply Hstep; [exact Hr|].
    destruct H; [by left|by right]. }
  split; [done|]. split; [|split].
  - intros r lr El. destruct (F r lr El) as [|(t & o & Hin & Hr)]; [done|]. destruct (Hclean t o Hin) as (_ & E0 & _).
    rewrite E0 in Hr. by apply not_elem_of_nil in Hr.
  - intros l p El. destruct (L l p El) as [|(t & o & Hin & Hr)]; [done|]. destruct (Hclean t o Hin) as (_ & _ & E0).
    rewrite E0 in Hr. by apply not_elem_of_nil in Hr.
  - intros r q lr lq Er Eq. assert (Hr : plock st r = Some (plockSet lr)) by (unfold plock; by rewrite Er).
    assert (Hq : plock st q = Some (plockSet lq)) by (unfold plock; by rewrite Eq). split.
    + intros Es. destruct (P r q (plockSet lr)) as [|H]; [done|congruence|done|by apply Hc in H].
    + intros H. pose proof (Hconn _ _ _ H Hr). congruence.
Qed.

(** (C2) Any number of threads lock single records, nested as they like, lock the sets of several records with a locker and change links,
    from a state in which no set is locked, in whatever order their steps come.  As long as the counters of 64 bits have room, no thread's next step
    fails an [assert], uses a pointer to nothing, unlocks a mutex it does not own or stops with [cantProceed]: at most it waits.  And two threads that use
    records at the same time use records of different lock sets. *)
Theorem threads_safe calloc fuel K ths st0 ts st :
  (forall m, m !! calloc m = None) -> start_ok K ths st0 ->
  rtc step (start calloc fuel ths, st0) (ts, st) -> roomy st ->
  (forall i t p e, ts !! i = Some (t, p) -> pstep p st = Some (inl e) -> e = LkBlocked) /\
  (forall i j t1 rs1 k1 t2 rs2 k2 r1 r2, ts !! i = Some (t1, Inside rs1 k1) -> ts !! j = Some (t2, Inside rs2 k2) ->
     i ≠ j -> r1 ∈ rs1 -> r2 ∈ rs2 ->
     exists x1 x2, plock st r1 = Some x1 /\ plock st r2 = Some x2 /\ x1 ≠ x2).
Proof.
  intros Hca Hs Hr Hw. pose proof (start_system calloc fuel K None ths st0 Hca Hs I) as S0.
  destruct (system_steps K None (fun _ => True) _ _ ltac:(done) ltac:(done) Hr S0 I) as [S _]. simpl in S. split.
  - intros i t p e Hi Hp. eapply (system_safe K None); [done|by split|done|done].
  - intros i j t1 rs1 k1 t2 rs2 k2 r1 r2 Hi Hj N H1 H2. exact (system_excludes K None ts st i j t1 rs1 k1 t2 rs2 k2 r1 r2 S Hi Hj N H1 H2).
Qed.

(** How often records can move: a change of a link moves fewer than all records to a new set and fewer than all to another. *)
Definition max_moves (ths : list (tid * list task)) st : Z :=
  foldr (fun th n => 2 * Z.of_nat (size (lrs st)) * puts th.2 + n) 0 ths.

Lemma max_moves_nonneg ths st : 0 <= max_moves ths st.
Proof. induction ths as [|th ths IH]; [done|]. cbn [max_moves foldr] in *. unfold max_moves, puts in *. lia. Qed.

Lemma start_budget calloc fuel ths st :
  budget (Z.of_nat (size (lrs st))) (recomputeCnt st + max_moves ths st) (start calloc fuel ths, st).
Proof.
  split; [done|]. exists (map (fun th => 2 * Z.of_nat (size (lrs st)) * puts th.2) ths). split.
  - unfold start. induction ths as [|th ths IH]; constructor; [|exact IH]. apply tasks_counts. lia.
  - simpl. assert (E : foldr Z.add 0 (map (fun th => 2 * Z.of_nat (size (lrs st)) * puts th.2) ths) = max_moves ths st).
    { induction ths as [|th ths IH]; [done|]. cbn [map foldr max_moves]. by rewrite IH. }
    lia.
Qed.

(** The state of a run of threads with enough retries. *)
Lemma run_system calloc fuel K ths st0 ts st :
  (forall m, m !! calloc m = None) -> start_ok K ths st0 -> max_moves ths st0 < Z.of_nat fuel ->
  rtc step (start calloc fuel ths, st0) (ts, st) ->
  let m := recomputeCnt st0 + max_moves ths st0 in system K (Some m) ts st /\ within (Some m) st.
Proof.
  intros Hca Hs Hf Hr m. set (R := Z.of_nat (size (lrs st0))).
  pose proof (start_system calloc fuel K (Some m) ths st0 Hca Hs ltac:(unfold retries, m; lia)) as S0.
  destruct (system_steps K (Some m) (budget R m) _ _ (fun c _ => budget_within R m c) (budget_step K R m) Hr S0 (start_budget calloc fuel ths st0)) as [S B].
  split; [exact S|]. exact (budget_within R m _ B).
Qed.

(** (C6) The threads end.  The retries of [dbScanLock] and [dbScanLockMany], which the code does not bound, are bounded here by [fuel]; let that be more
    than twice the number of records for every change of a link among the tasks.  Then no thread, in whatever order the steps come, uses up its
    retries: each retry is due to a change of [recomputeCnt] after the thread has read the sets of its records, and there are not that many.  There is no
    infinite sequence of steps; and where no step is left,
    every thread is done (they do not deadlock), no mutex is held, the reference count of each set is the number of its records, each record is
    in the list of its set, the sets without records are those of the free list, and two records are in the same lock set if and only if a chain of database
    links connects them. *)
Theorem threads_end calloc fuel K ths st0 ts st :
  (forall m, m !! calloc m = None) -> start_ok K ths st0 -> max_moves ths st0 < Z.of_nat fuel ->
  rtc step (start calloc fuel ths, st0) (ts, st) -> roomy st ->
  (forall i t p, ts !! i = Some (t, p) -> p ≠ Stop) /\
  Acc (flip step) (ts, st) /\
  ((forall c, ~ step (ts, st) c) ->
   (forall i t p, ts !! i = Some (t, p) -> p = Ret tt) /\
   (forall x s, sets st !! x = Some s -> lock s = None /\ ownerlocker s = None /\
      refcount s = zlen (lockRecordList s) /\ (x ∈ lockSetsFree st <-> lockRecordList s = [])) /\
   (forall r x, plock st r = Some x <-> exists s, sets st !! x = Some s /\ r ∈ lockRecordList s) /\
   graph_ok st /\ flags0 st /\ lsets_ok st /\ part st).
Proof.
  intros Hca Hs Hf Hr Hw. destruct (run_system calloc fuel K ths st0 ts st Hca Hs Hf Hr) as [S Hwi].
  set (m := recomputeCnt st0 + max_moves ths st0) in *. split; [by eapply system_no_stop|]. split; [apply step_acc|]. intros Hend.
  destruct (system_progress K m ts st (conj Hw Hwi) S) as [[c Hc]|[Hd (os & I & Hid)]]; [by apply Hend in Hc|].
  split; [done|]. pose proof (ci_core _ _ _ I) as C.
  assert (Hz : forall x, refsum os x = 0).
  { intros x. clear -Hid. induction os as [|[t o] os IH]; [done|]. simpl. destruct (Hid t o) as [-> _]; [by left|].
    rewrite IH; [done|]. intros t' o' Hin. apply (Hid t'). by right. }
  assert (Hret : forall x, ~ retiring os x).
  { intros x (t & o & Hin & Hx). destruct (Hid t o Hin) as (_ & _ & E & _). rewrite E in Hx. by apply not_elem_of_nil in Hx. }
  split.
  - intros x s E. assert (L : lock s = None).
    { destruct (lock s) as [[t [|n]]|] eqn:L; [|exfalso|done].
      - pose proof (co_mut _ _ _ C x s _ _ E L). lia.
      - pose proof (ci_owner _ _ _ I x s t _ E L) as Ht. apply list_elem_of_fmap in Ht as ([t' o] & -> & Hin).
        destruct (Hid t' o Hin) as (_ & Hl & _). specialize (Hl x).
        rewrite (proj2 (ti_lock _ _ _ _ _ (ci_each _ _ _ I t' o Hin) x s E n (ownerlocker s))) in Hl; done. }
    pose proof (co_ref _ _ _ C x s E) as Ec. rewrite Hz, Z.add_0_r in Ec.
    split; [done|]. split; [by apply (co_own _ _ _ C x s)|]. split; [done|]. rewrite (co_free _ _ _ C). split.
    + intros (s' & E' & E0 & _). rewrite E in E'. injection E' as <-. rewrite Ec in E0. by destruct (lockRecordList s).
    + intros El. exists s. split; [done|]. rewrite Ec, El. by split.
  - split; [|exact (idle_links K os st I Hid)].
    intros r x. rewrite (core_members _ _ _ r x C). split; [apply members_some|].
    intros (s & E & Hin). by rewrite (members_lookup _ _ _ E).
Qed.

(** ** An example *)

(** The threads make their steps in the order of their numbers in [l]; those who cannot are passed over. *)
Fixpoint sched (l : list nat) (c : list thread * lk_state) : list thread * lk_state :=
  match l with
  | [] => c
  | i :: l => sched l
      (if (next_id c.2 <? 2 ^ 64 - 1) && (recomputeCnt c.2 <? 2 ^ 64 - 1) then
         match c.1 !! i with
         | Some (t, p) =>
             match pstep p c.2 with Some (inr (q, st)) => (<[i := (t, q)]> c.1, st) | _ => c end
         | None => c
         end
       else c)
  end.

Lemma sched_rtc l : forall c, rtc step c (sched l c).
Proof.
  induction l as [|i l IH]; intros [ts st]; [apply rtc_refl|]. cbn [sched fst snd].
  destruct (_ && _) eqn:Hw; [|apply IH]. apply andb_true_iff in Hw as [H1%Z.ltb_lt H2%Z.ltb_lt].
  destruct (ts !! i) as [[t p]|] eqn:Hi; [|apply IH].
  destruct (pstep p st) as [[e|[q st']]|] eqn:Hp; [apply IH| |apply IH].
  eapply rtc_l; [|apply IH]. by eapply step_thread.
Qed.

(** The link of [recb] names [recc]; it is to name [reca]. *)
Definition test_threads : list (tid * list task) :=
  [(1%positive, [TScan reca 2]); (2%positive, [TPut 9%positive plain_put (sdis recb) PV_LINK (Some reca)]);
   (3%positive, [TUse 8%positive [recd; recc; rece]; TScan reca 1])].
Definition test_state : lk_state := match test_start with inr st => st | inl _ => test_db end.
Definition test_init := (start next_addr 30 test_threads, test_state).

Definition kind_of (c : list thread * lk_state) (i : nat) : option (list recid + option lk_fault) :=
  match c.1 !! i with
  | Some (_, Inside rs _) => Some (inl rs)
  | Some (_, p) => match pstep p c.2 with Some (inl e) => Some (inr (Some e)) | Some _ => Some (inr None) | None => None end
  | None => None
  end.

Lemma test_start_ok : start_ok 6 test_threads test_state.
Proof.
  destruct (proj1 (wp_inr _ _) (run_links_spec next_addr 1%positive 3 next_addr_fresh ltac:(lia) test_recs test_links [] test_db
    test_db_loaded ltac:(compute_done) test_links_there ltac:(by intros c ?%not_elem_of_nil))) as (st & E & I & Hd & _).
  assert (Est : test_state = st) by (unfold test_state, test_start, test_run; by rewrite E).
  assert (Hin : forall r, r ∈ test_recs -> is_Some (recs st !! r) /\ is_Some (lrs st !! r)).
  { intros r Hr. apply Hd in Hr. split; [|done]. by apply (g_dom _ (ok_graph _ _ _ (inv_ok _ I))). }
  split.
  - by rewrite Est.
  - compute_done.
  - compute_done.
  - rewrite Est. intros t ks. unfold test_threads. rewrite !elem_of_cons, elem_of_nil.
    intros [[= -> ->]|[[= -> ->]|[[= -> ->]|[]]]]; rewrite ?Forall_cons, ?Forall_nil.
    + split; [|done]. apply Hin. compute_done.
    + split; [|done]. split; [|split].
      * intros r [->|[= <-]]; apply Hin; compute_done.
      * rewrite <- Est. compute_done.
      * done.
    + split; [|split; [apply Hin; compute_done|done]]. split; [done|]. split; [done|].
      intros r Hr. apply Hin. revert r Hr. apply Forall_forall. compute_done.
  - compute_done.
Qed.

Lemma kind_inside c i rs : kind_of c i = Some (inl rs) -> exists t k, c.1 !! i = Some (t, Inside rs k).
Proof.
  unfold kind_of. destruct (c.1 !! i) as [[t [a| |rs' k|X f k]]|]; simpl; try done.
  - intros [= <-]. eauto.
  - by destruct (f c.2) as [|[]].
Qed.

(** [reca] is locked twice, the third thread uses its records, the second waits for [reca]. *)
Definition test_busy := sched (replicate 11 0%nat ++ replicate 16 2%nat ++ replicate 40 1%nat) test_init.

Lemma threads_safe_witness : kind_of test_busy 0 = Some (inl [reca]) /\ kind_of test_busy 2 = Some (inl [recd; recc; rece]) /\
  kind_of test_busy 1 = Some (inr (Some LkBlocked)) /\
  exists x1 x2, plock test_busy.2 reca = Some x1 /\ plock test_busy.2 recc = Some x2 /\ x1 ≠ x2.
Proof.
  assert (H0 : kind_of test_busy 0 = Some (inl [reca])) by (vm_compute; reflexivity).
  assert (H2 : kind_of test_busy 2 = Some (inl [recd; recc; rece])) by (vm_compute; reflexivity).
  assert (H1 : kind_of test_busy 1 = Some (inr (Some LkBlocked))) by (vm_compute; reflexivity).
  assert (Hw : roomy test_busy.2) by (split; vm_compute; reflexivity).
  split; [exact H0|]. split; [exact H2|]. split; [exact H1|].
  assert (Hr : rtc step test_init test_busy) by exact (sched_rtc _ test_init). destruct (kind_inside _ _ _ H0) as (t0 & k0 & E0). destruct (kind_inside _ _ _ H2) as (t2 & k2 & E2).
  revert Hr Hw E0 E2. generalize test_busy. intros [ts st] Hr Hw E0 E2.
  destruct (threads_safe next_addr 30 6 test_threads test_state ts st next_addr_fresh test_start_ok Hr Hw) as [_ H].
  eapply (H 0%nat 2%nat); [exact E0|exact E2|discriminate|by left|right; by left].
Defined.

Definition all_done (ts : list thread) : bool :=
  forallb (fun th => match snd th with Ret _ => true | _ => false end) ts.

Lemma all_done_spec ts : all_done ts = true -> forall i t p, ts !! i = Some (t, p) -> p = Ret tt.
Proof.
  intros H i t p E. unfold all_done in H. rewrite forallb_forall in H.
  specialize (H (t, p) ltac:(apply list_elem_of_In; by eapply list_elem_of_lookup_2)). simpl in H. by destruct p as [[]| | |].
Qed.

Definition test_end := sched
  (concat (replicate 3 (replicate 40 0%nat ++ replicate 16 2%nat ++ replicate 80 1%nat))  ++ replicate 80 2%nat ++ replicate 80 1%nat) test_init.

(** [reca] is in the set of [recb] then, [recc] alone. *)
Lemma threads_end_witness : all_done test_end.1 = true /\
  sets_of (inr test_end.2) = Some [(3, 2); (3, 2); (4, 1); (5, 3); (5, 3); (5, 3); (8, 1)] /\
  (forall x s, sets test_end.2 !! x = Some s -> lock s = None /\ refcount s = zlen (lockRecordList s)) /\
  conn test_end.2 reca recb /\ ~ conn test_end.2 recb recc.
Proof.
  assert (Hd : all_done test_end.1 = true) by (vm_compute; reflexivity).
  assert (Hs : sets_of (inr test_end.2) = Some [(3, 2); (3, 2); (4, 1); (5, 3); (5, 3); (5, 3); (8, 1)]) by (vm_compute; reflexivity).
  assert (Hw : roomy test_end.2) by (split; vm_compute; reflexivity).
  assert (Ha : lrs test_end.2 !! reca = Some (mkLr 3 0)) by (vm_compute; reflexivity).
  assert (Hb : lrs test_end.2 !! recb = Some (mkLr 3 0)) by (vm_compute; reflexivity).
  assert (Hc : lrs test_end.2 !! recc = Some (mkLr 4 0)) by (vm_compute; reflexivity).
  assert (Hf : max_moves test_threads test_state < 30) by (vm_compute; reflexivity).
  split; [exact Hd|]. split; [exact Hs|].
  assert (Hr : rtc step test_init test_end) by exact (sched_rtc _ test_init). revert Hr Hw Hd Ha Hb Hc. generalize test_end.
  intros [ts st] Hr Hw Hd Ha Hb Hc. cbn [fst snd] in *.
  destruct (threads_end next_addr 30 6 test_threads test_state ts st next_addr_fresh test_start_ok Hf Hr Hw) as (_ & _ & H).
  destruct H as (_ & H & _ & _ & _ & _ & P).
  - intros c Hs'. inversion Hs' as [? ? i t p p' ? _ Hi Hp]; subst. pose proof (all_done_spec ts Hd i t p Hi) as ->. done.
  - split; [intros x s E; destruct (H x s E) as (H1 & _ & H3 & _); by split|].
    split; [exact (proj1 (P _ _ _ _ Ha Hb) eq_refl)|]. intros H1. discriminate (proj2 (P _ _ _ _ Hb Hc) H1).
Defined.
